(* ===== verification/_CoqProject ===== *)
-Q . S2P
Prelude.v
Slices.v
Numerals.v
Utf8.v
Arena.v
ArenaClass.v
ArenaFacts.v
ArenaSpec.v
ArenaHeap.v
ArenaWrite.v
KeyPack.v
KeyPackFacts.v
Table.v
TableFacts.v
TableInv.v
TableOps.v
TableSpec.v
Resp.v
RespFacts.v
RespFast.v
RespSpec.v
Codec.v
CodecFacts.v
Ident.v
IdentFacts.v
Compress.v
Solana.v
Dictionary.v
DictionaryFacts.v
Shape.v
Registry.v
RegistrySpec.v
Entry.v
Glob.v
Expiry.v
HotHash.v
HotHashFacts.v
Shard.v
ShardFacts.v
ListPack.v
ListFacts.v
ListIndexed.v
ListOps.v
ListCold.v
Values.v
Engine.v
EngineFacts.v
StoreFacts.v
Commands.v
Guard.v
ListCommands.v
ListSpec.v
ListBytes.v
ListTheorems.v
CommandFacts.v
ListStore.v
StoreSpec.v
StoreRefines.v
ListRefines.v
StoreTheorems.v
Json.v
JsonFacts.v
Records.v
RecordsFacts.v
Persist.v
PersistFacts.v
PersistSpec.v
AofLog.v
AofFacts.v
AofInv.v
AofWorld.v
AofSpec.v
ShapeFacts.v
Recovery.v
RecoveryFacts.v
RestoreFacts.v
Durable.v
DurableFacts.v
DurableSpec.v
DurableTheorems.v
