(* ===== verification/Prelude.v ===== *)
(** * SnugKV: verification of an in-memory key-value store

    SnugKV is a server that speaks the Redis protocol and keeps its data in
    memory in compact form. A request is decoded from RESP (internal/resp) and
    run as a command of the store (internal/engine). The store splits the keys
    over shards by hash. A shard finds a key through an open-addressed index
    whose keys are packed records in a log (internal/index), which gives the id of
    a 16-byte packed entry. An entry refers to a value in the shard's arena
    (internal/arena), encoded by one of the codecs of a registry (internal/codec),
    or holds a small value inline. Deadlines are in a heap per shard. The store
    accounts for every byte of these structures to enforce a memory limit. A list
    is one block of the arena in one of three layouts. The server (internal/server)
    records what a write did to its keys in an append-only log
    (internal/persistence), undoes the write when that fails, and restores the
    store from the log when it starts (cmd/snugkv).

    This library models these parts as pure functions over explicit state and
    proves what they promise, each against the next: arena, index, codecs, queue,
    shard, lists, the store on top of all of them, the log beside it, and the
    server that keeps the two together.

    ** Conventions

    A Go function that can fail returns a [res]: a value, an error, or a panic
    (explicit, or a bounds failure of an index or slice expression). An operation
    that mutates its receiver takes it and returns it. Machine integers are [Z]
    with wrap-around written out ([u32], [u64], [i64]); bytes are
    [Init.Byte.byte]; a slice is the list of its elements, with its capacity
    where the code reads it; pointers that are shared are addresses into a map.
    What is not source here is a parameter: the seeded hash of the runtime
    ([maphash]), the growth of [append] ([growslice]), float conversion and the
    compressors (the record [Library]), the order in which a map is ranged over
    and the validity of a JSON text (the record [Orders]), and the parts of the
    engine outside the model (the classes [Peers] and [OtherValues]). The theorems
    on recovery suppose of these that ranging over a map visits each key once, and
    that a valid JSON text is a sequence of closed tokens. Loops that
    are not structural take fuel. Locks are not modelled: a command is one step, and
    it reads the clock once.

    ** Files

    - Prelude: results, machine words, byte and list lemmas, sums.
    - Numerals: positional numerals and the decimal conversions of strconv.
    - Arena (arena.go, ref_generation.go, memory.go); ArenaClass, ArenaFacts
      and ArenaSpec: the arena is a store of live values. Allocation returns a
      reference that reads the value back and disturbs no other; a freed reference
      is detected until the generation counter wraps; growth is forecast exactly.
      ArenaHeap: the same for inline, empty and block values at once.
    - KeyPack (keypack.go) and KeyPackFacts: every key is read back from its
      record by every reader.
    - Table (table.go); TableFacts, TableInv, TableOps and TableSpec: the index
      is a finite map for every hash function, compaction is exact, and growth
      stays within the forecast.
    - Resp (parser.go), RespFacts, RespFast and RespSpec: the decoder accepts
      exactly the framed requests within its limits, what the loopback client
      writes is what it reads, and the fast paths agree with it.
    - Codec, Ident, Compress, Solana (codec.go, identifier.go, compression.go,
      solana.go) with CodecFacts and IdentFacts: each codec rebuilds the texts it
      accepts. Dictionary (dictionary.go) and DictionaryFacts: a retained value
      is never lost. Shape (jsonshape): the catalog of JSON templates. Registry
      and RegistrySpec: whatever representation is chosen decodes to the value.
    - Entry (entry_pack.go, value_type.go): packed entries round-trip.
    - Glob (glob.go): the matcher accepts the language of its pattern.
    - Expiry (expiration.go): the indexed heap is a map of deadlines with the
      earliest at the root.
    - HotHash (hash_hot.go) and HotHashFacts: a promoted hash is a finite map.
    - Shard (shard.go) and ShardFacts: a shard is a finite map from keys to
      entries, and its growth is forecast exactly.
    - Engine (engine.go, memory.go, time.go, value_type.go): encoding, admission,
      accounting, publishing and removing. Values: what the bytes of an entry
      mean, a string or a list. EngineFacts and StoreFacts: the invariant of a
      shard and of the store, kept by both. ArenaWrite: storing through the slice
      of a block.
    - ListPack (list.go, list_indexed.go, list_cold.go): the three layouts of a
      list, byte by byte. ListFacts, ListIndexed, ListOps and ListCold: each layout
      holds its list through growth, in-place appends and pops, and trimming.
      ListSpec: the reference functions on plain lists. ListBytes and
      ListTheorems: the layout does not show.
    - Commands (commands.go, engine.go, string_compat.go, inspection.go,
      expiration.go): the commands on strings and keys. ListCommands (list.go,
      list_extra.go, list_replace.go, list_rename.go): those on lists. Guard
      (server/scalar_type_guard.go): the check of the types of keys in front of
      them. CommandFacts and ListStore: their common steps. StoreSpec: what each
      command promises, as a function of the items that have not expired.
      StoreRefines, ListRefines and StoreTheorems: any session of commands on a
      new store answers as specified, accounts for its memory exactly and reclaims
      expired keys.
    - Slices and Utf8: byte-slice helpers and the UTF-8 rules of encoding/json.
      Json and JsonFacts: encoding/json for the records. Records and RecordsFacts
      (persistence/log.go): the records of the log, which frames preserve. Persist,
      PersistFacts and PersistSpec (log.go): reading a log or a
      snapshot after any damage at its end, and detecting other damage.
    - AofLog, AofFacts, AofInv, AofWorld and AofSpec (log.go): the append-only log
      with its writer goroutine, sync policies and rewriting, on a file system that
      can fail and crash: acknowledged writes survive, and rewriting is atomic.
    - ShapeFacts: cutting a JSON text into a template never goes out of range.
      Recovery (engine/persistence.go, rewrite.go, global_shapes.go): the export of
      items as records, and restoring records one by one or in a batch that is
      first checked against the memory limit. RecoveryFacts and RestoreFacts: the
      export carries the live items, and restoring applies all records or none.
    - Durable (server/durability.go, pressure.go, server.go, list_commands.go,
      command_metadata.go, cmd/snugkv/main.go): commands executed with a journal,
      rollback and recovery. DurableFacts, DurableSpec and DurableTheorems: a
      command changes only the keys it journals, so that a server is recovered
      from its log cut anywhere, or from a snapshot; a write that could not be
      journaled is undone; and vector sets, which are exported, are refused.

    ** Bounds

    A session of the store has at most 2^25 commands whose key records fit the
    2^30 bytes of one key log, so that entry ids, arena segments and log offsets
    cannot run out in any shard; values have at most 32 MiB, which the commands
    enforce. In a session of the server a request counts once and once more for
    each key it names, and its keys twice, since a rollback writes them again; and
    what it pushes to lists stays within the 32 MiB of a packed list, beyond which
    the export of a list panics. The values of one push have at most 2^39 bytes,
    far above what a
    request may carry. The clock starts one millisecond after the epoch, since a
    deadline of zero means none. Fuel: the number of slots for a probe, the length
    of the input for a scan, twice that for the JSON parser, the size of the heap
    for a sift, the pending deadlines for a sweep, the queue for the writer, the
    file for the reader, ten bytes for a varint, 64 doublings for a capacity; the
    theorems show that it suffices.

    In the file system of the log a write or a sync may fail at any point, a crash
    keeps what was synced and any part of the rest, and a truncation is durable.
    The upper case of a command name is modelled as far as a comparison with an
    ASCII name can tell.

    ** What is not modelled

    Multi-key writes, LMOVE, bit commands and the other container types (hashes,
    sets, sorted sets, streams, JSON, probabilistic types, time series, vectors),
    the search index, background rewriting, and the client libraries: each is
    thousands of lines of its own. Of the server only the type guard and the
    execution of single commands with a journal are modelled; its network loop,
    the parsing of options, transactions, scripts, eviction, replication, cluster
    and access control are not. In the theorems on the store and the server the
    values are strings and lists: the branches for streams, JSON and promoted
    hashes are in the models of publishing, removing and recovering, and the
    invariant excludes them. *)
From Stdlib Require Export ZArith Lia ZifyNat Strings.Byte.
From stdpp Require Export base decidable list countable gmap strings.

#[global] Open Scope Z_scope.

(** [lia] after dropping function-typed variables the goal does not mention, so
    that lemmas in a section only depend on the parameters they are about. *)
Ltac clear_functions :=
  repeat match goal with
  | f : ?A |- _ =>
      lazymatch type of A with
      | Prop => fail
      | _ => lazymatch A with _ → _ => clear f end
      end
  end.
Ltac lia := clear_functions; Lia.lia.

(** Linear arithmetic with division and modulo, on [nat] and [Z]. *)
Ltac dlia := clear_functions; zify; Z.to_euclidean_division_equations; Lia.lia.

(** ** Results of Go functions

    A Go function returns a value, returns a non-nil [error], or panics
    (an explicit [panic] call or a runtime bounds failure). *)

Inductive res (A : Type) : Type :=
| Ret (a : A)
| Err (e : string)
| Panic (p : string).
Arguments Ret {A} a.
Arguments Err {A} e.
Arguments Panic {A} p.

#[export] Instance res_ret : MRet res := fun _ a => Ret a.
#[export] Instance res_bind : MBind res := fun _ _ f m =>
  match m with Ret a => f a | Err e => Err e | Panic p => Panic p end.

(** [guard_panic b p k] is the Go idiom [if b { panic(p) }; k]. *)
Definition guard_panic {A} (b : bool) (p : string) (k : res A) : res A :=
  if b then Panic p else k.

Definition is_ret {A} (r : res A) : bool :=
  match r with Ret _ => true | _ => false end.

Definition is_panic {A} (r : res A) : bool :=
  match r with Panic _ => true | _ => false end.

Lemma res_bind_ret {A B} (a : A) (f : A → res B) : (Ret a ≫= f) = f a.
Proof. reflexivity. Qed.

Lemma res_bind_inv {A B} (m : res A) (f : A → res B) b :
  (m ≫= f) = Ret b → ∃ a, m = Ret a ∧ f a = Ret b.
Proof. destruct m; try discriminate. cbn. eauto. Qed.

(** ** Bytes *)

#[export] Instance byte_eq_decision : EqDecision byte := Byte.byte_eq_dec.

(** Numeric value of a byte, and Go's [byte(z)] conversion. *)
Definition bz (b : byte) : Z := Z.of_N (Byte.to_N b).
Definition zb (z : Z) : byte := default x00 (Byte.of_N (Z.to_N (z mod 256))).

Lemma bz_range b : 0 ≤ bz b < 256.
Proof. unfold bz. pose proof (Byte.to_N_bounded b). lia. Qed.

Lemma bz_zb z : bz (zb z) = z mod 256.
Proof.
  unfold bz, zb. pose proof (Z.mod_pos_bound z 256 ltac:(lia)).
  destruct (Byte.of_N _) as [b|] eqn:E; cbn.
  - apply Byte.to_of_N in E. rewrite E. lia.
  - apply Byte.of_N_None_iff in E. lia.
Qed.

Lemma bz_inj b1 b2 : bz b1 = bz b2 → b1 = b2.
Proof.
  unfold bz. intros H%N2Z.inj.
  assert (E : Byte.of_N (Byte.to_N b1) = Byte.of_N (Byte.to_N b2)) by congruence.
  rewrite !Byte.of_to_N in E. congruence.
Qed.

Lemma zb_bz b : zb (bz b) = b.
Proof. apply bz_inj. rewrite bz_zb, Z.mod_small; [done|apply bz_range]. Qed.

#[export] Instance byte_countable : Countable byte.
Proof.
  refine (inj_countable' Byte.to_N (fun n => default x00 (Byte.of_N n)) _).
  intros b. by rewrite Byte.of_to_N.
Defined.

(** ** Fixed-width unsigned arithmetic *)

Definition u8 (z : Z) : Z := z mod 2 ^ 8.
Definition u16 (z : Z) : Z := z mod 2 ^ 16.
Definition u32 (z : Z) : Z := z mod 2 ^ 32.
Definition u64 (z : Z) : Z := z mod 2 ^ 64.

(** Conversion to the signed 64-bit [int]. *)
Definition i64 (z : Z) : Z := (z + 2 ^ 63) mod 2 ^ 64 - 2 ^ 63.

Lemma u32_id z : 0 ≤ z < 2 ^ 32 → u32 z = z.
Proof. apply Z.mod_small. Qed.

Lemma i64_id z : - 2 ^ 63 ≤ z < 2 ^ 63 → i64 z = z.
Proof. intros. unfold i64. rewrite Z.mod_small; lia. Qed.

Lemma u64_id z : 0 ≤ z < 2 ^ 64 → u64 z = z.
Proof. apply Z.mod_small. Qed.

(** Bit-field packing: a disjoint [lor] is a sum, [land] with a mask of ones a
    remainder and [shiftr] a quotient. *)
Lemma lor_shiftl_add hi lo k :
  0 ≤ k → 0 ≤ lo < 2 ^ k → Z.lor (Z.shiftl hi k) lo = hi * 2 ^ k + lo.
Proof.
  intros Hk Hlo. rewrite <- Z.shiftl_mul_pow2 by done.
  symmetry. apply Z.add_nocarry_lor.
  apply Z.bits_inj'; intros i Hi; rewrite Z.land_spec, Z.bits_0.
  destruct (decide (i < k)).
  - by rewrite Z.shiftl_spec_low by done.
  - apply andb_false_intro2.
    rewrite <- (Z.mod_small lo (2 ^ k)) by done. apply Z.mod_pow2_bits_high. lia.
Qed.

Lemma land_mask a k : 0 ≤ k → Z.land a (2 ^ k - 1) = a mod 2 ^ k.
Proof. intros. rewrite <- Z.land_ones by done. by rewrite Z.ones_equiv, Z.sub_1_r. Qed.

Lemma shiftr_div a k : 0 ≤ k → Z.shiftr a k = a / 2 ^ k.
Proof. intros. by rewrite Z.shiftr_div_pow2. Qed.

(** Go's [x &^ (2^k-1)] rounds down to a multiple of [2^k]. *)
Lemma ldiff_mask a k : 0 ≤ k → Z.ldiff a (2 ^ k - 1) = a - a mod 2 ^ k.
Proof.
  intros.
  replace (2 ^ k - 1) with (Z.ones k) by (rewrite Z.ones_equiv; lia).
  rewrite Z.ldiff_ones_r, Z.shiftl_mul_pow2, Z.shiftr_div_pow2 by done.
  pose proof (Z.div_mod a (2 ^ k) ltac:(apply Z.pow_nonzero; lia)). lia.
Qed.

(** ** Slices indexed by Go's [int]

    Indices and lengths are [Z]; an index or slice expression out of range is
    a runtime panic in Go and [None] (or [Panic]) here. *)

Definition zlen {A} (l : list A) : Z := Z.of_nat (length l).

Definition znth {A} (l : list A) (i : Z) : option A :=
  if 0 <=? i then l !! Z.to_nat i else None.

(** [l[i:j]] *)
Definition zslice {A} (l : list A) (i j : Z) : option (list A) :=
  if (0 <=? i) && (i <=? j) && (j <=? zlen l)
  then Some (take (Z.to_nat (j - i)) (drop (Z.to_nat i) l)) else None.

(** [l[i] = x] *)
Definition zupd {A} (l : list A) (i : Z) (x : A) : option (list A) :=
  if (0 <=? i) && (i <? zlen l) then Some (<[Z.to_nat i := x]> l) else None.

(** [copy(l[off:], src)]: overwrite at [off], never past the end of [l]. *)
Definition copy_at {A} (l : list A) (off : Z) (src : list A) : list A :=
  take (Z.to_nat off) l
  ++ take (length l - Z.to_nat off) src
  ++ drop (Z.to_nat off + length src) l.

Definition or_panic {A} (o : option A) (p : string) : res A :=
  match o with Some a => Ret a | None => Panic p end.

Definition oob : string := "index out of range".

Lemma zlen_nonneg {A} (l : list A) : 0 ≤ zlen l.
Proof. unfold zlen. lia. Qed.

Lemma zlen_app {A} (l k : list A) : zlen (l ++ k) = zlen l + zlen k.
Proof. unfold zlen. rewrite length_app. lia. Qed.

Lemma zlen_cons {A} (x : A) l : zlen (x :: l) = 1 + zlen l.
Proof. unfold zlen. cbn [length]. lia. Qed.

Lemma zlen_nil {A} : zlen (@nil A) = 0.
Proof. reflexivity. Qed.

Lemma to_nat_zlen {A} (l : list A) : Z.to_nat (zlen l) = length l.
Proof. unfold zlen. lia. Qed.

Lemma zlen_snoc {A} (l : list A) x : zlen (l ++ [x]) = zlen l + 1.
Proof. by rewrite zlen_app. Qed.

Lemma zlen_replicate {A} n (x : A) : 0 ≤ n → zlen (replicate (Z.to_nat n) x) = n.
Proof. intros. unfold zlen. rewrite length_replicate. lia. Qed.

Lemma znth_Some {A} (l : list A) i x :
  znth l i = Some x → 0 ≤ i < zlen l.
Proof.
  unfold znth, zlen. destruct (Z.leb_spec 0 i); [|done].
  intros ?%lookup_lt_Some. lia.
Qed.

Lemma znth_is_Some {A} (l : list A) i : 0 ≤ i < zlen l → ∃ x, znth l i = Some x.
Proof.
  unfold znth, zlen. intros. destruct (Z.leb_spec 0 i); [|lia].
  apply lookup_lt_is_Some. lia.
Qed.

Lemma znth_lookup {A} (l : list A) i : 0 ≤ i → znth l i = l !! Z.to_nat i.
Proof. unfold znth. intros. by destruct (Z.leb_spec 0 i); [|lia]. Qed.

Lemma zupd_Some {A} (l : list A) i x :
  0 ≤ i < zlen l → zupd l i x = Some (<[Z.to_nat i := x]> l).
Proof.
  unfold zupd. intros.
  destruct (Z.leb_spec 0 i), (Z.ltb_spec i (zlen l)); cbn; done || lia.
Qed.

Lemma zslice_Some {A} (l : list A) i j :
  0 ≤ i → i ≤ j → j ≤ zlen l →
  zslice l i j = Some (take (Z.to_nat (j - i)) (drop (Z.to_nat i) l)).
Proof.
  unfold zslice. intros.
  destruct (Z.leb_spec 0 i), (Z.leb_spec i j), (Z.leb_spec j (zlen l)); cbn; done || lia.
Qed.

Lemma zslice_inv {A} (l : list A) i j s :
  zslice l i j = Some s →
  0 ≤ i ∧ i ≤ j ∧ j ≤ zlen l ∧ s = take (Z.to_nat (j - i)) (drop (Z.to_nat i) l).
Proof.
  unfold zslice.
  destruct (Z.leb_spec 0 i), (Z.leb_spec i j), (Z.leb_spec j (zlen l)); cbn;
    intros; simplify_eq; auto.
Qed.

Lemma zslice_len {A} (l : list A) i j s : zslice l i j = Some s → zlen s = j - i.
Proof.
  intros (?&?&?&->)%zslice_inv. unfold zlen in *. rewrite length_take, length_drop. lia.
Qed.

(** A slice that falls exactly on the middle of an append. *)
Lemma zslice_app {A} (l1 l2 l3 : list A) i j :
  i = zlen l1 → j = zlen l1 + zlen l2 → zslice (l1 ++ l2 ++ l3) i j = Some l2.
Proof.
  intros -> ->. rewrite zslice_Some; rewrite ?zlen_app; [|unfold zlen; lia..].
  f_equal. unfold zlen. rewrite Nat2Z.id, drop_app_length.
  rewrite take_app_le by lia. apply take_ge. lia.
Qed.

(** Elementwise reading of a slice. *)
Lemma zslice_ext {A} (l l' : list A) i j s :
  zslice l i j = Some s → zlen l' = zlen l →
  (∀ k, i ≤ k < j → znth l' k = znth l k) → zslice l' i j = Some s.
Proof.
  intros (?&?&?&->)%zslice_inv Hlen Hext.
  rewrite zslice_Some by lia. f_equal. apply list_eq. intros k.
  destruct (decide (Z.of_nat k < j - i)).
  - rewrite !lookup_take_lt, !lookup_drop by lia.
    specialize (Hext (i + Z.of_nat k) ltac:(lia)). unfold znth in Hext.
    destruct (Z.leb_spec 0 (i + Z.of_nat k)); [|lia].
    by replace (Z.to_nat i + k)%nat with (Z.to_nat (i + Z.of_nat k)) by lia.
  - by rewrite !lookup_take_ge by lia.
Qed.

Lemma copy_at_length {A} (l : list A) off src :
  0 ≤ off → off + zlen src ≤ zlen l → zlen (copy_at l off src) = zlen l.
Proof.
  unfold copy_at, zlen. intros.
  rewrite !length_app, !length_take, length_drop. lia.
Qed.

Lemma copy_at_split {A} (l : list A) off src :
  0 ≤ off → off + zlen src ≤ zlen l →
  copy_at l off src =
    take (Z.to_nat off) l ++ src ++ drop (Z.to_nat (off + zlen src)) l.
Proof.
  unfold copy_at, zlen. intros. rewrite (take_ge src) by lia.
  do 3 f_equal. lia.
Qed.

Lemma copy_at_read {A} (l : list A) off src :
  0 ≤ off → off + zlen src ≤ zlen l →
  zslice (copy_at l off src) off (off + zlen src) = Some src.
Proof.
  intros. rewrite copy_at_split by done.
  apply zslice_app; unfold zlen in *; rewrite length_take; lia.
Qed.

Lemma copy_at_other {A} (l : list A) off src k :
  0 ≤ off → off + zlen src ≤ zlen l → (k < off ∨ off + zlen src ≤ k) →
  znth (copy_at l off src) k = znth l k.
Proof.
  intros ?? Hk. rewrite copy_at_split by done. unfold znth, zlen in *.
  destruct (Z.leb_spec 0 k); [|done]. destruct Hk.
  - rewrite lookup_app_l by (rewrite length_take; lia). apply lookup_take_lt. lia.
  - rewrite lookup_app_r by (rewrite length_take; lia).
    rewrite length_take, lookup_app_r by lia. rewrite lookup_drop. f_equal. lia.
Qed.

(** A slice disjoint from the copied range is unchanged. *)
Lemma copy_at_frame {A} (l : list A) off src i j s :
  0 ≤ off → off + zlen src ≤ zlen l → (j ≤ off ∨ off + zlen src ≤ i) →
  zslice l i j = Some s → zslice (copy_at l off src) i j = Some s.
Proof.
  intros ?? Hd Hs. eapply zslice_ext; [done|by apply copy_at_length|].
  intros k Hk. apply copy_at_other; lia.
Qed.

Lemma zslice_app_l {A} (l k : list A) i j s :
  zslice l i j = Some s → zslice (l ++ k) i j = Some s.
Proof.
  intros (?&?&?&->)%zslice_inv. unfold zlen in *.
  rewrite zslice_Some by (rewrite ?zlen_app; unfold zlen; lia).
  f_equal. rewrite drop_app_le by lia. rewrite take_app_le; [done|].
  rewrite length_drop. lia.
Qed.

Lemma zslice_sub {A} (l : list A) i j s a b t :
  zslice l i j = Some s → zslice s a b = Some t → zslice l (i + a) (i + b) = Some t.
Proof.
  intros (?&?&?&->)%zslice_inv Hs.
  pose proof Hs as (?&?&Hb&->)%zslice_inv.
  unfold zlen in Hb. rewrite length_take, length_drop in Hb. unfold zlen in *.
  rewrite zslice_Some by (unfold zlen; lia). f_equal.
  apply list_eq. intros k.
  destruct (decide (Z.of_nat k < b - a)).
  - rewrite !lookup_take_lt, !lookup_drop by lia.
    rewrite lookup_take_lt, lookup_drop by lia. f_equal. lia.
  - by rewrite !lookup_take_ge by lia.
Qed.

(** ** [encoding/binary]: little-endian words *)

Fixpoint le_put (n : nat) (z : Z) : list byte :=
  match n with
  | O => []
  | S n => zb z :: le_put n (Z.shiftr z 8)
  end.

Fixpoint le_get (l : list byte) : Z :=
  match l with
  | [] => 0
  | b :: l => Z.lor (Z.shiftl (le_get l) 8) (bz b)
  end.

Lemma length_le_put n z : length (le_put n z) = n.
Proof. revert z. induction n; cbn; auto. Qed.

Lemma zlen_le_put n z : zlen (le_put n z) = Z.of_nat n.
Proof. unfold zlen. by rewrite length_le_put. Qed.

Lemma le_get_cons b l : le_get (b :: l) = le_get l * 256 + bz b.
Proof. cbn [le_get]. pose proof (bz_range b). rewrite lor_shiftl_add; done. Qed.

Lemma le_get_put n z : le_get (le_put n z) = z mod 2 ^ (8 * Z.of_nat n).
Proof.
  revert z. induction n as [|n IH]; intros z.
  - cbn. by rewrite Z.mod_1_r.
  - cbn [le_put]. rewrite le_get_cons, IH, bz_zb, Z.shiftr_div_pow2 by lia.
    replace (8 * Z.of_nat (S n)) with (8 + 8 * Z.of_nat n) by lia.
    rewrite Z.pow_add_r, (Z.rem_mul_r z) by lia.
    change (2 ^ 8) with 256. lia.
Qed.

Lemma le_get_range l : 0 ≤ le_get l < 2 ^ (8 * zlen l).
Proof.
  induction l as [|b l IH]; [done|].
  rewrite le_get_cons, zlen_cons. pose proof (bz_range b). pose proof (zlen_nonneg l).
  replace (8 * (1 + zlen l)) with (8 + 8 * zlen l) by lia.
  rewrite Z.pow_add_r by lia. lia.
Qed.

Lemma le_put_get l : le_put (length l) (le_get l) = l.
Proof.
  induction l as [|b l IH]; [done|].
  cbn [length le_put]. rewrite le_get_cons. pose proof (bz_range b). f_equal.
  - apply bz_inj. rewrite bz_zb, Z.add_comm, Z.mod_add, Z.mod_small by lia. done.
  - rewrite Z.shiftr_div_pow2 by lia. change (2 ^ 8) with 256.
    by rewrite Z.add_comm, Z.div_add, Z.div_small, Z.add_0_l by lia.
Qed.

(** [binary.LittleEndian.Uint64(l[off:])] *)
Definition get_u64 (l : list byte) (off : Z) : res Z :=
  s ← or_panic (zslice l off (off + 8)) oob; Ret (le_get s).

(** [binary.LittleEndian.PutUint64(l[off:], v)] *)
Definition put_u64 (l : list byte) (off v : Z) : res (list byte) :=
  _ ← or_panic (zslice l off (off + 8)) oob; Ret (copy_at l off (le_put 8 v)).

Lemma put_u64_ok l off v :
  0 ≤ off → off + 8 ≤ zlen l → put_u64 l off v = Ret (copy_at l off (le_put 8 v)).
Proof. intros. unfold put_u64. rewrite zslice_Some by lia. done. Qed.

Lemma get_u64_slice l off s :
  zslice l off (off + 8) = Some s → get_u64 l off = Ret (le_get s).
Proof. intros H. unfold get_u64. by rewrite H. Qed.

Lemma get_put_u64 l off v :
  0 ≤ off → off + 8 ≤ zlen l → 0 ≤ v < 2 ^ 64 →
  get_u64 (copy_at l off (le_put 8 v)) off = Ret v.
Proof.
  intros. erewrite get_u64_slice; cycle 1.
  { pose proof (copy_at_read l off (le_put 8 v)) as R. rewrite zlen_le_put in R.
    apply R; lia. }
  rewrite le_get_put. f_equal. by apply Z.mod_small.
Qed.

(** ** [encoding/binary]: unsigned varints *)

Definition MaxVarintLen64 : Z := 10.

(** [binary.AppendUvarint(nil, x)]; ten rounds cover every 64-bit value. *)
Fixpoint put_uvarint_fuel (fuel : nat) (x : Z) : list byte :=
  match fuel with
  | O => []
  | S fuel =>
      if 128 <=? x
      then zb (Z.lor (x mod 256) 128) :: put_uvarint_fuel fuel (Z.shiftr x 7)
      else [zb x]
  end.

Definition put_uvarint (x : Z) : list byte := put_uvarint_fuel 10 x.

(** [binary.Uvarint(buf)]: the value and the number of bytes read; the count is
    0 for a truncated buffer and negative on overflow. *)
Fixpoint uvarint_loop (buf : list byte) (i x s : Z) : Z * Z :=
  match buf with
  | [] => (0, 0)
  | b :: rest =>
      if i =? MaxVarintLen64 then (0, - (i + 1))
      else if bz b <? 128
      then
        if (i =? MaxVarintLen64 - 1) && (1 <? bz b) then (0, - (i + 1))
        else (Z.lor x (u64 (Z.shiftl (bz b) s)), i + 1)
      else uvarint_loop rest (i + 1)
             (Z.lor x (u64 (Z.shiftl (Z.land (bz b) 127) s))) (s + 7)
  end.

Definition uvarint (buf : list byte) : Z * Z := uvarint_loop buf 0 0 0.

Lemma put_uvarint_fuel_nonempty f x : f ≠ O → put_uvarint_fuel f x ≠ [].
Proof. destruct f; cbn; [done|]. by destruct (128 <=? x). Qed.

Lemma uvarint_loop_put fuel x rest acc i :
  0 ≤ i → i + Z.of_nat fuel = 10 →
  0 ≤ x → x * 2 ^ (7 * i) < 2 ^ 64 → 0 ≤ acc < 2 ^ (7 * i) → (fuel ≠ 0)%nat →
  uvarint_loop (put_uvarint_fuel fuel x ++ rest) i acc (7 * i)
  = (x * 2 ^ (7 * i) + acc, i + zlen (put_uvarint_fuel fuel x)).
Proof.
  revert x acc i. induction fuel as [|fuel IH]; intros x acc i Hi Hf Hx Hlt Hacc Hnz; [lia|].
  assert (0 < 2 ^ (7 * i)) by (apply Z.pow_pos_nonneg; lia).
  cbn [put_uvarint_fuel]. destruct (Z.leb_spec 128 x) as [Hbig|Hsmall].
  - assert (Hfuel : fuel ≠ 0%nat).
    { intros ->. assert (i = 9) as -> by lia. change (2 ^ (7 * 9)) with (2 ^ 63) in *. lia. }
    cbn [app uvarint_loop]. unfold MaxVarintLen64.
    destruct (Z.eqb_spec i 10); [lia|].
    assert (Hb : bz (zb (Z.lor (x mod 256) 128)) = x mod 128 + 128).
    { rewrite bz_zb. replace (Z.lor (x mod 256) 128) with (Z.lor (Z.shiftl 1 7) (x mod 128)).
      - pose proof (Z.mod_pos_bound x 128 ltac:(lia)).
        rewrite lor_shiftl_add, Z.mod_small by lia. lia.
      - rewrite Z.lor_comm. change (Z.shiftl 1 7) with 128.
        change 128 with (2 ^ 7). change 256 with (2 ^ 8).
        apply Z.bits_inj'. intros k Hk. rewrite !Z.lor_spec.
        destruct (decide (k = 7)) as [->|]; [by rewrite !orb_true_r|].
        destruct (decide (k < 7)).
        + by rewrite !Z.mod_pow2_bits_low by lia.
        + by rewrite !Z.mod_pow2_bits_high by lia. }
    rewrite Hb. pose proof (Z.mod_pos_bound x 128 ltac:(lia)).
    destruct (Z.ltb_spec (x mod 128 + 128) 128); [lia|].
    replace (Z.land (x mod 128 + 128) 127) with (x mod 128); cycle 1.
    { change 127 with (2 ^ 7 - 1). rewrite land_mask by lia. change (2 ^ 7) with 128.
      by rewrite Z.add_mod, Z.mod_mod, Z.mod_same, Z.add_0_r, Z.mod_mod by lia. }
    rewrite Z.shiftr_div_pow2 by lia. change (2 ^ 7) with 128.
    pose proof (Z.div_mod x 128 ltac:(lia)) as Hdm.
    assert (Hle : x mod 128 * 2 ^ (7 * i) < 2 ^ 64) by nia.
    assert (Hpow : 2 ^ (7 * (i + 1)) = 128 * 2 ^ (7 * i)).
    { replace (7 * (i + 1)) with (7 + 7 * i) by lia. rewrite Z.pow_add_r by lia. done. }
    rewrite u64_id by (rewrite Z.shiftl_mul_pow2 by lia; nia).
    rewrite Z.lor_comm, lor_shiftl_add by lia.
    replace (7 * i + 7) with (7 * (i + 1)) by lia.
    rewrite IH; [|lia|lia| |rewrite Hpow; nia|rewrite Hpow; nia|done].
    + rewrite zlen_cons, Hpow. f_equal; [nia|lia].
    + apply Z.div_pos; lia.
  - cbn [app uvarint_loop]. unfold MaxVarintLen64.
    destruct (Z.eqb_spec i 10); [lia|].
    rewrite bz_zb, Z.mod_small by lia.
    destruct (Z.ltb_spec x 128); [|lia].
    destruct (Z.eqb_spec i (10 - 1)) as [->|], (Z.ltb_spec 1 x); cbn -[Z.pow Z.mul];
      try (exfalso; lia).
    all: rewrite u64_id by (rewrite Z.shiftl_mul_pow2 by lia; nia).
    all: rewrite Z.lor_comm, lor_shiftl_add by lia; f_equal; rewrite ?zlen_cons; done || lia.
Qed.

(** The varint round trip, with any bytes following the encoding. *)
Lemma uvarint_put x rest :
  0 ≤ x < 2 ^ 64 → uvarint (put_uvarint x ++ rest) = (x, zlen (put_uvarint x)).
Proof.
  intros. unfold uvarint, put_uvarint.
  pose proof (uvarint_loop_put 10 x rest 0 0) as E. change (7 * 0) with 0 in E.
  rewrite E; [f_equal; lia|lia..|done].
Qed.

Lemma put_uvarint_small x : 0 ≤ x < 128 → put_uvarint x = [zb x].
Proof. intros. cbn. destruct (Z.leb_spec 128 x); [lia|done]. Qed.

Lemma put_uvarint_len_bound x : 1 ≤ zlen (put_uvarint x) ≤ 10.
Proof.
  unfold put_uvarint. generalize x. clear x.
  assert (H : ∀ f x, (f ≠ 0)%nat → 1 ≤ zlen (put_uvarint_fuel f x) ≤ Z.of_nat f).
  { induction f as [|f IH]; intros x Hf; [done|]. cbn [put_uvarint_fuel].
    destruct (128 <=? x); rewrite zlen_cons, ?zlen_nil; [|lia].
    destruct f; [cbn; unfold zlen; cbn; lia|]. specialize (IH (Z.shiftr x 7) ltac:(done)). lia. }
  intros x. apply (H 10%nat); done.
Qed.

Lemma znth_insert_eq {A} (l : list A) i x :
  0 ≤ i < zlen l → znth (<[Z.to_nat i := x]> l) i = Some x.
Proof.
  intros. rewrite znth_lookup by lia. apply list_lookup_insert_eq. unfold zlen in *. lia.
Qed.

Lemma znth_insert_ne {A} (l : list A) i j x :
  0 ≤ i → i ≠ j → znth (<[Z.to_nat i := x]> l) j = znth l j.
Proof.
  intros. unfold znth. destruct (Z.leb_spec 0 j); [|done].
  apply list_lookup_insert_ne. lia.
Qed.

Lemma zlen_insert {A} (l : list A) i x : zlen (<[i := x]> l) = zlen l.
Proof. unfold zlen. by rewrite length_insert. Qed.

Lemma znth_app_l {A} (l k : list A) i : i < zlen l → znth (l ++ k) i = znth l i.
Proof.
  unfold znth, zlen. intros. destruct (Z.leb_spec 0 i); [|done].
  apply lookup_app_l. lia.
Qed.

Lemma znth_app_r {A} (l k : list A) i : zlen l ≤ i → znth (l ++ k) i = znth k (i - zlen l).
Proof.
  unfold znth, zlen. intros. destruct (Z.leb_spec 0 i); [|lia].
  destruct (Z.leb_spec 0 (i - Z.of_nat (length l))); [|lia].
  rewrite lookup_app_r by lia. f_equal. lia.
Qed.

Lemma znth_None {A} (l : list A) i : znth l i = None → i < 0 ∨ zlen l ≤ i.
Proof.
  unfold znth, zlen. destruct (Z.leb_spec 0 i); [|lia].
  intros ?%lookup_ge_None. lia.
Qed.

Lemma znth_last {A} (l : list A) : znth l (zlen l - 1) = last l.
Proof.
  rewrite last_lookup. unfold znth, zlen. destruct l; [done|]. cbn [length].
  destruct (Z.leb_spec 0 (Z.of_nat (S (length l)) - 1)); [|lia]. f_equal. lia.
Qed.

Lemma elem_of_znth {A} (l : list A) x : x ∈ l ↔ ∃ i, znth l i = Some x.
Proof.
  rewrite list_elem_of_lookup. split; intros [i H].
  - exists (Z.of_nat i). rewrite znth_lookup, Nat2Z.id by lia. done.
  - pose proof (znth_Some _ _ _ H). rewrite znth_lookup in H by lia. eauto.
Qed.

(** ** Sums over lists and maps *)

Definition lsum {A} (f : A → Z) (l : list A) : Z := foldr (fun x n => f x + n) 0 l.

Lemma lsum_cons {A} (f : A → Z) x l : lsum f (x :: l) = f x + lsum f l.
Proof. done. Qed.

#[export] Instance lsum_perm {A} (f : A → Z) : Proper ((≡ₚ) ==> eq) (lsum f).
Proof. intros l l' H. induction H as [| |x y l|]; cbn [lsum foldr] in *; unfold lsum in *; cbn [foldr]; lia. Qed.

Lemma lsum_insert {A} (f : A → Z) (l : list A) : ∀ i x y, l !! i = Some y → lsum f (<[i := x]> l) = lsum f l - f y + f x.
Proof.
  induction l as [|z l IH]; intros [|i] x y E; [done..| |].
  - injection E as ->. cbn [insert list_insert]. rewrite !lsum_cons. lia.
  - change (<[S i := x]> (z :: l)) with (z :: <[i := x]> l). rewrite !lsum_cons, (IH i x y E). lia.
Qed.

Lemma lsum_replicate {A} (f : A → Z) n x : f x = 0 → lsum f (replicate n x) = 0.
Proof. intros Hx. induction n as [|n IH]; [done|]. cbn [replicate]. rewrite lsum_cons. lia. Qed.

Section MapSums.
Context `{Countable K} {A : Type} (f : K → A → Z).

Definition msum (m : gmap K A) : Z := lsum (fun p => f p.1 p.2) (map_to_list m).

Lemma msum_empty : msum ∅ = 0.
Proof. unfold msum. by rewrite map_to_list_empty. Qed.

Lemma msum_insert_new m k x : m !! k = None → msum (<[k := x]> m) = msum m + f k x.
Proof. intros E. unfold msum. rewrite map_to_list_insert by done. rewrite lsum_cons. cbn. lia. Qed.

Lemma msum_delete m k x : m !! k = Some x → msum (delete k m) = msum m - f k x.
Proof.
  intros E. rewrite <- (insert_delete_id m k x E) at 2. rewrite msum_insert_new by (by rewrite lookup_delete_eq). lia.
Qed.

Lemma msum_insert m k x : msum (<[k := x]> m) = msum m - from_option (f k) 0 (m !! k) + f k x.
Proof.
  destruct (m !! k) as [y|] eqn:E; cbn [from_option]; [|rewrite msum_insert_new by done; lia].
  rewrite <- (insert_delete_eq m k x), msum_insert_new by (by rewrite lookup_delete_eq). rewrite (msum_delete m k y E). lia.
Qed.
End MapSums.

(** ** Arithmetic modulo [2^64]

    Counters of type [uint64] are compared up to wrap-around. *)

Definition cong (a b : Z) : Prop := u64 a = u64 b.
Declare Scope word_scope.
Delimit Scope word_scope with word.
Infix "≅" := cong (at level 70, no associativity) : word_scope.
#[global] Open Scope word_scope.

#[export] Instance cong_equiv : Equivalence cong.
Proof. unfold cong. split; [intros x|intros x y|intros x y z]; congruence. Qed.
#[export] Instance cong_add : Proper (cong ==> cong ==> cong) Z.add.
Proof. unfold cong, u64. intros a b E c d F. by rewrite Z.add_mod, E, F, <- Z.add_mod by lia. Qed.
#[export] Instance cong_sub : Proper (cong ==> cong ==> cong) Z.sub.
Proof. unfold cong, u64. intros a b E c d F. by rewrite Zminus_mod, E, F, <- Zminus_mod. Qed.
#[export] Instance cong_mul : Proper (cong ==> cong ==> cong) Z.mul.
Proof. unfold cong, u64. intros a b E c d F. by rewrite Z.mul_mod, E, F, <- Z.mul_mod by lia. Qed.

Lemma cong_u64 a : u64 a ≅ a.
Proof. unfold cong, u64. apply Z.mod_mod. lia. Qed.

Lemma cong_eq a b : a = b → a ≅ b.
Proof. by intros ->. Qed.
