(* ===== verification/Slices.v ===== *)
(** * Writing through slices

    A sub-slice of a Go slice shares its bytes: a write through [l[lo:hi]]
    changes [l]. Each operation returns the whole slice after the write; the
    lemmas describe it on a slice that is split around the range. *)
From S2P Require Import Prelude.
Set Default Proof Using "Type".

(** The result with another error text. *)
Definition with_err {A} (e : string) (r : res A) : res A := match r with Err _ => Err e | r => r end.

(** [binary.LittleEndian.Uint16/32/64(l[off:off+n])] for [n] bytes. *)
Definition get_le (n : nat) (l : list byte) (off : Z) : res Z :=
  s ← or_panic (zslice l off (off + Z.of_nat n)) oob; Ret (le_get s).
Definition put_le (n : nat) (l : list byte) (off v : Z) : res (list byte) :=
  _ ← or_panic (zslice l off (off + Z.of_nat n)) oob; Ret (copy_at l off (le_put n v)).
Definition put_u32 (l : list byte) (off v : Z) : res (list byte) :=
  _ ← or_panic (zslice l off (off + 4)) oob; Ret (copy_at l off (le_put 4 v)).

(** [copy(l[off:], src)] *)
Definition copy_into (l : list byte) (off : Z) (src : list byte) : res (list byte) :=
  _ ← or_panic (zslice l off (zlen l)) oob; Ret (copy_at l off src).

(** [copy(l[off:off+len(src)], src)], or byte by byte. *)
Definition write_bytes (l : list byte) (off : Z) (src : list byte) : res (list byte) :=
  _ ← or_panic (zslice l off (off + zlen src)) oob; Ret (copy_at l off src).

(** [f] writes through [l[lo:hi]] and leaves its length. *)
Definition within (lo hi : Z) (f : list byte → res (list byte)) (l : list byte) : res (list byte) :=
  s ← or_panic (zslice l lo hi) oob; s ← f s; Ret (copy_at l lo s).

Section Split.
Context {a b c : list byte} {off : Z}.
Context (Hoff : off = zlen a).

Lemma copy_at_app src : length src = length b → copy_at (a ++ b ++ c) off src = a ++ src ++ c.
Proof using Hoff.
  intros Hb. unfold copy_at. rewrite Hoff, to_nat_zlen, take_app_length, !length_app.
  rewrite (take_ge src) by lia. do 2 f_equal. rewrite Hb, <- length_app, app_assoc. apply drop_app_length.
Qed.

Lemma get_le_app n : length b = n → get_le n (a ++ b ++ c) off = Ret (le_get b).
Proof using Hoff. intros Hb. unfold get_le. rewrite zslice_app with (l2 := b); [done..|]. rewrite Hoff. unfold zlen. lia. Qed.

Lemma put_le_app n v : length b = n → put_le n (a ++ b ++ c) off v = Ret (a ++ le_put n v ++ c).
Proof using Hoff.
  intros Hb. unfold put_le. rewrite zslice_app with (l2 := b); [|done|rewrite Hoff; unfold zlen; lia]. cbn [or_panic mbind res_bind].
  by rewrite copy_at_app by (rewrite length_le_put; lia).
Qed.

Lemma write_bytes_app src : length src = length b → write_bytes (a ++ b ++ c) off src = Ret (a ++ src ++ c).
Proof using Hoff.
  intros Hb. unfold write_bytes. rewrite zslice_app with (l2 := b); [|done|rewrite Hoff; unfold zlen; lia]. cbn [or_panic mbind res_bind].
  by rewrite copy_at_app.
Qed.

Lemma copy_into_app src : length src = length b → copy_into (a ++ b ++ c) off src = Ret (a ++ src ++ c).
Proof using Hoff.
  intros Hb. unfold copy_into. rewrite zslice_Some; cycle 1.
  - rewrite Hoff. apply zlen_nonneg.
  - rewrite Hoff, zlen_app. pose proof (zlen_nonneg (b ++ c)). lia.
  - done.
  - cbn [or_panic mbind res_bind]. by rewrite copy_at_app.
Qed.

Lemma within_app f b' hi : hi = off + zlen b → f b = Ret b' → length b' = length b → within off hi f (a ++ b ++ c) = Ret (a ++ b' ++ c).
Proof using Hoff.
  intros -> Hf Hb. unfold within. rewrite zslice_app with (l2 := b); [|done|rewrite Hoff; done]. cbn [or_panic mbind res_bind].
  rewrite Hf. cbn [mbind res_bind]. by rewrite copy_at_app.
Qed.
End Split.

(** A slice up to the end. *)
Lemma zslice_to_end {A} (a b : list A) off n : off = zlen a → n = zlen (a ++ b) → zslice (a ++ b) off n = Some b.
Proof. intros -> ->. rewrite <- (app_nil_r b) at 1. apply zslice_app; [done|]. by rewrite zlen_app. Qed.

Lemma within_tail f (a b b' : list byte) off : off = zlen a → f b = Ret b' → length b' = length b →
  within off (zlen (a ++ b)) f (a ++ b) = Ret (a ++ b').
Proof.
  intros Hoff Hf Hb. pose proof (within_app (a := a) (b := b) (c := []) Hoff f b' (zlen (a ++ b))) as H.
  rewrite !app_nil_r in H. apply H; [|done|done]. subst off. by rewrite zlen_app.
Qed.
