(* ===== verification/Numerals.v ===== *)
(** * Numerals

    Positional numerals in any base, and the decimal conversions of the [strconv]
    package on byte strings that the codecs and the clients use: [FormatInt],
    [FormatUint], [ParseInt] and [ParseUint] in base ten at 64 bits. *)
From S2P Require Import Prelude.
Set Default Proof Using "Type".

(** ** Digit lists, most significant first *)

Definition num (B : Z) (l : list Z) : Z := foldl (fun a d => a * B + d) 0 l.

Definition in_base (B : Z) (l : list Z) : Prop := Forall (fun d => 0 ≤ d < B) l.

Lemma num_acc B l a : foldl (fun a d => a * B + d) a l = a * B ^ zlen l + num B l.
Proof.
  unfold num. revert a. induction l as [|d l IH]; intros a.
  - cbn [foldl]. rewrite zlen_nil. lia.
  - cbn [foldl]. rewrite IH, (IH (0 * B + d)), zlen_cons, Z.pow_add_r by (pose proof (zlen_nonneg l); lia). lia.
Qed.

Lemma num_app B l k : num B (l ++ k) = num B l * B ^ zlen k + num B k.
Proof. unfold num at 1. rewrite foldl_app. apply num_acc. Qed.

Lemma num_snoc B l d : num B (l ++ [d]) = num B l * B + d.
Proof. unfold num. by rewrite foldl_app. Qed.

Lemma num_cons B d l : num B (d :: l) = d * B ^ zlen l + num B l.
Proof. change (d :: l) with ([d] ++ l). rewrite num_app. cbn. lia. Qed.

Lemma num_range B l : 0 < B → in_base B l → 0 ≤ num B l < B ^ zlen l.
Proof.
  intros HB. induction l as [|d l IH] using rev_ind; [done|]. intros [Hl Hd]%Forall_app.
  apply Forall_inv in Hd. specialize (IH Hl). rewrite num_snoc, zlen_snoc, Z.pow_add_r by (pose proof (zlen_nonneg l); lia).
  rewrite Z.pow_1_r. cbn beta in Hd. nia.
Qed.

Lemma in_base_snoc B l d : in_base B l → 0 ≤ d < B → in_base B (l ++ [d]).
Proof. intros. apply Forall_app. split; [done|by constructor; [|constructor]]. Qed.

(** A number has one numeral of each length. *)
Lemma num_inj B l k : 0 < B → in_base B l → in_base B k → zlen l = zlen k → num B l = num B k → l = k.
Proof.
  intros HB. revert k. induction l as [|d l IH] using rev_ind; intros k Hl Hk Hlen E.
  - destruct k; [done|]. rewrite zlen_cons, zlen_nil in Hlen. pose proof (zlen_nonneg k). lia.
  - destruct k as [|e k _] using rev_ind; [rewrite zlen_snoc, zlen_nil in Hlen; pose proof (zlen_nonneg l); lia|].
    apply Forall_app in Hl as [Hl Hd], Hk as [Hk He]. apply Forall_inv in Hd, He. cbn beta in Hd, He.
    rewrite !zlen_snoc in Hlen. rewrite !num_snoc in E.
    assert (d = e) as <- by (apply (f_equal (fun z => z mod B)) in E; cbn beta in E; rewrite (Z.add_comm _ d), (Z.add_comm _ e), !Z.mod_add, !Z.mod_small in E by lia; done).
    f_equal. apply IH; try done; [lia|nia].
Qed.

(** Leading zeros do not count. *)
Lemma num_zeros B n l : num B (replicate n 0 ++ l) = num B l.
Proof.
  rewrite num_app. assert (num B (replicate n 0) = 0) as ->; [|lia].
  induction n as [|n IH]; [done|]. cbn [replicate]. rewrite num_cons, IH. lia.
Qed.

(** ** Decimal text *)

(** [strconv.AppendUint(nil, n, 10)]; twenty rounds cover every 64-bit value. *)
Fixpoint decimal (fuel : nat) (n : Z) : list byte :=
  match fuel with
  | O => []
  | S f => if n <? 10 then [zb (48 + n)] else decimal f (n / 10) ++ [zb (48 + n mod 10)]
  end.

Definition FormatUint (n : Z) : list byte := decimal 20 n.
Definition FormatInt (n : Z) : list byte := if n <? 0 then x2d :: decimal 20 (- n) else decimal 20 n.

Definition digit_char (b : byte) : bool := (48 <=? bz b) && (bz b <=? 57).

Fixpoint parse_digits (acc : Z) (s : list byte) : option Z :=
  match s with
  | [] => Some acc
  | b :: s => if digit_char b then parse_digits (acc * 10 + (bz b - 48)) s else None
  end.

(** The value, or [None] for a syntax or range error. *)
Definition ParseUint (s : list byte) : option Z :=
  match s with
  | [] => None
  | _ => match parse_digits 0 s with
         | Some v => if v <? 2 ^ 64 then Some v else None
         | None => None
         end
  end.

Definition ParseInt (s : list byte) : option Z :=
  match s with
  | [] => None
  | c :: rest =>
      let neg := bool_decide (c = x2d) in
      let digits := if bool_decide (c = x2b) || neg then rest else s in
      match ParseUint digits with
      | Some un =>
          if neg then (if 2 ^ 63 <? un then None else Some (- un))
          else (if 2 ^ 63 <=? un then None else Some un)
      | None => None
      end
  end.

(** ** Decimal conversions are inverse *)

Lemma digit_char_spec b : digit_char b = true ↔ 48 ≤ bz b ≤ 57.
Proof. unfold digit_char. rewrite andb_true_iff, !Z.leb_le. done. Qed.

Lemma digit_char_zb d : 0 ≤ d < 10 → digit_char (zb (48 + d)) = true ∧ bz (zb (48 + d)) - 48 = d.
Proof. intros. rewrite digit_char_spec, bz_zb, Z.mod_small by lia. lia. Qed.

Lemma digit_char_inv b : digit_char b = true → zb (48 + (bz b - 48)) = b ∧ 0 ≤ bz b - 48 < 10.
Proof. rewrite digit_char_spec. intros. replace (48 + (bz b - 48)) with (bz b) by lia. rewrite zb_bz. split; [done|lia]. Qed.

Lemma parse_digits_app acc s t :
  parse_digits acc (s ++ t) = match parse_digits acc s with Some v => parse_digits v t | None => None end.
Proof.
  revert acc. induction s as [|b s IH]; intros acc; [done|]. cbn [app parse_digits].
  destruct (digit_char b); [apply IH|done].
Qed.

Lemma parse_digits_snoc s b v :
  parse_digits 0 (s ++ [b]) = Some v ↔
    ∃ u, parse_digits 0 s = Some u ∧ digit_char b = true ∧ v = u * 10 + (bz b - 48).
Proof.
  rewrite parse_digits_app. destruct (parse_digits 0 s) as [u|]; cbn [parse_digits].
  - destruct (digit_char b); split; [intros [= <-]; eauto|intros (u' & [= ->] & _ & ->); done|done|by intros (u' & _ & ? & _)].
  - split; [done|by intros (u & ? & _)].
Qed.

Lemma parse_digits_nonneg acc s v : 0 ≤ acc → parse_digits acc s = Some v → acc ≤ v.
Proof.
  revert acc. induction s as [|b s IH]; intros acc Hacc; cbn [parse_digits]; [intros [= ->]; lia|].
  destruct (digit_char b) eqn:Hb; [|done]. apply digit_char_spec in Hb. intros Hv. apply IH in Hv; lia.
Qed.

Lemma parse_decimal fuel n : 0 ≤ n < 10 ^ Z.of_nat fuel → (0 < fuel)%nat → parse_digits 0 (decimal fuel n) = Some n.
Proof.
  revert n. induction fuel as [|f IH]; intros n Hn Hf; [lia|]. cbn [decimal]. destruct (Z.ltb_spec n 10).
  - destruct (digit_char_zb n) as [E1 E2]; [lia|]. cbn [parse_digits]. rewrite E1. f_equal. lia.
  - rewrite Nat2Z.inj_succ, Z.pow_succ_r in Hn by lia.
    assert (1 ≤ n / 10 < 10 ^ Z.of_nat f) by dlia. destruct f as [|f]; [cbn in *; lia|].
    apply parse_digits_snoc. exists (n / 10). destruct (digit_char_zb (n mod 10)) as [E1 E2]; [dlia|].
    split_and!; [apply IH; lia|done|dlia].
Qed.

(** Text without a leading zero. *)
Definition no_leading_zero (s : list byte) : Prop :=
  match s with [] => False | [_] => True | b :: _ => b ≠ x30 end.

Lemma no_leading_zero_snoc s b : s ≠ [] → no_leading_zero (s ++ [b]) → no_leading_zero s ∧ head s ≠ Some x30.
Proof. destruct s as [|c [|d s]]; cbn; intros Hs H; [done|split; [done|congruence]|split; [done|congruence]]. Qed.

Lemma parse_positive s v : head s ≠ Some x30 → s ≠ [] → parse_digits 0 s = Some v → 1 ≤ v.
Proof.
  destruct s as [|b s]; [done|]. cbn [head parse_digits]. intros Hb _. destruct (digit_char b) eqn:Hd; [|done].
  apply digit_char_spec in Hd. assert (bz b ≠ 48) by (intros E; apply Hb; f_equal; by apply bz_inj).
  intros Hv. apply parse_digits_nonneg in Hv; lia.
Qed.

Lemma decimal_parse fuel s v :
  parse_digits 0 s = Some v → no_leading_zero s → v < 10 ^ Z.of_nat fuel → (0 < fuel)%nat → decimal fuel v = s.
Proof.
  revert s v. induction fuel as [|f IH]; intros s v Hv Hs Hlt Hf; [lia|].
  destruct s as [|b s _] using rev_ind; [done|]. pose proof Hv as (u & Hu & Hb & ->)%parse_digits_snoc.
  destruct (digit_char_inv b Hb) as [Hc Hd]. cbn [decimal]. destruct (decide (s = [])) as [->|Hne].
  - cbn in Hu. injection Hu as <-. destruct (Z.ltb_spec (0 * 10 + (bz b - 48)) 10); [|lia]. cbn [app]. rewrite Z.mul_0_l, Z.add_0_l. by rewrite Hc.
  - destruct (no_leading_zero_snoc _ _ Hne Hs) as [Hs' Hh]. pose proof (parse_positive _ _ Hh Hne Hu).
    destruct (Z.ltb_spec (u * 10 + (bz b - 48)) 10); [lia|].
    rewrite Nat2Z.inj_succ, Z.pow_succ_r in Hlt by lia.
    assert ((u * 10 + (bz b - 48)) / 10 = u) as -> by dlia.
    assert ((u * 10 + (bz b - 48)) mod 10 = bz b - 48) as -> by dlia.
    rewrite Hc. f_equal. apply IH; try done; [lia|]. destruct f; [cbn in *; lia|lia].
Qed.

Lemma decimal_canonical fuel n : 0 ≤ n < 10 ^ Z.of_nat fuel → (0 < fuel)%nat → no_leading_zero (decimal fuel n).
Proof.
  revert n. induction fuel as [|f IH]; intros n Hn Hf; [lia|]. cbn [decimal]. destruct (Z.ltb_spec n 10); [done|].
  rewrite Nat2Z.inj_succ, Z.pow_succ_r in Hn by lia.
  assert (Hq : 1 ≤ n / 10 < 10 ^ Z.of_nat f) by dlia. destruct f as [|f]; [cbn in *; lia|].
  specialize (IH (n / 10) ltac:(lia) ltac:(lia)). pose proof (parse_decimal (S f) (n / 10) ltac:(lia) ltac:(lia)) as Hp.
  destruct (decimal (S f) (n / 10)) as [|b [|c s]] eqn:E; [done| |done]. cbn [app no_leading_zero].
  intros ->. cbn in Hp. injection Hp as Hp. lia.
Qed.

Lemma decimal_nonempty f n : decimal (S f) n ≠ [].
Proof. cbn [decimal]. destruct (n <? 10); [done|]. by destruct (decimal f (n / 10)). Qed.

Lemma ParseUint_Format n : 0 ≤ n < 2 ^ 64 → ParseUint (FormatUint n) = Some n.
Proof.
  intros Hn. unfold ParseUint, FormatUint. destruct (decimal 20 n) as [|b s] eqn:E; [by apply decimal_nonempty in E|].
  rewrite <- E, parse_decimal by lia. destruct (Z.ltb_spec n (2 ^ 64)); [done|lia].
Qed.

(** Text starting with a digit has no sign. *)
Lemma decimal_unsigned f n c s : 0 ≤ n < 10 ^ Z.of_nat (S f) → decimal (S f) n = c :: s → c ≠ x2d ∧ c ≠ x2b.
Proof.
  intros Hn E. pose proof (parse_decimal (S f) n Hn ltac:(lia)) as Hp. rewrite E in Hp. cbn [parse_digits] in Hp.
  split; intros ->; done.
Qed.

Lemma ParseInt_Format n : - 2 ^ 63 ≤ n < 2 ^ 63 → ParseInt (FormatInt n) = Some n.
Proof.
  intros Hn. unfold FormatInt. destruct (Z.ltb_spec n 0).
  - cbn [ParseInt]. rewrite (bool_decide_true (x2d = x2d)) by done. cbv zeta. rewrite orb_true_r.
    change (decimal 20 (- n)) with (FormatUint (- n)). rewrite ParseUint_Format by lia.
    destruct (Z.ltb_spec (2 ^ 63) (- n)); [lia|]. f_equal. lia.
  - unfold ParseInt. destruct (decimal 20 n) as [|c s] eqn:E; [by apply decimal_nonempty in E|].
    destruct (decimal_unsigned 19 n c s) as [H1 H2]; [lia|done|]. rewrite !bool_decide_false by done. cbn [orb]. cbv zeta.
    rewrite <- E. change (decimal 20 n) with (FormatUint n). rewrite ParseUint_Format by lia.
    destruct (Z.leb_spec (2 ^ 63) n); [lia|done].
Qed.

(** ** Numerals without leading zeros *)

Definition no_zero_head (l : list Z) : Prop := head l ≠ Some 0.

Lemma num_lower B l : 1 < B → in_base B l → no_zero_head l → l ≠ [] → B ^ (zlen l - 1) ≤ num B l.
Proof.
  intros HB Hl Hz Hne. destruct l as [|d l]; [done|]. inversion_clear Hl as [|? ? Hd Hin].
  rewrite num_cons, zlen_cons. replace (1 + zlen l - 1) with (zlen l) by lia.
  pose proof (num_range B l ltac:(lia) Hin). assert (d ≠ 0) by (intros ->; by apply Hz).
  assert (0 < B ^ zlen l) by (apply Z.pow_pos_nonneg; [lia|apply zlen_nonneg]). nia.
Qed.

Lemma num_canonical B l k : 1 < B → in_base B l → in_base B k → no_zero_head l → no_zero_head k → num B l = num B k → l = k.
Proof.
  intros HB Hl Hk Zl Zk E. apply (num_inj B); try done; [lia|].
  pose proof (num_range B l ltac:(lia) Hl). pose proof (num_range B k ltac:(lia) Hk).
  assert (Hlen : ∀ a b, in_base B a → in_base B b → no_zero_head b → num B a = num B b → zlen a < zlen b → False).
  { intros a b Ha Hb Zb E' Hlt. pose proof (num_range B a ltac:(lia) Ha). pose proof (zlen_nonneg a).
    assert (b ≠ []) by (intros ->; rewrite zlen_nil in Hlt; lia).
    pose proof (num_lower B b HB Hb Zb ltac:(done)). pose proof (Z.pow_le_mono_r B (zlen a) (zlen b - 1) ltac:(lia) ltac:(lia)). lia. }
  destruct (Z.lt_total (zlen l) (zlen k)) as [Hlt|[?|Hlt]]; [|done|]; exfalso.
  - by apply (Hlen l k).
  - by apply (Hlen k l).
Qed.
