(* ===== verification/Utf8.v ===== *)
(** * UTF-8

    The parts of unicode/utf8 the sources use: validity of a byte string, its
    split into runes with one marker for each byte that starts none, the text
    with those bytes replaced, and the encoding of a code point. *)
From S2P Require Import Prelude.

(** A byte in a range, and a continuation byte. *)
Definition byte_in (lo hi : Z) (b : byte) : bool := (lo <=? bz b) && (bz b <=? hi).
Definition is_cont (b : byte) : bool := byte_in 128 191 b.

(** Bounds of the second byte after a leading byte, and how many bytes follow;
    [None] for a byte that cannot lead. *)
Definition utf8_lead (b : byte) : option (nat * Z * Z) :=
  let c := bz b in
  if c <? 128 then Some (0%nat, 0, 0)
  else if c <? 194 then None
  else if c <? 224 then Some (1%nat, 128, 191)
  else if c =? 224 then Some (2%nat, 160, 191)
  else if c =? 237 then Some (2%nat, 128, 159)
  else if c <? 240 then Some (2%nat, 128, 191)
  else if c =? 240 then Some (3%nat, 144, 191)
  else if c <? 244 then Some (3%nat, 128, 191)
  else if c =? 244 then Some (3%nat, 128, 143)
  else None.

Fixpoint utf8_Valid (l : list byte) : bool :=
  match l with
  | [] => true
  | b :: l =>
      match utf8_lead b with
      | None => false
      | Some (O, _, _) => utf8_Valid l
      | Some (1%nat, lo, hi) => match l with x :: l => byte_in lo hi x && utf8_Valid l | _ => false end
      | Some (2%nat, lo, hi) => match l with x :: y :: l => byte_in lo hi x && is_cont y && utf8_Valid l | _ => false end
      | Some (_, lo, hi) => match l with x :: y :: z :: l => byte_in lo hi x && is_cont y && is_cont z && utf8_Valid l | _ => false end
      end
  end.

(** [utf8.DecodeRune] at the start of [b :: l]: how many bytes of [l] belong to
    the rune that [b] starts. *)
Definition rune_tail (b : byte) (l : list byte) : option nat :=
  match utf8_lead b, l with
  | Some (O, _, _), _ => Some O
  | Some (1%nat, lo, hi), x :: _ => if byte_in lo hi x then Some 1%nat else None
  | Some (2%nat, lo, hi), x :: y :: _ => if byte_in lo hi x && is_cont y then Some 2%nat else None
  | Some (3%nat, lo, hi), x :: y :: z :: _ => if byte_in lo hi x && is_cont y && is_cont z then Some 3%nat else None
  | _, _ => None
  end.

(** The runes of a text; a byte that starts none is [None]. *)
Fixpoint runes (l : list byte) : list (option (list byte)) :=
  match l with
  | [] => []
  | b :: l =>
      match rune_tail b l, l with
      | Some O, _ => Some [b] :: runes l
      | Some 1%nat, x :: l => Some [b; x] :: runes l
      | Some 2%nat, x :: y :: l => Some [b; x; y] :: runes l
      | Some _, x :: y :: z :: l => Some [b; x; y; z] :: runes l
      | _, _ => None :: runes l
      end
  end.

Definition RuneError : list byte := [xef; xbf; xbd].

(** The text with U+FFFD in place of each byte that starts no rune. *)
Definition sanitize (l : list byte) : list byte := concat (default RuneError <$> runes l).

(** [utf8.AppendRune] of a code point that is not a surrogate. *)
Definition rune_bytes (c : Z) : list byte :=
  if c <? 128 then [zb c]
  else if c <? 2048 then [zb (192 + c / 64); zb (128 + c mod 64)]
  else if c <? 65536 then [zb (224 + c / 4096); zb (128 + c / 64 mod 64); zb (128 + c mod 64)]
  else [zb (240 + c / 262144); zb (128 + c / 4096 mod 64); zb (128 + c / 64 mod 64); zb (128 + c mod 64)].

(** ** Facts *)

(** A rune starts with a byte and goes on with the bytes [rune_tail] counts. *)
Definition is_rune (c : list byte) : Prop := match c with b :: t => rune_tail b t = Some (length t) | [] => False end.

Lemma rune_tail_le b l n : rune_tail b l = Some n → (n ≤ length l)%nat ∧ (n < 4)%nat ∧ rune_tail b (take n l) = Some n.
Proof.
  unfold rune_tail. intros H.
  destruct (utf8_lead b) as [[[[|[|[|[|?]]]] lo] hi]|]; destruct l as [|x [|y [|z l]]]; simplify_eq;
    repeat case_match; simplify_eq/=; repeat case_match; try congruence; split; lia || (split; [lia|done]).
Qed.

Lemma rune_tail_app b t l : rune_tail b t = Some (length t) → rune_tail b (t ++ l) = Some (length t).
Proof.
  unfold rune_tail. intros H.
  destruct (utf8_lead b) as [[[[|[|[|[|?]]]] lo] hi]|]; destruct t as [|x [|y [|z t]]]; simplify_eq/=;
    repeat case_match; simplify_eq/=; congruence.
Qed.

Lemma runes_step b l :
  runes (b :: l) = match rune_tail b l with
                   | Some n => Some (b :: take n l) :: runes (drop n l)
                   | None => None :: runes l
                   end.
Proof.
  cbn [runes]. destruct (rune_tail b l) as [n|] eqn:E; [|by destruct l].
  apply rune_tail_le in E as (Hl&Hn&_).
  destruct n as [|[|[|[|n]]]]; try lia; destruct l as [|x [|y [|z l]]]; cbn [length] in *; try lia; by rewrite ?drop_0.
Qed.

Lemma runes_ind (P : list byte → Prop) :
  P [] →
  (∀ b l, rune_tail b l = None → P l → P (b :: l)) →
  (∀ b t l, is_rune (b :: t) → P l → P ((b :: t) ++ l)) →
  ∀ l, P l.
Proof.
  intros H0 Hbad Hok l. induction l as [l IH] using (induction_ltof1 _ length). unfold ltof in IH.
  destruct l as [|b l]; [done|]. destruct (rune_tail b l) as [n|] eqn:E.
  - pose proof (rune_tail_le _ _ _ E) as (Hl&_&Ht).
    rewrite <- (take_drop n l). change (b :: take n l ++ drop n l) with ((b :: take n l) ++ drop n l).
    apply Hok; [|apply IH; cbn [length]; rewrite length_drop; lia].
    unfold is_rune. rewrite Ht, length_take. f_equal. lia.
  - apply Hbad; [done|]. apply IH. cbn [length]. lia.
Qed.

Lemma runes_bad b l : rune_tail b l = None → runes (b :: l) = None :: runes l.
Proof. intros H. by rewrite runes_step, H. Qed.

Lemma runes_good c l : is_rune c → runes (c ++ l) = Some c :: runes l.
Proof.
  destruct c as [|b t]; [done|]. intros H. cbn [app]. rewrite runes_step, (rune_tail_app _ _ _ H).
  by rewrite take_app_length, drop_app_length.
Qed.

Lemma utf8_Valid_bad b l : rune_tail b l = None → utf8_Valid (b :: l) = false.
Proof.
  unfold rune_tail. cbn [utf8_Valid]. intros H.
  destruct (utf8_lead b) as [[[[|[|[|[|?]]]] lo] hi]|] eqn:E; destruct l as [|x [|y [|z l]]]; simplify_eq/=;
    repeat (case_match; simplify_eq/=); try done.
  all: unfold utf8_lead in E; repeat case_match; simplify_eq.
Qed.

Lemma utf8_Valid_good c l : is_rune c → utf8_Valid (c ++ l) = utf8_Valid l.
Proof.
  destruct c as [|b t]; [done|]. unfold is_rune, rune_tail. cbn [utf8_Valid app]. intros H.
  destruct (utf8_lead b) as [[[[|[|[|[|?]]]] lo] hi]|] eqn:E; destruct t as [|x [|y [|z t]]]; simplify_eq/=;
    repeat (case_match; simplify_eq/=); try done.
  by destruct t.
Qed.

Lemma sanitize_bad b l : rune_tail b l = None → sanitize (b :: l) = RuneError ++ sanitize l.
Proof. intros H. unfold sanitize. by rewrite (runes_bad _ _ H). Qed.

Lemma sanitize_good c l : is_rune c → sanitize (c ++ l) = c ++ sanitize l.
Proof. intros H. unfold sanitize. by rewrite (runes_good _ _ H). Qed.

(** Sanitizing keeps exactly the valid texts, and gives a valid one. *)
Lemma sanitize_valid l : utf8_Valid l = true → sanitize l = l.
Proof.
  induction l as [|b l H IH|b t l H IH] using runes_ind; intros Hv; [done| |].
  - by rewrite utf8_Valid_bad in Hv.
  - rewrite utf8_Valid_good in Hv by done. by rewrite sanitize_good, IH.
Qed.

Lemma RuneError_rune : is_rune RuneError.
Proof. reflexivity. Qed.

Lemma sanitize_is_valid l : utf8_Valid (sanitize l) = true.
Proof.
  induction l as [|b l H IH|b t l H IH] using runes_ind; [done| |].
  - rewrite sanitize_bad, utf8_Valid_good; [done|apply RuneError_rune|done].
  - by rewrite sanitize_good, utf8_Valid_good.
Qed.

Lemma sanitize_fixed l : sanitize l = l ↔ utf8_Valid l = true.
Proof. split; [|apply sanitize_valid]. intros <-. apply sanitize_is_valid. Qed.
