(* ===== verification/Arena.v ===== *)
(** * Segmented value arena ([internal/arena])

    The model of [arena.go], [ref_generation.go] and [memory.go]: references
    packed into two machine words, size classes, segments with committed bytes
    and reserved capacity, per-class free lists threaded through the freed
    blocks, and dedicated segments returned to the heap on free.  The proofs
    about it are in the file [ArenaFacts]. *)
From S2P Require Import Prelude.

(** ** Constants *)

Definition SegmentBytes : Z := 8192.
Definition firstSmallSegmentBytes : Z := 256.
Definition tinyFirstSegmentBytes : Z := 192.
Definition secondSmallSegmentBytes : Z := 1024.
Definition segmentMetadata : Z := 24.
Definition freeBucketCount : Z := 137.

Definition refLengthBits : Z := 26.
Definition refOffsetBits : Z := 13.
Definition refSegmentBits : Z := 25.
Definition refLengthMask : Z := Z.shiftl 1 refLengthBits - 1.
Definition refOffsetMask : Z := Z.shiftl 1 refOffsetBits - 1.
Definition refSegmentMask : Z := Z.shiftl 1 refSegmentBits - 1.

Definition GenerationBits : Z := 19.
Definition inlineMarker : Z := Z.shiftl 1 (GenerationBits - 1).
Definition inlineLengthShift : Z := GenerationBits - 5.
Definition inlineLengthMask : Z := Z.shiftl 15 inlineLengthShift.
Definition inlineGenerationMask : Z := Z.shiftl 1 inlineLengthShift - 1.
Definition blockGenerationMask : Z := inlineMarker - 1.

Definition sharedLargeBucketBase : Z := 51.
Definition dedicatedBucket : Z := 58.
Definition maxArenaBlock : Z := Z.shiftl 33 20 + Z.shiftl 8 10.
Definition goPageBytes : Z := Z.shiftl 8 10.

Definition goSmallSizeClasses : list Z :=
  [4864; 5376; 6144; 6528; 6784; 6912; 8192; 9472; 9728; 10240; 10880;
   12288; 13568; 14336; 16384; 18432; 19072; 20480; 21760; 24576; 27264;
   28672; 32768].

(** ** References *)

Record Ref := mkRef { location : Z; generation : Z }.

#[export] Instance Ref_eq_dec : EqDecision Ref.
Proof. solve_decision. Defined.

(** The zero value [Ref{}]. *)
Definition emptyRef : Ref := mkRef 0 0.

Definition newRef (segment offset length generation : Z) : res Ref :=
  guard_panic (refSegmentMask <? segment) "arena segment index exceeds reference capacity" (
  guard_panic (refOffsetMask <? offset) "arena offset exceeds reference capacity" (
  guard_panic (refLengthMask <? length) "arena value exceeds reference capacity" (
  Ret (mkRef (Z.lor (Z.lor (Z.shiftl segment (refOffsetBits + refLengthBits))
                           (Z.shiftl offset refLengthBits))
                    length)
             generation)))).

Definition ref_segment (r : Ref) : Z :=
  u32 (Z.land (Z.shiftr (location r) (refOffsetBits + refLengthBits)) refSegmentMask).
Definition ref_offset (r : Ref) : Z :=
  u32 (Z.land (Z.shiftr (location r) refLengthBits) refOffsetMask).
Definition ref_length (r : Ref) : Z :=
  u32 (Z.land (location r) refLengthMask).

Definition IsInline (r : Ref) : bool :=
  negb (Z.land (generation r) inlineMarker =? 0).

(** [InlineInto(dst)]: the destination buffer only supplies storage, so the
    model returns the bytes; [None] is the Go [nil, false]. *)
Definition InlineInto (r : Ref) : option (list byte) :=
  if negb (IsInline r) then None else
  let n := Z.shiftr (Z.land (generation r) inlineLengthMask) inlineLengthShift in
  if (n <? 1) || (8 <? n) then None
  else Some (take (Z.to_nat n) (le_put 8 (location r))).

Definition Generation (r : Ref) : Z :=
  if IsInline r then Z.land (generation r) inlineGenerationMask else generation r.

Definition Words (r : Ref) : Z * Z := (location r, generation r).
Definition RefFromWords (location generation : Z) : Ref := mkRef location generation.

(** ** Size classes *)

Definition dedicatedBlock (block : Z) : bool := SegmentBytes / 2 <? block.

Fixpoint dedicatedBlockSize_loop (classes : list Z) (size : Z) : Z :=
  match classes with
  | [] => Z.ldiff (size + goPageBytes - 1) (goPageBytes - 1)
  | class :: rest => if size <=? class then class else dedicatedBlockSize_loop rest size
  end.

Definition dedicatedBlockSize (size : Z) : Z :=
  dedicatedBlockSize_loop goSmallSizeClasses size.

(** The [for block < size] loop of [class]; every step adds at least 128 to
    [block], so 25 steps reach the largest size it is called with (4096). *)
Fixpoint class_medium_loop (fuel : nat) (size block bucket : Z) : res (Z * Z) :=
  match fuel with
  | O => Panic "fuel"
  | S fuel =>
      if block <? size then
        let step := block / 8 in
        let step := if step <? 128 then 128 else step in
        let block := block + step in
        let bucket := bucket + 1 in
        let block := if SegmentBytes / 2 <? block then SegmentBytes / 2 else block in
        class_medium_loop fuel size block bucket
      else Ret (bucket, block)
  end.

(** The bucket of a dedicated class that still fits a shared segment. *)
Fixpoint sharedLargeBucket (classes : list Z) (i block : Z) : option Z :=
  match classes with
  | [] => None
  | class :: rest => if class =? block then Some i else sharedLargeBucket rest (i + 1) block
  end.

(** [class n] is the free-list bucket and block size of an [n]-byte value. *)
Definition class (n : Z) : res (Z * Z) :=
  let size := n + 8 in
  let size := if size <? 16 then 16 else size in
  if (16 <? size) && (size <=? 24) then Ret (128, 24)
  else if (80 <? size) && (size <=? 88) then Ret (129, 88)
  else if size <=? 48 then
    let block := Z.ldiff (size + 15) 15 in Ret (block / 16 - 1, block)
  else if size <=? 56 then Ret (3, 56)
  else if size <=? 128 then
    let block := Z.ldiff (size + 15) 15 in Ret (4 + (block - 64) / 16, block)
  else if size <=? 256 then
    let block := Z.ldiff (size + 31) 31 in Ret (9 + (block - 160) / 32, block)
  else if size <=? 384 then
    let block := Z.ldiff (size + 15) 15 in Ret (13 + (block - 272) / 16, block)
  else if size <=? 512 then
    let block := Z.ldiff (size + 15) 15 in
    if (block =? 448) || (block =? 512) then Ret (21 + (block - 448) / 64, block)
    else Ret (130 + (block - 400) / 16, block)
  else if size <=? 1024 then
    let block := Z.ldiff (size + 31) 31 in Ret (23 + (block - 544) / 32, block)
  else if size <=? SegmentBytes / 2 then class_medium_loop 25 size 1024 38
  else if maxArenaBlock <? size then Panic "arena allocation too large"
  else
    let block := dedicatedBlockSize size in
    match (if block <=? SegmentBytes
           then sharedLargeBucket goSmallSizeClasses 0 block else None) with
    | Some i => Ret (sharedLargeBucketBase + i, block)
    | None => Ret (dedicatedBucket, block)
    end.

Definition segmentSizeForBlock (block : Z) : Z :=
  if SegmentBytes <? block then block
  else if block <=? 1024 then SegmentBytes
  else
    let blocks := SegmentBytes / block in
    if blocks <? 1 then block else blocks * block.

Definition segmentSizeForAllocation (block existingSegments : Z) : Z :=
  if (1024 <? block) || (2 <=? existingSegments) then segmentSizeForBlock block
  else
    let target := firstSmallSegmentBytes in
    let target := if (existingSegments =? 0) && (block =? 24)
                  then tinyFirstSegmentBytes else target in
    let target := if existingSegments =? 1 then secondSmallSegmentBytes else target in
    if target <? block then block
    else
      let blocks := target / block in
      if blocks <? 1 then block else blocks * block.

(** ** State

    A segment is a byte slice: [sdata] is the committed prefix (the slice's
    elements) and [scap] the slice's capacity.  The reserved tail is never
    written before it is committed, so committing exposes zero bytes.
    [segs_cap] is the capacity of the segment slice itself. *)

Record segment := mkSegment { sdata : list byte; scap : Z }.

Record freeTable := mkFreeTable { heads : list Z; holes : list Z }.

Record Arena := mkArena {
  segments : list segment;
  segs_cap : Z;
  free : option freeTable;
  agen : Z
}.

(** The zero value of [Arena], as embedded in a fresh shard. *)
Definition emptyArena : Arena := mkArena [] 0 None 0.

(** [new(freeTable)] *)
Definition newFreeTable : freeTable :=
  mkFreeTable (replicate (Z.to_nat freeBucketCount) 0) [].

Definition set_segments (a : Arena) (s : list segment) : Arena :=
  mkArena s (segs_cap a) (free a) (agen a).
Definition set_free (a : Arena) (f : option freeTable) : Arena :=
  mkArena (segments a) (segs_cap a) f (agen a).

Definition nextGeneration (a : Arena) : Z * Arena :=
  let g := u64 (agen a + 1) in
  let g := if blockGenerationMask <? g then 1 else g in
  (g, mkArena (segments a) (segs_cap a) (free a) g).

Definition AllocInline (a : Arena) (value : list byte) : option Ref * Arena :=
  if (zlen value =? 0) || (8 <? zlen value) then (None, a)
  else
    let '(g, a) := nextGeneration a in
    let g := Z.land g inlineGenerationMask in
    let buf := copy_at (replicate 8 x00) 0 value in
    (Some (mkRef (le_get buf)
                 (Z.lor (Z.lor inlineMarker (Z.shiftl (zlen value) inlineLengthShift)) g)),
     a).

(** ** Memory accounting *)

Definition sum_caps (ss : list segment) : Z := foldr (fun s acc => scap s + acc) 0 ss.

Definition MemoryBytes (a : Arena) : Z :=
  segs_cap a * segmentMetadata + sum_caps (segments a).

Definition SegmentCount (a : Arena) : Z := zlen (segments a).

Definition freeTableBytes : Z := freeBucketCount * 8 + 24.

Definition TotalMemoryBytes (a : Arena) : Z :=
  MemoryBytes a + match free a with Some _ => freeTableBytes | None => 0 end.

Definition FreeGrowth (a : Arena) (ref : Ref) : Z :=
  if IsInline ref || (generation ref =? 0) || match free a with Some _ => true | None => false end
  then 0 else freeTableBytes.

(** Free-list addresses: [(segment+1) << 32 | offset]; zero is the empty list. *)
Definition addr_seg (address : Z) : Z := Z.shiftr address 32 - 1.
Definition addr_off (address : Z) : Z := u32 address.
Definition mk_addr (seg offset : Z) : Z := Z.lor (Z.shiftl (seg + 1) 32) offset.

(** The link stored in a free block: [Uint64(a.segments[seg].data[offset+8:])]. *)
Definition read_link (ss : list segment) (address : Z) : res Z :=
  s ← or_panic (znth ss (addr_seg address)) oob;
  get_u64 (sdata s) (addr_off address + 8).

(** Capacity after [capacity *= 2], starting from 1. *)
Definition grown_cap (capacity : Z) : Z :=
  let next := 2 * capacity in if next =? 0 then 1 else next.

(** ** GrowthFor: allocation planning without changing state *)

Record plan := mkPlan {
  p_free : list Z; p_holes : Z;
  p_count : Z; p_capacity : Z;
  p_used : Z; p_size : Z;
  p_growth : Z
}.

Definition plan_start (a : Arena) : plan :=
  let '(fr, hs) := match free a with
                   | Some ft => (heads ft, zlen (holes ft))
                   | None => (replicate (Z.to_nat freeBucketCount) 0, 0)
                   end in
  let '(used, size) := match last (segments a) with
                       | Some l => (zlen (sdata l), scap l)
                       | None => (0, 0)
                       end in
  mkPlan fr hs (zlen (segments a)) (segs_cap a) used size 0.

Definition plan_step (ss : list segment) (p : plan) (n : Z) : res plan :=
  if n =? 0 then Ret p else
  '(bucket, block) ← class n;
  head ← or_panic (znth (p_free p) bucket) oob;
  if negb (head =? 0) then
    next ← read_link ss head;
    fr ← or_panic (zupd (p_free p) bucket next) oob;
    Ret (mkPlan fr (p_holes p) (p_count p) (p_capacity p) (p_used p) (p_size p) (p_growth p))
  else if dedicatedBlock block && (0 <? p_holes p) then
    Ret (mkPlan (p_free p) (p_holes p - 1) (p_count p) (p_capacity p) (p_used p) (p_size p)
           (p_growth p + segmentSizeForBlock block))
  else if p_size p - p_used p <? block then
    let size := segmentSizeForAllocation block (p_count p) in
    let growth := p_growth p + size in
    let '(capacity, growth) :=
      if p_count p =? p_capacity p
      then (grown_cap (p_capacity p),
            growth + (grown_cap (p_capacity p) - p_capacity p) * segmentMetadata)
      else (p_capacity p, growth) in
    Ret (mkPlan (p_free p) (p_holes p) (p_count p + 1) capacity block size growth)
  else
    Ret (mkPlan (p_free p) (p_holes p) (p_count p) (p_capacity p)
           (p_used p + block) (p_size p) (p_growth p)).

Fixpoint plan_loop (ss : list segment) (p : plan) (lengths : list Z) : res plan :=
  match lengths with
  | [] => Ret p
  | n :: rest => p ← plan_step ss p n; plan_loop ss p rest
  end.

Definition GrowthFor (a : Arena) (lengths : list Z) : res Z :=
  p ← plan_loop (segments a) (plan_start a) lengths; Ret (p_growth p).

(** ** Alloc *)

(** Pop the head of the class's free list. *)
Definition alloc_reuse (a : Arena) (ft : freeTable) (bucket address : Z)
  : res (Z * Z * Arena) :=
  next ← read_link (segments a) address;
  hs ← or_panic (zupd (heads ft) bucket next) oob;
  Ret (addr_seg address, addr_off address,
       set_free a (Some (mkFreeTable hs (holes ft)))).

(** Refill the most recently freed dedicated segment slot. *)
Definition alloc_hole (a : Arena) (ft : freeTable) (block : Z) : res (Z * Z * Arena) :=
  seg ← or_panic (znth (holes ft) (zlen (holes ft) - 1)) oob;
  ss ← or_panic (zupd (segments a) seg
                   (mkSegment (replicate (Z.to_nat block) x00) (segmentSizeForBlock block))) oob;
  Ret (seg, 0, set_free (set_segments a ss)
                 (Some (mkFreeTable (heads ft) (take (length (holes ft) - 1) (holes ft))))).

(** Append a segment when the last one cannot take the block. *)
Definition alloc_grow (a : Arena) (block : Z) : Arena :=
  let fits := match last (segments a) with
              | Some s => negb (scap s - zlen (sdata s) <? block)
              | None => false
              end in
  if fits then a else
  let size := segmentSizeForAllocation block (zlen (segments a)) in
  let capacity := if zlen (segments a) =? segs_cap a
                  then grown_cap (segs_cap a) else segs_cap a in
  mkArena (segments a ++ [mkSegment [] size]) capacity (free a) (agen a).

(** Commit the next block of the last segment. *)
Definition alloc_bump (a : Arena) (block : Z) : res (Z * Z * Arena) :=
  let a := alloc_grow a block in
  let seg := zlen (segments a) - 1 in
  s ← or_panic (znth (segments a) seg) oob;
  let offset := zlen (sdata s) in
  guard_panic (scap s <? offset + block) "slice bounds out of range" (
  ss ← or_panic (zupd (segments a) seg
                   (mkSegment (sdata s ++ replicate (Z.to_nat block) x00) (scap s))) oob;
  Ret (seg, offset, set_segments a ss)).

(** Write the generation header and the payload of a chosen block. *)
Definition alloc_write (a : Arena) (seg offset : Z) (value : list byte) : res (Ref * Arena) :=
  let '(g, a) := nextGeneration a in
  s ← or_panic (znth (segments a) seg) oob;
  d ← put_u64 (sdata s) offset g;
  let d := copy_at d (offset + 8) value in
  ss ← or_panic (zupd (segments a) seg (mkSegment d (scap s))) oob;
  ref ← newRef (u32 seg) (u32 offset) (u32 (zlen value)) g;
  Ret (ref, set_segments a ss).

Definition Alloc (a : Arena) (value : list byte) : res (Ref * Arena) :=
  if zlen value =? 0 then Ret (emptyRef, a) else
  '(bucket, block) ← class (zlen value);
  address ← match free a with
            | Some ft => or_panic (znth (heads ft) bucket) oob
            | None => Ret 0
            end;
  '(seg, offset, a) ←
    match free a with
    | Some ft =>
        if negb (address =? 0) then alloc_reuse a ft bucket address
        else if dedicatedBlock block && (0 <? zlen (holes ft)) then alloc_hole a ft block
        else alloc_bump a block
    | None => alloc_bump a block
    end;
  alloc_write a seg offset value.

(** ** View and Free *)

Definition View (a : Arena) (ref : Ref) : res (list byte) :=
  if IsInline ref then
    match InlineInto ref with
    | Some out => Ret out
    | None => Err "invalid inline reference"
    end
  else if generation ref =? 0 then
    if ref_length ref =? 0 then Ret [] else Err "invalid empty reference"
  else if zlen (segments a) <=? ref_segment ref then Err "invalid segment"
  else
    s ← or_panic (znth (segments a) (ref_segment ref)) oob;
    let data := sdata s in
    let start := ref_offset ref in
    let end_ := start + 8 + ref_length ref in
    if zlen data <? end_ then Err "stale arena reference"
    else
      g ← get_u64 data start;
      if negb (g =? generation ref) then Err "stale arena reference"
      else or_panic (zslice data (start + 8) end_) oob.

Definition ViewKnownLive (a : Arena) (ref : Ref) : res (list byte) :=
  if IsInline ref then
    match InlineInto ref with
    | Some out => Ret out
    | None => Err "invalid inline reference"
    end
  else if generation ref =? 0 then
    if ref_length ref =? 0 then Ret [] else Err "invalid empty reference"
  else
    let seg := ref_segment ref in
    if zlen (segments a) <=? seg then Err "invalid segment"
    else
      s ← or_panic (znth (segments a) seg) oob;
      let data := sdata s in
      let start := ref_offset ref + 8 in
      let end_ := start + ref_length ref in
      if zlen data <? end_ then Err "invalid arena reference"
      else or_panic (zslice data start end_) oob.

(** [a.free] after [if a.free == nil { a.free = new(freeTable) }]. *)
Definition ensure_free (a : Arena) : freeTable :=
  match free a with Some ft => ft | None => newFreeTable end.

(** [Free ref]: the bytes handed back to the heap and the new arena. *)
Definition Free (a : Arena) (ref : Ref) : res (Z * Arena) :=
  if IsInline ref then Ret (0, a)
  else if generation ref =? 0 then Ret (0, a)
  else
    _ ← match View a ref with Err e => Panic e | r => r end;
    '(bucket, block) ← class (ref_length ref);
    let seg := ref_segment ref in
    s ← or_panic (znth (segments a) seg) oob;
    let data := sdata s in
    let ft := ensure_free a in
    if dedicatedBlock block && (ref_offset ref =? 0) && (scap s =? block) && (zlen data =? block)
    then
      ss ← or_panic (zupd (segments a) seg (mkSegment [] 0)) oob;
      Ret (scap s, set_free (set_segments a ss)
                     (Some (mkFreeTable (heads ft) (holes ft ++ [seg]))))
    else
      d ← put_u64 data (ref_offset ref) 0;
      head ← or_panic (znth (heads ft) bucket) oob;
      d ← put_u64 d (ref_offset ref + 8) head;
      ss ← or_panic (zupd (segments a) seg (mkSegment d (scap s))) oob;
      hs ← or_panic (zupd (heads ft) bucket (mk_addr seg (ref_offset ref))) oob;
      Ret (0, set_free (set_segments a ss) (Some (mkFreeTable hs (holes ft)))).

Definition AllocationBytesForLength (length : Z) : res Z :=
  if length =? 0 then Ret 0 else '(_, block) ← class length; Ret block.

Definition AllocationBytes (a : Arena) (ref : Ref) : res Z :=
  if IsInline ref then Ret 0
  else if generation ref =? 0 then Ret 0
  else '(_, block) ← class (ref_length ref); Ret block.
