(* ===== verification/ArenaClass.v ===== *)
(** * Arena references and size classes

    Facts about the packed references ([newRef] and its accessors) and about
    [class]: it is total up to the largest supported block, every block fits
    its value and its header, and a free-list bucket has one block size. *)
From S2P Require Import Prelude Arena.

(** ** References *)

Lemma newRef_ok s o n g :
  0 ≤ s ≤ refSegmentMask → 0 ≤ o ≤ refOffsetMask → 0 ≤ n ≤ refLengthMask →
  ∃ r, newRef s o n g = Ret r ∧ ref_segment r = s ∧ ref_offset r = o ∧
       ref_length r = n ∧ generation r = g.
Proof.
  unfold newRef, guard_panic, refSegmentMask, refOffsetMask, refLengthMask,
    refSegmentBits, refOffsetBits, refLengthBits.
  change (Z.shiftl 1 25 - 1) with (2 ^ 25 - 1). change (Z.shiftl 1 13 - 1) with (2 ^ 13 - 1).
  change (Z.shiftl 1 26 - 1) with (2 ^ 26 - 1). change (13 + 26) with 39.
  intros Hs Ho Hn.
  destruct (Z.ltb_spec (2 ^ 25 - 1) s); [lia|].
  destruct (Z.ltb_spec (2 ^ 13 - 1) o); [lia|].
  destruct (Z.ltb_spec (2 ^ 26 - 1) n); [lia|].
  eexists. split; [done|].
  unfold ref_segment, ref_offset, ref_length, refSegmentMask, refOffsetMask, refLengthMask,
    refSegmentBits, refOffsetBits, refLengthBits. cbn [location generation].
  change (Z.shiftl 1 25 - 1) with (2 ^ 25 - 1). change (Z.shiftl 1 13 - 1) with (2 ^ 13 - 1).
  change (Z.shiftl 1 26 - 1) with (2 ^ 26 - 1). change (13 + 26) with 39.
  assert (E : Z.lor (Z.lor (Z.shiftl s 39) (Z.shiftl o 26)) n = (s * 2 ^ 13 + o) * 2 ^ 26 + n).
  { replace (Z.lor (Z.shiftl s 39) (Z.shiftl o 26)) with (Z.shiftl (Z.lor (Z.shiftl s 13) o) 26).
    - rewrite lor_shiftl_add by lia. by rewrite lor_shiftl_add by lia.
    - rewrite Z.shiftl_lor, Z.shiftl_shiftl by lia. done. }
  rewrite E, !land_mask, !shiftr_div by lia. unfold u32.
  change (2 ^ 39) with (2 ^ 26 * 2 ^ 13).
  rewrite <- Z.div_div by lia.
  rewrite Z.add_comm, Z.div_add, (Z.div_small n), Z.add_0_l by lia.
  rewrite Z.mod_add, (Z.mod_small n) by lia.
  rewrite (Z.add_comm (s * _)), Z.div_add, (Z.div_small o), Z.add_0_l by lia.
  rewrite Z.mod_add, (Z.mod_small o), (Z.mod_small s) by lia.
  rewrite !Z.mod_small by lia. done.
Qed.

Lemma block_not_inline r : 0 ≤ generation r ≤ blockGenerationMask → IsInline r = false.
Proof.
  unfold IsInline, blockGenerationMask, inlineMarker, GenerationBits.
  change (Z.shiftl 1 (19 - 1)) with (2 ^ 18). intros H.
  replace (Z.land (generation r) (2 ^ 18)) with 0; [done|].
  symmetry. apply Z.bits_inj'. intros i Hi. rewrite Z.land_spec, Z.bits_0.
  destruct (decide (i = 18)) as [->|].
  - rewrite <- (Z.mod_small (generation r) (2 ^ 18)) by lia.
    by rewrite Z.mod_pow2_bits_high by lia.
  - rewrite Z.pow2_bits_eqb by lia. destruct (Z.eqb_spec 18 i); [lia|].
    by rewrite andb_false_r.
Qed.

(** ** Size classes *)

(** Block size of each free-list bucket (all but the shared bucket 58). *)
Definition medium_blocks : list Z :=
  [1152; 1296; 1458; 1640; 1845; 2075; 2334; 2625; 2953; 3322; 3737; 4096].

Definition bucket_block (b : Z) : Z :=
  if b =? 128 then 24 else if b =? 129 then 88
  else if 130 <=? b then 400 + 16 * (b - 130)
  else if b <=? 2 then 16 * (b + 1)
  else if b =? 3 then 56
  else if b <=? 8 then 64 + 16 * (b - 4)
  else if b <=? 12 then 160 + 32 * (b - 9)
  else if b <=? 20 then 272 + 16 * (b - 13)
  else if b <=? 22 then 448 + 64 * (b - 21)
  else if b <=? 38 then 544 + 32 * (b - 23)
  else default 0 (znth (medium_blocks ++ goSmallSizeClasses) (b - 39)).

Record class_ok (n b s : Z) : Prop := {
  ck_fits : n + 8 ≤ s;
  ck_min : 16 ≤ s;
  ck_bucket : 0 ≤ b < freeBucketCount;
  ck_block : b ≠ dedicatedBucket → s = bucket_block b;
  ck_dedicated : b = dedicatedBucket ↔ SegmentBytes < s
}.

Ltac dm := Z.div_mod_to_equations; lia.

Lemma class_small n :
  0 ≤ n → n + 8 ≤ 1024 → ∃ b s, class n = Ret (b, s) ∧ class_ok n b s.
Proof.
  intros Hn Hle. unfold class.
  set (size := if n + 8 <? 16 then 16 else n + 8).
  assert (Hsz : 16 ≤ size ≤ 1024 ∧ n + 8 ≤ size).
  { unfold size. destruct (Z.ltb_spec (n + 8) 16); lia. }
  clearbody size. clear Hle. cbv zeta.
  change 15 with (2 ^ 4 - 1). change 31 with (2 ^ 5 - 1).
  rewrite !ldiff_mask by lia. change (2 ^ 4) with 16. change (2 ^ 5) with 32.
  repeat match goal with
         | |- context [if ?x <=? ?y then _ else _] => destruct (Z.leb_spec x y)
         | |- context [(?x <? ?y) && _] => destruct (Z.ltb_spec x y)
         | |- context [_ && (?x <=? ?y)] => destruct (Z.leb_spec x y)
         | |- context [(?x =? ?y) || _] => destruct (Z.eqb_spec x y)
         | |- context [_ || (?x =? ?y)] => destruct (Z.eqb_spec x y)
         end; cbn [andb orb]; try (exfalso; lia).
  all: eexists _, _; split; [reflexivity|].
  all: unfold dedicatedBucket, SegmentBytes, freeBucketCount.
  all: split; unfold dedicatedBucket, SegmentBytes, freeBucketCount; try dm.
  all: intros _; unfold bucket_block.
  all: repeat match goal with
         | |- context [if ?x <=? ?y then _ else _] => destruct (Z.leb_spec x y)
         | |- context [if ?x =? ?y then _ else _] => destruct (Z.eqb_spec x y)
         end; dm.
Qed.

Lemma class_medium n :
  1024 < n + 8 → n + 8 ≤ SegmentBytes / 2 →
  ∃ b s, class_medium_loop 25 (n + 8) 1024 38 = Ret (b, s) ∧ class_ok n b s.
Proof.
  unfold SegmentBytes. change (8192 / 2) with 4096. intros Hlo Hhi.
  assert (Hstep : ∀ f blk bkt blk' bkt',
    (let b' := blk + (if blk / 8 <? 128 then 128 else blk / 8) in
     (if SegmentBytes / 2 <? b' then SegmentBytes / 2 else b'), bkt + 1) = (blk', bkt') →
    class_medium_loop (S f) (n + 8) blk bkt =
      if blk <? n + 8 then class_medium_loop f (n + 8) blk' bkt' else Ret (bkt, blk)).
  { intros f blk bkt blk' bkt' [= <- <-]. reflexivity. }
  do 13 (erewrite Hstep by (vm_compute; reflexivity);
         match goal with
         | |- context [if ?x <? ?y then _ else _] => destruct (Z.ltb_spec x y)
         end;
         [|first [exfalso; lia
                 |eexists _, _; split; [reflexivity|];
                  split; unfold dedicatedBucket, SegmentBytes, freeBucketCount;
                  [lia|lia|lia|intros _; reflexivity|lia]]]).
  exfalso. lia.
Qed.

Lemma sharedLargeBucket_spec size :
  4096 < size → size ≤ 8192 →
  ∃ i, sharedLargeBucket goSmallSizeClasses 0 (dedicatedBlockSize size) = Some i ∧
       0 ≤ i ≤ 6 ∧ dedicatedBlockSize size = bucket_block (sharedLargeBucketBase + i) ∧
       size ≤ dedicatedBlockSize size ≤ 8192.
Proof.
  intros Hlo Hhi. unfold dedicatedBlockSize, goSmallSizeClasses.
  cbn [dedicatedBlockSize_loop].
  repeat match goal with
         | |- context [if ?x <=? ?y then _ else _] => destruct (Z.leb_spec x y)
         end; try lia; eexists; (split; [reflexivity|]);
    (split; [lia|]); (split; [reflexivity|lia]).
Qed.

Lemma dedicatedBlockSize_large size :
  8192 < size → 8192 < dedicatedBlockSize size ∧ size ≤ dedicatedBlockSize size.
Proof.
  intros H. unfold dedicatedBlockSize, goSmallSizeClasses, goPageBytes.
  cbn [dedicatedBlockSize_loop].
  repeat match goal with
         | |- context [if ?x <=? ?y then _ else _] => destruct (Z.leb_spec x y); [lia|]
         end.
  unfold goPageBytes. change (Z.shiftl 8 10 - 1) with (2 ^ 13 - 1).
  rewrite ldiff_mask by lia. change (2 ^ 13) with 8192. change (Z.shiftl 8 10) with 8192. dm.
Qed.

Lemma class_large n :
  SegmentBytes / 2 < n + 8 → n + 8 ≤ maxArenaBlock →
  ∃ b s, class n = Ret (b, s) ∧ class_ok n b s.
Proof.
  unfold SegmentBytes. change (8192 / 2) with 4096. intros Hlo Hhi. unfold class.
  destruct (Z.ltb_spec (n + 8) 16); [lia|]. cbv zeta.
  repeat match goal with
         | |- context [if (?x <? ?y) && (?z <=? ?w) then _ else _] =>
             destruct (Z.ltb_spec x y), (Z.leb_spec z w); cbn [andb]; try lia
         | |- context [if ?x <=? SegmentBytes then _ else _] => fail 1
         | |- context [if ?x <=? ?y then Ret _ else _] =>
             destruct (Z.leb_spec x y); [lia|]
         end.
  change (SegmentBytes / 2) with 4096.
  repeat match goal with
         | |- context [if n + 8 <=? ?y then _ else _] => destruct (Z.leb_spec (n + 8) y); [lia|]
         end.
  destruct (Z.ltb_spec maxArenaBlock (n + 8)); [lia|].
  destruct (decide (n + 8 ≤ 8192)).
  - destruct (sharedLargeBucket_spec (n + 8)) as (i & E & Hi & Hb & Hs); [lia..|].
    unfold SegmentBytes. destruct (Z.leb_spec (dedicatedBlockSize (n + 8)) 8192); [|lia].
    rewrite E. eexists _, _. split; [reflexivity|].
    unfold sharedLargeBucketBase in *.
    split; unfold dedicatedBucket, SegmentBytes, freeBucketCount; lia.
  - destruct (dedicatedBlockSize_large (n + 8)); [lia|].
    unfold SegmentBytes. destruct (Z.leb_spec (dedicatedBlockSize (n + 8)) 8192); [lia|].
    eexists _, _. split; [reflexivity|].
    split; unfold dedicatedBucket, SegmentBytes, freeBucketCount; lia.
Qed.

Lemma class_total n :
  0 ≤ n → n + 8 ≤ maxArenaBlock → ∃ b s, class n = Ret (b, s) ∧ class_ok n b s.
Proof.
  intros. destruct (decide (n + 8 ≤ 1024)); [by apply class_small|].
  destruct (decide (n + 8 ≤ SegmentBytes / 2)) as [H'|]; [|apply class_large; lia].
  destruct (class_medium n) as (b & s & E & Hok); [lia..|].
  exists b, s. split; [|done]. rewrite <- E. unfold class.
  revert H'. unfold SegmentBytes. change (8192 / 2) with 4096. intros H'.
  destruct (Z.ltb_spec (n + 8) 16); [lia|]. cbv zeta.
  repeat match goal with
         | |- context [if (?x <? ?y) && (?z <=? ?w) then _ else _] =>
             destruct (Z.ltb_spec x y), (Z.leb_spec z w); cbn [andb]; try lia
         | |- context [if ?x <=? ?y then _ else _] =>
             destruct (Z.leb_spec x y); try lia
         end; done.
Qed.

Lemma segmentSizeForBlock_dedicated b :
  SegmentBytes / 2 < b → segmentSizeForBlock b = b.
Proof.
  unfold segmentSizeForBlock, SegmentBytes. change (8192 / 2) with 4096. intros.
  destruct (Z.ltb_spec 8192 b); [done|]. destruct (Z.leb_spec b 1024); [lia|].
  replace (8192 / b) with 1; [cbn; lia|]. apply Z.div_unique with (8192 - b); lia.
Qed.

Lemma mul_div_fit t b : 0 < b → b ≤ t → b ≤ t / b * b ≤ t.
Proof.
  intros. pose proof (Z.mul_div_le t b ltac:(lia)).
  assert (1 ≤ t / b) by (apply Z.div_le_lower_bound; lia). nia.
Qed.

Lemma segmentSizeForBlock_fits b :
  0 < b → b ≤ segmentSizeForBlock b ∧
          (SegmentBytes < segmentSizeForBlock b → segmentSizeForBlock b = b).
Proof.
  unfold segmentSizeForBlock, SegmentBytes. intros.
  destruct (Z.ltb_spec 8192 b); [lia|]. destruct (Z.leb_spec b 1024); [lia|].
  destruct (Z.ltb_spec (8192 / b) 1); [lia|].
  pose proof (mul_div_fit 8192 b). lia.
Qed.

Lemma segmentSizeForAllocation_fits b k :
  0 < b → b ≤ segmentSizeForAllocation b k ∧
          (SegmentBytes < segmentSizeForAllocation b k → segmentSizeForAllocation b k = b).
Proof.
  intros Hb. unfold segmentSizeForAllocation.
  destruct (Z.ltb_spec 1024 b); [by apply segmentSizeForBlock_fits|].
  destruct (Z.leb_spec 2 k); [by apply segmentSizeForBlock_fits|]. cbn [orb].
  set (t := if k =? 1 then _ else _).
  assert (t ≤ 1024).
  { unfold t, secondSmallSegmentBytes, tinyFirstSegmentBytes, firstSmallSegmentBytes.
    destruct (k =? 1); [lia|]. destruct ((k =? 0) && (b =? 24)); lia. }
  clearbody t. unfold SegmentBytes.
  destruct (Z.ltb_spec t b); [lia|]. destruct (Z.ltb_spec (t / b) 1); [lia|].
  pose proof (mul_div_fit t b). lia.
Qed.
