(* ===== verification/ArenaFacts.v ===== *)
(** * Correctness of the value arena

    The invariant of [Arena] (live blocks and free blocks tile the committed
    segments without overlap, the free lists are well threaded) and the proofs
    that every operation keeps it and implements an abstract store of live
    values. *)
From S2P Require Import Prelude Arena ArenaClass.

(** Evaluate the layout constants in the context, for [lia]. *)
Ltac arena_consts :=
  change refSegmentMask with 33554431 in *; change refOffsetMask with 8191 in *;
  change refLengthMask with 67108863 in *; change maxArenaBlock with 34611200 in *;
  change blockGenerationMask with 262143 in *; change SegmentBytes with 8192 in *;
  change freeBucketCount with 137 in *; change dedicatedBucket with 58 in *.

(** ** Ghost state and invariant

    [live] maps the position (segment, offset) of every live block to its
    generation and value; [fl b] is the free list of bucket [b], head first. *)

Abbreviation livemap := (gmap (Z * Z) (Z * list byte)).

Definition block_of (v : list byte) : Z :=
  match class (zlen v) with Ret (_, s) => s | _ => 0 end.

(** A position [(s, o)] carries a block of the given size. *)
Inductive is_block (live : livemap) (fl : Z → list (Z * Z)) (s o : Z) : Z → Prop :=
| blk_live g v : live !! (s, o) = Some (g, v) → is_block live fl s o (block_of v)
| blk_free b : (s, o) ∈ fl b → is_block live fl s o (bucket_block b).

Definition head_addr (l : list (Z * Z)) : Z :=
  match l with [] => 0 | (s, o) :: _ => mk_addr s o end.

(** Bytes [i..j) of segment [s]. *)
Definition rd (ss : list segment) (s i j : Z) : option (list byte) :=
  match znth ss s with Some g => zslice (sdata g) i j | None => None end.

(** Freed blocks have a zero generation word and link to the next one. *)
Fixpoint chain (ss : list segment) (l : list (Z * Z)) : Prop :=
  match l with
  | [] => True
  | (s, o) :: rest =>
      rd ss s o (o + 8) = Some (le_put 8 0) ∧
      rd ss s (o + 8) (o + 16) = Some (le_put 8 (head_addr rest)) ∧
      chain ss rest
  end.

Record in_range (ss : list segment) (s o sz : Z) : Prop := {
  ir_size : 16 ≤ sz;
  ir_off : 0 ≤ o ≤ refOffsetMask;
  ir_seg : 0 ≤ s ≤ refSegmentMask;
  ir_data : ∃ g, znth ss s = Some g ∧ o + sz ≤ zlen (sdata g) ∧
                 (SegmentBytes < sz → o = 0 ∧ scap g = sz)
}.

Definition seg_ok (g : segment) : Prop :=
  zlen (sdata g) ≤ scap g ∧ (SegmentBytes < scap g → zlen (sdata g) = scap g).

Record table_ok (ss : list segment) (fl : Z → list (Z * Z)) (ft : freeTable) : Prop := {
  to_len : zlen (heads ft) = freeBucketCount;
  to_heads : ∀ b, 0 ≤ b < freeBucketCount → znth (heads ft) b = Some (head_addr (fl b));
  to_nodup : NoDup (holes ft);
  to_holes : ∀ h, h ∈ holes ft → znth ss h = Some (mkSegment [] 0)
}.

Record Inv (a : Arena) (live : livemap) (fl : Z → list (Z * Z)) : Prop := {
  inv_range : ∀ s o sz, is_block live fl s o sz → in_range (segments a) s o sz;
  inv_disj : ∀ s o sz o' sz', is_block live fl s o sz → is_block live fl s o' sz' →
             o ≠ o' → o + sz ≤ o' ∨ o' + sz' ≤ o;
  inv_live_free : ∀ x b, x ∈ fl b → live !! x = None;
  inv_free_inj : ∀ x b b', x ∈ fl b → x ∈ fl b' → b = b';
  inv_free_nodup : ∀ b, NoDup (fl b);
  inv_free_dom : ∀ b, fl b ≠ [] → 0 ≤ b < freeBucketCount ∧ b ≠ dedicatedBucket ∧ free a ≠ None;
  inv_live : ∀ s o g v, live !! (s, o) = Some (g, v) →
             0 < zlen v ∧ zlen v + 8 ≤ maxArenaBlock ∧ 1 ≤ g ≤ blockGenerationMask ∧
             rd (segments a) s o (o + 8) = Some (le_put 8 g) ∧
             rd (segments a) s (o + 8) (o + 8 + zlen v) = Some v;
  inv_chain : ∀ b, chain (segments a) (fl b);
  inv_heads : ∀ ft, free a = Some ft → table_ok (segments a) fl ft;
  inv_segs : ∀ s g, znth (segments a) s = Some g → seg_ok g;
  inv_caps : zlen (segments a) ≤ segs_cap a;
  inv_gen : 0 ≤ agen a ≤ blockGenerationMask
}.

(** The abstract store an arena implements. *)
Definition arena_ok (a : Arena) (live : livemap) : Prop := ∃ fl, Inv a live fl.

Definition pos (r : Ref) : Z * Z := (ref_segment r, ref_offset r).

(** [r] is a live block reference with value [v]. *)
Definition ref_live (live : livemap) (r : Ref) (v : list byte) : Prop :=
  live !! pos r = Some (generation r, v) ∧ ref_length r = zlen v.

Definition upd (fl : Z → list (Z * Z)) (b : Z) (l : list (Z * Z)) : Z → list (Z * Z) :=
  fun b' => if b' =? b then l else fl b'.

Lemma upd_eq fl b l : upd fl b l b = l.
Proof. unfold upd. by rewrite Z.eqb_refl. Qed.

Lemma upd_ne fl b l b' : b' ≠ b → upd fl b l b' = fl b'.
Proof. unfold upd. intros. by destruct (Z.eqb_spec b' b). Qed.

(** Case split on whether [b'] is the updated bucket [b]. *)
Ltac upd_case b' b :=
  destruct (decide (b' = b)); [subst b'; rewrite ?upd_eq in * | rewrite ?(upd_ne _ b _ b') in * by done].

(** ** Addresses and blocks *)

Lemma mk_addr_ok s o :
  0 ≤ s → 0 ≤ o < 2 ^ 32 →
  addr_seg (mk_addr s o) = s ∧ addr_off (mk_addr s o) = o ∧ mk_addr s o ≠ 0.
Proof.
  intros. unfold mk_addr, addr_seg, addr_off, u32.
  rewrite lor_shiftl_add, shiftr_div by lia.
  rewrite Z.add_comm, Z.div_add, Z.div_small, Z.mod_add, Z.mod_small by lia. lia.
Qed.

Lemma mk_addr_range s o :
  0 ≤ s ≤ refSegmentMask → 0 ≤ o ≤ refOffsetMask → 0 ≤ mk_addr s o < 2 ^ 64.
Proof.
  unfold refSegmentMask, refOffsetMask, refSegmentBits, refOffsetBits.
  change (Z.shiftl 1 25 - 1) with 33554431. change (Z.shiftl 1 13 - 1) with 8191.
  intros. unfold mk_addr. rewrite lor_shiftl_add by lia. lia.
Qed.

Lemma class_block_of v :
  zlen v + 8 ≤ maxArenaBlock →
  ∃ b, class (zlen v) = Ret (b, block_of v) ∧ class_ok (zlen v) b (block_of v).
Proof.
  intros. destruct (class_total (zlen v)) as (b & s & E & Hok); [apply zlen_nonneg|done|].
  exists b. unfold block_of. rewrite E. done.
Qed.

Lemma rd_len ss s i j t : rd ss s i j = Some t → zlen t = j - i.
Proof. unfold rd. destruct (znth ss s); [|done]. apply zslice_len. Qed.

Lemma rd_get_u64 ss s i w g :
  znth ss s = Some g → rd ss s i (i + 8) = Some (le_put 8 w) → 0 ≤ w < 2 ^ 64 →
  get_u64 (sdata g) i = Ret w.
Proof.
  unfold rd. intros -> H Hw. rewrite (get_u64_slice _ _ _ H), le_get_put.
  f_equal. by apply Z.mod_small.
Qed.

Lemma refOffsetMask_lt : refOffsetMask < 2 ^ 32.
Proof. done. Qed.

Lemma is_block_in_range a live fl s o sz :
  Inv a live fl → is_block live fl s o sz → in_range (segments a) s o sz.
Proof. intros HI. apply (inv_range _ _ _ HI). Qed.

Lemma head_addr_range a live fl b :
  Inv a live fl → 0 ≤ head_addr (fl b) < 2 ^ 64.
Proof.
  intros HI. destruct (fl b) as [|[s o] l] eqn:E; cbn [head_addr]; [lia|].
  assert (is_block live fl s o (bucket_block b)) as Hb.
  { apply blk_free. rewrite E. left. }
  apply (inv_range _ _ _ HI) in Hb as [_ ? ? _]. by apply mk_addr_range.
Qed.

(** ** Framing *)

(** Ranges in [W] keep their bytes.  In a segment with such a range, committed
    data only grows and the capacity stays, unless nothing was committed yet. *)
Record seg_frame (ss ss' : list segment) (W : Z → Z → Z → Prop) : Prop := {
  sf_grow : ∀ s g i j, W s i j → znth ss s = Some g → 0 < zlen (sdata g) →
            ∃ g', znth ss' s = Some g' ∧ zlen (sdata g) ≤ zlen (sdata g') ∧ scap g' = scap g;
  sf_rd : ∀ s i j t, W s i j → rd ss s i j = Some t → rd ss' s i j = Some t
}.

Lemma in_range_frame ss ss' W s o sz i j :
  seg_frame ss ss' W → W s i j → in_range ss s o sz → in_range ss' s o sz.
Proof.
  intros HF HW [? ? ? (g & Hg & Hlen & Hded)]. split; [done..|].
  destruct (sf_grow _ _ _ HF s g i j HW Hg) as (g' & Hg' & ? & ?); [lia|].
  exists g'. split; [done|]. split; [lia|]. intros Hs. destruct (Hded Hs). lia.
Qed.

Lemma chain_frame ss ss' W l :
  seg_frame ss ss' W →
  (∀ s o, (s, o) ∈ l → W s o (o + 8) ∧ W s (o + 8) (o + 16)) →
  chain ss l → chain ss' l.
Proof.
  intros HF. induction l as [|[s o] l IH]; [done|]. intros HW (H1 & H2 & H3). cbn.
  destruct (HW s o) as [W1 W2]; [left|].
  split; [by apply (sf_rd _ _ _ HF)|]. split; [by apply (sf_rd _ _ _ HF)|].
  apply IH; [|done]. intros. apply HW. by right.
Qed.

(** Changing the segments behind the ghost state's back, block contents kept. *)
Lemma Inv_frame a live fl ss' W :
  Inv a live fl → seg_frame (segments a) ss' W →
  (∀ s o sz i j, is_block live fl s o sz → o ≤ i → j ≤ o + sz → W s i j) →
  (∀ s g, znth ss' s = Some g → seg_ok g) →
  zlen ss' ≤ segs_cap a →
  (∀ ft, free a = Some ft → ∀ h, h ∈ holes ft → znth ss' h = Some (mkSegment [] 0)) →
  Inv (set_segments a ss') live fl.
Proof.
  intros HI HF HW Hsegs Hcap Hholes. split; cbn [segments set_segments free segs_cap agen].
  - intros s o sz Hb. pose proof (inv_range _ _ _ HI _ _ _ Hb) as Hr.
    pose proof (ir_size _ _ _ _ Hr). eapply (in_range_frame _ _ _ _ _ _ o o); [done| |done].
    eapply HW; [done|lia..].
  - apply (inv_disj _ _ _ HI).
  - apply (inv_live_free _ _ _ HI).
  - apply (inv_free_inj _ _ _ HI).
  - apply (inv_free_nodup _ _ _ HI).
  - apply (inv_free_dom _ _ _ HI).
  - intros s o g v Hv. pose proof (inv_live _ _ _ HI s o g v Hv) as (? & Hm & ? & R1 & R2).
    pose proof (blk_live live fl s o g v Hv) as Hb.
    destruct (class_block_of v Hm) as (b & _ & Hck). pose proof (ck_fits _ _ _ Hck).
    pose proof (ck_min _ _ _ Hck).
    split_and!; [lia..| |]; eapply (sf_rd _ _ _ HF); try done; eapply HW; try done; lia.
  - intros b. eapply chain_frame; [done| |apply (inv_chain _ _ _ HI)].
    intros s o Hin. pose proof (blk_free live fl s o b Hin) as Hb.
    pose proof (ir_size _ _ _ _ (inv_range _ _ _ HI _ _ _ Hb)).
    split; eapply HW; try done; lia.
  - intros ft Hft. destruct (inv_heads _ _ _ HI ft Hft) as [? ? ? ?]. split; try done. eauto.
  - done.
  - done.
  - apply (inv_gen _ _ _ HI).
Qed.

(** ** Allocation *)

(** A block no live or free block overlaps, ready to be written. *)
Definition fresh_block (a : Arena) (live : livemap) (fl : Z → list (Z * Z)) (s o sz : Z) : Prop :=
  in_range (segments a) s o sz ∧
  ∀ o' sz', is_block live fl s o' sz' → o + sz ≤ o' ∨ o' + sz' ≤ o.

(** Committed length and capacity of every segment. *)
Definition shape (ss : list segment) : list (Z * Z) :=
  map (fun g => (zlen (sdata g), scap g)) ss.

Lemma shape_insert ss s g g' :
  znth ss s = Some g → zlen (sdata g') = zlen (sdata g) → scap g' = scap g →
  shape (<[Z.to_nat s := g']> ss) = shape ss.
Proof.
  intros Hg H1 H2. pose proof (znth_Some _ _ _ Hg). rewrite znth_lookup in Hg by lia.
  unfold shape. rewrite list_fmap_insert. apply list_insert_id.
  change (map ?f ?l) with (f <$> l). rewrite list_lookup_fmap, Hg. cbn. by rewrite H1, H2.
Qed.

(** Overwriting part of one segment. *)
Lemma seg_frame_write ss s g d o sz :
  znth ss s = Some g → zlen d = zlen (sdata g) →
  (∀ i j t, (j ≤ o ∨ o + sz ≤ i) → zslice (sdata g) i j = Some t → zslice d i j = Some t) →
  seg_frame ss (<[Z.to_nat s := mkSegment d (scap g)]> ss)
    (fun s' i j => s' ≠ s ∨ j ≤ o ∨ o + sz ≤ i).
Proof.
  intros Hg Hlen Hfr. pose proof (znth_Some _ _ _ Hg). split.
  - intros s' g' ? ? _ Hg' _. destruct (decide (s' = s)) as [->|].
    + rewrite znth_insert_eq by lia. eexists. split; [done|]. simplify_eq. cbn. lia.
    + rewrite znth_insert_ne by lia. eauto with lia.
  - intros s' i j t HW. unfold rd. destruct (decide (s' = s)) as [->|].
    + rewrite znth_insert_eq, Hg by lia. cbn. intros. apply Hfr; [|done]. by destruct HW.
    + by rewrite znth_insert_ne by lia.
Qed.

Lemma rd_insert ss s g i j :
  0 ≤ s < zlen ss → rd (<[Z.to_nat s := g]> ss) s i j = zslice (sdata g) i j.
Proof. intros. unfold rd. by rewrite znth_insert_eq. Qed.

(** A hole's segment holds no committed byte. *)
Lemma not_hole a live fl ft s o sz :
  Inv a live fl → free a = Some ft → in_range (segments a) s o sz → s ∉ holes ft.
Proof.
  intros HI Hft [? ? ? (g & Hg & Hl & _)] Hin.
  destruct (inv_heads _ _ _ HI ft Hft) as [_ _ _ Hh].
  rewrite (Hh s Hin) in Hg. simplify_eq. cbn [sdata] in Hl. rewrite zlen_nil in Hl. lia.
Qed.

Lemma nextGeneration_range a live fl :
  Inv a live fl → 1 ≤ fst (nextGeneration a) ≤ blockGenerationMask.
Proof.
  intros HI. pose proof (inv_gen _ _ _ HI) as Hg. unfold nextGeneration. cbn [fst].
  arena_consts. rewrite u64_id by lia. destruct (Z.ltb_spec 262143 (agen a + 1)); lia.
Qed.

(** Adding a live block whose header and payload are already written. *)
Lemma Inv_add_live a live fl s o g v :
  Inv a live fl → fresh_block a live fl s o (block_of v) →
  0 < zlen v → zlen v + 8 ≤ maxArenaBlock → 1 ≤ g ≤ blockGenerationMask →
  rd (segments a) s o (o + 8) = Some (le_put 8 g) →
  rd (segments a) s (o + 8) (o + 8 + zlen v) = Some v →
  Inv a (<[(s, o) := (g, v)]> live) fl.
Proof.
  intros HI [Hr Hfresh] Hv Hmax Hg R1 R2.
  assert (Hinv : ∀ s' o' sz', is_block (<[(s, o) := (g, v)]> live) fl s' o' sz' →
    ((s', o') = (s, o) ∧ sz' = block_of v) ∨ is_block live fl s' o' sz').
  { intros s' o' sz' [g' v' Hl|b Hin].
    - destruct (decide ((s', o') = (s, o))) as [E|NE].
      + rewrite E, lookup_insert_eq in Hl. simplify_eq. by left.
      + rewrite lookup_insert_ne in Hl by done. right. by eapply blk_live.
    - right. by apply blk_free. }
  assert (Hnot : ∀ sz', ¬ is_block live fl s o sz').
  { intros sz' Hb. pose proof (ir_size _ _ _ _ Hr).
    pose proof (ir_size _ _ _ _ (inv_range _ _ _ HI _ _ _ Hb)).
    destruct (Hfresh _ _ Hb); lia. }
  destruct HI. split; try done.
  - intros s' o' sz' [[E ->]|Hb]%Hinv; [by simplify_eq|eauto].
  - intros s' o1 z1 o2 z2 [[E1 ->]|H1]%Hinv [[E2 ->]|H2]%Hinv Hne; simplify_eq.
    + apply Hfresh. done.
    + pose proof (Hfresh _ _ H1). lia.
    + eauto.
  - intros x b Hin. destruct (decide (x = (s, o))) as [->|].
    + exfalso. eapply Hnot. by apply (blk_free live fl s o b).
    + rewrite lookup_insert_ne by done. eauto.
  - intros s' o' g' v' Hl. destruct (decide ((s', o') = (s, o))) as [E|NE].
    + rewrite E, lookup_insert_eq in Hl. simplify_eq. split_and!; done || lia.
    + rewrite lookup_insert_ne in Hl by done. eauto.
Qed.

(** Writing a generation header and a payload inside a block. *)
Lemma write_block ss s g o gen v sz :
  znth ss s = Some g → 0 ≤ o → o + sz ≤ zlen (sdata g) → zlen v + 8 ≤ sz →
  let d := copy_at (copy_at (sdata g) o (le_put 8 gen)) (o + 8) v in
  let ss' := <[Z.to_nat s := mkSegment d (scap g)]> ss in
  zlen d = zlen (sdata g) ∧
  seg_frame ss ss' (fun s' i j => s' ≠ s ∨ j ≤ o ∨ o + sz ≤ i) ∧
  rd ss' s o (o + 8) = Some (le_put 8 gen) ∧ rd ss' s (o + 8) (o + 8 + zlen v) = Some v.
Proof.
  intros Hg Ho Hsz Hv d ss'. pose proof (znth_Some _ _ _ Hg) as Hs.
  pose proof (zlen_nonneg v).
  assert (H1 : zlen (copy_at (sdata g) o (le_put 8 gen)) = zlen (sdata g))
    by (apply copy_at_length; rewrite ?zlen_le_put; lia).
  assert (Hd : zlen d = zlen (sdata g)) by (rewrite <- H1; apply copy_at_length; lia).
  split_and!; [done| | |].
  - apply seg_frame_write; [done..|]. intros i j t Hd' Ht.
    apply copy_at_frame; [lia..|]. apply copy_at_frame; rewrite ?zlen_le_put; [lia..|done].
  - unfold ss'. rewrite rd_insert by done. cbn [sdata]. apply copy_at_frame; [lia..|].
    pose proof (copy_at_read (sdata g) o (le_put 8 gen)) as R. rewrite zlen_le_put in R.
    apply R; lia.
  - unfold ss'. rewrite rd_insert by done. apply copy_at_read; lia.
Qed.

(** Overwriting a fresh block (length and capacity kept) preserves the invariant. *)
Lemma Inv_write_fresh a live fl s o sz g d :
  Inv a live fl → fresh_block a live fl s o sz → znth (segments a) s = Some g →
  zlen d = zlen (sdata g) →
  let ss' := <[Z.to_nat s := mkSegment d (scap g)]> (segments a) in
  seg_frame (segments a) ss' (fun s' i j => s' ≠ s ∨ j ≤ o ∨ o + sz ≤ i) →
  Inv (set_segments a ss') live fl.
Proof.
  intros HI [Hr Hf] Hg Hd ss' HF. pose proof (znth_Some _ _ _ Hg).
  eapply Inv_frame; [done|done| | | |].
  - intros s' o' sz' i j Hb Hi Hj. destruct (decide (s' = s)) as [->|]; [|by left].
    right. destruct (Hf _ _ Hb); lia.
  - intros s' g' Hg'. unfold ss' in Hg'. destruct (decide (s' = s)) as [->|].
    + rewrite znth_insert_eq in Hg' by lia. simplify_eq.
      unfold seg_ok. cbn [sdata scap]. rewrite Hd. apply (inv_segs _ _ _ HI s g Hg).
    + rewrite znth_insert_ne in Hg' by lia. apply (inv_segs _ _ _ HI s' g' Hg').
  - unfold ss'. rewrite zlen_insert. apply (inv_caps _ _ _ HI).
  - intros ft Hft h Hh. pose proof (not_hole _ _ _ ft _ _ _ HI Hft Hr).
    unfold ss'. rewrite znth_insert_ne by (lia || (intros ->; done)).
    by apply (to_holes _ _ _ (inv_heads _ _ _ HI ft Hft)).
Qed.

(** Advancing the generation counter. *)
Lemma Inv_next a live fl :
  Inv a live fl → Inv (snd (nextGeneration a)) live fl.
Proof.
  intros HI. pose proof (nextGeneration_range _ _ _ HI).
  destruct HI. split; try done. cbn [nextGeneration snd agen] in *. cbn [fst nextGeneration] in *. lia.
Qed.

Lemma alloc_write_ok a live fl s o v :
  Inv a live fl → fresh_block a live fl s o (block_of v) →
  0 < zlen v → zlen v + 8 ≤ maxArenaBlock →
  ∃ r a', alloc_write a s o v = Ret (r, a') ∧
    pos r = (s, o) ∧ ref_length r = zlen v ∧ generation r = fst (nextGeneration a) ∧
    Inv a' (<[(s, o) := (generation r, v)]> live) fl ∧
    free a' = free a ∧ segs_cap a' = segs_cap a ∧ agen a' = fst (nextGeneration a) ∧
    shape (segments a') = shape (segments a).
Proof.
  intros HI Hf Hv Hmax. pose proof (Inv_next _ _ _ HI) as HI1.
  pose proof (nextGeneration_range _ _ _ HI) as Hgen.
  assert (Hsnd : segments (snd (nextGeneration a)) = segments a ∧
    free (snd (nextGeneration a)) = free a ∧ segs_cap (snd (nextGeneration a)) = segs_cap a ∧
    agen (snd (nextGeneration a)) = fst (nextGeneration a)) by done.
  unfold alloc_write. destruct (nextGeneration a) as [gen a1]. cbn [fst snd] in *.
  destruct Hsnd as (Es & Efr & Ec & Eg).
  pose proof Hf as [[Hsz Ho Hs (g & Hg & Hlen & Hded)] _].
  destruct (class_block_of v Hmax) as (bk & Hck & Hok). pose proof (ck_fits _ _ _ Hok) as Hfit.
  pose proof (znth_Some _ _ _ Hg) as Hsl.
  assert (Hf1 : fresh_block a1 live fl s o (block_of v)).
  { unfold fresh_block. rewrite Es. exact Hf. }
  destruct (write_block _ s g o gen v _ Hg ltac:(lia) Hlen Hfit) as (Hd & HF & R1 & R2).
  rewrite Es, Hg. cbn [or_panic]. rewrite res_bind_ret.
  rewrite put_u64_ok, res_bind_ret, zupd_Some by lia. cbn [or_panic]. rewrite res_bind_ret.
  destruct (newRef_ok s o (zlen v) gen) as (r & Er & Rs & Ro & Rl & Rg); [done|done|arena_consts; lia|].
  rewrite !u32_id, Er, res_bind_ret by (arena_consts; lia).
  eexists _, _. split; [done|]. unfold pos. rewrite Rs, Ro, Rl, Rg.
  do 3 (split; [done|]). rewrite <- Es in *. split.
  - apply Inv_add_live; [eapply Inv_write_fresh; done| |done..].
    split; [|apply Hf1]. eapply (in_range_frame _ _ _ _ _ _ o o); [done|right; left; lia|apply Hf1].
  - split_and!; [done..|]. cbn [segments set_segments]. by eapply shape_insert.
Qed.

Lemma is_block_upd_tail live fl b x rest s o sz :
  fl b = x :: rest → is_block live (upd fl b rest) s o sz → is_block live fl s o sz.
Proof.
  intros E [g v Hl|b' Hin]; [by eapply blk_live|].
  apply blk_free. destruct (decide (b' = b)) as [Eb|Nb].
  - rewrite Eb in *. rewrite upd_eq in Hin. rewrite E. by right.
  - by rewrite upd_ne in Hin.
Qed.

Lemma alloc_reuse_ok a live fl ft b s o rest :
  Inv a live fl → free a = Some ft → fl b = (s, o) :: rest →
  ∃ a', alloc_reuse a ft b (head_addr (fl b)) = Ret (s, o, a') ∧
    Inv a' live (upd fl b rest) ∧
    fresh_block a' live (upd fl b rest) s o (bucket_block b) ∧
    segments a' = segments a ∧ segs_cap a' = segs_cap a ∧ agen a' = agen a ∧
    free a' = Some (mkFreeTable (<[Z.to_nat b := head_addr rest]> (heads ft)) (holes ft)).
Proof.
  intros HI Hft E.
  assert (Hb : is_block live fl s o (bucket_block b)) by (apply blk_free; rewrite E; left).
  pose proof (inv_range _ _ _ HI _ _ _ Hb) as Hr.
  pose proof Hr as [? Ho Hs (g & Hg & Hlen & _)].
  destruct (inv_free_dom _ _ _ HI b) as (Hdom & Hnd & _); [by rewrite E|].
  destruct (inv_heads _ _ _ HI ft Hft) as [Hl Hh Hndh Hho].
  pose proof (inv_chain _ _ _ HI b) as Hc. rewrite E in Hc. destruct Hc as (R1 & R2 & Hc).
  destruct (mk_addr_ok s o) as (Es & Eo & Enz); [lia|arena_consts; lia|].
  assert (Hhd : 0 ≤ head_addr rest < 2 ^ 64).
  { destruct rest as [|[s' o'] rest']; cbn [head_addr]; [lia|].
    assert (Hb' : is_block live fl s' o' (bucket_block b))
      by (apply blk_free; rewrite E; right; left).
    apply (inv_range _ _ _ HI) in Hb' as [_ ? ? _]. by apply mk_addr_range. }
  rewrite E. cbn [head_addr]. unfold alloc_reuse, read_link. rewrite Es, Eo, Hg.
  cbn [or_panic]. rewrite res_bind_ret.
  replace (o + 16) with (o + 8 + 8) in R2 by lia.
  rewrite (rd_get_u64 _ _ _ _ _ Hg R2 Hhd), res_bind_ret.
  rewrite zupd_Some by (rewrite Hl; done). cbn [or_panic]. rewrite res_bind_ret.
  eexists. split; [done|]. split; [|split; [split; [done|]|done]].
  - destruct HI. split; try done; cbn [segments set_free segs_cap free agen] in *.
    + intros. eauto using is_block_upd_tail.
    + intros. eauto using is_block_upd_tail.
    + intros x b' Hin. upd_case b' b; [|eauto].
      apply (inv_live_free0 x b). rewrite E. by right.
    + intros x b1 b2 H1 H2. apply (inv_free_inj0 x).
      * upd_case b1 b; [rewrite E; by right|done].
      * upd_case b2 b; [rewrite E; by right|done].
    + intros b'. upd_case b' b; [|done].
      specialize (inv_free_nodup0 b). rewrite E in inv_free_nodup0. by inversion inv_free_nodup0.
    + intros b' Hne. upd_case b' b; [done|].
      by destruct (inv_free_dom0 b' Hne) as (? & ? & ?).
    + intros b'. by upd_case b' b.
    + intros ft' [= <-]. split; cbn [heads holes].
      * by rewrite zlen_insert.
      * intros b' Hb'. destruct (decide (b' = b)) as [->|].
        -- rewrite znth_insert_eq by (rewrite Hl; done). by rewrite upd_eq.
        -- rewrite znth_insert_ne by (done || lia). rewrite upd_ne by done. by apply Hh.
      * done.
      * done.
  - intros o' sz' Hb'. destruct (decide (o' = o)) as [->|Hne].
    + exfalso. inversion Hb' as [g' v' Hlv|b' Hin]; subst.
      * assert (Hn : live !! (s, o) = None) by (apply (inv_live_free _ _ _ HI _ b); rewrite E; left).
        congruence.
      * upd_case b' b.
        -- pose proof (inv_free_nodup _ _ _ HI b) as Hn. rewrite E in Hn. by inversion Hn.
        -- assert (b' = b); [|done]. apply (inv_free_inj _ _ _ HI (s, o)); [done|]. rewrite E. left.
    + apply (is_block_upd_tail _ _ _ _ _ _ _ _ E) in Hb'.
      apply (inv_disj _ _ _ HI s o _ o' sz' Hb Hb'). done.
Qed.

Lemma take_last_snoc {A} (l : list A) x :
  znth l (zlen l - 1) = Some x → l = take (length l - 1) l ++ [x].
Proof.
  rewrite znth_last. intros H. apply last_Some in H as [l' ->].
  rewrite length_app. cbn [length]. rewrite Nat.add_sub, take_app_length. done.
Qed.

(** Segments never committed hold no block. *)
Lemma no_block_empty a live fl s g o sz :
  Inv a live fl → znth (segments a) s = Some g → zlen (sdata g) = 0 → ¬ is_block live fl s o sz.
Proof.
  intros HI Hg H0 Hb. apply (inv_range _ _ _ HI) in Hb as [? ? ? (g' & Hg' & ? & ?)].
  simplify_eq. lia.
Qed.

Lemma alloc_hole_ok a live fl ft n b block :
  Inv a live fl → free a = Some ft → holes ft ≠ [] →
  class_ok n b block → dedicatedBlock block = true → zlen (segments a) ≤ refSegmentMask + 1 →
  ∃ s a', alloc_hole a ft block = Ret (s, 0, a') ∧ Inv a' live fl ∧
    fresh_block a' live fl s 0 block ∧
    znth (holes ft) (zlen (holes ft) - 1) = Some s ∧
    znth (segments a) s = Some (mkSegment [] 0) ∧
    shape (segments a') = <[Z.to_nat s := (block, block)]> (shape (segments a)) ∧
    segs_cap a' = segs_cap a ∧ agen a' = agen a ∧
    free a' = Some (mkFreeTable (heads ft) (take (length (holes ft) - 1) (holes ft))).
Proof.
  intros HI Hft Hne Hok Hded Hcount.
  unfold dedicatedBlock in Hded. apply Z.ltb_lt in Hded.
  pose proof (segmentSizeForBlock_dedicated block Hded) as Hssb.
  destruct (inv_heads _ _ _ HI ft Hft) as [Hl Hh Hnd Hho].
  destruct (znth_is_Some (holes ft) (zlen (holes ft) - 1)) as [s Hs].
  { destruct (holes ft); [done|]. rewrite zlen_cons. pose proof (zlen_nonneg l). lia. }
  pose proof (take_last_snoc _ _ Hs) as Hsnoc.
  assert (Hin : s ∈ holes ft) by (rewrite Hsnoc; apply elem_of_app; right; left).
  pose proof (Hho s Hin) as Hseg. pose proof (znth_Some _ _ _ Hseg) as Hsl.
  unfold alloc_hole. rewrite Hs. cbn [or_panic]. rewrite res_bind_ret.
  rewrite zupd_Some by done. cbn [or_panic]. rewrite res_bind_ret, Hssb.
  eexists s, _. split; [done|].
  set (g' := mkSegment (replicate (Z.to_nat block) x00) block).
  set (ss' := <[Z.to_nat s := g']> (segments a)).
  pose proof (ck_min _ _ _ Hok) as Hmin.
  assert (Hg' : zlen (sdata g') = block) by (apply zlen_replicate; lia).
  assert (Hn : s ∉ take (length (holes ft) - 1) (holes ft)).
  { rewrite Hsnoc in Hnd. apply NoDup_app in Hnd as (_ & Hx & _). intros Hi. eapply Hx; [done|left]. }
  assert (HF : seg_frame (segments a) ss' (fun s' _ _ => s' ≠ s)).
  { split.
    - intros s' g0 ? ? _ Hg0 Hpos. destruct (decide (s' = s)) as [->|].
      + by simplify_eq.
      + unfold ss'. rewrite znth_insert_ne by lia. eauto with lia.
    - intros s' i j t Hsne. unfold rd, ss'. by rewrite znth_insert_ne by lia. }
  assert (HI' : Inv (set_segments (set_free a (Some (mkFreeTable (heads ft)
                      (take (length (holes ft) - 1) (holes ft))))) ss') live fl).
  { eapply (Inv_frame _ _ _ _ (fun s' _ _ => s' ≠ s)); [|exact HF| | | |].
    - destruct HI. split; try done; cbn [segments set_free segs_cap free agen] in *.
      + intros b' Hb'. by destruct (inv_free_dom0 b' Hb') as (? & ? & ?).
      + intros ft' [= <-]. split; cbn [heads holes]; try done.
        * rewrite Hsnoc in Hnd. by apply NoDup_app in Hnd as (? & _).
        * intros h Hh'. apply Hho. rewrite Hsnoc. apply elem_of_app. by left.
    - intros s' o' sz' i j Hb _ _ ->. eapply no_block_empty; [exact HI|exact Hseg|done|exact Hb].
    - intros s' g0 Hg0. unfold ss' in Hg0. destruct (decide (s' = s)) as [->|].
      + rewrite znth_insert_eq in Hg0 by lia. injection Hg0 as <-.
        unfold seg_ok. rewrite Hg'. cbn. lia.
      + rewrite znth_insert_ne in Hg0 by lia. by apply (inv_segs _ _ _ HI s').
    - unfold ss'. rewrite zlen_insert. apply (inv_caps _ _ _ HI).
    - cbn [free set_free]. intros ft' [= <-] h Hh'. cbn [holes] in Hh'. unfold ss'.
      rewrite znth_insert_ne by (lia || (intros ->; done)). apply Hho. rewrite Hsnoc. apply elem_of_app. by left. }
  split; [exact HI'|]. split; [split|].
  - split; [lia|arena_consts; lia|arena_consts; lia|].
    exists g'. cbn [segments set_segments set_free]. unfold ss'. rewrite znth_insert_eq by lia.
    split; [done|]. rewrite Hg'. cbn. lia.
  - intros o' sz' Hb. exfalso. eapply no_block_empty; [exact HI|exact Hseg|done|exact Hb].
  - split_and!; [done|done| |done..]. cbn [segments set_segments set_free]. unfold shape.
    change (map ?f ?l) with (f <$> l). unfold ss'. rewrite list_fmap_insert.
    by rewrite Hg'.
Qed.

(** Committing the next bytes of a segment with room. *)
Lemma Inv_extend a live fl k g block :
  Inv a live fl → znth (segments a) k = Some g → k ≤ refSegmentMask →
  16 ≤ block → zlen (sdata g) + block ≤ scap g →
  let g' := mkSegment (sdata g ++ replicate (Z.to_nat block) x00) (scap g) in
  let a' := set_segments a (<[Z.to_nat k := g']> (segments a)) in
  Inv a' live fl ∧ fresh_block a' live fl k (zlen (sdata g)) block.
Proof.
  intros HI Hg Hk Hmin Hroom g' a'. pose proof (znth_Some _ _ _ Hg) as Hkl.
  destruct (inv_segs _ _ _ HI k g Hg) as [Hle Hfull]. pose proof (zlen_nonneg (sdata g)).
  assert (Hcap : scap g ≤ SegmentBytes) by (destruct (decide (SegmentBytes < scap g)); lia).
  assert (Hlen : zlen (sdata g') = zlen (sdata g) + block).
  { cbn [sdata g']. rewrite zlen_app, zlen_replicate; lia. }
  assert (HF : seg_frame (segments a) (segments a') (fun _ _ _ => True)).
  { cbn [segments a' set_segments]. split.
    - intros s' g0 ? ? _ Hg0 _. destruct (decide (s' = k)) as [->|].
      + rewrite znth_insert_eq by lia. assert (g0 = g) as -> by congruence.
        eexists. split; [done|]. rewrite Hlen. cbn. lia.
      + rewrite znth_insert_ne by lia. eauto with lia.
    - intros s' i j t _. unfold rd. destruct (decide (s' = k)) as [->|].
      + rewrite znth_insert_eq, Hg by lia. apply zslice_app_l.
      + by rewrite znth_insert_ne by lia. }
  split; [eapply Inv_frame; [done|done|done| | |]|].
  - intros s' g0 Hg0. destruct (decide (s' = k)) as [->|].
    + rewrite znth_insert_eq in Hg0 by lia. injection Hg0 as <-.
      unfold seg_ok. rewrite Hlen. cbn [scap g']. lia.
    + rewrite znth_insert_ne in Hg0 by lia. by apply (inv_segs _ _ _ HI s').
  - rewrite zlen_insert. apply (inv_caps _ _ _ HI).
  - intros ft Hft h Hh. pose proof (to_holes _ _ _ (inv_heads _ _ _ HI ft Hft) h Hh) as Hz.
    rewrite znth_insert_ne; [done|lia|]. intros ->. rewrite Hg in Hz. injection Hz as ->.
    cbn in *. lia.
  - split.
    + split; [lia|arena_consts; lia|lia|]. exists g'. cbn [segments a' set_segments].
      rewrite znth_insert_eq by lia. split; [done|]. rewrite Hlen. lia.
    + intros o' sz' Hb. right.
      apply (inv_range _ _ _ HI) in Hb as [_ _ _ (g0 & Hg0 & Hb & _)].
      assert (g0 = g) as -> by congruence. lia.
Qed.

(** Appending a segment whose first block is committed at once. *)
Lemma Inv_append a live fl block size cap :
  Inv a live fl → zlen (segments a) ≤ refSegmentMask → 16 ≤ block →
  block ≤ size → (SegmentBytes < size → size = block) → zlen (segments a) < cap →
  let g' := mkSegment (replicate (Z.to_nat block) x00) size in
  let a' := mkArena (segments a ++ [g']) cap (free a) (agen a) in
  Inv a' live fl ∧ fresh_block a' live fl (zlen (segments a)) 0 block.
Proof.
  intros HI Hk Hmin Hfit Hbig Hcap g' a'. pose proof (zlen_nonneg (segments a)).
  assert (Hlen : zlen (sdata g') = block) by (apply zlen_replicate; lia).
  assert (Hl : ∀ s g, znth (segments a) s = Some g → znth (segments a ++ [g']) s = Some g).
  { intros s g Hs. rewrite znth_app_l; [done|]. apply znth_Some in Hs. lia. }
  assert (Hnew : znth (segments a ++ [g']) (zlen (segments a)) = Some g').
  { rewrite znth_app_r by lia. by rewrite Z.sub_diag. }
  assert (HF : seg_frame (segments a) (segments a') (fun _ _ _ => True)).
  { split.
    - intros s g ? ? _ Hs _. exists g. split; [by apply Hl|]. lia.
    - intros s i j t _. unfold rd. destruct (znth (segments a) s) as [g|] eqn:E; [|done].
      cbn [segments a']. by rewrite (Hl _ _ E). }
  assert (HIc : Inv (mkArena (segments a) cap (free a) (agen a)) live fl).
  { destruct HI. split; try done. cbn. lia. }
  split; [apply (Inv_frame _ _ _ _ _ HIc HF)|]; cbn [segments segs_cap free a'].
  - done.
  - intros s g Hs. destruct (decide (s < zlen (segments a))).
    + rewrite znth_app_l in Hs by done. by apply (inv_segs _ _ _ HI s).
    + pose proof (znth_Some _ _ _ Hs) as Hs'. rewrite zlen_snoc in Hs'.
      assert (s = zlen (segments a)) as -> by lia. rewrite Hnew in Hs. injection Hs as <-.
      unfold seg_ok. rewrite Hlen. cbn [scap g']. lia.
  - rewrite zlen_snoc. lia.
  - intros ft Hft h Hh. apply Hl. by apply (to_holes _ _ _ (inv_heads _ _ _ HI ft Hft)).
  - split.
    + split; [lia|arena_consts; lia|lia|]. exists g'. split; [done|]. rewrite Hlen.
      split; [lia|]. intros. cbn [scap g']. lia.
    + intros o' sz' Hb. exfalso.
      apply (inv_range _ _ _ HI) in Hb as [_ _ _ (g0 & Hg0 & _ & _)]. apply znth_Some in Hg0. lia.
Qed.

(** What an allocation from the end of the arena does to the layout. *)
Definition bump_shape (sh : list (Z * Z)) (cap block : Z) (sh' : list (Z * Z)) (cap' : Z) : Prop :=
  match last sh with
  | Some (len, c) =>
      if c - len <? block
      then sh' = sh ++ [(block, segmentSizeForAllocation block (zlen sh))] ∧
           cap' = (if zlen sh =? cap then grown_cap cap else cap)
      else sh' = <[(length sh - 1)%nat := (len + block, c)]> sh ∧ cap' = cap
  | None => sh' = [(block, segmentSizeForAllocation block 0)] ∧
            cap' = (if zlen sh =? cap then grown_cap cap else cap)
  end.

Lemma shape_len ss : zlen (shape ss) = zlen ss.
Proof. unfold shape, zlen. by rewrite length_map. Qed.

Lemma last_shape ss : last (shape ss) = (fun g => (zlen (sdata g), scap g)) <$> last ss.
Proof. apply fmap_last. Qed.

Lemma grown_cap_gt c n : 0 ≤ n ≤ c → n < (if n =? c then grown_cap c else c).
Proof.
  intros. destruct (Z.eqb_spec n c); [|lia]. unfold grown_cap.
  destruct (Z.eqb_spec (2 * c) 0); lia.
Qed.

Lemma alloc_bump_ok a live fl n b block :
  Inv a live fl → class_ok n b block → zlen (segments a) ≤ refSegmentMask →
  ∃ s o a', alloc_bump a block = Ret (s, o, a') ∧ Inv a' live fl ∧
    fresh_block a' live fl s o block ∧ free a' = free a ∧ agen a' = agen a ∧
    bump_shape (shape (segments a)) (segs_cap a) block (shape (segments a')) (segs_cap a').
Proof.
  intros HI Hok Hk. pose proof (ck_min _ _ _ Hok) as Hmin.
  pose proof (zlen_nonneg (segments a)) as Hnn.
  unfold bump_shape. rewrite last_shape, shape_len. unfold alloc_bump, alloc_grow.
  set (grow := mkArena (segments a ++ [mkSegment [] _]) _ _ _).
  assert (Hgrow : ∃ s o a',
    (s ← or_panic (znth (segments grow) (zlen (segments grow) - 1)) oob;
     guard_panic (scap s <? zlen (sdata s) + block) "slice bounds out of range" (
     ss ← or_panic (zupd (segments grow) (zlen (segments grow) - 1)
        (mkSegment (sdata s ++ replicate (Z.to_nat block) x00) (scap s))) oob;
     Ret (zlen (segments grow) - 1, zlen (sdata s), set_segments grow ss))) = Ret (s, o, a') ∧
    Inv a' live fl ∧ fresh_block a' live fl s o block ∧ free a' = free a ∧ agen a' = agen a ∧
    shape (segments a') = shape (segments a) ++ [(block, segmentSizeForAllocation block (zlen (segments a)))] ∧
    segs_cap a' = (if zlen (segments a) =? segs_cap a then grown_cap (segs_cap a) else segs_cap a)).
  { destruct (segmentSizeForAllocation_fits block (zlen (segments a))) as [Hfit Hbig]; [lia|].
    set (size := segmentSizeForAllocation block (zlen (segments a))) in *.
    unfold grow. cbn [segments]. rewrite zlen_snoc.
    replace (zlen (segments a) + 1 - 1) with (zlen (segments a)) by lia.
    rewrite znth_app_r, Z.sub_diag by lia. change (znth [?x] 0) with (Some x).
    cbn [or_panic]. rewrite res_bind_ret.
    cbn [sdata scap app]. rewrite zlen_nil. unfold guard_panic.
    destruct (Z.ltb_spec size (0 + block)); [lia|].
    rewrite zupd_Some by (rewrite zlen_snoc; lia). cbn [or_panic].
    rewrite res_bind_ret, to_nat_zlen, insert_app_r_alt, Nat.sub_diag by lia.
    cbn [insert list_insert]. eexists _, _, _. split; [done|].
    destruct (Inv_append a live fl block size
      (if zlen (segments a) =? segs_cap a then grown_cap (segs_cap a) else segs_cap a)
      HI Hk Hmin Hfit Hbig) as [HI' Hf'].
    { apply grown_cap_gt. pose proof (inv_caps _ _ _ HI). lia. }
    split; [exact HI'|]. split; [exact Hf'|]. split_and!; [done..| |done].
    unfold shape. cbn [segments set_segments]. rewrite map_app. cbn [map sdata scap].
    by rewrite zlen_replicate by lia. }
  destruct (last (segments a)) as [g|] eqn:Elast; cbn [fmap option_fmap option_map].
  - destruct (Z.ltb_spec (scap g - zlen (sdata g)) block) as [Hlt|Hge]; cbn [negb].
    + exact Hgrow.
    + clear Hgrow. rewrite <- znth_last in Elast. rewrite Elast. cbn [or_panic]. rewrite res_bind_ret.
      unfold guard_panic. destruct (Z.ltb_spec (scap g) (zlen (sdata g) + block)); [lia|].
      pose proof (znth_Some _ _ _ Elast). rewrite zupd_Some by lia. cbn [or_panic].
      rewrite res_bind_ret. eexists _, _, _. split; [done|].
      destruct (Inv_extend a live fl _ g block HI Elast) as [HI' Hf']; [lia..|].
      split; [exact HI'|]. split; [exact Hf'|]. split_and!; [done..| |done].
      unfold shape. cbn [segments set_segments]. change (map ?f ?l) with (f <$> l).
      rewrite list_fmap_insert. cbn [sdata scap]. rewrite zlen_app, zlen_replicate by lia.
      rewrite length_fmap. unfold zlen at 1. f_equal. lia.
  - apply last_None in Elast. rewrite Elast in *. exact Hgrow.
Qed.

(** How allocating at [p] changes the free lists and the layout. *)
Inductive alloc_effect (a : Arena) (fl : Z → list (Z * Z)) (b block : Z) (p : Z * Z)
    (a' : Arena) (fl' : Z → list (Z * Z)) : Prop :=
| eff_reuse ft rest :
    free a = Some ft → fl b = p :: rest → fl' = upd fl b rest →
    shape (segments a') = shape (segments a) → segs_cap a' = segs_cap a →
    free a' = Some (mkFreeTable (<[Z.to_nat b := head_addr rest]> (heads ft)) (holes ft)) →
    alloc_effect a fl b block p a' fl'
| eff_hole ft h :
    free a = Some ft → fl b = [] → fl' = fl → dedicatedBlock block = true → holes ft ≠ [] →
    p = (h, 0) → znth (holes ft) (zlen (holes ft) - 1) = Some h →
    znth (segments a) h = Some (mkSegment [] 0) →
    shape (segments a') = <[Z.to_nat h := (block, block)]> (shape (segments a)) →
    segs_cap a' = segs_cap a →
    free a' = Some (mkFreeTable (heads ft) (take (length (holes ft) - 1) (holes ft))) →
    alloc_effect a fl b block p a' fl'
| eff_bump :
    fl b = [] → fl' = fl →
    (∀ ft, free a = Some ft → dedicatedBlock block = true → holes ft = []) →
    free a' = free a →
    bump_shape (shape (segments a)) (segs_cap a) block (shape (segments a')) (segs_cap a') →
    alloc_effect a fl b block p a' fl'.

(** The outcome of a successful allocation of [v] from bucket [b]. *)
Record alloc_post (a : Arena) (live : livemap) (fl : Z → list (Z * Z)) (v : list byte) (b : Z)
    (r : Ref) (a' : Arena) (fl' : Z → list (Z * Z)) : Prop := {
  ap_fresh : live !! pos r = None;
  ap_length : ref_length r = zlen v;
  ap_gen : generation r = fst (nextGeneration a);
  ap_agen : agen a' = fst (nextGeneration a);
  ap_inv : Inv a' (<[pos r := (generation r, v)]> live) fl';
  ap_effect : alloc_effect a fl b (block_of v) (pos r) a' fl'
}.

(** Every way of choosing a block ends in [alloc_write]. *)
Lemma alloc_finish a live v a1 fl1 s o :
  0 < zlen v → zlen v + 8 ≤ maxArenaBlock →
  Inv a1 live fl1 → fresh_block a1 live fl1 s o (block_of v) → agen a1 = agen a →
  ∃ r a', alloc_write a1 s o v = Ret (r, a') ∧
    free a' = free a1 ∧ segs_cap a' = segs_cap a1 ∧ shape (segments a') = shape (segments a1) ∧
    ∀ fl b, alloc_effect a fl b (block_of v) (s, o) a' fl1 → alloc_post a live fl v b r a' fl1.
Proof.
  intros Hv Hmax HI1 Hf1 Eg.
  destruct (alloc_write_ok a1 live fl1 s o v)
    as (r & a' & E & Ep & El & Egn & HI' & ? & ? & Eag & ?); [done..|].
  assert (Eng : fst (nextGeneration a1) = fst (nextGeneration a))
    by (unfold nextGeneration; by rewrite Eg).
  exists r, a'. split_and!; [done..|]. intros fl b Heff.
  split; rewrite ?Ep; try congruence; try done.
  destruct (live !! (s, o)) as [[g0 v0]|] eqn:E0; [|done]. exfalso.
  pose proof (blk_live live fl1 s o g0 v0 E0) as Hb. destruct Hf1 as [Hr Hf1].
  pose proof (ir_size _ _ _ _ Hr). pose proof (ir_size _ _ _ _ (inv_range _ _ _ HI1 _ _ _ Hb)).
  destruct (Hf1 _ _ Hb); lia.
Qed.

Lemma alloc_via_bump a live fl v b :
  Inv a live fl → 0 < zlen v → zlen v + 8 ≤ maxArenaBlock → class_ok (zlen v) b (block_of v) →
  zlen (segments a) ≤ refSegmentMask → fl b = [] →
  (∀ ft, free a = Some ft → dedicatedBlock (block_of v) = true → holes ft = []) →
  ∃ r a', ('(seg, offset, a0) ← alloc_bump a (block_of v); alloc_write a0 seg offset v) = Ret (r, a') ∧
    alloc_post a live fl v b r a' fl.
Proof.
  intros HI Hv Hmax Hok Hk Hnil Hfree.
  destruct (alloc_bump_ok a live fl _ b _ HI Hok Hk) as (s & o & a1 & -> & HI1 & Hf1 & Ef & Eg & Hsh).
  rewrite res_bind_ret.
  destruct (alloc_finish a live v a1 fl s o) as (r & a' & -> & Ef' & Ec' & Es' & Hpost); [done..|].
  exists r, a'. split; [done|]. apply Hpost. apply eff_bump; try done; congruence.
Qed.

Lemma alloc_via_reuse a live fl ft v b s o rest :
  Inv a live fl → 0 < zlen v → zlen v + 8 ≤ maxArenaBlock → class_ok (zlen v) b (block_of v) →
  free a = Some ft → fl b = (s, o) :: rest →
  ∃ r a', ('(seg, offset, a0) ← alloc_reuse a ft b (mk_addr s o); alloc_write a0 seg offset v) = Ret (r, a') ∧
    alloc_post a live fl v b r a' (upd fl b rest).
Proof.
  intros HI Hv Hmax Hok Efree Efl.
  destruct (inv_free_dom _ _ _ HI b) as (_ & Hnd58 & _); [by rewrite Efl|].
  destruct (alloc_reuse_ok a live fl ft b s o rest HI Efree Efl)
    as (a1 & E & HI1 & Hf1 & Es1 & Ec1 & Eg1 & Ef1).
  rewrite Efl in E. cbn [head_addr] in E. rewrite E, res_bind_ret.
  rewrite <- (ck_block _ _ _ Hok Hnd58) in Hf1.
  destruct (alloc_finish a live v a1 _ s o Hv Hmax HI1 Hf1 Eg1) as (r & a' & -> & Ef' & Ec' & Es' & Hpost).
  exists r, a'. split; [done|]. apply Hpost.
  eapply (eff_reuse _ _ _ _ _ _ _ ft rest); try done; congruence.
Qed.

Lemma alloc_via_hole a live fl ft v b :
  Inv a live fl → 0 < zlen v → zlen v + 8 ≤ maxArenaBlock → class_ok (zlen v) b (block_of v) →
  zlen (segments a) ≤ refSegmentMask → free a = Some ft → fl b = [] →
  dedicatedBlock (block_of v) = true → holes ft ≠ [] →
  ∃ r a', ('(seg, offset, a0) ← alloc_hole a ft (block_of v); alloc_write a0 seg offset v) = Ret (r, a') ∧
    alloc_post a live fl v b r a' fl.
Proof.
  intros HI Hv Hmax Hok Hk Efree Efl Ed Hne.
  destruct (alloc_hole_ok a live fl ft _ b _ HI Efree Hne Hok Ed)
    as (s & a1 & -> & HI1 & Hf1 & Hlast & Hs & Hsh & Hc & Hg & Hfr); [lia|].
  rewrite res_bind_ret.
  destruct (alloc_finish a live v a1 fl s 0 Hv Hmax HI1 Hf1 Hg) as (r & a' & -> & Ef' & Ec' & Es' & Hpost).
  exists r, a'. split; [done|]. apply Hpost.
  eapply (eff_hole _ _ _ _ _ _ _ ft s); try done; congruence.
Qed.

Lemma Alloc_Inv a live fl v :
  Inv a live fl → 0 < zlen v → zlen v + 8 ≤ maxArenaBlock →
  zlen (segments a) ≤ refSegmentMask →
  ∃ r a' fl' b, Alloc a v = Ret (r, a') ∧ class (zlen v) = Ret (b, block_of v) ∧
    alloc_post a live fl v b r a' fl'.
Proof.
  intros HI Hv Hmax Hk. destruct (class_block_of v Hmax) as (b & Ecls & Hok).
  unfold Alloc. destruct (Z.eqb_spec (zlen v) 0); [lia|]. rewrite Ecls, res_bind_ret.
  assert (Hgoal : ∀ m fl', (∃ r a', m = Ret (r, a') ∧ alloc_post a live fl v b r a' fl') →
    ∃ r a' fl' b', m = Ret (r, a') ∧ (Ret (b, block_of v) : res (Z * Z)) = Ret (b', block_of v) ∧
      alloc_post a live fl v b' r a' fl') by (intros m fl' (r & a' & ? & ?); eauto 8).
  destruct (free a) as [ft|] eqn:Efree; [|rewrite res_bind_ret].
  - rewrite (to_heads _ _ _ (inv_heads _ _ _ HI ft Efree)) by apply Hok.
    cbn [or_panic]. rewrite res_bind_ret.
    destruct (fl b) as [|[s o] rest] eqn:Efl; cbn [head_addr].
    + rewrite Z.eqb_refl. cbn [negb].
      destruct (dedicatedBlock (block_of v)) eqn:Ed; [destruct (Z.ltb_spec 0 (zlen (holes ft)))|];
        cbn [andb]; eapply Hgoal.
      * apply alloc_via_hole; try done. intros E. by rewrite E in *.
      * apply alloc_via_bump; try done. intros ft' Hft' _.
        rewrite Efree in Hft'. injection Hft' as <-. destruct (holes ft) as [|h l]; [done|].
        rewrite zlen_cons in *. pose proof (zlen_nonneg l). lia.
      * apply alloc_via_bump; try done. intros. congruence.
    + assert (Hb : is_block live fl s o (bucket_block b)) by (apply blk_free; rewrite Efl; left).
      pose proof (inv_range _ _ _ HI _ _ _ Hb) as [_ Ho Hs _].
      destruct (mk_addr_ok s o) as (_ & _ & Enz); [lia|arena_consts; lia|].
      destruct (Z.eqb_spec (mk_addr s o) 0); [done|]. cbn [negb].
      eapply Hgoal. by apply alloc_via_reuse.
  - eapply Hgoal. apply alloc_via_bump; try done; [|congruence].
    destruct (fl b) as [|x l] eqn:Efl; [done|]. exfalso.
    destruct (inv_free_dom _ _ _ HI b) as (_ & _ & Hn); [by rewrite Efl|]. done.
Qed.

(** ** Reading *)

Lemma live_in_range a live fl s o g v :
  Inv a live fl → live !! (s, o) = Some (g, v) → in_range (segments a) s o (block_of v).
Proof. intros HI Hv. apply (inv_range _ _ _ HI). by eapply blk_live. Qed.

Lemma live_fits a live fl s o g v :
  Inv a live fl → live !! (s, o) = Some (g, v) → zlen v + 8 ≤ block_of v.
Proof.
  intros HI Hv. destruct (inv_live _ _ _ HI _ _ _ _ Hv) as (_ & Hmax & _).
  destruct (class_block_of v Hmax) as (b & _ & Hok). apply Hok.
Qed.

Lemma live_not_inline a live fl r v :
  Inv a live fl → ref_live live r v → IsInline r = false ∧ generation r ≠ 0.
Proof.
  intros HI [Hv _]. destruct (inv_live _ _ _ HI _ _ _ _ Hv) as (_ & _ & Hg & _).
  split; [apply block_not_inline|]; lia.
Qed.

Lemma View_Inv a live fl r v :
  Inv a live fl → ref_live live r v → View a r = Ret v ∧ ViewKnownLive a r = Ret v.
Proof.
  intros HI Hr. destruct (live_not_inline _ _ _ _ _ HI Hr) as [Hni Hg0].
  destruct Hr as [Hv Hlen]. unfold pos in Hv.
  destruct (inv_live _ _ _ HI _ _ _ _ Hv) as (Hv0 & Hmax & Hg & R1 & R2).
  pose proof (live_fits _ _ _ _ _ _ _ HI Hv).
  destruct (live_in_range _ _ _ _ _ _ _ HI Hv) as [_ Ho Hs (g & Eg & Hl & _)].
  pose proof (znth_Some _ _ _ Eg). unfold View, ViewKnownLive. rewrite Hni.
  destruct (Z.eqb_spec (generation r) 0); [done|].
  destruct (Z.leb_spec (zlen (segments a)) (ref_segment r)); [lia|].
  rewrite Eg, Hlen. cbn [or_panic]. rewrite !res_bind_ret.
  destruct (Z.ltb_spec (zlen (sdata g)) (ref_offset r + 8 + zlen v)); [lia|].
  rewrite (rd_get_u64 _ _ _ _ _ Eg R1) by (arena_consts; lia).
  rewrite res_bind_ret, Z.eqb_refl. cbn [negb].
  unfold rd in R2. rewrite Eg in R2. by rewrite R2.
Qed.

(** ** Freeing *)

Lemma is_block_delete live fl x s o sz :
  is_block (delete x live) fl s o sz → is_block live fl s o sz.
Proof.
  intros [g v Hl|b Hin]; [|by apply blk_free].
  apply lookup_delete_Some in Hl as [_ Hl]. by eapply blk_live.
Qed.

(** Forgetting a live block leaves its extent fresh. *)
Lemma Inv_remove_live a live fl s o g v :
  Inv a live fl → live !! (s, o) = Some (g, v) →
  Inv a (delete (s, o) live) fl ∧ fresh_block a (delete (s, o) live) fl s o (block_of v).
Proof.
  intros HI Hv. pose proof (live_in_range _ _ _ _ _ _ _ HI Hv) as Hr. split; [|split; [done|]].
  - destruct HI. split; try done; eauto using is_block_delete.
    + intros x b Hin. rewrite lookup_delete. case_decide; [done|]. eauto.
    + intros s' o' g' v' Hl. apply lookup_delete_Some in Hl as [_ Hl]. eauto.
  - intros o' sz' Hb.
    assert (Hne : o ≠ o').
    { intros <-. inversion Hb as [g' v' Hl|b Hin]; subst.
      - by rewrite lookup_delete_eq in Hl.
      - rewrite (inv_live_free _ _ _ HI _ _ Hin) in Hv. done. }
    apply is_block_delete in Hb. apply (inv_disj _ _ _ HI s o _ o' sz'); [by eapply blk_live|done..].
Qed.

(** The free table after its lazy allocation. *)
Lemma ensure_free_ok a live fl : Inv a live fl → table_ok (segments a) fl (ensure_free a).
Proof.
  intros HI. unfold ensure_free. destruct (free a) as [ft|] eqn:E; [by apply (inv_heads _ _ _ HI)|].
  split; cbn [heads holes newFreeTable].
  - rewrite zlen_replicate; arena_consts; lia.
  - intros b Hb. rewrite znth_lookup by lia.
    rewrite lookup_replicate_2 by (arena_consts; lia).
    destruct (fl b) as [|x l] eqn:Efl; [done|].
    destruct (inv_free_dom _ _ _ HI b) as (_ & _ & Hn); [by rewrite Efl|]. by rewrite E in Hn.
  - constructor.
  - intros h Hh. by apply not_elem_of_nil in Hh.
Qed.

(** Linking a written fresh block at the head of its free list. *)
Lemma Inv_add_free a live fl ft b s o :
  Inv a live fl → table_ok (segments a) fl ft → fresh_block a live fl s o (bucket_block b) →
  0 ≤ b < freeBucketCount → b ≠ dedicatedBucket →
  rd (segments a) s o (o + 8) = Some (le_put 8 0) →
  rd (segments a) s (o + 8) (o + 16) = Some (le_put 8 (head_addr (fl b))) →
  Inv (set_free a (Some (mkFreeTable (<[Z.to_nat b := mk_addr s o]> (heads ft)) (holes ft))))
      live (upd fl b ((s, o) :: fl b)).
Proof.
  intros HI [Hl Hh Hnd Hho] [Hr Hfresh] Hb Hb58 R1 R2.
  assert (Hnot : ∀ sz', ¬ is_block live fl s o sz').
  { intros sz' Hb'. pose proof (ir_size _ _ _ _ Hr).
    pose proof (ir_size _ _ _ _ (inv_range _ _ _ HI _ _ _ Hb')). destruct (Hfresh _ _ Hb'); lia. }
  assert (Hin : ∀ x b', x ∈ upd fl b ((s, o) :: fl b) b' → (x = (s, o) ∧ b' = b) ∨ x ∈ fl b').
  { intros x b' Hx. upd_case b' b; [|by right].
    apply elem_of_cons in Hx as [->|]; [by left|by right]. }
  assert (Hblk : ∀ s' o' sz', is_block live (upd fl b ((s, o) :: fl b)) s' o' sz' →
     ((s', o') = (s, o) ∧ sz' = bucket_block b) ∨ is_block live fl s' o' sz').
  { intros s' o' sz' [g v Hv|b' [[E ->]|Hx]%Hin]; [right; by eapply blk_live|by left|].
    right. by apply blk_free. }
  assert (Hnf : ∀ b', (s, o) ∉ fl b').
  { intros b' Hx. eapply Hnot. by apply (blk_free live fl s o b'). }
  destruct HI. split; try done; cbn [segments set_free segs_cap free agen] in *.
  - intros s' o' sz' [[E ->]|H']%Hblk; [by simplify_eq|eauto].
  - intros s' o1 z1 o2 z2 [[E1 ->]|H1]%Hblk [[E2 ->]|H2]%Hblk Hne; simplify_eq.
    + by apply Hfresh.
    + pose proof (Hfresh _ _ H1). lia.
    + eauto.
  - intros x b' [[-> ->]|Hx]%Hin; [|eauto].
    destruct (live !! (s, o)) as [[g v]|] eqn:E; [|done].
    exfalso. eapply Hnot. by eapply blk_live.
  - intros x b1 b2 [[E1 ->]|H1]%Hin [[E2 ->]|H2]%Hin; try done; [| |eauto].
    + subst x. by apply Hnf in H2.
    + subst x. by apply Hnf in H1.
  - intros b'. upd_case b' b; [|done]. constructor; [apply Hnf|done].
  - intros b' Hne. upd_case b' b; [done|]. by destruct (inv_free_dom0 b' Hne) as (? & ? & ?).
  - intros b'. upd_case b' b; [|done]. cbn [chain]. split_and!; done.
  - intros ft' [= <-]. split; cbn [heads holes]; try done.
    + by rewrite zlen_insert.
    + intros b' Hb'. upd_case b' b.
      * by rewrite znth_insert_eq by (rewrite Hl; done).
      * rewrite znth_insert_ne by (done || lia). by apply Hh.
Qed.

Lemma sum_caps_insert ss s g g' :
  znth ss s = Some g →
  sum_caps (<[Z.to_nat s := g']> ss) = sum_caps ss - scap g + scap g'.
Proof.
  intros Hg. pose proof (znth_Some _ _ _ Hg). rewrite znth_lookup in Hg by lia.
  revert Hg. generalize (Z.to_nat s). clear. intros n. revert n.
  unfold sum_caps. induction ss as [|h ss IH]; intros [|n] Hg; [done..| |].
  - cbn in Hg. simplify_eq. simpl. lia.
  - change (<[S n := g']> (h :: ss)) with (h :: <[n := g']> ss). cbn [foldr].
    rewrite IH by done. lia.
Qed.

Lemma seg_ok_hole : seg_ok (mkSegment [] 0).
Proof. split; [done|]. intros H. change (8192 < 0) in H. lia. Qed.

(** The dedicated-segment case of [Free]. *)
Lemma Inv_make_hole a live fl ft s g sz :
  Inv a live fl → table_ok (segments a) fl ft → znth (segments a) s = Some g →
  fresh_block a live fl s 0 sz → zlen (sdata g) = sz →
  Inv (set_free (set_segments a (<[Z.to_nat s := mkSegment [] 0]> (segments a)))
         (Some (mkFreeTable (heads ft) (holes ft ++ [s])))) live fl.
Proof.
  intros HI [Hl Hh Hnd Hho] Hg [Hr Hfresh] Hsz. pose proof (znth_Some _ _ _ Hg) as Hs.
  pose proof (ir_size _ _ _ _ Hr) as H16.
  assert (Hno : ∀ o' sz', ¬ is_block live fl s o' sz').
  { intros o' sz' Hb. pose proof (inv_range _ _ _ HI _ _ _ Hb) as [? ? _ (g' & Hg' & ? & _)].
    assert (g' = g) as -> by congruence. destruct (Hfresh _ _ Hb); lia. }
  assert (Hnh : s ∉ holes ft).
  { intros Hin. rewrite (Hho s Hin) in Hg. injection Hg as <-. change (0 = sz) in Hsz. lia. }
  assert (HI' : Inv (set_segments (set_free a (Some (mkFreeTable (heads ft) (holes ft))))
                       (<[Z.to_nat s := mkSegment [] 0]> (segments a))) live fl).
  { apply (Inv_frame _ _ _ _ (fun s' _ _ => s' ≠ s)).
    - destruct HI. split; try done; cbn [segments set_free segs_cap free agen] in *.
      + intros b' Hne. by destruct (inv_free_dom0 b' Hne) as (? & ? & ?).
      + by intros ft' [= <-].
    - split.
      + intros s' g' ? ? Hne Hg' Hpos. cbn [segments set_free] in Hg'.
        rewrite znth_insert_ne by lia. eauto with lia.
      + intros s' i j t Hne. unfold rd. cbn [segments set_free]. by rewrite znth_insert_ne by lia.
    - intros s' o' sz' i j Hb _ _ ->. by eapply Hno.
    - intros s' g' Hg'. destruct (decide (s' = s)) as [->|].
      + rewrite znth_insert_eq in Hg' by lia. injection Hg' as <-. apply seg_ok_hole.
      + rewrite znth_insert_ne in Hg' by lia. by apply (inv_segs _ _ _ HI s').
    - cbn [segs_cap set_free]. rewrite zlen_insert. apply (inv_caps _ _ _ HI).
    - cbn [free set_free]. intros ft' [= <-] h Hh'. cbn [holes] in Hh'.
      rewrite znth_insert_ne by (lia || (intros ->; done)). by apply Hho. }
  destruct HI'. split; try done; cbn [segments set_segments set_free segs_cap free agen] in *.
  - intros b' Hne. by destruct (inv_free_dom0 b' Hne) as (? & ? & ?).
  - intros ft' [= <-]. split; cbn [heads holes]; try done.
    + apply NoDup_app. split_and!; [done| |apply NoDup_singleton].
      intros h Hh1 Hh2%list_elem_of_singleton. by subst.
    + intros h [Hh'|Hh'%list_elem_of_singleton]%elem_of_app.
      * rewrite znth_insert_ne by (lia || (intros ->; done)). by apply Hho.
      * subst h. by rewrite znth_insert_eq by lia.
Qed.

(** A position that no live reference owns any more: a free block, or the start
    of a segment whose memory was returned. *)
Definition dead_pos (a : Arena) (fl : Z → list (Z * Z)) (x : Z * Z) : Prop :=
  (∃ b, x ∈ fl b) ∨ (x.2 = 0 ∧ ∃ ft, free a = Some ft ∧ x.1 ∈ holes ft).

Record free_post (a : Arena) (live : livemap) (fl : Z → list (Z * Z)) (r : Ref) (n : Z)
    (a' : Arena) (fl' : Z → list (Z * Z)) : Prop := {
  fp_inv : Inv a' (delete (pos r) live) fl';
  fp_memory : TotalMemoryBytes a' + n = TotalMemoryBytes a + FreeGrowth a r;
  fp_dead : ∀ x, dead_pos a fl x ∨ x = pos r → dead_pos a' fl' x;
  fp_agen : agen a' = agen a;
  fp_count : zlen (segments a') = zlen (segments a)
}.

Lemma free_memory a r ft ss g s g' :
  IsInline r = false → generation r ≠ 0 → znth (segments a) s = Some g →
  ss = <[Z.to_nat s := g']> (segments a) →
  TotalMemoryBytes (set_free (set_segments a ss) (Some ft)) + (scap g - scap g')
  = TotalMemoryBytes a + FreeGrowth a r.
Proof.
  intros Hni Hg0 Hg ->. unfold TotalMemoryBytes, MemoryBytes, FreeGrowth.
  cbn [segs_cap segments free set_free set_segments].
  rewrite (sum_caps_insert _ _ _ _ Hg), Hni. destruct (Z.eqb_spec (generation r) 0); [done|].
  destruct (free a); cbn [orb]; lia.
Qed.

Lemma Free_Inv a live fl r v :
  Inv a live fl → ref_live live r v →
  ∃ n a' fl', Free a r = Ret (n, a') ∧ free_post a live fl r n a' fl'.
Proof.
  intros HI Hr. destruct (live_not_inline _ _ _ _ _ HI Hr) as [Hni Hg0].
  destruct (View_Inv _ _ _ _ _ HI Hr) as [HV _]. destruct Hr as [Hv Hlen]. unfold pos in Hv.
  destruct (inv_live _ _ _ HI _ _ _ _ Hv) as (Hv0 & Hmax & _).
  destruct (class_block_of v Hmax) as (b & Ecls & Hok).
  pose proof (live_in_range _ _ _ _ _ _ _ HI Hv) as Hrange.
  pose proof Hrange as [H16 Ho Hs (g & Eg & Hl & Hded)].
  pose proof (znth_Some _ _ _ Eg) as Hsl. pose proof (inv_segs _ _ _ HI _ _ Eg) as [Hseg1 Hseg2].
  destruct (Inv_remove_live _ _ _ _ _ _ _ HI Hv) as [HI1 Hfresh].
  pose proof (ensure_free_ok _ _ _ HI1) as Hft. set (ft := ensure_free a) in *.
  unfold Free. rewrite Hni. destruct (Z.eqb_spec (generation r) 0); [done|].
  rewrite HV, res_bind_ret, Hlen, Ecls, res_bind_ret, Eg. cbn [or_panic]. rewrite res_bind_ret.
  fold ft. cbv zeta.
  set (hole := dedicatedBlock (block_of v) && _ && _ && _). destruct hole eqn:Ehole; unfold hole in Ehole; clear hole.
  - apply andb_true_iff in Ehole as [Ehole E4%Z.eqb_eq].
    apply andb_true_iff in Ehole as [Ehole E3%Z.eqb_eq].
    apply andb_true_iff in Ehole as [E1 E2%Z.eqb_eq].
    rewrite zupd_Some by lia. cbn [or_panic]. rewrite res_bind_ret. eexists _, _, fl.
    split; [done|]. split; try done.
    + unfold pos. rewrite E2 in *. by apply (Inv_make_hole _ _ _ ft _ g (block_of v)).
    + pose proof (free_memory a r (mkFreeTable (heads ft) (holes ft ++ [ref_segment r])) _ g _
        (mkSegment [] 0) Hni Hg0 Eg eq_refl) as M. cbn [scap] in M. by rewrite Z.sub_0_r in M.
    + intros x Hx. unfold dead_pos. cbn [free set_free].
      destruct Hx as [[Hx|(H0 & ft' & Hft' & Hin)]| ->]; [by left| |].
      * right. split; [done|]. eexists. split; [done|]. cbn [holes]. apply elem_of_app. left.
        unfold ft, ensure_free. by rewrite Hft'.
      * right. split; [done|]. eexists. split; [done|]. cbn [holes]. apply elem_of_app. right. left.
    + cbn [segments set_free set_segments]. by rewrite zlen_insert.
  - assert (Hb58 : b ≠ dedicatedBucket).
    { intros Hb. apply (ck_dedicated _ _ _ Hok) in Hb. destruct (Hded Hb) as [E0 Ec].
      assert (E4 : zlen (sdata g) = block_of v) by lia. revert Ehole. rewrite E4, Ec, E0, !Z.eqb_refl.
      unfold dedicatedBlock. destruct (Z.ltb_spec (SegmentBytes / 2) (block_of v)); [done|].
      unfold SegmentBytes in *. change (8192 / 2) with 4096 in *. lia. }
    rewrite (ck_block _ _ _ Hok Hb58) in *.
    rewrite put_u64_ok, res_bind_ret by lia.
    rewrite (to_heads _ _ _ Hft) by apply Hok. cbn [or_panic]. rewrite res_bind_ret.
    set (hd := head_addr (fl b)).
    destruct (write_block _ _ g (ref_offset r) 0 (le_put 8 hd) (bucket_block b) Eg)
      as (Hd & HF & R1 & R2); [lia|lia|rewrite zlen_le_put; lia|].
    rewrite zlen_le_put in R2. replace (ref_offset r + 8 + Z.of_nat 8) with (ref_offset r + 16) in R2 by lia.
    rewrite put_u64_ok, res_bind_ret; [|lia|rewrite copy_at_length; rewrite ?zlen_le_put; lia].
    rewrite (zupd_Some (segments a)) by lia. cbn [or_panic]. rewrite res_bind_ret.
    rewrite zupd_Some by (rewrite (to_len _ _ _ Hft); apply Hok). cbn [or_panic]. rewrite res_bind_ret.
    eexists _, _, (upd fl b (pos r :: fl b)). split; [done|].
    pose proof (Inv_write_fresh _ _ _ _ _ _ g _ HI1 Hfresh Eg Hd HF) as HI2.
    split; try done.
    + apply (Inv_add_free _ _ _ ft b _ _ HI2); try done; try apply Hok.
      * destruct Hft as [? ? ? Hho]. split; try done. cbn [segments set_segments].
        intros h Hh. rewrite znth_insert_ne; [by apply Hho|lia|].
        intros <-. rewrite (Hho _ Hh) in Eg. injection Eg as <-. change (zlen _) with 0 in Hl. lia.
      * split; [|apply Hfresh]. cbn [segments set_segments].
        eapply (in_range_frame _ _ _ _ _ _ (ref_offset r) (ref_offset r)); [done|right; left; lia|done].
    + pose proof (free_memory a r (mkFreeTable (<[Z.to_nat b := mk_addr (ref_segment r) (ref_offset r)]>
        (heads ft)) (holes ft)) _ g _ (mkSegment (copy_at (copy_at (sdata g) (ref_offset r) (le_put 8 0))
        (ref_offset r + 8) (le_put 8 hd)) (scap g)) Hni Hg0 Eg eq_refl) as M.
      cbn [scap] in M. by rewrite Z.sub_diag in M.
    + intros x Hx. unfold dead_pos. cbn [free set_free].
      destruct Hx as [[[b' Hx]|(H0 & ft' & Hft' & Hin)]| ->].
      * left. exists b'. upd_case b' b; [by right|done].
      * right. split; [done|]. eexists. split; [done|]. cbn [holes].
        unfold ft, ensure_free. by rewrite Hft'.
      * left. exists b. rewrite upd_eq. left.
    + cbn [segments set_free set_segments]. by rewrite zlen_insert.
Qed.
