(* ===== verification/ArenaSpec.v ===== *)
(** * What the arena promises

    The arena implements a store of live values addressed by generation-checked
    references ([alloc_store], [free_store], [view_live]), its planner predicts
    memory growth exactly ([GrowthFor_exact]), and a freed reference is detected
    until the generation counter has gone all the way round. *)
From S2P Require Import Prelude Arena ArenaClass ArenaFacts.

(** ** Planning *)

Definition sum_snd (l : list (Z * Z)) : Z := foldr (fun p acc => snd p + acc) 0 l.

Lemma sum_caps_shape ss : sum_caps ss = sum_snd (shape ss).
Proof. induction ss as [|g ss IH]; [done|]. cbn. unfold sum_caps, sum_snd in IH. by rewrite IH. Qed.

Lemma sum_snd_app l k : sum_snd (l ++ k) = sum_snd l + sum_snd k.
Proof. unfold sum_snd. induction l; cbn; lia. Qed.

Lemma sum_snd_one x y : sum_snd [(x, y)] = y.
Proof. cbn. lia. Qed.

Lemma sum_snd_insert l i x y :
  l !! i = Some x → sum_snd (<[i := y]> l) = sum_snd l - snd x + snd y.
Proof.
  unfold sum_snd. revert i. induction l as [|h l IH]; intros [|i] H; [done..| |].
  - cbn in H. simplify_eq. simpl. lia.
  - change (<[S i := y]> (h :: l)) with (h :: <[i := y]> l). cbn [foldr].
    rewrite IH by done. lia.
Qed.

Lemma MemoryBytes_shape a : MemoryBytes a = segs_cap a * segmentMetadata + sum_snd (shape (segments a)).
Proof. unfold MemoryBytes. by rewrite sum_caps_shape. Qed.

Definition holes_count (a : Arena) : Z :=
  match free a with Some ft => zlen (holes ft) | None => 0 end.

Definition last_room (sh : list (Z * Z)) : Z :=
  match last sh with Some (len, c) => c - len | None => 0 end.

(** The planner's state tracks an arena on which the allocations really ran. *)
Record plan_sim (ss0 : list segment) (base : Z) (p : plan) (a : Arena) (fl : Z → list (Z * Z)) : Prop := {
  ps_len : zlen (p_free p) = freeBucketCount;
  ps_heads : ∀ b, 0 ≤ b < freeBucketCount → znth (p_free p) b = Some (head_addr (fl b));
  ps_chain : ∀ b, chain ss0 (fl b);
  ps_holes : p_holes p = holes_count a;
  ps_count : p_count p = zlen (segments a);
  ps_cap : p_capacity p = segs_cap a;
  ps_room : p_size p - p_used p = last_room (shape (segments a));
  ps_growth : p_growth p = MemoryBytes a - base
}.

Lemma plan_sim_start a live fl : Inv a live fl → plan_sim (segments a) (MemoryBytes a) (plan_start a) a fl.
Proof.
  intros HI. pose proof (ensure_free_ok _ _ _ HI) as [Hl Hh _ _].
  assert (E : plan_start a = mkPlan (heads (ensure_free a)) (holes_count a) (zlen (segments a)) (segs_cap a)
     (p_used (plan_start a)) (p_size (plan_start a)) 0).
  { unfold plan_start, holes_count, ensure_free. destruct (free a), (last (segments a)); done. }
  rewrite E. split; cbn [p_free p_holes p_count p_capacity p_used p_size p_growth]; try done.
  - apply (inv_chain _ _ _ HI).
  - unfold plan_start, last_room. rewrite last_shape. by destruct (free a), (last (segments a)).
  - lia.
Qed.

Lemma read_link_head ss s o rest :
  0 ≤ o < 2 ^ 32 → 0 ≤ head_addr rest < 2 ^ 64 → chain ss ((s, o) :: rest) →
  read_link ss (head_addr ((s, o) :: rest)) = Ret (head_addr rest).
Proof.
  intros Ho Hh (_ & R2 & _). unfold read_link. cbn [head_addr].
  unfold rd in R2. destruct (znth ss s) as [g|] eqn:E; [|done]. pose proof (znth_Some _ _ _ E).
  destruct (mk_addr_ok s o) as (-> & -> & _); [lia..|]. rewrite E. cbn [or_panic]. rewrite res_bind_ret.
  apply (rd_get_u64 ss s); [done| |done]. unfold rd. rewrite E. by replace (o + 8 + 8) with (o + 16) by lia.
Qed.

Lemma plan_step_reuse ss0 base p a live fl n b block ft x rest a' :
  Inv a live fl → plan_sim ss0 base p a fl → 0 < n → class n = Ret (b, block) → class_ok n b block →
  free a = Some ft → fl b = x :: rest →
  shape (segments a') = shape (segments a) → segs_cap a' = segs_cap a →
  free a' = Some (mkFreeTable (<[Z.to_nat b := head_addr rest]> (heads ft)) (holes ft)) →
  ∃ p', plan_step ss0 p n = Ret p' ∧ plan_sim ss0 base p' a' (upd fl b rest).
Proof.
  intros HI [Hl Hh Hc Hho Hct Hcap Hroom Hgr] Hn Ecls Hok Efree Efl Es Ec Ef.
  unfold plan_step. destruct (Z.eqb_spec n 0); [lia|].
  rewrite Ecls, res_bind_ret, (Hh b) by apply Hok. cbn [or_panic]. rewrite res_bind_ret.
  destruct x as [s o].
  assert (Hb : is_block live fl s o (bucket_block b)) by (apply blk_free; rewrite Efl; left).
  pose proof (inv_range _ _ _ HI _ _ _ Hb) as [_ Ho Hs _].
  assert (Hrest : 0 ≤ head_addr rest < 2 ^ 64).
  { destruct rest as [|[s' o'] r']; [cbn; lia|].
    assert (Hb' : is_block live fl s' o' (bucket_block b)) by (apply blk_free; rewrite Efl; right; left).
    apply (inv_range _ _ _ HI) in Hb' as [_ ? ? _]. by apply mk_addr_range. }
  pose proof (Hc b) as Hcb. rewrite Efl in *.
  destruct (mk_addr_ok s o) as (_ & _ & Enz); [lia|arena_consts; lia|].
  destruct (Z.eqb_spec (head_addr ((s, o) :: rest)) 0) as [E0|]; [done|]. cbn [negb].
  rewrite read_link_head by (done || arena_consts; lia). rewrite res_bind_ret, zupd_Some by (rewrite Hl; apply Hok).
  cbn [or_panic]. rewrite res_bind_ret. eexists. split; [done|].
  pose proof (ck_bucket _ _ _ Hok).
  split; cbn [p_free p_holes p_count p_capacity p_used p_size p_growth].
  - by rewrite zlen_insert.
  - intros b' Hb'. upd_case b' b.
    + by rewrite znth_insert_eq by (rewrite Hl; done).
    + rewrite znth_insert_ne by (done || lia). by apply Hh.
  - intros b'. upd_case b' b; [|apply Hc]. apply Hcb.
  - rewrite Hho. unfold holes_count. by rewrite Efree, Ef.
  - by rewrite Hct, <- (shape_len (segments a')), Es, shape_len.
  - by rewrite Ec.
  - by rewrite Es.
  - by rewrite Hgr, !MemoryBytes_shape, Es, Ec.
Qed.

Lemma znth_shape ss s g : znth ss s = Some g → shape ss !! Z.to_nat s = Some (zlen (sdata g), scap g).
Proof.
  intros Hg. pose proof (znth_Some _ _ _ Hg). rewrite znth_lookup in Hg by lia.
  unfold shape. change (map ?f ?l) with (f <$> l). by rewrite list_lookup_fmap, Hg.
Qed.

(** Refilling a hole never changes the room in the last segment. *)
Lemma last_room_hole sh k block :
  sh !! k = Some (0, 0) → last_room (<[k := (block, block)]> sh) = last_room sh.
Proof.
  intros Hk. pose proof (lookup_lt_Some _ _ _ Hk). unfold last_room. rewrite !last_lookup, length_insert.
  destruct (decide (k = pred (length sh))) as [->|].
  - rewrite list_lookup_insert_eq, Hk by lia. lia.
  - by rewrite list_lookup_insert_ne by done.
Qed.

Lemma plan_step_hole ss0 base p a fl n b block ft h a' :
  plan_sim ss0 base p a fl → 0 < n → class n = Ret (b, block) → class_ok n b block →
  free a = Some ft → fl b = [] → dedicatedBlock block = true → holes ft ≠ [] →
  znth (segments a) h = Some (mkSegment [] 0) →
  shape (segments a') = <[Z.to_nat h := (block, block)]> (shape (segments a)) →
  segs_cap a' = segs_cap a →
  free a' = Some (mkFreeTable (heads ft) (take (length (holes ft) - 1) (holes ft))) →
  ∃ p', plan_step ss0 p n = Ret p' ∧ plan_sim ss0 base p' a' fl.
Proof.
  intros [Hl Hh Hc Hho Hct Hcap Hroom Hgr] Hn Ecls Hok Efree Efl Ed Hne Hz Es Ec Ef.
  apply znth_shape in Hz. change (zlen _) with 0 in Hz. cbn [scap] in Hz.
  unfold plan_step. destruct (Z.eqb_spec n 0); [lia|].
  rewrite Ecls, res_bind_ret, (Hh b), Efl by apply Hok. cbn [or_panic]. rewrite res_bind_ret.
  cbn [head_addr]. rewrite Z.eqb_refl, Ed. cbn [negb andb].
  assert (Hpos : 0 < p_holes p).
  { rewrite Hho. unfold holes_count. rewrite Efree. destruct (holes ft) as [|y l]; [done|].
    rewrite zlen_cons. pose proof (zlen_nonneg l). lia. }
  destruct (Z.ltb_spec 0 (p_holes p)); [|lia]. eexists. split; [done|].
  unfold dedicatedBlock in Ed. apply Z.ltb_lt in Ed.
  split; cbn [p_free p_holes p_count p_capacity p_used p_size p_growth]; try done.
  - rewrite Hho in *. unfold holes_count in *. rewrite Efree, Ef in *. cbn [holes].
    unfold zlen in *. rewrite length_take. lia.
  - by rewrite Hct, <- (shape_len (segments a')), Es, zlen_insert, shape_len.
  - by rewrite Ec.
  - rewrite Hroom, Es. by rewrite last_room_hole.
  - rewrite Hgr, !MemoryBytes_shape, Es, Ec, (sum_snd_insert _ _ _ _ Hz), segmentSizeForBlock_dedicated by done.
    cbn [snd]. lia.
Qed.

Lemma last_room_snoc sh x y : last_room (sh ++ [(x, y)]) = y - x.
Proof. unfold last_room. by rewrite last_snoc. Qed.

Lemma plan_step_bump ss0 base p a fl n b block a' :
  plan_sim ss0 base p a fl → 0 < n → class n = Ret (b, block) → class_ok n b block →
  fl b = [] → (∀ ft, free a = Some ft → dedicatedBlock block = true → holes ft = []) →
  free a' = free a →
  bump_shape (shape (segments a)) (segs_cap a) block (shape (segments a')) (segs_cap a') →
  ∃ p', plan_step ss0 p n = Ret p' ∧ plan_sim ss0 base p' a' fl.
Proof.
  intros [Hl Hh Hc Hho Hct Hcap Hroom Hgr] Hn Ecls Hok Efl Hd Ef Hsh.
  pose proof (ck_min _ _ _ Hok) as H16.
  unfold plan_step. destruct (Z.eqb_spec n 0); [lia|].
  rewrite Ecls, res_bind_ret, (Hh b), Efl by apply Hok. cbn [or_panic]. rewrite res_bind_ret.
  cbn [head_addr]. rewrite Z.eqb_refl. cbn [negb].
  assert (Hnh : dedicatedBlock block && (0 <? p_holes p) = false).
  { destruct (dedicatedBlock block); [|done]. rewrite Hho. unfold holes_count.
    destruct (free a) as [ft|] eqn:E; [|done]. by rewrite (Hd ft). }
  rewrite Hnh. unfold bump_shape in Hsh. rewrite shape_len in Hsh. rewrite Hct, Hcap, Hroom.
  unfold last_room in *.
  assert (Hhc : holes_count a' = holes_count a) by (unfold holes_count; by rewrite Ef).
  assert (Hpush : ∀ sz, shape (segments a') = shape (segments a) ++ [(block, sz)] →
    segs_cap a' = (if zlen (segments a) =? segs_cap a then grown_cap (segs_cap a) else segs_cap a) →
    plan_sim ss0 base
      (let '(capacity, growth) := if zlen (segments a) =? segs_cap a
         then (grown_cap (segs_cap a), p_growth p + sz + (grown_cap (segs_cap a) - segs_cap a) * segmentMetadata)
         else (segs_cap a, p_growth p + sz) in
       mkPlan (p_free p) (p_holes p) (zlen (segments a) + 1) capacity block sz growth) a' fl).
  { intros sz Es Ec.
    assert (Hlen' : zlen (segments a') = zlen (segments a) + 1)
      by (by rewrite <- (shape_len (segments a')), Es, zlen_snoc, shape_len).
    destruct (zlen (segments a) =? segs_cap a);
      split; cbn [p_free p_holes p_count p_capacity p_used p_size p_growth]; try done; try lia.
    all: rewrite ?Es, ?last_room_snoc; try done.
    all: rewrite Hgr, !MemoryBytes_shape, Es, Ec, sum_snd_app, sum_snd_one; lia. }
  destruct (last (shape (segments a))) as [[len c]|] eqn:El.
  - destruct (Z.ltb_spec (c - len) block).
    + destruct Hsh as [Es Ec]. specialize (Hpush _ Es Ec).
      destruct (zlen (segments a) =? segs_cap a); eauto.
    + destruct Hsh as [Es Ec]. eexists. split; [done|]. rewrite last_lookup in El.
      pose proof (lookup_lt_Some _ _ _ El).
      split; cbn [p_free p_holes p_count p_capacity p_used p_size p_growth]; try done; try lia.
      * by rewrite <- (shape_len (segments a')), Es, zlen_insert, shape_len.
      * rewrite Es. unfold last_room. rewrite last_lookup, length_insert.
        replace (pred (length (shape (segments a)))) with (length (shape (segments a)) - 1)%nat by lia.
        rewrite list_lookup_insert_eq by lia. lia.
      * rewrite Hgr, !MemoryBytes_shape, Es, Ec.
        rewrite (sum_snd_insert _ _ (len, c)) by (rewrite <- El; f_equal; lia). cbn [snd]. lia.
  - apply last_None in El. destruct (Z.ltb_spec 0 block); [|lia].
    assert (Hz : zlen (segments a) = 0) by (by rewrite <- shape_len, El).
    rewrite Hz in *. destruct Hsh as [Es Ec]. rewrite El in Hpush. specialize (Hpush _ Es Ec).
    destruct (0 =? segs_cap a); eauto.
Qed.

Lemma plan_step_sim ss0 base p a live fl v b r a' fl' :
  Inv a live fl → plan_sim ss0 base p a fl → 0 < zlen v → zlen v + 8 ≤ maxArenaBlock →
  class (zlen v) = Ret (b, block_of v) → alloc_post a live fl v b r a' fl' →
  ∃ p', plan_step ss0 p (zlen v) = Ret p' ∧ plan_sim ss0 base p' a' fl'.
Proof.
  intros HI Hp Hv Hmax Ecls [_ _ _ _ _ Heff].
  destruct (class_block_of v Hmax) as (b' & E' & Hok). rewrite Ecls in E'. injection E' as <-.
  destruct Heff as [ft rest|ft h|]; subst.
  - by eapply plan_step_reuse.
  - by eapply plan_step_hole.
  - by eapply plan_step_bump.
Qed.

Lemma alloc_effect_count a fl b block p a' fl' :
  alloc_effect a fl b block p a' fl' → zlen (segments a') ≤ zlen (segments a) + 1.
Proof.
  intros Heff. rewrite <- (shape_len (segments a')), <- (shape_len (segments a)).
  destruct Heff as [ft rest ? ? ? Es|ft h ? ? ? ? ? ? ? ? Es|? ? ? ? Hsh].
  - rewrite Es. lia.
  - rewrite Es, zlen_insert. lia.
  - unfold bump_shape in Hsh. destruct (last (shape (segments a))) as [[len c]|].
    + destruct (c - len <? block); destruct Hsh as [-> _]; rewrite ?zlen_snoc, ?zlen_insert; lia.
    + destruct Hsh as [-> _]. pose proof (zlen_nonneg (shape (segments a))). change (zlen [_]) with 1. lia.
Qed.

(** Storing several values in order, as the callers of [GrowthFor] do next. *)
Fixpoint alloc_all (a : Arena) (vs : list (list byte)) : res (list Ref * Arena) :=
  match vs with
  | [] => Ret ([], a)
  | v :: vs => '(r, a) ← Alloc a v; '(rs, a) ← alloc_all a vs; Ret (r :: rs, a)
  end.

Lemma Alloc_empty a v : zlen v = 0 → Alloc a v = Ret (emptyRef, a).
Proof. intros H. unfold Alloc. by rewrite H. Qed.

Lemma plan_loop_sim ss0 base vs : ∀ p a live fl,
  Inv a live fl → plan_sim ss0 base p a fl →
  Forall (fun v => zlen v + 8 ≤ maxArenaBlock) vs →
  zlen (segments a) + zlen vs ≤ refSegmentMask + 1 →
  ∃ p' rs a', plan_loop ss0 p (map zlen vs) = Ret p' ∧ alloc_all a vs = Ret (rs, a') ∧
    p_growth p' = MemoryBytes a' - base.
Proof.
  induction vs as [|v vs IH]; intros p a live fl HI Hp Hvs Hk.
  - exists p, [], a. split_and!; [done..|]. apply Hp.
  - apply Forall_cons in Hvs as [Hv Hvs]. cbn [map plan_loop alloc_all]. rewrite zlen_cons in Hk.
    pose proof (zlen_nonneg vs). destruct (decide (zlen v = 0)) as [E0|].
    + unfold plan_step at 1. rewrite E0. cbn [Z.eqb]. rewrite res_bind_ret, Alloc_empty, res_bind_ret by done.
      destruct (IH p a live fl) as (p' & rs & a' & -> & -> & ?); [done..|lia|].
      exists p', (emptyRef :: rs), a'. done.
    + pose proof (zlen_nonneg v).
      destruct (Alloc_Inv a live fl v HI) as (r & a1 & fl1 & b & -> & Ecls & Hpost); [lia..|].
      destruct (plan_step_sim ss0 base p a live fl v b r a1 fl1) as (p1 & -> & Hp1); [done|done|lia|done|done|done|].
      rewrite !res_bind_ret. pose proof (alloc_effect_count _ _ _ _ _ _ _ (ap_effect _ _ _ _ _ _ _ _ Hpost)).
      destruct (IH p1 a1 _ fl1 (ap_inv _ _ _ _ _ _ _ _ Hpost) Hp1) as (p' & rs & a' & -> & -> & ?);
        [done|lia|].
      exists p', (r :: rs), a'. done.
Qed.

(** ** Properties *)

Lemma arena_ok_empty : arena_ok emptyArena ∅.
Proof.
  exists (fun _ => []). split; cbn [segments emptyArena]; try done.
  - intros s o sz [g v H|b H]; [by rewrite lookup_empty in H|by apply not_elem_of_nil in H].
  - intros s o sz o' sz' [g v H|b H]; [by rewrite lookup_empty in H|by apply not_elem_of_nil in H].
  - intros x b b' H. by apply not_elem_of_nil in H.
  - intros b. constructor.
  - intros s g H. apply znth_Some in H. change (zlen []) with 0 in H. lia.
Qed.

(** C3: storing a value ([Arena.Alloc]) under the layout invariant never panics
    or fails, uses a position no live value owns, keeps every other live value,
    and makes the new reference read back exactly the stored bytes. *)
Theorem alloc_store a live v :
  arena_ok a live → 0 < zlen v → zlen v + 8 ≤ maxArenaBlock →
  zlen (segments a) ≤ refSegmentMask →
  ∃ r a', Alloc a v = Ret (r, a') ∧ live !! pos r = None ∧
    arena_ok a' (<[pos r := (generation r, v)]> live) ∧
    View a' r = Ret v ∧ ref_length r = zlen v ∧ generation r = fst (nextGeneration a).
Proof.
  intros [fl HI] Hv Hmax Hk.
  destruct (Alloc_Inv a live fl v HI Hv Hmax Hk) as (r & a' & fl' & b & E & _ & [? ? ? ? HI' _]).
  exists r, a'. split_and!; try done; [by exists fl'|].
  apply (View_Inv a' _ fl' r v HI'). split; [by rewrite lookup_insert_eq|done].
Qed.

(** Every live reference reads back its value, both through the checked
    [View] and through [ViewKnownLive], which skips the generation check. *)
Theorem view_live a live r v :
  arena_ok a live → ref_live live r v → View a r = Ret v ∧ ViewKnownLive a r = Ret v.
Proof. intros [fl HI]. by apply (View_Inv a live fl). Qed.

(** C6: freeing a live reference never panics, removes exactly that value from
    the store, and changes the arena's total memory by the predicted
    [FreeGrowth] minus the bytes it reports as released. *)
Theorem free_store a live r v :
  arena_ok a live → ref_live live r v →
  ∃ n a', Free a r = Ret (n, a') ∧ arena_ok a' (delete (pos r) live) ∧
    TotalMemoryBytes a' = TotalMemoryBytes a + FreeGrowth a r - n.
Proof.
  intros [fl HI] Hr. destruct (Free_Inv a live fl r v HI Hr) as (n & a' & fl' & E & [HI' Hm _ _ _]).
  exists n, a'. split_and!; [done|by exists fl'|lia].
Qed.

(** C11: [GrowthFor] predicts exactly the memory growth of the allocations it
    plans, across free-list reuse, refilled segments, new segments and growth
    of the segment table, and those allocations all succeed. *)
Theorem GrowthFor_exact a live vs :
  arena_ok a live → Forall (fun v => zlen v + 8 ≤ maxArenaBlock) vs →
  zlen (segments a) + zlen vs ≤ refSegmentMask + 1 →
  ∃ rs a', alloc_all a vs = Ret (rs, a') ∧
    GrowthFor a (map zlen vs) = Ret (MemoryBytes a' - MemoryBytes a).
Proof.
  intros [fl HI] Hvs Hk.
  destruct (plan_loop_sim (segments a) (MemoryBytes a) vs (plan_start a) a live fl HI
    (plan_sim_start a live fl HI) Hvs Hk) as (p' & rs & a' & Ep & Ea & Eg).
  exists rs, a'. split; [done|]. unfold GrowthFor. by rewrite Ep, res_bind_ret, Eg.
Qed.

(** ** Runs of the arena and stale references *)

(** One operation, with the number of generations it consumes.  An allocation
    is only attempted while the segment table is below its 25-bit limit. *)
Inductive arena_step : Arena * livemap → Z → Arena * livemap → Prop :=
| step_alloc a live v r a' :
    0 < zlen v → zlen v + 8 ≤ maxArenaBlock → zlen (segments a) ≤ refSegmentMask →
    Alloc a v = Ret (r, a') → arena_step (a, live) 1 (a', <[pos r := (generation r, v)]> live)
| step_inline a live v r a' :
    AllocInline a v = (Some r, a') → arena_step (a, live) 1 (a', live)
| step_free a live r v n a' :
    ref_live live r v → Free a r = Ret (n, a') → arena_step (a, live) 0 (a', delete (pos r) live).

Inductive arena_run (σ : Arena * livemap) : Z → Arena * livemap → Prop :=
| run_refl : arena_run σ 0 σ
| run_step k σ' j σ'' : arena_run σ k σ' → arena_step σ' j σ'' → arena_run σ (k + j) σ''.

Lemma AllocInline_inv a v r a' :
  AllocInline a v = (Some r, a') →
  a' = snd (nextGeneration a) ∧ 1 ≤ zlen v ≤ 8 ∧
  r = mkRef (le_get (copy_at (replicate 8 x00) 0 v))
        (Z.lor (Z.lor inlineMarker (Z.shiftl (zlen v) inlineLengthShift))
               (Z.land (fst (nextGeneration a)) inlineGenerationMask)).
Proof.
  unfold AllocInline. destruct (Z.eqb_spec (zlen v) 0), (Z.ltb_spec 8 (zlen v)); cbn [orb]; try done.
  destruct (nextGeneration a) as [g a1]. intros [= <- <-]. pose proof (zlen_nonneg v).
  split_and!; done || lia.
Qed.

(** The generation [k] allocations after generation [g]. *)
Definition gen_after (g k : Z) : Z := 1 + (g - 1 + k) mod blockGenerationMask.

Lemma gen_after_next a g k :
  1 ≤ g ≤ blockGenerationMask → 0 ≤ k → agen a = gen_after g k →
  fst (nextGeneration a) = gen_after g (k + 1).
Proof.
  unfold nextGeneration, gen_after. cbn [fst]. arena_consts. intros Hg Hk ->.
  pose proof (Z.mod_pos_bound (g - 1 + k) 262143 ltac:(lia)).
  rewrite u64_id by lia. replace (g - 1 + (k + 1)) with (g - 1 + k + 1) by lia.
  destruct (Z.ltb_spec 262143 (1 + (g - 1 + k) mod 262143 + 1));
    Z.div_mod_to_equations; lia.
Qed.

Lemma gen_after_0 g : 1 ≤ g ≤ blockGenerationMask → gen_after g 0 = g.
Proof. unfold gen_after. arena_consts. intros. rewrite Z.mod_small; lia. Qed.

Lemma gen_after_ne g k : 1 ≤ g ≤ blockGenerationMask → 1 ≤ k < blockGenerationMask → gen_after g k ≠ g.
Proof. unfold gen_after. arena_consts. intros ? ? E. Z.div_mod_to_equations. lia. Qed.

Lemma arena_step_inv a live j a' live' fl :
  arena_step (a, live) j (a', live') → Inv a live fl →
  ∃ fl', Inv a' live' fl' ∧
    (j = 1 ∧ agen a' = fst (nextGeneration a) ∨ j = 0 ∧ agen a' = agen a).
Proof.
  intros Hs HI. inversion Hs as [? ? v r ? Hv Hm Hk E|? ? v r ? E|? ? r v n ? Hr E]; subst.
  - destruct (Alloc_Inv a live fl v HI Hv Hm Hk) as (r1 & a1 & fl' & b & E1 & _ & [? ? ? Hg ? _]).
    rewrite E in E1. injection E1 as <- <-. exists fl'. split; [done|]. by left.
  - apply AllocInline_inv in E as (-> & _ & _). exists fl. split; [by apply Inv_next|]. by left.
  - destruct (Free_Inv a live fl r v HI Hr) as (n1 & a1 & fl' & E1 & [? _ _ Hg _]).
    rewrite E in E1. injection E1 as <- <-. exists fl'. split; [done|]. by right.
Qed.

Lemma arena_run_inv σ k σ' :
  arena_run σ k σ' → arena_ok σ.1 σ.2 →
  arena_ok σ'.1 σ'.2 ∧ 0 ≤ k ∧
  ∀ g, 1 ≤ g ≤ blockGenerationMask → agen σ.1 = gen_after g 0 → agen σ'.1 = gen_after g k.
Proof.
  induction 1 as [|k [a1 l1] j [a2 l2] Hr IH Hs]; intros Hok; [done|].
  destruct (IH Hok) as ([fl1 HI1] & Hk & Hg).
  destruct (arena_step_inv _ _ _ _ _ _ Hs HI1) as (fl2 & HI2 & Hj). cbn in *.
  split_and!; [by exists fl2|lia|]. intros g Hgr Hg0. specialize (Hg g Hgr Hg0).
  destruct Hj as [[-> E]|[-> E]]; [|by rewrite E, Hg, Z.add_0_r].
  rewrite E. by apply gen_after_next.
Qed.

(** Every state the arena reaches from empty by allocations (in blocks or
    inline) and frees of live references satisfies the layout invariant, so
    each live reference still reads back the value stored under it. *)
Theorem arena_reachable k a live r v :
  arena_run (emptyArena, ∅) k (a, live) → ref_live live r v → View a r = Ret v.
Proof.
  intros Hr Hl. destruct (arena_run_inv _ _ _ Hr arena_ok_empty) as [[fl HI] _].
  by apply (View_Inv a live fl).
Qed.

(** After the block at [x] (generation [g]) was freed and [k] generations were
    handed out since its allocation: it is unused, or carries a younger value. *)
Record stale_inv (g : Z) (x : Z * Z) (k : Z) (a : Arena) (live : livemap) (fl : Z → list (Z * Z)) : Prop := {
  st_inv : Inv a live fl;
  st_gen : agen a = gen_after g k;
  st_k : 0 ≤ k;
  st_pos : (dead_pos a fl x ∧ live !! x = None) ∨
           (∃ j v, 1 ≤ j ≤ k ∧ live !! x = Some (gen_after g j, v))
}.

Lemma dead_pos_alloc a fl b block p a' fl' x :
  alloc_effect a fl b block p a' fl' → dead_pos a fl x → x ≠ p → dead_pos a' fl' x.
Proof.
  intros Heff [[b' Hx]|(H0 & ft & Hft & Hin)] Hne;
    destruct Heff as [ft' rest Ef Efl -> _ _ Ef'|ft' h Ef Efl -> _ _ -> Hh _ _ _ Ef'|_ -> _ Ef' _].
  - left. exists b'. upd_case b' b; [|done]. rewrite Efl in Hx.
    by apply elem_of_cons in Hx as [?|].
  - left. eauto.
  - left. eauto.
  - right. split; [done|]. eexists. split; [done|]. cbn [holes]. congruence.
  - right. split; [done|]. eexists. split; [done|]. cbn [holes]. assert (ft' = ft) as -> by congruence.
    rewrite (take_last_snoc _ _ Hh) in Hin. apply elem_of_app in Hin as [?|Hin]; [done|].
    apply list_elem_of_singleton in Hin. destruct x. cbn in *. congruence.
  - right. split; [done|]. exists ft. split; [congruence|done].
Qed.

Lemma stale_step g x k a live fl j a' live' :
  1 ≤ g ≤ blockGenerationMask → stale_inv g x k a live fl → arena_step (a, live) j (a', live') →
  ∃ fl', stale_inv g x (k + j) a' live' fl'.
Proof.
  intros Hgr [HI Hg Hk Hpos] Hs.
  inversion Hs as [? ? v r ? Hv Hm Hsz E|? ? v r ? E|? ? r v n ? Hr E]; subst.
  - destruct (Alloc_Inv a live fl v HI Hv Hm Hsz) as (r1 & a1 & fl' & b & E1 & _ & [Hf _ Hgen Hag HI' Heff]).
    rewrite E in E1. injection E1 as <- <-.
    pose proof (gen_after_next a g k Hgr Hk Hg) as Hnext. rewrite Hnext in *.
    exists fl'. split; [done|congruence|lia|].
    destruct (decide (x = pos r)) as [->|Hne].
    + right. exists (k + 1), v. split; [lia|]. rewrite lookup_insert_eq. congruence.
    + rewrite lookup_insert_ne by done. destruct Hpos as [[Hd Hn]|(i & w & Hi & Hw)].
      * left. split; [by eapply dead_pos_alloc|done].
      * right. exists i, w. split; [lia|done].
  - apply AllocInline_inv in E as (-> & _ & _). exists fl. split; [by apply Inv_next|by apply gen_after_next|lia|].
    destruct Hpos as [[Hd Hn]|(i & w & Hi & Hw)]; [by left|]. right. exists i, w. split; [lia|done].
  - destruct (Free_Inv a live fl r v HI Hr) as (n1 & a1 & fl' & E1 & [HI' _ Hd' Hag _]).
    rewrite E in E1. injection E1 as <- <-. exists fl'. rewrite Z.add_0_r. split; [done|congruence|done|].
    destruct (decide (x = pos r)) as [->|Hne].
    + left. split; [apply Hd'; by right|]. by rewrite lookup_delete_eq.
    + rewrite lookup_delete_ne by done. destruct Hpos as [[Hd Hn]|Hw]; [|by right].
      left. split; [apply Hd'; by left|done].
Qed.

Lemma stale_run g x k0 σ k σ' :
  1 ≤ g ≤ blockGenerationMask → arena_run σ k σ' →
  (∃ fl, stale_inv g x k0 σ.1 σ.2 fl) → ∃ fl', stale_inv g x (k0 + k) σ'.1 σ'.2 fl'.
Proof.
  intros Hgr. induction 1 as [|k [a1 l1] j [a2 l2] Hr IH Hs]; intros H0; [by rewrite Z.add_0_r|].
  destruct (IH H0) as [fl1 H1]. cbn in *. rewrite Z.add_assoc. by eapply stale_step.
Qed.

Lemma chain_gen ss l s o : chain ss l → (s, o) ∈ l → rd ss s o (o + 8) = Some (le_put 8 0).
Proof.
  induction l as [|[s' o'] l IH]; intros Hc Hin; [by apply not_elem_of_nil in Hin|].
  destruct Hc as (R1 & _ & Hc). apply elem_of_cons in Hin as [E|Hin]; [by simplify_eq|eauto].
Qed.

(** A reference whose block carries another generation word is rejected. *)
Lemma View_mismatch a r w :
  IsInline r = false → generation r ≠ 0 → 0 ≤ ref_segment r → 0 ≤ w < 2 ^ 64 → w ≠ generation r →
  rd (segments a) (ref_segment r) (ref_offset r) (ref_offset r + 8) = Some (le_put 8 w) →
  View a r = Err "stale arena reference".
Proof.
  intros Hni Hg Hs Hw Hne R. unfold View. rewrite Hni.
  destruct (Z.eqb_spec (generation r) 0); [done|]. pose proof R as R'. unfold rd in R'.
  destruct (znth (segments a) (ref_segment r)) as [g|] eqn:E; [|done]. pose proof (znth_Some _ _ _ E).
  destruct (Z.leb_spec (zlen (segments a)) (ref_segment r)); [lia|]. cbn [or_panic]. rewrite res_bind_ret.
  destruct (Z.ltb_spec (zlen (sdata g)) (ref_offset r + 8 + ref_length r)); [done|].
  rewrite (rd_get_u64 _ _ _ _ _ E R Hw), res_bind_ret. by destruct (Z.eqb_spec w (generation r)).
Qed.

Lemma stale_view g k a live fl r :
  1 ≤ g ≤ blockGenerationMask → generation r = g → 0 ≤ ref_segment r → 0 < ref_length r → 0 ≤ ref_offset r →
  stale_inv g (pos r) k a live fl → k < blockGenerationMask →
  View a r = Err "stale arena reference".
Proof.
  intros Hgr Eg Hs Hl Ho [HI Hag Hk Hpos] Hlt.
  assert (Hni : IsInline r = false) by (apply block_not_inline; lia).
  destruct Hpos as [[[[b Hin]|(H0 & ft & Hft & Hh)] _]|(j & v & Hj & Hv)].
  - apply (View_mismatch a r 0); try done; try lia.
    by apply (chain_gen _ (fl b)); [apply (inv_chain _ _ _ HI)|].
  - unfold View. rewrite Hni. destruct (Z.eqb_spec (generation r) 0); [lia|].
    pose proof (to_holes _ _ _ (inv_heads _ _ _ HI ft Hft) _ Hh) as E. cbn [fst pos] in E.
    pose proof (znth_Some _ _ _ E).
    destruct (Z.leb_spec (zlen (segments a)) (ref_segment r)); [lia|]. rewrite E. cbn [or_panic].
    rewrite res_bind_ret. cbn [sdata]. change (zlen []) with 0.
    destruct (Z.ltb_spec 0 (ref_offset r + 8 + ref_length r)); [done|lia].
  - destruct (inv_live _ _ _ HI _ _ _ _ Hv) as (_ & _ & Hg' & R1 & _).
    apply (View_mismatch a r (gen_after g j)); try done; try (arena_consts; lia).
    rewrite Eg. apply gen_after_ne; [done|lia].
Qed.

(** C13: a freed reference is detected.  However the arena is used between the
    allocation of [r] and now (frees, reuse of its block, inline values), once
    [r] was freed [View] reports a stale reference, as long as fewer than
    2^18 - 1 generations were handed out since [r] was allocated. *)
Theorem stale_detected a0 live0 v r a1 k1 a2 live2 n a3 k2 a4 live4 :
  arena_ok a0 live0 → 0 < zlen v → zlen v + 8 ≤ maxArenaBlock → zlen (segments a0) ≤ refSegmentMask →
  Alloc a0 v = Ret (r, a1) →
  arena_run (a1, <[pos r := (generation r, v)]> live0) k1 (a2, live2) →
  ref_live live2 r v → Free a2 r = Ret (n, a3) →
  arena_run (a3, delete (pos r) live2) k2 (a4, live4) →
  k1 + k2 < blockGenerationMask →
  View a4 r = Err "stale arena reference".
Proof.
  intros [fl0 HI0] Hv Hm Hsz E1 R1 Hl Ef R2 Hk.
  destruct (Alloc_Inv a0 live0 fl0 v HI0 Hv Hm Hsz) as (r' & a1' & fl1 & b & E1' & _ & [_ Hlen Hgen Hag HI1 _]).
  rewrite E1 in E1'. injection E1' as <- <-.
  pose proof (nextGeneration_range _ _ _ HI0) as Hgr. rewrite <- Hgen in Hgr.
  destruct (arena_run_inv _ _ _ R1) as ([fl2 HI2] & Hk1 & Hg2); [by exists fl1|]. cbn [fst snd] in *.
  specialize (Hg2 _ Hgr). rewrite gen_after_0 in Hg2 by done. specialize (Hg2 ltac:(congruence)).
  destruct (Free_Inv a2 live2 fl2 r v HI2 Hl) as (n' & a3' & fl3 & Ef' & [HI3 _ Hd Hag3 _]).
  rewrite Ef in Ef'. injection Ef' as <- <-.
  destruct (stale_run (generation r) (pos r) k1 _ _ _ Hgr R2) as [fl4 H4].
  { exists fl3. cbn [fst snd]. split; [done|congruence|done|]. left. split; [apply Hd; by right|].
    by rewrite lookup_delete_eq. }
  assert (Hrange : in_range (segments a2) (ref_segment r) (ref_offset r) (block_of v)).
  { destruct Hl as [Hl _]. by eapply live_in_range. }
  destruct Hrange as [_ Ho Hs _].
  eapply (stale_view (generation r)); try done; try lia.
Qed.

(** ** The period of the generation counter *)

(** [n] inline allocations of [value] in a row, their references dropped. *)
Fixpoint inline_many (n : nat) (value : list byte) (a : Arena) : Arena :=
  match n with O => a | S n' => inline_many n' value (snd (AllocInline a value)) end.

Lemma inline_many_gen n x a g k :
  1 ≤ g ≤ blockGenerationMask → 0 ≤ k → agen a = gen_after g k →
  inline_many n [x] a = mkArena (segments a) (segs_cap a) (free a) (gen_after g (k + Z.of_nat n)).
Proof.
  intros Hg. revert a k. induction n as [|n IH]; intros a k Hk Ha.
  - rewrite Z.add_0_r, <- Ha. by destruct a.
  - cbn [inline_many]. pose proof (gen_after_next a g k Hg Hk Ha) as Hn.
    rewrite (IH _ (k + 1)); [|lia|exact Hn]. f_equal. f_equal. lia.
Qed.

(** The generation counter has period 2^18 - 1, because it skips zero.  In a
    fresh arena a 16-byte value is stored and freed, 2^18 - 2 one-byte inline
    values are created, and another 16-byte value is stored: it gets the very
    reference of the first one, so the stale reference reads the new value. *)
Theorem stale_alias_period :
  ∃ r a1 n a2 a3,
    Alloc emptyArena (replicate 16 x61) = Ret (r, a1) ∧ Free a1 r = Ret (n, a2) ∧
    View a2 r = Err "stale arena reference" ∧
    Alloc (inline_many (Z.to_nat (2 ^ 18 - 2)) [x63] a2) (replicate 16 x62) = Ret (r, a3) ∧
    View a3 r = Ret (replicate 16 x62).
Proof.
  do 5 eexists. split; [vm_compute; reflexivity|]. split; [vm_compute; reflexivity|].
  split; [vm_compute; reflexivity|]. rewrite (inline_many_gen _ _ _ 1 0); [|by vm_compute..].
  rewrite Z2Nat.id by lia. split; vm_compute; reflexivity.
Qed.

(** ** Inline references *)

Lemma inline_nibble n :
  1 ≤ n ≤ 8 → Z.lor 16 n = 16 + n ∧ Z.land (16 + n) 16 = 16 ∧ Z.land (16 + n) 15 = n.
Proof.
  intros H. assert (Hc : n ∈ [1; 2; 3; 4; 5; 6; 7; 8]) by (rewrite !elem_of_cons; lia).
  repeat (apply elem_of_cons in Hc as [->|Hc]; [done|]). by apply not_elem_of_nil in Hc.
Qed.

Lemma inline_word n g :
  1 ≤ n ≤ 8 → 0 ≤ g < 2 ^ 14 →
  let w := Z.lor (Z.lor inlineMarker (Z.shiftl n inlineLengthShift)) g in
  0 < w < 2 ^ GenerationBits ∧ Z.land w inlineMarker ≠ 0 ∧
  Z.shiftr (Z.land w inlineLengthMask) inlineLengthShift = n ∧ Z.land w inlineGenerationMask = g.
Proof.
  intros Hn Hg w.
  assert (Ew : w = (16 + n) * 2 ^ 14 + g).
  { unfold w. change inlineMarker with (Z.shiftl 16 14). change inlineLengthShift with 14.
    rewrite <- Z.shiftl_lor, lor_shiftl_add by lia. f_equal. f_equal.
    apply inline_nibble, Hn. }
  clearbody w. assert (Es : Z.shiftr w 14 = 16 + n).
  { rewrite shiftr_div, Ew, Z.add_comm, Z.div_add, Z.div_small by lia. lia. }
  destruct (inline_nibble n Hn) as (_ & Hc1 & Hc2).
  split; [change (2 ^ GenerationBits) with 524288; lia|]. split; [|split].
  - intros E. assert (E' : Z.shiftr (Z.land w inlineMarker) 14 = 0) by by rewrite E.
    rewrite Z.shiftr_land, Es in E'. change (Z.shiftr inlineMarker 14) with 16 in E'. lia.
  - change inlineLengthShift with 14. rewrite Z.shiftr_land, Es. apply Hc2.
  - change inlineGenerationMask with (2 ^ 14 - 1). rewrite land_mask, Ew by lia.
    rewrite Z.add_comm, Z.mod_add, Z.mod_small; lia.
Qed.

(** The location word of an inline value decodes to the value. *)
Lemma inline_bytes v :
  zlen v ≤ 8 →
  take (Z.to_nat (zlen v)) (le_put 8 (le_get (copy_at (replicate 8 x00) 0 v))) = v.
Proof.
  intros H. pose proof (zlen_nonneg v) as H0.
  assert (Hl : zlen (copy_at (replicate 8 x00) 0 v) = 8).
  { rewrite copy_at_length; [done|lia|]. change (zlen (replicate 8 x00)) with 8. lia. }
  assert (El : length (copy_at (replicate 8 x00) 0 v) = 8%nat) by (unfold zlen in Hl; lia).
  rewrite <- El at 1. rewrite le_put_get.
  pose proof (copy_at_read (replicate 8 x00) 0 v ltac:(lia) ltac:(change (zlen (replicate 8 x00)) with 8; lia)) as R.
  rewrite zslice_Some in R by lia.
  injection R as R. by rewrite Z.add_0_l, Z.sub_0_r in R.
Qed.

Lemma AllocInline_ok a v :
  if (0 <? zlen v) && (zlen v <=? 8) then
    ∃ r a', AllocInline a v = (Some r, a') ∧ IsInline r = true ∧ InlineInto r = Some v ∧
      View a' r = Ret v ∧ ViewKnownLive a' r = Ret v ∧ Free a' r = Ret (0, a') ∧
      0 < generation r < 2 ^ GenerationBits ∧ 0 ≤ location r < 2 ^ 64 ∧
      Generation r = Z.land (agen a') inlineGenerationMask ∧
      segments a' = segments a ∧ free a' = free a
  else AllocInline a v = (None, a).
Proof.
  pose proof (zlen_nonneg v).
  destruct (Z.ltb_spec 0 (zlen v)), (Z.leb_spec (zlen v) 8); cbn [andb]; unfold AllocInline;
    destruct (Z.eqb_spec (zlen v) 0), (Z.ltb_spec 8 (zlen v)); try lia; cbn [orb]; try done.
  destruct (nextGeneration a) as [g a'] eqn:En.
  assert (Hg : 0 ≤ Z.land g inlineGenerationMask < 2 ^ 14).
  { change inlineGenerationMask with (2 ^ 14 - 1). rewrite land_mask by lia. apply Z.mod_pos_bound. lia. }
  destruct (inline_word (zlen v) _ ltac:(lia) Hg) as (Hw & Hm & Hn & HG).
  eexists _, a'. split; [done|]. set (r := mkRef _ _). change (0 < generation r < 2 ^ GenerationBits) in Hw.
  assert (Hi : IsInline r = true) by (unfold IsInline, r; cbn [generation]; by apply negb_true_iff, Z.eqb_neq).
  assert (HI : InlineInto r = Some v).
  { unfold InlineInto. rewrite Hi. unfold r. cbn [generation location negb]. rewrite Hn.
    destruct (Z.ltb_spec (zlen v) 1), (Z.ltb_spec 8 (zlen v)); try lia. cbn [orb].
    by rewrite inline_bytes. }
  assert (Hl : 0 ≤ location r < 2 ^ 64).
  { unfold r. cbn [location]. pose proof (le_get_range (copy_at (replicate 8 x00) 0 v)) as R.
    rewrite copy_at_length in R; [by change (zlen (replicate 8 x00)) with 8 in R|lia|].
    change (zlen (replicate 8 x00)) with 8. lia. }
  unfold View, ViewKnownLive, Free, Generation. rewrite Hi, HI.
  assert (Hn' : agen a' = g ∧ segments a' = segments a ∧ free a' = free a).
  { unfold nextGeneration in En. by injection En as <- <-. }
  destruct Hn' as (-> & -> & ->). split_and!; done || lia || exact HG.
Qed.

(** An inline value round-trips through its reference.  [AllocInline] accepts
    exactly the values of 1 to 8 bytes; the reference it returns is recognised
    as inline, [InlineInto] and both views return the value, freeing it changes
    nothing, its generation word fits the 19 bits persisted in an entry and the
    block space is untouched. *)
Theorem inline_roundtrip a v :
  if (0 <? zlen v) && (zlen v <=? 8) then
    ∃ r a', AllocInline a v = (Some r, a') ∧ IsInline r = true ∧ InlineInto r = Some v ∧
      View a' r = Ret v ∧ ViewKnownLive a' r = Ret v ∧ Free a' r = Ret (0, a') ∧
      0 < generation r < 2 ^ GenerationBits ∧ 0 ≤ location r < 2 ^ 64 ∧
      Generation r = Z.land (agen a') inlineGenerationMask ∧
      segments a' = segments a ∧ free a' = free a
  else AllocInline a v = (None, a).
Proof. apply AllocInline_ok. Qed.

(** ** Concrete instances *)

Definition demo_value : list byte := replicate 16 x61.
Definition demo_state : Ref * Arena :=
  match Alloc emptyArena demo_value with Ret p => p | _ => (emptyRef, emptyArena) end.
Definition demo_ref : Ref := fst demo_state.
Definition demo_arena : Arena := snd demo_state.
Definition demo_live : livemap := <[pos demo_ref := (generation demo_ref, demo_value)]> ∅.
Definition demo_freed : Arena := match Free demo_arena demo_ref with Ret (_, a) => a | _ => emptyArena end.

Lemma demo_alloc : Alloc emptyArena demo_value = Ret (demo_ref, demo_arena).
Proof. vm_compute. reflexivity. Qed.

Lemma demo_run : arena_run (emptyArena, ∅) (0 + 1) (demo_arena, demo_live).
Proof.
  eapply run_step; [apply run_refl|]. unfold demo_live.
  apply step_alloc; [vm_compute; done..|exact demo_alloc].
Qed.

Lemma demo_ok : arena_ok demo_arena demo_live.
Proof. by destruct (arena_run_inv _ _ _ demo_run arena_ok_empty). Qed.

Lemma demo_ref_live : ref_live demo_live demo_ref demo_value.
Proof. split; [apply lookup_insert_eq|vm_compute; reflexivity]. Qed.

Lemma alloc_store_witness :
  ∃ r a', Alloc emptyArena demo_value = Ret (r, a') ∧ View a' r = Ret demo_value.
Proof.
  destruct (alloc_store emptyArena ∅ demo_value arena_ok_empty) as (r & a' & E & _ & _ & V & _);
    [vm_compute; done..|]. exists r, a'. done.
Defined.

Definition demo_batch : list (list byte) := [demo_value; replicate 300 x62; replicate 5000 x63].

Lemma GrowthFor_exact_witness :
  ∃ rs a', alloc_all demo_arena demo_batch = Ret (rs, a') ∧
    GrowthFor demo_arena (map zlen demo_batch) = Ret (MemoryBytes a' - MemoryBytes demo_arena).
Proof.
  apply (GrowthFor_exact demo_arena demo_live demo_batch demo_ok); [|vm_compute; done].
  repeat constructor; vm_compute; done.
Defined.


Lemma stale_detected_witness : View demo_freed demo_ref = Err "stale arena reference".
Proof.
  apply (stale_detected emptyArena ∅ demo_value demo_ref demo_arena 0 demo_arena demo_live
           0 demo_freed 0 demo_freed (delete (pos demo_ref) demo_live));
    [exact arena_ok_empty|vm_compute; done..|exact demo_alloc|apply run_refl|exact demo_ref_live
    |vm_compute; reflexivity|apply run_refl|vm_compute; done].
Defined.

Lemma free_store_witness :
  ∃ n a', Free demo_arena demo_ref = Ret (n, a') ∧
    TotalMemoryBytes a' = TotalMemoryBytes demo_arena + FreeGrowth demo_arena demo_ref - n.
Proof.
  destruct (free_store demo_arena demo_live demo_ref demo_value demo_ok demo_ref_live)
    as (n & a' & E & _ & M). exists n, a'. done.
Defined.
