(* ===== verification/ArenaHeap.v ===== *)
(** * The arena as a heap of values

    The interface between the store and the arena: a value is kept inline in its
    reference, as the empty reference, or in a block. Allocation and release are
    stated once for the three forms, with the memory they take. *)
From S2P Require Import Prelude Arena ArenaClass ArenaFacts ArenaSpec.
Set Default Proof Using "Type".

(** [r] holds [d]. *)
Inductive stored (live : livemap) (r : Ref) (d : list byte) : Prop :=
| stored_inline : IsInline r = true → InlineInto r = Some d → stored live r d
| stored_empty : r = emptyRef → d = [] → stored live r d
| stored_block : ref_live live r d → stored live r d.

(** The reference owns a block. *)
Definition owns (r : Ref) : bool := negb (IsInline r) && negb (generation r =? 0).

Definition put (r : Ref) (d : list byte) (live : livemap) : livemap :=
  if owns r then <[pos r := (generation r, d)]> live else live.
Definition drop_ref (r : Ref) (live : livemap) : livemap := if owns r then delete (pos r) live else live.

(** Field widths of a reference an entry can hold. *)
Definition ref_wf (r : Ref) : Prop := 0 ≤ location r < 2 ^ 64 ∧ 0 ≤ generation r < 2 ^ GenerationBits.

Lemma live_owns a live r d : arena_ok a live → ref_live live r d → owns r = true.
Proof.
  intros [fl HI] Hr. destruct (live_not_inline _ _ _ _ _ HI Hr) as [Hi Hg]. unfold owns. rewrite Hi.
  by destruct (Z.eqb_spec (generation r) 0).
Qed.

Lemma inline_owns r : IsInline r = true → owns r = false.
Proof. unfold owns. by intros ->. Qed.

Lemma stored_owned a live r d : arena_ok a live → stored live r d → owns r = true → ref_live live r d.
Proof. intros _ [Hi _| -> ->|Hr] Ho; [by rewrite inline_owns in Ho|done|done]. Qed.

(** A value survives changes to the blocks of others. *)
Lemma stored_mono a live live' r d : arena_ok a live → stored live r d → (owns r = true → live' !! pos r = live !! pos r) → stored live' r d.
Proof.
  intros Ha [Hi E| -> ->|Hr] Hl; [by apply stored_inline|by apply stored_empty|]. apply stored_block.
  pose proof (live_owns _ _ _ _ Ha Hr) as Ho. destruct Hr as [E El]. split; [by rewrite Hl|done].
Qed.

Lemma stored_views a live r d : arena_ok a live → stored live r d → View a r = Ret d ∧ ViewKnownLive a r = Ret d.
Proof.
  intros [fl HI] [Hi E| -> ->|Hr]; [|done|by apply (View_Inv a live fl)]. unfold View, ViewKnownLive. by rewrite Hi, E.
Qed.

Lemma class_bounds n : 0 ≤ n → n + 8 ≤ maxArenaBlock → ∃ b s, class n = Ret (b, s).
Proof. intros H1 H2. destruct (class_total n H1 H2) as (b & s & E & _). eauto. Qed.

Lemma AllocationBytes_ok a live r d : arena_ok a live → stored live r d → ∃ n, AllocationBytes a r = Ret n.
Proof.
  intros Ha Hs. unfold AllocationBytes. destruct Hs as [Hi E| -> ->|Hr]; [rewrite Hi; eauto|cbn; eauto|].
  pose proof Ha as [fl HI]. pose proof (live_owns _ _ _ _ Ha Hr) as Ho. destruct Hr as [Hl El]. unfold pos in Hl.
  destruct (inv_live _ _ _ HI _ _ _ _ Hl) as (H0 & Hmax & _). unfold owns in Ho. destruct (IsInline r); [done|]. cbn [negb andb] in Ho.
  destruct (generation r =? 0); [done|]. rewrite El. destruct (class_bounds (zlen d)) as (b & s & ->); [lia..|]. eauto.
Qed.

Lemma newRef_wf s o n g r : 0 ≤ s → 0 ≤ o → 0 ≤ n → newRef s o n g = Ret r → 0 ≤ location r < 2 ^ 64 ∧ generation r = g.
Proof.
  unfold newRef, guard_panic. intros Hs Ho Hn.
  destruct (Z.ltb_spec refSegmentMask s); [done|]. destruct (Z.ltb_spec refOffsetMask o); [done|]. destruct (Z.ltb_spec refLengthMask n); [done|].
  intros [= <-]. cbn [location generation]. split; [|done].
  change refSegmentMask with (2 ^ 25 - 1) in *. change refOffsetMask with (2 ^ 13 - 1) in *. change refLengthMask with (2 ^ 26 - 1) in *.
  change (refOffsetBits + refLengthBits) with 39. change refLengthBits with 26.
  replace (Z.shiftl s 39) with (Z.shiftl (Z.shiftl s 13) 26) by (rewrite Z.shiftl_shiftl by lia; f_equal; lia).
  rewrite <- Z.shiftl_lor, lor_shiftl_add by lia. rewrite (lor_shiftl_add s o 13) by lia. lia.
Qed.

Lemma Alloc_location a v r a' : Alloc a v = Ret (r, a') → 0 ≤ location r < 2 ^ 64.
Proof.
  unfold Alloc. destruct (zlen v =? 0); [intros [= <- <-]; cbn; lia|]. intros E.
  apply res_bind_inv in E as ([b blk] & _ & E). apply res_bind_inv in E as (adr & _ & E). apply res_bind_inv in E as ([[seg off] a1] & _ & E).
  unfold alloc_write in E. destruct (nextGeneration a1) as [g a2]. apply res_bind_inv in E as (sg & _ & E).
  apply res_bind_inv in E as (dd & _ & E). apply res_bind_inv in E as (ss & _ & E). apply res_bind_inv in E as (r' & Er & E). injection E as <- <-.
  apply newRef_wf in Er; [apply Er|unfold u32; apply Z.mod_pos_bound; lia..].
Qed.

(** ** Allocation *)

(** What placing [d] in the arena does. *)
Record placed (a : Arena) (live : livemap) (d : list byte) (r : Ref) (a' : Arena) : Prop := {
  pl_arena : arena_ok a' (put r d live);
  pl_stored : stored (put r d live) r d;
  pl_fresh : owns r = true → live !! pos r = None;
  pl_ref : ref_wf r;
  pl_count : zlen (segments a') ≤ zlen (segments a) + 1;
  pl_table : free a' = None ↔ free a = None;
}.

Lemma generation_bits g : 1 ≤ g ≤ blockGenerationMask → 0 ≤ g < 2 ^ GenerationBits.
Proof. change blockGenerationMask with 262143. change (2 ^ GenerationBits) with 524288. lia. Qed.

Lemma alloc_effect_table a fl b block p a' fl' : alloc_effect a fl b block p a' fl' → free a' = None ↔ free a = None.
Proof. intros [ft rest E ? ? ? ? ->|ft h E ? ? ? ? ? ? ? ? ? ->|? ? ? -> ?]; [by rewrite E..|done]. Qed.

Lemma Alloc_placed a live d : arena_ok a live → zlen d + 8 ≤ maxArenaBlock → zlen (segments a) ≤ refSegmentMask →
  ∃ r a', Alloc a d = Ret (r, a') ∧ placed a live d r a' ∧ IsInline r = false ∧ GrowthFor a [zlen d] = Ret (MemoryBytes a' - MemoryBytes a).
Proof.
  intros [fl HI] Hmax Hk. pose proof (zlen_nonneg d). destruct (decide (zlen d = 0)) as [E0|Hd].
  - exists emptyRef, a. rewrite Alloc_empty by done. assert (d = []) as -> by (by apply length_zero_iff_nil; unfold zlen in E0; lia).
    split; [done|]. split; [split; try done; [by exists fl|by apply stored_empty|lia]|]. split; [done|].
    rewrite Z.sub_diag. unfold GrowthFor, plan_start. by destruct (free a), (last (segments a)).
  - destruct (Alloc_Inv a live fl d HI) as (r & a' & fl' & b & E & _ & Hp); [lia..|]. exists r, a'. split; [done|].
    destruct (plan_loop_sim (segments a) (MemoryBytes a) [d] (plan_start a) a live fl HI (plan_sim_start a live fl HI)) as (p' & rs & a1 & Ep & Ea & Eg);
      [by repeat constructor|change (zlen [d]) with 1; lia|].
    cbn [alloc_all] in Ea. rewrite E, res_bind_ret in Ea. cbn in Ea. injection Ea as <- <-.
    pose proof Hp as [Hfresh Hlen Hgen _ HI' Heff]. assert (Ho : owns r = true).
    { apply (live_owns a' (<[pos r := (generation r, d)]> live) r d); [by exists fl'|]. split; [by rewrite lookup_insert_eq|done]. }
    split_and!; [|by unfold owns in Ho; destruct (IsInline r)|unfold GrowthFor; change [zlen d] with (map zlen [d]); by rewrite Ep, res_bind_ret, Eg].
    split; unfold put; rewrite ?Ho; try done.
    + by exists fl'.
    + apply stored_block. split; [by rewrite lookup_insert_eq|done].
    + split; [by eapply Alloc_location|]. apply generation_bits. destruct (inv_live _ _ _ HI' (pos r).1 (pos r).2 (generation r) d) as (_ & _ & ? & _);
        [rewrite <- surjective_pairing; by rewrite lookup_insert_eq|done].
    + by eapply alloc_effect_count.
    + by eapply alloc_effect_table.
Qed.

Lemma Inline_placed a live d : arena_ok a live → 1 ≤ zlen d ≤ 8 →
  ∃ r a', AllocInline a d = (Some r, a') ∧ placed a live d r a' ∧ IsInline r = true ∧ TotalMemoryBytes a' = TotalMemoryBytes a.
Proof.
  intros [fl HI] Hd. pose proof (AllocInline_ok a d) as H. destruct (Z.ltb_spec 0 (zlen d)), (Z.leb_spec (zlen d) 8); try lia. cbn [andb] in H.
  destruct H as (r & a' & E & Hi & HI' & _ & _ & _ & Hg & Hloc & _ & Hs & Hf). exists r, a'. split; [done|].
  pose proof (inline_owns r Hi) as Ho. apply AllocInline_inv in E as (-> & _ & _). split; [|done].
  split; unfold put; rewrite ?Ho; try done; [exists fl; by apply Inv_next|by apply stored_inline|split; lia|cbn; lia].
Qed.

(** ** Release *)

Lemma Free_dropped a live r d : arena_ok a live → stored live r d →
  ∃ n a', Free a r = Ret (n, a') ∧ arena_ok a' (drop_ref r live) ∧ TotalMemoryBytes a' = TotalMemoryBytes a + FreeGrowth a r - n ∧
    zlen (segments a') = zlen (segments a).
Proof.
  intros Ha Hs. destruct Hs as [Hi E| -> ->|Hr].
  - exists 0, a. unfold Free, drop_ref, FreeGrowth. rewrite inline_owns, Hi by done. cbn [orb]. split_and!; done || lia.
  - exists 0, a. split_and!; try done. change (FreeGrowth a emptyRef) with 0. lia.
  - pose proof (live_owns _ _ _ _ Ha Hr) as Ho. destruct Ha as [fl HI]. destruct (Free_Inv a live fl r d HI Hr) as (n & a' & fl' & E & [HI' Hm _ _ Hc]).
    exists n, a'. unfold drop_ref. rewrite Ho. split_and!; [done|by exists fl'|lia|done].
Qed.

(** The forecast of a release does not change with an allocation before it. *)
Lemma FreeGrowth_stable a a' r : (free a' = None ↔ free a = None) → FreeGrowth a' r = FreeGrowth a r.
Proof. intros [H1 H2]. unfold FreeGrowth. destruct (free a), (free a'); try done; [discriminate (H1 eq_refl)|discriminate (H2 eq_refl)]. Qed.

Lemma TotalMemory_grown a a' : (free a' = None ↔ free a = None) → TotalMemoryBytes a' = TotalMemoryBytes a + (MemoryBytes a' - MemoryBytes a).
Proof.
  intros [H1 H2]. unfold TotalMemoryBytes. destruct (free a), (free a'); [lia|discriminate (H1 eq_refl)|discriminate (H2 eq_refl)|lia].
Qed.
