(* ===== verification/ArenaWrite.v ===== *)
(** * Writing through a view

    A view of a block is a slice of the segment it lies in, so storing through it
    changes the arena. Lists are updated in place this way. The value of the block
    changes, and nothing else. *)
From S2P Require Import Prelude Arena ArenaClass ArenaFacts ArenaSpec ArenaHeap.
Set Default Proof Using "Type".

(** The arena after the bytes of the view of [ref] became [d]. *)
Definition write_view (a : Arena) (ref : Ref) (d : list byte) : res Arena :=
  s ← or_panic (znth (segments a) (ref_segment ref)) oob;
  Ret (set_segments a (<[Z.to_nat (ref_segment ref) := mkSegment (copy_at (sdata s) (ref_offset ref + 8) d) (scap s)]> (segments a))).

Lemma copy_at_same {A} (l : list A) i x : 0 ≤ i → zslice l i (i + zlen x) = Some x → copy_at l i x = l.
Proof.
  intros Hi Hx. apply zslice_inv in Hx as (_ & _ & Hb & Hx). rewrite copy_at_split by lia.
  rewrite Hx at 1. replace (i + zlen x - i) with (zlen x) by lia. rewrite Z2Nat.inj_add by (pose proof (zlen_nonneg x); lia).
  rewrite <- drop_drop, take_drop. by rewrite take_drop.
Qed.

Lemma Inv_drop_live a live fl s o : Inv a live fl → Inv a (delete (s, o) live) fl.
Proof.
  intros HI. assert (Hb : ∀ s' o' sz, is_block (delete (s, o) live) fl s' o' sz → is_block live fl s' o' sz).
  { intros s' o' sz [g v [_ Hl]%lookup_delete_Some|b Hin]; [by eapply blk_live|by apply blk_free]. }
  destruct HI. split; try done; [by eauto|by eauto| |].
  - intros x b Hin. apply lookup_delete_None. right. eauto.
  - intros s' o' g v [_ Hl]%lookup_delete_Some. eauto.
Qed.

Lemma live_fresh a live fl s o g v : Inv a live fl → live !! (s, o) = Some (g, v) → fresh_block a (delete (s, o) live) fl s o (block_of v).
Proof.
  intros HI Hl. split; [eapply inv_range; [done|by eapply blk_live]|]. intros o' sz' Hb.
  assert (Hb' : is_block live fl s o' sz' ∧ o' ≠ o).
  { destruct Hb as [g' v' [Hne Hl']%lookup_delete_Some|b Hin]; [split; [by eapply blk_live|congruence]|]. split; [by apply blk_free|].
    intros ->. pose proof (inv_live_free _ _ _ HI _ _ Hin). congruence. }
  destruct Hb' as [Hb' Hne]. by eapply inv_disj; [done|by eapply blk_live|done|].
Qed.

Lemma write_view_ok a live r d d' : arena_ok a live → ref_live live r d → zlen d' = zlen d →
  ∃ a', write_view a r d' = Ret a' ∧ arena_ok a' (<[pos r := (generation r, d')]> live) ∧
    TotalMemoryBytes a' = TotalMemoryBytes a ∧ zlen (segments a') = zlen (segments a) ∧ free a' = free a.
Proof.
  intros [fl HI] [Hl El] Hlen. unfold pos in *. set (s := ref_segment r) in *. set (o := ref_offset r) in *.
  destruct (inv_live _ _ _ HI s o (generation r) d Hl) as (H0 & Hmax & Hg & R1 & R2).
  pose proof (live_fresh a live fl s o _ d HI Hl) as Hf. pose proof Hf as [[Hsz Ho Hs (g & Hg' & Hfit & Hded)] _].
  assert (Hbl : block_of d' = block_of d) by (unfold block_of; by rewrite Hlen).
  destruct (class_block_of d Hmax) as (bk & _ & Hck). pose proof (ck_fits _ _ _ Hck) as Hok.
  unfold write_view. fold s o. rewrite Hg'. cbn [or_panic]. rewrite res_bind_ret. eexists. split; [done|].
  destruct (write_block (segments a) s g o (generation r) d' _ Hg' ltac:(lia) Hfit ltac:(lia)) as (Hd & HF & W1 & W2).
  assert (Esame : copy_at (sdata g) o (le_put 8 (generation r)) = sdata g).
  { apply copy_at_same; [lia|]. rewrite zlen_le_put. unfold rd in R1. by rewrite Hg' in R1. }
  rewrite Esame in Hd, HF, W1, W2. pose proof (znth_Some _ _ _ Hg').
  split_and!.
  - exists fl. rewrite <- (insert_delete_eq live). apply Inv_add_live; [|rewrite Hbl|lia|lia|done|done|done].
    + eapply Inv_write_fresh; [by apply Inv_drop_live|done|done|done|done].
    + split; [|apply Hf]. eapply (in_range_frame _ _ _ _ _ _ o o); [done|right; left; lia|apply Hf].
  - unfold TotalMemoryBytes. rewrite !MemoryBytes_shape. cbn [segments set_segments free segs_cap]. by erewrite shape_insert.
  - cbn [segments set_segments]. apply zlen_insert.
  - done.
Qed.
