(* ===== verification/KeyPack.v ===== *)
(** * Packed key records ([internal/index/keypack.go])

    The key log of an index table stores each key as a record: a raw record is
    a uvarint length followed by the key, an escaped record packs a
    hexadecimal tail of the key into half its size.  This file models the
    analysis of a key, the writer of the two record forms and their readers.
    The proofs about them are in the file [KeyPackFacts]. *)
From S2P Require Import Prelude.

(** ** Constants and character tables *)

Definition packEscape : byte := x00.
Definition packCaseMask : Z := 3.
Definition packCaseLow : Z := 0.
Definition packCaseUp : Z := 1.
Definition packCaseMix : Z := 2.
Definition pack0x : Z := 4.
Definition packPrefix : Z := 8.
Definition packEmpty : Z := 255.
Definition packMinDigits : Z := 16.
Definition packMaxDigits : Z := 128.
Definition packMaxPrefix : Z := 255.
Definition packMaxKey : Z := packMaxPrefix + 2 + packMaxDigits.

Definition between (c lo hi : Z) : bool := (lo <=? c) && (c <=? hi).

Definition hexNibble (b : byte) : Z :=
  let c := bz b in
  if between c 48 57 then c - 48
  else if between c 97 102 then c - 97 + 10
  else if between c 65 70 then c - 65 + 10
  else -1.

(** The digit characters of [l] and [u], indexed by nibble. *)
Definition hexLower (n : Z) : byte := zb (if n <? 10 then 48 + n else 97 + (n - 10)).
Definition hexUpper (n : Z) : byte := zb (if n <? 10 then 48 + n else 65 + (n - 10)).

Definition hexPairLower (b : byte) : byte * byte :=
  (hexLower (Z.shiftr (bz b) 4), hexLower (Z.land (bz b) 15)).
Definition hexPairUpper (b : byte) : byte * byte :=
  (hexUpper (Z.shiftr (bz b) 4), hexUpper (Z.land (bz b) 15)).

Definition pair_word (p : byte * byte) : Z := Z.lor (bz (fst p)) (Z.shiftl (bz (snd p)) 8).
Definition hexWordLower (b : byte) : Z := pair_word (hexPairLower b).
Definition hexWordUpper (b : byte) : Z := pair_word (hexPairUpper b).

Definition hexClass (b : byte) : Z :=
  let c := bz b in
  if between c 48 57 then 1
  else if between c 97 102 then 2
  else if between c 65 70 then 4
  else 0.

(** ** Analysis of a key *)

Record packedKey := mkPackedKey {
  pk_flags : Z;
  pk_prefix : list byte;
  pk_digits : list byte;
  pk_size : Z
}.

(** [uvarintLen]: a 64-bit [int] has at most nine shifts by seven left to do. *)
Fixpoint uvarintLen_loop (fuel : nat) (n l : Z) : Z :=
  match fuel with
  | O => l
  | S f => if 128 <=? n then uvarintLen_loop f (Z.shiftr n 7) (l + 1) else l
  end.

Definition uvarintLen (n : Z) : Z := uvarintLen_loop 9 n 1.

Definition recordBytes (keyLen : Z) : Z := uvarintLen keyLen + keyLen.
Definition KeyRecordBytes (keyLen : Z) : Z := recordBytes keyLen.

Definition char_at (key : list byte) (i : nat) : byte := default x00 (key !! i).

(** The backward scan over the longest hexadecimal run, with the classes seen. *)
Fixpoint scan_tail (key : list byte) (s : nat) (seen : Z) : nat * Z :=
  match s with
  | O => (O, seen)
  | S s' =>
      let c := hexClass (char_at key s') in
      if c =? 0 then (s, seen) else scan_tail key s' (Z.lor seen c)
  end.

(** The forward scan that recomputes the classes after an odd run is shortened. *)
Definition scan_classes (digits : list byte) : Z :=
  foldl (fun seen b => Z.lor seen (hexClass b)) 0 digits.

Definition has (flags bit : Z) : bool := negb (Z.land flags bit =? 0).

Definition packKey (key : list byte) : option packedKey :=
  let n := zlen key in
  if n <? packMinDigits then None else
  let '(s, seen) := scan_tail key (length key) 0 in
  if n - Z.of_nat s <? packMinDigits then None else
  let '(s, seen) :=
    if Z.land (n - Z.of_nat s) 1 =? 1 then (S s, scan_classes (drop (S s) key)) else (s, seen) in
  let digits := drop s key in
  if packMaxDigits <? zlen digits then None else
  let '(flags, end_) :=
    if (2 <=? Z.of_nat s) && (bz (char_at key (s - 2)) =? 48) && (bz (char_at key (s - 1)) =? 120)
    then (pack0x, (s - 2)%nat) else (0, s) in
  if packMaxPrefix <? Z.of_nat end_ then None else
  let prefixLen := Z.of_nat end_ in
  let flags := if 0 <? prefixLen then Z.lor flags packPrefix else flags in
  let flags :=
    if has seen 2 && has seen 4 then Z.lor flags packCaseMix
    else if has seen 4 then Z.lor flags packCaseUp
    else flags in
  let nbytes := zlen digits / 2 in
  let size := 2 + uvarintLen nbytes + nbytes in
  let size := if 0 <? prefixLen then size + (1 + prefixLen) else size in
  let size :=
    if Z.land flags packCaseMask =? packCaseMix then size + (zlen digits + 7) / 8 else size in
  if recordBytes n <=? size then None
  else Some (mkPackedKey flags (take end_ key) digits size).

Definition KeyRecordSize (key : list byte) : Z :=
  if zlen key =? 0 then 2
  else match packKey key with Some p => pk_size p | None => recordBytes (zlen key) end.

Definition PackedKeySize (key : list byte) : option Z :=
  match packKey key with Some p => Some (pk_size p) | None => None end.

(** ** Writing an escaped record *)

(** The loop that sets one mask bit per upper-case digit. *)
Fixpoint mask_loop (digits : list byte) (i : nat) (mask : list byte) : list byte :=
  match digits with
  | [] => mask
  | d :: rest =>
      let mask :=
        if hexClass d =? 4 then
          alter (fun b => zb (Z.lor (bz b) (Z.shiftl 1 (Z.land (Z.of_nat i) 7)))) (i / 8)%nat mask
        else mask in
      mask_loop rest (S i) mask
  end.

Definition mask_of (digits : list byte) : list byte :=
  mask_loop digits 0 (replicate (Z.to_nat ((zlen digits + 7) / 8)) x00).

(** Two digits per payload byte; an odd last digit is not read. *)
Fixpoint payload_of (digits : list byte) : list byte :=
  match digits with
  | d0 :: d1 :: rest =>
      zb (Z.lor (u8 (Z.shiftl (u8 (hexNibble d0)) 4)) (u8 (hexNibble d1))) :: payload_of rest
  | _ => []
  end.

Definition packed_appendTo (p : packedKey) (dst : list byte) : list byte :=
  let dst := dst ++ [packEscape; zb (pk_flags p)] in
  let dst :=
    if has (pk_flags p) packPrefix
    then (dst ++ [zb (zlen (pk_prefix p))]) ++ pk_prefix p else dst in
  let nbytes := zlen (pk_digits p) / 2 in
  let dst := dst ++ put_uvarint nbytes in
  let dst :=
    if Z.land (pk_flags p) packCaseMask =? packCaseMix
    then dst ++ mask_of (pk_digits p) else dst in
  dst ++ payload_of (pk_digits p).

(** ** Reading a record *)

Record packedParts := mkParts {
  pp_flags : Z;
  pp_prefix : list byte;
  pp_mask : list byte;
  pp_payload : list byte;
  pp_total : Z
}.

Definition parse (rec : list byte) : res packedParts :=
  f ← or_panic (znth rec 1) oob;
  let flags := bz f in
  if flags =? packEmpty then Ret (mkParts flags [] [] [] 2) else
  '(prefix, i) ←
    (if has flags packPrefix then
       nb ← or_panic (znth rec 2) oob;
       let n := bz nb in
       prefix ← or_panic (zslice rec 3 (3 + n)) oob;
       Ret (prefix, 2 + (1 + n))
     else Ret ([], 2));
  tail ← or_panic (zslice rec i (zlen rec)) oob;
  let '(nbytes, w) := uvarint tail in
  let nbytes := i64 nbytes in
  let i := i + w in
  '(mask, i) ←
    (if Z.land flags packCaseMask =? packCaseMix then
       let m := Z.quot (nbytes * 2 + 7) 8 in
       mask ← or_panic (zslice rec i (i + m)) oob;
       Ret (mask, i + m)
     else Ret ([], i));
  payload ← or_panic (zslice rec i (i + nbytes)) oob;
  Ret (mkParts flags prefix mask payload (i + nbytes)).

(** [recordLen log offset]: the total length of the record at [log[offset:]]. *)
Definition recordLen (log : list byte) (offset : Z) : res Z :=
  b ← or_panic (zslice log offset (zlen log)) oob;
  b0 ← or_panic (znth b 0) oob;
  if bool_decide (b0 = packEscape) then
    parts ← parse b; Ret (pp_total parts)
  else if bz b0 <? 128 then Ret (1 + bz b0)
  else let '(v, w) := uvarint b in Ret (w + i64 v).

(** The two case bits of payload byte [j] in mixed mode. *)
Definition mask_bits (mask : list byte) (j : Z) : res Z :=
  m ← or_panic (znth mask (Z.shiftr j 2)) oob;
  Ret (Z.land (Z.shiftr (bz m) (Z.land j 3 * 2)) 3).

Fixpoint appendKey_loop (p : packedParts) (payload : list byte) (j : Z) : res (list byte) :=
  match payload with
  | [] => Ret []
  | b :: rest =>
      let '(c0, c1) :=
        if Z.land (pp_flags p) packCaseMask =? packCaseUp then hexPairUpper b else hexPairLower b in
      '(c0, c1) ←
        (if Z.land (pp_flags p) packCaseMask =? packCaseMix then
           bits ← mask_bits (pp_mask p) j;
           Ret (zb (bz c0 - Z.shiftl (Z.land bits 1) 5), zb (bz c1 - Z.shiftl (Z.shiftr bits 1) 5))
         else Ret (c0, c1));
      out ← appendKey_loop p rest (j + 1);
      Ret (c0 :: c1 :: out)
  end.

Definition parts_appendKey (p : packedParts) (dst : list byte) : res (list byte) :=
  if pp_flags p =? packEmpty then Ret dst else
  let dst := dst ++ pp_prefix p in
  let dst := if has (pp_flags p) pack0x then dst ++ [x30; x78] else dst in
  out ← appendKey_loop p (pp_payload p) 0;
  Ret (dst ++ out).

Definition parts_keyLen (p : packedParts) : Z :=
  if pp_flags p =? packEmpty then 0 else
  let n := zlen (pp_prefix p) + 2 * zlen (pp_payload p) in
  if has (pp_flags p) pack0x then n + 2 else n.

Fixpoint equals_loop (p : packedParts) (payload : list byte) (j : Z) (rest : list byte) : res bool :=
  match payload with
  | [] => Ret true
  | b :: payload' =>
      let want :=
        if Z.land (pp_flags p) packCaseMask =? packCaseUp then hexWordUpper b else hexWordLower b in
      want ←
        (if Z.land (pp_flags p) packCaseMask =? packCaseMix then
           bits ← mask_bits (pp_mask p) j;
           Ret (u16 (want - u16 (Z.land bits 1 * 32 + u16 (Z.shiftl (Z.shiftr bits 1) 13))))
         else Ret want);
      c0 ← or_panic (znth rest (2 * j)) oob;
      c1 ← or_panic (znth rest (2 * j + 1)) oob;
      if negb (pair_word (c0, c1) =? want) then Ret false
      else equals_loop p payload' (j + 1) rest
  end.

Definition parts_equals (p : packedParts) (key : list byte) : res bool :=
  if pp_flags p =? packEmpty then Ret (zlen key =? 0) else
  if negb (parts_keyLen p =? zlen key) then Ret false else
  let i := zlen (pp_prefix p) in
  head ← or_panic (zslice key 0 i) oob;
  if negb (bool_decide (pp_prefix p = head)) then Ret false else
  '(ok, i) ←
    (if has (pp_flags p) pack0x then
       k0 ← or_panic (znth key i) oob;
       if negb (bz k0 =? 48) then Ret (false, i) else
       k1 ← or_panic (znth key (i + 1)) oob;
       if negb (bz k1 =? 120) then Ret (false, i) else Ret (true, i + 2)
     else Ret (true, i));
  if negb ok then Ret false else
  rest ← or_panic (zslice key i (zlen key)) oob;
  equals_loop p (pp_payload p) 0 rest.

(** ** Decoding for iteration *)

(** [keyChunk]: the bytes of the current chunk and its capacity. *)
Record keyChunk := mkChunk { ck_buf : list byte; ck_cap : Z }.

Definition keyChunkSize : Z := 8192.
Definition emptyChunk : keyChunk := mkChunk [] 0.

Definition chunk_decode (c : keyChunk) (rec : list byte) : res (list byte * keyChunk) :=
  parts ← parse rec;
  if pp_flags parts =? packEmpty then Ret ([], c) else
  let n := zlen (pp_prefix parts) + 2 * zlen (pp_payload parts) in
  let n := if has (pp_flags parts) pack0x then n + 2 else n in
  let c :=
    if ck_cap c - zlen (ck_buf c) <? n
    then mkChunk [] (if keyChunkSize <? n then n else keyChunkSize) else c in
  let start := zlen (ck_buf c) in
  buf ← parts_appendKey parts (ck_buf c);
  _ ← or_panic (znth buf start) oob;
  s ← or_panic (zslice buf start (start + n)) oob;
  Ret (s, mkChunk buf (ck_cap c)).
