(* ===== verification/KeyPackFacts.v ===== *)
(** * Correctness of packed key records

    [packKey] splits a key into prefix, marker and hexadecimal tail; the record
    written for a key, raw or escaped, is read back by every reader: its length,
    the key itself, the comparison with another key, the decoded length. *)
From S2P Require Import Prelude KeyPack.

(** ** Character tables *)

Definition is_hex (b : byte) : Prop := hexClass b ≠ 0.

Lemma hexNibble_range b : is_hex b → 0 ≤ hexNibble b < 16.
Proof. unfold is_hex. destruct b; vm_compute; intros; by try split. Qed.

(** A hexadecimal digit is its lower-case form, lowered by 32 when upper case. *)
Lemma hex_lower b :
  is_hex b → bz (hexLower (hexNibble b)) - (if hexClass b =? 4 then 32 else 0) = bz b.
Proof. unfold is_hex. destruct b; vm_compute; intros; done. Qed.

Lemma hex_upper b : is_hex b → hexClass b ≠ 2 → hexUpper (hexNibble b) = b.
Proof. unfold is_hex. destruct b; vm_compute; intros; done. Qed.

Lemma class_bit b k : (k = 1 ∨ k = 2) → Z.testbit (hexClass b) k = (hexClass b =? 2 ^ k).
Proof. intros [->| ->]; by destruct b. Qed.

(** ** The classes of a run of digits *)

Definition seen_of (l : list byte) : Z := foldr (fun b acc => Z.lor acc (hexClass b)) 0 l.

Definition ex_class (c : Z) (l : list byte) : bool := existsb (fun b => hexClass b =? c) l.

Lemma has_testbit x k : 0 ≤ k → has x (2 ^ k) = Z.testbit x k.
Proof.
  intros Hk. unfold has. destruct (Z.testbit x k) eqn:E.
  - apply negb_true_iff, Z.eqb_neq. intros H.
    assert (Z.testbit (Z.land x (2 ^ k)) k = true) by (by rewrite Z.land_spec, E, Z.pow2_bits_true).
    rewrite H, Z.bits_0 in *. done.
  - apply negb_false_iff, Z.eqb_eq, Z.bits_inj'. intros i Hi. rewrite Z.land_spec, Z.bits_0.
    destruct (decide (i = k)) as [->|]; [by rewrite E|]. rewrite Z.pow2_bits_false by done.
    by rewrite andb_false_r.
Qed.

Lemma seen_bit l k : (k = 1 ∨ k = 2) → has (seen_of l) (2 ^ k) = ex_class (2 ^ k) l.
Proof.
  intros Hk. rewrite has_testbit by lia. induction l as [|b l IH]; [by destruct Hk as [->| ->]|].
  change (seen_of (b :: l)) with (Z.lor (seen_of l) (hexClass b)).
  change (ex_class (2 ^ k) (b :: l)) with ((hexClass b =? 2 ^ k) || ex_class (2 ^ k) l).
  by rewrite Z.lor_spec, IH, class_bit, orb_comm.
Qed.

Lemma scan_classes_seen l : scan_classes l = seen_of l.
Proof.
  unfold scan_classes.
  assert (H : ∀ acc, foldl (fun seen b => Z.lor seen (hexClass b)) acc l = Z.lor acc (seen_of l)).
  { induction l as [|b l IH]; intros acc; cbn; [by rewrite Z.lor_0_r|].
    rewrite IH, <- Z.lor_assoc, (Z.lor_comm (hexClass b)). done. }
  by rewrite H.
Qed.

Lemma char_at_drop key s : (s < length key)%nat → drop s key = char_at key s :: drop (S s) key.
Proof.
  intros H. unfold char_at. destruct (lookup_lt_is_Some_2 key s H) as [x E].
  rewrite E. by apply drop_S.
Qed.

Lemma scan_tail_spec key : ∀ s seen s' seen',
  (s ≤ length key)%nat → scan_tail key s seen = (s', seen') →
  seen = seen_of (drop s key) → Forall is_hex (drop s key) →
  (s' ≤ s)%nat ∧ seen' = seen_of (drop s' key) ∧ Forall is_hex (drop s' key).
Proof.
  induction s as [|s IH]; intros seen s' seen' Hs E Hseen Hh; cbn [scan_tail] in E.
  - by simplify_eq.
  - destruct (Z.eqb_spec (hexClass (char_at key s)) 0) as [H0|H0]; [by simplify_eq|].
    pose proof (char_at_drop key s ltac:(lia)) as Ed.
    apply IH in E as (? & ? & ?); [split_and!; [lia|done..]|lia|..]; rewrite Ed; cbn; [by subst|].
    by constructor.
Qed.

(** ** What [packKey] finds *)

Definition case_of (digits : list byte) : Z :=
  if ex_class 2 digits && ex_class 4 digits then packCaseMix
  else if ex_class 4 digits then packCaseUp else packCaseLow.

Definition mkflags (c : Z) (b0x bpre : bool) : Z :=
  Z.lor (Z.lor (if b0x then pack0x else 0) (if bpre then packPrefix else 0)) c.

Definition marker (b0x : bool) : list byte := if b0x then [x30; x78] else [].

Definition nonempty {A} (l : list A) : bool := match l with [] => false | _ => true end.

Record packed_ok (key : list byte) (p : packedKey) (b0x : bool) : Prop := {
  po_split : key = pk_prefix p ++ marker b0x ++ pk_digits p;
  po_hex : Forall is_hex (pk_digits p);
  po_even : zlen (pk_digits p) = 2 * (zlen (pk_digits p) / 2);
  po_min : packMinDigits ≤ zlen (pk_digits p) ≤ packMaxDigits;
  po_prefix : zlen (pk_prefix p) ≤ packMaxPrefix;
  po_flags : pk_flags p = mkflags (case_of (pk_digits p)) b0x (nonempty (pk_prefix p));
  po_size : pk_size p = 2 + (if nonempty (pk_prefix p) then 1 + zlen (pk_prefix p) else 0)
              + uvarintLen (zlen (pk_digits p) / 2)
              + (if case_of (pk_digits p) =? packCaseMix then (zlen (pk_digits p) + 7) / 8 else 0)
              + zlen (pk_digits p) / 2;
  po_less : pk_size p < recordBytes (zlen key)
}.

Lemma case_of_cases d : case_of d = packCaseLow ∨ case_of d = packCaseUp ∨ case_of d = packCaseMix.
Proof. unfold case_of. destruct (ex_class 2 d), (ex_class 4 d); cbn; auto. Qed.

Lemma mkflags_spec d b0x bpre :
  let f := mkflags (case_of d) b0x bpre in
  has f pack0x = b0x ∧ has f packPrefix = bpre ∧ Z.land f packCaseMask = case_of d ∧
  f ≠ packEmpty ∧ 0 ≤ f < 256.
Proof. destruct (case_of_cases d) as [->|[->| ->]], b0x, bpre; by vm_compute. Qed.

Lemma zlen_drop {A} (l : list A) s : (s ≤ length l)%nat → zlen (drop s l) = zlen l - Z.of_nat s.
Proof. intros. unfold zlen. rewrite length_drop. lia. Qed.

Lemma land_1_mod n : Z.land n 1 = n mod 2.
Proof. change 1 with (2 ^ 1 - 1). by rewrite land_mask by lia. Qed.

(** The tail kept by [packKey]: shortened by one digit when the run is odd. *)
Lemma tail_even key s seen :
  scan_tail key (length key) 0 = (s, seen) → packMinDigits ≤ zlen key - Z.of_nat s →
  ∃ s1 seen1,
    (if Z.land (zlen key - Z.of_nat s) 1 =? 1 then (S s, scan_classes (drop (S s) key)) else (s, seen))
      = (s1, seen1) ∧
    (s1 ≤ length key)%nat ∧ seen1 = seen_of (drop s1 key) ∧ Forall is_hex (drop s1 key) ∧
    zlen (drop s1 key) = 2 * (zlen (drop s1 key) / 2) ∧ packMinDigits ≤ zlen (drop s1 key).
Proof.
  unfold packMinDigits. intros E Hmin.
  assert (Hnil : drop (length key) key = []) by (apply drop_ge; lia).
  apply scan_tail_spec in E as (Hs & Hseen & Hh); [|lia|by rewrite Hnil..].
  rewrite land_1_mod. pose proof (zlen_nonneg key). unfold zlen in Hmin.
  destruct (Z.eqb_spec ((zlen key - Z.of_nat s) mod 2) 1) as [Ho|He]; eexists _, _; (split; [done|]).
  - rewrite scan_classes_seen, zlen_drop by lia. split_and!; [lia|done|..].
    + rewrite (char_at_drop key s) in Hh by lia. by inversion Hh.
    + Z.div_mod_to_equations; lia.
    + unfold zlen in *. Z.div_mod_to_equations; lia.
  - rewrite zlen_drop by lia. unfold zlen in *. split_and!; try done; Z.div_mod_to_equations; lia.
Qed.

(** The literal marker before the digits. *)
Lemma marker_split key s :
  (s ≤ length key)%nat →
  ∃ (b0x : bool) (e : nat),
    (if (2 <=? Z.of_nat s) && (bz (char_at key (s - 2)) =? 48) && (bz (char_at key (s - 1)) =? 120)
     then (pack0x, (s - 2)%nat) else (0, s)) = (if b0x then pack0x else 0, e) ∧
    (e ≤ s)%nat ∧ key = take e key ++ marker b0x ++ drop s key.
Proof.
  intros Hs. destruct (Z.leb_spec 2 (Z.of_nat s)) as [H2|]; cbn [andb];
    [|exists false, s; split_and!; [done..|cbn; by rewrite take_drop]].
  destruct (Z.eqb_spec (bz (char_at key (s - 2))) 48) as [E0|]; cbn [andb];
    [|exists false, s; split_and!; [done..|cbn; by rewrite take_drop]].
  destruct (Z.eqb_spec (bz (char_at key (s - 1))) 120) as [E1|]; cbn [andb];
    [|exists false, s; split_and!; [done..|cbn; by rewrite take_drop]].
  exists true, (s - 2)%nat. split_and!; [done|lia|]. cbn [marker].
  rewrite <- (take_drop (s - 2) key) at 1. f_equal.
  rewrite char_at_drop, (bz_inj _ x30 E0) by lia. replace (S (s - 2))%nat with (s - 1)%nat by lia.
  rewrite char_at_drop, (bz_inj _ x78 E1) by lia. by replace (S (s - 1))%nat with s by lia.
Qed.

Lemma packKey_ok key p : packKey key = Some p → ∃ b0x, packed_ok key p b0x.
Proof.
  unfold packKey. destruct (Z.ltb_spec (zlen key) packMinDigits); [done|].
  destruct (scan_tail key (length key) 0) as [s seen] eqn:Et.
  destruct (Z.ltb_spec (zlen key - Z.of_nat s) packMinDigits); [done|].
  destruct (tail_even key s seen Et ltac:(lia)) as (s1 & seen1 & -> & Hs1 & -> & Hh & He & Hm).
  destruct (Z.ltb_spec packMaxDigits (zlen (drop s1 key))); [done|].
  destruct (marker_split key s1 Hs1) as (b0x & e & -> & Hes & Hk).
  destruct (Z.ltb_spec packMaxPrefix (Z.of_nat e)); [done|].
  rewrite (seen_bit _ 1 (or_introl eq_refl) : has _ 2 = ex_class 2 _).
  rewrite !(seen_bit _ 2 (or_intror eq_refl) : has _ 4 = ex_class 4 _).
  set (d := drop s1 key) in *.
  assert (Hlen : Z.of_nat e = zlen (take e key)).
  { unfold zlen. rewrite length_take. lia. }
  assert (Hpre : (0 <? Z.of_nat e) = nonempty (take e key)).
  { rewrite Hlen. destruct (take e key) as [|x l]; [done|]. apply Z.ltb_lt. rewrite zlen_cons.
    pose proof (zlen_nonneg l). cbn. lia. }
  rewrite Hpre. set (pre := take e key) in *. rewrite Hlen in *.
  set (fl := if ex_class 2 d && _ then _ else _).
  assert (Hfl : fl = mkflags (case_of d) b0x (nonempty pre)).
  { unfold fl, case_of, mkflags.
    destruct (ex_class 2 d), (ex_class 4 d), b0x, (nonempty pre); reflexivity. }
  clearbody fl. subst fl. destruct (mkflags_spec d b0x (nonempty pre)) as (_ & _ & Hc & _).
  rewrite Hc. intros Hp.
  set (size := if case_of d =? packCaseMix then _ else _) in Hp.
  destruct (Z.leb_spec (recordBytes (zlen key)) size); [done|]. injection Hp as <-.
  exists b0x. split; cbn [pk_prefix pk_digits pk_flags pk_size]; try done; try lia.
  unfold size. destruct (nonempty pre), (case_of d =? packCaseMix); lia.
Qed.

(** ** The record of a key *)

Definition key_record (key : list byte) : list byte :=
  match packKey key with
  | Some p => packed_appendTo p []
  | None => if zlen key =? 0 then [packEscape; zb packEmpty] else put_uvarint (zlen key) ++ key
  end.

Definition prefix_part (prefix : list byte) : list byte :=
  if nonempty prefix then zb (zlen prefix) :: prefix else [].

Definition mask_part (digits : list byte) : list byte :=
  if case_of digits =? packCaseMix then mask_of digits else [].

Lemma packed_appendTo_eq key p b0x dst :
  packed_ok key p b0x →
  packed_appendTo p dst =
    dst ++ [packEscape; zb (pk_flags p)] ++ prefix_part (pk_prefix p) ++
    [zb (zlen (pk_digits p) / 2)] ++ mask_part (pk_digits p) ++ payload_of (pk_digits p).
Proof.
  intros H. destruct (mkflags_spec (pk_digits p) b0x (nonempty (pk_prefix p))) as (_ & Hp & Hc & _).
  unfold packed_appendTo. rewrite (po_flags _ _ _ H), Hp, Hc. pose proof (po_min _ _ _ H) as Hm.
  rewrite put_uvarint_small by (unfold packMinDigits, packMaxDigits in Hm; Z.div_mod_to_equations; lia).
  unfold prefix_part, mask_part.
  destruct (nonempty _), (_ =? packCaseMix); by rewrite <- ?app_assoc.
Qed.

Lemma length_mask_loop d : ∀ i m, length (mask_loop d i m) = length m.
Proof.
  induction d as [|b d IH]; intros i m; [done|]. cbn. rewrite IH.
  destruct (hexClass b =? 4); [apply length_alter|done].
Qed.

Lemma zlen_mask_of d : zlen (mask_of d) = (zlen d + 7) / 8.
Proof.
  unfold mask_of, zlen at 1. rewrite length_mask_loop, length_replicate.
  pose proof (zlen_nonneg d). rewrite Z2Nat.id; [done|]. apply Z.div_pos; lia.
Qed.

Lemma zlen_payload k : ∀ d, length d = (2 * k)%nat → length (payload_of d) = k.
Proof.
  induction k as [|k IH]; intros [|b0 [|b1 d]] H; cbn in *; try done; try lia.
  f_equal. apply IH. lia.
Qed.

Lemma zlen_payload_of d : zlen d = 2 * (zlen d / 2) → zlen (payload_of d) = zlen d / 2.
Proof.
  intros H. pose proof (zlen_nonneg d). unfold zlen at 1.
  rewrite (zlen_payload (Z.to_nat (zlen d / 2))); [apply Z2Nat.id; Z.div_mod_to_equations; lia|].
  unfold zlen in *. Z.div_mod_to_equations; lia.
Qed.

Lemma uvarintLen_put n : 0 ≤ n < 2 ^ 63 → uvarintLen n = zlen (put_uvarint n).
Proof.
  unfold uvarintLen, put_uvarint. intros [H0 H].
  assert (G : ∀ f n l, 0 ≤ n < 2 ^ (7 * Z.of_nat (S f)) →
            uvarintLen_loop f n l = l - 1 + zlen (put_uvarint_fuel (S f) n)).
  { induction f as [|f IH]; intros m l Hm.
    - cbn. destruct (Z.leb_spec 128 m); [lia|]. rewrite zlen_cons, zlen_nil. lia.
    - cbn [uvarintLen_loop]. remember (S f) as f'. cbn [put_uvarint_fuel]. subst f'.
      destruct (Z.leb_spec 128 m); rewrite zlen_cons; [|rewrite zlen_nil; lia].
      rewrite IH; [lia|]. rewrite shiftr_div by lia. split; [apply Z.div_pos; lia|].
      apply Z.div_lt_upper_bound; [lia|]. rewrite <- Z.pow_add_r by lia.
      replace (7 + 7 * Z.of_nat (S f)) with (7 * Z.of_nat (S (S f))) by lia. lia. }
  rewrite (G 9%nat); [lia|]. split; [done|]. eapply Z.lt_trans; [exact H|]. done.
Qed.

Lemma uvarintLen_pos n : 1 ≤ uvarintLen n.
Proof.
  unfold uvarintLen.
  assert (G : ∀ f n l, 1 ≤ l → 1 ≤ uvarintLen_loop f n l); [|apply G; lia].
  induction f as [|f IH]; intros m l Hl; cbn [uvarintLen_loop]; [done|].
  destruct (128 <=? m); [apply IH; lia|done].
Qed.

Lemma uvarintLen_small n : 0 ≤ n < 128 → uvarintLen n = 1.
Proof. intros. rewrite uvarintLen_put, put_uvarint_small by lia. done. Qed.

Lemma zlen_packed key p b0x :
  packed_ok key p b0x → zlen (packed_appendTo p []) = pk_size p.
Proof.
  intros H. rewrite (packed_appendTo_eq _ _ _ _ H), (po_size _ _ _ H).
  pose proof (po_min _ _ _ H) as Hm. unfold packMinDigits, packMaxDigits in Hm.
  rewrite uvarintLen_small by (Z.div_mod_to_equations; lia).
  rewrite !zlen_app, zlen_payload_of by apply (po_even _ _ _ H).
  unfold prefix_part, mask_part. destruct (nonempty _), (_ =? packCaseMix);
    rewrite ?zlen_mask_of, ?zlen_cons; change (@zlen byte []) with 0; lia.
Qed.

Lemma zlen_key_record key : zlen key < 2 ^ 63 → zlen (key_record key) = KeyRecordSize key.
Proof.
  intros H. pose proof (zlen_nonneg key). unfold key_record, KeyRecordSize.
  destruct (packKey key) as [p|] eqn:E.
  - destruct (packKey_ok _ _ E) as [b0x Hok]. rewrite (zlen_packed _ _ _ Hok).
    destruct (Z.eqb_spec (zlen key) 0) as [Hz|]; [|done].
    unfold packKey in E. rewrite Hz in E. done.
  - destruct (zlen key =? 0); [done|]. unfold recordBytes.
    rewrite zlen_app, uvarintLen_put; lia.
Qed.

(** ** Reading a record back *)

Lemma zslice_at {A} (l l1 m l3 : list A) i j :
  l = l1 ++ m ++ l3 → i = zlen l1 → j = i + zlen m → zslice l i j = Some m.
Proof. intros -> -> ->. by apply zslice_app. Qed.

Lemma zslice_tail {A} (l l1 m : list A) i :
  l = l1 ++ m → i = zlen l1 → zslice l i (zlen l) = Some m.
Proof.
  intros -> ->. apply (zslice_at _ l1 m []); [by rewrite app_nil_r|done|]. rewrite zlen_app. lia.
Qed.

Definition record_parts (p : packedKey) : packedParts :=
  mkParts (pk_flags p) (pk_prefix p) (mask_part (pk_digits p)) (payload_of (pk_digits p)) (pk_size p).

Lemma read_prefix rec e f pre rest :
  rec = [e; f] ++ prefix_part pre ++ rest → zlen pre ≤ packMaxPrefix →
  (if nonempty pre then
     nb ← or_panic (znth rec 2) oob;
     let n := bz nb in
     prefix ← or_panic (zslice rec 3 (3 + n)) oob; Ret (prefix, 2 + (1 + n))
   else Ret ([], 2)) = Ret (pre, 2 + zlen (prefix_part pre)).
Proof.
  unfold packMaxPrefix. intros Er Hl. destruct pre as [|c pre]; [done|]. cbn [nonempty].
  pose proof (zlen_nonneg (c :: pre)). unfold prefix_part in *. cbn [nonempty] in *.
  remember (c :: pre) as pr. change (znth rec 2) with (rec !! 2%nat). rewrite Er at 1.
  cbn [app lookup list_lookup or_panic]. rewrite res_bind_ret, bz_zb, Z.mod_small by lia.
  rewrite (zslice_at rec [e; f; zb (zlen pr)] pr rest); [|by rewrite Er|done|done].
  cbn [or_panic]. by rewrite res_bind_ret, zlen_cons.
Qed.

Lemma parse_record key p b0x suf :
  packed_ok key p b0x → parse (packed_appendTo p [] ++ suf) = Ret (record_parts p).
Proof.
  intros H. pose proof (zlen_packed _ _ _ H) as Hz. rewrite (packed_appendTo_eq _ _ _ _ H) in *.
  pose proof (po_min _ _ _ H) as Hm. pose proof (po_prefix _ _ _ H) as Hpl. pose proof (po_even _ _ _ H) as He.
  unfold packMinDigits, packMaxDigits, packMaxPrefix in *.
  assert (Hn : 0 ≤ zlen (pk_digits p) / 2 < 128) by (Z.div_mod_to_equations; lia).
  destruct (mkflags_spec (pk_digits p) b0x (nonempty (pk_prefix p))) as (_ & Hp & Hc & Hne & Hr).
  rewrite <- (po_flags _ _ _ H) in *.
  unfold parse, record_parts. set (d := pk_digits p) in *. set (pre := pk_prefix p) in *.
  set (f := pk_flags p) in *. set (n := zlen d / 2) in *.
  set (rec := _ ++ suf).
  assert (Er : rec = [packEscape; zb f] ++ prefix_part pre ++ [zb n] ++ mask_part d ++ payload_of d ++ suf).
  { unfold rec. by rewrite <- ?app_assoc. }
  clearbody rec. change (znth rec 1) with (rec !! 1%nat). rewrite Er at 1. cbn [lookup list_lookup app].
  cbn [or_panic]. rewrite res_bind_ret, bz_zb, Z.mod_small by lia.
  destruct (Z.eqb_spec f packEmpty); [done|]. rewrite Hp, Hc.
  set (i := 2 + zlen (prefix_part pre)).
  match goal with |- (?X ≫= _) = _ => assert (EX : X = Ret (pre, i)) end.
  { by eapply read_prefix. }
  rewrite EX, res_bind_ret. clear EX.
  rewrite (zslice_tail rec ([packEscape; zb f] ++ prefix_part pre) ([zb n] ++ mask_part d ++ payload_of d ++ suf));
    [|by rewrite Er, <- ?app_assoc|by rewrite zlen_app].
  cbn [or_panic]. rewrite res_bind_ret. rewrite <- (put_uvarint_small n) by lia.
  rewrite uvarint_put by lia. rewrite put_uvarint_small, i64_id by lia. change (zlen [zb n]) with 1.
  match goal with |- (?X ≫= _) = _ => assert (EX : X = Ret (mask_part d, i + 1 + zlen (mask_part d))) end.
  { unfold mask_part. destruct (case_of d =? packCaseMix) eqn:Ec; [|by rewrite Z.add_0_r].
    assert (Em : Z.quot (n * 2 + 7) 8 = zlen (mask_of d)).
    { rewrite zlen_mask_of, Z.quot_div_nonneg by lia. f_equal. lia. }
    rewrite Em. rewrite (zslice_at rec ([packEscape; zb f] ++ prefix_part pre ++ [zb n]) (mask_of d) (payload_of d ++ suf));
      [done|unfold mask_part in Er; rewrite Ec in Er; by rewrite Er, <- ?app_assoc| |done].
    rewrite !zlen_app. unfold i. change (zlen [zb n]) with 1. change (zlen [packEscape; zb f]) with 2. lia. }
  rewrite EX, res_bind_ret. clear EX. pose proof (zlen_payload_of d He) as Hpay.
  rewrite (zslice_at rec ([packEscape; zb f] ++ prefix_part pre ++ [zb n] ++ mask_part d) (payload_of d) suf);
    [|by rewrite Er, <- ?app_assoc| |by rewrite Hpay].
  - cbn [or_panic]. rewrite res_bind_ret. f_equal. f_equal. rewrite <- Hz. rewrite !zlen_app, Hpay.
    unfold i. change (zlen [zb n]) with 1. change (zlen [packEscape; zb f]) with 2. change (zlen []) with 0. lia.
  - rewrite !zlen_app. unfold i. change (zlen [zb n]) with 1. change (zlen [packEscape; zb f]) with 2. lia.
Qed.

(** ** The case mask *)

Definition bit_at (m : list byte) (q : nat) : bool :=
  match m !! (q / 8)%nat with Some b => Z.testbit (bz b) (Z.of_nat (q mod 8)) | None => false end.

Definition is_upper (b : byte) : bool := hexClass b =? 4.

Definition upper_at (d : list byte) (q : nat) : bool :=
  match d !! q with Some b => is_upper b | None => false end.

Lemma bit_at_set m i q :
  (i / 8 < length m)%nat →
  bit_at (alter (fun b => zb (Z.lor (bz b) (Z.shiftl 1 (Z.land (Z.of_nat i) 7)))) (i / 8)%nat m) q
  = bit_at m q || (i =? q)%nat.
Proof.
  intros Hi. unfold bit_at. change 7 with (2 ^ 3 - 1). rewrite land_mask, Z.shiftl_1_l by lia.
  change (2 ^ 3) with 8. replace (Z.of_nat i mod 8) with (Z.of_nat (i mod 8)) by (by rewrite Nat2Z.inj_mod).
  pose proof (Nat.mod_upper_bound q 8 ltac:(lia)). pose proof (Nat.mod_upper_bound i 8 ltac:(lia)).
  pose proof (Nat.div_mod_eq q 8). pose proof (Nat.div_mod_eq i 8).
  destruct (decide (i / 8 = q / 8)%nat) as [E|Hne].
  - rewrite <- E, list_lookup_alter_eq. destruct (lookup_lt_is_Some_2 m _ Hi) as [b Hb]. rewrite Hb.
    cbn [fmap option_fmap option_map].
    rewrite bz_zb. change 256 with (2 ^ 8). rewrite Z.mod_pow2_bits_low by lia.
    rewrite Z.lor_spec. f_equal. rewrite Z.pow2_bits_eqb by lia.
    destruct (Z.eqb_spec (Z.of_nat (i mod 8)) (Z.of_nat (q mod 8))), (Nat.eqb_spec i q); first [done | exfalso; subst; lia].
  - rewrite list_lookup_alter_ne by done.
    destruct (Nat.eqb_spec i q); [subst; done|]. by rewrite orb_false_r.
Qed.

Lemma mask_loop_bits d : ∀ i m q,
  (i + length d ≤ 8 * length m)%nat →
  bit_at (mask_loop d i m) q = bit_at m q || ((i <=? q)%nat && upper_at d (q - i)).
Proof.
  induction d as [|b d IH]; intros i m q Hl; cbn [mask_loop length] in *.
  - unfold upper_at. by rewrite lookup_nil, andb_false_r, orb_false_r.
  - rewrite IH by (destruct (_ =? 4); rewrite ?length_alter; lia).
    assert (Hi : (i / 8 < length m)%nat) by (apply Nat.Div0.div_lt_upper_bound; lia).
    assert (Eu : (i <=? q)%nat && upper_at (b :: d) (q - i)
                 = (i =? q)%nat && is_upper b || (S i <=? q)%nat && upper_at d (q - S i)).
    { destruct (Nat.eqb_spec i q) as [->|].
      - rewrite Nat.sub_diag, Nat.leb_refl. destruct (Nat.leb_spec (S q) q); [lia|].
        cbn. by rewrite orb_false_r.
      - cbn [andb orb]. destruct (Nat.leb_spec i q), (Nat.leb_spec (S i) q); try lia; try done.
        unfold upper_at. by replace (q - i)%nat with (S (q - S i)) by lia. }
    rewrite Eu. unfold is_upper. destruct (hexClass b =? 4).
    + rewrite bit_at_set by done. by rewrite andb_true_r, orb_assoc.
    + by rewrite andb_false_r.
Qed.

Lemma mask_of_bit d q : (q < length d)%nat → bit_at (mask_of d) q = upper_at d q.
Proof.
  intros Hq. unfold mask_of. rewrite mask_loop_bits.
  - rewrite Nat.sub_0_r. cbn [Nat.leb andb]. unfold bit_at at 1.
    destruct (_ !! _) as [b|] eqn:E; [|done]. apply lookup_replicate in E as [-> _]. cbn.
    by rewrite Z.bits_0.
  - rewrite length_replicate. unfold zlen. Z.div_mod_to_equations; lia.
Qed.

Lemma low_two_bits x : Z.land x 3 = Z.b2z (Z.testbit x 0) + 2 * Z.b2z (Z.testbit x 1).
Proof.
  change 3 with (2 ^ 2 - 1). rewrite land_mask, !Z.testbit_spec' by lia.
  change (2 ^ 2) with (2 * 2). rewrite Z.rem_mul_r by lia. by rewrite Z.div_1_r.
Qed.

Lemma mask_bits_ok d j :
  (2 * j + 1 < length d)%nat →
  mask_bits (mask_of d) (Z.of_nat j)
  = Ret (Z.b2z (upper_at d (2 * j)) + 2 * Z.b2z (upper_at d (2 * j + 1))).
Proof.
  intros Hj. unfold mask_bits. rewrite shiftr_div by lia. change (2 ^ 2) with 4.
  change 3 with (2 ^ 2 - 1) at 1. rewrite land_mask by lia. change (2 ^ 2) with 4.
  rewrite <- !mask_of_bit by lia. unfold bit_at.
  assert (E1 : (2 * j / 8 = j / 4)%nat) by dlia.
  assert (E2 : ((2 * j + 1) / 8 = j / 4)%nat) by dlia.
  rewrite E1, E2. replace (Z.of_nat j / 4) with (Z.of_nat (j / 4)) by (by rewrite Nat2Z.inj_div).
  rewrite znth_lookup, Nat2Z.id by lia.
  assert (Hlt : (j / 4 < length (mask_of d))%nat).
  { pose proof (zlen_mask_of d) as Hz. unfold zlen in Hz. dlia. }
  destruct (lookup_lt_is_Some_2 _ _ Hlt) as [m ->]. cbn [or_panic]. rewrite res_bind_ret. f_equal.
  rewrite low_two_bits, !Z.shiftr_spec by lia. do 2 f_equal; [|f_equal]; f_equal; dlia.
Qed.

(** ** Decoding the digits *)

Definition pack_pair (d0 d1 : byte) : byte :=
  zb (Z.lor (u8 (Z.shiftl (u8 (hexNibble d0)) 4)) (u8 (hexNibble d1))).

Lemma pack_pair_nibbles d0 d1 :
  is_hex d0 → is_hex d1 →
  Z.shiftr (bz (pack_pair d0 d1)) 4 = hexNibble d0 ∧ Z.land (bz (pack_pair d0 d1)) 15 = hexNibble d1.
Proof.
  intros H0%hexNibble_range H1%hexNibble_range. unfold pack_pair, u8.
  rewrite (Z.mod_small (hexNibble d0)), (Z.mod_small (hexNibble d1)), Z.shiftl_mul_pow2 by lia.
  rewrite (Z.mod_small (_ * _)), <- Z.shiftl_mul_pow2, lor_shiftl_add, bz_zb, Z.mod_small by lia.
  change 15 with (2 ^ 4 - 1). rewrite shiftr_div, land_mask by lia. split; dlia.
Qed.

Lemma case_low d : case_of d = packCaseLow → Forall (fun b => is_upper b = false) d.
Proof.
  unfold case_of. destruct (ex_class 4 d) eqn:E; [by destruct (ex_class 2 d)|]. intros _.
  induction d as [|b d IH]; constructor; unfold ex_class in E; cbn in E; apply orb_false_iff in E as [??]; auto.
Qed.

Lemma case_up d : case_of d = packCaseUp → Forall (fun b => hexClass b ≠ 2) d.
Proof.
  unfold case_of. destruct (ex_class 2 d) eqn:E; [by destruct (ex_class 4 d)|]. intros _.
  induction d as [|b d IH]; constructor; unfold ex_class in E; cbn in E; apply orb_false_iff in E as [H?]; auto.
  by apply Z.eqb_neq in H.
Qed.

Lemma case_shift (u0 u1 : bool) :
  let bits := Z.b2z u0 + 2 * Z.b2z u1 in
  Z.shiftl (Z.land bits 1) 5 = (if u0 then 32 else 0) ∧
  Z.shiftl (Z.shiftr bits 1) 5 = (if u1 then 32 else 0).
Proof. by destruct u0, u1. Qed.

(** The pair written for payload byte [j] of the digits [d]. *)
Lemma decode_pair d j d0 d1 c :
  c = case_of d → Forall is_hex d → d !! (2 * j)%nat = Some d0 → d !! (2 * j + 1)%nat = Some d1 →
  (let '(c0, c1) := if c =? packCaseUp then hexPairUpper (pack_pair d0 d1) else hexPairLower (pack_pair d0 d1) in
   if c =? packCaseMix then
     bits ← mask_bits (if c =? packCaseMix then mask_of d else []) (Z.of_nat j);
     Ret (zb (bz c0 - Z.shiftl (Z.land bits 1) 5), zb (bz c1 - Z.shiftl (Z.shiftr bits 1) 5))
   else Ret (c0, c1)) = Ret (d0, d1).
Proof.
  intros -> Hh H0 H1.
  pose proof (proj1 (Forall_lookup _ _) Hh _ _ H0) as X0. pose proof (proj1 (Forall_lookup _ _) Hh _ _ H1) as X1.
  cbn beta in X0, X1. destruct (pack_pair_nibbles d0 d1 X0 X1) as [N0 N1].
  unfold hexPairUpper, hexPairLower. rewrite N0, N1.
  pose proof (hex_lower d0 X0) as L0. pose proof (hex_lower d1 X1) as L1.
  destruct (case_of_cases d) as [Ec|[Ec|Ec]]; rewrite Ec; cbn [Z.eqb packCaseLow packCaseUp packCaseMix Pos.eqb].
  - apply case_low in Ec. rewrite Forall_lookup in Ec. pose proof (Ec _ _ H0) as U0. pose proof (Ec _ _ H1) as U1.
    unfold is_upper in U0, U1. rewrite U0, Z.sub_0_r in L0. rewrite U1, Z.sub_0_r in L1.
    by rewrite (bz_inj _ _ L0), (bz_inj _ _ L1).
  - apply case_up in Ec. rewrite Forall_lookup in Ec. pose proof (Ec _ _ H0) as U0. pose proof (Ec _ _ H1) as U1.
    by rewrite !hex_upper.
  - pose proof (lookup_lt_Some _ _ _ H1). rewrite mask_bits_ok, res_bind_ret by lia.
    unfold upper_at. rewrite H0, H1. destruct (case_shift (is_upper d0) (is_upper d1)) as [-> ->].
    unfold is_upper. by rewrite L0, L1, !zb_bz.
Qed.

Lemma appendKey_digits p tot pre d : ∀ k j rest,
  Forall is_hex d → Z.land (pp_flags p) packCaseMask = case_of d →
  p = mkParts (pp_flags p) pre (mask_part d) (payload_of d) tot →
  drop (2 * j) d = rest → length rest = (2 * k)%nat →
  appendKey_loop p (payload_of rest) (Z.of_nat j) = Ret rest.
Proof.
  induction k as [|k IH]; intros j rest Hh Hf Hp Hd Hl; [by destruct rest|].
  destruct rest as [|d0 [|d1 rest]]; cbn [length] in Hl; try lia.
  assert (H0 : d !! (2 * j)%nat = Some d0) by (rewrite <- (Nat.add_0_r (2 * j)), <- lookup_drop, Hd; done).
  assert (H1 : d !! (2 * j + 1)%nat = Some d1) by (rewrite <- lookup_drop, Hd; done).
  cbn [payload_of appendKey_loop]. fold (pack_pair d0 d1). rewrite Hf.
  pose proof (decode_pair d j d0 d1 _ eq_refl Hh H0 H1) as E.
  replace (pp_mask p) with (if case_of d =? packCaseMix then mask_of d else []) by (by rewrite Hp).
  destruct (if case_of d =? packCaseUp then _ else _) as [c0 c1]. rewrite E, res_bind_ret.
  replace (Z.of_nat j + 1) with (Z.of_nat (S j)) by lia.
  rewrite (IH (S j) rest); [by rewrite res_bind_ret|done..| |lia].
  replace (2 * S j)%nat with (2 * j + 2)%nat by lia. by rewrite <- drop_drop, Hd.
Qed.

Lemma appendKey_record key p b0x dst :
  packed_ok key p b0x → parts_appendKey (record_parts p) dst = Ret (dst ++ key).
Proof.
  intros H. destruct (mkflags_spec (pk_digits p) b0x (nonempty (pk_prefix p))) as (H0 & Hp & Hc & Hne & Hr).
  rewrite <- (po_flags _ _ _ H) in *. unfold parts_appendKey. cbn [record_parts pp_flags pp_prefix pp_payload].
  destruct (Z.eqb_spec (pk_flags p) packEmpty); [done|]. rewrite H0. fold (record_parts p).
  pose proof (po_even _ _ _ H) as He. pose proof (zlen_nonneg (pk_digits p)).
  change 0 with (Z.of_nat 0). rewrite (appendKey_digits (record_parts p) (pk_size p) (pk_prefix p) (pk_digits p)
    (Z.to_nat (zlen (pk_digits p) / 2))); try done.
  - rewrite res_bind_ret, (po_split _ _ _ H) at 1. f_equal. unfold marker.
    destruct b0x; by rewrite <- ?app_assoc.
  - apply (po_hex _ _ _ H).
  - unfold zlen in *. dlia.
Qed.

(** ** Comparing without decoding *)

Lemma pair_word_eq c0 c1 d0 d1 :
  pair_word (c0, c1) = pair_word (d0, d1) ↔ c0 = d0 ∧ c1 = d1.
Proof.
  unfold pair_word. cbn [fst snd]. pose proof (bz_range c0). pose proof (bz_range c1).
  pose proof (bz_range d0). pose proof (bz_range d1).
  rewrite !(Z.lor_comm (bz _)), !lor_shiftl_add by lia. split; [|by intros [-> ->]].
  intros E. split; apply bz_inj; lia.
Qed.

(** Lowering the flagged letters in the 16-bit word lowers each character. *)
Lemma word_mixed b u0 u1 :
  let bits := Z.b2z u0 + 2 * Z.b2z u1 in
  u16 (hexWordLower b - u16 (Z.land bits 1 * 32 + u16 (Z.shiftl (Z.shiftr bits 1) 13)))
  = pair_word (zb (bz (fst (hexPairLower b)) - Z.shiftl (Z.land bits 1) 5),
               zb (bz (snd (hexPairLower b)) - Z.shiftl (Z.shiftr bits 1) 5)).
Proof. destruct u0, u1, b; vm_compute; reflexivity. Qed.

Lemma mask_bits_two m j bits :
  mask_bits m j = Ret bits → ∃ u0 u1, bits = Z.b2z u0 + 2 * Z.b2z u1.
Proof.
  unfold mask_bits. destruct (znth m _) as [b|]; [|done]. cbn [or_panic]. rewrite res_bind_ret.
  intros [= <-]. rewrite low_two_bits. eauto.
Qed.

Lemma drop_pair (rest : list byte) j c0 c1 :
  0 ≤ j → znth rest (2 * j) = Some c0 → znth rest (2 * j + 1) = Some c1 →
  drop (Z.to_nat (2 * j)) rest = c0 :: c1 :: drop (Z.to_nat (2 * (j + 1))) rest.
Proof.
  intros Hj. rewrite !znth_lookup by lia. intros H0 H1.
  rewrite (drop_S _ _ _ H0). f_equal. replace (S (Z.to_nat (2 * j))) with (Z.to_nat (2 * j + 1)) by lia.
  rewrite (drop_S _ _ _ H1). f_equal. f_equal. lia.
Qed.

Lemma equals_loop_ok p : ∀ payload j rest out,
  0 ≤ j → zlen rest = 2 * (j + zlen payload) → appendKey_loop p payload j = Ret out →
  equals_loop p payload j rest = Ret (bool_decide (drop (Z.to_nat (2 * j)) rest = out)).
Proof.
  induction payload as [|b payload IH]; intros j rest out Hj Hl Ea; cbn [appendKey_loop equals_loop] in *.
  - injection Ea as <-. change (@zlen byte []) with 0 in Hl. rewrite drop_ge by (unfold zlen in Hl; lia). done.
  - rewrite zlen_cons in Hl. pose proof (zlen_nonneg payload).
    destruct (znth_is_Some rest (2 * j) ltac:(lia)) as [c0 E0].
    destruct (znth_is_Some rest (2 * j + 1) ltac:(lia)) as [c1 E1].
    rewrite E0, E1. cbn [or_panic]. rewrite (drop_pair _ _ _ _ Hj E0 E1).
    assert (Hw : ∃ o0 o1 out',
      out = o0 :: o1 :: out' ∧ appendKey_loop p payload (j + 1) = Ret out' ∧
      (if Z.land (pp_flags p) packCaseMask =? packCaseMix then
         bits ← mask_bits (pp_mask p) j;
         Ret (u16 ((if Z.land (pp_flags p) packCaseMask =? packCaseUp then hexWordUpper b else hexWordLower b)
                   - u16 (Z.land bits 1 * 32 + u16 (Z.shiftl (Z.shiftr bits 1) 13))))
       else Ret (if Z.land (pp_flags p) packCaseMask =? packCaseUp then hexWordUpper b else hexWordLower b))
      = Ret (pair_word (o0, o1))).
    { destruct (Z.eqb_spec (Z.land (pp_flags p) packCaseMask) packCaseMix) as [Em|Em].
      - rewrite Em in *. cbn [packCaseMix packCaseUp Z.eqb Pos.eqb] in *.
        destruct (hexPairLower b) as [l0 l1] eqn:Ep.
        destruct (mask_bits (pp_mask p) j) as [bits| |] eqn:Eb; [|done..]. rewrite res_bind_ret in *.
        destruct (mask_bits_two _ _ _ Eb) as (u0 & u1 & ->).
        rewrite word_mixed, Ep. cbn [fst snd].
        destruct (appendKey_loop p payload (j + 1)) as [out'| |] eqn:Eo; [|done..];
          rewrite res_bind_ret in Ea; injection Ea as <-. eauto 6.
      - destruct (if Z.land (pp_flags p) packCaseMask =? packCaseUp then hexPairUpper b else hexPairLower b)
          as [l0 l1] eqn:Ep. rewrite res_bind_ret in Ea. destruct (appendKey_loop p payload (j + 1)) as [out'| |] eqn:Eo; [|done..];
          rewrite res_bind_ret in Ea; injection Ea as <-.
        exists l0, l1, out'. split_and!; [done..|]. f_equal. rewrite <- Ep. by destruct (_ =? packCaseUp). }
    destruct Hw as (o0 & o1 & out' & -> & Eo & Ew). rewrite Ew, !res_bind_ret.
    rewrite (IH (j + 1) rest out') by (done || lia).
    destruct (Z.eqb_spec (pair_word (c0, c1)) (pair_word (o0, o1))) as [E|E]; rewrite pair_word_eq in E; cbn [negb].
    + destruct E as [-> ->]. f_equal. apply bool_decide_ext. split; congruence.
    + f_equal. symmetry. apply bool_decide_eq_false. intros [= -> -> _]. by destruct E.
Qed.

Lemma keyLen_record key p b0x : packed_ok key p b0x → parts_keyLen (record_parts p) = zlen key.
Proof.
  intros H. destruct (mkflags_spec (pk_digits p) b0x (nonempty (pk_prefix p))) as (H0 & Hp & Hc & Hne & Hr).
  rewrite <- (po_flags _ _ _ H) in *. unfold parts_keyLen. cbn [record_parts pp_flags pp_prefix pp_payload].
  destruct (Z.eqb_spec (pk_flags p) packEmpty); [done|]. rewrite H0.
  pose proof (po_even _ _ _ H). rewrite zlen_payload_of by done.
  rewrite (po_split _ _ _ H), !zlen_app. destruct b0x; cbn [marker]; [change (zlen [x30; x78]) with 2|change (@zlen byte []) with 0]; lia.
Qed.

Lemma split_len {A} (l : list A) n : 0 ≤ n ≤ zlen l → ∃ a b, l = a ++ b ∧ zlen a = n ∧ zlen b = zlen l - n.
Proof.
  intros. exists (take (Z.to_nat n) l), (drop (Z.to_nat n) l). rewrite take_drop.
  unfold zlen in *. rewrite length_take, length_drop. split_and!; [done|lia..].
Qed.

Lemma negb_bd_bz c k : negb (bz c =? bz k) = negb (bool_decide (c = k)).
Proof.
  destruct (Z.eqb_spec (bz c) (bz k)) as [E|E].
  - by rewrite bool_decide_true by by apply bz_inj.
  - rewrite bool_decide_false; [done|]. by intros ->.
Qed.

(** Two lists cut at the same place are equal when both pieces are. *)
Lemma bd_app {A} `{EqDecision A} (a b c d : list A) :
  zlen a = zlen c → bool_decide (a ++ b = c ++ d) = bool_decide (a = c) && bool_decide (b = d).
Proof.
  intros H. rewrite <- bool_decide_and. apply bool_decide_ext. split; [|by intros [-> ->]].
  intros E. apply app_inj_1 in E; [done|]. unfold zlen in H. lia.
Qed.

Lemma bd_cons {A} `{EqDecision A} (x y : A) (b d : list A) :
  bool_decide (x :: b = y :: d) = bool_decide (x = y) && bool_decide (b = d).
Proof. rewrite <- bool_decide_and. apply bool_decide_ext.
  split; [by intros [= -> ->]|by intros [-> ->]]. Qed.

Lemma equals_record key p b0x key' :
  packed_ok key p b0x → parts_equals (record_parts p) key' = Ret (bool_decide (key' = key)).
Proof.
  intros H. pose proof (keyLen_record _ _ _ H) as Hlen.
  destruct (mkflags_spec (pk_digits p) b0x (nonempty (pk_prefix p))) as (H0 & Hp & Hc & Hne & Hr).
  rewrite <- (po_flags _ _ _ H) in *. unfold parts_equals. rewrite Hlen.
  pose proof (appendKey_digits (record_parts p) (pk_size p) (pk_prefix p) (pk_digits p)
    (Z.to_nat (zlen (pk_digits p) / 2)) 0 (pk_digits p) (po_hex _ _ _ H) Hc eq_refl eq_refl) as Ea.
  pose proof (po_even _ _ _ H) as He. pose proof (zlen_nonneg (pk_digits p)).
  specialize (Ea ltac:(unfold zlen in *; dlia)). pose proof (zlen_payload_of _ He) as Hpay.
  remember (record_parts p) as parts eqn:Eparts.
  assert (Ef : pp_flags parts = pk_flags p ∧ pp_prefix parts = pk_prefix p ∧ pp_payload parts = payload_of (pk_digits p))
    by by subst. clear Eparts. destruct Ef as (-> & -> & ->).
  destruct (Z.eqb_spec (pk_flags p) packEmpty); [done|]. rewrite H0.
  pose proof (po_split _ _ _ H) as Hk.
  destruct (Z.eqb_spec (zlen key) (zlen key')) as [El|El]; cbn [negb];
    [|symmetry; f_equal; apply bool_decide_eq_false; by intros ->].
  assert (Hm : zlen (marker b0x) = if b0x then 2 else 0) by by destruct b0x.
  pose proof (zlen_nonneg (pk_prefix p)). rewrite Hk, !zlen_app, Hm in El.
  destruct (split_len key' (zlen (pk_prefix p))) as (a & b & -> & Ha & Hb); [destruct b0x; lia|].
  rewrite zlen_app, Ha in El, Hb. rewrite Hk, (bd_app a) by done.
  rewrite (zslice_at _ [] a b); [|done|done|by rewrite Ha]. cbn [or_panic]. rewrite res_bind_ret.
  rewrite (bool_decide_ext (pk_prefix p = a) (a = pk_prefix p)) by done.
  destruct (bool_decide (a = pk_prefix p)); cbn [negb andb]; [|done].
  destruct b0x; cbn [marker app] in *.
  - destruct b as [|k0 [|k1 b]]; try (rewrite ?zlen_cons in El; change (@zlen byte []) with 0 in El; lia).
    rewrite !zlen_cons in El. rewrite !znth_app_r by lia.
    replace (zlen (pk_prefix p) - zlen a) with 0 by lia. replace (zlen (pk_prefix p) + 1 - zlen a) with 1 by lia.
    change (znth (k0 :: k1 :: b) 0) with (Some k0). change (znth (k0 :: k1 :: b) 1) with (Some k1).
    cbn [or_panic]. rewrite !res_bind_ret. change 48 with (bz x30). change 120 with (bz x78).
    rewrite !negb_bd_bz, !bd_cons. destruct (bool_decide (k0 = x30)); cbn [negb andb]; [|done].
    destruct (bool_decide (k1 = x78)); cbn [negb andb]; [|done]. rewrite res_bind_ret. cbn [negb].
    rewrite (zslice_tail _ (a ++ [k0; k1]) b); [|by rewrite <- app_assoc|rewrite zlen_app, Ha; done].
    cbn [or_panic]. rewrite res_bind_ret. by rewrite (equals_loop_ok _ _ 0 b (pk_digits p)) by (lia || exact Ea).
  - rewrite res_bind_ret. cbn [negb]. rewrite (zslice_tail _ a b) by done.
    cbn [or_panic]. rewrite res_bind_ret. by rewrite (equals_loop_ok _ _ 0 b (pk_digits p)) by (lia || exact Ea).
Qed.

Lemma KeyRecordSize_bounds k : 0 ≤ KeyRecordSize k ∧ zlen k ≤ KeyRecordSize k + 385.
Proof.
  unfold KeyRecordSize. pose proof (zlen_nonneg k).
  destruct (Z.eqb_spec (zlen k) 0); [lia|]. destruct (packKey k) as [p|] eqn:E.
  - destruct (packKey_ok _ _ E) as [b0x Hok]. rewrite <- (zlen_packed _ _ _ Hok).
    pose proof (zlen_nonneg (packed_appendTo p [])). split; [done|]. rewrite (po_split _ _ _ Hok), !zlen_app.
    pose proof (po_min _ _ _ Hok) as Hm. pose proof (po_prefix _ _ _ Hok) as Hp. unfold packMaxDigits, packMaxPrefix in *.
    assert (zlen (marker b0x) ≤ 2) by (by destruct b0x). lia.
  - unfold recordBytes. pose proof (uvarintLen_pos (zlen k)). lia.
Qed.
