(* ===== verification/Table.v ===== *)
(** * Open-addressed key index ([internal/index/table.go])

    A table keeps one 64-bit word per slot (live bit, six hash bits, a 27-bit
    value, the 30-bit offset of the key record) and an append-only log of key
    records.  The seeded string hash of the Go runtime and the growth policy of
    Go's [append] are arguments of the definitions that use them.  The proofs
    about the table are in the files [TableFacts] and [TableSpec]. *)
From S2P Require Import Prelude KeyPack.

(** ** Slot words *)

Definition liveBit : Z := Z.shiftl 1 63.
Definition slotTombstone : Z := 1.
Definition fingerprintShift : Z := 57.
Definition fingerprintMask : Z := 63.
Definition valueShift : Z := 30.
Definition valueMask : Z := Z.shiftl 1 27 - 1.
Definition offsetMask : Z := Z.shiftl 1 30 - 1.
Definition MaxValue : Z := valueMask.
Definition maxLogBytes : Z := offsetMask + 1.
Definition initialCapacity : Z := 4.
Definition slotSize : Z := 8.
Definition minCompactLogBytes : Z := 4096.
Definition gradualGrowthMin : Z := 256.

Definition slotWord (fingerprint value offset : Z) : Z :=
  Z.lor (Z.lor (Z.lor liveBit (Z.shiftl fingerprint fingerprintShift)) (Z.shiftl value valueShift)) offset.
Definition slotFingerprint (w : Z) : Z := Z.land (Z.shiftr w fingerprintShift) fingerprintMask.
Definition slotValue (w : Z) : Z := u32 (Z.land (Z.shiftr w valueShift) valueMask).
Definition slotOffset (w : Z) : Z := u32 (Z.land w offsetMask).
Definition isLive (w : Z) : bool := negb (Z.land w liveBit =? 0).

Definition tinyFilterBits (hash : Z) : Z :=
  Z.lor (u32 (Z.shiftl 1 (Z.land hash 31))) (u32 (Z.shiftl 1 (Z.land (Z.shiftr hash 32) 31))).
Definition hashFingerprint (hash : Z) : Z := Z.land (Z.shiftr hash 58) fingerprintMask.

(** ** The table *)

Record Table := mkTable {
  slots : list Z;
  log : list byte;
  logcap : Z;
  deadBytes : Z;
  count : Z;
  tinyFilter : Z
}.

(** [New], and the zero table. *)
Definition New : Table := mkTable [] [] 0 0 0 0.

Definition Len (t : Table) : Z := count t.

Definition set_slots (t : Table) (s : list Z) (c : Z) : Table :=
  mkTable s (log t) (logcap t) (deadBytes t) c (tinyFilter t).
Definition set_log (t : Table) (l : list byte) (cap : Z) : Table :=
  mkTable (slots t) l cap (deadBytes t) (count t) (tinyFilter t).
Definition set_filter (t : Table) (f : Z) : Table :=
  mkTable (slots t) (log t) (logcap t) (deadBytes t) (count t) f.

(** ** Capacity rules *)

Definition CapacityBytes (t : Table) : Z := zlen (slots t) * slotSize.
Definition KeyLogBytes (t : Table) : Z := logcap t.
Definition EntryBytes : Z := slotSize.

Definition capacityAccepts (n capacity : Z) : bool :=
  if capacity =? initialCapacity then n <=? capacity else n <=? capacity * 8 / 10.

Fixpoint tight_loop (fuel : nat) (n capacity : Z) : Z :=
  match fuel with
  | O => capacity
  | S f => if capacityAccepts n capacity then capacity else tight_loop f n (capacity + 8)
  end.

Definition tightCapacity (n : Z) : Z :=
  if n <=? initialCapacity then initialCapacity else
  let capacity := (n * 5 + 3) / 4 in
  let capacity := Z.ldiff (capacity + 7) 7 in
  tight_loop 1 n capacity.

Fixpoint capacity_loop (fuel : nat) (n capacity : Z) : Z :=
  match fuel with
  | O => capacity
  | S f =>
      if capacityAccepts n capacity then capacity
      else if capacity <? gradualGrowthMin then capacity_loop f n (capacity * 2)
      else capacity_loop f n (tightCapacity (n + n / 2))
  end.

Definition capacityFor (t : Table) (n : Z) : Z :=
  let capacity := zlen (slots t) in
  if n =? 0 then capacity else
  let capacity := if capacity =? 0 then initialCapacity else capacity in
  capacity_loop 10 n capacity.

Definition GrowthBytes (t : Table) (additional : Z) : Z :=
  u64 (capacityFor t (count t + additional) - zlen (slots t)) * slotSize.

(** ** Reading key records *)

Definition probeStart (t : Table) (hash : Z) : Z :=
  Z.shiftr (u32 hash * zlen (slots t)) 32.

(** [keyRecord]: start and length of the key of a raw record. *)
Definition keyRecord (t : Table) (offset : Z) : res (Z * Z) :=
  b ← or_panic (zslice (log t) offset (zlen (log t))) oob;
  b0 ← or_panic (znth b 0) oob;
  if bz b0 <? 128 then Ret (offset + 1, bz b0)
  else let '(v, w) := uvarint b in Ret (offset + w, i64 v).

(** The raw key bytes, as [unsafe.String(&t.log[start], n)]. *)
Definition raw_key (t : Table) (offset : Z) : res (list byte) :=
  '(start, n) ← keyRecord t offset;
  if n =? 0 then Ret []
  else or_panic (zslice (log t) start (start + n)) oob.

Definition keyAt (t : Table) (offset : Z) : res (list byte) :=
  b0 ← or_panic (znth (log t) offset) oob;
  if bool_decide (b0 = packEscape) then
    rec ← or_panic (zslice (log t) offset (zlen (log t))) oob;
    parts ← parse rec;
    parts_appendKey parts []
  else raw_key t offset.

Definition keyEquals (t : Table) (offset : Z) (key : list byte) : res bool :=
  b ← or_panic (zslice (log t) offset (zlen (log t))) oob;
  b0 ← or_panic (znth b 0) oob;
  if bool_decide (b0 = packEscape) then
    parts ← parse b; parts_equals parts key
  else
    let '(n, w) :=
      if 128 <=? bz b0 then let '(v, width) := uvarint b in (i64 v, width) else (bz b0, 1) in
    if negb (n =? zlen key) then Ret false
    else s ← or_panic (zslice b w (w + n)) oob; Ret (bool_decide (s = key)).

Definition KeyLen (t : Table) (offset : Z) : res Z :=
  b ← or_panic (zslice (log t) offset (zlen (log t))) oob;
  b0 ← or_panic (znth b 0) oob;
  if bool_decide (b0 = packEscape) then parts ← parse b; Ret (parts_keyLen parts)
  else '(_, n) ← keyRecord t offset; Ret n.

(** [keyChunked]: as [keyAt], packed keys decoded into a shared chunk. *)
Definition keyChunked (t : Table) (chunk : keyChunk) (offset : Z) : res (list byte * keyChunk) :=
  b0 ← or_panic (znth (log t) offset) oob;
  if bool_decide (b0 = packEscape) then
    rec ← or_panic (zslice (log t) offset (zlen (log t))) oob;
    chunk_decode chunk rec
  else k ← keyAt t offset; Ret (k, chunk).

Definition checkValue (value : Z) : res unit :=
  guard_panic (valueMask <? value) "index value exceeds the 27-bit slot capacity" (Ret tt).

(** ** Probing *)

(** [i] at the head of a probe loop: [if i == size { i = 0 }]. *)
Definition wrap (size i : Z) : Z := if i =? size then 0 else i.

Fixpoint get_loop (t : Table) (key : list byte) (fingerprint : Z) (fuel : nat) (i : Z) : res (option Z) :=
  match fuel with
  | O => Ret None
  | S f =>
      let i := wrap (zlen (slots t)) i in
      w ← or_panic (znth (slots t) i) oob;
      if w =? 0 then Ret None
      else if negb (isLive w) || negb (slotFingerprint w =? fingerprint) then get_loop t key fingerprint f (i + 1)
      else
        eq ← keyEquals t (slotOffset w) key;
        if eq : bool then Ret (Some (slotValue w)) else get_loop t key fingerprint f (i + 1)
  end.

(** The tiny-table filter: [true] when it rules the hash out. *)
Definition filtered (t : Table) (hash : Z) : bool :=
  (zlen (slots t) =? initialCapacity) && (count t =? initialCapacity) &&
  negb (Z.land (tinyFilter t) (tinyFilterBits hash) =? tinyFilterBits hash).

Definition GetHashed (t : Table) (key : list byte) (hash : Z) : res (option Z) :=
  if zlen (slots t) =? 0 then Ret None
  else if filtered t hash then Ret None
  else get_loop t key (hashFingerprint hash) (length (slots t)) (probeStart t hash).

Definition GetHashedBytes (t : Table) (key : list byte) (hash : Z) : res (option Z) := GetHashed t key hash.

(** The slot [placeKnownAbsent] writes: the first tombstone before the first
    empty slot, or that empty slot. *)
Fixpoint place_index (s : list Z) (fuel : nat) (i deleted : Z) : res Z :=
  match fuel with
  | O => if 0 <=? deleted then Ret deleted else Panic "index capacity invariant"
  | S f =>
      let i := wrap (zlen s) i in
      w ← or_panic (znth s i) oob;
      if w =? 0 then Ret (if 0 <=? deleted then deleted else i)
      else if isLive w then place_index s f (i + 1) deleted
      else place_index s f (i + 1) (if deleted <? 0 then i else deleted)
  end.

Definition placeKnownAbsent (t : Table) (hash value offset : Z) : res Table :=
  let t :=
    if zlen (slots t) =? initialCapacity
    then set_filter t (Z.lor (tinyFilter t) (tinyFilterBits hash)) else t in
  i ← place_index (slots t) (length (slots t)) (probeStart t hash) (-1);
  s ← or_panic (zupd (slots t) i (slotWord (hashFingerprint hash) value offset)) oob;
  Ret (set_slots t s (u32 (count t + 1))).

(** What the probe of [insertHashed] ends with: a free slot, or the slot of the key. *)
Inductive insert_at := At_free (i : Z) | At_key (i offset : Z).

Fixpoint insert_index (t : Table) (key : list byte) (fingerprint : Z) (fuel : nat) (i deleted : Z) : res insert_at :=
  match fuel with
  | O => if 0 <=? deleted then Ret (At_free deleted) else Panic "index capacity invariant"
  | S f =>
      let i := wrap (zlen (slots t)) i in
      w ← or_panic (znth (slots t) i) oob;
      if w =? 0 then Ret (At_free (if 0 <=? deleted then deleted else i))
      else if isLive w then
        eq ← (if slotFingerprint w =? fingerprint then keyEquals t (slotOffset w) key else Ret false);
        if eq : bool then Ret (At_key i (slotOffset w)) else insert_index t key fingerprint f (i + 1) deleted
      else insert_index t key fingerprint f (i + 1) (if deleted <? 0 then i else deleted)
  end.

(** ** Operations *)

Section Operations.
(** [maphash.String] under the process seed, and the new capacity Go's [append]
    picks for a slice of the given capacity that must hold the given length. *)
Context (maphash : list byte → Z) (growslice : Z → Z → Z).

Definition Hash (key : list byte) : Z := u64 (maphash key).
Definition HashBytes (key : list byte) : Z := u64 (maphash key).

(** [t.log = append(t.log, bs...)]. *)
Definition log_append (t : Table) (bs : list byte) : Table :=
  let n := zlen (log t) + zlen bs in
  set_log t (log t ++ bs) (if n <=? logcap t then logcap t else growslice (logcap t) n).

(** [appendKey]: the offset of the new record and the table with the longer log. *)
Definition appendKey (t : Table) (key : list byte) : res (Z * Table) :=
  let need :=
    match packKey key with
    | Some packed => pk_size packed
    | None => if zlen key =? 0 then 2 else recordBytes (zlen key)
    end in
  guard_panic (maxLogBytes <? zlen (log t) + need) "index key log exceeds its 1 GiB capacity" (
  let t :=
    if logcap t - zlen (log t) <? need then
      let grow := zlen (log t) / 4 in
      let grow := if grow <? 256 then 256 else grow in
      set_log t (log t) (zlen (log t) + need + grow)
    else t in
  let offset := u32 (zlen (log t)) in
  let t :=
    match packKey key with
    | Some packed => log_append t (packed_appendTo packed [])
    | None =>
        if zlen key =? 0 then log_append t [packEscape; zb packEmpty]
        else log_append (log_append t (put_uvarint (zlen key))) key
    end in
  Ret (offset, t)).

Definition recordHash (t : Table) (offset : Z) : res Z :=
  b ← or_panic (zslice (log t) offset (zlen (log t))) oob;
  b0 ← or_panic (znth b 0) oob;
  if bool_decide (b0 = packEscape) then
    parts ← parse b;
    k ← parts_appendKey parts [];
    Ret (HashBytes k)
  else k ← raw_key t offset; Ret (Hash k).

Fixpoint rebuildSlots_loop (t : Table) (old : list Z) : res Table :=
  match old with
  | [] => Ret t
  | w :: rest =>
      if negb (isLive w) then rebuildSlots_loop t rest
      else
        h ← recordHash t (slotOffset w);
        t ← placeKnownAbsent t h (slotValue w) (slotOffset w);
        rebuildSlots_loop t rest
  end.

Definition rebuildSlots (t : Table) (capacity : Z) : res Table :=
  rebuildSlots_loop
    (mkTable (replicate (Z.to_nat capacity) 0) (log t) (logcap t) (deadBytes t) 0 0) (slots t).

Fixpoint rebuildPacked_loop (t : Table) (oldLog : list byte) (old : list Z) : res Table :=
  match old with
  | [] => Ret t
  | w :: rest =>
      if negb (isLive w) then rebuildPacked_loop t oldLog rest
      else
        let offset := u32 (zlen (log t)) in
        size ← recordLen oldLog (slotOffset w);
        rec ← or_panic (zslice oldLog (slotOffset w) (slotOffset w + size)) oob;
        let t := log_append t rec in
        h ← recordHash t offset;
        t ← placeKnownAbsent t h (slotValue w) offset;
        rebuildPacked_loop t oldLog rest
  end.

Definition rebuildPacked (t : Table) (capacity extra : Z) : res Table :=
  let live := zlen (log t) - deadBytes t in
  rebuildPacked_loop (mkTable (replicate (Z.to_nat capacity) 0) [] (live + extra) 0 0 0) (log t) (slots t).

Definition rebuild (t : Table) (capacity : Z) : res Table :=
  if (minCompactLogBytes <? deadBytes t) && (zlen (log t) <? deadBytes t * 4)
  then rebuildPacked t capacity 0
  else rebuildSlots t capacity.

Definition trimLog (t : Table) (extra : Z) : Table :=
  let want := zlen (log t) + extra in
  if logcap t <=? want then t else set_log t (log t) want.

Definition ReserveKeys (t : Table) (n keyLogBytes : Z) : res Table :=
  let n := if n <? count t then count t else n in
  if n =? 0 then Ret (mkTable [] [] 0 0 (count t) 0) else
  let capacity := tightCapacity n in
  if negb (capacity =? zlen (slots t)) || (0 <? deadBytes t)
  then rebuildPacked t capacity keyLogBytes
  else Ret (trimLog t keyLogBytes).

Definition Reserve (t : Table) (n : Z) : res Table := ReserveKeys t n 0.
Definition Compact (t : Table) : res Table := Reserve t (count t).

Definition Get (t : Table) (key : list byte) : res (option Z) := GetHashed t key (Hash key).

Definition growForInsert (t : Table) : res Table :=
  let capacity := capacityFor t (count t + 1) in
  if capacity =? zlen (slots t) then Ret t else rebuild t capacity.

Definition insertKnownAbsentHashed (t : Table) (key : list byte) (value hash : Z) : res Table :=
  _ ← checkValue value;
  '(offset, t) ← appendKey t key;
  placeKnownAbsent t hash value offset.

Definition insertHashed (t : Table) (key : list byte) (value hash : Z) : res Table :=
  _ ← checkValue value;
  let t :=
    if zlen (slots t) =? initialCapacity
    then set_filter t (Z.lor (tinyFilter t) (tinyFilterBits hash)) else t in
  let fingerprint := hashFingerprint hash in
  r ← insert_index t key fingerprint (length (slots t)) (probeStart t hash) (-1);
  match r with
  | At_free i =>
      '(offset, t) ← appendKey t key;
      s ← or_panic (zupd (slots t) i (slotWord fingerprint value offset)) oob;
      Ret (set_slots t s (u32 (count t + 1)))
  | At_key i offset =>
      s ← or_panic (zupd (slots t) i (slotWord fingerprint value offset)) oob;
      Ret (set_slots t s (count t))
  end.

(** [Set]. *)
Definition Set_ (t : Table) (key : list byte) (value : Z) : res Table :=
  let hash := Hash key in
  found ← GetHashed t key hash;
  t ← match found with Some _ => Ret t | None => growForInsert t end;
  insertHashed t key value hash.

Definition SetKnownHashed (t : Table) (key : list byte) (value hash : Z) (exists_ : bool) : res Table :=
  if exists_ then
    found ← GetHashed t key hash;
    match found with
    | None => Panic "known index entry is missing"
    | Some _ => insertHashed t key value hash
    end
  else
    t ← growForInsert t;
    insertKnownAbsentHashed t key value hash.

Fixpoint delete_index (t : Table) (key : list byte) (fingerprint : Z) (fuel : nat) (i : Z) : res (option (Z * Z)) :=
  match fuel with
  | O => Ret None
  | S f =>
      let i := wrap (zlen (slots t)) i in
      w ← or_panic (znth (slots t) i) oob;
      if w =? 0 then Ret None
      else if negb (isLive w) || negb (slotFingerprint w =? fingerprint) then delete_index t key fingerprint f (i + 1)
      else
        eq ← keyEquals t (slotOffset w) key;
        if eq : bool then Ret (Some (i, slotOffset w)) else delete_index t key fingerprint f (i + 1)
  end.

Definition deleteHashed (t : Table) (key : list byte) (hash : Z) : res Table :=
  if zlen (slots t) =? 0 then Ret t
  else if filtered t hash then Ret t
  else
    found ← delete_index t key (hashFingerprint hash) (length (slots t)) (probeStart t hash);
    match found with
    | None => Ret t
    | Some (i, offset) =>
        n ← recordLen (log t) offset;
        let dead := u32 (deadBytes t + u32 n) in
        s ← or_panic (zupd (slots t) i slotTombstone) oob;
        let c := u32 (count t - 1) in
        if c =? 0 then Ret (mkTable s [] 0 0 0 0) else
        let t := mkTable s (log t) (logcap t) dead c (tinyFilter t) in
        if (minCompactLogBytes <? dead) && (zlen (log t) <? dead * 3)
        then rebuildPacked t (zlen (slots t)) 0
        else Ret t
    end.

Definition Delete (t : Table) (key : list byte) : res Table := deleteHashed t key (Hash key).

(** ** Iteration *)

(** The pairs [All] yields when the consumer never stops. *)
Fixpoint All_loop (t : Table) (chunk : keyChunk) (s : list Z) : res (list (list byte * Z)) :=
  match s with
  | [] => Ret []
  | w :: rest =>
      if negb (isLive w) then All_loop t chunk rest
      else
        '(k, chunk) ← keyChunked t chunk (slotOffset w);
        out ← All_loop t chunk rest;
        Ret ((k, slotValue w) :: out)
  end.

Definition All (t : Table) : res (list (list byte * Z)) := All_loop t emptyChunk (slots t).

(** The references and values [AllRefs] yields. *)
Definition AllRefs (t : Table) : list (Z * Z) :=
  map (fun w => (slotOffset w, slotValue w)) (filter (fun w => isLive w = true) (slots t)).

Definition Key (t : Table) (ref : Z) : res (list byte) := keyAt t ref.

Fixpoint sample_loop (t : Table) (chunk : keyChunk) (fuel : nat) (cursor limit : Z) (out : list (list byte))
  : res (list (list byte) * Z) :=
  match fuel with
  | O => Ret (out, cursor)
  | S f =>
      w ← or_panic (znth (slots t) cursor) oob;
      let cursor := (cursor + 1) mod zlen (slots t) in
      if negb (isLive w) then sample_loop t chunk f cursor limit out
      else
        '(k, chunk) ← keyChunked t chunk (slotOffset w);
        let out := out ++ [k] in
        if zlen out =? limit then Ret (out, cursor)
        else sample_loop t chunk f cursor limit out
  end.

Definition Sample (t : Table) (cursor budget limit : Z) : res (list (list byte) * Z) :=
  if (zlen (slots t) =? 0) || (limit <=? 0) || (budget <=? 0) then Ret ([], 0)
  else
    let cursor := Z.rem cursor (zlen (slots t)) in
    sample_loop t emptyChunk (Z.to_nat (Z.min budget (zlen (slots t)))) cursor limit [].
End Operations.
