(* ===== verification/TableFacts.v ===== *)
(** * Key records and slot words of the index table

    Every reader of the key log returns the key whose record starts at an
    offset; slot words round-trip their fields; the capacity rules always find
    an accepting capacity. *)
From S2P Require Import Prelude KeyPack KeyPackFacts Table.

(** ** Records at an offset of the log *)

(** The record of [k] starts at offset [o] of the log [l]. *)
Definition rec_at (l : list byte) (o : Z) (k : list byte) : Prop :=
  ∃ pre suf, l = pre ++ key_record k ++ suf ∧ zlen pre = o ∧ zlen k < 2 ^ 63.

Inductive record_view (k : list byte) : Prop :=
| rv_packed p b0x : packed_ok k p b0x → key_record k = packed_appendTo p [] → record_view k
| rv_empty : k = [] → key_record k = [x00; xff] → record_view k
| rv_raw b0 tl :
    k ≠ [] → key_record k = (b0 :: tl) ++ k → put_uvarint (zlen k) = b0 :: tl → b0 ≠ x00 →
    (bz b0 < 128 → zlen k = bz b0 ∧ tl = []) → record_view k.

Lemma high_bit b : 128 ≤ bz (zb (Z.lor (bz b) 128)).
Proof. destruct b; by vm_compute. Qed.

Lemma put_uvarint_head n :
  0 < n → ∃ b0 tl, put_uvarint n = b0 :: tl ∧ b0 ≠ x00 ∧ (bz b0 < 128 → n = bz b0 ∧ tl = []).
Proof.
  intros Hn. unfold put_uvarint. remember 9%nat as f. cbn [put_uvarint_fuel].
  destruct (Z.leb_spec 128 n).
  - eexists _, _. split; [done|]. pose proof (high_bit (zb n)) as Hb. rewrite (bz_zb n) in Hb.
    split; [|intros; exfalso; lia]. intros Hz. rewrite Hz in Hb. by vm_compute in Hb.
  - exists (zb n), []. split; [done|].
    assert (Hb : bz (zb n) = n) by (rewrite bz_zb, Z.mod_small; lia).
    split; [intros Hz; rewrite Hz in Hb; change (bz x00) with 0 in Hb; lia|]. by rewrite Hb.
Qed.

Lemma record_cases k : record_view k.
Proof.
  destruct (packKey k) as [p|] eqn:E.
  - destruct (packKey_ok _ _ E) as [b0x H]. eapply rv_packed; [exact H|].
    unfold key_record. by rewrite E.
  - destruct k as [|c k]; [by apply rv_empty|].
    pose proof (zlen_nonneg k).
    destruct (put_uvarint_head (zlen (c :: k))) as (b0 & tl & Eu & Hne & Hs); [rewrite zlen_cons; lia|].
    apply (rv_raw _ b0 tl); try done. unfold key_record. rewrite E, Eu.
    destruct (Z.eqb_spec (zlen (c :: k)) 0) as [Hz|]; [|done]. rewrite zlen_cons in Hz. lia.
Qed.

Lemma rec_at_slice l o k :
  rec_at l o k → ∃ suf, zslice l o (zlen l) = Some (key_record k ++ suf).
Proof. intros (pre & suf & -> & <- & _). exists suf. by apply (zslice_tail _ pre). Qed.

Lemma rec_at_bounds l o k : rec_at l o k → 0 ≤ o ∧ o + zlen (key_record k) ≤ zlen l.
Proof.
  intros (pre & suf & -> & <- & _). rewrite !zlen_app.
  pose proof (zlen_nonneg pre). pose proof (zlen_nonneg suf). lia.
Qed.

Lemma rec_at_app l o k x : rec_at l o k → rec_at (l ++ x) o k.
Proof. intros (pre & suf & -> & ? & ?). exists pre, (suf ++ x). by rewrite <- !app_assoc. Qed.

Lemma rec_at_end l k : zlen k < 2 ^ 63 → rec_at (l ++ key_record k) (zlen l) k.
Proof. intros. exists l, []. by rewrite app_nil_r. Qed.

Lemma key_record_first k : ∃ b0 tl, key_record k = b0 :: tl.
Proof.
  destruct (record_cases k) as [p b0x H ->|_ ->|b0 tl _ -> _ _ _]; cbn; eauto.
  rewrite (packed_appendTo_eq _ _ _ _ H). cbn. eauto.
Qed.

Lemma znth_rec_at l o k b0 tl : rec_at l o k → key_record k = b0 :: tl → znth l o = Some b0.
Proof.
  intros (pre & suf & -> & <- & _) E. rewrite znth_app_r, Z.sub_diag, E by lia. done.
Qed.

(** Header of a raw record: length and width of the length. *)
Lemma raw_header (k : list byte) b0 tl suf :
  zlen k < 2 ^ 63 → put_uvarint (zlen k) = b0 :: tl → (bz b0 < 128 → zlen k = bz b0 ∧ tl = []) →
  uvarint ((b0 :: tl) ++ suf) = (zlen k, zlen (b0 :: tl)) ∧ i64 (zlen k) = zlen k ∧
  (bz b0 < 128 → zlen (b0 :: tl) = 1 ∧ zlen k = bz b0).
Proof.
  intros Hk Eu Hs. pose proof (zlen_nonneg k). rewrite <- Eu, uvarint_put, i64_id by lia.
  split_and!; [done..|]. intros [? ->]%Hs. by rewrite Eu.
Qed.

(** First byte of a record, as every reader tests it. *)
Ltac read_record H :=
  let suf := fresh "suf" in let E := fresh "E" in
  destruct (rec_at_slice _ _ _ H) as [suf E]; rewrite E; cbn [or_panic]; rewrite ?res_bind_ret; clear E.

Lemma znth_0_cons {A} (x : A) l : znth (x :: l) 0 = Some x.
Proof. done. Qed.

Lemma packed_first key p b0x suf :
  packed_ok key p b0x → ∃ tl, packed_appendTo p [] ++ suf = x00 :: tl.
Proof. intros H. rewrite (packed_appendTo_eq _ _ _ _ H). cbn. eauto. Qed.

Lemma parse_empty suf : parse ([x00; xff] ++ suf) = Ret (mkParts packEmpty [] [] [] 2).
Proof. done. Qed.

Lemma recordLen_at l o k : rec_at l o k → recordLen l o = Ret (zlen (key_record k)).
Proof.
  intros H. unfold recordLen. read_record H. pose proof H as (_ & _ & _ & _ & Hk).
  destruct (record_cases k) as [p b0x Hp ->|_ ->|b0 tl _ -> Eu Hne Hs].
  - destruct (packed_first _ _ _ suf Hp) as [tl E].
    rewrite E, znth_0_cons, <- E. cbn [or_panic]. rewrite res_bind_ret.
    rewrite bool_decide_true by done.
    by rewrite (parse_record _ _ _ _ Hp), res_bind_ret, (zlen_packed _ _ _ Hp).
  - done.
  - destruct (raw_header k b0 tl (k ++ suf) Hk Eu Hs) as (Hu & Hi & Hb).
    rewrite zlen_app, <- app_assoc. cbn [app] in *. rewrite znth_0_cons. cbn [or_panic]. rewrite res_bind_ret.
    rewrite bool_decide_false by done. rewrite Hu, Hi.
    destruct (Z.ltb_spec (bz b0) 128); [|done]. destruct Hb as [-> ->]; done.
Qed.

Lemma keyRecord_at t o k b0 tl :
  rec_at (log t) o k → k ≠ [] → key_record k = (b0 :: tl) ++ k → put_uvarint (zlen k) = b0 :: tl →
  (bz b0 < 128 → zlen k = bz b0 ∧ tl = []) →
  keyRecord t o = Ret (o + zlen (b0 :: tl), zlen k).
Proof.
  intros H Hne E Eu Hs. unfold keyRecord. read_record H. pose proof H as (_ & _ & _ & _ & Hk).
  destruct (raw_header k b0 tl (k ++ suf) Hk Eu Hs) as (Hu & Hi & Hb).
  rewrite E, <- app_assoc. cbn [app] in *. rewrite znth_0_cons. cbn [or_panic]. rewrite res_bind_ret, Hu, Hi.
  destruct (Z.ltb_spec (bz b0) 128); [|done]. by destruct Hb as [-> ->].
Qed.

Lemma raw_key_at t o k b0 tl :
  rec_at (log t) o k → k ≠ [] → key_record k = (b0 :: tl) ++ k → put_uvarint (zlen k) = b0 :: tl →
  (bz b0 < 128 → zlen k = bz b0 ∧ tl = []) → raw_key t o = Ret k.
Proof.
  intros H Hne E Eu Hs. unfold raw_key. rewrite (keyRecord_at _ _ _ _ _ H Hne E Eu Hs), res_bind_ret.
  destruct (Z.eqb_spec (zlen k) 0) as [Hz|Hz]; [by destruct k|].
  destruct H as (pre & suf & El & <- & _).
  rewrite (zslice_at _ (pre ++ b0 :: tl) k suf); [done|by rewrite El, E, <- !app_assoc| |done].
  by rewrite zlen_app.
Qed.

Lemma keyAt_at t o k : rec_at (log t) o k → keyAt t o = Ret k.
Proof.
  intros H. unfold keyAt. destruct (key_record_first k) as (b & tl & E).
  rewrite (znth_rec_at _ _ _ _ _ H E). cbn [or_panic]. rewrite res_bind_ret.
  destruct (record_cases k) as [p b0x Hp Er|Hk Er|b0 tl' Hn Er Eu Hne Hs].
  - destruct (packed_first _ _ _ [] Hp) as [tl0 E']. rewrite app_nil_r, <- Er, E in E'. injection E' as -> _.
    rewrite bool_decide_true by done. read_record H.
    by rewrite Er, (parse_record _ _ _ _ Hp), res_bind_ret, (appendKey_record _ _ _ _ Hp).
  - rewrite Er in E. injection E as <- _. rewrite bool_decide_true by done. read_record H.
    by rewrite Er, parse_empty, res_bind_ret, Hk.
  - rewrite Er in E. injection E as <- _. rewrite bool_decide_false by done. by eapply raw_key_at.
Qed.

Lemma keyEquals_at t o k key : rec_at (log t) o k → keyEquals t o key = Ret (bool_decide (key = k)).
Proof.
  intros H. unfold keyEquals. read_record H. pose proof H as (_ & _ & _ & _ & Hk).
  destruct (record_cases k) as [p b0x Hp ->| -> ->|b0 tl Hn -> Eu Hne Hs].
  - destruct (packed_first _ _ _ suf Hp) as [tl E]. rewrite E, znth_0_cons, <- E. cbn [or_panic].
    rewrite res_bind_ret, bool_decide_true by done.
    by rewrite (parse_record _ _ _ _ Hp), res_bind_ret, (equals_record _ _ _ _ Hp).
  - rewrite parse_empty. cbn. f_equal. by destruct key.
  - destruct (raw_header k b0 tl (k ++ suf) Hk Eu Hs) as (Hu & Hi & Hb).
    rewrite <- app_assoc, (eq_refl : znth ((b0 :: tl) ++ k ++ suf) 0 = Some b0). cbn [or_panic].
    rewrite res_bind_ret, (bool_decide_false (b0 = packEscape)) by done.
    assert (Eh : (if 128 <=? bz b0 then let '(v, width) := uvarint ((b0 :: tl) ++ k ++ suf) in (i64 v, width) else (bz b0, 1))
            = (zlen k, zlen (b0 :: tl))).
    { rewrite Hu, Hi. destruct (Z.leb_spec 128 (bz b0)); [done|]. by destruct Hb as [-> ->]. }
    rewrite Eh. destruct (Z.eqb_spec (zlen k) (zlen key)) as [El|El]; cbn [negb].
    + rewrite (zslice_at _ (b0 :: tl) k suf) by done. cbn [or_panic]. rewrite res_bind_ret.
      f_equal. by apply bool_decide_ext.
    + f_equal. symmetry. apply bool_decide_eq_false. by intros ->.
Qed.

Lemma KeyLen_at t o k : rec_at (log t) o k → KeyLen t o = Ret (zlen k).
Proof.
  intros H. unfold KeyLen. read_record H.
  destruct (record_cases k) as [p b0x Hp ->| -> ->|b0 tl Hn Er Eu Hne Hs].
  - destruct (packed_first _ _ _ suf Hp) as [tl E]. rewrite E, znth_0_cons, <- E. cbn [or_panic].
    rewrite res_bind_ret, bool_decide_true by done.
    by rewrite (parse_record _ _ _ _ Hp), res_bind_ret, (keyLen_record _ _ _ Hp).
  - done.
  - rewrite (keyRecord_at _ _ _ _ _ H Hn Er Eu Hs). rewrite Er. cbn [app]. rewrite znth_0_cons. cbn [or_panic].
    by rewrite res_bind_ret, bool_decide_false.
Qed.

Lemma recordHash_at maphash t o k : rec_at (log t) o k → recordHash maphash t o = Ret (Hash maphash k).
Proof.
  intros H. unfold recordHash. read_record H.
  destruct (record_cases k) as [p b0x Hp ->| -> ->|b0 tl Hn Er Eu Hne Hs].
  - destruct (packed_first _ _ _ suf Hp) as [tl E]. rewrite E, znth_0_cons, <- E. cbn [or_panic].
    rewrite res_bind_ret, bool_decide_true by done.
    by rewrite (parse_record _ _ _ _ Hp), res_bind_ret, (appendKey_record _ _ _ _ Hp), res_bind_ret.
  - done.
  - rewrite (raw_key_at _ _ _ _ _ H Hn Er Eu Hs). rewrite Er. cbn [app]. rewrite znth_0_cons. cbn [or_panic].
    by rewrite res_bind_ret, bool_decide_false.
Qed.

Lemma keyChunked_at t c o k : rec_at (log t) o k → ∃ c', keyChunked t c o = Ret (k, c').
Proof.
  intros H. unfold keyChunked. destruct (key_record_first k) as (b & tl & E).
  rewrite (znth_rec_at _ _ _ _ _ H E). cbn [or_panic]. rewrite res_bind_ret.
  destruct (record_cases k) as [p b0x Hp Er|Hk Er|b0 tl' Hn Er Eu Hne Hs].
  - destruct (packed_first _ _ _ [] Hp) as [tl0 E']. rewrite app_nil_r, <- Er, E in E'. injection E' as -> _.
    rewrite bool_decide_true by done. read_record H. unfold chunk_decode.
    rewrite Er, (parse_record _ _ _ _ Hp), res_bind_ret.
    pose proof (keyLen_record _ _ _ Hp) as Hl. unfold parts_keyLen in Hl.
    destruct (mkflags_spec (pk_digits p) b0x (nonempty (pk_prefix p))) as (_ & _ & _ & Hne & _).
    rewrite <- (po_flags _ _ _ Hp) in Hne. change (pp_flags (record_parts p)) with (pk_flags p) in *.
    destruct (Z.eqb_spec (pk_flags p) packEmpty); [done|]. rewrite Hl.
    set (c' := if ck_cap c - zlen (ck_buf c) <? zlen k then _ else c). rewrite (appendKey_record _ _ _ _ Hp), res_bind_ret.
    assert (Hpos : 0 < zlen k).
    { rewrite (po_split _ _ _ Hp), !zlen_app. pose proof (po_min _ _ _ Hp) as Hm. unfold packMinDigits in Hm.
      pose proof (zlen_nonneg (pk_prefix p)). pose proof (zlen_nonneg (marker b0x)). lia. }
    destruct (znth_is_Some k 0 ltac:(lia)) as [x Hx].
    rewrite znth_app_r, Z.sub_diag, Hx by lia. cbn [or_panic]. rewrite res_bind_ret.
    rewrite (zslice_at _ (ck_buf c') k []) by (rewrite ?app_nil_r; done). cbn [or_panic]. rewrite res_bind_ret. eauto.
  - rewrite Er in E. injection E as <- _. rewrite bool_decide_true by done. read_record H.
    unfold chunk_decode. rewrite Er, parse_empty, res_bind_ret, Hk. cbn. eauto.
  - pose proof E as E0. rewrite Er in E0. injection E0 as <- _. rewrite bool_decide_false by done.
    rewrite (keyAt_at _ _ _ H), res_bind_ret. eauto.
Qed.

(** ** Slot words *)

Lemma slotWord_eq f v o :
  0 ≤ f < 2 ^ 6 → 0 ≤ v < 2 ^ 27 → 0 ≤ o < 2 ^ 30 →
  slotWord f v o = ((2 ^ 6 + f) * 2 ^ 27 + v) * 2 ^ 30 + o.
Proof.
  intros. unfold slotWord, liveBit, fingerprintShift, valueShift.
  replace (Z.shiftl 1 63) with (Z.shiftl (2 ^ 6) 57) by done.
  rewrite <- (Z.shiftl_lor _ _ 57). change (2 ^ 6) with (Z.shiftl 1 6) at 1.
  rewrite (lor_shiftl_add 1 f 6) by lia.
  replace (Z.shiftl (1 * 2 ^ 6 + f) 57) with (Z.shiftl (Z.shiftl (1 * 2 ^ 6 + f) 27) 30)
    by (rewrite Z.shiftl_shiftl by lia; done).
  rewrite <- Z.shiftl_lor, lor_shiftl_add, lor_shiftl_add by lia. lia.
Qed.

Lemma slotWord_fields f v o :
  0 ≤ f < 2 ^ 6 → 0 ≤ v < 2 ^ 27 → 0 ≤ o < 2 ^ 30 →
  isLive (slotWord f v o) = true ∧ slotFingerprint (slotWord f v o) = f ∧
  slotValue (slotWord f v o) = v ∧ slotOffset (slotWord f v o) = o ∧ slotWord f v o ≠ 0.
Proof.
  intros Hf Hv Ho. rewrite slotWord_eq by done.
  set (w := _ + o). assert (Hw : w = ((2 ^ 6 + f) * 2 ^ 27 + v) * 2 ^ 30 + o) by done. clearbody w.
  unfold isLive, slotFingerprint, slotValue, slotOffset, u32. split_and!.
  - apply negb_true_iff, Z.eqb_neq. intros E.
    assert (Hb : Z.testbit w 63 = true).
    { apply Z.testbit_true; [lia|]. change (2 ^ 63) with 9223372036854775808. rewrite Hw. dlia. }
    assert (Hl : Z.testbit (Z.land w liveBit) 63 = true) by (by rewrite Z.land_spec, Hb).
    by rewrite E in Hl.
  - change fingerprintMask with (2 ^ 6 - 1). change fingerprintShift with 57.
    rewrite land_mask, shiftr_div by lia. rewrite Hw. dlia.
  - change valueMask with (2 ^ 27 - 1). change valueShift with 30.
    rewrite land_mask, shiftr_div by lia. rewrite Hw. dlia.
  - change offsetMask with (2 ^ 30 - 1). rewrite land_mask by lia. rewrite Hw. dlia.
  - lia.
Qed.

Lemma hashFingerprint_range h : 0 ≤ hashFingerprint h < 2 ^ 6.
Proof.
  unfold hashFingerprint. change fingerprintMask with (2 ^ 6 - 1). rewrite land_mask by lia.
  apply Z.mod_pos_bound. lia.
Qed.

Lemma probeStart_range t h : 0 < zlen (slots t) → 0 ≤ probeStart t h < zlen (slots t).
Proof.
  intros. unfold probeStart. rewrite shiftr_div by lia. pose proof (Z.mod_pos_bound h (2 ^ 32) ltac:(lia)).
  unfold u32. split; [apply Z.div_pos; nia|]. apply Z.div_lt_upper_bound; nia.
Qed.

(** ** Capacity rules *)

Lemma tightCapacity_ok n :
  0 ≤ n → capacityAccepts n (tightCapacity n) = true ∧ initialCapacity ≤ tightCapacity n ∧
  (initialCapacity < n → n * 5 ≤ tightCapacity n * 4 ∧ tightCapacity n * 4 < n * 5 + 32).
Proof.
  intros Hn. unfold tightCapacity, initialCapacity. destruct (Z.leb_spec n 4) as [H4|H4].
  - unfold capacityAccepts. cbn. split_and!; [by apply Z.leb_le|done|lia].
  - set (c := Z.ldiff ((n * 5 + 3) / 4 + 7) 7).
    assert (Hc : n * 5 ≤ c * 4 ∧ c * 4 < n * 5 + 32).
    { unfold c. rewrite (ldiff_mask _ 3 ltac:(lia) : Z.ldiff _ 7 = _). change (2 ^ 3) with 8. dlia. }
    clearbody c. assert (Ha : capacityAccepts n c = true).
    { unfold capacityAccepts, initialCapacity. destruct (Z.eqb_spec c 4); apply Z.leb_le; dlia. }
    cbn [tight_loop]. rewrite Ha. split_and!; done || lia.
Qed.

Lemma capacity_loop_ok n : 1 ≤ n → ∀ fuel c,
  1 ≤ c → gradualGrowthMin ≤ c * 2 ^ (Z.of_nat fuel - 2) → (2 ≤ fuel)%nat →
  capacityAccepts n (capacity_loop fuel n c) = true ∧ c ≤ capacity_loop fuel n c.
Proof.
  intros Hn. unfold gradualGrowthMin. induction fuel as [|fuel IH]; intros c Hc Hf H2; [lia|].
  cbn [capacity_loop]. destruct (capacityAccepts n c) eqn:Ea; [split; [done|lia]|]. unfold gradualGrowthMin.
  destruct (Z.ltb_spec c 256).
  - destruct (decide (fuel = 1%nat)) as [->|]; [cbn in Hf; lia|].
    destruct (IH (c * 2)) as [? ?]; [lia| |lia|split; [done|lia]].
    replace (Z.of_nat (S fuel) - 2) with (Z.of_nat fuel - 2 + 1) in Hf by lia.
    rewrite Z.pow_add_r in Hf by lia. lia.
  - destruct (tightCapacity_ok (n + n / 2)) as (Ht & H4 & Hb); [dlia|].
    assert (Hn' : c * 8 / 10 < n).
    { unfold capacityAccepts, initialCapacity in Ea. destruct (Z.eqb_spec c 4); [lia|]. by apply Z.leb_gt in Ea. }
    specialize (Hb ltac:(unfold initialCapacity; dlia)).
    assert (Ha : capacityAccepts n (tightCapacity (n + n / 2)) = true).
    { unfold capacityAccepts, initialCapacity in *. destruct (Z.eqb_spec (tightCapacity (n + n / 2)) 4); [lia|].
      apply Z.leb_le. apply Z.leb_le in Ht. dlia. }
    destruct fuel; [lia|]. cbn [capacity_loop]. rewrite Ha. split; [done|]. dlia.
Qed.

Lemma capacityFor_ok t n :
  1 ≤ n → capacityAccepts n (capacityFor t n) = true ∧ zlen (slots t) ≤ capacityFor t n ∧ 1 ≤ capacityFor t n.
Proof.
  intros Hn. unfold capacityFor. destruct (Z.eqb_spec n 0); [lia|]. pose proof (zlen_nonneg (slots t)).
  destruct (Z.eqb_spec (zlen (slots t)) 0) as [E|E].
  - destruct (capacity_loop_ok n Hn 10 initialCapacity) as [? ?]; [done|done|lia|].
    unfold initialCapacity in *. split_and!; [done|lia..].
  - destruct (capacity_loop_ok n Hn 10 (zlen (slots t))) as [? ?]; [lia| |lia|split_and!; [done|lia..]].
    unfold gradualGrowthMin. change (2 ^ (Z.of_nat 10 - 2)) with 256. lia.
Qed.
