(* ===== verification/TableInv.v ===== *)
(** * The invariant of the index table

    The slot words are the encoding of ghost cells; the invariant says that
    every live cell is reachable from its probe start without crossing an empty
    slot, keys are unique, and the counters account for the log exactly.
    The lemmas here carry the probe loops and the slot updates. *)
From S2P Require Import Prelude KeyPack KeyPackFacts Table TableFacts.
Set Default Proof Using "Type".

(** ** Ghost cells *)

Inductive cell :=
| CEmpty
| CDead
| CLive (k : list byte) (v o : Z).

#[export] Instance cell_eq_dec : EqDecision cell.
Proof. solve_decision. Defined.

Definition cell_live (c : cell) : bool := match c with CLive _ _ _ => true | _ => false end.

Definition live_count (cells : list cell) : Z :=
  foldr (fun c n => (if cell_live c then 1 else 0) + n) 0 cells.

Definition cell_bytes (c : cell) : Z :=
  match c with CLive k _ _ => zlen (key_record k) | _ => 0 end.

(** The log bytes of the live records. *)
Definition live_bytes (cells : list cell) : Z := foldr (fun c n => cell_bytes c + n) 0 cells.

(** The key [k] is stored with value [v]. *)
Definition stores (cells : list cell) (k : list byte) (v : Z) : Prop := ∃ o, CLive k v o ∈ cells.

Definition absent (cells : list cell) (k : list byte) : Prop := ∀ v o, CLive k v o ∉ cells.

Definition cell_ok (l : list byte) (c : cell) : Prop :=
  match c with CLive k v o => rec_at l o k ∧ 0 ≤ v < 2 ^ 27 ∧ o < 2 ^ 30 | _ => True end.

(** Index [i] is reached from [s] without crossing an empty cell. *)
Definition reach (cells : list cell) (s i : Z) : Prop :=
  ∃ d, 0 ≤ d < zlen cells ∧ i = (s + d) mod zlen cells ∧
       ∀ n, 0 ≤ n < d → znth cells ((s + n) mod zlen cells) ≠ Some CEmpty.

(** ** Basic facts on cells *)

Lemma live_count_cons c cells : live_count (c :: cells) = (if cell_live c then 1 else 0) + live_count cells.
Proof. done. Qed.

Lemma live_bytes_cons c cells : live_bytes (c :: cells) = cell_bytes c + live_bytes cells.
Proof. done. Qed.

Lemma live_count_app a b : live_count (a ++ b) = live_count a + live_count b.
Proof. unfold live_count. induction a as [|c a IH]; cbn [app foldr]; [lia|rewrite IH; lia]. Qed.

Lemma live_bytes_app a b : live_bytes (a ++ b) = live_bytes a + live_bytes b.
Proof. unfold live_bytes. induction a as [|c a IH]; cbn [app foldr]; [lia|rewrite IH; lia]. Qed.

Lemma key_record_len k : 1 ≤ zlen (key_record k).
Proof. destruct (key_record_first k) as (b & tl & ->). rewrite zlen_cons. pose proof (zlen_nonneg tl). lia. Qed.

Lemma live_count_bytes cells : 0 ≤ live_count cells ≤ live_bytes cells.
Proof.
  unfold live_count, live_bytes in *. induction cells as [|c cells IH]; [done|]. cbn [foldr]. destruct c as [| |k v o]; cbn; try lia.
  pose proof (key_record_len k). lia.
Qed.

Lemma live_count_le cells : live_count cells ≤ zlen cells.
Proof.
  unfold live_count. induction cells as [|c cells IH]; [done|]. rewrite zlen_cons. cbn [foldr]. destruct (cell_live c); lia. Qed.

(** Replacing cell [j] changes the counts by the difference. *)
Lemma live_count_insert cells j c c' :
  znth cells j = Some c →
  live_count (<[Z.to_nat j := c']> cells)
  = live_count cells - (if cell_live c then 1 else 0) + (if cell_live c' then 1 else 0).
Proof.
  intros H. pose proof (znth_Some _ _ _ H). rewrite znth_lookup in H by lia.
  rewrite <- (take_drop_middle _ _ _ H) at 2. rewrite insert_take_drop by (unfold zlen in *; lia).
  rewrite !live_count_app. unfold live_count. cbn [foldr]. lia.
Qed.

Lemma live_bytes_insert cells j c c' :
  znth cells j = Some c →
  live_bytes (<[Z.to_nat j := c']> cells) = live_bytes cells - cell_bytes c + cell_bytes c'.
Proof.
  intros H. pose proof (znth_Some _ _ _ H). rewrite znth_lookup in H by lia.
  rewrite <- (take_drop_middle _ _ _ H) at 2. rewrite insert_take_drop by (unfold zlen in *; lia).
  rewrite !live_bytes_app. unfold live_bytes. cbn [foldr]. lia.
Qed.

Lemma znth_fmap {A B} (f : A → B) l i : znth (f <$> l) i = f <$> znth l i.
Proof. unfold znth. destruct (0 <=? i); [apply list_lookup_fmap|done]. Qed.

Lemma zlen_fmap {A B} (f : A → B) l : zlen (f <$> l) = zlen l.
Proof. unfold zlen. by rewrite length_fmap. Qed.

(** ** Probe positions *)

Lemma wrap_next size s n :
  0 < size → wrap size ((s + n) mod size + 1) = (s + (n + 1)) mod size.
Proof.
  intros. unfold wrap. pose proof (Z.mod_pos_bound (s + n) size ltac:(lia)).
  rewrite Z.add_assoc, <- (Z.add_mod_idemp_l (s + n)) by lia.
  destruct (Z.eqb_spec ((s + n) mod size + 1) size) as [->|].
  - by rewrite Z.mod_same by lia.
  - symmetry. apply Z.mod_small. lia.
Qed.

Lemma wrap_start size s : 0 ≤ s < size → wrap size s = (s + 0) mod size.
Proof. intros. unfold wrap. rewrite Z.add_0_r, Z.mod_small by lia. destruct (Z.eqb_spec s size); lia. Qed.

Lemma probe_inj size s n d : 0 ≤ n < size → 0 ≤ d < size → (s + n) mod size = (s + d) mod size → n = d.
Proof.
  intros Hn Hd E.
  assert (E1 : (n - d) mod size = 0).
  { replace (n - d) with (s + n - (s + d)) by lia. rewrite Zminus_mod, E, Z.sub_diag. by apply Z.mod_0_l; lia. }
  assert (E2 : (d - n) mod size = 0).
  { replace (d - n) with (s + d - (s + n)) by lia. rewrite Zminus_mod, E, Z.sub_diag. by apply Z.mod_0_l; lia. }
  clear E. destruct (Z.leb_spec d n); [clear E2; rewrite Z.mod_small in E1 by lia|clear E1; rewrite Z.mod_small in E2 by lia]; lia.
Qed.

Lemma probe_surj size s i : 0 ≤ i < size → ∃ n, 0 ≤ n < size ∧ i = (s + n) mod size.
Proof.
  intros Hi. exists ((i - s) mod size). split; [apply Z.mod_pos_bound; lia|].
  rewrite Z.add_mod_idemp_r by lia. replace (s + (i - s)) with i by lia. rewrite Z.mod_small; lia.
Qed.

(** ** Looking a key up

    [get_loop] and [delete_index] are the same search for the slot of a key. *)

Fixpoint probe_loop (t : Table) (key : list byte) (fingerprint : Z) (fuel : nat) (i : Z) : res (option Z) :=
  match fuel with
  | O => Ret None
  | S f =>
      let i := wrap (zlen (slots t)) i in
      w ← or_panic (znth (slots t) i) oob;
      if w =? 0 then Ret None
      else if negb (isLive w) || negb (slotFingerprint w =? fingerprint) then probe_loop t key fingerprint f (i + 1)
      else
        eq ← keyEquals t (slotOffset w) key;
        if eq : bool then Ret (Some i) else probe_loop t key fingerprint f (i + 1)
  end.

Definition at_slot {A} (t : Table) (f : Z → Z → A) (r : res (option Z)) : res (option A) :=
  oi ← r;
  match oi with
  | None => Ret None
  | Some i => w ← or_panic (znth (slots t) i) oob; Ret (Some (f i w))
  end.

Lemma get_loop_probe t key fp fuel : ∀ i,
  get_loop t key fp fuel i = at_slot t (fun _ w => slotValue w) (probe_loop t key fp fuel i).
Proof.
  induction fuel as [|fuel IH]; intros i; [done|]. cbn [get_loop probe_loop].
  destruct (znth (slots t) (wrap _ i)) as [w|] eqn:Ew; [|done]. cbn [or_panic]. rewrite !res_bind_ret.
  destruct (w =? 0); [done|]. destruct (_ || _); [apply IH|].
  destruct (keyEquals _ _ _) as [[]| |]; try done; rewrite !res_bind_ret; [|apply IH].
  unfold at_slot. by rewrite res_bind_ret, Ew.
Qed.

Lemma delete_index_probe t key fp fuel : ∀ i,
  delete_index t key fp fuel i = at_slot t (fun i w => (i, slotOffset w)) (probe_loop t key fp fuel i).
Proof.
  induction fuel as [|fuel IH]; intros i; [done|]. cbn [delete_index probe_loop].
  destruct (znth (slots t) (wrap _ i)) as [w|] eqn:Ew; [|done]. cbn [or_panic]. rewrite !res_bind_ret.
  destruct (w =? 0); [done|]. destruct (_ || _); [apply IH|].
  destruct (keyEquals _ _ _) as [[]| |]; try done; rewrite !res_bind_ret; [|apply IH].
  unfold at_slot. by rewrite res_bind_ret, Ew.
Qed.

(** ** Finding a free slot *)

Definition free_at (cells : list cell) (j : Z) : Prop :=
  znth cells j = Some CEmpty ∨ znth cells j = Some CDead.

(** Loop invariant of the placement search after [n] probes: no empty cell was
    seen, and [deleted] is the first tombstone seen, or none was seen. *)
Definition place_state (cells : list cell) (s n deleted : Z) : Prop :=
  (∀ m, 0 ≤ m < n → znth cells ((s + m) mod zlen cells) ≠ Some CEmpty) ∧
  ((deleted = -1 ∧ ∀ m, 0 ≤ m < n → ¬ free_at cells ((s + m) mod zlen cells)) ∨
   (∃ d, 0 ≤ d < n ∧ deleted = (s + d) mod zlen cells ∧ znth cells deleted = Some CDead)).

Lemma all_live_count cells :
  (∀ c, c ∈ cells → cell_live c = true) → live_count cells = zlen cells.
Proof.
  unfold live_count. induction cells as [|c cells IH]; intros H; [done|]. rewrite zlen_cons. cbn [foldr].
  rewrite (H c) by (apply elem_of_cons; by left). rewrite IH; [done|].
  intros c' Hc'. apply H. apply elem_of_cons. by right.
Qed.

(** A table with fewer live cells than slots has a free slot on every path. *)
Lemma not_all_live cells s :
  0 < zlen cells → live_count cells < zlen cells →
  ¬ (∀ m, 0 ≤ m < zlen cells → ¬ free_at cells ((s + m) mod zlen cells)).
Proof.
  intros H0 Hl H. assert (live_count cells = zlen cells); [|lia].
  apply all_live_count. intros c Hc. apply elem_of_znth in Hc as [i Hi].
  pose proof (znth_Some _ _ _ Hi) as Hr. destruct (probe_surj (zlen cells) s i Hr) as (n & Hn & ->).
  specialize (H n Hn). unfold free_at in H. rewrite Hi in H. destruct c; [destruct H; auto..|done].
Qed.

(** ** Updating one cell *)

Lemma znth_upd (cells : list cell) j c i :
  0 ≤ j < zlen cells →
  znth (<[Z.to_nat j := c]> cells) i = if decide (i = j) then Some c else znth cells i.
Proof.
  intros. destruct (decide (i = j)) as [->|]; [by apply znth_insert_eq|].
  destruct (decide (0 ≤ i)); [apply znth_insert_ne; lia|]. unfold znth. by destruct (Z.leb_spec 0 i); [lia|].
Qed.

Lemma reach_upd cells j c s i :
  0 ≤ j < zlen cells → c ≠ CEmpty → reach cells s i → reach (<[Z.to_nat j := c]> cells) s i.
Proof.
  intros Hj Hc (d & Hd & Ei & Hn). exists d. rewrite zlen_insert. split_and!; [lia..|done|].
  intros n Hnd. rewrite znth_upd by done. destruct (decide _); [congruence|by apply Hn].
Qed.

Lemma elem_of_upd (cells : list cell) j c c0 x :
  znth cells j = Some c0 → x ∈ <[Z.to_nat j := c]> cells → x = c ∨ x ∈ cells.
Proof.
  intros Hj [i Hi]%elem_of_znth. pose proof (znth_Some _ _ _ Hj). rewrite znth_upd in Hi by done.
  destruct (decide _); [left; congruence|right; apply elem_of_znth; eauto].
Qed.

(** The cells after an update at [j], besides the new one. *)
Lemma elem_of_upd_iff (cells : list cell) j c c0 x :
  znth cells j = Some c0 → x ≠ c0 → x ≠ c → (x ∈ <[Z.to_nat j := c]> cells ↔ x ∈ cells).
Proof.
  intros Hj H0 H1. pose proof (znth_Some _ _ _ Hj). rewrite !elem_of_znth. split; intros [i Hi].
  - rewrite znth_upd in Hi by done. destruct (decide _); [congruence|eauto].
  - exists i. rewrite znth_upd by done. destruct (decide _); [congruence|done].
Qed.

Lemma elem_of_upd_new (cells : list cell) j c c0 : znth cells j = Some c0 → c ∈ <[Z.to_nat j := c]> cells.
Proof.
  intros Hj. pose proof (znth_Some _ _ _ Hj). apply elem_of_znth. exists j. rewrite znth_upd by done.
  by destruct (decide _).
Qed.

Lemma filter_sub f b b' : Z.land f b' = b' → Z.land (Z.lor f b) b' = b'.
Proof.
  intros H. apply Z.bits_inj'. intros n Hn. rewrite Z.land_spec, Z.lor_spec.
  rewrite <- H at 2. rewrite Z.land_spec. rewrite <- H, Z.land_spec.
  by destruct (Z.testbit f n), (Z.testbit b n), (Z.testbit b' n).
Qed.

Lemma filter_new f b : Z.land (Z.lor f b) b = b.
Proof.
  apply Z.bits_inj'. intros n Hn. rewrite Z.land_spec, Z.lor_spec.
  by destruct (Z.testbit f n), (Z.testbit b n).
Qed.

Lemma cell_ok_app l x c : cell_ok l c → cell_ok (l ++ x) c.
Proof. destruct c; [done..|]. intros (?&?&?). split_and!; [by apply rec_at_app|lia..]. Qed.


Section Invariant.
Context (maphash : list byte → Z).

Definition word (c : cell) : Z :=
  match c with
  | CEmpty => 0
  | CDead => slotTombstone
  | CLive k v o => slotWord (hashFingerprint (Hash maphash k)) v o
  end.

Definition start (k : list byte) (size : Z) : Z := Z.shiftr (u32 (Hash maphash k) * size) 32.

Record Core (l : list byte) (flt : Z) (cells : list cell) : Prop := {
  co_ok : ∀ c, c ∈ cells → cell_ok l c;
  co_path : ∀ i k v o, znth cells i = Some (CLive k v o) → reach cells (start k (zlen cells)) i;
  co_uniq : ∀ i j k v o v' o', znth cells i = Some (CLive k v o) → znth cells j = Some (CLive k v' o') → i = j;
  co_filter : zlen cells = initialCapacity → ∀ k v o, CLive k v o ∈ cells →
    Z.land flt (tinyFilterBits (Hash maphash k)) = tinyFilterBits (Hash maphash k)
}.

Record TInv (t : Table) (cells : list cell) : Prop := {
  ti_slots : slots t = word <$> cells;
  ti_core : Core (log t) (tinyFilter t) cells;
  ti_count : count t = live_count cells;
  ti_accept : cells = [] ∨ capacityAccepts (count t) (zlen cells) = true;
  ti_log : deadBytes t + live_bytes cells = zlen (log t);
  ti_dead : 0 ≤ deadBytes t;
  ti_cap : zlen (log t) ≤ logcap t;
  ti_max : zlen (log t) ≤ maxLogBytes
}.

(** The table implements the finite map [m]. *)
Definition table_ok (t : Table) (m : gmap (list byte) Z) : Prop :=
  ∃ cells, TInv t cells ∧ ∀ k v, m !! k = Some v ↔ stores cells k v.

Lemma word_live l c :
  cell_ok l c → 
  match c with
  | CEmpty => word c = 0
  | CDead => word c ≠ 0 ∧ isLive (word c) = false
  | CLive k v o => word c ≠ 0 ∧ isLive (word c) = true ∧
      slotFingerprint (word c) = hashFingerprint (Hash maphash k) ∧
      slotValue (word c) = v ∧ slotOffset (word c) = o
  end.
Proof.
  destruct c as [| |k v o]; [done|by vm_compute|]. intros (H & Hv & Ho).
  apply rec_at_bounds in H as [H0 _].
  destruct (slotWord_fields (hashFingerprint (Hash maphash k)) v o) as (?&?&?&?&?);
    [apply hashFingerprint_range|lia..|done].
Qed.

Lemma start_range k size : 0 < size → 0 ≤ start k size < size.
Proof.
  intros. unfold start. rewrite shiftr_div by lia.
  pose proof (Z.mod_pos_bound (Hash maphash k) (2 ^ 32) ltac:(lia)).
  unfold u32. split; [apply Z.div_pos; nia|]. apply Z.div_lt_upper_bound; nia.
Qed.

Lemma probeStart_start t k : probeStart t (Hash maphash k) = start k (zlen (slots t)).
Proof. done. Qed.

(** One step of a search, seen on the cells. *)
Lemma probe_cell t cells i k c :
  slots t = word <$> cells → (∀ c, c ∈ cells → cell_ok (log t) c) → znth cells i = Some c →
  znth (slots t) i = Some (word c) ∧
  match c with
  | CEmpty => word c = 0
  | CDead => word c ≠ 0 ∧ isLive (word c) = false
  | CLive k' v o => word c ≠ 0 ∧ isLive (word c) = true ∧ slotOffset (word c) = o ∧ slotValue (word c) = v ∧
      ((slotFingerprint (word c) =? hashFingerprint (Hash maphash k)) = false → k ≠ k') ∧
      keyEquals t o k = Ret (bool_decide (k = k'))
  end.
Proof.
  intros Es Hok Hc. split; [by rewrite Es, znth_fmap, Hc|].
  assert (Hc' : cell_ok (log t) c) by (apply Hok, elem_of_znth; eauto).
  pose proof (word_live (log t) c Hc') as Hw. destruct c as [| |k' v o]; [done..|].
  destruct Hw as (?&?&Ef&?&?). split_and!; try done.
  - rewrite Ef. intros ?%Z.eqb_neq. by intros ->.
  - apply keyEquals_at, Hc'.
Qed.

Lemma probe_hit t cells k v o j d : 
  slots t = word <$> cells → (∀ c, c ∈ cells → cell_ok (log t) c) →
  (∀ i v' o', znth cells i = Some (CLive k v' o') → i = j) →
  let size := zlen cells in let s := start k size in
  znth cells j = Some (CLive k v o) → 0 ≤ d < size → j = (s + d) mod size →
  (∀ n, 0 ≤ n < d → znth cells ((s + n) mod size) ≠ Some CEmpty) →
  ∀ fuel n i, 0 ≤ n ≤ d → n + Z.of_nat fuel = size → wrap size i = (s + n) mod size →
  probe_loop t k (hashFingerprint (Hash maphash k)) fuel i = Ret (Some j).
Proof.
  intros Es Hok Hu size s Hj Hd Ej Hne. induction fuel as [|fuel IH]; intros n i Hn Hf Hw; [lia|].
  assert (Hz : zlen (slots t) = size) by (by rewrite Es, zlen_fmap).
  cbn [probe_loop]. rewrite Hz, Hw.
  destruct (decide (n = d)) as [->|Hnd].
  - rewrite <- Ej. destruct (probe_cell t cells j k _ Es Hok Hj) as (-> & Hw0 & Hl & Ho & _ & Hfp & He).
    cbn [or_panic]. rewrite res_bind_ret. destruct (Z.eqb_spec (word (CLive k v o)) 0); [done|]. rewrite Hl, Ho, He.
    destruct (_ =? hashFingerprint _); [|by destruct (Hfp eq_refl)]. cbn [negb orb].
    by rewrite res_bind_ret, bool_decide_true.
  - assert (Hi : 0 ≤ (s + n) mod size < size) by (apply Z.mod_pos_bound; lia).
    destruct (znth_is_Some cells ((s + n) mod size) Hi) as [c Hc].
    specialize (Hne n ltac:(lia)) as Hnc. rewrite Hc in Hnc.
    destruct (probe_cell t cells _ k _ Es Hok Hc) as (-> & Hcase). cbn [or_panic]. rewrite res_bind_ret.
    assert (Hrec : probe_loop t k (hashFingerprint (Hash maphash k)) fuel ((s + n) mod size + 1) = Ret (Some j)).
    { apply (IH (n + 1)); [lia|lia|]. by apply wrap_next; lia. }
    destruct c as [| |k' v' o']; [done|..].
    + destruct Hcase as [H0 Hl]. destruct (Z.eqb_spec (word CDead) 0); [done|]. by rewrite Hl.
    + destruct Hcase as (H0 & Hl & Ho & _ & Hfp & He). destruct (Z.eqb_spec (word (CLive k' v' o')) 0); [done|].
      rewrite Hl, Ho, He. cbn [negb orb]. destruct (negb _); [done|]. rewrite res_bind_ret, bool_decide_false; [done|].
      intros <-. apply Hu in Hc. rewrite Ej in Hc. apply probe_inj in Hc; lia.
Qed.

Lemma probe_miss t cells k :
  slots t = word <$> cells → (∀ c, c ∈ cells → cell_ok (log t) c) → absent cells k →
  let size := zlen cells in let s := start k size in
  ∀ fuel n i, 0 ≤ n → n + Z.of_nat fuel = size → wrap size i = (s + n) mod size →
  probe_loop t k (hashFingerprint (Hash maphash k)) fuel i = Ret None.
Proof.
  intros Es Hok Ha size s. induction fuel as [|fuel IH]; intros n i Hn Hf Hw; [done|].
  assert (Hz : zlen (slots t) = size) by (by rewrite Es, zlen_fmap).
  cbn [probe_loop]. rewrite Hz, Hw.
  assert (Hi : 0 ≤ (s + n) mod size < size) by (apply Z.mod_pos_bound; lia).
  destruct (znth_is_Some cells ((s + n) mod size) Hi) as [c Hc].
  destruct (probe_cell t cells _ k _ Es Hok Hc) as (-> & Hcase). cbn [or_panic]. rewrite res_bind_ret.
  assert (Hrec : probe_loop t k (hashFingerprint (Hash maphash k)) fuel ((s + n) mod size + 1) = Ret None).
  { apply (IH (n + 1)); [lia|lia|]. by apply wrap_next; lia. }
  destruct c as [| |k' v' o'].
  - by rewrite Hcase.
  - destruct Hcase as [H0 Hl]. destruct (Z.eqb_spec (word CDead) 0); [done|]. by rewrite Hl.
  - destruct Hcase as (H0 & Hl & Ho & _ & Hfp & He). destruct (Z.eqb_spec (word (CLive k' v' o')) 0); [done|].
    rewrite Hl, Ho, He. cbn [negb orb]. destruct (negb _); [done|]. rewrite res_bind_ret, bool_decide_false; [done|].
    intros <-. apply (Ha v' o'), elem_of_znth. eauto.
Qed.

Lemma place_index_ok t cells s :
  slots t = word <$> cells → (∀ c, c ∈ cells → cell_ok (log t) c) → 0 ≤ s →
  live_count cells < zlen cells →
  ∀ fuel n i deleted, 0 ≤ n → n + Z.of_nat fuel = zlen cells → wrap (zlen cells) i = (s + n) mod zlen cells →
  place_state cells s n deleted →
  ∃ j, place_index (slots t) fuel i deleted = Ret j ∧ free_at cells j ∧ reach cells s j.
Proof.
  intros Es Hok Hs Hlive. unfold place_state. set (size := zlen cells) in *.
  assert (Hsz : 0 < size) by (pose proof (live_count_bytes cells); lia).
  assert (Hdel : ∀ d deleted n, 0 ≤ d < n → n ≤ size → deleted = (s + d) mod size →
    (∀ m, 0 ≤ m < n → znth cells ((s + m) mod size) ≠ Some CEmpty) → reach cells s deleted ∧ 0 ≤ deleted).
  { intros d deleted n Hd Hn -> Hne. split; [|apply Z.mod_pos_bound; lia].
    exists d. split_and!; [lia..|done|]. intros m Hm. apply Hne. lia. }
  induction fuel as [|fuel IH]; intros n i deleted Hn Hf Hw [Hne Hdl]; cbn [place_index].
  - destruct Hdl as [[-> Hall]|(d & Hd & Ed & Hc)].
    + exfalso. apply (not_all_live cells s); [done..|]. intros m Hm. apply Hall. fold size in Hm. lia.
    + destruct (Hdel d deleted n) as [Hr H0]; [lia|lia|done|done|].
      destruct (Z.leb_spec 0 deleted); [|lia]. exists deleted. split_and!; [done|by right|done].
  - assert (Hz : zlen (slots t) = size) by (by rewrite Es, zlen_fmap). rewrite Hz, Hw.
    assert (Hi : 0 ≤ (s + n) mod size < size) by (apply Z.mod_pos_bound; lia).
    destruct (znth_is_Some cells ((s + n) mod size) Hi) as [c Hc].
    destruct (probe_cell t cells _ [] _ Es Hok Hc) as (-> & Hcase). cbn [or_panic]. rewrite res_bind_ret.
    assert (Hnext : wrap size ((s + n) mod size + 1) = (s + (n + 1)) mod size) by (apply wrap_next; lia).
    destruct c as [| |k' v' o'].
    + rewrite Hcase. cbn [Z.eqb]. destruct Hdl as [[-> Hall]|(d & Hd & Ed & Hcd)].
      * eexists. split; [done|]. split; [by left|]. exists n. split_and!; [lia..|done|]. intros m Hm. apply Hne. lia.
      * destruct (Hdel d deleted n) as [Hr H0]; [lia|lia|done|done|].
        destruct (Z.leb_spec 0 deleted); [|lia]. exists deleted. split_and!; [done|by right|done].
    + destruct Hcase as [H0 Hl]. destruct (Z.eqb_spec (word CDead) 0); [done|]. rewrite Hl.
      apply (IH (n + 1)); [lia|lia|done|]. split.
      * intros m Hm. destruct (decide (m = n)) as [->|]; [by rewrite Hc|apply Hne; lia].
      * right. destruct Hdl as [[-> Hall]|(d & Hd & Ed & Hcd)].
        -- exists n. split_and!; [lia..|done|done].
        -- destruct (Hdel d deleted n) as [Hr Hd0]; [lia|lia|done|done|].
           destruct (Z.ltb_spec deleted 0); [lia|]. exists d. split_and!; [lia..|done|done].
    + destruct Hcase as (H0 & Hl & _). destruct (Z.eqb_spec (word (CLive k' v' o')) 0); [done|]. rewrite Hl.
      apply (IH (n + 1)); [lia|lia|done|]. split.
      * intros m Hm. destruct (decide (m = n)) as [->|]; [by rewrite Hc|apply Hne; lia].
      * destruct Hdl as [[-> Hall]|(d & Hd & Ed & Hcd)]; [left|right; exists d; split_and!; [lia..|done|done]].
        split; [done|]. intros m Hm. destruct (decide (m = n)) as [->|]; [|apply Hall; lia].
        unfold free_at. fold size. rewrite Hc. intros [?|?]; done.
Qed.

(** For an absent key [insert_index] searches the same slot. *)
Lemma insert_index_absent t cells k :
  slots t = word <$> cells → (∀ c, c ∈ cells → cell_ok (log t) c) → absent cells k → ∀ fuel i deleted,
  insert_index t k (hashFingerprint (Hash maphash k)) fuel i deleted =
  (j ← place_index (slots t) fuel i deleted; Ret (At_free j)).
Proof.
  intros Es Hok Ha. induction fuel as [|fuel IH]; intros i deleted; cbn [insert_index place_index].
  - by destruct (0 <=? deleted).
  - destruct (znth (slots t) _) as [w|] eqn:Ew; [|done]. cbn [or_panic]. rewrite !res_bind_ret.
    rewrite Es, znth_fmap in Ew. destruct (znth cells _) as [c|] eqn:Ec; [|done]. injection Ew as <-.
    destruct (probe_cell t cells _ k _ Es Hok Ec) as (_ & Hcase).
    destruct c as [| |k' v' o'].
    + by rewrite Hcase.
    + destruct Hcase as [H0 Hl]. destruct (Z.eqb_spec (word CDead) 0); [done|]. rewrite Hl. apply IH.
    + destruct Hcase as (H0 & Hl & Ho & _ & Hfp & He). destruct (Z.eqb_spec (word (CLive k' v' o')) 0); [done|].
      rewrite Hl, Ho, He. assert (Hne : k ≠ k').
      { intros <-. apply (Ha v' o'), elem_of_znth. eauto. }
      rewrite bool_decide_false by done. destruct (_ =? hashFingerprint _); rewrite res_bind_ret; apply IH.
Qed.

Definition filter_for (flt size : Z) (k : list byte) : Z :=
  if size =? initialCapacity then Z.lor flt (tinyFilterBits (Hash maphash k)) else flt.

Lemma Core_insert l flt cells j k v o c0 :
  Core l flt cells → znth cells j = Some c0 → cell_live c0 = false →
  reach cells (start k (zlen cells)) j → absent cells k →
  cell_ok l (CLive k v o) →
  Core l (filter_for flt (zlen cells) k) (<[Z.to_nat j := CLive k v o]> cells).
Proof.
  intros [Hok Hp Hu Hf] Hj Hc0 Hr Ha Hnew. pose proof (znth_Some _ _ _ Hj) as Hjr. split.
  - intros c Hc. apply (elem_of_upd _ _ _ _ _ Hj) in Hc as [->|]; [done|auto].
  - intros i k' v' o' Hi. rewrite znth_upd in Hi by done. rewrite zlen_insert. apply reach_upd; [done..|].
    destruct (decide _); [by simplify_eq|eauto].
  - intros i i' k' v1 o1 v2 o2 Hi Hi'. rewrite znth_upd in Hi, Hi' by done.
    destruct (decide (i = j)), (decide (i' = j)); simplify_eq; try done; [..|by eapply Hu].
    all: exfalso; eapply Ha, elem_of_znth; eauto.
  - rewrite zlen_insert. intros E4 k' v' o' Hin. unfold filter_for. rewrite E4. cbn [Z.eqb].
    apply (elem_of_upd _ _ _ _ _ Hj) in Hin as [[= -> -> ->]|Hin]; [apply filter_new|].
    apply filter_sub. by eapply Hf.
Qed.

Lemma Core_remove l flt cells j c0 :
  Core l flt cells → znth cells j = Some c0 → Core l flt (<[Z.to_nat j := CDead]> cells).
Proof.
  intros [Hok Hp Hu Hf] Hj. pose proof (znth_Some _ _ _ Hj) as Hjr. split.
  - intros c Hc. apply (elem_of_upd _ _ _ _ _ Hj) in Hc as [->|]; [done|auto].
  - intros i k' v' o' Hi. rewrite znth_upd in Hi by done. rewrite zlen_insert. apply reach_upd; [done..|].
    destruct (decide _); [done|eauto].
  - intros i i' k' v1 o1 v2 o2 Hi Hi'. rewrite znth_upd in Hi, Hi' by done.
    destruct (decide (i = j)), (decide (i' = j)); simplify_eq; try done. by eapply Hu.
  - rewrite zlen_insert. intros E4 k' v' o' Hin.
    apply (elem_of_upd _ _ _ _ _ Hj) in Hin as [?|Hin]; [done|by eapply Hf].
Qed.

Lemma Core_setval l flt cells j k v o v' :
  Core l flt cells → znth cells j = Some (CLive k v o) → 0 ≤ v' < 2 ^ 27 →
  Core l flt (<[Z.to_nat j := CLive k v' o]> cells).
Proof.
  intros [Hok Hp Hu Hf] Hj Hv. pose proof (znth_Some _ _ _ Hj) as Hjr. split.
  - intros c Hc. apply (elem_of_upd _ _ _ _ _ Hj) in Hc as [->|]; [|auto].
    destruct (Hok (CLive k v o)) as (?&?&?); [apply elem_of_znth; eauto|done].
  - intros i k0 v0 o0 Hi. rewrite znth_upd in Hi by done. rewrite zlen_insert. apply reach_upd; [done..|].
    destruct (decide _); [simplify_eq; eauto|eauto].
  - intros i i' k0 v1 o1 v2 o2 Hi Hi'. rewrite znth_upd in Hi, Hi' by done.
    destruct (decide (i = j)), (decide (i' = j)); simplify_eq; try done; symmetry || idtac; by eapply Hu.
  - rewrite zlen_insert. intros E4 k0 v0 o0 Hin.
    apply (elem_of_upd _ _ _ _ _ Hj) in Hin as [[= -> -> ->]|Hin]; [|by eapply Hf].
    eapply (Hf E4), elem_of_znth; eauto.
Qed.

Lemma Core_filter l flt cells k :
  Core l flt cells → Core l (filter_for flt (zlen cells) k) cells.
Proof.
  intros [Hok Hp Hu Hf]. split; try done. intros E4 k' v' o' Hin. unfold filter_for. rewrite E4. cbn [Z.eqb].
  apply filter_sub. by eapply Hf.
Qed.

Lemma Core_log l x flt cells : Core l flt cells → Core (l ++ x) flt cells.
Proof. intros [Hok Hp Hu Hf]. split; try done. intros c Hc. by apply cell_ok_app, Hok. Qed.

Lemma Core_empty l flt n : Core l flt (replicate n CEmpty).
Proof.
  split.
  - intros c [-> _]%elem_of_replicate. done.
  - intros i k v o H. pose proof (znth_Some _ _ _ H). rewrite znth_lookup in H by lia.
    by apply lookup_replicate in H as [? _].
  - intros i j k v o v' o' H. pose proof (znth_Some _ _ _ H). rewrite znth_lookup in H by lia.
    by apply lookup_replicate in H as [? _].
  - intros _ k v o [? _]%elem_of_replicate. done.
Qed.
End Invariant.
