(* ===== verification/TableOps.v ===== *)
(** * Operations of the index table keep its invariant

    Placement, the two rebuilds, growth, insertion and deletion, each stated
    on the ghost cells of [TableInv]. *)
From S2P Require Import Prelude KeyPack KeyPackFacts Table TableFacts TableInv.
Set Default Proof Using "Type".

Definition live_keys (cells : list cell) : list (list byte) :=
  omap (fun c => match c with CLive k _ _ => Some k | _ => None end) cells.

Section Ops.
Context (maphash : list byte → Z).

Abbreviation word := (word maphash).
Abbreviation Core := (Core maphash).
Abbreviation TInv := (TInv maphash).
Abbreviation Hash := (Hash maphash).

(** ** Placing a key *)

(** The part of the invariant that holds in the middle of a rebuild. *)
Record Built (t : Table) (cells : list cell) : Prop := {
  bu_slots : slots t = word <$> cells;
  bu_core : Core (log t) (tinyFilter t) cells;
  bu_count : count t = live_count cells
}.

Lemma Built_len t cells : Built t cells → zlen (slots t) = zlen cells.
Proof. intros H. by rewrite (bu_slots _ _ H), zlen_fmap. Qed.

Lemma zupd_fmap cells j c c0 :
  znth cells j = Some c0 → zupd (word <$> cells) j (word c) = Some (word <$> <[Z.to_nat j := c]> cells).
Proof.
  intros H. pose proof (znth_Some _ _ _ H). rewrite zupd_Some by (by rewrite zlen_fmap).
  by rewrite list_fmap_insert.
Qed.

Lemma place_ok t cells k v o :
  Built t cells → live_count cells < zlen cells → live_count cells < 2 ^ 32 - 1 →
  absent cells k → cell_ok (log t) (CLive k v o) →
  ∃ j c0 t', placeKnownAbsent t (Hash k) v o = Ret t' ∧
    znth cells j = Some c0 ∧ cell_live c0 = false ∧ Built t' (<[Z.to_nat j := CLive k v o]> cells) ∧
    log t' = log t ∧ logcap t' = logcap t ∧ deadBytes t' = deadBytes t.
Proof.
  intros HB Hl H32 Ha Hok. pose proof (Built_len _ _ HB) as Hz. destruct HB as [Es Hcore Hcnt].
  pose proof (live_count_bytes cells) as [H0 _].
  destruct (place_index_ok maphash t cells (start maphash k (zlen cells)) Es (co_ok _ _ _ _ Hcore)
    ltac:(apply start_range; lia) Hl (length (slots t)) 0 (start maphash k (zlen cells)) (-1)) as (j & Ej & Hfree & Hr).
  { lia. } { unfold zlen in *. lia. } { apply wrap_start, start_range. lia. }
  { split; [lia|]. left. split; [done|lia]. }
  assert (Hc0 : ∃ c0, znth cells j = Some c0 ∧ cell_live c0 = false) by (destruct Hfree; eauto).
  destruct Hc0 as (c0 & Hj & Hc0). exists j, c0. unfold placeKnownAbsent. rewrite Hz.
  set (t1 := if zlen cells =? initialCapacity then _ else t).
  assert (E1 : slots t1 = slots t ∧ log t1 = log t ∧ logcap t1 = logcap t ∧ deadBytes t1 = deadBytes t ∧ count t1 = count t ∧
    tinyFilter t1 = filter_for maphash (tinyFilter t) (zlen cells) k).
  { unfold t1, filter_for. by destruct (_ =? _). }
  clearbody t1. destruct E1 as (E1 & El & Ec & Ed & En & Ef).
  rewrite probeStart_start, E1, Hz, Ej, res_bind_ret, Es.
  change (slotWord (hashFingerprint (Hash k)) v o) with (word (CLive k v o)).
  rewrite (zupd_fmap _ _ _ _ Hj). cbn [or_panic]. rewrite res_bind_ret.
  eexists. split; [done|]. split_and!; try done. split; cbn [set_slots slots log tinyFilter count]; [done|..].
  - rewrite El, Ef. by eapply Core_insert.
  - rewrite (live_count_insert _ _ _ _ Hj), Hc0, En, Hcnt. cbn [cell_live]. rewrite u32_id by lia. lia.
Qed.

(** What placing a key at a free cell does to the contents. *)
Lemma placed_contents cells j c0 k v o :
  znth cells j = Some c0 → cell_live c0 = false →
  let cells' := <[Z.to_nat j := CLive k v o]> cells in
  zlen cells' = zlen cells ∧ live_count cells' = live_count cells + 1 ∧
  live_bytes cells' = live_bytes cells + zlen (key_record k) ∧
  (∀ k' v', stores cells' k' v' ↔ stores cells k' v' ∨ (k' = k ∧ v' = v)).
Proof.
  intros Hj Hc0 cells'. unfold cells'. rewrite zlen_insert, (live_count_insert _ _ _ _ Hj), (live_bytes_insert _ _ _ _ Hj), Hc0.
  assert (Hb0 : cell_bytes c0 = 0) by by destruct c0. rewrite Hb0. cbn [cell_live cell_bytes].
  split_and!; [done|lia..|]. intros k' v'. unfold stores. split.
  - intros [o' Hin]. apply (elem_of_upd _ _ _ _ _ Hj) in Hin as [[= -> -> ->]|Hin]; eauto.
  - intros [[o' Hin]|[-> ->]]; [|exists o; by eapply elem_of_upd_new].
    destruct (decide (CLive k' v' o' = CLive k v o)) as [[= -> -> ->]|Hne]; [exists o; by eapply elem_of_upd_new|].
    exists o'. eapply elem_of_upd_iff; try done. by intros <-.
Qed.

(** ** Rebuilding *)

Lemma live_keys_in cells k : k ∈ live_keys cells ↔ ∃ v o, CLive k v o ∈ cells.
Proof.
  unfold live_keys. rewrite list_elem_of_omap. split.
  - intros ([| |k' v o] & Hin & [= <-]). eauto.
  - intros (v & o & Hin). exists (CLive k v o). done.
Qed.

Lemma live_keys_nodup l flt cells : Core l flt cells → NoDup (live_keys cells).
Proof.
  intros [_ _ Hu _].
  assert (H : ∀ i j k v o v' o', cells !! i = Some (CLive k v o) → cells !! j = Some (CLive k v' o') → i = j).
  { intros i j k v o v' o' Hi Hj.
    assert (Z.of_nat i = Z.of_nat j); [|lia].
    eapply Hu; rewrite znth_lookup, Nat2Z.id by lia; eauto. }
  clear Hu. induction cells as [|c cells IH]; [constructor|].
  assert (IH' : NoDup (live_keys cells)).
  { apply IH. intros i j k v o v' o' Hi Hj. assert (S i = S j); [|lia]. by eapply H. }
  unfold live_keys in *. cbn [omap list_omap]. destruct c as [| |k v o]; try done. constructor; [|done].
  intros Hin. fold (live_keys cells) in Hin. apply live_keys_in in Hin as (v' & o' & Hin).
  apply list_elem_of_lookup in Hin as [i Hi]. by specialize (H O (S i) k v o v' o' eq_refl Hi).
Qed.

(** What a rebuild loop has done when it ends. *)
Record Rebuilt (cells rest cells' : list cell) : Prop := {
  rb_len : zlen cells' = zlen cells;
  rb_count : live_count cells' = live_count cells + live_count rest;
  rb_bytes : live_bytes cells' = live_bytes cells + live_bytes rest;
  rb_stores : ∀ k v, stores cells' k v ↔ stores cells k v ∨ stores rest k v
}.

Lemma Rebuilt_refl cells : Rebuilt cells [] cells.
Proof.
  split; [done|change (live_count []) with 0; lia|change (live_bytes []) with 0; lia|].
  intros k v. split; [by left|]. intros [?|[o Hin]]; [done|by apply not_elem_of_nil in Hin].
Qed.

Lemma Rebuilt_skip cells c rest cells' :
  cell_live c = false → Rebuilt cells rest cells' → Rebuilt cells (c :: rest) cells'.
Proof.
  intros Hc [Hl Hn Hb Hs]. split; rewrite ?live_count_cons, ?live_bytes_cons.
  - done.
  - rewrite Hc. lia.
  - assert (cell_bytes c = 0) by by destruct c. lia.
  - intros k v. rewrite Hs. unfold stores. setoid_rewrite elem_of_cons.
    split; [intros [?|[o Ho]]; [by left|right; exists o; by right]|].
    intros [?|[o [Ho|?]]]; [by left|by subst c|eauto].
Qed.

Lemma Rebuilt_place cells j c0 k v o o' rest cells' :
  znth cells j = Some c0 → cell_live c0 = false →
  Rebuilt (<[Z.to_nat j := CLive k v o']> cells) rest cells' → Rebuilt cells (CLive k v o :: rest) cells'.
Proof.
  intros Hj Hc0 [Hl Hn Hb Hs].
  destruct (placed_contents cells j c0 k v o' Hj Hc0) as (El & En & Eb & Es).
  rewrite El in Hl. rewrite En in Hn. rewrite Eb in Hb. split; [done| | |].
  - rewrite Hn, live_count_cons. cbn [cell_live]. lia.
  - rewrite Hb, live_bytes_cons. cbn [cell_bytes]. lia.
  - intros k' v'. rewrite Hs, Es. unfold stores. setoid_rewrite elem_of_cons.
    split; [intros [[?|[-> ->]]|[o1 Ho1]]; eauto|].
    intros [?|[o1 [[= -> -> _]|Ho1]]]; eauto.
Qed.

Definition fits_rest (cells rest : list cell) : Prop :=
  live_count cells + live_count rest ≤ zlen cells ∧ live_count cells + live_count rest < 2 ^ 32 ∧
  NoDup (live_keys rest) ∧ ∀ k, k ∈ live_keys rest → absent cells k.

Lemma fits_skip cells c rest : cell_live c = false → fits_rest cells (c :: rest) → fits_rest cells rest.
Proof.
  intros Hc (Hl & H32 & Hnd & Ha). rewrite live_count_cons, Hc in *.
  unfold live_keys in *. cbn [omap list_omap] in *. destruct c; [..|done]; split_and!; done || lia.
Qed.

Lemma fits_place cells j c0 k v o o' rest :
  fits_rest cells (CLive k v o :: rest) → znth cells j = Some c0 → cell_live c0 = false →
  fits_rest (<[Z.to_nat j := CLive k v o']> cells) rest.
Proof.
  intros (Hl & H32 & Hnd & Ha) Hj Hc0. destruct (placed_contents cells j c0 k v o' Hj Hc0) as (El & En & _ & Es).
  unfold live_keys in *. cbn [omap list_omap] in *. inversion Hnd as [|? ? Hk Hnd']; subst.
  rewrite live_count_cons in Hl, H32. cbn [cell_live] in *.
  split_and!; [rewrite El, En; lia|rewrite En; lia|done|].
  intros k' Hk' v' o1 Hin. apply (elem_of_upd _ _ _ _ _ Hj) in Hin as [[= -> -> ->]|Hin]; [done|].
  apply (Ha k' ltac:(apply elem_of_cons; by right) v' o1 Hin).
Qed.

Lemma fits_next cells k v o rest :
  fits_rest cells (CLive k v o :: rest) →
  live_count cells < zlen cells ∧ live_count cells < 2 ^ 32 - 1 ∧ absent cells k.
Proof.
  intros (Hl & H32 & _ & Ha). rewrite live_count_cons in Hl, H32. cbn [cell_live] in *. pose proof (live_count_bytes rest).
  split_and!; [lia..|]. apply Ha. unfold live_keys. cbn [omap list_omap]. apply elem_of_cons. by left.
Qed.

Lemma rebuildSlots_ok : ∀ rest t cells,
  Built t cells → (∀ c, c ∈ rest → cell_ok (log t) c) → fits_rest cells rest →
  ∃ t' cells', rebuildSlots_loop maphash t (word <$> rest) = Ret t' ∧ Built t' cells' ∧
    Rebuilt cells rest cells' ∧ log t' = log t ∧ logcap t' = logcap t ∧ deadBytes t' = deadBytes t.
Proof.
  induction rest as [|c rest IH]; intros t cells HB Hok Hf.
  - exists t, cells. split_and!; try done. apply Rebuilt_refl.
  - cbn [fmap list_fmap rebuildSlots_loop].
    assert (Hc : cell_ok (log t) c) by (apply Hok, elem_of_cons; by left).
    assert (Hok' : ∀ c, c ∈ rest → cell_ok (log t) c) by (intros; apply Hok, elem_of_cons; by right).
    pose proof (word_live maphash _ _ Hc) as Hw. destruct (cell_live c) eqn:El.
    + destruct c as [| |k v o]; try done. destruct Hw as (_ & -> & _ & Hv & Ho). cbn [negb].
      rewrite Ho, Hv. rewrite (recordHash_at maphash t o k) by apply Hc. rewrite res_bind_ret.
      destruct (fits_next _ _ _ _ _ Hf) as (Hl & H32 & Ha).
      destruct (place_ok t cells k v o HB Hl H32 Ha Hc) as (j & c0 & t1 & -> & Hj & Hc0 & HB1 & El1 & Ec1 & Ed1).
      rewrite res_bind_ret.
      destruct (IH t1 _ HB1) as (t' & cells' & -> & HB' & HR & E1 & E2 & E3).
      { intros c Hin. rewrite El1. auto. } { by eapply fits_place. }
      exists t', cells'. split_and!; try congruence; [done..|]. by eapply Rebuilt_place.
    + assert (Hsk : isLive (word c) = false) by (destruct c; [by rewrite Hw|apply Hw|done]).
      rewrite Hsk. cbn [negb]. destruct (IH t cells HB Hok') as (t' & cells' & E & HB' & HR & HE); [by eapply fits_skip|].
      exists t', cells'. split_and!; try done; try apply HE. by apply Rebuilt_skip.
Qed.

Lemma rec_slice l o k : rec_at l o k → zslice l o (o + zlen (key_record k)) = Some (key_record k).
Proof. intros (pre & suf & -> & <- & _). by apply zslice_app. Qed.

Lemma Built_append t cells bs cap :
  Built t cells → Built (set_log t (log t ++ bs) cap) cells.
Proof. intros [? ? ?]. split; [done| |done]. cbn. by apply Core_log. Qed.

Context (growslice : Z → Z → Z).

Lemma rebuildPacked_ok oldLog : ∀ rest t cells,
  Built t cells → (∀ c, c ∈ rest → cell_ok oldLog c) → fits_rest cells rest →
  zlen (log t) + live_bytes rest ≤ logcap t → zlen (log t) + live_bytes rest ≤ maxLogBytes →
  ∃ t' cells', rebuildPacked_loop maphash growslice t oldLog (word <$> rest) = Ret t' ∧ Built t' cells' ∧
    Rebuilt cells rest cells' ∧ zlen (log t') = zlen (log t) + live_bytes rest ∧
    logcap t' = logcap t ∧ deadBytes t' = deadBytes t.
Proof.
  induction rest as [|c rest IH]; intros t cells HB Hok Hf Hcap Hmax.
  - exists t, cells. change (live_bytes []) with 0 in *. split_and!; try done; [apply Rebuilt_refl|lia].
  - cbn [fmap list_fmap rebuildPacked_loop]. rewrite live_bytes_cons in *.
    assert (Hc : cell_ok oldLog c) by (apply Hok, elem_of_cons; by left).
    assert (Hok' : ∀ c, c ∈ rest → cell_ok oldLog c) by (intros; apply Hok, elem_of_cons; by right).
    pose proof (word_live maphash _ _ Hc) as Hw. destruct (cell_live c) eqn:El.
    + destruct c as [| |k v o]; try done. destruct Hw as (_ & -> & _ & Hv & Ho). cbn [negb cell_bytes] in *.
      pose proof Hc as (Hrec & Hvr & Hor). pose proof Hrec as (_ & _ & _ & _ & Hk63).
      rewrite Ho, Hv, (recordLen_at _ _ _ Hrec), res_bind_ret, (rec_slice _ _ _ Hrec). cbn [or_panic].
      rewrite res_bind_ret. unfold log_append. pose proof (live_count_bytes rest). pose proof (zlen_nonneg (log t)).
      pose proof (key_record_len k). change maxLogBytes with (2 ^ 30) in *.
      destruct (Z.leb_spec (zlen (log t) + zlen (key_record k)) (logcap t)); [|lia].
      set (t1 := set_log t _ _). assert (HB1 : Built t1 cells) by by apply Built_append.
      rewrite u32_id by lia.
      assert (Hr1 : rec_at (log t1) (zlen (log t)) k) by by apply rec_at_end.
      rewrite (recordHash_at maphash t1 _ k Hr1), res_bind_ret.
      destruct (fits_next _ _ _ _ _ Hf) as (Hl & H32 & Ha).
      destruct (place_ok t1 cells k v (zlen (log t)) HB1 Hl H32 Ha) as (j & c0 & t2 & -> & Hj & Hc0 & HB2 & El2 & Ec2 & Ed2).
      { split_and!; [done|lia..]. }
      assert (Hlen2 : zlen (log t2) = zlen (log t) + zlen (key_record k)) by (rewrite El2; apply zlen_app).
      rewrite res_bind_ret.
      destruct (IH t2 _ HB2 Hok') as (t' & cells' & -> & HB' & HR & E1 & E2 & E3).
      { by eapply fits_place. } { rewrite Hlen2, Ec2. cbn. lia. } { rewrite Hlen2. lia. }
      exists t', cells'. split_and!; [done|done|by eapply Rebuilt_place|lia|by rewrite E2, Ec2|by rewrite E3, Ed2].
    + assert (Hsk : isLive (word c) = false) by (destruct c; [by rewrite Hw|apply Hw|done]).
      assert (Hb0 : cell_bytes c = 0) by by destruct c. rewrite Hb0, Z.add_0_l in *.
      rewrite Hsk. cbn [negb]. destruct (IH t cells HB Hok') as (t' & cells' & E & HB' & HR & HE); [by eapply fits_skip|lia..|].
      exists t', cells'. split_and!; try done; try apply HE. by apply Rebuilt_skip.
Qed.

(** ** Rebuilds keep the table *)

Lemma accepts_le n capacity : capacityAccepts n capacity = true → 0 ≤ capacity → n ≤ capacity.
Proof. unfold capacityAccepts, initialCapacity. intros H Hc. destruct (Z.eqb_spec capacity 4); apply Z.leb_le in H; dlia. Qed.

Lemma TInv_count t cells : TInv t cells → 0 ≤ count t < 2 ^ 31.
Proof.
  intros H. rewrite (ti_count _ _ _ H). pose proof (live_count_bytes cells).
  pose proof (ti_log _ _ _ H). pose proof (ti_dead _ _ _ H). pose proof (ti_max _ _ _ H) as Hm.
  change maxLogBytes with (2 ^ 30) in Hm. lia.
Qed.

Lemma empty_cells n : live_count (replicate n CEmpty) = 0 ∧ live_bytes (replicate n CEmpty) = 0.
Proof. induction n as [|n [IH1 IH2]]; [done|]. cbn [replicate]. rewrite live_count_cons, live_bytes_cons. cbn [cell_live cell_bytes]. lia. Qed.

Lemma absent_empty n k : absent (replicate n CEmpty) k.
Proof. intros v o [? _]%elem_of_replicate. done. Qed.

Lemma fits_fresh t cells capacity :
  TInv t cells → capacityAccepts (count t) capacity = true → 0 ≤ capacity →
  fits_rest (replicate (Z.to_nat capacity) CEmpty) cells.
Proof.
  intros H Ha Hc. pose proof (TInv_count _ _ H). pose proof (accepts_le _ _ Ha Hc). rewrite (ti_count _ _ _ H) in *.
  destruct (empty_cells (Z.to_nat capacity)) as [E _]. unfold fits_rest. rewrite E, zlen_replicate by done.
  split_and!; [lia..| |intros; apply absent_empty]. by eapply live_keys_nodup, ti_core.
Qed.

Lemma replicate_word n : replicate n 0 = word <$> replicate n CEmpty.
Proof. by rewrite fmap_replicate. Qed.

(** The contents after a rebuild into fresh slots. *)
Lemma Rebuilt_fresh n cells cells' :
  Rebuilt (replicate n CEmpty) cells cells' →
  zlen cells' = Z.of_nat n ∧ live_count cells' = live_count cells ∧ live_bytes cells' = live_bytes cells ∧
  ∀ k v, stores cells' k v ↔ stores cells k v.
Proof.
  intros [Hl Hn Hb Hs]. destruct (empty_cells n) as [E1 E2]. split_and!; [|lia..|].
  - rewrite Hl. unfold zlen. by rewrite length_replicate.
  - intros k v. rewrite Hs. split; [|by right]. intros [[o Ho]|?]; [|done]. by apply absent_empty in Ho.
Qed.

Lemma rebuildSlots_TInv t cells capacity :
  TInv t cells → capacityAccepts (count t) capacity = true → 0 ≤ capacity →
  ∃ t' cells', rebuildSlots maphash t capacity = Ret t' ∧ TInv t' cells' ∧ zlen cells' = capacity ∧
    count t' = count t ∧ log t' = log t ∧ ∀ k v, stores cells' k v ↔ stores cells k v.
Proof.
  intros H Ha Hc. unfold rebuildSlots. rewrite replicate_word, (ti_slots _ _ _ H).
  destruct (rebuildSlots_ok cells (mkTable (word <$> replicate (Z.to_nat capacity) CEmpty) (log t) (logcap t) (deadBytes t) 0 0)
    (replicate (Z.to_nat capacity) CEmpty)) as (t' & cells' & -> & HB & HR & E1 & E2 & E3).
  { split; [done|apply Core_empty|]. by destruct (empty_cells (Z.to_nat capacity)) as [-> _]. }
  { cbn [log]. apply (co_ok _ _ _ _ (ti_core _ _ _ H)). } { by eapply fits_fresh. }
  apply Rebuilt_fresh in HR as (Hl & Hn & Hb & Hs). rewrite Z2Nat.id in Hl by done. cbn [log logcap deadBytes] in *.
  assert (Hcnt : count t' = count t) by (rewrite (bu_count _ _ HB), Hn; by rewrite (ti_count _ _ _ H)).
  exists t', cells'. split_and!; try done. destruct H, HB. split; try done; try congruence.
  right. by rewrite Hl, Hcnt.
Qed.

Lemma rebuildPacked_TInv t cells capacity extra :
  TInv t cells → capacityAccepts (count t) capacity = true → 0 ≤ capacity → 0 ≤ extra →
  ∃ t' cells', rebuildPacked maphash growslice t capacity extra = Ret t' ∧ TInv t' cells' ∧ zlen cells' = capacity ∧
    count t' = count t ∧ zlen (log t') = zlen (log t) - deadBytes t ∧ logcap t' = zlen (log t') + extra ∧
    deadBytes t' = 0 ∧ ∀ k v, stores cells' k v ↔ stores cells k v.
Proof.
  intros H Ha Hc Hx. unfold rebuildPacked. rewrite replicate_word, (ti_slots _ _ _ H).
  pose proof (ti_log _ _ _ H). pose proof (ti_dead _ _ _ H). pose proof (ti_max _ _ _ H).
  destruct (rebuildPacked_ok (log t) cells (mkTable (word <$> replicate (Z.to_nat capacity) CEmpty) [] (zlen (log t) - deadBytes t + extra) 0 0 0)
    (replicate (Z.to_nat capacity) CEmpty)) as (t' & cells' & -> & HB & HR & E1 & E2 & E3).
  { split; [done|apply Core_empty|]. by destruct (empty_cells (Z.to_nat capacity)) as [-> _]. }
  { apply (co_ok _ _ _ _ (ti_core _ _ _ H)). } { by eapply fits_fresh. }
  { cbn [log logcap]. change (zlen []) with 0. lia. } { cbn [log]. change (zlen []) with 0. lia. }
  apply Rebuilt_fresh in HR as (Hl & Hn & Hb & Hs). rewrite Z2Nat.id in Hl by done. cbn [log logcap deadBytes] in *.
  change (zlen []) with 0 in E1.
  assert (Hcnt : count t' = count t) by (rewrite (bu_count _ _ HB), Hn; by rewrite (ti_count _ _ _ H)).
  exists t', cells'. split_and!; try done; try lia. destruct HB. split; try done; try lia.
  right. by rewrite Hl, Hcnt.
Qed.

Lemma rebuild_TInv t cells capacity :
  TInv t cells → capacityAccepts (count t) capacity = true → 0 ≤ capacity →
  ∃ t' cells', rebuild maphash growslice t capacity = Ret t' ∧ TInv t' cells' ∧ zlen cells' = capacity ∧
    count t' = count t ∧ zlen (log t') ≤ zlen (log t) ∧ ∀ k v, stores cells' k v ↔ stores cells k v.
Proof.
  intros H Ha Hc. unfold rebuild. destruct (_ && _).
  - destruct (rebuildPacked_TInv t cells capacity 0 H Ha Hc ltac:(lia)) as (t' & cells' & E & H' & Hl & Hn & Hlog & _ & _ & Hs).
    exists t', cells'. pose proof (ti_dead _ _ _ H). split_and!; try done. lia.
  - destruct (rebuildSlots_TInv t cells capacity H Ha Hc) as (t' & cells' & E & H' & Hl & Hn & Hlog & Hs).
    exists t', cells'. rewrite Hlog. split_and!; try done.
Qed.

Lemma accepts_mono n m capacity : n ≤ m → capacityAccepts m capacity = true → capacityAccepts n capacity = true.
Proof. unfold capacityAccepts. destruct (_ =? _); rewrite !Z.leb_le; lia. Qed.

Lemma growForInsert_TInv t cells :
  TInv t cells →
  ∃ t' cells', growForInsert maphash growslice t = Ret t' ∧ TInv t' cells' ∧ zlen cells' = capacityFor t (count t + 1) ∧
    count t' = count t ∧ zlen (log t') ≤ zlen (log t) ∧ ∀ k v, stores cells' k v ↔ stores cells k v.
Proof.
  intros H. pose proof (TInv_count _ _ H). unfold growForInsert.
  destruct (capacityFor_ok t (count t + 1)) as (Ha & Hle & H1); [lia|].
  assert (Hz : zlen (slots t) = zlen cells) by (by rewrite (ti_slots _ _ _ H), zlen_fmap).
  destruct (Z.eqb_spec (capacityFor t (count t + 1)) (zlen (slots t))) as [E|E].
  - exists t, cells. split_and!; try done. congruence.
  - apply rebuild_TInv; [done| |lia]. by eapply accepts_mono; [|exact Ha]; lia.
Qed.

(** ** Appending a key record *)

Lemma key_len_small k : KeyRecordSize k ≤ maxLogBytes → zlen k < 2 ^ 63.
Proof. change maxLogBytes with (2 ^ 30). destruct (KeyRecordSize_bounds k). lia. Qed.

Lemma appendKey_ok t k :
  zlen (log t) ≤ logcap t → zlen (log t) + KeyRecordSize k ≤ maxLogBytes →
  ∃ cap, appendKey growslice t k = Ret (zlen (log t), set_log t (log t ++ key_record k) cap) ∧
    zlen (log t ++ key_record k) ≤ cap.
Proof.
  intros Hcap Hmax. pose proof (zlen_nonneg (log t)).
  assert (Hk : zlen k < 2 ^ 63) by (apply key_len_small; lia).
  pose proof (zlen_key_record k Hk) as Hlen. unfold appendKey.
  set (need := match packKey k with Some _ => _ | None => _ end).
  assert (En : need = KeyRecordSize k).
  { unfold need, KeyRecordSize. destruct (packKey k) as [p|] eqn:E; [|done].
    destruct (Z.eqb_spec (zlen k) 0) as [H0|]; [|done]. unfold packKey in E. by rewrite H0 in E. }
  clearbody need. subst need. unfold guard_panic. destruct (Z.ltb_spec maxLogBytes (zlen (log t) + KeyRecordSize k)); [lia|].
  set (t1 := if _ <? KeyRecordSize k then _ else t).
  assert (E1 : ∃ cap, t1 = set_log t (log t) cap ∧ zlen (log t) + KeyRecordSize k ≤ cap).
  { unfold t1. destruct (Z.ltb_spec (logcap t - zlen (log t)) (KeyRecordSize k)).
    - eexists. split; [done|]. destruct (Z.ltb_spec (zlen (log t) / 4) 256); dlia.
    - exists (logcap t). split; [by destruct t|lia]. }
  clearbody t1. destruct E1 as (cap & -> & Hc). exists cap. rewrite zlen_app, Hlen. split; [|done].
  change maxLogBytes with (2 ^ 30) in *. pose proof (key_record_len k). cbn [log set_log]. rewrite u32_id by lia. do 2 f_equal.
  unfold key_record in *. unfold log_append. destruct (packKey k) as [p|].
  - cbn [log set_log logcap]. destruct (Z.leb_spec (zlen (log t) + zlen (packed_appendTo p [])) cap); [done|lia].
  - destruct (zlen k =? 0); cbn [log set_log logcap].
    + destruct (Z.leb_spec (zlen (log t) + zlen [packEscape; zb packEmpty]) cap); [done|lia].
    + rewrite zlen_app in Hlen. pose proof (zlen_nonneg k).
      destruct (Z.leb_spec (zlen (log t) + zlen (put_uvarint (zlen k))) cap); [|lia]. cbn [log set_log logcap].
      rewrite zlen_app. destruct (Z.leb_spec (zlen (log t) + zlen (put_uvarint (zlen k)) + zlen k) cap); [|lia].
      by rewrite <- app_assoc.
Qed.

(** ** Lookup *)

Lemma present_dec cells k : (∃ v o, CLive k v o ∈ cells) ∨ absent cells k.
Proof.
  destruct (decide (k ∈ live_keys cells)) as [H|H]; rewrite live_keys_in in H; [by left|right].
  intros v o Hin. eauto.
Qed.

Lemma TInv_len t cells : TInv t cells → zlen (slots t) = zlen cells.
Proof. intros H. by rewrite (ti_slots _ _ _ H), zlen_fmap. Qed.

Lemma probe_ok t cells k :
  Built t cells → 0 < zlen cells →
  (∃ j v o, znth cells j = Some (CLive k v o) ∧
     probe_loop t k (hashFingerprint (Hash k)) (length (slots t)) (probeStart t (Hash k)) = Ret (Some j)) ∨
  (absent cells k ∧
     probe_loop t k (hashFingerprint (Hash k)) (length (slots t)) (probeStart t (Hash k)) = Ret None).
Proof.
  intros HB Hpos. pose proof (Built_len _ _ HB) as Hz. destruct HB as [Es Hcore _].
  assert (Hs : 0 ≤ start maphash k (zlen cells) < zlen cells) by by apply start_range.
  rewrite probeStart_start, Hz. destruct (present_dec cells k) as [(v & o & Hin)|Ha].
  - left. apply elem_of_znth in Hin as [j Hj]. exists j, v, o. split; [done|].
    destruct (co_path _ _ _ _ Hcore _ _ _ _ Hj) as (d & Hd & Ej & Hne).
    apply (probe_hit maphash t cells k v o j d Es (co_ok _ _ _ _ Hcore)) with (n := 0); try done; try lia.
    + intros i v' o' Hi. by eapply (co_uniq _ _ _ _ Hcore).
    + by apply wrap_start.
  - right. split; [done|]. apply (probe_miss maphash t cells k Es (co_ok _ _ _ _ Hcore) Ha) with (n := 0); try done; try (unfold zlen in *; lia).
    + by apply wrap_start.
Qed.

Lemma TInv_Built t cells : TInv t cells → Built t cells.
Proof. intros []. by split. Qed.

(** The filter of a full tiny table never rules out a stored key. *)
Lemma filtered_absent t cells k :
  TInv t cells → filtered t (Hash k) = true → absent cells k.
Proof.
  intros H Hf v o Hin. unfold filtered in Hf. rewrite (TInv_len _ _ H) in Hf.
  destruct (Z.eqb_spec (zlen cells) initialCapacity) as [E4|]; [|done].
  destruct (count t =? initialCapacity); [|done]. cbn [andb] in Hf.
  pose proof (co_filter _ _ _ _ (ti_core _ _ _ H) E4 k v o Hin) as Hb.
  rewrite Hb, Z.eqb_refl in Hf. done.
Qed.

Lemma cells_nil_absent cells k : zlen cells = 0 → absent cells k.
Proof. intros H v o Hin. destruct cells; [by apply not_elem_of_nil in Hin|]. rewrite zlen_cons in H. pose proof (zlen_nonneg cells). lia. Qed.

Lemma GetHashed_ok t cells k :
  TInv t cells →
  (∃ v, GetHashed t k (Hash k) = Ret (Some v) ∧ stores cells k v) ∨
  (GetHashed t k (Hash k) = Ret None ∧ absent cells k).
Proof.
  intros H. pose proof (TInv_len _ _ H) as Hz. unfold GetHashed. rewrite Hz.
  destruct (Z.eqb_spec (zlen cells) 0); [right; split; [done|by apply cells_nil_absent]|].
  destruct (filtered t (Hash k)) eqn:Ef; [right; split; [done|by eapply filtered_absent]|].
  pose proof (zlen_nonneg cells). rewrite get_loop_probe.
  destruct (probe_ok t cells k (TInv_Built _ _ H) ltac:(lia)) as [(j & v & o & Hj & ->)|[Ha ->]]; [left|by right].
  unfold at_slot. rewrite res_bind_ret.
  destruct (probe_cell maphash t cells j k _ (ti_slots _ _ _ H) (co_ok _ _ _ _ (ti_core _ _ _ H)) Hj)
    as (-> & _ & _ & _ & Hv & _).
  cbn [or_panic]. rewrite res_bind_ret, Hv. exists v. split; [done|]. exists o. apply elem_of_znth. eauto.
Qed.

(** ** Insertion *)

Lemma insert_index_probe t key fp fuel : ∀ i deleted j,
  probe_loop t key fp fuel i = Ret (Some j) →
  ∃ w, znth (slots t) j = Some w ∧ insert_index t key fp fuel i deleted = Ret (At_key j (slotOffset w)).
Proof.
  induction fuel as [|fuel IH]; intros i deleted j H; [done|]. cbn [probe_loop insert_index] in *.
  destruct (znth (slots t) _) as [w|] eqn:Ew; [|done]. cbn [or_panic] in *. rewrite !res_bind_ret in *.
  destruct (w =? 0); [done|]. destruct (isLive w); cbn [negb orb] in *; [|by apply IH].
  destruct (slotFingerprint w =? fp); cbn [negb] in *.
  - destruct (keyEquals _ _ _) as [[]| |]; try done; rewrite res_bind_ret in *; [|by apply IH].
    injection H as <-. eauto.
  - rewrite res_bind_ret. by apply IH.
Qed.

Definition with_filter (t : Table) (k : list byte) : Table :=
  if zlen (slots t) =? initialCapacity
  then set_filter t (Z.lor (tinyFilter t) (tinyFilterBits (Hash k))) else t.

Lemma with_filter_TInv t cells k :
  TInv t cells → TInv (with_filter t k) cells ∧ slots (with_filter t k) = slots t ∧
  log (with_filter t k) = log t ∧ logcap (with_filter t k) = logcap t ∧ count (with_filter t k) = count t ∧
  deadBytes (with_filter t k) = deadBytes t ∧
  tinyFilter (with_filter t k) = filter_for maphash (tinyFilter t) (zlen cells) k.
Proof.
  intros H. pose proof (TInv_len _ _ H) as Hz. pose proof (Core_filter maphash _ _ _ k (ti_core _ _ _ H)) as Hc.
  unfold with_filter, filter_for in *. rewrite Hz. destruct (zlen cells =? initialCapacity); [|done].
  split; [|done]. destruct H. by split.
Qed.

Lemma checkValue_ok v : 0 ≤ v ≤ MaxValue → checkValue v = Ret tt.
Proof. intros. unfold checkValue, guard_panic. unfold MaxValue in *. destruct (Z.ltb_spec valueMask v); [lia|done]. Qed.

(** Storing a new value for a present key. *)
Lemma insertHashed_present t cells k v' :
  TInv t cells → 0 ≤ v' ≤ MaxValue → ¬ absent cells k →
  ∃ t' cells', insertHashed growslice t k v' (Hash k) = Ret t' ∧ TInv t' cells' ∧ zlen cells' = zlen cells ∧
    log t' = log t ∧ count t' = count t ∧
    ∀ k' w, stores cells' k' w ↔ (k' = k ∧ w = v') ∨ (k' ≠ k ∧ stores cells k' w).
Proof.
  intros H Hv Hna. destruct (with_filter_TInv t cells k H) as (H1 & _ & El & _ & En & _ & _).
  unfold insertHashed. rewrite checkValue_ok, res_bind_ret by done. fold (with_filter t k).
  set (t1 := with_filter t k) in *. pose proof (TInv_len _ _ H1) as Hz.
  assert (Hpos : 0 < zlen cells).
  { destruct (decide (zlen cells = 0)); [by destruct Hna; apply cells_nil_absent|]. pose proof (zlen_nonneg cells). lia. }
  destruct (probe_ok t1 cells k (TInv_Built _ _ H1) Hpos) as [(j & v & o & Hj & Ep)|[Ha _]]; [|done].
  destruct (insert_index_probe _ _ _ _ _ (-1) _ Ep) as (w & Hw & ->). rewrite res_bind_ret.
  pose proof (probe_cell maphash t1 cells j k _ (ti_slots _ _ _ H1) (co_ok _ _ _ _ (ti_core _ _ _ H1)) Hj)
    as (Hw' & _ & _ & Ho & _). assert (w = word (CLive k v o)) as -> by congruence. rewrite Ho.
  change (slotWord (hashFingerprint (Hash k)) v' o) with (word (CLive k v' o)).
  rewrite (ti_slots _ _ _ H1), (zupd_fmap _ _ _ _ Hj). cbn [or_panic]. rewrite res_bind_ret.
  change MaxValue with (2 ^ 27 - 1) in Hv.
  eexists _, (<[Z.to_nat j := CLive k v' o]> cells). split; [done|].
  assert (Hcnt : live_count (<[Z.to_nat j := CLive k v' o]> cells) = live_count cells)
    by (rewrite (live_count_insert _ _ _ _ Hj); cbn [cell_live]; lia).
  rewrite zlen_insert. split_and!; try done.
  - destruct H1 as [S1 C1 N1 A1 L1 D1 P1 M1]. split; cbn [slots log tinyFilter count deadBytes logcap set_slots]; try done.
    + eapply Core_setval; [done..|lia].
    + by rewrite Hcnt.
    + rewrite zlen_insert. destruct A1 as [->|?]; [done|by right].
    + rewrite (live_bytes_insert _ _ _ _ Hj). cbn [cell_bytes]. lia.
  - intros k' w. unfold stores. split.
    + intros [o' Hin]. pose proof Hin as [i Hi]%elem_of_znth. pose proof (znth_Some _ _ _ Hj).
      rewrite znth_upd in Hi by done. destruct (decide (i = j)) as [->|Hne]; [left; by simplify_eq|right].
      split; [|exists o'; apply elem_of_znth; eauto]. intros ->. apply Hne. by eapply (co_uniq _ _ _ _ (ti_core _ _ _ H)).
    + intros [[-> ->]|[Hne [o' Hin]]]; [exists o; by eapply elem_of_upd_new|]. exists o'.
      eapply elem_of_upd_iff; try done; by intros [= -> _ _].
Qed.

(** Inserting an absent key: the table has room and the log has space. *)
Lemma insertKnownAbsent_ok t cells k v :
  TInv t cells → 0 ≤ v ≤ MaxValue → absent cells k → capacityAccepts (count t + 1) (zlen cells) = true →
  0 < zlen cells → zlen (log t) + KeyRecordSize k ≤ maxLogBytes →
  ∃ t' cells', insertKnownAbsentHashed growslice t k v (Hash k) = Ret t' ∧ TInv t' cells' ∧ zlen cells' = zlen cells ∧
    log t' = log t ++ key_record k ∧ count t' = count t + 1 ∧
    ∀ k' w, stores cells' k' w ↔ (k' = k ∧ w = v) ∨ (k' ≠ k ∧ stores cells k' w).
Proof.
  intros H Hv Ha Hacc Hpos Hmax. pose proof (TInv_count _ _ H) as Hc.
  assert (Hk : zlen k < 2 ^ 63) by (apply key_len_small; pose proof (zlen_nonneg (log t)); lia).
  pose proof (key_record_len k) as Hk1. pose proof (zlen_key_record k Hk) as Hlen.
  unfold insertKnownAbsentHashed. rewrite checkValue_ok, res_bind_ret by done.
  destruct (appendKey_ok t k (ti_cap _ _ _ H) Hmax) as (cap & -> & Hcap). rewrite res_bind_ret.
  set (t1 := set_log t _ cap). change maxLogBytes with (2 ^ 30) in *. change MaxValue with (2 ^ 27 - 1) in Hv.
  assert (HB : Built t1 cells) by (apply Built_append, TInv_Built, H).
  assert (Hl : live_count cells < zlen cells).
  { rewrite <- (ti_count _ _ _ H). apply accepts_le in Hacc; [lia|]. lia. }
  destruct (place_ok t1 cells k v (zlen (log t)) HB Hl) as (j & c0 & t' & -> & Hj & Hc0 & HB' & El & Ec & Ed).
  { rewrite <- (ti_count _ _ _ H). lia. } { done. } { split_and!; [by apply rec_at_end|lia..]. }
  destruct (placed_contents cells j c0 k v (zlen (log t)) Hj Hc0) as (Zl & Zn & Zb & Zs).
  exists t', (<[Z.to_nat j := CLive k v (zlen (log t))]> cells).
  assert (Hcnt : count t' = count t + 1) by (rewrite (bu_count _ _ HB'), Zn, (ti_count _ _ _ H); lia).
  split_and!; try done.
  - destruct H as [S1 C1 N1 A1 L1 D1 P1 M1], HB' as [S2 C2 N2]. split; try done.
    + right. by rewrite Hcnt, Zl.
    + rewrite Ed, El, Zb. cbn [deadBytes log set_log t1]. rewrite zlen_app. lia.
    + by rewrite Ed.
    + rewrite El, Ec. done.
    + rewrite El. cbn [log set_log t1]. rewrite zlen_app. change maxLogBytes with (2 ^ 30). lia.
  - intros k' w. rewrite Zs. split.
    + intros [Hs|?]; [|by left]. right. split; [|done]. intros ->. destruct Hs as [o Ho]. by apply Ha in Ho.
    + intros [?|[_ ?]]; [by right|by left].
Qed.

Lemma appendKey_filter t f k :
  appendKey growslice (set_filter t f) k = ('(o, t') ← appendKey growslice t k; Ret (o, set_filter t' f)).
Proof.
  unfold appendKey, guard_panic. cbn [log logcap set_filter]. destruct (_ <? _); [done|].
  destruct (logcap t - zlen (log t) <? _); destruct (packKey k); try done; by destruct (zlen k =? 0).
Qed.

Lemma placeKnownAbsent_eq t k v o :
  placeKnownAbsent t (Hash k) v o =
  (i ← place_index (slots (with_filter t k)) (length (slots (with_filter t k))) (probeStart (with_filter t k) (Hash k)) (-1);
   s ← or_panic (zupd (slots (with_filter t k)) i (slotWord (hashFingerprint (Hash k)) v o)) oob;
   Ret (set_slots (with_filter t k) s (u32 (count (with_filter t k) + 1)))).
Proof. reflexivity. Qed.

(** The full insert takes the same steps when the key is absent. *)
Lemma insertHashed_absent t cells k v :
  TInv t cells → absent cells k → 0 < zlen cells → zlen (log t) + KeyRecordSize k ≤ maxLogBytes →
  live_count cells < zlen cells →
  insertHashed growslice t k v (Hash k) = insertKnownAbsentHashed growslice t k v (Hash k).
Proof.
  intros H Ha Hpos Hmax Hl. unfold insertHashed, insertKnownAbsentHashed.
  destruct (checkValue v) as [[]| |]; [|done..]. rewrite !res_bind_ret. fold (with_filter t k).
  destruct (with_filter_TInv t cells k H) as (H1 & E1 & El & Ecap & En & Ed & Ef).
  rewrite (insert_index_absent maphash (with_filter t k) cells k (ti_slots _ _ _ H1) (co_ok _ _ _ _ (ti_core _ _ _ H1)) Ha).
  destruct (appendKey_ok t k (ti_cap _ _ _ H) Hmax) as (cap & Eap & _).
  assert (Eap1 : appendKey growslice (with_filter t k) k = Ret (zlen (log t), with_filter (set_log t (log t ++ key_record k) cap) k)).
  { unfold with_filter. cbn [slots set_log tinyFilter]. destruct (_ =? _); [|done].
    by rewrite appendKey_filter, Eap, res_bind_ret. }
  rewrite Eap, !res_bind_ret, placeKnownAbsent_eq.
  assert (Es2 : slots (with_filter (set_log t (log t ++ key_record k) cap) k) = slots t ∧
    count (with_filter (set_log t (log t ++ key_record k) cap) k) = count t).
  { unfold with_filter. cbn [slots set_log]. by destruct (_ =? _). }
  destruct Es2 as [Es2 Ec2]. rewrite E1, Es2, Ec2. unfold probeStart. rewrite E1, Es2.
  destruct (place_index _ _ _ _); [|done..]. by rewrite !res_bind_ret, Eap1, res_bind_ret, Es2, Ec2.
Qed.

(** ** Deletion *)

Lemma no_live cells : live_count cells = 0 → ∀ k, absent cells k.
Proof.
  intros H k v o Hin. apply list_elem_of_split in Hin as (a & b & ->).
  rewrite live_count_app, live_count_cons in H. cbn [cell_live] in H.
  pose proof (live_count_bytes a). pose proof (live_count_bytes b). lia.
Qed.

Lemma no_live_bytes cells : live_count cells = 0 → live_bytes cells = 0.
Proof.
  induction cells as [|c cells IH]; [done|]. rewrite live_count_cons, live_bytes_cons.
  pose proof (live_count_bytes cells). destruct c; cbn [cell_live cell_bytes]; try lia.
Qed.

Lemma TInv_no_live cells :
  live_count cells = 0 → TInv (mkTable (word <$> cells) [] 0 0 0 0) cells.
Proof.
  intros H. pose proof (no_live cells H) as Hn.
  assert (Hz : ∀ i k v o, znth cells i ≠ Some (CLive k v o)).
  { intros i k v o Hi. apply (Hn k v o), elem_of_znth. eauto. }
  split; cbn [slots log tinyFilter count deadBytes logcap]; try done.
  - split.
    + intros [| |k v o] Hin; [done..|]. by apply Hn in Hin.
    + intros i k v o Hi. by apply Hz in Hi.
    + intros i j k v o v' o' Hi. by apply Hz in Hi.
    + intros _ k v o Hin. by apply Hn in Hin.
  - right. unfold capacityAccepts. pose proof (zlen_nonneg cells). destruct (_ =? _); apply Z.leb_le; dlia.
  - by rewrite no_live_bytes.
Qed.

(** The contents after the cell of [k] became a tombstone. *)
Lemma removed_stores l flt cells j k v o :
  Core l flt cells → znth cells j = Some (CLive k v o) →
  ∀ k' w, stores (<[Z.to_nat j := CDead]> cells) k' w ↔ k' ≠ k ∧ stores cells k' w.
Proof.
  intros HC Hj k' w. unfold stores. pose proof (znth_Some _ _ _ Hj). split.
  - intros [o' [i Hi]%elem_of_znth]. rewrite znth_upd in Hi by done.
    destruct (decide (i = j)) as [->|Hne]; [done|].
    split; [|exists o'; apply elem_of_znth; eauto]. intros ->. apply Hne. by eapply (co_uniq _ _ _ _ HC).
  - intros [Hne [o' Hin]]. exists o'. eapply elem_of_upd_iff; try done. by intros [= -> _ _].
Qed.

Lemma deleteHashed_ok t cells k :
  TInv t cells →
  ∃ t' cells', deleteHashed maphash growslice t k (Hash k) = Ret t' ∧ TInv t' cells' ∧ zlen cells' = zlen cells ∧
    zlen (log t') ≤ zlen (log t) ∧ ∀ k' w, stores cells' k' w ↔ k' ≠ k ∧ stores cells k' w.
Proof.
  intros H. pose proof (TInv_len _ _ H) as Hz.
  assert (Habs : absent cells k → ∀ k' w, stores cells k' w ↔ k' ≠ k ∧ stores cells k' w).
  { intros Ha k' w. split; [|tauto]. intros [o Ho]. split; [|by exists o]. intros ->. by apply Ha in Ho. }
  unfold deleteHashed. rewrite Hz. destruct (Z.eqb_spec (zlen cells) 0).
  { exists t, cells. split_and!; try done. by apply Habs, cells_nil_absent. }
  destruct (filtered t (Hash k)) eqn:Ef.
  { exists t, cells. split_and!; try done. by eapply Habs, filtered_absent. }
  pose proof (zlen_nonneg cells). rewrite delete_index_probe.
  destruct (probe_ok t cells k (TInv_Built _ _ H) ltac:(lia)) as [(j & v & o & Hj & ->)|[Ha ->]];
    unfold at_slot; rewrite res_bind_ret; [|exists t, cells; split_and!; try done; by apply Habs].
  pose proof (ti_core _ _ _ H) as HC.
  destruct (probe_cell maphash t cells j k _ (ti_slots _ _ _ H) (co_ok _ _ _ _ HC) Hj) as (-> & _ & _ & Ho & _).
  cbn [or_panic]. rewrite !res_bind_ret, Ho.
  assert (Hcok : cell_ok (log t) (CLive k v o)) by (apply (co_ok _ _ _ _ HC), elem_of_znth; eauto).
  destruct Hcok as (Hrec & _ & _). rewrite (recordLen_at _ _ _ Hrec), res_bind_ret.
  change slotTombstone with (word CDead). rewrite (ti_slots _ _ _ H), (zupd_fmap _ _ _ _ Hj). cbn [or_panic]. rewrite res_bind_ret.
  pose proof (removed_stores _ _ _ _ _ _ _ HC Hj) as Hs.
  pose proof (live_count_insert cells j _ CDead Hj) as Hn'. pose proof (live_bytes_insert cells j _ CDead Hj) as Hb'.
  pose proof (Core_remove maphash _ _ _ _ _ HC Hj) as HC'. cbn [cell_live cell_bytes] in *.
  pose proof (zlen_insert cells (Z.to_nat j) CDead) as Hl'. set (cells1 := <[Z.to_nat j := CDead]> cells) in *. clearbody cells1.
  pose proof (TInv_count _ _ H) as Hc32. pose proof (live_count_bytes cells1). pose proof (key_record_len k).
  destruct H as [S1 C1 N1 A1 L1 D1 P1 M1]. change maxLogBytes with (2 ^ 30) in *.
  rewrite (u32_id (zlen (key_record k))), (u32_id (deadBytes t + _)), (u32_id (count t - 1)) by lia.
  destruct (Z.eqb_spec (count t - 1) 0) as [E0|E0].
  { exists (mkTable (word <$> cells1) [] 0 0 0 0), cells1. split_and!; try done.
    - apply TInv_no_live. lia.
    - apply zlen_nonneg. }
  set (t1 := mkTable _ _ _ _ _ _).
  assert (HT : TInv t1 cells1).
  { unfold t1. split; cbn [slots log tinyFilter count deadBytes logcap]; try done; try lia. right. rewrite Hl'.
    destruct A1 as [->|A1]; [done|]. by eapply accepts_mono; [|exact A1]; lia. }
  destruct (_ && _).
  - change (zlen (slots t1)) with (zlen (word <$> cells1)). rewrite zlen_fmap, Hl'.
    destruct (rebuildPacked_TInv t1 cells1 (zlen cells) 0 HT) as (t' & cells' & -> & H' & El' & _ & Elog & _ & _ & Es');
      [|lia..|].
    { destruct (ti_accept _ _ _ HT) as [Hnil|?]; [|by rewrite <- Hl']. rewrite Hnil in Hl'. change (zlen []) with 0 in Hl'. lia. }
    exists t', cells'. cbn [log deadBytes t1] in Elog. split_and!; try done; [lia|]. intros. by rewrite Es'.
  - exists t1, cells1. by split_and!.
Qed.

(** ** Reserving and compacting *)

Lemma TInv_nil : TInv (mkTable [] [] 0 0 0 0) [].
Proof. by apply (TInv_no_live []). Qed.

(** Every table [ReserveKeys] leaves behind is tight. *)
Lemma ReserveKeys_ok t cells n extra :
  TInv t cells → 0 ≤ extra →
  ∃ t' cells', ReserveKeys maphash growslice t n extra = Ret t' ∧ TInv t' cells' ∧ deadBytes t' = 0 ∧
    zlen cells' = (if Z.max n (count t) =? 0 then 0 else tightCapacity (Z.max n (count t))) ∧
    zlen (log t') = live_bytes cells ∧ (logcap t' ≤ zlen (log t') + extra) ∧
    ∀ k v, stores cells' k v ↔ stores cells k v.
Proof.
  intros H Hx. pose proof (TInv_count _ _ H) as Hc. pose proof (TInv_len _ _ H) as Hz.
  unfold ReserveKeys. set (n' := if n <? count t then count t else n).
  assert (En : n' = Z.max n (count t)) by (unfold n'; destruct (Z.ltb_spec n (count t)); lia).
  clearbody n'. rewrite <- En. pose proof (ti_log _ _ _ H). pose proof (ti_dead _ _ _ H). pose proof (ti_cap _ _ _ H).
  destruct (Z.eqb_spec n' 0) as [E0|E0].
  - assert (Hc0 : count t = 0) by lia. rewrite Hc0. rewrite (ti_count _ _ _ H) in Hc0. exists (mkTable [] [] 0 0 0 0), [].
    split_and!; try done; [apply TInv_nil|by rewrite no_live_bytes|].
    intros k v. split; intros [o Ho]; [by apply not_elem_of_nil in Ho|by apply no_live in Ho].
  - destruct (tightCapacity_ok n') as (Ht & Hi & _); [lia|]. change initialCapacity with 4 in Hi.
    assert (Ha : capacityAccepts (count t) (tightCapacity n') = true) by (eapply accepts_mono; [|exact Ht]; lia).
    destruct (negb (tightCapacity n' =? zlen (slots t)) || (0 <? deadBytes t)) eqn:Eb.
    + destruct (rebuildPacked_TInv t cells (tightCapacity n') extra H Ha ltac:(lia) Hx)
        as (t' & cells' & E & H' & El & _ & Elog & Ecap & Ed & Hs).
      exists t', cells'. split_and!; try done; lia.
    + apply orb_false_iff in Eb as [Eq%negb_false_iff%Z.eqb_eq Ed%Z.ltb_ge]. unfold trimLog.
      destruct (Z.leb_spec (logcap t) (zlen (log t) + extra)).
      * exists t, cells. split_and!; try done; lia.
      * exists (set_log t (log t) (zlen (log t) + extra)), cells.
        cbn [set_log log deadBytes logcap]. split_and!; try done; try lia.
        destruct H. split; cbn [set_log log deadBytes logcap slots tinyFilter count]; try done; lia.
Qed.
End Ops.
