(* ===== verification/TableSpec.v ===== *)
(** * The index table implements a finite map

    Refinement of the table by [gmap]: lookups, insertions, deletions,
    iteration, sampling and compaction, for every hash function and every
    growth policy of Go's [append].  Also the exactness of compaction and the
    bound of the memory forecast [GrowthBytes]. *)
From S2P Require Import Prelude KeyPack KeyPackFacts Table TableFacts TableInv TableOps.
Set Default Proof Using "Type".

(** ** Contents as a finite map *)

Lemma stores_absent cells k : absent cells k ↔ ∀ v, ¬ stores cells k v.
Proof. split; [intros H v [o Ho]; by apply H in Ho|intros H v o Hin; apply (H v); by exists o]. Qed.

Lemma map_absent (m : gmap (list byte) Z) cells k :
  (∀ k v, m !! k = Some v ↔ stores cells k v) → (absent cells k ↔ m !! k = None).
Proof.
  intros Hm. rewrite stores_absent. split.
  - intros H. destruct (m !! k) as [v|] eqn:E; [|done]. by apply Hm, H in E.
  - intros H v Hs. apply Hm in Hs. congruence.
Qed.

(** Contents after storing [v] under [k]. *)
Lemma insert_map (m : gmap (list byte) Z) cells cells' k v :
  (∀ k v, m !! k = Some v ↔ stores cells k v) →
  (∀ k' w, stores cells' k' w ↔ (k' = k ∧ w = v) ∨ (k' ≠ k ∧ stores cells k' w)) →
  ∀ k' w, <[k := v]> m !! k' = Some w ↔ stores cells' k' w.
Proof.
  intros Hm Hs k' w. rewrite Hs, <- Hm. destruct (decide (k' = k)) as [->|Hne].
  - rewrite lookup_insert_eq. split; [intros [= ->]; by left|by intros [[_ ->]|[? _]]].
  - rewrite lookup_insert_ne by done. split; [by right|by intros [[? _]|[_ ?]]].
Qed.

Lemma KeyRecordSize_pos k : zlen k < 2 ^ 63 → 1 ≤ KeyRecordSize k.
Proof. intros H. rewrite <- zlen_key_record by done. apply key_record_len. Qed.

(** ** Capacity growth *)

Definition cap_for (c n : Z) : Z := capacity_loop 10 n (if c =? 0 then initialCapacity else c).

Lemma capacityFor_cap t n : n ≠ 0 → capacityFor t n = cap_for (zlen (slots t)) n.
Proof. intros. unfold capacityFor, cap_for. by destruct (Z.eqb_spec n 0). Qed.

Lemma tightCapacity_eq n :
  0 ≤ n → tightCapacity n = if n <=? 4 then 4 else ((n * 5 + 3) / 4 + 7) / 8 * 8.
Proof.
  intros Hn. unfold tightCapacity, initialCapacity. destruct (Z.leb_spec n 4); [done|].
  rewrite (ldiff_mask _ 3 ltac:(lia) : Z.ldiff _ 7 = _). change (2 ^ 3) with 8. set (c := _ - _).
  assert (Hc : c = ((n * 5 + 3) / 4 + 7) / 8 * 8) by (unfold c; dlia).
  assert (Ha : capacityAccepts n c = true).
  { unfold capacityAccepts, initialCapacity. destruct (Z.eqb_spec c 4); apply Z.leb_le; dlia. }
  clearbody c. cbn [tight_loop]. by rewrite Ha.
Qed.

Lemma tightCapacity_mono a b : 0 ≤ a ≤ b → tightCapacity a ≤ tightCapacity b.
Proof.
  intros. rewrite !tightCapacity_eq by lia. destruct (Z.leb_spec a 4), (Z.leb_spec b 4); dlia.
Qed.

(** Enough fuel to double [c] up to the threshold and then size it tightly. *)
Definition enough (f : nat) (c : Z) : Prop :=
  1 ≤ c ∧ gradualGrowthMin ≤ c * 2 ^ (Z.of_nat f - 2) ∧ (2 ≤ f)%nat.

Lemma enough_double f c : enough (S f) c → c < gradualGrowthMin → enough f (c * 2).
Proof.
  unfold enough, gradualGrowthMin. intros (H1 & H2 & H3) Hc.
  destruct (decide (f = 1%nat)) as [->|]; [cbn in H2; lia|].
  replace (Z.of_nat (S f) - 2) with (Z.of_nat f - 2 + 1) in H2 by lia.
  rewrite Z.pow_add_r in H2 by lia. split_and!; lia.
Qed.

Lemma accepts_tight n : 5 ≤ n → capacityAccepts n (tightCapacity (n + n / 2)) = true.
Proof.
  intros. destruct (tightCapacity_ok (n + n / 2)) as (Ht & _); [dlia|]. eapply accepts_mono; [|exact Ht]. dlia.
Qed.

Lemma not_accepts_large n c : capacityAccepts n c = false → gradualGrowthMin ≤ c → 205 ≤ n.
Proof.
  unfold capacityAccepts, gradualGrowthMin, initialCapacity. intros Ha Hc.
  destruct (Z.eqb_spec c 4); [lia|]. apply Z.leb_gt in Ha. dlia.
Qed.

(** The unfolding of a growth loop that has enough fuel. *)
Lemma capacity_loop_eq f n c :
  enough f c →
  capacity_loop f n c =
    if capacityAccepts n c then c
    else if c <? gradualGrowthMin then capacity_loop (pred f) n (c * 2)
    else tightCapacity (n + n / 2).
Proof.
  intros (H1 & H2 & H3). destruct f as [|f]; [lia|]. cbn [capacity_loop pred].
  destruct (capacityAccepts n c) eqn:Ea; [done|]. destruct (Z.ltb_spec c gradualGrowthMin) as [|Hc]; [done|].
  pose proof (not_accepts_large _ _ Ea Hc). destruct f as [|f]; [lia|]. cbn [capacity_loop].
  by rewrite accepts_tight by lia.
Qed.

Lemma capacity_loop_fuel n : ∀ f f' c, enough f c → enough f' c → capacity_loop f n c = capacity_loop f' n c.
Proof.
  induction f as [|f IH]; intros f' c Hf Hf'; [destruct Hf as (_ & _ & ?); lia|].
  rewrite (capacity_loop_eq (S f)), (capacity_loop_eq f') by done. destruct (capacityAccepts n c); [done|].
  destruct (Z.ltb_spec c gradualGrowthMin); [|done]. destruct f' as [|f']; [destruct Hf' as (_ & _ & ?); lia|].
  cbn [pred]. apply IH; by apply enough_double.
Qed.

Lemma enough_10 c : 1 ≤ c → enough 10 c.
Proof. intros. unfold enough, gradualGrowthMin. change (2 ^ (Z.of_nat 10 - 2)) with 256. split_and!; lia. Qed.

(** Growing in two steps never ends above growing at once. *)
Lemma capacity_loop_step n m : 1 ≤ n ≤ m → ∀ f c,
  enough f c → capacity_loop 10 m (capacity_loop f n c) ≤ capacity_loop f m c.
Proof.
  intros Hnm. induction f as [|f IH]; intros c Hf; [destruct Hf as (_ & _ & ?); lia|].
  pose proof Hf as (H1 & _ & _).
  rewrite (capacity_loop_eq (S f) n), (capacity_loop_eq (S f) m) by done.
  destruct (capacityAccepts n c) eqn:Ean.
  - rewrite (capacity_loop_fuel m 10 (S f) c (enough_10 c H1) Hf), (capacity_loop_eq (S f) m) by done. lia.
  - destruct (capacityAccepts m c) eqn:Eam; [by rewrite (accepts_mono n m c) in Ean by (done || lia)|].
    destruct (Z.ltb_spec c gradualGrowthMin) as [Hc|Hc]; cbn [pred]; [by apply IH, enough_double|].
    pose proof (not_accepts_large _ _ Ean Hc) as Hn.
    destruct (tightCapacity_ok (n + n / 2)) as (_ & _ & Hb); [dlia|]. specialize (Hb ltac:(unfold initialCapacity; dlia)).
    rewrite capacity_loop_eq by (apply enough_10; dlia).
    pose proof (tightCapacity_mono (n + n / 2) (m + m / 2) ltac:(dlia)).
    destruct (capacityAccepts m (tightCapacity (n + n / 2))); [done|].
    unfold gradualGrowthMin in *. destruct (Z.ltb_spec (tightCapacity (n + n / 2)) 256); [|done]. dlia.
Qed.

Lemma cap_for_pos c n : 0 ≤ c → 1 ≤ n → 1 ≤ cap_for c n ∧ c ≤ cap_for c n.
Proof.
  intros Hc Hn. unfold cap_for. destruct (Z.eqb_spec c 0) as [->|].
  - destruct (capacity_loop_ok n Hn 10 initialCapacity) as [_ H]; [done|done|lia|]. unfold initialCapacity in *. lia.
  - destruct (enough_10 c ltac:(lia)) as (? & ? & ?). destruct (capacity_loop_ok n Hn 10 c) as [_ H']; [done..|]. lia.
Qed.

Lemma cap_for_step c n m : 0 ≤ c → 1 ≤ n ≤ m → cap_for (cap_for c n) m ≤ cap_for c m.
Proof.
  intros Hc Hnm. destruct (cap_for_pos c n Hc) as [Hp _]; [lia|]. unfold cap_for at 1.
  destruct (Z.eqb_spec (cap_for c n) 0); [lia|]. unfold cap_for. apply capacity_loop_step; [done|].
  apply enough_10. destruct (Z.eqb_spec c 0); [done|lia].
Qed.

(** The capacity after [k] single insertions starting from [n] keys. *)
Fixpoint cap_after (c n : Z) (k : nat) : Z :=
  match k with O => c | S k' => cap_after (cap_for c (n + 1)) (n + 1) k' end.

Lemma cap_after_le : ∀ k c n,
  0 ≤ c → 0 ≤ n → (0 < k)%nat → cap_after c n k ≤ cap_for c (n + Z.of_nat k).
Proof.
  induction k as [|k IH]; intros c n Hc Hn Hk; [lia|]. cbn [cap_after].
  destruct k as [|k]; [cbn [cap_after]; by replace (n + Z.of_nat 1) with (n + 1) by lia|].
  destruct (cap_for_pos c (n + 1)) as [Hp _]; [lia..|].
  etrans; [apply IH; lia|]. replace (n + 1 + Z.of_nat (S k)) with (n + Z.of_nat (S (S k))) by lia.
  apply cap_for_step; lia.
Qed.

(** ** Cyclic scans *)

(** The cells a cyclic scan of [n] steps from [c] visits. *)
Fixpoint path_from (cells : list cell) (c : Z) (n : nat) : list cell :=
  match n with
  | O => []
  | S n' =>
      match znth cells c with
      | Some x => x :: path_from cells ((c + 1) mod zlen cells) n'
      | None => []
      end
  end.

Lemma mod_next c size i : 0 ≤ c < size → 0 ≤ i → ((c + 1) mod size + i) mod size = (c + (1 + i)) mod size.
Proof. intros. rewrite Z.add_mod_idemp_l by lia. f_equal. lia. Qed.

Lemma path_from_lookup cells : ∀ n c i,
  0 ≤ c < zlen cells → (i < n)%nat →
  path_from cells c n !! i = znth cells ((c + Z.of_nat i) mod zlen cells).
Proof.
  induction n as [|n IH]; intros c i Hc Hi; [lia|]. cbn [path_from].
  destruct (znth_is_Some cells c Hc) as [x Hx]. rewrite Hx. destruct i as [|i].
  - cbn. rewrite Z.add_0_r, Z.mod_small by done. done.
  - cbn [lookup list_lookup]. rewrite IH; [|apply Z.mod_pos_bound; lia|lia].
    rewrite mod_next by lia. do 3 f_equal. lia.
Qed.

Lemma path_from_len cells : ∀ n c, 0 ≤ c < zlen cells → length (path_from cells c n) = n.
Proof.
  induction n as [|n IH]; intros c Hc; [done|]. cbn [path_from].
  destruct (znth_is_Some cells c Hc) as [x ->]. cbn [length]. rewrite IH; [done|]. apply Z.mod_pos_bound. lia.
Qed.

(** A full scan is a rotation of the cells, a shorter one a prefix of it. *)
Lemma path_from_rot cells c n :
  0 ≤ c < zlen cells → (n ≤ length cells)%nat →
  path_from cells c n = take n (drop (Z.to_nat c) cells ++ take (Z.to_nat c) cells).
Proof.
  intros Hc Hn. pose proof Hc as Hc'. unfold zlen in Hc'. apply list_eq. intros i. destruct (decide (i < n)%nat).
  - rewrite path_from_lookup, lookup_take_lt by done.
    destruct (decide (i < length cells - Z.to_nat c)%nat).
    + rewrite lookup_app_l by (rewrite length_drop; lia). rewrite lookup_drop.
      rewrite Z.mod_small by (unfold zlen; lia). rewrite znth_lookup by lia. f_equal. lia.
    + rewrite lookup_app_r by (rewrite length_drop; lia). rewrite length_drop, lookup_take_lt by lia.
      replace ((c + Z.of_nat i) mod zlen cells) with (c + Z.of_nat i - zlen cells).
      * rewrite znth_lookup by (unfold zlen; lia). f_equal. unfold zlen. lia.
      * apply Z.mod_unique_pos with 1; unfold zlen; lia.
  - rewrite !lookup_ge_None_2; [done|rewrite length_take; lia|rewrite path_from_len by done; lia].
Qed.

Lemma live_keys_app a b : live_keys (a ++ b) = live_keys a ++ live_keys b.
Proof. apply omap_app. Qed.

Lemma live_keys_rot cells c : live_keys (drop c cells ++ take c cells) ≡ₚ live_keys cells.
Proof. rewrite <- (take_drop c cells) at 3. rewrite !live_keys_app. apply Permutation_app_comm. Qed.

Lemma live_keys_prefix a n : ∃ b, live_keys a = live_keys (take n a) ++ b.
Proof. exists (live_keys (drop n a)). by rewrite <- live_keys_app, take_drop. Qed.

Section Spec.
Context (maphash : list byte → Z) (growslice : Z → Z → Z).

Abbreviation table_ok := (table_ok maphash).
Abbreviation Hash := (Hash maphash).

Lemma table_ok_New : table_ok New ∅.
Proof.
  exists []. split; [apply TInv_nil|]. intros k v. split; [by rewrite lookup_empty|].
  intros [o Ho]. by apply not_elem_of_nil in Ho.
Qed.

Lemma GetHashed_map t m k : table_ok t m → GetHashed t k (Hash k) = Ret (m !! k).
Proof.
  intros (cells & H & Hm). destruct (GetHashed_ok maphash t cells k H) as [(v & -> & Hs)|[-> Ha]].
  - by apply Hm in Hs as ->.
  - by apply (map_absent _ _ _ Hm) in Ha as ->.
Qed.

Lemma SetKnown_absent t m k v :
  table_ok t m → 0 ≤ v ≤ MaxValue → m !! k = None → zlen (log t) + KeyRecordSize k ≤ maxLogBytes →
  ∃ t', SetKnownHashed maphash growslice t k v (Hash k) false = Ret t' ∧ table_ok t' (<[k := v]> m) ∧
    zlen (slots t') = capacityFor t (count t + 1) ∧ count t' = count t + 1 ∧
    zlen (log t') ≤ zlen (log t) + KeyRecordSize k.
Proof.
  intros (cells & H & Hm) Hv Hk Hmax. pose proof (TInv_count _ _ _ H) as Hc. unfold SetKnownHashed.
  destruct (growForInsert_TInv maphash growslice t cells H) as (t1 & c1 & -> & H1 & Hl1 & Hn1 & Hlog & Hs1).
  rewrite res_bind_ret. destruct (capacityFor_ok t (count t + 1)) as (Ha & _ & Hp); [lia|].
  assert (Ha1 : absent c1 k).
  { apply stores_absent. intros w Hw. apply Hs1, Hm in Hw. congruence. }
  destruct (insertKnownAbsent_ok maphash growslice t1 c1 k v H1 Hv Ha1) as (t' & c' & -> & H' & Hl' & Hlog' & Hn' & Hs').
  { by rewrite Hl1, Hn1. } { lia. } { lia. }
  exists t'. rewrite (TInv_len _ _ _ H'), Hl', Hl1, Hn', Hn1. split_and!; try done.
  - exists c'. split; [done|]. apply (insert_map m c1); [|done]. intros. by rewrite Hs1.
  - rewrite Hlog', zlen_app, zlen_key_record; [lia|]. apply key_len_small. pose proof (zlen_nonneg (log t)). lia.
Qed.

Lemma SetKnown_present t m k v w :
  table_ok t m → 0 ≤ v ≤ MaxValue → m !! k = Some w →
  ∃ t', SetKnownHashed maphash growslice t k v (Hash k) true = Ret t' ∧ table_ok t' (<[k := v]> m) ∧
    zlen (slots t') = zlen (slots t) ∧ count t' = count t ∧ log t' = log t.
Proof.
  intros Hok Hv Hk. unfold SetKnownHashed. rewrite (GetHashed_map _ _ _ Hok), Hk, res_bind_ret.
  destruct Hok as (cells & H & Hm).
  destruct (insertHashed_present maphash growslice t cells k v H Hv) as (t' & c' & -> & H' & Hl & Hlog & Hn & Hs).
  { rewrite (map_absent _ _ _ Hm). by rewrite Hk. }
  exists t'. rewrite (TInv_len _ _ _ H'), (TInv_len _ _ _ H). split_and!; try done. exists c'. split; [done|].
  by apply (insert_map m cells).
Qed.

(** [Set] is the known-presence update for the presence it looks up. *)
Lemma Set_known t m k v :
  table_ok t m → zlen (log t) + KeyRecordSize k ≤ maxLogBytes →
  Set_ maphash growslice t k v =
  SetKnownHashed maphash growslice t k v (Hash k) (bool_decide (m !! k ≠ None)).
Proof.
  intros Hok Hmax. unfold Set_, SetKnownHashed. rewrite (GetHashed_map _ _ _ Hok), res_bind_ret.
  destruct (m !! k) as [w|] eqn:Hk; [by rewrite bool_decide_true by done|].
  rewrite bool_decide_false by auto. destruct Hok as (cells & H & Hm).
  destruct (growForInsert_TInv maphash growslice t cells H) as (t1 & c1 & -> & H1 & Hl1 & Hn1 & Hlog & Hs1).
  rewrite !res_bind_ret. pose proof (TInv_count _ _ _ H) as Hc.
  destruct (capacityFor_ok t (count t + 1)) as (Ha & _ & Hp); [lia|].
  apply (insertHashed_absent maphash growslice t1 c1 k v H1); try lia.
  - apply stores_absent. intros w Hw. apply Hs1, Hm in Hw. congruence.
  - rewrite <- (ti_count _ _ _ H1), Hn1, Hl1. apply accepts_le in Ha; lia.
Qed.

Lemma Set_map t m k v :
  table_ok t m → 0 ≤ v ≤ MaxValue → zlen (log t) + KeyRecordSize k ≤ maxLogBytes →
  ∃ t', Set_ maphash growslice t k v = Ret t' ∧ table_ok t' (<[k := v]> m) ∧
    zlen (log t') ≤ zlen (log t) + KeyRecordSize k ∧
    zlen (slots t') = (match m !! k with Some _ => zlen (slots t) | None => capacityFor t (count t + 1) end) ∧
    count t' = (match m !! k with Some _ => count t | None => count t + 1 end).
Proof.
  intros Hok Hv Hmax. rewrite (Set_known _ _ _ _ Hok Hmax). destruct (m !! k) as [w|] eqn:Hk.
  - rewrite bool_decide_true by done.
    destruct (SetKnown_present t m k v w Hok Hv Hk) as (t' & -> & H' & Hl & Hn & Hlog).
    exists t'. rewrite Hlog. split_and!; try done. pose proof (KeyRecordSize_pos k).
    assert (zlen k < 2 ^ 63) by (apply key_len_small; pose proof (zlen_nonneg (log t)); lia). lia.
  - rewrite bool_decide_false by auto.
    destruct (SetKnown_absent t m k v Hok Hv Hk Hmax) as (t' & -> & H' & Hl & Hn & Hlog). exists t'. done.
Qed.

Lemma Delete_map t m k :
  table_ok t m → ∃ t', Delete maphash growslice t k = Ret t' ∧ table_ok t' (delete k m) ∧
    zlen (log t') ≤ zlen (log t) ∧ zlen (slots t') = zlen (slots t).
Proof.
  intros (cells & H & Hm). unfold Delete.
  destruct (deleteHashed_ok maphash growslice t cells k H) as (t' & c' & -> & H' & Hl & Hlog & Hs).
  exists t'. rewrite (TInv_len _ _ _ H'), (TInv_len _ _ _ H). split_and!; try done. exists c'. split; [done|].
  intros k' w. rewrite Hs, <- Hm. rewrite lookup_delete_Some. split; intros [? ?]; split; congruence.
Qed.

Lemma Reserve_map t m n extra :
  table_ok t m → 0 ≤ extra → ∃ t', ReserveKeys maphash growslice t n extra = Ret t' ∧ table_ok t' m ∧
    zlen (log t') ≤ zlen (log t).
Proof.
  intros (cells & H & Hm) Hx.
  destruct (ReserveKeys_ok maphash growslice t cells n extra H Hx) as (t' & c' & -> & H' & _ & _ & Hlog & _ & Hs).
  exists t'. pose proof (ti_log _ _ _ H). pose proof (ti_dead _ _ _ H). split_and!; [done| |lia].
  exists c'. split; [done|]. intros. by rewrite Hs.
Qed.

(** ** Sizes *)

Lemma live_keys_perm (t : Table) (m : gmap (list byte) Z) cells :
  TInv maphash t cells → (∀ k v, m !! k = Some v ↔ stores cells k v) →
  live_keys cells ≡ₚ (map_to_list m).*1.
Proof.
  intros H Hm. apply NoDup_Permutation; [by eapply live_keys_nodup, ti_core|apply NoDup_fst_map_to_list|].
  intros k. rewrite live_keys_in, list_elem_of_fmap. split.
  - intros (v & o & Hin). exists (k, v). split; [done|]. apply elem_of_map_to_list, Hm. by exists o.
  - intros ([k' v] & -> & Hin%elem_of_map_to_list). apply Hm in Hin as [o Ho]. eauto.
Qed.

Lemma live_count_keys cells : live_count cells = zlen (live_keys cells).
Proof.
  induction cells as [|c cells IH]; [done|]. rewrite live_count_cons, IH. unfold live_keys. cbn [omap list_omap].
  destruct c; cbn [cell_live]; rewrite ?zlen_cons; lia.
Qed.

Definition sum_sizes (ks : list (list byte)) : Z := foldr (fun k n => KeyRecordSize k + n) 0 ks.

Lemma sum_sizes_perm ks ks' : ks ≡ₚ ks' → sum_sizes ks = sum_sizes ks'.
Proof. unfold sum_sizes. induction 1; cbn [foldr]; lia. Qed.

Lemma live_bytes_keys l cells :
  (∀ c, c ∈ cells → cell_ok l c) → live_bytes cells = sum_sizes (live_keys cells).
Proof.
  induction cells as [|c cells IH]; intros H; [done|]. rewrite live_bytes_cons, IH
    by (intros; apply H, elem_of_cons; by right).
  unfold live_keys, sum_sizes. cbn [omap list_omap]. destruct c as [| |k v o]; cbn [cell_bytes foldr]; [lia..|].
  rewrite zlen_key_record; [lia|]. destruct (H (CLive k v o)) as ((_ & _ & _ & _ & ?) & _); [apply elem_of_cons; by left|done].
Qed.

Lemma count_map t m : table_ok t m → count t = Z.of_nat (size m).
Proof.
  intros (cells & H & Hm). rewrite (ti_count _ _ _ H), live_count_keys.
  pose proof (Permutation_length (live_keys_perm _ _ _ H Hm)) as E. unfold zlen. rewrite E, length_fmap.
  by rewrite length_map_to_list.
Qed.

(** The log bytes a map's keys occupy. *)
Definition map_bytes (m : gmap (list byte) Z) : Z := sum_sizes (map_to_list m).*1.

Lemma live_bytes_map (t : Table) (m : gmap (list byte) Z) cells :
  TInv maphash t cells → (∀ k v, m !! k = Some v ↔ stores cells k v) → live_bytes cells = map_bytes m.
Proof.
  intros H Hm. rewrite (live_bytes_keys (log t)) by apply (co_ok _ _ _ _ (ti_core _ _ _ H)).
  by apply sum_sizes_perm, (live_keys_perm t).
Qed.

(** ** Iteration *)

Definition live_pairs (cells : list cell) : list (list byte * Z) :=
  omap (fun c => match c with CLive k v _ => Some (k, v) | _ => None end) cells.

Lemma live_pairs_fst cells : (live_pairs cells).*1 = live_keys cells.
Proof. unfold live_pairs, live_keys. induction cells as [|[] ? IH]; cbn; [done|done|done|by rewrite IH]. Qed.

Lemma All_loop_ok t : ∀ cells chunk,
  (∀ c, c ∈ cells → cell_ok (log t) c) →
  All_loop t chunk (word maphash <$> cells) = Ret (live_pairs cells).
Proof.
  induction cells as [|c cells IH]; intros chunk H; [done|]. cbn [fmap list_fmap All_loop].
  assert (Hc : cell_ok (log t) c) by (apply H, elem_of_cons; by left).
  pose proof (word_live maphash _ _ Hc) as Hw. unfold live_pairs. cbn [omap list_omap]. fold (live_pairs cells).
  assert (H' : ∀ c, c ∈ cells → cell_ok (log t) c) by (intros; apply H, elem_of_cons; by right).
  destruct c as [| |k v o].
  - rewrite Hw. cbn. by apply IH.
  - destruct Hw as [_ ->]. cbn [negb]. by apply IH.
  - destruct Hw as (_ & -> & _ & -> & ->). cbn [negb]. destruct Hc as (Hr & _).
    destruct (keyChunked_at t chunk o k Hr) as [chunk' ->]. by rewrite res_bind_ret, IH, res_bind_ret.
Qed.

Lemma All_map t m : table_ok t m → ∃ l, All t = Ret l ∧ l ≡ₚ map_to_list m.
Proof.
  intros (cells & H & Hm). exists (live_pairs cells). split.
  - unfold All. rewrite (ti_slots _ _ _ H). apply All_loop_ok, (co_ok _ _ _ _ (ti_core _ _ _ H)).
  - apply NoDup_Permutation; [|apply NoDup_map_to_list|].
    + apply (NoDup_fmap_1 fst). rewrite live_pairs_fst. by eapply live_keys_nodup, ti_core.
    + intros [k v]. rewrite elem_of_map_to_list, Hm. unfold live_pairs, stores. rewrite list_elem_of_omap. split.
      * intros ([| |k' v' o] & Hin & [= <- <-]). eauto.
      * intros [o Ho]. exists (CLive k v o). done.
Qed.

Lemma sample_loop_ok t cells : 
  slots t = word maphash <$> cells → (∀ c, c ∈ cells → cell_ok (log t) c) → ∀ fuel chunk c limit out,
  0 ≤ c < zlen cells → zlen out < limit →
  ∃ c', 0 ≤ c' < zlen cells ∧ sample_loop t chunk fuel c limit out
    = Ret (out ++ take (Z.to_nat (limit - zlen out)) (live_keys (path_from cells c fuel)), c').
Proof.
  intros Es Hok. assert (Hz : zlen (slots t) = zlen cells) by (by rewrite Es, zlen_fmap).
  induction fuel as [|fuel IH]; intros chunk c limit out Hc Hl; cbn [sample_loop path_from].
  { exists c. split; [done|]. change (live_keys []) with (@nil (list byte)). by rewrite take_nil, app_nil_r. }
  destruct (znth_is_Some cells c Hc) as [x Hx]. rewrite Hx.
  destruct (probe_cell maphash t cells c [] x Es Hok Hx) as [-> Hcase]. cbn [or_panic]. rewrite res_bind_ret, Hz.
  assert (Hn : 0 ≤ (c + 1) mod zlen cells < zlen cells) by (apply Z.mod_pos_bound; lia).
  change (live_keys (x :: ?p)) with (live_keys ([x] ++ p)). rewrite live_keys_app. destruct x as [| |k v o].
  - rewrite Hcase. cbn [app live_keys omap list_omap]. by apply IH.
  - destruct Hcase as [_ ->]. cbn [negb app live_keys omap list_omap]. by apply IH.
  - destruct Hcase as (_ & -> & -> & _). cbn [negb].
    assert (Hr : rec_at (log t) o k) by (destruct (Hok (CLive k v o)) as [? _]; [apply elem_of_znth; eauto|done]).
    destruct (keyChunked_at t chunk o k Hr) as [chunk' ->]. rewrite res_bind_ret, zlen_snoc.
    change (live_keys [CLive k v o]) with [k]. cbn [app].
    replace (Z.to_nat (limit - zlen out)) with (S (Z.to_nat (limit - (zlen out + 1)))) by lia. rewrite firstn_cons.
    destruct (Z.eqb_spec (zlen out + 1) limit) as [E|E].
    + exists ((c + 1) mod zlen cells). split; [done|]. by replace (limit - (zlen out + 1)) with 0 by lia.
    + destruct (IH chunk' _ limit (out ++ [k]) Hn) as (c' & Hc' & E'); [rewrite zlen_snoc; lia|].
      exists c'. split; [done|]. rewrite E', zlen_snoc, <- app_assoc. done.
Qed.

Lemma Sample_map t m cursor budget limit :
  table_ok t m → 0 ≤ cursor →
  ∃ out c', Sample t cursor budget limit = Ret (out, c') ∧ NoDup out ∧ (∀ k, k ∈ out → is_Some (m !! k)) ∧
    zlen out ≤ Z.max 0 limit ∧ (0 < zlen (slots t) → 0 ≤ c' < zlen (slots t)) ∧
    (zlen (slots t) ≤ budget → Z.of_nat (size m) ≤ limit → out ≡ₚ (map_to_list m).*1).
Proof.
  intros (cells & H & Hm) Hcur. pose proof (TInv_len _ _ _ H) as Hz. pose proof (live_keys_perm t m cells H Hm) as Hperm.
  pose proof (live_keys_nodup _ _ _ _ (ti_core _ _ _ H)) as Hnd.
  assert (Hsz : size m = length (live_keys cells)).
  { by rewrite (Permutation_length Hperm), length_fmap, length_map_to_list. }
  unfold Sample. rewrite Hz. destruct (_ || _) eqn:Eb.
  { exists [], 0. split_and!; [done|apply NoDup_nil_2|intros k Hk; by apply not_elem_of_nil in Hk|change (zlen []) with 0; lia|lia|].
    intros Hb Hl. apply orb_true_iff in Eb as [Eb|Eb%Z.leb_le]; [apply orb_true_iff in Eb as [Eb%Z.eqb_eq|Eb%Z.leb_le]|].
    all: assert (Hnil : live_keys cells = []); [|by rewrite <- Hperm, Hnil].
    - destruct cells; [done|rewrite zlen_cons in Eb; pose proof (zlen_nonneg cells); lia].
    - apply length_zero_iff_nil. lia.
    - destruct cells; [done|rewrite zlen_cons in Hb; pose proof (zlen_nonneg cells); lia]. }
  apply orb_false_iff in Eb as [[Ez%Z.eqb_neq El%Z.leb_gt]%orb_false_iff Ebu%Z.leb_gt]. pose proof (zlen_nonneg cells).
  rewrite Z.rem_mod_nonneg by lia.
  assert (Hc : 0 ≤ cursor mod zlen cells < zlen cells) by (apply Z.mod_pos_bound; lia).
  destruct (sample_loop_ok t cells (ti_slots _ _ _ H) (co_ok _ _ _ _ (ti_core _ _ _ H))
    (Z.to_nat (Z.min budget (zlen cells))) emptyChunk (cursor mod zlen cells) limit []) as (c' & Hc' & ->); [done|done|].
  cbn [app]. change (zlen []) with 0. rewrite Z.sub_0_r. set (n := Z.to_nat (Z.min budget (zlen cells))).
  rewrite path_from_rot by (done || (unfold n, zlen; lia)).
  pose proof (live_keys_rot cells (Z.to_nat (cursor mod zlen cells))) as Hrot. set (rot := drop _ cells ++ take _ cells) in *.
  assert (Hlen : length rot = length cells) by (unfold rot; rewrite length_app, length_drop, length_take; unfold zlen in *; lia).
  destruct (live_keys_prefix rot n) as [b Hb]. set (ks := live_keys (take n rot)) in *.
  assert (Hsub : ∀ k, k ∈ take (Z.to_nat limit) ks → k ∈ live_keys cells).
  { intros k Hk. rewrite <- Hrot, Hb. apply elem_of_app. left. rewrite <- (take_drop (Z.to_nat limit) ks). apply elem_of_app. by left. }
  assert (Hnd2 : NoDup ks). { rewrite <- Hrot, Hb in Hnd. by apply NoDup_app in Hnd as [? _]. }
  eexists _, c'. split; [done|]. split_and!; try done.
  - apply (NoDup_app (take (Z.to_nat limit) ks) (drop (Z.to_nat limit) ks)). by rewrite take_drop.
  - intros k Hk%Hsub. rewrite Hperm in Hk. apply list_elem_of_fmap in Hk as ([k' v] & -> & Hin%elem_of_map_to_list). eauto.
  - unfold zlen. rewrite length_take. lia.
  - intros Hbud Hlim. assert (Hall : ks = live_keys rot).
    { unfold ks. rewrite take_ge; [done|]. rewrite Hlen. unfold n, zlen in *. lia. }
    rewrite take_ge by (rewrite Hall, Hrot; lia). rewrite Hall, Hrot. done.
Qed.

(** ** Runs of operations *)

Inductive index_op :=
| OpSet (k : list byte) (v : Z)
| OpSetKnown (k : list byte) (v : Z)
| OpDelete (k : list byte)
| OpReserve (n extra : Z)
| OpCompact.

(** [OpSetKnown] is the engine's pattern: look the key up, then update with the
    presence found. *)
Definition exec_op (t : Table) (op : index_op) : res Table :=
  match op with
  | OpSet k v => Set_ maphash growslice t k v
  | OpSetKnown k v =>
      found ← Get maphash t k;
      SetKnownHashed maphash growslice t k v (Hash k) (bool_decide (found ≠ None))
  | OpDelete k => Delete maphash growslice t k
  | OpReserve n extra => ReserveKeys maphash growslice t n extra
  | OpCompact => Compact maphash growslice t
  end.

Fixpoint exec_ops (t : Table) (ops : list index_op) : res Table :=
  match ops with [] => Ret t | op :: rest => t ← exec_op t op; exec_ops t rest end.

Definition spec_op (m : gmap (list byte) Z) (op : index_op) : gmap (list byte) Z :=
  match op with
  | OpSet k v | OpSetKnown k v => <[k := v]> m
  | OpDelete k => delete k m
  | OpReserve _ _ | OpCompact => m
  end.

Definition op_ok (op : index_op) : Prop :=
  match op with
  | OpSet _ v | OpSetKnown _ v => 0 ≤ v ≤ MaxValue
  | OpReserve _ extra => 0 ≤ extra
  | _ => True
  end.

(** The key-log space the operations may need. *)
Definition op_bytes (op : index_op) : Z :=
  match op with OpSet k _ | OpSetKnown k _ => KeyRecordSize k | _ => 0 end.
Definition ops_bytes (ops : list index_op) : Z := foldr (fun op n => op_bytes op + n) 0 ops.

Lemma exec_op_map t m op :
  table_ok t m → op_ok op → zlen (log t) + op_bytes op ≤ maxLogBytes →
  ∃ t', exec_op t op = Ret t' ∧ table_ok t' (spec_op m op) ∧ zlen (log t') ≤ zlen (log t) + op_bytes op.
Proof.
  intros Hok Hop Hb. destruct op as [k v|k v|k|n extra|]; cbn [exec_op spec_op op_ok op_bytes] in *.
  - destruct (Set_map t m k v Hok Hop Hb) as (t' & ? & ? & ? & _). eauto.
  - unfold Get. rewrite (GetHashed_map _ _ _ Hok), res_bind_ret, <- (Set_known _ _ _ _ Hok Hb).
    destruct (Set_map t m k v Hok Hop Hb) as (t' & ? & ? & ? & _). eauto.
  - destruct (Delete_map t m k Hok) as (t' & ? & ? & ? & _). exists t'. split_and!; [done..|lia].
  - destruct (Reserve_map t m n extra Hok Hop) as (t' & ? & ? & ?). exists t'. split_and!; [done..|lia].
  - destruct (Reserve_map t m (count t) 0 Hok) as (t' & ? & ? & ?); [lia|]. exists t'. split_and!; [done..|lia].
Qed.

Lemma ops_bytes_nonneg ops : 0 ≤ ops_bytes ops.
Proof.
  unfold ops_bytes. induction ops as [|op ops IH]; [done|]. cbn [foldr].
  assert (0 ≤ op_bytes op); [|lia]. destruct op; cbn [op_bytes]; try done; apply KeyRecordSize_bounds.
Qed.

(** C7: the index refines a finite map.  Any sequence of sets, known-presence
    updates, deletes, reservations and compactions runs without a panic, as
    long as the values fit 27 bits and the keys of the sets fit the 1 GiB key
    log, and afterwards [Get] and [Len] agree with the same operations on the
    map: for every hash function, whatever keys collide. *)
Theorem index_refinement ops : ∀ t m,
  table_ok t m → Forall op_ok ops → zlen (log t) + ops_bytes ops ≤ maxLogBytes →
  ∃ t', exec_ops t ops = Ret t' ∧ table_ok t' (foldl spec_op m ops) ∧
    (∀ k, Get maphash t' k = Ret (foldl spec_op m ops !! k)) ∧
    Len t' = Z.of_nat (size (foldl spec_op m ops)).
Proof.
  induction ops as [|op ops IH]; intros t m Hok Hops Hb; cbn [exec_ops foldl].
  - exists t. split_and!; [done|done|intros; by apply GetHashed_map|by apply count_map].
  - inversion Hops as [|? ? Hop Hops']; subst. unfold ops_bytes in Hb. cbn [foldr] in Hb. fold (ops_bytes ops) in Hb.
    pose proof (ops_bytes_nonneg ops).
    destruct (exec_op_map t m op Hok Hop) as (t1 & -> & Hok1 & Hl1); [lia|]. rewrite res_bind_ret.
    apply IH; [done..|lia].
Qed.

(** Compaction is exact.  [Compact] keeps the contents, leaves no dead
    record, sizes the slot array to the tightest accepting capacity, and trims
    the key log to exactly the records of the live keys. *)
Theorem index_compact_exact t m :
  table_ok t m →
  ∃ t', Compact maphash growslice t = Ret t' ∧ table_ok t' m ∧ deadBytes t' = 0 ∧
    KeyLogBytes t' = map_bytes m ∧
    CapacityBytes t' = 8 * (if Z.of_nat (size m) =? 0 then 0 else tightCapacity (Z.of_nat (size m))).
Proof.
  intros Hok. pose proof (count_map _ _ Hok) as Hc. destruct Hok as (cells & H & Hm).
  destruct (ReserveKeys_ok maphash growslice t cells (count t) 0 H) as (t' & c' & E & H' & Hd & Hl & Hlog & Hcap & Hs); [lia|].
  rewrite Z.max_id, Hc in Hl. exists t'. unfold Compact, Reserve. split_and!; [done| |done|..].
  - exists c'. split; [done|]. intros. by rewrite Hs.
  - unfold KeyLogBytes. pose proof (ti_cap _ _ _ H'). rewrite <- (live_bytes_map t m cells H Hm). lia.
  - unfold CapacityBytes, slotSize. rewrite (TInv_len _ _ _ H'), Hl. lia.
Qed.

(** Inserting fresh keys one at a time. *)
Fixpoint set_all (t : Table) (kvs : list (list byte * Z)) : res Table :=
  match kvs with [] => Ret t | (k, v) :: rest => t ← Set_ maphash growslice t k v; set_all t rest end.

Lemma set_all_capacity : ∀ kvs t m,
  table_ok t m → Forall (fun kv => 0 ≤ snd kv ≤ MaxValue) kvs → NoDup kvs.*1 →
  (∀ k, k ∈ kvs.*1 → m !! k = None) → zlen (log t) + sum_sizes kvs.*1 ≤ maxLogBytes →
  ∃ t', set_all t kvs = Ret t' ∧ table_ok t' (list_to_map kvs ∪ m) ∧
    zlen (slots t') = cap_after (zlen (slots t)) (count t) (length kvs).
Proof.
  induction kvs as [|[k v] kvs IH]; intros t m Hok Hv Hnd Hm Hb; cbn [set_all].
  - exists t. cbn. rewrite map_empty_union. done.
  - cbn [fmap list_fmap fst] in *. inversion Hv as [|? ? Hv0 Hv']; subst. inversion Hnd as [|? ? Hk Hnd']; subst.
    cbn [snd] in *. unfold sum_sizes in Hb. cbn [foldr] in Hb. fold (sum_sizes kvs.*1) in Hb.
    assert (Hs0 : 0 ≤ sum_sizes kvs.*1).
    { clear. unfold sum_sizes. induction kvs.*1 as [|k ks IH]; [done|]. cbn [foldr].
      destruct (KeyRecordSize_bounds k). lia. }
    assert (Hk0 : m !! k = None) by (apply Hm, elem_of_cons; by left).
    destruct (Set_map t m k v Hok Hv0) as (t1 & -> & Hok1 & Hl1 & Hs1 & Hn1); [lia|]. rewrite res_bind_ret.
    rewrite Hk0 in Hs1, Hn1.
    destruct (IH t1 (<[k := v]> m) Hok1 Hv' Hnd') as (t' & -> & Hok' & Hc').
    { intros k' Hk'. rewrite lookup_insert_ne by (by intros ->). apply Hm, elem_of_cons. by right. }
    { lia. }
    exists t'. split; [done|]. split.
    + replace (list_to_map ((k, v) :: kvs) ∪ m) with (list_to_map kvs ∪ <[k := v]> m); [done|].
      change (list_to_map ((k, v) :: kvs) : gmap _ _) with (<[k := v]> (list_to_map kvs) : gmap (list byte) Z).
      rewrite <- insert_union_r, insert_union_l; [done|]. by apply not_elem_of_list_to_map_1.
    + rewrite Hc', Hs1, Hn1, capacityFor_cap; [done|]. rewrite (count_map _ _ Hok). lia.
Qed.

(** The memory forecast covers the real growth.  Inserting any batch of
    fresh keys one at a time succeeds and grows the slot array by at most
    [GrowthBytes] of the batch size; for a single key the forecast is exact. *)
Theorem index_growth_bound t m kvs :
  table_ok t m → Forall (fun kv => 0 ≤ snd kv ≤ MaxValue) kvs → NoDup kvs.*1 →
  (∀ k, k ∈ kvs.*1 → m !! k = None) → zlen (log t) + sum_sizes kvs.*1 ≤ maxLogBytes →
  cap_for (zlen (slots t)) (count t + zlen kvs) < 2 ^ 64 → 0 < zlen kvs →
  ∃ t', set_all t kvs = Ret t' ∧ table_ok t' (list_to_map kvs ∪ m) ∧
    CapacityBytes t' ≤ CapacityBytes t + GrowthBytes t (zlen kvs) ∧
    (zlen kvs = 1 → CapacityBytes t' = CapacityBytes t + GrowthBytes t 1).
Proof.
  intros Hok Hv Hnd Hm Hb H64 Hpos. pose proof (count_map _ _ Hok) as Hc.
  destruct (set_all_capacity kvs t m Hok Hv Hnd Hm Hb) as (t' & E & Hok' & Hcap).
  exists t'. split_and!; [done..| |]; unfold CapacityBytes, GrowthBytes, slotSize; rewrite Hcap.
  - rewrite capacityFor_cap by lia. pose proof (zlen_nonneg (slots t)).
    pose proof (cap_after_le (length kvs) (zlen (slots t)) (count t)) as Hle.
    destruct (cap_for_pos (zlen (slots t)) (count t + zlen kvs)) as [_ Hge]; [lia..|].
    rewrite u64_id by lia. unfold zlen in *. lia.
  - intros H1. rewrite H1 in H64. replace (length kvs) with 1%nat by (unfold zlen in H1; lia). cbn [cap_after].
    rewrite capacityFor_cap by lia. pose proof (zlen_nonneg (slots t)).
    destruct (cap_for_pos (zlen (slots t)) (count t + 1)) as [_ Hge]; [lia..|].
    rewrite u64_id by lia. lia.
Qed.

(** Iteration yields exactly the contents: every stored pair once, whatever
    the record form of its key. *)
Theorem index_all_exact t m : table_ok t m → ∃ l, All t = Ret l ∧ l ≡ₚ map_to_list m.
Proof. apply All_map. Qed.

(** Sampling from any non-negative cursor returns distinct stored keys, at
    most [limit] of them, and a valid next cursor; with a budget of at least
    the slot count and a large enough limit it returns every key. *)
Theorem index_sample_sound t m cursor budget limit :
  table_ok t m → 0 ≤ cursor →
  ∃ out c', Sample t cursor budget limit = Ret (out, c') ∧ NoDup out ∧ (∀ k, k ∈ out → is_Some (m !! k)) ∧
    zlen out ≤ Z.max 0 limit ∧ (0 < zlen (slots t) → 0 ≤ c' < zlen (slots t)) ∧
    (zlen (slots t) ≤ budget → Z.of_nat (size m) ≤ limit → out ≡ₚ (map_to_list m).*1).
Proof. apply Sample_map. Qed.

(** C17: key records round-trip.  The record [appendKey] writes for a key, raw or
    packed, has exactly the forecast size and is read back by every reader of
    the log: the key, its length, the record length, its hash, and equality
    with any other key; the records already in the log are untouched. *)
Theorem key_record_roundtrip t k :
  zlen (log t) ≤ logcap t → zlen (log t) + KeyRecordSize k ≤ maxLogBytes →
  ∃ o t', appendKey growslice t k = Ret (o, t') ∧ keyAt t' o = Ret k ∧ KeyLen t' o = Ret (zlen k) ∧
    recordLen (log t') o = Ret (KeyRecordSize k) ∧ recordHash maphash t' o = Ret (Hash k) ∧
    (∀ key, keyEquals t' o key = Ret (bool_decide (key = k))) ∧
    zlen (log t') = zlen (log t) + KeyRecordSize k ∧ (∃ rest, log t' = log t ++ rest).
Proof.
  intros Hcap Hmax. destruct (appendKey_ok growslice t k Hcap Hmax) as (cap & -> & Hc).
  assert (Hk : zlen k < 2 ^ 63) by (apply key_len_small; pose proof (zlen_nonneg (log t)); lia).
  pose proof (zlen_key_record k Hk) as Hlen.
  assert (Hr : rec_at (log (set_log t (log t ++ key_record k) cap)) (zlen (log t)) k) by (by apply rec_at_end).
  eexists _, _. split; [done|]. split_and!.
  - by apply keyAt_at.
  - by apply KeyLen_at.
  - by rewrite (recordLen_at _ _ _ Hr), Hlen.
  - by apply recordHash_at.
  - intros key. by apply keyEquals_at.
  - cbn. by rewrite zlen_app, Hlen.
  - by eexists.
Qed.
End Spec.

(** ** Concrete instances *)

Definition demo_hash (k : list byte) : Z := foldr (fun b acc => acc * 31 + bz b) 7 k.
Definition demo_growslice (_ n : Z) : Z := n.

(** A short raw key, and one with a packable hexadecimal tail. *)
Definition demo_key : list byte := [x6b; x65; x79].
Definition demo_hex_key : list byte :=
  [x74; x78; x3a; x30; x78] ++ concat (replicate 8 [x61; x39; x46; x30]).

Definition demo_ops : list index_op :=
  [OpSet demo_key 7; OpSetKnown demo_hex_key 9; OpSet [] 1; OpSetKnown demo_key 8; OpDelete []; OpReserve 20 64; OpCompact].

Lemma demo_ops_ok : Forall op_ok demo_ops.
Proof. repeat constructor; vm_compute; congruence. Qed.

Lemma index_refinement_witness :
  ∃ t', exec_ops demo_hash demo_growslice New demo_ops = Ret t' ∧
    Get demo_hash t' demo_hex_key = Ret (Some 9) ∧ Len t' = 2.
Proof.
  destruct (index_refinement demo_hash demo_growslice demo_ops New ∅ (table_ok_New _) demo_ops_ok)
    as (t' & E & _ & G & L); [vm_compute; congruence|].
  exists t'. split; [exact E|]. rewrite G, L. split; vm_compute; reflexivity.
Defined.

Definition demo_table : Table :=
  match exec_ops demo_hash demo_growslice New [OpSet demo_key 7; OpSet demo_hex_key 9; OpDelete demo_key] with
  | Ret t => t | _ => New end.
Definition demo_map : gmap (list byte) Z := {[demo_hex_key := 9]}.

Lemma demo_table_ok : table_ok demo_hash demo_table demo_map.
Proof.
  assert (Hs : ∀ t m k v, table_ok demo_hash t m → 0 ≤ v ≤ MaxValue → zlen (log t) + KeyRecordSize k ≤ maxLogBytes →
    ∀ t', Set_ demo_hash demo_growslice t k v = Ret t' → table_ok demo_hash t' (<[k := v]> m)).
  { intros t m k v H Hv Hb t' E. destruct (Set_map demo_hash demo_growslice t m k v H Hv Hb) as (t1 & E1 & H1 & _).
    congruence. }
  replace demo_map with (delete demo_key (<[demo_hex_key := 9]> (<[demo_key := 7]> (∅ : gmap (list byte) Z)))).
  2: { unfold demo_map. rewrite delete_insert_ne, delete_insert_id by done. done. }
  eassert (H1 := Hs New ∅ demo_key 7 (table_ok_New _) ltac:(by vm_compute) ltac:(by vm_compute) _ ltac:(vm_compute; reflexivity)).
  eassert (H2 := Hs _ _ demo_hex_key 9 H1 ltac:(by vm_compute) ltac:(by vm_compute) _ ltac:(vm_compute; reflexivity)).
  destruct (Delete_map demo_hash demo_growslice _ _ demo_key H2) as (t' & E & H3 & _).
  vm_compute in E. injection E as <-. exact H3.
Qed.



Lemma key_record_roundtrip_witness :
  ∃ o t', appendKey demo_growslice demo_table demo_hex_key = Ret (o, t') ∧ keyAt t' o = Ret demo_hex_key.
Proof.
  destruct (key_record_roundtrip demo_hash demo_growslice demo_table demo_hex_key) as (o & t' & E & K & _);
    [vm_compute; congruence..|]. exists o, t'. split; assumption.
Defined.
