(* ===== verification/Resp.v ===== *)
(** * RESP command decoder ([internal/resp])

    The decoder reads one flat array of bulk strings at a time from a buffered
    reader.  A reader is its unread bytes up to end of stream and the size of
    its buffer; how many of those bytes are already buffered is an argument of
    the functions that ask for it.  Results of a failed read carry the error
    only: after an error the connection is closed.  Caller-owned scratch buffers
    only supply storage, so results are the bytes copied into them.  The proofs
    about the decoder are in the files [RespFacts] and [RespFast]. *)
From S2P Require Import Prelude.

Definition cr : byte := x0d.
Definition lf : byte := x0a.
Definition star : byte := x2a.
Definition dollar : byte := x24.

(** Errors of the Go libraries, by their texts. *)
Definition io_EOF : string := "EOF".
Definition io_ErrUnexpectedEOF : string := "unexpected EOF".
Definition bufio_ErrBufferFull : string := "bufio: buffer full".

(** ** Limits and decoder *)

Record Limits := mkLimits { MaxRequestBytes : Z; MaxBulkBytes : Z; MaxArguments : Z }.

Definition DefaultLimits : Limits := mkLimits (Z.shiftl 64 20) (Z.shiftl 32 20) 1024.

Definition Validate (l : Limits) : res unit :=
  if (MaxRequestBytes l <? 4) || (MaxBulkBytes l <? 0) || (MaxRequestBytes l <? MaxBulkBytes l) || (MaxArguments l <? 1)
  then Err "invalid RESP limits" else Ret tt.

(** [bufio.Reader]: unread input and buffer size. *)
Record Reader := mkReader { input : list byte; bufsize : Z }.

Record Decoder := mkDecoder { reader : Reader; limits : Limits; remaining : Z }.

Definition NewDecoder (r : Reader) (l : Limits) : res Decoder :=
  _ ← Validate l; Ret (mkDecoder r l 0).

Definition set_input (d : Decoder) (i : list byte) : Decoder :=
  mkDecoder (mkReader i (bufsize (reader d))) (limits d) (remaining d).
Definition set_remaining (d : Decoder) (n : Z) : Decoder :=
  mkDecoder (reader d) (limits d) n.

(** ** [bufio.Reader] and [io.ReadFull] *)

Fixpoint index_byte (l : list byte) (b : byte) : option nat :=
  match l with
  | [] => None
  | x :: rest => if decide (x = b) then Some O else S <$> index_byte rest b
  end.

(** [ReadSlice('\n')]: the line through its line feed; the buffer must hold it. *)
Definition ReadSlice (r : Reader) : res (list byte * list byte) :=
  match index_byte (input r) lf with
  | Some i =>
      if Z.of_nat i <? bufsize r then Ret (take (S i) (input r), drop (S i) (input r))
      else Err bufio_ErrBufferFull
  | None => if bufsize r <=? zlen (input r) then Err bufio_ErrBufferFull else Err io_EOF
  end.

Definition ReadFull (r : Reader) (n : Z) : res (list byte * list byte) :=
  if n =? 0 then Ret ([], input r)
  else if zlen (input r) =? 0 then Err io_EOF
  else if zlen (input r) <? n then Err io_ErrUnexpectedEOF
  else Ret (take (Z.to_nat n) (input r), drop (Z.to_nat n) (input r)).

(** ** Reading a command *)

Definition readByte (d : Decoder) : res (byte * Decoder) :=
  if remaining d =? 0 then Err "request exceeds byte limit" else
  match input (reader d) with
  | [] => Err io_EOF
  | b :: rest => Ret (b, set_remaining (set_input d rest) (remaining d - 1))
  end.

Definition is_digit (b : byte) : bool := (48 <=? bz b) && (bz b <=? 57).

(** [n > max/10 || n == max/10 && digit > max%10]. *)
Definition over_limit (n digit max : Z) : bool :=
  (max / 10 <? n) || ((n =? max / 10) && (max mod 10 <? digit)).

Fixpoint digits_loop (digits : list byte) (max n : Z) : res Z :=
  match digits with
  | [] => Ret n
  | b :: rest =>
      if negb (is_digit b) then Err "invalid length" else
      let digit := bz b - 48 in
      if over_limit n digit max then Err "declared length exceeds limit"
      else digits_loop rest max (n * 10 + digit)
  end.

Definition expected (marker : byte) : string :=
  if decide (marker = star) then "expected '*'" else "expected '$'".

Definition length_ (d : Decoder) (marker : byte) (max : Z) : res (Z * Decoder) :=
  '(line, rest) ← ReadSlice (reader d);
  let d := set_input d rest in
  if remaining d <? zlen line then Err "request exceeds byte limit" else
  let d := set_remaining d (remaining d - zlen line) in
  first ← or_panic (znth line 0) oob;
  if (zlen line <? 4) || negb (bool_decide (first = marker)) then
    if (0 <? zlen line) && negb (bool_decide (first = marker))
    then Err (expected marker) else Err "invalid length terminator"
  else
    c ← or_panic (znth line (zlen line - 2)) oob;
    if negb (bool_decide (c = cr)) then Err "invalid length terminator" else
    digits ← or_panic (zslice line 1 (zlen line - 2)) oob;
    if zlen digits =? 0 then Err "invalid length terminator"
    else if 20 <? zlen digits then Err "invalid length"
    else n ← digits_loop digits max 0; Ret (n, d).

Definition bulk (d : Decoder) : res (list byte * Decoder) :=
  '(n, d) ← length_ d dollar (MaxBulkBytes (limits d));
  if (remaining d <? 2) || (remaining d - 2 <? n) then Err "request exceeds byte limit" else
  '(payload, rest) ← ReadFull (reader d) n;
  let d := set_remaining (set_input d rest) (remaining d - n) in
  '(a, d) ← readByte d;
  '(b, d) ← readByte d;
  if negb (bool_decide (a = cr)) || negb (bool_decide (b = lf)) then Err "invalid bulk terminator"
  else Ret (payload, d).

Fixpoint bulks (n : nat) (d : Decoder) : res (list (list byte) * Decoder) :=
  match n with
  | O => Ret ([], d)
  | S n' => '(a, d) ← bulk d; '(args, d) ← bulks n' d; Ret (a :: args, d)
  end.

(** The deferred rewrite of a clean end of stream inside a request. *)
Definition eof_inside {A} (r : res A) : res A :=
  match r with
  | Err e => if decide (e = io_EOF) then Err io_ErrUnexpectedEOF else Err e
  | _ => r
  end.

Definition ReadCommand (d : Decoder) : res (list (list byte) * Decoder) :=
  let d := set_remaining d (MaxRequestBytes (limits d)) in
  if zlen (input (reader d)) =? 0 then Err io_EOF else
  eof_inside (
    '(n, d) ← length_ d star (MaxArguments (limits d));
    if n =? 0 then Err "empty command array"
    else if remaining d / 6 <? n then Err "request exceeds byte limit"
    else bulks (Z.to_nat n) d).

(** [bufio.NewReader] uses a 4,096-byte buffer. *)
Definition Parse (data : list byte) : res (list (list byte)) :=
  let limits := DefaultLimits in
  if MaxRequestBytes limits <? zlen data then Err "request exceeds byte limit" else
  let d := mkDecoder (mkReader data 4096) limits 0 in
  '(args, d) ←
    (if (0 <? zlen data) && bool_decide (head data = Some dollar) then
       '(value, d) ← bulk (set_remaining d (MaxRequestBytes limits)); Ret ([value], d)
     else ReadCommand d);
  if zlen (input (reader d)) =? 0 then Ret args else Err "trailing bytes".

(** ** Fast paths on buffered frames *)

(** Simple case folding of a string against an upper-case ASCII word, as
    [bytes.EqualFold] does it: besides the two ASCII cases, U+017F folds to S
    and U+212A to K. *)
Fixpoint EqualFold (s w : list byte) : bool :=
  match s, w with
  | [], [] => true
  | b :: s', c :: w' =>
      if bool_decide (b = c) || (bz b =? bz c + 32) then EqualFold s' w'
      else if bool_decide (c = x53) then
        match s with xc5 :: xbf :: s'' => EqualFold s'' w' | _ => false end
      else if bool_decide (c = x4b) then
        match s with xe2 :: x84 :: xaa :: s'' => EqualFold s'' w' | _ => false end
      else false
  | _, _ => false
  end.

(** The digits of a bulk header: the position after the line end (or the end of
    the buffer), the value and the number of digits. *)
Fixpoint header_loop (fuel : nat) (buf : list byte) (max pos n digits : Z) : res (option (Z * Z * Z)) :=
  match fuel with
  | O => Ret (Some (pos, n, digits))
  | S f =>
      if negb (pos <? zlen buf) then Ret (Some (pos, n, digits)) else
      b ← or_panic (znth buf pos) oob;
      if bool_decide (b = cr) then
        if (digits =? 0) || (zlen buf <=? pos + 1) then Ret None else
        b1 ← or_panic (znth buf (pos + 1)) oob;
        if negb (bool_decide (b1 = lf)) then Ret None else Ret (Some (pos + 2, n, digits))
      else if negb (is_digit b) || (20 <=? digits) then Ret None else
      let digit := bz b - 48 in
      if over_limit n digit max then Ret None
      else header_loop f buf max (pos + 1) (n * 10 + digit) (digits + 1)
  end.

(** The closure [parseBulk]: payload start, payload length and next position. *)
Definition parseBulk (buf : list byte) (max pos : Z) : res (option (Z * Z * Z)) :=
  if zlen buf <=? pos then Ret None else
  b ← or_panic (znth buf pos) oob;
  if negb (bool_decide (b = dollar)) then Ret None else
  r ← header_loop (length buf) buf max (pos + 1) 0 0;
  match r with
  | None => Ret None
  | Some (pos, n, digits) =>
      if (digits =? 0) || (zlen buf <? pos + n + 2) then Ret None else
      c0 ← or_panic (znth buf (pos + n)) oob;
      if negb (bool_decide (c0 = cr)) then Ret None else
      c1 ← or_panic (znth buf (pos + n + 1)) oob;
      if negb (bool_decide (c1 = lf)) then Ret None
      else Ret (Some (pos, n, pos + n + 2))
  end.

(** [Peek] of the buffered bytes, at most [MaxRequestBytes] of them. *)
Definition peeked (d : Decoder) (buffered : Z) : list byte :=
  take (Z.to_nat (if MaxRequestBytes (limits d) <? buffered then MaxRequestBytes (limits d) else buffered))
       (input (reader d)).

Definition Discard (d : Decoder) (n : Z) : Decoder := set_input d (drop (Z.to_nat n) (input (reader d))).

(** The fixed characters at the start of a frame; letters in either case. *)
Fixpoint frame_prefix (buf : list byte) (pattern : list (byte * byte)) {struct pattern} : bool :=
  match pattern, buf with
  | [], _ => true
  | (u, l) :: ps, b :: bs => (bool_decide (b = u) || bool_decide (b = l)) && frame_prefix bs ps
  | _ :: _, [] => false
  end.

Definition exactly (l : list byte) : list (byte * byte) := map (fun b => (b, b)) l.

Definition get_prefix : list (byte * byte) :=
  exactly [star; x32; cr; lf; dollar; x33; cr; lf] ++ [(x47, x67); (x45, x65); (x54, x74)] ++ exactly [cr; lf; dollar].

Definition ReadBufferedGET (d : Decoder) (buffered : Z) : res (option (list byte) * Decoder) :=
  if buffered <? 19 then Ret (None, d) else
  let buf := peeked d buffered in
  if (zlen buf <? 17) || negb (frame_prefix buf get_prefix) then Ret (None, d) else
  r ← header_loop (length buf) buf (MaxBulkBytes (limits d)) 14 0 0;
  match r with
  | None => Ret (None, d)
  | Some (i, keyLen, digits) =>
      if (digits =? 0) || (zlen buf <? i) then Ret (None, d) else
      let frameLen := i + keyLen + 2 in
      if (zlen buf <? frameLen) || (MaxRequestBytes (limits d) <? frameLen) then Ret (None, d) else
      c0 ← or_panic (znth buf (i + keyLen)) oob;
      if negb (bool_decide (c0 = cr)) then Ret (None, d) else
      c1 ← or_panic (znth buf (i + keyLen + 1)) oob;
      if negb (bool_decide (c1 = lf)) then Ret (None, d) else
      if MaxArguments (limits d) <? 2 then Ret (None, d) else
      key ← or_panic (zslice buf i (i + keyLen)) oob;
      Ret (Some key, Discard d frameLen)
  end.

Definition set_prefix : list (byte * byte) :=
  exactly [star; x33; cr; lf; dollar; x33; cr; lf] ++ [(x53, x73); (x45, x65); (x54, x74)] ++ exactly [cr; lf].

(** The two bulks after the command of a three-argument frame. *)
Definition read_pair (d : Decoder) (buf : list byte) (pos : Z) : res (option (list byte * list byte) * Decoder) :=
  k ← parseBulk buf (MaxBulkBytes (limits d)) pos;
  match k with
  | None => Ret (None, d)
  | Some (keyStart, keyLen, pos) =>
      v ← parseBulk buf (MaxBulkBytes (limits d)) pos;
      match v with
      | None => Ret (None, d)
      | Some (valueStart, valueLen, frameLen) =>
          if MaxRequestBytes (limits d) <? frameLen then Ret (None, d) else
          key ← or_panic (zslice buf keyStart (keyStart + keyLen)) oob;
          value ← or_panic (zslice buf valueStart (valueStart + valueLen)) oob;
          Ret (Some (key, value), Discard d frameLen)
      end
  end.

Definition ReadBufferedSET (d : Decoder) (buffered : Z) : res (option (list byte * list byte) * Decoder) :=
  if buffered <? 25 then Ret (None, d) else
  let buf := peeked d buffered in
  if (zlen buf <? 13) || negb (frame_prefix buf set_prefix) then Ret (None, d) else
  if MaxArguments (limits d) <? 3 then Ret (None, d) else
  read_pair d buf 13.

Definition array3_prefix : list (byte * byte) := exactly [star; x33; cr; lf].

Definition SADD : list byte := [x53; x41; x44; x44].
Definition SISMEMBER : list byte := [x53; x49; x53; x4d; x45; x4d; x42; x45; x52].
Definition HSET : list byte := [x48; x53; x45; x54].
Definition RPUSH : list byte := [x52; x50; x55; x53; x48].
Definition ZADD : list byte := [x5a; x41; x44; x44].

(** The common body of [ReadBufferedSADD] and [ReadBufferedSISMEMBER]. *)
Definition read_member (word : list byte) (least : Z) (d : Decoder) (buffered : Z)
  : res (option (list byte * list byte) * Decoder) :=
  if buffered <? least then Ret (None, d) else
  let buf := peeked d buffered in
  if (zlen buf <? 14) || negb (frame_prefix buf array3_prefix) then Ret (None, d) else
  c ← parseBulk buf (MaxBulkBytes (limits d)) 4;
  match c with
  | None => Ret (None, d)
  | Some (commandStart, commandLen, pos) =>
      if negb (commandLen =? zlen word) then Ret (None, d) else
      command ← or_panic (zslice buf commandStart (commandStart + commandLen)) oob;
      if negb (EqualFold command word) then Ret (None, d) else
      if MaxArguments (limits d) <? 3 then Ret (None, d) else
      read_pair d buf pos
  end.

Definition ReadBufferedSADD (d : Decoder) (buffered : Z) := read_member SADD 24 d buffered.
Definition ReadBufferedSISMEMBER (d : Decoder) (buffered : Z) := read_member SISMEMBER 29 d buffered.

(** The command a native mutation frame names, with its argument count. *)
Definition native_command (arrayCount : Z) (command : list byte) : option (list byte * nat) :=
  if (arrayCount =? 4) && EqualFold command HSET then Some (HSET, 3%nat)
  else if (arrayCount =? 3) && EqualFold command RPUSH then Some (RPUSH, 2%nat)
  else if (arrayCount =? 3) && EqualFold command SADD then Some (SADD, 2%nat)
  else if (arrayCount =? 4) && EqualFold command ZADD then Some (ZADD, 3%nat)
  else None.

Fixpoint native_args (n : nat) (buf : list byte) (max pos : Z) : res (option (list (list byte) * Z)) :=
  match n with
  | O => Ret (Some ([], pos))
  | S n' =>
      b ← parseBulk buf max pos;
      match b with
      | None => Ret None
      | Some (start, len, next) =>
          a ← or_panic (zslice buf start (start + len)) oob;
          r ← native_args n' buf max next;
          Ret (match r with Some (args, pos) => Some (a :: args, pos) | None => None end)
      end
  end.

Definition ReadBufferedNativeMutation (d : Decoder) (buffered : Z)
  : res (option (list byte * list (list byte)) * Decoder) :=
  if buffered <? 24 then Ret (None, d) else
  let buf := peeked d buffered in
  match buf with
  | b0 :: b1 :: b2 :: b3 :: _ =>
      if (zlen buf <? 13) || negb (bool_decide (b0 = star)) || negb (bool_decide (b2 = cr)) || negb (bool_decide (b3 = lf))
      then Ret (None, d) else
      let arrayCount := u8 (bz b1 - 48) in
      if negb (is_digit b1) || (negb (arrayCount =? 3) && negb (arrayCount =? 4)) then Ret (None, d) else
      c ← parseBulk buf (MaxBulkBytes (limits d)) 4;
      match c with
      | None => Ret (None, d)
      | Some (commandStart, commandLen, pos) =>
          command ← or_panic (zslice buf commandStart (commandStart + commandLen)) oob;
          match native_command arrayCount command with
          | None => Ret (None, d)
          | Some (cmd, argc) =>
              if MaxArguments (limits d) <? arrayCount then Ret (None, d) else
              r ← native_args argc buf (MaxBulkBytes (limits d)) pos;
              match r with
              | None => Ret (None, d)
              | Some (args, pos) =>
                  if MaxRequestBytes (limits d) <? pos then Ret (None, d)
                  else Ret (Some (cmd, args), Discard d pos)
              end
          end
      end
  | _ => Ret (None, d)
  end.
