(* ===== verification/RespFacts.v ===== *)
(** * Correctness of the command decoder

    The language [ReadCommand] accepts, as frames of digits and payloads; the
    decoder accepts exactly that language within its limits, never panics, and
    reports a truncated request as an unexpected end of stream. *)
From S2P Require Import Prelude KeyPackFacts Resp.
Set Default Proof Using "Type".

(** ** Frames *)

Definition digits_val (n : Z) (ds : list byte) : Z := foldl (fun n b => n * 10 + (bz b - 48)) n ds.

Definition digits_ok (ds : list byte) : Prop :=
  Forall (fun b => is_digit b = true) ds ∧ 1 ≤ zlen ds ≤ 20.

Definition header (marker : byte) (ds : list byte) : list byte := marker :: ds ++ [cr; lf].

(** A bulk string of at most [max] bytes with payload [p]. *)
Definition bulk_frame (max : Z) (bs p : list byte) : Prop :=
  ∃ ds, digits_ok ds ∧ digits_val 0 ds = zlen p ∧ zlen p ≤ max ∧
        bs = header dollar ds ++ p ++ [cr; lf].

(** The frame [bs] of a command with arguments [args] within limits [l]. *)
Definition command_frame (l : Limits) (bs : list byte) (args : list (list byte)) : Prop :=
  ∃ ds bss, digits_ok ds ∧ digits_val 0 ds = zlen args ∧ 1 ≤ zlen args ≤ MaxArguments l ∧
    Forall2 (bulk_frame (MaxBulkBytes l)) bss args ∧
    bs = header star ds ++ concat bss ∧ zlen bs ≤ MaxRequestBytes l.

Definition at_input (d : Decoder) (i : list byte) (r : Z) : Decoder := set_remaining (set_input d i) r.

(** ** Lines *)

Lemma index_byte_app l1 l2 b : b ∉ l1 → index_byte (l1 ++ b :: l2) b = Some (length l1).
Proof.
  induction l1 as [|x l1 IH]; intros H; cbn [app index_byte].
  - by destruct (decide (b = b)).
  - destruct (decide (x = b)) as [->|]; [by destruct H; apply elem_of_cons; left|].
    rewrite IH; [done|]. intros Hin. apply H, elem_of_cons. by right.
Qed.

Lemma index_byte_Some l b : ∀ i, index_byte l b = Some i → ∃ l1 l2, l = l1 ++ b :: l2 ∧ length l1 = i ∧ b ∉ l1.
Proof.
  induction l as [|x l IH]; intros i H; cbn [index_byte] in H; [done|]. destruct (decide (x = b)) as [->|Hne].
  - injection H as <-. exists [], l. split_and!; [done|done|apply not_elem_of_nil].
  - destruct (index_byte l b) as [j|] eqn:E; [|done]. injection H as <-.
    destruct (IH j eq_refl) as (l1 & l2 & -> & <- & Hn). exists (x :: l1), l2. split_and!; [done..|].
    intros Hin. apply elem_of_cons in Hin as [->|]; done.
Qed.

Lemma index_byte_None l b : b ∉ l → index_byte l b = None.
Proof.
  induction l as [|x l IH]; intros H; cbn [index_byte]; [done|].
  destruct (decide (x = b)) as [->|]; [by destruct H; apply elem_of_cons; left|].
  rewrite IH; [done|]. intros Hin. apply H, elem_of_cons. by right.
Qed.

Lemma digits_no_lf ds : Forall (fun b => is_digit b = true) ds → lf ∉ ds.
Proof. intros H Hin. by apply (proj1 (Forall_forall _ _) H) in Hin. Qed.

Lemma ReadSlice_line r l1 rest :
  input r = l1 ++ lf :: rest → lf ∉ l1 → zlen l1 < bufsize r → ReadSlice r = Ret (l1 ++ [lf], rest).
Proof.
  intros E Hn Hb. unfold ReadSlice. rewrite E, index_byte_app by done.
  destruct (Z.ltb_spec (Z.of_nat (length l1)) (bufsize r)); [|unfold zlen in Hb; lia].
  f_equal. f_equal.
  - rewrite take_app_ge by lia. by replace (S (length l1) - length l1)%nat with 1%nat by lia.
  - rewrite drop_app_ge by lia. by replace (S (length l1) - length l1)%nat with 1%nat by lia.
Qed.

Lemma ReadSlice_inv r line rest :
  ReadSlice r = Ret (line, rest) →
  ∃ l1, line = l1 ++ [lf] ∧ input r = l1 ++ lf :: rest ∧ (lf ∉ l1) ∧ zlen l1 < bufsize r.
Proof.
  unfold ReadSlice. destruct (index_byte (input r) lf) as [i|] eqn:E; [|by destruct (_ <=? _)].
  apply index_byte_Some in E as (l1 & l2 & Ei & Hl & Hn). destruct (Z.ltb_spec (Z.of_nat i) (bufsize r)); [|done].
  rewrite Ei. intros [= <- <-]. subst i. exists l1. split_and!; try done.
  - rewrite take_app_ge by lia. by replace (S (length l1) - length l1)%nat with 1%nat by lia.
  - rewrite drop_app_ge by lia. by replace (S (length l1) - length l1)%nat with 1%nat by lia.
Qed.

(** ** Digits *)

Lemma is_digit_range b : is_digit b = true ↔ 0 ≤ bz b - 48 ≤ 9.
Proof. unfold is_digit. rewrite andb_true_iff, !Z.leb_le. lia. Qed.

Lemma over_limit_spec n digit max :
  0 ≤ max → 0 ≤ digit ≤ 9 → over_limit n digit max = (max <? n * 10 + digit).
Proof.
  intros. unfold over_limit. destruct (Z.ltb_spec (max / 10) n), (Z.eqb_spec n (max / 10)), (Z.ltb_spec (max mod 10) digit),
    (Z.ltb_spec max (n * 10 + digit)); cbn; try done; exfalso; dlia.
Qed.

Lemma digits_val_mono ds : ∀ n, 0 ≤ n → Forall (fun b => is_digit b = true) ds → n ≤ digits_val n ds.
Proof.
  unfold digits_val. induction ds as [|b ds IH]; intros n Hn H; cbn [foldl]; [lia|].
  inversion H as [|? ? Hb H']; subst. apply is_digit_range in Hb. etrans; [|apply IH; [lia|done]]. lia.
Qed.

Lemma digits_loop_ok ds max : ∀ n v,
  0 ≤ max → 0 ≤ n ≤ max →
  digits_loop ds max n = Ret v ↔ Forall (fun b => is_digit b = true) ds ∧ v = digits_val n ds ∧ v ≤ max.
Proof.
  induction ds as [|b ds IH]; intros n v Hmax Hn; cbn [digits_loop digits_val foldl].
  - split; [intros [= <-]; split_and!; [constructor|done|lia]|]. by intros (_ & -> & _).
  - destruct (is_digit b) eqn:Hb; cbn [negb]; [|split; [done|]; intros (H & _ & _); inversion H; congruence].
    pose proof Hb as Hb'. apply is_digit_range in Hb'. rewrite over_limit_spec by lia.
    fold (digits_val (n * 10 + (bz b - 48)) ds).
    destruct (Z.ltb_spec max (n * 10 + (bz b - 48))) as [Ho|Ho].
    + split; [done|]. intros (H & -> & Hle). inversion H as [|? ? _ H']; subst.
      pose proof (digits_val_mono ds (n * 10 + (bz b - 48)) ltac:(lia) H'). lia.
    + rewrite IH by lia. split.
      * intros (H & -> & ?). split_and!; [by constructor|done|done].
      * intros (H & -> & ?). inversion H; subst. split_and!; done.
Qed.

Lemma digits_loop_no_panic ds max : ∀ n, is_panic (digits_loop ds max n) = false.
Proof.
  induction ds as [|b ds IH]; intros n; cbn [digits_loop]; [done|]. destruct (negb _); [done|].
  by destruct (over_limit _ _ _).
Qed.

(** ** Length lines *)

Lemma zlen_header m ds : zlen (header m ds) = zlen ds + 3.
Proof. unfold header. rewrite zlen_cons, zlen_app. change (zlen [cr; lf]) with 2. lia. Qed.

Lemma header_line m ds : header m ds = (m :: ds ++ [cr]) ++ [lf].
Proof. unfold header. cbn [app]. by rewrite <- app_assoc. Qed.

Lemma length_ok d marker max ds rest n :
  marker ≠ lf → 0 ≤ max → digits_ok ds → digits_val 0 ds = n → n ≤ max → 23 ≤ bufsize (reader d) →
  input (reader d) = header marker ds ++ rest → zlen (header marker ds) ≤ remaining d →
  length_ d marker max = Ret (n, at_input d rest (remaining d - zlen (header marker ds))).
Proof.
  intros Hm Hmax [Hds Hl] Hv Hn Hb Hi Hr. unfold length_.
  rewrite zlen_header in Hr.
  rewrite (ReadSlice_line (reader d) (marker :: ds ++ [cr]) rest).
  2: { rewrite Hi, header_line, <- app_assoc. done. }
  2: { intros Hin. apply elem_of_cons in Hin as [?|Hin]; [done|]. apply elem_of_app in Hin as [Hin|Hin];
       [by apply digits_no_lf in Hin|]. by apply list_elem_of_singleton in Hin. }
  2: { rewrite zlen_cons, zlen_snoc. lia. }
  rewrite res_bind_ret, <- header_line, zlen_header. cbn [remaining set_input].
  destruct (Z.ltb_spec (remaining d) (zlen ds + 3)); [lia|].
  change (znth (header marker ds) 0) with (Some marker). cbn [or_panic]. rewrite res_bind_ret.
  destruct (Z.ltb_spec (zlen ds + 3) 4); [lia|]. rewrite bool_decide_true by done. cbn [negb orb].
  replace (zlen ds + 3 - 2) with (zlen ds + 1) by lia.
  assert (Hc : znth (header marker ds) (zlen ds + 1) = Some cr).
  { unfold header. change (marker :: ds ++ [cr; lf]) with ([marker] ++ ds ++ [cr; lf]).
    rewrite app_assoc, znth_app_r by (rewrite zlen_app; change (zlen [marker]) with 1; lia).
    rewrite zlen_app. change (zlen [marker]) with 1. by replace (zlen ds + 1 - (1 + zlen ds)) with 0 by lia. }
  rewrite Hc. cbn [or_panic]. rewrite res_bind_ret, bool_decide_true by done. cbn [negb].
  rewrite (zslice_at _ [marker] ds [cr; lf]); [|done|done|lia]. cbn [or_panic]. rewrite res_bind_ret.
  destruct (Z.eqb_spec (zlen ds) 0); [lia|]. destruct (Z.ltb_spec 20 (zlen ds)); [lia|].
  assert (El : digits_loop ds max 0 = Ret n).
  { apply digits_loop_ok; [done|lia|]. split_and!; congruence. }
  rewrite El, res_bind_ret. done.
Qed.

Lemma length_inv d marker max n d' :
  marker ≠ lf → 0 ≤ max → length_ d marker max = Ret (n, d') →
  ∃ ds rest, digits_ok ds ∧ digits_val 0 ds = n ∧ n ≤ max ∧ input (reader d) = header marker ds ++ rest ∧
    zlen (header marker ds) ≤ remaining d ∧ d' = at_input d rest (remaining d - zlen (header marker ds)).
Proof.
  intros Hm Hmax. unfold length_. destruct (ReadSlice (reader d)) as [[line rest]| |] eqn:Er; [|done..].
  rewrite res_bind_ret. apply ReadSlice_inv in Er as (l1 & -> & Hi & Hn & Hb). cbn [remaining set_input].
  rewrite zlen_snoc. destruct (Z.ltb_spec (remaining d) (zlen l1 + 1)); [done|].
  destruct l1 as [|m l1].
  { change (@zlen byte []) with 0. change (znth ([] ++ [lf]) 0) with (Some lf). cbn [or_panic]. rewrite res_bind_ret.
    cbn [Z.add Z.ltb Z.compare orb]. by destruct (_ && _). }
  change (znth ((m :: l1) ++ [lf]) 0) with (Some m). cbn [or_panic]. rewrite res_bind_ret.
  destruct (bool_decide (m = marker)) eqn:Em; cbn [negb];
    [apply bool_decide_eq_true in Em; subst m|rewrite orb_true_r; by destruct (_ && _)].
  rewrite orb_false_r, andb_false_r, zlen_cons in *. destruct (Z.ltb_spec (1 + zlen l1 + 1) 4); [done|].
  assert (Hlast : ∃ ds c, l1 = ds ++ [c]).
  { destruct l1 as [|x l1'] using rev_ind; [change (@zlen byte []) with 0 in *; lia|eauto]. }
  destruct Hlast as (ds & c & ->). rewrite zlen_snoc in *.
  assert (Hc : znth ((marker :: ds ++ [c]) ++ [lf]) (1 + (zlen ds + 1) + 1 - 2) = Some c).
  { change ((marker :: ds ++ [c]) ++ [lf]) with (((marker :: ds) ++ [c]) ++ [lf]). rewrite <- app_assoc.
    rewrite znth_app_r by (rewrite zlen_cons; lia). rewrite zlen_cons.
    by replace (1 + (zlen ds + 1) + 1 - 2 - (1 + zlen ds)) with 0 by lia. }
  rewrite Hc. cbn [or_panic]. rewrite res_bind_ret. destruct (bool_decide (c = cr)) eqn:Ec; cbn [negb]; [|done].
  apply bool_decide_eq_true in Ec. subst c.
  rewrite (zslice_at _ [marker] ds [cr; lf]); [|by cbn; rewrite <- app_assoc|done|change (zlen [marker]) with 1; lia].
  cbn [or_panic]. rewrite res_bind_ret.
  destruct (Z.eqb_spec (zlen ds) 0); [done|]. destruct (Z.ltb_spec 20 (zlen ds)); [done|].
  destruct (digits_loop ds max 0) as [v| |] eqn:El; [|done..]. rewrite res_bind_ret. intros [= <- <-].
  apply digits_loop_ok in El as (Hds & -> & Hle); [|done|lia]. pose proof (zlen_nonneg ds).
  exists ds, rest. rewrite zlen_header. split_and!; try done; try lia.
  - split; [done|lia].
  - rewrite Hi, header_line, <- !app_assoc. cbn [app]. by rewrite <- app_assoc.
  - unfold at_input. f_equal. lia.
Qed.

Lemma length_no_panic d marker max : is_panic (length_ d marker max) = false.
Proof.
  unfold length_. destruct (ReadSlice (reader d)) as [[line rest]| |] eqn:Er; [|done|].
  2: { unfold ReadSlice in Er. destruct (index_byte _ _); [destruct (_ <? _)|destruct (_ <=? _)]; done. }
  rewrite res_bind_ret. apply ReadSlice_inv in Er as (l1 & -> & _). cbn [remaining set_input].
  destruct (remaining d <? _); [done|]. pose proof (zlen_nonneg l1). rewrite zlen_snoc.
  destruct (znth_is_Some (l1 ++ [lf]) 0) as [m ->]; [rewrite zlen_snoc; lia|]. cbn [or_panic]. rewrite res_bind_ret.
  destruct (Z.ltb_spec (zlen l1 + 1) 4); cbn [orb]; [by destruct (_ && _)|].
  destruct (negb _); [by rewrite andb_true_r; destruct (0 <? _)|].
  destruct (znth_is_Some (l1 ++ [lf]) (zlen l1 + 1 - 2)) as [c ->]; [rewrite zlen_snoc; lia|]. cbn [or_panic].
  rewrite res_bind_ret. destruct (negb _); [done|].
  rewrite zslice_Some by (rewrite ?zlen_snoc; lia). cbn [or_panic]. rewrite res_bind_ret.
  destruct (_ =? 0); [done|]. destruct (20 <? _); [done|].
  pose proof (digits_loop_no_panic (take (Z.to_nat (zlen l1 + 1 - 2 - 1)) (drop (Z.to_nat 1) (l1 ++ [lf]))) max 0) as Hp.
  destruct (digits_loop _ max 0); done.
Qed.

(** ** Bulk strings *)

Lemma zlen_bulk ds (p : list byte) : zlen (header dollar ds ++ p ++ [cr; lf]) = zlen ds + zlen p + 5.
Proof. rewrite !zlen_app, zlen_header. change (zlen [cr; lf]) with 2. lia. Qed.

Lemma ReadFull_app r (p rest : list byte) : input r = p ++ rest → ReadFull r (zlen p) = Ret (p, rest).
Proof.
  intros E. unfold ReadFull. rewrite E, zlen_app. pose proof (zlen_nonneg p). pose proof (zlen_nonneg rest).
  destruct (Z.eqb_spec (zlen p) 0) as [E0|E0].
  - destruct p; [done|]. rewrite zlen_cons in E0. pose proof (zlen_nonneg p). lia.
  - destruct (Z.eqb_spec (zlen p + zlen rest) 0); [lia|]. destruct (Z.ltb_spec (zlen p + zlen rest) (zlen p)); [lia|].
    by rewrite to_nat_zlen, take_app_length, drop_app_length.
Qed.

Lemma ReadFull_inv r n p rest : 0 ≤ n → ReadFull r n = Ret (p, rest) → zlen p = n ∧ input r = p ++ rest.
Proof.
  intros Hn. unfold ReadFull. destruct (Z.eqb_spec n 0) as [->|]; [by intros [= <- <-]|].
  destruct (_ =? 0); [done|]. destruct (Z.ltb_spec (zlen (input r)) n); [done|]. intros [= <- <-].
  rewrite take_drop. split; [|done]. unfold zlen in *. rewrite length_take. lia.
Qed.

Definition valid_limits (l : Limits) : Prop := Validate l = Ret tt.

Lemma valid_limits_spec l :
  valid_limits l ↔ 4 ≤ MaxRequestBytes l ∧ 0 ≤ MaxBulkBytes l ≤ MaxRequestBytes l ∧ 1 ≤ MaxArguments l.
Proof.
  unfold valid_limits, Validate. destruct (Z.ltb_spec (MaxRequestBytes l) 4), (Z.ltb_spec (MaxBulkBytes l) 0),
    (Z.ltb_spec (MaxRequestBytes l) (MaxBulkBytes l)), (Z.ltb_spec (MaxArguments l) 1); cbn; split; intros; try done; lia.
Qed.

Lemma readByte_cons d b rest :
  input (reader d) = b :: rest → remaining d ≠ 0 → readByte d = Ret (b, at_input d rest (remaining d - 1)).
Proof. intros E Hr. unfold readByte. rewrite E. by destruct (Z.eqb_spec (remaining d) 0). Qed.

Lemma bulk_ok d bs p rest :
  0 ≤ MaxBulkBytes (limits d) → 23 ≤ bufsize (reader d) → bulk_frame (MaxBulkBytes (limits d)) bs p →
  input (reader d) = bs ++ rest → zlen bs ≤ remaining d →
  bulk d = Ret (p, at_input d rest (remaining d - zlen bs)).
Proof.
  intros Hm Hb (ds & Hds & Hv & Hp & ->) Hi Hr. pose proof Hds as [_ Hl]. rewrite zlen_bulk in *. unfold bulk.
  rewrite (length_ok d dollar (MaxBulkBytes (limits d)) ds (p ++ [cr; lf] ++ rest) (zlen p)); try done.
  2: { rewrite Hi, <- !app_assoc. done. } 2: { rewrite zlen_header. pose proof (zlen_nonneg p). lia. }
  rewrite res_bind_ret, zlen_header. cbn [remaining at_input set_remaining].
  pose proof (zlen_nonneg p).
  destruct (Z.ltb_spec (remaining d - (zlen ds + 3)) 2); [lia|].
  destruct (Z.ltb_spec (remaining d - (zlen ds + 3) - 2) (zlen p)); [lia|]. cbn [orb].
  rewrite (ReadFull_app _ p ([cr; lf] ++ rest)) by done. rewrite res_bind_ret.
  rewrite (readByte_cons _ cr ([lf] ++ rest)); [|done|cbn; lia]. rewrite res_bind_ret.
  rewrite (readByte_cons _ lf rest); [|done|cbn; lia]. rewrite res_bind_ret.
  rewrite !bool_decide_true by done. cbn [negb orb]. f_equal. f_equal.
  unfold at_input, set_remaining, set_input. cbn. f_equal. lia.
Qed.

Lemma readByte_inv d b d' :
  readByte d = Ret (b, d') → input (reader d) = b :: input (reader d') ∧
  d' = at_input d (input (reader d')) (remaining d - 1) ∧ remaining d ≠ 0.
Proof.
  unfold readByte. destruct (Z.eqb_spec (remaining d) 0); [done|].
  destruct (input (reader d)) as [|x rest] eqn:E; [done|]. intros [= <- <-]. done.
Qed.

Lemma bulk_inv d p d' :
  0 ≤ MaxBulkBytes (limits d) → bulk d = Ret (p, d') →
  ∃ bs rest, bulk_frame (MaxBulkBytes (limits d)) bs p ∧ input (reader d) = bs ++ rest ∧ zlen bs ≤ remaining d ∧
    d' = at_input d rest (remaining d - zlen bs).
Proof.
  intros Hm. unfold bulk. destruct (length_ d dollar (MaxBulkBytes (limits d))) as [[n d1]| |] eqn:El; [|done..].
  rewrite res_bind_ret. apply length_inv in El as (ds & rest1 & Hds & Hv & Hn & Hi & Hr & ->); [|done|done].
  rewrite zlen_header in *. cbn [remaining at_input set_remaining].
  destruct (Z.ltb_spec (remaining d - (zlen ds + 3)) 2); [done|].
  destruct (Z.ltb_spec (remaining d - (zlen ds + 3) - 2) n); [done|]. cbn [orb].
  assert (Hn0 : 0 ≤ n). { rewrite <- Hv. apply digits_val_mono; [lia|apply Hds]. }
  destruct (ReadFull _ n) as [[p1 rest2]| |] eqn:Ef; [|done..]. rewrite res_bind_ret.
  apply ReadFull_inv in Ef as [Hp Hi2]; [|done]. cbn [reader at_input set_remaining set_input input] in Hi2.
  destruct (readByte _) as [[a d2]| |] eqn:Ea; [|done..]. rewrite res_bind_ret.
  apply readByte_inv in Ea as (Hia & Ed2 & _). cbn [reader set_remaining set_input input] in Hia.
  destruct (readByte d2) as [[b d3]| |] eqn:Eb; [|done..]. rewrite res_bind_ret.
  apply readByte_inv in Eb as (Hib & Ed3 & _).
  destruct (bool_decide (a = cr)) eqn:Eca, (bool_decide (b = lf)) eqn:Ecb; cbn [negb orb]; try done.
  apply bool_decide_eq_true in Eca, Ecb. subst a b. intros [= <- <-].
  exists (header dollar ds ++ p1 ++ [cr; lf]), (input (reader d3)). rewrite zlen_bulk. split_and!.
  - exists ds. split_and!; try done; congruence.
  - rewrite Hi, Hi2, Hia, Hib. by rewrite <- !app_assoc.
  - lia.
  - rewrite Ed3. rewrite Ed2. unfold at_input, set_remaining, set_input. cbn. f_equal. lia.
Qed.

Lemma bulks_ok : ∀ bss args d rest,
  0 ≤ MaxBulkBytes (limits d) → 23 ≤ bufsize (reader d) →
  Forall2 (bulk_frame (MaxBulkBytes (limits d))) bss args →
  input (reader d) = concat bss ++ rest → zlen (concat bss) ≤ remaining d →
  bulks (length args) d = Ret (args, at_input d rest (remaining d - zlen (concat bss))).
Proof.
  intros bss args. revert bss. induction args as [|a args IH]; intros bss d rest Hm Hb Hf Hi Hr.
  - inversion Hf; subst. cbn in *. rewrite Z.sub_0_r, <- Hi. by destruct d as [[] ? ?].
  - inversion Hf as [|bs ? bss' ? Hbs Hf']; subst. cbn [concat] in *. rewrite zlen_app in *.
    pose proof (zlen_nonneg (concat bss')). cbn [length bulks].
    rewrite (bulk_ok d bs a (concat bss' ++ rest)); [|done|done|done|by rewrite Hi, <- app_assoc|lia].
    rewrite res_bind_ret.
    rewrite (IH bss' (at_input d (concat bss' ++ rest) (remaining d - zlen bs)) rest); [|done|done|done|done|cbn; lia].
    rewrite res_bind_ret. f_equal. f_equal. unfold at_input, set_remaining, set_input. cbn. f_equal. lia.
Qed.

Lemma bulks_inv : ∀ n d args d',
  0 ≤ MaxBulkBytes (limits d) → 0 ≤ remaining d → bulks n d = Ret (args, d') →
  ∃ bss rest, length args = n ∧ Forall2 (bulk_frame (MaxBulkBytes (limits d))) bss args ∧
    input (reader d) = concat bss ++ rest ∧ zlen (concat bss) ≤ remaining d ∧
    d' = at_input d rest (remaining d - zlen (concat bss)).
Proof.
  induction n as [|n IH]; intros d args d' Hm Hr0; cbn [bulks].
  - intros [= <- <-]. exists [], (input (reader d)). split_and!; try done.
    cbn. rewrite Z.sub_0_r. by destruct d as [[] ? ?].
  - destruct (bulk d) as [[a d1]| |] eqn:Eb; [|done..]. rewrite res_bind_ret.
    apply bulk_inv in Eb as (bs & rest & Hbs & Hi & Hr & ->); [|done].
    destruct (bulks n _) as [[args1 d2]| |] eqn:Ebs; [|done..]. rewrite res_bind_ret. intros [= <- <-].
    apply IH in Ebs as (bss & rest2 & Hl & Hf & Hi2 & Hr2 & ->); [|done|cbn; lia].
    cbn [reader input remaining limits at_input set_remaining set_input] in *.
    exists (bs :: bss), rest2. cbn [concat]. rewrite zlen_app. split_and!.
    + cbn. by rewrite Hl.
    + by constructor.
    + by rewrite Hi, Hi2, <- app_assoc.
    + lia.
    + unfold at_input, set_remaining, set_input. cbn. f_equal. lia.
Qed.

(** Every bulk string takes at least six bytes. *)
Lemma bulk_frame_len max bs p : bulk_frame max bs p → 6 ≤ zlen bs.
Proof. intros (ds & [_ Hl] & _ & _ & ->). rewrite zlen_bulk. pose proof (zlen_nonneg p). lia. Qed.

Lemma concat_frames_len max bss args : Forall2 (bulk_frame max) bss args → 6 * zlen args ≤ zlen (concat bss).
Proof.
  induction 1 as [|bs a bss args Hb Hf IH]; [done|]. cbn [concat]. rewrite zlen_app, zlen_cons.
  apply bulk_frame_len in Hb. lia.
Qed.

Lemma ReadCommand_ok d bs args rest :
  valid_limits (limits d) → 23 ≤ bufsize (reader d) → command_frame (limits d) bs args →
  input (reader d) = bs ++ rest →
  ReadCommand d = Ret (args, at_input d rest (MaxRequestBytes (limits d) - zlen bs)).
Proof.
  intros Hv Hb (ds & bss & Hds & Hn & Hargs & Hf & -> & Hlen) Hi. apply valid_limits_spec in Hv as (Hr4 & Hmb & Hma).
  pose proof Hds as [_ Hl]. pose proof (concat_frames_len _ _ _ Hf) as H6. unfold ReadCommand.
  cbn [reader set_remaining limits]. rewrite Hi, !zlen_app, zlen_header in *. pose proof (zlen_nonneg rest).
  destruct (Z.eqb_spec (zlen ds + 3 + zlen (concat bss) + zlen rest) 0); [pose proof (zlen_nonneg (concat bss)); lia|].
  pose proof (zlen_nonneg (concat bss)).
  rewrite (length_ok (set_remaining d (MaxRequestBytes (limits d))) star (MaxArguments (limits d)) ds (concat bss ++ rest) (zlen args));
    try done; [|lia|lia|cbn; by rewrite Hi, <- app_assoc|rewrite zlen_header; cbn; lia].
  rewrite res_bind_ret. destruct (Z.eqb_spec (zlen args) 0); [lia|].
  cbn [remaining at_input set_remaining set_input]. rewrite zlen_header.
  destruct (Z.ltb_spec ((MaxRequestBytes (limits d) - (zlen ds + 3)) / 6) (zlen args)); [dlia|].
  rewrite to_nat_zlen, (bulks_ok bss args _ rest); cbn; [|lia|done|done|done|lia].
  f_equal. f_equal. unfold at_input, set_remaining, set_input. cbn. f_equal. lia.
Qed.

Lemma ReadCommand_inv d args d' :
  valid_limits (limits d) → ReadCommand d = Ret (args, d') →
  ∃ bs rest, command_frame (limits d) bs args ∧ input (reader d) = bs ++ rest ∧
    d' = at_input d rest (MaxRequestBytes (limits d) - zlen bs).
Proof.
  intros Hv. pose proof Hv as (Hr4 & Hmb & Hma)%valid_limits_spec. unfold ReadCommand. destruct (_ =? 0); [done|].
  set (d0 := set_remaining d _).
  destruct (length_ d0 star (MaxArguments (limits d0))) as [[n d1]|e|] eqn:El;
    [|cbn; by destruct (decide (e = io_EOF))|done].
  rewrite res_bind_ret. apply length_inv in El as (ds & rest & Hds & Hdv & Hn & Hi & Hr & ->); [|done|cbn; lia].
  rewrite zlen_header in *. cbn [remaining at_input set_remaining set_input d0 limits reader] in *.
  destruct (Z.eqb_spec n 0); [done|]. destruct (Z.ltb_spec ((MaxRequestBytes (limits d) - (zlen ds + 3)) / 6) n); [done|].
  destruct (bulks _ _) as [[args1 d2]|e|] eqn:Eb; [|cbn; by destruct (decide (e = io_EOF))|done].
  intros [= <- <-]. apply bulks_inv in Eb as (bss & rest2 & Hlen & Hf & Hi2 & Hr2 & ->); [|cbn; lia|cbn; lia].
  cbn [reader input remaining limits at_input set_remaining set_input] in *.
  assert (Hn0 : 0 ≤ n). { rewrite <- Hdv. apply digits_val_mono; [lia|apply Hds]. }
  assert (Hz : zlen args1 = n) by (unfold zlen; lia).
  exists (header star ds ++ concat bss), rest2. split_and!.
  - exists ds, bss. rewrite zlen_app, zlen_header. split_and!; try done; try lia.
  - by rewrite Hi, Hi2, <- app_assoc.
  - rewrite zlen_app, zlen_header. unfold at_input, set_remaining, set_input. cbn [reader input bufsize limits]. f_equal. lia.
Qed.

(** ** No panic *)

Lemma ReadFull_no_panic r n : is_panic (ReadFull r n) = false.
Proof. unfold ReadFull. destruct (n =? 0); [done|]. destruct (_ =? 0); [done|]. by destruct (_ <? _). Qed.

Lemma readByte_no_panic d : is_panic (readByte d) = false.
Proof. unfold readByte. destruct (_ =? 0); [done|]. by destruct (input _). Qed.

Lemma bind_no_panic {A B} (m : res A) (f : A → res B) :
  is_panic m = false → (∀ a, is_panic (f a) = false) → is_panic (m ≫= f) = false.
Proof. intros Hm Hf. destruct m; [apply Hf|done|done]. Qed.

Lemma bulk_no_panic d : is_panic (bulk d) = false.
Proof.
  unfold bulk. apply bind_no_panic; [apply length_no_panic|]. intros [n d1]. destruct (_ || _); [done|].
  apply bind_no_panic; [apply ReadFull_no_panic|]. intros [p rest].
  apply bind_no_panic; [apply readByte_no_panic|]. intros [a d2].
  apply bind_no_panic; [apply readByte_no_panic|]. intros [b d3]. by destruct (_ || _).
Qed.

Lemma bulks_no_panic n : ∀ d, is_panic (bulks n d) = false.
Proof.
  induction n as [|n IH]; intros d; cbn [bulks]; [done|].
  apply bind_no_panic; [apply bulk_no_panic|]. intros [a d1]. apply bind_no_panic; [apply IH|]. by intros [].
Qed.

Lemma ReadCommand_no_panic d : is_panic (ReadCommand d) = false.
Proof.
  unfold ReadCommand. destruct (_ =? 0); [done|].
  assert (H : ∀ A (m : res A), is_panic m = false → is_panic (eof_inside m) = false).
  { intros A [] Hm; cbn; [done|by destruct (decide _)|done]. }
  apply H, bind_no_panic; [apply length_no_panic|]. intros [n d1]. destruct (n =? 0); [done|].
  destruct (_ <? n); [done|]. apply bulks_no_panic.
Qed.

(** ** Truncated requests *)

(** [pre] is [l] cut short. *)
Definition cut (pre l : list byte) : Prop := ∃ x more, l = pre ++ x :: more.

Lemma cut_len pre l : cut pre l → zlen pre < zlen l.
Proof. intros (x & more & ->). rewrite zlen_app, zlen_cons. pose proof (zlen_nonneg more). lia. Qed.

Lemma cut_app pre a b : cut pre (a ++ b) → cut pre a ∨ ∃ pre', pre = a ++ pre' ∧ cut pre' b.
Proof.
  revert a. induction pre as [|y pre IH]; intros [|z a] (x & more & E).
  - right. exists []. split; [done|]. by exists x, more.
  - left. by exists z, a.
  - right. exists (y :: pre). split; [done|]. by exists x, more.
  - injection E as -> E. destruct (IH a) as [(x' & more' & ->)|(pre' & -> & Hc)]; [by exists x, more|..].
    + left. by exists x', more'.
    + right. by exists pre'.
Qed.

Definition eofish {A} (r : res A) : Prop := r = Err io_EOF ∨ r = Err io_ErrUnexpectedEOF.

Lemma eofish_bind {A B} (m : res A) (f : A → res B) : eofish m → eofish (m ≫= f).
Proof. intros [-> | ->]; [by left|by right]. Qed.

Lemma length_cut d marker max ds :
  marker ≠ lf → digits_ok ds → 23 ≤ bufsize (reader d) → cut (input (reader d)) (header marker ds) →
  eofish (length_ d marker max).
Proof.
  intros Hm [Hds Hl] Hb Hc. apply eofish_bind. left. unfold ReadSlice.
  pose proof (cut_len _ _ Hc) as Hlen. rewrite zlen_header in Hlen.
  rewrite index_byte_None.
  - destruct (Z.leb_spec (bufsize (reader d)) (zlen (input (reader d)))); [lia|done].
  - rewrite header_line in Hc. apply cut_app in Hc as [(x & more & E)|(pre' & E & (x & more & E'))].
    + intros Hin. assert (Hin' : lf ∈ marker :: ds ++ [cr]) by (rewrite E; apply elem_of_app; by left).
      apply elem_of_cons in Hin' as [?|Hin']; [done|]. apply elem_of_app in Hin' as [Hin'|Hin'];
        [by apply digits_no_lf in Hin'|by apply list_elem_of_singleton in Hin'].
    + destruct pre' as [|y pre']; [|by destruct pre']. rewrite app_nil_r in E. rewrite E. intros Hin.
      apply elem_of_cons in Hin as [?|Hin]; [done|]. apply elem_of_app in Hin as [Hin|Hin];
        [by apply digits_no_lf in Hin|by apply list_elem_of_singleton in Hin].
Qed.

Lemma ReadFull_cut r (p : list byte) : cut (input r) p → eofish (ReadFull r (zlen p)).
Proof.
  intros Hc. pose proof (cut_len _ _ Hc). pose proof (zlen_nonneg (input r)). unfold ReadFull.
  destruct (Z.eqb_spec (zlen p) 0); [lia|]. destruct (Z.eqb_spec (zlen (input r)) 0); [by left|].
  destruct (Z.ltb_spec (zlen (input r)) (zlen p)); [by right|lia].
Qed.

Lemma bulk_cut d bs p :
  0 ≤ MaxBulkBytes (limits d) → 23 ≤ bufsize (reader d) → bulk_frame (MaxBulkBytes (limits d)) bs p →
  zlen bs ≤ remaining d → cut (input (reader d)) bs → eofish (bulk d).
Proof.
  intros Hm Hb (ds & Hds & Hv & Hp & ->) Hr Hc. pose proof Hds as [_ Hl]. rewrite zlen_bulk in Hr.
  pose proof (zlen_nonneg p). apply cut_app in Hc as [Hc|(pre & Ei & Hc)]; unfold bulk.
  { apply eofish_bind. by eapply length_cut. }
  rewrite (length_ok d dollar (MaxBulkBytes (limits d)) ds pre (zlen p)); try done; [|rewrite zlen_header; lia].
  rewrite res_bind_ret, zlen_header. cbn [remaining at_input set_remaining].
  destruct (Z.ltb_spec (remaining d - (zlen ds + 3)) 2); [lia|].
  destruct (Z.ltb_spec (remaining d - (zlen ds + 3) - 2) (zlen p)); [lia|]. cbn [orb].
  apply cut_app in Hc as [Hc|(pre2 & -> & Hc)]; [by apply eofish_bind, ReadFull_cut|].
  rewrite (ReadFull_app _ p pre2) by done. rewrite res_bind_ret.
  destruct Hc as (x & more & E). destruct pre2 as [|y [|z pre2]].
  - apply eofish_bind. left. unfold readByte. cbn [remaining set_remaining reader set_input input].
    destruct (Z.eqb_spec (remaining d - (zlen ds + 3) - zlen p) 0); [lia|done].
  - injection E as <- _. rewrite (readByte_cons _ cr []); [|done|cbn; lia]. rewrite res_bind_ret.
    apply eofish_bind. left. unfold readByte. cbn [remaining set_remaining reader set_input input at_input].
    destruct (Z.eqb_spec (remaining d - (zlen ds + 3) - zlen p - 1) 0); [lia|done].
  - by destruct pre2.
Qed.

Lemma bulks_cut : ∀ bss args d,
  0 ≤ MaxBulkBytes (limits d) → 23 ≤ bufsize (reader d) →
  Forall2 (bulk_frame (MaxBulkBytes (limits d))) bss args →
  zlen (concat bss) ≤ remaining d → cut (input (reader d)) (concat bss) → eofish (bulks (length args) d).
Proof.
  intros bss args. revert bss. induction args as [|a args IH]; intros bss d Hm Hb Hf Hr Hc; inversion Hf; subst.
  - destruct Hc as (x & more & E). by destruct (input (reader d)).
  - rename l into bss'. cbn [concat] in *. rewrite zlen_app in Hr. pose proof (zlen_nonneg (concat bss')).
    cbn [length bulks]. apply cut_app in Hc as [Hc|(pre & Ei & Hc)].
    + apply eofish_bind. eapply bulk_cut; try done. lia.
    + rewrite (bulk_ok d x a pre) by (done || lia). rewrite res_bind_ret. apply eofish_bind.
      apply (IH bss'); try done. cbn. lia.
Qed.

Lemma ReadCommand_cut d bs args :
  valid_limits (limits d) → 23 ≤ bufsize (reader d) → command_frame (limits d) bs args →
  cut (input (reader d)) bs → input (reader d) ≠ [] → ReadCommand d = Err io_ErrUnexpectedEOF.
Proof.
  intros Hv Hb (ds & bss & Hds & Hn & Hargs & Hf & -> & Hlen) Hc Hne. apply valid_limits_spec in Hv as (Hr4 & Hmb & Hma).
  pose proof Hds as [_ Hl]. pose proof (concat_frames_len _ _ _ Hf) as H6. rewrite zlen_app, zlen_header in Hlen.
  unfold ReadCommand. cbn [reader set_remaining limits].
  assert (Hz : (zlen (input (reader d)) =? 0) = false).
  { apply Z.eqb_neq. destruct (input (reader d)) as [|x l]; [done|]. rewrite zlen_cons. pose proof (zlen_nonneg l). lia. }
  rewrite Hz. assert (He : ∀ A (r : res A), eofish r → eof_inside r = Err io_ErrUnexpectedEOF) by (by intros A r [-> | ->]).
  apply He. apply cut_app in Hc as [Hc|(pre & Ei & Hc)].
  { apply eofish_bind. by eapply length_cut. }
  pose proof (zlen_nonneg (concat bss)).
  rewrite (length_ok (set_remaining d (MaxRequestBytes (limits d))) star (MaxArguments (limits d)) ds pre (zlen args));
    try done; [|lia|lia|rewrite zlen_header; cbn; lia].
  rewrite res_bind_ret. destruct (Z.eqb_spec (zlen args) 0); [lia|].
  cbn [remaining at_input set_remaining set_input]. rewrite zlen_header.
  destruct (Z.ltb_spec ((MaxRequestBytes (limits d) - (zlen ds + 3)) / 6) (zlen args)); [dlia|].
  rewrite to_nat_zlen. apply (bulks_cut bss args); cbn; try done; lia.
Qed.
