(* ===== verification/RespFast.v ===== *)
(** * The decoder's fast paths and its properties

    The fast paths decode a complete frame from the buffered bytes without
    allocating; whenever one of them accepts, the general decoder reads the same
    arguments from the same bytes.  Also the round trips through a reference
    encoder. *)
From S2P Require Import Prelude KeyPackFacts Resp RespFacts.
Set Default Proof Using "Type".

(** ** Bulk strings in a buffer *)

(** [buf] from position [pos] on. *)
Definition from (buf : list byte) (pos : Z) : list byte := drop (Z.to_nat pos) buf.

Lemma from_cons buf pos b : 0 ≤ pos → znth buf pos = Some b → from buf pos = b :: from buf (pos + 1).
Proof.
  intros Hp H. rewrite znth_lookup in H by done. unfold from. rewrite (drop_S _ _ _ H). do 2 f_equal. lia.
Qed.

Lemma from_nil buf pos : zlen buf ≤ pos → from buf pos = [].
Proof. intros. unfold from. apply drop_ge. unfold zlen in *. lia. Qed.

Lemma znth_from buf pos b l : 0 ≤ pos → from buf pos = b :: l → znth buf pos = Some b ∧ from buf (pos + 1) = l ∧ pos < zlen buf.
Proof.
  intros Hp E. assert (Hlt : pos < zlen buf).
  { destruct (Z.ltb_spec pos (zlen buf)); [done|]. by rewrite from_nil in E. }
  destruct (znth_is_Some buf pos) as [x Hx]; [lia|]. rewrite (from_cons _ _ _ Hp Hx) in E. by simplify_eq.
Qed.

(** What the header loop found: the rest of the digits and the line end, or the
    end of the buffer. *)
Inductive header_at (buf : list byte) (max pos n digits pos' n' digits' : Z) : Prop :=
| ha_line ds rest :
    from buf pos = ds ++ [cr; lf] ++ rest → Forall (fun b => is_digit b = true) ds →
    pos' = pos + zlen ds + 2 → n' = digits_val n ds → n' ≤ max → digits' = digits + zlen ds → 0 < digits' ≤ 20 →
    rest = from buf pos' → pos' ≤ zlen buf → header_at buf max pos n digits pos' n' digits'
| ha_end : zlen buf ≤ pos' → 0 ≤ n' → header_at buf max pos n digits pos' n' digits'.

Lemma header_loop_sound buf max : 0 ≤ max → ∀ fuel pos n digits r,
  0 ≤ pos → 0 ≤ n ≤ max → 0 ≤ digits ≤ 20 → zlen buf - pos ≤ Z.of_nat fuel →
  header_loop fuel buf max pos n digits = Ret r →
  match r with None => True | Some (pos', n', digits') => header_at buf max pos n digits pos' n' digits' end.
Proof.
  intros Hmax. induction fuel as [|fuel IH]; intros pos n digits r Hp Hn Hd Hf; cbn [header_loop].
  { intros [= <-]. right; lia. }
  destruct (Z.ltb_spec pos (zlen buf)) as [Hlt|]; cbn [negb]; [|intros [= <-]; right; lia].
  destruct (znth_is_Some buf pos) as [b Hb]; [lia|]. rewrite Hb. cbn [or_panic]. rewrite res_bind_ret.
  pose proof (from_cons _ _ _ Hp Hb) as Ef.
  destruct (bool_decide (b = cr)) eqn:Ecr.
  - apply bool_decide_eq_true in Ecr. subst b. destruct (Z.eqb_spec digits 0); cbn [orb]; [by intros [= <-]|].
    destruct (Z.leb_spec (zlen buf) (pos + 1)); [by intros [= <-]|].
    destruct (znth_is_Some buf (pos + 1)) as [b1 Hb1]; [lia|]. rewrite Hb1. cbn [or_panic]. rewrite res_bind_ret.
    destruct (bool_decide (b1 = lf)) eqn:Elf; cbn [negb]; [|by intros [= <-]].
    apply bool_decide_eq_true in Elf. subst b1. intros [= <-].
    apply (ha_line _ _ _ _ _ _ _ _ [] (from buf (pos + 2))); try done; try lia.
    + rewrite Ef, (from_cons buf (pos + 1) lf) by (done || lia). cbn [app]. by replace (pos + 1 + 1) with (pos + 2) by lia.
    + change (zlen []) with 0. lia.
    + change (zlen []) with 0. lia.
  - destruct (is_digit b) eqn:Eb; cbn [negb orb]; [|by intros [= <-]].
    destruct (Z.leb_spec 20 digits); [by intros [= <-]|].
    pose proof Eb as Eb'. apply is_digit_range in Eb'. rewrite over_limit_spec by lia.
    destruct (Z.ltb_spec max (n * 10 + (bz b - 48))); [by intros [= <-]|]. intros E.
    apply IH in E; [|lia..]. destruct r as [[[pos' n'] digits']|]; [|done].
    destruct E as [ds rest E Hds Hpos Hn' Hle Hdg Hr Hrest Hpl|]; [|by apply ha_end].
    apply (ha_line _ _ _ _ _ _ _ _ (b :: ds) rest); try done; rewrite ?zlen_cons; try lia.
    + by rewrite Ef, E.
    + by constructor.
Qed.

Lemma header_loop_total buf max : ∀ fuel pos n digits,
  0 ≤ pos → ∃ r, header_loop fuel buf max pos n digits = Ret r.
Proof.
  induction fuel as [|fuel IH]; intros pos n digits Hp; cbn [header_loop]; [eauto|].
  destruct (Z.ltb_spec pos (zlen buf)); cbn [negb]; [|eauto].
  destruct (znth_is_Some buf pos) as [b ->]; [lia|]. cbn [or_panic]. rewrite res_bind_ret.
  destruct (bool_decide _).
  - destruct (Z.eqb_spec digits 0); cbn [orb]; [eauto|]. destruct (Z.leb_spec (zlen buf) (pos + 1)); [eauto|].
    destruct (znth_is_Some buf (pos + 1)) as [b1 ->]; [lia|]. cbn [or_panic]. rewrite res_bind_ret. destruct (negb _); eauto.
  - destruct (_ || _); [eauto|]. destruct (over_limit _ _ _); [eauto|]. apply IH. lia.
Qed.

Lemma header_loop_complete buf max : 0 ≤ max → ∀ ds fuel pos n digits rest,
  0 ≤ pos → 0 ≤ n → 0 ≤ digits → zlen buf - pos ≤ Z.of_nat fuel →
  from buf pos = ds ++ [cr; lf] ++ rest → Forall (fun b => is_digit b = true) ds →
  digits_val n ds ≤ max → 0 < digits + zlen ds ≤ 20 →
  header_loop fuel buf max pos n digits = Ret (Some (pos + zlen ds + 2, digits_val n ds, digits + zlen ds)).
Proof.
  intros Hmax. induction ds as [|b ds IH]; intros fuel pos n digits rest Hp Hn Hd Hf E Hds Hv Hl.
  - cbn [app] in E. destruct (znth_from _ _ _ _ Hp E) as (Hb & E1 & Hlt).
    destruct (znth_from buf (pos + 1) _ _ ltac:(lia) E1) as (Hb1 & E2 & Hlt1).
    destruct fuel as [|fuel]; [lia|]. cbn [header_loop]. destruct (Z.ltb_spec pos (zlen buf)); [|lia]. cbn [negb].
    rewrite Hb. cbn [or_panic]. rewrite res_bind_ret, bool_decide_true by done. change (zlen []) with 0 in *.
    destruct (Z.eqb_spec digits 0); [lia|]. destruct (Z.leb_spec (zlen buf) (pos + 1)); [lia|]. cbn [orb].
    rewrite Hb1. cbn [or_panic]. rewrite res_bind_ret, bool_decide_true by done. cbn [negb digits_val foldl].
    do 3 f_equal; [f_equal|]; lia.
  - rewrite zlen_cons in *. pose proof (zlen_nonneg ds). inversion Hds as [|? ? Hb Hds']; subst.
    cbn [app] in E. destruct (znth_from _ _ _ _ Hp E) as (Hbb & E1 & Hlt).
    destruct fuel as [|fuel]; [lia|]. cbn [header_loop]. destruct (Z.ltb_spec pos (zlen buf)); [|lia]. cbn [negb].
    rewrite Hbb. cbn [or_panic]. rewrite res_bind_ret.
    rewrite (bool_decide_false (b = cr)) by (by intros ->). rewrite Hb. cbn [negb orb].
    destruct (Z.leb_spec 20 digits); [lia|]. pose proof Hb as Hb'. apply is_digit_range in Hb'.
    rewrite over_limit_spec by lia. change (digits_val n (b :: ds)) with (digits_val (n * 10 + (bz b - 48)) ds) in *.
    pose proof (digits_val_mono ds (n * 10 + (bz b - 48)) ltac:(lia) Hds').
    destruct (Z.ltb_spec max (n * 10 + (bz b - 48))); [lia|].
    rewrite (IH fuel (pos + 1) (n * 10 + (bz b - 48)) (digits + 1) rest); try done; try lia.
    do 3 f_equal; [f_equal|]; lia.
Qed.

Lemma from_app buf pos a b : 0 ≤ pos → from buf pos = a ++ b → from buf (pos + zlen a) = b.
Proof.
  intros Hp E. unfold from in *. replace (Z.to_nat (pos + zlen a)) with (Z.to_nat pos + length a)%nat by (unfold zlen; lia).
  by rewrite <- drop_drop, E, drop_app_length.
Qed.

Lemma from_len buf pos : 0 ≤ pos ≤ zlen buf → zlen (from buf pos) = zlen buf - pos.
Proof. intros. unfold from, zlen in *. rewrite length_drop. lia. Qed.

Lemma from_slice buf pos p rest : 0 ≤ pos → from buf pos = p ++ rest → pos ≤ zlen buf → zslice buf pos (pos + zlen p) = Some p.
Proof.
  intros Hp E Hl. pose proof (from_len buf pos ltac:(lia)) as Hz. rewrite E, zlen_app in Hz.
  pose proof (zlen_nonneg p). pose proof (zlen_nonneg rest).
  rewrite zslice_Some by lia. f_equal. change (drop (Z.to_nat pos) buf) with (from buf pos). rewrite E.
  replace (pos + zlen p - pos) with (zlen p) by lia. rewrite to_nat_zlen. apply take_app_length.
Qed.

(** Two known characters at the end of a slice of [buf]. *)
Lemma from_two buf pos (n : Z) rest :
  0 ≤ pos → 0 ≤ n → from buf pos = rest → pos + n + 2 ≤ zlen buf →
  ∃ p c0 c1 rest', rest = p ++ c0 :: c1 :: rest' ∧ zlen p = n ∧ znth buf (pos + n) = Some c0 ∧
    znth buf (pos + n + 1) = Some c1 ∧ rest' = from buf (pos + n + 2).
Proof.
  intros Hp Hn E Hl. destruct (znth_is_Some buf (pos + n)) as [c0 H0]; [lia|].
  destruct (znth_is_Some buf (pos + n + 1)) as [c1 H1]; [lia|].
  exists (take (Z.to_nat n) rest), c0, c1, (from buf (pos + n + 2)). split_and!; try done.
  - rewrite <- (take_drop (Z.to_nat n) rest) at 1. f_equal. subst rest. unfold from at 1. rewrite drop_drop.
    replace (Z.to_nat pos + Z.to_nat n)%nat with (Z.to_nat (pos + n)) by lia. fold (from buf (pos + n)).
    rewrite (from_cons buf (pos + n) c0 ltac:(lia) H0), (from_cons buf (pos + n + 1) c1 ltac:(lia) H1).
    by replace (pos + n + 1 + 1) with (pos + n + 2) by lia.
  - pose proof (from_len buf pos ltac:(lia)) as Hz. rewrite E in Hz. unfold zlen in *. rewrite length_take. lia.
Qed.

Lemma parseBulk_total buf max pos : 0 ≤ max → 0 ≤ pos → ∃ r, parseBulk buf max pos = Ret r.
Proof.
  intros Hmax Hp. unfold parseBulk. destruct (Z.leb_spec (zlen buf) pos); [eauto|].
  destruct (znth_is_Some buf pos) as [b ->]; [lia|]. cbn [or_panic]. rewrite res_bind_ret. destruct (negb _); [eauto|].
  destruct (header_loop_total buf max (length buf) (pos + 1) 0 0) as [r Er]; [lia|]. rewrite Er, res_bind_ret.
  apply header_loop_sound in Er; [|unfold zlen; lia..]. destruct r as [[[pos' n'] digits']|]; [|eauto].
  destruct (Z.eqb_spec digits' 0); cbn [orb]; [eauto|]. destruct (Z.ltb_spec (zlen buf) (pos' + n' + 2)); [eauto|].
  assert (Hr : 0 ≤ pos' ∧ 0 ≤ n').
  { destruct Er as [ds rest _ Hds -> -> _ _ _ _ _|]; [|lia]. pose proof (zlen_nonneg ds). split; [lia|].
    apply digits_val_mono; [lia|done]. }
  destruct (znth_is_Some buf (pos' + n')) as [c0 ->]; [lia|]. cbn [or_panic]. rewrite res_bind_ret. destruct (negb _); [eauto|].
  destruct (znth_is_Some buf (pos' + n' + 1)) as [c1 ->]; [lia|]. cbn [or_panic]. rewrite res_bind_ret.
  destruct (negb _); eauto.
Qed.

Lemma parseBulk_sound buf max pos start n next :
  0 ≤ max → 0 ≤ pos → parseBulk buf max pos = Ret (Some (start, n, next)) →
  ∃ bs p, bulk_frame max bs p ∧ from buf pos = bs ++ from buf next ∧ next = pos + zlen bs ∧ next ≤ zlen buf ∧
    zslice buf start (start + n) = Some p ∧ n = zlen p.
Proof.
  intros Hmax Hp. unfold parseBulk. destruct (Z.leb_spec (zlen buf) pos); [done|].
  destruct (znth_is_Some buf pos) as [b Hb]; [lia|]. rewrite Hb. cbn [or_panic]. rewrite res_bind_ret.
  destruct (bool_decide (b = dollar)) eqn:Ed; cbn [negb]; [|done]. apply bool_decide_eq_true in Ed. subst b.
  destruct (header_loop_total buf max (length buf) (pos + 1) 0 0) as [r Er]; [lia|]. rewrite Er, res_bind_ret.
  apply header_loop_sound in Er; [|unfold zlen; lia..]. destruct r as [[[pos' n'] digits']|]; [|done].
  destruct (Z.eqb_spec digits' 0); cbn [orb]; [done|]. destruct (Z.ltb_spec (zlen buf) (pos' + n' + 2)); [done|].
  destruct Er as [ds rest E Hds Hpos Hn Hle Hdg Hr Hrest Hpl|]; [|lia].
  assert (Hn0 : 0 ≤ n') by (rewrite Hn; apply digits_val_mono; [lia|done]).
  pose proof (zlen_nonneg ds).
  destruct (from_two buf pos' n' rest ltac:(lia) Hn0 ltac:(congruence) ltac:(lia)) as (p & c0 & c1 & rest' & Er & Hzp & Hc0 & Hc1 & Er').
  rewrite Hc0. cbn [or_panic]. rewrite res_bind_ret. destruct (bool_decide (c0 = cr)) eqn:E0; cbn [negb]; [|done].
  rewrite Hc1. cbn [or_panic]. rewrite res_bind_ret. destruct (bool_decide (c1 = lf)) eqn:E1; cbn [negb]; [|done].
  apply bool_decide_eq_true in E0, E1. subst c0 c1. intros [= <- <- <-].
  exists (header dollar ds ++ p ++ [cr; lf]), p. rewrite zlen_bulk. split_and!; try lia.
  - exists ds. split_and!; try done; [split; [done|lia]|congruence|lia].
  - rewrite (from_cons _ _ _ Hp Hb), E, Er, Er'. unfold header. cbn [app]. rewrite <- !app_assoc. done.
  - rewrite <- Hzp. eapply from_slice; [lia| |lia]. by rewrite <- Hrest, Er.
Qed.

Lemma parseBulk_complete buf max pos bs p rest :
  0 ≤ max → 0 ≤ pos → bulk_frame max bs p → from buf pos = bs ++ rest →
  ∃ start, parseBulk buf max pos = Ret (Some (start, zlen p, pos + zlen bs)) ∧
    zslice buf start (start + zlen p) = Some p ∧ from buf (pos + zlen bs) = rest.
Proof.
  intros Hmax Hp (ds & [Hds Hl] & Hv & Hle & ->) E. pose proof E as Erest. apply from_app in Erest; [|done].
  unfold header in E. cbn [app] in E. destruct (znth_from _ _ _ _ Hp E) as (Hb & E1 & Hlt). rewrite <- !app_assoc in E1.
  unfold parseBulk. destruct (Z.leb_spec (zlen buf) pos); [lia|]. rewrite Hb. cbn [or_panic].
  rewrite res_bind_ret, bool_decide_true by done. cbn [negb].
  rewrite (header_loop_complete buf max Hmax ds (length buf) (pos + 1) 0 0 (p ++ [cr; lf] ++ rest)); try done;
    try (unfold zlen in *; lia).
  rewrite res_bind_ret, Hv. destruct (Z.eqb_spec (0 + zlen ds) 0); [lia|]. cbn [orb].
  set (pos' := pos + 1 + zlen ds + 2).
  assert (E2 : from buf pos' = p ++ [cr; lf] ++ rest).
  { rewrite (app_assoc ds) in E1. apply from_app in E1; [|lia].
    rewrite zlen_app in E1. change (zlen [cr; lf]) with 2 in E1. unfold pos'. rewrite <- E1. f_equal. lia. }
  pose proof (zlen_nonneg p). pose proof (zlen_nonneg rest).
  assert (Hpl : pos' ≤ zlen buf).
  { destruct (Z.leb_spec pos' (zlen buf)); [done|]. rewrite from_nil in E2 by lia. by destruct p. }
  pose proof (from_len buf pos' ltac:(lia)) as Hz. rewrite E2, !zlen_app in Hz. change (zlen [cr; lf]) with 2 in Hz.
  destruct (Z.ltb_spec (zlen buf) (pos' + zlen p + 2)); [lia|].
  pose proof (from_app buf pos' p _ ltac:(lia) E2) as E3.
  destruct (znth_from buf (pos' + zlen p) cr _ ltac:(lia) E3) as (Hc0 & E4 & _).
  destruct (znth_from buf (pos' + zlen p + 1) lf _ ltac:(lia) E4) as (Hc1 & _ & _).
  rewrite Hc0. cbn [or_panic]. rewrite res_bind_ret, bool_decide_true by done. cbn [negb].
  rewrite Hc1. cbn [or_panic]. rewrite res_bind_ret, bool_decide_true by done. cbn [negb].
  exists pos'. rewrite zlen_bulk in *. split_and!; [|by eapply from_slice; [lia|exact E2|]|done].
  do 2 f_equal. unfold pos'. f_equal. lia.
Qed.

(** ** Agreement with the general decoder *)

(** The buffered byte count a [bufio.Reader] may report. *)
Definition buffered_ok (d : Decoder) (buffered : Z) : Prop :=
  0 ≤ buffered ≤ zlen (input (reader d)) ∧ buffered ≤ bufsize (reader d).

Definition decoder_ok (d : Decoder) : Prop := valid_limits (limits d) ∧ 23 ≤ bufsize (reader d).

Lemma peeked_input d buffered :
  decoder_ok d → buffered_ok d buffered →
  ∃ more, input (reader d) = peeked d buffered ++ more ∧ zlen (peeked d buffered) ≤ MaxRequestBytes (limits d).
Proof.
  intros [Hv _] [Hb _]. apply valid_limits_spec in Hv as (Hr & _). unfold peeked.
  destruct (Z.ltb_spec (MaxRequestBytes (limits d)) buffered); eexists; (split; [symmetry; apply take_drop|]);
    unfold zlen in *; rewrite length_take; lia.
Qed.

Lemma Discard_app d buf more pos :
  input (reader d) = buf ++ more → 0 ≤ pos ≤ zlen buf →
  reader (Discard d pos) = mkReader (from buf pos ++ more) (bufsize (reader d)).
Proof.
  intros E Hp. unfold Discard, set_input, from. cbn. rewrite E, drop_app_le by (unfold zlen in *; lia). done.
Qed.

(** A complete frame at the start of the buffered bytes is what [ReadCommand] reads. *)
Lemma frame_agrees d buf more b1 bss args pos :
  decoder_ok d → input (reader d) = buf ++ more → zlen buf ≤ MaxRequestBytes (limits d) →
  from buf 0 = (header star [b1] ++ concat bss) ++ from buf pos → 0 ≤ pos ≤ zlen buf →
  is_digit b1 = true → bz b1 - 48 = zlen args → 1 ≤ zlen args ≤ MaxArguments (limits d) →
  Forall2 (bulk_frame (MaxBulkBytes (limits d))) bss args →
  ∃ d2, ReadCommand d = Ret (args, d2) ∧ reader d2 = reader (Discard d pos) ∧ limits d2 = limits d.
Proof.
  intros [Hv Hb] Hi Hl Hf Hp Hd Hn Ha Hbss. change (from buf 0) with buf in Hf.
  rewrite (ReadCommand_ok d (header star [b1] ++ concat bss) args (from buf pos ++ more)); try done.
  - eexists. split; [done|]. by rewrite (Discard_app d buf more).
  - exists [b1], bss. split_and!; try done; try lia.
    + split; [by repeat constructor|done].
    + rewrite Hf, !zlen_app in Hl. rewrite !zlen_app. pose proof (zlen_nonneg (from buf pos)). lia.
  - rewrite Hi, Hf at 1. by rewrite <- app_assoc.
Qed.

Lemma frame_prefix_inv ps : ∀ buf,
  frame_prefix buf ps = true →
  ∃ chars rest, buf = chars ++ rest ∧ Forall2 (fun b p => b = fst p ∨ b = snd p) chars ps.
Proof.
  induction ps as [|[u l] ps IH]; intros buf H; [exists [], buf; split; [done|constructor]|].
  destruct buf as [|b buf]; [done|]. cbn [frame_prefix] in H. apply andb_true_iff in H as [Hb H].
  destruct (IH buf H) as (chars & rest & -> & Hf). exists (b :: chars), rest. split; [done|]. constructor; [|done].
  apply orb_true_iff in Hb as [Hb|Hb]; apply bool_decide_eq_true in Hb; auto.
Qed.

Lemma or_self (Q : Prop) : Q ∨ Q → Q.
Proof. tauto. Qed.

(** Read off the characters a literal prefix fixes. *)
Ltac fixed_prefix H :=
  repeat match type of H with
  | Forall2 _ _ (_ :: _) => let Hb := fresh "Hb" in let H' := fresh "Hf" in
      inversion H as [|? ? ? ? Hb H']; subst; clear H; rename H' into H; cbn [fst snd] in Hb;
      try (apply or_self in Hb; subst)
  | Forall2 _ _ [] => inversion H; subst; clear H
  end.

Definition GET : list byte := [x47; x45; x54].
Definition SET : list byte := [x53; x45; x54].

(** The bulk of a three-letter command token. *)
Lemma token_frame max g e t :
  3 ≤ max → bulk_frame max ([dollar; x33; cr; lf; g; e; t; cr; lf]) [g; e; t].
Proof. intros H. exists [x33]. split_and!; try done. split; [by repeat constructor|done]. Qed.

Lemma get_prefix_split buf :
  frame_prefix buf get_prefix = true →
  ∃ g e t, EqualFold [g; e; t] GET = true ∧
    buf = (header star [x32] ++ [dollar; x33; cr; lf; g; e; t; cr; lf]) ++ from buf 13 ∧ znth buf 13 = Some dollar ∧ 14 ≤ zlen buf.
Proof.
  intros H. apply frame_prefix_inv in H as (chars & rest & -> & Hf).
  unfold get_prefix, exactly in Hf. cbn [map app] in Hf. fixed_prefix Hf.
  match goal with Hg : ?g = x47 ∨ _, He : ?e = x45 ∨ _, Ht : ?t = x54 ∨ _ |- _ => exists g, e, t end.
  split_and!; [|done|done|].
  - by repeat match goal with H : _ ∨ _ |- _ => destruct H; subst end.
  - cbn [app]. rewrite !zlen_cons. pose proof (zlen_nonneg rest). lia.
Qed.

Lemma set_prefix_split buf :
  frame_prefix buf set_prefix = true →
  ∃ s e t, EqualFold [s; e; t] SET = true ∧
    buf = (header star [x33] ++ [dollar; x33; cr; lf; s; e; t; cr; lf]) ++ from buf 13 ∧ 13 ≤ zlen buf.
Proof.
  intros H. apply frame_prefix_inv in H as (chars & rest & -> & Hf).
  unfold set_prefix, exactly in Hf. cbn [map app] in Hf. fixed_prefix Hf.
  match goal with Hg : ?g = x53 ∨ _, He : ?e = x45 ∨ _, Ht : ?t = x54 ∨ _ |- _ => exists g, e, t end.
  split_and!; [|done|].
  - by repeat match goal with H : _ ∨ _ |- _ => destruct H; subst end.
  - cbn [app]. rewrite !zlen_cons. pose proof (zlen_nonneg rest). lia.
Qed.

Lemma array3_split buf :
  frame_prefix buf array3_prefix = true → buf = header star [x33] ++ from buf 4 ∧ 4 ≤ zlen buf.
Proof.
  intros H. apply frame_prefix_inv in H as (chars & rest & -> & Hf).
  unfold array3_prefix, exactly in Hf. cbn [map app] in Hf. fixed_prefix Hf. split; [done|].
  cbn [app]. rewrite !zlen_cons. pose proof (zlen_nonneg rest). lia.
Qed.

(** What a fast path that answered [args] for command [word] and left the
    reader as in [d1] promises: [ReadCommand] reads the same request. *)
Definition agrees (d : Decoder) (word : list byte) (args : list (list byte)) (d1 : Decoder) : Prop :=
  ∃ c d2, ReadCommand d = Ret (c :: args, d2) ∧ EqualFold c word = true ∧ reader d2 = reader d1 ∧ limits d2 = limits d.

Lemma GET_as_parseBulk d buffered key d1 :
  ReadBufferedGET d buffered = Ret (Some key, d1) →
  let buf := peeked d buffered in
  frame_prefix buf get_prefix = true ∧ 2 ≤ MaxArguments (limits d) ∧
  ∃ i n, parseBulk buf (MaxBulkBytes (limits d)) 13 = Ret (Some (i, n, i + n + 2)) ∧
    zslice buf i (i + n) = Some key ∧ d1 = Discard d (i + n + 2).
Proof.
  unfold ReadBufferedGET. destruct (_ <? 19); [done|]. cbv zeta. set (buf := peeked d buffered).
  destruct (_ <? 17); cbn [orb]; [done|]. destruct (frame_prefix buf get_prefix) eqn:Hp; cbn [negb]; [|done].
  pose proof (get_prefix_split buf Hp) as (g & e & t & _ & _ & H13 & Hl).
  destruct (header_loop _ _ _ 14 0 0) as [[[[i n] digits]|]| |] eqn:Eh; rewrite ?res_bind_ret; try done.
  destruct (digits =? 0) eqn:Ed; cbn [orb]; [done|]. destruct (zlen buf <? i); [done|].
  destruct (zlen buf <? i + n + 2) eqn:El; cbn [orb]; [done|].
  destruct (MaxRequestBytes (limits d) <? i + n + 2); [done|].
  destruct (znth buf (i + n)) as [c0|] eqn:E0; cbn [or_panic]; rewrite ?res_bind_ret; [|done].
  destruct (bool_decide (c0 = cr)) eqn:Ec0; cbn [negb]; [|done].
  destruct (znth buf (i + n + 1)) as [c1|] eqn:E1; cbn [or_panic]; rewrite ?res_bind_ret; [|done].
  destruct (bool_decide (c1 = lf)) eqn:Ec1; cbn [negb]; [|done].
  destruct (Z.ltb_spec (MaxArguments (limits d)) 2); [done|].
  destruct (zslice buf i (i + n)) as [k|] eqn:Ek; cbn [or_panic]; rewrite ?res_bind_ret; [|done]. intros [= -> <-].
  split; [done|]. split; [lia|]. exists i, n. split; [|done].
  unfold parseBulk. destruct (Z.leb_spec (zlen buf) 13); [lia|]. rewrite H13. cbn [or_panic].
  rewrite res_bind_ret, bool_decide_true by done. cbn [negb]. change (13 + 1) with 14. rewrite Eh, res_bind_ret, Ed, El.
  cbn [orb]. rewrite E0. cbn [or_panic]. rewrite res_bind_ret, Ec0. cbn [negb]. rewrite E1. cbn [or_panic].
  by rewrite res_bind_ret, Ec1.
Qed.

Lemma GET_agrees d buffered key d1 :
  decoder_ok d → buffered_ok d buffered → 3 ≤ MaxBulkBytes (limits d) →
  ReadBufferedGET d buffered = Ret (Some key, d1) → agrees d GET [key] d1.
Proof.
  intros Hd Hb H3 H. pose proof (peeked_input d buffered Hd Hb) as (more & Hi & Hm).
  apply GET_as_parseBulk in H as (Hp & Ha & i & n & Hk & Hs & ->). set (buf := peeked d buffered) in *.
  apply get_prefix_split in Hp as (g & e & t & Hfold & Hbuf & _ & Hl).
  apply parseBulk_sound in Hk as (bs & p & Hf & E & Hnext & Hle & Hsl & _); [|lia..].
  assert (p = key) as -> by congruence. pose proof (zlen_nonneg bs).
  destruct (frame_agrees d buf more x32 [[dollar; x33; cr; lf; g; e; t; cr; lf]; bs] [[g; e; t]; key] (i + n + 2))
    as (d2 & E2 & Hr & Hlim); try done; try lia.
  - change (from buf 0) with buf. rewrite Hbuf at 1. rewrite E. cbn [concat]. by rewrite app_nil_r, <- !app_assoc.
  - repeat constructor; [by apply token_frame|done].
  - by exists [g; e; t], d2.
Qed.

Lemma read_pair_sound d buf pos k v d1 :
  0 ≤ MaxBulkBytes (limits d) → 0 ≤ pos → read_pair d buf pos = Ret (Some (k, v), d1) →
  ∃ bs1 bs2 next, bulk_frame (MaxBulkBytes (limits d)) bs1 k ∧ bulk_frame (MaxBulkBytes (limits d)) bs2 v ∧
    from buf pos = bs1 ++ bs2 ++ from buf next ∧ pos ≤ next ≤ zlen buf ∧ d1 = Discard d next.
Proof.
  intros Hmax Hp. unfold read_pair.
  destruct (parseBulk buf _ pos) as [[[[s1 n1] p1]|]| |] eqn:E1; rewrite ?res_bind_ret; try done.
  apply parseBulk_sound in E1 as (bs1 & q1 & Hf1 & F1 & Hn1 & Hl1 & Hs1 & _); [|lia..]. pose proof (zlen_nonneg bs1).
  destruct (parseBulk buf _ p1) as [[[[s2 n2] p2]|]| |] eqn:E2; rewrite ?res_bind_ret; try done.
  apply parseBulk_sound in E2 as (bs2 & q2 & Hf2 & F2 & Hn2 & Hl2 & Hs2 & _); [|lia..]. pose proof (zlen_nonneg bs2).
  destruct (MaxRequestBytes (limits d) <? p2); [done|]. rewrite Hs1, Hs2. cbn [or_panic]. rewrite !res_bind_ret.
  intros [= -> -> <-]. exists bs1, bs2, p2. split_and!; try done; try lia. by rewrite F1, F2.
Qed.

Lemma SET_agrees d buffered k v d1 :
  decoder_ok d → buffered_ok d buffered → 3 ≤ MaxBulkBytes (limits d) →
  ReadBufferedSET d buffered = Ret (Some (k, v), d1) → agrees d SET [k; v] d1.
Proof.
  intros Hd Hb H3. pose proof (peeked_input d buffered Hd Hb) as (more & Hi & Hm).
  unfold ReadBufferedSET. destruct (_ <? 25); [done|]. cbv zeta. set (buf := peeked d buffered) in *.
  destruct (zlen buf <? 13); cbn [orb]; [done|]. destruct (frame_prefix buf set_prefix) eqn:Hp; cbn [negb]; [|done].
  destruct (Z.ltb_spec (MaxArguments (limits d)) 3); [done|]. intros H2.
  apply set_prefix_split in Hp as (s & e & t & Hfold & Hbuf & Hl).
  apply read_pair_sound in H2 as (bs1 & bs2 & next & Hf1 & Hf2 & E & Hn & ->); [|lia..].
  destruct (frame_agrees d buf more x33 [[dollar; x33; cr; lf; s; e; t; cr; lf]; bs1; bs2] [[s; e; t]; k; v] next)
    as (d2 & E2 & Hr & Hlim); try done; try lia.
  - change (from buf 0) with buf. rewrite Hbuf at 1. rewrite E. cbn [concat]. by rewrite app_nil_r, <- !app_assoc.
  - repeat constructor; [by apply token_frame|done|done].
  - by exists [s; e; t], d2.
Qed.

Lemma member_agrees word least d buffered k v d1 :
  decoder_ok d → buffered_ok d buffered →
  read_member word least d buffered = Ret (Some (k, v), d1) → agrees d word [k; v] d1.
Proof.
  intros Hd Hb. pose proof (peeked_input d buffered Hd Hb) as (more & Hi & Hm).
  pose proof Hd as [(_ & Hmb & _)%valid_limits_spec _].
  unfold read_member. destruct (_ <? least); [done|]. cbv zeta. set (buf := peeked d buffered) in *.
  destruct (zlen buf <? 14); cbn [orb]; [done|]. destruct (frame_prefix buf array3_prefix) eqn:Hp; cbn [negb]; [|done].
  apply array3_split in Hp as [Hbuf Hl].
  destruct (parseBulk buf _ 4) as [[[[s1 n1] p1]|]| |] eqn:E1; rewrite ?res_bind_ret; try done.
  apply parseBulk_sound in E1 as (bs1 & c & Hf1 & F1 & Hn1 & Hl1 & Hs1 & _); [|lia..]. pose proof (zlen_nonneg bs1).
  destruct (n1 =? zlen word); cbn [negb]; [|done]. rewrite Hs1. cbn [or_panic]. rewrite res_bind_ret.
  destruct (EqualFold c word) eqn:Hfold; cbn [negb]; [|done].
  destruct (Z.ltb_spec (MaxArguments (limits d)) 3); [done|]. intros H2.
  apply read_pair_sound in H2 as (bs2 & bs3 & next & Hf2 & Hf3 & E & Hn & ->); [|lia..].
  destruct (frame_agrees d buf more x33 [bs1; bs2; bs3] [c; k; v] next) as (d2 & E2 & Hr & Hlim); try done; try lia.
  - change (from buf 0) with buf. rewrite Hbuf at 1. rewrite F1, E. cbn [concat]. by rewrite app_nil_r, <- !app_assoc.
  - by repeat constructor.
  - by exists c, d2.
Qed.

Lemma native_args_sound max buf : 0 ≤ max → ∀ n pos args next,
  0 ≤ pos ≤ zlen buf → native_args n buf max pos = Ret (Some (args, next)) →
  ∃ bss, Forall2 (bulk_frame max) bss args ∧ length args = n ∧
    from buf pos = concat bss ++ from buf next ∧ pos ≤ next ≤ zlen buf.
Proof.
  intros Hmax. induction n as [|n IH]; intros pos args next Hp; cbn [native_args].
  { intros [= <- <-]. exists []. split_and!; [constructor|done|done|lia|lia]. }
  destruct (parseBulk buf max pos) as [[[[s1 n1] p1]|]| |] eqn:E1; rewrite ?res_bind_ret; try done.
  apply parseBulk_sound in E1 as (bs1 & a & Hf1 & F1 & Hn1 & Hl1 & Hs1 & _); [|lia..]. pose proof (zlen_nonneg bs1).
  rewrite Hs1. cbn [or_panic]. rewrite res_bind_ret.
  destruct (native_args n buf max p1) as [[[args' next']|]| |] eqn:E2; rewrite ?res_bind_ret; try done.
  intros [= <- ->]. apply IH in E2 as (bss & Hf & Hlen & E & Hn); [|lia].
  exists (bs1 :: bss). split_and!; [by constructor|cbn; lia| |lia|lia]. rewrite F1, E. cbn [concat]. by rewrite <- app_assoc.
Qed.

Lemma native_command_spec n c word argc :
  native_command n c = Some (word, argc) → EqualFold c word = true ∧ n = Z.of_nat (S argc).
Proof.
  unfold native_command.
  destruct (Z.eqb_spec n 4), (Z.eqb_spec n 3); cbn [andb]; try lia; try done;
    repeat match goal with |- (if EqualFold c ?w then _ else _) = _ → _ =>
      destruct (EqualFold c w) eqn:?; [intros [= <- <-]; split; [done|lia]|] end; done.
Qed.

Lemma native_agrees d buffered word args d1 :
  decoder_ok d → buffered_ok d buffered →
  ReadBufferedNativeMutation d buffered = Ret (Some (word, args), d1) → agrees d word args d1.
Proof.
  intros Hd Hb. pose proof (peeked_input d buffered Hd Hb) as (more & Hi & Hm).
  pose proof Hd as [(_ & Hmb & _)%valid_limits_spec _].
  unfold ReadBufferedNativeMutation. destruct (_ <? 24); [done|]. cbv zeta. set (buf := peeked d buffered) in *.
  destruct buf as [|b0 [|b1 [|b2 [|b3 tl]]]] eqn:Ebuf; try done. rewrite <- Ebuf in *.
  destruct (Z.ltb_spec (zlen buf) 13); cbn [orb]; [done|].
  destruct (bool_decide_reflect (b0 = star)) as [->|]; cbn [negb orb]; [|done].
  destruct (bool_decide_reflect (b2 = cr)) as [->|]; cbn [negb orb]; [|done].
  destruct (bool_decide_reflect (b3 = lf)) as [->|]; cbn [negb orb]; [|done].
  destruct (is_digit b1) eqn:Hdig; cbn [negb orb]; [|done]. destruct (negb _ && negb _); [done|].
  assert (Hu : u8 (bz b1 - 48) = bz b1 - 48) by (apply is_digit_range in Hdig; apply Z.mod_small; lia). rewrite Hu.
  destruct (parseBulk buf _ 4) as [[[[s1 n1] p1]|]| |] eqn:E1; rewrite ?res_bind_ret; try done.
  apply parseBulk_sound in E1 as (bs1 & c & Hf1 & F1 & Hn1 & Hl1 & Hs1 & _); [|lia..]. pose proof (zlen_nonneg bs1).
  rewrite Hs1. cbn [or_panic]. rewrite res_bind_ret.
  destruct (native_command _ c) as [[w argc]|] eqn:Ec; [|done]. apply native_command_spec in Ec as [Hfold Hargc].
  destruct (Z.ltb_spec (MaxArguments (limits d)) (bz b1 - 48)); [done|].
  destruct (native_args argc buf _ p1) as [[[as' next]|]| |] eqn:E2; rewrite ?res_bind_ret; try done.
  apply native_args_sound in E2 as (bss & Hf & Hlen & E & Hn); [|lia..].
  destruct (_ <? next); [done|]. intros [= -> -> <-].
  destruct (frame_agrees d buf more b1 (bs1 :: bss) (c :: args) next) as (d2 & E2 & Hr & Hlim); try done;
    rewrite ?zlen_cons; try (unfold zlen in *; lia).
  - change (from buf 0) with buf. assert (F4 : from buf 4 = tl) by (by rewrite Ebuf).
    rewrite Ebuf at 1. rewrite <- F4, F1, E. cbn [concat header app]. by rewrite <- !app_assoc.
  - by constructor.
  - by exists c, d2.
Qed.

(** ** A fast path never fails, and consumes nothing when it declines *)

Definition clean {A} (d : Decoder) (m : res (option A * Decoder)) : Prop :=
  ∃ r d1, m = Ret (r, d1) ∧ (r = None → d1 = d).

Lemma clean_none {A} d : clean (A:=A) d (Ret (None, d)).
Proof. by exists None, d. Qed.

Lemma clean_some {A} d (a : A) d1 : clean d (Ret (Some a, d1)).
Proof. by exists (Some a), d1. Qed.

#[local] Hint Resolve clean_none clean_some : core.

Lemma read_pair_clean d buf pos : 0 ≤ MaxBulkBytes (limits d) → 0 ≤ pos → clean d (read_pair d buf pos).
Proof.
  intros Hmax Hp. unfold read_pair. destruct (parseBulk_total buf (MaxBulkBytes (limits d)) pos) as [[[[s1 n1] p1]|] E1];
    [lia..| |]; rewrite E1, res_bind_ret; [|done].
  apply parseBulk_sound in E1 as (bs1 & q1 & _ & _ & Hn1 & _ & Hs1 & _); [|lia..]. pose proof (zlen_nonneg bs1).
  destruct (parseBulk_total buf (MaxBulkBytes (limits d)) p1) as [[[[s2 n2] p2]|] E2]; [lia..| |];
    rewrite E2, res_bind_ret; [|done].
  apply parseBulk_sound in E2 as (bs2 & q2 & _ & _ & _ & _ & Hs2 & _); [|lia..].
  destruct (_ <? p2); [done|]. rewrite Hs1, Hs2. cbn [or_panic]. by rewrite !res_bind_ret.
Qed.

Lemma native_args_total max buf : 0 ≤ max → ∀ n pos, 0 ≤ pos → ∃ r, native_args n buf max pos = Ret r.
Proof.
  intros Hmax. induction n as [|n IH]; intros pos Hp; cbn [native_args]; [eauto|].
  destruct (parseBulk_total buf max pos) as [[[[s1 n1] p1]|] E1]; [lia..| |]; rewrite E1, res_bind_ret; [|eauto].
  apply parseBulk_sound in E1 as (bs1 & q1 & _ & _ & Hn1 & _ & Hs1 & _); [|lia..]. pose proof (zlen_nonneg bs1).
  rewrite Hs1. cbn [or_panic]. rewrite res_bind_ret. destruct (IH p1) as [r ->]; [lia|]. rewrite res_bind_ret. eauto.
Qed.

Lemma member_clean word least d buffered : 0 ≤ MaxBulkBytes (limits d) → clean d (read_member word least d buffered).
Proof.
  intros Hmax. unfold read_member. destruct (_ <? least); [done|]. cbv zeta. destruct (_ || _); [done|].
  destruct (parseBulk_total (peeked d buffered) (MaxBulkBytes (limits d)) 4) as [[[[s1 n1] p1]|] E1]; [lia..| |];
    rewrite E1, res_bind_ret; [|done].
  apply parseBulk_sound in E1 as (bs1 & q1 & _ & _ & Hn1 & _ & Hs1 & _); [|lia..]. pose proof (zlen_nonneg bs1).
  destruct (negb _); [done|]. rewrite Hs1. cbn [or_panic]. rewrite res_bind_ret. destruct (negb _); [done|].
  destruct (_ <? 3); [done|]. apply read_pair_clean; lia.
Qed.

Lemma SET_clean d buffered : 0 ≤ MaxBulkBytes (limits d) → clean d (ReadBufferedSET d buffered).
Proof.
  intros Hmax. unfold ReadBufferedSET. destruct (_ <? 25); [done|]. cbv zeta. destruct (_ || _); [done|].
  destruct (_ <? 3); [done|]. apply read_pair_clean; lia.
Qed.

Lemma native_clean d buffered : 0 ≤ MaxBulkBytes (limits d) → clean d (ReadBufferedNativeMutation d buffered).
Proof.
  intros Hmax. unfold ReadBufferedNativeMutation. destruct (_ <? 24); [done|]. cbv zeta.
  set (buf := peeked d buffered). destruct buf as [|b0 [|b1 [|b2 [|b3 tl]]]] eqn:Ebuf; try done. rewrite <- Ebuf.
  destruct (_ || _); [done|]. destruct (_ || _); [done|].
  destruct (parseBulk_total buf (MaxBulkBytes (limits d)) 4) as [[[[s1 n1] p1]|] E1]; [lia..| |];
    rewrite E1, res_bind_ret; [|done].
  apply parseBulk_sound in E1 as (bs1 & q1 & _ & _ & Hn1 & _ & Hs1 & _); [|lia..]. pose proof (zlen_nonneg bs1).
  rewrite Hs1. cbn [or_panic]. rewrite res_bind_ret. destruct (native_command _ _) as [[w argc]|]; [|done].
  destruct (_ <? u8 _); [done|].
  destruct (native_args_total (MaxBulkBytes (limits d)) buf Hmax argc p1) as [[[args next]|] E2]; [lia| |];
    rewrite E2, res_bind_ret; [|done].
  by destruct (_ <? next).
Qed.

Lemma GET_clean d buffered : 0 ≤ MaxBulkBytes (limits d) → clean d (ReadBufferedGET d buffered).
Proof.
  intros Hmax. unfold ReadBufferedGET. destruct (_ <? 19); [done|]. cbv zeta. set (buf := peeked d buffered).
  destruct (_ || _); [done|].
  destruct (header_loop_total buf (MaxBulkBytes (limits d)) (length buf) 14 0 0) as [r Er]; [lia|]. rewrite Er, res_bind_ret.
  apply header_loop_sound in Er; [|unfold zlen; lia..]. destruct r as [[[pos n] digits]|]; [|done].
  destruct (digits =? 0); cbn [orb]; [done|]. destruct (zlen buf <? pos); [done|].
  destruct (Z.ltb_spec (zlen buf) (pos + n + 2)); cbn [orb]; [done|]. destruct (MaxRequestBytes (limits d) <? pos + n + 2); [done|].
  assert (Hr : 0 ≤ pos ∧ 0 ≤ n).
  { destruct Er as [ds rest _ Hds -> -> _ _ _ _ _|]; [|lia]. pose proof (zlen_nonneg ds). split; [lia|].
    apply digits_val_mono; [lia|done]. }
  destruct (znth_is_Some buf (pos + n)) as [c0 ->]; [lia|]. cbn [or_panic]. rewrite res_bind_ret. destruct (negb _); [done|].
  destruct (znth_is_Some buf (pos + n + 1)) as [c1 ->]; [lia|]. cbn [or_panic]. rewrite res_bind_ret.
  destruct (negb _); [done|]. destruct (_ <? 2); [done|].
  rewrite zslice_Some by lia. cbn [or_panic]. by rewrite res_bind_ret.
Qed.
