(* ===== verification/RespSpec.v ===== *)
(** * Properties of the command protocol

    The request encoder of the loopback clients (internal/webhook/client.go and
    internal/agent/kv.go) against the decoder of internal/resp: what a client
    writes is what the server reads, request by request; the fast paths answer
    canonical frames and agree with [ReadCommand]; the exact language of the
    decoder and of [Parse]; truncated and malformed input. *)
From S2P Require Import Prelude Numerals KeyPackFacts Resp RespFacts RespFast.
Set Default Proof Using "Type".

(** ** The clients' request encoder *)

(** [strconv.AppendInt(buf, n, 10)] for a length. *)
Definition AppendInt (buf : list byte) (n : Z) : list byte := buf ++ decimal 20 n.

(** The request buffer [kvConn.do] builds. *)
Fixpoint append_args (buf : list byte) (args : list (list byte)) : list byte :=
  match args with
  | [] => buf
  | a :: args =>
      let buf := buf ++ [dollar] in
      let buf := AppendInt buf (zlen a) in
      let buf := buf ++ [cr; lf] in
      let buf := buf ++ a in
      let buf := buf ++ [cr; lf] in
      append_args buf args
  end.

Definition encode_request (args : list (list byte)) : list byte :=
  let buf := [star] in
  let buf := AppendInt buf (zlen args) in
  let buf := buf ++ [cr; lf] in
  append_args buf args.

(** ** Decimal lengths *)

Lemma digit_byte n : 0 ≤ n < 10 → is_digit (zb (48 + n)) = true ∧ bz (zb (48 + n)) - 48 = n.
Proof. intros Hn. rewrite is_digit_range, bz_zb by lia. lia. Qed.

Lemma digits_val_snoc ds b n : digits_val n (ds ++ [b]) = digits_val n ds * 10 + (bz b - 48).
Proof. unfold digits_val. by rewrite foldl_app. Qed.

Lemma decimal_ok fuel : ∀ n, 0 ≤ n < 10 ^ Z.of_nat fuel → (0 < fuel)%nat →
  Forall (fun b => is_digit b = true) (decimal fuel n) ∧ digits_val 0 (decimal fuel n) = n ∧ 1 ≤ zlen (decimal fuel n) ≤ Z.of_nat fuel.
Proof.
  induction fuel as [|f IH]; intros n Hn Hf; [lia|]. cbn [decimal]. destruct (Z.ltb_spec n 10) as [Hs|Hs].
  - destruct (digit_byte n) as [Hd Hv]; [lia|]. split_and!; [by repeat constructor|cbn [digits_val foldl]|..];
      change (zlen [zb (48 + n)]) with 1; lia.
  - rewrite Nat2Z.inj_succ, Z.pow_succ_r in Hn by lia.
    assert (Hq : 1 ≤ n / 10 < 10 ^ Z.of_nat f) by (split; [apply Z.div_le_lower_bound|apply Z.div_lt_upper_bound]; lia).
    destruct f as [|f']; [cbn in Hq; lia|]. destruct (IH (n / 10)) as (Hd & Hv & Hl); [lia..|].
    pose proof (Z.mod_pos_bound n 10 ltac:(lia)). destruct (digit_byte (n mod 10)) as [Hd' Hv']; [lia|].
    split_and!; [apply Forall_app; split; [done|by repeat constructor]|rewrite digits_val_snoc, Hv, Hv'; dlia|rewrite zlen_snoc; lia..].
Qed.

Lemma decimal_digits n : 0 ≤ n < 10 ^ 20 → digits_ok (decimal 20 n) ∧ digits_val 0 (decimal 20 n) = n.
Proof. intros Hn. destruct (decimal_ok 20 n) as (H1 & H2 & H3); [lia..|]. repeat split; try done; lia. Qed.

Definition encode_bulk (a : list byte) : list byte := header dollar (decimal 20 (zlen a)) ++ a ++ [cr; lf].

Lemma append_args_spec args : ∀ buf, append_args buf args = buf ++ concat (map encode_bulk args).
Proof.
  induction args as [|a args IH]; intros buf; cbn [append_args map concat]; [by rewrite app_nil_r|].
  rewrite IH. unfold encode_bulk, header, AppendInt. rewrite <- !app_assoc. cbn [app].
  by rewrite <- !app_assoc.
Qed.

Lemma encode_request_spec args :
  encode_request args = header star (decimal 20 (zlen args)) ++ concat (map encode_bulk args).
Proof. unfold encode_request, AppendInt. cbv zeta. rewrite append_args_spec. unfold header. cbn [app]. by rewrite <- !app_assoc. Qed.

(** A request the limits admit. *)
Definition request_ok (l : Limits) (args : list (list byte)) : Prop :=
  1 ≤ zlen args ≤ MaxArguments l ∧ Forall (fun a => zlen a ≤ MaxBulkBytes l) args ∧
  zlen (encode_request args) ≤ MaxRequestBytes l ∧ MaxRequestBytes l < 10 ^ 20.

Lemma encode_bulk_frame max a : zlen a ≤ max → zlen a < 10 ^ 20 → bulk_frame max (encode_bulk a) a.
Proof.
  intros Hm Hl. pose proof (zlen_nonneg a). destruct (decimal_digits (zlen a)) as [Hd Hv]; [lia|].
  by exists (decimal 20 (zlen a)).
Qed.

Lemma encode_bulk_frames max args :
  Forall (fun a => zlen a ≤ max ∧ zlen a < 10 ^ 20) args → Forall2 (bulk_frame max) (map encode_bulk args) args.
Proof. induction 1 as [|a args [? ?] _ IH]; constructor; [by apply encode_bulk_frame|done]. Qed.

Lemma decimal_pos f n : 1 ≤ zlen (decimal (S f) n).
Proof. cbn [decimal]. destruct (n <? 10); [done|]. rewrite zlen_snoc. pose proof (zlen_nonneg (decimal f (n / 10))). lia. Qed.

Lemma zlen_encode_bulk a : zlen a + 6 ≤ zlen (encode_bulk a).
Proof.
  unfold encode_bulk. rewrite !zlen_app, zlen_header. pose proof (decimal_pos 19 (zlen a)).
  change (zlen [cr; lf]) with 2. lia.
Qed.

Lemma encode_bulks_len args : Forall (fun a => zlen a ≤ zlen (concat (map encode_bulk args))) args ∧
  zlen args ≤ zlen (concat (map encode_bulk args)).
Proof.
  induction args as [|a args [IH1 IH2]]; cbn [map concat]; [split; [constructor|done]|].
  pose proof (zlen_encode_bulk a). pose proof (zlen_nonneg (concat (map encode_bulk args))). pose proof (zlen_nonneg a).
  rewrite zlen_app, zlen_cons. split; [|lia]. constructor; [lia|].
  eapply Forall_impl; [exact IH1|]. cbv beta. intros. lia.
Qed.

(** Each argument costs its bytes and at least six more. *)
Lemma encode_request_len args : 4 + foldr (fun (a : list byte) n => zlen a + 6 + n) 0 args ≤ zlen (encode_request args).
Proof.
  rewrite encode_request_spec, zlen_app, zlen_header. pose proof (decimal_pos 19 (zlen args)).
  assert (foldr (fun (a : list byte) n => zlen a + 6 + n) 0 args ≤ zlen (concat (map encode_bulk args))); [|lia].
  clear. induction args as [|a args IH]; cbn [foldr map concat]; [done|]. rewrite zlen_app. pose proof (zlen_encode_bulk a). lia.
Qed.

Lemma args_len_six args : 6 * zlen args ≤ foldr (fun (a : list byte) n => zlen a + 6 + n) 0 args.
Proof. induction args as [|a args IH]; [done|]. rewrite zlen_cons. cbn [foldr]. pose proof (zlen_nonneg a). lia. Qed.

Lemma encode_frame l args : request_ok l args → command_frame l (encode_request args) args.
Proof.
  intros (Hn & Hm & Hlen & Hmax). rewrite encode_request_spec in *. rewrite zlen_app, zlen_header in Hlen.
  destruct (encode_bulks_len args) as [Hb Hc]. pose proof (zlen_nonneg (decimal 20 (zlen args))).
  destruct (decimal_digits (zlen args)) as [Hd Hv]; [lia|].
  exists (decimal 20 (zlen args)), (map encode_bulk args). split_and!; try done; try lia.
  - apply encode_bulk_frames, Forall_and. split; [done|]. eapply Forall_impl; [exact Hb|]. cbv beta. intros. lia.
  - rewrite zlen_app, zlen_header. lia.
Qed.

Lemma encode_split l args :
  request_ok l args → zlen args < 10 →
  encode_request args = header star [zb (48 + zlen args)] ++ concat (map encode_bulk args).
Proof.
  intros (Hn & _) H10. rewrite encode_request_spec. cbn [decimal]. by destruct (Z.ltb_spec (zlen args) 10); [|lia].
Qed.

(** ** The fast paths take the clients' frames *)

Lemma peeked_frame d buffered frame rest :
  input (reader d) = frame ++ rest → zlen frame ≤ buffered → zlen frame ≤ MaxRequestBytes (limits d) →
  ∃ rest', peeked d buffered = frame ++ rest'.
Proof.
  intros Hi Hb Hm. unfold peeked. rewrite Hi. destruct (MaxRequestBytes (limits d) <? buffered); eexists;
    apply take_app_ge; unfold zlen in *; lia.
Qed.

Lemma from_header buf marker b1 rest : buf = header marker [b1] ++ rest → from buf 4 = rest.
Proof. by intros ->. Qed.

(** Consecutive bulks in the buffer. *)
Lemma parse_next l buf pos a rest :
  Forall (fun a => zlen a ≤ MaxBulkBytes l) [a] → valid_limits l → zlen a < 10 ^ 20 → 0 ≤ pos →
  from buf pos = encode_bulk a ++ rest →
  ∃ start, parseBulk buf (MaxBulkBytes l) pos = Ret (Some (start, zlen a, pos + zlen (encode_bulk a))) ∧
    zslice buf start (start + zlen a) = Some a ∧ from buf (pos + zlen (encode_bulk a)) = rest.
Proof.
  intros Ha (_ & Hm & _)%valid_limits_spec Hl Hp E. inversion Ha; subst.
  apply parseBulk_complete; [lia|done|by apply encode_bulk_frame|done].
Qed.

Lemma read_pair_complete d buf pos k v rest :
  valid_limits (limits d) → Forall (fun a => zlen a ≤ MaxBulkBytes (limits d) ∧ zlen a < 10 ^ 20) [k; v] → 0 ≤ pos →
  from buf pos = encode_bulk k ++ encode_bulk v ++ rest →
  pos + zlen (encode_bulk k ++ encode_bulk v) ≤ MaxRequestBytes (limits d) →
  read_pair d buf pos = Ret (Some (k, v), Discard d (pos + zlen (encode_bulk k ++ encode_bulk v))).
Proof.
  intros Hv Hf Hp E Hm. inversion Hf as [|? ? [Hk Hk'] Hf']; subst. inversion Hf' as [|? ? [Hw Hw'] _]; subst.
  unfold read_pair. rewrite zlen_app in *. pose proof (zlen_encode_bulk k). pose proof (zlen_nonneg k).
  destruct (parse_next (limits d) buf pos k (encode_bulk v ++ rest)) as (s1 & -> & Hs1 & E1); [by constructor|done..|].
  rewrite res_bind_ret.
  destruct (parse_next (limits d) buf (pos + zlen (encode_bulk k)) v rest) as (s2 & -> & Hs2 & E2);
    [by constructor|done|done|lia|done|].
  rewrite res_bind_ret. destruct (Z.ltb_spec (MaxRequestBytes (limits d)) (pos + zlen (encode_bulk k) + zlen (encode_bulk v))); [lia|].
  rewrite Hs1, Hs2. cbn [or_panic]. rewrite !res_bind_ret. by rewrite Z.add_assoc.
Qed.

(** The arguments of an admitted request fit their bounds. *)
Lemma request_args l args : request_ok l args → Forall (fun a => zlen a ≤ MaxBulkBytes l ∧ zlen a < 10 ^ 20) args.
Proof.
  intros (_ & Hm & Hlen & Hmax). apply Forall_and. split; [done|]. destruct (encode_bulks_len args) as [Hb _].
  rewrite encode_request_spec, zlen_app, zlen_header in Hlen. pose proof (zlen_nonneg (decimal 20 (zlen args))).
  eapply Forall_impl; [exact Hb|]. cbv beta. intros. lia.
Qed.

Lemma native_args_complete l buf : valid_limits l → ∀ args pos rest,
  Forall (fun a => zlen a ≤ MaxBulkBytes l ∧ zlen a < 10 ^ 20) args → 0 ≤ pos →
  from buf pos = concat (map encode_bulk args) ++ rest →
  native_args (length args) buf (MaxBulkBytes l) pos = Ret (Some (args, pos + zlen (concat (map encode_bulk args)))).
Proof.
  intros Hv. induction args as [|a args IH]; intros pos rest Hf Hp E; cbn [native_args length map concat].
  { change (zlen []) with 0. by rewrite Z.add_0_r. }
  inversion Hf as [|? ? [Ha Ha'] Hf']; subst. cbn [map concat] in E. rewrite <- app_assoc in E.
  destruct (parse_next l buf pos a (concat (map encode_bulk args) ++ rest)) as (s1 & -> & Hs1 & E1); [by constructor|done..|].
  rewrite res_bind_ret, Hs1. cbn [or_panic]. rewrite res_bind_ret. pose proof (zlen_nonneg (encode_bulk a)).
  rewrite (IH (pos + zlen (encode_bulk a)) rest), res_bind_ret by (done || lia). by rewrite zlen_app, Z.add_assoc.
Qed.

Lemma member_complete word least d buffered c k v rest :
  decoder_ok d → request_ok (limits d) [c; k; v] → EqualFold c word = true → zlen c = zlen word →
  input (reader d) = encode_request [c; k; v] ++ rest → zlen (encode_request [c; k; v]) ≤ buffered →
  least ≤ zlen (encode_request [c; k; v]) → 14 ≤ zlen (encode_request [c; k; v]) →
  read_member word least d buffered = Ret (Some (k, v), Discard d (zlen (encode_request [c; k; v]))).
Proof.
  intros [Hv _] Hr Hfold Hc Hi Hb Hl H14. pose proof Hr as (Hn & _ & Hm & _). pose proof (request_args _ _ Hr) as Hf.
  destruct (peeked_frame d buffered _ _ Hi Hb Hm) as [rest' Hp]. unfold read_member.
  destruct (Z.ltb_spec buffered least); [lia|]. cbv zeta. rewrite Hp. set (buf := encode_request _ ++ rest').
  assert (Hbuf : buf = header star [x33] ++ concat (map encode_bulk [c; k; v]) ++ rest').
  { unfold buf. rewrite (encode_split (limits d)) by done. by rewrite <- app_assoc. }
  destruct (Z.ltb_spec (zlen buf) 14); [unfold buf in *; rewrite zlen_app in *; pose proof (zlen_nonneg rest'); lia|]. cbn [orb].
  assert (frame_prefix buf array3_prefix = true) as -> by (by rewrite Hbuf). cbn [negb].
  pose proof (from_header _ _ _ _ Hbuf) as E. cbn [map concat] in E. rewrite <- !app_assoc, app_nil_l in E.
  inversion Hf as [|? ? [Hc1 Hc2] Hf']; subst.
  destruct (parse_next (limits d) buf 4 c _ ltac:(by constructor) Hv Hc2 ltac:(lia) E) as (s1 & -> & Hs1 & E1).
  rewrite res_bind_ret, Hc, Z.eqb_refl. cbn [negb]. rewrite <- Hc, Hs1. cbn [or_panic]. rewrite res_bind_ret, Hfold.
  cbn [negb]. change (zlen [c; k; v]) with 3 in Hn. destruct (Z.ltb_spec (MaxArguments (limits d)) 3); [lia|].
  assert (Hz : zlen (encode_request [c; k; v]) = 4 + zlen (encode_bulk c) + zlen (encode_bulk k ++ encode_bulk v)).
  { rewrite (encode_split (limits d)) by done. cbn [map concat]. rewrite !zlen_app, zlen_header. change (zlen []) with 0.
    change (zlen [zb (48 + zlen [c; k; v])]) with 1. lia. }
  pose proof (zlen_nonneg (encode_bulk c)). rewrite (read_pair_complete d buf _ k v rest'); [|done|done|lia|done|lia].
  by rewrite <- Hz.
Qed.

Lemma fold_letter b c : bool_decide (b = c) || (bz b =? bz c + 32) = true → bz c < 224 → b = c ∨ b = zb (bz c + 32).
Proof.
  intros H Hc. apply orb_true_iff in H as [H|H]; [left; by apply bool_decide_eq_true in H|right].
  apply Z.eqb_eq in H. by rewrite <- H, zb_bz.
Qed.

(** A three-letter spelling of a word without S or K folds letter by letter. *)
Lemma fold_plain b s c w :
  EqualFold (b :: s) (c :: w) = true → c ≠ x53 → c ≠ x4b → bz c < 224 → (b = c ∨ b = zb (bz c + 32)) ∧ EqualFold s w = true.
Proof.
  intros H Hs Hk Hc. cbn [EqualFold] in H. destruct (_ || _) eqn:E; [by split; [apply fold_letter|]|].
  by rewrite !bool_decide_false in H by done.
Qed.

Lemma fold_S b s w :
  EqualFold (b :: s) (x53 :: w) = true →
  (b = x53 ∨ b = x73) ∧ EqualFold s w = true ∨ ∃ s', b :: s = xc5 :: xbf :: s' ∧ EqualFold s' w = true.
Proof.
  cbn [EqualFold]. destruct (_ || _) eqn:E; intros H; [left; split; [by apply (fold_letter b x53)|done]|right].
  rewrite bool_decide_true in H by done. destruct b; try done. destruct s as [|c s]; [done|]. destruct c; try done. by exists s.
Qed.

Lemma fold_GET c : EqualFold c GET = true → zlen c = 3 →
  ∃ g e t, c = [g; e; t] ∧ (g = x47 ∨ g = x67) ∧ (e = x45 ∨ e = x65) ∧ (t = x54 ∨ t = x74).
Proof.
  intros H Hl. destruct c as [|g [|e [|t [|? c]]]]; try done; [|rewrite !zlen_cons in Hl; pose proof (zlen_nonneg c); lia].
  apply fold_plain in H as [Hg H]; [|done..]. apply fold_plain in H as [He H]; [|done..].
  apply fold_plain in H as [Ht _]; [|done..]. by exists g, e, t.
Qed.

Lemma fold_SET c : EqualFold c SET = true → zlen c = 3 →
  ∃ s e t, c = [s; e; t] ∧ (s = x53 ∨ s = x73) ∧ (e = x45 ∨ e = x65) ∧ (t = x54 ∨ t = x74).
Proof.
  intros H Hl. destruct c as [|s [|e [|t [|? c]]]]; try done; [|rewrite !zlen_cons in Hl; pose proof (zlen_nonneg c); lia].
  apply fold_S in H as [[Hs H]|(s' & E & H)].
  - apply fold_plain in H as [He H]; [|done..]. apply fold_plain in H as [Ht _]; [|done..]. by exists s, e, t.
  - injection E as -> -> <-. apply fold_plain in H as [_ H]; [|done..]. done.
Qed.

(** The thirteen bytes before the first argument of a GET or SET frame. *)
Lemma token_split l n c args :
  request_ok l (c :: args) → zlen (c :: args) = n → n < 10 → zlen c = 3 →
  encode_request (c :: args) =
    (header star [zb (48 + n)] ++ [dollar; x33; cr; lf] ++ c ++ [cr; lf]) ++ concat (map encode_bulk args).
Proof.
  intros Hr Hn H10 Hc. rewrite (encode_split l), Hn by (done || lia). cbn [map concat]. unfold encode_bulk at 1. rewrite Hc.
  rewrite <- !app_assoc. f_equal.
Qed.

Lemma SET_complete d buffered c k v rest :
  decoder_ok d → request_ok (limits d) [c; k; v] → EqualFold c SET = true → zlen c = 3 →
  input (reader d) = encode_request [c; k; v] ++ rest → zlen (encode_request [c; k; v]) ≤ buffered →
  ReadBufferedSET d buffered = Ret (Some (k, v), Discard d (zlen (encode_request [c; k; v]))).
Proof.
  intros [Hv _] Hr Hfold Hc Hi Hb. pose proof Hr as (Hn & _ & Hm & _). pose proof (request_args _ _ Hr) as Hf.
  destruct (fold_SET c Hfold Hc) as (s & e & t & -> & Hs & He & Ht).
  destruct (peeked_frame d buffered _ _ Hi Hb Hm) as [rest' Hp].
  pose proof (token_split _ 3 _ _ Hr eq_refl ltac:(lia) Hc) as Hsplit. change (zb (48 + 3)) with x33 in Hsplit.
  cbn [map concat] in Hsplit. rewrite app_nil_r in Hsplit.
  pose proof (zlen_encode_bulk k). pose proof (zlen_encode_bulk v). pose proof (zlen_nonneg k). pose proof (zlen_nonneg v).
  assert (Hz : zlen (encode_request [[s; e; t]; k; v]) = 13 + zlen (encode_bulk k ++ encode_bulk v)) by (by rewrite Hsplit, zlen_app).
  pose proof Hz as Hz'. rewrite zlen_app in Hz'. unfold ReadBufferedSET. destruct (Z.ltb_spec buffered 25); [lia|]. cbv zeta.
  rewrite Hp. set (buf := encode_request _ ++ rest').
  assert (Hbuf : buf = (header star [x33] ++ [dollar; x33; cr; lf] ++ [s; e; t] ++ [cr; lf]) ++ encode_bulk k ++ encode_bulk v ++ rest')
    by (unfold buf; by rewrite Hsplit, <- !app_assoc).
  assert (Hzb : zlen buf = _) by apply zlen_app. pose proof (zlen_nonneg rest').
  destruct (Z.ltb_spec (zlen buf) 13); [lia|]. cbn [orb].
  assert (frame_prefix buf set_prefix = true) as ->.
  { rewrite Hbuf. clear -Hs He Ht. by destruct Hs, He, Ht; subst. }
  cbn [negb]. change (zlen [[s; e; t]; k; v]) with 3 in Hn. destruct (Z.ltb_spec (MaxArguments (limits d)) 3); [lia|].
  inversion Hf; subst. rewrite (read_pair_complete d buf 13 k v rest'); [|done|done|lia|by rewrite Hbuf|lia]. by rewrite <- Hz.
Qed.

(** [ReadBufferedGET] reads its key as [parseBulk] would. *)
Lemma GET_from_parseBulk d buffered i n next key :
  let buf := peeked d buffered in
  19 ≤ buffered → 17 ≤ zlen buf → frame_prefix buf get_prefix = true → 2 ≤ MaxArguments (limits d) →
  0 ≤ n → parseBulk buf (MaxBulkBytes (limits d)) 13 = Ret (Some (i, n, next)) →
  next ≤ MaxRequestBytes (limits d) → zslice buf i (i + n) = Some key →
  ReadBufferedGET d buffered = Ret (Some key, Discard d next).
Proof.
  intros buf Hb H17 Hp Ha Hn0 Hpb Hm Hs. unfold ReadBufferedGET. destruct (Z.ltb_spec buffered 19); [lia|]. fold buf. cbv zeta.
  destruct (Z.ltb_spec (zlen buf) 17); [lia|]. rewrite Hp. cbn [orb negb].
  unfold parseBulk in Hpb. destruct (Z.leb_spec (zlen buf) 13); [lia|].
  destruct (znth buf 13) as [b|]; cbn [or_panic] in Hpb; rewrite ?res_bind_ret in Hpb; [|done].
  destruct (negb (bool_decide (b = dollar))); [done|]. change (13 + 1) with 14 in Hpb.
  destruct (header_loop _ _ _ 14 0 0) as [[[[i' n'] digits]|]| |] eqn:Eh; rewrite ?res_bind_ret in Hpb; try done.
  rewrite res_bind_ret. destruct (digits =? 0) eqn:Ed; cbn [orb] in *; [done|].
  destruct (Z.ltb_spec (zlen buf) (i' + n' + 2)) as [|Hl]; [done|].
  destruct (znth buf (i' + n')) as [c0|] eqn:E0; cbn [or_panic] in *; rewrite ?res_bind_ret in *; [|done].
  destruct (bool_decide (c0 = cr)) eqn:Ec0; cbn [negb] in *; [|done].
  destruct (znth buf (i' + n' + 1)) as [c1|] eqn:E1; cbn [or_panic] in *; rewrite ?res_bind_ret in *; [|done].
  destruct (bool_decide (c1 = lf)) eqn:Ec1; cbn [negb] in *; [|done]. injection Hpb as -> -> <-.
  destruct (Z.ltb_spec (zlen buf) i); [lia|]. destruct (Z.ltb_spec (zlen buf) (i + n + 2)); [lia|].
  destruct (Z.ltb_spec (MaxRequestBytes (limits d)) (i + n + 2)); [lia|]. cbn [orb].
  destruct (Z.ltb_spec (MaxArguments (limits d)) 2); [lia|]. rewrite Hs. cbn [or_panic]. by rewrite res_bind_ret.
Qed.

Lemma GET_complete d buffered c k rest :
  decoder_ok d → request_ok (limits d) [c; k] → EqualFold c GET = true → zlen c = 3 →
  input (reader d) = encode_request [c; k] ++ rest → zlen (encode_request [c; k]) ≤ buffered →
  ReadBufferedGET d buffered = Ret (Some k, Discard d (zlen (encode_request [c; k]))).
Proof.
  intros [Hv _] Hr Hfold Hc Hi Hb. pose proof Hr as (Hn & _ & Hm & _). pose proof (request_args _ _ Hr) as Hf.
  destruct (fold_GET c Hfold Hc) as (g & e & t & -> & Hg & He & Ht).
  destruct (peeked_frame d buffered _ _ Hi Hb Hm) as [rest' Hp].
  pose proof (token_split _ 2 _ _ Hr eq_refl ltac:(lia) Hc) as Hsplit. change (zb (48 + 2)) with x32 in Hsplit.
  cbn [map concat] in Hsplit. rewrite app_nil_r in Hsplit. pose proof (zlen_encode_bulk k). pose proof (zlen_nonneg k).
  assert (Hz : zlen (encode_request [[g; e; t]; k]) = 13 + zlen (encode_bulk k)) by (by rewrite Hsplit, zlen_app).
  assert (Hbuf : peeked d buffered =
    (header star [x32] ++ [dollar; x33; cr; lf] ++ [g; e; t] ++ [cr; lf]) ++ encode_bulk k ++ rest')
    by (rewrite Hp, Hsplit; by rewrite <- !app_assoc).
  assert (Hzb : zlen (peeked d buffered) = _) by (rewrite Hp; apply zlen_app). pose proof (zlen_nonneg rest').
  inversion Hf as [|? ? _ Hf']; subst. inversion Hf' as [|? ? [Hk Hk'] _]; subst. change (zlen [[g; e; t]; k]) with 2 in Hn.
  destruct (parse_next (limits d) (peeked d buffered) 13 k rest') as (i & Hpb & Hs & _);
    [by constructor|done|done|lia|by rewrite Hbuf|].
  rewrite Hz. apply (GET_from_parseBulk d buffered i (zlen k) (13 + zlen (encode_bulk k))); try done; try lia.
  rewrite Hbuf. clear -Hg He Ht. by destruct Hg, He, Ht; subst.
Qed.

Lemma native_complete d buffered c args w rest :
  decoder_ok d → request_ok (limits d) (c :: args) →
  native_command (zlen (c :: args)) c = Some (w, length args) →
  input (reader d) = encode_request (c :: args) ++ rest → zlen (encode_request (c :: args)) ≤ buffered →
  24 ≤ zlen (encode_request (c :: args)) →
  ReadBufferedNativeMutation d buffered = Ret (Some (w, args), Discard d (zlen (encode_request (c :: args)))).
Proof.
  intros [Hv _] Hr Hc Hi Hb H24. pose proof Hr as (Hn & _ & Hm & _). pose proof (request_args _ _ Hr) as Hf.
  pose proof (native_command_spec _ _ _ _ Hc) as [_ Hargc].
  assert (Hna : zlen (c :: args) = 3 ∨ zlen (c :: args) = 4).
  { unfold native_command in Hc. destruct (Z.eqb_spec (zlen (c :: args)) 4), (Z.eqb_spec (zlen (c :: args)) 3); try done; lia. }
  destruct (peeked_frame d buffered _ _ Hi Hb Hm) as [rest' Hp]. unfold ReadBufferedNativeMutation.
  destruct (Z.ltb_spec buffered 24); [lia|]. cbv zeta.
  assert (Hzb : zlen (peeked d buffered) = _) by (rewrite Hp; apply zlen_app). pose proof (zlen_nonneg rest').
  pose proof (encode_split _ _ Hr ltac:(lia)) as Hsplit. rewrite Hsplit, <- app_assoc in Hp. set (n := zlen (c :: args)) in *.
  pose proof (from_header _ _ _ _ Hp) as E. cbn [map concat] in E. rewrite <- app_assoc in E. unfold header in Hp. cbn [app] in Hp.
  destruct (digit_byte n) as [Hd1 Hd2]; [lia|]. set (buf := peeked d buffered) in *.
  destruct buf as [|b0 [|b1 [|b2 [|b3 tl]]]] eqn:Ebuf; try done. rewrite <- Ebuf in *. 
  destruct (Z.ltb_spec (zlen buf) 13); [lia|]. injection (eq_trans (eq_sym Ebuf) Hp) as -> -> -> -> _.
  rewrite !bool_decide_true by done. cbn [orb negb]. rewrite Hd1, Hd2. cbn [orb negb].
  assert (Hu : u8 n = n) by (apply Z.mod_small; lia). rewrite Hu.
  destruct (negb (n =? 3) && negb (n =? 4)) eqn:E34; [exfalso; destruct Hna as [-> | ->]; done|].
  inversion Hf as [|? ? [Hc1 Hc2] Hf']; subst.
  destruct (parse_next (limits d) buf 4 c _ ltac:(by constructor) Hv Hc2 ltac:(lia) E) as (s1 & -> & Hs1 & E1).
  rewrite res_bind_ret, Hs1. cbn [or_panic]. rewrite res_bind_ret, Hc.
  destruct (Z.ltb_spec (MaxArguments (limits d)) n); [lia|]. pose proof (zlen_nonneg (encode_bulk c)).
  rewrite (native_args_complete _ _ Hv args (4 + zlen (encode_bulk c)) rest' Hf' ltac:(lia) E1), res_bind_ret.
  assert (Hz : zlen (encode_request (c :: args)) = 4 + zlen (encode_bulk c) + zlen (concat (map encode_bulk args))).
  { rewrite Hsplit. cbn [map concat]. rewrite !zlen_app, zlen_header. change (zlen [zb (48 + n)]) with 1. lia. }
  rewrite <- Hz. by destruct (Z.ltb_spec (MaxRequestBytes (limits d)) (zlen (encode_request (c :: args)))); [lia|].
Qed.

(** ** The two branches of [Parse] *)

Lemma Parse_bulk d data args :
  valid_limits (limits d) → 23 ≤ bufsize (reader d) → input (reader d) = data → zlen data ≤ remaining d →
  remaining d = MaxRequestBytes (limits d) →
  ('(args, d) ← ('(value, d) ← bulk d; Ret ([value], d));
   if zlen (input (reader d)) =? 0 then Ret args else Err "trailing bytes") = Ret args ↔
  ∃ v, args = [v] ∧ bulk_frame (MaxBulkBytes (limits d)) data v ∧ zlen data ≤ MaxRequestBytes (limits d).
Proof.
  intros (_ & Hmb & _)%valid_limits_spec Hb Hi Hr Hm. split.
  - destruct (bulk d) as [[v d1]| |] eqn:E; [|done..]. rewrite !res_bind_ret.
    apply bulk_inv in E as (bs & rest & Hf & Hi' & Hz & ->); [|lia]. cbn [at_input set_remaining set_input reader input].
    destruct (Z.eqb_spec (zlen rest) 0) as [E0|]; [|done]. intros [= <-].
    assert (rest = []) as -> by (destruct rest; [done|rewrite zlen_cons in E0; pose proof (zlen_nonneg rest); lia]).
    exists v. rewrite app_nil_r in Hi'. split_and!; [done|congruence|lia].
  - intros (v & -> & Hf & Hz). rewrite (bulk_ok d data v []) by (done || lia || by rewrite app_nil_r). by rewrite !res_bind_ret.
Qed.

Lemma Parse_command d data args :
  valid_limits (limits d) → 23 ≤ bufsize (reader d) → input (reader d) = data →
  ('(args, d) ← ReadCommand d;
   if zlen (input (reader d)) =? 0 then Ret args else Err "trailing bytes") = Ret args ↔
  command_frame (limits d) data args.
Proof.
  intros Hv Hb Hi. split.
  - destruct (ReadCommand d) as [[a d1]| |] eqn:E; [|done..]. rewrite res_bind_ret.
    apply ReadCommand_inv in E as (bs & rest & Hf & Hi' & ->); [|done]. cbn [at_input set_remaining set_input reader input].
    destruct (Z.eqb_spec (zlen rest) 0) as [E0|]; [|done]. intros [= <-].
    assert (rest = []) as -> by (destruct rest; [done|rewrite zlen_cons in E0; pose proof (zlen_nonneg rest); lia]).
    rewrite app_nil_r in Hi'. congruence.
  - intros Hf. rewrite (ReadCommand_ok d data args []) by (done || by rewrite app_nil_r). by rewrite res_bind_ret.
Qed.

(** ** A connection's request loop *)

Fixpoint read_requests (n : nat) (d : Decoder) : res (list (list (list byte)) * Decoder) :=
  match n with
  | O => Ret ([], d)
  | S n => '(args, d) ← ReadCommand d; '(reqs, d) ← read_requests n d; Ret (args :: reqs, d)
  end.

(** C14: A client may pipeline any number of requests the limits admit: the
    server's decoder, called once per request, returns exactly the argument
    vectors the client encoded, in order, and leaves the bytes after the last
    request unread. *)
Theorem request_pipeline d reqs rest :
  decoder_ok d → Forall (request_ok (limits d)) reqs →
  input (reader d) = concat (map encode_request reqs) ++ rest →
  ∃ d', read_requests (length reqs) d = Ret (reqs, d') ∧ reader d' = mkReader rest (bufsize (reader d)) ∧ limits d' = limits d.
Proof.
  intros Hd Hr. revert d Hd Hr. induction reqs as [|a reqs IH]; intros d [Hv Hb] Hr Hi; cbn [map concat app length read_requests].
  { exists d. split; [done|]. split; [|done]. cbn in Hi. rewrite <- Hi. by destruct (reader d). }
  inversion Hr as [|? ? Ha Hr']; subst. cbn [map concat] in Hi. rewrite <- app_assoc in Hi.
  rewrite (ReadCommand_ok d _ a _ Hv Hb (encode_frame _ _ Ha) Hi), res_bind_ret.
  set (d1 := at_input d _ _). destruct (IH d1) as (d' & -> & Hrd & Hl); [done..|]. rewrite res_bind_ret. by exists d'.
Qed.

(** C20: [ReadCommand] reads exactly the protocol's language. On a decoder with
    valid limits it never panics, and it returns arguments if and only if the
    stream starts with a frame of those arguments within the limits; the
    decoder is then left right after the frame. *)
Theorem ReadCommand_language d :
  decoder_ok d → is_panic (ReadCommand d) = false ∧
  ∀ args d', ReadCommand d = Ret (args, d') ↔
    ∃ bs rest, command_frame (limits d) bs args ∧ input (reader d) = bs ++ rest ∧
      d' = at_input d rest (MaxRequestBytes (limits d) - zlen bs).
Proof.
  intros [Hv Hb]. split; [apply ReadCommand_no_panic|]. intros args d'. split; [by apply ReadCommand_inv|].
  intros (bs & rest & Hf & Hi & ->). by apply ReadCommand_ok.
Qed.

(** A stream that ends inside a request is reported as an unexpected end of
    stream, wherever the cut falls; one that ends between requests is a clean
    end of stream. *)
Theorem truncated_request d args pre :
  decoder_ok d → request_ok (limits d) args → cut pre (encode_request args) → input (reader d) = pre →
  ReadCommand d = Err (if decide (pre = []) then io_EOF else io_ErrUnexpectedEOF).
Proof.
  intros [Hv Hb] Ha Hc Hi. destruct (decide (pre = [])) as [->|Hne].
  - unfold ReadCommand. cbn [reader set_remaining]. by rewrite Hi.
  - subst pre. eapply ReadCommand_cut; [done..|by apply encode_frame|done|done].
Qed.

(** C22: Whenever one of the five buffered fast paths answers, [ReadCommand] on
    the same decoder reads the same request: the command it names up to case,
    the same arguments, and the same bytes left in the stream. *)
Theorem fast_paths_agree d buffered :
  decoder_ok d → buffered_ok d buffered → 3 ≤ MaxBulkBytes (limits d) →
  (∀ k d1, ReadBufferedGET d buffered = Ret (Some k, d1) → agrees d GET [k] d1) ∧
  (∀ k v d1, ReadBufferedSET d buffered = Ret (Some (k, v), d1) → agrees d SET [k; v] d1) ∧
  (∀ k m d1, ReadBufferedSADD d buffered = Ret (Some (k, m), d1) → agrees d SADD [k; m] d1) ∧
  (∀ k m d1, ReadBufferedSISMEMBER d buffered = Ret (Some (k, m), d1) → agrees d SISMEMBER [k; m] d1) ∧
  (∀ w args d1, ReadBufferedNativeMutation d buffered = Ret (Some (w, args), d1) → agrees d w args d1).
Proof.
  intros Hd Hb H3. split_and!; intros *.
  - by apply GET_agrees.
  - by apply SET_agrees.
  - by apply member_agrees.
  - by apply member_agrees.
  - by apply native_agrees.
Qed.

(** On any buffered bytes, well-formed or not, every fast path returns
    without an error or an out-of-range access, and when it declines it has
    consumed nothing, so the general decoder sees the whole request. *)
Theorem fast_paths_decline d buffered :
  valid_limits (limits d) →
  clean d (ReadBufferedGET d buffered) ∧ clean d (ReadBufferedSET d buffered) ∧ clean d (ReadBufferedSADD d buffered) ∧
  clean d (ReadBufferedSISMEMBER d buffered) ∧ clean d (ReadBufferedNativeMutation d buffered).
Proof.
  intros (_ & Hmb & _)%valid_limits_spec.
  split_and!; [apply GET_clean|apply SET_clean|apply member_clean|apply member_clean|apply native_clean]; lia.
Qed.

(** The fast paths do serve the traffic they are written for: a request a
    client encoded, complete in the buffer, whose command is spelled in any mix
    of cases, is answered with its arguments and consumed exactly. *)
Theorem fast_paths_serve d buffered c rest :
  decoder_ok d →
  (∀ k, request_ok (limits d) [c; k] → EqualFold c GET = true → zlen c = 3 →
    input (reader d) = encode_request [c; k] ++ rest → zlen (encode_request [c; k]) ≤ buffered →
    ReadBufferedGET d buffered = Ret (Some k, Discard d (zlen (encode_request [c; k])))) ∧
  (∀ k v, request_ok (limits d) [c; k; v] →
    input (reader d) = encode_request [c; k; v] ++ rest → zlen (encode_request [c; k; v]) ≤ buffered →
    let hit := Ret (Some (k, v), Discard d (zlen (encode_request [c; k; v]))) in
    (EqualFold c SET = true → zlen c = 3 → ReadBufferedSET d buffered = hit) ∧
    (EqualFold c SADD = true → zlen c = 4 → ReadBufferedSADD d buffered = hit) ∧
    (EqualFold c SISMEMBER = true → zlen c = 9 → ReadBufferedSISMEMBER d buffered = hit)) ∧
  (∀ args w, request_ok (limits d) (c :: args) → 4 ≤ zlen c →
    native_command (zlen (c :: args)) c = Some (w, length args) →
    input (reader d) = encode_request (c :: args) ++ rest → zlen (encode_request (c :: args)) ≤ buffered →
    ReadBufferedNativeMutation d buffered = Ret (Some (w, args), Discard d (zlen (encode_request (c :: args))))).
Proof.
  intros Hd. split_and!.
  - intros k Hr Hf Hl Hi Hb. by eapply GET_complete.
  - intros k v Hr Hi Hb hit. pose proof (encode_request_len [c; k; v]) as Hlen. cbn [foldr] in Hlen.
    pose proof (zlen_nonneg k). pose proof (zlen_nonneg v).
    split_and!; intros Hf Hl; [by eapply SET_complete|eapply member_complete; try done; lia..].
  - intros args w Hr Hl Hc Hi Hb. eapply native_complete; try done.
    pose proof (encode_request_len (c :: args)) as Hlen. cbn [foldr] in Hlen.
    pose proof (native_command_spec _ _ _ _ Hc) as [_ Hargc].
    assert (2 ≤ zlen args).
    { unfold native_command in Hc. rewrite zlen_cons in *.
      destruct (Z.eqb_spec (1 + zlen args) 4), (Z.eqb_spec (1 + zlen args) 3); try done; lia. }
    pose proof (args_len_six args). lia.
Qed.

(** [Parse] accepts a byte string if and only if it is, up to its last byte,
    one request frame within the default limits or one bulk string; it never
    panics. *)
Theorem Parse_language data :
  is_panic (Parse data) = false ∧
  ∀ args, Parse data = Ret args ↔
    command_frame DefaultLimits data args ∨
    ∃ v, args = [v] ∧ bulk_frame (MaxBulkBytes DefaultLimits) data v ∧ zlen data ≤ MaxRequestBytes DefaultLimits.
Proof.
  unfold Parse. cbv zeta. set (L := DefaultLimits). assert (Hv : valid_limits L) by done.
  pose proof Hv as (_ & Hmb & _)%valid_limits_spec. set (d := mkDecoder (mkReader data 4096) L 0).
  destruct (Z.ltb_spec (MaxRequestBytes L) (zlen data)) as [Hlt|Hle].
  { split; [done|]. intros args. split; [done|]. intros [(ds & bss & _ & _ & _ & _ & _ & Hl)|(v & _ & _ & Hl)]; lia. }
  destruct (_ && _) eqn:Hd.
  - apply andb_true_iff in Hd as [_ Hd]. apply bool_decide_eq_true in Hd.
    set (d0 := set_remaining d (MaxRequestBytes L)). split.
    { apply bind_no_panic; [apply bind_no_panic; [apply bulk_no_panic|by intros []]|intros [a d1]; by destruct (_ =? 0)]. }
    intros args. rewrite (Parse_bulk d0 data) by done. split; [intros (v & ? & ? & ?); right; by exists v|].
    intros [(ds & bss & _ & _ & _ & _ & -> & _)|?]; [done|done].
  - split.
    { apply bind_no_panic; [apply ReadCommand_no_panic|intros [a d1]; by destruct (_ =? 0)]. }
    intros args. rewrite (Parse_command d data) by done. split; [by left|]. intros [?|(v & _ & (ds & _ & _ & _ & ->) & Hz)]; [done|].
    rewrite bool_decide_true, andb_true_r, zlen_bulk in Hd by done. apply Z.ltb_ge in Hd. pose proof (zlen_nonneg ds). pose proof (zlen_nonneg v). lia.
Qed.

(** ** Instances *)

Definition demo_requests : list (list (list byte)) := [[[x67; x45; x74]; [x6b]]; [SADD; [x6b]; [x6d; x6d]]].
Definition demo_decoder (i : list byte) : Decoder := mkDecoder (mkReader i 4096) DefaultLimits 0.

Lemma demo_decoder_ok i : decoder_ok (demo_decoder i).
Proof. split; [reflexivity|cbn; lia]. Qed.

Lemma demo_requests_ok : Forall (request_ok DefaultLimits) demo_requests.
Proof.
  repeat constructor; try (vm_compute; discriminate); repeat constructor; vm_compute; discriminate.
Qed.

Lemma request_pipeline_witness :
  ∃ d', read_requests 2 (demo_decoder (concat (map encode_request demo_requests) ++ [x2a])) = Ret (demo_requests, d') ∧
    reader d' = mkReader [x2a] 4096 ∧ limits d' = DefaultLimits.
Proof.
  apply (request_pipeline (demo_decoder _) demo_requests [x2a]); [apply demo_decoder_ok|exact demo_requests_ok|reflexivity].
Defined.

Lemma ReadCommand_language_witness : is_panic (ReadCommand (demo_decoder [x2a; x31])) = false.
Proof. exact (proj1 (ReadCommand_language (demo_decoder [x2a; x31]) (demo_decoder_ok _))). Defined.


Lemma fast_paths_agree_witness :
  agrees (demo_decoder (encode_request [[x67; x45; x74]; [x6b]])) GET [[x6b]] (demo_decoder []).
Proof.
  apply (proj1 (fast_paths_agree (demo_decoder (encode_request [[x67; x45; x74]; [x6b]])) 20
    (demo_decoder_ok _) ltac:(split; vm_compute; [split|]; discriminate) ltac:(vm_compute; discriminate))).
  vm_compute; reflexivity.
Defined.

