(* ===== verification/Codec.v ===== *)
(** * Scalar codecs

    Model of internal/codec/codec.go: the codecs for integers, floats, booleans,
    UUIDs, ULIDs and timestamps. [Encode] returns the payload of a text it
    accepts; [Decode] rebuilds the text. A destination buffer passed to
    [DecodeInto] only supplies storage, so the [DecodeInto] forms take the payload
    and the raw length. Float parsing and formatting are parameters: a float is
    its 64 bits. *)
From S2P Require Import Prelude Numerals.
Set Default Proof Using "Type".

Definition text (s : string) : list byte := String.list_byte_of_string s.

(** ** Codec identifiers *)

Definition Raw : Z := 0.
Definition Integer : Z := 1.
Definition UnsignedInteger : Z := 2.
Definition UUID : Z := 3.
Definition Timestamp : Z := 4.
Definition JSONShape : Z := 5.
Definition Float64 : Z := 6.
Definition Boolean : Z := 7.
Definition ULID : Z := 12.

(** ** Raw *)

Definition raw_Encode (src : list byte) : option (list byte) := Some src.
Definition raw_Decode (src : list byte) (n : Z) : res (list byte) :=
  if zlen src =? n then Ret src else Err "invalid raw length".
Definition raw_DecodeInto (src : list byte) (n : Z) : res (list byte) :=
  if zlen src =? n then Ret (take (Z.to_nat n) src) else Err "invalid raw length".

(** ** Signed integers *)

(** [binary.PutVarint] and [binary.Varint]: zigzag. *)
Definition put_varint (x : Z) : list byte :=
  let ux := u64 (Z.shiftl (u64 x) 1) in
  put_uvarint (if x <? 0 then 2 ^ 64 - 1 - ux else ux).

Definition varint (buf : list byte) : Z * Z :=
  let '(ux, n) := uvarint buf in
  let x := i64 (Z.shiftr ux 1) in
  (if Z.testbit ux 0 then Z.lnot x else x, n).

Fixpoint magnitude_loop (limit magnitude : Z) (s : list byte) : option Z :=
  match s with
  | [] => Some magnitude
  | b :: s =>
      if (bz b <? 48) || (57 <? bz b) then None else
      let digit := bz b - 48 in
      if (limit - digit) / 10 <? magnitude then None
      else magnitude_loop limit (u64 (magnitude * 10 + digit)) s
  end.

Definition canonicalInt64Bytes (src : list byte) : option Z :=
  match src with
  | [] => None
  | c :: rest =>
      let negative := bool_decide (c = x2d) in
      if negative && bool_decide (rest = []) then None
      else if negb negative && bool_decide (c = x2b) then None
      else
        let digits := if negative then rest else src in
        if bool_decide (head digits = Some x30) && (1 <? zlen digits) then None else
        let limit := if negative then 2 ^ 63 else 2 ^ 63 - 1 in
        match magnitude_loop limit 0 digits with
        | None => None
        | Some magnitude =>
            if negative then
              if magnitude =? 0 then None
              else if magnitude =? 2 ^ 63 then Some (- 2 ^ 63)
              else Some (- i64 magnitude)
            else Some (i64 magnitude)
        end
  end.

Definition integer_Encode (src : list byte) : option (list byte) :=
  match canonicalInt64Bytes src with Some n => Some (put_varint n) | None => None end.

Definition integer_Decode (src : list byte) (_ : Z) : res (list byte) :=
  let '(n, size) := varint src in
  if (size <=? 0) || negb (size =? zlen src) then Err "invalid integer" else Ret (FormatInt n).

Definition integer_DecodeInto (src : list byte) (_ : Z) : res (list byte) :=
  let '(n, size) := varint src in
  if (size <=? 0) || negb (size =? zlen src) then Err "invalid integer" else Ret ([] ++ FormatInt n).

(** ** Unsigned integers above the signed range *)

Definition unsigned_Encode (src : list byte) : option (list byte) :=
  match ParseUint src with
  | None => None
  | Some n =>
      if negb (bool_decide (FormatUint n = src)) then None
      else if n <=? 2 ^ 63 - 1 then None
      else Some (le_put 8 n)
  end.

Definition unsigned_Decode (src : list byte) (_ : Z) : res (list byte) :=
  if negb (zlen src =? 8) then Err "invalid unsigned integer" else
  let n := le_get src in
  if n <=? 2 ^ 63 - 1 then Err "invalid unsigned integer range" else Ret (FormatUint n).

Definition unsigned_DecodeInto (src : list byte) (_ : Z) : res (list byte) :=
  if negb (zlen src =? 8) then Err "invalid unsigned integer" else
  let n := le_get src in
  if n <=? 2 ^ 63 - 1 then Err "invalid unsigned integer range" else Ret ([] ++ FormatUint n).

(** ** Booleans: the raw length is the value *)

Definition bool_Encode (src : list byte) : option (list byte) :=
  if bool_decide (src = text "false") || bool_decide (src = text "true") then Some [] else None.

Definition bool_Decode (src : list byte) (rawLength : Z) : res (list byte) :=
  if negb (zlen src =? 0) then Err "invalid bool payload"
  else if rawLength =? 4 then Ret (text "true")
  else if rawLength =? 5 then Ret (text "false")
  else Err "invalid bool length".

(** ** UUIDs *)

Definition uuidHexNibble (b : byte) : option Z :=
  if (48 <=? bz b) && (bz b <=? 57) then Some (bz b - 48)
  else if (97 <=? bz b) && (bz b <=? 102) then Some (bz b - 97 + 10)
  else None.

Definition dash_at (si : Z) : bool := (si =? 8) || (si =? 13) || (si =? 18) || (si =? 23).

Fixpoint skip_dashes (fuel : nat) (si : Z) : Z :=
  match fuel with
  | O => si
  | S f => if dash_at si then skip_dashes f (si + 1) else si
  end.

(** The [n] bytes of the output that are still to be filled. *)
Fixpoint uuid_loop (n : nat) (src : list byte) (si : Z) : res (option (list byte)) :=
  match n with
  | O => Ret (Some [])
  | S n =>
      let si := skip_dashes 36 si in
      c ← or_panic (znth src si) oob;
      match uuidHexNibble c with
      | None => Ret None
      | Some hi =>
          c ← or_panic (znth src (si + 1)) oob;
          match uuidHexNibble c with
          | None => Ret None
          | Some lo =>
              rest ← uuid_loop n src (si + 2);
              Ret (match rest with Some l => Some (zb (Z.lor (Z.shiftl hi 4) lo) :: l) | None => None end)
          end
      end
  end.

Definition uuid_Encode (src : list byte) : res (option (list byte)) :=
  if negb (zlen src =? 36) then Ret None else
  c8 ← or_panic (znth src 8) oob;
  c13 ← or_panic (znth src 13) oob;
  c18 ← or_panic (znth src 18) oob;
  c23 ← or_panic (znth src 23) oob;
  if negb (bool_decide (c8 = x2d)) || negb (bool_decide (c13 = x2d)) ||
     negb (bool_decide (c18 = x2d)) || negb (bool_decide (c23 = x2d))
  then Ret None else uuid_loop 16 src 0.

(** A digit of an alphabet; the index is always below its length. *)
Definition symbol (alphabet : list byte) (v : Z) : byte := default x00 (znth alphabet v).

Definition hexDigits : list byte := text "0123456789abcdef".

Definition appendUUIDHex (dst : list byte) (b : byte) : list byte :=
  dst ++ [symbol hexDigits (Z.shiftr (bz b) 4); symbol hexDigits (Z.land (bz b) 15)].

Fixpoint uuid_text (dst src : list byte) (i : Z) : list byte :=
  match src with
  | [] => dst
  | b :: src =>
      let dst := if (i =? 4) || (i =? 6) || (i =? 8) || (i =? 10) then dst ++ [x2d] else dst in
      uuid_text (appendUUIDHex dst b) src (i + 1)
  end.

Definition uuid_Decode (src : list byte) (_ : Z) : res (list byte) :=
  if negb (zlen src =? 16) then Err "invalid UUID" else Ret (uuid_text [] src 0).
Definition uuid_DecodeInto (src : list byte) (_ : Z) : res (list byte) :=
  if negb (zlen src =? 16) then Err "invalid UUID" else Ret (uuid_text [] src 0).

(** ** ULIDs *)

Definition ulidAlphabet : list byte := text "0123456789ABCDEFGHJKMNPQRSTVWXYZ".

Definition ulidDecodeValue (b : byte) : option Z :=
  let c := bz b in
  if (48 <=? c) && (c <=? 57) then Some (c - 48)
  else if (65 <=? c) && (c <=? 72) then Some (c - 65 + 10)
  else if (74 <=? c) && (c <=? 75) then Some (c - 74 + 18)
  else if (77 <=? c) && (c <=? 78) then Some (c - 77 + 20)
  else if (80 <=? c) && (c <=? 84) then Some (c - 80 + 22)
  else if (86 <=? c) && (c <=? 90) then Some (c - 86 + 27)
  else None.

(** Keep the low [bits] bits. *)
Definition keep_bits (acc bits : Z) : Z := if bits =? 0 then 0 else Z.land acc (Z.shiftl 1 bits - 1).

(** The output buffer has 16 bytes; [out] is the part written so far. *)
Fixpoint ulid_drain (fuel : nat) (acc bits : Z) (out : list byte) : res (Z * Z * list byte) :=
  match fuel with
  | O => Ret (acc, bits, out)
  | S f =>
      if 8 <=? bits then
        let bits := bits - 8 in
        if 16 <=? zlen out then Panic oob else
        ulid_drain f (keep_bits acc bits) bits (out ++ [zb (Z.shiftr acc bits)])
      else Ret (acc, bits, out)
  end.

Fixpoint ulid_encode_loop (src : list byte) (acc bits : Z) (out : list byte) : res (option (Z * list byte)) :=
  match src with
  | [] => Ret (Some (bits, out))
  | c :: src =>
      match ulidDecodeValue c with
      | None => Ret None
      | Some v =>
          let acc := Z.lor (u32 (Z.shiftl acc 5)) v in
          '(acc, bits, out) ← ulid_drain (Z.to_nat (bits + 5)) acc (bits + 5) out;
          ulid_encode_loop src acc bits out
      end
  end.

Definition ulid_Encode (src : list byte) : res (option (list byte)) :=
  if negb (zlen src =? 26) then Ret None else
  match src with
  | [] => Ret None
  | c :: src =>
      match ulidDecodeValue c with
      | None => Ret None
      | Some first =>
          if 7 <? first then Ret None else
          r ← ulid_encode_loop src first 3 [];
          match r with
          | None => Ret None
          | Some (bits, out) =>
              if negb (zlen out =? 16) || negb (bits =? 0) then Ret None else Ret (Some out)
          end
      end
  end.

Fixpoint ulid_emit (fuel : nat) (acc bits : Z) (dst : list byte) : Z * Z * list byte :=
  match fuel with
  | O => (acc, bits, dst)
  | S f =>
      if 5 <=? bits then
        let bits := bits - 5 in
        ulid_emit f (keep_bits acc bits) bits (dst ++ [symbol ulidAlphabet (Z.land (Z.shiftr acc bits) 31)])
      else (acc, bits, dst)
  end.

Fixpoint ulid_append_loop (src : list byte) (acc bits : Z) (dst : list byte) : list byte :=
  match src with
  | [] => dst
  | b :: src =>
      let acc := Z.lor (u32 (Z.shiftl acc 8)) (bz b) in
      let '(acc, bits, dst) := ulid_emit (Z.to_nat (bits + 8)) acc (bits + 8) dst in
      ulid_append_loop src acc bits dst
  end.

Definition appendULIDEncoded (dst src : list byte) : list byte := ulid_append_loop src 0 2 dst.

Definition ulid_Decode (src : list byte) (_ : Z) : res (list byte) :=
  if negb (zlen src =? 16) then Err "invalid ULID" else
  let out := appendULIDEncoded [] src in
  if negb (zlen out =? 26) then Err "invalid ULID encoding" else Ret out.

Definition ulid_DecodeInto (src : list byte) (_ : Z) : res (list byte) :=
  if negb (zlen src =? 16) then Err "invalid ULID" else
  let dst := appendULIDEncoded [] src in
  if negb (zlen dst =? 26) then Err "invalid ULID encoding" else Ret dst.

(** ** Timestamps

    The [time] package on the layout 2006-01-02T15:04:05Z: a time is its Unix
    second. A text is accepted when formatting the parsed time gives it back, so
    only the fixed-width form matters to the parser. *)

Definition two_digits (n : Z) : list byte := [zb (48 + n / 10); zb (48 + n mod 10)].

Definition leap (y : Z) : bool := (y mod 4 =? 0) && (negb (y mod 100 =? 0) || (y mod 400 =? 0)).

Definition days_in (y m : Z) : Z :=
  if m =? 2 then (if leap y then 29 else 28)
  else if (m =? 4) || (m =? 6) || (m =? 9) || (m =? 11) then 30 else 31.

(** Days since 1970-01-01 of a date, and back, in the proleptic Gregorian
    calendar with the year counted from March. *)
Definition days_of_date (y m d : Z) : Z :=
  let y' := if m <=? 2 then y - 1 else y in
  let era := y' / 400 in
  let yoe := y' mod 400 in
  let doy := (153 * (if 2 <? m then m - 3 else m + 9) + 2) / 5 + d - 1 in
  let doe := yoe * 365 + yoe / 4 - yoe / 100 + doy in
  era * 146097 + doe - 719468.

Definition date_of_days (days : Z) : Z * Z * Z :=
  let z := days + 719468 in
  let era := z / 146097 in
  let doe := z mod 146097 in
  let yoe := (doe - doe / 1460 + doe / 36524 - doe / 146096) / 365 in
  let doy := doe - (365 * yoe + yoe / 4 - yoe / 100) in
  let mp := (5 * doy + 2) / 153 in
  let d := doy - (153 * mp + 2) / 5 + 1 in
  let m := if mp <? 10 then mp + 3 else mp - 9 in
  (yoe + era * 400 + (if m <=? 2 then 1 else 0), m, d).

Definition Year (sec : Z) : Z := let '(y, _, _) := date_of_days (sec / 86400) in y.

(** [t.Format(timestampLayout)] for a year of four digits. *)
Definition time_Format (sec : Z) : list byte :=
  let '(y, m, d) := date_of_days (sec / 86400) in
  let s := sec mod 86400 in
  two_digits (y / 100) ++ two_digits (y mod 100) ++ [x2d] ++ two_digits m ++ [x2d] ++ two_digits d ++
  text "T" ++ two_digits (s / 3600) ++ text ":" ++ two_digits (s / 60 mod 60) ++ text ":" ++
  two_digits (s mod 60) ++ text "Z".

Definition field (src : list byte) (i j : Z) : option Z :=
  match zslice src i j with Some s => parse_digits 0 s | None => None end.

Definition time_Parse (src : list byte) : option Z :=
  match field src 0 4, field src 5 7, field src 8 10, field src 11 13, field src 14 16, field src 17 19 with
  | Some y, Some mo, Some d, Some h, Some mi, Some s =>
      if (1 <=? mo) && (mo <=? 12) && (1 <=? d) && (d <=? days_in y mo) && (h <? 24) && (mi <? 60) && (s <? 60)
      then Some (days_of_date y mo d * 86400 + h * 3600 + mi * 60 + s) else None
  | _, _, _, _, _, _ => None
  end.

Definition timestamp_Encode (src : list byte) : option (list byte) :=
  if negb (zlen src =? 20) then None else
  match time_Parse src with
  | None => None
  | Some t => if bool_decide (time_Format t = src) then Some (le_put 8 (u64 t)) else None
  end.

Definition timestamp_Decode (src : list byte) (_ : Z) : res (list byte) :=
  if negb (zlen src =? 8) then Err "invalid timestamp" else
  let t := i64 (le_get src) in
  if (Year t <? 0) || (9999 <? Year t) then Err "timestamp out of range" else Ret (time_Format t).

Definition timestamp_DecodeInto (src : list byte) (_ : Z) : res (list byte) :=
  if negb (zlen src =? 8) then Err "invalid timestamp" else
  let t := i64 (le_get src) in
  if (Year t <? 0) || (9999 <? Year t) then Err "timestamp out of range" else Ret ([] ++ time_Format t).

(** ** Floats *)

Section Floats.
(** [strconv.ParseFloat(s, 64)], [None] for an error, and
    [strconv.FormatFloat(n, 'g', -1, 64)]. *)
Context (ParseFloat : list byte → option Z) (FormatFloat : Z → list byte).

(** [math.IsNaN(n) || math.IsInf(n, 0)]: the exponent bits are all set. *)
Definition not_finite (n : Z) : bool := Z.land (Z.shiftr n 52) 2047 =? 2047.

Definition canonicalFloat64 (src : list byte) : option Z :=
  match src with
  | [] => None
  | _ =>
      match ParseFloat src with
      | None => None
      | Some n =>
          if not_finite n then None
          else if bool_decide (FormatFloat n = src) then Some n else None
      end
  end.

Definition canonical_signed (src : list byte) : bool :=
  match ParseInt src with Some i => bool_decide (FormatInt i = src) | None => false end.
Definition canonical_unsigned (src : list byte) : bool :=
  match ParseUint src with Some u => bool_decide (FormatUint u = src) | None => false end.

Definition float64_Encode (src : list byte) : option (list byte) :=
  match canonicalFloat64 src with
  | None => None
  | Some n =>
      if canonical_signed src then None
      else if canonical_unsigned src then None
      else Some (le_put 8 (u64 n))
  end.

Definition float64_Decode (src : list byte) (_ : Z) : res (list byte) :=
  if negb (zlen src =? 8) then Err "invalid float64" else
  let n := le_get src in
  if not_finite n then Err "invalid float64 value" else Ret (FormatFloat n).

Definition float64_DecodeInto (src : list byte) (_ : Z) : res (list byte) :=
  if negb (zlen src =? 8) then Err "invalid float64" else
  let n := le_get src in
  if not_finite n then Err "invalid float64 value" else Ret ([] ++ FormatFloat n).
End Floats.
