(* ===== verification/CodecFacts.v ===== *)
(** * The scalar codecs are lossless

    For every scalar codec, a text that [Encode] accepts is rebuilt by [Decode]
    byte for byte; the canonical integer scanner accepts exactly the texts that
    [strconv] parses and prints back. *)
From S2P Require Import Prelude Numerals Codec.
Set Default Proof Using "Type".

(** ** Signed integers *)

Lemma magnitude_loop_spec limit s : 9 ≤ limit ≤ 2 ^ 63 → ∀ m, 0 ≤ m ≤ limit →
  magnitude_loop limit m s =
    match parse_digits m s with Some v => if v <=? limit then Some v else None | None => None end.
Proof.
  intros Hlim. induction s as [|b s IH]; intros m Hm; cbn [magnitude_loop parse_digits].
  - by destruct (Z.leb_spec m limit); [|lia].
  - unfold digit_char. destruct (Z.ltb_spec (bz b) 48), (Z.leb_spec 48 (bz b)); try lia; [done|].
    destruct (Z.ltb_spec 57 (bz b)), (Z.leb_spec (bz b) 57); try lia; [done|]. cbn [orb andb].
    destruct (Z.ltb_spec ((limit - (bz b - 48)) / 10) m) as [Hgt|Hle].
    + destruct (parse_digits _ s) as [v|] eqn:Hv; [|done]. apply parse_digits_nonneg in Hv; [|lia].
      destruct (Z.leb_spec v limit); [dlia|done].
    + assert (m * 10 + (bz b - 48) ≤ limit) by dlia. rewrite u64_id by lia. apply IH. lia.
Qed.

Lemma no_zero_check s : s ≠ [] →
  (bool_decide (head s = Some x30) && (1 <? zlen s)) = false ↔ no_leading_zero s.
Proof.
  intros Hs. destruct s as [|c [|d s]]; [done|..]; cbn [no_leading_zero head].
  - rewrite zlen_cons, zlen_nil. change (1 <? 1 + 0) with false. by rewrite andb_false_r.
  - rewrite !zlen_cons. pose proof (zlen_nonneg s). destruct (Z.ltb_spec 1 (1 + (1 + zlen s))); [|lia].
    rewrite andb_true_r, bool_decide_eq_false. split; congruence.
Qed.

(** Reading the digits after the sign. *)
Lemma signed_digits limit s m : s ≠ [] → 9 ≤ limit ≤ 2 ^ 63 → parse_digits 0 s = Some m →
  no_leading_zero s → m ≤ limit →
  (bool_decide (head s = Some x30) && (1 <? zlen s)) = false ∧ magnitude_loop limit 0 s = Some m.
Proof.
  intros Hs Hl Hm Hz Hle. split; [by apply no_zero_check|]. rewrite magnitude_loop_spec, Hm by lia.
  by destruct (Z.leb_spec m limit); [|lia].
Qed.

Lemma canonical_Format n : - 2 ^ 63 ≤ n < 2 ^ 63 → canonicalInt64Bytes (FormatInt n) = Some n.
Proof.
  intros Hn. unfold FormatInt. destruct (Z.ltb_spec n 0).
  - cbn [canonicalInt64Bytes]. rewrite (bool_decide_true (x2d = x2d)) by done. cbv zeta.
    assert (Hne : decimal 20 (- n) ≠ []) by apply decimal_nonempty. rewrite bool_decide_false by done. cbn [andb negb].
    destruct (signed_digits (2 ^ 63) (decimal 20 (- n)) (- n)) as [-> ->];
      [done|lia|apply parse_decimal; lia|apply decimal_canonical; lia|lia|].
    destruct (Z.eqb_spec (- n) 0); [lia|]. destruct (Z.eqb_spec (- n) (2 ^ 63)); f_equal; [lia|]. rewrite i64_id; lia.
  - destruct (decimal 20 n) as [|c s] eqn:E; [by apply decimal_nonempty in E|].
    destruct (decimal_unsigned 19 n c s) as [H1 H2]; [lia|done|]. cbn [canonicalInt64Bytes].
    rewrite (bool_decide_false (c = x2d)), (bool_decide_false (c = x2b)) by done. cbv zeta. cbn [andb negb]. rewrite <- E.
    destruct (signed_digits (2 ^ 63 - 1) (decimal 20 n) n) as [-> ->];
      [apply decimal_nonempty|lia|apply parse_decimal; lia|apply decimal_canonical; lia|lia|]. by rewrite i64_id by lia.
Qed.

Lemma canonical_inv src n : canonicalInt64Bytes src = Some n → FormatInt n = src ∧ - 2 ^ 63 ≤ n < 2 ^ 63.
Proof.
  unfold canonicalInt64Bytes. destruct src as [|c rest]; [done|]. destruct (decide (c = x2d)) as [->|Hc].
  - rewrite (bool_decide_true (x2d = x2d)) by done. cbv zeta. cbn [andb negb].
    destruct (decide (rest = [])) as [->|Hne]; [by rewrite bool_decide_true|]. rewrite (bool_decide_false (rest = [])) by done.
    destruct (bool_decide _ && _) eqn:Hz; [done|]. apply no_zero_check in Hz; [|done].
    rewrite magnitude_loop_spec by lia. destruct (parse_digits 0 rest) as [m|] eqn:Hm; [|done].
    destruct (Z.leb_spec m (2 ^ 63)); [|done]. pose proof (parse_digits_nonneg 0 rest m ltac:(lia) Hm).
    destruct (Z.eqb_spec m 0); [done|]. intros E.
    assert (n = - m) as -> by (destruct (Z.eqb_spec m (2 ^ 63)); injection E as <-; rewrite ?i64_id; lia).
    split; [|lia]. unfold FormatInt. destruct (Z.ltb_spec (- m) 0); [|lia]. f_equal. rewrite Z.opp_involutive.
    apply decimal_parse; try done; lia.
  - rewrite bool_decide_false by done. cbv zeta. cbn [andb negb]. destruct (bool_decide (c = x2b)); [done|].
    destruct (bool_decide _ && _) eqn:Hz; [done|]. apply no_zero_check in Hz; [|done].
    rewrite magnitude_loop_spec by lia. destruct (parse_digits 0 (c :: rest)) as [m|] eqn:Hm; [|done].
    destruct (Z.leb_spec m (2 ^ 63 - 1)); [|done]. pose proof (parse_digits_nonneg 0 (c :: rest) m ltac:(lia) Hm).
    intros [= <-]. rewrite i64_id by lia. split; [|lia]. unfold FormatInt. destruct (Z.ltb_spec m 0); [lia|].
    apply decimal_parse; try done; lia.
Qed.

Lemma ParseInt_range s n : ParseInt s = Some n → - 2 ^ 63 ≤ n < 2 ^ 63.
Proof.
  unfold ParseInt, ParseUint. destruct s as [|c rest]; [done|].
  assert (H : ∀ d, match (match d with [] => None | _ => match parse_digits 0 d with
      | Some v => if v <? 2 ^ 64 then Some v else None | None => None end end) with Some u => 0 ≤ u | None => True end).
  { intros d. destruct d as [|b d]; [done|]. destruct (parse_digits 0 (b :: d)) as [v|] eqn:Hv; [|done].
    apply parse_digits_nonneg in Hv; [|lia]. destruct (v <? 2 ^ 64); [lia|done]. }
  cbv zeta. specialize (H (if bool_decide (c = x2b) || bool_decide (c = x2d) then rest else c :: rest)).
  destruct (match (if bool_decide (c = x2b) || bool_decide (c = x2d) then rest else c :: rest) with [] => None | _ => _ end) as [u|]; [|done].
  destruct (bool_decide (c = x2d)).
  - destruct (Z.ltb_spec (2 ^ 63) u); [done|]. intros [= <-]. lia.
  - destruct (Z.leb_spec (2 ^ 63) u); [done|]. intros [= <-]. lia.
Qed.

(** The scanner accepts exactly the texts [strconv] parses and prints back. *)
Lemma canonical_exact src n : canonicalInt64Bytes src = Some n ↔ ParseInt src = Some n ∧ FormatInt n = src.
Proof.
  split.
  - intros [<- Hn]%canonical_inv. split; [by apply ParseInt_Format|done].
  - intros [Hp <-]. apply canonical_Format. by eapply ParseInt_range.
Qed.

Lemma varint_put n : - 2 ^ 63 ≤ n < 2 ^ 63 → varint (put_varint n) = (n, zlen (put_varint n)).
Proof.
  intros Hn. unfold varint, put_varint. rewrite Z.shiftl_mul_pow2 by lia. change (2 ^ 1) with 2.
  set (ux := if n <? 0 then _ else _). assert (Hux : ux = if n <? 0 then - 2 * n - 1 else 2 * n).
  { subst ux. unfold u64. destruct (Z.ltb_spec n 0); dlia. }
  clearbody ux. rewrite <- (app_nil_r (put_uvarint ux)) at 1. rewrite uvarint_put by (destruct (Z.ltb_spec n 0); lia).
  f_equal. rewrite Z.bit0_odd, Z.shiftr_div_pow2 by lia. change (2 ^ 1) with 2. subst ux. destruct (Z.ltb_spec n 0).
  - replace (- 2 * n - 1) with (1 + 2 * (- n - 1)) by lia. rewrite Z.odd_add_mul_2. cbn [Z.odd].
    replace ((1 + 2 * (- n - 1)) / 2) with (- n - 1) by dlia. rewrite i64_id by lia. unfold Z.lnot. lia.
  - replace (2 * n) with (0 + 2 * n) at 1 by lia. rewrite Z.odd_add_mul_2. cbn [Z.odd].
    replace (2 * n / 2) with n by dlia. by rewrite i64_id by lia.
Qed.

Lemma put_varint_pos n : 1 ≤ zlen (put_varint n).
Proof. apply put_uvarint_len_bound. Qed.

Lemma integer_lossless src data n : integer_Encode src = Some data → integer_Decode data n = Ret src.
Proof.
  unfold integer_Encode, integer_Decode. destruct (canonicalInt64Bytes src) as [v|] eqn:Hv; [|done]. intros [= <-].
  apply canonical_inv in Hv as [<- Hr]. rewrite varint_put by done. pose proof (put_varint_pos v).
  destruct (Z.leb_spec (zlen (put_varint v)) 0); [lia|]. by rewrite Z.eqb_refl.
Qed.

(** ** Unsigned integers, booleans, floats *)

Lemma le_put_8 v : 0 ≤ v < 2 ^ 64 → le_get (le_put 8 v) = v.
Proof. intros. rewrite le_get_put. by apply Z.mod_small. Qed.

Lemma ParseUint_range s v : ParseUint s = Some v → 0 ≤ v < 2 ^ 64.
Proof.
  unfold ParseUint. destruct s as [|b s]; [done|]. destruct (parse_digits 0 (b :: s)) as [u|] eqn:Hu; [|done].
  apply parse_digits_nonneg in Hu; [|lia]. destruct (Z.ltb_spec u (2 ^ 64)); [|done]. intros [= <-]. lia.
Qed.

Lemma unsigned_lossless src data n : unsigned_Encode src = Some data → unsigned_Decode data n = Ret src.
Proof.
  unfold unsigned_Encode, unsigned_Decode. destruct (ParseUint src) as [v|] eqn:Hv; [|done].
  destruct (bool_decide (FormatUint v = src)) eqn:Hf; [|done]. apply bool_decide_eq_true in Hf. cbn [negb].
  destruct (Z.leb_spec v (2 ^ 63 - 1)); [done|]. intros E. apply Some_inj in E as <-. rewrite zlen_le_put. change (negb (Z.of_nat 8 =? 8)) with false. cbv iota.
  rewrite le_put_8 by (by eapply ParseUint_range). destruct (Z.leb_spec v (2 ^ 63 - 1)); [lia|by rewrite Hf].
Qed.

Lemma bool_lossless src data : bool_Encode src = Some data → bool_Decode data (zlen src) = Ret src.
Proof.
  unfold bool_Encode. destruct (decide (src = text "false")) as [->|]; [by intros [= <-]|].
  destruct (decide (src = text "true")) as [->|]; [by intros [= <-]|]. by rewrite !bool_decide_false.
Qed.

Lemma float64_lossless ParseFloat FormatFloat src data n :
  (∀ s v, ParseFloat s = Some v → 0 ≤ v < 2 ^ 64) →
  float64_Encode ParseFloat FormatFloat src = Some data → float64_Decode FormatFloat data n = Ret src.
Proof.
  intros Hr. unfold float64_Encode, float64_Decode, canonicalFloat64. destruct src as [|c s]; [done|].
  destruct (ParseFloat (c :: s)) as [v|] eqn:Hv; [|done]. apply Hr in Hv.
  destruct (not_finite v) eqn:Hf; [done|]. destruct (bool_decide (FormatFloat v = c :: s)) eqn:E; [|done].
  apply bool_decide_eq_true in E. destruct (canonical_signed (c :: s)), (canonical_unsigned (c :: s)); try done.
  intros Hd. apply Some_inj in Hd as <-. rewrite u64_id, zlen_le_put by done. change (negb (Z.of_nat 8 =? 8)) with false. cbv iota.
  rewrite le_put_8 by done. by rewrite Hf, E.
Qed.

(** ** UUIDs *)

Lemma uuidHexNibble_symbol c v : uuidHexNibble c = Some v → symbol hexDigits v = c ∧ 0 ≤ v < 16.
Proof. destruct c; cbn; intros [= <-]; (split; [reflexivity|lia]). Qed.

(** Two nibbles packed in a byte. *)
Lemma nibbles hi lo : 0 ≤ hi < 16 → 0 ≤ lo < 16 →
  Z.shiftr (bz (zb (Z.lor (Z.shiftl hi 4) lo))) 4 = hi ∧ Z.land (bz (zb (Z.lor (Z.shiftl hi 4) lo))) 15 = lo.
Proof.
  intros. rewrite lor_shiftl_add by lia. change (2 ^ 4) with 16. rewrite bz_zb, Z.mod_small by lia.
  change 15 with (2 ^ 4 - 1). rewrite shiftr_div, land_mask by lia. split; dlia.
Qed.

Definition hex_pair (b : byte) : list byte :=
  [symbol hexDigits (Z.shiftr (bz b) 4); symbol hexDigits (Z.land (bz b) 15)].

Lemma hex_pair_pack c d hi lo : uuidHexNibble c = Some hi → uuidHexNibble d = Some lo →
  hex_pair (zb (Z.lor (Z.shiftl hi 4) lo)) = [c; d].
Proof.
  intros [Hc Hh]%uuidHexNibble_symbol [Hd Hl]%uuidHexNibble_symbol. unfold hex_pair.
  destruct (nibbles hi lo Hh Hl) as [-> ->]. by rewrite Hc, Hd.
Qed.

(** One round of the loop, past any dash. *)
Lemma uuid_round n src si si' c d r :
  skip_dashes 36 si = si' → znth src si' = Some c → znth src (si' + 1) = Some d → uuid_loop (S n) src si = r →
  r = Ret None ∨ (∃ b out, r = Ret (Some (b :: out)) ∧ hex_pair b = [c; d] ∧ uuid_loop n src (si' + 2) = Ret (Some out)) ∨
  (is_ret r = false ∧ uuid_loop n src (si' + 2) = r).
Proof.
  intros Hs Hc Hd <-. cbn [uuid_loop]. rewrite Hs, Hc. cbn [or_panic]. rewrite res_bind_ret.
  destruct (uuidHexNibble c) as [hi|] eqn:Eh; [|by left]. rewrite Hd. cbn [or_panic]. rewrite res_bind_ret.
  destruct (uuidHexNibble d) as [lo|] eqn:El; [|by left].
  destruct (uuid_loop n src (si' + 2)) as [[l|]| |]; cbn; [right; left|by left|by right; right..].
  eexists _, _. split_and!; [done| |done]. by apply hex_pair_pack.
Qed.

(** Follow one round of a run with a known result; positions stay literals. *)
Ltac uuid_step H :=
  eapply uuid_round in H; [|reflexivity..];
  let b := fresh "b" in let out := fresh "out" in let Hp := fresh "Hp" in let E := fresh "E" in
  destruct H as [H|[(b & out & E & Hp & H)|[E H]]]; try discriminate; try (injection E as ->);
  match type of H with uuid_loop ?n ?s ?i = ?r => let v := eval vm_compute in i in change (uuid_loop n s v = r) in H end.

Lemma uuid_text_app dst src i : uuid_text dst src i = dst ++ uuid_text [] src i.
Proof.
  revert dst i. induction src as [|b src IH]; intros dst i; cbn [uuid_text]; [by rewrite app_nil_r|].
  rewrite IH, (IH (appendUUIDHex _ b)). unfold appendUUIDHex. destruct (_ || _); by rewrite <- ?app_assoc.
Qed.

Lemma uuid_text_cons b src i :
  uuid_text [] (b :: src) i =
    (if (i =? 4) || (i =? 6) || (i =? 8) || (i =? 10) then [x2d] else []) ++ hex_pair b ++ uuid_text [] src (i + 1).
Proof. cbn [uuid_text]. rewrite uuid_text_app. unfold appendUUIDHex. destruct (_ || _); by rewrite <- ?app_assoc. Qed.

Lemma uuid_lossless src :
  match uuid_Encode src with
  | Ret (Some data) => zlen data = 16 ∧ ∀ n, uuid_Decode data n = Ret src
  | Ret None => True
  | _ => False
  end.
Proof.
  unfold uuid_Encode. destruct (Z.eqb_spec (zlen src) 36) as [Hl|]; [|done]. cbn [negb]. unfold zlen in Hl.
  do 36 (destruct src as [|? src]; [cbn in Hl; lia|]). destruct src; [|cbn in Hl; lia]. clear Hl.
  repeat match goal with |- context [znth ?l ?i] =>
    let v := eval vm_compute in (znth l i) in change (znth l i) with v; cbn [or_panic]; rewrite res_bind_ret end.
  repeat (case_bool_decide; [subst|done]). cbn [negb orb].
  match goal with |- match uuid_loop ?n ?s ?i with _ => _ end => destruct (uuid_loop n s i) as [[out|]| |] eqn:H end; [|done|..].
  2, 3: do 16 uuid_step H; done.
  do 16 uuid_step H. cbn in H. injection H as <-.
  split; [done|]. intros n. unfold uuid_Decode. change (negb _) with false. cbv iota. f_equal.
  rewrite !uuid_text_cons. repeat match goal with Hp : hex_pair ?b = _ |- _ => rewrite Hp; clear Hp end.
  reflexivity.
Qed.

(** ** ULIDs: regrouping of bits *)

Lemma ulidDecodeValue_symbol c v : ulidDecodeValue c = Some v → symbol ulidAlphabet v = c ∧ 0 ≤ v < 32.
Proof. destruct c; cbn; intros [= <-]; (split; [reflexivity|lia]). Qed.

Lemma keep_bits_mod acc bits : 0 ≤ bits → keep_bits acc bits = acc mod 2 ^ bits.
Proof.
  intros Hb. unfold keep_bits. destruct (Z.eqb_spec bits 0) as [->|]; [by rewrite Z.mod_1_r|].
  by rewrite Z.shiftl_1_l, land_mask.
Qed.

Lemma pow2_split a b : 0 ≤ b ≤ a → 2 ^ a = 2 ^ (a - b) * 2 ^ b ∧ 0 < 2 ^ (a - b) ∧ 0 < 2 ^ b.
Proof.
  intros. rewrite <- Z.pow_add_r by lia. split; [f_equal; lia|]. split; apply Z.pow_pos_nonneg; lia.
Qed.

(** Splitting the pending bits: the high part and what is kept. *)
Lemma split_bits acc bits n : 0 ≤ n ≤ bits → 0 ≤ acc < 2 ^ bits →
  acc = Z.shiftr acc (bits - n) * 2 ^ (bits - n) + keep_bits acc (bits - n) ∧
  0 ≤ Z.shiftr acc (bits - n) < 2 ^ n ∧ 0 ≤ keep_bits acc (bits - n) < 2 ^ (bits - n).
Proof.
  intros Hn Ha. rewrite keep_bits_mod, shiftr_div by lia. destruct (pow2_split bits n) as (E & P1 & P2); [lia|].
  pose proof (Z.mod_pos_bound acc (2 ^ (bits - n)) ltac:(lia)).
  pose proof (Z.div_mod acc (2 ^ (bits - n)) ltac:(lia)). pose proof (Z.div_pos acc (2 ^ (bits - n)) ltac:(lia) ltac:(lia)).
  pose proof (Z.div_lt_upper_bound acc (2 ^ (bits - n)) (2 ^ n) ltac:(lia) ltac:(lia)). lia.
Qed.

(** Shifting [k] new bits in. *)
Lemma push_bits acc bits k v : 0 ≤ bits → 0 ≤ k → bits + k ≤ 32 → 0 ≤ acc < 2 ^ bits → 0 ≤ v < 2 ^ k →
  Z.lor (u32 (Z.shiftl acc k)) v = acc * 2 ^ k + v ∧ 0 ≤ acc * 2 ^ k + v < 2 ^ (bits + k).
Proof.
  intros Hb Hk Hle Ha Hv. assert (H : 0 ≤ acc * 2 ^ k + v < 2 ^ (bits + k)) by (rewrite Z.pow_add_r by lia; nia).
  split; [|done]. pose proof (Z.pow_le_mono_r 2 (bits + k) 32 ltac:(lia) Hle).
  rewrite u32_id by (rewrite Z.shiftl_mul_pow2 by lia; lia). by apply lor_shiftl_add.
Qed.

Definition byte_num (l : list byte) : Z := num 256 (map bz l).

Lemma byte_num_snoc l b : byte_num (l ++ [b]) = byte_num l * 256 + bz b.
Proof. unfold byte_num. rewrite map_app. apply num_snoc. Qed.

Lemma ulid_drain_ok fuel acc bits out : (1 < fuel)%nat → 0 ≤ bits < 16 → 0 ≤ acc < 2 ^ bits → 8 * zlen out + bits ≤ 128 →
  ∃ acc' bits' out', ulid_drain fuel acc bits out = Ret (acc', bits', out') ∧ 0 ≤ bits' < 8 ∧ 0 ≤ acc' < 2 ^ bits' ∧
    8 * zlen out' + bits' = 8 * zlen out + bits ∧
    byte_num out' * 2 ^ bits' + acc' = byte_num out * 2 ^ bits + acc.
Proof.
  intros Hf Hb Ha Hl. destruct fuel as [|[|f]]; [lia..|]. cbn [ulid_drain]. destruct (Z.leb_spec 8 bits) as [H8|H8].
  - destruct (Z.leb_spec 16 (zlen out)); [lia|]. destruct (Z.leb_spec 8 (bits - 8)); [lia|].
    destruct (split_bits acc bits 8) as (E & Hs & Hk); [lia..|]. eexists _, _, _. split; [done|].
    rewrite zlen_snoc, byte_num_snoc, bz_zb, (Z.mod_small (Z.shiftr acc (bits - 8))) by lia.
    destruct (pow2_split bits 8) as (E2 & _ & _); [lia|]. change (2 ^ 8) with 256 in E2.
    split_and!; lia.
  - eexists _, _, _. split_and!; [done|lia..].
Qed.

Lemma ulid_encode_ok src : ∀ acc bits out, 0 ≤ bits < 8 → 0 ≤ acc < 2 ^ bits → 8 * zlen out + bits + 5 * zlen src ≤ 128 →
  match ulid_encode_loop src acc bits out with
  | Ret None => True
  | Ret (Some (bits', out')) => ∃ vs acc', map (symbol ulidAlphabet) vs = src ∧ in_base 32 vs ∧ 0 ≤ acc' < 2 ^ bits' ∧
      byte_num out' * 2 ^ bits' + acc' = (byte_num out * 2 ^ bits + acc) * 32 ^ zlen vs + num 32 vs
  | _ => False
  end.
Proof.
  induction src as [|c src IH]; intros acc bits out Hb Ha Hl; cbn [ulid_encode_loop].
  - exists [], acc. split_and!; try done; [constructor|lia..|]. rewrite zlen_nil. cbn [num foldl]. lia.
  - destruct (ulidDecodeValue c) as [v|] eqn:Hv; [|done]. apply ulidDecodeValue_symbol in Hv as [Hc Hv].
    rewrite zlen_cons in Hl. pose proof (zlen_nonneg src).
    destruct (push_bits acc bits 5 v) as [-> Hp]; [lia..|].
    destruct (ulid_drain_ok (Z.to_nat (bits + 5)) (acc * 2 ^ 5 + v) (bits + 5) out) as (acc' & bits' & out' & -> & Hb' & Ha' & Hl' & E); [lia..|].
    rewrite res_bind_ret. cbv beta iota. specialize (IH acc' bits' out' Hb' Ha' ltac:(lia)).
    destruct (ulid_encode_loop src acc' bits' out') as [[[bits2 out2]|]| |]; try done.
    destruct IH as (vs & acc2 & <- & Hin & Ha2 & E2). exists (v :: vs), acc2. split_and!; try done; try lia.
    + cbn [map]. by rewrite Hc.
    + by constructor.
    + rewrite E2, E, num_cons, zlen_cons, (Z.pow_add_r 2 bits 5), Z.pow_add_r by (pose proof (zlen_nonneg vs); lia).
      change (2 ^ 5) with 32. change (32 ^ 1) with 32. lia.
Qed.

Lemma ulid_emit_ok fuel : ∀ acc bits vs, 0 ≤ bits ≤ Z.of_nat fuel → 0 ≤ acc < 2 ^ bits → in_base 32 vs →
  ∃ acc' bits' vs', ulid_emit fuel acc bits (map (symbol ulidAlphabet) vs) = (acc', bits', map (symbol ulidAlphabet) vs') ∧
    0 ≤ bits' < 5 ∧ 0 ≤ acc' < 2 ^ bits' ∧ in_base 32 vs' ∧ 5 * zlen vs' + bits' = 5 * zlen vs + bits ∧
    num 32 vs' * 2 ^ bits' + acc' = num 32 vs * 2 ^ bits + acc.
Proof.
  induction fuel as [|f IH]; intros acc bits vs Hb Ha Hin; cbn [ulid_emit].
  - eexists _, _, vs. split_and!; try done; lia.
  - destruct (Z.leb_spec 5 bits); [|eexists _, _, vs; split_and!; try done; lia].
    destruct (split_bits acc bits 5) as (E & Hs & Hk); [lia..|]. destruct (pow2_split bits 5) as (E2 & _ & _); [lia|].
    change (2 ^ 5) with 32 in *. change 31 with (2 ^ 5 - 1). rewrite land_mask, (Z.mod_small (Z.shiftr acc (bits - 5))) by lia.
    change [symbol ulidAlphabet (Z.shiftr acc (bits - 5))] with (map (symbol ulidAlphabet) [Z.shiftr acc (bits - 5)]).
    rewrite <- map_app. destruct (IH (keep_bits acc (bits - 5)) (bits - 5) (vs ++ [Z.shiftr acc (bits - 5)]))
      as (acc' & bits' & vs' & -> & Hb' & Ha' & Hin' & Hl' & E'); [lia|lia|by apply in_base_snoc|].
    exists acc', bits', vs'. rewrite zlen_snoc, num_snoc in *. split_and!; try done; try lia.
Qed.

Lemma ulid_append_ok src : ∀ acc bits vs, 0 ≤ bits < 5 → 0 ≤ acc < 2 ^ bits → in_base 32 vs →
  ∃ acc' bits' vs', ulid_append_loop src acc bits (map (symbol ulidAlphabet) vs) = map (symbol ulidAlphabet) vs' ∧
    0 ≤ bits' < 5 ∧ 0 ≤ acc' < 2 ^ bits' ∧ in_base 32 vs' ∧ 5 * zlen vs' + bits' = 5 * zlen vs + bits + 8 * zlen src ∧
    num 32 vs' * 2 ^ bits' + acc' = (num 32 vs * 2 ^ bits + acc) * 256 ^ zlen src + byte_num src.
Proof.
  induction src as [|b src IH]; intros acc bits vs Hb Ha Hin; cbn [ulid_append_loop].
  - exists acc, bits, vs. unfold byte_num. cbn [map num foldl]. change (zlen (@nil byte)) with 0. split_and!; try done; lia.
  - pose proof (bz_range b). pose proof (zlen_nonneg src). destruct (push_bits acc bits 8 (bz b)) as [-> Hp]; [lia..|].
    destruct (ulid_emit_ok (Z.to_nat (bits + 8)) (acc * 2 ^ 8 + bz b) (bits + 8) vs) as (acc1 & bits1 & vs1 & -> & Hb1 & Ha1 & Hin1 & Hl1 & E1);
      [lia..|done|]. destruct (IH acc1 bits1 vs1 Hb1 Ha1 Hin1) as (acc2 & bits2 & vs2 & -> & Hb2 & Ha2 & Hin2 & Hl2 & E2).
    exists acc2, bits2, vs2. rewrite zlen_cons. split_and!; try done; try lia.
    rewrite E2, E1. unfold byte_num. cbn [map]. rewrite num_cons. unfold zlen. rewrite length_map. fold (zlen src).
    rewrite (Z.pow_add_r 2 bits 8), Z.pow_add_r by lia. change (2 ^ 8) with 256. change (256 ^ 1) with 256. lia.
Qed.

Lemma zlen_map {A B} (f : A → B) l : zlen (map f l) = zlen l.
Proof. unfold zlen. by rewrite length_map. Qed.

Lemma ulid_Decode_ok data n : zlen data = 16 → ∃ vs, ulid_Decode data n = Ret (map (symbol ulidAlphabet) vs) ∧
  in_base 32 vs ∧ zlen vs = 26 ∧ num 32 vs = byte_num data.
Proof.
  intros Hl. unfold ulid_Decode, appendULIDEncoded. rewrite Hl. change (negb (16 =? 16)) with false. cbv iota.
  destruct (ulid_append_ok data 0 2 []) as (acc & bits & vs & E & Hb & Ha & Hin & Hlen & Hn); [lia..|constructor|].
  change (map (symbol ulidAlphabet) []) with (@nil byte) in E. rewrite E, zlen_map. rewrite Hl in Hlen.
  change (zlen (@nil Z)) with 0 in Hlen.
  assert (bits = 0) as -> by lia. assert (zlen vs = 26) as -> by lia. exists vs. change (2 ^ 0) with 1 in *.
  split_and!; try done; [lia|]. rewrite Hl in Hn. cbn [num foldl] in Hn. lia.
Qed.

Lemma ulid_lossless src :
  match ulid_Encode src with
  | Ret (Some data) => zlen data = 16 ∧ ∀ n, ulid_Decode data n = Ret src
  | Ret None => True
  | _ => False
  end.
Proof.
  unfold ulid_Encode. destruct (Z.eqb_spec (zlen src) 26) as [Hl|]; [|done]. cbn [negb].
  destruct src as [|c src]; [done|]. rewrite zlen_cons in Hl. destruct (ulidDecodeValue c) as [first|] eqn:Hv; [|done].
  apply ulidDecodeValue_symbol in Hv as [Hc Hv]. destruct (Z.ltb_spec 7 first); [done|].
  pose proof (ulid_encode_ok src first 3 [] ltac:(lia) ltac:(lia)) as H0. change (zlen (@nil byte)) with 0 in H0. specialize (H0 ltac:(lia)).
  destruct (ulid_encode_loop src first 3 []) as [[[bits out]|]| |]; try done. rewrite res_bind_ret. cbv beta iota.
  destruct (Z.eqb_spec (zlen out) 16) as [Ho|]; [|done]. destruct (Z.eqb_spec bits 0) as [->|]; [|done]. cbn [negb orb].
  split; [done|]. intros n. destruct H0 as (vs & acc & <- & Hin & Ha & E). rewrite zlen_map in Hl. change (2 ^ 0) with 1 in *.
  destruct (ulid_Decode_ok out n Ho) as (ws & -> & Hin' & Hlen & En). f_equal. rewrite <- Hc.
  change (symbol ulidAlphabet first :: map (symbol ulidAlphabet) vs) with (map (symbol ulidAlphabet) (first :: vs)). f_equal.
  apply (num_inj 32); [lia|done|constructor; [lia|done]|rewrite zlen_cons; lia|].
  rewrite num_cons, En. unfold byte_num in E at 2. cbn [map num foldl] in E. lia.
Qed.
