(* ===== verification/Ident.v ===== *)
(** * Identifier codecs

    Model of internal/codec/identifier.go: hexadecimal text with an optional 0x
    prefix and any mix of cases, base58 public keys and large decimal integers,
    with the radix conversions over 32-bit limbs that the last two share. *)
From S2P Require Import Prelude Numerals Codec.
Set Default Proof Using "Type".

Definition Hex : Z := 13.
Definition Base58 : Z := 14.
Definition BigDecimal : Z := 15.

Definition hexMinDigits : Z := 32.
Definition hexMaxDigits : Z := 4096.
Definition bigDecimalMinLen : Z := 20.
Definition bigDecimalMaxLen : Z := 78.
Definition bigDecimalMaxBit : Z := 256.
Definition hexFlagPrefix : Z := 1.
Definition hexCaseShift : Z := 1.
Definition hexCaseMask : Z := Z.shiftl 3 hexCaseShift.
Definition hexCaseLower : Z := 0.
Definition hexCaseUpper : Z := 1.
Definition hexCaseMixed : Z := 2.
Definition hexKnownFlags : Z := Z.lor hexFlagPrefix hexCaseMask.
Definition base58Alphabet : list byte := text "123456789ABCDEFGHJKLMNPQRSTUVWXYZabcdefghijkmnopqrstuvwxyz".

Definition char_in (lo hi : Z) (b : byte) : bool := (lo <=? bz b) && (bz b <=? hi).

(** [c >= '0' && c <= '9'] and the like. *)
Definition is_09 : byte → bool := char_in 48 57.
Definition is_az : byte → bool := char_in 97 122.
Definition is_AZ : byte → bool := char_in 65 90.
Definition is_af : byte → bool := char_in 97 102.
Definition is_AF : byte → bool := char_in 65 70.

Definition allDigits (src : list byte) : bool := forallb is_09 src.
Definition alnum (c : byte) : bool := is_09 c || is_az c || is_AZ c.

Definition LooksLikeIdentifier (src : list byte) : res bool :=
  let n := zlen src in
  if (n <? bigDecimalMinLen) || (bigDecimalMaxLen <? n) then Ret false else
  a ← or_panic (znth src 0) oob;
  b ← or_panic (znth src (n / 2)) oob;
  c ← or_panic (znth src (n - 1)) oob;
  Ret (alnum a && alnum b && alnum c).

(** ** Hexadecimal *)

(** The value of a digit and whether it is an upper-case letter. *)
Definition hexValue (b : byte) : option (Z * bool) :=
  if is_09 b then Some (bz b - 48, false)
  else if is_af b then Some (bz b - 97 + 10, false)
  else if is_AF b then Some (bz b - 65 + 10, true)
  else None.

(** The digits have even length. *)
Fixpoint hex_pairs (digits out : list byte) (sawUpper sawLower : bool) : option (list byte * bool * bool) :=
  match digits with
  | c :: d :: rest =>
      match hexValue c with
      | None => None
      | Some (hi, hiUpper) =>
          match hexValue d with
          | None => None
          | Some (lo, loUpper) =>
              hex_pairs rest (out ++ [zb (Z.lor (Z.shiftl hi 4) lo)]) (sawUpper || hiUpper || loUpper)
                (sawLower || (negb hiUpper && is_af c) || (negb loUpper && is_af d))
          end
      end
  | _ => Some (out, sawUpper, sawLower)
  end.

Fixpoint hex_mask_loop (digits : list byte) (i : nat) (mask : list byte) : list byte :=
  match digits with
  | [] => mask
  | c :: rest =>
      let mask :=
        if is_AF c then alter (fun b => zb (Z.lor (bz b) (Z.shiftl 1 (Z.of_nat (i mod 8))))) (i / 8)%nat mask
        else mask in
      hex_mask_loop rest (S i) mask
  end.

Definition hex_mask (digits : list byte) : list byte :=
  hex_mask_loop digits 0 (replicate (Z.to_nat ((zlen digits + 7) / 8)) x00).

(** The prefix flag and the digits after it. *)
Definition hex_split (src : list byte) : Z * list byte :=
  match src with
  | a :: b :: rest => if bool_decide (a = x30) && bool_decide (b = x78) then (hexFlagPrefix, rest) else (0, src)
  | _ => (0, src)
  end.

Definition hex_Encode (src : list byte) : option (list byte) :=
  let '(flags, digits) := hex_split src in
  if (zlen digits <? hexMinDigits) || (hexMaxDigits <? zlen digits) || negb (zlen digits mod 2 =? 0) then None else
  match hex_pairs digits [] false false with
  | None => None
  | Some (out, sawUpper, sawLower) =>
      if sawUpper && sawLower then
        Some (zb (Z.lor flags (Z.shiftl hexCaseMixed hexCaseShift)) :: out ++ hex_mask digits)
      else if sawUpper then Some (zb (Z.lor flags (Z.shiftl hexCaseUpper hexCaseShift)) :: out)
      else Some (zb flags :: out)
  end.

Definition hexUpperDigits : list byte := text "0123456789ABCDEF".

(** Whether the digit at position [pos] is printed in upper case. *)
Definition hex_upper (caseMode : Z) (mask : list byte) (pos : Z) : res bool :=
  if caseMode =? hexCaseUpper then Ret true
  else if caseMode =? hexCaseMixed then
    m ← or_panic (znth mask (pos / 8)) oob;
    Ret (negb (Z.land (bz m) (Z.shiftl 1 (pos mod 8)) =? 0))
  else Ret false.

Definition hex_digit (caseMode : Z) (mask : list byte) (pos nib : Z) : res byte :=
  upper ← hex_upper caseMode mask pos;
  Ret (symbol (if (upper : bool) then hexUpperDigits else hexDigits) nib).

Fixpoint hex_digits_loop (dst body : list byte) (caseMode : Z) (mask : list byte) (pos : Z) : res (list byte) :=
  match body with
  | [] => Ret dst
  | b :: body =>
      hi ← hex_digit caseMode mask pos (Z.shiftr (bz b) 4);
      lo ← hex_digit caseMode mask (pos + 1) (Z.land (bz b) 15);
      hex_digits_loop (dst ++ [hi; lo]) body caseMode mask (pos + 2)
  end.

Definition appendHexDigits (dst body : list byte) (flags : Z) (mask : list byte) : res (list byte) :=
  hex_digits_loop dst body (Z.shiftr (Z.land flags hexCaseMask) hexCaseShift) mask 0.

Definition hex_DecodeInto (src : list byte) (rawLength : Z) : res (list byte) :=
  match src with
  | [] => Err "invalid hex payload"
  | f :: body =>
      let flags := bz f in
      if negb (Z.ldiff flags hexKnownFlags =? 0) then Err "unknown hex flags" else
      let caseMode := Z.shiftr (Z.land flags hexCaseMask) hexCaseShift in
      if hexCaseMixed <? caseMode then Err "unknown hex case mode" else
      let prefixed := negb (Z.land flags hexFlagPrefix =? 0) in
      let digits := if prefixed then rawLength - 2 else rawLength in
      if (digits <? hexMinDigits) || (hexMaxDigits <? digits) || negb (Z.rem digits 2 =? 0) then Err "invalid hex length" else
      let want := digits / 2 in
      let dst := if prefixed then [x30; x78] else [] in
      if caseMode =? hexCaseMixed then
        let maskLen := (digits + 7) / 8 in
        if negb (zlen body =? want + maskLen) then Err "invalid hex payload length"
        else appendHexDigits dst (take (Z.to_nat want) body) flags (drop (Z.to_nat want) body)
      else if negb (zlen body =? want) then Err "invalid hex payload length"
      else appendHexDigits dst body flags []
  end.

Definition hex_Decode (src : list byte) (rawLength : Z) : res (list byte) := hex_DecodeInto src rawLength.

(** ** Radix conversion *)

(** A chunk of digits: its value and the power of the radix it spans. *)
Fixpoint chunk_value (radix : Z) (digit : byte → Z) (s : list byte) (val mult : Z) : option (Z * Z) :=
  match s with
  | [] => Some (val, mult)
  | c :: s =>
      let d := digit c in
      if d <? 0 then None
      else chunk_value radix digit s (u64 (val * radix + u64 d)) (u64 (mult * radix))
  end.

(** [limbs = limbs*mult + carry], little-endian limbs, and the carry out. *)
Fixpoint limbs_mul_add (limbs : list Z) (mult carry : Z) : list Z * Z :=
  match limbs with
  | [] => ([], carry)
  | l :: ls =>
      let cur := u64 (u64 (l * mult) + carry) in
      let '(ls, carry) := limbs_mul_add ls mult (Z.shiftr cur 32) in
      (u32 cur :: ls, carry)
  end.

Fixpoint push_carry (fuel : nat) (limbs : list Z) (carry : Z) : list Z :=
  match fuel with
  | O => limbs
  | S f => if carry =? 0 then limbs else push_carry f (limbs ++ [u32 carry]) (Z.shiftr carry 32)
  end.

Fixpoint radix_decode_loop (fuel : nat) (radix : Z) (chunk : nat) (digit : byte → Z) (s : list byte) (limbs : list Z)
    : option (list Z) :=
  match fuel with
  | O => Some limbs
  | S f =>
      match s with
      | [] => Some limbs
      | _ =>
          match chunk_value radix digit (take chunk s) 0 1 with
          | None => None
          | Some (val, mult) =>
              let '(limbs, carry) := limbs_mul_add limbs mult val in
              radix_decode_loop f radix chunk digit (drop chunk s) (push_carry 2 limbs carry)
          end
      end
  end.

(** Big-endian bytes of a limb. *)
Definition limb_bytes (l : Z) : list byte :=
  [zb (Z.shiftr l 24); zb (Z.shiftr l 16); zb (Z.shiftr l 8); zb l].

Fixpoint skip_zeros (l : list byte) : list byte :=
  match l with
  | b :: rest => if bool_decide (b = x00) then skip_zeros rest else l
  | [] => []
  end.

Definition radixDecode (s : list byte) (radix : Z) (chunk : nat) (digit : byte → Z) : option (list byte) :=
  match radix_decode_loop (length s) radix chunk digit s [] with
  | None => None
  | Some limbs => Some (skip_zeros (concat (map limb_bytes (rev limbs))))
  end.

(** Big-endian limbs: a short first limb, then four bytes each. *)
Fixpoint be_word (v : Z) (l : list byte) : Z :=
  match l with [] => v | b :: l => be_word (Z.lor (u32 (Z.shiftl v 8)) (bz b)) l end.

Fixpoint be_limbs (l : list byte) : list Z :=
  match l with
  | a :: b :: c :: d :: rest =>
      Z.lor (Z.lor (Z.lor (Z.shiftl (bz a) 24) (Z.shiftl (bz b) 16)) (Z.shiftl (bz c) 8)) (bz d) :: be_limbs rest
  | _ => []
  end.

Definition src_limbs (src : list byte) : list Z :=
  let first := Nat.modulo (length src) 4 in
  (if (first =? 0)%nat then [] else [be_word 0 (take first src)]) ++ be_limbs (drop first src).

Fixpoint strip_limbs (limbs : list Z) : list Z :=
  match limbs with
  | l :: rest => if l =? 0 then strip_limbs rest else limbs
  | [] => []
  end.

(** Long division of the limbs; the quotient and the remainder. *)
Fixpoint divide (limbs : list Z) (chunkDiv rem : Z) : list Z * Z :=
  match limbs with
  | [] => ([], rem)
  | l :: ls =>
      let cur := Z.lor (u64 (Z.shiftl rem 32)) l in
      let '(ls, rem) := divide ls chunkDiv (cur mod chunkDiv) in
      (u32 (cur / chunkDiv) :: ls, rem)
  end.

(** The digits of a remainder, least significant first. *)
Fixpoint emit_digits (chunk : nat) (rem radix : Z) (symbols : list byte) : list byte :=
  match chunk with
  | O => []
  | S k => symbol symbols (rem mod radix) :: emit_digits k (rem / radix) radix symbols
  end.

Fixpoint radix_append_loop (fuel : nat) (limbs : list Z) (radix : Z) (chunk : nat) (chunkDiv : Z)
    (symbols out : list byte) : list byte :=
  match fuel with
  | O => out
  | S f =>
      match limbs with
      | [] => out
      | _ =>
          let '(limbs, rem) := divide limbs chunkDiv 0 in
          radix_append_loop f (strip_limbs limbs) radix chunk chunkDiv symbols
            (out ++ emit_digits chunk rem radix symbols)
      end
  end.

(** Drop the high zero digits of a least-significant-first list; the list is
    scanned from its end. *)
Fixpoint drop_high (zero : byte) (rev_out : list byte) : list byte :=
  match rev_out with
  | b :: rest => if bool_decide (b = zero) then drop_high zero rest else rev_out
  | [] => []
  end.

(** Every pass divides by at least two, so the bits of the limbs bound the
    number of passes. *)
Definition radixAppend (dst src : list byte) (radix : Z) (chunk : nat) (chunkDiv : Z) (symbols : list byte) : list byte :=
  let limbs := strip_limbs (src_limbs src) in
  let out := radix_append_loop (32 * length limbs) limbs radix chunk chunkDiv symbols [] in
  dst ++ drop_high (symbol symbols 0) (rev out).

Definition radixEncode (src : list byte) (radix : Z) (chunk : nat) (chunkDiv : Z) (symbols : list byte) : list byte :=
  radixAppend [] src radix chunk chunkDiv symbols.

(** ** Base58 *)

(** [base58Reverse]: the position of a character in the alphabet, or -1; a later
    entry of the table overwrites an earlier one. *)
Fixpoint reverse_table (alphabet : list byte) (i : Z) (found : Z) (c : byte) : Z :=
  match alphabet with
  | [] => found
  | a :: rest => reverse_table rest (i + 1) (if bool_decide (a = c) then i else found) c
  end.
Definition base58Reverse (c : byte) : Z := reverse_table base58Alphabet 0 (-1) c.
Definition base58Digit (c : byte) : Z := base58Reverse c.

Definition base58Size (n : Z) : bool := n =? 32.
Definition base58Chunk : Z := 58 * 58 * 58 * 58 * 58.

(** The number of leading occurrences of a byte. *)
Fixpoint leading (c : byte) (l : list byte) : nat :=
  match l with b :: l => if bool_decide (b = c) then S (leading c l) else O | [] => O end.

Definition base58Decode (src : list byte) : option (list byte) :=
  let zeros := leading x31 src in
  match radixDecode (drop zeros src) 58 5 base58Digit with
  | None => None
  | Some body => Some (replicate zeros x00 ++ body)
  end.

Definition base58Encode (src : list byte) : list byte :=
  let zeros := leading x00 src in
  replicate zeros x31 ++ radixEncode (drop zeros src) 58 5 base58Chunk base58Alphabet.

Definition base58_Encode (src : list byte) : option (list byte) :=
  if (zlen src <? 32) || (44 <? zlen src) then None else
  match base58Decode src with
  | None => None
  | Some out => if base58Size (zlen out) then Some out else None
  end.

Definition base58_DecodeInto (src : list byte) (rawLength : Z) : res (list byte) :=
  if negb (base58Size (zlen src)) then Err "invalid base58 payload" else
  let zeros := leading x00 src in
  let dst := radixAppend (replicate zeros x31) (drop zeros src) 58 5 base58Chunk base58Alphabet in
  if negb (zlen dst =? rawLength) then Err "base58 length mismatch" else Ret dst.

Definition base58_Decode (src : list byte) (rawLength : Z) : res (list byte) := base58_DecodeInto src rawLength.

(** ** Large decimals *)

Definition decimalDigit (c : byte) : Z := if is_09 c then bz c - 48 else -1.
Definition decimalSymbols : list byte := text "0123456789".

Definition bigDecimal_Encode (src : list byte) : option (list byte) :=
  if (zlen src <? bigDecimalMinLen) || (bigDecimalMaxLen <? zlen src) || bool_decide (head src = Some x30) then None else
  match radixDecode src 10 9 decimalDigit with
  | None => None
  | Some out => if (zlen out <? 9) || (bigDecimalMaxBit / 8 <? zlen out) then None else Some out
  end.

Definition bigDecimal_DecodeInto (src : list byte) (rawLength : Z) : res (list byte) :=
  if (zlen src <? 9) || (bigDecimalMaxBit / 8 <? zlen src) || bool_decide (head src = Some x00)
  then Err "invalid big decimal payload" else
  let dst := radixAppend [] src 10 9 1000000000 decimalSymbols in
  if negb (zlen dst =? rawLength) then Err "big decimal length mismatch" else Ret dst.

Definition bigDecimal_Decode (src : list byte) (rawLength : Z) : res (list byte) := bigDecimal_DecodeInto src rawLength.
