(* ===== verification/IdentFacts.v ===== *)
(** * The identifier codecs are lossless

    Radix conversion over 32-bit limbs computes the number its digits spell, in
    both directions and without overflow; from it, base58 and large decimal
    texts are rebuilt exactly, and so is hexadecimal text of any case mix. *)
From S2P Require Import Prelude Numerals Codec CodecFacts KeyPack KeyPackFacts Ident.
Set Default Proof Using "Type".

(** ** Limbs *)

(** The number little-endian limbs hold. *)
Definition limbs_num (limbs : list Z) : Z := num (2 ^ 32) (rev limbs).

Lemma limbs_num_cons l ls : limbs_num (l :: ls) = l + 2 ^ 32 * limbs_num ls.
Proof. unfold limbs_num. cbn [rev]. rewrite num_snoc. lia. Qed.

Lemma limbs_num_snoc ls c : limbs_num (ls ++ [c]) = limbs_num ls + 2 ^ (32 * zlen ls) * c.
Proof.
  unfold limbs_num. rewrite rev_app_distr. cbn [rev app]. rewrite num_cons.
  assert (zlen (rev ls) = zlen ls) as -> by (unfold zlen; by rewrite length_rev).
  rewrite Z.pow_mul_r by (pose proof (zlen_nonneg ls); lia). lia.
Qed.

Lemma u64_split x : 0 ≤ x < 2 ^ 64 → x = u32 x + 2 ^ 32 * Z.shiftr x 32 ∧ 0 ≤ u32 x < 2 ^ 32 ∧ 0 ≤ Z.shiftr x 32 < 2 ^ 32.
Proof. intros Hx. rewrite shiftr_div by lia. unfold u32. dlia. Qed.

Lemma limbs_mul_add_ok limbs mult : 0 ≤ mult ≤ 2 ^ 32 → ∀ carry, 0 ≤ carry < 2 ^ 32 → in_base (2 ^ 32) limbs →
  ∃ ls c, limbs_mul_add limbs mult carry = (ls, c) ∧ in_base (2 ^ 32) ls ∧ zlen ls = zlen limbs ∧ 0 ≤ c < 2 ^ 32 ∧
    limbs_num ls + 2 ^ (32 * zlen limbs) * c = limbs_num limbs * mult + carry.
Proof.
  intros Hm. induction limbs as [|l limbs IH]; intros carry Hc Hin; cbn [limbs_mul_add].
  - exists [], carry. change (limbs_num []) with 0. change (2 ^ (32 * zlen (@nil Z))) with 1. split_and!; [done|constructor|lia..].
  - inversion_clear Hin as [|? ? Hl Hin']. assert (0 ≤ l * mult + carry < 2 ^ 64) by nia.
    rewrite (u64_id (l * mult)), u64_id by nia. destruct (u64_split (l * mult + carry)) as (E & Hlo & Hhi); [done|].
    destruct (IH (Z.shiftr (l * mult + carry) 32) Hhi Hin') as (ls & c & -> & Hls & Hlen & Hc' & En).
    eexists _, c. split; [done|]. rewrite !zlen_cons. split_and!; try done; try lia; [by constructor|].
    rewrite !limbs_num_cons. replace (32 * (1 + zlen limbs)) with (32 + 32 * zlen limbs) by lia.
    rewrite Z.pow_add_r by (pose proof (zlen_nonneg limbs); lia). nia.
Qed.

Lemma push_carry_ok limbs c : 0 ≤ c < 2 ^ 32 → in_base (2 ^ 32) limbs →
  in_base (2 ^ 32) (push_carry 2 limbs c) ∧ limbs_num (push_carry 2 limbs c) = limbs_num limbs + 2 ^ (32 * zlen limbs) * c.
Proof.
  intros Hc Hin. cbn [push_carry]. destruct (Z.eqb_spec c 0) as [->|]; [split; [done|lia]|].
  rewrite shiftr_div, (Z.div_small c (2 ^ 32)), u32_id by lia. change (0 =? 0) with true. cbv iota.
  split; [by apply in_base_snoc|apply limbs_num_snoc].
Qed.

(** ** Bytes of limbs *)

Lemma byte_num_app a b : byte_num (a ++ b) = byte_num a * 256 ^ zlen b + byte_num b.
Proof. unfold byte_num. by rewrite map_app, num_app, zlen_map. Qed.

Lemma byte_num_range l : 0 ≤ byte_num l < 256 ^ zlen l.
Proof.
  unfold byte_num. rewrite <- (zlen_map bz l). apply num_range; [lia|].
  apply Forall_forall. intros z (b & -> & _)%list_elem_of_fmap. apply bz_range.
Qed.

Lemma limb_bytes_num l : 0 ≤ l < 2 ^ 32 → byte_num (limb_bytes l) = l.
Proof. intros Hl. unfold byte_num, limb_bytes. cbn [map num foldl]. rewrite !bz_zb, !shiftr_div by lia. dlia. Qed.

Lemma limbs_bytes_num ls : in_base (2 ^ 32) ls → byte_num (concat (map limb_bytes ls)) = num (2 ^ 32) ls.
Proof.
  induction ls as [|l ls IH] using rev_ind; [done|]. intros [Hls Hl]%Forall_app. apply Forall_inv in Hl. cbn beta in Hl.
  rewrite map_app, concat_app, byte_num_app, num_snoc, (IH Hls). cbn [map concat]. rewrite app_nil_r, limb_bytes_num by done. done.
Qed.

Lemma skip_zeros_num l : byte_num (skip_zeros l) = byte_num l ∧ head (skip_zeros l) ≠ Some x00.
Proof.
  induction l as [|b l [IH1 IH2]]; [done|]. cbn [skip_zeros]. case_bool_decide as Hb; [|split; [done|cbn; congruence]].
  subst b. split; [|done]. rewrite IH1. unfold byte_num. cbn [map]. rewrite num_cons. change (bz x00) with 0. lia.
Qed.

Lemma be_word_num l : ∀ v, 0 ≤ v → v * 256 ^ zlen l + byte_num l < 2 ^ 32 → be_word v l = v * 256 ^ zlen l + byte_num l.
Proof.
  induction l as [|b l IH]; intros v Hv Hlt; cbn [be_word].
  - unfold byte_num. cbn [map num foldl]. change (zlen (@nil byte)) with 0. lia.
  - unfold byte_num in *. cbn [map] in *. rewrite num_cons, zlen_map, zlen_cons, Z.pow_add_r, Z.pow_1_r in * by (pose proof (zlen_nonneg l); lia).
    fold (byte_num l) in *. pose proof (byte_num_range l). pose proof (bz_range b).
    assert (1 ≤ 256 ^ zlen l) by (assert (0 < 256 ^ zlen l) by (apply Z.pow_pos_nonneg; [lia|apply zlen_nonneg]); lia).
    assert (v * 256 + bz b < 2 ^ 32) by nia. rewrite u32_id by (rewrite Z.shiftl_mul_pow2 by lia; lia).
    rewrite lor_shiftl_add by lia. change (2 ^ 8) with 256. rewrite IH; lia.
Qed.

Lemma be_limbs_num k : ∀ l, length l = (4 * k)%nat → in_base (2 ^ 32) (be_limbs l) ∧ num (2 ^ 32) (be_limbs l) = byte_num l ∧
  length (be_limbs l) = k.
Proof.
  induction k as [|k IH]; intros l Hl.
  - destruct l; [|cbn in Hl; lia]. split_and!; [constructor|done..].
  - do 4 (destruct l as [|? l]; [cbn in Hl; lia|]). destruct (IH l) as (Hin & En & Hlen); [cbn in Hl; lia|]. cbn [be_limbs].
    pose proof (bz_range b). pose proof (bz_range b0). pose proof (bz_range b1). pose proof (bz_range b2).
    assert (E : Z.lor (Z.lor (Z.lor (Z.shiftl (bz b) 24) (Z.shiftl (bz b0) 16)) (Z.shiftl (bz b1) 8)) (bz b2)
                = ((bz b * 256 + bz b0) * 256 + bz b1) * 256 + bz b2).
    { replace (Z.shiftl (bz b) 24) with (Z.shiftl (bz b * 256) 16) by (rewrite !Z.shiftl_mul_pow2 by lia; lia).
      rewrite <- Z.shiftl_lor. replace (bz b * 256) with (Z.shiftl (bz b) 8) by (rewrite Z.shiftl_mul_pow2 by lia; lia).
      rewrite (lor_shiftl_add (bz b)) by lia. change (2 ^ 8) with 256.
      replace (Z.shiftl (bz b * 256 + bz b0) 16) with (Z.shiftl (Z.shiftl (bz b * 256 + bz b0) 8) 8) by (by rewrite Z.shiftl_shiftl by lia).
      rewrite <- Z.shiftl_lor, (lor_shiftl_add (bz b * 256 + bz b0)), lor_shiftl_add by lia. rewrite Z.shiftl_mul_pow2 by lia. lia. }
    rewrite E. split_and!; [constructor; [lia|done]| |cbn [length]; lia].
    rewrite num_cons, En. change (b :: b0 :: b1 :: b2 :: l) with ([b; b0; b1; b2] ++ l). rewrite byte_num_app.
    unfold zlen at 1. rewrite Hlen. assert (zlen l = 4 * Z.of_nat k) as -> by (unfold zlen; cbn in Hl; lia).
    rewrite Z.pow_mul_r by lia. change (256 ^ 4) with (2 ^ 32). replace (byte_num [b; b0; b1; b2]) with (((bz b * 256 + bz b0) * 256 + bz b1) * 256 + bz b2) by done. lia.
Qed.

Lemma src_limbs_num src : in_base (2 ^ 32) (src_limbs src) ∧ num (2 ^ 32) (src_limbs src) = byte_num src.
Proof.
  unfold src_limbs. set (first := Nat.modulo (length src) 4). pose proof (Nat.mod_upper_bound (length src) 4 ltac:(lia)) as Hf.
  pose proof (Nat.div_mod_eq (length src) 4) as Hdm. fold first in Hf, Hdm.
  destruct (be_limbs_num (length src / 4) (drop first src)) as (Hin & En & Hlen); [rewrite length_drop; lia|].
  destruct (Nat.eqb_spec first 0) as [H0|H0]; [rewrite H0 in *; by rewrite drop_0 in *|].
  assert (Ht : zlen (take first src) = Z.of_nat first) by (unfold zlen; rewrite length_take; lia).
  pose proof (byte_num_range (take first src)) as Hr. rewrite Ht in Hr.
  pose proof (Z.pow_le_mono_r 256 (Z.of_nat first) 3 ltac:(lia) ltac:(lia)). change (256 ^ 3) with 16777216 in *.
  rewrite be_word_num by (rewrite ?Ht; lia). rewrite Z.mul_0_l, Z.add_0_l. cbn [app].
  split; [constructor; [lia|done]|]. rewrite num_cons, En.
  transitivity (byte_num (take first src ++ drop first src)); [|by rewrite take_drop]. rewrite byte_num_app.
  unfold zlen. rewrite Hlen, length_drop. replace (Z.of_nat (length src - first)) with (4 * Z.of_nat (length src / 4)) by lia.
  by rewrite Z.pow_mul_r by lia.
Qed.

Lemma strip_limbs_num ls : in_base (2 ^ 32) ls → in_base (2 ^ 32) (strip_limbs ls) ∧
  num (2 ^ 32) (strip_limbs ls) = num (2 ^ 32) ls ∧ no_zero_head (strip_limbs ls) ∧ zlen (strip_limbs ls) ≤ zlen ls.
Proof.
  induction ls as [|l ls IH]; intros Hin; [done|]. inversion_clear Hin as [|? ? Hl Hin']. cbn [strip_limbs].
  rewrite zlen_cons. destruct (Z.eqb_spec l 0) as [->|].
  - destruct (IH Hin') as (H1 & H2 & H3 & H4). split_and!; try done; lia.
  - split_and!; [by constructor|done|unfold no_zero_head; cbn; congruence|rewrite zlen_cons; lia].
Qed.

(** ** From text to bytes *)

Section Radix.
Context (radix : Z) (chunk : nat) (digit : byte → Z).
Context (Hradix : 2 ≤ radix) (Hchunk : (0 < chunk)%nat) (Hfit : radix ^ Z.of_nat chunk ≤ 2 ^ 32).
Context (Hdigit : ∀ c, digit c < radix).

Lemma chunk_value_ok s : ∀ val mult, 0 ≤ val < mult → mult * radix ^ zlen s ≤ 2 ^ 32 →
  match chunk_value radix digit s val mult with
  | Some (v, m) => in_base radix (map digit s) ∧ v = val * radix ^ zlen s + num radix (map digit s) ∧ m = mult * radix ^ zlen s
  | None => True
  end.
Proof using All.
  induction s as [|c s IH]; intros val mult Hv Hm; cbn [chunk_value].
  - cbn [map num foldl]. change (zlen (@nil byte)) with 0. split_and!; [constructor|lia..].
  - destruct (Z.ltb_spec (digit c) 0); [done|]. pose proof (Hdigit c) as Hd. pose proof (zlen_nonneg s).
    rewrite zlen_cons, Z.pow_add_r, Z.pow_1_r in * by lia.
    assert (1 ≤ radix ^ zlen s) by (assert (0 < radix ^ zlen s) by (apply Z.pow_pos_nonneg; lia); lia).
    assert (mult * radix ≤ 2 ^ 32) by nia. rewrite (u64_id (digit c)), !u64_id by nia.
    specialize (IH (val * radix + digit c) (mult * radix) ltac:(nia) ltac:(nia)).
    destruct (chunk_value radix digit s _ _) as [[v m]|]; [|done]. destruct IH as (Hin & -> & ->).
    cbn [map]. rewrite num_cons, zlen_map. split_and!; [by constructor|lia..].
Qed.

Lemma radix_decode_loop_ok fuel : ∀ s limbs, (length s ≤ fuel)%nat → in_base (2 ^ 32) limbs →
  match radix_decode_loop fuel radix chunk digit s limbs with
  | Some ls => in_base radix (map digit s) ∧ in_base (2 ^ 32) ls ∧
      limbs_num ls = limbs_num limbs * radix ^ zlen s + num radix (map digit s)
  | None => True
  end.
Proof using All.
  induction fuel as [|f IH]; intros s limbs Hf Hin; cbn [radix_decode_loop].
  - destruct s; [|cbn in Hf; lia]. cbn [map num foldl]. change (zlen (@nil byte)) with 0. split_and!; [constructor|done|lia].
  - destruct (decide (s = [])) as [->|Hne].
    { cbn [map num foldl]. change (zlen (@nil byte)) with 0. split_and!; [constructor|done|lia]. }
    destruct s as [|c0 s0]; [done|]. set (s := c0 :: s0) in *.
    assert (Ht : 0 ≤ zlen (take chunk s) ≤ Z.of_nat chunk) by (unfold zlen; rewrite length_take; lia).
    pose proof (Z.pow_le_mono_r radix _ _ ltac:(lia) (proj2 Ht)).
    pose proof (chunk_value_ok (take chunk s) 0 1 ltac:(lia) ltac:(lia)) as Hcv.
    destruct (chunk_value radix digit (take chunk s) 0 1) as [[v m]|]; [|done]. destruct Hcv as (Hint & -> & ->).
    pose proof (num_range radix _ ltac:(lia) Hint) as Hn. rewrite zlen_map in Hn. rewrite Z.mul_0_l, Z.add_0_l, Z.mul_1_l.
    destruct (limbs_mul_add_ok limbs (radix ^ zlen (take chunk s)) ltac:(lia) (num radix (map digit (take chunk s))) ltac:(lia) Hin)
      as (ls & c & -> & Hls & Hlen & Hc & E). destruct (push_carry_ok ls c Hc Hls) as [Hp Ep].
    specialize (IH (drop chunk s) (push_carry 2 ls c)). rewrite length_drop in IH. specialize (IH ltac:(cbn in *; lia) Hp).
    destruct (radix_decode_loop f radix chunk digit (drop chunk s) _) as [rs|]; [|done]. destruct IH as (Hind & Hrs & ->).
    assert (map digit s = map digit (take chunk s) ++ map digit (drop chunk s)) as -> by (by rewrite <- map_app, take_drop).
    assert (zlen s = zlen (take chunk s) + zlen (drop chunk s)) as -> by (by rewrite <- zlen_app, take_drop).
    rewrite num_app, zlen_map, Z.pow_add_r by (pose proof (zlen_nonneg (drop chunk s)); lia).
    split_and!; [by apply Forall_app|done|]. rewrite Ep, Hlen, E. lia.
Qed.

Lemma radixDecode_ok s out : radixDecode s radix chunk digit = Some out →
  in_base radix (map digit s) ∧ byte_num out = num radix (map digit s) ∧ head out ≠ Some x00.
Proof using All.
  unfold radixDecode. pose proof (radix_decode_loop_ok (length s) s [] ltac:(lia) ltac:(constructor)) as H.
  destruct (radix_decode_loop _ _ _ _ _ _) as [ls|]; [|done]. destruct H as (Hin & Hls & E). intros [= <-].
  destruct (skip_zeros_num (concat (map limb_bytes (rev ls)))) as [-> Hh]. split_and!; try done.
  rewrite limbs_bytes_num by (by apply Forall_rev). fold (limbs_num ls). rewrite E. change (limbs_num []) with 0. lia.
Qed.
End Radix.

(** ** From bytes to text *)

Lemma divide_ok limbs d : 2 ≤ d ≤ 2 ^ 32 → ∀ rem, 0 ≤ rem < d → in_base (2 ^ 32) limbs →
  ∃ q r, divide limbs d rem = (q, r) ∧ in_base (2 ^ 32) q ∧ 0 ≤ r < d ∧ zlen q = zlen limbs ∧
    num (2 ^ 32) q * d + r = rem * (2 ^ 32) ^ zlen limbs + num (2 ^ 32) limbs.
Proof.
  intros Hd. induction limbs as [|l limbs IH]; intros rem Hrem Hin; cbn [divide].
  - exists [], rem. change (num (2 ^ 32) []) with 0. change ((2 ^ 32) ^ zlen (@nil Z)) with 1. split_and!; [done|constructor|lia..].
  - inversion_clear Hin as [|? ? Hl Hin']. rewrite u64_id by (rewrite Z.shiftl_mul_pow2 by lia; nia).
    rewrite lor_shiftl_add by lia. set (cur := rem * 2 ^ 32 + l).
    pose proof (Z.div_mod cur d ltac:(lia)) as Hdm. pose proof (Z.mod_pos_bound cur d ltac:(lia)) as Hmod.
    assert (0 ≤ cur / d < 2 ^ 32) by (split; [apply Z.div_pos|apply Z.div_lt_upper_bound]; subst cur; nia).
    destruct (IH (cur mod d) Hmod Hin') as (q & r & -> & Hq & Hr & Hlen & E). rewrite u32_id by done.
    eexists _, r. split; [done|]. rewrite !zlen_cons, Hlen, !num_cons, Hlen. split_and!; try lia; [by constructor|].
    rewrite Z.pow_add_r, Z.pow_1_r by (pose proof (zlen_nonneg limbs); lia). subst cur. nia.
Qed.

Section Print.
Context (radix : Z) (chunk : nat) (symbols : list byte).
Context (Hradix : 2 ≤ radix) (Hchunk : (0 < chunk)%nat) (Hfit : radix ^ Z.of_nat chunk ≤ 2 ^ 32).
Context (Hzero : ∀ d, 0 ≤ d < radix → symbol symbols d = symbol symbols 0 → d = 0).

Lemma emit_digits_ok k : ∀ rem, 0 ≤ rem < radix ^ Z.of_nat k →
  ∃ ds, emit_digits k rem radix symbols = map (symbol symbols) ds ∧ in_base radix ds ∧ zlen ds = Z.of_nat k ∧
    num radix (rev ds) = rem.
Proof using All.
  induction k as [|k IH]; intros rem Hr; cbn [emit_digits].
  - exists []. split_and!; [done|constructor|done|]. cbn in *. lia.
  - rewrite Nat2Z.inj_succ, Z.pow_succ_r in Hr by lia.
    destruct (IH (rem / radix)) as (ds & -> & Hin & Hlen & E); [split; [apply Z.div_pos|apply Z.div_lt_upper_bound]; lia|].
    exists (rem mod radix :: ds). pose proof (Z.mod_pos_bound rem radix ltac:(lia)). rewrite zlen_cons.
    split_and!; [done|by constructor|lia|]. cbn [rev]. rewrite num_snoc, E. pose proof (Z.div_mod rem radix ltac:(lia)). lia.
Qed.

Lemma radix_append_loop_ok fuel : ∀ limbs ds, in_base (2 ^ 32) limbs → no_zero_head limbs →
  num (2 ^ 32) limbs < 2 ^ Z.of_nat fuel → in_base radix ds →
  ∃ ds', radix_append_loop fuel limbs radix chunk (radix ^ Z.of_nat chunk) symbols (map (symbol symbols) ds) = map (symbol symbols) ds' ∧
    in_base radix ds' ∧ num radix (rev ds') = num (2 ^ 32) limbs * radix ^ zlen ds + num radix (rev ds).
Proof using All.
  assert (Hd : 2 ≤ radix ^ Z.of_nat chunk).
  { pose proof (Z.pow_le_mono_r radix 1 (Z.of_nat chunk) ltac:(lia) ltac:(lia)) as Hm. rewrite Z.pow_1_r in Hm. lia. }
  induction fuel as [|f IH]; intros limbs ds Hin Hz Hlt Hds; cbn [radix_append_loop].
  - pose proof (num_range (2 ^ 32) limbs ltac:(lia) Hin). assert (num (2 ^ 32) limbs = 0) as -> by (change (2 ^ Z.of_nat 0) with 1 in Hlt; lia). exists ds. by rewrite Z.mul_0_l.
  - destruct (decide (limbs = [])) as [->|Hne]; [exists ds; by change (num (2 ^ 32) []) with 0; rewrite Z.mul_0_l|].
    destruct limbs as [|l0 ls0]; [done|]. set (limbs := l0 :: ls0) in *.
    destruct (divide_ok limbs (radix ^ Z.of_nat chunk) ltac:(lia) 0 ltac:(lia) Hin) as (q & r & -> & Hq & Hr & Hlen & E).
    rewrite Z.mul_0_l, Z.add_0_l in E. destruct (emit_digits_ok chunk r Hr) as (es & -> & Hes & Hel & Ee).
    destruct (strip_limbs_num q Hq) as (Hs & Es & Hsz & _). rewrite <- map_app.
    pose proof (num_range (2 ^ 32) q ltac:(lia) Hq). rewrite Nat2Z.inj_succ, Z.pow_succ_r in Hlt by lia.
    destruct (IH (strip_limbs q) (ds ++ es) Hs Hsz ltac:(nia) ltac:(by apply Forall_app)) as (ds' & -> & Hin' & E').
    exists ds'. split_and!; try done. rewrite E', Es, zlen_app, Hel, rev_app_distr, num_app, Ee, Z.pow_add_r by (pose proof (zlen_nonneg ds); lia).
    assert (zlen (rev ds) = zlen ds) as -> by (unfold zlen; by rewrite length_rev). rewrite <- E. lia.
Qed.

Lemma drop_high_ok l : in_base radix l → ∃ l', drop_high (symbol symbols 0) (map (symbol symbols) l) = map (symbol symbols) l' ∧
  in_base radix l' ∧ num radix l' = num radix l ∧ no_zero_head l'.
Proof using All.
  induction l as [|d l IH]; intros Hin; [by exists []|]. inversion_clear Hin as [|? ? Hd Hin']. cbn [map drop_high].
  case_bool_decide as E; [apply Hzero in E; [subst d|done]; destruct (IH Hin') as (l' & ? & ? & Hn & ?)|].
  - exists l'. split_and!; done.
  - exists (d :: l). split_and!; [done|by constructor|done|]. intros [= ->]. by apply E.
Qed.

Lemma radixAppend_ok dst src : ∃ ds, radixAppend dst src radix chunk (radix ^ Z.of_nat chunk) symbols = dst ++ map (symbol symbols) ds ∧
  in_base radix ds ∧ num radix ds = byte_num src ∧ no_zero_head ds.
Proof using All.
  unfold radixAppend. destruct (src_limbs_num src) as [Hin En]. destruct (strip_limbs_num _ Hin) as (Hs & Es & Hz & _).
  set (limbs := strip_limbs (src_limbs src)) in *. pose proof (num_range (2 ^ 32) limbs ltac:(lia) Hs) as Hr.
  destruct (radix_append_loop_ok (32 * length limbs) limbs [] Hs Hz) as (ds & E & Hds & Ed); [|constructor|].
  { replace (Z.of_nat (32 * length limbs)) with (32 * zlen limbs) by (unfold zlen; lia).
    rewrite Z.pow_mul_r by (pose proof (zlen_nonneg limbs); lia). lia. }
  change (map (symbol symbols) []) with (@nil byte) in E. rewrite E, <- map_rev.
  destruct (drop_high_ok (rev ds)) as (l' & -> & Hl' & Hn & Hz'); [by apply Forall_rev|].
  exists l'. split_and!; try done. rewrite Hn, Ed, Es, En. change (zlen (@nil Z)) with 0. change (num radix (rev [])) with 0. lia.
Qed.
End Print.

(** ** Digit tables *)

(** Exhaustive over the first [n] digit values. *)
Lemma digits_below (P : Z → bool) n d : forallb (fun k => P (Z.of_nat k)) (seq 0 n) = true → 0 ≤ d < Z.of_nat n → P d = true.
Proof.
  intros H Hd. rewrite forallb_forall in H. specialize (H (Z.to_nat d)). rewrite Z2Nat.id in H by lia.
  apply H, in_seq. lia.
Qed.

Lemma base58_digit_lt c : base58Digit c < 58.
Proof. destruct c; vm_compute; reflexivity. Qed.

Lemma base58_symbol_digit c : 0 ≤ base58Digit c → symbol base58Alphabet (base58Digit c) = c.
Proof. destruct c; vm_compute; intros H; solve [reflexivity | by destruct H]. Qed.

Lemma base58_digit_symbol d : 0 ≤ d < 58 → base58Digit (symbol base58Alphabet d) = d.
Proof. intros Hd. apply Z.eqb_eq. by apply (digits_below (fun d => base58Digit (symbol base58Alphabet d) =? d) 58). Qed.

Lemma decimal_digit_lt c : decimalDigit c < 10.
Proof. unfold decimalDigit, is_09, char_in. destruct (Z.leb_spec 48 (bz c)), (Z.leb_spec (bz c) 57); cbn [andb]; lia. Qed.

Lemma decimal_symbol_digit c : 0 ≤ decimalDigit c → symbol decimalSymbols (decimalDigit c) = c.
Proof. destruct c; vm_compute; intros H; solve [reflexivity | by destruct H]. Qed.

Lemma decimal_digit_symbol d : 0 ≤ d < 10 → decimalDigit (symbol decimalSymbols d) = d.
Proof. intros Hd. apply Z.eqb_eq. by apply (digits_below (fun d => decimalDigit (symbol decimalSymbols d) =? d) 10). Qed.

(** Text over an alphabet is its digits. *)
Lemma text_of_digits (digit : byte → Z) symbols radix s :
  (∀ c, 0 ≤ digit c → symbol symbols (digit c) = c) → in_base radix (map digit s) → map (symbol symbols) (map digit s) = s.
Proof.
  intros H. induction s as [|c s IH]; [done|]. cbn [map]. intros Hin. inversion_clear Hin as [|? ? Hc Hin'].
  rewrite H, IH by (done || lia). done.
Qed.

(** ** Base58 *)

Lemma leading_split c l : l = replicate (leading c l) c ++ drop (leading c l) l ∧ head (drop (leading c l) l) ≠ Some c.
Proof.
  induction l as [|b l [IH1 IH2]]; [done|]. cbn [leading]. case_bool_decide as Hb; cbn; [|split; [done|congruence]].
  subst b. split; [by f_equal|done].
Qed.

Lemma leading_replicate c n l : head l ≠ Some c → leading c (replicate n c ++ l) = n.
Proof.
  intros Hl. induction n as [|n IH]; cbn [replicate app leading].
  - destruct l as [|b l]; [done|]. cbn [leading head] in *. by rewrite bool_decide_false by congruence.
  - rewrite bool_decide_true by done. by rewrite IH.
Qed.

(** The digits after the leading ones are printed back. *)
Lemma base58_body rest body dst : head rest ≠ Some x31 → radixDecode rest 58 5 base58Digit = Some body →
  radixAppend dst body 58 5 base58Chunk base58Alphabet = dst ++ rest.
Proof.
  intros Hh Hd. apply radixDecode_ok in Hd as (Hin & Hnum & _); [|lia|lia|done|apply base58_digit_lt].
  destruct (radixAppend_ok 58 5 base58Alphabet) with (dst := dst) (src := body) as (ds & E & Hds & En & Hz); [lia|lia|done| |].
  { intros d Hr E. rewrite <- (base58_digit_symbol d Hr), E. reflexivity. }
  change (58 ^ Z.of_nat 5) with base58Chunk in E. rewrite E. f_equal.
  assert (ds = map base58Digit rest) as ->.
  { apply (num_canonical 58); try done; [|by rewrite En].
    unfold no_zero_head. destruct rest as [|c rest]; [done|]. cbn [map head]. intros [= H0]. apply Hh. cbn [head].
    rewrite <- (base58_symbol_digit c), H0 by lia. reflexivity. }
  apply (text_of_digits _ _ 58); [apply base58_symbol_digit|done].
Qed.

Lemma base58_exact s d : base58Decode s = Some d → base58Encode d = s ∧ leading x00 d = leading x31 s ∧
  radixAppend (replicate (leading x31 s) x31) (drop (leading x00 d) d) 58 5 base58Chunk base58Alphabet = s.
Proof.
  unfold base58Decode. destruct (leading_split x31 s) as [Es Hh]. set (zeros := leading x31 s) in *.
  destruct (radixDecode (drop zeros s) 58 5 base58Digit) as [body|] eqn:Hd; [|done]. intros [= <-].
  pose proof Hd as (_ & _ & Hb)%radixDecode_ok; [|lia|lia|done|apply base58_digit_lt].
  unfold base58Encode. rewrite leading_replicate by done. rewrite drop_app_length' by (by rewrite length_replicate).
  split_and!; [|done|]; unfold radixEncode; rewrite (base58_body _ _ _ Hh Hd); cbn [app]; by rewrite <- Es.
Qed.

Lemma base58_lossless src data : base58_Encode src = Some data → zlen data = 32 ∧ base58_Decode data (zlen src) = Ret src.
Proof.
  unfold base58_Encode, base58_Decode, base58_DecodeInto. destruct ((zlen src <? 32) || (44 <? zlen src)); [done|].
  destruct (base58Decode src) as [out|] eqn:E; [|done]. destruct (base58Size (zlen out)) eqn:Hs; [|done]. intros [= <-].
  split; [unfold base58Size in Hs; lia|]. rewrite Hs. cbn [negb]. apply base58_exact in E as (_ & El & Ea).
  rewrite <- El in Ea. rewrite Ea. by rewrite Z.eqb_refl.
Qed.

(** ** Large decimals *)

Lemma bigDecimal_lossless src data : bigDecimal_Encode src = Some data →
  9 ≤ zlen data ≤ 32 ∧ bigDecimal_Decode data (zlen src) = Ret src.
Proof.
  unfold bigDecimal_Encode, bigDecimal_Decode, bigDecimal_DecodeInto.
  destruct ((zlen src <? bigDecimalMinLen) || (bigDecimalMaxLen <? zlen src)); [done|]. cbn [orb].
  case_bool_decide as Hh; [done|]. destruct (radixDecode src 10 9 decimalDigit) as [out|] eqn:E; [|done].
  destruct (Z.ltb_spec (zlen out) 9), (Z.ltb_spec (bigDecimalMaxBit / 8) (zlen out)) as [?|H32]; try done. intros [= <-].
  change (bigDecimalMaxBit / 8) with 32 in *. split; [lia|]. destruct (Z.ltb_spec (zlen out) 9); [lia|].
  destruct (Z.ltb_spec 32 (zlen out)); [lia|].
  apply radixDecode_ok in E as (Hin & Hnum & Hz); [|lia|lia|done|apply decimal_digit_lt].
  rewrite bool_decide_false by done. cbn [orb].
  destruct (radixAppend_ok 10 9 decimalSymbols) with (dst := @nil byte) (src := out) as (ds & Ea & Hds & En & Hzd); [lia|lia|done| |].
  { intros d Hr Ed. rewrite <- (decimal_digit_symbol d Hr), Ed. reflexivity. }
  change (10 ^ Z.of_nat 9) with 1000000000 in Ea. rewrite Ea. cbn [app].
  assert (ds = map decimalDigit src) as ->.
  { apply (num_canonical 10); try done; [|by rewrite En].
    unfold no_zero_head. destruct src as [|c src]; [done|]. cbn [map head]. intros [= Hc0]. apply Hh. cbn [head].
    rewrite <- (decimal_symbol_digit c), Hc0 by lia. reflexivity. }
  rewrite (text_of_digits _ _ 10) by (apply decimal_symbol_digit || done). by rewrite Z.eqb_refl.
Qed.

(** ** Hexadecimal *)

Lemma hexValue_symbol c v up : hexValue c = Some (v, up) → 0 ≤ v < 16 ∧ up = is_AF c ∧
  (is_AF c = false → symbol hexDigits v = c) ∧ (is_af c = false → symbol hexUpperDigits v = c).
Proof. destruct c; vm_compute; intros [= <- <-]; split_and!; done. Qed.

Lemma upper_class c : (hexClass c =? 4) = is_AF c.
Proof. by destruct c. Qed.

Lemma hex_mask_of digits : hex_mask digits = mask_of digits.
Proof.
  unfold hex_mask, mask_of. generalize (replicate (Z.to_nat ((zlen digits + 7) / 8)) x00). generalize 0%nat.
  induction digits as [|c digits IH]; intros i m; cbn [hex_mask_loop mask_loop]; [done|]. rewrite upper_class, IH.
  do 2 f_equal. destruct (is_AF c); [|done]. f_equal. change 7 with (2 ^ 3 - 1). rewrite land_mask by lia.
  change (2 ^ 3) with 8. by rewrite Nat2Z.inj_mod.
Qed.

(** In mixed case the mask tells the case of every digit. *)
Lemma hex_upper_mixed digits q c : digits !! q = Some c → hex_upper hexCaseMixed (hex_mask digits) (Z.of_nat q) = Ret (is_AF c).
Proof.
  intros Hq. pose proof (lookup_lt_Some _ _ _ Hq) as Hlt. rewrite hex_mask_of. pose proof (mask_of_bit digits q Hlt) as Hb.
  unfold upper_at in Hb. rewrite Hq in Hb. unfold is_upper in Hb. rewrite upper_class in Hb. unfold bit_at in Hb.
  unfold hex_upper. change (hexCaseMixed =? hexCaseUpper) with false. change (hexCaseMixed =? hexCaseMixed) with true. cbv iota.
  rewrite znth_lookup by dlia. replace (Z.to_nat (Z.of_nat q / 8)) with (q / 8)%nat by dlia.
  pose proof (zlen_mask_of digits) as Hz. unfold zlen in Hz.
  destruct (lookup_lt_is_Some_2 (mask_of digits) (q / 8)%nat) as [m Hm]; [dlia|]. rewrite Hm in *. cbn [or_panic].
  rewrite res_bind_ret. f_equal. rewrite <- Hb. replace (Z.of_nat q mod 8) with (Z.of_nat (q mod 8)) by (by rewrite Nat2Z.inj_mod).
  rewrite Z.shiftl_1_l. destruct (Z.testbit (bz m) (Z.of_nat (q mod 8))) eqn:Et.
  - destruct (Z.eqb_spec (Z.land (bz m) (2 ^ Z.of_nat (q mod 8))) 0) as [E|]; [|done].
    apply (f_equal (fun z => Z.testbit z (Z.of_nat (q mod 8)))) in E. rewrite Z.land_spec, Et, Z.pow2_bits_true, Z.bits_0 in E by lia. done.
  - assert (Z.land (bz m) (2 ^ Z.of_nat (q mod 8)) = 0) as ->; [|done]. apply Z.bits_inj'. intros k Hk.
    rewrite Z.land_spec, Z.bits_0, Z.pow2_bits_eqb by lia. destruct (Z.eqb_spec (Z.of_nat (q mod 8)) k) as [<-|]; [by rewrite Et|apply andb_false_r].
Qed.

(** The case chosen for every digit is its own. *)
Definition case_fits (mode : Z) (mask digits : list byte) (pos : Z) : Prop :=
  ∀ q c, digits !! q = Some c → ∃ up, hex_upper mode mask (pos + Z.of_nat q) = Ret up ∧
    if (up : bool) then is_af c = false else is_AF c = false.

Lemma case_fits_tail mode mask c digits pos : case_fits mode mask (c :: digits) pos → case_fits mode mask digits (pos + 1).
Proof. intros H q d Hq. destruct (H (S q) d Hq) as (up & E & Hup). exists up. split; [|done]. rewrite <- E. f_equal. lia. Qed.

Lemma hex_digit_fits mode mask c digits pos v up : case_fits mode mask (c :: digits) pos → hexValue c = Some (v, up) →
  hex_digit mode mask pos v = Ret c.
Proof.
  intros H Hv. destruct (H 0%nat c eq_refl) as (u & E & Hu). unfold hex_digit. rewrite Z.add_0_r in E. rewrite E, res_bind_ret.
  apply hexValue_symbol in Hv as (_ & _ & Hl & Hup). destruct u; f_equal; auto.
Qed.

Lemma hex_pairs_ok k : ∀ digits out0 u0 l0 out u l, length digits = (2 * k)%nat → hex_pairs digits out0 u0 l0 = Some (out, u, l) →
  ∃ body, out = out0 ++ body ∧ length body = k ∧
    (u = false → Forall (fun c => is_AF c = false) digits) ∧ (l = false → Forall (fun c => is_af c = false) digits) ∧
    (u0 = true → u = true) ∧ (l0 = true → l = true) ∧
    ∀ dst mode mask pos, case_fits mode mask digits pos → hex_digits_loop dst body mode mask pos = Ret (dst ++ digits).
Proof.
  induction k as [|k IH]; intros digits out0 u0 l0 out u l Hlen Hp.
  - destruct digits; [|cbn in Hlen; lia]. injection Hp as <- <- <-. exists []. rewrite app_nil_r. split_and!; try done.
    intros. cbn [hex_digits_loop]. by rewrite app_nil_r.
  - destruct digits as [|c [|d digits]]; [cbn in Hlen; lia..|]. cbn [hex_pairs] in Hp.
    destruct (hexValue c) as [[hi hu]|] eqn:Hc; [|done]. destruct (hexValue d) as [[lo lu]|] eqn:Hd; [|done].
    apply IH in Hp as (body & -> & Hbl & Hu & Hl & Hu0 & Hl0 & Hr); [|cbn in Hlen; lia].
    pose proof (hexValue_symbol _ _ _ Hc) as (Hhi & -> & _). pose proof (hexValue_symbol _ _ _ Hd) as (Hlo & -> & _).
    exists (zb (Z.lor (Z.shiftl hi 4) lo) :: body). rewrite <- app_assoc. split_and!; [done|cbn; lia|..].
    + intros ->. destruct (is_AF c) eqn:E1, (is_AF d) eqn:E2; rewrite ?orb_true_r in Hu0; try (by specialize (Hu0 eq_refl)).
      repeat constructor; auto.
    + intros ->. assert (Hcd : is_af c = false ∧ is_af d = false).
      { destruct (is_af c) eqn:E1, (is_af d) eqn:E2; try done; exfalso.
        all: assert (F : ∀ x, is_af x = true → is_AF x = false) by (clear; intros x; by destruct x).
        all: rewrite ?(F c E1), ?(F d E2), ?orb_true_r in Hl0; cbn [negb andb] in Hl0; rewrite ?orb_true_r in Hl0; by specialize (Hl0 eq_refl). }
      destruct Hcd. repeat constructor; auto.
    + intros ->. by apply Hu0.
    + intros ->. by apply Hl0.
    + intros dst mode mask pos Hf. cbn [hex_digits_loop]. destruct (nibbles hi lo Hhi Hlo) as [-> ->].
      rewrite (hex_digit_fits mode mask c (d :: digits) pos hi _ Hf Hc), res_bind_ret.
      rewrite (hex_digit_fits mode mask d digits (pos + 1) lo _ (case_fits_tail _ _ _ _ _ Hf) Hd), res_bind_ret.
      rewrite Hr; [by rewrite <- app_assoc|]. replace (pos + 2) with (pos + 1 + 1) by lia.
      by do 2 apply case_fits_tail in Hf.
Qed.

Lemma case_fits_lower mask digits pos : Forall (fun c => is_AF c = false) digits → case_fits hexCaseLower mask digits pos.
Proof. intros H q c Hq. exists false. split; [done|]. by eapply Forall_lookup_1 in H. Qed.

Lemma case_fits_upper mask digits pos : Forall (fun c => is_af c = false) digits → case_fits hexCaseUpper mask digits pos.
Proof. intros H q c Hq. exists true. split; [done|]. by eapply Forall_lookup_1 in H. Qed.

Lemma case_fits_mixed digits : case_fits hexCaseMixed (hex_mask digits) digits 0.
Proof.
  intros q c Hq. exists (is_AF c). rewrite Z.add_0_l. split; [by apply hex_upper_mixed|]. by destruct c.
Qed.

Lemma hex_split_ok src flags digits : hex_split src = (flags, digits) →
  (flags = 0 ∧ src = digits) ∨ (flags = 1 ∧ src = [x30; x78] ++ digits).
Proof.
  unfold hex_split. destruct src as [|a [|b rest]]; [intros [= <- <-]; by left..|].
  do 2 (case_bool_decide; cbn [andb]; [|intros [= <- <-]; by left]). subst. intros [= <- <-]. by right.
Qed.

Lemma hex_flags flags mode : (flags = 0 ∨ flags = 1) → 0 ≤ mode ≤ 2 →
  let f := bz (zb (Z.lor flags (Z.shiftl mode hexCaseShift))) in
  Z.ldiff f hexKnownFlags = 0 ∧ Z.shiftr (Z.land f hexCaseMask) hexCaseShift = mode ∧ Z.land f hexFlagPrefix = flags.
Proof.
  intros Hf Hm. assert (Hm' : mode = 0 ∨ mode = 1 ∨ mode = 2) by lia.
  by destruct Hf as [-> | ->], Hm' as [-> | [-> | ->]].
Qed.

Lemma hex_lossless src data : hex_Encode src = Some data → hex_Decode data (zlen src) = Ret src.
Proof.
  unfold hex_Encode, hex_Decode. destruct (hex_split src) as [flags digits] eqn:Hs. apply hex_split_ok in Hs.
  destruct (Z.ltb_spec (zlen digits) hexMinDigits) as [|Hmin]; [done|].
  destruct (Z.ltb_spec hexMaxDigits (zlen digits)) as [|Hmax]; [done|].
  destruct (Z.eqb_spec (zlen digits mod 2) 0) as [Hev|]; [|done]. cbn [orb negb].
  destruct (hex_pairs digits [] false false) as [[[out u] l]|] eqn:Hp; [|done].
  apply (hex_pairs_ok (length digits / 2)) in Hp as (body & -> & Hbl & Hu & Hl & _ & _ & Hr); [|unfold zlen in Hev; dlia].
  cbn [app] in *. assert (Hbz : zlen body = zlen digits / 2) by (unfold zlen; dlia).
  assert (Hdec : ∀ mode mask, 0 ≤ mode ≤ 2 → case_fits mode mask digits 0 →
    (if mode =? hexCaseMixed then zlen mask = (zlen digits + 7) / 8 else mask = []) →
    hex_DecodeInto (zb (Z.lor flags (Z.shiftl mode hexCaseShift)) :: body ++ mask) (zlen src) = Ret src).
  { intros mode mask Hmode Hf Hmask. pose proof (zlen_nonneg digits). cbn [hex_DecodeInto].
    destruct (hex_flags flags mode) as (E1 & E2 & E3); [destruct Hs as [[-> _]|[-> _]]; auto|done|].
    rewrite E1, E2, E3. change (negb (0 =? 0)) with false. cbv iota. change hexCaseMixed with 2 in *.
    destruct (Z.ltb_spec 2 mode); [lia|].
    assert (Ed : (if negb (flags =? 0) then zlen src - 2 else zlen src) = zlen digits)
      by (destruct Hs as [[-> ->]|[-> ->]]; cbn [negb Z.eqb]; rewrite ?zlen_app, ?zlen_cons, ?zlen_nil; lia).
    rewrite Ed. destruct (Z.ltb_spec (zlen digits) hexMinDigits); [lia|]. destruct (Z.ltb_spec hexMaxDigits (zlen digits)); [lia|].
    rewrite Z.rem_mod_nonneg, Hev by lia. change (negb (0 =? 0)) with false. cbn [orb].
    assert (Happ : ∀ m', case_fits mode m' digits 0 →
      appendHexDigits (if negb (flags =? 0) then [x30; x78] else []) body (bz (zb (Z.lor flags (Z.shiftl mode hexCaseShift)))) m' = Ret src).
    { intros m' Hm'. unfold appendHexDigits. rewrite E2, (Hr _ mode m' 0 Hm'). destruct Hs as [[-> ->]|[-> ->]]; done. }
    destruct (Z.eqb_spec mode 2) as [->|Hm2].
    - rewrite zlen_app, Hmask, Hbz, Z.eqb_refl. cbn [negb].
      rewrite take_app_length', drop_app_length' by (by rewrite <- Hbz, to_nat_zlen). by apply Happ.
    - rewrite Hmask, app_nil_r, Hbz, Z.eqb_refl in *. cbn [negb]. by apply Happ. }
  destruct u, l; cbn [andb]; intros [= <-].
  - apply (Hdec hexCaseMixed (hex_mask digits)); [done|apply case_fits_mixed|].
    cbn [Z.eqb hexCaseMixed Pos.eqb]. rewrite hex_mask_of. apply zlen_mask_of.
  - rewrite <- (app_nil_r body). apply (Hdec hexCaseUpper []); [done|apply case_fits_upper; auto|done].
  - rewrite <- (app_nil_r body), <- (Z.lor_0_r flags). apply (Hdec hexCaseLower []); [done|apply case_fits_lower; auto|done].
  - rewrite <- (app_nil_r body), <- (Z.lor_0_r flags). apply (Hdec hexCaseLower []); [done|apply case_fits_lower; auto|done].
Qed.
