(* ===== verification/Compress.v ===== *)
(** * Pattern and block compression codecs

    Model of internal/codec/compression.go: the exact codecs for a repeated byte
    and for a short period, and the LZ4 and Zstandard codecs, whose compressors
    are parameters. Scratch pools only supply storage. *)
From S2P Require Import Prelude Codec.
Set Default Proof Using "Type".

Definition RepeatByte : Z := 8.
Definition LZ4 : Z := 9.
Definition Zstandard : Z := 10.
Definition Periodic : Z := 11.
Definition zstdDecoderMaxMemory : Z := Z.shiftl 64 20.

(** ** One repeated byte *)

Definition repeat_Encode (src : list byte) : option (list byte) :=
  if zlen src <? 16 then None else
  match src with
  | [] => None
  | first :: rest => if forallb (fun b => bool_decide (b = first)) rest then Some [first] else None
  end.

Definition repeat_Decode (src : list byte) (n : Z) : res (list byte) :=
  match src with
  | [b] => if n <? 0 then Err "invalid repeat-byte record" else Ret (replicate (Z.to_nat n) b)
  | _ => Err "invalid repeat-byte record"
  end.

Definition repeat_DecodeInto (src : list byte) (n : Z) : res (list byte) :=
  match src with
  | [b] => if n <? 0 then Err "invalid repeat-byte record" else Ret (replicate (Z.to_nat n) b)
  | _ => Err "invalid repeat-byte record"
  end.

(** ** A short period *)

(** [src[i] == src[i-period]] for every [i] from the given one on. *)
Fixpoint same_from (fuel : nat) (src : list byte) (period i : Z) : res bool :=
  match fuel with
  | O => Ret true
  | S f =>
      if i <? zlen src then
        a ← or_panic (znth src i) oob;
        b ← or_panic (znth src (i - period)) oob;
        if bool_decide (a = b) then same_from f src period (i + 1) else Ret false
      else Ret true
  end.

Fixpoint period_loop (fuel : nat) (src : list byte) (period maxPeriod : Z) : res (option (list byte)) :=
  match fuel with
  | O => Ret None
  | S f =>
      if maxPeriod <? period then Ret None else
      a ← or_panic (znth src period) oob;
      b ← or_panic (znth src 0) oob;
      if negb (bool_decide (a = b)) then period_loop f src (period + 1) maxPeriod else
      ok ← same_from (length src) src period period;
      if (ok : bool) then Ret (Some (take (Z.to_nat period) src))
      else period_loop f src (period + 1) maxPeriod
  end.

Definition periodic_Encode (src : list byte) : res (option (list byte)) :=
  if zlen src <? 32 then Ret None else
  let maxPeriod := if zlen src / 2 <? 64 then zlen src / 2 else 64 in
  period_loop 64 src 2 maxPeriod.

(** The buffer of [n] bytes is filled from its start; [done] is the filled part,
    doubled until the buffer is full. *)
Fixpoint expand_loop (fuel : nat) (n : nat) (done : list byte) : list byte :=
  match fuel with
  | O => done
  | S f => if (length done <? n)%nat then expand_loop f n (done ++ take (n - length done) done) else done
  end.

Definition expandPeriodic (n : nat) (pattern : list byte) : list byte :=
  if (n =? 0)%nat then [] else expand_loop n n (take n pattern).

Definition periodic_Decode (src : list byte) (n : Z) : res (list byte) :=
  if (zlen src <? 2) || (64 <? zlen src) || (n <? zlen src) then Err "invalid periodic record"
  else Ret (expandPeriodic (Z.to_nat n) src).

Definition periodic_DecodeInto (src : list byte) (n : Z) : res (list byte) :=
  if (zlen src <? 2) || (64 <? zlen src) || (n <? zlen src) then Err "invalid periodic record"
  else Ret (expandPeriodic (Z.to_nat n) src).

(** ** Block compressors *)

Section Blocks.
(** [lz4.CompressBlock] into a buffer of the bound: the bytes written.
    [lz4.UncompressBlock] into a buffer of the given size: the bytes written. *)
Context (CompressBlock : list byte → res (list byte)) (UncompressBlock : list byte → Z → res (list byte)).

Definition lz4_Encode (src : list byte) : option (list byte) :=
  if zlen src <? 256 then None else
  match CompressBlock src with
  | Ret out => if (zlen out =? 0) || (zlen src * 7 <? zlen out * 8) then None else Some out
  | _ => None
  end.

(** A raw length below zero panics in [make]; the registry never passes one. *)
Definition lz4_Decode (src : list byte) (n : Z) : res (list byte) :=
  if n <? 0 then Panic "makeslice: len out of range" else
  out ← UncompressBlock src n;
  if negb (zlen out =? n) then Err "LZ4 length mismatch" else Ret out.

Definition lz4_DecodeInto (src : list byte) (n : Z) : res (list byte) :=
  if n <? 0 then Panic "makeslice: len out of range" else
  out ← UncompressBlock src n;
  if negb (zlen out =? n) then Err "LZ4 length mismatch" else Ret out.

(** [encoder.EncodeAll] and [decoder.DecodeAll] with the capacity of the
    destination, which bounds the output. *)
Context (EncodeAll : list byte → list byte) (DecodeAll : list byte → Z → res (list byte)).

Definition zstd_Encode (src : list byte) : option (list byte) :=
  if zlen src <? 1024 then None else
  let out := EncodeAll src in
  if zlen src * 4 <? zlen out * 5 then None else Some out.

Definition zstd_Decode (src : list byte) (n : Z) : res (list byte) :=
  if (n <? 0) || (zstdDecoderMaxMemory <? n) then Err "Zstandard length out of range" else
  out ← DecodeAll src n;
  if negb (zlen out =? n) then Err "Zstandard length mismatch" else Ret out.

Definition zstd_DecodeInto (src : list byte) (n dst_cap : Z) : res (list byte) :=
  if (n <? 0) || (zstdDecoderMaxMemory <? n) then Err "Zstandard length out of range" else
  let cap := if dst_cap <? n then n else dst_cap in
  out ← DecodeAll src cap;
  if negb (zlen out =? n) then Err "Zstandard length mismatch" else Ret out.
End Blocks.

Definition signatures : list (list byte) :=
  [[x1f; x8b]; x89 :: text "PNG"; [xff; xd8; xff]; [x28; xb5; x2f; xfd]; [x04; x22; x4d; x18]; text "PK" ++ [x03; x04]].

Definition HasPrefix (src sig : list byte) : bool := bool_decide (take (length sig) src = sig).

Definition AlreadyCompressed (src : list byte) : bool := existsb (HasPrefix src) signatures.

(** ** The pattern codecs are lossless *)

Lemma repeat_lossless src data : repeat_Encode src = Some data → zlen data = 1 ∧ repeat_Decode data (zlen src) = Ret src.
Proof.
  unfold repeat_Encode. destruct (Z.ltb_spec (zlen src) 16); [done|]. destruct src as [|b src]; [done|].
  destruct (forallb _ src) eqn:Hf; [|done]. intros [= <-]. split; [done|]. cbn [repeat_Decode].
  destruct (Z.ltb_spec (zlen (b :: src)) 0); [lia|]. f_equal. rewrite to_nat_zlen. cbn [length replicate]. f_equal.
  clear H H0. induction src as [|c src IH]; [done|]. cbn [forallb] in Hf. apply andb_true_iff in Hf as [Hc Hf].
  apply bool_decide_eq_true in Hc. subst c. cbn [length replicate]. f_equal. auto.
Qed.

Definition has_period (src : list byte) (p : nat) : Prop :=
  ∀ j, (p ≤ j < length src)%nat → src !! j = src !! (j - p)%nat.

Lemma same_from_ok fuel src p : ∀ i, 0 < p ≤ i → zlen src - i ≤ Z.of_nat fuel →
  ∃ ok, same_from fuel src p i = Ret ok ∧
    (ok = true → ∀ j, i ≤ Z.of_nat j < zlen src → src !! j = src !! (j - Z.to_nat p)%nat).
Proof.
  induction fuel as [|f IH]; intros i Hi Hf; cbn [same_from]; [exists true; split; [done|intros _ j Hj; lia]|].
  destruct (Z.ltb_spec i (zlen src)); [|exists true; split; [done|intros _ j Hj; lia]].
  destruct (znth_is_Some src i) as [a Ha]; [lia|]. destruct (znth_is_Some src (i - p)) as [b Hb]; [lia|].
  rewrite Ha, Hb. cbn [or_panic]. rewrite !res_bind_ret. case_bool_decide as E; [subst b|by exists false].
  destruct (IH (i + 1)) as (ok & Eo & Hok); [lia..|]. exists ok. split; [done|]. intros Ht j Hj.
  destruct (decide (Z.of_nat j = i)) as [Ej|]; [|apply Hok; [done|lia]].
  rewrite znth_lookup in Ha, Hb by lia. replace (Z.to_nat i) with j in Ha by lia. rewrite Ha.
  by replace (j - Z.to_nat p)%nat with (Z.to_nat (i - p)) by lia.
Qed.

Lemma period_loop_ok fuel src maxPeriod : maxPeriod < zlen src → ∀ period, 0 < period →
  match period_loop fuel src period maxPeriod with
  | Ret (Some data) => ∃ p, period ≤ Z.of_nat p ≤ maxPeriod ∧ data = take p src ∧ has_period src p
  | Ret None => True
  | _ => False
  end.
Proof.
  intros Hm. induction fuel as [|f IH]; intros p Hp; cbn [period_loop]; [done|].
  destruct (Z.ltb_spec maxPeriod p); [done|].
  assert (Hnext : match period_loop f src (p + 1) maxPeriod with
    | Ret (Some data) => ∃ p', p ≤ Z.of_nat p' ≤ maxPeriod ∧ data = take p' src ∧ has_period src p'
    | Ret None => True | _ => False end).
  { specialize (IH (p + 1) ltac:(lia)). destruct (period_loop f src (p + 1) maxPeriod) as [[data|]| |]; try done.
    destruct IH as (p' & ? & ? & ?). exists p'. split_and!; try done; lia. }
  destruct (znth_is_Some src p) as [a Ha]; [lia|]. destruct (znth_is_Some src 0) as [b Hb]; [lia|].
  rewrite Ha, Hb. cbn [or_panic]. rewrite !res_bind_ret. destruct (negb _); [done|].
  destruct (same_from_ok (length src) src p p) as (ok & -> & Hok); [lia|unfold zlen; lia|]. rewrite res_bind_ret.
  destruct ok; [|done]. exists (Z.to_nat p). split_and!; [lia|lia|done|]. intros j Hj. apply Hok; [done|unfold zlen; lia].
Qed.

(** A position a multiple of the period away holds the same byte. *)
Lemma period_multiple src p k j : has_period src p → (k * p + j < length src)%nat → src !! (k * p + j)%nat = src !! j.
Proof.
  intros H. induction k as [|k IH]; intros Hlt; [done|]. rewrite H by lia. replace (S k * p + j - p)%nat with (k * p + j)%nat by lia.
  apply IH. lia.
Qed.

Lemma expand_loop_ok fuel src p : has_period src p → (0 < p)%nat → ∀ k, (0 < k)%nat → (length src ≤ fuel + k * p)%nat →
  expand_loop fuel (length src) (take (k * p) src) = src.
Proof.
  intros H Hp. induction fuel as [|f IH]; intros k Hk Hf; cbn [expand_loop]; [by apply take_ge; lia|].
  destruct (Nat.ltb_spec (length (take (k * p) src)) (length src)) as [Hlt|Hge].
  - rewrite length_take in Hlt. assert (Hl : (k * p < length src)%nat) by lia.
    assert (E : take (k * p) src ++ take (length src - length (take (k * p) src)) (take (k * p) src) = take ((2 * k) * p) src).
    { rewrite length_take, (Nat.min_l (k * p)), take_take by lia. apply list_eq. intros j. destruct (decide (j < k * p)%nat).
      - rewrite lookup_app_l by (rewrite length_take; lia). by rewrite !lookup_take_lt by lia.
      - rewrite lookup_app_r by (rewrite length_take; lia). rewrite length_take, (Nat.min_l (k * p)) by lia.
        destruct (decide (j < 2 * k * p)%nat), (decide (j < length src)%nat).
        + rewrite !lookup_take_lt by lia. symmetry. replace j with (k * p + (j - k * p))%nat at 1 by lia.
          apply (period_multiple src p); [done|lia].
        + rewrite lookup_take_ge by lia. rewrite lookup_take_lt by lia. by rewrite lookup_ge_None_2 by lia.
        + rewrite !lookup_take_ge by lia. done.
        + rewrite !lookup_take_ge by lia. done. }
    rewrite E. apply IH; lia.
  - rewrite length_take in Hge. apply take_ge. lia.
Qed.

Lemma periodic_lossless src :
  match periodic_Encode src with
  | Ret (Some data) => zlen data < zlen src ∧ periodic_Decode data (zlen src) = Ret src
  | Ret None => True
  | _ => False
  end.
Proof.
  unfold periodic_Encode. destruct (Z.ltb_spec (zlen src) 32); [done|]. cbv zeta.
  set (maxPeriod := if zlen src / 2 <? 64 then zlen src / 2 else 64).
  assert (Hm : maxPeriod ≤ 64 ∧ maxPeriod * 2 ≤ zlen src) by (subst maxPeriod; destruct (Z.ltb_spec (zlen src / 2) 64); dlia).
  pose proof (period_loop_ok 64 src maxPeriod ltac:(lia) 2 ltac:(lia)) as Hl.
  destruct (period_loop 64 src 2 maxPeriod) as [[data|]| |]; try done. destruct Hl as (p & Hp & -> & Hper).
  assert (Hz : zlen (take p src) = Z.of_nat p) by (unfold zlen in *; rewrite length_take; lia).
  split; [lia|]. unfold periodic_Decode. rewrite Hz.
  destruct (Z.ltb_spec (Z.of_nat p) 2), (Z.ltb_spec 64 (Z.of_nat p)), (Z.ltb_spec (zlen src) (Z.of_nat p)); try lia. cbn [orb].
  f_equal. unfold expandPeriodic. rewrite to_nat_zlen. destruct (Nat.eqb_spec (length src) 0); [unfold zlen in *; lia|].
  rewrite (take_ge (take p src)) by (rewrite length_take; lia). replace p with (1 * p)%nat at 1 by lia.
  apply expand_loop_ok; [done|lia..].
Qed.
