(* ===== verification/Solana.v ===== *)
(** * SPL token account codec

    Model of internal/codec/solana.go: the 165-byte account record, raw or as
    standard base64 text, in a compact exact form. *)
From S2P Require Import Prelude Codec.
Set Default Proof Using "Type".

Definition SolanaTokenAccount : Z := 16.
Definition tokenAccountSize : Z := 165.
Definition tokenAccountB64Size : Z := 220.
Definition tokenFlagDelegate : Z := Z.shiftl 1 0.
Definition tokenFlagNative : Z := Z.shiftl 1 1.
Definition tokenFlagClose : Z := Z.shiftl 1 2.
Definition tokenStateShift : Z := 3.
Definition tokenStateMask : Z := Z.shiftl 3 tokenStateShift.
Definition tokenKnownFlags : Z :=
  Z.lor (Z.lor (Z.lor tokenFlagDelegate tokenFlagNative) tokenFlagClose) tokenStateMask.
Definition offMint : Z := 0.
Definition offAmount : Z := 64.
Definition offDelegateTag : Z := 72.
Definition offDelegate : Z := 76.
Definition offState : Z := 108.
Definition offNativeTag : Z := 109.
Definition offNative : Z := 113.
Definition offDelegated : Z := 121.
Definition offCloseTag : Z := 129.
Definition offClose : Z := 133.

(** ** [encoding/base64], standard alphabet *)

Definition b64Alphabet : list byte := text "ABCDEFGHIJKLMNOPQRSTUVWXYZabcdefghijklmnopqrstuvwxyz0123456789+/".

Fixpoint alphabet_index (alphabet : list byte) (i : Z) (c : byte) : option Z :=
  match alphabet with
  | [] => None
  | a :: rest => if bool_decide (a = c) then Some i else alphabet_index rest (i + 1) c
  end.
Definition b64_value (c : byte) : option Z := alphabet_index b64Alphabet 0 c.

Definition b64_bytes (n : Z) (k : nat) : list byte :=
  take k [zb (Z.shiftr n 16); zb (Z.shiftr n 8); zb n].

Definition pad : byte := x3d.

(** Strict decoding of text without line breaks: quantums of four characters,
    the last one possibly padded, with zero trailing bits. *)
Fixpoint b64_quanta (fuel : nat) (s : list byte) : option (list byte) :=
  match fuel with
  | O => None
  | S f =>
      match s with
      | [] => Some []
      | a :: b :: c :: d :: rest =>
          match b64_value a, b64_value b with
          | Some va, Some vb =>
              match b64_value c, b64_value d with
              | Some vc, Some vd =>
                  match b64_quanta f rest with
                  | Some l => Some (b64_bytes (va * 2 ^ 18 + vb * 2 ^ 12 + vc * 2 ^ 6 + vd) 3 ++ l)
                  | None => None
                  end
              | Some vc, None =>
                  if bool_decide (d = pad) && bool_decide (rest = []) && (vc mod 4 =? 0)
                  then Some (b64_bytes (va * 2 ^ 18 + vb * 2 ^ 12 + vc * 2 ^ 6) 2) else None
              | None, _ =>
                  if bool_decide (c = pad) && bool_decide (d = pad) && bool_decide (rest = []) && (vb mod 16 =? 0)
                  then Some (b64_bytes (va * 2 ^ 18 + vb * 2 ^ 12) 1) else None
              end
          | _, _ => None
          end
      | _ => None
      end
  end.

(** The decoder skips line breaks anywhere. *)
Definition b64_Decode (src : list byte) : option (list byte) :=
  let s := filter (fun c => c ≠ x0a ∧ c ≠ x0d) src in b64_quanta (S (length s)) s.

Fixpoint b64_Encode (src : list byte) : list byte :=
  match src with
  | a :: b :: c :: rest =>
      let n := bz a * 2 ^ 16 + bz b * 2 ^ 8 + bz c in
      symbol b64Alphabet (Z.shiftr n 18) :: symbol b64Alphabet (Z.land (Z.shiftr n 12) 63) ::
      symbol b64Alphabet (Z.land (Z.shiftr n 6) 63) :: symbol b64Alphabet (Z.land n 63) :: b64_Encode rest
  | [a; b] =>
      let n := bz a * 2 ^ 16 + bz b * 2 ^ 8 in
      [symbol b64Alphabet (Z.shiftr n 18); symbol b64Alphabet (Z.land (Z.shiftr n 12) 63);
       symbol b64Alphabet (Z.land (Z.shiftr n 6) 63); pad]
  | [a] =>
      let n := bz a * 2 ^ 16 in
      [symbol b64Alphabet (Z.shiftr n 18); symbol b64Alphabet (Z.land (Z.shiftr n 12) 63); pad; pad]
  | [] => []
  end.

(** ** Encoding *)

Definition get_u32 (l : list byte) (off : Z) : res Z :=
  s ← or_panic (zslice l off (off + 4)) oob; Ret (le_get s).

Definition sub_slice (l : list byte) (off size : Z) : res (list byte) := or_panic (zslice l off (off + size)) oob.

(** Presence of an optional field; [None] when the record cannot be encoded. *)
Definition coption (raw : list byte) (tagOff valOff size : Z) : res (option bool) :=
  tag ← get_u32 raw tagOff;
  if tag =? 1 then Ret (Some true)
  else if tag =? 0 then
    v ← sub_slice raw valOff size;
    Ret (if forallb (fun b => bool_decide (b = x00)) v then Some false else None)
  else Ret None.

Definition flag_if (b : bool) (flag : Z) : Z := if b then flag else 0.

Definition token_payload (raw : list byte) (flags : Z) (delegate native closeAuth : bool) : res (list byte) :=
  mint_owner ← sub_slice raw offMint 64;
  amount ← get_u64 raw offAmount;
  d ← (if delegate then sub_slice raw offDelegate 32 else Ret []);
  n ← (if native then v ← get_u64 raw offNative; Ret (put_uvarint v) else Ret []);
  delegated ← get_u64 raw offDelegated;
  c ← (if closeAuth then sub_slice raw offClose 32 else Ret []);
  Ret ([zb flags] ++ mint_owner ++ put_uvarint amount ++ d ++ n ++ put_uvarint delegated ++ c).

Definition token_raw (src : list byte) : option (list byte) :=
  if zlen src =? tokenAccountB64Size then
    match b64_Decode src with
    | Some buf => if zlen buf =? tokenAccountSize then Some buf else None
    | None => None
    end
  else if zlen src =? tokenAccountSize then Some src else None.

Definition solana_Encode (src : list byte) : res (option (list byte)) :=
  match token_raw src with
  | None => Ret None
  | Some raw =>
      st ← or_panic (znth raw offState) oob;
      if 2 <? bz st then Ret None else
      delegate ← coption raw offDelegateTag offDelegate 32;
      match delegate with
      | None => Ret None
      | Some delegate =>
          native ← coption raw offNativeTag offNative 8;
          match native with
          | None => Ret None
          | Some native =>
              closeAuth ← coption raw offCloseTag offClose 32;
              match closeAuth with
              | None => Ret None
              | Some closeAuth =>
                  let flags := Z.lor (Z.lor (Z.lor (Z.shiftl (bz st) tokenStateShift) (flag_if delegate tokenFlagDelegate))
                                 (flag_if native tokenFlagNative)) (flag_if closeAuth tokenFlagClose) in
                  out ← token_payload raw flags delegate native closeAuth;
                  Ret (Some out)
              end
          end
      end
  end.

(** ** Decoding *)

(** [next]: a varint and the bytes after it. *)
Definition next_uvarint (p : list byte) : res (Z * list byte) :=
  let '(v, n) := uvarint p in
  if n <=? 0 then Err "invalid token account varint" else Ret (v, drop (Z.to_nat n) p).

(** [take]: a fixed field and the bytes after it. *)
Definition take_bytes (p : list byte) (size : Z) : res (list byte * list byte) :=
  if zlen p <? size then Err "short token account payload"
  else Ret (take (Z.to_nat size) p, drop (Z.to_nat size) p).

Definition put_tag (raw : list byte) (off : Z) : list byte := copy_at raw off (le_put 4 1).

Definition has_flag (flags flag : Z) : bool := negb (Z.land flags flag =? 0).

Definition token_record (src : list byte) (flags state : Z) : res (list byte) :=
  let raw := replicate (Z.to_nat tokenAccountSize) x00 in
  let raw := copy_at raw offMint (take 64 src) in
  let p := drop 64 src in
  '(amount, p) ← next_uvarint p;
  let raw := copy_at raw offAmount (le_put 8 amount) in
  '(raw, p) ← (if has_flag flags tokenFlagDelegate then
                 '(b, p) ← take_bytes p 32;
                 Ret (copy_at (put_tag raw offDelegateTag) offDelegate b, p)
               else Ret (raw, p));
  let raw := copy_at raw offState [zb state] in
  '(raw, p) ← (if has_flag flags tokenFlagNative then
                 '(v, p) ← next_uvarint p;
                 Ret (copy_at (put_tag raw offNativeTag) offNative (le_put 8 v), p)
               else Ret (raw, p));
  '(delegated, p) ← next_uvarint p;
  let raw := copy_at raw offDelegated (le_put 8 delegated) in
  '(raw, p) ← (if has_flag flags tokenFlagClose then
                 '(b, p) ← take_bytes p 32;
                 Ret (copy_at (put_tag raw offCloseTag) offClose b, p)
               else Ret (raw, p));
  if negb (zlen p =? 0) then Err "trailing token account bytes" else Ret raw.

Definition solana_DecodeInto (src : list byte) (rawLength : Z) : res (list byte) :=
  if negb (rawLength =? tokenAccountSize) && negb (rawLength =? tokenAccountB64Size) then Err "invalid token account length" else
  if zlen src <? 1 + 64 + 1 + 1 then Err "short token account payload" else
  match src with
  | [] => Panic oob
  | f :: body =>
      let flags := bz f in
      if negb (Z.ldiff flags tokenKnownFlags =? 0) then Err "unknown token account flags" else
      let state := Z.shiftr (Z.land flags tokenStateMask) tokenStateShift in
      if 2 <? state then Err "invalid token account state" else
      raw ← token_record body flags state;
      Ret (if rawLength =? tokenAccountSize then raw else b64_Encode raw)
  end.

Definition solana_Decode (src : list byte) (rawLength : Z) : res (list byte) := solana_DecodeInto src rawLength.

Lemma solana_no_panic src : ∃ r, solana_Encode src = Ret r.
Proof.
  unfold solana_Encode. destruct (token_raw src) as [raw|] eqn:E; [|eauto].
  assert (Hl : zlen raw = 165).
  { unfold token_raw in E. destruct (zlen src =? tokenAccountB64Size).
    - destruct (b64_Decode src) as [buf|]; [|done]. destruct (Z.eqb_spec (zlen buf) tokenAccountSize); [|done]. by injection E as ->.
    - destruct (Z.eqb_spec (zlen src) tokenAccountSize); [|done]. by injection E as ->. }
  assert (Hs : ∀ off n, 0 ≤ off → 0 ≤ n → off + n ≤ 165 → ∃ s, zslice raw off (off + n) = Some s).
  { intros off n H0 H1 H2. rewrite zslice_Some by lia. eauto. }
  assert (Hc : ∀ t v n, 0 ≤ t → t + 4 ≤ 165 → 0 ≤ v → 0 ≤ n → v + n ≤ 165 → ∃ o, coption raw t v n = Ret o).
  { intros t v n ?????. unfold coption, get_u32, sub_slice. destruct (Hs t 4) as [s ->]; [lia..|]. cbn [or_panic]. rewrite !res_bind_ret.
    destruct (le_get s =? 1); [eauto|]. destruct (le_get s =? 0); [|eauto]. destruct (Hs v n) as [s' ->]; [lia..|].
    cbn [or_panic]. rewrite res_bind_ret. eauto. }
  destruct (znth_is_Some raw offState) as [st ->]; [unfold offState; lia|]. cbn [or_panic]. rewrite res_bind_ret.
  destruct (2 <? bz st); [eauto|].
  destruct (Hc offDelegateTag offDelegate 32) as [[d|] ->]; [unfold offDelegateTag, offDelegate; lia..| |rewrite res_bind_ret; eauto].
  rewrite res_bind_ret. destruct (Hc offNativeTag offNative 8) as [[n|] ->]; [unfold offNativeTag, offNative; lia..| |rewrite res_bind_ret; eauto].
  rewrite res_bind_ret. destruct (Hc offCloseTag offClose 32) as [[c|] ->]; [unfold offCloseTag, offClose; lia..| |rewrite res_bind_ret; eauto].
  rewrite res_bind_ret. unfold token_payload, sub_slice, get_u64, offMint, offAmount, offDelegate, offNative, offDelegated, offClose.
  destruct (Hs 0 64) as [? ->]; [lia..|]. destruct (Hs 64 8) as [? ->]; [lia..|]. destruct (Hs 76 32) as [? ->]; [lia..|].
  destruct (Hs 113 8) as [? ->]; [lia..|]. destruct (Hs 121 8) as [? ->]; [lia..|]. destruct (Hs 133 32) as [? ->]; [lia..|].
  destruct d, n, c; cbn; eauto.
Qed.
