(* ===== verification/Dictionary.v ===== *)
(** * Value dictionary

    Model of internal/codec/dictionary/dictionary.go: a bounded table of repeated
    byte strings with reference counts. An item is shared by the two tables of
    the store, so [byID] holds the items and [byValue] their ids. The order in
    which Go ranges over a map is an argument of the operation that ranges. *)
From S2P Require Import Prelude.
Set Default Proof Using "Type".

(** [hash/fnv]: FNV-1a, 64 bits. *)
Definition fnv64a (s : list byte) : Z :=
  foldl (fun h b => u64 (Z.lxor h (bz b) * 1099511628211)) 14695981039346656037 s.

Module Dictionary.

Record item := mkItem { id : Z; value : list byte; refs : Z; cost : Z }.

Record Store := mkStore {
  byValue : gmap (list byte) Z;
  byID : gmap Z item;
  sketch : list Z;                        (* [256]uint8 *)
  observed : gmap (list byte) Z;          (* uint8 counters *)
  next : Z; used : Z; max : Z;
}.

Definition New (max : Z) : Store := mkStore ∅ ∅ (replicate 256 0) ∅ 0 0 max.

(** The item [s.byValue[v]] points to. *)
Definition item_of (s : Store) (v : list byte) : option item := byValue s !! v ≫= fun i => byID s !! i.

Definition drop_item (s : Store) (key : list byte) (e : item) : Store :=
  mkStore (delete key (byValue s)) (delete (id e) (byID s)) (sketch s) (observed s) (next s) (used s - cost e) (max s).

(** Eviction of unreferenced items until the new one fits. *)
Fixpoint evict (order : list (list byte)) (cost_ : Z) (s : Store) : Store :=
  match order with
  | [] => s
  | key :: order =>
      if used s + cost_ <=? max s then s else
      match item_of s key with
      | Some e => evict order cost_ (if refs e =? 0 then drop_item s key e else s)
      | None => evict order cost_ s
      end
  end.

Definition bump (n : Z) : Z := if n <? 255 then n + 1 else n.

Definition count_sketch (s : Store) (v : list byte) : Store :=
  let slot := Z.to_nat (fnv64a v mod zlen (sketch s)) in
  mkStore (byValue s) (byID s) (alter bump slot (sketch s)) (observed s) (next s) (used s) (max s).

Definition count_observed (s : Store) (v : list byte) : Store :=
  let seen := if 128 <=? Z.of_nat (size (observed s)) then ∅ else observed s in
  mkStore (byValue s) (byID s) (sketch s) (<[v := bump (default 0 (seen !! v))]> seen) (next s) (used s) (max s).

Definition Candidate (order : list (list byte)) (s : Store) (v : list byte) : Store * option Z :=
  if (zlen v <? 4) || (4096 <? zlen v) then (s, None) else
  let s := count_sketch s v in
  match item_of s v with
  | Some found => (s, Some (id found))
  | None =>
      let s := count_observed s v in
      let cost_ := 128 + 2 * zlen v in
      let count := default 0 (observed s !! v) in
      if (count <? 8) || ((zlen v - 2) * count <=? cost_) then (s, None) else
      let s := evict order cost_ s in
      if (max s - used s <? cost_) || (next s =? 2 ^ 64 - 1) then (s, None) else
      let i := next s + 1 in
      (mkStore (<[v := i]> (byValue s)) (<[i := mkItem i v 0 cost_]> (byID s)) (sketch s) (observed s) i
               (used s + cost_) (max s), Some i)
  end.

Definition Lookup (s : Store) (i : Z) : option (list byte) :=
  match byID s !! i with Some e => Some (value e) | None => None end.
Definition LookupView (s : Store) (i : Z) : option (list byte) :=
  match byID s !! i with Some e => Some (value e) | None => None end.

Definition with_byID (s : Store) (m : gmap Z item) : Store :=
  mkStore (byValue s) m (sketch s) (observed s) (next s) (used s) (max s).

Definition add_refs (d : Z) (e : item) : item := mkItem (id e) (value e) (refs e + d) (cost e).

Definition retain_all (ids : list Z) (s : Store) : Store :=
  foldl (fun s i => with_byID s (alter (add_refs 1) i (byID s))) s ids.

Definition Retain (s : Store) (ids : list Z) : Store * bool :=
  if forallb (fun i => bool_decide (is_Some (byID s !! i))) ids then (retain_all ids s, true) else (s, false).

Definition release_one (s : Store) (i : Z) : res Store :=
  match byID s !! i with
  | None => Panic "invalid dictionary reference"
  | Some e =>
      if refs e <=? 0 then Panic "invalid dictionary reference" else
      let e := add_refs (-1) e in
      if refs e =? 0 then Ret (drop_item s (value e) e)
      else Ret (with_byID s (<[i := e]> (byID s)))
  end.

Fixpoint Release (s : Store) (ids : list Z) : res Store :=
  match ids with
  | [] => Ret s
  | i :: ids => s ← release_one s i; Release s ids
  end.

Definition Stats (s : Store) : Z * Z := (Z.of_nat (size (byID s)), used s).

Definition IDBytes (i : Z) : list byte := put_uvarint i.

End Dictionary.
