(* ===== verification/DictionaryFacts.v ===== *)
(** * The value dictionary never loses a referenced value

    A record that retained dictionary ids can resolve them until it releases
    them, whatever is observed, admitted or evicted in between; ids are never
    reused; the byte budget is exact and respected. *)
From S2P Require Import Prelude Dictionary.
Import Dictionary.
Set Default Proof Using "Type".

(** ** Invariant *)

Definition total_cost (m : gmap Z item) : Z := map_fold (fun _ e n => cost e + n) 0 m.

Lemma total_cost_insert m i e : m !! i = None → total_cost (<[i := e]> m) = cost e + total_cost m.
Proof. intros H. unfold total_cost. rewrite map_fold_insert_L; [done| |done]. intros. lia. Qed.

Lemma total_cost_delete m i e : m !! i = Some e → total_cost (delete i m) = total_cost m - cost e.
Proof.
  intros H. rewrite <- (insert_delete_id m i e H) at 2. rewrite total_cost_insert by apply lookup_delete_eq. lia.
Qed.

Lemma total_cost_same m i e e' : m !! i = Some e → cost e' = cost e → total_cost (<[i := e']> m) = total_cost m.
Proof.
  intros H Hc. rewrite <- insert_delete_eq, total_cost_insert, (total_cost_delete m i e) by (done || apply lookup_delete_eq). lia.
Qed.

(** The references in use: ids with the values they stand for. *)
Definition refs_to (live : list (Z * list byte)) (i : Z) : Z := Z.of_nat (count_occ Z.eq_dec (map fst live) i).

Record dict_ok (s : Store) (live : list (Z * list byte)) : Prop := {
  do_value : ∀ v i, byValue s !! v = Some i ↔ ∃ e, byID s !! i = Some e ∧ value e = v;
  do_item : ∀ i e, byID s !! i = Some e → id e = i ∧ 0 < i ≤ next s ∧ refs e = refs_to live i ∧ 0 ≤ cost e;
  do_live : ∀ i v, (i, v) ∈ live → ∃ e, byID s !! i = Some e ∧ value e = v;
  do_used : used s = total_cost (byID s) ∧ used s ≤ max s ∧ 0 ≤ next s;
}.

Lemma dict_ok_New m : 0 ≤ m → dict_ok (New m) [].
Proof.
  intros Hm. split.
  - intros v i. cbn. rewrite lookup_empty. split; [done|]. intros (e & He & _). by rewrite lookup_empty in He.
  - intros i e He. cbn in He. by rewrite lookup_empty in He.
  - intros i v Hi. by apply elem_of_nil in Hi.
  - cbn. unfold total_cost. rewrite map_fold_empty. lia.
Qed.

Lemma item_of_ok s live v e : dict_ok s live → item_of s v = Some e → byID s !! id e = Some e ∧ value e = v.
Proof.
  intros H. unfold item_of. destruct (byValue s !! v) as [i|] eqn:Hv; [|done]. cbn. intros He.
  apply (do_value _ _ H) in Hv as (e' & He' & Hval). assert (e' = e) as -> by congruence.
  by destruct (do_item _ _ H _ _ He) as [-> _].
Qed.

Lemma item_of_None s live v : dict_ok s live → item_of s v = None → byValue s !! v = None.
Proof.
  intros H. unfold item_of. destruct (byValue s !! v) as [i|] eqn:Hv; [|done]. cbn. intros He.
  apply (do_value _ _ H) in Hv as (e' & He' & _). congruence.
Qed.

Lemma refs_to_pos live i v : (i, v) ∈ live → 0 < refs_to live i.
Proof.
  intros Hi. unfold refs_to. assert (Hin : In i (map fst live)) by (apply in_map_iff; exists (i, v); by rewrite <- list_elem_of_In).
  apply (count_occ_In Z.eq_dec) in Hin. lia.
Qed.

Lemma refs_to_cons live i v j : refs_to ((i, v) :: live) j = refs_to live j + (if decide (i = j) then 1 else 0).
Proof. unfold refs_to. cbn [map fst count_occ]. destruct (Z.eq_dec i j), (decide (i = j)); try done; lia. Qed.

#[export] Instance refs_to_Proper : Proper ((≡ₚ) ==> eq ==> eq) refs_to.
Proof.
  intros l l' E i _ <-. unfold refs_to. f_equal. apply (Permutation_count_occ Z.eq_dec). by rewrite E.
Qed.

#[export] Instance dict_ok_Proper s : Proper ((≡ₚ) ==> iff) (dict_ok s).
Proof.
  assert (Himp : ∀ l l', l ≡ₚ l' → dict_ok s l → dict_ok s l').
  { intros l l' E [H1 H2 H3 H4]. split; try done.
    - intros i e He. rewrite <- E. by apply H2.
    - intros i v Hi. apply H3. by rewrite E. }
  intros l l' E. split; by apply Himp.
Qed.

(** Dropping an unreferenced item keeps every live reference. *)
Lemma drop_item_ok s live e : dict_ok s live → byID s !! id e = Some e → refs_to live (id e) = 0 →
  dict_ok (drop_item s (value e) e) live.
Proof.
  intros H He H0. pose proof (do_value _ _ H) as Hv. split; cbn.
  - intros v i. destruct (decide (v = value e)) as [->|Hne].
    + rewrite lookup_delete_eq. split; [done|]. intros (e' & He' & Hval). apply lookup_delete_Some in He' as [Hi He'].
      assert (E1 : byValue s !! value e = Some i) by (apply Hv; eauto).
      assert (E2 : byValue s !! value e = Some (id e)) by (apply Hv; eauto). congruence.
    + rewrite lookup_delete_ne by done. rewrite Hv. split; intros (e' & He' & Hval); exists e'; split; try done.
      * apply lookup_delete_Some. split; [|done]. intros <-. congruence.
      * by apply lookup_delete_Some in He' as [_ ?].
  - intros i e' He'. apply lookup_delete_Some in He' as [_ He']. by apply (do_item _ _ H).
  - intros i v Hi. destruct (do_live _ _ H i v Hi) as (e' & He' & Hval). exists e'. split; [|done].
    apply lookup_delete_Some. split; [|done]. intros <-. pose proof (refs_to_pos _ _ _ Hi). lia.
  - destruct (do_used _ _ H) as (Hu & Hm & Hn). rewrite (total_cost_delete _ _ e) by done.
    destruct (do_item _ _ H _ _ He) as (_ & _ & _ & Hc). lia.
Qed.

(** Counters do not matter. *)
Lemma dict_ok_counters s live sk ob : dict_ok s live → dict_ok (mkStore (byValue s) (byID s) sk ob (next s) (used s) (max s)) live.
Proof. intros [? ? ? ?]. by split. Qed.

Lemma evict_ok order c live : ∀ s, dict_ok s live → dict_ok (evict order c s) live ∧
  max (evict order c s) = max s ∧ next (evict order c s) = next s ∧
  (∀ v, byValue s !! v = None → byValue (evict order c s) !! v = None).
Proof.
  induction order as [|key order IH]; intros s H; cbn [evict]; [done|]. destruct (used s + c <=? max s); [done|].
  destruct (item_of s key) as [e|] eqn:He; [|by apply IH]. destruct (Z.eqb_spec (refs e) 0) as [Hz|]; [|by apply IH].
  destruct (item_of_ok _ _ _ _ H He) as [Hid Hval]. subst key. destruct (do_item _ _ H _ _ Hid) as (_ & _ & Hr & _).
  destruct (IH (drop_item s (value e) e)) as (H1 & H2 & H3 & H4); [by apply drop_item_ok; [| |lia]|].
  split_and!; try done. intros v Hv. apply H4. cbn. by apply lookup_delete_None; right.
Qed.

Lemma Candidate_ok order s live v : dict_ok s live → dict_ok (Candidate order s v).1 live.
Proof.
  intros H. unfold Candidate. destruct (_ || _); [done|].
  pose proof (dict_ok_counters s live (sketch (count_sketch s v)) (observed s) H) as H1. fold (count_sketch s v) in H1.
  change (dict_ok (count_sketch s v) live) in H1. cbv zeta. destruct (item_of (count_sketch s v) v) as [found|] eqn:Hf; [done|].
  pose proof (dict_ok_counters _ live (sketch (count_sketch s v)) (observed (count_observed (count_sketch s v) v)) H1) as H2.
  change (dict_ok (count_observed (count_sketch s v) v) live) in H2. set (s2 := count_observed (count_sketch s v) v) in *.
  pose proof (item_of_None _ _ _ H1 Hf) as Hnone. destruct (_ || _); [done|].
  destruct (evict_ok order (128 + 2 * zlen v) live s2 H2) as (H3 & Hmax & Hnext & Habs). set (s3 := evict order _ s2) in *.
  destruct (Z.ltb_spec (max s3 - used s3) (128 + 2 * zlen v)) as [|Hfit]; [done|]. destruct (_ =? _); [done|]. cbn [orb fst].
  pose proof (zlen_nonneg v). assert (Hfresh : byID s3 !! (next s3 + 1) = None).
  { destruct (byID s3 !! (next s3 + 1)) as [e|] eqn:E; [|done]. destruct (do_item _ _ H3 _ _ E). lia. }
  assert (Hv3 : byValue s3 !! v = None) by (apply Habs, Hnone).
  assert (Hno : refs_to live (next s3 + 1) = 0).
  { unfold refs_to. destruct (count_occ Z.eq_dec (map fst live) (next s3 + 1)) as [|n] eqn:Ec; [done|].
    assert (Hin : In (next s3 + 1) (map fst live)) by (apply (count_occ_In Z.eq_dec); lia).
    apply in_map_iff in Hin as ([i w] & Hi & Hw). apply list_elem_of_In in Hw.
    destruct (do_live _ _ H3 i w Hw) as (e & He & _). cbn in Hi. subst i. congruence. }
  split; cbn.
  - intros w i. destruct (decide (w = v)) as [->|Hne].
    + rewrite lookup_insert_eq. split; [intros [= <-]; eexists; by rewrite lookup_insert_eq|]. intros (e & He & Hval).
      apply lookup_insert_Some in He as [[-> _]|[_ He]]; [done|]. assert (byValue s3 !! v = Some i) by (apply (do_value _ _ H3); eauto). congruence.
    + rewrite lookup_insert_ne by done. rewrite (do_value _ _ H3). split; intros (e & He & Hval); exists e; split; try done.
      * rewrite lookup_insert_ne; [done|]. intros <-. congruence.
      * apply lookup_insert_Some in He as [[_ <-]|[_ He]]; [by cbn in Hval; congruence|done].
  - intros i e He. apply lookup_insert_Some in He as [[<- <-]|[Hi He]].
    + cbn. destruct (do_used _ _ H3) as (_ & _ & Hn). split_and!; lia.
    + destruct (do_item _ _ H3 _ _ He) as (? & ? & ? & ?). split_and!; try done; lia.
  - intros i w Hi. destruct (do_live _ _ H3 i w Hi) as (e & He & Hval). exists e. split; [|done].
    rewrite lookup_insert_ne; [done|]. intros <-. congruence.
  - destruct (do_used _ _ H3) as (Hu & Hm & Hn). rewrite total_cost_insert by done. cbn. lia.
Qed.

(** ** References *)

Lemma set_item_ok s live live' i e e' : dict_ok s live → byID s !! i = Some e → value e' = value e → id e' = id e → cost e' = cost e →
  refs e' = refs_to live' i → (∀ j, j ≠ i → refs_to live' j = refs_to live j) →
  (∀ j v, (j, v) ∈ live' → (j, v) ∈ live ∨ (j, v) = (i, value e)) →
  dict_ok (with_byID s (<[i := e']> (byID s))) live'.
Proof.
  intros H He Hv Hid Hc Hr Hother Hlive. split; cbn.
  - intros v j. rewrite (do_value _ _ H). split; intros (x & Hx & Hval).
    + destruct (decide (j = i)) as [->|]; [exists e'; rewrite lookup_insert_eq; split; congruence|exists x; by rewrite lookup_insert_ne].
    + apply lookup_insert_Some in Hx as [[-> <-]|[_ Hx]]; [exists e; split; congruence|eauto].
  - intros j x Hx. apply lookup_insert_Some in Hx as [[-> <-]|[Hj Hx]].
    + destruct (do_item _ _ H _ _ He) as (E1 & E2 & _ & E4). split_and!; try lia; congruence.
    + rewrite Hother by done. by apply (do_item _ _ H).
  - intros j v Hj. destruct (decide (j = i)) as [->|Hne].
    + exists e'. rewrite lookup_insert_eq. split; [done|]. destruct (Hlive _ _ Hj) as [Hin|[= ->]]; [|congruence].
      destruct (do_live _ _ H _ _ Hin) as (x & Hx & <-). congruence.
    + destruct (Hlive _ _ Hj) as [Hin|[= -> _]]; [|done]. destruct (do_live _ _ H _ _ Hin) as (x & Hx & Hval). exists x. by rewrite lookup_insert_ne.
  - rewrite (total_cost_same _ _ e) by done. apply (do_used _ _ H).
Qed.

Lemma retain_one_ok s live i e : dict_ok s live → byID s !! i = Some e →
  dict_ok (with_byID s (alter (add_refs 1) i (byID s))) ((i, value e) :: live).
Proof.
  intros H He. assert (alter (add_refs 1) i (byID s) = <[i := add_refs 1 e]> (byID s)) as ->.
  { apply map_eq. intros j. destruct (decide (j = i)) as [->|]; [by rewrite lookup_alter_eq, lookup_insert_eq, He|by rewrite lookup_alter_ne, lookup_insert_ne]. }
  destruct (do_item _ _ H _ _ He) as (_ & _ & Hr & _).
  apply (set_item_ok s live _ i e); try done.
  - rewrite refs_to_cons, decide_True by done. cbn. lia.
  - intros j Hj. rewrite refs_to_cons, decide_False by congruence. lia.
  - intros j v Hj. apply elem_of_cons in Hj as [->|?]; auto.
Qed.

Lemma release_one_ok s live i v : dict_ok s ((i, v) :: live) → ∃ s', release_one s i = Ret s' ∧ dict_ok s' live ∧ max s' = max s.
Proof.
  intros H. destruct (do_live _ _ H i v) as (e & He & Hval); [by left|]. destruct (do_item _ _ H _ _ He) as (Hid & Hpos & Hr & Hc).
  rewrite refs_to_cons, decide_True in Hr by done. assert (0 ≤ refs_to live i) by (unfold refs_to; lia).
  unfold release_one. rewrite He. destruct (Z.leb_spec (refs e) 0); [lia|]. cbv zeta.
  assert (Hset : dict_ok (with_byID s (<[i := add_refs (-1) e]> (byID s))) live).
  { apply (set_item_ok s ((i, v) :: live) live i e); try done.
    - cbn. lia.
    - intros j Hj. rewrite refs_to_cons, decide_False by congruence. lia.
    - intros j w Hj. left. by right. }
  destruct (Z.eqb_spec (refs (add_refs (-1) e)) 0) as [Hz|Hz]; [|by eexists].
  eexists. split; [done|]. split; [|done]. cbn in Hz.
  assert (Hd : dict_ok (drop_item (with_byID s (<[i := add_refs (-1) e]> (byID s))) (value e) (add_refs (-1) e)) live).
  { apply (drop_item_ok _ _ (add_refs (-1) e)); [done|cbn; rewrite Hid; by rewrite lookup_insert_eq|cbn; rewrite Hid; lia]. }
  unfold drop_item in *. cbn in *. rewrite Hid in Hd |- *. by rewrite delete_insert_eq in Hd.
Qed.

Lemma retain_all_ok r : ∀ s live, dict_ok s live → (∀ i v, (i, v) ∈ r → ∃ e, byID s !! i = Some e ∧ value e = v) →
  dict_ok (retain_all (map fst r) s) (r ++ live) ∧ max (retain_all (map fst r) s) = max s.
Proof.
  induction r as [|[i v] r IH]; intros s live H Hr; [done|]. cbn [map fst app]. unfold retain_all. cbn [foldl].
  destruct (Hr i v) as (e & He & <-); [by left|]. pose proof (retain_one_ok s live i e H He) as H1.
  destruct (IH _ _ H1) as [H2 Hm].
  { intros j w Hj. destruct (Hr j w) as (x & Hx & <-); [by right|]. cbn. destruct (decide (i = j)) as [->|].
    - rewrite lookup_alter_eq, Hx. by exists (add_refs 1 x).
    - rewrite lookup_alter_ne by done. eauto. }
  unfold retain_all in H2, Hm. split; [|done]. by rewrite Permutation_middle.
Qed.

Lemma Release_ok r : ∀ s live, dict_ok s (r ++ live) → ∃ s', Release s (map fst r) = Ret s' ∧ dict_ok s' live ∧ max s' = max s.
Proof.
  induction r as [|[i v] r IH]; intros s live H; cbn [map fst Release]; [by exists s|].
  destruct (release_one_ok s (r ++ live) i v H) as (s1 & -> & H1 & Hm). rewrite res_bind_ret.
  destruct (IH s1 live H1) as (s2 & -> & H2 & Hm2). exists s2. split_and!; try done. congruence.
Qed.

Lemma Candidate_max order s v : max (Candidate order s v).1 = max s.
Proof.
  assert (He : ∀ order c s, max (evict order c s) = max s).
  { clear. induction order as [|k order IH]; intros c s; cbn [evict]; [done|]. destruct (_ <=? _); [done|].
    destruct (item_of s k); [destruct (_ =? 0)|]; rewrite IH; done. }
  unfold Candidate. destruct (_ || _); [done|]. cbv zeta. destruct (item_of _ v); [done|]. destruct (_ || _); [done|].
  destruct (_ || _); cbn; by rewrite He.
Qed.

(** ** Any interleaving of observations, retains and releases

    A state is a store and the records that hold references; a record lists its
    ids and the values they had when it retained them. *)

Inductive dict_step : Store * list (list (Z * list byte)) → Store * list (list (Z * list byte)) → Prop :=
| step_observe s live order v : dict_step (s, live) ((Candidate order s v).1, live)
| step_retain s live r s' :
    Forall (fun '(i, v) => LookupView s i = Some v) r → Retain s (map fst r) = (s', true) → dict_step (s, live) (s', r :: live)
| step_reject s live ids s' : Retain s ids = (s', false) → dict_step (s, live) (s', live)
| step_release s before r after s' :
    Release s (map fst r) = Ret s' → dict_step (s, before ++ r :: after) (s', before ++ after).

Lemma dict_step_ok st st' m : dict_step st st' → dict_ok st.1 (concat st.2) → max st.1 = m → dict_ok st'.1 (concat st'.2) ∧ max st'.1 = m.
Proof.
  intros Hstep H Hm. destruct Hstep as [s live order v|s live r s' Hr E|s live ids s' E|s before r after s' E]; cbn [fst snd] in *.
  - split; [by apply Candidate_ok|by rewrite Candidate_max].
  - unfold Retain in E. destruct (forallb _ _); [|done]. injection E as <-. cbn [concat].
    destruct (retain_all_ok r s (concat live) H) as [H1 H2]; [|by rewrite H2].
    intros i v Hi. rewrite Forall_forall in Hr. specialize (Hr _ Hi). cbn in Hr. unfold LookupView in Hr.
    destruct (byID s !! i) as [e|]; [|done]. injection Hr as <-. eauto.
  - unfold Retain in E. destruct (forallb _ _); [done|]. by injection E as <-.
  - assert (Hp : dict_ok s (r ++ concat (before ++ after))).
    { eapply dict_ok_Proper; [|exact H]. rewrite !concat_app. cbn [concat]. by rewrite (app_assoc r), (Permutation_app_comm r), <- app_assoc. }
    destruct (Release_ok r s _ Hp) as (s1 & E1 & H1 & Hm1). rewrite E1 in E. injection E as <-. split; [done|congruence].
Qed.

(** C27: The value dictionary never loses a referenced value. In any state
    reached from an empty dictionary by observing values, retaining ids and
    releasing records, in any order and with any eviction order, each live
    record still resolves every id to the value it had when it was retained and
    can be released without a panic; the accounted bytes are exactly those of
    the stored items and stay within the budget. *)
Theorem dictionary_safety budget s live :
  0 ≤ budget → rtc dict_step (New budget, []) (s, live) →
  (∀ r, r ∈ live → Forall (fun '(i, v) => LookupView s i = Some v) r ∧ ∃ s', Release s (map fst r) = Ret s') ∧
  used s = total_cost (byID s) ∧ used s ≤ budget.
Proof.
  intros Hb Hrtc. assert (Hinv : ∀ st st', rtc dict_step st st' → dict_ok st.1 (concat st.2) → max st.1 = budget →
    dict_ok st'.1 (concat st'.2) ∧ max st'.1 = budget).
  { clear. induction 1 as [|st st1 st2 Hstep _ IH]; [done|]. intros H Hm. destruct (dict_step_ok _ _ _ Hstep H Hm). by apply IH. }
  destruct (Hinv _ _ Hrtc (dict_ok_New budget Hb) eq_refl) as [H Hm]. cbn [fst snd] in *. clear Hinv Hrtc.
  split; [|rewrite <- Hm; split; apply (do_used _ _ H)]. intros r Hr. apply list_elem_of_split in Hr as (l1 & l2 & ->).
  rewrite concat_app in H. cbn [concat] in H. split.
  - apply Forall_forall. intros [i v] Hi. destruct (do_live _ _ H i v) as (e & He & <-).
    + apply elem_of_app. right. apply elem_of_app. by left.
    + unfold LookupView. by rewrite He.
  - assert (Hp : dict_ok s (r ++ (concat l1 ++ concat l2))) by (by rewrite app_assoc, (Permutation_app_comm r), <- app_assoc).
    destruct (Release_ok r s _ Hp) as (s' & E & _). eauto.
Qed.

(** ** A concrete run *)

Definition demo_value : list byte := String.list_byte_of_string "snugkv-demo-dictionary-value-01".

Definition demo_observed : Store := Nat.iter 8 (fun s => (Candidate [] s demo_value).1) (New 1024).

Lemma dict_demo_run : rtc dict_step (New 1024, []) (demo_observed, []).
Proof.
  unfold demo_observed. generalize 8%nat. intros n. induction n as [|n IH]; [done|]. eapply rtc_r; [exact IH|]. apply step_observe.
Qed.

Lemma dictionary_safety_witness :
  let s := (Retain demo_observed [1]).1 in LookupView s 1 = Some demo_value ∧ used s ≤ 1024.
Proof.
  assert (Hr : rtc dict_step (New 1024, []) ((Retain demo_observed [1]).1, [[(1, demo_value)]])).
  { eapply rtc_r; [exact dict_demo_run|]. apply (step_retain _ _ [(1, demo_value)]); [by repeat constructor|by vm_compute]. }
  destruct (dictionary_safety 1024 (Retain demo_observed [1]).1 [[(1, demo_value)]]) as (H & _ & Hu); [lia|exact Hr|].
  destruct (H [(1, demo_value)]) as [Hl _]; [by left|]. split; [by apply Forall_inv in Hl|exact Hu].
Defined.
