(* ===== verification/Shape.v ===== *)
(** * JSON shapes

    Model of internal/codec/jsonshape (shape.go and slots.go): a JSON text is split
    into a template of literals and its primitive values; templates that recur
    are admitted to a bounded catalog, and a record then stores only its slots.
    Schemas are shared by pointer: [heap] holds them by address, and the tables
    of the store hold addresses. [json.Valid] is a parameter. The order in which
    Go ranges over a map is an argument. *)
From S2P Require Import Prelude Numerals Codec Dictionary.
Set Default Proof Using "Type".

Module Shape.

Definition MaxInput : Z := Z.shiftl 1 20.
Definition MaxSlots : Z := 4096.

(** ** Splitting *)

Definition quote : byte := x22.
Definition backslash : byte := x5c.

Definition is_ws (b : byte) : bool :=
  bool_decide (b = x20) || bool_decide (b = x0a) || bool_decide (b = x0d) || bool_decide (b = x09).

(** The end of a string literal whose opening quote is before [i]. *)
Fixpoint string_end (fuel : nat) (src : list byte) (i : Z) : res Z :=
  match fuel with
  | O => Ret i
  | S f =>
      if i <? zlen src then
        c ← or_panic (znth src i) oob;
        if bool_decide (c = backslash) then string_end f src (i + 2)
        else if bool_decide (c = quote) then Ret (i + 1)
        else string_end f src (i + 1)
      else Ret i
  end.

Fixpoint skip_ws (fuel : nat) (src : list byte) (i : Z) : Z :=
  match fuel with
  | O => i
  | S f => match znth src i with Some c => if is_ws c then skip_ws f src (i + 1) else i | None => i end
  end.

Definition ends_scalar (b : byte) : bool :=
  bool_decide (b = x2c) || bool_decide (b = x5d) || bool_decide (b = x7d) || is_ws b.

Fixpoint scalar_end (fuel : nat) (src : list byte) (i : Z) : Z :=
  match fuel with
  | O => i
  | S f => match znth src i with Some c => if ends_scalar c then i else scalar_end f src (i + 1) | None => i end
  end.

Definition opens (b : byte) : bool := bool_decide (b = x7b) || bool_decide (b = x5b).
Definition closes (b : byte) : bool := bool_decide (b = x7d) || bool_decide (b = x5d).
Definition starts_scalar (b : byte) : bool :=
  bool_decide (b = x2d) || digit_char b || bool_decide (b = x74) || bool_decide (b = x66) || bool_decide (b = x6e).

(** One primitive value [src[start:i]] is cut out; an object key is not one. *)
Definition cut (src : list byte) (last start i : Z) : res (list byte * list byte) :=
  lit ← or_panic (zslice src last start) oob;
  slot ← or_panic (zslice src start i) oob;
  Ret (lit, slot).

Fixpoint split_loop (fuel : nat) (src : list byte) (last depth i : Z) (literals slots : list (list byte))
    : res (option (list (list byte) * list (list byte))) :=
  match fuel with
  | O => Ret None
  | S f =>
      if i <? zlen src then
        b ← or_panic (znth src i) oob;
        if opens b then
          if 64 <? depth + 1 then Ret None else split_loop f src last (depth + 1) (i + 1) literals slots
        else if closes b then split_loop f src last (depth - 1) (i + 1) literals slots
        else
          stop ← (if bool_decide (b = quote) then
                    e ← string_end (length src) src (i + 1);
                    Ret (e, bool_decide (znth src (skip_ws (length src) src e) = Some x3a))
                  else if starts_scalar b then Ret (scalar_end (length src) src i, false)
                  else Ret (i + 1, true));
          let '(e, skip) := (stop : Z * bool) in
          if skip then split_loop f src last depth e literals slots
          else if MaxSlots <=? zlen slots then Ret None
          else '(lit, slot) ← cut src last i e; split_loop f src e depth e (literals ++ [lit]) (slots ++ [slot])
      else
        lit ← or_panic (zslice src last (zlen src)) oob;
        Ret (Some (literals ++ [lit], slots))
  end.

Definition Split (Valid : list byte → bool) (src : list byte) : res (option (list (list byte) * list (list byte))) :=
  if (MaxInput <? zlen src) || negb (Valid src) then Ret None
  else split_loop (S (length src)) src 0 0 0 [] [].

Definition templateKey (literals : list (list byte)) : list byte :=
  concat (map (fun l => put_uvarint (zlen l) ++ l) literals).

(** ** Slots *)

Definition slotRaw : byte := x00.
Definition slotDictionary : byte := x01.
Definition slotInt : byte := x02.
Definition slotTrue : byte := x03.
Definition slotFalse : byte := x04.
Definition slotNull : byte := x05.

Definition canonicalInt (slot : list byte) : option Z :=
  match slot with
  | [] => None
  | _ =>
      match ParseInt slot with
      | None => None
      | Some n => if bool_decide (FormatInt n = slot) then Some n else None
      end
  end.

Definition raw_slot (slot : list byte) : list byte := [slotRaw] ++ put_uvarint (zlen slot) ++ slot.

(** The package-level encoder: every slot raw. *)
Definition EncodeSlots_raw (slots : list (list byte)) : list byte := concat (map raw_slot slots).

(** The integer form, when it is smaller than the raw one. *)
Definition int_slot (slot : list byte) : option (list byte) :=
  match canonicalInt slot with
  | Some value =>
      if 1 + zlen (put_varint value) <? 1 + zlen (put_uvarint (zlen slot)) + zlen slot
      then Some ([slotInt] ++ put_varint value) else None
  | None => None
  end.

Definition encode_slot (order : list (list byte)) (d : Dictionary.Store) (slot : list byte) : Dictionary.Store * list byte :=
  if bool_decide (slot = text "true") then (d, [slotTrue])
  else if bool_decide (slot = text "false") then (d, [slotFalse])
  else if bool_decide (slot = text "null") then (d, [slotNull])
  else
    match int_slot slot with
    | Some out => (d, out)
    | None =>
        let '(d, found) := Dictionary.Candidate order d slot in
        match found with
        | Some i =>
            let encoded := Dictionary.IDBytes i in
            if zlen encoded + 1 <? zlen slot + 2 then (d, [slotDictionary] ++ encoded) else (d, raw_slot slot)
        | None => (d, raw_slot slot)
        end
    end.

(** [orders] gives the eviction order of each slot's dictionary lookup. *)
Fixpoint EncodeSlots (orders : nat → list (list byte)) (d : Dictionary.Store) (slots : list (list byte))
    : Dictionary.Store * list byte :=
  match slots with
  | [] => (d, [])
  | slot :: slots =>
      let '(d, out) := encode_slot (orders (length slots)) d slot in
      let '(d, rest) := EncodeSlots orders d slots in
      (d, out ++ rest)
  end.

(** One encoded slot: its dictionary id, if any, and the bytes after it. *)
Definition slot_id (data : list byte) : res (list Z * list byte) :=
  match data with
  | [] => Err "missing slot"
  | tag :: data =>
      if bool_decide (tag = slotRaw) then
        let '(n, used) := uvarint data in
        if used <=? 0 then Err "invalid raw slot" else
        let data := drop (Z.to_nat used) data in
        if zlen data <? n then Err "truncated slot" else Ret ([], drop (Z.to_nat n) data)
      else if bool_decide (tag = slotDictionary) then
        let '(i, used) := uvarint data in
        if used <=? 0 then Err "invalid dictionary slot" else Ret ([i], drop (Z.to_nat used) data)
      else if bool_decide (tag = slotInt) then
        let '(_, used) := varint data in
        if used <=? 0 then Err "invalid integer slot" else Ret ([], drop (Z.to_nat used) data)
      else if bool_decide (tag = slotTrue) || bool_decide (tag = slotFalse) || bool_decide (tag = slotNull) then Ret ([], data)
      else Err "invalid slot tag"
  end.

Fixpoint slotIDs (data : list byte) (count : nat) : res (list Z) :=
  match count with
  | O => if negb (zlen data =? 0) then Err "trailing slot data" else Ret []
  | S n => '(ids, data) ← slot_id data; rest ← slotIDs data n; Ret (ids ++ rest)
  end.

(** ** Decoding *)

(** The text of one slot and the bytes after it; [d] is the dictionary the
    schema points to. *)
Definition slot_text (d : option Dictionary.Store) (data : list byte) : res (list byte * list byte) :=
  match data with
  | [] => Err "missing shape slot"
  | tag :: data =>
      if bool_decide (tag = slotRaw) then
        let '(n, used) := uvarint data in
        if used <=? 0 then Err "invalid raw shape slot" else
        let data := drop (Z.to_nat used) data in
        if zlen data <? n then Err "truncated raw slot" else Ret (take (Z.to_nat n) data, drop (Z.to_nat n) data)
      else if bool_decide (tag = slotDictionary) then
        match d with
        | None => Err "missing dictionary"
        | Some d =>
            let '(i, used) := uvarint data in
            if used <=? 0 then Err "invalid dictionary slot" else
            match Dictionary.LookupView d i with
            | Some slot => Ret (slot, drop (Z.to_nat used) data)
            | None => Err "missing dictionary entry"
            end
        end
      else if bool_decide (tag = slotInt) then
        let '(value, used) := varint data in
        if used <=? 0 then Err "invalid integer slot" else Ret (FormatInt value, drop (Z.to_nat used) data)
      else if bool_decide (tag = slotTrue) then Ret (text "true", data)
      else if bool_decide (tag = slotFalse) then Ret (text "false", data)
      else if bool_decide (tag = slotNull) then Ret (text "null", data)
      else Err "invalid slot tag"
  end.

(** [appendChecked]. *)
Definition append_checked (max : Z) (out value : list byte) : res (list byte) :=
  if max - zlen out <? zlen value then Err "shape output exceeds limit" else Ret (out ++ value).

Fixpoint decode_loop (d : option Dictionary.Store) (literals : list (list byte)) (data out : list byte) (max : Z) : res (list byte) :=
  match literals with
  | [] => if negb (zlen data =? 0) then Err "trailing shape data" else Ret out
  | literal :: literals =>
      out ← append_checked max out literal;
      match literals with
      | [] => if negb (zlen data =? 0) then Err "trailing shape data" else Ret out
      | _ =>
          '(value, data) ← slot_text d data;
          out ← append_checked max out value;
          decode_loop d literals data out max
      end
  end.

(** ** Schemas and the catalog *)

Record Schema := mkSchema { Literal : list (list byte); Key : list byte; Bytes : Z; ID : Z; srefs : Z }.

Record Store := mkStore {
  dictionary : Dictionary.Store;
  heap : gmap Z Schema;
  schemas : gmap (list byte) Z;
  byID : gmap Z Z;
  frequency : list Z;                     (* [256]uint8 *)
  observed : gmap (list byte) Z;          (* uint8 counters *)
  used : Z; max : Z;
  nextID : Z;                             (* uint32 *)
  threshold : Z;                          (* uint8 *)
}.

Definition New (maxBytes threshold : Z) : Store :=
  mkStore (Dictionary.New 1024) ∅ ∅ ∅ (replicate 256 0) ∅ 0 maxBytes 1 (if threshold =? 0 then 8 else threshold).

(** A nil schema is [None]; [dict] is what [schema.dictionary] points to. *)
Definition DecodeInto (dict : option Dictionary.Store) (schema : option Schema) (data : list byte) (max : Z) : res (list byte) :=
  match schema with
  | None => Err "missing schema or invalid bound"
  | Some sc =>
      if max <? 0 then Err "missing schema or invalid bound"
      else decode_loop dict (Literal sc) data [] max
  end.

Definition Decode (dict : option Dictionary.Store) (schema : option Schema) (data : list byte) (max : Z) : res (list byte) :=
  DecodeInto dict schema data max.

Definition with_dictionary (s : Store) (d : Dictionary.Store) : Store :=
  mkStore d (heap s) (schemas s) (byID s) (frequency s) (observed s) (used s) (max s) (nextID s) (threshold s).
Definition with_counters (s : Store) (f : list Z) (o : gmap (list byte) Z) : Store :=
  mkStore (dictionary s) (heap s) (schemas s) (byID s) f o (used s) (max s) (nextID s) (threshold s).
Definition with_tables (s : Store) (sc : gmap (list byte) Z) (ids : gmap Z Z) (u : Z) : Store :=
  mkStore (dictionary s) (heap s) sc ids (frequency s) (observed s) u (max s) (nextID s) (threshold s).
Definition with_heap (s : Store) (h : gmap Z Schema) : Store :=
  mkStore (dictionary s) h (schemas s) (byID s) (frequency s) (observed s) (used s) (max s) (nextID s) (threshold s).

Definition schema_at (s : Store) (k : list byte) : option (Z * Schema) :=
  match schemas s !! k with
  | Some a => match heap s !! a with Some sc => Some (a, sc) | None => None end
  | None => None
  end.

Fixpoint trim_observed (order : list (list byte)) (o : gmap (list byte) Z) : gmap (list byte) Z :=
  match order with
  | [] => o
  | k :: order =>
      let o := delete k o in
      if Z.of_nat (size o) <=? 32768 then o else trim_observed order o
  end.

Definition age_observed (order : list (list byte)) (o : gmap (list byte) Z) (k : list byte) : gmap (list byte) Z :=
  if negb (bool_decide (is_Some (o !! k))) && (65536 <=? Z.of_nat (size o)) then
    let o := omap (fun c => if c <=? 1 then None else Some (c / 2)) o in
    if 65536 <=? Z.of_nat (size o) then trim_observed order o else o
  else o.

Fixpoint evict_schemas (order : list (list byte)) (cost : Z) (s : Store) : Store :=
  match order with
  | [] => s
  | k :: order =>
      if used s + cost <=? max s then s else
      match schema_at s k with
      | Some (_, sc) =>
          evict_schemas order cost
            (if srefs sc =? 0 then with_tables s (delete k (schemas s)) (delete (ID sc) (byID s)) (used s - Bytes sc) else s)
      | None => evict_schemas order cost s
      end
  end.

Definition schema_cost (k : list byte) (literals : list (list byte)) : Z :=
  foldl (fun c l => c + (zlen l + 24)) (128 + zlen k) literals.

Definition succ_id (i : Z) : Z := let n := u32 (i + 1) in if n =? 0 then 1 else n.

(** A schema object is never freed in the model, so its address is the number of
    schemas allocated before it. *)
Definition admit_schema (s : Store) (k : list byte) (literals : list (list byte)) (cost : Z) : Store * Z :=
  let a := Z.of_nat (size (heap s)) in
  let sc := mkSchema literals k cost (nextID s) 0 in
  (mkStore (dictionary s) (<[a := sc]> (heap s)) (<[k := a]> (schemas s)) (<[ID sc := a]> (byID s)) (frequency s)
           (delete k (observed s)) (used s + cost) (max s) (succ_id (nextID s)) (threshold s), a).

Definition count_shape (order : list (list byte)) (s : Store) (k : list byte) : Store :=
  let slot := Z.to_nat (fnv64a k mod zlen (frequency s)) in
  let o := age_observed order (observed s) k in
  with_counters s (alter Dictionary.bump slot (frequency s)) (<[k := Dictionary.bump (default 0 (o !! k))]> o).

(** The address of the schema and the slots of [src]. *)
Definition Candidate (Valid : list byte → bool) (order_observed order_schemas : list (list byte)) (s : Store) (src : list byte)
    : res (Store * option (Z * list (list byte))) :=
  parts ← Split Valid src;
  match parts with
  | None | Some (_, []) => Ret (s, None)
  | Some (literals, slots) =>
      let k := templateKey literals in
      let s := count_shape order_observed s k in
      match schemas s !! k with
      | Some a => Ret (s, Some (a, slots))
      | None =>
          if default 0 (observed s !! k) <? threshold s then Ret (s, None) else
          let cost := schema_cost k literals in
          if max s <? cost then Ret (s, None) else
          let s := evict_schemas order_schemas cost s in
          if max s <? used s + cost then Ret (s, None) else
          let '(s, a) := admit_schema s k literals cost in
          Ret (s, Some (a, slots))
      end
  end.

Definition Lookup (Valid : list byte → bool) (s : Store) (src : list byte) : res (option (Z * list (list byte))) :=
  parts ← Split Valid src;
  match parts with
  | None | Some (_, []) => Ret None
  | Some (literals, slots) =>
      match schemas s !! templateKey literals with Some a => Ret (Some (a, slots)) | None => Ret None end
  end.

Definition ByID (s : Store) (i : Z) : option Z := if i =? 0 then None else byID s !! i.

Definition bump_refs (d : Z) (sc : Schema) : Schema := mkSchema (Literal sc) (Key sc) (Bytes sc) (ID sc) (srefs sc + d).
Definition set_id (i : Z) (sc : Schema) : Schema := mkSchema (Literal sc) (Key sc) (Bytes sc) i (srefs sc).

(** Retain a schema by address; [None] is the nil schema. Addresses come from
    the heap, so a lookup in it never misses. *)
Definition Retain (s : Store) (schema : option Z) : Store * bool :=
  match schema with
  | None => (s, true)
  | Some a =>
      match heap s !! a with
      | None => (s, false)
      | Some sc =>
          match schemas s !! Key sc with
          | Some existing =>
              if negb (existing =? a) then (s, false) else (with_heap s (alter (bump_refs 1) a (heap s)), true)
          | None =>
              if max s <? used s + Bytes sc then (s, false) else
              let fresh := ID sc =? 0 in
              let clash := match byID s !! ID sc with Some existing => negb (existing =? a) | None => false end in
              if negb fresh && clash then (s, false) else
              let s := if fresh then
                  mkStore (dictionary s) (alter (set_id (nextID s)) a (heap s)) (schemas s) (byID s) (frequency s) (observed s)
                          (used s) (max s) (succ_id (nextID s)) (threshold s)
                else s in
              let i := match heap s !! a with Some sc => ID sc | None => 0 end in
              let s := with_tables s (<[Key sc := a]> (schemas s)) (<[i := a]> (byID s)) (used s + Bytes sc) in
              (with_heap s (alter (bump_refs 1) a (heap s)), true)
          end
      end
  end.

Definition Release (s : Store) (schema : option Z) : res Store :=
  match schema with
  | None => Ret s
  | Some a =>
      match heap s !! a with
      | None => Ret s
      | Some sc =>
          let s := with_heap s (alter (bump_refs (-1)) a (heap s)) in
          if srefs sc - 1 <? 0 then Panic "negative schema references" else Ret s
      end
  end.

Definition RetainRecord (s : Store) (a : Z) (data : list byte) : res (Store * bool) :=
  match heap s !! a with
  | None => Ret (s, false)
  | Some sc =>
      match slotIDs data (length (Literal sc) - 1) with
      | Ret ids =>
          let '(d, ok) := Dictionary.Retain (dictionary s) ids in
          if negb ok then Ret (s, false) else
          let s := with_dictionary s d in
          let '(s, ok) := Retain s (Some a) in
          if (ok : bool) then Ret (s, true)
          else d ← Dictionary.Release (dictionary s) ids; Ret (with_dictionary s d, false)
      | _ => Ret (s, false)
      end
  end.

Definition ReleaseRecord (s : Store) (a : Z) (data : list byte) : res Store :=
  match heap s !! a with
  | None => Ret s
  | Some sc =>
      match slotIDs data (length (Literal sc) - 1) with
      | Ret ids => d ← Dictionary.Release (dictionary s) ids; Release (with_dictionary s d) (Some a)
      | Err e | Panic e => Panic e
      end
  end.

Definition Stats (s : Store) : Z * Z := (Z.of_nat (size (schemas s)), used s).
Definition DictionaryStats (s : Store) : Z * Z := Dictionary.Stats (dictionary s).
Definition TotalBytes (s : Store) : Z := (Stats s).2 + (DictionaryStats s).2.

End Shape.
