(* ===== verification/Registry.v ===== *)
(** * Codec registry

    Model of the registry of internal/codec (codec.go, compression.go,
    identifier.go, solana.go): codecs are records of operations, as the Go
    interface is; encoding picks the first exact representation that pays,
    decoding dispatches on the codec id. *)
From S2P Require Import Prelude Numerals Codec Ident Compress Solana Dictionary Shape.
Set Default Proof Using "Type".

(** The schema of a record with the dictionary it points to, or nil. *)
Definition SchemaRef : Type := option (Shape.Schema * option Dictionary.Store).

Record Record_ := mkRecord { rSchema : SchemaRef; rID : Z; RawLength : Z; Data : list byte }.

(** The [Codec] interface, with the optional [DecodeInto]; its last argument is
    the capacity of the destination. *)
Record Codec_ := mkCodec {
  cID : Z;
  cName : string;
  cEncode : list byte → res (option (list byte));
  cDecode : list byte → Z → res (list byte);
  cDecodeInto : option (list byte → Z → Z → res (list byte));
}.

Record Registry := mkRegistry { codecs : gmap Z Codec_; order : list Codec_ }.

Definition emptyRegistry : Registry := mkRegistry ∅ [].

Definition Register (r : Registry) (c : Codec_) : res Registry :=
  if bool_decide (is_Some (codecs r !! cID c)) then Err "duplicate codec ID"
  else Ret (mkRegistry (<[cID c := c]> (codecs r)) (order r ++ [c])).

Fixpoint register_all (r : Registry) (cs : list Codec_) : res Registry :=
  match cs with
  | [] => Ret r
  | c :: cs =>
      match Register r c with
      | Ret r => register_all r cs
      | Err e | Panic e => Panic e
      end
  end.

(** The library functions the codecs call. *)
Record Library := mkLibrary {
  ParseFloat : list byte → option Z;
  FormatFloat : Z → list byte;
  CompressBlock : list byte → res (list byte);
  UncompressBlock : list byte → Z → res (list byte);
  EncodeAll : list byte → list byte;
  DecodeAll : list byte → Z → res (list byte);
}.

Section Registry.
Context (lib : Library).

(** Codecs whose [Encode] cannot panic and whose destination is only storage. *)
Definition pure_codec (id : Z) (name : string) (enc : list byte → option (list byte))
    (dec into : list byte → Z → res (list byte)) : Codec_ :=
  mkCodec id name (fun s => Ret (enc s)) dec (Some (fun s n _ => into s n)).

Definition rawCodec := pure_codec Raw "raw" raw_Encode raw_Decode raw_DecodeInto.
Definition integerCodec := pure_codec Integer "integer" integer_Encode integer_Decode integer_DecodeInto.
Definition unsignedIntegerCodec :=
  pure_codec UnsignedInteger "unsigned-integer" unsigned_Encode unsigned_Decode unsigned_DecodeInto.
Definition uuidCodec := mkCodec UUID "uuid" uuid_Encode uuid_Decode (Some (fun s n _ => uuid_DecodeInto s n)).
Definition ulidCodec := mkCodec ULID "ulid" ulid_Encode ulid_Decode (Some (fun s n _ => ulid_DecodeInto s n)).
Definition timestampCodec := pure_codec Timestamp "timestamp" timestamp_Encode timestamp_Decode timestamp_DecodeInto.
Definition float64Codec :=
  pure_codec Float64 "float64" (float64_Encode (ParseFloat lib) (FormatFloat lib)) (float64_Decode (FormatFloat lib))
    (float64_DecodeInto (FormatFloat lib)).
Definition boolCodec := mkCodec Boolean "bool" (fun s => Ret (bool_Encode s)) bool_Decode None.
Definition repeatByteCodec := pure_codec RepeatByte "repeat-byte" repeat_Encode repeat_Decode repeat_DecodeInto.
Definition lz4Codec :=
  pure_codec LZ4 "lz4" (lz4_Encode (CompressBlock lib)) (lz4_Decode (UncompressBlock lib)) (lz4_DecodeInto (UncompressBlock lib)).
Definition zstdCodec :=
  mkCodec Zstandard "zstd" (fun s => Ret (zstd_Encode (EncodeAll lib) s)) (zstd_Decode (DecodeAll lib))
    (Some (zstd_DecodeInto (DecodeAll lib))).
Definition periodicCodec := mkCodec Periodic "periodic" periodic_Encode periodic_Decode (Some (fun s n _ => periodic_DecodeInto s n)).
Definition hexCodec := pure_codec Hex "hex" hex_Encode hex_Decode hex_DecodeInto.
Definition base58Codec := pure_codec Base58 "base58" base58_Encode base58_Decode base58_DecodeInto.
Definition bigDecimalCodec := pure_codec BigDecimal "bigdecimal" bigDecimal_Encode bigDecimal_Decode bigDecimal_DecodeInto.
Definition solanaTokenCodec :=
  mkCodec SolanaTokenAccount "solana-token-account" solana_Encode solana_Decode (Some (fun s n _ => solana_DecodeInto s n)).

Definition all_codecs : list Codec_ :=
  [rawCodec; integerCodec; unsignedIntegerCodec; uuidCodec; ulidCodec; timestampCodec; float64Codec; boolCodec;
   repeatByteCodec; lz4Codec; zstdCodec; periodicCodec; hexCodec; base58Codec; bigDecimalCodec; solanaTokenCodec].

Definition NewRegistry : res Registry := register_all emptyRegistry all_codecs.

Definition Name (r : Registry) (id : Z) : string :=
  if id =? JSONShape then "json-shape"
  else match codecs r !! id with Some c => cName c | None => "unknown" end.

(** ** Encoding *)

Definition plain (id n : Z) (data : list byte) : Record_ := mkRecord None id n data.

(** [err == nil && bytes.Equal(decoded, src)]; a panic is one. *)
Definition verified (decoded : res (list byte)) (src : list byte) : res bool :=
  match decoded with
  | Ret out => Ret (bool_decide (out = src))
  | Err _ => Ret false
  | Panic p => Panic p
  end.

Definition EncodeHexForeground (src : list byte) : res (option Record_) :=
  let n := zlen src in
  if (n <? hexMinDigits) || (hexMaxDigits + 2 <? n) then Ret None else
  match hex_Encode src with
  | None => Ret None
  | Some data =>
      if n <=? zlen data then Ret None else
      first ← or_panic (znth data 0) oob;
      if (n <=? bigDecimalMaxLen) && (Z.land (bz first) hexFlagPrefix =? 0) && allDigits src then Ret None else
      ok ← verified (hex_DecodeInto data n) src;
      Ret (if (ok : bool) then Some (plain Hex n data) else None)
  end.

Definition EncodeSolanaTokenAccount (src : list byte) : res (option Record_) :=
  let n := zlen src in
  if negb (n =? tokenAccountSize) && negb (n =? tokenAccountB64Size) then Ret None else
  enc ← solana_Encode src;
  match enc with
  | None => Ret None
  | Some data =>
      if n <=? zlen data then Ret None else
      ok ← verified (solana_Decode data n) src;
      Ret (if (ok : bool) then Some (plain SolanaTokenAccount n data) else None)
  end.

Definition skipped (id : Z) : bool :=
  (id =? Raw) || (id =? Integer) || (id =? UUID) || (id =? 5) || (RepeatByte <=? id).

Fixpoint encode_loop (cs : list Codec_) (src : list byte) (best : Record_) : res Record_ :=
  match cs with
  | [] => Ret best
  | c :: cs =>
      if skipped (cID c) then encode_loop cs src best else
      enc ← cEncode c src;
      match enc with
      | None => encode_loop cs src best
      | Some data =>
          if zlen (Data best) <=? zlen data then encode_loop cs src best else
          ok ← verified (cDecode c data (zlen src)) src;
          encode_loop cs src (if (ok : bool) then plain (cID c) (zlen src) data else best)
      end
  end.

Definition encode_uuid (src : list byte) : res (option Record_) :=
  if zlen src =? 36 then d ← uuid_Encode src; Ret (option_map (plain UUID (zlen src)) d) else Ret None.
Definition encode_ulid (src : list byte) : res (option Record_) :=
  if zlen src =? 26 then d ← ulid_Encode src; Ret (option_map (plain ULID (zlen src)) d) else Ret None.
Definition encode_int (src : list byte) : option Record_ :=
  if zlen src <=? 20 then
    match canonicalInt64Bytes src with
    | Some n => if zlen (put_varint n) <? zlen src then Some (plain Integer (zlen src) (put_varint n)) else None
    | None => None
    end
  else None.

(** The first of several attempts that succeeds. *)
Fixpoint first_of (tries : list (res (option Record_))) (rest : res Record_) : res Record_ :=
  match tries with
  | [] => rest
  | t :: tries => r ← t; match r with Some rec => Ret rec | None => first_of tries rest end
  end.

Definition Encode (r : Registry) (src : list byte) : res Record_ :=
  first_of [encode_uuid src; encode_ulid src; Ret (encode_int src); EncodeHexForeground src; EncodeSolanaTokenAccount src]
    (let best := plain Raw (zlen src) src in
     if 36 <? zlen src then Ret best
     else if bool_decide (head src = Some x7b) || bool_decide (head src = Some x5b) then Ret best
     else encode_loop (order r) src best).

Definition IsIdentifierCodec (id : Z) : bool :=
  (id =? Hex) || (id =? Base58) || (id =? BigDecimal) || (id =? SolanaTokenAccount).

(** [consider] of [EncodeIdentifier]. *)
Definition consider (src : list byte) (best : option Record_) (id : Z) (c : Codec_) : res (option Record_) :=
  let n := zlen src in
  enc ← cEncode c src;
  match enc with
  | None => Ret best
  | Some data =>
      if n <=? zlen data then Ret best
      else if match best with Some b => zlen (Data b) <=? zlen data | None => false end then Ret best
      else
        ok ← verified (cDecode c data n) src;
        Ret (if (ok : bool) then Some (plain id n data) else best)
  end.

Definition EncodeIdentifier (src : list byte) : res (option Record_) :=
  let n := zlen src in
  if (n <? bigDecimalMinLen) || (hexMaxDigits + 2 <? n) then Ret None else
  first ← or_panic (znth src 0) oob;
  if negb (is_09 first) && negb (is_az first) && negb (is_AZ first) then Ret None else
  best ← (if n <=? bigDecimalMaxLen then consider src None BigDecimal bigDecimalCodec else Ret None);
  best ← (if hexMinDigits <=? n then consider src best Hex hexCodec else Ret best);
  if n <=? 44 then consider src best Base58 base58Codec else Ret best.

(** ** Background compression *)

(** The candidates registered under these ids, in this order. *)
Fixpoint general_loop (r : Registry) (ids : list Z) (src : list byte) (best : Record_) : res Record_ :=
  match ids with
  | [] => Ret best
  | id :: ids =>
      match codecs r !! id with
      | None => Panic "nil codec"
      | Some c =>
          enc ← cEncode c src;
          match enc with
          | None => general_loop r ids src best
          | Some data =>
              if zlen (Data best) <=? zlen data then general_loop r ids src best else
              ok ← verified (cDecode c data (zlen src)) src;
              general_loop r ids src (if (ok : bool) then plain id (zlen src) data else best)
          end
      end
  end.

Definition EncodeGeneralBorrowed (r : Registry) (src : list byte) (cold : bool) : res Record_ :=
  let best := plain Raw (zlen src) src in
  if (zlen src <? 256) || AlreadyCompressed src then Ret best else
  match repeat_Encode src with
  | Some data => Ret (plain RepeatByte (zlen src) data)
  | None =>
      enc ← periodic_Encode src;
      let best := match enc with Some data => plain Periodic (zlen src) data | None => best end in
      if match enc with Some data => zlen data <=? 32 | None => false end then Ret best
      else general_loop r (if cold then [LZ4; Zstandard] else [LZ4]) src best
  end.

(** The raw fallback is cloned; a clone has the same bytes. *)
Definition EncodeGeneral (r : Registry) (src : list byte) (cold : bool) : res Record_ := EncodeGeneralBorrowed r src cold.

Record CompressionCandidate := mkCandidate { cc_Name : string; cc_Bytes : Z; cc_ID : Z }.

Fixpoint candidates_loop (r : Registry) (ids : list Z) (src : list byte) : res (list CompressionCandidate) :=
  match ids with
  | [] => Ret []
  | id :: ids =>
      match codecs r !! id with
      | None => candidates_loop r ids src
      | Some c =>
          enc ← cEncode c src;
          match enc with
          | None => candidates_loop r ids src
          | Some data =>
              ok ← verified (cDecode c data (zlen src)) src;
              rest ← candidates_loop r ids src;
              Ret (if (ok : bool) then mkCandidate (cName c) (zlen data) id :: rest else rest)
          end
      end
  end.

Definition CompressionCandidates (r : Registry) (src : list byte) : res (list CompressionCandidate) :=
  if (zlen src <? 256) || AlreadyCompressed src then Ret []
  else candidates_loop r [RepeatByte; Periodic; LZ4; Zstandard] src.

(** ** Decoding *)

Definition shape_decode (rec : Record_) : res (list byte) :=
  Shape.Decode (rSchema rec ≫= snd) (fst <$> rSchema rec) (Data rec) (RawLength rec).

Definition length_checked (rec : Record_) (out : res (list byte)) : res (list byte) :=
  o ← out; if negb (zlen o =? RawLength rec) then Err "decoded length mismatch" else Ret o.

Definition Decode (r : Registry) (rec : Record_) (max : Z) : res (list byte) :=
  if (RawLength rec <? 0) || (max <? RawLength rec) then Err "decoded length exceeds limit"
  else if rID rec =? JSONShape then length_checked rec (shape_decode rec)
  else match codecs r !! rID rec with
       | None => Err "unknown codec ID"
       | Some c => length_checked rec (cDecode c (Data rec) (RawLength rec))
       end.

(** [dst_cap] is the capacity of the destination buffer. *)
Definition DecodeInto (r : Registry) (rec : Record_) (max dst_cap : Z) : res (list byte) :=
  if (RawLength rec <? 0) || (max <? RawLength rec) then Err "decoded length exceeds limit"
  else
    let n := RawLength rec in let d := Data rec in let id := rID rec in
    if id =? Raw then length_checked rec (raw_DecodeInto d n)
    else if id =? UUID then length_checked rec (uuid_DecodeInto d n)
    else if id =? ULID then length_checked rec (ulid_DecodeInto d n)
    else if id =? RepeatByte then length_checked rec (repeat_DecodeInto d n)
    else if id =? LZ4 then length_checked rec (lz4_DecodeInto (UncompressBlock lib) d n)
    else if id =? Zstandard then length_checked rec (zstd_DecodeInto (DecodeAll lib) d n dst_cap)
    else if id =? Periodic then length_checked rec (periodic_DecodeInto d n)
    else if id =? JSONShape then length_checked rec (shape_decode rec)
    else match codecs r !! id with
         | None => Err "unknown codec ID"
         | Some c => match cDecodeInto c with
                     | Some into => length_checked rec (into d n dst_cap)
                     | None => Decode r rec max
                     end
         end.
End Registry.
