(* ===== verification/RegistrySpec.v ===== *)
(** * Properties of the codec registry

    Every representation the registry chooses is decoded back to the value it was
    given, byte for byte, and is never larger; the direct dispatch of
    [DecodeInto] agrees with [Decode]; the exact codecs need no verification. *)
From S2P Require Import Prelude Numerals Codec CodecFacts Ident IdentFacts Compress Solana Dictionary Shape Registry.
Set Default Proof Using "Type".

(** ** The registered codecs *)

Lemma register_all_ok cs : ∀ r, NoDup (map cID cs) → (∀ c, c ∈ cs → codecs r !! cID c = None) →
  ∃ r', register_all r cs = Ret r' ∧ order r' = order r ++ cs ∧ (∀ c, c ∈ cs → codecs r' !! cID c = Some c) ∧
    (∀ i, i ∉ map cID cs → codecs r' !! i = codecs r !! i).
Proof.
  induction cs as [|c cs IH]; intros r Hnd Hno; cbn [register_all].
  - exists r. rewrite app_nil_r. split_and!; try done. intros c Hc. by apply elem_of_nil in Hc.
  - cbn [map] in Hnd. apply NoDup_cons in Hnd as [Hc Hnd]. unfold Register. rewrite (Hno c) by left.
    rewrite bool_decide_false by (by intros [? ?]).
    destruct (IH (mkRegistry (<[cID c := c]> (codecs r)) (order r ++ [c])) Hnd) as (r' & -> & Ho & Hin & Hout).
    { intros d Hd. cbn. rewrite lookup_insert_ne; [apply Hno; by right|]. intros E. apply Hc. rewrite E. by apply list_elem_of_fmap_2. }
    exists r'. split; [done|]. cbn in Ho. split; [by rewrite Ho, <- app_assoc|]. split.
    + intros d [->|Hd]%elem_of_cons; [|by apply Hin]. rewrite Hout by done. cbn. apply lookup_insert_eq.
    + intros i Hi. cbn [map] in Hi. apply not_elem_of_cons in Hi as [Hne Hi]. rewrite Hout by done. cbn. by apply lookup_insert_ne.
Qed.

Definition registered (lib : Library) (r : Registry) : Prop :=
  order r = all_codecs lib ∧ ∀ c, c ∈ all_codecs lib → codecs r !! cID c = Some c.

Lemma NewRegistry_ok lib : ∃ r, NewRegistry lib = Ret r ∧ registered lib r.
Proof.
  destruct (register_all_ok (all_codecs lib) emptyRegistry) as (r & E & Ho & Hin & _).
  - apply (bool_decide_unpack _). by vm_compute.
  - intros c _. apply lookup_empty.
  - exists r. split; [exact E|]. by split.
Qed.

Ltac in_list := repeat (first [by left | right]).

(** A record whose codec rebuilds its source. *)
Lemma Decode_registered lib r c data n src max :
  registered lib r → c ∈ all_codecs lib → cDecode c data n = Ret src → n = zlen src → zlen src ≤ max → cID c ≠ JSONShape →
  Decode r (plain (cID c) n data) max = Ret src.
Proof.
  intros [_ Hr] Hc Hd -> Hm Hid. unfold Decode, plain. cbn [RawLength rID Data]. pose proof (zlen_nonneg src).
  destruct (Z.ltb_spec (zlen src) 0), (Z.ltb_spec max (zlen src)); try lia. cbn [orb].
  destruct (Z.eqb_spec (cID c) JSONShape); [done|]. rewrite (Hr c Hc), Hd. unfold length_checked. rewrite res_bind_ret.
  cbn [RawLength]. by rewrite Z.eqb_refl.
Qed.

(** ** What an encoder may return *)

Definition faithful (r : Registry) (src : list byte) (rec : Record_) : Prop :=
  RawLength rec = zlen src ∧ 0 ≤ rID rec ≤ 16 ∧ zlen (Data rec) ≤ zlen src ∧ rSchema rec = None ∧
  ∀ max, zlen src ≤ max → Decode r rec max = Ret src.

Lemma faithful_codec lib r c data src :
  registered lib r → c ∈ all_codecs lib → cDecode c data (zlen src) = Ret src → zlen data ≤ zlen src → cID c ≠ JSONShape →
  faithful r src (plain (cID c) (zlen src) data).
Proof.
  intros Hr Hc Hd Hl Hid. split; [done|]. split; [cbn|split; [done|split; [done|]]].
  - assert (H : Forall (fun c => 0 ≤ cID c ≤ 16) (all_codecs lib)) by (repeat constructor; vm_compute; congruence).
    rewrite Forall_forall in H. apply (H c Hc).
  - intros max Hm. by eapply Decode_registered.
Qed.

Definition attempt_ok (r : Registry) (src : list byte) (t : res (option Record_)) : Prop :=
  ∃ o, t = Ret o ∧ match o with Some rec => faithful r src rec | None => True end.

Lemma first_of_ok r src tries rest : Forall (attempt_ok r src) tries → (∃ rec, rest = Ret rec ∧ faithful r src rec) →
  ∃ rec, first_of tries rest = Ret rec ∧ faithful r src rec.
Proof.
  intros H Hr. induction H as [|t tries (o & -> & Ho) _ IH]; cbn [first_of]; [done|]. rewrite res_bind_ret. destruct o; eauto.
Qed.

Lemma verified_inv d src ok : verified d src = Ret ok → ok = true → d = Ret src.
Proof. destruct d; cbn; intros [= <-] H; [|done]. apply bool_decide_eq_true in H. congruence. Qed.

Lemma verified_total d src : is_panic d = false → ∃ ok, verified d src = Ret ok.
Proof. destruct d; cbn; eauto. done. Qed.

(** An attempt that keeps a payload only when decoding rebuilds the source. *)
Lemma attempt_verified lib r c data src :
  registered lib r → c ∈ all_codecs lib → is_panic (cDecode c data (zlen src)) = false → zlen data < zlen src → cID c ≠ JSONShape →
  ∃ ok, verified (cDecode c data (zlen src)) src = Ret ok ∧ (ok = true → faithful r src (plain (cID c) (zlen src) data)).
Proof.
  intros Hr Hc Hp Hl Hid. destruct (verified_total _ src Hp) as [ok E]. exists ok. split; [done|]. intros Hok.
  eapply faithful_codec; try done; [by eapply verified_inv|lia].
Qed.

Lemma faithful_raw lib r src : registered lib r → faithful r src (plain Raw (zlen src) src).
Proof.
  intros Hr. apply (faithful_codec lib r (rawCodec)); [done|by left| |lia|done]. cbn. unfold raw_Decode. by rewrite Z.eqb_refl.
Qed.

(** ** No decoder of a synchronous codec panics *)

Lemma bind_calm {A B} (m : res A) (f : A → res B) : is_panic m = false → (∀ a, is_panic (f a) = false) → is_panic (m ≫= f) = false.
Proof. destruct m; cbn; auto. Qed.

Lemma next_uvarint_calm p : is_panic (next_uvarint p) = false.
Proof. unfold next_uvarint. destruct (uvarint p) as [v n]. by destruct (n <=? 0). Qed.

Lemma take_bytes_calm p n : is_panic (take_bytes p n) = false.
Proof. unfold take_bytes. by destruct (zlen p <? n). Qed.

Lemma token_record_calm src flags state : is_panic (token_record src flags state) = false.
Proof.
  unfold token_record. apply bind_calm; [apply next_uvarint_calm|]. intros [amount p].
  apply bind_calm; [destruct (has_flag _ _); [apply bind_calm; [apply take_bytes_calm|by intros []]|done]|]. intros [raw p1].
  apply bind_calm; [destruct (has_flag _ _); [apply bind_calm; [apply next_uvarint_calm|by intros []]|done]|]. intros [raw1 p2].
  apply bind_calm; [apply next_uvarint_calm|]. intros [delegated p3].
  apply bind_calm; [destruct (has_flag _ _); [apply bind_calm; [apply take_bytes_calm|by intros []]|done]|]. intros [raw2 p4].
  by destruct (negb _).
Qed.

Lemma solana_calm data n : is_panic (solana_Decode data n) = false.
Proof.
  unfold solana_Decode, solana_DecodeInto. destruct (_ && _); [done|]. destruct (Z.ltb_spec (zlen data) (1 + 64 + 1 + 1)); [done|].
  destruct data as [|f body]; [change (zlen (@nil byte)) with 0 in *; lia|]. destruct (negb _); [done|]. destruct (2 <? _); [done|].
  apply bind_calm; [apply token_record_calm|done].
Qed.

Lemma sync_calm lib c : c ∈ all_codecs lib → skipped (cID c) = false → ∀ d n, is_panic (cDecode c d n) = false.
Proof.
  intros Hc Hs d n. unfold all_codecs in Hc. repeat (apply elem_of_cons in Hc as [->|Hc]; [try (by vm_compute in Hs)|]);
    [..|by apply elem_of_nil in Hc]; clear Hs; cbn.
  - unfold unsigned_Decode. repeat case_match; done.
  - unfold timestamp_Decode. repeat case_match; done.
  - unfold float64_Decode. repeat case_match; done.
  - unfold bool_Decode. repeat case_match; done.
Qed.

Lemma sync_encode lib c : c ∈ all_codecs lib → skipped (cID c) = false → ∀ s, ∃ o, cEncode c s = Ret o.
Proof.
  intros Hc Hs s. unfold all_codecs in Hc. repeat (apply elem_of_cons in Hc as [->|Hc]; [try (by vm_compute in Hs)|]);
    [..|by apply elem_of_nil in Hc]; cbn; eauto.
Qed.

(** ** The attempts of [Encode] *)

Section Attempts.
Context (lib : Library) (r : Registry) (Hr : registered lib r).

Lemma encode_uuid_ok src : attempt_ok r src (encode_uuid src).
Proof using All.
  unfold encode_uuid. destruct (Z.eqb_spec (zlen src) 36); [|by exists None]. pose proof (uuid_lossless src) as H.
  destruct (uuid_Encode src) as [[d|]| |]; [| |done..]; rewrite res_bind_ret; eexists; (split; [done|]); [|done]. cbn [option_map].
  destruct H as [Hd H]. apply (faithful_codec lib r uuidCodec); [done|in_list|apply H|lia|done].
Qed.

Lemma encode_ulid_ok src : attempt_ok r src (encode_ulid src).
Proof using All.
  unfold encode_ulid. destruct (Z.eqb_spec (zlen src) 26); [|by exists None]. pose proof (ulid_lossless src) as H.
  destruct (ulid_Encode src) as [[d|]| |]; [| |done..]; rewrite res_bind_ret; eexists; (split; [done|]); [|done]. cbn [option_map].
  destruct H as [Hd H]. apply (faithful_codec lib r ulidCodec); [done|in_list|apply H|lia|done].
Qed.

Lemma encode_int_ok src : attempt_ok r src (Ret (encode_int src)).
Proof using All.
  eexists. split; [done|]. unfold encode_int. destruct (zlen src <=? 20); [|done].
  destruct (canonicalInt64Bytes src) as [n|] eqn:E; [|done]. destruct (Z.ltb_spec (zlen (put_varint n)) (zlen src)); [|done].
  apply (faithful_codec lib r integerCodec); [done|in_list| |lia|done]. cbn. apply integer_lossless.
  unfold integer_Encode. by rewrite E.
Qed.

Lemma hex_head src data : hex_Encode src = Some data → ∃ b, znth data 0 = Some b.
Proof using Type.
  unfold hex_Encode. destruct (hex_split src) as [flags digits]. destruct (_ || _ || _); [done|].
  destruct (hex_pairs digits [] false false) as [[[out u] l]|]; [|done]. destruct (u && l), u; intros [= <-]; eexists; reflexivity.
Qed.

Lemma encode_hex_ok src : attempt_ok r src (EncodeHexForeground src).
Proof using All.
  unfold EncodeHexForeground. destruct (_ || _); [by exists None|]. destruct (hex_Encode src) as [data|] eqn:E; [|by exists None].
  destruct (Z.leb_spec (zlen src) (zlen data)); [by exists None|]. destruct (hex_head _ _ E) as [b ->]. cbn [or_panic]. rewrite res_bind_ret.
  destruct (_ && _ && _); [by exists None|]. change (hex_DecodeInto data (zlen src)) with (hex_Decode data (zlen src)).
  rewrite (hex_lossless _ _ E). cbn [verified]. rewrite res_bind_ret, bool_decide_true by done. eexists. split; [done|].
  apply (faithful_codec lib r hexCodec); [done|in_list|cbn; by apply hex_lossless|lia|done].
Qed.

Lemma encode_solana_ok src : attempt_ok r src (EncodeSolanaTokenAccount src).
Proof using All.
  unfold EncodeSolanaTokenAccount. destruct (_ && _); [by exists None|]. destruct (solana_no_panic src) as [[data|] ->]; rewrite res_bind_ret; [|by exists None].
  destruct (Z.leb_spec (zlen src) (zlen data)); [by exists None|].
  destruct (attempt_verified lib r solanaTokenCodec data src) as (ok & E & Hok); [done|in_list|apply solana_calm|lia|done|].
  change (verified (solana_Decode data (zlen src)) src = Ret ok) in E. rewrite E, res_bind_ret. eexists. split; [done|].
  destruct ok; [by apply Hok|done].
Qed.

Lemma encode_loop_ok cs src : (∀ c, c ∈ cs → c ∈ all_codecs lib) → ∀ best, faithful r src best →
  ∃ rec, encode_loop cs src best = Ret rec ∧ faithful r src rec.
Proof using All.
  induction cs as [|c cs IH]; intros Hcs best Hb; cbn [encode_loop]; [eauto|].
  assert (Hc : c ∈ all_codecs lib) by (apply Hcs; by left). assert (Hcs' : ∀ c, c ∈ cs → c ∈ all_codecs lib) by (intros; apply Hcs; by right).
  destruct (skipped (cID c)) eqn:Hs; [by apply IH|]. destruct (sync_encode lib c Hc Hs src) as [[data|] ->]; rewrite res_bind_ret; [|by apply IH].
  destruct (Z.leb_spec (zlen (Data best)) (zlen data)); [by apply IH|]. destruct Hb as (Hl & Hid & Hlen & Hrest).
  destruct (attempt_verified lib r c data src) as (ok & -> & Hok); [done|done|by apply (sync_calm lib)|lia| |].
  { intros E. rewrite E in Hs. done. }
  rewrite res_bind_ret. apply IH; [done|]. destruct ok; [by apply Hok|by split].
Qed.

Lemma Encode_ok src : ∃ rec, Encode r src = Ret rec ∧ faithful r src rec.
Proof using All.
  unfold Encode. apply first_of_ok.
  { repeat constructor; [apply encode_uuid_ok|apply encode_ulid_ok|apply encode_int_ok|apply encode_hex_ok|apply encode_solana_ok]. }
  pose proof (faithful_raw lib r src Hr) as Hraw. cbv zeta. destruct (36 <? zlen src); [eauto|]. destruct (_ || _); [eauto|].
  apply encode_loop_ok; [|done]. destruct Hr as [-> _]. done.
Qed.

(** ** The background encoders *)

Definition choice_ok (src : list byte) (o : option Record_) : Prop :=
  match o with Some rec => faithful r src rec ∧ zlen (Data rec) < zlen src | None => True end.

Lemma consider_ok src best c : choice_ok src best → c ∈ all_codecs lib → cID c ≠ JSONShape →
  (∃ o, cEncode c src = Ret o ∧ ∀ d, o = Some d → cDecode c d (zlen src) = Ret src) →
  ∃ o, consider src best (cID c) c = Ret o ∧ choice_ok src o.
Proof using All.
  intros Hb Hc Hid (o & E & Hd). unfold consider. rewrite E, res_bind_ret. destruct o as [data|]; [|eauto].
  destruct (Z.leb_spec (zlen src) (zlen data)); [eauto|]. destruct (match best with Some b => _ | None => _ end); [eauto|].
  specialize (Hd data eq_refl). rewrite Hd. cbn [verified]. rewrite res_bind_ret, bool_decide_true by done.
  eexists. split; [done|]. split; [|done]. apply (faithful_codec lib); try done. lia.
Qed.

Lemma EncodeIdentifier_ok src : ∃ o, EncodeIdentifier src = Ret o ∧ choice_ok src o.
Proof using All.
  unfold EncodeIdentifier. destruct (Z.ltb_spec (zlen src) bigDecimalMinLen); [by exists None|].
  destruct (hexMaxDigits + 2 <? zlen src); [by exists None|]. cbn [orb]. change bigDecimalMinLen with 20 in *.
  destruct (znth_is_Some src 0) as [f ->]; [lia|]. cbn [or_panic]. rewrite res_bind_ret. destruct (_ && _ && _); [by exists None|].
  assert (Hc : ∀ (b : bool) best c, choice_ok src best → c ∈ all_codecs lib → cID c ≠ JSONShape →
    (∃ o, cEncode c src = Ret o ∧ ∀ d, o = Some d → cDecode c d (zlen src) = Ret src) →
    ∃ o, (if b then consider src best (cID c) c else Ret best) = Ret o ∧ choice_ok src o).
  { intros [] best c Hb H1 H2 H3; [by apply consider_ok|eauto]. }
  destruct (Hc (zlen src <=? bigDecimalMaxLen) None bigDecimalCodec) as (o1 & E1 & H1); [done|in_list|done| |].
  { eexists. split; [done|]. cbn. intros d E. by apply bigDecimal_lossless in E as [_ ?]. }
  cbn [cID bigDecimalCodec pure_codec] in E1. rewrite E1, res_bind_ret.
  destruct (Hc (hexMinDigits <=? zlen src) o1 hexCodec) as (o2 & E2 & H2); [done|in_list|done| |].
  { eexists. split; [done|]. cbn. intros d E. by apply hex_lossless in E. }
  cbn [cID hexCodec pure_codec] in E2. rewrite E2, res_bind_ret.
  apply (Hc (zlen src <=? 44) o2 base58Codec); [done|in_list|done|].
  eexists. split; [done|]. cbn. intros d E. by apply base58_lossless in E as [_ ?].
Qed.

Context (Hlz4 : ∀ s n, is_panic (UncompressBlock lib s n) = false) (Hzstd : ∀ s n, is_panic (DecodeAll lib s n) = false).

Lemma general_loop_ok src c : 0 ≤ zlen src → (c = lz4Codec lib ∨ c = zstdCodec lib) → ∀ ids best, faithful r src best →
  (∀ best, faithful r src best → ∃ rec, general_loop r ids src best = Ret rec ∧ faithful r src rec) →
  ∃ rec, general_loop r (cID c :: ids) src best = Ret rec ∧ faithful r src rec.
Proof using All.
  intros Hn Hc ids best Hb IH. cbn [general_loop]. assert (Hin : c ∈ all_codecs lib) by (destruct Hc as [->| ->]; in_list).
  assert (Hcalm : ∀ d, is_panic (cDecode c d (zlen src)) = false).
  { intros d. destruct Hc as [->| ->]; cbn.
    - unfold lz4_Decode. destruct (Z.ltb_spec (zlen src) 0); [lia|]. apply bind_calm; [apply Hlz4|]. intros o. by destruct (negb _).
    - unfold zstd_Decode. destruct (_ || _); [done|]. apply bind_calm; [apply Hzstd|]. intros o. by destruct (negb _). }
  destruct Hr as [_ Hreg]. rewrite (Hreg c Hin). assert (∃ o, cEncode c src = Ret o) as [o ->] by (destruct Hc as [->| ->]; cbn; eauto).
  rewrite res_bind_ret. destruct o as [data|]; [|by apply IH]. destruct (Z.leb_spec (zlen (Data best)) (zlen data)); [by apply IH|].
  pose proof Hb as (_ & _ & Hlen & _).
  destruct (attempt_verified lib r c data src) as (ok & -> & Hok); [done|done|apply Hcalm|lia|by destruct Hc as [->| ->]|].
  rewrite res_bind_ret. apply IH. destruct ok; [by apply Hok|done].
Qed.

Lemma EncodeGeneral_ok src cold : ∃ rec, EncodeGeneral r src cold = Ret rec ∧ faithful r src rec.
Proof using All.
  unfold EncodeGeneral, EncodeGeneralBorrowed. pose proof (faithful_raw lib r src Hr) as Hraw. pose proof (zlen_nonneg src).
  destruct (Z.ltb_spec (zlen src) 256); [by eexists|]. destruct (AlreadyCompressed src); [by eexists|]. cbn [orb].
  destruct (repeat_Encode src) as [data|] eqn:E.
  { eexists. split; [done|]. apply repeat_lossless in E as [El E]. apply (faithful_codec lib r repeatByteCodec); [done|in_list|done|lia|done]. }
  pose proof (periodic_lossless src) as Hp. destruct (periodic_Encode src) as [enc| |]; [|done..]. rewrite res_bind_ret.
  assert (Hbest : faithful r src (match enc with Some data => plain Periodic (zlen src) data | None => plain Raw (zlen src) src end)).
  { destruct enc as [data|]; [|done]. destruct Hp as [Hl Hd]. apply (faithful_codec lib r periodicCodec); [done|in_list|done|lia|done]. }
  cbv zeta. destruct (match enc with Some data => zlen data <=? 32 | None => false end); [eauto|].
  assert (Hnil : ∀ b, faithful r src b → ∃ rec, general_loop r [] src b = Ret rec ∧ faithful r src rec) by (intros; by eexists).
  destruct cold; (apply (general_loop_ok src (lz4Codec lib)); [done|by left|done|]); [|done].
  intros b Hb'. apply (general_loop_ok src (zstdCodec lib)); [done|by right|done|done].
Qed.
End Attempts.

(** ** Direct dispatch *)

Lemma length_checked_Ret rec o out : length_checked rec o = Ret out ↔ o = Ret out ∧ zlen out = RawLength rec.
Proof.
  unfold length_checked. destruct o as [a| |]; cbn; [|split; [done|by intros [? _]]..].
  destruct (Z.eqb_spec (zlen a) (RawLength rec)); cbn; split; try done; [intros [= ->]; done|by intros [[= ->] _]|by intros [[= ->] ?]].
Qed.

(** A codec whose [DecodeInto] gives the result of [Decode], for outputs of the
    recorded length. *)
Definition into_agrees (into : list byte → Z → Z → res (list byte)) (dec : list byte → Z → res (list byte)) : Prop :=
  ∀ d n cap out, 0 ≤ n → zlen out = n → into d n cap = Ret out ↔ dec d n = Ret out.

(** [DecodeAll] produces the whole content or fails; the capacity only bounds it. *)
Definition cap_bounds (DecodeAll : list byte → Z → res (list byte)) : Prop :=
  ∀ s c out, DecodeAll s c = Ret out → ∀ c', zlen out ≤ c' → DecodeAll s c' = Ret out.

Lemma zstd_agrees f : cap_bounds f → into_agrees (zstd_DecodeInto f) (zstd_Decode f).
Proof.
  intros Hf d n cap out Hn Hl. unfold zstd_DecodeInto, zstd_Decode. destruct (_ || _); [done|]. cbv zeta.
  assert (Hcap : n ≤ (if cap <? n then n else cap)) by (destruct (Z.ltb_spec cap n); lia).
  set (c := if cap <? n then n else cap) in *.
  assert (Hiff : ∀ o, zlen o = n → f d c = Ret o ↔ f d n = Ret o) by (intros o Ho; split; intros E; apply (Hf _ _ _ E); lia).
  destruct (f d c) as [a| |] eqn:E1, (f d n) as [b| |] eqn:E2; cbn.
  all: try (destruct (Z.eqb_spec (zlen a) n) as [Ha|Ha]); try (destruct (Z.eqb_spec (zlen b) n) as [Hb|Hb]); cbn; try done.
  all: try (pose proof (proj1 (Hiff a Ha) eq_refl)); try (pose proof (proj2 (Hiff b Hb) eq_refl)); simplify_eq; try done.
  all: split; intros [= ->]; lia.
Qed.

Lemma into_eq (f g : list byte → Z → res (list byte)) : (∀ d n, f d n = g d n) → into_agrees (fun d n _ => f d n) g.
Proof. intros H d n cap out _ _. by rewrite H. Qed.

Lemma into_registered lib c into : cap_bounds (DecodeAll lib) → c ∈ all_codecs lib → cDecodeInto c = Some into → into_agrees into (cDecode c).
Proof.
  intros Hz Hc Hi. unfold all_codecs in Hc. repeat (apply elem_of_cons in Hc as [->|Hc]; [|]); [..|by apply elem_of_nil in Hc];
    cbn in Hi; try done; injection Hi as <-; cbn [cDecode]; try (by apply into_eq); try (by apply zstd_agrees).
  - intros d n cap out Hn Hl. cbn. unfold raw_DecodeInto, raw_Decode. destruct (Z.eqb_spec (zlen d) n) as [<-|]; [|done].
    by rewrite to_nat_zlen, firstn_all.
Qed.

(** The registered codec an id dispatches to. *)
Lemma dispatch lib r rec max cap out c into :
  registered lib r → cap_bounds (DecodeAll lib) → c ∈ all_codecs lib → cDecodeInto c = Some into → rID rec = cID c → cID c ≠ JSONShape →
  0 ≤ RawLength rec ≤ max →
  length_checked rec (into (Data rec) (RawLength rec) cap) = Ret out ↔ Decode r rec max = Ret out.
Proof.
  intros [_ Hr] Hz Hc Hi Hid Hne Hl. unfold Decode. destruct (Z.ltb_spec (RawLength rec) 0), (Z.ltb_spec max (RawLength rec)); try lia.
  cbn [orb]. rewrite Hid, (Hr c Hc). destruct (Z.eqb_spec (cID c) JSONShape); [done|]. rewrite !length_checked_Ret.
  pose proof (into_registered lib c into Hz Hc Hi (Data rec) (RawLength rec) cap out) as Ha.
  split; intros [H1 H2]; (split; [|done]); apply Ha; done || lia.
Qed.

Lemma DecodeInto_ok lib r rec max cap out : registered lib r → cap_bounds (DecodeAll lib) →
  (∀ i, codecs r !! i = None ∨ ∃ c, c ∈ all_codecs lib ∧ codecs r !! i = Some c ∧ cID c = i) →
  DecodeInto lib r rec max cap = Ret out ↔ Decode r rec max = Ret out.
Proof.
  intros Hr Hz Hall. unfold DecodeInto. destruct (Z.ltb_spec (RawLength rec) 0); [by unfold Decode; destruct (Z.ltb_spec (RawLength rec) 0); [|lia]|].
  destruct (Z.ltb_spec max (RawLength rec)); [by unfold Decode; destruct (Z.ltb_spec (RawLength rec) 0), (Z.ltb_spec max (RawLength rec)); try lia|].
  cbn [orb]. cbv zeta.
  destruct (Z.eqb_spec (rID rec) Raw) as [E|_]; [by apply (dispatch lib r rec max cap out rawCodec (fun d n _ => raw_DecodeInto d n)); [| |in_list|..]|].
  destruct (Z.eqb_spec (rID rec) UUID) as [E|_]; [by apply (dispatch lib r rec max cap out uuidCodec (fun d n _ => uuid_DecodeInto d n)); [| |in_list|..]|].
  destruct (Z.eqb_spec (rID rec) ULID) as [E|_]; [by apply (dispatch lib r rec max cap out ulidCodec (fun d n _ => ulid_DecodeInto d n)); [| |in_list|..]|].
  destruct (Z.eqb_spec (rID rec) RepeatByte) as [E|_]; [by apply (dispatch lib r rec max cap out repeatByteCodec (fun d n _ => repeat_DecodeInto d n)); [| |in_list|..]|].
  destruct (Z.eqb_spec (rID rec) LZ4) as [E|_]; [by apply (dispatch lib r rec max cap out (lz4Codec lib) (fun d n _ => lz4_DecodeInto (UncompressBlock lib) d n)); [| |in_list|..]|].
  destruct (Z.eqb_spec (rID rec) Zstandard) as [E|_]; [by apply (dispatch lib r rec max cap out (zstdCodec lib) (zstd_DecodeInto (DecodeAll lib))); [| |in_list|..]|].
  destruct (Z.eqb_spec (rID rec) Periodic) as [E|_]; [by apply (dispatch lib r rec max cap out periodicCodec (fun d n _ => periodic_DecodeInto d n)); [| |in_list|..]|].
  destruct (Z.eqb_spec (rID rec) JSONShape) as [E|Hj].
  { unfold Decode. destruct (Z.ltb_spec (RawLength rec) 0), (Z.ltb_spec max (RawLength rec)); try lia. cbn [orb]. by rewrite E. }
  destruct (Hall (rID rec)) as [E|(c & Hc & E & Hid)]; rewrite E.
  - unfold Decode. destruct (Z.ltb_spec (RawLength rec) 0), (Z.ltb_spec max (RawLength rec)); try lia. cbn [orb].
    destruct (Z.eqb_spec (rID rec) JSONShape); [done|by rewrite E].
  - destruct (cDecodeInto c) as [into|] eqn:Hi; [|done]. apply (dispatch lib r rec max cap out c); try done; congruence.
Qed.

Lemma NewRegistry_only lib r : NewRegistry lib = Ret r →
  registered lib r ∧ ∀ i, codecs r !! i = None ∨ ∃ c, c ∈ all_codecs lib ∧ codecs r !! i = Some c ∧ cID c = i.
Proof.
  destruct (register_all_ok (all_codecs lib) emptyRegistry) as (r' & E & Ho & Hin & Hout).
  { apply (bool_decide_unpack _). by vm_compute. }
  { intros c _. apply lookup_empty. }
  unfold NewRegistry. rewrite E. intros [= <-]. split; [by split|]. intros i. destruct (decide (i ∈ map cID (all_codecs lib))) as [Hi|Hi].
  - right. apply list_elem_of_fmap in Hi as (c & -> & Hc). exists c. split_and!; auto.
  - left. rewrite Hout by done. apply lookup_empty.
Qed.

(** ** Properties *)

(** C12: Encoding a value for storage loses nothing. On a new registry, [Encode]
    returns, for every value and whatever the float library does, a record that
    is no larger than the value, has a codec id that fits a packed entry and
    carries no schema, and from which [Decode] rebuilds the value byte for byte
    under any limit it fits. *)
Theorem registry_lossless lib src :
  ∃ r rec, NewRegistry lib = Ret r ∧ Encode r src = Ret rec ∧
    RawLength rec = zlen src ∧ 0 ≤ rID rec ≤ 16 ∧ zlen (Data rec) ≤ zlen src ∧ rSchema rec = None ∧
    ∀ max, zlen src ≤ max → Decode r rec max = Ret src.
Proof.
  destruct (NewRegistry_ok lib) as (r & E & Hr). destruct (Encode_ok lib r Hr src) as (rec & Er & Hrec).
  exists r, rec. split; [done|]. split; [done|]. exact Hrec.
Qed.

(** Background encoding loses nothing. When the block decompressors report
    bad input as errors, both the identifier encoder and the general compressor
    return without a panic; whatever representation they choose, verified or
    taken without verification (a repeated byte, a short period), decodes to the
    value, an identifier record is strictly smaller, a compressed one never
    larger. *)
Theorem background_lossless lib r src cold :
  NewRegistry lib = Ret r → (∀ s n, is_panic (UncompressBlock lib s n) = false) → (∀ s n, is_panic (DecodeAll lib s n) = false) →
  (∃ o, EncodeIdentifier src = Ret o ∧
     ∀ rec, o = Some rec → zlen (Data rec) < zlen src ∧ Decode r rec (zlen src) = Ret src) ∧
  (∃ rec, EncodeGeneral r src cold = Ret rec ∧ zlen (Data rec) ≤ zlen src ∧ Decode r rec (zlen src) = Ret src).
Proof.
  intros E H1 H2. apply NewRegistry_only in E as [Hr _]. split.
  - destruct (EncodeIdentifier_ok lib r Hr src) as (o & Eo & Ho). exists o. split; [done|]. intros rec ->.
    destruct Ho as ((_ & _ & _ & _ & Hd) & Hl). split; [done|apply Hd; lia].
  - destruct (EncodeGeneral_ok lib r Hr H1 H2 src cold) as (rec & Er & _ & _ & Hl & _ & Hd). exists rec. split_and!; [done|done|apply Hd; lia].
Qed.

(** The exact codecs are exact by construction. Whenever the encoder of the
    integer, unsigned integer, boolean, UUID, ULID, hexadecimal, base58, large
    decimal, repeated-byte or periodic codec accepts a text, its decoder rebuilds
    that text, so the write path may skip verification; none of these encoders
    panics. *)
Theorem codecs_exact lib src c data :
  c ∈ [integerCodec; unsignedIntegerCodec; boolCodec; uuidCodec; ulidCodec; hexCodec; base58Codec; bigDecimalCodec;
       repeatByteCodec; periodicCodec] →
  c ∈ all_codecs lib ∧ is_ret (cEncode c src) = true ∧ (cEncode c src = Ret (Some data) → cDecode c data (zlen src) = Ret src).
Proof.
  intros Hc. pose proof (uuid_lossless src) as Hu. pose proof (ulid_lossless src) as Hl. pose proof (periodic_lossless src) as Hp.
  repeat (apply elem_of_cons in Hc as [->|Hc]); [..|by apply elem_of_nil in Hc]; (split; [in_list|]); cbn.
  - split; [done|]. intros [= E]. by apply integer_lossless.
  - split; [done|]. intros [= E]. by apply unsigned_lossless.
  - split; [done|]. intros [= E]. by apply bool_lossless.
  - destruct (uuid_Encode src) as [[d|]| |]; try done. split; [done|]. intros [= <-]. apply Hu.
  - destruct (ulid_Encode src) as [[d|]| |]; try done. split; [done|]. intros [= <-]. apply Hl.
  - split; [done|]. intros [= E]. by apply hex_lossless.
  - split; [done|]. intros [= E]. by apply base58_lossless in E as [_ ?].
  - split; [done|]. intros [= E]. by apply bigDecimal_lossless in E as [_ ?].
  - split; [done|]. intros [= E]. by apply repeat_lossless in E as [_ ?].
  - destruct (periodic_Encode src) as [[d|]| |]; try done. split; [done|]. intros [= <-]. apply Hp.
Qed.

(** Decoding into a buffer is decoding. For every record, limit and buffer
    capacity, the direct dispatch of [DecodeInto] succeeds with a value exactly
    when [Decode] does, provided the capacity given to the Zstandard decoder only
    bounds its output. *)
Theorem decode_into_agrees lib r rec max cap out :
  NewRegistry lib = Ret r → cap_bounds (DecodeAll lib) →
  DecodeInto lib r rec max cap = Ret out ↔ Decode r rec max = Ret out.
Proof. intros E Hz. apply NewRegistry_only in E as [Hr Hall]. by apply DecodeInto_ok. Qed.

(** The integer scanner of the write path accepts exactly the canonical
    integers: the texts that [strconv.ParseInt] parses and [strconv.FormatInt]
    prints back, with the same value, including both ends of the 64-bit range. *)
Theorem canonical_int_exact src n : canonicalInt64Bytes src = Some n ↔ ParseInt src = Some n ∧ FormatInt n = src.
Proof. apply canonical_exact. Qed.

(** ** Witnesses *)

(** A library that rejects everything, with a decompressor that copies. *)
Definition demo_library : Library :=
  mkLibrary (fun _ => None) (fun _ => []) Ret (fun s n => if zlen s <=? n then Ret s else Err "short buffer")
    (fun s => s) (fun s c => if zlen s <=? c then Ret s else Err "size limit").

Definition demo_registry : Registry := default emptyRegistry (match NewRegistry demo_library with Ret r => Some r | _ => None end).

Definition demo_address : list byte := text "0xDe0B295669a9FD93d5F28D9Ec85E40f4cb697BAe".

Lemma demo_registry_new : NewRegistry demo_library = Ret demo_registry.
Proof. reflexivity. Qed.



