(* ===== verification/Entry.v ===== *)
(** * Stored entries

    The value descriptor of a key (internal/engine/engine.go, [SnugValue]), its
    value types (value_type.go) and its 16-byte packed form
    (internal/engine/entry_pack.go). *)
From S2P Require Import Prelude Arena.
Set Default Proof Using "Type".

(** ** Value types and codecs *)

Definition TypeString : Z := 0.
Definition TypeInt64 : Z := 1.
Definition TypeUint64 : Z := 2.
Definition TypeFloat64 : Z := 3.
Definition TypeBool : Z := 4.
Definition TypeBytes : Z := 5.
Definition TypeJSON : Z := 6.
Definition TypeHash : Z := 7.
Definition TypeSet : Z := 8.
Definition TypeList : Z := 9.
Definition TypeZSet : Z := 10.
Definition TypeStream : Z := 11.
Definition TypeBloom : Z := 12.
Definition TypeCuckoo : Z := 13.
Definition TypeCMS : Z := 14.
Definition TypeTopK : Z := 15.
Definition TypeTDigest : Z := 16.
Definition TypeTimeSeries : Z := 17.
Definition TypeVectorSet : Z := 18.

Definition codec_Raw : Z := 0.

Record SnugValue := mkValue {
  ref : Ref;
  rawLength : Z;    (* uint32 *)
  codecID : Z;      (* uint8 *)
  valueType : Z;    (* uint8 *)
  hasExpiry : bool;
  rawStable : bool;
}.

#[export] Instance Ref_eq_dec : EqDecision Ref.
Proof. solve_decision. Defined.
#[export] Instance SnugValue_eq_dec : EqDecision SnugValue.
Proof. solve_decision. Defined.

(** The zero value. *)
Definition emptyValue : SnugValue := mkValue emptyRef 0 0 0 false false.

Definition isRaw (v : SnugValue) : bool := codecID v =? codec_Raw.
Definition isHotHash (v : SnugValue) : bool := rawStable v && (valueType v =? TypeHash).

Definition isNativeContainerType (t : Z) : bool :=
  (t =? TypeHash) || (t =? TypeSet) || (t =? TypeList) || (t =? TypeZSet) || (t =? TypeStream) || (t =? TypeBloom) ||
  (t =? TypeCuckoo) || (t =? TypeCMS) || (t =? TypeTopK) || (t =? TypeTDigest) || (t =? TypeTimeSeries) ||
  (t =? TypeVectorSet).

(** ** The packed form *)

Record packedEntry := mkPacked { pk_location : Z; pk_meta : Z }.

Definition packCodecShift : Z := 32.
Definition packCodecMask : Z := Z.shiftl 1 6 - 1.
Definition packTypeShift : Z := 38.
Definition packTypeMask : Z := Z.shiftl 1 5 - 1.
Definition packExpiryBit : Z := Z.shiftl 1 43.
Definition packStableBit : Z := Z.shiftl 1 44.
Definition packGenShift : Z := 45.
Definition packGenMask : Z := Z.shiftl 1 GenerationBits - 1.
Definition packRawLenMask : Z := Z.shiftl 1 32 - 1.
Definition maxPackedCodec : Z := packCodecMask.
Definition maxPackedTypeID : Z := packTypeMask.

Definition packEntry (v : SnugValue) : res packedEntry :=
  let '(location, generation) := Words (ref v) in
  if packGenMask <? generation then Panic "arena generation does not fit a packed entry" else
  if maxPackedCodec <? codecID v then Panic "codec ID does not fit a packed entry" else
  if maxPackedTypeID <? valueType v then Panic "value type does not fit a packed entry" else
  let meta := Z.lor (Z.lor (Z.lor (rawLength v) (u64 (Z.shiftl (codecID v) packCodecShift)))
                           (u64 (Z.shiftl (valueType v) packTypeShift)))
                    (u64 (Z.shiftl generation packGenShift)) in
  let meta := if hasExpiry v then Z.lor meta packExpiryBit else meta in
  let meta := if rawStable v then Z.lor meta packStableBit else meta in
  Ret (mkPacked location meta).

Definition unpack (p : packedEntry) : SnugValue :=
  mkValue (RefFromWords (pk_location p) (Z.land (Z.shiftr (pk_meta p) packGenShift) packGenMask))
          (u32 (Z.land (pk_meta p) packRawLenMask))
          (u8 (Z.land (Z.shiftr (pk_meta p) packCodecShift) packCodecMask))
          (u8 (Z.land (Z.shiftr (pk_meta p) packTypeShift) packTypeMask))
          (negb (Z.land (pk_meta p) packExpiryBit =? 0))
          (negb (Z.land (pk_meta p) packStableBit =? 0)).

(** ** Packing loses nothing *)

(** Field widths of the Go struct. *)
Definition value_wf (v : SnugValue) : Prop :=
  0 ≤ location (ref v) < 2 ^ 64 ∧ 0 ≤ generation (ref v) < 2 ^ 64 ∧ 0 ≤ rawLength v < 2 ^ 32 ∧
  0 ≤ codecID v < 2 ^ 8 ∧ 0 ≤ valueType v < 2 ^ 8.

(** Values the packed form has room for. *)
Definition packable (v : SnugValue) : Prop :=
  value_wf v ∧ generation (ref v) ≤ packGenMask ∧ codecID v ≤ maxPackedCodec ∧ valueType v ≤ maxPackedTypeID.

(** The metadata word as a sum of disjoint fields. *)
Definition meta_sum (v : SnugValue) : Z :=
  rawLength v + 2 ^ 32 * codecID v + 2 ^ 38 * valueType v + 2 ^ 43 * Z.b2z (hasExpiry v) +
  2 ^ 44 * Z.b2z (rawStable v) + 2 ^ 45 * generation (ref v).

(** Adding a field above the bits in use. *)
Lemma lor_field lo k f : 0 ≤ k → 0 ≤ lo < 2 ^ k → 0 ≤ f → Z.lor lo (Z.shiftl f k) = lo + 2 ^ k * f.
Proof. intros Hk Hlo Hf. rewrite Z.lor_comm, lor_shiftl_add by lia. lia. Qed.

(** Setting a clear bit below a higher field. *)
Lemma lor_bit lo hi k j : 0 ≤ k < j → 0 ≤ lo < 2 ^ k → 0 ≤ hi →
  Z.lor (lo + 2 ^ j * hi) (Z.shiftl 1 k) = lo + 2 ^ k + 2 ^ j * hi.
Proof.
  intros Hk Hlo Hhi. assert (2 ^ k * 2 ≤ 2 ^ j).
  { rewrite <- (Z.mul_comm 2), <- Z.pow_succ_r by lia. apply Z.pow_le_mono_r; lia. }
  rewrite <- (lor_field lo j hi) by lia. rewrite <- Z.lor_assoc, (Z.lor_comm _ (Z.shiftl 1 k)), Z.lor_assoc.
  rewrite (lor_field lo k 1) by lia. rewrite lor_field by lia. lia.
Qed.

Lemma packEntry_sum v : packable v → packEntry v = Ret (mkPacked (location (ref v)) (meta_sum v)).
Proof.
  intros ((Hloc & Hg0 & Hr & Hc0 & Ht0) & Hg & Hc & Ht). unfold packEntry, Words.
  unfold packGenMask, maxPackedCodec, maxPackedTypeID in *.
  destruct (Z.ltb_spec (Z.shiftl 1 GenerationBits - 1) (generation (ref v))); [lia|].
  destruct (Z.ltb_spec packCodecMask (codecID v)); [lia|]. destruct (Z.ltb_spec packTypeMask (valueType v)); [lia|].
  unfold packCodecMask, packTypeMask, GenerationBits in *. change (Z.shiftl 1 6 - 1) with 63 in *.
  change (Z.shiftl 1 5 - 1) with 31 in *. change (Z.shiftl 1 19 - 1) with 524287 in *.
  unfold packCodecShift, packTypeShift, packGenShift, packExpiryBit, packStableBit. do 2 f_equal.
  rewrite !u64_id by (rewrite Z.shiftl_mul_pow2; lia).
  rewrite (lor_field (rawLength v) 32) by lia. rewrite (lor_field _ 38) by lia. rewrite (lor_field _ 45) by lia.
  assert (Hx : ∀ m, 0 ≤ m < 2 ^ 43 → (if hasExpiry v then Z.lor (m + 2 ^ 45 * generation (ref v)) (Z.shiftl 1 43)
    else m + 2 ^ 45 * generation (ref v)) = m + 2 ^ 43 * Z.b2z (hasExpiry v) + 2 ^ 45 * generation (ref v)).
  { intros m Hm. destruct (hasExpiry v); cbn [Z.b2z]; [rewrite lor_bit|]; lia. }
  rewrite Hx by lia. unfold meta_sum. destruct (rawStable v), (hasExpiry v); cbn [Z.b2z]; [rewrite lor_bit..| |]; lia.
Qed.

Lemma land_bit m k : 0 ≤ k → negb (Z.land m (Z.shiftl 1 k) =? 0) = Z.testbit m k.
Proof.
  intros Hk. rewrite Z.shiftl_1_l. destruct (Z.testbit m k) eqn:E.
  - apply negb_true_iff, Z.eqb_neq. intros H0. assert (Hb : Z.testbit (Z.land m (2 ^ k)) k = true)
      by (rewrite Z.land_spec, E, Z.pow2_bits_true; done). by rewrite H0, Z.bits_0 in Hb.
  - apply negb_false_iff, Z.eqb_eq, Z.bits_inj'. intros i Hi. rewrite Z.land_spec, Z.bits_0, Z.pow2_bits_eqb by done.
    destruct (Z.eqb_spec k i) as [->|]; [by rewrite E|apply andb_false_r].
Qed.

Lemma unpack_sum v : packable v → unpack (mkPacked (location (ref v)) (meta_sum v)) = v.
Proof.
  intros ((Hloc & Hg0 & Hr & Hc0 & Ht0) & Hg & Hc & Ht). unfold unpack, RefFromWords. cbn [pk_location pk_meta].
  unfold packGenMask, maxPackedCodec, maxPackedTypeID, packCodecMask, packTypeMask, packRawLenMask, GenerationBits in *.
  change (Z.shiftl 1 6) with (2 ^ 6) in *. change (Z.shiftl 1 5) with (2 ^ 5) in *. change (Z.shiftl 1 19) with (2 ^ 19) in *.
  change (Z.shiftl 1 32) with (2 ^ 32). unfold packExpiryBit, packStableBit. rewrite !land_bit by lia.
  unfold packCodecShift, packTypeShift, packGenShift, u32, u8. rewrite !land_mask, !shiftr_div by lia.
  destruct v as [[loc gen] rl cid vt he rs]. cbn [ref location generation rawLength codecID valueType hasExpiry rawStable] in *.
  unfold meta_sum. cbn [ref location generation rawLength codecID valueType hasExpiry rawStable]. rewrite !Z.testbit_eqb by lia.
  f_equal; [f_equal|..]; destruct he, rs; cbn [Z.b2z]; try dlia.
  all: first [apply Z.eqb_eq; dlia | apply Z.eqb_neq; dlia].
Qed.

(** C24: Packing a value descriptor loses nothing. It succeeds exactly when the
    generation, codec and type fit their fields, panics otherwise, produces two
    64-bit words, and unpacking them gives the descriptor back. *)
Theorem pack_roundtrip v :
  value_wf v →
  match packEntry v with
  | Ret p => unpack p = v ∧ 0 ≤ pk_location p < 2 ^ 64 ∧ 0 ≤ pk_meta p < 2 ^ 64
  | Err _ => False
  | Panic _ => ¬ packable v
  end.
Proof.
  intros Hwf. destruct (decide (generation (ref v) ≤ packGenMask ∧ codecID v ≤ maxPackedCodec ∧ valueType v ≤ maxPackedTypeID))
    as [Hp|Hp].
  - rewrite packEntry_sum by done. split; [by apply unpack_sum|]. cbn [pk_location pk_meta].
    destruct Hwf as (Hl & Hg & Hr & Hc & Ht), Hp as (Hg' & Hc' & Ht'). change packGenMask with 524287 in *.
    change maxPackedCodec with 63 in *. change maxPackedTypeID with 31 in *. split; [lia|].
    unfold meta_sum. destruct (hasExpiry v), (rawStable v); cbn [Z.b2z]; lia.
  - unfold packEntry, Words. destruct (Z.ltb_spec packGenMask (generation (ref v))); [by intros [_ ?]|].
    destruct (Z.ltb_spec maxPackedCodec (codecID v)); [by intros [_ ?]|].
    destruct (Z.ltb_spec maxPackedTypeID (valueType v)); [by intros [_ ?]|]. exfalso. lia.
Qed.

Lemma pack_roundtrip_witness :
  match packEntry (mkValue (mkRef 77 5) 3 1 TypeInt64 true false) with
  | Ret p => unpack p = mkValue (mkRef 77 5) 3 1 TypeInt64 true false ∧ 0 ≤ pk_location p < 2 ^ 64 ∧ 0 ≤ pk_meta p < 2 ^ 64
  | Err _ => False
  | Panic _ => ¬ packable (mkValue (mkRef 77 5) 3 1 TypeInt64 true false)
  end.
Proof. apply (pack_roundtrip (mkValue (mkRef 77 5) 3 1 TypeInt64 true false)). repeat split; vm_compute; congruence. Defined.
