(* ===== verification/Glob.v ===== *)
(** * Glob patterns

    Model of internal/engine/glob.go: the byte-oriented matcher behind KEYS, the
    MATCH option of the SCAN family and pattern subscriptions. A position in the
    pattern or in the value is the suffix that starts there. The matcher is
    compared with the language of the pattern: its tokens, and the strings a
    token list denotes. *)
From S2P Require Import Prelude.
Set Default Proof Using "Type".

Definition g_star : byte := x2a.
Definition g_any : byte := x3f.
Definition g_escape : byte := x5c.
Definition g_open : byte := x5b.
Definition g_close : byte := x5d.
Definition g_caret : byte := x5e.
Definition g_bang : byte := x21.
Definition g_dash : byte := x2d.

(** ** Character classes *)

(** One class character, a backslash taking the next byte literally. *)
Definition class_char (c : byte) (p : list byte) : byte * list byte :=
  match p with
  | d :: p' => if bool_decide (c = g_escape) then (d, p') else (c, p)
  | [] => (c, p)
  end.

(** The member loop after the opening bracket: the pattern after the closing
    bracket and whether [b] was a member, or nothing if the class never closes. *)
Fixpoint class_loop (fuel : nat) (p : list byte) (b : byte) (matched : bool) : option (list byte * bool) :=
  match fuel, p with
  | S f, c :: p =>
      if bool_decide (c = g_close) then Some (p, matched) else
      let '(lo, p) := class_char c p in
      match p with
      | dash :: h :: p2 =>
          if bool_decide (dash = g_dash) && negb (bool_decide (h = g_close)) then
            let '(hi, p3) := class_char h p2 in
            class_loop f p3 b (matched || (bz lo <=? bz hi) && (bz lo <=? bz b) && (bz b <=? bz hi))
          else class_loop f p b (matched || bool_decide (b = lo))
      | _ => class_loop f p b (matched || bool_decide (b = lo))
      end
  | _, _ => None
  end.

Definition class_negated (p : list byte) : bool * list byte :=
  match p with
  | c :: p' => if bool_decide (c = g_caret) || bool_decide (c = g_bang) then (true, p') else (false, p)
  | [] => (false, p)
  end.

(** ** The matcher *)

Fixpoint skip_stars (p : list byte) : list byte :=
  match p with
  | c :: p' => if bool_decide (c = g_star) then skip_stars p' else p
  | [] => []
  end.

(** [for k := vi; k <= len(value); k++ { if match(pi, k) { return true } }] *)
Fixpoint any_suffix (m : list byte → bool) (v : list byte) : bool :=
  m v || match v with [] => false | _ :: v' => any_suffix m v' end.

Fixpoint match_ (fuel : nat) (p v : list byte) : bool :=
  match fuel with
  | O => false
  | S f =>
      match p with
      | [] => bool_decide (v = [])
      | c :: p1 =>
          if bool_decide (c = g_star) then
            match skip_stars p with
            | [] => true
            | p' => any_suffix (match_ f p') v
            end
          else if bool_decide (c = g_any) then
            match v with [] => false | _ :: v' => match_ f p1 v' end
          else if bool_decide (c = g_escape) then
            match p1, v with
            | [], b :: v' => if bool_decide (b = g_escape) then match_ f [] v' else false
            | d :: p2, b :: v' => if bool_decide (b = d) then match_ f p2 v' else false
            | _, [] => false
            end
          else if bool_decide (c = g_open) then
            match v with
            | [] => false
            | b :: v' =>
                let '(negate, body) := class_negated p1 in
                match class_loop (length body) body b false with
                | None => if bool_decide (b = g_open) then match_ f p1 v' else false
                | Some (rest, matched) => if Bool.eqb matched negate then false else match_ f rest v'
                end
            end
          else
            match v with
            | b :: v' => if bool_decide (b = c) then match_ f p1 v' else false
            | [] => false
            end
      end
  end.

Definition redisGlobMatch (pattern value : list byte) : bool := match_ (S (length pattern)) pattern value.

(** ** The language of a pattern *)

(** A class is its list of inclusive ranges. *)
Inductive token :=
| TStar
| TAny
| TByte (b : byte)
| TClass (negate : bool) (ranges : list (byte * byte)).

Definition in_range (b : byte) (r : byte * byte) : bool := (bz (fst r) <=? bz b) && (bz b <=? bz (snd r)).

(** The ranges of a class body and the pattern after it. *)
Fixpoint class_ranges (fuel : nat) (p : list byte) : option (list (byte * byte) * list byte) :=
  match fuel, p with
  | S f, c :: p =>
      if bool_decide (c = g_close) then Some ([], p) else
      let '(lo, p) := class_char c p in
      let '(hi, p) :=
        match p with
        | dash :: h :: p2 =>
            if bool_decide (dash = g_dash) && negb (bool_decide (h = g_close)) then class_char h p2 else (lo, p)
        | _ => (lo, p)
        end in
      '(rs, rest) ← class_ranges f p; Some ((lo, hi) :: rs, rest)
  | _, _ => None
  end.

Fixpoint tokenize (fuel : nat) (p : list byte) : list token :=
  match fuel, p with
  | S f, c :: p =>
      if bool_decide (c = g_star) then TStar :: tokenize f p
      else if bool_decide (c = g_any) then TAny :: tokenize f p
      else if bool_decide (c = g_escape) then
        match p with [] => [TByte g_escape] | d :: p' => TByte d :: tokenize f p' end
      else if bool_decide (c = g_open) then
        let '(negate, body) := class_negated p in
        match class_ranges (length body) body with
        | Some (ranges, rest) => TClass negate ranges :: tokenize f rest
        | None => TByte g_open :: tokenize f p
        end
      else TByte c :: tokenize f p
  | _, _ => []
  end.

Definition tokens (p : list byte) : list token := tokenize (length p) p.

(** The strings a token list denotes. *)
Inductive denotes : list token → list byte → Prop :=
| den_nil : denotes [] []
| den_star ts u v : denotes ts v → denotes (TStar :: ts) (u ++ v)
| den_any ts b v : denotes ts v → denotes (TAny :: ts) (b :: v)
| den_byte ts b v : denotes ts v → denotes (TByte b :: ts) (b :: v)
| den_class ts negate rs b v :
    existsb (in_range b) rs = negb negate → denotes ts v → denotes (TClass negate rs :: ts) (b :: v).

Create HintDb glob.
#[export] Hint Constructors denotes : glob.

(** ** Classes *)

Lemma class_char_len c p : (length (snd (class_char c p)) ≤ length p)%nat.
Proof. destruct p as [|d p]; cbn; [lia|]. destruct (bool_decide _); cbn; lia. Qed.

Lemma single_range b lo : bool_decide (b = lo) = in_range b (lo, lo).
Proof.
  unfold in_range. cbn. destruct (bool_decide_reflect (b = lo)) as [->|Hne]; [by rewrite Z.leb_refl|].
  destruct (Z.leb_spec (bz lo) (bz b)), (Z.leb_spec (bz b) (bz lo)); try done. destruct Hne. apply bz_inj. lia.
Qed.

Lemma ordered_range b lo hi : (bz lo <=? bz hi) && (bz lo <=? bz b) && (bz b <=? bz hi) = in_range b (lo, hi).
Proof.
  unfold in_range. cbn. destruct (Z.leb_spec (bz lo) (bz hi)), (Z.leb_spec (bz lo) (bz b)), (Z.leb_spec (bz b) (bz hi)); done || lia.
Qed.

(** The member loop is membership in the ranges. *)
Lemma class_loop_ranges b : ∀ f p m,
  class_loop f p b m = (fun '(rs, rest) => (rest, m || existsb (in_range b) rs)) <$> class_ranges f p.
Proof.
  induction f as [|f IH]; intros p m; [done|]. destruct p as [|c p]; [done|]. cbn [class_loop class_ranges].
  destruct (bool_decide (c = g_close)); [by cbn; rewrite orb_false_r|]. destruct (class_char c p) as [lo p1].
  assert (Hstep : ∀ r p', class_loop f p' b (m || in_range b r) =
    (fun '(rs, rest) => (rest, m || existsb (in_range b) rs)) <$> ('(rs, rest) ← class_ranges f p'; Some (r :: rs, rest))).
  { intros r p'. rewrite IH. destruct (class_ranges f p') as [[rs rest]|]; [|done]. cbn. by rewrite orb_assoc. }
  destruct p1 as [|dash [|h p2]]; [by rewrite single_range, Hstep..|].
  destruct (_ && negb _); [|by rewrite single_range, Hstep].
  destruct (class_char h p2) as [hi p3]. by rewrite ordered_range, Hstep.
Qed.

Lemma class_ranges_len : ∀ f p rs rest, class_ranges f p = Some (rs, rest) → (length rest < length p)%nat.
Proof.
  induction f as [|f IH]; intros [|c p] rs rest H; try done. cbn [class_ranges] in H.
  destruct (bool_decide (c = g_close)); [injection H as <- <-; cbn; lia|].
  pose proof (class_char_len c p). destruct (class_char c p) as [lo p1]. cbn [snd] in *.
  set (q := match p1 with dash :: h :: p2 => _ | _ => (lo, p1) end) in H.
  assert (Hq : (length (snd q) ≤ length p1)%nat).
  { unfold q. destruct p1 as [|dash [|h p2]]; [done..|]. destruct (_ && negb _); [|done].
    pose proof (class_char_len h p2). cbn [length]. lia. }
  destruct q as [hi p2]. cbn [snd] in Hq. destruct (class_ranges f p2) as [[rs' rest']|] eqn:E; [|done].
  injection H as <- <-. apply IH in E. cbn [length]. lia.
Qed.

Lemma class_negated_len p : (length (snd (class_negated p)) ≤ length p)%nat.
Proof. destruct p as [|c p]; [done|]. cbn. destruct (_ || _); cbn; lia. Qed.

(** ** Tokens do not depend on the fuel *)

Lemma tokenize_fuel : ∀ f g p, (length p ≤ f)%nat → (length p ≤ g)%nat → tokenize f p = tokenize g p.
Proof.
  induction f as [|f IH]; intros [|g] [|c p] Hf Hg; cbn [length] in *; try done; try lia. cbn [tokenize].
  repeat case_bool_decide; try (f_equal; apply IH; lia).
  - destruct p as [|d p]; [done|]. cbn [length] in *. f_equal. apply IH; lia.
  - pose proof (class_negated_len p). destruct (class_negated p) as [neg body]. cbn [snd] in *.
    destruct (class_ranges (length body) body) as [[rs rest]|] eqn:E; f_equal; [|apply IH; lia].
    apply class_ranges_len in E. apply IH; lia.
Qed.

Lemma tokenize_tokens f p : (length p ≤ f)%nat → tokenize f p = tokens p.
Proof. intros. by apply tokenize_fuel. Qed.

(** ** Stars *)

Lemma tokens_stars p : ∃ n, tokens p = replicate n TStar ++ tokens (skip_stars p) ∧
  (length (skip_stars p) ≤ length p)%nat ∧ (n = 0%nat ↔ head p ≠ Some g_star).
Proof.
  induction p as [|c p (n & E & Hl & _)]; [exists 0%nat; by split_and!|]. cbn [skip_stars].
  destruct (bool_decide_reflect (c = g_star)) as [->|Hc].
  - exists (S n). cbn [length head]. split_and!; [|lia|done]. unfold tokens at 1. cbn [length tokenize].
    rewrite bool_decide_true by done. change (tokenize (length p) p) with (tokens p). by rewrite E.
  - exists 0%nat. split_and!; [done|done|]. split; [|done]. cbn. congruence.
Qed.

Lemma denotes_star ts v : denotes (TStar :: ts) v ↔ ∃ u w, v = u ++ w ∧ denotes ts w.
Proof. split; [intros H; inversion H; eauto|intros (u & w & -> & H); auto with glob]. Qed.

Lemma denotes_stars n ts v : denotes (replicate (S n) TStar ++ ts) v ↔ denotes (TStar :: ts) v.
Proof.
  revert v. induction n as [|n IH]; intros v; [done|]. change (replicate (S (S n)) TStar ++ ts) with (TStar :: (replicate (S n) TStar ++ ts)).
  rewrite denotes_star. split.
  - intros (u & w & -> & H). apply IH, denotes_star in H as (u' & w' & -> & H). apply denotes_star.
    exists (u ++ u'), w'. by rewrite app_assoc.
  - intros H. exists [], v. split; [done|by apply IH].
Qed.

Lemma any_suffix_true m v : any_suffix m v = true ↔ ∃ u w, v = u ++ w ∧ m w = true.
Proof.
  induction v as [|b v IH]; cbn [any_suffix]; rewrite orb_true_iff; [|rewrite IH]; split.
  - intros [H|H]; [by exists [], []|done].
  - intros (u & w & E & H). symmetry in E. apply app_eq_nil in E as [-> ->]. by left.
  - intros [H|(u & w & -> & H)]; [by exists [], (b :: v)|by exists (b :: u), w].
  - intros ([|b' u] & w & E & H); [left; by rewrite E|right]. injection E as -> ->. by exists u, w.
Qed.

(** ** The matcher decides the language *)

Lemma denotes_byte ts b v : denotes (TByte b :: ts) v ↔ ∃ v', v = b :: v' ∧ denotes ts v'.
Proof. split; [intros H; inversion H; eauto|intros (v' & -> & H); auto with glob]. Qed.

Lemma denotes_any ts v : denotes (TAny :: ts) v ↔ ∃ b v', v = b :: v' ∧ denotes ts v'.
Proof. split; [intros H; inversion H; eauto|intros (b & v' & -> & H); auto with glob]. Qed.

Lemma denotes_class ts negate rs v :
  denotes (TClass negate rs :: ts) v ↔ ∃ b v', v = b :: v' ∧ existsb (in_range b) rs = negb negate ∧ denotes ts v'.
Proof. split; [intros H; inversion H; eauto|intros (b & v' & -> & H1 & H2); auto with glob]. Qed.

(** One literal byte of the pattern. *)
Lemma match_byte f p v ts d :
  (∀ v, match_ f p v = true ↔ denotes ts v) →
  match v with b :: v' => if bool_decide (b = d) then match_ f p v' else false | [] => false end = true ↔
  denotes (TByte d :: ts) v.
Proof.
  intros IH. rewrite denotes_byte. destruct v as [|b v]; [split; [done|by intros (? & ? & _)]|].
  destruct (bool_decide_reflect (b = d)) as [->|Hne].
  - rewrite IH. split; [eauto|]. by intros (v' & [= ->] & H).
  - split; [done|]. intros (v' & [= -> _] & _). done.
Qed.

Lemma match_tokens : ∀ f p v, (length p < f)%nat → match_ f p v = true ↔ denotes (tokens p) v.
Proof.
  induction f as [|f IH]; intros p v Hf; [lia|]. cbn [match_]. destruct p as [|c p].
  { rewrite bool_decide_eq_true. split; [intros ->; constructor|intros H; by inversion H]. }
  cbn [length] in Hf.
  destruct (bool_decide_reflect (c = g_star)) as [->|Hstar].
  { destruct (tokens_stars (g_star :: p)) as (n & -> & Hl & Hn). cbn [length] in Hl.
    assert (Hskip : length (skip_stars (g_star :: p)) = length (skip_stars p)) by (cbn [skip_stars]; by rewrite bool_decide_true).
    destruct (tokens_stars p) as (_ & _ & Hl' & _). destruct n as [|n]; [destruct Hn as [Hn _]; by destruct (Hn eq_refl)|].
    rewrite denotes_stars, denotes_star. destruct (skip_stars (g_star :: p)) as [|c' p'] eqn:Ep.
    - split; [|done]. intros _. exists v, []. rewrite app_nil_r. split; [done|constructor].
    - rewrite any_suffix_true. split; intros (u & w & -> & H); exists u, w; (split; [done|]); apply IH; (done || lia). }
  unfold tokens. cbn [length tokenize]. rewrite (bool_decide_false (c = g_star)) by done. fold (tokens p).
  destruct (bool_decide_reflect (c = g_any)) as [->|Hany].
  { rewrite denotes_any. destruct v as [|b v]; [split; [done|by intros (? & ? & ? & _)]|]. rewrite IH by lia.
    split; [eauto|]. by intros (? & ? & [= -> ->] & ?). }
  destruct (bool_decide_reflect (c = g_escape)) as [->|Hesc].
  { destruct p as [|d p].
    - rewrite <- (match_byte f [] v [] g_escape); [by destruct v|]. intros v'. apply (IH []); cbn [length] in *; lia.
    - cbn [length] in *. rewrite (tokenize_tokens (S (length p)) p) by lia.
      rewrite <- (match_byte f p v); [by destruct v|]. intros v'. apply IH. lia. }
  destruct (bool_decide_reflect (c = g_open)) as [->|Hopen].
  2: { rewrite <- (match_byte f p v); [done|]. intros v'. apply IH. lia. }
  pose proof (class_negated_len p) as Hb. destruct (class_negated p) as [neg body]. cbn [snd] in Hb.
  destruct (class_ranges (length body) body) as [[rs rest]|] eqn:Er.
  - pose proof (class_ranges_len _ _ _ _ Er). rewrite tokenize_tokens by lia. rewrite denotes_class.
    destruct v as [|b v]; [split; [done|by intros (? & ? & ? & _)]|]. rewrite class_loop_ranges, Er. cbn [fmap option_fmap option_map].
    cbn [orb]. destruct (Bool.eqb (existsb (in_range b) rs) neg) eqn:Eb.
    + apply eqb_prop in Eb. split; [done|]. intros (? & ? & [= <- <-] & H1 & _). rewrite Eb in H1. by destruct neg.
    + apply eqb_false_iff in Eb. rewrite IH by lia. split.
      * intros Hd. exists b, v. split_and!; [done| |done]. by destruct (existsb _ _), neg.
      * by intros (? & ? & [= <- <-] & _ & Hd).
  - rewrite <- (match_byte f p v); [|intros v'; apply IH; lia]. destruct v as [|b v]; [done|].
    by rewrite class_loop_ranges, Er.
Qed.

(** C25: The matcher terminates on every pattern and accepts exactly the strings
    its tokens denote: a star any bytes, a question mark one byte, a class one
    byte of its ranges (or outside them), an escape the next byte, and a class
    that never closes its bracket as a literal. *)
Theorem glob_language pattern value : redisGlobMatch pattern value = true ↔ denotes (tokens pattern) value.
Proof. apply match_tokens. lia. Qed.

(** ** Escaped text *)

(** Every byte preceded by a backslash. *)
Fixpoint escape (s : list byte) : list byte :=
  match s with [] => [] | b :: s => g_escape :: b :: escape s end.

Lemma tokens_literal b p : tokens (g_escape :: b :: p) = TByte b :: tokens p.
Proof.
  assert (E : ∀ f, tokenize (S f) (g_escape :: b :: p) = TByte b :: tokenize f p) by done.
  unfold tokens at 1. cbn [length]. rewrite E. f_equal. apply tokenize_tokens. lia.
Qed.

Lemma tokens_escape s rest : tokens (escape s ++ rest) = map TByte s ++ tokens rest.
Proof.
  induction s as [|b s IH]; [done|]. cbn [escape app map]. rewrite tokens_literal. by rewrite IH.
Qed.

Lemma denotes_bytes s ts v : denotes (map TByte s ++ ts) v ↔ ∃ w, v = s ++ w ∧ denotes ts w.
Proof.
  revert v. induction s as [|b s IH]; intros v; cbn [map app]; [split; [eauto|by intros (w & -> & H)]|].
  rewrite denotes_byte. split.
  - intros (v' & -> & H). apply IH in H as (w & -> & H). eauto.
  - intros (w & -> & H). exists (s ++ w). split; [done|]. apply IH. eauto.
Qed.

(** Escaping makes any text literal: the pattern matches that text and
    nothing else, and followed by a star it matches exactly the texts it is a
    prefix of. *)
Lemma glob_escape s value :
  (redisGlobMatch (escape s) value = true ↔ value = s) ∧
  (redisGlobMatch (escape s ++ [g_star]) value = true ↔ s `prefix_of` value).
Proof.
  split; unfold redisGlobMatch; rewrite match_tokens by lia.
  - rewrite <- (app_nil_r (escape s)), tokens_escape, denotes_bytes. split.
    + intros (w & -> & H). inversion H. by rewrite app_nil_r.
    + intros ->. exists []. rewrite app_nil_r. split; [done|constructor].
  - rewrite tokens_escape, denotes_bytes. split; [intros (w & -> & _); by exists w|].
    intros (w & ->). exists w. split; [done|]. apply denotes_star. exists w, []. rewrite app_nil_r. split; [done|constructor].
Qed.
