(* ===== verification/Expiry.v ===== *)
(** * Expiration queue

    Model of internal/engine/expiration.go: the per-shard queue of deadlines, a
    binary heap with a map from key to heap position, driven through
    container/heap. The queue refines a finite map from keys to deadlines whose
    earliest deadline is at the root. *)
From S2P Require Import Prelude.
Set Default Proof Using "Type".

Record expiration := mkExpiration { ekey : list byte; at_ : Z }.

(** [positions] is [None] for the nil map. *)
Record expirationQueue := mkQueue { items : list expiration; positions : option (gmap (list byte) Z) }.

Definition emptyQueue : expirationQueue := mkQueue [] None.

(** ** heap.Interface *)

Definition Len (q : expirationQueue) : Z := zlen (items q).

Definition Less (q : expirationQueue) (i j : Z) : res bool :=
  a ← or_panic (znth (items q) i) oob;
  b ← or_panic (znth (items q) j) oob;
  Ret (at_ a <? at_ b).

(** Assignment to an entry of a map that may be nil. *)
Definition map_set (m : option (gmap (list byte) Z)) (k : list byte) (i : Z) : res (option (gmap (list byte) Z)) :=
  match m with Some m => Ret (Some (<[k := i]> m)) | None => Panic "assignment to entry in nil map" end.

Definition Swap (q : expirationQueue) (i j : Z) : res expirationQueue :=
  a ← or_panic (znth (items q) i) oob;
  b ← or_panic (znth (items q) j) oob;
  let l := <[Z.to_nat j := a]> (<[Z.to_nat i := b]> (items q)) in
  x ← or_panic (znth l i) oob;
  p ← map_set (positions q) (ekey x) i;
  y ← or_panic (znth l j) oob;
  p ← map_set p (ekey y) j;
  Ret (mkQueue l p).

Definition Push (q : expirationQueue) (e : expiration) : res expirationQueue :=
  p ← map_set (positions q) (ekey e) (zlen (items q));
  Ret (mkQueue (items q ++ [e]) p).

Definition Pop (q : expirationQueue) : res (expiration * expirationQueue) :=
  let last := zlen (items q) - 1 in
  e ← or_panic (znth (items q) last) oob;
  l ← or_panic (zslice (items q) 0 last) oob;
  Ret (e, mkQueue l (delete (ekey e) <$> positions q)).

(** ** container/heap *)

Fixpoint heap_up (fuel : nat) (q : expirationQueue) (j : Z) : res expirationQueue :=
  match fuel with
  | O => Ret q
  | S f =>
      let i := (j - 1) ÷ 2 in
      if i =? j then Ret q else
      less ← Less q j i;
      if negb less then Ret q else
      q ← Swap q i j;
      heap_up f q i
  end.

(** The smaller of the children at [j1] and [j1 + 1]. *)
Definition smaller_child (q : expirationQueue) (j1 n : Z) : res Z :=
  if j1 + 1 <? n then less ← Less q (j1 + 1) j1; Ret (if less : bool then j1 + 1 else j1) else Ret j1.

(** The loop of [down]: the queue and the final position. *)
Fixpoint heap_down (fuel : nat) (q : expirationQueue) (i n : Z) : res (expirationQueue * Z) :=
  match fuel with
  | O => Ret (q, i)
  | S f =>
      let j1 := 2 * i + 1 in
      if (n <=? j1) || (j1 <? 0) then Ret (q, i) else
      j ← smaller_child q j1 n;
      less ← Less q j i;
      if negb less then Ret (q, i) else
      q ← Swap q i j;
      heap_down f q j n
  end.

Definition heap_Push (q : expirationQueue) (e : expiration) : res expirationQueue :=
  q ← Push q e;
  heap_up (length (items q)) q (Len q - 1).

(** [if !down(h, i, n) { up(h, i) }] *)
Definition down_or_up (q : expirationQueue) (i n : Z) : res expirationQueue :=
  '(q, i') ← heap_down (length (items q)) q i n;
  if i <? i' then Ret q else heap_up (length (items q)) q i.

Definition heap_Fix (q : expirationQueue) (i : Z) : res expirationQueue := down_or_up q i (Len q).

Definition heap_Remove (q : expirationQueue) (i : Z) : res (expiration * expirationQueue) :=
  let n := Len q - 1 in
  q ← (if negb (n =? i) then q ← Swap q i n; down_or_up q i n else Ret q);
  Pop q.

(** ** The queue of a shard *)

Definition atFor (q : expirationQueue) (k : list byte) : res (option Z) :=
  match positions q with
  | None => Ret None
  | Some m =>
      match m !! k with
      | None => Ret None
      | Some i =>
          if (i <? 0) || (zlen (items q) <=? i) then Ret None else
          e ← or_panic (znth (items q) i) oob;
          if negb (bool_decide (ekey e = k)) then Ret None else Ret (Some (at_ e))
      end
  end.

Definition schedule (q : expirationQueue) (k : list byte) (at' : Z) : res expirationQueue :=
  if at' =? 0 then
    match positions q with
    | None => Ret q
    | Some m => match m !! k with Some i => '(_, q) ← heap_Remove q i; Ret q | None => Ret q end
    end
  else
    let m := default ∅ (positions q) in
    let q := mkQueue (items q) (Some m) in
    match m !! k with
    | Some i =>
        e ← or_panic (znth (items q) i) oob;
        if at_ e =? at' then Ret q else
        let q := mkQueue (<[Z.to_nat i := mkExpiration (ekey e) at']> (items q)) (positions q) in
        heap_Fix q i
    | None => heap_Push q (mkExpiration k at')
    end.

(** ** Positions and contents *)

(** The position map is exact. *)
Definition pos_exact (l : list expiration) (p : gmap (list byte) Z) : Prop :=
  ∀ k i, p !! k = Some i ↔ ∃ t, znth l i = Some (mkExpiration k t).

(** The queue's entries as a map. *)
Definition contents (l : list expiration) (m : gmap (list byte) Z) : Prop :=
  ∀ k t, m !! k = Some t ↔ mkExpiration k t ∈ l.

(** Deadline at a position. *)
Definition dl (l : list expiration) (i : Z) : Z := from_option at_ 0 (znth l i).

Definition parent (i : Z) : Z := (i - 1) / 2.

(** The first [n] entries are heap-ordered. *)
Definition heap_to (l : list expiration) (n : Z) : Prop := ∀ c, 0 < c < n → dl l (parent c) ≤ dl l c.

Definition queue_ok (q : expirationQueue) (m : gmap (list byte) Z) : Prop :=
  match positions q with
  | Some p => pos_exact (items q) p
  | None => items q = []
  end ∧ contents (items q) m ∧ heap_to (items q) (zlen (items q)).

(** ** Swapping two entries *)

(** [l'] is [l] with the entries at [i] and [j] exchanged. *)
Record swapped (l l' : list expiration) (i j : Z) : Prop := {
  sw_len : zlen l' = zlen l;
  sw_i : znth l' i = znth l j;
  sw_j : znth l' j = znth l i;
  sw_other : ∀ c, c ≠ i → c ≠ j → znth l' c = znth l c;
}.

Lemma swapped_elem l l' i j e : swapped l l' i j → e ∈ l' ↔ e ∈ l.
Proof.
  intros [_ Hi Hj Ho]. rewrite !elem_of_znth. split; intros (c & E);
    (destruct (decide (c = i)) as [->|]; [exists j; congruence|]);
    (destruct (decide (c = j)) as [->|]; [exists i; congruence|]); exists c; [by rewrite <- Ho|by rewrite Ho].
Qed.

Lemma swapped_contents l l' i j m : swapped l l' i j → contents l m → contents l' m.
Proof. intros Hs Hc k t. rewrite (Hc k t). symmetry. by eapply swapped_elem. Qed.

Lemma swapped_dl l l' i j : swapped l l' i j →
  dl l' i = dl l j ∧ dl l' j = dl l i ∧ ∀ c, c ≠ i → c ≠ j → dl l' c = dl l c.
Proof. intros [_ Hi Hj Ho]. unfold dl. rewrite Hi, Hj. split_and!; [done|done|]. intros. by rewrite Ho. Qed.

Lemma pos_unique l p k i j t u : pos_exact l p →
  znth l i = Some (mkExpiration k t) → znth l j = Some (mkExpiration k u) → i = j.
Proof.
  intros Hp H1 H2. assert (E1 : p !! k = Some i) by (apply Hp; eauto).
  assert (E2 : p !! k = Some j) by (apply Hp; eauto). congruence.
Qed.

Lemma Swap_ok l p i j :
  pos_exact l p → 0 ≤ i < zlen l → 0 ≤ j < zlen l → i ≠ j →
  ∃ l' p', Swap (mkQueue l (Some p)) i j = Ret (mkQueue l' (Some p')) ∧ pos_exact l' p' ∧ swapped l l' i j.
Proof.
  intros Hp Hi Hj Hne. destruct (znth_is_Some l i Hi) as [[ka ta] Ha], (znth_is_Some l j Hj) as [[kb tb] Hb].
  set (l' := <[Z.to_nat j := mkExpiration ka ta]> (<[Z.to_nat i := mkExpiration kb tb]> l)).
  assert (Hs : swapped l l' i j).
  { split; unfold l'; [by rewrite !zlen_insert| | |].
    - rewrite znth_insert_ne, znth_insert_eq by lia. done.
    - rewrite znth_insert_eq by (rewrite ?zlen_insert; lia). done.
    - intros c H1 H2. by rewrite !znth_insert_ne by lia. }
  pose proof (sw_i _ _ _ _ Hs) as Ei. pose proof (sw_j _ _ _ _ Hs) as Ej. rewrite Hb in Ei. rewrite Ha in Ej.
  exists l', (<[ka := j]> (<[kb := i]> p)). unfold Swap. cbn [items positions]. rewrite Ha, Hb. cbn [or_panic].
  rewrite !res_bind_ret. fold l'. rewrite Ei, Ej. split; [done|]. split; [|done].
  assert (Hk : ka ≠ kb) by (intros ->; apply Hne; by eapply pos_unique).
  intros k c. destruct (decide (k = ka)) as [->|Hka]; [|destruct (decide (k = kb)) as [->|Hkb]].
  - rewrite lookup_insert_eq. split; [intros [= <-]; eauto|]. intros [t Ht].
    destruct (decide (c = i)) as [->|]; [congruence|]. destruct (decide (c = j)) as [->|]; [done|].
    rewrite (sw_other _ _ _ _ Hs) in Ht by done. by assert (c = i) by (by eapply (pos_unique l p ka)).
  - rewrite lookup_insert_ne, lookup_insert_eq by done. split; [intros [= <-]; eauto|]. intros [t Ht].
    destruct (decide (c = i)) as [->|]; [done|]. destruct (decide (c = j)) as [->|]; [congruence|].
    rewrite (sw_other _ _ _ _ Hs) in Ht by done. by assert (c = j) by (by eapply (pos_unique l p kb)).
  - rewrite !lookup_insert_ne by done. rewrite (Hp k c). split; intros [t Ht]; exists t.
    + rewrite (sw_other _ _ _ _ Hs); [done|congruence|congruence].
    + rewrite <- (sw_other _ _ _ _ Hs); [done|congruence|congruence].
Qed.

(** ** Heap order with one entry out of place *)

Lemma parent_lt c : 0 < c → 0 ≤ parent c < c.
Proof. unfold parent. intros. dlia. Qed.

Lemma parent_child i c : 0 < c → parent c = i ↔ c = 2 * i + 1 ∨ c = 2 * i + 2.
Proof. unfold parent. intros. split; intros; dlia. Qed.

(** Ordered except around position [h], whose children are above its parent. *)
Record hole (f : Z → Z) (n h : Z) : Prop := {
  ho_far : ∀ c, 0 < c < n → c ≠ h → parent c ≠ h → f (parent c) ≤ f c;
  ho_bridge : ∀ c, 0 < c < n → parent c = h → 0 < h → f (parent h) ≤ f c;
}.

Definition above (f : Z → Z) (h : Z) : Prop := 0 < h → f (parent h) ≤ f h.
Definition below (f : Z → Z) (n h : Z) : Prop := ∀ c, 0 < c < n → parent c = h → f h ≤ f c.

Lemma hole_heap l n h : hole (dl l) n h → above (dl l) h → below (dl l) n h → heap_to l n.
Proof.
  intros [Hf _] Ha Hb c Hc. destruct (decide (c = h)) as [->|Hch]; [apply Ha; lia|].
  destruct (decide (parent c = h)) as [<-|]; [by apply Hb|by apply Hf].
Qed.

Lemma heap_hole l n h : heap_to l n → hole (dl l) n h.
Proof.
  intros H. split; [intros c Hc _ _; by apply H|]. intros c Hc Hp Hh. transitivity (dl l h); [|rewrite <- Hp; by apply H].
  apply H. pose proof (parent_lt c). lia.
Qed.

(** Exchanging the entry at [i] with its smallest child [j]. *)
Lemma hole_down f f' n i j :
  hole f n i → 0 ≤ i → j < n → parent j = i → 0 < j → f j < f i →
  (∀ c, 0 < c < n → parent c = i → f j ≤ f c) →
  f' i = f j → f' j = f i → (∀ c, c ≠ i → c ≠ j → f' c = f c) →
  hole f' n j ∧ above f' j.
Proof.
  intros [Hf Hb] Hi Hj Hp Hj0 Hlt Hmin Ei Ej Eo. pose proof (parent_lt j Hj0). split; [split|].
  - intros c Hc Hcj Hpj. pose proof (parent_lt c ltac:(lia)). destruct (decide (c = i)) as [->|Hci].
    + rewrite Ei, (Eo (parent i)) by lia. apply Hb; lia.
    + rewrite (Eo c) by done. destruct (decide (parent c = i)) as [E|].
      * rewrite E, Ei. by apply Hmin.
      * rewrite Eo by done. by apply Hf.
  - intros c Hc Hpc _. pose proof (parent_lt c ltac:(lia)). rewrite Hp, Ei, (Eo c) by lia. rewrite <- Hpc. apply Hf; lia.
  - intros _. rewrite Hp, Ei, Ej. lia.
Qed.

(** Exchanging the entry at [j] with its parent [i]. *)
Lemma hole_up f f' n i j :
  hole f n j → below f n j → 0 < j < n → parent j = i → f j < f i →
  f' i = f j → f' j = f i → (∀ c, c ≠ i → c ≠ j → f' c = f c) →
  hole f' n i ∧ below f' n i.
Proof.
  intros [Hf Hb] Hbel Hj Hp Hlt Ei Ej Eo. pose proof (parent_lt j ltac:(lia)).
  assert (Hpi : 0 < i → f (parent i) ≤ f i).
  { intros. pose proof (parent_lt i ltac:(lia)). apply Hf; lia. }
  assert (Hsib : ∀ c, 0 < c < n → parent c = i → c ≠ j → f i ≤ f c).
  { intros c Hc E Hne. rewrite <- E. apply Hf; lia. }
  split; [split|].
  - intros c Hc Hci Hpi'. pose proof (parent_lt c ltac:(lia)). assert (c ≠ j) by congruence. rewrite (Eo c) by done.
    destruct (decide (parent c = j)) as [E|]; [|rewrite Eo by done; apply Hf; done].
    rewrite E, Ej, <- Hp. apply Hb; [done|done|lia].
  - intros c Hc E Hi. pose proof (parent_lt i ltac:(lia)). rewrite (Eo (parent i)) by lia.
    destruct (decide (c = j)) as [->|]; [rewrite Ej; by apply Hpi|].
    rewrite (Eo c) by (pose proof (parent_lt c); lia). pose proof (Hsib c Hc E). specialize (Hpi Hi). lia.
  - intros c Hc E. rewrite Ei. destruct (decide (c = j)) as [->|]; [rewrite Ej; lia|].
    rewrite (Eo c) by (pose proof (parent_lt c); lia). pose proof (Hsib c Hc E). lia.
Qed.

Lemma Less_ok l p i j : 0 ≤ i < zlen l → 0 ≤ j < zlen l → Less (mkQueue l p) i j = Ret (dl l i <? dl l j).
Proof.
  intros Hi Hj. unfold Less, dl. cbn [items]. destruct (znth_is_Some l i Hi) as [a ->], (znth_is_Some l j Hj) as [b ->]. done.
Qed.

Lemma heap_up_ok : ∀ fuel l p j n m,
  pos_exact l p → contents l m → 0 ≤ j < n → n ≤ zlen l → j < Z.of_nat fuel →
  hole (dl l) n j → below (dl l) n j →
  ∃ l' p', heap_up fuel (mkQueue l (Some p)) j = Ret (mkQueue l' (Some p')) ∧ pos_exact l' p' ∧ contents l' m ∧
    zlen l' = zlen l ∧ heap_to l' n ∧ (∀ c, n ≤ c → znth l' c = znth l c).
Proof.
  induction fuel as [|fuel IH]; intros l p j n m Hp Hm Hj Hn Hf Hh Hb; [lia|]. cbn [heap_up].
  destruct (Z.eqb_spec ((j - 1) ÷ 2) j) as [E|E].
  { assert (j = 0) as -> by dlia. exists l, p. split_and!; try done. apply (hole_heap l n 0); [done| |done]. intros ?; lia. }
  assert (Hj0 : 0 < j) by dlia. assert (Ep : (j - 1) ÷ 2 = parent j) by (unfold parent; dlia). rewrite Ep in *.
  pose proof (parent_lt j Hj0). rewrite Less_ok, res_bind_ret by lia.
  destruct (Z.ltb_spec (dl l j) (dl l (parent j))) as [Hlt|Hge]; cbn [negb].
  - destruct (Swap_ok l p (parent j) j) as (l1 & p1 & -> & Hp1 & Hs); [done|lia..|]. rewrite res_bind_ret.
    pose proof (swapped_dl _ _ _ _ Hs) as (Ei & Ej & Eo).
    destruct (hole_up (dl l) (dl l1) n (parent j) j) as [Hh1 Hb1]; [done|done|lia|done..|].
    destruct (IH l1 p1 (parent j) n m) as (l' & p' & E' & H1 & H2 & H3 & H4 & H5); try done; try lia.
    { by eapply swapped_contents. }
    { rewrite (sw_len _ _ _ _ Hs). lia. }
    exists l', p'. rewrite (sw_len _ _ _ _ Hs) in H3. split_and!; try done. intros c Hc.
    rewrite H5, (sw_other _ _ _ _ Hs) by lia. done.
  - exists l, p. split_and!; try done. apply (hole_heap l n j); [done|by intros _|done].
Qed.

Lemma smaller_child_ok l p i n :
  0 ≤ i → 2 * i + 1 < n → n ≤ zlen l →
  ∃ j, smaller_child (mkQueue l p) (2 * i + 1) n = Ret j ∧ parent j = i ∧ 0 < j < n ∧
    (∀ c, 0 < c < n → parent c = i → dl l j ≤ dl l c).
Proof.
  intros Hi Hn Hl. unfold smaller_child.
  assert (Hmin : ∀ j, (j = 2 * i + 1 ∨ j = 2 * i + 2) → (∀ c, c < n → c = 2 * i + 1 ∨ c = 2 * i + 2 → dl l j ≤ dl l c) →
    parent j = i ∧ ∀ c, 0 < c < n → parent c = i → dl l j ≤ dl l c).
  { intros j Hj H. split; [apply parent_child; lia|]. intros c Hc E. apply H; [lia|]. by apply parent_child in E; [|lia]. }
  destruct (Z.ltb_spec (2 * i + 1 + 1) n) as [Hr|Hr].
  - rewrite Less_ok, res_bind_ret by lia.
    destruct (Z.ltb_spec (dl l (2 * i + 1 + 1)) (dl l (2 * i + 1))) as [Hlt|Hge]; eexists; (split; [done|]).
    + destruct (Hmin (2 * i + 1 + 1)) as [H1 H2]; [lia| |split_and!; (done || lia)].
      intros c _ [->| ->]; [lia|]. by replace (2 * i + 1 + 1) with (2 * i + 2) by lia.
    + destruct (Hmin (2 * i + 1)) as [H1 H2]; [lia| |split_and!; (done || lia)].
      intros c _ [->| ->]; [done|]. by replace (2 * i + 2) with (2 * i + 1 + 1) by lia.
  - exists (2 * i + 1). split; [done|]. destruct (Hmin (2 * i + 1)) as [H1 H2]; [lia| |split_and!; (done || lia)].
    intros c Hc [->| ->]; [done|lia].
Qed.

Lemma heap_down_ok : ∀ fuel l p i n m,
  pos_exact l p → contents l m → 0 ≤ i < n → n ≤ zlen l → n - i ≤ Z.of_nat fuel → hole (dl l) n i →
  ∃ l' p' i', heap_down fuel (mkQueue l (Some p)) i n = Ret (mkQueue l' (Some p'), i') ∧ pos_exact l' p' ∧ contents l' m ∧
    zlen l' = zlen l ∧ hole (dl l') n i' ∧ below (dl l') n i' ∧ i ≤ i' < n ∧
    (i' = i ∧ l' = l ∨ i < i' ∧ above (dl l') i') ∧ (∀ c, n ≤ c → znth l' c = znth l c).
Proof.
  induction fuel as [|fuel IH]; intros l p i n m Hp Hm Hi Hn Hf Hh; [lia|]. cbn [heap_down].
  assert (Hstop : below (dl l) n i → ∃ l' p' i', Ret (mkQueue l (Some p), i) = Ret (mkQueue l' (Some p'), i') ∧
    pos_exact l' p' ∧ contents l' m ∧ zlen l' = zlen l ∧ hole (dl l') n i' ∧ below (dl l') n i' ∧ i ≤ i' < n ∧
    (i' = i ∧ l' = l ∨ i < i' ∧ above (dl l') i') ∧ (∀ c, n ≤ c → znth l' c = znth l c)).
  { intros Hb. exists l, p, i. split_and!; try done; try lia. by left. }
  destruct (Z.leb_spec n (2 * i + 1)) as [Hleaf|Hin]; cbn [orb].
  { apply Hstop. intros c Hc E. apply parent_child in E; lia. }
  destruct (Z.ltb_spec (2 * i + 1) 0); [lia|].
  destruct (smaller_child_ok l (Some p) i n) as (j & -> & Hpj & Hj & Hmin); [lia..|]. rewrite res_bind_ret.
  pose proof (parent_lt j ltac:(lia)). rewrite Less_ok, res_bind_ret by lia.
  destruct (Z.ltb_spec (dl l j) (dl l i)) as [Hlt|Hge]; cbn [negb].
  2: { apply Hstop. intros c Hc E. specialize (Hmin c Hc E). lia. }
  destruct (Swap_ok l p i j) as (l1 & p1 & -> & Hp1 & Hs); [done|lia..|]. rewrite res_bind_ret.
  pose proof (swapped_dl _ _ _ _ Hs) as (Ei & Ej & Eo). pose proof (sw_len _ _ _ _ Hs) as Hlen.
  destruct (hole_down (dl l) (dl l1) n i j) as [Hh1 Ha1]; [done|lia|lia|done|lia|done..|].
  destruct (IH l1 p1 j n m) as (l' & p' & i' & -> & H1 & H2 & H3 & H4 & H5 & H6 & H7 & H8);
    [done|by eapply swapped_contents|lia|lia|lia|done|].
  exists l', p', i'. split_and!; try done; try lia.
  - right. split; [lia|]. by destruct H7 as [[-> ->]|[_ ?]].
  - intros c Hc. rewrite H8, (sw_other _ _ _ _ Hs) by lia. done.
Qed.

Lemma down_or_up_ok l p i n m :
  pos_exact l p → contents l m → 0 ≤ i < n → n ≤ zlen l → hole (dl l) n i →
  ∃ l' p', down_or_up (mkQueue l (Some p)) i n = Ret (mkQueue l' (Some p')) ∧ pos_exact l' p' ∧ contents l' m ∧
    zlen l' = zlen l ∧ heap_to l' n ∧ (∀ c, n ≤ c → znth l' c = znth l c).
Proof.
  intros Hp Hm Hi Hn Hh. unfold down_or_up. cbn [items].
  destruct (heap_down_ok (length l) l p i n m) as (l1 & p1 & i1 & -> & H1 & H2 & H3 & H4 & H5 & H6 & H7 & H8);
    try done; [unfold zlen in *; lia|]. rewrite res_bind_ret. cbn [items].
  destruct (Z.ltb_spec i i1) as [Hlt|Hge].
  - exists l1, p1. split_and!; try done. eapply hole_heap; [done| |done]. destruct H7 as [[? ?]|[_ ?]]; [lia|done].
  - destruct H7 as [[-> ->]|[? ?]]; [|lia].
    destruct (heap_up_ok (length l) l p1 i n m) as (l2 & p2 & -> & ? & ? & ? & ? & ?); try done; [unfold zlen in *; lia|].
    by exists l2, p2.
Qed.

(** ** Push, remove, reschedule *)

Lemma contents_key l p m k t u : pos_exact l p → contents l m →
  mkExpiration k t ∈ l → mkExpiration k u ∈ l → t = u.
Proof. intros Hp Hm H1%Hm H2%Hm. congruence. Qed.

Lemma dl_app l l' i : i < zlen l → dl (l ++ l') i = dl l i.
Proof. intros. unfold dl. by rewrite znth_app_l. Qed.

Lemma Pop_ok l e p m :
  pos_exact (l ++ [e]) p → contents (l ++ [e]) m → heap_to (l ++ [e]) (zlen l) →
  Pop (mkQueue (l ++ [e]) (Some p)) = Ret (e, mkQueue l (Some (delete (ekey e) p))) ∧
  pos_exact l (delete (ekey e) p) ∧ contents l (delete (ekey e) m) ∧ heap_to l (zlen l).
Proof.
  intros Hp Hm Hh. assert (Hlast : znth (l ++ [e]) (zlen l) = Some e) by (by rewrite znth_app_r, Z.sub_diag by lia).
  pose proof (zlen_nonneg l). split_and!.
  - unfold Pop. cbn [items positions]. rewrite zlen_snoc. replace (zlen l + 1 - 1) with (zlen l) by lia. rewrite Hlast. cbn [or_panic].
    rewrite res_bind_ret, zslice_Some by (rewrite ?zlen_snoc; lia). cbn [or_panic]. rewrite res_bind_ret, Z.sub_0_r, to_nat_zlen.
    change (drop (Z.to_nat 0) (l ++ [e])) with (l ++ [e]). by rewrite take_app_length.
  - intros k i. destruct (decide (k = ekey e)) as [->|Hne].
    + rewrite lookup_delete_eq. split; [done|]. intros [t Ht]. exfalso. pose proof (znth_Some _ _ _ Ht).
      destruct e as [k u]. assert (i = zlen l); [|lia]. eapply pos_unique; [done| |done]. by rewrite znth_app_l by lia.
    + rewrite lookup_delete_ne by done. rewrite (Hp k i). split; intros [t Ht]; exists t.
      * pose proof (znth_Some _ _ _ Ht) as Hr. rewrite zlen_snoc in Hr.
        destruct (decide (i = zlen l)) as [->|]; [rewrite Hlast in Ht; by destruct e; injection Ht as -> _|].
        by rewrite znth_app_l in Ht by lia.
      * pose proof (znth_Some _ _ _ Ht). by rewrite znth_app_l by lia.
  - intros k t. destruct (decide (k = ekey e)) as [->|Hne].
    + rewrite lookup_delete_eq. split; [done|]. intros Ht. exfalso. apply elem_of_znth in Ht as [i Ht].
      pose proof (znth_Some _ _ _ Ht). destruct e as [k u]. assert (i = zlen l); [|lia].
      eapply pos_unique; [done| |done]. by rewrite znth_app_l by lia.
    + rewrite lookup_delete_ne, (Hm k t) by done. rewrite elem_of_app, list_elem_of_singleton. split; [|by left].
      intros [?|<-]; done.
  - intros c Hc. pose proof (parent_lt c). rewrite <- !(dl_app l [e]) by lia. by apply Hh.
Qed.

Lemma heap_Remove_ok l p m k i :
  pos_exact l p → contents l m → heap_to l (zlen l) → p !! k = Some i →
  ∃ e l' p', heap_Remove (mkQueue l (Some p)) i = Ret (e, mkQueue l' (Some p')) ∧ ekey e = k ∧
    pos_exact l' p' ∧ contents l' (delete k m) ∧ heap_to l' (zlen l').
Proof.
  intros Hp Hm Hh Hi. apply Hp in Hi as [t Ht]. pose proof (znth_Some _ _ _ Ht) as Hr.
  assert (Hmid : ∃ l1 p1, (if negb (zlen l - 1 =? i) then q ← Swap (mkQueue l (Some p)) i (zlen l - 1); down_or_up q i (zlen l - 1)
      else Ret (mkQueue l (Some p))) = Ret (mkQueue l1 (Some p1)) ∧ pos_exact l1 p1 ∧ contents l1 m ∧ zlen l1 = zlen l ∧
      heap_to l1 (zlen l - 1) ∧ znth l1 (zlen l - 1) = Some (mkExpiration k t)).
  { destruct (Z.eqb_spec (zlen l - 1) i) as [E|E]; cbn [negb].
    { exists l, p. rewrite E. split_and!; try done. intros c Hc. apply Hh. lia. }
    destruct (Swap_ok l p i (zlen l - 1)) as (l1 & p1 & -> & Hp1 & Hs); [done|lia..|]. rewrite res_bind_ret.
    pose proof (swapped_dl _ _ _ _ Hs) as (Ei & Ej & Eo). pose proof (sw_len _ _ _ _ Hs) as Hlen.
    destruct (down_or_up_ok l1 p1 i (zlen l - 1) m) as (l2 & p2 & -> & H1 & H2 & H3 & H4 & H5); [done| |lia|lia| |].
    { by eapply swapped_contents. }
    { pose proof (heap_hole l (zlen l) i Hh) as [Hf Hb]. split; intros c Hc; pose proof (parent_lt c ltac:(lia)).
      - intros H1 H2. rewrite !Eo by lia. by apply Hf; [lia|..].
      - intros H1 H2. pose proof (parent_lt i H2). rewrite !Eo by lia. by apply Hb; [lia|..]. }
    exists l2, p2. split_and!; try done; [lia|]. rewrite H5 by lia. by rewrite (sw_j _ _ _ _ Hs). }
  unfold heap_Remove, Len. cbn [items]. destruct Hmid as (l1 & p1 & -> & Hp1 & Hm1 & Hlen & Hh1 & Hlast). rewrite res_bind_ret.
  destruct (decide (l1 = [])) as [->|Hne]; [by change (zlen (@nil expiration)) with 0 in Hlen; lia|]. destruct (exists_last Hne) as (l2 & e & ->).
  rewrite zlen_snoc in Hlen. replace (zlen l - 1) with (zlen l2) in * by lia.
  rewrite znth_app_r, Z.sub_diag in Hlast by lia. injection Hlast as ->.
  destruct (Pop_ok l2 _ p1 m Hp1 Hm1 Hh1) as (-> & H1 & H2 & H3). eexists _, l2, _. by split_and!.
Qed.

Lemma heap_Push_ok l p m k t :
  pos_exact l p → contents l m → heap_to l (zlen l) → p !! k = None →
  ∃ l' p', heap_Push (mkQueue l (Some p)) (mkExpiration k t) = Ret (mkQueue l' (Some p')) ∧
    pos_exact l' p' ∧ contents l' (<[k := t]> m) ∧ heap_to l' (zlen l').
Proof.
  intros Hp Hm Hh Hk. unfold heap_Push, Push, Len. cbn [items positions map_set ekey]. rewrite !res_bind_ret. cbn [items].
  pose proof (zlen_nonneg l). rewrite zlen_snoc. replace (zlen l + 1 - 1) with (zlen l) by lia.
  assert (Hlast : znth (l ++ [mkExpiration k t]) (zlen l) = Some (mkExpiration k t)) by (by rewrite znth_app_r, Z.sub_diag by lia).
  assert (Hno : ∀ i u, znth l i ≠ Some (mkExpiration k u)).
  { intros i u Hu. assert (p !! k = Some i) by (apply Hp; eauto). congruence. }
  destruct (heap_up_ok (length (l ++ [mkExpiration k t])) (l ++ [mkExpiration k t]) (<[k := zlen l]> p) (zlen l) (zlen l + 1) (<[k := t]> m))
    as (l' & p' & -> & H1 & H2 & H3 & H4 & _).
  - intros k' i. destruct (decide (k' = k)) as [->|Hne].
    + rewrite lookup_insert_eq. split; [intros [= <-]; eauto|]. intros [u Hu]. pose proof (znth_Some _ _ _ Hu) as Hr.
      rewrite zlen_snoc in Hr. destruct (decide (i = zlen l)) as [->|]; [done|]. rewrite znth_app_l in Hu by lia. by apply Hno in Hu.
    + rewrite lookup_insert_ne, (Hp k' i) by done. split; intros [u Hu]; exists u; pose proof (znth_Some _ _ _ Hu) as Hr.
      * by rewrite znth_app_l by lia.
      * rewrite zlen_snoc in Hr. destruct (decide (i = zlen l)) as [->|]; [rewrite Hlast in Hu; congruence|].
        by rewrite znth_app_l in Hu by lia.
  - intros k' u. rewrite elem_of_app, list_elem_of_singleton. destruct (decide (k' = k)) as [->|Hne].
    + rewrite lookup_insert_eq. split; [intros [= ->]; by right|]. intros [Hu|[= ->]]; [|done]. apply elem_of_znth in Hu as [i Hu]. by apply Hno in Hu.
    + rewrite lookup_insert_ne, (Hm k' u) by done. split; [by left|]. intros [?|[= -> _]]; done.
  - lia.
  - rewrite zlen_snoc. lia.
  - rewrite length_app. unfold zlen. cbn [length]. lia.
  - split; [|intros c Hc E; apply parent_child in E; lia]. intros c Hc H1 _. pose proof (parent_lt c ltac:(lia)).
    rewrite !dl_app by lia. apply Hh. lia.
  - intros c Hc E. apply parent_child in E; lia.
  - exists l', p'. rewrite zlen_snoc in H3. rewrite H3. by split_and!.
Qed.

Lemma queue_ok_empty : queue_ok emptyQueue ∅.
Proof.
  split_and!; [done| |intros c Hc; change (zlen (items emptyQueue)) with 0 in Hc; lia]. intros k t. rewrite lookup_empty. split; [done|]. by intros ?%not_elem_of_nil.
Qed.

(** Replacing the deadline at a position. *)
Lemma Fix_ok l p m k i t u :
  pos_exact l p → contents l m → heap_to l (zlen l) → znth l i = Some (mkExpiration k t) →
  ∃ q', heap_Fix (mkQueue (<[Z.to_nat i := mkExpiration k u]> l) (Some p)) i = Ret q' ∧ queue_ok q' (<[k := u]> m).
Proof.
  intros Hp Hm Hh Hi. pose proof (znth_Some _ _ _ Hi) as Hr. set (l' := <[Z.to_nat i := mkExpiration k u]> l).
  assert (Hi' : znth l' i = Some (mkExpiration k u)) by (by apply znth_insert_eq).
  assert (Ho : ∀ c, c ≠ i → znth l' c = znth l c) by (intros; apply znth_insert_ne; lia).
  assert (Hlen : zlen l' = zlen l) by apply zlen_insert.
  unfold heap_Fix, Len. cbn [items]. rewrite Hlen.
  destruct (down_or_up_ok l' p i (zlen l) (<[k := u]> m)) as (l2 & p2 & -> & H1 & H2 & H3 & H4 & _); [| |lia|lia| |].
  - intros k' c. destruct (decide (c = i)) as [->|Hne]; [|by rewrite Ho by done].
    rewrite (Hp k' i), Hi, Hi'. split; intros [? [= -> _]]; eauto.
  - intros k' v. rewrite elem_of_znth. destruct (decide (k' = k)) as [->|Hne].
    + rewrite lookup_insert_eq. split; [intros [= <-]; eauto|]. intros [c Hc].
      destruct (decide (c = i)) as [->|Hci]; [rewrite Hi' in Hc; congruence|]. rewrite Ho in Hc by done.
      by assert (c = i) by (by eapply (pos_unique l p k)).
    + rewrite lookup_insert_ne, (Hm k' v), elem_of_znth by done. split; intros [c Hc]; exists c.
      * rewrite Ho; [done|]. intros ->. congruence.
      * rewrite <- Ho; [done|]. intros ->. congruence.
  - pose proof (heap_hole l (zlen l) i Hh) as [Hf Hb]. unfold dl in *. split; intros c Hc; pose proof (parent_lt c ltac:(lia)).
    + intros ? ?. rewrite !Ho by lia. by apply Hf.
    + intros ? Hi0. pose proof (parent_lt i Hi0). rewrite !Ho by lia. by apply Hb.
  - exists (mkQueue l2 (Some p2)). split; [done|]. split_and!; [done|done|]. cbn [items]. by rewrite H3, Hlen.
Qed.

Lemma schedule_ok q m k u : queue_ok q m →
  ∃ q', schedule q k u = Ret q' ∧ queue_ok q' (if u =? 0 then delete k m else <[k := u]> m).
Proof.
  destruct q as [l po]. intros (Hp & Hm & Hh). unfold schedule. cbn [items positions] in *.
  assert (Hnone : ∀ p, pos_exact l p → p !! k = None → m !! k = None).
  { intros p Hpe Hk. destruct (m !! k) as [t|] eqn:E; [|done]. apply Hm, elem_of_znth in E as [i Hi].
    assert (p !! k = Some i) by (apply Hpe; eauto). congruence. }
  destruct (Z.eqb_spec u 0) as [->|Hu].
  - destruct po as [p|].
    + destruct (p !! k) as [i|] eqn:Hk.
      * destruct (heap_Remove_ok l p m k i Hp Hm Hh Hk) as (e & l' & p' & -> & _ & H1 & H2 & H3). rewrite res_bind_ret.
        eexists. split; [done|]. by split_and!.
      * eexists. split; [done|]. rewrite delete_id by (by eapply Hnone). by split_and!.
    + subst l. eexists. split; [done|]. rewrite delete_id; [by split_and!|]. destruct (m !! k) as [t|] eqn:E; [|done].
      apply Hm in E. by apply not_elem_of_nil in E.
  - assert (Hpe : pos_exact l (default ∅ po)).
    { destruct po as [p|]; [done|]. subst l. intros k' i. cbn. rewrite lookup_empty. split; [done|]. intros [t Ht].
      apply znth_Some in Ht. change (zlen (@nil expiration)) with 0 in Ht. lia. }
    destruct (default ∅ po !! k) as [i|] eqn:Hk.
    + pose proof Hk as Hk'. apply Hpe in Hk' as [t Ht]. rewrite Ht. cbn [or_panic]. rewrite res_bind_ret. cbn [at_ ekey].
      destruct (Z.eqb_spec t u) as [->|Hne].
      * eexists. split; [done|]. rewrite insert_id; [by split_and!|]. apply Hm, elem_of_znth. eauto.
      * by eapply Fix_ok.
    + destruct (heap_Push_ok l (default ∅ po) m k u Hpe Hm Hh Hk) as (l' & p' & -> & H1 & H2 & H3).
      eexists. split; [done|]. by split_and!.
Qed.

Lemma atFor_ok q m k : queue_ok q m → atFor q k = Ret (m !! k).
Proof.
  destruct q as [l [p|]]; intros (Hp & Hm & _); unfold atFor; cbn [items positions] in *.
  - destruct (p !! k) as [i|] eqn:Hk.
    + apply Hp in Hk as [t Ht]. pose proof (znth_Some _ _ _ Ht). destruct (Z.ltb_spec i 0); [lia|].
      destruct (Z.leb_spec (zlen l) i); [lia|]. cbn [orb]. rewrite Ht. cbn [or_panic]. rewrite res_bind_ret. cbn [ekey at_].
      rewrite bool_decide_true by done. cbn [negb]. f_equal. symmetry. apply Hm, elem_of_znth. eauto.
    + f_equal. destruct (m !! k) as [t|] eqn:E; [|done]. apply Hm, elem_of_znth in E as [i Hi].
      assert (p !! k = Some i) by (apply Hp; eauto). congruence.
  - subst l. f_equal. destruct (m !! k) as [t|] eqn:E; [|done]. apply Hm in E. by apply not_elem_of_nil in E.
Qed.

Lemma heap_root l n : heap_to l n → ∀ i, 0 ≤ i < n → dl l 0 ≤ dl l i.
Proof.
  intros Hh i [Hi Hn]. revert Hn. pattern i. apply Zlt_0_ind; [|done]. clear i Hi. intros i IH Hi Hn.
  destruct (decide (i = 0)) as [->|]; [lia|]. pose proof (parent_lt i). transitivity (dl l (parent i)); [apply IH; lia|apply Hh; lia].
Qed.

(** The root of the heap is an entry with the earliest deadline. *)
Lemma root_ok q m e : queue_ok q m → znth (items q) 0 = Some e →
  m !! ekey e = Some (at_ e) ∧ ∀ k t, m !! k = Some t → at_ e ≤ t.
Proof.
  intros (_ & Hm & Hh) He. split; [apply Hm, elem_of_znth; exists 0; by destruct e|].
  intros k t Hk. apply Hm, elem_of_znth in Hk as [i Hi]. pose proof (znth_Some _ _ _ Hi).
  pose proof (heap_root _ _ Hh i ltac:(lia)) as Hr. unfold dl in Hr. by rewrite He, Hi in Hr.
Qed.

Lemma queue_len q m : queue_ok q m → Len q = Z.of_nat (size m).
Proof.
  intros (Hp & Hm & _). assert (Hnd : NoDup (ekey <$> items q)).
  { destruct (positions q) as [p|]; [|rewrite Hp; constructor]. apply NoDup_alt. intros i j k Hi Hj.
    apply list_lookup_fmap_Some in Hi as ([k1 t1] & -> & Hi), Hj as ([k2 t2] & E & Hj). cbn in E. subst k2.
    assert (Z.of_nat i = Z.of_nat j); [|lia].
    apply (pos_unique (items q) p k1 _ _ t1 t2 Hp); rewrite znth_lookup, Nat2Z.id by lia; done. }
  assert (E : (fun e => (ekey e, at_ e)) <$> items q ≡ₚ map_to_list m).
  { apply NoDup_Permutation; [|apply NoDup_map_to_list|].
    - apply (NoDup_fmap_1 fst). by rewrite <- list_fmap_compose.
    - intros [k t]. rewrite elem_of_map_to_list, (Hm k t), list_elem_of_fmap. split.
      + intros ([k' t'] & [= -> ->] & ?). done.
      + intros ?. by exists (mkExpiration k t). }
  unfold Len, zlen. rewrite <- length_map_to_list, <- E, length_fmap. done.
Qed.

(** ** Any sequence of schedules *)

Fixpoint schedule_all (q : expirationQueue) (ops : list (list byte * Z)) : res expirationQueue :=
  match ops with
  | [] => Ret q
  | (k, u) :: ops => q ← schedule q k u; schedule_all q ops
  end.

(** A zero deadline removes the key. *)
Definition spec_schedule (m : gmap (list byte) Z) (op : list byte * Z) : gmap (list byte) Z :=
  if op.2 =? 0 then delete op.1 m else <[op.1 := op.2]> m.

(** C18: The expiration queue implements a map from keys to deadlines. Any
    sequence of schedules, reschedules and removals runs without a panic; the
    queue then holds one record per expiring key, answers every key with its
    last deadline, and has an entry with the earliest deadline at its root. *)
Theorem expiration_refinement ops :
  ∃ q, schedule_all emptyQueue ops = Ret q ∧
    let m := foldl spec_schedule ∅ ops in
    Len q = Z.of_nat (size m) ∧ (∀ k, atFor q k = Ret (m !! k)) ∧
    (m ≠ ∅ → ∃ e, znth (items q) 0 = Some e ∧ m !! ekey e = Some (at_ e) ∧ ∀ k t, m !! k = Some t → at_ e ≤ t).
Proof.
  assert (H : ∀ q m, queue_ok q m → ∃ q', schedule_all q ops = Ret q' ∧ queue_ok q' (foldl spec_schedule m ops)).
  { induction ops as [|[k u] ops IH]; intros q m Hq; cbn [schedule_all foldl]; [eauto|].
    destruct (schedule_ok q m k u Hq) as (q1 & -> & Hq1). rewrite res_bind_ret. by apply IH. }
  destruct (H emptyQueue ∅ queue_ok_empty) as (q & E & Hq). exists q. split; [done|]. cbv zeta.
  split_and!; [by apply queue_len|by intros; apply atFor_ok|]. intros Hne.
  destruct (znth_is_Some (items q) 0) as [e He].
  { pose proof (queue_len _ _ Hq) as Hl. unfold Len in Hl.
    assert (size (foldl spec_schedule ∅ ops) ≠ 0%nat) by (by rewrite map_size_empty_iff). lia. }
  exists e. split; [done|]. by apply (root_ok q).
Qed.
