(* ===== verification/HotHash.v ===== *)
(** * Hot hashes

    Model of the write-optimised form of a large hash value
    (internal/engine/hash_hot.go): an open-addressing slot array over records
    that point into an append-only payload. Overwriting a field appends the new
    value; deleting fields rebuilds the payload and the slots. *)
From stdpp Require Import sorting.
From S2P Require Import Prelude Table.
Set Default Proof Using "Type".

Definition hotHashMinSlots : Z := 16.

Record hotHashRecord := mkHot {
  hr_hash : Z;      (* uint64 *)
  fieldOff : Z;     (* uint32 *)
  fieldLen : Z;     (* uint32 *)
  valueOff : Z;     (* uint32 *)
  valueLen : Z;     (* uint32 *)
}.

(** A slot holds a record index plus one; zero means empty. *)
Record hotHash := mkHotHash {
  hslots : list Z;
  records : list hotHashRecord;
  payload : list byte;
  lastMutation : Z;
}.

(** [h.payload[start:end]] under the bounds check of the reader. *)
Definition in_payload (h : hotHash) (start len : Z) : option (list byte) :=
  if (0 <=? start) && (start <=? start + len) && (start + len <=? zlen (payload h))
  then zslice (payload h) start (start + len) else None.

(** ** Probing *)

Fixpoint find_loop (fuel : nat) (h : hotHash) (field : list byte) (hash start probe : Z) : res (Z * Z * bool) :=
  match fuel with
  | O => Ret (0, 0, false)
  | S f =>
      let slot := Z.land (start + probe) (zlen (hslots h) - 1) in
      raw ← or_panic (znth (hslots h) slot) oob;
      if raw =? 0 then Ret (slot, 0, false) else
      let record := raw - 1 in
      r ← or_panic (znth (records h) record) oob;
      if negb (hr_hash r =? hash) then find_loop f h field hash start (probe + 1) else
      if bool_decide (in_payload h (fieldOff r) (fieldLen r) = Some field) then Ret (slot, record, true)
      else find_loop f h field hash start (probe + 1)
  end.

(** The slot and record of a field, or the empty slot its probe sequence ends in. *)
Definition find (h : hotHash) (field : list byte) (hash : Z) : res (Z * Z * bool) :=
  if zlen (hslots h) =? 0 then Ret (0, 0, false) else
  find_loop (length (hslots h)) h field hash (Z.land (i64 hash) (zlen (hslots h) - 1)) 0.

(** First empty slot for record [i]; a full table drops it. *)
Fixpoint place_loop (fuel : nat) (next : list Z) (start probe i : Z) : res (list Z) :=
  match fuel with
  | O => Ret next
  | S f =>
      let slot := Z.land (start + probe) (zlen next - 1) in
      raw ← or_panic (znth next slot) oob;
      if raw =? 0 then or_panic (zupd next slot (u32 (i + 1))) oob
      else place_loop f next start (probe + 1) i
  end.

Fixpoint rehash_loop (rs : list hotHashRecord) (next : list Z) (i : Z) : res (list Z) :=
  match rs with
  | [] => Ret next
  | r :: rs =>
      next ← place_loop (length next) next (Z.land (i64 (hr_hash r)) (zlen next - 1)) 0 i;
      rehash_loop rs next (i + 1)
  end.

Definition rehash (h : hotHash) (slots : Z) : res hotHash :=
  let slots := if slots <? hotHashMinSlots then hotHashMinSlots else slots in
  next ← rehash_loop (records h) (replicate (Z.to_nat slots) 0) 0;
  Ret (mkHotHash next (records h) (payload h) (lastMutation h)).

Definition ensureInsertCapacity (h : hotHash) : res hotHash :=
  if zlen (hslots h) =? 0 then
    Ret (mkHotHash (replicate (Z.to_nat hotHashMinSlots) 0) (records h) (payload h) (lastMutation h))
  else if zlen (hslots h) * 7 <=? (zlen (records h) + 1) * 10 then rehash h (Z.shiftl (zlen (hslots h)) 1)
  else Ret h.

(** [for slots < n { slots <<= 1 }] *)
Fixpoint double_to (fuel : nat) (slots n : Z) : Z :=
  match fuel with
  | O => slots
  | S f => if slots <? n then double_to f (Z.shiftl slots 1) n else slots
  end.

Definition slots_for (n : Z) : Z := double_to 64 hotHashMinSlots (n * 2).

Section HotHash.
Context (maphash : list byte → Z).

Definition hot_set (h : hotHash) (field value : list byte) : res (bool * hotHash) :=
  let hash := HashBytes maphash field in
  '(_, record, found) ← find h field hash;
  if found : bool then
    let valueOff := zlen (payload h) in
    r ← or_panic (znth (records h) record) oob;
    rs ← or_panic (zupd (records h) record
      (mkHot (hr_hash r) (fieldOff r) (fieldLen r) (u32 valueOff) (u32 (zlen value)))) oob;
    Ret (false, mkHotHash (hslots h) rs (payload h ++ value) (lastMutation h))
  else
    h ← ensureInsertCapacity h;
    '(slot, _, _) ← find h field hash;
    let fieldOff := zlen (payload h) in
    let payload := payload h ++ field in
    let valueOff := zlen payload in
    let payload := payload ++ value in
    let rs := records h ++ [mkHot hash (u32 fieldOff) (u32 (zlen field)) (u32 valueOff) (u32 (zlen value))] in
    s ← or_panic (zupd (hslots h) slot (u32 (zlen rs))) oob;
    Ret (true, mkHotHash s rs payload (lastMutation h)).

Definition hot_get (h : hotHash) (field : list byte) : res (option (list byte)) :=
  '(_, record, found) ← find h field (HashBytes maphash field);
  if negb found then Ret None else
  r ← or_panic (znth (records h) record) oob;
  value ← or_panic (in_payload h (valueOff r) (valueLen r)) "invalid hot hash payload";
  Ret (Some value).

Fixpoint set_pairs (h : hotHash) (pairs : list (list byte * list byte)) : res hotHash :=
  match pairs with
  | [] => Ret h
  | (f, v) :: pairs => '(_, h) ← hot_set h f v; set_pairs h pairs
  end.

Definition newHotHash (pairs : list (list byte * list byte)) : res hotHash :=
  set_pairs (mkHotHash (replicate (Z.to_nat (slots_for (zlen pairs))) 0) [] [] 0) pairs.

(** Mark the records of the given fields: the marks and how many were set. *)
Fixpoint mark_loop (h : hotHash) (fields : list (list byte)) (remove : list bool) (deleted : Z) : res (list bool * Z) :=
  match fields with
  | [] => Ret (remove, deleted)
  | f :: fields =>
      '(_, record, found) ← find h f (HashBytes maphash f);
      if found : bool then
        marked ← or_panic (znth remove record) oob;
        if marked : bool then mark_loop h fields remove deleted else
        remove ← or_panic (zupd remove record true) oob;
        mark_loop h fields remove (deleted + 1)
      else mark_loop h fields remove deleted
  end.

(** Copy the unmarked records and their bytes. *)
Fixpoint compact_loop (rs : list hotHashRecord) (remove : list bool) (old : list byte)
    (nextRecords : list hotHashRecord) (nextPayload : list byte) : res (list hotHashRecord * list byte) :=
  match rs, remove with
  | r :: rs, marked :: remove =>
      if marked : bool then compact_loop rs remove old nextRecords nextPayload else
      f ← or_panic (zslice old (fieldOff r) (fieldOff r + fieldLen r)) oob;
      v ← or_panic (zslice old (valueOff r) (valueOff r + valueLen r)) oob;
      let fieldOff := zlen nextPayload in
      let nextPayload := nextPayload ++ f in
      let valueOff := zlen nextPayload in
      let nextPayload := nextPayload ++ v in
      compact_loop rs remove old
        (nextRecords ++ [mkHot (hr_hash r) (u32 fieldOff) (fieldLen r) (u32 valueOff) (valueLen r)]) nextPayload
  | [], _ => Ret (nextRecords, nextPayload)
  | _ :: _, [] => Panic oob
  end.

Definition hot_delete (h : hotHash) (fields : list (list byte)) : res (Z * hotHash) :=
  if (zlen fields =? 0) || (zlen (records h) =? 0) then Ret (0, h) else
  '(remove, deleted) ← mark_loop h fields (replicate (length (records h)) false) 0;
  if deleted =? 0 then Ret (0, h) else
  '(rs, p) ← compact_loop (records h) remove (payload h) [] [];
  h ← rehash (mkHotHash (hslots h) rs p (lastMutation h)) (slots_for (zlen rs));
  Ret (deleted, h).

End HotHash.

(** Read every record in order. *)
Fixpoint read_pairs (h : hotHash) (rs : list hotHashRecord) : res (list (list byte * list byte)) :=
  match rs with
  | [] => Ret []
  | r :: rs =>
      f ← or_panic (in_payload h (fieldOff r) (fieldLen r)) "invalid hot hash payload";
      v ← or_panic (in_payload h (valueOff r) (valueLen r)) "invalid hot hash payload";
      ps ← read_pairs h rs;
      Ret ((f, v) :: ps)
  end.

(** [bytes.Compare(a, b) < 0] *)
Fixpoint bytes_lt (a b : list byte) : bool :=
  match a, b with
  | _, [] => false
  | [], _ :: _ => true
  | x :: a, y :: b => (bz x <? bz y) || (bz x =? bz y) && bytes_lt a b
  end.

(** The order [sort.Slice] sorts pairs by. *)
Definition field_le (p q : list byte * list byte) : Prop := bytes_lt q.1 p.1 = false.
#[export] Instance field_le_dec p q : Decision (field_le p q) := decide (bytes_lt q.1 p.1 = false).

Definition pairs (h : hotHash) : res (list (list byte * list byte)) :=
  ps ← read_pairs h (records h); Ret (merge_sort field_le ps).
