(* ===== verification/HotHashFacts.v ===== *)
(** * Correctness of hot hashes

    The slot array finds every record along its probe sequence; with the
    payload it implements a finite map from fields to values. *)
From stdpp Require Import sorting.
From S2P Require Import Prelude KeyPackFacts Table HotHash.
Set Default Proof Using "Type".

Lemma filter_all {A} (P : A → Prop) `{!∀ x, Decision (P x)} (l : list A) : length (filter P l) = length l → filter P l = l.
Proof.
  induction l as [|x l IH]; [done|]. rewrite filter_cons. pose proof (length_filter P l). destruct (decide (P x)); cbn [length].
  - intros E. f_equal. apply IH. lia.
  - lia.
Qed.

Lemma filter_every {A} (P : A → Prop) `{!∀ x, Decision (P x)} (l : list A) : Forall P l → filter P l = l.
Proof. induction 1 as [|x l Hx _ IH]; [done|]. rewrite filter_cons, IH. by destruct (decide (P x)). Qed.

(** ** Probe sequences *)

Definition pow2 (n : Z) : Prop := ∃ e, 0 ≤ e ∧ n = 2 ^ e.

Lemma pow2_pos n : pow2 n → 0 < n.
Proof. intros (e & He & ->). by apply Z.pow_pos_nonneg. Qed.

Lemma pow2_land n x : pow2 n → Z.land x (n - 1) = x mod n.
Proof. intros (e & He & ->). by apply land_mask. Qed.

(** The slot of probe [k] for a hash, in a table of [n] slots. *)
Definition slot_at (hash n k : Z) : Z := (hash + k) mod n.

Lemma slot_at_range hash n k : 0 < n → 0 ≤ slot_at hash n k < n.
Proof. intros. by apply Z.mod_pos_bound. Qed.

Lemma slot_at_probe hash n k : pow2 n → n ≤ 2 ^ 64 → Z.land (Z.land (i64 hash) (n - 1) + k) (n - 1) = slot_at hash n k.
Proof.
  intros Hn Hb. pose proof (pow2_pos n Hn). rewrite !pow2_land by done. unfold slot_at. rewrite Zplus_mod_idemp_l.
  assert (Hi : i64 hash mod n = hash mod n).
  { destruct Hn as (e & He & ->). unfold i64. apply Z.pow_le_mono_r_iff in Hb; [|lia..].
    rewrite (Z.mod_eq (hash + 2 ^ 63) (2 ^ 64)) by lia. assert (E : 2 ^ 64 = 2 ^ (64 - e) * 2 ^ e) by (rewrite <- Z.pow_add_r by lia; f_equal; lia).
    set (q := (hash + 2 ^ 63) / 2 ^ 64). rewrite E. rewrite <- (Z.mod_add hash (- (2 ^ (64 - e) * q)) (2 ^ e)) by lia.
    f_equal. ring. }
  rewrite Zplus_mod, Hi, <- Zplus_mod. done.
Qed.

(** Every slot is on every probe sequence. *)
Lemma slot_at_onto hash n s : 0 ≤ s < n → ∃ k, 0 ≤ k < n ∧ slot_at hash n k = s.
Proof.
  intros Hs. exists ((s - hash) mod n). split; [apply Z.mod_pos_bound; lia|]. unfold slot_at.
  rewrite Zplus_mod_idemp_r. replace (hash + (s - hash)) with s by lia. apply Z.mod_small. lia.
Qed.

(** ** Slot arrays *)

Definition used (slots : list Z) : Z := zlen (filter (fun v => v ≠ 0) slots).

Definition reach (slots : list Z) (hash v : Z) : Prop :=
  ∃ k, 0 ≤ k < zlen slots ∧ znth slots (slot_at hash (zlen slots) k) = Some v ∧
    ∀ j, 0 ≤ j < k → znth slots (slot_at hash (zlen slots) j) ≠ Some 0.

(** The array holds one reachable slot per record hash. *)
Record slots_ok (slots : list Z) (hs : list Z) : Prop := {
  so_pow : pow2 (zlen slots);
  so_bound : zlen slots ≤ 2 ^ 64;
  so_used : used slots = zlen hs;
  so_valid : ∀ s v, znth slots s = Some v → v = 0 ∨ 1 ≤ v ≤ zlen hs;
  so_reach : ∀ i hash, znth hs i = Some hash → reach slots hash (i + 1);
}.

(** The first empty slot of a probe sequence. *)
Definition first_free (slots : list Z) (hash slot : Z) : Prop :=
  ∃ k, 0 ≤ k < zlen slots ∧ slot = slot_at hash (zlen slots) k ∧ znth slots slot = Some 0 ∧
    ∀ j, 0 ≤ j < k → znth slots (slot_at hash (zlen slots) j) ≠ Some 0.

Lemma used_zero slots : used slots < zlen slots → ∃ s, znth slots s = Some 0.
Proof.
  unfold used. induction slots as [|v slots IH]; [done|]. rewrite filter_cons, zlen_cons. destruct (decide (v ≠ 0)) as [Hv|Hv].
  - rewrite zlen_cons. intros H. destruct IH as [s Hs]; [lia|]. exists (s + 1). pose proof (znth_Some _ _ _ Hs).
    rewrite znth_lookup in * by lia. replace (Z.to_nat (s + 1)) with (S (Z.to_nat s)) by lia. done.
  - intros _. exists 0. destruct (decide (v = 0)) as [->|]; [done|lia].
Qed.

Lemma used_insert slots s v : znth slots s = Some 0 → v ≠ 0 → used (<[Z.to_nat s := v]> slots) = used slots + 1.
Proof.
  intros Hs Hv. pose proof (znth_Some _ _ _ Hs). rewrite znth_lookup in Hs by lia.
  rewrite insert_take_drop by (unfold zlen in *; lia). rewrite <- (take_drop_middle slots _ _ Hs) at 3.
  unfold used. rewrite !filter_app, !filter_cons. destruct (decide (v ≠ 0)), (decide (0 ≠ 0)); try done.
  rewrite !zlen_app, zlen_cons. lia.
Qed.

(** Filling the first free slot adds a record. *)
Lemma slots_ok_place slots hs hash slot :
  slots_ok slots hs → first_free slots hash slot →
  slots_ok (<[Z.to_nat slot := zlen hs + 1]> slots) (hs ++ [hash]).
Proof.
  intros H (k & Hk & Es & Hz & Hpath). pose proof (znth_Some _ _ _ Hz) as Hr. pose proof (zlen_nonneg hs).
  set (slots' := <[Z.to_nat slot := zlen hs + 1]> slots). assert (Hl : zlen slots' = zlen slots) by apply zlen_insert.
  assert (Hnew : znth slots' slot = Some (zlen hs + 1)) by (by apply znth_insert_eq).
  assert (Hold : ∀ s, s ≠ slot → znth slots' s = znth slots s) by (intros; apply znth_insert_ne; lia).
  assert (Hnz : ∀ s, znth slots s ≠ Some 0 → znth slots' s ≠ Some 0).
  { intros s Hs. destruct (decide (s = slot)) as [->|]; [rewrite Hnew; intros [= ?]; lia|by rewrite Hold]. }
  split; rewrite ?Hl.
  - apply H.
  - apply H.
  - unfold slots'. rewrite used_insert, zlen_snoc by (done || lia). by rewrite (so_used _ _ H).
  - intros s v Hv. rewrite zlen_snoc. destruct (decide (s = slot)) as [->|Hne].
    + rewrite Hnew in Hv. injection Hv as <-. lia.
    + rewrite Hold in Hv by done. destruct (so_valid _ _ H _ _ Hv); lia.
  - intros i hash' Hi. pose proof (znth_Some _ _ _ Hi) as Hir. rewrite zlen_snoc in Hir. unfold reach. rewrite Hl.
    destruct (decide (i = zlen hs)) as [->|Hne].
    + rewrite znth_app_r, Z.sub_diag in Hi by lia. injection Hi as <-. exists k. rewrite <- Es. split_and!; [lia|lia|done|].
      intros j Hj. by apply Hnz, Hpath.
    + rewrite znth_app_l in Hi by lia. destruct (so_reach _ _ H _ _ Hi) as (j & Hj & Ej & Hjp). exists j. split_and!; [lia|lia| |].
      * rewrite Hold; [done|]. intros E. rewrite E, Hz in Ej. injection Ej. lia.
      * intros j' Hj'. by apply Hnz, Hjp.
Qed.

(** Some slot of the sequence is free. *)
Lemma free_probe slots hs hash : slots_ok slots hs → zlen hs < zlen slots →
  ∃ k, 0 ≤ k < zlen slots ∧ znth slots (slot_at hash (zlen slots) k) = Some 0.
Proof.
  intros H Hlt. destruct (used_zero slots) as [s Hs]; [by rewrite (so_used _ _ H)|]. pose proof (znth_Some _ _ _ Hs).
  destruct (slot_at_onto hash (zlen slots) s) as (k & Hk & E); [done|]. exists k. by rewrite E.
Qed.

Lemma place_loop_ok slots hs hash i fuel : ∀ probe,
  slots_ok slots hs → zlen hs < zlen slots → 0 ≤ probe → Z.of_nat fuel = zlen slots - probe →
  (∀ j, 0 ≤ j < probe → znth slots (slot_at hash (zlen slots) j) ≠ Some 0) →
  ∃ slot, first_free slots hash slot ∧
    place_loop fuel slots (Z.land (i64 hash) (zlen slots - 1)) probe i = Ret (<[Z.to_nat slot := u32 (i + 1)]> slots).
Proof.
  induction fuel as [|fuel IH]; intros probe H Hlt Hp Hf Hpath.
  { exfalso. destruct (free_probe slots hs hash H Hlt) as (k & Hk & E). apply (Hpath k); [lia|done]. }
  cbn [place_loop]. rewrite (slot_at_probe hash _ probe (so_pow _ _ H) (so_bound _ _ H)).
  pose proof (slot_at_range hash (zlen slots) probe ltac:(lia)) as Hr.
  destruct (znth_is_Some slots _ Hr) as [raw Hraw]. rewrite Hraw. cbn [or_panic]. rewrite res_bind_ret.
  destruct (Z.eqb_spec raw 0) as [->|Hraw0].
  - eexists. split; [exists probe; split_and!; [lia|lia|done|done|done]|]. by rewrite zupd_Some by done.
  - destruct (IH (probe + 1)) as (slot & ? & ?); try done; try lia; [|by exists slot].
    intros j Hj. destruct (decide (j = probe)) as [->|]; [rewrite Hraw; congruence|]. apply Hpath. lia.
Qed.

Lemma rehash_loop_ok rs : ∀ slots hs,
  slots_ok slots hs → zlen hs + zlen rs < zlen slots → zlen hs + zlen rs < 2 ^ 32 →
  ∃ slots', rehash_loop rs slots (zlen hs) = Ret slots' ∧ slots_ok slots' (hs ++ map hr_hash rs) ∧ zlen slots' = zlen slots.
Proof.
  induction rs as [|r rs IH]; intros slots hs H Hlt Hb; cbn [rehash_loop map].
  { exists slots. by rewrite app_nil_r. }
  rewrite zlen_cons in *. pose proof (zlen_nonneg rs). pose proof (zlen_nonneg hs).
  destruct (place_loop_ok slots hs (hr_hash r) (zlen hs) (length slots) 0) as (slot & Hff & ->); [done|lia|done|unfold zlen; lia|lia|].
  rewrite res_bind_ret, u32_id by lia.
  destruct (IH (<[Z.to_nat slot := zlen hs + 1]> slots) (hs ++ [hr_hash r])) as (slots' & E & Hok & Hl).
  - by apply slots_ok_place.
  - rewrite zlen_snoc, zlen_insert. lia.
  - rewrite zlen_snoc. lia.
  - rewrite zlen_snoc in E. exists slots'. rewrite zlen_insert in Hl. rewrite <- app_assoc in Hok. done.
Qed.

Lemma used_replicate n : used (replicate n 0) = 0.
Proof. unfold used. induction n as [|n IH]; [done|]. cbn [replicate]. rewrite filter_cons. by destruct (decide (0 ≠ 0)). Qed.

Lemma slots_ok_empty n : pow2 n → n ≤ 2 ^ 64 → slots_ok (replicate (Z.to_nat n) 0) [].
Proof.
  intros Hn Hb. pose proof (pow2_pos n Hn). split; rewrite ?zlen_replicate by lia; try done.
  - apply used_replicate.
  - intros s v Hv. pose proof (znth_Some _ _ _ Hv). rewrite znth_lookup in Hv by lia.
    apply lookup_replicate in Hv as [-> _]. by left.
  - intros i hash Hi. apply znth_Some in Hi. change (zlen (@nil Z)) with 0 in Hi. lia.
Qed.

Lemma pow2_double n : pow2 n → pow2 (Z.shiftl n 1).
Proof. intros (e & He & ->). exists (e + 1). split; [lia|]. rewrite Z.shiftl_mul_pow2, Z.pow_add_r by lia. done. Qed.

Lemma double_to_ok fuel : ∀ s n, pow2 s → n ≤ s * 2 ^ Z.of_nat fuel → 0 ≤ n →
  pow2 (double_to fuel s n) ∧ n ≤ double_to fuel s n ∧ s ≤ double_to fuel s n ∧ double_to fuel s n ≤ Z.max s (2 * n).
Proof.
  induction fuel as [|fuel IH]; intros s n Hs Hn H0; cbn [double_to]; pose proof (pow2_pos s Hs).
  - rewrite Z.mul_1_r in Hn. split_and!; [done|done|lia|lia].
  - destruct (Z.ltb_spec s n) as [Hlt|Hge]; [|split_and!; [done|lia|lia|lia]].
    assert (E : Z.shiftl s 1 = s * 2) by (by rewrite Z.shiftl_mul_pow2).
    destruct (IH (Z.shiftl s 1) n) as (H1 & H2 & H3 & H4); [by apply pow2_double| |done|split_and!; [done|done|lia|lia]].
    rewrite Nat2Z.inj_succ, Z.pow_succ_r in Hn by lia. rewrite E. lia.
Qed.

Lemma slots_for_ok n : 0 ≤ n < 2 ^ 32 → pow2 (slots_for n) ∧ 16 ≤ slots_for n ≤ 2 ^ 34 ∧ n < slots_for n.
Proof.
  intros Hn. unfold slots_for, hotHashMinSlots. destruct (double_to_ok 64 16 (n * 2)) as (H1 & H2 & H3 & H4).
  - by exists 4.
  - change (2 ^ Z.of_nat 64) with (2 ^ 64). lia.
  - lia.
  - split_and!; [done|lia|lia|lia].
Qed.

Lemma rehash_ok h n : pow2 n → 16 ≤ n ≤ 2 ^ 64 → zlen (records h) < n → zlen (records h) < 2 ^ 32 →
  ∃ s, rehash h n = Ret (mkHotHash s (records h) (payload h) (lastMutation h)) ∧
    slots_ok s (map hr_hash (records h)) ∧ zlen s = n.
Proof.
  intros Hn Hb Hr H32. unfold rehash, hotHashMinSlots. destruct (Z.ltb_spec n 16); [lia|].
  destruct (rehash_loop_ok (records h) (replicate (Z.to_nat n) 0) []) as (s & E & Hs & Hl).
  - apply slots_ok_empty; [done|lia].
  - rewrite zlen_replicate by lia. exact Hr.
  - exact H32.
  - change (zlen (@nil Z)) with 0 in E. rewrite E, res_bind_ret. exists s. rewrite Hl, zlen_replicate by lia. done.
Qed.

(** ** Records and fields *)

(** Bytes of the fields and values themselves. *)
Definition fv_bytes (fv : list (list byte * list byte)) : Z := foldr (fun p n => zlen p.1 + zlen p.2 + n) 0 fv.

Lemma fv_bytes_app a b : fv_bytes (a ++ b) = fv_bytes a + fv_bytes b.
Proof. unfold fv_bytes. induction a as [|p a IH]; cbn [app foldr]; [done|]. rewrite IH. lia. Qed.

Lemma fv_bytes_nonneg fv : 0 ≤ fv_bytes fv.
Proof.
  unfold fv_bytes. induction fv as [|p fv IH]; cbn [foldr]; [done|]. pose proof (zlen_nonneg p.1). pose proof (zlen_nonneg p.2). lia.
Qed.

Lemma fv_bytes_insert fv i f v w : fv !! i = Some (f, w) → fv_bytes (<[i := (f, v)]> fv) + zlen w = fv_bytes fv + zlen v.
Proof.
  intros Hi. pose proof (lookup_lt_Some _ _ _ Hi). rewrite insert_take_drop by done. rewrite <- (take_drop_middle fv i _ Hi) at 3.
  rewrite !fv_bytes_app. cbn [fv_bytes foldr fst snd]. fold (fv_bytes (drop (S i) fv)). lia.
Qed.

Section Facts.
Context (maphash : list byte → Z).

(** Record [r] is field and value [fv] in payload [p]. *)
Definition rec_ok (p : list byte) (r : hotHashRecord) (fv : list byte * list byte) : Prop :=
  hr_hash r = HashBytes maphash fv.1 ∧ zslice p (fieldOff r) (fieldOff r + fieldLen r) = Some fv.1 ∧
  zslice p (valueOff r) (valueOff r + valueLen r) = Some fv.2.

Record hot_inv (h : hotHash) (fv : list (list byte * list byte)) : Prop := {
  hi_slots : slots_ok (hslots h) (map hr_hash (records h));
  hi_recs : Forall2 (rec_ok (payload h)) (records h) fv;
  hi_nodup : NoDup fv.*1;
  hi_room : zlen (records h) < zlen (hslots h);
  hi_min : 16 ≤ zlen (hslots h);
  hi_bytes : fv_bytes fv ≤ zlen (payload h);
}.

Lemma in_payload_slice h s n x : zslice (payload h) s (s + n) = Some x → in_payload h s n = Some x.
Proof.
  intros H. pose proof (zslice_inv _ _ _ _ H) as (H1 & H2 & H3 & _). unfold in_payload.
  destruct (Z.leb_spec 0 s), (Z.leb_spec s (s + n)), (Z.leb_spec (s + n) (zlen (payload h))); try lia. done.
Qed.

Lemma rec_ok_grow p q r fv : rec_ok p r fv → rec_ok (p ++ q) r fv.
Proof. intros (H1 & H2 & H3). split_and!; [done|by apply zslice_app_l..]. Qed.

Lemma hi_len h fv : hot_inv h fv → zlen fv = zlen (records h).
Proof. intros H. unfold zlen. by rewrite (Forall2_length _ _ _ (hi_recs _ _ H)). Qed.

Lemma hi_rec h fv i r : hot_inv h fv → znth (records h) i = Some r → ∃ x, znth fv i = Some x ∧ rec_ok (payload h) r x.
Proof.
  intros H Hr. pose proof (znth_Some _ _ _ Hr). rewrite znth_lookup in Hr by lia.
  destruct (Forall2_lookup_l _ _ _ _ _ (hi_recs _ _ H) Hr) as (x & Hx & Hok). exists x. by rewrite znth_lookup by lia.
Qed.

Lemma hi_fv h fv i x : hot_inv h fv → znth fv i = Some x → ∃ r, znth (records h) i = Some r ∧ rec_ok (payload h) r x.
Proof.
  intros H Hx. pose proof (znth_Some _ _ _ Hx). rewrite znth_lookup in Hx by lia.
  destruct (Forall2_lookup_r _ _ _ _ _ (hi_recs _ _ H) Hx) as (r & Hr & Hok). exists r. by rewrite znth_lookup by lia.
Qed.

(** A search found the record of [f], or the slot where it belongs. *)
Definition found_at (h : hotHash) (fv : list (list byte * list byte)) (f : list byte) (r : res (Z * Z * bool)) : Prop :=
  (∃ slot i v, r = Ret (slot, i, true) ∧ znth fv i = Some (f, v)) ∨
  ((f ∉ fv.*1) ∧ ∃ slot, r = Ret (slot, 0, false) ∧ first_free (hslots h) (HashBytes maphash f) slot).

Lemma find_loop_ok h fv f fuel : ∀ probe,
  hot_inv h fv → 0 ≤ probe → Z.of_nat fuel = zlen (hslots h) - probe →
  (∀ j, 0 ≤ j < probe → znth (hslots h) (slot_at (HashBytes maphash f) (zlen (hslots h)) j) ≠ Some 0) →
  (∀ j i x, 0 ≤ j < probe → znth (hslots h) (slot_at (HashBytes maphash f) (zlen (hslots h)) j) = Some (i + 1) →
    znth fv i = Some x → x.1 ≠ f) →
  found_at h fv f (find_loop fuel h f (HashBytes maphash f) (Z.land (i64 (HashBytes maphash f)) (zlen (hslots h) - 1)) probe).
Proof.
  induction fuel as [|fuel IH]; intros probe H Hp Hf Hpath Hmiss; pose proof (hi_slots _ _ H) as Hs.
  { exfalso. destruct (free_probe (hslots h) _ (HashBytes maphash f) Hs) as (k & Hk & E).
    - pose proof (hi_room _ _ H). unfold zlen in *. rewrite length_map. lia.
    - apply (Hpath k); [lia|done]. }
  cbn [find_loop]. rewrite (slot_at_probe (HashBytes maphash f) _ probe (so_pow _ _ Hs) (so_bound _ _ Hs)).
  pose proof (slot_at_range (HashBytes maphash f) (zlen (hslots h)) probe ltac:(lia)) as Hr.
  destruct (znth_is_Some (hslots h) _ Hr) as [raw Hraw]. rewrite Hraw. cbn [or_panic]. rewrite res_bind_ret.
  destruct (Z.eqb_spec raw 0) as [->|Hraw0].
  - right. split; [|eexists; split; [done|]; exists probe; split_and!; [lia|lia|done|done|done]].
    intros ([f' v] & -> & Hin)%list_elem_of_fmap. apply list_elem_of_lookup in Hin as [i Hi]. cbn [fst] in *.
    assert (Hi' : znth fv (Z.of_nat i) = Some (f', v)) by (by rewrite znth_lookup, Nat2Z.id by lia).
    destruct (hi_fv _ _ _ _ H Hi') as (r & Hri & Hok & _). cbn [fst] in Hok.
    destruct (so_reach _ _ Hs (Z.of_nat i) (HashBytes maphash f')) as (k & Hk & Ek & Hkp).
    { rewrite znth_lookup, Nat2Z.id in Hri by lia. rewrite znth_lookup, Nat2Z.id by lia. change (map hr_hash (records h)) with (hr_hash <$> records h).
      rewrite list_lookup_fmap, Hri. cbn. by rewrite Hok. }
    destruct (decide (k < probe)) as [Hlt|Hge].
    { by apply (Hmiss k (Z.of_nat i) (f', v)); [lia|..]. }
    destruct (decide (k = probe)) as [->|]; [rewrite Hraw in Ek; injection Ek; lia|]. apply (Hkp probe); [lia|done].
  - destruct (so_valid _ _ Hs _ _ Hraw) as [|Hv]; [done|]. assert (Hlm : zlen (map hr_hash (records h)) = zlen (records h))
      by (unfold zlen; by rewrite length_map). rewrite Hlm in Hv.
    destruct (znth_is_Some (records h) (raw - 1)) as [r Hri]; [lia|]. rewrite Hri. cbn [or_panic]. rewrite res_bind_ret.
    destruct (hi_rec _ _ _ _ H Hri) as ([f' v] & Hx & Hh & Hfs & Hvs). cbn [fst snd] in *.
    assert (Hstep : f' ≠ f → found_at h fv f
      (find_loop fuel h f (HashBytes maphash f) (Z.land (i64 (HashBytes maphash f)) (zlen (hslots h) - 1)) (probe + 1))).
    { intros Hne. apply IH; [done|lia|lia|..].
      - intros j Hj. destruct (decide (j = probe)) as [->|]; [rewrite Hraw; congruence|apply Hpath; lia].
      - intros j i x Hj Hji Hxi. destruct (decide (j = probe)) as [->|]; [|by apply (Hmiss j i x); [lia|..]].
        rewrite Hraw in Hji. injection Hji as ->. replace (i + 1 - 1) with i in Hx by lia. rewrite Hx in Hxi. by injection Hxi as <-. }
    destruct (Z.eqb_spec (hr_hash r) (HashBytes maphash f)) as [Eh|Eh]; cbn [negb]; [|apply Hstep; congruence].
    rewrite (in_payload_slice _ _ _ _ Hfs). destruct (bool_decide_reflect (Some f' = Some f)) as [[= ->]|Hne].
    + left. eauto 10.
    + apply Hstep. congruence.
Qed.

Lemma find_ok h fv f : hot_inv h fv → found_at h fv f (find h f (HashBytes maphash f)).
Proof.
  intros H. unfold find. pose proof (pow2_pos _ (so_pow _ _ (hi_slots _ _ H))). destruct (Z.eqb_spec (zlen (hslots h)) 0); [lia|].
  apply find_loop_ok; [done|lia|unfold zlen; lia|lia|lia].
Qed.

(** ** Set *)

Lemma map_hash_update rs i r r' : znth rs i = Some r → hr_hash r' = hr_hash r → map hr_hash (<[Z.to_nat i := r']> rs) = map hr_hash rs.
Proof.
  intros Hi E. pose proof (znth_Some _ _ _ Hi). rewrite znth_lookup in Hi by lia.
  change (map hr_hash) with (fmap (M:=list) hr_hash). rewrite list_fmap_insert, E. apply list_insert_id.
  by rewrite list_lookup_fmap, Hi.
Qed.

(** The pairs after setting a field: replaced in place or appended. *)
Definition set_fv (fv : list (list byte * list byte)) (f v : list byte) (i : option Z) : list (list byte * list byte) :=
  match i with Some i => <[Z.to_nat i := (f, v)]> fv | None => fv ++ [(f, v)] end.

Lemma set_found h fv f v i w :
  hot_inv h fv → znth fv i = Some (f, w) → zlen (payload h) + zlen v < 2 ^ 32 →
  ∃ r, znth (records h) i = Some r ∧
    let rs := <[Z.to_nat i := mkHot (hr_hash r) (fieldOff r) (fieldLen r) (u32 (zlen (payload h))) (u32 (zlen v))]> (records h) in
    hot_inv (mkHotHash (hslots h) rs (payload h ++ v) (lastMutation h)) (<[Z.to_nat i := (f, v)]> fv).
Proof.
  intros H Hi Hb. pose proof (znth_Some _ _ _ Hi) as Hir. pose proof (zlen_nonneg (payload h)). pose proof (zlen_nonneg v).
  destruct (hi_fv _ _ _ _ H Hi) as (r & Hr & Hh & Hf & Hv). exists r. split; [done|]. cbn [fst snd] in *.
  rewrite !u32_id by lia. split; cbn [hslots records payload].
  - rewrite (map_hash_update _ _ r) by done. apply H.
  - apply Forall2_insert; [|split_and!; [done|by apply zslice_app_l|]].
    + eapply Forall2_impl; [apply H|]. intros. by apply rec_ok_grow.
    + apply (zslice_at _ (payload h) v []); [by rewrite app_nil_r|done|done].
  - rewrite list_fmap_insert. rewrite list_insert_id; [apply H|]. rewrite znth_lookup in Hi by lia.
    by rewrite list_lookup_fmap, Hi.
  - rewrite zlen_insert. apply H.
  - apply H.
  - pose proof (hi_bytes _ _ H). rewrite znth_lookup in Hi by lia. pose proof (fv_bytes_insert fv _ f v w Hi).
    rewrite zlen_app. pose proof (zlen_nonneg w). lia.
Qed.

Lemma ensure_ok h fv : hot_inv h fv → zlen (records h) + 1 < 2 ^ 32 →
  ∃ h', ensureInsertCapacity h = Ret h' ∧ hot_inv h' fv ∧ payload h' = payload h ∧ records h' = records h ∧
    lastMutation h' = lastMutation h ∧ zlen (records h) + 1 < zlen (hslots h').
Proof.
  intros H Hb. pose proof (pow2_pos _ (so_pow _ _ (hi_slots _ _ H))). pose proof (hi_room _ _ H). pose proof (zlen_nonneg (records h)).
  unfold ensureInsertCapacity. destruct (Z.eqb_spec (zlen (hslots h)) 0); [lia|].
  destruct (Z.leb_spec (zlen (hslots h) * 7) ((zlen (records h) + 1) * 10)) as [Hle|Hlt].
  - assert (E : Z.shiftl (zlen (hslots h)) 1 = zlen (hslots h) * 2) by (by rewrite Z.shiftl_mul_pow2).
    pose proof (hi_min _ _ H). destruct (rehash_ok h (Z.shiftl (zlen (hslots h)) 1)) as (s & -> & Hs & Hl).
    + apply pow2_double, (so_pow _ _ (hi_slots _ _ H)).
    + lia.
    + lia.
    + lia.
    + eexists. split; [done|]. cbn [hslots records payload lastMutation]. split_and!; try done; [|lia].
      split; cbn [hslots records payload]; [done|apply H|apply H|lia|lia|apply H].
  - exists h. split_and!; try done. lia.
Qed.

Lemma set_absent h fv f v slot :
  hot_inv h fv → (f ∉ fv.*1) → first_free (hslots h) (HashBytes maphash f) slot →
  zlen (payload h) + zlen f + zlen v < 2 ^ 32 → zlen (records h) + 1 < 2 ^ 32 → zlen (records h) + 1 < zlen (hslots h) →
  let p := payload h ++ f in
  let rs := records h ++ [mkHot (HashBytes maphash f) (u32 (zlen (payload h))) (u32 (zlen f)) (u32 (zlen p)) (u32 (zlen v))] in
  ∃ s, zupd (hslots h) slot (u32 (zlen rs)) = Some s ∧
    hot_inv (mkHotHash s rs (p ++ v) (lastMutation h)) (fv ++ [(f, v)]).
Proof.
  intros H Hf Hff Hb Hr Hroom p rs. pose proof (zlen_nonneg (payload h)). pose proof (zlen_nonneg v). pose proof (zlen_nonneg f).
  pose proof (zlen_nonneg (records h)). assert (Hlm : zlen (map hr_hash (records h)) = zlen (records h))
    by (unfold zlen; by rewrite length_map).
  pose proof (slots_ok_place _ _ _ _ (hi_slots _ _ H) Hff) as Hs. rewrite Hlm in Hs. destruct Hff as (k & Hk & _ & Hz & _).
  pose proof (znth_Some _ _ _ Hz). assert (Hp : zlen p = zlen (payload h) + zlen f) by apply zlen_app.
  rewrite zupd_Some by lia. eexists. split; [done|]. unfold rs. rewrite zlen_snoc, !u32_id by lia.
  split; cbn [hslots records payload].
  - by rewrite map_app.
  - apply Forall2_app; [|constructor; [|constructor]].
    + eapply Forall2_impl; [apply H|]. intros. unfold p. rewrite <- app_assoc. by apply rec_ok_grow.
    + split_and!; cbn [hr_hash fieldOff fieldLen valueOff valueLen fst snd]; [done|..].
      * apply (zslice_at _ (payload h) f v); [unfold p; by rewrite <- app_assoc|done|done].
      * apply (zslice_at _ p v []); [by rewrite app_nil_r|done|done].
  - rewrite fmap_app. apply NoDup_app. split_and!; [apply H| |apply NoDup_singleton].
    intros x Hx Hx'. apply list_elem_of_singleton in Hx'. by subst x.
  - rewrite zlen_snoc, zlen_insert. lia.
  - rewrite zlen_insert. apply H.
  - rewrite fv_bytes_app, zlen_app, Hp. cbn [fv_bytes foldr fst snd]. pose proof (hi_bytes _ _ H). lia.
Qed.

(** ** Refinement of a finite map *)

(** The pairs [fv] are the entries of [m]. *)
Definition holds (fv : list (list byte * list byte)) (m : gmap (list byte) (list byte)) : Prop :=
  ∀ f v, m !! f = Some v ↔ (f, v) ∈ fv.

Definition hot_ok (h : hotHash) (m : gmap (list byte) (list byte)) : Prop := ∃ fv, hot_inv h fv ∧ holds fv m.

(** Bytes and records in use. *)
Definition hot_size (h : hotHash) : Z := zlen (payload h) + zlen (records h).

Lemma holds_field fv m f : holds fv m → f ∈ fv.*1 ↔ is_Some (m !! f).
Proof.
  intros Hm. rewrite list_elem_of_fmap. split.
  - intros ([f' v] & -> & Hin). exists v. by apply Hm.
  - intros [v Hv]. exists (f, v). split; [done|]. by apply Hm.
Qed.

Lemma holds_append fv m f v : holds fv m → (f ∉ fv.*1) → holds (fv ++ [(f, v)]) (<[f := v]> m).
Proof.
  intros Hm Hf f' v'. rewrite elem_of_app, list_elem_of_singleton. destruct (decide (f' = f)) as [->|Hne].
  - rewrite lookup_insert_eq. split; [intros [= <-]; by right|]. intros [Hin|[= ->]]; [|done].
    destruct Hf. apply list_elem_of_fmap. by exists (f, v').
  - rewrite lookup_insert_ne, (Hm f' v') by done. split; [by left|]. intros [?|[= -> _]]; done.
Qed.

Lemma holds_replace fv m i f v w : holds fv m → NoDup fv.*1 → fv !! i = Some (f, w) → holds (<[i := (f, v)]> fv) (<[f := v]> m).
Proof.
  intros Hm Hnd Hi f' v'. pose proof (lookup_lt_Some _ _ _ Hi) as Hlt. rewrite list_elem_of_lookup.
  destruct (decide (f' = f)) as [->|Hne].
  - rewrite lookup_insert_eq. split; [intros [= <-]; exists i; by apply list_lookup_insert_eq|]. intros [j Hj].
    destruct (decide (i = j)) as [<-|Hij]; [rewrite list_lookup_insert_eq in Hj by done; congruence|].
    rewrite list_lookup_insert_ne in Hj by done. destruct Hij. eapply (NoDup_lookup fv.*1); [done|..].
    + by rewrite list_lookup_fmap, Hi.
    + by rewrite list_lookup_fmap, Hj.
  - rewrite lookup_insert_ne, (Hm f' v'), list_elem_of_lookup by done. split; intros [j Hj]; exists j.
    + rewrite list_lookup_insert_ne; [done|]. intros <-. congruence.
    + rewrite list_lookup_insert_ne in Hj; [done|]. intros <-. rewrite list_lookup_insert_eq in Hj by done. congruence.
Qed.

Lemma hot_set_ok h m f v : hot_ok h m → hot_size h + zlen f + zlen v + 1 < 2 ^ 32 →
  ∃ h', hot_set maphash h f v = Ret (bool_decide (m !! f = None), h') ∧ hot_ok h' (<[f := v]> m) ∧
    hot_size h' ≤ hot_size h + zlen f + zlen v + 1.
Proof.
  intros (fv & H & Hm) Hb. unfold hot_size in *. pose proof (zlen_nonneg (payload h)). pose proof (zlen_nonneg v).
  pose proof (zlen_nonneg f). pose proof (zlen_nonneg (records h)). unfold hot_set.
  destruct (find_ok h fv f H) as [(slot & i & w & -> & Hi)|(Hf & slot & -> & Hff)]; rewrite res_bind_ret.
  - destruct (set_found h fv f v i w H Hi) as (r & Hr & Hinv); [lia|]. pose proof (znth_Some _ _ _ Hr). rewrite Hr. cbn [or_panic].
    rewrite res_bind_ret, zupd_Some by done. cbn [or_panic]. rewrite res_bind_ret. rewrite znth_lookup in Hi by lia.
    assert (Hmf : m !! f = Some w) by (by eapply Hm, list_elem_of_lookup_2). rewrite bool_decide_false by (by rewrite Hmf).
    eexists. split; [done|]. split; [|cbn [payload records]; rewrite zlen_app, zlen_insert; lia].
    eexists. split; [exact Hinv|]. eapply holds_replace; [done|apply H|done].
  - destruct (ensure_ok h fv H) as (h1 & -> & Hn1 & Hp & Hrs & Hlm & Hroom); [lia|]. rewrite res_bind_ret.
    destruct (find_ok h1 fv f Hn1) as [(s1 & i & w & _ & Hi)|(_ & s1 & -> & Hff1)].
    { exfalso. apply Hf. pose proof (znth_Some _ _ _ Hi). rewrite znth_lookup in Hi by lia.
      apply list_elem_of_fmap. exists (f, w). split; [done|]. by eapply list_elem_of_lookup_2. }
    rewrite res_bind_ret. destruct (set_absent h1 fv f v s1 Hn1 Hf Hff1) as (s & -> & Hinv); [rewrite Hp; lia|rewrite Hrs; lia..|].
    cbn [or_panic]. rewrite res_bind_ret. assert (Hmf : m !! f = None).
    { apply eq_None_not_Some. by rewrite <- (holds_field fv). }
    rewrite bool_decide_true by done. eexists. split; [done|].
    split; [|cbn [payload records]; rewrite !zlen_app, Hp, Hrs; change (zlen [_]) with 1; lia].
    eexists. split; [exact Hinv|]. by apply holds_append.
Qed.

Lemma hot_get_ok h m f : hot_ok h m → hot_get maphash h f = Ret (m !! f).
Proof.
  intros (fv & H & Hm). unfold hot_get. destruct (find_ok h fv f H) as [(slot & i & w & -> & Hi)|(Hf & slot & -> & _)]; rewrite res_bind_ret.
  - cbn [negb]. destruct (hi_fv _ _ _ _ H Hi) as (r & -> & _ & _ & Hv). cbn [or_panic snd] in *.
    rewrite res_bind_ret, (in_payload_slice _ _ _ _ Hv). cbn [or_panic]. rewrite res_bind_ret. f_equal. symmetry. apply Hm.
    pose proof (znth_Some _ _ _ Hi). rewrite znth_lookup in Hi by lia. by eapply list_elem_of_lookup_2.
  - cbn [negb]. f_equal. symmetry. apply eq_None_not_Some. by rewrite <- (holds_field fv).
Qed.

Lemma set_pairs_ok ps : ∀ h m, hot_ok h m →
  hot_size h + foldr (fun p n => zlen p.1 + zlen p.2 + 1 + n) 0 ps < 2 ^ 32 →
  ∃ h', set_pairs maphash h ps = Ret h' ∧ hot_ok h' (foldl (fun m p => <[p.1 := p.2]> m) m ps) ∧
    hot_size h' ≤ hot_size h + foldr (fun p n => zlen p.1 + zlen p.2 + 1 + n) 0 ps.
Proof.
  induction ps as [|[f v] ps IH]; intros h m H Hb; cbn [set_pairs foldl foldr fst snd] in *; [exists h; split_and!; [done|done|lia]|].
  assert (0 ≤ foldr (fun p n => zlen p.1 + zlen p.2 + 1 + n) 0 ps).
  { clear. induction ps as [|[f v] ps IH]; cbn [foldr fst snd]; [done|]. pose proof (zlen_nonneg f). pose proof (zlen_nonneg v). lia. }
  destruct (hot_set_ok h m f v H) as (h1 & -> & H1 & Hs); [lia|]. rewrite res_bind_ret.
  destruct (IH h1 _ H1) as (h' & E & H' & Hs'); [lia|]. exists h'. split_and!; [done|done|lia].
Qed.

Lemma hot_ok_new n : 0 ≤ n < 2 ^ 32 → hot_ok (mkHotHash (replicate (Z.to_nat (slots_for n)) 0) [] [] 0) ∅.
Proof.
  intros Hn. destruct (slots_for_ok n Hn) as (Hp & Hr & _). exists []. split.
  - split; cbn [hslots records payload]; rewrite ?zlen_replicate by lia; [apply slots_ok_empty; [done|lia]|constructor|constructor|change (zlen (@nil hotHashRecord)) with 0; lia|lia|done].
  - intros f v. rewrite lookup_empty. split; [done|]. by intros ?%not_elem_of_nil.
Qed.

(** ** Delete *)

Fixpoint keep (fv : list (list byte * list byte)) (remove : list bool) : list (list byte * list byte) :=
  match fv, remove with
  | p :: fv, marked :: remove => if marked : bool then keep fv remove else p :: keep fv remove
  | _, _ => []
  end.

(** The marks of the fields in [D]. *)
Definition marks (fv : list (list byte * list byte)) (D : list (list byte)) : list bool :=
  map (fun p => bool_decide (p.1 ∈ D)) fv.

Lemma marks_snoc_absent fv D f : (f ∉ fv.*1) → marks fv (D ++ [f]) = marks fv D.
Proof.
  intros Hf. unfold marks. apply map_ext_in. intros p Hp. apply bool_decide_ext. rewrite elem_of_app, list_elem_of_singleton.
  split; [|by left]. intros [?|E]; [done|]. destruct Hf. rewrite <- E. apply list_elem_of_fmap. exists p. split; [done|by apply list_elem_of_In].
Qed.

Lemma marks_snoc_at fv D f v i : NoDup fv.*1 → fv !! i = Some (f, v) → marks fv (D ++ [f]) = <[i := true]> (marks fv D).
Proof.
  intros Hnd Hi. apply list_eq. intros j. unfold marks. change (map ?g fv) with (g <$> fv). rewrite list_lookup_fmap.
  destruct (decide (j = i)) as [->|Hne].
  - rewrite Hi, list_lookup_insert_eq by (rewrite length_fmap; by eapply lookup_lt_Some). cbn. f_equal.
    apply bool_decide_eq_true, elem_of_app. right. by apply list_elem_of_singleton.
  - rewrite list_lookup_insert_ne, list_lookup_fmap by done. destruct (fv !! j) as [[f' v']|] eqn:Hj; [|done]. cbn. f_equal.
    apply bool_decide_ext. rewrite elem_of_app, list_elem_of_singleton. split; [|by left]. intros [?|E]; [done|]. subst f'.
    destruct Hne. eapply (NoDup_lookup fv.*1); [done|..]; rewrite list_lookup_fmap; [by rewrite Hj|by rewrite Hi].
Qed.

Definition trues (l : list bool) : Z := zlen (filter (fun b => b = true) l).

Lemma trues_insert l i : l !! i = Some false → trues (<[i := true]> l) = trues l + 1.
Proof.
  intros Hi. rewrite insert_take_drop by (by eapply lookup_lt_Some). rewrite <- (take_drop_middle l i _ Hi) at 3.
  unfold trues. rewrite !filter_app, !filter_cons. cbn [decide]. destruct (decide (true = true)), (decide (false = true)); try done.
  rewrite !zlen_app, zlen_cons. lia.
Qed.

Lemma mark_loop_ok h fv fields : ∀ D, hot_inv h fv →
  mark_loop maphash h fields (marks fv D) (trues (marks fv D)) = Ret (marks fv (D ++ fields), trues (marks fv (D ++ fields))).
Proof.
  induction fields as [|f fields IH]; intros D H; cbn [mark_loop]; [by rewrite app_nil_r|].
  replace (D ++ f :: fields) with ((D ++ [f]) ++ fields) by (by rewrite <- app_assoc).
  destruct (find_ok h fv f H) as [(slot & i & w & -> & Hi)|(Hf & slot & -> & _)]; rewrite res_bind_ret.
  2: { rewrite <- (marks_snoc_absent fv D f Hf). by apply IH. }
  pose proof (znth_Some _ _ _ Hi). rewrite znth_lookup in Hi by lia.
  assert (Hm : marks fv D !! Z.to_nat i = Some (bool_decide (f ∈ D))).
  { unfold marks. change (map ?g fv) with (g <$> fv). by rewrite list_lookup_fmap, Hi. }
  rewrite znth_lookup, Hm by lia. cbn [or_panic]. rewrite res_bind_ret.
  rewrite <- IH by done. rewrite (marks_snoc_at fv D f w (Z.to_nat i) (hi_nodup _ _ H) Hi).
  destruct (bool_decide (f ∈ D)) eqn:Ed.
  - by rewrite list_insert_id.
  - rewrite zupd_Some by (unfold zlen, marks; rewrite length_map; exact H0). cbn [or_panic]. rewrite res_bind_ret.
    by rewrite trues_insert.
Qed.

Lemma compact_loop_ok old rs : ∀ fv remove nr np nfv,
  Forall2 (rec_ok old) rs fv → length remove = length rs → Forall2 (rec_ok np) nr nfv → zlen np + fv_bytes fv < 2 ^ 32 →
  ∃ nr' np', compact_loop rs remove old nr np = Ret (nr', np') ∧ Forall2 (rec_ok np') nr' (nfv ++ keep fv remove) ∧
    zlen np' = zlen np + fv_bytes (keep fv remove).
Proof.
  induction rs as [|r rs IH]; intros fv remove nr np nfv Hf Hl Hn Hb; inversion Hf as [|? [f v] ? fv' Hr Hf']; subst.
  { cbn. exists nr, np. rewrite app_nil_r. split_and!; [done|done|cbn; lia]. }
  destruct remove as [|marked remove]; [done|]. cbn [length] in Hl. cbn [compact_loop keep].
  cbn [fv_bytes foldr fst snd] in Hb. fold (fv_bytes fv') in Hb. pose proof (fv_bytes_nonneg fv').
  pose proof (zlen_nonneg f). pose proof (zlen_nonneg v). pose proof (zlen_nonneg np).
  destruct marked; [apply IH; [done|lia|done|lia]|]. destruct Hr as (Hh & Hfs & Hvs). cbn [fst snd] in *. rewrite Hfs, Hvs. cbn [or_panic].
  rewrite !res_bind_ret. pose proof (zslice_len _ _ _ _ Hfs) as Lf. pose proof (zslice_len _ _ _ _ Hvs) as Lv.
  assert (Lp : zlen (np ++ f) = zlen np + zlen f) by apply zlen_app.
  destruct (IH fv' remove (nr ++ [mkHot (hr_hash r) (u32 (zlen np)) (fieldLen r) (u32 (zlen (np ++ f))) (valueLen r)])
    ((np ++ f) ++ v) (nfv ++ [(f, v)])) as (nr' & np' & E & Hok & Hz); [done|lia| |rewrite !zlen_app; lia|].
  - apply Forall2_app; [eapply Forall2_impl; [exact Hn|]; intros; rewrite <- app_assoc; by apply rec_ok_grow|].
    constructor; [|constructor]. rewrite !u32_id by lia. split_and!; cbn [hr_hash fieldOff fieldLen valueOff valueLen fst snd]; [done|..].
    + apply (zslice_at _ np f v); [by rewrite <- app_assoc|done|lia].
    + apply (zslice_at _ (np ++ f) v []); [by rewrite app_nil_r|done|lia].
  - exists nr', np'. rewrite <- app_assoc in Hok. split_and!; [done|done|]. rewrite Hz, !zlen_app. cbn [fv_bytes foldr fst snd].
    fold (fv_bytes (keep fv' remove)). lia.
Qed.

(** The entries whose field is not deleted. *)
Definition without (D : list (list byte)) (m : gmap (list byte) (list byte)) : gmap (list byte) (list byte) :=
  filter (fun p => p.1 ∉ D) m.

Lemma keep_marks fv D : keep fv (marks fv D) = filter (fun p => p.1 ∉ D) fv.
Proof.
  induction fv as [|p fv IH]; [done|]. cbn [keep marks map]. fold (marks fv D). rewrite filter_cons, IH.
  case_bool_decide; destruct (decide (p.1 ∉ D)); done.
Qed.

Lemma trues_marks fv D : trues (marks fv D) = zlen fv - zlen (keep fv (marks fv D)).
Proof.
  induction fv as [|p fv IH]; [done|]. cbn [keep marks map]. fold (marks fv D). unfold trues in *. rewrite filter_cons.
  destruct (bool_decide (p.1 ∈ D)); destruct (decide _); try done; rewrite !zlen_cons; lia.
Qed.

Lemma holds_without fv m D : holds fv m → holds (filter (fun p => p.1 ∉ D) fv) (without D m).
Proof. intros Hm f v. unfold without. rewrite map_lookup_filter_Some, list_elem_of_filter, (Hm f v). cbn. split; intros [? ?]; by split. Qed.

Lemma holds_size fv m : holds fv m → NoDup fv.*1 → Z.of_nat (size m) = zlen fv.
Proof.
  intros Hm Hnd. rewrite <- length_map_to_list. unfold zlen. f_equal. apply Permutation_length, NoDup_Permutation.
  - apply NoDup_map_to_list.
  - by apply (NoDup_fmap_1 fst).
  - intros [f v]. rewrite elem_of_map_to_list. apply Hm.
Qed.

Lemma marks_none fv : marks fv [] = replicate (length fv) false.
Proof.
  induction fv as [|p fv IH]; [done|]. cbn [length replicate]. rewrite <- IH. unfold marks. cbn [map].
  by rewrite bool_decide_false by apply not_elem_of_nil.
Qed.

Lemma trues_false n : trues (replicate n false) = 0.
Proof. unfold trues. induction n as [|n IH]; [done|]. cbn [replicate]. by rewrite filter_cons. Qed.

Lemma fv_bytes_filter (D : list (list byte)) fv : fv_bytes (filter (fun p => p.1 ∉ D) fv) ≤ fv_bytes fv.
Proof.
  induction fv as [|p fv IH]; [done|]. rewrite filter_cons. unfold fv_bytes in *. pose proof (zlen_nonneg p.1).
  pose proof (zlen_nonneg p.2). destruct (decide _); cbn [foldr]; lia.
Qed.

Lemma hot_delete_ok h m fields : hot_ok h m → hot_size h < 2 ^ 32 →
  ∃ h', hot_delete maphash h fields = Ret (Z.of_nat (size m) - Z.of_nat (size (without fields m)), h') ∧
    hot_ok h' (without fields m) ∧ hot_size h' ≤ hot_size h.
Proof.
  intros (fv & H & Hm) Hb. unfold hot_size in *. pose proof (zlen_nonneg (payload h)). pose proof (zlen_nonneg (records h)).
  pose proof (holds_without fv m fields Hm) as Hw. set (fv' := filter (fun p => p.1 ∉ fields) fv) in *.
  assert (Hnd' : NoDup fv'.*1) by (eapply sublist_NoDup; [apply H|]; apply fmap_sublist, sublist_filter).
  rewrite (holds_size fv m Hm (hi_nodup _ _ H)), (holds_size fv' _ Hw Hnd').
  assert (Hsame : zlen fv - zlen fv' = 0 → ∃ h', Ret (0, h) = Ret (zlen fv - zlen fv', h') ∧ hot_ok h' (without fields m) ∧
    zlen (payload h') + zlen (records h') ≤ zlen (payload h) + zlen (records h)).
  { intros E. exists h. rewrite E. split_and!; [done| |lia]. exists fv. split; [done|].
    assert (E' : fv' = fv); [|by rewrite <- E'].
    apply filter_all. unfold zlen in E. unfold fv' in E. lia. }
  unfold hot_delete. destruct (Z.eqb_spec (zlen fields) 0) as [Ef|Hf]; cbn [orb].
  { apply Hsame. assert (fields = []) as E by (destruct fields; [done|rewrite zlen_cons in Ef; pose proof (zlen_nonneg fields); lia]).
    unfold fv'. rewrite E, filter_every; [lia|]. apply Forall_forall. intros. apply not_elem_of_nil. }
  destruct (Z.eqb_spec (zlen (records h)) 0) as [Er|Hr].
  { apply Hsame. pose proof (hi_len _ _ H) as Hl. rewrite Er in Hl. destruct fv as [|p fv]; [done|].
    rewrite zlen_cons in Hl. pose proof (zlen_nonneg fv). lia. }
  pose proof (mark_loop_ok h fv fields [] H) as Em. cbn [app] in Em.
  rewrite marks_none, trues_false, <- (Forall2_length _ _ _ (hi_recs _ _ H)) in Em.
  rewrite Em, res_bind_ret, trues_marks, keep_marks. fold fv'.
  destruct (Z.eqb_spec (zlen fv - zlen fv') 0) as [E|Hd]; [by apply Hsame|].
  pose proof (hi_bytes _ _ H) as Hby. pose proof (hi_len _ _ H) as Hlen.
  destruct (compact_loop_ok (payload h) (records h) fv (marks fv fields) [] [] []) as (rs & p & -> & Hok & Hz); [apply H| |constructor| |].
  { unfold marks. rewrite length_map. symmetry. apply (Forall2_length _ _ _ (hi_recs _ _ H)). }
  { change (zlen (@nil byte)) with 0. lia. }
  rewrite res_bind_ret. cbn [app] in Hok. rewrite keep_marks in Hok, Hz. fold fv' in Hok, Hz. change (zlen (@nil byte)) with 0 in Hz.
  assert (Hrs : zlen rs = zlen fv') by (unfold zlen; by rewrite (Forall2_length _ _ _ Hok)).
  assert (Hle : zlen fv' ≤ zlen fv) by (unfold zlen; pose proof (length_filter (fun p : list byte * list byte => p.1 ∉ fields) fv); unfold fv'; lia).
  assert (Hble : fv_bytes fv' ≤ fv_bytes fv) by apply fv_bytes_filter.
  destruct (slots_for_ok (zlen rs)) as (Hp & H16 & Hroom); [pose proof (zlen_nonneg rs); lia|].
  destruct (rehash_ok (mkHotHash (hslots h) rs p (lastMutation h)) (slots_for (zlen rs))) as (s & -> & Hs & Hl);
    [done|lia|done|cbn [records]; lia|]. rewrite res_bind_ret. eexists. split; [done|]. cbn [records payload lastMutation] in *.
  split; [|lia]. exists fv'. split; [|done]. split; cbn [hslots records payload]; [done|done|done|lia|lia|lia].
Qed.

(** ** Reading everything *)

Lemma read_pairs_ok h rs fv : Forall2 (rec_ok (payload h)) rs fv → read_pairs h rs = Ret fv.
Proof.
  induction 1 as [|r [f v] rs fv (_ & Hf & Hv) _ IH]; [done|]. cbn [read_pairs fst snd] in *.
  rewrite (in_payload_slice _ _ _ _ Hf), (in_payload_slice _ _ _ _ Hv). cbn [or_panic]. by rewrite !res_bind_ret, IH.
Qed.

Lemma bytes_lt_asym a : ∀ b, bytes_lt a b = true → bytes_lt b a = false.
Proof.
  induction a as [|x a IH]; intros [|y b] H; try done. cbn [bytes_lt] in *.
  destruct (Z.ltb_spec (bz x) (bz y)), (Z.ltb_spec (bz y) (bz x)), (Z.eqb_spec (bz x) (bz y)), (Z.eqb_spec (bz y) (bz x));
    cbn [orb andb] in *; try lia; try done. by apply IH.
Qed.

#[local] Instance field_le_total : Total field_le.
Proof. intros p q. unfold field_le. destruct (bytes_lt q.1 p.1) eqn:E; [right; by apply bytes_lt_asym|by left]. Qed.

Lemma pairs_ok h m : hot_ok h m → ∃ l, pairs h = Ret l ∧ l ≡ₚ map_to_list m ∧ Sorted field_le l.
Proof.
  intros (fv & H & Hm). unfold pairs. rewrite (read_pairs_ok h _ fv (hi_recs _ _ H)), res_bind_ret.
  eexists. split; [done|]. split; [|apply Sorted_merge_sort, _]. rewrite merge_sort_Permutation.
  apply NoDup_Permutation; [apply (NoDup_fmap_1 fst), H|apply NoDup_map_to_list|].
  intros [f v]. rewrite elem_of_map_to_list. symmetry. apply Hm.
Qed.
End Facts.

(** ** Any sequence of mutations *)

Inductive hot_op :=
| HSet (field value : list byte)
| HDel (fields : list (list byte)).

Definition hot_exec (maphash : list byte → Z) (h : hotHash) (op : hot_op) : res hotHash :=
  match op with
  | HSet f v => '(_, h) ← hot_set maphash h f v; Ret h
  | HDel fs => '(_, h) ← hot_delete maphash h fs; Ret h
  end.

Fixpoint hot_run (maphash : list byte → Z) (h : hotHash) (ops : list hot_op) : res hotHash :=
  match ops with [] => Ret h | op :: ops => h ← hot_exec maphash h op; hot_run maphash h ops end.

Definition spec_hot (m : gmap (list byte) (list byte)) (op : hot_op) : gmap (list byte) (list byte) :=
  match op with HSet f v => <[f := v]> m | HDel fs => without fs m end.

(** Payload bytes and records an operation may add. *)
Definition hot_cost (op : hot_op) : Z := match op with HSet f v => zlen f + zlen v + 1 | HDel _ => 0 end.
Definition hot_costs (ops : list hot_op) : Z := foldr (fun op n => hot_cost op + n) 0 ops.
Definition pairs_cost (ps : list (list byte * list byte)) : Z := foldr (fun p n => zlen p.1 + zlen p.2 + 1 + n) 0 ps.

Lemma hot_costs_nonneg ops : 0 ≤ hot_costs ops.
Proof.
  unfold hot_costs. induction ops as [|[f v|fs] ops IH]; cbn [foldr hot_cost]; [done| |lia].
  pose proof (zlen_nonneg f). pose proof (zlen_nonneg v). lia.
Qed.

Lemma hot_run_ok maphash ops : ∀ h m, hot_ok maphash h m → hot_size h + hot_costs ops < 2 ^ 32 →
  ∃ h', hot_run maphash h ops = Ret h' ∧ hot_ok maphash h' (foldl spec_hot m ops).
Proof.
  induction ops as [|op ops IH]; intros h m H Hb; cbn [hot_run foldl]; [eauto|].
  unfold hot_costs in Hb. cbn [foldr] in Hb. fold (hot_costs ops) in Hb. pose proof (hot_costs_nonneg ops).
  destruct op as [f v|fs]; cbn [hot_exec hot_cost spec_hot] in *.
  - destruct (hot_set_ok maphash h m f v H) as (h1 & -> & H1 & Hs); [lia|]. rewrite !res_bind_ret. apply IH; [done|lia].
  - destruct (hot_delete_ok maphash h m fs H) as (h1 & -> & H1 & Hs); [lia|]. rewrite !res_bind_ret. apply IH; [done|lia].
Qed.

(** C21: A hot hash implements a finite map from fields to values, for every hash
    function. Built from any pairs and mutated by any sequence of sets and
    multi-field deletes that writes fewer than 2^32 bytes, it never panics,
    answers every field as the map does, and lists its pairs in field order,
    each exactly once. *)
Theorem hot_hash_refinement maphash ps ops :
  pairs_cost ps + hot_costs ops < 2 ^ 32 →
  ∃ h0 h, newHotHash maphash ps = Ret h0 ∧ hot_run maphash h0 ops = Ret h ∧
    let m := foldl spec_hot (foldl (fun m p => <[p.1 := p.2]> m) ∅ ps) ops in
    (∀ f, hot_get maphash h f = Ret (m !! f)) ∧ zlen (records h) = Z.of_nat (size m) ∧
    ∃ l, pairs h = Ret l ∧ l ≡ₚ map_to_list m ∧ Sorted field_le l.
Proof.
  intros Hb. pose proof (hot_costs_nonneg ops).
  assert (Hn : 0 ≤ zlen ps ≤ pairs_cost ps).
  { unfold pairs_cost. clear. split; [apply zlen_nonneg|]. induction ps as [|p ps IH]; [done|]. rewrite zlen_cons. cbn [foldr].
    pose proof (zlen_nonneg p.1). pose proof (zlen_nonneg p.2). lia. }
  destruct (set_pairs_ok maphash ps _ _ (hot_ok_new maphash (zlen ps) ltac:(lia))) as (h0 & E0 & H0 & Hs);
    [unfold hot_size; cbn [payload records]; change (zlen (@nil byte)) with 0; change (zlen (@nil hotHashRecord)) with 0;
     fold (pairs_cost ps); lia|].
  destruct (hot_run_ok maphash ops h0 _ H0) as (h & E & H1).
  { unfold hot_size at 2 in Hs. cbn [payload records] in Hs. fold (pairs_cost ps) in Hs.
    change (zlen (@nil byte)) with 0 in Hs. change (zlen (@nil hotHashRecord)) with 0 in Hs. lia. }
  exists h0, h. split; [done|]. split; [done|]. cbv zeta. split_and!.
  - intros f. by apply hot_get_ok.
  - destruct H1 as (fv & H1 & Hm). rewrite (holds_size fv _ Hm (hi_nodup _ _ _ H1)). symmetry. by eapply hi_len.
  - by eapply pairs_ok.
Qed.

(** Unused payload bytes do not matter. *)
Lemma hot_inv_grow maphash h fv q :
  hot_inv maphash h fv → hot_inv maphash (mkHotHash (hslots h) (records h) (payload h ++ q) (lastMutation h)) fv.
Proof.
  intros H. split; cbn [hslots records payload]; try apply H.
  - eapply Forall2_impl; [apply H|]. intros. by apply rec_ok_grow.
  - rewrite zlen_app. pose proof (hi_bytes _ _ _ H). pose proof (zlen_nonneg q). lia.
Qed.

(** C40: Overwrites are not bounded by the width of a record's offsets. Once the
    payload of a hot hash has grown to 2^32 bytes, which overwriting fields does
    without ever reclaiming the old values, a further overwrite stores offset
    zero, and reading the field back returns the first bytes of the payload
    instead of the value written. *)
Theorem hot_overwrite_wraps maphash h fv i f w v :
  hot_inv maphash h fv → znth fv i = Some (f, w) → zlen (payload h) = 2 ^ 32 → zlen v < 2 ^ 32 →
  ∃ h', hot_set maphash h f v = Ret (false, h') ∧ hot_get maphash h' f = Ret (Some (take (length v) (payload h))).
Proof.
  intros H Hi Hp Hv. pose proof (zlen_nonneg v). unfold hot_set.
  destruct (find_ok maphash h fv f H) as [(slot & j & w' & -> & Hj)|(Hf & _)].
  2: { destruct Hf. pose proof (znth_Some _ _ _ Hi). rewrite znth_lookup in Hi by lia.
       apply list_elem_of_fmap. exists (f, w). split; [done|]. by eapply list_elem_of_lookup_2. }
  rewrite res_bind_ret. destruct (hi_fv _ _ _ _ _ H Hj) as (r & Hr & Hh & Hfs & _). pose proof (znth_Some _ _ _ Hr) as Hjr.
  cbn [fst] in *. rewrite Hr. cbn [or_panic]. rewrite res_bind_ret, zupd_Some by done. cbn [or_panic]. rewrite res_bind_ret.
  eexists. split; [done|]. set (h' := mkHotHash _ _ _ _). set (x := take (length v) (payload h)).
  assert (Hx : zlen x = zlen v) by (unfold x, zlen in *; rewrite length_take; lia).
  pose proof (znth_Some _ _ _ Hj) as Hjf. rewrite znth_lookup in Hj by lia.
  assert (Hinv : hot_inv maphash h' (<[Z.to_nat j := (f, x)]> fv)).
  { split; cbn [h' hslots records payload].
    - rewrite (map_hash_update _ _ r) by done. apply H.
    - apply Forall2_insert; [eapply Forall2_impl; [apply H|]; intros; by apply rec_ok_grow|].
      split_and!; cbn [hr_hash fieldOff fieldLen valueOff valueLen fst snd]; [done|by apply zslice_app_l|].
      rewrite (u32_id (zlen v)) by lia. rewrite Hp. change (u32 (2 ^ 32)) with 0.
      apply (zslice_at _ [] x (drop (length v) (payload h) ++ v)); [|done|lia]. unfold x. by rewrite app_nil_l, app_assoc, take_drop.
    - rewrite list_fmap_insert, list_insert_id; [apply H|]. by rewrite list_lookup_fmap, Hj.
    - rewrite zlen_insert. apply H.
    - apply H.
    - pose proof (hi_bytes _ _ _ H). pose proof (fv_bytes_insert fv _ f x w' Hj). rewrite zlen_app. pose proof (zlen_nonneg w'). lia. }
  assert (Hin : (<[Z.to_nat j := (f, x)]> fv) !! Z.to_nat j = Some (f, x)) by (apply list_lookup_insert_eq; unfold zlen in *; lia).
  set (fv' := <[Z.to_nat j := (f, x)]> fv) in *.
  assert (Hm : holds fv' (list_to_map fv')).
  { intros f' v'. symmetry. apply elem_of_list_to_map, Hinv. }
  rewrite (hot_get_ok maphash h' (list_to_map fv')) by (by exists fv'). f_equal. apply Hm. by eapply list_elem_of_lookup_2.
Qed.

(** ** Instances *)

Definition demo_hot_hash (k : list byte) : Z := zlen k.

Lemma hot_hash_refinement_witness :
  ∃ h0 h, newHotHash demo_hot_hash [([x61], [x31]); ([x62], [x32])] = Ret h0 ∧
    hot_run demo_hot_hash h0 [HSet [x61] [x33; x33]; HDel [[x62]; [x63]]] = Ret h ∧
    let m := foldl spec_hot (foldl (fun m p => <[p.1 := p.2]> m) ∅ [([x61], [x31]); ([x62], [x32])])
               [HSet [x61] [x33; x33]; HDel [[x62]; [x63]]] in
    (∀ f, hot_get demo_hot_hash h f = Ret (m !! f)) ∧ zlen (records h) = Z.of_nat (size m) ∧
    ∃ l, pairs h = Ret l ∧ l ≡ₚ map_to_list m ∧ Sorted field_le l.
Proof. apply hot_hash_refinement. vm_compute. reflexivity. Defined.

(** One field [f] of value [w], padded to 2^32 payload bytes. *)
Definition demo_hot : hotHash :=
  mkHotHash (<[1%nat := 1]> (replicate 16 0)) [mkHot 1 0 1 1 1] ([x66; x77] ++ replicate (Z.to_nat (2 ^ 32 - 2)) x00) 0.

Lemma demo_hot_inv : hot_inv demo_hot_hash demo_hot [([x66], [x77])].
Proof.
  apply (hot_inv_grow demo_hot_hash (mkHotHash (<[1%nat := 1]> (replicate 16 0)) [mkHot 1 0 1 1 1] [x66; x77] 0)).
  split; cbn [hslots records payload]; try done.
  - apply (slots_ok_place (replicate (Z.to_nat 16) 0) [] 1 1); [apply slots_ok_empty; [by exists 4|done]|].
    exists 0. split_and!; try done. intros j Hj. lia.
  - repeat constructor.
  - repeat constructor. apply not_elem_of_nil.
Qed.

Lemma hot_overwrite_wraps_witness :
  ∃ h', hot_set demo_hot_hash demo_hot [x66] [x7a] = Ret (false, h') ∧ hot_get demo_hot_hash h' [x66] = Ret (Some [x66]).
Proof.
  apply (hot_overwrite_wraps demo_hot_hash demo_hot [([x66], [x77])] 0 [x66] [x77] [x7a]).
  - exact demo_hot_inv.
  - reflexivity.
  - unfold demo_hot. cbn [payload]. rewrite zlen_app, zlen_replicate by lia. reflexivity.
  - reflexivity.
Defined.
