(* ===== verification/Shard.v ===== *)
(** * Shards

    Model of internal/engine/shard.go: one shard of the keyspace. The index maps
    a key to an entry id; entries are packed values in a dense array, with
    optimizer metadata and hot-hash pointers in lazily allocated sidecars; ids
    of deleted keys are reused last in, first out. A slice is its elements and
    its capacity. *)
From S2P Require Import Prelude Arena Table Entry HotHash Expiry.
Set Default Proof Using "Type".

Record entryMeta := mkMeta {
  lastRewrite : Z; lastOptimize : Z; lastAccess : Z; lastWrite : Z;  (* activityStamp *)
  schemaID : Z;
  reads : Z; writes : Z;                                             (* uint8 *)
}.

(** A transient view: stored value and optional metadata. *)
Record entry := mkEntry { entryData : SnugValue; entryMeta_ : option entryMeta }.

(** [hotHashes] is [None] for the nil slice. *)
Record entryMetaSidecar := mkSidecar {
  mslots : list (option entryMeta); mslots_cap : Z;
  hotHashes : option (list (option hotHash)); hot_cap : Z;
}.

Record shard := mkShard {
  arena : Arena;
  data : Table;
  entries : list packedEntry; entries_cap : Z;
  metas : option entryMetaSidecar;
  freeIDs : list Z;
  expiration_ : expirationQueue;
  shapes : bool;   (* the pointer to the store-wide shape catalog is set *)
}.

Definition with_data (sh : shard) (t : Table) : shard :=
  mkShard (arena sh) t (entries sh) (entries_cap sh) (metas sh) (freeIDs sh) (expiration_ sh) (shapes sh).
Definition with_entries (sh : shard) (l : list packedEntry) (c : Z) : shard :=
  mkShard (arena sh) (data sh) l c (metas sh) (freeIDs sh) (expiration_ sh) (shapes sh).
Definition with_metas (sh : shard) (m : option entryMetaSidecar) : shard :=
  mkShard (arena sh) (data sh) (entries sh) (entries_cap sh) m (freeIDs sh) (expiration_ sh) (shapes sh).
Definition with_free (sh : shard) (l : list Z) : shard :=
  mkShard (arena sh) (data sh) (entries sh) (entries_cap sh) (metas sh) l (expiration_ sh) (shapes sh).
Definition with_arena (sh : shard) (a : Arena) : shard :=
  mkShard a (data sh) (entries sh) (entries_cap sh) (metas sh) (freeIDs sh) (expiration_ sh) (shapes sh).
Definition with_expiration (sh : shard) (q : expirationQueue) : shard :=
  mkShard (arena sh) (data sh) (entries sh) (entries_cap sh) (metas sh) (freeIDs sh) q (shapes sh).

Definition emptyShard : shard := mkShard emptyArena New [] 0 None [] emptyQueue false.

(** ** Entry storage *)

Definition next_capacity (capacity : Z) : Z :=
  if capacity =? 0 then 4
  else if capacity =? 4 then 6
  else if capacity =? 6 then 8
  else if capacity <? 64 then (if 64 <? capacity * 2 then 64 else capacity * 2)
  else capacity + (if capacity / 2 <? 64 then 64 else capacity / 2).

Fixpoint entry_capacity_loop (fuel : nat) (target capacity : Z) : Z :=
  match fuel with
  | O => capacity
  | S f => if capacity <? target then entry_capacity_loop f target (next_capacity capacity) else capacity
  end.

Definition entryCapacityFor (sh : shard) (additional : Z) : Z :=
  if additional <=? 0 then entries_cap sh else
  let needed := additional - zlen (freeIDs sh) in
  if needed <=? 0 then entries_cap sh else
  let target := zlen (entries sh) + needed in
  entry_capacity_loop (Z.to_nat target) target (entries_cap sh).

Definition entryView (sh : shard) (id : Z) : res entry :=
  if zlen (entries sh) <=? id then Panic "invalid entry id" else
  meta ← match metas sh with
         | Some s => or_panic (znth (mslots s) id) oob
         | None => Ret None
         end;
  p ← or_panic (znth (entries sh) id) oob;
  Ret (mkEntry (unpack p) meta).

(** [make([]*T, n, c)] filled by [copy] from [old]. *)
Definition resized {A} (old : list (option A)) (n : Z) : list (option A) :=
  take (Z.to_nat n) old ++ replicate (Z.to_nat n - length old) None.

Definition ensureMetaSlots (sh : shard) : shard :=
  match metas sh with
  | Some _ => sh
  | None => with_metas sh (Some (mkSidecar (replicate (length (entries sh)) None) (entries_cap sh) None 0))
  end.

Definition growMetaSlots (sh : shard) (capacity : Z) : shard :=
  match metas sh with
  | None => sh
  | Some s =>
      if capacity <=? mslots_cap s then sh
      else with_metas sh (Some (mkSidecar (mslots s) capacity (hotHashes s) (hot_cap s)))
  end.

Definition setMeta (sh : shard) (id : Z) (meta : option entryMeta) : res shard :=
  let sh := match meta, metas sh with Some _, None => ensureMetaSlots sh | _, _ => sh end in
  match metas sh with
  | None => Ret sh
  | Some s =>
      l ← or_panic (zupd (mslots s) id meta) oob;
      Ret (with_metas sh (Some (mkSidecar l (mslots_cap s) (hotHashes s) (hot_cap s))))
  end.

Definition ensureHotHashSlots (sh : shard) : shard :=
  let n := zlen (entries sh) in
  let s := match metas sh with
           | Some s => s
           | None => mkSidecar (replicate (length (entries sh)) None) (entries_cap sh) None 0
           end in
  let s := if zlen (mslots s) <? n then mkSidecar (resized (mslots s) n) (entries_cap sh) (hotHashes s) (hot_cap s) else s in
  let s := match hotHashes s with
           | Some hh =>
               if (zlen hh <? n) || (hot_cap s <? entries_cap sh)
               then mkSidecar (mslots s) (mslots_cap s) (Some (resized hh n)) (entries_cap sh) else s
           | None => mkSidecar (mslots s) (mslots_cap s) (Some (resized [] n)) (entries_cap sh)
           end in
  with_metas sh (Some s).

Definition hotHashByID (sh : shard) (id : Z) : res (option hotHash) :=
  match metas sh with
  | Some s =>
      match hotHashes s with
      | Some hh => if zlen hh <=? id then Ret None else or_panic (znth hh id) oob
      | None => Ret None
      end
  | None => Ret None
  end.

Definition setHotHash (sh : shard) (id : Z) (h : option hotHash) : res shard :=
  let sh := match h with Some _ => ensureHotHashSlots sh | None => sh end in
  match metas sh with
  | Some s =>
      match hotHashes s with
      | Some hh =>
          l ← or_panic (zupd hh id h) oob;
          Ret (with_metas sh (Some (mkSidecar (mslots s) (mslots_cap s) (Some l) (hot_cap s))))
      | None => Ret sh
      end
  | None => Ret sh
  end.

(** [unsafe.Sizeof] of the sidecar (two slices), of a pointer and of an entry. *)
Definition sidecarBytes : Z := 48.
Definition entryMetaSlotBytes : Z := 8.
Definition entryStructBytes : Z := 16.

Definition metaSlotGrowthBytes (sh : shard) (additional : Z) (needMeta : bool) : Z :=
  let nextEntryCap := entryCapacityFor sh additional in
  match metas sh with
  | None => if needMeta then u64 (sidecarBytes + nextEntryCap * entryMetaSlotBytes) else 0
  | Some s =>
      if nextEntryCap <=? mslots_cap s then 0
      else u64 ((nextEntryCap - mslots_cap s) * entryMetaSlotBytes)
  end.

Definition entryGrowthBytes (sh : shard) (additional : Z) : Z :=
  let next := entryCapacityFor sh additional in
  if next <=? entries_cap sh then 0 else u64 ((next - entries_cap sh) * entryStructBytes).

(** ** Operations *)

Section Operations.
Context (maphash : list byte → Z) (growslice : Z → Z → Z).

(** Capacity after appending one element to a slice. *)
Definition append_cap (len cap : Z) : Z := if len + 1 <=? cap then cap else growslice cap (len + 1).

Definition hotHashForKey (sh : shard) (key : list byte) : res (option (option hotHash * Z)) :=
  found ← Get maphash (data sh) key;
  match found with
  | None => Ret None
  | Some id => h ← hotHashByID sh id; Ret (Some (h, id))
  end.

Definition getHashed (sh : shard) (key : list byte) (hash : Z) : res (option entry) :=
  found ← GetHashed (data sh) key hash;
  match found with
  | None => Ret None
  | Some id => e ← entryView sh id; Ret (Some e)
  end.

Definition shard_get (sh : shard) (key : list byte) : res (option entry) := getHashed sh key (Hash maphash key).

Definition getHashedBytes (sh : shard) (key : list byte) (hash : Z) : res (option entry) :=
  found ← GetHashedBytes (data sh) key hash;
  match found with
  | None => Ret None
  | Some id => e ← entryView sh id; Ret (Some e)
  end.

(** Overwrite the entry of a live id. *)
Definition store_at (sh : shard) (id : Z) (e : entry) : res shard :=
  p ← packEntry (entryData e);
  l ← or_panic (zupd (entries sh) id p) oob;
  setMeta (with_entries sh l (entries_cap sh)) id (entryMeta_ e).

(** The id a new key takes, with its entry stored. *)
Definition take_id (sh : shard) (e : entry) : res (Z * shard) :=
  match last (freeIDs sh) with
  | Some id =>
      let sh := with_free sh (take (length (freeIDs sh) - 1) (freeIDs sh)) in
      sh ← store_at sh id e;
      Ret (id, sh)
  | None =>
      let id := u32 (zlen (entries sh)) in
      let sh :=
        if zlen (entries sh) =? entries_cap sh then
          let next := entryCapacityFor sh 1 in
          growMetaSlots (with_entries sh (entries sh) next) next
        else sh in
      p ← packEntry (entryData e);
      let sh := with_entries sh (entries sh ++ [p]) (append_cap (zlen (entries sh)) (entries_cap sh)) in
      let sh :=
        match metas sh with
        | None => sh
        | Some s => with_metas sh (Some (mkSidecar (mslots s ++ [None]) (append_cap (zlen (mslots s)) (mslots_cap s))
                                                   (hotHashes s) (hot_cap s)))
        end in
      sh ← setMeta sh id (entryMeta_ e);
      Ret (id, sh)
  end.

Definition insertEntry (sh : shard) (key : list byte) (hash : Z) (e : entry) (hashKnown : bool) : res shard :=
  '(id, sh) ← take_id sh e;
  t ← (if hashKnown then SetKnownHashed maphash growslice (data sh) key id hash false
       else Set_ maphash growslice (data sh) key id);
  Ret (with_data sh t).

Definition shard_set (sh : shard) (key : list byte) (e : entry) : res shard :=
  found ← Get maphash (data sh) key;
  match found with
  | Some id => store_at sh id e
  | None => insertEntry sh key (Hash maphash key) e false
  end.

Definition setKnownHashed (sh : shard) (key : list byte) (hash : Z) (e : entry) (exists_ : bool) : res shard :=
  if exists_ then
    found ← GetHashed (data sh) key hash;
    match found with
    | None => Panic "known shard entry is missing"
    | Some id => store_at sh id e
    end
  else insertEntry sh key hash e true.

(** [packedEntry{}] *)
Definition zeroPacked : packedEntry := mkPacked 0 0.

Definition shard_delete (sh : shard) (key : list byte) : res (bool * shard) :=
  found ← Get maphash (data sh) key;
  match found with
  | None => Ret (false, sh)
  | Some id =>
      t ← Delete maphash growslice (data sh) key;
      let sh := with_data sh t in
      if zlen (entries sh) <=? id then Panic "invalid entry id" else
      l ← or_panic (zupd (entries sh) id zeroPacked) oob;
      let sh := with_entries sh l (entries_cap sh) in
      m ← match metas sh with
          | None => Ret None
          | Some s =>
              l ← or_panic (zupd (mslots s) id None) oob;
              hh ← match hotHashes s with
                   | None => Ret None
                   | Some hh => hh ← or_panic (zupd hh id None) oob; Ret (Some hh)
                   end;
              Ret (Some (mkSidecar l (mslots_cap s) hh (hot_cap s)))
          end;
      Ret (true, with_free (with_metas sh m) (freeIDs sh ++ [id]))
  end.

(** The entries [all] yields when the consumer never stops. *)
Fixpoint view_all (sh : shard) (l : list (list byte * Z)) : res (list (list byte * entry)) :=
  match l with
  | [] => Ret []
  | (k, id) :: l =>
      if zlen (entries sh) <=? id then Panic "invalid entry id" else
      e ← entryView sh id;
      out ← view_all sh l;
      Ret ((k, e) :: out)
  end.

Definition shard_all (sh : shard) : res (list (list byte * entry)) :=
  l ← All (data sh); view_all sh l.

End Operations.

(** [&s.shards[(hash>>32)&uint64(len(s.shards)-1)]]: the index of a key's shard. *)
Definition shardIndex (shards hash : Z) : Z := Z.land (Z.shiftr hash 32) (shards - 1).
