(* ===== verification/ShardFacts.v ===== *)
(** * Correctness of shards

    The shard invariant, the refinement of a shard to a finite map from keys to
    entries, the growth forecasts used for memory admission, and the behaviour
    of deletion next to hot hashes. *)
From S2P Require Import Prelude Arena Table TableInv TableSpec Entry HotHash Expiry Shard.
Set Default Proof Using "Type".

(** ** Entries at ids *)

Definition meta_at (sh : shard) (id : Z) : option entryMeta :=
  match metas sh with Some s => default None (znth (mslots s) id) | None => None end.

Definition entry_at (sh : shard) (id : Z) : option entry :=
  (fun p => mkEntry (unpack p) (meta_at sh id)) <$> znth (entries sh) id.

(** Capacity of the metadata sidecar. *)
Definition side_cap (sh : shard) : option Z := mslots_cap <$> metas sh.

Definition hot_slots (sh : shard) : option (list (option hotHash)) :=
  match metas sh with Some s => hotHashes s | None => None end.

(** The sidecar follows the entry array. *)
Definition metas_ok (sh : shard) : Prop :=
  match metas sh with Some s => zlen (mslots s) = zlen (entries sh) ∧ entries_cap sh ≤ mslots_cap s | None => True end.

Definition storage_ok (sh : shard) : Prop := zlen (entries sh) ≤ entries_cap sh ∧ metas_ok sh.

(** Nothing but entry storage changed. *)
Definition same_rest (sh sh' : shard) : Prop :=
  arena sh' = arena sh ∧ data sh' = data sh ∧ expiration_ sh' = expiration_ sh ∧ hot_slots sh' = hot_slots sh.

Lemma same_rest_trans a b c : same_rest a b → same_rest b c → same_rest a c.
Proof. intros (H1 & H2 & H3 & H4) (G1 & G2 & G3 & G4). split_and!; congruence. Qed.

Lemma entryView_ok sh id e : storage_ok sh → entry_at sh id = Some e → entryView sh id = Ret e.
Proof.
  intros [_ Hm] He. unfold entry_at in He. destruct (znth (entries sh) id) as [p|] eqn:Ep; [|done]. injection He as <-.
  pose proof (znth_Some _ _ _ Ep). unfold entryView. destruct (Z.leb_spec (zlen (entries sh)) id); [lia|].
  unfold metas_ok, meta_at in *. destruct (metas sh) as [s|].
  - destruct Hm as [Hm _]. destruct (znth_is_Some (mslots s) id) as [meta Hs]; [lia|]. rewrite Hs. cbn [or_panic]. by rewrite !res_bind_ret, Ep.
  - by rewrite res_bind_ret, Ep.
Qed.

(** The sidecar's capacity after [setMeta]. *)
Definition new_side_cap (sh : shard) (meta : option entryMeta) : option Z :=
  match metas sh, meta with
  | Some s, _ => Some (mslots_cap s)
  | None, Some _ => Some (entries_cap sh)
  | None, None => None
  end.

Lemma setMeta_ok sh id meta :
  storage_ok sh → 0 ≤ id < zlen (entries sh) →
  ∃ sh', setMeta sh id meta = Ret sh' ∧ storage_ok sh' ∧ same_rest sh sh' ∧ freeIDs sh' = freeIDs sh ∧
    entries sh' = entries sh ∧ entries_cap sh' = entries_cap sh ∧ meta_at sh' id = meta ∧
    (∀ j, j ≠ id → meta_at sh' j = meta_at sh j) ∧ side_cap sh' = new_side_cap sh meta.
Proof.
  intros [Hc Hm] Hid. unfold setMeta. unfold metas_ok in Hm.
  destruct (metas sh) as [s|] eqn:Es.
  - destruct Hm as [Hl Hcap]. assert (Hsh : (match meta, Some s with Some _, None => ensureMetaSlots sh | _, _ => sh end) = sh) by (by destruct meta).
    rewrite Hsh, Es, zupd_Some by lia. cbn [or_panic]. rewrite res_bind_ret. eexists. split; [done|].
    unfold storage_ok, metas_ok, same_rest, hot_slots, meta_at, side_cap, new_side_cap. cbn [metas with_metas entries entries_cap mslots mslots_cap hotHashes arena data expiration_ freeIDs].
    rewrite Es, zlen_insert, znth_insert_eq by lia. split_and!; try done. intros j Hj. by rewrite znth_insert_ne by lia.
  - destruct meta as [meta|]; [|rewrite Es; exists sh; unfold storage_ok, metas_ok, meta_at, side_cap, new_side_cap; rewrite Es; by split_and!].
    unfold ensureMetaSlots. rewrite Es. cbn [metas with_metas]. rewrite zupd_Some by (cbn [mslots]; unfold zlen in *; rewrite length_replicate; lia).
    cbn [or_panic]. rewrite res_bind_ret. eexists. split; [done|].
    unfold storage_ok, metas_ok, same_rest, hot_slots, meta_at, side_cap, new_side_cap. cbn [metas with_metas entries entries_cap mslots mslots_cap hotHashes arena data expiration_ freeIDs].
    assert (Hr : zlen (replicate (length (entries sh)) (@None entryMeta)) = zlen (entries sh)) by (unfold zlen; by rewrite length_replicate).
    rewrite Es, zlen_insert, znth_insert_eq, Hr by lia. split_and!; try done; try lia. intros j Hj. rewrite znth_insert_ne by lia.
    destruct (znth (replicate _ None) j) as [x|] eqn:Ex; [|done]. pose proof (znth_Some _ _ _ Ex). rewrite znth_lookup in Ex by lia.
    by apply lookup_replicate in Ex as [-> _].
Qed.

Lemma store_at_ok sh id e :
  storage_ok sh → 0 ≤ id < zlen (entries sh) → packable (entryData e) →
  ∃ sh', store_at sh id e = Ret sh' ∧ storage_ok sh' ∧ same_rest sh sh' ∧ freeIDs sh' = freeIDs sh ∧
    zlen (entries sh') = zlen (entries sh) ∧ entries_cap sh' = entries_cap sh ∧ entry_at sh' id = Some e ∧
    (∀ j, j ≠ id → entry_at sh' j = entry_at sh j) ∧ side_cap sh' = new_side_cap sh (entryMeta_ e).
Proof.
  intros [Hc Hm] Hid Hp. unfold store_at. rewrite packEntry_sum by done. rewrite res_bind_ret, zupd_Some by done. cbn [or_panic].
  rewrite res_bind_ret. set (p := mkPacked _ _). set (sh1 := with_entries sh _ _).
  destruct (setMeta_ok sh1 id (entryMeta_ e)) as (sh' & -> & Hs & Hrest & Hf & Hen & Hcap & Hmeta & Ho & Hside).
  - unfold storage_ok, metas_ok, sh1. cbn [entries with_entries entries_cap metas]. by rewrite zlen_insert.
  - unfold sh1. cbn [entries with_entries]. by rewrite zlen_insert.
  - exists sh'. unfold entry_at. rewrite Hen. unfold sh1 in *. cbn [entries with_entries entries_cap freeIDs] in *.
    rewrite zlen_insert, znth_insert_eq by done. split_and!; try done.
    + cbn. rewrite Hmeta. unfold p. rewrite unpack_sum by done. by destruct e.
    + intros j Hj. rewrite znth_insert_ne, (Ho j Hj) by (done || lia). done.
Qed.

Lemma zupd_None {A} (l : list A) i x : zlen l ≤ i → zupd l i x = None.
Proof. intros H. unfold zupd. pose proof (zlen_nonneg l). destruct (Z.leb_spec 0 i), (Z.ltb_spec i (zlen l)); done || lia. Qed.

(** ** Capacities *)

Lemma next_capacity_grows c : 0 ≤ c → c < next_capacity c.
Proof.
  intros Hc. unfold next_capacity.
  destruct (Z.eqb_spec c 0), (Z.eqb_spec c 4), (Z.eqb_spec c 6), (Z.ltb_spec c 64); try lia.
  - destruct (Z.ltb_spec 64 (c * 2)); lia.
  - destruct (Z.ltb_spec (c / 2) 64); lia.
Qed.

Lemma entry_capacity_loop_ok fuel : ∀ target c, 0 ≤ c → target - c ≤ Z.of_nat fuel →
  target ≤ entry_capacity_loop fuel target c ∧ c ≤ entry_capacity_loop fuel target c ∧
  (target ≤ c → entry_capacity_loop fuel target c = c).
Proof.
  induction fuel as [|fuel IH]; intros target c Hc Hf; cbn [entry_capacity_loop]; [split_and!; (done || lia)|].
  destruct (Z.ltb_spec c target); [|split_and!; (done || lia)]. pose proof (next_capacity_grows c Hc).
  destruct (IH target (next_capacity c)) as (H1 & H2 & _); [lia..|]. split_and!; [done|lia|lia].
Qed.

Lemma entryCapacityFor_ok sh n : storage_ok sh →
  entries_cap sh ≤ entryCapacityFor sh n ∧ zlen (entries sh) + n - zlen (freeIDs sh) ≤ entryCapacityFor sh n ∧
  (zlen (entries sh) + n - zlen (freeIDs sh) ≤ entries_cap sh → entryCapacityFor sh n = entries_cap sh).
Proof.
  intros [Hc _]. pose proof (zlen_nonneg (entries sh)). pose proof (zlen_nonneg (freeIDs sh)). unfold entryCapacityFor.
  destruct (Z.leb_spec n 0); [lia|]. destruct (Z.leb_spec (n - zlen (freeIDs sh)) 0); [lia|].
  destruct (entry_capacity_loop_ok (Z.to_nat (zlen (entries sh) + (n - zlen (freeIDs sh)))) (zlen (entries sh) + (n - zlen (freeIDs sh))) (entries_cap sh))
    as (G1 & G2 & G3); [lia..|]. split_and!; [lia|lia|]. intros. apply G3. lia.
Qed.

(** ** Taking an id *)

Section Facts.
Context (maphash : list byte → Z) (growslice : Z → Z → Z).

(** The id was free or is fresh, and now holds [e]. *)
Record id_taken (sh sh' : shard) (id : Z) (e : entry) : Prop := {
  it_range : 0 ≤ id < zlen (entries sh');
  it_entry : entry_at sh' id = Some e;
  it_other : ∀ j, 0 ≤ j < zlen (entries sh) → j ≠ id → entry_at sh' j = entry_at sh j;
  it_from : freeIDs sh = freeIDs sh' ++ [id] ∧ zlen (entries sh') = zlen (entries sh) ∨
            freeIDs sh = [] ∧ freeIDs sh' = [] ∧ id = zlen (entries sh) ∧ zlen (entries sh') = zlen (entries sh) + 1;
  it_cap : entries_cap sh' = entryCapacityFor sh 1;
  it_side : side_cap sh' = match metas sh, entryMeta_ e with
    | Some s, _ => Some (Z.max (mslots_cap s) (entryCapacityFor sh 1))
    | None, Some _ => Some (entryCapacityFor sh 1)
    | None, None => None
    end;
}.

Lemma take_free sh e : storage_ok sh → packable (entryData e) →
  ∀ id, last (freeIDs sh) = Some id → 0 ≤ id < zlen (entries sh) →
  ∃ sh', take_id growslice sh e = Ret (id, sh') ∧ storage_ok sh' ∧ same_rest sh sh' ∧ id_taken sh sh' id e.
Proof.
  intros Hs Hp id Hl Hid. unfold take_id. rewrite Hl. apply last_Some in Hl as [l Hl].
  set (sh1 := with_free sh _).
  destruct (store_at_ok sh1 id e Hs Hid Hp) as (sh' & -> & Hs' & Hr & Hf & Hlen & Hcap & He & Ho & Hside). rewrite res_bind_ret.
  assert (Ef : freeIDs sh1 = l).
  { unfold sh1. cbn [freeIDs with_free]. rewrite Hl, length_app. cbn [length]. replace (length l + 1 - 1)%nat with (length l) by lia. by rewrite take_app_length. }
  assert (Hnext : entryCapacityFor sh 1 = entries_cap sh).
  { destruct (entryCapacityFor_ok sh 1 Hs) as (_ & _ & H). apply H. rewrite Hl, zlen_snoc. destruct Hs as [? _].
    pose proof (zlen_nonneg l). lia. }
  exists sh'. split; [done|]. split; [done|]. split; [done|]. split.
  - by rewrite Hlen.
  - done.
  - intros j _ Hj. by apply Ho.
  - left. rewrite Hf, Ef. done.
  - rewrite Hcap. symmetry. exact Hnext.
  - rewrite Hside, Hnext. unfold new_side_cap, sh1. cbn [metas with_free entries_cap]. destruct Hs as [_ Hm]. unfold metas_ok in Hm.
    destruct (metas sh) as [s|]; [|done]. f_equal. lia.
Qed.

(** Making room for one more entry. *)
Definition roomy (sh : shard) : shard :=
  if zlen (entries sh) =? entries_cap sh then
    let next := entryCapacityFor sh 1 in growMetaSlots (with_entries sh (entries sh) next) next
  else sh.

Lemma roomy_ok sh : storage_ok sh → freeIDs sh = [] →
  storage_ok (roomy sh) ∧ same_rest sh (roomy sh) ∧ freeIDs (roomy sh) = [] ∧ entries (roomy sh) = entries sh ∧
  entries_cap (roomy sh) = entryCapacityFor sh 1 ∧ zlen (entries sh) < entries_cap (roomy sh) ∧ (∀ j, meta_at (roomy sh) j = meta_at sh j) ∧
  side_cap (roomy sh) = (fun s => Z.max (mslots_cap s) (entryCapacityFor sh 1)) <$> metas sh.
Proof.
  intros Hs Hf. destruct (entryCapacityFor_ok sh 1 Hs) as (H1 & H2 & H3). rewrite Hf in H2, H3. change (zlen (@nil Z)) with 0 in *.
  pose proof Hs as [Hc Hm]. unfold roomy. cbv zeta. remember (entryCapacityFor sh 1) as next eqn:En. clear En.
  destruct (Z.eqb_spec (zlen (entries sh)) (entries_cap sh)) as [E|E].
  - unfold growMetaSlots, metas_ok in *. cbn [metas with_entries]. unfold storage_ok, metas_ok, same_rest, hot_slots, meta_at, side_cap.
    destruct (metas sh) as [s|] eqn:Es.
    + destruct (Z.leb_spec next (mslots_cap s)); cbn; rewrite ?Es; split_and!; try done; try lia; try apply Hm; cbn; f_equal; lia.
    + cbn. rewrite Es. split_and!; try done; lia.
  - split_and!; try done; [symmetry; apply H3; lia|lia|]. unfold side_cap, metas_ok in *. destruct (metas sh) as [s|]; [|done].
    cbn. f_equal. lia.
Qed.

Lemma take_fresh sh e : storage_ok sh → packable (entryData e) → freeIDs sh = [] → zlen (entries sh) < 2 ^ 32 →
  ∃ sh', take_id growslice sh e = Ret (zlen (entries sh), sh') ∧ storage_ok sh' ∧ same_rest sh sh' ∧ id_taken sh sh' (zlen (entries sh)) e.
Proof.
  intros Hs Hp Hf Hb. pose proof (zlen_nonneg (entries sh)). unfold take_id. rewrite Hf. cbn [last]. fold (roomy sh).
  destruct (roomy_ok sh Hs Hf) as ([Hc1 Hm1] & Hr1 & Hf1 & He1 & Hcap1 & Hlt & Hmeta1 & Hside1). rewrite u32_id by lia.
  rewrite packEntry_sum by done. rewrite res_bind_ret. set (p := mkPacked _ _). rewrite He1.
  assert (Hac : append_cap growslice (zlen (entries sh)) (entries_cap (roomy sh)) = entries_cap (roomy sh)).
  { unfold append_cap. by destruct (Z.leb_spec (zlen (entries sh) + 1) (entries_cap (roomy sh))); [|lia]. }
  rewrite Hac. cbn [metas with_entries].
  set (sh2 := match metas (roomy sh) with None => _ | Some s => _ end).
  assert (H2 : storage_ok sh2 ∧ same_rest sh sh2 ∧ freeIDs sh2 = [] ∧ entries sh2 = entries sh ++ [p] ∧
    entries_cap sh2 = entries_cap (roomy sh) ∧ (∀ j, j < zlen (entries sh) → meta_at sh2 j = meta_at sh j) ∧ side_cap sh2 = side_cap (roomy sh)).
  { unfold metas_ok in Hm1. unfold sh2, storage_ok, metas_ok, same_rest, hot_slots, meta_at, side_cap in *. clear Hside1.
    destruct Hr1 as (Ha1 & Hd1 & Hx1 & Hh1). destruct (metas (roomy sh)) as [s|] eqn:Es; cbn; rewrite ?Es, !zlen_snoc.
    - destruct Hm1 as [Hl Hsc]. rewrite He1 in Hl. unfold append_cap. destruct (Z.leb_spec (zlen (mslots s) + 1) (mslots_cap s)); [|lia].
      split_and!; try done; try lia; try congruence. intros j Hj. rewrite znth_app_l by lia. by rewrite <- Hmeta1.
    - split_and!; try done; try lia; try congruence. }
  destruct H2 as (Hs2 & Hr2 & Hf2 & He2 & Hcap2 & Hmeta2 & Hside2).
  destruct (setMeta_ok sh2 (zlen (entries sh)) (entryMeta_ e) Hs2) as (sh' & -> & Hs' & Hr' & Hf' & He' & Hcap' & Hm' & Ho' & Hside');
    [rewrite He2, zlen_snoc; lia|]. rewrite res_bind_ret. exists sh'. split; [done|]. split; [done|].
  split; [by eapply same_rest_trans|]. unfold entry_at. split; unfold entry_at; rewrite ?He', ?He2, ?zlen_snoc.
  - lia.
  - rewrite znth_app_r, Z.sub_diag by lia. change (znth [p] 0) with (Some p). cbn [fmap option_fmap option_map]. rewrite Hm'. unfold p. rewrite unpack_sum by done. by destruct e.
  - intros j Hj Hne. rewrite znth_app_l by lia. rewrite Ho', Hmeta2 by lia. done.
  - right. by rewrite Hf', Hf2.
  - by rewrite Hcap', Hcap2.
  - rewrite Hside'. rewrite Hside1 in Hside2. unfold new_side_cap. unfold side_cap in Hside2. rewrite Hcap2, Hcap1.
    destruct (metas sh) as [s|], (metas sh2) as [s2|]; done.
Qed.

(** ** The shard invariant *)

Record shard_inv (sh : shard) (ids : gmap (list byte) Z) : Prop := {
  si_table : table_ok maphash (data sh) ids;
  si_ids : ∀ k id, ids !! k = Some id → 0 ≤ id < zlen (entries sh);
  si_inj : ∀ k k' id, ids !! k = Some id → ids !! k' = Some id → k = k';
  si_free : ∀ id, id ∈ freeIDs sh → 0 ≤ id < zlen (entries sh) ∧ ∀ k, ids !! k ≠ Some id;
  si_nodup : NoDup (freeIDs sh);
  si_count : zlen (entries sh) = Z.of_nat (size ids) + zlen (freeIDs sh);
  si_storage : storage_ok sh;
}.

(** The ids point at the entries of [m]. *)
Definition points (sh : shard) (ids : gmap (list byte) Z) (m : gmap (list byte) entry) : Prop :=
  ∀ k, m !! k = ids !! k ≫= entry_at sh.

(** The shard holds the entries of [m]. *)
Definition shard_ok (sh : shard) (m : gmap (list byte) entry) : Prop := ∃ ids, shard_inv sh ids ∧ points sh ids m.

Lemma entry_at_is_Some sh id : 0 ≤ id < zlen (entries sh) → ∃ e, entry_at sh id = Some e.
Proof. intros H. unfold entry_at. destruct (znth_is_Some _ _ H) as [p ->]. eauto. Qed.

Lemma shard_ok_empty : shard_ok emptyShard ∅.
Proof.
  exists ∅. split; [|intros k; by rewrite !lookup_empty]. split; cbn; try done.
  - apply table_ok_New.
  - intros id H. by apply not_elem_of_nil in H.
  - constructor.
Qed.

Lemma get_ok sh m k : shard_ok sh m → shard_get maphash sh k = Ret (m !! k).
Proof.
  intros (ids & H & Hm). unfold shard_get, getHashed. rewrite (GetHashed_map maphash _ _ _ (si_table _ _ H)), res_bind_ret, Hm.
  destruct (ids !! k) as [id|] eqn:Hid; [|done]. cbn [mbind option_bind].
  destruct (entry_at_is_Some sh id) as [e He]; [by eapply si_ids|]. rewrite (entryView_ok _ _ _ (si_storage _ _ H) He), res_bind_ret.
  by rewrite He.
Qed.

(** Overwriting the entry of a live key. *)
Lemma overwrite_ok sh ids m k id e :
  shard_inv sh ids → points sh ids m → ids !! k = Some id → packable (entryData e) →
  ∃ sh', store_at sh id e = Ret sh' ∧ shard_inv sh' ids ∧ points sh' ids (<[k := e]> m) ∧
    same_rest sh sh' ∧ entries_cap sh' = entries_cap sh ∧ zlen (entries sh') = zlen (entries sh) ∧ freeIDs sh' = freeIDs sh ∧
    side_cap sh' = new_side_cap sh (entryMeta_ e).
Proof.
  intros H Hm Hid Hp. pose proof (si_ids _ _ H _ _ Hid) as Hr.
  destruct (store_at_ok sh id e (si_storage _ _ H) Hr Hp) as (sh' & -> & Hs & Hrest & Hf & Hl & Hc & He & Ho & Hside).
  pose proof Hrest as (_ & Hd & _). exists sh'. split; [done|]. split_and!; [|intros k'|done..].
  - destruct H. split; rewrite ?Hd, ?Hl, ?Hf; done.
  - destruct (decide (k' = k)) as [->|Hne]; [by rewrite lookup_insert_eq, Hid|]. rewrite lookup_insert_ne, Hm by done.
    destruct (ids !! k') as [id'|] eqn:Hid'; [|done]. cbn. rewrite Ho; [done|]. intros ->. by destruct Hne; eapply si_inj.
Qed.

(** Room in the index for one more key. *)
Definition room (sh : shard) (k : list byte) : Prop :=
  zlen (entries sh) ≤ MaxValue ∧ zlen (log (data sh)) + KeyPack.KeyRecordSize k ≤ maxLogBytes.

Lemma take_id_ok sh ids e : shard_inv sh ids → packable (entryData e) → zlen (entries sh) ≤ MaxValue →
  ∃ id sh', take_id growslice sh e = Ret (id, sh') ∧ storage_ok sh' ∧ same_rest sh sh' ∧ id_taken sh sh' id e ∧
    (∀ k, ids !! k ≠ Some id) ∧ 0 ≤ id ≤ MaxValue.
Proof.
  intros H Hp Hb. destruct (last (freeIDs sh)) as [id|] eqn:Hl.
  - assert (Hin : id ∈ freeIDs sh) by (apply last_Some in Hl as [l ->]; apply elem_of_app; right; by apply list_elem_of_singleton).
    destruct (si_free _ _ H id Hin) as [Hr Hn].
    destruct (take_free sh e (si_storage _ _ H) Hp id Hl Hr) as (sh' & E & Hs & Hrest & Ht).
    exists id, sh'. split_and!; try done; lia.
  - apply last_None in Hl. change MaxValue with (2 ^ 27 - 1) in *. pose proof (zlen_nonneg (entries sh)).
    destruct (take_fresh sh e (si_storage _ _ H) Hp Hl ltac:(lia)) as (sh' & E & Hs & Hrest & Ht).
    exists (zlen (entries sh)), sh'. split_and!; try done; try lia. intros k Hk. apply (si_ids _ _ H) in Hk. lia.
Qed.

Lemma taken_inv sh sh' ids id e k t :
  shard_inv sh ids → storage_ok sh' → id_taken sh sh' id e → (∀ k, ids !! k ≠ Some id) → ids !! k = None →
  table_ok maphash t (<[k := id]> ids) → shard_inv (with_data sh' t) (<[k := id]> ids).
Proof.
  intros H Hs [Hr He Ho Hfrom Hc] Hnew Hk Ht. split; cbn [data entries freeIDs with_data]; try done.
  - intros k' id'. destruct (decide (k' = k)) as [->|]; [rewrite lookup_insert_eq; intros [= <-]; done|].
    rewrite lookup_insert_ne by done. intros Hid. pose proof (si_ids _ _ H _ _ Hid). destruct Hfrom as [[_ ->]|(_ & _ & _ & ->)]; lia.
  - intros k1 k2 id'. destruct (decide (k1 = k)) as [->|], (decide (k2 = k)) as [->|]; rewrite ?lookup_insert_eq, ?lookup_insert_ne by done.
    + done.
    + intros [= ->] H2. by apply Hnew in H2.
    + intros H1 [= ->]. by apply Hnew in H1.
    + intros. by eapply si_inj.
  - intros id' Hin. destruct Hfrom as [[Ef El]|(_ & Ef & _)]; [|rewrite Ef in Hin; by apply not_elem_of_nil in Hin].
    assert (Hin' : id' ∈ freeIDs sh) by (rewrite Ef; apply elem_of_app; by left). destruct (si_free _ _ H id' Hin') as [Hr' Hn].
    split; [by rewrite El|]. intros k'. destruct (decide (k' = k)) as [->|]; [|by rewrite lookup_insert_ne by done].
    rewrite lookup_insert_eq. intros [= <-]. pose proof (si_nodup _ _ H) as Hnd. rewrite Ef in Hnd. apply NoDup_app in Hnd as (_ & Hd & _).
    apply (Hd id Hin). by apply list_elem_of_singleton.
  - pose proof (si_nodup _ _ H) as Hnd. destruct Hfrom as [[Ef _]|(_ & -> & _)]; [|constructor]. rewrite Ef in Hnd. by apply NoDup_app in Hnd as (? & _).
  - rewrite map_size_insert_None by done. pose proof (si_count _ _ H) as Hcount. destruct Hfrom as [[Ef El]|(Ef & Ef' & _ & El)].
    + rewrite Ef, zlen_snoc in Hcount. lia.
    + rewrite Ef in Hcount. rewrite Ef'. change (zlen (@nil Z)) with 0 in *. lia.
Qed.

Lemma taken_entries sh sh' ids id e k m t :
  shard_inv sh ids → id_taken sh sh' id e → (∀ k, ids !! k ≠ Some id) → points sh ids m →
  points (with_data sh' t) (<[k := id]> ids) (<[k := e]> m).
Proof.
  intros H Ht Hnew Hm k'. change (entry_at (with_data sh' t)) with (entry_at sh').
  destruct (decide (k' = k)) as [->|Hne]; [rewrite !lookup_insert_eq; symmetry; apply Ht|]. rewrite !lookup_insert_ne, Hm by done.
  destruct (ids !! k') as [id'|] eqn:Hid; [|done]. cbn. symmetry. apply Ht; [by eapply si_ids|]. intros ->. by apply Hnew in Hid.
Qed.

Lemma insert_ok sh m k e known : shard_ok sh m → m !! k = None → packable (entryData e) → room sh k →
  ∃ sh', insertEntry maphash growslice sh k (Hash maphash k) e known = Ret sh' ∧ shard_ok sh' (<[k := e]> m) ∧
    arena sh' = arena sh ∧ expiration_ sh' = expiration_ sh ∧ hot_slots sh' = hot_slots sh ∧
    entries_cap sh' = entryCapacityFor sh 1 ∧ zlen (entries sh') ≤ zlen (entries sh) + 1 ∧
    zlen (log (data sh')) ≤ zlen (log (data sh)) + KeyPack.KeyRecordSize k ∧
    zlen (slots (data sh')) = capacityFor (data sh) (count (data sh) + 1) ∧ (freeIDs sh = [] → zlen (entries sh') = zlen (entries sh) + 1) ∧
    side_cap sh' = (match metas sh, entryMeta_ e with
    | Some s, _ => Some (Z.max (mslots_cap s) (entryCapacityFor sh 1))
    | None, Some _ => Some (entryCapacityFor sh 1)
    | None, None => None
    end) ∧ ∃ id, Get maphash (data sh') k = Ret (Some id) ∧ (freeIDs sh = [] → id = zlen (entries sh)).
Proof.
  intros (ids & H & Hm) Hk Hp [Hmax Hlog].
  assert (Hidk : ids !! k = None).
  { specialize (Hm k). rewrite Hk in Hm. destruct (ids !! k) as [id|] eqn:E; [|done].
    destruct (entry_at_is_Some sh id) as [e' He']; [by eapply si_ids|]. cbn in Hm. congruence. }
  destruct (take_id_ok sh ids e H Hp Hmax) as (id & sh1 & E & Hs & (Ha & Hd & Hx & Hh) & Ht & Hnew & Hid).
  unfold insertEntry. rewrite E, res_bind_ret, Hd.
  assert (Htab : ∃ t, (if known then SetKnownHashed maphash growslice (data sh) k id (Hash maphash k) false
    else Set_ maphash growslice (data sh) k id) = Ret t ∧ table_ok maphash t (<[k := id]> ids) ∧
    zlen (log t) ≤ zlen (log (data sh)) + KeyPack.KeyRecordSize k ∧ zlen (slots t) = capacityFor (data sh) (count (data sh) + 1)).
  { destruct known.
    - destruct (SetKnown_absent maphash growslice (data sh) ids k id (si_table _ _ H) Hid Hidk Hlog) as (t & ? & ? & ? & ? & ?). by exists t.
    - destruct (Set_map maphash growslice (data sh) ids k id (si_table _ _ H) Hid Hlog) as (t & ? & ? & ? & Hsl & _).
      rewrite Hidk in Hsl. by exists t. }
  destruct Htab as (t & -> & Htab & Hl & Hcapt). rewrite res_bind_ret. exists (with_data sh1 t). split; [done|].
  pose proof (it_from _ _ _ _ Ht) as Hfrom. cbn [arena expiration_ entries data entries_cap with_data]. split_and!; try done.
  - exists (<[k := id]> ids). split; [by eapply taken_inv|by eapply taken_entries].
  - apply Ht.
  - destruct Hfrom as [[_ ->]|(_ & _ & _ & ->)]; lia.
  - intros E0. destruct Hfrom as [[Ef _]|(_ & _ & _ & ->)]; [rewrite E0 in Ef; by destruct (freeIDs sh1)|done].
  - apply Ht.
  - exists id. unfold Get. rewrite (GetHashed_map maphash _ _ _ Htab), lookup_insert_eq. split; [done|].
    intros E0. destruct Hfrom as [[Ef _]|(_ & _ & ? & _)]; [rewrite E0 in Ef; by destruct (freeIDs sh1)|done].
Qed.

Lemma ids_None sh ids m k : shard_inv sh ids → points sh ids m → m !! k = None ↔ ids !! k = None.
Proof.
  intros H Hm. rewrite (Hm k). destruct (ids !! k) as [id|] eqn:E; [|done]. cbn.
  destruct (entry_at_is_Some sh id) as [e ->]; [by eapply si_ids|done].
Qed.

(** Bytes of entry storage, and of the metadata sidecar. *)
Definition entry_bytes (sh : shard) : Z := entries_cap sh * entryStructBytes.
Definition side_bytes (sh : shard) : Z :=
  match side_cap sh with Some c => sidecarBytes + c * entryMetaSlotBytes | None => 0 end.

(** What a write to a shard leaves alone, and by how much it grows it; [fresh]
    when the key is new. The growth is the forecast, up to wrap-around. *)
Record write_frame (sh sh' : shard) (k : list byte) (e : entry) (fresh : bool) : Prop := {
  wf_arena : arena sh' = arena sh;
  wf_expiration : expiration_ sh' = expiration_ sh;
  wf_hot : hot_slots sh' = hot_slots sh;
  wf_entries : zlen (entries sh') ≤ zlen (entries sh) + Z.b2z fresh;
  wf_log : zlen (log (data sh')) ≤ zlen (log (data sh)) + (if fresh then KeyPack.KeyRecordSize k else 0);
  wf_entry_bytes : entry_bytes sh' ≅ entry_bytes sh + (if fresh then entryGrowthBytes sh 1 else 0);
  wf_side_bytes : side_bytes sh' ≅ side_bytes sh + metaSlotGrowthBytes sh (Z.b2z fresh) (bool_decide (entryMeta_ e ≠ None));
  wf_capacity : CapacityBytes (data sh') ≅ CapacityBytes (data sh) + (if fresh then GrowthBytes (data sh) 1 else 0);
}.

Lemma overwrite_frame sh sh' k e : storage_ok sh → same_rest sh sh' → entries_cap sh' = entries_cap sh →
  zlen (entries sh') = zlen (entries sh) → side_cap sh' = new_side_cap sh (entryMeta_ e) → write_frame sh sh' k e false.
Proof.
  intros [_ Hms] (Ha & Hd & Hx & Hh) Hc Hl Hside. split; try done; rewrite ?Hd; cbn [Z.b2z]; try lia.
  - unfold entry_bytes. rewrite Hc. apply cong_eq. lia.
  - unfold side_bytes, metaSlotGrowthBytes, side_cap at 2, entryCapacityFor. cbn [Z.leb]. rewrite Hside. unfold new_side_cap, metas_ok in *.
    change (0 <=? 0) with true. destruct (metas sh) as [s|]; cbn [fmap option_fmap option_map].
    + destruct (Z.leb_spec (entries_cap sh) (mslots_cap s)); [|lia]. apply cong_eq. lia.
    + destruct (entryMeta_ e); [rewrite bool_decide_true by done; by rewrite cong_u64|by rewrite bool_decide_false by (by intros [])].
  - apply cong_eq. lia.
Qed.

Lemma insert_frame sh sh' m k e known : shard_ok sh m → m !! k = None → packable (entryData e) → room sh k →
  insertEntry maphash growslice sh k (Hash maphash k) e known = Ret sh' → shard_ok sh' (<[k := e]> m) ∧ write_frame sh sh' k e true.
Proof.
  intros Hok Hk Hp Hroom E. pose proof Hok as (ids & H & _). pose proof (si_storage _ _ H) as Hs.
  destruct (insert_ok sh m k e known Hok Hk Hp Hroom) as (sh1 & E1 & Hok' & Ha & Hx & Hh & Hc & Hl & Hlog & Hsl & _ & Hside & _).
  rewrite E1 in E. injection E as ->. split; [done|]. destruct (entryCapacityFor_ok sh 1 Hs) as (Hge & _ & _). pose proof Hs as [Hce Hms].
  split; try done; cbn [Z.b2z].
  - unfold entry_bytes, entryGrowthBytes, entryStructBytes. rewrite Hc. destruct (Z.leb_spec (entryCapacityFor sh 1) (entries_cap sh)); rewrite ?cong_u64; apply cong_eq; lia.
  - unfold side_bytes, metaSlotGrowthBytes, side_cap at 2, sidecarBytes, entryMetaSlotBytes. rewrite Hside. unfold metas_ok in Hms.
    destruct (metas sh) as [s|]; cbn [fmap option_fmap option_map].
    + destruct (Z.leb_spec (entryCapacityFor sh 1) (mslots_cap s)); rewrite ?cong_u64; apply cong_eq; lia.
    + destruct (entryMeta_ e); [rewrite bool_decide_true by done; by rewrite cong_u64|by rewrite bool_decide_false by (by intros [])].
  - unfold CapacityBytes, GrowthBytes, slotSize. rewrite cong_u64, Hsl. apply cong_eq. lia.
Qed.

Lemma set_ok sh m k e : shard_ok sh m → packable (entryData e) → (m !! k = None → room sh k) →
  ∃ sh', shard_set maphash growslice sh k e = Ret sh' ∧ shard_ok sh' (<[k := e]> m) ∧ write_frame sh sh' k e (bool_decide (m !! k = None)).
Proof.
  intros Hok Hp Hroom. pose proof Hok as (ids & H & Hm). unfold shard_set, Get.
  rewrite (GetHashed_map maphash _ _ _ (si_table _ _ H)), res_bind_ret. pose proof (ids_None sh ids m k H Hm) as Hnone. destruct (ids !! k) as [id|] eqn:Hid.
  - destruct (overwrite_ok sh ids m k id e H Hm Hid Hp) as (sh' & -> & H' & Hm' & Hrest & Hc & Hl & _ & Hside).
    exists sh'. split; [done|]. split; [by exists ids|]. rewrite bool_decide_false by (by rewrite Hnone). apply overwrite_frame; try done. apply H.
  - assert (Hk : m !! k = None) by (by apply Hnone). destruct (insert_ok sh m k e false Hok Hk Hp (Hroom Hk)) as (sh' & E & _). rewrite E.
    exists sh'. split; [done|]. rewrite bool_decide_true by done. by apply (insert_frame sh sh' m k e false Hok Hk Hp (Hroom Hk)).
Qed.

Lemma setKnown_ok sh m k e : shard_ok sh m → packable (entryData e) → (m !! k = None → room sh k) →
  ∃ sh', setKnownHashed maphash growslice sh k (Hash maphash k) e (bool_decide (is_Some (m !! k))) = Ret sh' ∧
    shard_ok sh' (<[k := e]> m) ∧ write_frame sh sh' k e (bool_decide (m !! k = None)).
Proof.
  intros Hok Hp Hroom. pose proof Hok as (ids & H & Hm). unfold setKnownHashed. destruct (m !! k) as [e0|] eqn:Hk.
  - rewrite bool_decide_true by eauto. destruct (ids !! k) as [id|] eqn:Hid.
    2: { apply (ids_None sh ids m k H Hm) in Hid. congruence. }
    rewrite (GetHashed_map maphash _ _ _ (si_table _ _ H)), res_bind_ret, Hid.
    destruct (overwrite_ok sh ids m k id e H Hm Hid Hp) as (sh' & -> & H' & Hm' & Hrest & Hc & Hl & _ & Hside).
    exists sh'. split; [done|]. split; [by exists ids|]. rewrite bool_decide_false by done. apply overwrite_frame; try done. apply H.
  - rewrite bool_decide_false by (by intros [? ?]). destruct (insert_ok sh m k e true Hok Hk Hp (Hroom eq_refl)) as (sh' & E & _). rewrite E.
    exists sh'. split; [done|]. rewrite bool_decide_true by done. by apply (insert_frame sh sh' m k e true Hok Hk Hp (Hroom eq_refl)).
Qed.

(** Replacing the metadata of an entry that has some. *)
Lemma setMeta_shard sh m k e meta meta' : shard_ok sh m → m !! k = Some e → entryMeta_ e = Some meta →
  ∃ id sh', Get maphash (data sh) k = Ret (Some id) ∧ setMeta sh id (Some meta') = Ret sh' ∧
    shard_ok sh' (<[k := mkEntry (entryData e) (Some meta')]> m) ∧ write_frame sh sh' k (mkEntry (entryData e) (Some meta')) false.
Proof.
  intros (ids & H & Hm) Hk He. pose proof (Hm k) as Hid. rewrite Hk in Hid. destruct (ids !! k) as [id|] eqn:Eid; [|done]. cbn in Hid.
  pose proof (si_ids _ _ H _ _ Eid) as Hr. destruct (setMeta_ok sh id (Some meta') (si_storage _ _ H) Hr) as
    (sh' & E & Hs & Hrest & Hf & Hent & Hcap & Hme & Ho & Hside). pose proof Hrest as (_ & Hd & _).
  exists id, sh'. unfold Get. rewrite (GetHashed_map maphash _ _ _ (si_table _ _ H)), Eid. split_and!; try done.
  - exists ids. split; [destruct H; split; rewrite ?Hd, ?Hent, ?Hf; done|]. intros k'. destruct (decide (k' = k)) as [->|Hne].
    + rewrite lookup_insert_eq, Eid. cbn. unfold entry_at in *. rewrite Hent, Hme. destruct (znth (entries sh) id); [|done]. by injection Hid as ->.
    + rewrite lookup_insert_ne, (Hm k') by done. destruct (ids !! k') as [id'|] eqn:Hid'; [|done]. cbn. unfold entry_at.
      rewrite Hent, Ho; [done|]. intros ->. by destruct Hne; eapply si_inj.
  - apply overwrite_frame; try done; [apply H|by rewrite Hent].
Qed.

(** An entry with metadata has a sidecar. *)
Lemma meta_sidecar sh m k e : shard_ok sh m → m !! k = Some e → entryMeta_ e ≠ None → metas sh ≠ None.
Proof.
  intros (ids & H & Hm) Hk He. pose proof (Hm k) as Hid. rewrite Hk in Hid. destruct (ids !! k) as [id|]; [|done]. cbn in Hid.
  unfold entry_at, meta_at in Hid. destruct (znth (entries sh) id); [|done]. injection Hid as ->. cbn in He. by destruct (metas sh).
Qed.

(** Every id has a hot-hash slot, if any has. *)
Definition hot_complete (sh : shard) : Prop := ∀ hh, hot_slots sh = Some hh → zlen hh = zlen (entries sh).

(** Clearing the storage of a deleted id. *)
Definition cleared (sh : shard) (t : Table) (id : Z) : shard :=
  let m := (fun s => mkSidecar (<[Z.to_nat id := None]> (mslots s)) (mslots_cap s)
              ((fun hh => <[Z.to_nat id := None]> hh) <$> hotHashes s) (hot_cap s)) <$> metas sh in
  with_free (with_metas (with_entries (with_data sh t) (<[Z.to_nat id := zeroPacked]> (entries sh)) (entries_cap sh)) m) (freeIDs sh ++ [id]).

Lemma delete_cleared sh ids k id : shard_inv sh ids → ids !! k = Some id → hot_complete sh →
  ∃ t, shard_delete maphash growslice sh k = Ret (true, cleared sh t id) ∧ table_ok maphash t (delete k ids) ∧
    zlen (log t) ≤ zlen (log (data sh)) ∧ zlen (slots t) = zlen (slots (data sh)).
Proof.
  intros H Hid Hhot. pose proof (si_ids _ _ H _ _ Hid) as Hr. pose proof (si_storage _ _ H) as [_ Hms]. unfold shard_delete, Get.
  rewrite (GetHashed_map maphash _ _ _ (si_table _ _ H)), res_bind_ret, Hid.
  destruct (Delete_map maphash growslice (data sh) ids k (si_table _ _ H)) as (t & -> & Ht & Hl & Hsl). rewrite res_bind_ret.
  cbn [entries with_data]. destruct (Z.leb_spec (zlen (entries sh)) id); [lia|]. rewrite zupd_Some by done. cbn [or_panic].
  rewrite res_bind_ret. cbn [metas with_entries with_data]. exists t. split; [|done]. unfold cleared, metas_ok, hot_complete, hot_slots in *.
  destruct (metas sh) as [s|]; [|done]. rewrite zupd_Some by lia. cbn [or_panic]. rewrite res_bind_ret.
  destruct (hotHashes s) as [hh|] eqn:Ehh; [rewrite zupd_Some by (by rewrite (Hhot hh))|]; cbn; by rewrite Ehh.
Qed.

Lemma cleared_inv sh ids k id t : shard_inv sh ids → ids !! k = Some id → table_ok maphash t (delete k ids) →
  shard_inv (cleared sh t id) (delete k ids).
Proof.
  intros H Hid Ht. pose proof (si_ids _ _ H _ _ Hid) as Hr.
  assert (Hdel : ∀ k' id', delete k ids !! k' = Some id' → ids !! k' = Some id' ∧ id' ≠ id).
  { intros k' id' [Hne Hk']%lookup_delete_Some. split; [done|]. intros ->. apply Hne. symmetry. by eapply si_inj. }
  split; cbn [cleared data entries freeIDs with_free with_metas with_entries with_data]; rewrite ?zlen_insert; try done.
  - intros k' id' Hk'. apply Hdel in Hk' as [Hk' _]. by eapply si_ids.
  - intros k1 k2 id' H1 H2. apply Hdel in H1 as [H1 _], H2 as [H2 _]. by eapply si_inj.
  - intros id' Hin. apply elem_of_app in Hin as [Hin|Hin].
    + destruct (si_free _ _ H id' Hin) as [? Hn]. split; [done|]. intros k' Hk'. apply Hdel in Hk' as [Hk' _]. by apply Hn in Hk'.
    + apply list_elem_of_singleton in Hin as ->. split; [done|]. intros k' Hk'. by apply Hdel in Hk' as [_ ?].
  - apply NoDup_app. split_and!; [apply H| |apply NoDup_singleton]. intros x Hx Hx'. apply list_elem_of_singleton in Hx' as ->.
    destruct (si_free _ _ H id Hx) as [_ Hn]. by apply Hn in Hid.
  - rewrite zlen_snoc. pose proof (si_count _ _ H). pose proof (map_size_delete_Some k ids ltac:(eauto)) as Hsz.
    assert (0 < size ids)%nat by (apply Nat.neq_0_lt_0; rewrite map_size_empty_iff; intros ->; by rewrite lookup_empty in Hid). lia.
  - destruct (si_storage _ _ H) as [Hc Hms]. unfold storage_ok, metas_ok in *. cbn. rewrite !zlen_insert. split; [done|].
    destruct (metas sh) as [s|]; [|done]. cbn. by rewrite zlen_insert.
Qed.

Lemma cleared_points sh ids m k id t : shard_inv sh ids → points sh ids m → ids !! k = Some id →
  points (cleared sh t id) (delete k ids) (delete k m).
Proof.
  intros H Hm Hid k'. destruct (decide (k' = k)) as [->|Hne]; [by rewrite !lookup_delete_eq|]. rewrite !lookup_delete_ne, (Hm k') by done.
  destruct (ids !! k') as [id'|] eqn:Hid'; [|done]. cbn [mbind option_bind]. pose proof (si_ids _ _ H _ _ Hid).
  assert (id' ≠ id) by (intros ->; by destruct Hne; eapply si_inj). unfold entry_at. cbn [cleared entries with_free with_metas with_entries].
  rewrite znth_insert_ne by lia. f_equal. unfold meta_at. cbn [cleared metas with_free with_metas].
  destruct (metas sh) as [s|]; [|done]. cbn. by rewrite znth_insert_ne by lia.
Qed.

Lemma delete_ok sh m k : shard_ok sh m → hot_complete sh →
  ∃ sh', shard_delete maphash growslice sh k = Ret (bool_decide (is_Some (m !! k)), sh') ∧ shard_ok sh' (delete k m) ∧
    arena sh' = arena sh ∧ expiration_ sh' = expiration_ sh ∧ hot_complete sh' ∧ (hot_slots sh = None → hot_slots sh' = None) ∧
    zlen (entries sh') = zlen (entries sh) ∧ zlen (log (data sh')) ≤ zlen (log (data sh)) ∧
    entry_bytes sh' = entry_bytes sh ∧ side_bytes sh' = side_bytes sh ∧ CapacityBytes (data sh') = CapacityBytes (data sh).
Proof.
  intros (ids & H & Hm) Hhot. destruct (ids !! k) as [id|] eqn:Hid.
  - destruct (delete_cleared sh ids k id H Hid Hhot) as (t & -> & Ht & Hl & Hsl). pose proof (si_ids _ _ H _ _ Hid) as Hr.
    destruct (entry_at_is_Some sh id Hr) as [e He]. assert (Hk : m !! k = Some e) by (rewrite (Hm k), Hid; exact He).
    rewrite Hk, bool_decide_true by eauto. eexists. split; [done|]. split_and!; try done.
    + exists (delete k ids). split; [by eapply cleared_inv|by eapply cleared_points].
    + intros hh. unfold hot_slots, cleared, hot_complete, hot_slots in *. cbn. rewrite zlen_insert. destruct (metas sh) as [s|]; [|done]. cbn.
      destruct (hotHashes s) as [hh0|]; [|done]. intros [= <-]. rewrite zlen_insert. by apply Hhot.
    + unfold hot_slots, cleared. cbn. destruct (metas sh) as [s|]; [|done]. cbn. by intros ->.
    + cbn. by rewrite zlen_insert.
    + unfold side_bytes, side_cap, cleared. cbn. by destruct (metas sh).
    + unfold CapacityBytes. cbn. by rewrite Hsl.
  - assert (Hk : m !! k = None) by (by apply (ids_None sh ids)). rewrite Hk, bool_decide_false by (by intros [? ?]).
    unfold shard_delete, Get. rewrite (GetHashed_map maphash _ _ _ (si_table _ _ H)), res_bind_ret, Hid. exists sh.
    split; [done|]. rewrite delete_id by done. split_and!; try done. by exists ids.
Qed.

(** ** Iteration *)

Lemma view_all_ok sh l : storage_ok sh → Forall (fun p => 0 ≤ p.2 < zlen (entries sh)) l →
  ∃ out, view_all sh l = Ret out ∧ Forall2 (fun p q => q.1 = p.1 ∧ entry_at sh p.2 = Some q.2) l out.
Proof.
  intros Hs. induction 1 as [|[k id] l Hid _ IH]; [by exists []|]. cbn [view_all snd] in *.
  destruct (Z.leb_spec (zlen (entries sh)) id); [lia|]. destruct (entry_at_is_Some sh id Hid) as [e He].
  rewrite (entryView_ok _ _ _ Hs He), res_bind_ret. destruct IH as (out & -> & IH). rewrite res_bind_ret.
  exists ((k, e) :: out). split; [done|]. by constructor.
Qed.

Lemma all_ok sh m : shard_ok sh m → ∃ l, shard_all sh = Ret l ∧ l ≡ₚ map_to_list m.
Proof.
  intros (ids & H & Hm). unfold shard_all. destruct (All_map maphash _ _ (si_table _ _ H)) as (l & -> & Hl). rewrite res_bind_ret.
  destruct (view_all_ok sh l (si_storage _ _ H)) as (out & -> & Hout).
  { apply Forall_forall. intros [k id] Hin. rewrite Hl in Hin. apply elem_of_map_to_list in Hin. by eapply si_ids. }
  exists out. split; [done|]. assert (Hfst : out.*1 = l.*1).
  { clear -Hout. induction Hout as [|p q l out [E _] _ IH]; [done|]. cbn. by rewrite E, IH. }
  assert (Hnd : NoDup out.*1).
  { rewrite Hfst, Hl. apply NoDup_fst_map_to_list. }
  apply NoDup_Permutation; [by apply (NoDup_fmap_1 fst)|apply NoDup_map_to_list|]. intros [k e]. rewrite elem_of_map_to_list, (Hm k). split.
  - intros Hin. apply list_elem_of_lookup in Hin as [i Hi]. destruct (Forall2_lookup_r _ _ _ _ _ Hout Hi) as ([k' id] & Hli & Ek & He). cbn in *. subst k'.
    assert (Hin' : (k, id) ∈ map_to_list ids) by (rewrite <- Hl; by eapply list_elem_of_lookup_2).
    apply elem_of_map_to_list in Hin' as ->. exact He.
  - destruct (ids !! k) as [id|] eqn:Hid; [|done]. cbn. intros He. apply elem_of_map_to_list in Hid. rewrite <- Hl in Hid.
    apply list_elem_of_lookup in Hid as [i Hi]. destruct (Forall2_lookup_l _ _ _ _ _ Hout Hi) as ([k' e'] & Ho & Ek & He'). cbn in *. subst k'.
    assert (e' = e) as -> by congruence. by eapply list_elem_of_lookup_2.
Qed.

(** ** Any sequence of operations *)

Inductive shard_op :=
| SSet (k : list byte) (e : entry)
| SSetKnown (k : list byte) (e : entry)
| SDelete (k : list byte).

(** [setKnownHashed] is told whether the caller's lookup found the key. *)
Definition shard_exec (sh : shard) (op : shard_op) : res shard :=
  match op with
  | SSet k e => shard_set maphash growslice sh k e
  | SSetKnown k e =>
      old ← shard_get maphash sh k;
      setKnownHashed maphash growslice sh k (Hash maphash k) e (bool_decide (is_Some old))
  | SDelete k => '(_, sh) ← shard_delete maphash growslice sh k; Ret sh
  end.

Fixpoint shard_run (sh : shard) (ops : list shard_op) : res shard :=
  match ops with [] => Ret sh | op :: ops => sh ← shard_exec sh op; shard_run sh ops end.

Definition spec_shard (m : gmap (list byte) entry) (op : shard_op) : gmap (list byte) entry :=
  match op with SSet k e | SSetKnown k e => <[k := e]> m | SDelete k => delete k m end.

Definition shard_op_ok (op : shard_op) : Prop :=
  match op with SSet _ e | SSetKnown _ e => packable (entryData e) | SDelete _ => True end.

(** Index log bytes an operation may add. *)
Definition shard_op_bytes (op : shard_op) : Z :=
  match op with SSet k _ | SSetKnown k _ => KeyPack.KeyRecordSize k | SDelete _ => 0 end.
Definition shard_ops_bytes (ops : list shard_op) : Z := foldr (fun op n => shard_op_bytes op + n) 0 ops.

Lemma shard_ops_bytes_nonneg ops : 0 ≤ shard_ops_bytes ops.
Proof.
  unfold shard_ops_bytes. induction ops as [|op ops IH]; cbn [foldr]; [done|].
  destruct op as [k e|k e|k]; cbn [shard_op_bytes]; [pose proof (KeyPackFacts.KeyRecordSize_bounds k); lia..|lia].
Qed.

Lemma shard_exec_ok sh m op :
  shard_ok sh m → hot_slots sh = None → shard_op_ok op → zlen (entries sh) + 1 ≤ MaxValue →
  zlen (log (data sh)) + shard_op_bytes op ≤ maxLogBytes →
  ∃ sh', shard_exec sh op = Ret sh' ∧ shard_ok sh' (spec_shard m op) ∧ hot_slots sh' = None ∧
    zlen (entries sh') ≤ zlen (entries sh) + 1 ∧ zlen (log (data sh')) ≤ zlen (log (data sh)) + shard_op_bytes op.
Proof.
  intros Hok Hh Hop Hn Hb. destruct op as [k e|k e|k]; cbn [shard_exec spec_shard shard_op_ok shard_op_bytes] in *.
  - destruct (set_ok sh m k e Hok Hop) as (sh' & -> & Hok' & [_ _ Hh' He Hl _ _ _]); [intros _; split; lia|].
    exists sh'. case_bool_decide; cbn [Z.b2z] in *; pose proof (KeyPackFacts.KeyRecordSize_bounds k); split_and!; try done; try lia; congruence.
  - rewrite (get_ok sh m k Hok), res_bind_ret. destruct (setKnown_ok sh m k e Hok Hop) as (sh' & -> & Hok' & [_ _ Hh' He Hl _ _ _]); [intros _; split; lia|].
    exists sh'. case_bool_decide; cbn [Z.b2z] in *; pose proof (KeyPackFacts.KeyRecordSize_bounds k); split_and!; try done; try lia; congruence.
  - destruct (delete_ok sh m k Hok) as (sh' & -> & Hok' & _ & _ & _ & Hh' & He & Hl & _); [intros hh; congruence|]. rewrite res_bind_ret.
    exists sh'. split_and!; try done; try lia. by apply Hh'.
Qed.

Lemma shard_run_ok ops : ∀ sh m,
  shard_ok sh m → hot_slots sh = None → Forall shard_op_ok ops → zlen (entries sh) + zlen ops ≤ MaxValue →
  zlen (log (data sh)) + shard_ops_bytes ops ≤ maxLogBytes →
  ∃ sh', shard_run sh ops = Ret sh' ∧ shard_ok sh' (foldl spec_shard m ops).
Proof.
  induction ops as [|op ops IH]; intros sh m Hok Hh Hops Hn Hb; cbn [shard_run foldl]; [eauto|].
  inversion Hops as [|? ? Hop Hops']; subst. rewrite zlen_cons in Hn. pose proof (zlen_nonneg ops). pose proof (shard_ops_bytes_nonneg ops).
  unfold shard_ops_bytes in Hb. cbn [foldr] in Hb. fold (shard_ops_bytes ops) in Hb.
  destruct (shard_exec_ok sh m op Hok Hh Hop) as (sh1 & -> & Hok1 & Hh1 & He & Hl); [lia..|]. rewrite res_bind_ret.
  apply IH; (done || lia).
Qed.

(** C8: A shard implements a finite map from keys to entries. Starting empty,
    any sequence of writes (through either write path) and deletes within the
    index limits runs without a panic; afterwards every lookup returns the last
    entry written for the key, metadata included, and iteration yields each
    stored key and entry exactly once, for every hash function. *)
Theorem shard_refinement ops :
  Forall shard_op_ok ops → zlen ops ≤ MaxValue → shard_ops_bytes ops ≤ maxLogBytes →
  ∃ sh, shard_run emptyShard ops = Ret sh ∧
    let m := foldl spec_shard ∅ ops in
    (∀ k, shard_get maphash sh k = Ret (m !! k)) ∧ ∃ l, shard_all sh = Ret l ∧ l ≡ₚ map_to_list m.
Proof.
  intros Hops Hn Hb. destruct (shard_run_ok ops emptyShard ∅ shard_ok_empty eq_refl Hops) as (sh & E & Hok); [exact Hn|exact Hb|].
  exists sh. split; [done|]. split; [intros k; by apply get_ok|by apply all_ok].
Qed.

(** The growth charged for inserting a key is exact. The bytes the entry
    array, the metadata sidecar and the index slots take after the insertion
    are the bytes before plus the three forecasts made beforehand. *)
Theorem shard_growth_exact sh m k e :
  shard_ok sh m → m !! k = None → packable (entryData e) → room sh k →
  entryCapacityFor sh 1 < 2 ^ 59 → capacityFor (data sh) (count (data sh) + 1) < 2 ^ 64 →
  ∃ sh', setKnownHashed maphash growslice sh k (Hash maphash k) e false = Ret sh' ∧ shard_ok sh' (<[k := e]> m) ∧
    entry_bytes sh' = entry_bytes sh + entryGrowthBytes sh 1 ∧
    side_bytes sh' = side_bytes sh + metaSlotGrowthBytes sh 1 (bool_decide (entryMeta_ e ≠ None)) ∧
    CapacityBytes (data sh') = CapacityBytes (data sh) + GrowthBytes (data sh) 1.
Proof.
  intros Hok Hk Hp Hroom Hcap Hcap64. unfold setKnownHashed. pose proof Hok as (ids & H & _). pose proof (si_storage _ _ H) as Hs.
  destruct (insert_ok sh m k e true Hok Hk Hp Hroom) as (sh' & -> & Hok' & _ & _ & _ & Hc & _ & _ & Hsl & _ & Hside & _).
  exists sh'. split; [done|]. split; [done|]. destruct (entryCapacityFor_ok sh 1 Hs) as (Hge & _ & _). pose proof Hs as [Hce Hms].
  pose proof (zlen_nonneg (entries sh)). split_and!.
  - unfold entry_bytes, entryGrowthBytes, entryStructBytes. rewrite Hc. destruct (Z.leb_spec (entryCapacityFor sh 1) (entries_cap sh)); [lia|].
    rewrite u64_id; lia.
  - unfold side_bytes, metaSlotGrowthBytes, side_cap at 2, sidecarBytes, entryMetaSlotBytes. rewrite Hside. unfold metas_ok in Hms.
    destruct (metas sh) as [s|]; cbn [fmap option_fmap option_map].
    + destruct (Z.leb_spec (entryCapacityFor sh 1) (mslots_cap s)); [|rewrite u64_id]; lia.
    + destruct (entryMeta_ e); [rewrite bool_decide_true by done; rewrite u64_id; lia|by rewrite bool_decide_false by (by intros [])].
  - destruct (TableFacts.capacityFor_ok (data sh) (count (data sh) + 1)) as (_ & Hg & _);
      [rewrite (count_map maphash _ _ (si_table _ _ H)); lia|]. pose proof (zlen_nonneg (slots (data sh))). unfold CapacityBytes, GrowthBytes, slotSize. rewrite Hsl.
    rewrite u64_id; lia.
Qed.

Lemma resized_len {A} (l : list (option A)) n : 0 ≤ n → zlen (resized l n) = n.
Proof. intros. unfold resized, zlen. rewrite length_app, length_take, length_replicate. lia. Qed.

(** Promoting a hash keeps the shard's contents and gives every id a slot. *)
Lemma promote_ok sh m id h : shard_ok sh m → (∀ hh, hot_slots sh = Some hh → zlen hh ≤ zlen (entries sh)) → 0 ≤ id < zlen (entries sh) →
  ∃ sh', setHotHash sh id (Some h) = Ret sh' ∧ shard_ok sh' m ∧ hot_complete sh' ∧ is_Some (hot_slots sh') ∧
    freeIDs sh' = freeIDs sh ∧ entries sh' = entries sh ∧ data sh' = data sh.
Proof.
  intros (ids & H & Hm) Hhh Hid. pose proof (si_storage _ _ H) as [Hc Hms]. pose proof (zlen_nonneg (entries sh)).
  assert (He : ∃ s hh, metas (ensureHotHashSlots sh) = Some s ∧ hotHashes s = Some hh ∧ zlen hh = zlen (entries sh) ∧
    zlen (mslots s) = zlen (entries sh) ∧ entries_cap sh ≤ mslots_cap s ∧
    (∀ j, default None (znth (mslots s) j) = meta_at sh j)).
  { unfold ensureHotHashSlots. cbn [metas with_metas]. unfold metas_ok, meta_at, hot_slots in *. destruct (metas sh) as [s|].
    - destruct Hms as [Hl Hcap]. destruct (Z.ltb_spec (zlen (mslots s)) (zlen (entries sh))); [lia|].
      destruct (hotHashes s) as [hh|] eqn:Eh.
      + specialize (Hhh hh eq_refl). destruct (_ || _) eqn:Eb; eexists _, _; (split; [done|]).
        * cbn [hotHashes mslots mslots_cap]. split; [done|]. rewrite resized_len by lia. by split_and!.
        * apply orb_false_iff in Eb as [Eb%Z.ltb_ge _]. rewrite Eh. split_and!; (done || lia).
      + eexists _, _. split; [done|]. cbn [hotHashes mslots mslots_cap]. split; [done|]. rewrite resized_len by lia. by split_and!.
    - cbn [mslots]. assert (Hr : zlen (replicate (length (entries sh)) (@None entryMeta)) = zlen (entries sh)) by (unfold zlen; by rewrite length_replicate).
      rewrite Hr, Z.ltb_irrefl. cbn [hotHashes]. eexists _, _. split; [done|]. cbn [hotHashes mslots mslots_cap]. split; [done|].
      rewrite resized_len by lia. split_and!; try done. intros j. destruct (znth (replicate _ None) j) as [x|] eqn:Ex; [|done]. pose proof (znth_Some _ _ _ Ex).
      rewrite znth_lookup in Ex by lia. by apply lookup_replicate in Ex as [-> _]. }
  destruct He as (s & hh & Es & Eh & Hl & Hml & Hmc & Hmeta). unfold setHotHash. rewrite Es, Eh, zupd_Some by lia. cbn [or_panic].
  rewrite res_bind_ret. eexists. split; [done|]. unfold hot_complete, hot_slots. cbn. split_and!; try done; [|intros ? [= <-]; by rewrite zlen_insert].
  exists ids. split.
  - destruct H. split; try done.
  - intros k. rewrite (Hm k). destruct (ids !! k) as [i|]; [|done]. cbn [mbind option_bind]. unfold entry_at. cbn [entries with_metas ensureHotHashSlots].
    f_equal. unfold meta_at at 2. cbn [metas with_metas mslots]. by rewrite Hmeta.
Qed.

(** C38: Deleting a key next to a hot hash can crash. Hot-hash slots are sized
    when a hash is promoted and are not extended by later insertions, but
    deletion writes to them by entry id. In a shard that has promoted a hash
    and has no reusable id, inserting any new key and deleting it again ends in
    an out-of-range panic. *)
Theorem delete_after_promotion_panics sh m k e hh :
  shard_ok sh m → hot_slots sh = Some hh → zlen hh ≤ zlen (entries sh) → freeIDs sh = [] →
  m !! k = None → packable (entryData e) → room sh k →
  ∃ sh', shard_set maphash growslice sh k e = Ret sh' ∧ shard_delete maphash growslice sh' k = Panic oob.
Proof.
  intros Hok Hhh Hlen Hf Hk Hp Hroom. pose proof Hok as (ids & H & Hm). unfold shard_set. unfold Get at 1.
  rewrite (GetHashed_map maphash _ _ _ (si_table _ _ H)), res_bind_ret, (proj1 (ids_None sh ids m k H Hm) Hk).
  destruct (insert_ok sh m k e false Hok Hk Hp Hroom) as (sh' & -> & (ids' & H' & _) & _ & _ & Hh' & _ & _ & _ & _ & Hl & _ & id & Hg & Hid).
  exists sh'. split; [done|]. specialize (Hl Hf). specialize (Hid Hf). subst id. unfold shard_delete. rewrite Hg, res_bind_ret.
  destruct (Delete_map maphash growslice (data sh') ids' k (si_table _ _ H')) as (t & -> & _). rewrite res_bind_ret.
  cbn [entries with_data]. pose proof (zlen_nonneg (entries sh)). destruct (Z.leb_spec (zlen (entries sh')) (zlen (entries sh))); [lia|].
  rewrite zupd_Some by lia. cbn [or_panic]. rewrite res_bind_ret. cbn [metas with_entries with_data].
  destruct (si_storage _ _ H') as [_ Hms]. unfold metas_ok in Hms. rewrite Hhh in Hh'. unfold hot_slots in Hh'.
  destruct (metas sh') as [s|]; [|done]. rewrite zupd_Some by lia. cbn [or_panic]. rewrite res_bind_ret, Hh'.
  by rewrite (zupd_None hh) by lia.
Qed.
End Facts.

(** ** Instances *)

Definition demo_entry (n : Z) : entry := mkEntry (mkValue (mkRef 77 5) n 0 TypeString false false) None.
Definition demo_shard_ops : list shard_op :=
  [SSet [x61] (demo_entry 3); SSetKnown [x62] (demo_entry 4); SDelete [x61]; SSetKnown [x62] (demo_entry 5); SSet [x63] (demo_entry 6)].

Lemma demo_packable n : 0 ≤ n < 2 ^ 32 → packable (entryData (demo_entry n)).
Proof. intros Hn. unfold packable, value_wf. cbn [demo_entry entryData rawLength]. repeat split; (lia || (vm_compute; congruence)). Qed.

Lemma demo_shard_ops_ok : Forall shard_op_ok demo_shard_ops.
Proof. repeat constructor; cbn [shard_op_ok]; try exact I; apply demo_packable; lia. Qed.

Lemma shard_refinement_witness :
  ∃ sh, shard_run demo_hash demo_growslice emptyShard demo_shard_ops = Ret sh ∧
    let m := foldl spec_shard ∅ demo_shard_ops in
    (∀ k, shard_get demo_hash sh k = Ret (m !! k)) ∧ ∃ l, shard_all sh = Ret l ∧ l ≡ₚ map_to_list m.
Proof.
  apply (shard_refinement demo_hash demo_growslice demo_shard_ops).
  - exact demo_shard_ops_ok.
  - vm_compute; discriminate.
  - vm_compute; discriminate.
Defined.


(** A shard with one key whose hash has been promoted. *)
Definition demo_promoted : res shard :=
  sh ← shard_set demo_hash demo_growslice emptyShard [x68] (demo_entry 1);
  setHotHash sh 0 (Some (mkHotHash [] [] [] 0)).

Lemma delete_after_promotion_panics_witness :
  ∃ sh sh', demo_promoted = Ret sh ∧ shard_set demo_hash demo_growslice sh [x61] (demo_entry 3) = Ret sh' ∧
    shard_delete demo_hash demo_growslice sh' [x61] = Panic oob.
Proof.
  destruct (set_ok demo_hash demo_growslice emptyShard ∅ [x68] (demo_entry 1)) as (sh & E & Hok & Hfr);
    [apply shard_ok_empty|apply demo_packable; lia|split; vm_compute; discriminate|].
  assert (Hlen : zlen (entries sh) = 1 ∧ freeIDs sh = [] ∧ hot_slots sh = None ∧ zlen (log (data sh)) ≤ 100).
  { vm_compute in E. injection E as <-. repeat split; vm_compute; discriminate. }
  destruct Hlen as (Hlen & Hf & Hh & Hlog).
  destruct (promote_ok demo_hash sh (<[[x68] := demo_entry 1]> ∅) 0 (mkHotHash [] [] [] 0)) as (sh1 & E1 & Hok1 & Hc1 & [hh Hh1] & Hf1 & He1 & Hd1);
    [done|intros hh; congruence|lia|].
  assert (Hgoal : ∃ sh', shard_set demo_hash demo_growslice sh1 [x61] (demo_entry 3) = Ret sh' ∧ shard_delete demo_hash demo_growslice sh' [x61] = Panic oob).
  { apply (delete_after_promotion_panics demo_hash demo_growslice sh1 (<[[x68] := demo_entry 1]> ∅) [x61] (demo_entry 3) hh).
    - exact Hok1.
    - exact Hh1.
    - rewrite (Hc1 hh Hh1). lia.
    - by rewrite Hf1.
    - by rewrite lookup_insert_ne.
    - apply demo_packable. lia.
    - split; [rewrite He1, Hlen; vm_compute; discriminate|]. rewrite Hd1.
      change (KeyPack.KeyRecordSize [x61]) with 2. change maxLogBytes with (2 ^ 30). lia. }
  destruct Hgoal as (sh' & H1 & H2). exists sh1, sh'. split; [|done]. unfold demo_promoted. rewrite E, res_bind_ret. exact E1.
Defined.
