(* ===== verification/ListPack.v ===== *)
(** * Lists: the physical layouts

    The three byte layouts of a list value: packed records, records behind a
    table of offsets with room to grow in place, and the cold form with a skip
    table. Slices are lists of bytes; a function that writes into its argument
    returns the bytes it leaves there. *)
From S2P Require Import Prelude Slices.
Set Default Proof Using "Type".

Definition maxPackedListBytes : Z := Z.shiftl 32 20.
Definition packedListHeader : list byte := [x53; x4c; x01].
Definition errPacked : string := "invalid packed list".
Definition errListLimit : string := "ERR list exceeds 32 MiB limit".

(** ** Packed *)

Definition appendListUvarint (dst : list byte) (value : Z) : list byte := dst ++ put_uvarint value.

(** The value at [offset] and the offset after it. *)
Definition readListUvarint (data : list byte) (offset : Z) : res (Z * Z) :=
  if zlen data <=? offset then Err errPacked else
  rest ← or_panic (zslice data offset (zlen data)) oob;
  let '(value, n) := uvarint rest in
  if n <=? 0 then Err errPacked else Ret (value, offset + n).

Definition packedListMeta (data : list byte) : res (Z * Z) :=
  if (zlen data <? zlen packedListHeader) || negb (bool_decide (take 3 data = packedListHeader)) then Err errPacked else
  '(count, offset) ← readListUvarint data (zlen packedListHeader);
  if maxPackedListBytes <? count then Err errPacked else Ret (count, offset).

(** One record, and the offset after it; every failure is the error [e]. *)
Definition list_record (e : string) (data : list byte) (offset : Z) : res (list byte * Z) :=
  '(length, offset) ← with_err e (readListUvarint data offset);
  if zlen data - offset <? length then Err e else
  v ← or_panic (zslice data offset (offset + length)) oob;
  Ret (v, offset + length).

Fixpoint packed_nth (n : nat) (data : list byte) (offset i index : Z) : res (option (list byte)) :=
  match n with
  | O => Err errPacked
  | S n =>
      '(v, offset) ← list_record errPacked data offset;
      if i =? index then Ret (Some v) else packed_nth n data offset (i + 1) index
  end.

Definition packedListElement (data : list byte) (index : Z) : res (option (list byte)) :=
  '(count, offset) ← packedListMeta data;
  let index := if index <? 0 then index + count else index in
  if (index <? 0) || (count <=? index) then Ret None
  else packed_nth (Z.to_nat count) data offset 0 index.

Fixpoint skip_records (n : nat) (data : list byte) (offset : Z) : res Z :=
  match n with
  | O => Ret offset
  | S n =>
      '(length, offset) ← with_err errPacked (readListUvarint data offset);
      if zlen data - offset <? length then Err errPacked else skip_records n data (offset + length)
  end.

(** The running upper bound of the packed size. *)
Fixpoint list_capacity (capacity : Z) (values : list (list byte)) : res Z :=
  match values with
  | [] => Ret capacity
  | v :: values =>
      let capacity := capacity + MaxVarintLen64 + zlen v in
      if maxPackedListBytes <? capacity then Err errListLimit else list_capacity capacity values
  end.

Definition append_records (out : list byte) (values : list (list byte)) : list byte :=
  foldl (fun out v => appendListUvarint out (zlen v) ++ v) out values.

Definition appendPackedListRight (data : list byte) (values : list (list byte)) : res (Z * list byte) :=
  '(count, recordsStart) ← packedListMeta data;
  offset ← skip_records (Z.to_nat count) data recordsStart;
  if negb (offset =? zlen data) then Err "invalid packed list trailing data" else
  let newCount := count + zlen values in
  _ ← list_capacity (zlen packedListHeader + MaxVarintLen64 + (zlen data - recordsStart)) values;
  records ← or_panic (zslice data recordsStart (zlen data)) oob;
  let out := append_records (appendListUvarint packedListHeader newCount ++ records) values in
  if maxPackedListBytes <? zlen out then Err errListLimit else Ret (newCount, out).

Definition encodePackedList (elements : list (list byte)) : res (list byte) :=
  _ ← list_capacity (zlen packedListHeader + MaxVarintLen64) elements;
  let out := append_records (appendListUvarint packedListHeader (zlen elements)) elements in
  if maxPackedListBytes <? zlen out then Err errListLimit else Ret out.

Fixpoint read_records (n : nat) (data : list byte) (offset : Z) : res (list (list byte) * Z) :=
  match n with
  | O => Ret ([], offset)
  | S n =>
      '(v, offset) ← list_record errPacked data offset;
      '(l, offset) ← read_records n data offset;
      Ret (v :: l, offset)
  end.

Definition decodePackedList (data : list byte) : res (list (list byte)) :=
  '(count, offset) ← packedListMeta data;
  '(elements, offset) ← read_records (Z.to_nat count) data offset;
  if negb (offset =? zlen data) then Err "invalid packed list trailing data" else Ret elements.

(** ** Indexed *)

Definition indexedListHeader : list byte := [x53; x4c; x02].
Definition indexedListHeaderNarrow : list byte := [x53; x4c; x03].
Definition indexedListNarrowMaxPayload : Z := Z.shiftl 1 16 - 2.
Definition indexedListFixed : Z := 15.
Definition indexedListPromoteElements : Z := 32.
Definition indexedListMaxPayloadHeadroom : Z := Z.shiftl 1 20.
Definition indexedListDoublingPayloadBytes : Z := Z.shiftl 8 10.
Definition indexedListPopMinCount : Z := indexedListPromoteElements / 2.
Definition errIndexed : string := "invalid indexed list".

Definition indexedListOffsetWidth (data : list byte) : Z :=
  if (3 <=? zlen data) && bool_decide (data !! 2%nat = Some x03) then 2 else 4.

Definition indexedListWidthFor (dataCap : Z) : Z := if dataCap <=? indexedListNarrowMaxPayload then 2 else 4.

Definition putIndexedListHeader (out : list byte) (width : Z) : res (list byte) :=
  within 0 3 (fun h => Ret (copy_at h 0 (if width =? 2 then indexedListHeaderNarrow else indexedListHeader))) out.

Definition listOffset (table : list byte) (width i : Z) : res Z :=
  if width =? 2 then get_le 2 table (i * 2) else get_le 4 table (i * 4).

Definition putListOffset (table : list byte) (width i v : Z) : res (list byte) :=
  if width =? 2 then put_le 2 table (i * 2) (u16 v) else put_le 4 table (i * 4) v.

(** [data[indexedListFixed:]] *)
Definition offset_table (data : list byte) : res (list byte) := or_panic (zslice data indexedListFixed (zlen data)) oob.
Definition put_offset (data : list byte) (width i v : Z) : res (list byte) :=
  within indexedListFixed (zlen data) (fun table => putListOffset table width i v) data.

Definition isIndexedList (data : list byte) : bool :=
  (indexedListFixed <=? zlen data) &&
  (bool_decide (take 3 data = indexedListHeader) || bool_decide (take 3 data = indexedListHeaderNarrow)).

Record list_meta := mkListMeta { lm_count : Z; lm_capacity : Z; lm_used : Z; lm_start : Z }.

Definition indexedListMeta (data : list byte) : res list_meta :=
  if negb (isIndexedList data) then Err errIndexed else
  count ← get_le 4 data 3;
  capacity ← get_le 4 data 7;
  used ← get_le 4 data 11;
  if (capacity <? indexedListPromoteElements) || (count <? 0) || (capacity <? count) then Err errIndexed else
  let dataStart := indexedListFixed + capacity * indexedListOffsetWidth data in
  if (zlen data <? dataStart) || (used <? 0) || (zlen data <? dataStart + used) then Err errIndexed
  else Ret (mkListMeta count capacity used dataStart).

Fixpoint list_pow2_loop (fuel : nat) (p n : Z) : Z :=
  match fuel with
  | O => p
  | S f => if p <? n then list_pow2_loop f (p * 2) n else p
  end.
Definition nextListPow2 (n : Z) : Z := list_pow2_loop 64 indexedListPromoteElements n.

Definition indexedListRecord (data : list byte) (pos : Z) : res (list byte * Z) :=
  m ← indexedListMeta data;
  if (pos <? 0) || (lm_used m <=? pos) then Err "invalid indexed list offset" else
  '(length, off) ← with_err "invalid indexed list element" (readListUvarint data (lm_start m + pos));
  if lm_start m + lm_used m - off <? length then Err "invalid indexed list element" else
  v ← or_panic (zslice data off (off + length)) oob;
  Ret (v, off + length - lm_start m).

Definition indexedListElement (data : list byte) (index : Z) : res (option (list byte)) :=
  m ← indexedListMeta data;
  let index := if index <? 0 then index + lm_count m else index in
  if (index <? 0) || (lm_count m <=? index) then Ret None else
  table ← offset_table data;
  raw ← listOffset table (indexedListOffsetWidth data) index;
  if raw =? 0 then Err "invalid indexed list index" else
  '(v, _) ← indexedListRecord data (raw - 1);
  Ret (Some v).

Definition indexedListRecordBytes (value : list byte) : list byte := appendListUvarint [] (zlen value) ++ value.

Fixpoint put_records (out : list byte) (start width i cursor : Z) (records : list (list byte)) : res (list byte * Z) :=
  match records with
  | [] => Ret (out, cursor)
  | r :: records =>
      out ← copy_into out (start + cursor) r;
      out ← put_offset out width i (u32 (cursor + 1));
      put_records out start width (i + 1) (cursor + zlen r) records
  end.

Definition encodeIndexedList (elements : list (list byte)) : res (list byte) :=
  if zlen elements =? 0 then Err "invalid empty indexed list" else
  let capacity := nextListPow2 (zlen elements * 2) in
  let records := indexedListRecordBytes <$> elements in
  let used := lsum zlen records in
  let dataCap := used + used / 4 in
  let dataCap := if dataCap - used <? 512 then used + 512 else dataCap in
  let width := indexedListWidthFor dataCap in
  let total := indexedListFixed + capacity * width + dataCap in
  if maxPackedListBytes <? total then Err errListLimit else
  out ← putIndexedListHeader (replicate (Z.to_nat total) x00) width;
  out ← put_le 4 out 3 (zlen elements);
  out ← put_le 4 out 7 capacity;
  '(out, cursor) ← put_records out (indexedListFixed + capacity * width) width 0 0 records;
  put_le 4 out 11 cursor.

Fixpoint indexed_elements (n : nat) (data : list byte) (i : Z) : res (list (list byte)) :=
  match n with
  | O => Ret []
  | S n =>
      v ← indexedListElement data i;
      match v with
      | None => Err errIndexed
      | Some v => l ← indexed_elements n data (i + 1); Ret (v :: l)
      end
  end.

Definition decodeIndexedList (data : list byte) : res (list (list byte)) :=
  m ← indexedListMeta data; indexed_elements (Z.to_nat (lm_count m)) data 0.

(** ** Indexed: appending *)

Fixpoint uvarint_len (fuel : nat) (n : Z) : Z :=
  match fuel with
  | O => 1
  | S f => if 128 <=? n then 1 + uvarint_len f (Z.shiftr n 7) else 1
  end.
Definition listUvarintLen (n : Z) : Z := uvarint_len 10 n.

(** Bytes of the records of [values]. *)
Definition record_bytes (values : list (list byte)) : Z := lsum (fun v => listUvarintLen (zlen v) + zlen v) values.

(** Records written at [start + cursor], with their offsets. *)
Fixpoint append_values (data : list byte) (start width i cursor : Z) (values : list (list byte)) : res (list byte * Z) :=
  match values with
  | [] => Ret (data, cursor)
  | v :: values =>
      let recordStart := cursor in
      let length := put_uvarint (zlen v) in
      data ← write_bytes data (start + cursor) length;
      let cursor := cursor + zlen length in
      let n := Z.min (zlen v) (zlen data - (start + cursor)) in
      data ← copy_into data (start + cursor) v;
      data ← put_offset data width i (u32 (recordStart + 1));
      append_values data start width (i + 1) (cursor + n) values
  end.

(** The bytes of the live records, or [None] on any inconsistency. *)
Fixpoint live_bytes (n : nat) (data : list byte) (used start i live : Z) : res (option Z) :=
  match n with
  | O => Ret (Some live)
  | S n =>
      table ← offset_table data;
      raw ← listOffset table (indexedListOffsetWidth data) i;
      if (raw =? 0) || (used <=? raw - 1) then Ret None else
      match readListUvarint data (start + (raw - 1)) with
      | Panic p => Panic p
      | Err _ => Ret None
      | Ret (length, off) =>
          if start + used - off <? length then Ret None
          else live_bytes n data used start (i + 1) (live + (off - (start + (raw - 1)) + length))
      end
  end.

Definition indexedListLiveBytes (data : list byte) (count used start : Z) : res (option Z) :=
  live_bytes (Z.to_nat count) data used start 0 0.

Fixpoint copy_live (n : nat) (data : list byte) (start i : Z) (table : list byte) (tableWidth : Z) (payload : list byte) (cursor : Z)
    : res (list byte * list byte * Z) :=
  match n with
  | O => Ret (table, payload, cursor)
  | S n =>
      src ← offset_table data;
      raw ← listOffset src (indexedListOffsetWidth data) i;
      let rec := start + (raw - 1) in
      '(length, off) ← match readListUvarint data rec with Err _ => Ret (0, rec) | r => r end;
      bytes ← or_panic (zslice data rec (off + length)) oob;
      let n' := Z.min (zlen bytes) (zlen payload - cursor) in
      payload ← copy_into payload cursor bytes;
      table ← putListOffset table tableWidth i (u32 (cursor + 1));
      copy_live n data start (i + 1) table tableWidth payload (cursor + n')
  end.

(** The filled table and payload, and the bytes written. *)
Definition copyIndexedListLive (data : list byte) (count start : Z) (table : list byte) (tableWidth : Z) (payload : list byte)
    : res (list byte * list byte * Z) :=
  copy_live (Z.to_nat count) data start 0 table tableWidth payload 0.

Fixpoint copy_offsets (n : nat) (data out : list byte) (oldWidth newWidth i : Z) : res (list byte) :=
  match n with
  | O => Ret out
  | S n =>
      src ← offset_table data;
      raw ← listOffset src oldWidth i;
      out ← put_offset out newWidth i raw;
      copy_offsets n data out oldWidth newWidth (i + 1)
  end.

(** The live records of [data] in [out], whose payload starts at [newStart]. *)
Definition copy_contents (data out : list byte) (m : list_meta) (newWidth newStart live : Z) : res (list byte) :=
  let oldWidth := indexedListOffsetWidth data in
  if live =? lm_used m then
    out ← (if newWidth =? oldWidth then
             table ← or_panic (zslice data indexedListFixed (indexedListFixed + lm_count m * newWidth)) oob;
             write_bytes out indexedListFixed table
           else copy_offsets (Z.to_nat (lm_count m)) data out oldWidth newWidth 0);
    payload ← or_panic (zslice data (lm_start m) (lm_start m + lm_used m)) oob;
    write_bytes out newStart payload
  else
    table ← or_panic (zslice out indexedListFixed newStart) oob;
    payload ← or_panic (zslice out newStart (newStart + live)) oob;
    '(table, payload, _) ← copyIndexedListLive data (lm_count m) (lm_start m) table newWidth payload;
    out ← write_bytes out indexedListFixed table;
    write_bytes out newStart payload.

(** [None] when the list fails validation. *)
Definition growIndexedListRaw (data : list byte) (values : list (list byte)) : res (option (Z * list byte)) :=
  match indexedListMeta data with
  | Err _ => Ret None
  | Panic p => Panic p
  | Ret m =>
      live ← indexedListLiveBytes data (lm_count m) (lm_used m) (lm_start m);
      match live with
      | None => Ret None
      | Some live =>
          let extra := record_bytes values in
          let newCount := lm_count m + zlen values in
          let newCapacity := if lm_capacity m <? newCount then nextListPow2 (newCount * 2) else lm_capacity m in
          let newUsed := live + extra in
          let headroom := if newUsed <? indexedListDoublingPayloadBytes then newUsed / 4 else newUsed in
          let headroom := if indexedListMaxPayloadHeadroom <? headroom then indexedListMaxPayloadHeadroom else headroom in
          let headroom := if headroom <? 512 then 512 else headroom in
          let dataCap := newUsed + headroom in
          let newWidth := indexedListWidthFor dataCap in
          let newStart := indexedListFixed + newCapacity * newWidth in
          let total := newStart + dataCap in
          if maxPackedListBytes <? total then Err errListLimit else
          fixed ← or_panic (zslice data 0 indexedListFixed) oob;
          out ← write_bytes (replicate (Z.to_nat total) x00) 0 fixed;
          out ← putIndexedListHeader out newWidth;
          out ← copy_contents data out m newWidth newStart live;
          '(out, cursor) ← append_values out newStart newWidth (lm_count m) live values;
          out ← put_le 4 out 3 newCount;
          out ← put_le 4 out 7 newCapacity;
          out ← put_le 4 out 11 cursor;
          Ret (Some (newCount, out))
      end
  end.

(** The new count, a rebuilt list if the room was too small, and the bytes left
    in [data]. *)
Definition indexedListAppend (data : list byte) (values : list (list byte)) : res (Z * option (list byte) * list byte) :=
  m ← indexedListMeta data;
  let width := indexedListOffsetWidth data in
  let slow :=
    let extra := record_bytes values in
    if (lm_capacity m <? lm_count m + zlen values) || (zlen data <? lm_start m + lm_used m + extra) then
      grown ← growIndexedListRaw data values;
      match grown with
      | Some (n, out) => Ret (n, Some out, data)
      | None =>
          elements ← decodeIndexedList data;
          let elements := elements ++ values in
          rebuilt ← encodeIndexedList elements;
          Ret (zlen elements, Some rebuilt, data)
      end
    else
      '(data, cursor) ← append_values data (lm_start m) width (lm_count m) (lm_used m) values;
      let count := lm_count m + zlen values in
      data ← put_le 4 data 3 count;
      data ← put_le 4 data 11 cursor;
      Ret (count, None, data) in
  match values with
  | [value] =>
      let length := put_uvarint (zlen value) in
      let extra := zlen length + zlen value in
      if (lm_count m + 1 <=? lm_capacity m) && (lm_start m + lm_used m + extra <=? zlen data) then
        let cursor := lm_start m + lm_used m in
        data ← write_bytes data cursor length;
        data ← write_bytes data (cursor + zlen length) value;
        data ← put_offset data width (lm_count m) (u32 (lm_used m + 1));
        data ← put_le 4 data 3 (lm_count m + 1);
        data ← put_le 4 data 11 (lm_used m + extra);
        Ret (lm_count m + 1, None, data)
      else slow
  | _ => slow
  end.

(** ** Indexed: trimming, popping, ranges *)

Definition trimIndexedList (data : list byte) : res (option (list byte)) :=
  match indexedListMeta data with
  | Err _ => Ret None
  | Panic p => Panic p
  | Ret m =>
      live ← indexedListLiveBytes data (lm_count m) (lm_used m) (lm_start m);
      match live with
      | None => Ret None
      | Some live =>
          let newCapacity := if lm_count m <? indexedListPromoteElements then indexedListPromoteElements else lm_count m in
          let newWidth := indexedListWidthFor live in
          let newStart := indexedListFixed + newCapacity * newWidth in
          let total := newStart + live in
          if zlen data <=? total then Ret None else
          fixed ← or_panic (zslice data 0 indexedListFixed) oob;
          out ← write_bytes (replicate (Z.to_nat total) x00) 0 fixed;
          out ← putIndexedListHeader out newWidth;
          out ← copy_contents data out m newWidth newStart live;
          out ← put_le 4 out 7 newCapacity;
          out ← put_le 4 out 11 live;
          Ret (Some out)
      end
  end.

(** The records [i] to [i + n - 1] with their spans, or [None]. *)
Fixpoint pop_spans (n : nat) (data : list byte) (used i : Z) : res (option (list (list byte * (Z * Z)))) :=
  match n with
  | O => Ret (Some [])
  | S n =>
      table ← offset_table data;
      raw ← listOffset table (indexedListOffsetWidth data) i;
      if (raw =? 0) || (used <=? raw - 1) then Ret None else
      match indexedListRecord data (raw - 1) with
      | Panic p => Panic p
      | Err _ => Ret None
      | Ret (v, end_) =>
          rest ← pop_spans n data used (i + 1);
          Ret (option_map (cons (v, (raw - 1, end_))) rest)
      end
  end.

(** Removed records at the tail, last first, give back their payload. *)
Fixpoint reclaim (used : Z) (spans : list (Z * Z)) : Z :=
  match spans with
  | (s, e) :: spans => if e =? used then reclaim s spans else used
  | [] => used
  end.

(** [clear(data[lo:hi])] *)
Definition clear_bytes (data : list byte) (lo hi : Z) : res (list byte) :=
  within lo hi (fun s => Ret (replicate (length s) x00)) data.

(** The popped values in pop order and the bytes left, or [None]. *)
Definition indexedListPop (data : list byte) (n : Z) (left : bool) : res (option (list (list byte) * list byte)) :=
  match indexedListMeta data with
  | Err _ => Ret None
  | Panic p => Panic p
  | Ret m =>
      if (n <=? 0) || (lm_count m <? n) || (lm_count m - n <? indexedListPopMinCount) then Ret None else
      let width := indexedListOffsetWidth data in
      let lo := if left then 0 else lm_count m - n in
      popped ← pop_spans (Z.to_nat n) data (lm_used m) lo;
      match popped with
      | None => Ret None
      | Some popped =>
          let values := fst <$> popped in
          let newCount := lm_count m - n in
          if left then
            data ← within indexedListFixed (indexedListFixed + lm_count m * width) (fun table =>
              rest ← or_panic (zslice table (n * width) (zlen table)) oob;
              clear_bytes (copy_at table 0 rest) (newCount * width) (zlen table)) data;
            data ← put_le 4 data 3 newCount;
            Ret (Some (values, data))
          else
            data ← clear_bytes data (indexedListFixed + newCount * width) (indexedListFixed + lm_count m * width);
            data ← put_le 4 data 11 (reclaim (lm_used m) (rev (snd <$> popped)));
            data ← put_le 4 data 3 newCount;
            Ret (Some (rev values, data))
      end
  end.

(** Positions from [start] to [stop] of a list of [n], both inclusive; negative
    ones count from the end. *)
Definition normalizeListRange (n start stop : Z) : option (Z * Z) :=
  let start := if start <? 0 then start + n else start in
  let stop := if stop <? 0 then stop + n else stop in
  let start := if start <? 0 then 0 else start in
  if (stop <? 0) || (n <=? start) || (stop <? start) then None
  else Some (start, if n <=? stop then n - 1 else stop).

Fixpoint indexed_range (n : nat) (data : list byte) (used i : Z) : res (list (list byte)) :=
  match n with
  | O => Ret []
  | S n =>
      table ← offset_table data;
      raw ← listOffset table (indexedListOffsetWidth data) i;
      if (raw =? 0) || (used <=? raw - 1) then Err "invalid indexed list index" else
      '(v, _) ← indexedListRecord data (raw - 1);
      l ← indexed_range n data used (i + 1);
      Ret (v :: l)
  end.

Definition indexedListRange (data : list byte) (startIdx stopIdx : Z) : res (list (list byte)) :=
  m ← indexedListMeta data;
  match normalizeListRange (lm_count m) startIdx stopIdx with
  | None => Ret []
  | Some (a, b) => indexed_range (Z.to_nat (b - a + 1)) data (lm_used m) a
  end.

(** ** Cold *)

Definition coldListHeader : list byte := [x53; x4c; x04].
Definition coldListFixed : Z := 11.
Definition coldListStride : Z := 8.
Definition coldListMinElements : Z := indexedListPromoteElements.
Definition errColdRecord : string := "invalid cold list record".

Definition isColdList (data : list byte) : bool := (coldListFixed <=? zlen data) && bool_decide (take 3 data = coldListHeader).

Definition coldListTableWidth (payload : Z) : Z := if payload <? Z.shiftl 1 16 then 2 else 4.
Definition coldListTableEntries (count : Z) : Z := (count + coldListStride - 1) / coldListStride.

Fixpoint put_cold (out : list byte) (width i cursor : Z) (elements : list (list byte)) : res (list byte) :=
  match elements with
  | [] => Ret out
  | v :: elements =>
      out ← (if i mod coldListStride =? 0
             then within coldListFixed (zlen out) (fun table => putListOffset table width (i / coldListStride) (u32 cursor)) out
             else Ret out);
      put_cold (appendListUvarint out (zlen v) ++ v) width (i + 1) (cursor + (listUvarintLen (zlen v) + zlen v)) elements
  end.

Definition encodeColdList (elements : list (list byte)) : res (list byte) :=
  let payload := record_bytes elements in
  let width := coldListTableWidth payload in
  let table := coldListTableEntries (zlen elements) * width in
  let total := coldListFixed + table + payload in
  if maxPackedListBytes <? total then Err errListLimit else
  let out := copy_at (replicate (Z.to_nat (coldListFixed + table)) x00) 0 coldListHeader in
  out ← put_le 4 out 3 (zlen elements);
  out ← put_le 4 out 7 payload;
  put_cold out width 0 0 elements.

Record cold_meta := mkColdMeta { cm_count : Z; cm_payload : Z; cm_width : Z; cm_start : Z }.

Definition coldListMeta (data : list byte) : res cold_meta :=
  if negb (isColdList data) then Err "invalid cold list" else
  count ← get_le 4 data 3;
  payload ← get_le 4 data 7;
  let width := coldListTableWidth payload in
  let dataStart := coldListFixed + coldListTableEntries count * width in
  if (count <? 0) || (payload <? 0) || negb (dataStart + payload =? zlen data) then Err "invalid cold list"
  else Ret (mkColdMeta count payload width dataStart).

(** The length at [pos] of the payload and the bytes it takes. *)
Definition cold_length (data : list byte) (pos dataStart payload : Z) : res (Z * Z) :=
  s ← or_panic (zslice data (dataStart + pos) (dataStart + payload)) oob;
  let '(length, n) := uvarint s in
  if (n <=? 0) || (payload - pos - n <? length) then Err errColdRecord else Ret (length, n).

Fixpoint cold_skip (n : nat) (data : list byte) (pos dataStart payload : Z) : res Z :=
  match n with
  | O => Ret pos
  | S n => '(length, k) ← cold_length data pos dataStart payload; cold_skip n data (pos + (k + length)) dataStart payload
  end.

Definition coldListSeek (data : list byte) (index width dataStart payload : Z) : res Z :=
  table ← or_panic (zslice data coldListFixed (zlen data)) oob;
  pos ← listOffset table width (index / coldListStride);
  pos ← cold_skip (Z.to_nat (index mod coldListStride)) data pos dataStart payload;
  if (pos <? 0) || (payload <=? pos) then Err "invalid cold list offset" else Ret pos.

Definition coldListRecord (data : list byte) (pos dataStart payload : Z) : res (list byte * Z) :=
  '(length, n) ← cold_length data pos dataStart payload;
  let begin := dataStart + pos + n in
  v ← or_panic (zslice data begin (begin + length)) oob;
  Ret (v, pos + n + length).

Definition coldListElement (data : list byte) (index : Z) : res (option (list byte)) :=
  m ← coldListMeta data;
  let index := if index <? 0 then index + cm_count m else index in
  if (index <? 0) || (cm_count m <=? index) then Ret None else
  pos ← coldListSeek data index (cm_width m) (cm_start m) (cm_payload m);
  '(v, _) ← coldListRecord data pos (cm_start m) (cm_payload m);
  Ret (Some v).

Fixpoint cold_records (n : nat) (data : list byte) (pos dataStart payload : Z) : res (list (list byte) * Z) :=
  match n with
  | O => Ret ([], pos)
  | S n =>
      '(v, pos) ← coldListRecord data pos dataStart payload;
      '(l, pos) ← cold_records n data pos dataStart payload;
      Ret (v :: l, pos)
  end.

Definition coldListRange (data : list byte) (startIdx stopIdx : Z) : res (list (list byte)) :=
  m ← coldListMeta data;
  match normalizeListRange (cm_count m) startIdx stopIdx with
  | None => Ret []
  | Some (a, b) =>
      pos ← coldListSeek data a (cm_width m) (cm_start m) (cm_payload m);
      '(l, _) ← cold_records (Z.to_nat (b - a + 1)) data pos (cm_start m) (cm_payload m);
      Ret l
  end.

Definition decodeColdList (data : list byte) : res (list (list byte)) :=
  m ← coldListMeta data;
  '(l, pos) ← cold_records (Z.to_nat (cm_count m)) data 0 (cm_start m) (cm_payload m);
  if negb (pos =? cm_payload m) then Err "invalid cold list trailing data" else Ret l.

Definition coldFromIndexedList (data : list byte) : res (option (list byte)) :=
  match indexedListMeta data with
  | Err _ => Ret None
  | Panic p => Panic p
  | Ret m =>
      if lm_count m <? coldListMinElements then Ret None else
      match decodeIndexedList data with
      | Err _ => Ret None
      | Panic p => Panic p
      | Ret elements =>
          match encodeColdList elements with
          | Err _ => Ret None
          | Panic p => Panic p
          | Ret cold => Ret (Some cold)
          end
      end
  end.
