(* ===== verification/ListFacts.v ===== *)
(** * Lists: facts about the layouts

    [packed], [indexed] and [cold] say when bytes hold a list in a layout. Each
    reader returns what the list says, and each writer leaves bytes that hold
    the new list. *)
From S2P Require Import Prelude Slices ListPack.
Set Default Proof Using "Type".

(** ** Records *)

Definition record (v : list byte) : list byte := put_uvarint (zlen v) ++ v.
Definition records (L : list (list byte)) : list byte := concat (record <$> L).
Definition small (L : list (list byte)) : Prop := Forall (fun v => zlen v < 2 ^ 64) L.

Lemma zlen_record v : zlen (record v) = zlen (put_uvarint (zlen v)) + zlen v.
Proof. apply zlen_app. Qed.

Lemma record_pos v : 1 ≤ zlen (record v).
Proof. rewrite zlen_record. pose proof (put_uvarint_len_bound (zlen v)). pose proof (zlen_nonneg v). lia. Qed.

Lemma records_cons v L : records (v :: L) = record v ++ records L.
Proof. done. Qed.

Lemma records_app L K : records (L ++ K) = records L ++ records K.
Proof. unfold records. by rewrite fmap_app, concat_app. Qed.

Lemma records_small L n : zlen (records L) ≤ n → n < 2 ^ 64 → small L.
Proof.
  intros H Hn. induction L as [|v L IH]; [constructor|]. rewrite records_cons, zlen_app, zlen_record in H.
  pose proof (put_uvarint_len_bound (zlen v)). pose proof (zlen_nonneg (records L)). pose proof (zlen_nonneg v).
  constructor; [lia|apply IH; lia].
Qed.

Lemma records_count L : zlen L ≤ zlen (records L).
Proof.
  induction L as [|v L IH]; [done|]. rewrite records_cons, zlen_app, zlen_cons. pose proof (record_pos v). lia.
Qed.

Lemma uvarint_len_ok f n : f ≠ O → 0 ≤ n < 128 ^ Z.of_nat f → uvarint_len f n = zlen (put_uvarint_fuel f n).
Proof.
  revert n. induction f as [|f IH]; intros n Hf Hn; [done|]. cbn [uvarint_len put_uvarint_fuel].
  destruct (Z.leb_spec 128 n); [|done]. rewrite zlen_cons, Z.shiftr_div_pow2 by lia.
  change (2 ^ 7) with 128. rewrite <- IH; [done| |].
  - intros ->. change (128 ^ Z.of_nat 1) with 128 in Hn. lia.
  - replace (Z.of_nat (S f)) with (1 + Z.of_nat f) in Hn by lia. rewrite Z.pow_add_r in Hn by lia.
    split; [apply Z.div_pos; lia|]. apply Z.div_lt_upper_bound; lia.
Qed.

Lemma listUvarintLen_ok n : 0 ≤ n < 2 ^ 64 → listUvarintLen n = zlen (put_uvarint n).
Proof. intros Hn. apply uvarint_len_ok; [done|]. change (128 ^ Z.of_nat 10) with (2 ^ 70). lia. Qed.

Lemma record_bytes_ok L : small L → record_bytes L = zlen (records L).
Proof.
  intros H. induction H as [|v L Hv _ IH]; [done|]. unfold record_bytes in *. rewrite lsum_cons, records_cons, zlen_app, zlen_record, IH.
  pose proof (zlen_nonneg v). rewrite listUvarintLen_ok by lia. done.
Qed.

Lemma readListUvarint_ok a n c off : off = zlen a → 0 ≤ n < 2 ^ 64 →
  readListUvarint (a ++ put_uvarint n ++ c) off = Ret (n, off + zlen (put_uvarint n)).
Proof.
  intros -> Hn. unfold readListUvarint. pose proof (put_uvarint_len_bound n). pose proof (zlen_nonneg c).
  rewrite (proj2 (Z.leb_gt _ _)) by (rewrite !zlen_app; lia).
  rewrite zslice_to_end by done. cbn [or_panic mbind res_bind]. rewrite uvarint_put by done.
  by rewrite (proj2 (Z.leb_gt _ _)) by lia.
Qed.

Lemma read_record a v c off : off = zlen a → zlen v < 2 ^ 64 →
  readListUvarint (a ++ record v ++ c) off = Ret (zlen v, off + zlen (put_uvarint (zlen v))).
Proof. intros Ha Hv. unfold record. rewrite <- app_assoc. apply readListUvarint_ok; [done|]. pose proof (zlen_nonneg v). lia. Qed.

Lemma slice_record a v c off : off = zlen a + zlen (put_uvarint (zlen v)) → zslice (a ++ record v ++ c) off (off + zlen v) = Some v.
Proof.
  intros ->. unfold record. replace (a ++ (put_uvarint (zlen v) ++ v) ++ c) with ((a ++ put_uvarint (zlen v)) ++ v ++ c) by (by rewrite <- !app_assoc).
  apply zslice_app; rewrite zlen_app; lia.
Qed.

Lemma list_record_ok e a v c off : off = zlen a → zlen v < 2 ^ 64 →
  list_record e (a ++ record v ++ c) off = Ret (v, off + zlen (record v)).
Proof.
  intros Ha Hv. unfold list_record. rewrite read_record by done. cbn [with_err mbind res_bind].
  rewrite (proj2 (Z.ltb_ge _ _)) by (rewrite !zlen_app, zlen_record; pose proof (zlen_nonneg c); lia).
  rewrite slice_record by lia. cbn [or_panic mbind res_bind]. rewrite zlen_record. do 2 f_equal. lia.
Qed.

(** ** Packed *)

(** The element at an index, negative ones from the end. *)
Definition element_at (L : list (list byte)) (index : Z) : option (list byte) := znth L (if index <? 0 then index + zlen L else index).

Definition list_range (L : list (list byte)) (start stop : Z) : list (list byte) :=
  match normalizeListRange (zlen L) start stop with
  | None => []
  | Some (a, b) => take (Z.to_nat (b - a + 1)) (drop (Z.to_nat a) L)
  end.

Definition packed (L : list (list byte)) : list byte := packedListHeader ++ put_uvarint (zlen L) ++ records L.
Definition packed_ok (L : list (list byte)) : Prop := zlen (packed L) ≤ maxPackedListBytes.

Lemma packed_bounds L : packed_ok L → 4 + zlen L ≤ maxPackedListBytes ∧ zlen (records L) ≤ maxPackedListBytes ∧ small L.
Proof.
  unfold packed_ok, packed. rewrite !zlen_app. change (zlen packedListHeader) with 3. intros H.
  pose proof (put_uvarint_len_bound (zlen L)). pose proof (records_count L). split_and!; [lia..|].
  apply (records_small L maxPackedListBytes); [lia|done].
Qed.

Lemma packedListMeta_ok L : packed_ok L → packedListMeta (packed L) = Ret (zlen L, 3 + zlen (put_uvarint (zlen L))).
Proof.
  intros H. pose proof (packed_bounds L H) as (Hc&_&_). unfold packedListMeta.
  change (take 3 (packed L)) with packedListHeader.
  rewrite (proj2 (Z.ltb_ge _ _)) by (unfold packed; rewrite zlen_app; pose proof (zlen_nonneg (put_uvarint (zlen L) ++ records L)); lia).
  cbn [orb]. rewrite bool_decide_true by done. cbn [negb].
  unfold packed. change (zlen packedListHeader) with 3. rewrite readListUvarint_ok; [|done|change maxPackedListBytes with (2 ^ 25) in Hc; pose proof (zlen_nonneg L); lia].
  cbn [mbind res_bind]. by rewrite (proj2 (Z.ltb_ge _ _)) by lia.
Qed.

Lemma read_records_ok L pre post off : small L → off = zlen pre →
  read_records (length L) (pre ++ records L ++ post) off = Ret (L, off + zlen (records L)).
Proof.
  intros H. revert pre off. induction H as [|v L Hv _ IH]; intros pre off Hp; [cbn [length read_records]; change (zlen (records [])) with 0; by rewrite Z.add_0_r|].
  cbn [length read_records]. rewrite records_cons, <- app_assoc, list_record_ok by done. cbn [mbind res_bind].
  rewrite app_assoc, IH by (rewrite zlen_app; lia). cbn [mbind res_bind]. rewrite zlen_app. do 2 f_equal. lia.
Qed.

Lemma skip_records_ok L pre post off : small L → off = zlen pre →
  skip_records (length L) (pre ++ records L ++ post) off = Ret (off + zlen (records L)).
Proof.
  intros H. revert pre off. induction H as [|v L Hv _ IH]; intros pre off Hp; [cbn [length skip_records]; change (zlen (records [])) with 0; by rewrite Z.add_0_r|].
  cbn [length skip_records]. rewrite records_cons, <- app_assoc, read_record by done. cbn [with_err mbind res_bind].
  rewrite (proj2 (Z.ltb_ge _ _)) by (rewrite !zlen_app, zlen_record; pose proof (zlen_nonneg (records L)); pose proof (zlen_nonneg post); lia).
  rewrite app_assoc, IH by (rewrite zlen_app, zlen_record; lia). rewrite zlen_app, zlen_record. f_equal. lia.
Qed.

Lemma packed_nth_ok L pre post off i index : small L → off = zlen pre → i ≤ index < i + zlen L →
  packed_nth (length L) (pre ++ records L ++ post) off i index = Ret (L !! Z.to_nat (index - i)).
Proof.
  intros H. revert pre off i. induction H as [|v L Hv _ IH]; intros pre off i Hp Hi; [rewrite zlen_nil in Hi; lia|].
  rewrite zlen_cons in Hi. cbn [length packed_nth]. rewrite records_cons, <- app_assoc, list_record_ok by done. cbn [mbind res_bind].
  destruct (Z.eqb_spec i index) as [->|Hne]; [by rewrite Z.sub_diag|].
  rewrite app_assoc, IH by (rewrite ?zlen_app; lia). f_equal. by replace (Z.to_nat (index - i)) with (S (Z.to_nat (index - (i + 1)))) by lia.
Qed.

Lemma packed_split L : packed L = (packedListHeader ++ put_uvarint (zlen L)) ++ records L ++ [].
Proof. unfold packed. by rewrite app_nil_r, app_assoc. Qed.

Lemma packedListElement_ok L index : packed_ok L → packedListElement (packed L) index = Ret (element_at L index).
Proof.
  intros H. unfold packedListElement, element_at. rewrite packedListMeta_ok by done. cbn [mbind res_bind].
  set (i := if index <? 0 then index + zlen L else index).
  destruct (Z.ltb_spec i 0); cbn [orb]; [unfold znth; by rewrite (proj2 (Z.leb_gt _ _)) by lia|].
  destruct (Z.leb_spec (zlen L) i) as [Hge|Hlt]; [rewrite znth_lookup by lia; rewrite lookup_ge_None_2; [done|unfold zlen in *; lia]|].
  rewrite to_nat_zlen, packed_split, packed_nth_ok; [|by apply packed_bounds|by rewrite zlen_app|lia].
  rewrite Z.sub_0_r. by rewrite znth_lookup by lia.
Qed.

Lemma decodePackedList_ok L : packed_ok L → decodePackedList (packed L) = Ret L.
Proof.
  intros H. unfold decodePackedList. rewrite packedListMeta_ok by done. cbn [mbind res_bind].
  rewrite to_nat_zlen, packed_split, read_records_ok; [|by apply packed_bounds|by rewrite zlen_app]. cbn [mbind res_bind].
  rewrite (proj2 (Z.eqb_eq _ _)); [done|]. rewrite !zlen_app, zlen_nil. change (zlen packedListHeader) with 3. lia.
Qed.

(** The bound the encoders test before they write. *)
Definition list_bound (L : list (list byte)) : Z := lsum (fun v => MaxVarintLen64 + zlen v) L.
Definition packs (L : list (list byte)) : bool := 13 + list_bound L <=? maxPackedListBytes.

Lemma list_bound_nonneg L : 0 ≤ list_bound L.
Proof. induction L as [|v L IH]; [done|]. unfold list_bound, MaxVarintLen64 in *. rewrite lsum_cons. pose proof (zlen_nonneg v). lia. Qed.

Lemma records_bound L : zlen (records L) ≤ list_bound L.
Proof.
  induction L as [|v L IH]; [done|]. unfold list_bound, MaxVarintLen64 in *.
  rewrite lsum_cons, records_cons, zlen_app, zlen_record. pose proof (put_uvarint_len_bound (zlen v)). lia.
Qed.

Lemma list_capacity_eq c L : L = [] ∨ c + list_bound L ≤ maxPackedListBytes → list_capacity c L = Ret (c + list_bound L).
Proof.
  revert c. induction L as [|v L IH]; intros c H; [change (list_bound []) with 0; by rewrite Z.add_0_r|].
  destruct H as [H|H]; [done|].
  pose proof (list_bound_nonneg L). unfold list_bound in *. rewrite lsum_cons in H. cbn [list_capacity]. cbv zeta.
  rewrite (proj2 (Z.ltb_ge _ _)) by lia. rewrite lsum_cons, IH by (right; lia). f_equal. lia.
Qed.

Lemma list_capacity_err c L : L ≠ [] → maxPackedListBytes < c + list_bound L → list_capacity c L = Err errListLimit.
Proof.
  revert c. induction L as [|v L IH]; intros c Hn H; [done|]. unfold list_bound in *. rewrite lsum_cons in H. cbn [list_capacity]. cbv zeta.
  destruct (Z.ltb_spec maxPackedListBytes (c + MaxVarintLen64 + zlen v)); [done|].
  apply IH; [|lia]. intros ->. cbn [lsum foldr] in H. lia.
Qed.

Lemma append_records_eq out L : append_records out L = out ++ records L.
Proof.
  revert out. induction L as [|v L IH]; intros out; [by rewrite app_nil_r|].
  unfold append_records in *. cbn [foldl]. rewrite IH, records_cons. unfold record, appendListUvarint. by rewrite <- !app_assoc.
Qed.

Lemma packs_ok L : packs L = true → packed_ok L.
Proof.
  unfold packs, packed_ok, packed. intros H%Z.leb_le. rewrite !zlen_app. change (zlen packedListHeader) with 3.
  pose proof (records_bound L). pose proof (put_uvarint_len_bound (zlen L)). lia.
Qed.

Lemma encodePackedList_eq L : encodePackedList L = if packs L then Ret (packed L) else Err errListLimit.
Proof.
  unfold encodePackedList. change (zlen packedListHeader + MaxVarintLen64) with 13. destruct (packs L) eqn:E.
  - pose proof (packs_ok L E) as Hok. unfold packs in E. apply Z.leb_le in E. rewrite list_capacity_eq by (by right). cbn [mbind res_bind].
    rewrite append_records_eq. unfold appendListUvarint. rewrite <- app_assoc. fold (packed L).
    by rewrite (proj2 (Z.ltb_ge _ _)) by done.
  - unfold packs in E. apply Z.leb_gt in E. rewrite list_capacity_err; [done| |done]. intros ->. cbn in E. done.
Qed.

Lemma appendPackedListRight_eq L values : packed_ok L → values ≠ [] →
  appendPackedListRight (packed L) values =
    if 13 + zlen (records L) + list_bound values <=? maxPackedListBytes
    then Ret (zlen (L ++ values), packed (L ++ values)) else Err errListLimit.
Proof.
  intros H Hv. unfold appendPackedListRight. rewrite packedListMeta_ok by done. cbn [mbind res_bind].
  rewrite to_nat_zlen. rewrite packed_split at 1. rewrite skip_records_ok; [|by apply packed_bounds|by rewrite zlen_app]. cbn [mbind res_bind].
  assert (Hlen : zlen (packed L) = 3 + zlen (put_uvarint (zlen L)) + zlen (records L)).
  { unfold packed. rewrite !zlen_app. change (zlen packedListHeader) with 3. lia. }
  rewrite (proj2 (Z.eqb_eq _ _)) by lia. cbn [negb]. rewrite Hlen.
  replace (zlen packedListHeader + MaxVarintLen64 + _) with (13 + zlen (records L)) by (change (zlen packedListHeader + MaxVarintLen64) with 13; lia).
  destruct (Z.leb_spec (13 + zlen (records L) + list_bound values) maxPackedListBytes) as [Hle|Hgt].
  - rewrite list_capacity_eq by (right; lia). cbn [mbind res_bind].
    rewrite packed_split, app_nil_r, zslice_to_end; [|rewrite zlen_app; done|rewrite !zlen_app; change (zlen packedListHeader) with 3; lia].
    cbn [or_panic mbind res_bind]. rewrite append_records_eq. unfold appendListUvarint.
    replace ((_ ++ records L) ++ records values) with (packed (L ++ values)) by (unfold packed; rewrite records_app, zlen_app, <- !app_assoc; done).
    rewrite zlen_app. rewrite (proj2 (Z.ltb_ge _ _)); [done|].
    unfold packed. rewrite !zlen_app, records_app, zlen_app. change (zlen packedListHeader) with 3.
    pose proof (records_bound values). pose proof (put_uvarint_len_bound (zlen L + zlen values)). lia.
  - by rewrite list_capacity_err by (done || lia).
Qed.
