(* ===== verification/ListIndexed.v ===== *)
(** * Lists: the layout with a table of offsets

    The payload is a sequence of records with gaps (records a pop left behind)
    between them; the table holds where each record starts. *)
From S2P Require Import Prelude Slices ListPack ListFacts.
Set Default Proof Using "Type".

(** ** The layout *)

(** A gap and the value of the record after it. *)
Abbreviation slot := (list byte * list byte)%type.

Definition slot_bytes (p : slot) : list byte := p.1 ++ record p.2.
Definition body (ss : list slot) : list byte := concat (slot_bytes <$> ss).
Definition dense (L : list (list byte)) : list slot := (fun v => ([], v)) <$> L.

(** Where the records start. *)
Fixpoint offsets (base : Z) (ss : list slot) : list Z :=
  match ss with
  | [] => []
  | p :: ss => (base + zlen p.1) :: offsets (base + zlen (slot_bytes p)) ss
  end.

Definition table (w : Z) (os : list Z) : list byte := concat ((fun o => le_put (Z.to_nat w) (o + 1)) <$> os).
Definition list_header (w : Z) : list byte := if w =? 2 then indexedListHeaderNarrow else indexedListHeader.
Definition fixed_part (w count cap used : Z) : list byte := list_header w ++ le_put 4 count ++ le_put 4 cap ++ le_put 4 used.
Definition width_ok (w : Z) : Prop := w = 2 ∨ w = 4.

Definition indexed_data (w cap : Z) (ss : list slot) (gap rest tail : list byte) : list byte :=
  fixed_part w (zlen ss) cap (zlen (body ss ++ gap)) ++ (table w (offsets 0 ss) ++ rest) ++ (body ss ++ gap) ++ tail.

Record indexed_ok (w cap : Z) (ss : list slot) (gap rest tail : list byte) : Prop := {
  ix_width : width_ok w;
  ix_cap : 32 ≤ cap;
  ix_count : zlen ss ≤ cap;
  ix_table : zlen (table w (offsets 0 ss) ++ rest) = cap * w;
  ix_narrow : w = 2 → zlen (body ss ++ gap) + zlen tail ≤ indexedListNarrowMaxPayload;
  ix_size : zlen (indexed_data w cap ss gap rest tail) ≤ maxPackedListBytes;
}.

Definition indexed (data : list byte) (L : list (list byte)) : Prop :=
  ∃ w cap ss gap rest tail, indexed_ok w cap ss gap rest tail ∧ data = indexed_data w cap ss gap rest tail ∧ L = ss.*2.

(** ** Sizes *)

Lemma parts_len {A} (l : list A) n : (n ≤ length l)%nat → ∃ a b, l = a ++ b ∧ length a = n ∧ length b = (length l - n)%nat.
Proof. intros H. exists (take n l), (drop n l). rewrite take_drop, length_take, length_drop. split_and!; [done|lia..]. Qed.

Lemma zsplit {A} (l : list A) n : 0 ≤ n ≤ zlen l → ∃ a b, l = a ++ b ∧ zlen a = n ∧ zlen b = zlen l - n.
Proof. intros H. destruct (parts_len l (Z.to_nat n)) as (a&b&?&?&?); [unfold zlen in *; lia|]. exists a, b. unfold zlen in *. split_and!; [done|lia..]. Qed.

Lemma length_of_zlen {A B} (a : list A) (b : list B) : zlen a = zlen b → length a = length b.
Proof. unfold zlen. lia. Qed.

Lemma width_pow w : width_ok w → 2 ^ (8 * w) ≤ 2 ^ 32.
Proof. intros [->| ->]; done. Qed.

Lemma zlen_fixed w count cap used : zlen (fixed_part w count cap used) = 15.
Proof. unfold fixed_part, list_header. rewrite !zlen_app, !zlen_le_put. by destruct (w =? 2). Qed.

Lemma body_app ss ss' : body (ss ++ ss') = body ss ++ body ss'.
Proof. unfold body. by rewrite fmap_app, concat_app. Qed.
Lemma body_cons p ss : body (p :: ss) = slot_bytes p ++ body ss.
Proof. done. Qed.
Lemma body_dense L : body (dense L) = records L.
Proof. unfold body, dense, records. by rewrite <- list_fmap_compose. Qed.
Lemma dense_values L : (dense L).*2 = L.
Proof. unfold dense. rewrite <- list_fmap_compose. apply list_fmap_id. Qed.

Lemma length_offsets base ss : length (offsets base ss) = length ss.
Proof. revert base. induction ss; intros; cbn; auto. Qed.
Lemma zlen_offsets base ss : zlen (offsets base ss) = zlen ss.
Proof. unfold zlen. by rewrite length_offsets. Qed.
Lemma zlen_dense L : zlen (dense L) = zlen L.
Proof. unfold zlen, dense. by rewrite length_fmap. Qed.
Lemma zlen_values (ss : list slot) : zlen ss.*2 = zlen ss.
Proof. unfold zlen. by rewrite length_fmap. Qed.
Lemma offsets_app base ss ss' : offsets base (ss ++ ss') = offsets base ss ++ offsets (base + zlen (body ss)) ss'.
Proof.
  revert base. induction ss as [|p ss IH]; intros base; [cbn [app offsets]; f_equal; change (zlen (body [])) with 0; lia|].
  cbn [app offsets]. rewrite IH, body_cons, zlen_app. by rewrite Z.add_assoc.
Qed.

Lemma table_app w os os' : table w (os ++ os') = table w os ++ table w os'.
Proof. unfold table. by rewrite fmap_app, concat_app. Qed.
Lemma zlen_table w os : 0 ≤ w → zlen (table w os) = zlen os * w.
Proof.
  intros Hw. induction os as [|o os IH]; [done|]. change (o :: os) with ([o] ++ os). rewrite table_app, !zlen_app, IH.
  unfold table. cbn [fmap list_fmap concat]. rewrite app_nil_r, zlen_le_put. unfold zlen. cbn [length]. lia.
Qed.

Lemma zlen_records_values ss : zlen (records ss.*2) ≤ zlen (body ss).
Proof.
  induction ss as [|p ss IH]; [done|]. rewrite fmap_cons, records_cons, body_cons, !zlen_app. unfold slot_bytes. rewrite zlen_app.
  pose proof (zlen_nonneg p.1). lia.
Qed.

(** ** Reading and writing the table *)

Lemma listOffset_raw w vs rest i v : width_ok w → vs !! i = Some v → 0 ≤ v < 2 ^ (8 * w) →
  listOffset (concat (le_put (Z.to_nat w) <$> vs) ++ rest) w (Z.of_nat i) = Ret v.
Proof.
  intros Hw Hi Hv. rewrite <- (take_drop_middle vs i v Hi), fmap_app, concat_app, <- app_assoc, fmap_cons. cbn [concat]. rewrite <- app_assoc.
  assert (Hlt : zlen (concat (le_put (Z.to_nat w) <$> take i vs)) = Z.of_nat i * w).
  { assert (Hc : ∀ l, zlen (concat (le_put (Z.to_nat w) <$> l)) = zlen l * w).
    { induction l as [|x l IH]; [done|]. rewrite fmap_cons. cbn [concat]. rewrite zlen_app, zlen_le_put, zlen_cons, IH. destruct Hw; lia. }
    rewrite Hc. apply lookup_lt_Some in Hi. unfold zlen. rewrite length_take. f_equal. lia. }
  unfold listOffset. destruct Hw as [-> | ->]; cbn [Z.eqb Pos.eqb]; rewrite get_le_app by (rewrite ?length_le_put, ?Hlt; done);
    rewrite le_get_put; f_equal; apply Z.mod_small; done.
Qed.

Lemma listOffset_ok w os rest i o : width_ok w → os !! i = Some o → 0 ≤ o + 1 < 2 ^ (8 * w) →
  listOffset (table w os ++ rest) w (Z.of_nat i) = Ret (o + 1).
Proof.
  intros Hw Hi Ho. unfold table. rewrite (list_fmap_compose (fun o => o + 1) (le_put (Z.to_nat w))). apply listOffset_raw; [done| |done].
  by rewrite list_lookup_fmap, Hi.
Qed.

Lemma putListOffset_ok w T c R v i : width_ok w → zlen T = i * w → zlen c = w → 0 ≤ v < 2 ^ (8 * w) →
  putListOffset (T ++ c ++ R) w i v = Ret (T ++ le_put (Z.to_nat w) v ++ R).
Proof.
  intros Hw HT Hc Hv. unfold putListOffset. destruct Hw as [-> | ->]; cbn [Z.eqb Pos.eqb].
  - unfold u16. rewrite (Z.mod_small v) by done. rewrite put_le_app; [done|by rewrite HT|unfold zlen in Hc; lia].
  - rewrite put_le_app; [done|by rewrite HT|unfold zlen in Hc; lia].
Qed.

Lemma put_offset_ok F w T c R P v i : zlen F = 15 → width_ok w → zlen T = i * w → zlen c = w → 0 ≤ v < 2 ^ (8 * w) →
  put_offset (F ++ (T ++ c ++ R) ++ P) w i v = Ret (F ++ (T ++ le_put (Z.to_nat w) v ++ R) ++ P).
Proof.
  intros HF Hw HT Hc Hv. unfold put_offset. apply within_tail; [done| |].
  - rewrite <- !app_assoc. by apply putListOffset_ok.
  - rewrite !length_app, length_le_put. unfold zlen in Hc. lia.
Qed.

Lemma offset_table_ok F X : zlen F = 15 → offset_table (F ++ X) = Ret X.
Proof. intros HF. unfold offset_table. by rewrite zslice_to_end. Qed.

(** Records appended behind [B], with their offsets behind [T]. *)
Lemma append_values_ok vs : ∀ F T R B tail w i cursor start,
  zlen F = 15 → width_ok w → zlen T = i * w → cursor = zlen B → start = 15 + zlen T + zlen R → small vs →
  zlen vs * w ≤ zlen R → zlen (records vs) ≤ zlen tail → zlen B + zlen (records vs) < 2 ^ (8 * w) →
  ∃ R' tail', append_values (F ++ (T ++ R) ++ B ++ tail) start w i cursor vs =
      Ret (F ++ ((T ++ table w (offsets (zlen B) (dense vs))) ++ R') ++ (B ++ records vs) ++ tail', cursor + zlen (records vs))
    ∧ zlen R' = zlen R - zlen vs * w ∧ zlen tail' = zlen tail - zlen (records vs).
Proof.
  induction vs as [|v vs IH]; intros F T R B tail w i cursor start HF Hw HT -> -> Hs HR Ht Hb.
  { exists R, tail. change (records []) with (@nil byte). cbn [append_values]. rewrite !app_nil_r. change (table w _) with (@nil byte).
    rewrite ?app_nil_r, zlen_nil. split_and!; [|change (zlen (@nil (list byte))) with 0; lia..]. do 2 f_equal. lia. }
  inversion Hs as [|? ? Hv Hs']; subst. rewrite records_cons, zlen_app in *. rewrite zlen_cons in HR. pose proof (record_pos v) as Hp.
  pose proof (zlen_nonneg (records vs)). pose proof (zlen_nonneg vs). pose proof (zlen_nonneg B). pose proof (width_pow w Hw) as Hpow.
  assert (Hw0 : 0 < w) by (destruct Hw; lia).
  destruct (zsplit R w) as (c&R1&->&Hc&HR1); [nia|].
  destruct (zsplit tail (zlen (record v))) as (z&t1&->&Hz&Ht1); [lia|].
  destruct (zsplit z (zlen (put_uvarint (zlen v)))) as (z1&z2&->&Hz1&Hz2); [rewrite zlen_record in Hz; pose proof (zlen_nonneg v); pose proof (zlen_nonneg (put_uvarint (zlen v))); lia|].
  cbn [append_values]. cbv zeta.
  rewrite (app_assoc (T ++ c ++ R1)), (app_assoc F).
  set (pre := F ++ (T ++ c ++ R1) ++ B).
  assert (Hpre : zlen pre = 15 + zlen T + zlen (c ++ R1) + zlen B) by (unfold pre; rewrite !zlen_app in *; lia).
  rewrite <- (app_assoc z1). rewrite write_bytes_app; [|lia|by apply length_of_zlen]. cbn [mbind res_bind].
  rewrite (app_assoc pre). rewrite copy_into_app; [|rewrite (zlen_app pre); lia|apply length_of_zlen; rewrite zlen_record in Hz; lia]. cbn [mbind res_bind].
  rewrite Z.min_l by (rewrite !zlen_app; rewrite zlen_record in Hz; pose proof (zlen_nonneg t1); lia).
  rewrite u32_id by lia.
  replace ((pre ++ put_uvarint (zlen v)) ++ v ++ t1) with (F ++ (T ++ c ++ R1) ++ (B ++ record v) ++ t1)
    by (unfold pre, record; by rewrite <- !app_assoc).
  rewrite put_offset_ok; [|done|done|done|done|lia]. cbn [mbind res_bind].
  replace (T ++ le_put (Z.to_nat w) (zlen B + 1) ++ R1) with ((T ++ le_put (Z.to_nat w) (zlen B + 1)) ++ R1) by (by rewrite <- app_assoc).
  destruct (IH F (T ++ le_put (Z.to_nat w) (zlen B + 1)) R1 (B ++ record v) t1 w (i + 1) (zlen (B ++ record v)) (15 + zlen T + zlen (c ++ R1)))
    as (R'&t'&E&HR'&Ht'); try done.
  - rewrite zlen_app, zlen_le_put. lia.
  - rewrite !zlen_app, zlen_le_put in *. lia.
  - nia.
  - lia.
  - rewrite zlen_app. lia.
  - exists R', t'. rewrite zlen_record in *. replace (zlen B + zlen (put_uvarint (zlen v)) + zlen v) with (zlen (B ++ record v)) by (rewrite zlen_app, zlen_record; lia).
    rewrite E. split_and!; [|rewrite zlen_cons, !zlen_app in *; lia|rewrite !zlen_app in *; lia].
    cbn [dense fmap list_fmap offsets]. change (slot_bytes ([], v)) with (record v). cbn [fst]. rewrite zlen_nil, Z.add_0_r, zlen_app.
    change (zlen B :: ?o) with ([zlen B] ++ o). rewrite table_app. unfold table at 2. cbn [fmap list_fmap concat]. rewrite !app_nil_r, <- !app_assoc.
    do 2 f_equal. rewrite zlen_record. lia.
Qed.

(** ** Reading *)

(** The values of the slots behind [base] with the spans of their records. *)
Fixpoint spans (base : Z) (ss : list slot) : list (list byte * (Z * Z)) :=
  match ss with
  | [] => []
  | p :: ss => (p.2, (base + zlen p.1, base + zlen (slot_bytes p))) :: spans (base + zlen (slot_bytes p)) ss
  end.

Lemma spans_values base ss : (spans base ss).*1 = ss.*2.
Proof. revert base. induction ss as [|p ss IH]; intros base; [done|]. cbn [spans]. by rewrite !fmap_cons, IH. Qed.

Lemma zlen_slot p : zlen (slot_bytes p) = zlen p.1 + zlen (record p.2).
Proof. apply zlen_app. Qed.

(** The fields in front of the table, whatever follows. *)
Lemma header_is w X : width_ok w → 12 ≤ zlen X → isIndexedList (list_header w ++ X) = true ∧ indexedListOffsetWidth (list_header w ++ X) = w.
Proof.
  intros Hw HX. unfold isIndexedList, indexedListOffsetWidth. change indexedListFixed with 15.
  assert (Hl : zlen (list_header w ++ X) = 3 + zlen X) by (rewrite zlen_app; unfold list_header; by destruct (w =? 2)).
  rewrite Hl, (proj2 (Z.leb_le 15 _)), (proj2 (Z.leb_le 3 _)) by lia. destruct Hw as [-> | ->]; done.
Qed.

Lemma header_fields w a b c X : let data := fixed_part w a b c ++ X in
  0 ≤ a < 2 ^ 32 → 0 ≤ b < 2 ^ 32 → 0 ≤ c < 2 ^ 32 → get_le 4 data 3 = Ret a ∧ get_le 4 data 7 = Ret b ∧ get_le 4 data 11 = Ret c.
Proof.
  intros data Ha Hb Hc. unfold data, fixed_part. rewrite <- !app_assoc.
  assert (Hh : zlen (list_header w) = 3) by (unfold list_header; by destruct (w =? 2)).
  assert (Hg : ∀ z, 0 ≤ z < 2 ^ 32 → le_get (le_put 4 z) = z) by (intros z Hz; rewrite le_get_put; by apply Z.mod_small).
  split_and!.
  - rewrite get_le_app; [by rewrite Hg|done|apply length_le_put].
  - rewrite app_assoc, get_le_app; [by rewrite Hg|by rewrite zlen_app, zlen_le_put, Hh|apply length_le_put].
  - rewrite (app_assoc (le_put 4 a)), app_assoc, get_le_app; [by rewrite Hg|by rewrite !zlen_app, !zlen_le_put, Hh|apply length_le_put].
Qed.

Section Indexed.
Context {w cap : Z} {ss : list slot} {gap rest tail : list byte}.
Context (H : indexed_ok w cap ss gap rest tail).
Let data := indexed_data w cap ss gap rest tail.
Let used := zlen (body ss ++ gap).
Let start := 15 + cap * w.

Lemma ix_parts : zlen data = start + used + zlen tail ∧ start + used + zlen tail ≤ 2 ^ 25 ∧ 0 ≤ used ∧ 0 ≤ zlen tail ∧ 0 < w ≤ 4.
Proof using H.
  assert (zlen data = start + used + zlen tail).
  { unfold data, indexed_data, start, used. rewrite !zlen_app, zlen_fixed. pose proof (ix_table _ _ _ _ _ _ H) as E. rewrite zlen_app in E. lia. }
  pose proof (ix_size _ _ _ _ _ _ H) as Hs. fold data in Hs. change maxPackedListBytes with (2 ^ 25) in Hs.
  pose proof (zlen_nonneg (body ss ++ gap)). pose proof (zlen_nonneg tail). destruct (ix_width _ _ _ _ _ _ H); split_and!; unfold used; lia.
Qed.

Lemma ix_is : isIndexedList data = true ∧ indexedListOffsetWidth data = w.
Proof using H.
  unfold data, indexed_data, fixed_part. rewrite <- app_assoc. apply header_is; [apply H|].
  rewrite !zlen_app, !zlen_le_put. pose proof (zlen_nonneg (table w (offsets 0 ss))). pose proof (zlen_nonneg rest).
  pose proof (zlen_nonneg (body ss)). pose proof (zlen_nonneg gap). pose proof (zlen_nonneg tail). lia.
Qed.

Lemma ix_meta : indexedListMeta data = Ret (mkListMeta (zlen ss) cap used start).
Proof using H.
  pose proof ix_parts as (Hlen&Hmax&Hu&Ht&Hw). pose proof (ix_cap _ _ _ _ _ _ H) as Hcap. pose proof (ix_count _ _ _ _ _ _ H) as Hcount.
  pose proof (zlen_nonneg ss). destruct ix_is as [Hi Hwd]. unfold indexedListMeta. rewrite Hi. cbn [negb].
  destruct (header_fields w (zlen ss) cap used ((table w (offsets 0 ss) ++ rest) ++ (body ss ++ gap) ++ tail)) as (E1&E2&E3); [unfold start in *; nia..|].
  change (fixed_part w (zlen ss) cap used ++ _) with data in E1, E2, E3. rewrite E1, E2, E3. cbn [mbind res_bind]. rewrite Hwd.
  change indexedListPromoteElements with 32. change indexedListFixed with 15. fold start.
  rewrite !(proj2 (Z.ltb_ge _ _)) by lia. cbn [orb]. done.
Qed.

Section At.
Context {s1 s2 : list slot} {p : slot}.
Context (Hp : ss = s1 ++ p :: s2).
Let off := zlen (body s1) + zlen p.1.

Lemma ix_off_range : 0 ≤ off ∧ off + zlen (record p.2) ≤ used ∧ off + 1 < 2 ^ (8 * w) ∧ zlen p.2 < 2 ^ 64.
Proof using H Hp.
  pose proof ix_parts as (Hlen&Hmax&Hu&Ht&Hw). pose proof (ix_cap _ _ _ _ _ _ H) as Hcap. assert (0 ≤ start) by (unfold start; nia).
  unfold off. pose proof (zlen_nonneg (body s1)). pose proof (zlen_nonneg p.1).
  assert (Hb : zlen (body ss) = zlen (body s1) + zlen p.1 + zlen (record p.2) + zlen (body s2)).
  { rewrite Hp, body_app, body_cons, !zlen_app. unfold slot_bytes. rewrite zlen_app. lia. }
  assert (Hu' : used = zlen (body ss) + zlen gap) by (unfold used; apply zlen_app).
  pose proof (zlen_nonneg (body s2)). pose proof (zlen_nonneg gap). pose proof (record_pos p.2) as Hr. pose proof (zlen_record p.2) as Er.
  pose proof (put_uvarint_len_bound (zlen p.2)). pose proof (ix_narrow _ _ _ _ _ _ H) as Hn. fold used in Hn. change indexedListNarrowMaxPayload with 65534 in Hn.
  split_and!; [lia|lia| |lia]. clearbody start. destruct (ix_width _ _ _ _ _ _ H) as [E|E]; rewrite E in *;
    [specialize (Hn eq_refl); change (2 ^ (8 * 2)) with 65536; lia|change (2 ^ (8 * 4)) with (2 ^ 32); lia].
Qed.

Lemma ix_offset : (t ← offset_table data; listOffset t (indexedListOffsetWidth data) (zlen s1)) = Ret (off + 1).
Proof using H Hp.
  rewrite (proj2 ix_is). unfold data, indexed_data. rewrite offset_table_ok by apply zlen_fixed. cbn [mbind res_bind]. rewrite <- app_assoc.
  apply listOffset_ok; [apply H| |pose proof ix_off_range; lia].
  rewrite Hp, offsets_app, lookup_app_r; rewrite length_offsets; [|lia]. by rewrite Nat.sub_diag.
Qed.

Lemma ix_around : ∃ a b, data = a ++ record p.2 ++ b ∧ zlen a = start + off.
Proof using H Hp.
  exists (fixed_part w (zlen ss) cap used ++ (table w (offsets 0 ss) ++ rest) ++ body s1 ++ p.1), (body s2 ++ gap ++ tail). split.
  - unfold data, indexed_data. fold used. rewrite Hp at 3. rewrite body_app, body_cons. unfold slot_bytes. by rewrite <- !app_assoc.
  - rewrite !zlen_app, zlen_fixed. pose proof (ix_table _ _ _ _ _ _ H) as E. rewrite zlen_app in E. unfold start, off. lia.
Qed.

Lemma ix_read : readListUvarint data (start + off) = Ret (zlen p.2, start + off + zlen (put_uvarint (zlen p.2))).
Proof using H Hp. destruct ix_around as (a&b&E&Ha). rewrite E. apply read_record; [done|apply ix_off_range]. Qed.

Lemma ix_record : indexedListRecord data off = Ret (p.2, off + zlen (record p.2)).
Proof using H Hp.
  pose proof ix_off_range as (H0&H1&_&H2). pose proof (record_pos p.2) as Hr. pose proof (zlen_record p.2) as Er. unfold indexedListRecord. rewrite ix_meta. cbn [mbind res_bind lm_used lm_start].
  rewrite (proj2 (Z.ltb_ge _ _)), (proj2 (Z.leb_gt _ _)) by lia. cbn [orb]. rewrite ix_read. cbn [with_err mbind res_bind].
  rewrite (proj2 (Z.ltb_ge _ _)) by lia. destruct ix_around as (a&b&E&Ha). rewrite E at 1. rewrite slice_record by lia. cbn [or_panic mbind res_bind].
  do 2 f_equal. lia.
Qed.
End At.

Lemma ix_element index : indexedListElement data index = Ret (element_at ss.*2 index).
Proof using H.
  unfold indexedListElement, element_at. rewrite ix_meta. cbn [mbind res_bind lm_count].
  assert (Hl : zlen ss.*2 = zlen ss) by apply zlen_values. rewrite Hl.
  set (i := if index <? 0 then index + zlen ss else index).
  destruct (Z.ltb_spec i 0); cbn [orb]; [unfold znth; by rewrite (proj2 (Z.leb_gt _ _)) by lia|].
  rewrite znth_lookup, list_lookup_fmap by done. destruct (Z.leb_spec (zlen ss) i) as [Hge|Hlt].
  { rewrite lookup_ge_None_2; [done|]. unfold zlen in *. lia. }
  destruct (lookup_lt_is_Some_2 ss (Z.to_nat i)) as [p Hp]; [unfold zlen in *; lia|]. rewrite Hp. cbn [fmap option_fmap option_map].
  pose proof (take_drop_middle ss _ p Hp) as Hs. symmetry in Hs.
  assert (Hi : i = zlen (take (Z.to_nat i) ss)) by (unfold zlen in *; rewrite length_take; lia).
  pose proof (ix_offset Hs) as E. rewrite <- Hi in E. apply res_bind_inv in E as (t&Et&E). rewrite Et. cbn [mbind res_bind]. rewrite E. cbn [mbind res_bind].
  pose proof (ix_off_range Hs) as (Hlo&_). rewrite (proj2 (Z.eqb_neq _ _)) by lia.
  replace (_ + 1 - 1) with (zlen (body (take (Z.to_nat i) ss)) + zlen p.1) by lia. by rewrite (ix_record Hs).
Qed.

Lemma ix_elements s1 s2 : ss = s1 ++ s2 → indexed_elements (length s2) data (zlen s1) = Ret s2.*2.
Proof using H.
  revert s1. induction s2 as [|p s2 IH]; intros s1 Hs; [done|]. cbn [length indexed_elements]. rewrite ix_element. unfold element_at.
  rewrite (proj2 (Z.ltb_ge _ _)) by apply zlen_nonneg. rewrite znth_lookup, list_lookup_fmap, Hs by apply zlen_nonneg.
  rewrite to_nat_zlen, list_lookup_middle by done. cbn [mbind res_bind fmap option_fmap option_map].
  replace (zlen s1 + 1) with (zlen (s1 ++ [p])) by apply zlen_snoc. rewrite IH; [done|]. by rewrite <- app_assoc.
Qed.

Lemma ix_decode : decodeIndexedList data = Ret ss.*2.
Proof using H. unfold decodeIndexedList. rewrite ix_meta. cbn [mbind res_bind lm_count]. rewrite to_nat_zlen. by apply (ix_elements []). Qed.

(** What each loop over the table sees at position [zlen s1]. *)
Lemma ix_step {A} s1 p s2 (k : Z → res A) : ss = s1 ++ p :: s2 →
  (t ← offset_table data; raw ← listOffset t (indexedListOffsetWidth data) (zlen s1); k raw) = k (zlen (body s1) + zlen p.1 + 1)
  ∧ ((zlen (body s1) + zlen p.1 + 1 =? 0) || (used <=? zlen (body s1) + zlen p.1 + 1 - 1)) = false.
Proof using H.
  intros Hs. pose proof (ix_off_range Hs) as (H0&H1&_). pose proof (record_pos p.2). split.
  - pose proof (ix_offset Hs) as E. apply res_bind_inv in E as (t&Et&E). rewrite Et. cbn [mbind res_bind]. by rewrite E.
  - rewrite (proj2 (Z.eqb_neq _ _)), (proj2 (Z.leb_gt _ _)) by lia. done.
Qed.

Lemma ix_range_loop s1 s2 s3 : ss = s1 ++ s2 ++ s3 → indexed_range (length s2) data used (zlen s1) = Ret s2.*2.
Proof using H.
  revert s1. induction s2 as [|p s2 IH]; intros s1 Hs; [done|]. cbn [length indexed_range].
  match goal with |- (t ← _; raw ← _; @?k raw) = _ => destruct (ix_step s1 p (s2 ++ s3) k Hs) as [-> ->] end.
  rewrite Z.add_simpl_r, (ix_record Hs). cbn [mbind res_bind].
  replace (zlen s1 + 1) with (zlen (s1 ++ [p])) by apply zlen_snoc. rewrite IH; [done|]. by rewrite <- app_assoc.
Qed.

Lemma ix_live_loop s1 s2 live : ss = s1 ++ s2 → live_bytes (length s2) data used start (zlen s1) live = Ret (Some (live + zlen (records s2.*2))).
Proof using H.
  revert s1 live. induction s2 as [|p s2 IH]; intros s1 live Hs; [cbn [length live_bytes]; change (zlen (records _)) with 0; by rewrite Z.add_0_r|]. cbn [length live_bytes].
  match goal with |- (t ← _; raw ← _; @?k raw) = _ => destruct (ix_step s1 p s2 k Hs) as [-> ->] end.
  rewrite Z.add_simpl_r, (ix_read Hs). pose proof (ix_off_range Hs) as (_&H1&_). rewrite zlen_record in H1.
  rewrite (proj2 (Z.ltb_ge _ _)) by lia. replace (zlen s1 + 1) with (zlen (s1 ++ [p])) by apply zlen_snoc.
  rewrite IH by (by rewrite <- app_assoc). rewrite fmap_cons, records_cons, zlen_app, zlen_record. do 2 f_equal. lia.
Qed.

Lemma ix_live : indexedListLiveBytes data (zlen ss) used start = Ret (Some (zlen (records ss.*2))).
Proof using H. unfold indexedListLiveBytes. rewrite to_nat_zlen. by apply (ix_live_loop []). Qed.

Lemma ix_pop_loop s1 s2 s3 : ss = s1 ++ s2 ++ s3 → pop_spans (length s2) data used (zlen s1) = Ret (Some (spans (zlen (body s1)) s2)).
Proof using H.
  revert s1. induction s2 as [|p s2 IH]; intros s1 Hs; [done|]. cbn [length pop_spans].
  match goal with |- (t ← _; raw ← _; @?k raw) = _ => destruct (ix_step s1 p (s2 ++ s3) k Hs) as [-> ->] end.
  rewrite Z.add_simpl_r, (ix_record Hs). replace (zlen s1 + 1) with (zlen (s1 ++ [p])) by apply zlen_snoc.
  rewrite IH by (by rewrite <- app_assoc). cbn [mbind res_bind option_map spans].
  replace (zlen (body (s1 ++ [p]))) with (zlen (body s1) + zlen (slot_bytes p)) by (rewrite body_app, zlen_app; unfold body at 3; cbn [fmap list_fmap concat]; by rewrite app_nil_r).
  by rewrite zlen_slot, !Z.add_assoc.
Qed.
End Indexed.

Lemma normalize_bounds n a b x y : normalizeListRange n a b = Some (x, y) → 0 ≤ x ≤ y ∧ y < n.
Proof.
  unfold normalizeListRange. cbv zeta. repeat case_match; intros [= <- <-] || done; repeat match goal with
  | E : (_ || _) = false |- _ => apply orb_false_elim in E as [? ?] end; lia.
Qed.

Lemma ix_range {w cap ss gap rest tail} (H : indexed_ok w cap ss gap rest tail) a b :
  indexedListRange (indexed_data w cap ss gap rest tail) a b = Ret (list_range ss.*2 a b).
Proof.
  unfold indexedListRange, list_range. rewrite (ix_meta H). cbn [mbind res_bind lm_count lm_used].
  replace (zlen ss.*2) with (zlen ss) by (symmetry; apply zlen_values).
  destruct (normalizeListRange (zlen ss) a b) as [[x y]|] eqn:E; [|done]. apply normalize_bounds in E.
  set (s1 := take (Z.to_nat x) ss). set (s2 := take (Z.to_nat (y - x + 1)) (drop (Z.to_nat x) ss)). set (s3 := drop (Z.to_nat (y - x + 1)) (drop (Z.to_nat x) ss)).
  assert (Hs : ss = s1 ++ s2 ++ s3) by (unfold s1, s2, s3; by rewrite !take_drop).
  pose proof (ix_range_loop H s1 s2 s3 Hs) as E1.
  replace (length s2) with (Z.to_nat (y - x + 1)) in E1 by (unfold s2, zlen in *; rewrite length_take, length_drop; lia).
  replace (zlen s1) with x in E1 by (unfold s1, zlen in *; rewrite length_take; lia).
  rewrite E1. unfold s2. by rewrite fmap_take, fmap_drop.
Qed.

(** ** Writing *)

Lemma record_bytes_record v : indexedListRecordBytes v = record v.
Proof. done. Qed.

(** Whole records behind [B], with their offsets behind [T]. *)
Lemma put_records_ok vs : ∀ F T R B tail w i cursor start,
  zlen F = 15 → width_ok w → zlen T = i * w → cursor = zlen B → start = 15 + zlen T + zlen R →
  zlen vs * w ≤ zlen R → zlen (records vs) ≤ zlen tail → zlen B + zlen (records vs) < 2 ^ (8 * w) →
  ∃ R' tail', put_records (F ++ (T ++ R) ++ B ++ tail) start w i cursor (indexedListRecordBytes <$> vs) =
      Ret (F ++ ((T ++ table w (offsets (zlen B) (dense vs))) ++ R') ++ (B ++ records vs) ++ tail', cursor + zlen (records vs))
    ∧ zlen R' = zlen R - zlen vs * w ∧ zlen tail' = zlen tail - zlen (records vs).
Proof.
  induction vs as [|v vs IH]; intros F T R B tail w i cursor start HF Hw HT -> -> HR Ht Hb.
  { exists R, tail. change (records []) with (@nil byte). cbn [fmap list_fmap put_records]. change (table w _) with (@nil byte).
    rewrite !app_nil_r, zlen_nil. split_and!; [|change (zlen (@nil (list byte))) with 0; lia..]. do 2 f_equal. lia. }
  rewrite records_cons, zlen_app in *. rewrite zlen_cons in HR. pose proof (record_pos v) as Hp.
  pose proof (zlen_nonneg (records vs)). pose proof (zlen_nonneg vs). pose proof (zlen_nonneg B). pose proof (width_pow w Hw) as Hpow.
  assert (Hw0 : 0 < w) by (destruct Hw; lia).
  destruct (zsplit R w) as (c&R1&->&Hc&HR1); [nia|].
  destruct (zsplit tail (zlen (record v))) as (z&t1&->&Hz&Ht1); [lia|].
  rewrite fmap_cons, record_bytes_record. cbn [put_records].
  rewrite (app_assoc (T ++ c ++ R1)), (app_assoc F). rewrite copy_into_app; [|rewrite !zlen_app; lia|by apply length_of_zlen]. cbn [mbind res_bind].
  rewrite u32_id by lia.
  replace ((F ++ (T ++ c ++ R1) ++ B) ++ record v ++ t1) with (F ++ (T ++ c ++ R1) ++ (B ++ record v) ++ t1) by (by rewrite <- !app_assoc).
  rewrite put_offset_ok; [|done|done|done|done|lia]. cbn [mbind res_bind].
  replace (T ++ le_put (Z.to_nat w) (zlen B + 1) ++ R1) with ((T ++ le_put (Z.to_nat w) (zlen B + 1)) ++ R1) by (by rewrite <- app_assoc).
  destruct (IH F (T ++ le_put (Z.to_nat w) (zlen B + 1)) R1 (B ++ record v) t1 w (i + 1) (zlen (B ++ record v)) (15 + zlen T + zlen (c ++ R1)))
    as (R'&t'&E&HR'&Ht'); try done.
  - rewrite zlen_app, zlen_le_put. lia.
  - rewrite !zlen_app, zlen_le_put in *. lia.
  - nia.
  - lia.
  - rewrite zlen_app. lia.
  - exists R', t'. rewrite <- zlen_app, E. split_and!; [|rewrite zlen_cons, !zlen_app in *; lia|rewrite !zlen_app in *; lia].
    cbn [dense fmap list_fmap offsets]. change (slot_bytes ([], v)) with (record v). cbn [fst]. rewrite zlen_nil, Z.add_0_r, zlen_app.
    change (zlen B :: ?o) with ([zlen B] ++ o). rewrite table_app. unfold table at 2. cbn [fmap list_fmap concat]. rewrite !app_nil_r, <- !app_assoc.
    do 2 f_equal. lia.
Qed.

Lemma replicate_split {A} (x : A) a b : 0 ≤ a → 0 ≤ b → replicate (Z.to_nat (a + b)) x = replicate (Z.to_nat a) x ++ replicate (Z.to_nat b) x.
Proof. intros. by rewrite <- replicate_add, Z2Nat.inj_add. Qed.

Lemma putIndexedListHeader_ok h X w : length h = 3%nat → putIndexedListHeader (h ++ X) w = Ret (list_header w ++ X).
Proof.
  intros Hh. unfold putIndexedListHeader. rewrite <- (app_nil_l (h ++ X)), <- (app_nil_l (list_header w ++ X)).
  apply within_app; [done|unfold zlen; rewrite Hh; done| |unfold list_header; by destruct (w =? 2)].
  destruct h as [|? [|? [|? [|]]]]; try done. unfold list_header. by destruct (w =? 2).
Qed.

(** Rewriting one of the three fields. *)
Lemma put_count w a b c X v : put_le 4 (fixed_part w a b c ++ X) 3 v = Ret (fixed_part w v b c ++ X).
Proof.
  unfold fixed_part. rewrite <- !app_assoc. apply put_le_app; [|apply length_le_put]. unfold list_header. by destruct (w =? 2).
Qed.
Lemma put_cap w a b c X v : put_le 4 (fixed_part w a b c ++ X) 7 v = Ret (fixed_part w a v c ++ X).
Proof.
  unfold fixed_part. rewrite <- !app_assoc. rewrite (app_assoc (list_header w)). rewrite put_le_app; [by rewrite <- app_assoc| |apply length_le_put].
  rewrite zlen_app, zlen_le_put. unfold list_header. by destruct (w =? 2).
Qed.
Lemma put_used w a b c X v : put_le 4 (fixed_part w a b c ++ X) 11 v = Ret (fixed_part w a b v ++ X).
Proof.
  unfold fixed_part. rewrite <- !app_assoc. rewrite (app_assoc (le_put 4 a)), (app_assoc (list_header w)). rewrite put_le_app; [by rewrite <- !app_assoc| |apply length_le_put].
  rewrite !zlen_app, !zlen_le_put. unfold list_header. by destruct (w =? 2).
Qed.

Lemma pow2_loop_ge f p n : 1 ≤ p → n ≤ p * 2 ^ Z.of_nat f → n ≤ list_pow2_loop f p n ∧ p ≤ list_pow2_loop f p n.
Proof.
  revert p. induction f as [|f IH]; intros p Hp Hn; [cbn [list_pow2_loop] in *; change (2 ^ Z.of_nat 0) with 1 in Hn; lia|].
  cbn [list_pow2_loop]. destruct (Z.ltb_spec p n); [|lia].
  replace (Z.of_nat (S f)) with (1 + Z.of_nat f) in Hn by lia. rewrite Z.pow_add_r in Hn by lia.
  destruct (IH (p * 2)); lia.
Qed.

Lemma nextListPow2_ge n : n < 2 ^ 60 → n ≤ nextListPow2 n ∧ 32 ≤ nextListPow2 n.
Proof. intros Hn. apply pow2_loop_ge; [done|]. change indexedListPromoteElements with 32. change (Z.of_nat 64) with 64. lia. Qed.

Lemma width_for n : width_ok (indexedListWidthFor n) ∧ (indexedListWidthFor n = 2 → n ≤ indexedListNarrowMaxPayload) ∧
  (n < 2 ^ 32 → n < 2 ^ (8 * indexedListWidthFor n)).
Proof.
  unfold indexedListWidthFor, width_ok. change indexedListNarrowMaxPayload with 65534. destruct (Z.leb_spec n 65534); split_and!; try lia; auto.
Qed.

Abbreviation zeros n := (replicate (Z.to_nat n) x00).

Lemma blank_split a b : 0 ≤ a → 0 ≤ b → zeros (indexedListFixed + a + b) = zeros indexedListFixed ++ zeros a ++ zeros b.
Proof. intros. rewrite replicate_split by (change indexedListFixed with 15; lia). rewrite replicate_split, <- app_assoc by (done || lia). done. Qed.

Lemma put_header w w' a b c X : putIndexedListHeader (fixed_part w a b c ++ X) w' = Ret (fixed_part w' a b c ++ X).
Proof. unfold fixed_part. rewrite <- !app_assoc. apply putIndexedListHeader_ok. unfold list_header. by destruct (w =? 2). Qed.

Lemma encodeIndexedList_ok L : L ≠ [] → zlen (records L) < 2 ^ 40 →
  match encodeIndexedList L with
  | Ret data => indexed data L
  | Err e => e = errListLimit ∧ maxPackedListBytes < 15 + 4 * nextListPow2 (zlen L * 2) + (zlen (records L) + zlen (records L) / 4 + 512)
  | Panic _ => False
  end.
Proof.
  intros HL Hmax. pose proof (records_count L) as Hcount. unfold encodeIndexedList.
  assert (Hn : 1 ≤ zlen L) by (destruct L; [done|rewrite zlen_cons; pose proof (zlen_nonneg L); lia]).
  rewrite (proj2 (Z.eqb_neq _ _)) by lia. cbv zeta.
  assert (Hused : lsum zlen (indexedListRecordBytes <$> L) = zlen (records L)).
  { clear. induction L as [|v L IH]; [done|]. rewrite fmap_cons, lsum_cons, records_cons, zlen_app, IH. done. }
  rewrite Hused. set (used := zlen (records L)) in *. set (cap := nextListPow2 (zlen L * 2)).
  destruct (nextListPow2_ge (zlen L * 2)) as [Hc1 Hc2]; [lia|]. fold cap in Hc1, Hc2.
  set (dataCap := if _ <? 512 then _ else _). assert (Hdc : used + 512 ≤ dataCap).
  { unfold dataCap. destruct (Z.ltb_spec (used + used / 4 - used) 512); lia. }
  destruct (width_for dataCap) as (Hw&Hnarrow&Hfit). set (w := indexedListWidthFor dataCap) in *. clearbody w.
  destruct (Z.ltb_spec maxPackedListBytes (indexedListFixed + cap * w + dataCap)) as [Hgt|Hle].
  { split; [done|]. change indexedListFixed with 15 in Hgt. assert (cap * w ≤ 4 * cap) by (destruct Hw; lia).
    assert (dataCap ≤ used + used / 4 + 512) by (unfold dataCap; destruct (Z.ltb_spec (used + used / 4 - used) 512); lia). lia. }
  change maxPackedListBytes with (2 ^ 25) in Hle. assert (Hw0 : 0 < w) by (destruct Hw; lia). change indexedListFixed with 15 in Hle.
  rewrite blank_split by nia.
  replace (zeros indexedListFixed) with (zeros 3 ++ le_put 4 0 ++ le_put 4 0 ++ le_put 4 0) by done. rewrite <- app_assoc.
  rewrite putIndexedListHeader_ok by done. cbn [mbind res_bind]. rewrite app_assoc. change (list_header w ++ le_put 4 0 ++ le_put 4 0 ++ le_put 4 0) with (fixed_part w 0 0 0).
  rewrite put_count. cbn [mbind res_bind]. rewrite put_cap. cbn [mbind res_bind].
  destruct (put_records_ok L (fixed_part w (zlen L) cap 0) [] (zeros (cap * w)) [] (zeros dataCap) w 0 0 (15 + cap * w)) as (R'&t'&E&HR&Ht).
  1-9: try done. 1: apply zlen_fixed. 1: rewrite zlen_nil, zlen_replicate; nia. 1: rewrite zlen_replicate; nia.
  1: rewrite zlen_replicate; lia. 1: rewrite zlen_nil; lia.
  rewrite !app_nil_l in E. change indexedListFixed with 15. rewrite E. cbn [mbind res_bind]. rewrite put_used. rewrite zlen_replicate in HR, Ht by nia.
  change (zlen (@nil byte)) with 0. change (0 + zlen (records L)) with used. exists w, cap, (dense L), [], R', t'.
  pose proof (zlen_dense L) as Hdl.
  assert (Hd : fixed_part w (zlen L) cap used ++ (table w (offsets 0 (dense L)) ++ R') ++ records L ++ t' = indexed_data w cap (dense L) [] R' t').
  { unfold indexed_data. by rewrite body_dense, app_nil_r, Hdl. }
  assert (Ht0 : zlen (table w (offsets 0 (dense L))) = zlen L * w).
  { by rewrite zlen_table, zlen_offsets, zlen_dense by lia. }
  split_and!; [|done|by rewrite dense_values]. constructor; try done.
  - rewrite Hdl. lia.
  - rewrite zlen_app, Ht0. lia.
  - intros Hw2. rewrite body_dense, app_nil_r. fold used. specialize (Hnarrow Hw2). lia.
  - rewrite <- Hd, !zlen_app, zlen_fixed, Ht0. fold used. change maxPackedListBytes with (2 ^ 25). lia.
Qed.

(** ** Copying the contents to a new layout *)

Section Copy.
Context {w cap : Z} {ss : list slot} {gap rest tail : list byte}.
Context (H : indexed_ok w cap ss gap rest tail).
Let data := indexed_data w cap ss gap rest tail.
Let used := zlen (body ss ++ gap).
Let start := 15 + cap * w.
Context {w' : Z} (Hw' : width_ok w').

Lemma copy_offsets_ok F Y s1 s2 : ∀ R, ss = s1 ++ s2 → zlen F = 15 → zlen s2 * w' ≤ zlen R → used < 2 ^ (8 * w') →
  ∃ R', copy_offsets (length s2) data (F ++ (table w' (offsets 0 s1) ++ R) ++ Y) w w' (zlen s1) =
          Ret (F ++ (table w' (offsets 0 ss) ++ R') ++ Y) ∧ zlen R' = zlen R - zlen s2 * w'.
Proof using H Hw'.
  revert s1. induction s2 as [|p s2 IH]; intros s1 R Hs HF HR Hu.
  { rewrite app_nil_r in Hs. subst s1. exists R. split; [done|]. change (zlen (@nil slot)) with 0. lia. }
  assert (Hw0 : 0 < w') by (destruct Hw'; lia). rewrite zlen_cons in HR. pose proof (zlen_nonneg s2).
  destruct (zsplit R w') as (c&R1&->&Hc&HR1); [nia|]. cbn [length copy_offsets].
  pose proof (ix_offset H Hs) as E. rewrite (proj2 (ix_is H)) in E. apply res_bind_inv in E as (t&Et&E). fold data in Et. rewrite Et. cbn [mbind res_bind].
  rewrite E. cbn [mbind res_bind]. pose proof (ix_off_range H Hs) as (Hlo&Hhi&_). pose proof (record_pos p.2). fold used in Hhi.
  assert (Hz : zlen (table w' (offsets 0 s1)) = zlen s1 * w').
  { by rewrite zlen_table, zlen_offsets by lia. }
  rewrite put_offset_ok; [|done..|lia]. cbn [mbind res_bind].
  replace (table w' (offsets 0 s1) ++ le_put (Z.to_nat w') (zlen (body s1) + zlen p.1 + 1) ++ R1) with (table w' (offsets 0 (s1 ++ [p])) ++ R1); cycle 1.
  { rewrite offsets_app, table_app, <- app_assoc. f_equal. cbn [offsets]. unfold table. cbn [fmap list_fmap concat]. by rewrite app_nil_r, Z.add_0_l. }
  destruct (IH (s1 ++ [p]) R1) as (R'&E'&HR'); [by rewrite <- app_assoc|done|lia|done|]. rewrite zlen_snoc in E'. rewrite E'.
  exists R'. split; [done|]. rewrite zlen_cons. lia.
Qed.

Lemma copy_live_ok s1 s2 : ∀ R Z1, ss = s1 ++ s2 → zlen s2 * w' ≤ zlen R → zlen (records s2.*2) ≤ zlen Z1 → zlen (records ss.*2) < 2 ^ (8 * w') →
  ∃ R' Z', copy_live (length s2) data start (zlen s1) (table w' (offsets 0 (dense s1.*2)) ++ R) w' (records s1.*2 ++ Z1) (zlen (records s1.*2)) =
             Ret (table w' (offsets 0 (dense ss.*2)) ++ R', records ss.*2 ++ Z', zlen (records ss.*2))
    ∧ zlen R' = zlen R - zlen s2 * w' ∧ zlen Z' = zlen Z1 - zlen (records s2.*2).
Proof using H Hw'.
  revert s1. induction s2 as [|p s2 IH]; intros s1 R Z1 Hs HR HZ Hu.
  { rewrite app_nil_r in Hs. subst s1. exists R, Z1. split; [done|]. change (zlen (@nil slot)) with 0. change (zlen (records _)) with 0. lia. }
  assert (Hw0 : 0 < w') by (destruct Hw'; lia). rewrite zlen_cons in HR. rewrite fmap_cons, records_cons, zlen_app in HZ.
  pose proof (zlen_nonneg s2). pose proof (zlen_nonneg (records s2.*2)). pose proof (record_pos p.2). pose proof (zlen_nonneg (records s1.*2)).
  destruct (zsplit R w') as (c&R1&->&Hc&HR1); [nia|]. destruct (zsplit Z1 (zlen (record p.2))) as (z&Z2&->&Hz&HZ2); [lia|]. cbn [length copy_live].
  match goal with |- ∃ R' Z', (t ← _; raw ← _; @?k raw) = _ ∧ _ => destruct (ix_step H s1 p s2 k Hs) as [E _]; fold data in E; rewrite E; clear E end.
  cbv zeta. rewrite Z.add_simpl_r. fold start. pose proof (ix_read H Hs) as E. fold data in E. fold start in E. rewrite E. clear E. cbn [mbind res_bind].
  pose proof (zlen_record p.2) as Er. destruct (ix_around H Hs) as (a&b&Ea&Ha). fold data in Ea. fold start in Ha.
  assert (Es : zslice data (start + (zlen (body s1) + zlen p.1)) (start + (zlen (body s1) + zlen p.1) + zlen (put_uvarint (zlen p.2)) + zlen p.2) = Some (record p.2)).
  { rewrite Ea. apply zslice_app; lia. }
  rewrite Es. cbn [or_panic mbind res_bind]. rewrite Z.min_l by (rewrite !zlen_app; pose proof (zlen_nonneg Z2); lia).
  rewrite copy_into_app; [|done|by apply length_of_zlen]. cbn [mbind res_bind].
  assert (Hsum : zlen (records ss.*2) = zlen (records s1.*2) + zlen (record p.2) + zlen (records s2.*2)).
  { rewrite Hs, fmap_app, fmap_cons, records_app, records_cons, !zlen_app. lia. }
  pose proof (width_pow w' Hw'). rewrite u32_id by lia.
  assert (Ht : zlen (table w' (offsets 0 (dense s1.*2))) = zlen s1 * w').
  { by rewrite zlen_table, zlen_offsets, zlen_dense, zlen_values by lia. }
  rewrite putListOffset_ok; [|done..|lia]. cbn [mbind res_bind].
  destruct (IH (s1 ++ [p]) R1 Z2) as (R'&Z'&E'&HR'&HZ'); [by rewrite <- app_assoc|lia|lia|done|].
  rewrite fmap_app, records_app in E'. change (records [p].*2) with (record p.2 ++ []) in E'. rewrite app_nil_r, zlen_snoc, zlen_app in E'.
  unfold dense in E'. rewrite fmap_app in E'. fold (dense s1.*2) in E'. rewrite offsets_app, body_dense, table_app, Z.add_0_l in E'.
  rewrite <- !app_assoc in E'. change (table w' (offsets _ _)) with (le_put (Z.to_nat w') (zlen (records s1.*2) + 0 + 1) ++ []) in E' at 2.
  rewrite app_nil_r, Z.add_0_r in E'. rewrite E'. exists R', Z'. rewrite fmap_cons, records_cons, !zlen_app, zlen_cons. split_and!; [done|lia..].
Qed.

Lemma ix_slices : zslice data 0 15 = Some (fixed_part w (zlen ss) cap used) ∧
  zslice data 15 (15 + zlen ss * w) = Some (table w (offsets 0 ss)) ∧ zslice data start (start + used) = Some (body ss ++ gap).
Proof using H.
  assert (Hw : 0 ≤ w) by (destruct (ix_width _ _ _ _ _ _ H); lia). pose proof (ix_table _ _ _ _ _ _ H) as Et.
  assert (Hz : zlen (table w (offsets 0 ss)) = zlen ss * w).
  { by rewrite zlen_table, zlen_offsets by lia. }
  unfold data, indexed_data. fold used. split_and!.
  - rewrite <- (app_nil_l (fixed_part w (zlen ss) cap used ++ _)). apply zslice_app; [done|by rewrite zlen_fixed].
  - rewrite <- app_assoc. apply zslice_app; rewrite zlen_fixed; lia.
  - rewrite app_assoc. apply zslice_app; rewrite zlen_app, zlen_fixed; unfold start; lia.
Qed.

Lemma copy_contents_ok F X Y : let live := zlen (records ss.*2) in
  zlen F = 15 → zlen ss * w' ≤ zlen X → live ≤ zlen Y → live < 2 ^ (8 * w') →
  ∃ ss' gap' X' Y', copy_contents data (F ++ X ++ Y) (mkListMeta (zlen ss) cap used start) w' (15 + zlen X) live =
      Ret (F ++ (table w' (offsets 0 ss') ++ X') ++ (body ss' ++ gap') ++ Y')
    ∧ ss'.*2 = ss.*2 ∧ zlen (body ss' ++ gap') = live ∧ zlen X' = zlen X - zlen ss * w' ∧ zlen Y' = zlen Y - live.
Proof using H Hw'.
  intros live HF HX HY Hfit. pose proof (zlen_nonneg ss). assert (Hw0 : 0 < w') by (destruct Hw'; lia). assert (0 ≤ live) by apply zlen_nonneg.
  unfold copy_contents. cbn [lm_used lm_count lm_start]. pose proof (proj2 (ix_is H)) as Ew. fold data in Ew. rewrite Ew. change indexedListFixed with 15.
  destruct ix_slices as (_&Etable&Epay). destruct (zsplit Y live) as (y&Y1&->&Hy&HY1); [lia|].
  destruct (Z.eqb_spec live used) as [Elive|Hlive].
  - assert (Hstep : ∃ X', (if w' =? w then t ← or_panic (zslice data 15 (15 + zlen ss * w')) oob; write_bytes (F ++ X ++ y ++ Y1) 15 t
        else copy_offsets (Z.to_nat (zlen ss)) data (F ++ X ++ y ++ Y1) w w' 0) = Ret (F ++ (table w' (offsets 0 ss) ++ X') ++ y ++ Y1)
        ∧ zlen X' = zlen X - zlen ss * w').
    { destruct (Z.eqb_spec w' w) as [->|].
      - rewrite Etable. cbn [or_panic mbind res_bind]. destruct (zsplit X (zlen ss * w)) as (x&X1&->&Hx&HX1); [nia|]. exists X1. split; [|lia].
        rewrite <- !app_assoc. apply write_bytes_app; [done|]. apply length_of_zlen. by rewrite zlen_table, zlen_offsets by lia.
      - rewrite to_nat_zlen. destruct (copy_offsets_ok F (y ++ Y1) [] ss X) as (R'&E&HR'); [done..|lia|]. by exists R'. }
    destruct Hstep as (X'&->&HX'). cbn [mbind res_bind]. rewrite Epay. cbn [or_panic mbind res_bind].
    exists ss, gap, X', Y1. rewrite app_assoc. rewrite write_bytes_app.
    + rewrite <- app_assoc. split_and!; [done|done|done|done|]. rewrite zlen_app in HY1. rewrite zlen_app. lia.
    + rewrite !zlen_app, zlen_table, zlen_offsets by lia. lia.
    + apply length_of_zlen. fold used. lia.
  - destruct (copy_live_ok [] ss X y) as (R'&Z'&E&HR'&HZ'); [done|lia|lia|done|]. rewrite Hy in HZ'. fold live in HZ'.
    assert (Z' = []) as -> by (apply nil_length_inv; unfold zlen in HZ'; lia). rewrite app_nil_r in E.
    rewrite (zslice_app F X (y ++ Y1) 15 (15 + zlen X)) by lia. cbn [or_panic mbind res_bind].
    rewrite (app_assoc F), (zslice_app (F ++ X) y Y1 (15 + zlen X)) by (rewrite zlen_app; lia). cbn [or_panic mbind res_bind].
    unfold copyIndexedListLive. rewrite to_nat_zlen. change (records [].*2 ++ y) with y in E. change (table w' _ ++ X) with X in E at 1.
    change (zlen (records [].*2)) with 0 in E. change (zlen (@nil slot)) with 0 in E. rewrite E. cbn [mbind res_bind].
    assert (Ht : zlen (table w' (offsets 0 (dense ss.*2)) ++ R') = zlen X).
    { rewrite zlen_app, zlen_table, zlen_offsets, zlen_dense, zlen_values by lia. lia. }
    rewrite <- app_assoc, write_bytes_app; [|done|by apply length_of_zlen]. cbn [mbind res_bind].
    rewrite app_assoc, write_bytes_app; [|rewrite zlen_app; lia|apply length_of_zlen; fold live; lia].
    exists (dense ss.*2), [], R', Y1. rewrite body_dense, app_nil_r, <- app_assoc, dense_values. split_and!; [done|done|done|lia|rewrite zlen_app; lia].
Qed.
End Copy.
