(* ===== verification/ListOps.v ===== *)
(** * Lists: operations on the indexed layout

    Appending in place or into a larger copy, trimming, popping in place: the
    bytes left hold the new list. *)
From S2P Require Import Prelude Slices ListPack ListFacts ListIndexed.
Set Default Proof Using "Type".

(** Slots for values appended behind a gap, and the gap left at the end. *)
Definition attach (gap : list byte) (vs : list (list byte)) : list slot := match vs with [] => [] | v :: vs => (gap, v) :: dense vs end.
Definition left_gap (gap : list byte) (vs : list (list byte)) : list byte := match vs with [] => gap | _ => [] end.

Lemma body_attach gap vs : body (attach gap vs) ++ left_gap gap vs = gap ++ records vs.
Proof.
  destruct vs as [|v vs]; cbn [attach left_gap]; [by rewrite app_nil_r|].
  rewrite body_cons, body_dense, records_cons, app_nil_r. unfold slot_bytes. cbn [fst snd]. by rewrite <- app_assoc.
Qed.
Lemma offsets_attach base gap vs : offsets base (attach gap vs) = offsets (base + zlen gap) (dense vs).
Proof.
  destruct vs as [|v vs]; [done|]. cbn [attach dense fmap list_fmap offsets fst]. rewrite zlen_nil, Z.add_0_r. f_equal.
  fold (dense vs). f_equal. unfold slot_bytes. cbn [fst snd]. rewrite app_nil_l, zlen_app. lia.
Qed.
Lemma attach_values gap vs : (attach gap vs).*2 = vs.
Proof. destruct vs as [|v vs]; [done|]. cbn [attach]. rewrite fmap_cons, dense_values. done. Qed.

(** What appending to [ss] leaves, in the shape the loops produce it. *)
Lemma appended_data w cap ss gap vs rest tail :
  fixed_part w (zlen ss + zlen vs) cap (zlen (body ss ++ gap) + zlen (records vs)) ++
    ((table w (offsets 0 ss) ++ table w (offsets (zlen (body ss ++ gap)) (dense vs))) ++ rest) ++ ((body ss ++ gap) ++ records vs) ++ tail =
  indexed_data w cap (ss ++ attach gap vs) (left_gap gap vs) rest tail.
Proof.
  unfold indexed_data. assert (Hb : body (ss ++ attach gap vs) ++ left_gap gap vs = (body ss ++ gap) ++ records vs).
  { by rewrite body_app, <- app_assoc, body_attach, app_assoc. }
  rewrite Hb, offsets_app, table_app, offsets_attach, Z.add_0_l, (zlen_app (body ss ++ gap)), (zlen_app (body ss)), (zlen_app ss).
  by replace (zlen (attach gap vs)) with (zlen vs) by (rewrite <- zlen_values, attach_values; done).
Qed.

Lemma appended_ok w cap ss gap vs rest tail : width_ok w → 32 ≤ cap → zlen ss + zlen vs ≤ cap → zlen rest = cap * w - (zlen ss + zlen vs) * w →
  (w = 2 → zlen (body ss ++ gap) + zlen (records vs) + zlen tail ≤ indexedListNarrowMaxPayload) →
  15 + cap * w + (zlen (body ss ++ gap) + zlen (records vs) + zlen tail) ≤ maxPackedListBytes →
  indexed (indexed_data w cap (ss ++ attach gap vs) (left_gap gap vs) rest tail) (ss.*2 ++ vs).
Proof.
  intros Hw Hcap Hn Hr H2 Hmax. assert (Hw0 : 0 ≤ w) by (destruct Hw; lia).
  assert (Hl : zlen (ss ++ attach gap vs) = zlen ss + zlen vs) by (rewrite zlen_app, <- (zlen_values (attach gap vs)), attach_values; done).
  assert (Hb : zlen (body (ss ++ attach gap vs) ++ left_gap gap vs) = zlen (body ss ++ gap) + zlen (records vs)).
  { rewrite body_app, <- app_assoc, body_attach, !zlen_app. lia. }
  assert (Ht : zlen (table w (offsets 0 (ss ++ attach gap vs))) = (zlen ss + zlen vs) * w) by (by rewrite zlen_table, zlen_offsets, Hl).
  exists w, cap, (ss ++ attach gap vs), (left_gap gap vs), rest, tail. split_and!; [constructor|done|by rewrite fmap_app, attach_values].
  - done.
  - done.
  - lia.
  - rewrite zlen_app, Ht. lia.
  - intros E. specialize (H2 E). lia.
  - unfold indexed_data. rewrite !zlen_app in *. rewrite zlen_fixed, Ht. lia.
Qed.

Lemma copy_into_write l off src : 0 ≤ off → off + zlen src ≤ zlen l → copy_into l off src = write_bytes l off src.
Proof.
  intros H0 H1. pose proof (zlen_nonneg src). unfold copy_into, write_bytes. by rewrite !zslice_Some by lia.
Qed.

(** The path for one value writes what the general one does. *)
Lemma append_one data start width i cursor v : 0 ≤ start + cursor → start + cursor + zlen (put_uvarint (zlen v)) + zlen v ≤ zlen data →
  append_values data start width i cursor [v] =
    (data ← write_bytes data (start + cursor) (put_uvarint (zlen v));
     data ← write_bytes data (start + cursor + zlen (put_uvarint (zlen v))) v;
     data ← put_offset data width i (u32 (cursor + 1));
     Ret (data, cursor + (zlen (put_uvarint (zlen v)) + zlen v))).
Proof.
  intros H0 H1. pose proof (zlen_nonneg v). pose proof (put_uvarint_len_bound (zlen v)). cbn [append_values]. cbv zeta.
  unfold write_bytes at 1 3. rewrite zslice_Some by lia. cbn [or_panic mbind res_bind].
  assert (Hl : zlen (copy_at data (start + cursor) (put_uvarint (zlen v))) = zlen data) by (apply copy_at_length; lia).
  rewrite copy_into_write by lia. rewrite Z.add_assoc, Hl, Z.min_l by lia.
  destruct (write_bytes _ _ v); cbn [mbind res_bind]; [|done..]. destruct (put_offset _ _ _ _); cbn [mbind res_bind]; [|done..]. by rewrite Z.add_assoc.
Qed.

Section Append.
Context {w cap : Z} {ss : list slot} {gap rest tail : list byte}.
Context (H : indexed_ok w cap ss gap rest tail).
Let data := indexed_data w cap ss gap rest tail.
Let used := zlen (body ss ++ gap).
Let start := 15 + cap * w.
Context {values : list (list byte)} (Hvs : small values).

(** In place, when the table and the payload have room. *)
Lemma append_in_place : zlen ss + zlen values ≤ cap → start + used + zlen (records values) ≤ zlen data →
  ∃ data', ('(data, cursor) ← append_values data start w (zlen ss) used values;
            data ← put_le 4 data 3 (zlen ss + zlen values);
            data ← put_le 4 data 11 cursor; Ret data) = Ret data' ∧ indexed data' (ss.*2 ++ values) ∧ zlen data' = zlen data.
Proof using H Hvs.
  intros Hn Hroom. pose proof (ix_parts H) as (Hlen&Hmax&Hu&Ht&Hw). fold data in Hlen. fold start in Hlen, Hmax. fold used in Hlen, Hmax, Hu.
  pose proof (ix_table _ _ _ _ _ _ H) as Htab. rewrite zlen_app, zlen_table, zlen_offsets in Htab by lia. pose proof (ix_cap _ _ _ _ _ _ H) as Hcap.
  pose proof (ix_narrow _ _ _ _ _ _ H) as Hnar. fold used in Hnar. pose proof (zlen_nonneg (records values)). pose proof (zlen_nonneg values).
  assert (Hz : zlen (table w (offsets 0 ss)) = zlen ss * w) by (by rewrite zlen_table, zlen_offsets by lia).
  destruct (append_values_ok values (fixed_part w (zlen ss) cap used) (table w (offsets 0 ss)) rest (body ss ++ gap) tail w (zlen ss) used start)
    as (R'&t'&E&HR&Ht'); [apply zlen_fixed|apply H|done|done|unfold start; lia|done|nia|lia| |].
  { fold used. change indexedListNarrowMaxPayload with 65534 in Hnar. destruct (ix_width _ _ _ _ _ _ H) as [Ew|Ew]; rewrite Ew.
    - specialize (Hnar Ew). change (2 ^ (8 * 2)) with 65536. lia.
    - change (2 ^ (8 * 4)) with (2 ^ 32). assert (0 ≤ start) by (unfold start; nia). lia. }
  change (append_values data start w (zlen ss) used values = Ret (fixed_part w (zlen ss) cap used ++
    ((table w (offsets 0 ss) ++ table w (offsets used (dense values))) ++ R') ++ ((body ss ++ gap) ++ records values) ++ t', used + zlen (records values))) in E.
  rewrite E. cbn [mbind res_bind]. rewrite put_count. cbn [mbind res_bind]. rewrite put_used.
  cbn [mbind res_bind]. unfold used. rewrite appended_data. eexists. split; [done|]. split.
  - apply appended_ok; [apply H|done|lia|lia| |].
    + intros Ew. specialize (Hnar Ew). fold used. lia.
    + fold used. change maxPackedListBytes with (2 ^ 25). unfold start in Hmax. lia.
  - rewrite <- appended_data, Hlen, !zlen_app, zlen_fixed, Hz, zlen_table, zlen_offsets, zlen_dense by lia. unfold used, start in *. rewrite zlen_app in *. lia.
Qed.

(** A new buffer with the fixed part of the old one and the new header. *)
Lemma fresh_buffer w' a b : 0 ≤ a → 0 ≤ b →
  (fixed ← or_panic (zslice data 0 indexedListFixed) oob;
   out ← write_bytes (zeros (indexedListFixed + a + b)) 0 fixed;
   putIndexedListHeader out w') = Ret (fixed_part w' (zlen ss) cap used ++ zeros a ++ zeros b).
Proof using H.
  intros Ha Hb. destruct (ix_slices H) as (E&_&_). fold data in E. fold used in E. change indexedListFixed with 15. rewrite E. cbn [or_panic mbind res_bind].
  pose proof (blank_split a b Ha Hb) as Eb. change indexedListFixed with 15 in Eb. rewrite Eb, <- (app_nil_l (zeros 15 ++ _)).
  rewrite write_bytes_app; [|done|apply length_of_zlen; by rewrite zlen_fixed]. cbn [mbind res_bind]. rewrite app_nil_l. apply put_header.
Qed.

Lemma live_le : zlen (records ss.*2) ≤ used.
Proof using H. unfold used. rewrite zlen_app. pose proof (zlen_records_values ss). pose proof (zlen_nonneg gap). lia. Qed.

Lemma growIndexedListRaw_ok : zlen (records values) < 2 ^ 40 →
  match growIndexedListRaw data values with
  | Ret (Some (n, out)) => n = zlen (ss.*2 ++ values) ∧ indexed out (ss.*2 ++ values)
  | Ret None | Panic _ => False
  | Err e => e = errListLimit
  end.
Proof using H Hvs.
  intros Hmaxv. unfold growIndexedListRaw. pose proof (ix_meta H) as Em. fold data in Em. fold used in Em. fold start in Em. rewrite Em. cbn [lm_count lm_capacity lm_used lm_start].
  pose proof (ix_live H) as El. fold data in El. fold used in El. fold start in El. rewrite El. cbn [mbind res_bind]. rewrite record_bytes_ok by done.
  pose proof live_le as Hlive. pose proof (ix_parts H) as (_&Hmax&Hu&Ht&_). fold start in Hmax. fold used in Hmax, Hu. pose proof (ix_cap _ _ _ _ _ _ H) as Hcap. pose proof (ix_count _ _ _ _ _ _ H) as Hcount.
  pose proof (records_count values) as Hvc. pose proof (zlen_nonneg values). pose proof (zlen_nonneg ss). pose proof (zlen_nonneg (records ss.*2)).
  assert (Hst : 0 ≤ start) by (unfold start; destruct (ix_width _ _ _ _ _ _ H); nia). assert (Hcs : cap ≤ start) by (unfold start; destruct (ix_width _ _ _ _ _ _ H); lia).
  set (live := zlen (records ss.*2)) in *. set (extra := zlen (records values)) in *. set (n' := zlen ss + zlen values).
  set (cap' := if cap <? n' then _ else _). assert (Hc' : 32 ≤ cap' ∧ n' ≤ cap').
  { unfold cap'. destruct (Z.ltb_spec cap n'); [|lia]. destruct (nextListPow2_ge (n' * 2)); lia. }
  set (headroom := if _ <? 512 then _ else _). assert (Hh : 512 ≤ headroom) by (unfold headroom; repeat case_match; lia). clearbody headroom cap'.
  set (dataCap := live + extra + headroom). destruct (width_for dataCap) as (Hw'&Hnar&Hfit). set (w' := indexedListWidthFor dataCap) in *. clearbody w'.
  destruct (Z.ltb_spec maxPackedListBytes (indexedListFixed + cap' * w' + dataCap)) as [|Hle]; [done|].
  change maxPackedListBytes with (2 ^ 25) in Hle. change indexedListFixed with 15 in Hle. assert (Hw0 : 0 < w') by (destruct Hw'; lia).
  assert (Hcw : 0 ≤ cap' * w') by (apply Z.mul_nonneg_nonneg; lia).
  assert (Hnw : n' * w' ≤ cap' * w') by (apply Z.mul_le_mono_nonneg_r; lia). unfold n' in Hnw. rewrite Z.mul_add_distr_r in Hnw.
  assert (Hvw : 0 ≤ zlen values * w') by (apply Z.mul_nonneg_nonneg; lia).
  pose proof (fresh_buffer w' (cap' * w') dataCap Hcw ltac:(lia)) as Ef.
  apply res_bind_inv in Ef as (fixed&Ef1&Ef). rewrite Ef1. cbn [mbind res_bind]. apply res_bind_inv in Ef as (o&Ef2&Ef). rewrite Ef2. cbn [mbind res_bind]. rewrite Ef. cbn [mbind res_bind].
  destruct (copy_contents_ok H Hw' (fixed_part w' (zlen ss) cap used) (zeros (cap' * w')) (zeros dataCap)) as (ss'&gap'&X&Y&Ec&Hv&Hl&HX&HY);
    [apply zlen_fixed|rewrite zlen_replicate by done; lia|rewrite zlen_replicate; lia|fold live; lia|].
  fold data in Ec. fold used in Ec. fold start in Ec. fold live in Ec, Hl, HY. rewrite !zlen_replicate in HX by done. rewrite !zlen_replicate in HY by lia. rewrite !zlen_replicate in Ec by done. change indexedListFixed with 15. rewrite Ec. cbn [mbind res_bind].
  assert (Hss : zlen ss' = zlen ss) by (by rewrite <- !zlen_values, Hv).
  assert (Hz : zlen (table w' (offsets 0 ss')) = zlen ss * w') by (by rewrite zlen_table, zlen_offsets, Hss by lia).
  destruct (append_values_ok values (fixed_part w' (zlen ss) cap used) (table w' (offsets 0 ss')) X (body ss' ++ gap') Y w' (zlen ss) live (15 + cap' * w'))
    as (R'&t'&E&HR&Ht'); [apply zlen_fixed|done|done|done|lia|done|lia|fold extra; lia|fold extra; lia|].
  rewrite E. cbn [mbind res_bind]. rewrite put_count. cbn [mbind res_bind]. rewrite put_cap. cbn [mbind res_bind]. rewrite put_used. cbn [mbind res_bind].
  split; [by rewrite zlen_app, zlen_values|]. rewrite <- Hl. unfold n'. rewrite <- Hss, appended_data, <- Hv.
  apply appended_ok; [done|lia|unfold n' in *; lia|fold extra in HR; lia| |]; fold extra; rewrite Hl.
  - intros E2. specialize (Hnar E2). lia.
  - change maxPackedListBytes with (2 ^ 25). lia.
Qed.

Lemma indexedListAppend_ok : values ≠ [] → zlen (records values) < 2 ^ 40 →
  match indexedListAppend data values with
  | Ret (n, None, data') => n = zlen (ss.*2 ++ values) ∧ indexed data' (ss.*2 ++ values) ∧ zlen data' = zlen data
  | Ret (n, Some out, data') => n = zlen (ss.*2 ++ values) ∧ indexed out (ss.*2 ++ values) ∧ data' = data
  | Err e => e = errListLimit
  | Panic _ => False
  end.
Proof using H Hvs.
  intros Hne Hmaxv. pose proof growIndexedListRaw_ok Hmaxv as Hgrow. pose proof append_in_place as Hin.
  unfold indexedListAppend. pose proof (ix_meta H) as Em. fold data in Em. fold used in Em. fold start in Em. rewrite Em. cbn [mbind res_bind lm_count lm_capacity lm_used lm_start].
  pose proof (proj2 (ix_is H)) as Ew. fold data in Ew. rewrite Ew, record_bytes_ok by done. pose proof (ix_parts H) as (Hlen&_&Hu&Ht&_). fold data in Hlen. fold start in Hlen. fold used in Hlen, Hu.
  assert (Hst : 0 ≤ start) by (unfold start; pose proof (ix_cap _ _ _ _ _ _ H); destruct (ix_width _ _ _ _ _ _ H); nia).
  assert (Hslow : match (if (cap <? zlen ss + zlen values) || (zlen data <? start + used + zlen (records values))
      then grown ← growIndexedListRaw data values;
           match grown with
           | Some (n, out) => Ret (n, Some out, data)
           | None => elements ← decodeIndexedList data; rebuilt ← encodeIndexedList (elements ++ values); Ret (zlen (elements ++ values), Some rebuilt, data)
           end
      else '(data, cursor) ← append_values data start w (zlen ss) used values;
           data ← put_le 4 data 3 (zlen ss + zlen values); data ← put_le 4 data 11 cursor; Ret (zlen ss + zlen values, None, data)) with
    | Ret (n, None, data') => n = zlen (ss.*2 ++ values) ∧ indexed data' (ss.*2 ++ values) ∧ zlen data' = zlen data
    | Ret (n, Some out, data') => n = zlen (ss.*2 ++ values) ∧ indexed out (ss.*2 ++ values) ∧ data' = data
    | Err e => e = errListLimit
    | Panic _ => False
    end).
  { destruct (Z.ltb_spec cap (zlen ss + zlen values)) as [|Hc], (Z.ltb_spec (zlen data) (start + used + zlen (records values))) as [|Hr]; cbn [orb].
    1-3: destruct (growIndexedListRaw data values) as [[[n out]|]| |]; cbn [mbind res_bind]; naive_solver.
    destruct (Hin Hc Hr) as (data'&E&Hi&Hl). apply res_bind_inv in E as ([d cur]&E1&E). rewrite E1. cbn [mbind res_bind].
    apply res_bind_inv in E as (d1&E2&E). rewrite E2. cbn [mbind res_bind]. apply res_bind_inv in E as (d2&E3&E). rewrite E3. cbn [mbind res_bind].
    injection E as ->. split; [by rewrite zlen_app, zlen_values|done]. }
  destruct values as [|v [|v' vs]]; [done| |exact Hslow]. cbv zeta.
  destruct (Z.leb_spec (zlen ss + 1) cap) as [Hc|]; [|exact Hslow].
  destruct (Z.leb_spec (start + used + (zlen (put_uvarint (zlen v)) + zlen v)) (zlen data)) as [Hr|]; [|exact Hslow]. cbn [andb]. clear Hslow.
  assert (Er : zlen (records [v]) = zlen (put_uvarint (zlen v)) + zlen v) by (rewrite records_cons, app_nil_r; apply zlen_record).
  destruct Hin as (data'&E&Hi&Hl); [done|by rewrite Er|]. rewrite append_one in E by lia.
  apply res_bind_inv in E as ([d cur]&E0&E). apply res_bind_inv in E0 as (d1&E1&E0). rewrite E1. cbn [mbind res_bind].
  apply res_bind_inv in E0 as (d2&E2&E0). rewrite E2. cbn [mbind res_bind]. apply res_bind_inv in E0 as (d3&E3&E0). rewrite E3. cbn [mbind res_bind]. injection E0 as -> <-.
  apply res_bind_inv in E as (d4&E4&E). change (zlen [v]) with 1 in E4. rewrite E4. cbn [mbind res_bind]. apply res_bind_inv in E as (d5&E5&E). rewrite E5. cbn [mbind res_bind].
  injection E as ->. split; [by rewrite zlen_app, zlen_values|done].
Qed.

End Append.

(** ** Trimming and popping *)

Lemma indexed_data_ok w cap ss gap rest tail : width_ok w → 32 ≤ cap → zlen ss ≤ cap → zlen rest = cap * w - zlen ss * w →
  (w = 2 → zlen (body ss ++ gap) + zlen tail ≤ indexedListNarrowMaxPayload) → 15 + cap * w + (zlen (body ss ++ gap) + zlen tail) ≤ maxPackedListBytes →
  indexed (indexed_data w cap ss gap rest tail) ss.*2.
Proof.
  intros Hw Hcap Hn Hr H2 Hmax. pose proof (appended_ok w cap ss gap [] rest tail Hw Hcap) as A. cbn [attach left_gap] in A.
  change (zlen (@nil (list byte))) with 0 in A. change (zlen (records [])) with 0 in A. rewrite !app_nil_r, !Z.add_0_r in A. by apply A.
Qed.

Lemma spans_app base s1 s2 : spans base (s1 ++ s2) = spans base s1 ++ spans (base + zlen (body s1)) s2.
Proof.
  revert base. induction s1 as [|p s1 IH]; intros base; [cbn [app spans]; f_equal; change (zlen (body [])) with 0; lia|].
  cbn [app spans]. rewrite IH, body_cons, zlen_app. by rewrite Z.add_assoc.
Qed.

Lemma reclaim_bounds base s2 : ∀ used, base + zlen (body s2) ≤ used → base ≤ reclaim used (rev (spans base s2).*2) ≤ used.
Proof.
  induction s2 as [|p s2 IH] using rev_ind; intros used Hu; [change (zlen (body [])) with 0 in Hu; cbn; lia|].
  rewrite spans_app, fmap_app, rev_app_distr. cbn [spans fmap list_fmap rev app snd reclaim].
  rewrite body_app, zlen_app in Hu. change (body [p]) with (slot_bytes p ++ []) in Hu. rewrite app_nil_r in Hu.
  pose proof (zlen_nonneg (body s2)). pose proof (zlen_nonneg p.1). pose proof (zlen_slot p). pose proof (record_pos p.2).
  destruct (Z.eqb_spec (base + zlen (body s2) + zlen (slot_bytes p)) used); [|lia].
  specialize (IH (base + zlen (body s2) + zlen p.1)). lia.
Qed.

Lemma clear_bytes_app a b c lo hi : lo = zlen a → hi = lo + zlen b → clear_bytes (a ++ b ++ c) lo hi = Ret (a ++ replicate (length b) x00 ++ c).
Proof. intros Hlo ->. unfold clear_bytes. apply within_app; [done..|]. apply length_replicate. Qed.

Section Trim.
Context {w cap : Z} {ss : list slot} {gap rest tail : list byte}.
Context (H : indexed_ok w cap ss gap rest tail).
Let data := indexed_data w cap ss gap rest tail.
Let used := zlen (body ss ++ gap).
Let start := 15 + cap * w.

Lemma trimIndexedList_ok :
  match trimIndexedList data with
  | Ret None => True
  | Ret (Some out) => indexed out ss.*2 ∧ zlen out < zlen data
  | Err _ | Panic _ => False
  end.
Proof using H.
  unfold trimIndexedList. pose proof (ix_meta H) as Em. fold data in Em. fold used in Em. fold start in Em. rewrite Em. cbn [lm_count lm_capacity lm_used lm_start].
  pose proof (ix_live H) as El. fold data in El. fold used in El. fold start in El. rewrite El. cbn [mbind res_bind].
  pose proof (live_le H) as Hlive. pose proof (ix_parts H) as (Hlen&Hmax&Hu&Ht&_). fold data in Hlen. fold start in Hlen, Hmax. fold used in Hlen, Hmax, Hu, Hlive.
  pose proof (zlen_nonneg ss). pose proof (zlen_nonneg (records ss.*2)). pose proof (ix_cap _ _ _ _ _ _ H) as Hcap.
  assert (Hst : 0 ≤ start) by (unfold start; destruct (ix_width _ _ _ _ _ _ H); nia).
  set (live := zlen (records ss.*2)) in *. set (cap' := if _ <? indexedListPromoteElements then _ else _).
  assert (Hc' : 32 ≤ cap' ∧ zlen ss ≤ cap').
  { unfold cap'. change indexedListPromoteElements with 32. destruct (Z.ltb_spec (zlen ss) 32); lia. }
  destruct (width_for live) as (Hw'&Hnar&Hfit). set (w' := indexedListWidthFor live) in *. clearbody w' cap'. change indexedListFixed with 15.
  destruct (Z.leb_spec (zlen data) (15 + cap' * w' + live)) as [|Hlt]; [done|]. assert (Hw0 : 0 < w') by (destruct Hw'; lia).
  assert (Hcw : 0 ≤ cap' * w') by (apply Z.mul_nonneg_nonneg; lia).
  assert (Hnw : zlen ss * w' ≤ cap' * w') by (apply Z.mul_le_mono_nonneg_r; lia).
  pose proof (fresh_buffer H w' (cap' * w') live Hcw ltac:(lia)) as Ef. fold data in Ef. change indexedListFixed with 15 in Ef.
  apply res_bind_inv in Ef as (fixed&Ef1&Ef). rewrite Ef1. cbn [mbind res_bind]. apply res_bind_inv in Ef as (o&Ef2&Ef). rewrite Ef2. cbn [mbind res_bind]. rewrite Ef. cbn [mbind res_bind].
  destruct (copy_contents_ok H Hw' (fixed_part w' (zlen ss) cap used) (zeros (cap' * w')) (zeros live)) as (ss'&gap'&X&Y&Ec&Hv&Hl&HX&HY);
    [apply zlen_fixed|rewrite zlen_replicate by done; lia|rewrite zlen_replicate; lia|fold live; lia|].
  fold data in Ec. fold used in Ec. fold start in Ec. fold live in Ec, Hl, HY. rewrite !zlen_replicate in HX by done. rewrite !zlen_replicate in HY by lia. rewrite !zlen_replicate in Ec by done.
  fold used. rewrite Ec. cbn [mbind res_bind]. rewrite put_cap. cbn [mbind res_bind]. rewrite put_used. cbn [mbind res_bind].
  assert (Hss : zlen ss' = zlen ss) by (by rewrite <- !zlen_values, Hv).
  assert (Ed : fixed_part w' (zlen ss) cap' live ++ (table w' (offsets 0 ss') ++ X) ++ (body ss' ++ gap') ++ Y = indexed_data w' cap' ss' gap' X Y)
    by (unfold indexed_data; by rewrite Hl, Hss).
  rewrite Ed. split.
  - rewrite <- Hv. apply indexed_data_ok; [done|lia|lia|lia| |]; rewrite Hl.
    + intros E2. specialize (Hnar E2). lia.
    + change maxPackedListBytes with (2 ^ 25). lia.
  - rewrite <- Ed, !zlen_app, zlen_fixed, zlen_table, zlen_offsets, Hss by lia. rewrite zlen_app in Hl. lia.
Qed.

Lemma pop_left_data s1 p s2 : ss = s1 ++ p :: s2 → 16 ≤ zlen (p :: s2) →
  ∃ data', (data ← within 15 (15 + zlen ss * w) (fun table =>
              rest ← or_panic (zslice table (zlen s1 * w) (zlen table)) oob;
              clear_bytes (copy_at table 0 rest) (zlen (p :: s2) * w) (zlen table)) data;
            put_le 4 data 3 (zlen (p :: s2))) = Ret data' ∧ indexed data' (p :: s2).*2 ∧ zlen data' = zlen data.
Proof using H.
  intros Hs H16. pose proof (ix_parts H) as (Hlen&Hmax&Hu&Ht&Hw). fold data in Hlen. fold start in Hlen, Hmax. fold used in Hlen, Hmax, Hu.
  pose proof (ix_table _ _ _ _ _ _ H) as Htab. rewrite zlen_app in Htab. pose proof (ix_count _ _ _ _ _ _ H) as Hcount.
  set (T1 := table w (offsets 0 s1)). set (T2 := table w (offsets (zlen (body s1)) (p :: s2))).
  assert (ET : table w (offsets 0 ss) = T1 ++ T2) by (rewrite Hs, offsets_app, table_app; done).
  assert (H1 : zlen T1 = zlen s1 * w) by (unfold T1; by rewrite zlen_table, zlen_offsets by lia).
  assert (H2 : zlen T2 = zlen (p :: s2) * w) by (unfold T2; by rewrite zlen_table, zlen_offsets by lia).
  assert (Hn : zlen ss = zlen s1 + zlen (p :: s2)) by (rewrite Hs; apply zlen_app).
  assert (HT : zlen (T1 ++ T2) = zlen ss * w) by (rewrite zlen_app, H1, H2, Hn; lia).
  assert (Ed : data = fixed_part w (zlen ss) cap used ++ (T1 ++ T2) ++ (rest ++ (body ss ++ gap) ++ tail)) by (unfold data, indexed_data; rewrite ET; by rewrite <- !app_assoc).
  set (f := fun table : list byte => _ ≫= _).
  assert (Ef : f (T1 ++ T2) = Ret (T2 ++ replicate (length T1) x00)).
  { unfold f. rewrite zslice_to_end by (done || lia). cbn [or_panic mbind res_bind].
    assert (Ec : copy_at (T1 ++ T2) 0 T2 = T2 ++ drop (length T2) (T1 ++ T2)).
    { unfold copy_at. cbn [Z.to_nat take]. rewrite app_nil_l, Nat.sub_0_r, (take_ge T2) by (rewrite length_app; lia). done. }
    rewrite Ec, <- (app_nil_r (drop _ _)), clear_bytes_app; [by rewrite app_nil_r, length_drop, length_app, Nat.add_sub|by rewrite H2|].
    unfold zlen in *. rewrite length_drop, length_app in *. lia. }
  assert (Ew : within 15 (15 + zlen ss * w) f data = Ret (fixed_part w (zlen ss) cap used ++ (T2 ++ replicate (length T1) x00) ++ (rest ++ (body ss ++ gap) ++ tail))).
  { rewrite Ed. apply within_app; [by rewrite zlen_fixed|by rewrite HT|done|]. rewrite !length_app, length_replicate. lia. }
  rewrite Ew. clear Ew Ef f. assert (Hrep : zlen (replicate (length T1) x00) = zlen T1) by (unfold zlen; by rewrite length_replicate).
  cbn [mbind res_bind]. rewrite put_count. eexists. split; [done|].
  assert (E2 : fixed_part w (zlen (p :: s2)) cap used ++ (T2 ++ replicate (length T1) x00) ++ rest ++ (body ss ++ gap) ++ tail =
    indexed_data w cap ((body s1 ++ p.1, p.2) :: s2) gap (replicate (length T1) x00 ++ rest) tail).
  { unfold indexed_data. assert (Eb : body ((body s1 ++ p.1, p.2) :: s2) = body ss).
    { rewrite Hs, body_app, !body_cons. unfold slot_bytes. cbn [fst snd]. by rewrite <- !app_assoc. }
    rewrite Eb. fold used. rewrite !zlen_cons. unfold T2. cbn [offsets fst]. unfold slot_bytes. cbn [fst snd].
    rewrite !zlen_app, Z.add_0_l, Z.add_assoc, <- !app_assoc. done. }
  rewrite E2. split.
  - change ((p :: s2).*2) with (((body s1 ++ p.1, p.2) :: s2).*2). assert (Ec : zlen ((body s1 ++ p.1, p.2) :: s2) = zlen (p :: s2)) by (by rewrite !zlen_cons).
    pose proof (zlen_nonneg s1). apply indexed_data_ok; [apply H|apply H|lia| | |].
    + rewrite zlen_app, Hrep, Ec. rewrite ET, zlen_app, H1, H2 in Htab. lia.
    + intros E. pose proof (ix_narrow _ _ _ _ _ _ H E) as Hnar. rewrite body_cons. unfold slot_bytes. cbn [fst snd].
      rewrite Hs, body_app, body_cons in Hnar. unfold slot_bytes in Hnar. rewrite !zlen_app in *. lia.
    + change maxPackedListBytes with (2 ^ 25). unfold start, used in Hmax. rewrite Hs, body_app, body_cons in Hmax. rewrite body_cons. unfold slot_bytes in *. cbn [fst snd]. rewrite !zlen_app in *. lia.
  - rewrite <- E2, Ed, !zlen_app, !zlen_fixed, Hrep. lia.
Qed.

Lemma pop_right_data s1 s2 : ss = s1 ++ s2 →
  ∃ data', (data ← clear_bytes data (15 + zlen s1 * w) (15 + zlen ss * w);
            data ← put_le 4 data 11 (reclaim used (rev (spans (zlen (body s1)) s2).*2));
            put_le 4 data 3 (zlen s1)) = Ret data' ∧ indexed data' s1.*2 ∧ zlen data' = zlen data.
Proof using H.
  intros Hs. pose proof (ix_parts H) as (Hlen&Hmax&Hu&Ht&Hw). fold data in Hlen. fold start in Hlen, Hmax. fold used in Hlen, Hmax, Hu.
  pose proof (ix_table _ _ _ _ _ _ H) as Htab. rewrite zlen_app in Htab. pose proof (ix_count _ _ _ _ _ _ H) as Hcount. pose proof (ix_narrow _ _ _ _ _ _ H) as Hnar. fold used in Hnar.
  set (T1 := table w (offsets 0 s1)). set (T2 := table w (offsets (zlen (body s1)) s2)).
  assert (ET : table w (offsets 0 ss) = T1 ++ T2) by (rewrite Hs, offsets_app, table_app; done).
  assert (H1 : zlen T1 = zlen s1 * w) by (unfold T1; by rewrite zlen_table, zlen_offsets by lia).
  assert (H2 : zlen T2 = zlen s2 * w) by (unfold T2; by rewrite zlen_table, zlen_offsets by lia).
  assert (Hn : zlen ss = zlen s1 + zlen s2) by (rewrite Hs; apply zlen_app).
  assert (Hused : used = zlen (body s1) + zlen (body s2 ++ gap)) by (unfold used; rewrite Hs, body_app, !zlen_app; lia).
  assert (Hb : body ss ++ gap = body s1 ++ (body s2 ++ gap)) by (rewrite Hs, body_app; by rewrite <- app_assoc).
  set (u := reclaim used (rev (spans (zlen (body s1)) s2).*2)).
  assert (Hu' : zlen (body s1) ≤ u ≤ used) by (apply reclaim_bounds; rewrite Hused, zlen_app; pose proof (zlen_nonneg gap); lia). clearbody u.
  destruct (zsplit (body s2 ++ gap) (u - zlen (body s1))) as (g&t1&Eg&Hg&Ht1); [lia|].
  assert (Ed : data = (fixed_part w (zlen ss) cap used ++ T1) ++ T2 ++ (rest ++ (body ss ++ gap) ++ tail)) by (unfold data, indexed_data; rewrite ET; by rewrite <- !app_assoc).
  assert (Ec : clear_bytes data (15 + zlen s1 * w) (15 + zlen ss * w) = Ret ((fixed_part w (zlen ss) cap used ++ T1) ++ replicate (length T2) x00 ++ (rest ++ (body ss ++ gap) ++ tail))).
  { rewrite Ed. apply clear_bytes_app; [by rewrite zlen_app, zlen_fixed, H1|]. rewrite H2, Hn. lia. }
  rewrite Ec. cbn [mbind res_bind]. rewrite <- app_assoc, put_used. cbn [mbind res_bind]. rewrite put_count. eexists. split; [done|].
  assert (Hrep : zlen (replicate (length T2) x00) = zlen T2) by (unfold zlen; by rewrite length_replicate).
  assert (E2 : fixed_part w (zlen s1) cap u ++ T1 ++ replicate (length T2) x00 ++ rest ++ (body ss ++ gap) ++ tail =
    indexed_data w cap s1 g (replicate (length T2) x00 ++ rest) (t1 ++ tail)).
  { unfold indexed_data. replace (zlen (body s1 ++ g)) with u by (rewrite zlen_app; lia). rewrite Hb, Eg. by rewrite <- !app_assoc. }
  pose proof (zlen_nonneg s2). rewrite E2. split.
  - rewrite ET, zlen_app, H1, H2 in Htab. apply indexed_data_ok; [apply H|apply H|lia| | |].
    + rewrite zlen_app, Hrep, H2. lia.
    + intros E. specialize (Hnar E). rewrite !zlen_app in *. lia.
    + change maxPackedListBytes with (2 ^ 25). unfold start in Hmax. rewrite !zlen_app in *. lia.
  - rewrite <- E2, Ed, !zlen_app, !zlen_fixed, Hrep. lia.
Qed.

(** A pop is declined, or it returns the values of its end in pop order and
    leaves the others. *)
Lemma indexedListPop_ok n left :
  indexedListPop data n left = Ret None ∨
  16 ≤ zlen ss - n ∧ 0 < n ∧ ∃ data', zlen data' = zlen data ∧
    (if left then indexedListPop data n true = Ret (Some (take (Z.to_nat n) ss.*2, data')) ∧ indexed data' (drop (Z.to_nat n) ss.*2)
     else indexedListPop data n false = Ret (Some (rev (drop (Z.to_nat (zlen ss - n)) ss.*2), data')) ∧ indexed data' (take (Z.to_nat (zlen ss - n)) ss.*2)).
Proof using H.
  unfold indexedListPop. pose proof (ix_meta H) as Em. fold data in Em. fold used in Em. fold start in Em. rewrite Em. cbn [lm_count lm_capacity lm_used lm_start].
  change indexedListPopMinCount with 16. destruct (Z.leb_spec n 0) as [|H0]; [by left|]. destruct (Z.ltb_spec (zlen ss) n) as [|H1]; [by left|].
  destruct (Z.ltb_spec (zlen ss - n) 16) as [|H16]; [by left|]. cbn [orb]. right. split_and!; [lia..|].
  pose proof (proj2 (ix_is H)) as Ew. fold data in Ew. rewrite !Ew. change indexedListFixed with 15. destruct left.
  - set (s1 := take (Z.to_nat n) ss). set (s2 := drop (Z.to_nat n) ss). assert (Hs : ss = s1 ++ s2) by (unfold s1, s2; by rewrite take_drop).
    assert (L1 : zlen s1 = n) by (unfold s1, zlen in *; rewrite length_take; lia). assert (L2 : zlen s2 = zlen ss - n) by (unfold s2, zlen in *; rewrite length_drop; lia).
    pose proof (ix_pop_loop H [] s1 s2 Hs) as Ep. fold data in Ep. fold used in Ep. change (zlen (@nil slot)) with 0 in Ep. rewrite <- L1, to_nat_zlen, Ep. cbn [mbind res_bind].
    destruct s2 as [|p s2'] eqn:E2; [rewrite zlen_nil in L2; lia|]. destruct (pop_left_data s1 p s2' Hs) as (data'&E&Hi&Hl); [lia|].
    apply res_bind_inv in E as (d&Ed&E). replace (zlen ss - zlen s1) with (zlen (p :: s2')) by lia. rewrite Ed. cbn [mbind res_bind]. rewrite E. cbn [mbind res_bind].
    exists data'. split; [done|]. assert (Hls : length s1 = Z.to_nat n) by (rewrite <- L1; symmetry; apply to_nat_zlen). rewrite spans_values, Hls. unfold s1. split; [by rewrite fmap_take|]. rewrite <- fmap_drop. unfold s2 in E2. by rewrite E2.
  - set (s1 := take (Z.to_nat (zlen ss - n)) ss). set (s2 := drop (Z.to_nat (zlen ss - n)) ss). assert (Hs : ss = s1 ++ s2) by (unfold s1, s2; by rewrite take_drop).
    assert (L1 : zlen s1 = zlen ss - n) by (unfold s1, zlen in *; rewrite length_take; lia). assert (L2 : zlen s2 = n) by (unfold s2, zlen in *; rewrite length_drop; lia).
    pose proof (ix_pop_loop H s1 s2 [] ltac:(by rewrite app_nil_r)) as Ep. fold data in Ep. fold used in Ep. rewrite <- L1. replace (Z.to_nat n) with (length s2) by (rewrite <- L2; symmetry; apply to_nat_zlen). rewrite Ep. cbn [mbind res_bind].
    destruct (pop_right_data s1 s2 Hs) as (data'&E&Hi&Hl). apply res_bind_inv in E as (d&Ed&E). rewrite Ed. cbn [mbind res_bind].
    apply res_bind_inv in E as (d1&Ed1&E). rewrite Ed1. cbn [mbind res_bind]. rewrite E. cbn [mbind res_bind].
    exists data'. split; [done|]. rewrite spans_values, ?L1. unfold s2. split; [by rewrite fmap_drop|]. by rewrite <- fmap_take.
Qed.
End Trim.
