(* ===== verification/ListCold.v ===== *)
(** * Lists: the cold layout

    Records back to back behind a table that holds the start of every eighth
    one. *)
From S2P Require Import Prelude Slices ListPack ListFacts ListIndexed.
Set Default Proof Using "Type".

(** Starts of the records at multiples of the stride, for a list that begins at
    position [i] and byte [base]. *)
Fixpoint cold_offsets (i base : Z) (L : list (list byte)) : list Z :=
  match L with
  | [] => []
  | v :: L => (if i mod 8 =? 0 then [base] else []) ++ cold_offsets (i + 1) (base + zlen (record v)) L
  end.

Definition cold_width (L : list (list byte)) : Z := coldListTableWidth (zlen (records L)).
Definition cold_table (L : list (list byte)) : list byte := concat (le_put (Z.to_nat (cold_width L)) <$> cold_offsets 0 0 L).
Definition cold (L : list (list byte)) : list byte :=
  (coldListHeader ++ le_put 4 (zlen L) ++ le_put 4 (zlen (records L))) ++ cold_table L ++ records L.
Definition cold_ok (L : list (list byte)) : Prop := zlen (cold L) ≤ maxPackedListBytes.

(** Elements before the next multiple of eight. *)
Definition to_next (i : Z) : Z := (8 - i mod 8) mod 8.

Lemma to_next_step i : i mod 8 = 0 ∧ to_next i = 0 ∧ to_next (i + 1) = 7 ∨ i mod 8 ≠ 0 ∧ to_next (i + 1) = to_next i - 1 ∧ 1 ≤ to_next i ≤ 7.
Proof. unfold to_next. dlia. Qed.

Lemma cold_offsets_lookup L : ∀ i base j, cold_offsets i base L !! j =
  if to_next i + 8 * Z.of_nat j <? zlen L then Some (base + zlen (records (take (Z.to_nat (to_next i + 8 * Z.of_nat j)) L))) else None.
Proof.
  induction L as [|v L IH]; intros i base j.
  { cbn [cold_offsets]. rewrite lookup_nil, zlen_nil. rewrite (proj2 (Z.ltb_ge _ _)); [done|]. pose proof (Z.mod_pos_bound (8 - i mod 8) 8). unfold to_next. lia. }
  cbn [cold_offsets]. rewrite zlen_cons. destruct (to_next_step i) as [(E0&E1&E2)|(E0&E1&E2)].
  - rewrite (proj2 (Z.eqb_eq _ _) E0). cbn [app]. destruct j as [|j].
    + rewrite E1. rewrite (proj2 (Z.ltb_lt _ _)) by (pose proof (zlen_nonneg L); lia). cbn [lookup list_lookup]. change (zlen (records _)) with 0. by rewrite Z.add_0_r.
    + cbn [lookup list_lookup]. rewrite IH, E1, E2. destruct (Z.ltb_spec (7 + 8 * Z.of_nat j) (zlen L)), (Z.ltb_spec (0 + 8 * Z.of_nat (S j)) (1 + zlen L)); try lia; [|done].
      replace (Z.to_nat (0 + 8 * Z.of_nat (S j))) with (S (Z.to_nat (7 + 8 * Z.of_nat j))) by lia. cbn [take]. rewrite records_cons, zlen_app. apply (f_equal Some). lia.
  - rewrite (proj2 (Z.eqb_neq _ _) E0). cbn [app]. rewrite IH, E1.
    destruct (Z.ltb_spec (to_next i - 1 + 8 * Z.of_nat j) (zlen L)), (Z.ltb_spec (to_next i + 8 * Z.of_nat j) (1 + zlen L)); try lia; [|done].
    replace (Z.to_nat (to_next i + 8 * Z.of_nat j)) with (S (Z.to_nat (to_next i - 1 + 8 * Z.of_nat j))) by lia. cbn [take]. rewrite records_cons, zlen_app. apply (f_equal Some). lia.
Qed.

Lemma zlen_cold_offsets L : ∀ i base, zlen (cold_offsets i base L) = (zlen L - to_next i + 7) / 8.
Proof.
  induction L as [|v L IH]; intros i base.
  { cbn [cold_offsets]. change (zlen (@nil Z)) with 0. change (zlen (@nil (list byte))) with 0. pose proof (Z.mod_pos_bound (8 - i mod 8) 8 ltac:(lia)). unfold to_next. symmetry. apply Z.div_small. lia. }
  cbn [cold_offsets]. rewrite zlen_app, IH, zlen_cons. pose proof (zlen_nonneg L). destruct (to_next_step i) as [(E0&E1&E2)|(E0&E1&E2)].
  - rewrite (proj2 (Z.eqb_eq _ _) E0), E1, E2. change (zlen [base]) with 1. replace (1 + zlen L - 0 + 7) with (zlen L + 1 * 8) by lia.
    rewrite Z.div_add by lia. replace (zlen L - 7 + 7) with (zlen L) by lia. lia.
  - rewrite (proj2 (Z.eqb_neq _ _) E0), E1, zlen_nil. rewrite Z.add_0_l. f_equal. lia.
Qed.

Lemma cold_width_ok L : width_ok (cold_width L) ∧ (zlen (records L) < 2 ^ 32 → zlen (records L) < 2 ^ (8 * cold_width L)).
Proof.
  unfold cold_width, coldListTableWidth, width_ok. change (Z.shiftl 1 16) with 65536. destruct (Z.ltb_spec (zlen (records L)) 65536); split; auto.
Qed.

Lemma zlen_cold_table L : zlen (cold_table L) = coldListTableEntries (zlen L) * cold_width L.
Proof.
  unfold cold_table, coldListTableEntries. change coldListStride with 8. destruct (cold_width_ok L) as [Hw _]. set (w := cold_width L) in *. clearbody w.
  assert (Hc : ∀ l, zlen (concat (le_put (Z.to_nat w) <$> l)) = zlen l * w).
  { induction l as [|x l IH]; [done|]. rewrite fmap_cons. cbn [concat]. rewrite zlen_app, zlen_le_put, zlen_cons, IH. destruct Hw; lia. }
  rewrite Hc, zlen_cold_offsets. f_equal. change (to_next 0) with 0. f_equal. lia.
Qed.

(** ** Encoding *)

Lemma put_cold_ok H w L : zlen H = 11 → width_ok w → small L → ∀ T R B i, 0 ≤ i → zlen T = ((i + 7) / 8) * w → zlen R = zlen (cold_offsets i (zlen B) L) * w →
  zlen B + zlen (records L) < 2 ^ (8 * w) →
  put_cold (H ++ (T ++ R) ++ B) w i (zlen B) L = Ret (H ++ (T ++ concat (le_put (Z.to_nat w) <$> cold_offsets i (zlen B) L)) ++ B ++ records L).
Proof.
  intros HH Hw Hs. assert (Hw0 : 0 < w) by (destruct Hw; lia). pose proof (width_pow w Hw) as Hpow.
  induction Hs as [|v L Hv _ IH]; intros T R B i Hi HT HR Hb.
  { assert (R = []) as -> by (apply nil_length_inv; cbn [cold_offsets] in HR; unfold zlen in HR; cbn [length] in HR; lia).
    cbn [put_cold cold_offsets fmap list_fmap concat]. change (records []) with (@nil byte). by rewrite !app_nil_r. }
  cbn [put_cold]. rewrite records_cons, zlen_app in Hb. pose proof (record_pos v). pose proof (zlen_nonneg (records L)). pose proof (zlen_nonneg B). pose proof (zlen_nonneg v).
  change coldListStride with 8. change coldListFixed with 11. cbn [cold_offsets] in *. rewrite zlen_app in HR.
  assert (Hrec : appendListUvarint B (zlen v) ++ v = B ++ record v) by (unfold appendListUvarint, record; by rewrite <- app_assoc).
  rewrite listUvarintLen_ok by lia. replace (zlen (put_uvarint (zlen v)) + zlen v) with (zlen (record v)) by (apply zlen_record).
  pose proof (IH T R (B ++ record v) (i + 1)) as IH1. rewrite zlen_app in IH1.
  destruct (Z.eqb_spec (i mod 8) 0) as [E|E].
  - change (zlen [zlen B]) with 1 in HR. pose proof (zlen_nonneg (cold_offsets (i + 1) (zlen B + zlen (record v)) L)).
    destruct (zsplit R w) as (c&R1&->&Hc&HR1); [nia|].
    assert (Ew : within 11 (zlen (H ++ (T ++ c ++ R1) ++ B)) (fun table => putListOffset table w (i / 8) (u32 (zlen B))) (H ++ (T ++ c ++ R1) ++ B) =
        Ret (H ++ (T ++ le_put (Z.to_nat w) (zlen B) ++ R1) ++ B)).
    { apply within_tail; [done| |rewrite !length_app, length_le_put; unfold zlen in Hc; lia]. rewrite u32_id by lia. rewrite <- !app_assoc.
      apply putListOffset_ok; [done|rewrite HT; f_equal; dlia|done|lia]. }
    rewrite Ew. cbn [mbind res_bind].
    replace (appendListUvarint (H ++ (T ++ le_put (Z.to_nat w) (zlen B) ++ R1) ++ B) (zlen v) ++ v)
      with (H ++ ((T ++ le_put (Z.to_nat w) (zlen B)) ++ R1) ++ (B ++ record v)) by (rewrite <- Hrec; unfold appendListUvarint; by rewrite <- !app_assoc).
    pose proof (IH (T ++ le_put (Z.to_nat w) (zlen B)) R1 (B ++ record v) (i + 1)) as IH2. rewrite (zlen_app B) in IH2. rewrite IH2.
    + cbn [app]. rewrite fmap_cons. cbn [concat]. rewrite records_cons, <- !app_assoc. done.
    + lia.
    + rewrite zlen_app, zlen_le_put, HT. replace (i + 1 + 7) with (i + 1 * 8) by lia. rewrite Z.div_add by lia.
      replace ((i + 7) / 8) with (i / 8) by dlia. lia.
    + rewrite zlen_app in HR. lia.
    + lia.
  - cbn [mbind res_bind app]. replace (appendListUvarint (H ++ (T ++ R) ++ B) (zlen v) ++ v) with (H ++ (T ++ R) ++ (B ++ record v))
      by (rewrite <- Hrec; unfold appendListUvarint; by rewrite <- !app_assoc).
    cbn [app] in HR. rewrite zlen_nil in HR. rewrite IH1; [|lia|rewrite HT; f_equal; dlia|lia|lia]. rewrite records_cons. by rewrite <- !app_assoc.
Qed.

Lemma zlen_cold L : zlen (cold L) = 11 + coldListTableEntries (zlen L) * cold_width L + zlen (records L).
Proof. unfold cold. rewrite !zlen_app, !zlen_le_put, zlen_cold_table. change (zlen coldListHeader) with 3. lia. Qed.

Lemma cold_bounds L : cold_ok L → 0 ≤ coldListTableEntries (zlen L) * cold_width L ∧ zlen (cold L) ≤ 2 ^ 25 ∧ zlen L < 2 ^ 32 ∧ small L.
Proof.
  intros H. unfold cold_ok in H. change maxPackedListBytes with (2 ^ 25) in H. pose proof (records_count L). pose proof (zlen_nonneg L).
  pose proof (zlen_cold L) as E. pose proof (zlen_nonneg (cold_table L)) as Ht. rewrite zlen_cold_table in Ht. split_and!; [done|done|lia|].
  apply (records_small L (2 ^ 25)); [lia|done].
Qed.

Lemma encodeColdList_eq L : small L → encodeColdList L = if zlen (cold L) <=? maxPackedListBytes then Ret (cold L) else Err errListLimit.
Proof.
  intros Hs. unfold encodeColdList. rewrite record_bytes_ok by done. fold (cold_width L). change coldListFixed with 11. rewrite <- zlen_cold.
  destruct (Z.leb_spec (zlen (cold L)) maxPackedListBytes) as [Hle|Hgt]; [|by rewrite (proj2 (Z.ltb_lt _ _)) by done].
  rewrite (proj2 (Z.ltb_ge _ _)) by done. destruct (cold_bounds L Hle) as (H0&H1&H2&_). rewrite zlen_cold in H1. pose proof (zlen_nonneg (records L)).
  set (tb := coldListTableEntries (zlen L) * cold_width L) in *.
  assert (E0 : copy_at (zeros (11 + tb)) 0 coldListHeader = coldListHeader ++ replicate 4 x00 ++ replicate 4 x00 ++ zeros tb).
  { rewrite replicate_split by lia. rewrite <- (app_nil_l (zeros 11 ++ _)). change (zeros 11) with (replicate 3 x00 ++ replicate 4 x00 ++ replicate 4 x00).
    rewrite <- !app_assoc. by apply (copy_at_app (a := []) (b := replicate 3 x00)). }
  rewrite E0. rewrite put_le_app by done. cbn [mbind res_bind]. rewrite app_assoc.
  rewrite put_le_app; [|rewrite zlen_app, zlen_le_put; done|done]. cbn [mbind res_bind].
  destruct (cold_width_ok L) as [Hw Hfit]. set (hd := coldListHeader ++ le_put 4 (zlen L) ++ le_put 4 (zlen (records L))).
  pose proof (put_cold_ok hd (cold_width L) L) as P.
  specialize (P ltac:(unfold hd; rewrite !zlen_app, !zlen_le_put; done) Hw Hs [] (zeros tb) [] 0 ltac:(lia)).
  change (zlen (@nil byte)) with 0 in P. rewrite !app_nil_l, app_nil_r in P.
  replace ((coldListHeader ++ le_put 4 (zlen L)) ++ le_put 4 (zlen (records L)) ++ zeros tb) with (hd ++ zeros tb) by (unfold hd; by rewrite <- !app_assoc).
  rewrite P; [done|done| |lia]. rewrite zlen_replicate by lia. unfold tb. rewrite zlen_cold_offsets. f_equal. unfold coldListTableEntries. change coldListStride with 8.
  change (to_next 0) with 0. f_equal. lia.
Qed.

(** ** Reading *)

Section Cold.
Context {L : list (list byte)} (Hok : cold_ok L).
Let start := 11 + coldListTableEntries (zlen L) * cold_width L.
Let payload := zlen (records L).

Lemma cold_is : isColdList (cold L) = true ∧ isIndexedList (cold L) = false.
Proof using Hok.
  destruct (cold_bounds L Hok) as (H0&_). pose proof (zlen_cold L). pose proof (zlen_nonneg (records L)). unfold isColdList, isIndexedList.
  change coldListFixed with 11. rewrite (proj2 (Z.leb_le 11 _)) by lia. split; [done|]. apply andb_false_r.
Qed.

Lemma coldListMeta_ok : coldListMeta (cold L) = Ret (mkColdMeta (zlen L) payload (cold_width L) start).
Proof using Hok.
  destruct (cold_bounds L Hok) as (H0&H1&H2&_). pose proof (zlen_cold L) as E. pose proof (zlen_nonneg (records L)). pose proof (zlen_nonneg L).
  unfold coldListMeta. rewrite (proj1 cold_is). cbn [negb].
  assert (E1 : get_le 4 (cold L) 3 = Ret (zlen L)).
  { unfold cold. rewrite <- !app_assoc. rewrite get_le_app; [|done|apply length_le_put]. rewrite le_get_put. f_equal. by apply Z.mod_small. }
  assert (E2 : get_le 4 (cold L) 7 = Ret payload).
  { unfold cold. rewrite <- !app_assoc. rewrite app_assoc. rewrite get_le_app; [|by rewrite zlen_app, zlen_le_put|apply length_le_put].
    rewrite le_get_put. f_equal. apply Z.mod_small. change (8 * Z.of_nat 4) with 32. lia. }
  rewrite E1, E2. cbn [mbind res_bind]. change (coldListTableWidth payload) with (cold_width L). change coldListFixed with 11. fold start.
  rewrite (proj2 (Z.ltb_ge (zlen L) 0)), (proj2 (Z.ltb_ge payload 0)) by (done || lia). cbn [orb].
  replace (start + payload) with (zlen (cold L)) by (unfold payload, start; lia). by rewrite Z.eqb_refl.
Qed.

(** The payload from a record on. *)
Lemma cold_from L1 v L2 : L = L1 ++ v :: L2 → ∃ a, cold L = a ++ record v ++ records L2 ∧ zlen a = start + zlen (records L1).
Proof using.
  intros E. exists ((coldListHeader ++ le_put 4 (zlen L) ++ le_put 4 (zlen (records L))) ++ cold_table L ++ records L1). split.
  - unfold cold. rewrite E at 4. rewrite records_app, records_cons. by rewrite <- !app_assoc.
  - rewrite !zlen_app, !zlen_le_put, zlen_cold_table. change (zlen coldListHeader) with 3. unfold start. lia.
Qed.

Lemma cold_length_ok L1 v L2 : L = L1 ++ v :: L2 → cold_length (cold L) (zlen (records L1)) start payload = Ret (zlen v, zlen (put_uvarint (zlen v))).
Proof using Hok.
  intros E. destruct (cold_bounds L Hok) as (_&_&_&Hs). assert (Hv : zlen v < 2 ^ 64) by (rewrite E in Hs; apply Forall_app in Hs as [_ Hs]; by inversion Hs).
  destruct (cold_from L1 v L2 E) as (a&Ec&Ha). unfold cold_length. rewrite Ec.
  assert (Hp : payload = zlen (records L1) + zlen (record v) + zlen (records L2)) by (unfold payload; rewrite E, records_app, records_cons, !zlen_app; lia).
  rewrite zslice_to_end; [|lia|rewrite !zlen_app; lia]. cbn [or_panic mbind res_bind]. unfold record at 1. rewrite <- app_assoc. pose proof (zlen_nonneg v).
  rewrite uvarint_put by lia. pose proof (put_uvarint_len_bound (zlen v)). pose proof (zlen_record v). pose proof (zlen_nonneg (records L2)).
  rewrite (proj2 (Z.leb_gt _ _)), (proj2 (Z.ltb_ge _ _)) by lia. done.
Qed.

Lemma coldListRecord_ok L1 v L2 : L = L1 ++ v :: L2 → coldListRecord (cold L) (zlen (records L1)) start payload = Ret (v, zlen (records (L1 ++ [v]))).
Proof using Hok.
  intros E. unfold coldListRecord. rewrite (cold_length_ok L1 v L2 E). cbn [mbind res_bind]. destruct (cold_from L1 v L2 E) as (a&Ec&Ha). rewrite Ec.
  rewrite slice_record by lia. cbn [or_panic mbind res_bind]. rewrite records_app, zlen_app. change (records [v]) with (record v ++ []). rewrite app_nil_r, zlen_record. do 2 f_equal. lia.
Qed.

Lemma cold_skip_ok L2 : ∀ L1 L3, L = L1 ++ L2 ++ L3 → cold_skip (length L2) (cold L) (zlen (records L1)) start payload = Ret (zlen (records (L1 ++ L2))).
Proof using Hok.
  induction L2 as [|v L2 IH]; intros L1 L3 E; [by rewrite app_nil_r|]. cbn [length cold_skip]. rewrite (cold_length_ok L1 v (L2 ++ L3) E). cbn [mbind res_bind].
  rewrite <- zlen_record, <- zlen_app. replace (records L1 ++ record v) with (records (L1 ++ [v])) by (rewrite records_app; change (records [v]) with (record v ++ []); by rewrite app_nil_r).
  rewrite (IH _ L3) by (by rewrite <- app_assoc). by rewrite <- app_assoc.
Qed.

Lemma cold_records_ok L2 : ∀ L1 L3, L = L1 ++ L2 ++ L3 → cold_records (length L2) (cold L) (zlen (records L1)) start payload = Ret (L2, zlen (records (L1 ++ L2))).
Proof using Hok.
  induction L2 as [|v L2 IH]; intros L1 L3 E; [by rewrite app_nil_r|]. cbn [length cold_records]. rewrite (coldListRecord_ok L1 v (L2 ++ L3) E). cbn [mbind res_bind].
  rewrite (IH _ L3) by (by rewrite <- app_assoc). cbn [mbind res_bind]. by rewrite <- app_assoc.
Qed.

Lemma coldListSeek_ok i : 0 ≤ i < zlen L → coldListSeek (cold L) i (cold_width L) start payload = Ret (zlen (records (take (Z.to_nat i) L))).
Proof using Hok.
  intros Hi. destruct (cold_bounds L Hok) as (H0&H1&H2&_). pose proof (zlen_cold L) as Ez. destruct (cold_width_ok L) as [Hw Hfit]. pose proof (zlen_nonneg (records L)).
  unfold coldListSeek. assert (Et : zslice (cold L) coldListFixed (zlen (cold L)) = Some (cold_table L ++ records L)).
  { unfold cold. apply zslice_to_end; [|done]. rewrite !zlen_app, !zlen_le_put. done. }
  rewrite Et. cbn [or_panic mbind res_bind]. change coldListStride with 8.
  set (j := Z.to_nat (i / 8)). set (k := Z.to_nat (i mod 8)). assert (Hj : Z.of_nat j = i / 8) by (unfold j; rewrite Z2Nat.id; [done|apply Z.div_pos; lia]).
  assert (Hk : (k + 8 * j = Z.to_nat i)%nat) by (unfold k, j; dlia).
  assert (El : listOffset (cold_table L ++ records L) (cold_width L) (i / 8) = Ret (zlen (records (take (8 * j) L)))).
  { rewrite <- Hj. apply listOffset_raw; [done| |].
    - rewrite cold_offsets_lookup. change (to_next 0) with 0. rewrite (proj2 (Z.ltb_lt _ _)) by (rewrite Hj; dlia). rewrite !Z.add_0_l. by replace (Z.to_nat (8 * Z.of_nat j)) with (8 * j)%nat by lia.
    - split; [apply zlen_nonneg|]. eapply Z.le_lt_trans; [|apply Hfit; lia]. rewrite <- (take_drop (8 * j) L) at 2. rewrite records_app, zlen_app.
      pose proof (zlen_nonneg (records (drop (8 * j) L))). lia. }
  rewrite El. cbn [mbind res_bind].
  assert (Hlen : (k + 8 * j < length L)%nat) by (unfold zlen in Hi; lia).
  pose proof (cold_skip_ok (take k (drop (8 * j) L)) (take (8 * j) L) (drop k (drop (8 * j) L)) ltac:(by rewrite !take_drop)) as Es.
  rewrite length_take, length_drop in Es. replace (k `min` (length L - 8 * j))%nat with k in Es by lia. rewrite Es. cbn [mbind res_bind].
  rewrite (take_take_drop L (8 * j) k). replace (8 * j + k)%nat with (Z.to_nat i) by lia.
  pose proof (zlen_nonneg (records (take (Z.to_nat i) L))). rewrite (proj2 (Z.ltb_ge _ _)) by lia. cbn [orb].
  rewrite (proj2 (Z.leb_gt _ _)); [done|]. unfold payload. rewrite <- (take_drop (Z.to_nat i) L) at 2. rewrite records_app, zlen_app.
  pose proof (records_count (drop (Z.to_nat i) L)) as Hc. unfold zlen in Hc at 1. rewrite length_drop in Hc. lia.
Qed.

Lemma coldListElement_ok index : coldListElement (cold L) index = Ret (element_at L index).
Proof using Hok.
  unfold coldListElement, element_at. rewrite coldListMeta_ok. cbn [mbind res_bind cm_count cm_width cm_start cm_payload].
  set (i := if index <? 0 then index + zlen L else index).
  destruct (Z.ltb_spec i 0); cbn [orb]; [unfold znth; by rewrite (proj2 (Z.leb_gt _ _)) by lia|]. rewrite znth_lookup by done.
  destruct (Z.leb_spec (zlen L) i); [rewrite lookup_ge_None_2; [done|unfold zlen in *; lia]|]. rewrite coldListSeek_ok by lia. cbn [mbind res_bind].
  destruct (lookup_lt_is_Some_2 L (Z.to_nat i)) as [v Hv]; [unfold zlen in *; lia|].
  rewrite (coldListRecord_ok _ v _ (eq_sym (take_drop_middle L _ v Hv))). cbn [mbind res_bind]. by rewrite Hv.
Qed.

Lemma coldListRange_ok a b : coldListRange (cold L) a b = Ret (list_range L a b).
Proof using Hok.
  unfold coldListRange, list_range. rewrite coldListMeta_ok. cbn [mbind res_bind cm_count cm_width cm_start cm_payload].
  destruct (normalizeListRange (zlen L) a b) as [[x y]|] eqn:E; [|done]. apply normalize_bounds in E. rewrite coldListSeek_ok by lia. cbn [mbind res_bind].
  pose proof (cold_records_ok (take (Z.to_nat (y - x + 1)) (drop (Z.to_nat x) L)) (take (Z.to_nat x) L) (drop (Z.to_nat (y - x + 1)) (drop (Z.to_nat x) L))
    ltac:(by rewrite !take_drop)) as Er.
  replace (length (take (Z.to_nat (y - x + 1)) (drop (Z.to_nat x) L))) with (Z.to_nat (y - x + 1)) in Er by (rewrite length_take, length_drop; unfold zlen in *; lia).
  by rewrite Er.
Qed.

Lemma decodeColdList_ok : decodeColdList (cold L) = Ret L.
Proof using Hok.
  unfold decodeColdList. rewrite coldListMeta_ok. cbn [mbind res_bind cm_count cm_start cm_payload]. rewrite to_nat_zlen.
  pose proof (cold_records_ok L [] [] ltac:(by rewrite app_nil_r)) as Er. change (zlen (records [])) with 0 in Er. rewrite Er. cbn [mbind res_bind app].
  by rewrite (proj2 (Z.eqb_eq _ _)) by done.
Qed.
End Cold.
