(* ===== verification/Values.v ===== *)
(** * What an entry denotes

    A string, or a list in one of its layouts; the type byte of an entry and the
    bytes its record decodes to determine which. *)
From S2P Require Import Prelude Slices Entry ListPack ListFacts ListIndexed ListCold.
Set Default Proof Using "Type".

Inductive value :=
| VStr (b : list byte)
| VList (L : list (list byte)).

Definition container (v : value) : bool := match v with VStr _ => false | VList _ => true end.

(** The bytes hold the list in one of the layouts. *)
Definition list_bytes (d : list byte) (L : list (list byte)) : Prop :=
  d = packed L ∧ packed_ok L ∨ indexed d L ∨ d = cold L ∧ cold_ok L.

(** The type and the decoded bytes of the value. *)
Definition vtype (v : value) (t : Z) : Prop := match v with VStr _ => 0 ≤ t ≤ TypeBytes | VList _ => t = TypeList end.
Definition vbytes (v : value) (d : list byte) : Prop := match v with VStr b => d = b | VList L => list_bytes d L end.

(** None of these types has state outside its record. *)
Lemma vtype_simple v t : vtype v t →
  0 ≤ t ≤ 31 ∧ (t =? TypeHash) = false ∧ (t =? TypeStream) = false ∧ (t =? TypeJSON) = false ∧ isNativeContainerType t = container v.
Proof.
  destruct v as [b|L]; cbn [vtype container]; [|intros ->; done].
  unfold TypeBytes, isNativeContainerType, TypeHash, TypeStream, TypeJSON, TypeSet, TypeList, TypeZSet, TypeBloom, TypeCuckoo, TypeCMS,
    TypeTopK, TypeTDigest, TypeTimeSeries, TypeVectorSet. intros H.
  repeat match goal with |- context [t =? ?n] => rewrite (proj2 (Z.eqb_neq t n)) by lia end. split; [lia|done].
Qed.

Lemma vtype_not_hot v d : vtype v (valueType d) → isHotHash d = false.
Proof. intros H. unfold isHotHash. destruct (vtype_simple _ _ H) as (_&->&_). apply andb_false_r. Qed.
