(* ===== verification/Engine.v ===== *)
(** * The store

    Model of the store of internal/engine (engine.go, memory.go, value_type.go,
    time.go, activity_stamp.go): shards of keys, the codec registry, memory
    accounting and the two operations every mutation goes through,
    [publishRecordKnownWithHash] and [remove]. A [*shard] argument is the index
    of the shard. Time is in nanoseconds since the epoch; a command reads the
    clock once. The stream logs, the search index and the shaped hashes are other
    components: what the store asks of them is the class [Peers]. *)
From S2P Require Import Prelude Numerals Utf8 Arena KeyPack Table Codec Dictionary Shape Registry Entry HotHash Expiry Shard.
Set Default Proof Using "Type".

(** ** Errors as values

    A command that fails still returns the store: an expired key it removed on
    the way stays removed. *)

Inductive reply (A : Type) : Type :=
| Ok (a : A)
| Fail (e : string).
Arguments Ok {A} a.
Arguments Fail {A} e.

Definition ErrOOM : string := "OOM command not allowed when used memory > 'maxmemory'.".

(** ** Time *)

Definition Millisecond : Z := 1000000.
Definition Second : Z := 1000000000.
Definition Minute : Z := 60 * Second.
Definition MaxInt64 : Z := 2 ^ 63 - 1.
Definition MinInt64 : Z := - 2 ^ 63.

(** [time.Time{}], 1 January of year 1. *)
Definition zeroTime : Z := - 62135596800 * Second.

Definition stampOf (t : Z) : Z := if t =? zeroTime then 0 else t / Millisecond.
Definition stamp_Time (at' : Z) : Z := if at' =? 0 then zeroTime else at' * Millisecond.

(** [t.Sub(u)] saturates at the range of a duration. *)
Definition time_Sub (t u : Z) : Z := Z.max MinInt64 (Z.min MaxInt64 (t - u)).
Definition stamp_Sub (at' t : Z) : Z := time_Sub (stamp_Time at') t.

Definition activityStampOf (t : Z) : Z :=
  let seconds := t / Second in
  if seconds <=? 0 then 1 else if 2 ^ 32 - 1 <=? seconds then 2 ^ 32 - 1 else seconds.
Definition activity_Time (a : Z) : Z := if a =? 0 then zeroTime else a * Second.
Definition IsOlderThan (a t d : Z) : bool := if a =? 0 then true else d <? i64 (i64 t - a * Second).

(** ** Value classification *)

Definition canonical_text (format : Z → list byte) (parsed : option Z) (value : list byte) : bool :=
  match parsed with Some n => bool_decide (format n = value) | None => false end.

Definition classifyValue (lib : Library) (value : list byte) : Z :=
  if bool_decide (value = [x74; x72; x75; x65]) then TypeBool
  else if bool_decide (value = [x66; x61; x6c; x73; x65]) then TypeBool
  else
    let numericCandidate :=
      match value with
      | c :: _ => (zlen value <=? 32) && (byte_in 48 57 c || bool_decide (c = x2d))
      | [] => false
      end in
    if numericCandidate && canonical_text FormatInt (ParseInt value) value then TypeInt64
    else if numericCandidate && negb (bool_decide (head value = Some x2d)) &&
            match ParseUint value with
            | Some n => bool_decide (FormatUint n = value) && (MaxInt64 <? n)
            | None => false
            end then TypeUint64
    else if numericCandidate &&
            match ParseFloat lib value with
            | Some n => negb (not_finite n) && bool_decide (FormatFloat lib n = value)
            | None => false
            end then TypeFloat64
    else if utf8_Valid value then TypeString else TypeBytes.

(** ** State *)

(** What the store asks of the stream logs, the search index, the shaped
    hashes and the capacity of a hot hash's slices. *)
Class Peers := {
  StreamLogs : Type;
  body_memory : StreamLogs → list byte → option Z;     (* [streamLogs.get(key)] and its [memory()] *)
  body_drop : StreamLogs → list byte → StreamLogs;     (* [streamLogs.del(key)] and [release()] *)
  noteStreamRemoved : StreamLogs → list byte → StreamLogs;
  SearchManager : Type;
  replaceJSON : SearchManager → list byte → list byte → res SearchManager;
  removeKey : SearchManager → list byte → SearchManager;
  HashShapes : Type;
  decodeShapedHash : HashShapes → list byte → Z → res (list byte);
  memoryBytes : hotHash → Z;
}.

Record accounting := mkAccounting {
  m_used : Z; m_index : Z; m_entries : Z; m_arenas : Z; m_arenaPayload : Z; m_arenaLiveBlocks : Z;
  m_schemas : Z; m_metas : Z; m_hotHashes : Z; m_streams : Z;   (* uint64 *)
  m_max : Z;
}.

Record preparedEntry := mkPrepared {
  pe_entry : entry;
  expiresAt : Z;
  pe_data : list byte;
  keepStream : bool;
}.

(** [entry{}] *)
Definition zeroEntry : entry := mkEntry emptyValue None.

Inductive memoryAdmission := enforceMemoryLimit | allowOverMemoryLimit.

Definition entryMetaBytes : Z := 24.
Definition shapeStoreBaseBytes : Z := 2 * 256 + 2048 + 1024.

(** [unsafe.Sizeof(shard{})] *)
Definition shardStructBytes : Z := 232.

Definition entryCharge (key : list byte) : Z := KeyPack.KeyRecordSize key.
Definition metadataCharge (e : entry) : Z := match entryMeta_ e with None => 0 | Some _ => entryMetaBytes end.

Definition shouldInlinePrepared (e : preparedEntry) : bool :=
  if bool_decide (entryMeta_ (pe_entry e) ≠ None) || (zlen (pe_data e) =? 0) || (8 <? zlen (pe_data e)) then false
  else let id := codecID (entryData (pe_entry e)) in
       (id =? Integer) || (id =? UnsignedInteger) || (id =? Float64) || (id =? Timestamp).

Definition with_ref (v : SnugValue) (r : Ref) : SnugValue :=
  mkValue r (rawLength v) (codecID v) (valueType v) (hasExpiry v) (rawStable v).
Definition with_hasExpiry (v : SnugValue) (b : bool) : SnugValue :=
  mkValue (ref v) (rawLength v) (codecID v) (valueType v) b (rawStable v).
Definition with_value (e : entry) (v : SnugValue) : entry := mkEntry v (entryMeta_ e).

(** ** A shard's values and deadlines *)

(** [if err != nil { panic(err) }] *)
Definition must {A} (r : res A) : res A := match r with Err e => Panic e | r => r end.

Definition encoded (sh : shard) (e : entry) : res (list byte) := must (View (arena sh) (ref (entryData e))).

Definition encodedInto (sh : shard) (e : entry) : res (list byte) :=
  if IsInline (ref (entryData e)) then or_panic (InlineInto (ref (entryData e))) "invalid inline reference"
  else encoded sh e.

Definition expirationAt (sh : shard) (key : list byte) (e : entry) : res Z :=
  if negb (hasExpiry (entryData e)) then Ret 0
  else at' ← atFor (expiration_ sh) key; or_panic at' "expiration index invariant".

Definition expired (sh : shard) (key : list byte) (e : entry) (now : Z) : res bool :=
  if negb (hasExpiry (entryData e)) then Ret false
  else at' ← expirationAt sh key e; Ret (at' <=? stampOf now).

Definition shard_schedule (sh : shard) (key : list byte) (at' : Z) : res shard :=
  q ← schedule (expiration_ sh) key at'; Ret (with_expiration sh q).

Definition shapedHashHeader : list byte := [x53; x48; x02].
Definition shapedHashFixedHeader : list byte := [x53; x46; x01].
Definition isShapedHash (data : list byte) : bool :=
  (zlen shapedHashHeader + 2 <=? zlen data) &&
  (bool_decide (take 3 data = shapedHashHeader) || bool_decide (take 3 data = shapedHashFixedHeader)).

Section Store.
Context (maphash : list byte → Z) (growslice : Z → Z → Z) (lib : Library) `{P : Peers}.

Record Store := mkStore {
  expiredCount : Z; evictedCount : Z;          (* uint64 *)
  shards : list shard;
  codecs_ : Registry;
  encoding : bool; shapeEncoding : bool; compression : bool;
  memory : accounting;
  streamLogs : StreamLogs;
  shapeCatalog : option Shape.Store;
  hashShapes : HashShapes;
  search : option SearchManager;
}.

Definition with_shards (s : Store) (l : list shard) : Store :=
  mkStore (expiredCount s) (evictedCount s) l (codecs_ s) (encoding s) (shapeEncoding s) (compression s) (memory s)
          (streamLogs s) (shapeCatalog s) (hashShapes s) (search s).
Definition with_memory (s : Store) (m : accounting) : Store :=
  mkStore (expiredCount s) (evictedCount s) (shards s) (codecs_ s) (encoding s) (shapeEncoding s) (compression s) m
          (streamLogs s) (shapeCatalog s) (hashShapes s) (search s).
Definition with_catalog (s : Store) (c : option Shape.Store) : Store :=
  mkStore (expiredCount s) (evictedCount s) (shards s) (codecs_ s) (encoding s) (shapeEncoding s) (compression s) (memory s)
          (streamLogs s) c (hashShapes s) (search s).
Definition with_streams (s : Store) (l : StreamLogs) : Store :=
  mkStore (expiredCount s) (evictedCount s) (shards s) (codecs_ s) (encoding s) (shapeEncoding s) (compression s) (memory s)
          l (shapeCatalog s) (hashShapes s) (search s).
Definition with_search (s : Store) (m : option SearchManager) : Store :=
  mkStore (expiredCount s) (evictedCount s) (shards s) (codecs_ s) (encoding s) (shapeEncoding s) (compression s) (memory s)
          (streamLogs s) (shapeCatalog s) (hashShapes s) m.
Definition with_counters (s : Store) (x v : Z) : Store :=
  mkStore x v (shards s) (codecs_ s) (encoding s) (shapeEncoding s) (compression s) (memory s)
          (streamLogs s) (shapeCatalog s) (hashShapes s) (search s).

Definition shard_at (s : Store) (i : Z) : res shard := or_panic (znth (shards s) i) oob.
Definition set_shard (s : Store) (i : Z) (sh : shard) : Store := with_shards s (<[Z.to_nat i := sh]> (shards s)).
Definition shardForHash (s : Store) (hash : Z) : Z := shardIndex (zlen (shards s)) hash.
Definition shardFor (s : Store) (key : list byte) : Z := shardForHash s (Hash maphash key).

Definition shouldTrackActivity (s : Store) (e : entry) : bool :=
  encoding s && negb (rawStable (entryData e)) && negb (isNativeContainerType (valueType (entryData e))).

Definition exceedsMemoryLimitLocked (s : Store) (next : Z) (admission : memoryAdmission) : bool :=
  match admission with
  | enforceMemoryLimit => (0 <? m_max (memory s)) && (m_max (memory s) <? next)
  | allowOverMemoryLimit => false
  end.

(** ** Encoding and decoding values *)

Definition prepare (value : list byte) (id n : Z) (data : list byte) : preparedEntry :=
  mkPrepared (mkEntry (mkValue emptyRef (u32 n) id (classifyValue lib value) false false) None) 0 data false.

Definition makeEntry (s : Store) (value : list byte) : res preparedEntry :=
  rec ← (if encoding s && (36 <? zlen value) then
           h ← EncodeHexForeground value;
           match h with Some _ => Ret h | None => EncodeSolanaTokenAccount value end
         else Ret None);
  match rec with
  | Some rec => Ret (prepare value (rID rec) (RawLength rec) (Data rec))
  | None =>
      if negb (encoding s) || (36 <? zlen value) then Ret (prepare value codec_Raw (zlen value) value)
      else rec ← Encode (codecs_ s) value; Ret (prepare value (rID rec) (RawLength rec) (Data rec))
  end.

(** The schema a record refers to, looked up in the catalog. *)
Definition entry_schema (s : Store) (e : entry) : SchemaRef :=
  match entryMeta_ e, shapeCatalog s with
  | Some meta, Some c =>
      if schemaID meta =? 0 then None
      else match Shape.ByID c (schemaID meta) ≫= fun a => Shape.heap c !! a with
           | Some sc => Some (sc, Some (Shape.dictionary c))
           | None => None
           end
  | _, _ => None
  end.

Definition entry_record (s : Store) (e : entry) (encoded : list byte) : Record_ :=
  mkRecord (entry_schema s e) (codecID (entryData e)) (rawLength (entryData e)) encoded.

Definition decode (s : Store) (sh : shard) (e : entry) : res (list byte) :=
  enc ← encodedInto sh e;
  if (valueType (entryData e) =? TypeHash) && isShapedHash enc
  then must (decodeShapedHash (hashShapes s) enc (rawLength (entryData e)))
  else must (Decode (codecs_ s) (entry_record s e enc) (rawLength (entryData e))).

(** [dst_cap] is the capacity of the destination buffer. *)
Definition decodeInto (s : Store) (sh : shard) (e : entry) (dst_cap : Z) : res (list byte) :=
  enc ← (if IsInline (ref (entryData e)) then or_panic (InlineInto (ref (entryData e))) "invalid inline reference"
         else if codecID (entryData e) =? codec_Raw then must (ViewKnownLive (arena sh) (ref (entryData e)))
         else encoded sh e);
  if (valueType (entryData e) =? TypeHash) && isShapedHash enc then decode s sh e
  else if codecID (entryData e) =? codec_Raw then
    if negb (zlen enc =? rawLength (entryData e)) then Panic "invalid raw length" else Ret enc
  else must (DecodeInto lib (codecs_ s) (entry_record s e enc) (rawLength (entryData e)) dst_cap).

(** ** Accounting *)

(** [s.memory.used -= n; s.memory.arenas -= n] *)
Definition arenaReleased (s : Store) (n : Z) : Store :=
  if n =? 0 then s else
  let m := memory s in
  with_memory s (mkAccounting (u64 (m_used m - n)) (m_index m) (m_entries m) (u64 (m_arenas m - n)) (m_arenaPayload m)
                              (m_arenaLiveBlocks m) (m_schemas m) (m_metas m) (m_hotHashes m) (m_streams m) (m_max m)).

Definition dropStreamBody (s : Store) (key : list byte) : Store :=
  match body_memory (streamLogs s) key with
  | None => s
  | Some n =>
      let m := memory s in
      with_memory (with_streams s (body_drop (streamLogs s) key))
        (mkAccounting (u64 (m_used m - n)) (m_index m) (m_entries m) (m_arenas m) (m_arenaPayload m)
                      (m_arenaLiveBlocks m) (m_schemas m) (m_metas m) (m_hotHashes m) (u64 (m_streams m - n)) (m_max m))
  end.

Definition searchReplaceJSON (s : Store) (key raw : list byte) : res Store :=
  match search s with
  | None => Ret s
  | Some m => m ← must (replaceJSON m key raw); Ret (with_search s (Some m))
  end.

Definition searchRemoveKey (s : Store) (key : list byte) : Store :=
  match search s with None => s | Some m => with_search s (Some (removeKey m key)) end.

(** What a write adds to and takes from each counter. *)
Record charges := mkCharges {
  oldCost : Z; oldMetaCost : Z; oldHotBytes : Z;
  newCost : Z; newMetaCost : Z;
  extraIndex : Z; extraEntries : Z; extraMetaSlots : Z; extraArena : Z;
  oldBlockBytes : Z; newBlockBytes : Z;
}.

Definition hot_bytes (sh : shard) (key : list byte) : res Z :=
  h ← hotHashForKey maphash sh key;
  Ret (match h with Some (Some h, _) => memoryBytes h | _ => 0 end).

Definition write_charges (sh : shard) (key : list byte) (e : preparedEntry) (old : entry) (exists_ : bool) : res charges :=
  let oldHot := exists_ && isHotHash (entryData old) in
  hot ← (if exists_ then hot_bytes sh key else Ret 0);
  let inlineNew := shouldInlinePrepared e in
  let additional := if exists_ then 0 else 1 in
  growth ← (if inlineNew then Ret 0 else GrowthFor (arena sh) [zlen (pe_data e)]);
  let growth := if exists_ && negb oldHot then u64 (growth + FreeGrowth (arena sh) (ref (entryData old))) else growth in
  newBlock ← (if inlineNew then Ret 0 else AllocationBytesForLength (zlen (pe_data e)));
  oldBlock ← (if exists_ && negb oldHot then AllocationBytes (arena sh) (ref (entryData old)) else Ret 0);
  Ret (mkCharges (if exists_ then entryCharge key else 0) (metadataCharge old) hot (entryCharge key) (metadataCharge (pe_entry e))
                 (if exists_ then 0 else GrowthBytes (data sh) 1) (if exists_ then 0 else entryGrowthBytes sh 1)
                 (metaSlotGrowthBytes sh additional (bool_decide (entryMeta_ (pe_entry e) ≠ None)))
                 growth oldBlock newBlock).

Definition next_used (m : accounting) (c : charges) : Z :=
  u64 (m_used m - oldCost c - oldMetaCost c - oldHotBytes c + newCost c + newMetaCost c + extraIndex c + extraEntries c +
       extraMetaSlots c + extraArena c).

(** The counters after an admitted write; [oldPayload] and [newPayload] are the
    block bytes the old and the new value count for. *)
Definition charge (m : accounting) (c : charges) (oldPayload newPayload : Z) : accounting :=
  mkAccounting (next_used m c) (u64 (m_index m + extraIndex c))
    (u64 (m_entries m - oldCost c + newCost c + extraEntries c + extraMetaSlots c))
    (u64 (m_arenas m + extraArena c)) (u64 (m_arenaPayload m - oldPayload + newPayload))
    (u64 (m_arenaLiveBlocks m - oldBlockBytes c + newBlockBytes c)) (m_schemas m)
    (u64 (m_metas m - oldMetaCost c + newMetaCost c)) (u64 (m_hotHashes m - oldHotBytes c)) (m_streams m) (m_max m).

(** ** Publishing a value *)

(** The catalog a shard sees through its own pointer. *)
Definition shard_catalog (s : Store) (sh : shard) : option Shape.Store := if shapes sh then shapeCatalog s else None.

(** The schema of a record being written: [Some None] when it has none, [None]
    when its handle is invalid. *)
Definition new_schema (s : Store) (sh : shard) (e : entry) : option (option Z) :=
  match entryMeta_ e with
  | None => Some None
  | Some meta =>
      if schemaID meta =? 0 then Some None
      else match shard_catalog s sh ≫= fun c => Shape.ByID c (schemaID meta) with
           | Some a => Some (Some a)
           | None => None
           end
  end.

Definition retain_new (s : Store) (sh : shard) (schema : option Z) (data : list byte) : res (bool * Store) :=
  match schema with
  | None => Ret (true, s)
  | Some a =>
      match shard_catalog s sh with
      | None => Ret (false, s)
      | Some c => '(c, ok) ← Shape.RetainRecord c a data; Ret (ok, with_catalog s (Some c))
      end
  end.

Definition release_schema (s : Store) (sh : shard) (a : Z) (data : list byte) : res Store :=
  c ← or_panic (shard_catalog s sh) "nil shape catalog";
  c ← Shape.ReleaseRecord c a data;
  Ret (with_catalog s (Some c)).

Definition release_new (s : Store) (sh : shard) (schema : option Z) (data : list byte) : res Store :=
  match schema with None => Ret s | Some a => release_schema s sh a data end.

(** Release the schema of a stored record; [false] when its handle is invalid. *)
Definition release_stored (s : Store) (sh : shard) (e : entry) : res (bool * Store) :=
  match entryMeta_ e with
  | None => Ret (true, s)
  | Some meta =>
      if schemaID meta =? 0 then Ret (true, s) else
      c ← or_panic (shard_catalog s sh) "nil shape catalog";
      match Shape.ByID c (schemaID meta) with
      | None => Ret (false, s)
      | Some a => d ← encoded sh e; s ← release_schema s sh a d; Ret (true, s)
      end
  end.

(** Block bytes an entry's value counts for. *)
Definition payload_bytes (sh : shard) (e : entry) : res Z :=
  if isHotHash (entryData e) || IsInline (ref (entryData e)) then Ret 0
  else d ← encoded sh e; Ret (zlen d).

(** Activity metadata of a written entry. *)
Definition track_write (s : Store) (e old : entry) (exists_ : bool) (now : Z) : entry :=
  match entryMeta_ e with
  | Some meta =>
      if shouldTrackActivity s e && (lastWrite meta =? 0) then
        let a := activityStampOf now in
        let w := match entryMeta_ old with
                 | Some om => if exists_ && (time_Sub now (activity_Time (lastWrite om)) <? Minute)
                              then (if writes om <? 255 then writes om + 1 else writes om) else 1
                 | None => 1
                 end in
        mkEntry (entryData e) (Some (mkMeta (lastRewrite meta) (lastOptimize meta) a a (schemaID meta) (reads meta) w))
      else e
  | None => e
  end.

(** Give the value a place in the shard's arena. *)
Definition allocate (sh : shard) (e : preparedEntry) : res (Ref * shard) :=
  if shouldInlinePrepared e then
    match AllocInline (arena sh) (pe_data e) with
    | (Some r, a) => Ret (r, with_arena sh a)
    | (None, _) => Panic "inline scalar admission invariant"
    end
  else '(r, a) ← Alloc (arena sh) (pe_data e); Ret (r, with_arena sh a).

(** The physical write, after admission. *)
Definition commit (s : Store) (i : Z) (key : list byte) (hash : Z) (hashKnown : bool) (e : preparedEntry) (old : entry)
    (exists_ : bool) (now : Z) : res Store :=
  sh ← shard_at s i;
  let oldHot := exists_ && isHotHash (entryData old) in
  let entry := track_write s (pe_entry e) old exists_ now in
  '(r, sh) ← allocate sh e;
  let entry := with_value entry (with_hasExpiry (with_ref (entryData entry) r) (negb (expiresAt e =? 0))) in
  sh ← (if hashKnown then setKnownHashed maphash growslice sh key hash entry exists_ else shard_set maphash growslice sh key entry);
  sh ← (if oldHot then
          found ← Get maphash (data sh) key;
          match found with Some id => setHotHash sh id None | None => Ret sh end
        else Ret sh);
  let s := if exists_ && (valueType (entryData old) =? TypeStream) && negb (keepStream e) then dropStreamBody s key else s in
  '(n, a) ← (if exists_ && negb oldHot then Free (arena sh) (ref (entryData old)) else Ret (0, arena sh));
  let s := arenaReleased s n in
  let sh := with_arena sh a in
  sh ← shard_schedule sh key (expiresAt e);
  let s := set_shard s i sh in
  if valueType (entryData entry) =? TypeJSON then raw ← decode s sh entry; searchReplaceJSON s key raw
  else Ret (searchRemoveKey s key).

Definition publishRecordKnownWithHash (s : Store) (i : Z) (key : list byte) (hash : Z) (hashKnown : bool) (e : preparedEntry)
    (admission : memoryAdmission) (old : entry) (exists_ : bool) (now : Z) : res (reply unit * Store) :=
  sh ← shard_at s i;
  let oldHot := exists_ && isHotHash (entryData old) in
  c ← write_charges sh key e old exists_;
  match new_schema s sh (pe_entry e) with
  | None => Ret (Fail "ERR schema handle is invalid", s)
  | Some schema =>
      '(ok, s) ← retain_new s sh schema (pe_data e);
      if negb ok then Ret (Fail "ERR schema admission changed", s)
      else if exceedsMemoryLimitLocked s (next_used (memory s) c) admission then
        s ← release_new s sh schema (pe_data e); Ret (Fail ErrOOM, s)
      else
        '(ok, s) ← (if exists_ && negb oldHot then release_stored s sh old else Ret (true, s));
        if negb ok then Ret (Fail "ERR stored schema handle is invalid", s) else
        oldPayload ← (if exists_ then payload_bytes sh old else Ret 0);
        let newPayload := if shouldInlinePrepared e then 0 else zlen (pe_data e) in
        s ← commit (with_memory s (charge (memory s) c oldPayload newPayload)) i key hash hashKnown e old exists_ now;
        Ret (Ok tt, s)
  end.

Definition publishRecordKnown (s : Store) (i : Z) (key : list byte) (e : preparedEntry) (admission : memoryAdmission)
    (old : entry) (exists_ : bool) (now : Z) : res (reply unit * Store) :=
  publishRecordKnownWithHash s i key 0 false e admission old exists_ now.

Definition publishRecordKnownHashed (s : Store) (i : Z) (key : list byte) (hash : Z) (e : preparedEntry)
    (admission : memoryAdmission) (old : entry) (exists_ : bool) (now : Z) : res (reply unit * Store) :=
  publishRecordKnownWithHash s i key hash true e admission old exists_ now.

(** The entry [sh.get] returns: the zero entry when the key is missing. *)
Definition found_entry (e : option entry) : entry := default zeroEntry e.

Definition publishRecord (s : Store) (i : Z) (key : list byte) (e : preparedEntry) (admission : memoryAdmission) (now : Z)
    : res (reply unit * Store) :=
  sh ← shard_at s i;
  old ← shard_get maphash sh key;
  publishRecordKnown s i key e admission (found_entry old) (bool_decide (is_Some old)) now.

Definition publish (s : Store) (i : Z) (key : list byte) (e : preparedEntry) (now : Z) : res (reply unit * Store) :=
  publishRecord s i key e enforceMemoryLimit now.

(** ** Removing a key *)

Definition remove (s : Store) (i : Z) (key : list byte) (now : Z) : res Store :=
  sh ← shard_at s i;
  found ← shard_get maphash sh key;
  match found with
  | None => Ret s
  | Some e =>
      let hot := isHotHash (entryData e) in
      let isStream := valueType (entryData e) =? TypeStream in
      let s := if isStream then with_streams s (noteStreamRemoved (streamLogs s) key) else s in
      gone ← expired sh key e now;
      let s := if (gone : bool) then with_counters s (u64 (expiredCount s + 1)) (evictedCount s) else s in
      let freeGrowth := if hot then 0 else FreeGrowth (arena sh) (ref (entryData e)) in
      '(ok, s) ← (if hot then Ret (true, s) else release_stored s sh e);
      guard_panic (negb ok) "stored schema handle is invalid" (
      hotBytes ← hot_bytes sh key;
      let '(streamBytes, s) :=
        match (if isStream then body_memory (streamLogs s) key else None) with
        | Some n => (n, with_streams s (body_drop (streamLogs s) key))
        | None => (0, s)
        end in
      payload ← payload_bytes sh e;
      block ← (if hot then Ret 0 else AllocationBytes (arena sh) (ref (entryData e)));
      let m := memory s in
      let s := with_memory s
        (mkAccounting (u64 (m_used m - (entryCharge key + metadataCharge e + hotBytes + streamBytes) + freeGrowth)) (m_index m)
           (u64 (m_entries m - entryCharge key)) (u64 (m_arenas m + freeGrowth)) (u64 (m_arenaPayload m - payload))
           (u64 (m_arenaLiveBlocks m - block)) (m_schemas m) (u64 (m_metas m - metadataCharge e))
           (u64 (m_hotHashes m - hotBytes)) (u64 (m_streams m - streamBytes)) (m_max m)) in
      '(_, sh) ← shard_delete maphash growslice sh key;
      '(n, a) ← (if hot then Ret (0, arena sh) else Free (arena sh) (ref (entryData e)));
      let s := arenaReleased s n in
      sh ← shard_schedule (with_arena sh a) key 0;
      Ret (searchRemoveKey (set_shard s i sh) key))
  end.

(** ** Construction *)

Record Options := mkOptions {
  oShards : Z; oMaxMemory : Z; oEncoding : bool; oShapeEncoding : bool; oCompression : bool;
}.

Definition structuralMemoryBytes (n : Z) : Z := u64 (n * shardStructBytes).

(** The stream registry and the hash shapes are fresh; no spill directory. *)
Definition NewWithOptions (options : Options) (logs : StreamLogs) (hs : HashShapes) : res (reply Store) :=
  let count := oShards options in
  if (count <=? 0) || negb (Z.land count (count - 1) =? 0) || (65536 <? count)
  then Ret (Fail "shards must be a positive power of two at most 65536") else
  let base := structuralMemoryBytes count in
  if (0 <? oMaxMemory options) && (oMaxMemory options <? base) then Ret (Fail ErrOOM) else
  r ← NewRegistry lib;
  Ret (Ok (mkStore 0 0 (replicate (Z.to_nat count) emptyShard) r (oEncoding options) (oShapeEncoding options)
                   (oCompression options) (mkAccounting base base 0 0 0 0 0 0 0 0 (oMaxMemory options)) logs None hs None)).

End Store.
