(* ===== verification/EngineFacts.v ===== *)
(** * One shard of the store

    What a shard of strings and lists means: a map from keys to values and deadlines
    ([holds]). Reading an entry gives its value, writing and removing one updates
    the map, and the memory a write takes is what was forecast. *)
From S2P Require Import Prelude Numerals Arena ArenaFacts ArenaSpec ArenaHeap KeyPack KeyPackFacts Table TableSpec.
From S2P Require Import Codec Dictionary Shape Registry RegistrySpec Entry HotHash Expiry Shard ShardFacts Values Engine.
Set Default Proof Using "Type".

(** A value and its deadline; deadline zero is none. *)
Abbreviation item := (value * Z)%type.

(** The deadline has passed. *)
Definition dead (now d : Z) : bool := negb (d =? 0) && (d <=? stampOf now).

Definition deadlines (A : gmap (list byte) item) : gmap (list byte) Z :=
  omap (fun x : item => if x.2 =? 0 then None else Some x.2) A.

Lemma deadlines_insert A k v d : deadlines (<[k := (v, d)]> A) = if d =? 0 then delete k (deadlines A) else <[k := d]> (deadlines A).
Proof.
  unfold deadlines. destruct (Z.eqb_spec d 0) as [->|Hd].
  - by rewrite omap_insert_None.
  - erewrite omap_insert_Some; [done|]. cbn. by destruct (Z.eqb_spec d 0).
Qed.

Lemma deadlines_delete A k : deadlines (delete k A) = delete k (deadlines A).
Proof. apply omap_delete. Qed.

(** ** Entries *)

(** The entry denotes the item: its record decodes to bytes of the value. A
    container is stored as it is, in a block. *)
Record entry_holds (reg : Registry) (live : livemap) (e : entry) (x : item) : Prop := {
  eh_packable : packable (entryData e);
  eh_type : vtype x.1 (valueType (entryData e));
  eh_meta : ∀ meta, entryMeta_ e = Some meta → schemaID meta = 0;
  eh_expiry : hasExpiry (entryData e) = negb (x.2 =? 0);
  eh_value : ∃ d b, stored live (ref (entryData e)) d ∧
    Decode reg (plain (codecID (entryData e)) (rawLength (entryData e)) d) (rawLength (entryData e)) = Ret b ∧ vbytes x.1 b;
  eh_raw : container x.1 = true → codecID (entryData e) = codec_Raw ∧ IsInline (ref (entryData e)) = false;
}.

(** A value ready to be written. *)
Record prepared_ok (reg : Registry) (e : preparedEntry) (v : value) : Prop := {
  pr_type : vtype v (valueType (entryData (pe_entry e)));
  pr_codec : 0 ≤ codecID (entryData (pe_entry e)) ≤ maxPackedCodec;
  pr_len : 0 ≤ rawLength (entryData (pe_entry e)) < 2 ^ 32;
  pr_meta : ∀ meta, entryMeta_ (pe_entry e) = Some meta → schemaID meta = 0;
  pr_size : zlen (pe_data e) + 8 ≤ maxArenaBlock;
  pr_decode : ∃ b, Decode reg (plain (codecID (entryData (pe_entry e))) (rawLength (entryData (pe_entry e))) (pe_data e))
                (rawLength (entryData (pe_entry e))) = Ret b ∧ vbytes v b;
  pr_raw : container v = true → codecID (entryData (pe_entry e)) = codec_Raw;
}.

(** Bytes of a block's value, and of the block. *)
Definition value_bytes (e : entry) : Z := if IsInline (ref (entryData e)) then 0 else ref_length (ref (entryData e)).
Definition block_bytes (e : entry) : Z := match AllocationBytes emptyArena (ref (entryData e)) with Ret n => n | _ => 0 end.

Lemma stored_bytes a live r d : arena_ok a live → stored live r d → IsInline r = false → ref_length r = zlen d.
Proof. intros _ [Hi _| -> ->|[_ E]] Hn; [congruence|done|done]. Qed.

Section Shards.
Context (maphash : list byte → Z) (growslice : Z → Z → Z) (lib : Library) `{P : Peers}.

(** The entries [m] with the blocks [live] denote the items [A], and no block
    has two owners. *)
Record content (reg : Registry) (m : gmap (list byte) entry) (live : livemap) (A : gmap (list byte) item) : Prop := {
  co_dom : ∀ k, m !! k = None ↔ A !! k = None;
  co_items : ∀ k e x, m !! k = Some e → A !! k = Some x → entry_holds reg live e x;
  co_own : ∀ k k' e e', m !! k = Some e → m !! k' = Some e' → owns (ref (entryData e)) = true → owns (ref (entryData e')) = true →
    pos (ref (entryData e)) = pos (ref (entryData e')) → k = k';
}.

(** The shard holds the items [A]. *)
Record holds (reg : Registry) (sh : shard) (m : gmap (list byte) entry) (live : livemap) (A : gmap (list byte) item) : Prop := {
  ho_shard : shard_ok maphash sh m;
  ho_hot : hot_slots sh = None;
  ho_arena : arena_ok (arena sh) live;
  ho_queue : queue_ok (expiration_ sh) (deadlines A);
  ho_content : content reg m live A;
}.

Lemma holds_empty reg : holds reg emptyShard ∅ ∅ ∅.
Proof.
  split; try done; [apply shard_ok_empty|apply arena_ok_empty|apply queue_ok_empty].
Qed.

Section Held.
Context {reg : Registry} {sh : shard} {m : gmap (list byte) entry} {live : livemap} {A : gmap (list byte) item}.
Context (H : holds reg sh m live A).

Lemma held_get k : shard_get maphash sh k = Ret (m !! k).
Proof using H. apply get_ok, H. Qed.

Lemma held_some k x : A !! k = Some x → ∃ e, m !! k = Some e ∧ entry_holds reg live e x.
Proof using H.
  intros Hk. destruct (m !! k) as [e|] eqn:E; [|apply (co_dom _ _ _ _ (ho_content _ _ _ _ _ H)) in E; congruence]. exists e. split; [done|]. by eapply co_items; [apply H|..].
Qed.

Lemma held_item k e : m !! k = Some e → ∃ x, A !! k = Some x ∧ entry_holds reg live e x.
Proof using H.
  intros Hk. destruct (A !! k) as [x|] eqn:E; [|apply (co_dom _ _ _ _ (ho_content _ _ _ _ _ H)) in E; congruence]. exists x. split; [done|]. by eapply co_items; [apply H|..].
Qed.

Lemma expirationAt_ok k e v d : m !! k = Some e → A !! k = Some (v, d) → expirationAt sh k e = Ret d.
Proof using H.
  intros Hm HA. pose proof (eh_expiry _ _ _ _ (co_items _ _ _ _ (ho_content _ _ _ _ _ H) _ _ _ Hm HA)) as E. cbn [snd] in E. unfold expirationAt. rewrite E, negb_involutive.
  destruct (Z.eqb_spec d 0) as [->|Hd]; [done|]. rewrite (atFor_ok _ _ k (ho_queue _ _ _ _ _ H)), res_bind_ret.
  unfold deadlines. rewrite lookup_omap, HA. cbn. by destruct (Z.eqb_spec d 0).
Qed.

Lemma expired_ok k e v d now : m !! k = Some e → A !! k = Some (v, d) → expired sh k e now = Ret (dead now d).
Proof using H.
  intros Hm HA. pose proof (eh_expiry _ _ _ _ (co_items _ _ _ _ (ho_content _ _ _ _ _ H) _ _ _ Hm HA)) as E. cbn [snd] in E. unfold expired, dead. rewrite E, negb_involutive.
  destruct (Z.eqb_spec d 0) as [->|Hd]; [done|]. by rewrite (expirationAt_ok k e v d Hm HA), res_bind_ret.
Qed.

Lemma encoded_ok e x : entry_holds reg live e x →
  ∃ d b, encoded sh e = Ret d ∧ encodedInto sh e = Ret d ∧ must (ViewKnownLive (arena sh) (ref (entryData e))) = Ret d ∧
    stored live (ref (entryData e)) d ∧
    Decode reg (plain (codecID (entryData e)) (rawLength (entryData e)) d) (rawLength (entryData e)) = Ret b ∧ vbytes x.1 b.
Proof using H.
  intros [_ _ _ _ (d & b & Hs & Hd & Hb) _]. exists d, b. destruct (stored_views _ _ _ _ (ho_arena _ _ _ _ _ H) Hs) as [E1 E2].
  unfold encodedInto, encoded. rewrite E1, E2. split_and!; try done. destruct (IsInline (ref (entryData e))) eqn:Ei; [|done].
  unfold View in E1. rewrite Ei in E1. by destruct (InlineInto _) as [o|]; [injection E1 as ->|].
Qed.

Lemma payload_ok e x : entry_holds reg live e x → payload_bytes sh e = Ret (value_bytes e).
Proof using H.
  intros He. destruct (encoded_ok e x He) as (d & b & E & _ & _ & Hs & _). unfold payload_bytes, value_bytes.
  rewrite (vtype_not_hot _ _ (eh_type _ _ _ _ He)). cbn [orb]. destruct (IsInline (ref (entryData e))) eqn:Ei; [done|]. rewrite E, res_bind_ret.
  by rewrite (stored_bytes _ _ _ _ (ho_arena _ _ _ _ _ H) Hs Ei).
Qed.

Lemma block_ok e x : entry_holds reg live e x → AllocationBytes (arena sh) (ref (entryData e)) = Ret (block_bytes e).
Proof using H.
  intros He. destruct (encoded_ok e x He) as (d & b & _ & _ & _ & Hs & _).
  destruct (AllocationBytes_ok _ _ _ _ (ho_arena _ _ _ _ _ H) Hs) as [n E]. unfold block_bytes.
  change (AllocationBytes emptyArena) with (AllocationBytes (arena sh)). by rewrite E.
Qed.

Lemma hot_bytes_ok k : hot_bytes maphash sh k = Ret 0.
Proof using H.
  destruct (ho_shard _ _ _ _ _ H) as (ids & Hi & _). unfold hot_bytes, hotHashForKey, Table.Get.
  rewrite (GetHashed_map maphash _ _ _ (si_table _ _ _ Hi)), res_bind_ret. destruct (ids !! k) as [id|]; [|done].
  assert (E : hotHashByID sh id = Ret None).
  { pose proof (ho_hot _ _ _ _ _ H) as Hh. unfold hot_slots in Hh. unfold hotHashByID. destruct (metas sh); [by rewrite Hh|done]. }
  by rewrite E, !res_bind_ret.
Qed.
End Held.

(** ** Decoding *)

Lemma entry_record_plain s live e x d : entry_holds (codecs_ s) live e x →
  entry_record s e d = plain (codecID (entryData e)) (rawLength (entryData e)) d.
Proof.
  intros [_ _ Hm _ _ _]. unfold entry_record, plain, entry_schema. f_equal. destruct (entryMeta_ e) as [meta|]; [|done].
  rewrite (Hm meta eq_refl). by destruct (shapeCatalog s).
Qed.

Lemma decode_ok s sh m live A e x : holds (codecs_ s) sh m live A → entry_holds (codecs_ s) live e x → ∃ b, decode s sh e = Ret b ∧ vbytes x.1 b.
Proof.
  intros H He. destruct (encoded_ok H e x He) as (d & b & _ & E & _ & _ & Hd & Hb). exists b. split; [|done]. unfold decode. rewrite E, res_bind_ret.
  destruct (vtype_simple _ _ (eh_type _ _ _ _ He)) as (_ & -> & _). cbn [andb]. by rewrite (entry_record_plain s live e x d He), Hd.
Qed.

(** A raw record is its value. *)
Lemma raw_record reg n d v : registered lib reg → Decode reg (plain codec_Raw n d) n = Ret v → d = v ∧ zlen d = n.
Proof.
  intros [_ Hr]. assert (Hc : codecs reg !! codec_Raw = Some rawCodec) by (apply (Hr rawCodec); by left). unfold Decode, plain. cbn [rID RawLength Data]. destruct (_ || _); [done|]. change (codec_Raw =? JSONShape) with false.
  rewrite Hc, length_checked_Ret. change (cDecode rawCodec d n) with (raw_Decode d n). unfold raw_Decode. cbn [RawLength].
  destruct (Z.eqb_spec (zlen d) n); [|by intros []]. cbn. intros [[= ->] _]. done.
Qed.

Lemma decodeInto_ok s sh m live A e x cap : NewRegistry lib = Ret (codecs_ s) → cap_bounds (DecodeAll lib) →
  holds (codecs_ s) sh m live A → entry_holds (codecs_ s) live e x → ∃ b, decodeInto lib s sh e cap = Ret b ∧ vbytes x.1 b.
Proof.
  intros Hreg Hcap H He. destruct (NewRegistry_only _ _ Hreg) as [Hr Hall].
  destruct (encoded_ok H e x He) as (d & b & E1 & E2 & E3 & _ & Hd & Hb). exists b. split; [|done]. unfold decodeInto.
  assert (E : (if IsInline (ref (entryData e)) then or_panic (InlineInto (ref (entryData e))) "invalid inline reference"
     else if codecID (entryData e) =? codec_Raw then must (ViewKnownLive (arena sh) (ref (entryData e))) else encoded sh e) = Ret d).
  { unfold encodedInto in E2. destruct (IsInline _); [done|]. by destruct (_ =? codec_Raw). }
  destruct (vtype_simple _ _ (eh_type _ _ _ _ He)) as (_ & Eh & _). rewrite E, res_bind_ret, Eh. cbn [andb].
  destruct (Z.eqb_spec (codecID (entryData e)) codec_Raw) as [Eraw|_].
  - rewrite Eraw in Hd. apply raw_record in Hd as [-> ->]; [|done]. by rewrite Z.eqb_refl.
  - rewrite (entry_record_plain s live e x d He). apply (DecodeInto_ok lib _ _ _ cap _ Hr Hcap Hall) in Hd. by rewrite Hd.
Qed.

(** ** Encoding *)

Lemma classify_plain v : 0 ≤ classifyValue lib v ≤ TypeBytes.
Proof.
  unfold classifyValue, TypeBool, TypeInt64, TypeUint64, TypeFloat64, TypeString, TypeBytes. cbv zeta.
  repeat match goal with |- context [if ?b then _ else _] => destruct b end; lia.
Qed.

Lemma prepare_ok reg v rec : faithful reg v rec → zlen v ≤ Z.shiftl 32 20 →
  prepared_ok reg (prepare lib v (rID rec) (RawLength rec) (Data rec)) (VStr v).
Proof.
  intros (Hl & Hid & Hd & Hs & Hdec) Hv. pose proof (zlen_nonneg v). change (Z.shiftl 32 20) with 33554432 in Hv.
  unfold prepare. split; cbn [pe_entry pe_data entryData valueType codecID rawLength entryMeta_]; try done.
  - apply classify_plain.
  - change maxPackedCodec with 63. lia.
  - rewrite Hl, u32_id; lia.
  - change maxArenaBlock with 34611200. lia.
  - exists v. split; [|done]. rewrite Hl, u32_id by lia. specialize (Hdec (zlen v) ltac:(lia)). destruct rec as [sc id n data]. cbn in *. by subst.
Qed.

Lemma makeEntry_ok s v : registered lib (codecs_ s) → zlen v ≤ Z.shiftl 32 20 →
  ∃ e, makeEntry lib s v = Ret e ∧ prepared_ok (codecs_ s) e (VStr v) ∧ expiresAt e = 0 ∧ entryMeta_ (pe_entry e) = None.
Proof.
  intros Hr Hv. unfold makeEntry.
  assert (Hrec : ∃ o, (if encoding s && (36 <? zlen v) then
      h ← EncodeHexForeground v; match h with Some _ => Ret h | None => EncodeSolanaTokenAccount v end else Ret None) = Ret o ∧
    match o with Some rec => faithful (codecs_ s) v rec | None => True end).
  { destruct (_ && _); [|by exists None]. destruct (encode_hex_ok lib _ Hr v) as (o & -> & Ho). rewrite res_bind_ret.
    destruct o as [rec|]; [by exists (Some rec)|apply (encode_solana_ok lib _ Hr v)]. }
  destruct Hrec as (o & -> & Ho). rewrite res_bind_ret. destruct o as [rec|]; [eexists; split; [done|]; split; [by apply prepare_ok|done]|].
  destruct (_ || _).
  - eexists. split; [done|]. split; [|done]. by apply (prepare_ok _ v (plain Raw (zlen v) v)); [apply (faithful_raw lib)|].
  - destruct (Encode_ok lib _ Hr v) as (rec & -> & Hf). rewrite res_bind_ret. eexists. split; [done|]. split; [by apply prepare_ok|done].
Qed.

(** ** Writing *)

(** The arena and the queue are not part of entry storage. *)
Lemma shard_ok_parts sh a q m : shard_ok maphash (with_expiration (with_arena sh a) q) m ↔ shard_ok maphash sh m.
Proof. split; intros (ids & [] & Hm); (exists ids; split; [by split|exact Hm]). Qed.

Definition do_set (known : bool) (sh : shard) (k : list byte) (e : entry) (exists_ : bool) : res shard :=
  if known then setKnownHashed maphash growslice sh k (Hash maphash k) e exists_ else shard_set maphash growslice sh k e.

Lemma do_set_ok known sh m k e : shard_ok maphash sh m → packable (entryData e) → (m !! k = None → room sh k) →
  ∃ sh', do_set known sh k e (bool_decide (is_Some (m !! k))) = Ret sh' ∧ shard_ok maphash sh' (<[k := e]> m) ∧
    write_frame sh sh' k e (bool_decide (m !! k = None)).
Proof. intros. destruct known; [by apply setKnown_ok|by apply set_ok]. Qed.

(** Room for one more value. *)
Definition fits (sh : shard) (k : list byte) : Prop := room sh k ∧ zlen (segments (arena sh)) ≤ refSegmentMask.

(** Bytes the arena grows by when a value is allocated. *)
Definition alloc_growth (sh : shard) (pe : preparedEntry) : res Z :=
  if shouldInlinePrepared pe then Ret 0 else GrowthFor (arena sh) [zlen (pe_data pe)].

Lemma inline_size pe : shouldInlinePrepared pe = true → 1 ≤ zlen (pe_data pe) ≤ 8.
Proof.
  unfold shouldInlinePrepared. pose proof (zlen_nonneg (pe_data pe)).
  destruct (bool_decide _), (Z.eqb_spec (zlen (pe_data pe)) 0), (Z.ltb_spec 8 (zlen (pe_data pe))); cbn [orb]; intros; done || lia.
Qed.

Lemma allocate_ok sh live pe : arena_ok (arena sh) live → zlen (pe_data pe) + 8 ≤ maxArenaBlock → zlen (segments (arena sh)) ≤ refSegmentMask →
  ∃ r a g, allocate sh pe = Ret (r, with_arena sh a) ∧ placed (arena sh) live (pe_data pe) r a ∧ alloc_growth sh pe = Ret g ∧
    TotalMemoryBytes a = TotalMemoryBytes (arena sh) + g ∧ IsInline r = shouldInlinePrepared pe.
Proof.
  intros Ha Hs Hk. unfold allocate, alloc_growth. destruct (shouldInlinePrepared pe) eqn:Ei.
  - destruct (Inline_placed (arena sh) live (pe_data pe) Ha (inline_size _ Ei)) as (r & a & -> & Hp & Hi & Hm).
    exists r, a, 0. split_and!; done || lia.
  - destruct (Alloc_placed (arena sh) live (pe_data pe) Ha Hs Hk) as (r & a & -> & Hp & Hi & Hg). rewrite res_bind_ret.
    exists r, a, (MemoryBytes a - MemoryBytes (arena sh)). split_and!; try done. apply TotalMemory_grown, Hp.
Qed.

(** ** Ownership of blocks *)

Lemma entry_holds_mono reg a live live' e x : arena_ok a live → entry_holds reg live e x →
  (owns (ref (entryData e)) = true → live' !! pos (ref (entryData e)) = live !! pos (ref (entryData e))) → entry_holds reg live' e x.
Proof. intros Ha [H1 H2 H3 H4 (d & b & Hs & Hd) H5] Hl. split; try done. exists d, b. split; [by eapply stored_mono|done]. Qed.

Lemma owned_live reg a m live A k e : arena_ok a live → content reg m live A → m !! k = Some e → owns (ref (entryData e)) = true →
  live !! pos (ref (entryData e)) ≠ None.
Proof.
  intros Ha Hc Hk Ho. destruct (A !! k) as [x|] eqn:E; [|apply (co_dom _ _ _ _ Hc) in E; congruence].
  destruct (co_items _ _ _ _ Hc _ _ _ Hk E) as [_ _ _ _ (d & b & Hs & _) _]. destruct (stored_owned _ _ _ _ Ha Hs Ho) as [-> _]. done.
Qed.

(** The blocks left when the value of an entry is released. *)
Definition released (o : option entry) (live : livemap) : livemap :=
  match o with Some e => drop_ref (ref (entryData e)) live | None => live end.

Lemma lookup_drop r live p : (owns r = true → pos r ≠ p) → drop_ref r live !! p = live !! p.
Proof. intros Hn. unfold drop_ref. destruct (owns r); [|done]. apply lookup_delete_ne. by apply Hn. Qed.

Lemma lookup_released o live p : (∀ e, o = Some e → owns (ref (entryData e)) = true → pos (ref (entryData e)) ≠ p) →
  released o live !! p = live !! p.
Proof. intros Hn. destruct o as [e|]; [|done]. apply lookup_drop. by apply Hn. Qed.

Lemma content_write reg a a1 m live A k ent d x :
  arena_ok a live → content reg m live A → placed a live d (ref (entryData ent)) a1 → entry_holds reg (put (ref (entryData ent)) d live) ent x →
  content reg (<[k := ent]> m) (released (m !! k) (put (ref (entryData ent)) d live)) (<[k := x]> A).
Proof.
  intros Ha Hc Hp He. set (r := ref (entryData ent)) in *.
  assert (Hfresh : ∀ k' e', m !! k' = Some e' → owns (ref (entryData e')) = true → owns r = true → pos (ref (entryData e')) ≠ pos r).
  { intros k' e' Hk' Ho Hor E. apply (owned_live _ _ _ _ _ _ _ Ha Hc Hk' Ho). rewrite E. by apply Hp. }
  split.
  - intros k'. rewrite !lookup_insert_None, (co_dom _ _ _ _ Hc). done.
  - intros k' e' x' Hm' HA'. destruct (decide (k' = k)) as [->|Hne].
    + rewrite lookup_insert_eq in Hm'. rewrite lookup_insert_eq in HA'. injection Hm' as <-. injection HA' as <-.
      apply (entry_holds_mono reg a1 (put r d live)); [apply Hp|done|]. intros Ho. apply lookup_released. intros e0 E0 Ho0. by apply (Hfresh k).
    + rewrite lookup_insert_ne in Hm' by done. rewrite lookup_insert_ne in HA' by done. pose proof (co_items _ _ _ _ Hc _ _ _ Hm' HA') as He'.
      apply (entry_holds_mono reg a live); [done|done|]. intros Ho'. rewrite lookup_released.
      * unfold put. destruct (owns r) eqn:Hor; [|done]. rewrite lookup_insert_ne; [done|]. intros E. by apply (Hfresh k' e' Hm' Ho' eq_refl).
      * intros e0 E0 Ho0 E. apply Hne. symmetry. by eapply (co_own _ _ _ _ Hc k k' e0 e').
  - intros k1 k2 e1 e2. rewrite !lookup_insert_Some. intros [[<- <-]|[Hn1 H1]] [[<- <-]|[Hn2 H2]] Ho1 Ho2 E; [done| | |by eapply co_own].
    + by destruct (Hfresh k2 e2 H2 Ho2 Ho1).
    + by destruct (Hfresh k1 e1 H1 Ho1 Ho2).
Qed.

Lemma content_delete reg a m live A k e : arena_ok a live → content reg m live A → m !! k = Some e →
  content reg (delete k m) (drop_ref (ref (entryData e)) live) (delete k A).
Proof.
  intros Ha Hc Hk. split.
  - intros k'. rewrite !lookup_delete_None, (co_dom _ _ _ _ Hc). done.
  - intros k' e' x' [Hne Hm']%lookup_delete_Some [_ HA']%lookup_delete_Some.
    apply (entry_holds_mono reg a live); [done|by eapply co_items|]. intros Ho'. apply lookup_drop. intros Ho E.
    apply Hne. by eapply (co_own _ _ _ _ Hc k k' e e').
  - intros k1 k2 e1 e2 [_ H1]%lookup_delete_Some [_ H2]%lookup_delete_Some. by eapply co_own.
Qed.

(** ** A write to a shard *)

(** The entry as it is stored. *)
Definition final_entry (e : entry) (r : Ref) (at' : Z) : entry :=
  with_value e (with_hasExpiry (with_ref (entryData e) r) (negb (at' =? 0))).

Lemma final_holds reg live pe v e r at' : prepared_ok reg pe v → ref_wf r → stored live r (pe_data pe) → IsInline r = shouldInlinePrepared pe →
  entryData e = entryData (pe_entry pe) → (∀ meta, entryMeta_ e = Some meta → schemaID meta = 0) →
  entry_holds reg live (final_entry e r at') (v, at').
Proof.
  intros [Ht Hc Hl _ _ Hd Hraw] [Hloc Hgen] Hs Hi E Hm. destruct (vtype_simple _ _ Ht) as (Ht' & _). unfold final_entry. split; cbn; rewrite ?E; try done.
  - change (2 ^ GenerationBits) with (2 ^ 19) in Hgen. change maxPackedCodec with 63 in Hc.
    unfold packable, value_wf. cbn. change packGenMask with (2 ^ 19 - 1). change maxPackedCodec with 63. change maxPackedTypeID with 31. lia.
  - destruct Hd as (b & Hd & Hb). by exists (pe_data pe), b.
  - intros Hv. rewrite Hi. split; [by apply Hraw|]. unfold shouldInlinePrepared. rewrite (Hraw Hv). by destruct (_ || _).
Qed.

(** What the write of a value for [k] does to the sizes of a shard. *)
Record grown (sh sh' : shard) (k : list byte) (hasMeta fresh : bool) : Prop := {
  gr_entries : zlen (entries sh') ≤ zlen (entries sh) + Z.b2z fresh;
  gr_log : zlen (log (data sh')) ≤ zlen (log (data sh)) + (if fresh then KeyPack.KeyRecordSize k else 0);
  gr_segments : zlen (segments (arena sh')) ≤ zlen (segments (arena sh)) + 1;
  gr_entry_bytes : entry_bytes sh' ≅ entry_bytes sh + (if fresh then entryGrowthBytes sh 1 else 0);
  gr_side_bytes : side_bytes sh' ≅ side_bytes sh + metaSlotGrowthBytes sh (Z.b2z fresh) hasMeta;
  gr_capacity : CapacityBytes (data sh') ≅ CapacityBytes (data sh) + (if fresh then GrowthBytes (data sh) 1 else 0);
}.

(** Release of the value an entry had. *)
Definition free_old (sh : shard) (o : option entry) : res (Z * Arena) :=
  match o with Some e => Free (arena sh) (ref (entryData e)) | None => Ret (0, arena sh) end.
Definition free_growth (sh : shard) (o : option entry) : Z :=
  match o with Some e => FreeGrowth (arena sh) (ref (entryData e)) | None => 0 end.

Lemma free_old_ok reg a live0 sh m live A k d r : arena_ok a live0 → content reg m live0 A → placed a live0 d r (arena sh) → live = put r d live0 →
  ∃ n a', free_old sh (m !! k) = Ret (n, a') ∧ arena_ok a' (released (m !! k) live) ∧
    TotalMemoryBytes a' = TotalMemoryBytes (arena sh) + free_growth sh (m !! k) - n ∧ zlen (segments a') = zlen (segments (arena sh)).
Proof.
  intros Ha Hc Hp ->. pose proof (pl_arena _ _ _ _ _ Hp) as Ha'. destruct (m !! k) as [e|] eqn:Hk; cbn [free_old free_growth released].
  - destruct (A !! k) as [x|] eqn:HA; [|apply (co_dom _ _ _ _ Hc) in HA; congruence].
    destruct (co_items _ _ _ _ Hc _ _ _ Hk HA) as [_ _ _ _ (d0 & b0 & Hs & _) _]. apply (Free_dropped _ _ _ d0); [done|].
    apply (stored_mono a live0); [done|done|]. intros Ho. unfold put. destruct (owns r) eqn:Hor; [|done]. rewrite lookup_insert_ne; [done|].
    intros E. apply (owned_live _ _ _ _ _ _ _ Ha Hc Hk Ho). rewrite <- E. by apply Hp.
  - exists 0, (arena sh). split_and!; done || lia.
Qed.

(** The bytes counted for a new value. *)
Definition new_payload (pe : preparedEntry) : Z := if shouldInlinePrepared pe then 0 else zlen (pe_data pe).
Definition new_block (pe : preparedEntry) : res Z := if shouldInlinePrepared pe then Ret 0 else AllocationBytesForLength (zlen (pe_data pe)).

Lemma placed_bytes a live pe r a' e at' : placed a live (pe_data pe) r a' → IsInline r = shouldInlinePrepared pe → zlen (pe_data pe) + 8 ≤ maxArenaBlock →
  value_bytes (final_entry e r at') = new_payload pe ∧ new_block pe = Ret (block_bytes (final_entry e r at')).
Proof.
  intros Hp Hi Hs. unfold value_bytes, block_bytes, new_payload, new_block, AllocationBytes. cbn [final_entry with_value entryData with_hasExpiry with_ref ref].
  rewrite Hi. destruct (shouldInlinePrepared pe); [done|]. destruct (pl_stored _ _ _ _ _ Hp) as [Hi'|Er Ed|Hr]; [congruence| |].
  - rewrite Er, Ed. done.
  - pose proof (live_owns _ _ _ _ (pl_arena _ _ _ _ _ Hp) Hr) as Ho. destruct (pl_arena _ _ _ _ _ Hp) as [fl HI]. destruct Hr as [Hl El].
    destruct (inv_live _ _ _ HI (pos r).1 (pos r).2 (generation r) (pe_data pe)) as (H0 & _); [by rewrite <- surjective_pairing|].
    unfold owns in Ho. rewrite Hi in Ho. cbn [negb andb] in Ho. destruct (generation r =? 0); [done|]. rewrite El.
    unfold AllocationBytesForLength. destruct (Z.eqb_spec (zlen (pe_data pe)) 0); [lia|].
    destruct (class_bounds (zlen (pe_data pe))) as (b & sz & ->); [lia..|]. done.
Qed.

Lemma write_ok known reg sh m live A k pe v e at' :
  holds reg sh m live A → prepared_ok reg pe v → fits sh k →
  entryData e = entryData (pe_entry pe) → (∀ meta, entryMeta_ e = Some meta → schemaID meta = 0) →
  ∃ r sh1 sh2 n a sh3 g, allocate sh pe = Ret (r, sh1) ∧ alloc_growth sh pe = Ret g ∧
    do_set known sh1 k (final_entry e r at') (bool_decide (is_Some (m !! k))) = Ret sh2 ∧
    free_old sh2 (m !! k) = Ret (n, a) ∧ shard_schedule (with_arena sh2 a) k at' = Ret sh3 ∧
    (∃ live', holds reg sh3 (<[k := final_entry e r at']> m) live' (<[k := (v, at')]> A)) ∧
    grown sh sh3 k (bool_decide (entryMeta_ e ≠ None)) (bool_decide (m !! k = None)) ∧
    TotalMemoryBytes (arena sh3) = TotalMemoryBytes (arena sh) + g + free_growth sh (m !! k) - n ∧
    value_bytes (final_entry e r at') = new_payload pe ∧ new_block pe = Ret (block_bytes (final_entry e r at')).
Proof.
  intros H Hpe [Hroom Hseg] Ed Hmeta. pose proof (ho_arena _ _ _ _ _ H) as Ha. pose proof (ho_content _ _ _ _ _ H) as Hc.
  destruct (allocate_ok sh live pe Ha (pr_size _ _ _ Hpe) Hseg) as (r & a1 & g & E1 & Hp & Eg & Htot & Hi).
  pose proof (final_holds reg (put r (pe_data pe) live) pe v e r at' Hpe (pl_ref _ _ _ _ _ Hp) (pl_stored _ _ _ _ _ Hp) Hi Ed Hmeta) as He.
  set (ent := final_entry e r at') in *. set (sh1 := with_arena sh a1) in *.
  assert (Hok1 : shard_ok maphash sh1 m) by (apply (shard_ok_parts sh a1 (expiration_ sh)), H).
  destruct (do_set_ok known sh1 m k ent Hok1 (eh_packable _ _ _ _ He) (fun _ => Hroom)) as (sh2 & E2 & Hok2 & Hf).
  assert (Hp2 : placed (arena sh) live (pe_data pe) r (arena sh2)) by (by rewrite (wf_arena _ _ _ _ _ Hf)).
  destruct (free_old_ok reg (arena sh) live sh2 m _ A k (pe_data pe) r Ha Hc Hp2 eq_refl) as (n & a & E3 & Ha3 & Htot3 & Hseg3).
  assert (Hq : queue_ok (expiration_ (with_arena sh2 a)) (deadlines A)) by (cbn; rewrite (wf_expiration _ _ _ _ _ Hf); apply H).
  destruct (schedule_ok _ _ k at' Hq) as (q & Eq & Hq').
  exists r, sh1, sh2, n, a, (with_expiration (with_arena sh2 a) q), g. split_and!; try done.
  - unfold shard_schedule. by rewrite Eq, res_bind_ret.
  - exists (released (m !! k) (put r (pe_data pe) live)). split; cbn [arena expiration_ with_expiration with_arena].
    + by apply shard_ok_parts.
    + change (hot_slots sh2 = None). rewrite (wf_hot _ _ _ _ _ Hf). apply H.
    + done.
    + by rewrite deadlines_insert.
    + by apply (content_write reg (arena sh) a1 m live A k ent (pe_data pe) (v, at')).
  - destruct Hf as [Hfa _ _ He1 He2 He3 He4 He5]. split; try done. cbn. rewrite Hseg3, Hfa. apply Hp.
  - cbn. rewrite Htot3, (wf_arena _ _ _ _ _ Hf). cbn [arena sh1 with_arena]. rewrite Htot. f_equal. f_equal.
    unfold free_growth. destruct (m !! k); [|done]. rewrite (wf_arena _ _ _ _ _ Hf). apply FreeGrowth_stable, Hp.
  - apply (placed_bytes _ _ _ _ _ e at' Hp Hi (pr_size _ _ _ Hpe)).
  - apply (placed_bytes _ _ _ _ _ e at' Hp Hi (pr_size _ _ _ Hpe)).
Qed.

(** ** Removal from a shard *)

(** Removal keeps the reserved sizes of a shard. *)
Record shrunk (sh sh' : shard) : Prop := {
  sk_entries : zlen (entries sh') = zlen (entries sh);
  sk_log : zlen (log (data sh')) ≤ zlen (log (data sh));
  sk_segments : zlen (segments (arena sh')) = zlen (segments (arena sh));
  sk_entry_bytes : entry_bytes sh' = entry_bytes sh;
  sk_side_bytes : side_bytes sh' = side_bytes sh;
  sk_capacity : CapacityBytes (data sh') = CapacityBytes (data sh);
}.

Lemma delete_step reg sh m live A k e : holds reg sh m live A → m !! k = Some e →
  ∃ sh1 n a sh2, shard_delete maphash growslice sh k = Ret (true, sh1) ∧ Free (arena sh1) (ref (entryData e)) = Ret (n, a) ∧
    shard_schedule (with_arena sh1 a) k 0 = Ret sh2 ∧ (∃ live', holds reg sh2 (delete k m) live' (delete k A)) ∧ shrunk sh sh2 ∧
    TotalMemoryBytes (arena sh2) = TotalMemoryBytes (arena sh) + FreeGrowth (arena sh) (ref (entryData e)) - n.
Proof.
  intros H Hk. destruct (held_item H k e Hk) as (x & _ & [_ _ _ _ (d & b & Hs & _) _]). pose proof (ho_hot _ _ _ _ _ H) as Hhot.
  destruct (delete_ok maphash growslice sh m k (ho_shard _ _ _ _ _ H)) as (sh1 & E & Hok & Ha & Hx & _ & Hh & He & Hl & Hb1 & Hb2 & Hb3); [intros hh; congruence|].
  rewrite Hk, bool_decide_true in E by eauto.
  destruct (Free_dropped _ _ _ d (ho_arena _ _ _ _ _ H) Hs) as (n & a & Ef & Ha' & Htot & Hseg).
  assert (Hq : queue_ok (expiration_ (with_arena sh1 a)) (deadlines A)) by (cbn; rewrite Hx; apply H).
  destruct (schedule_ok _ _ k 0 Hq) as (q & Eq & Hq'). exists sh1, n, a, (with_expiration (with_arena sh1 a) q). split_and!; try done.
  - by rewrite Ha.
  - unfold shard_schedule. by rewrite Eq, res_bind_ret.
  - exists (drop_ref (ref (entryData e)) live). split; cbn [arena expiration_ with_expiration with_arena]; try done.
    + by apply shard_ok_parts.
    + by apply Hh.
    + by rewrite deadlines_delete.
    + by eapply content_delete; [apply H|apply H|].
Qed.

(** ** Memory in use

    What a walk over a shard finds. *)

Definition live_entries (sh : shard) : list (list byte * entry) := match shard_all sh with Ret l => l | _ => [] end.
Definition entry_sum (f : list byte → entry → Z) (sh : shard) : Z := lsum (fun p => f p.1 p.2) (live_entries sh).

Definition use_index (sh : shard) : Z := CapacityBytes (data sh).
Definition use_entries (sh : shard) : Z := entry_bytes sh + side_bytes sh + entry_sum (fun k _ => KeyPack.KeyRecordSize k) sh.
Definition use_arena (sh : shard) : Z := TotalMemoryBytes (arena sh).
Definition use_payload (sh : shard) : Z := entry_sum (fun _ e => value_bytes e) sh.
Definition use_blocks (sh : shard) : Z := entry_sum (fun _ e => block_bytes e) sh.
Definition use_metas (sh : shard) : Z := entry_sum (fun _ e => metadataCharge e) sh.

Lemma entry_sum_ok f sh m : shard_ok maphash sh m → entry_sum f sh = msum f m.
Proof. intros H. unfold entry_sum, live_entries, msum. destruct (all_ok maphash sh m H) as (l & -> & Hl). by rewrite Hl. Qed.

Lemma sum_write f sh sh' m k e : shard_ok maphash sh m → shard_ok maphash sh' (<[k := e]> m) →
  entry_sum f sh' = entry_sum f sh - from_option (f k) 0 (m !! k) + f k e.
Proof. intros H H'. by rewrite (entry_sum_ok f sh m H), (entry_sum_ok f sh' _ H'), msum_insert. Qed.

Lemma sum_delete f sh sh' m k e : shard_ok maphash sh m → shard_ok maphash sh' (delete k m) → m !! k = Some e →
  entry_sum f sh' = entry_sum f sh - f k e.
Proof. intros H H' Hk. by rewrite (entry_sum_ok f sh m H), (entry_sum_ok f sh' _ H'), (msum_delete f m k e). Qed.

End Shards.
