(* ===== verification/StoreFacts.v ===== *)
(** * The store of strings

    The invariant of the whole store: every shard holds the items of the keys
    that hash to it, and the memory counters are what a walk over the shards
    finds. Publishing a value and removing a key keep it. *)
From S2P Require Import Prelude Numerals Arena ArenaFacts ArenaSpec ArenaHeap KeyPack KeyPackFacts Table TableSpec.
From S2P Require Import Codec Dictionary Shape Registry RegistrySpec Entry HotHash Expiry Shard ShardFacts Values Engine EngineFacts.
Set Default Proof Using "Type".

Section Stores.
Context (maphash : list byte → Z) (growslice : Z → Z → Z) (lib : Library) `{P : Peers}.

(** ** Writing an entry *)

Lemma track_write_data s e old ex now : entryData (track_write s e old ex now) = entryData e.
Proof. unfold track_write. destruct (entryMeta_ e) as [meta|]; [|done]. by destruct (_ && _). Qed.

Lemma track_write_meta s e old ex now :
  metadataCharge (track_write s e old ex now) = metadataCharge e ∧
  bool_decide (entryMeta_ (track_write s e old ex now) ≠ None) = bool_decide (entryMeta_ e ≠ None) ∧
  ∀ meta, entryMeta_ (track_write s e old ex now) = Some meta → ∃ meta', entryMeta_ e = Some meta' ∧ schemaID meta' = schemaID meta.
Proof.
  unfold track_write. destruct (entryMeta_ e) as [meta|] eqn:E; [|rewrite E; by split_and!].
  destruct (_ && _); [|rewrite E; split_and!; try done; eauto]. unfold metadataCharge. rewrite E. cbn [entryMeta_]. split_and!; [done| |].
  - by rewrite !bool_decide_true.
  - intros ? [= <-]. by exists meta.
Qed.

(** Facts about the entry a write replaces. *)
Lemma old_plain reg sh m live A k : holds maphash reg sh m live A →
  isHotHash (entryData (found_entry (m !! k))) = false ∧ (valueType (entryData (found_entry (m !! k))) =? TypeStream) = false.
Proof.
  intros H. destruct (m !! k) as [e|] eqn:Hk; [|done]. destruct (held_item maphash H k e Hk) as (x & _ & He). cbn [found_entry default].
  split; [by eapply vtype_not_hot, He|apply (vtype_simple _ _ (eh_type _ _ _ _ He))].
Qed.

Lemma commit_ok known s i k pe v now sh m live A :
  shard_at s i = Ret sh → holds maphash (codecs_ s) sh m live A → prepared_ok (codecs_ s) pe v → fits sh k →
  ∃ sh' n g e, commit maphash growslice s i k (if (known : bool) then Hash maphash k else 0) known pe (found_entry (m !! k)) (bool_decide (is_Some (m !! k))) now
      = Ret (searchRemoveKey (set_shard (arenaReleased s n) i sh') k) ∧
    (∃ live', holds maphash (codecs_ s) sh' (<[k := e]> m) live' (<[k := (v, expiresAt pe)]> A)) ∧
    grown sh sh' k (bool_decide (entryMeta_ (pe_entry pe) ≠ None)) (bool_decide (m !! k = None)) ∧ alloc_growth sh pe = Ret g ∧
    TotalMemoryBytes (arena sh') = TotalMemoryBytes (arena sh) + g + free_growth sh (m !! k) - n ∧
    value_bytes e = new_payload pe ∧ new_block pe = Ret (block_bytes e) ∧ metadataCharge e = metadataCharge (pe_entry pe).
Proof.
  intros Hsh H Hpe Hfit. destruct (old_plain _ _ _ _ _ k H) as [Hhot Hst].
  set (e0 := track_write s (pe_entry pe) (found_entry (m !! k)) (bool_decide (is_Some (m !! k))) now).
  destruct (track_write_meta s (pe_entry pe) (found_entry (m !! k)) (bool_decide (is_Some (m !! k))) now) as (Hmc & Hmb & Hms). fold e0 in Hmc, Hmb, Hms.
  assert (Ed : entryData e0 = entryData (pe_entry pe)) by apply track_write_data.
  destruct (write_ok maphash growslice known (codecs_ s) sh m live A k pe v e0 (expiresAt pe) H Hpe Hfit Ed) as
    (r & sh1 & sh2 & n & a & sh3 & g & E1 & Eg & E2 & E3 & E4 & Hh & Hg & Ht & Hv & Hb).
  { intros meta Hmeta. destruct (Hms meta Hmeta) as (meta' & Hm' & <-). by eapply pr_meta. }
  exists sh3, n, g, (final_entry e0 r (expiresAt pe)). rewrite Hmb in Hg. split_and!; try done.
  unfold commit. rewrite Hsh, res_bind_ret. fold e0. rewrite E1, res_bind_ret. fold (final_entry e0 r (expiresAt pe)). rewrite Hhot, Hst, !andb_false_r.
  assert (Eset : (if known then setKnownHashed maphash growslice sh1 k (if known then Hash maphash k else 0) (final_entry e0 r (expiresAt pe)) (bool_decide (is_Some (m !! k)))
    else shard_set maphash growslice sh1 k (final_entry e0 r (expiresAt pe))) = Ret sh2) by (unfold do_set in E2; by destruct known).
  rewrite Eset, !res_bind_ret. cbn [negb andb]. rewrite andb_true_r.
  assert (Efree : (if bool_decide (is_Some (m !! k)) then Free (arena sh2) (ref (entryData (found_entry (m !! k)))) else Ret (0, arena sh2)) = Ret (n, a)).
  { unfold free_old in E3. destruct (m !! k); [by rewrite bool_decide_true by eauto|by rewrite bool_decide_false by (by intros [])]. }
  rewrite Efree, res_bind_ret, E4, res_bind_ret.
  assert (Hjson : (valueType (entryData (final_entry e0 r (expiresAt pe))) =? TypeJSON) = false).
  { cbn. rewrite Ed. apply (vtype_simple _ _ (pr_type _ _ _ Hpe)). }
  by rewrite Hjson.
Qed.

(** ** Charges *)

(** The charges of a write, by what it replaces. *)
Definition charges_of (sh : shard) (k : list byte) (pe : preparedEntry) (o : option entry) (g block : Z) : charges :=
  let fresh := bool_decide (o = None) in
  mkCharges (if fresh then 0 else KeyPack.KeyRecordSize k) (from_option metadataCharge 0 o) 0 (KeyPack.KeyRecordSize k)
    (metadataCharge (pe_entry pe)) (if fresh then GrowthBytes (data sh) 1 else 0) (if fresh then entryGrowthBytes sh 1 else 0)
    (metaSlotGrowthBytes sh (Z.b2z fresh) (bool_decide (entryMeta_ (pe_entry pe) ≠ None)))
    (if fresh then g else u64 (g + free_growth sh o)) (from_option block_bytes 0 o) block.

Lemma write_charges_ok reg sh m live A k pe g block : holds maphash reg sh m live A → alloc_growth sh pe = Ret g → new_block pe = Ret block →
  write_charges maphash sh k pe (found_entry (m !! k)) (bool_decide (is_Some (m !! k))) = Ret (charges_of sh k pe (m !! k) g block).
Proof.
  intros H Eg Eb. unfold write_charges. cbv zeta. fold (alloc_growth sh pe) (new_block pe). destruct (old_plain _ _ _ _ _ k H) as [Hhot _].
  unfold charges_of. rewrite Hhot, andb_false_r. cbn [negb]. rewrite andb_true_r.
  destruct (m !! k) as [e|] eqn:Hk; [change (found_entry (Some e)) with e|change (found_entry None) with zeroEntry]; cbn [from_option].
  - rewrite (bool_decide_true (is_Some (Some e))) by eauto. rewrite (bool_decide_false (Some e = None)) by done. destruct (held_item maphash H k e Hk) as (x & _ & He).
    rewrite (hot_bytes_ok maphash H k), res_bind_ret, Eg, res_bind_ret, Eb, res_bind_ret.
    by rewrite (block_ok maphash H e x He), !res_bind_ret.
  - rewrite (bool_decide_false (is_Some (@None entry))) by (by intros []). rewrite (bool_decide_true (@None entry = None)) by done. by rewrite res_bind_ret, Eg, res_bind_ret, Eb, !res_bind_ret.
Qed.

(** ** The invariant *)

(** The shard of a key, and the items of the keys of one shard. *)
Definition home (n : Z) (k : list byte) : Z := shardIndex n (Hash maphash k).
Definition mine (n i : Z) (A : gmap (list byte) item) : gmap (list byte) item := filter (fun p => home n p.1 = i) A.

Record store_ok (s : Store) (A : gmap (list byte) item) : Prop := {
  so_registry : NewRegistry lib = Ret (codecs_ s);
  so_count : ∃ b, 0 ≤ b ∧ zlen (shards s) = 2 ^ b;
  so_shards : ∀ i sh, znth (shards s) i = Some sh → ∃ m live, holds maphash (codecs_ s) sh m live (mine (zlen (shards s)) i A);
}.

(** The charge for the catalog of JSON shapes. *)
Definition catalog_bytes (s : Store) : Z := if shapeCatalog s then shapeStoreBaseBytes else 0.

(** Every counter is the sum of what a walk over the shards finds, up to
    wrap-around at 64 bits; the catalog is charged once. *)
Record accounted (s : Store) : Prop := {
  ac_index : m_index (memory s) = u64 (structuralMemoryBytes (zlen (shards s)) + lsum use_index (shards s));
  ac_entries : m_entries (memory s) = u64 (lsum use_entries (shards s));
  ac_arenas : m_arenas (memory s) = u64 (lsum use_arena (shards s));
  ac_payload : m_arenaPayload (memory s) = u64 (lsum use_payload (shards s));
  ac_blocks : m_arenaLiveBlocks (memory s) = u64 (lsum use_blocks (shards s));
  ac_metas : m_metas (memory s) = u64 (lsum use_metas (shards s));
  ac_rest : m_schemas (memory s) = catalog_bytes s ∧ m_hotHashes (memory s) = 0 ∧ m_streams (memory s) = 0;
  ac_used : m_used (memory s) = u64 (structuralMemoryBytes (zlen (shards s)) + lsum use_index (shards s) + lsum use_entries (shards s) +
    lsum use_arena (shards s) + lsum use_metas (shards s) + catalog_bytes s);
}.

(** Sizes of every shard are bounded. *)
Definition within (s : Store) (n b : Z) : Prop :=
  ∀ i sh, znth (shards s) i = Some sh → zlen (entries sh) ≤ n ∧ zlen (log (data sh)) ≤ b ∧ zlen (segments (arena sh)) ≤ n.

Lemma mine_home n k A : mine n (home n k) A !! k = A !! k.
Proof.
  unfold mine. destruct (A !! k) as [x|] eqn:E; [by apply map_lookup_filter_Some|]. apply map_lookup_filter_None. by left.
Qed.

Lemma mine_insert n k x A : mine n (home n k) (<[k := x]> A) = <[k := x]> (mine n (home n k) A).
Proof. unfold mine. by rewrite map_filter_insert_True. Qed.

Lemma mine_insert_ne n i k x A : home n k ≠ i → mine n i (<[k := x]> A) = mine n i A.
Proof.
  intros Hne. apply map_eq. intros k'. unfold mine. destruct (decide (k' = k)) as [->|Hk].
  - transitivity (@None item); [|symmetry]; apply map_lookup_filter_None; right; intros y _; by cbn.
  - apply option_eq. intros y. by rewrite !map_lookup_filter_Some, lookup_insert_ne.
Qed.

Lemma mine_delete n i k A : mine n i (delete k A) = delete k (mine n i A).
Proof. apply map_filter_delete. Qed.

Lemma mine_delete_ne n i k A : home n k ≠ i → mine n i (delete k A) = mine n i A.
Proof. intros Hne. rewrite mine_delete. apply delete_id, map_lookup_filter_None. right. intros y _. by cbn. Qed.

Lemma home_range b k : 0 ≤ b → 0 ≤ home (2 ^ b) k < 2 ^ b.
Proof.
  intros Hb. unfold home, shardIndex. rewrite land_mask by done. apply Z.mod_pos_bound. lia.
Qed.

(** The shard of a key holds its item. *)
Lemma home_shard s A k : store_ok s A → ∃ sh m live, shard_at s (shardFor maphash s k) = Ret sh ∧
  znth (shards s) (shardFor maphash s k) = Some sh ∧ holds maphash (codecs_ s) sh m live (mine (zlen (shards s)) (shardFor maphash s k) A) ∧
  mine (zlen (shards s)) (shardFor maphash s k) A !! k = A !! k.
Proof.
  intros [_ (b & Hb & Hn) Hs]. assert (Hr : 0 ≤ shardFor maphash s k < zlen (shards s)) by (rewrite Hn; unfold shardFor, shardForHash; rewrite Hn; by apply home_range).
  destruct (znth_is_Some _ _ Hr) as [sh Hsh]. destruct (Hs _ _ Hsh) as (m & live & H). exists sh, m, live.
  unfold shard_at. rewrite Hsh. split_and!; try done. apply mine_home.
Qed.

(** ** Updating one shard *)

(** Everything but shards, counters and the derived indexes is the same. *)
Record same_config (s s' : Store) : Prop := {
  sc_codecs : codecs_ s' = codecs_ s;
  sc_encoding : encoding s' = encoding s;
  sc_max : m_max (memory s') = m_max (memory s);
  sc_shards : zlen (shards s') = zlen (shards s);
}.

Lemma same_config_refl s : same_config s s.
Proof. done. Qed.

Lemma same_config_trans s1 s2 s3 : same_config s1 s2 → same_config s2 s3 → same_config s1 s3.
Proof. intros [] []. split; congruence. Qed.

Lemma znth_update (l : list shard) i j x : 0 ≤ i < zlen l → znth (<[Z.to_nat i := x]> l) j = if j =? i then Some x else znth l j.
Proof.
  intros Hi. destruct (Z.eqb_spec j i) as [->|Hne]; [by apply znth_insert_eq|]. by rewrite znth_insert_ne by lia.
Qed.

Lemma store_update s s' A A' i sh sh' m live : store_ok s A → znth (shards s) i = Some sh → same_config s s' →
  shards s' = <[Z.to_nat i := sh']> (shards s) → holds maphash (codecs_ s) sh' m live (mine (zlen (shards s)) i A') →
  (∀ j, j ≠ i → mine (zlen (shards s)) j A' = mine (zlen (shards s)) j A) → store_ok s' A'.
Proof.
  intros [Hreg Hn Hs] Hi [Hc _ _ Hz] Hs' Hh Hne. pose proof (znth_Some _ _ _ Hi). split; rewrite ?Hc, ?Hz; try done.
  intros j shj. rewrite Hs', znth_update by done. destruct (Z.eqb_spec j i) as [->|Hj]; [intros [= <-]; eauto|]. rewrite Hne by done. apply Hs.
Qed.

Lemma within_update s s' i sh sh' n b n' b' : within s n b → znth (shards s) i = Some sh → shards s' = <[Z.to_nat i := sh']> (shards s) →
  n ≤ n' → b ≤ b' → zlen (entries sh') ≤ n' → zlen (log (data sh')) ≤ b' → zlen (segments (arena sh')) ≤ n' → within s' n' b'.
Proof.
  intros Hw Hi Hs' Hn Hb H1 H2 H3 j shj. pose proof (znth_Some _ _ _ Hi). rewrite Hs', znth_update by done.
  destruct (Z.eqb_spec j i) as [->|Hj]; [intros [= <-]; done|]. intros Hj'. destruct (Hw _ _ Hj') as (? & ? & ?). split_and!; lia.
Qed.

Lemma lsum_update (f : shard → Z) (l : list shard) i sh sh' : znth l i = Some sh → lsum f (<[Z.to_nat i := sh']> l) = lsum f l - f sh + f sh'.
Proof. intros Hi. pose proof (znth_Some _ _ _ Hi). apply lsum_insert. by rewrite <- znth_lookup by lia. Qed.

(** ** Counters after a write *)

Lemma released_memory s n : m_used (memory (arenaReleased s n)) ≅ m_used (memory s) - n ∧
  m_arenas (memory (arenaReleased s n)) ≅ m_arenas (memory s) - n ∧
  (m_used (memory s) = u64 (m_used (memory s)) → m_used (memory (arenaReleased s n)) = u64 (m_used (memory (arenaReleased s n)))) ∧
  (m_arenas (memory s) = u64 (m_arenas (memory s)) → m_arenas (memory (arenaReleased s n)) = u64 (m_arenas (memory (arenaReleased s n)))).
Proof.
  unfold arenaReleased. destruct (Z.eqb_spec n 0) as [->|_]; cbn; [by rewrite !Z.sub_0_r|].
  split_and!; [apply cong_u64|apply cong_u64|intros _; symmetry; apply cong_u64..].
Qed.

(** Equal up to wrap-around and in range. *)
Lemma counter_eq c x : c = u64 c → c ≅ x → c = u64 x.
Proof. intros E H. rewrite E. exact H. Qed.

(** What the counters of a shard become when [e] is written for [k]. *)
Lemma use_write sh sh' m k e pe : shard_ok maphash sh m → shard_ok maphash sh' (<[k := e]> m) →
  grown sh sh' k (bool_decide (entryMeta_ (pe_entry pe) ≠ None)) (bool_decide (m !! k = None)) →
  value_bytes e = new_payload pe → metadataCharge e = metadataCharge (pe_entry pe) →
  let fresh := bool_decide (m !! k = None) in
  use_index sh' ≅ use_index sh + (if fresh then GrowthBytes (data sh) 1 else 0) ∧
  use_entries sh' ≅ use_entries sh - (if fresh then 0 else KeyPack.KeyRecordSize k) + KeyPack.KeyRecordSize k +
    (if fresh then entryGrowthBytes sh 1 else 0) +
    metaSlotGrowthBytes sh (Z.b2z fresh) (bool_decide (entryMeta_ (pe_entry pe) ≠ None)) ∧
  use_payload sh' = use_payload sh - from_option value_bytes 0 (m !! k) + new_payload pe ∧
  use_blocks sh' = use_blocks sh - from_option block_bytes 0 (m !! k) + block_bytes e ∧
  use_metas sh' = use_metas sh - from_option metadataCharge 0 (m !! k) + metadataCharge (pe_entry pe).
Proof.
  intros H H' Hg Hv Hm. cbv zeta. unfold use_index, use_entries, use_payload, use_blocks, use_metas. rewrite !(sum_write maphash _ sh sh' m k e H H').
  split; [apply Hg|]. split; [|split_and!; [by rewrite <- Hv|done|by rewrite <- Hm]].
  rewrite (gr_entry_bytes _ _ _ _ _ Hg), (gr_side_bytes _ _ _ _ _ Hg). apply cong_eq. destruct (m !! k); cbn [from_option].
  - rewrite bool_decide_false by done. lia.
  - rewrite bool_decide_true by done. lia.
Qed.

(** The other counters are not touched by a release. *)
Definition other_counters (m : accounting) := (m_index m, m_entries m, m_arenaPayload m, m_arenaLiveBlocks m, m_schemas m, m_metas m, m_hotHashes m, m_streams m, m_max m).

Lemma released_rest s n : other_counters (memory (arenaReleased s n)) = other_counters (memory s) ∧ shards (arenaReleased s n) = shards s ∧
  same_config s (arenaReleased s n).
Proof. unfold arenaReleased. by destruct (n =? 0). Qed.

Lemma released_catalog s n : shapeCatalog (arenaReleased s n) = shapeCatalog s.
Proof. unfold arenaReleased. by destruct (n =? 0). Qed.

Lemma released_config s n i sh : znth (shards s) i ≠ None → same_config s (set_shard (arenaReleased s n) i sh).
Proof.
  intros _. destruct (released_rest s n) as (_ & Hs & [H1 H2 H3 H4]). split; cbn [codecs_ encoding memory shards set_shard with_shards]; try done.
  by rewrite zlen_insert, Hs.
Qed.

(** The counters after a change of one shard that frees [n] bytes of arena. *)
Lemma accounted_change s s1 i sh sh' n : accounted s → znth (shards s) i = Some sh → shards s1 = shards s →
  m_index (memory s1) = u64 (m_index (memory s) + (use_index sh' - use_index sh)) →
  m_entries (memory s1) = u64 (m_entries (memory s) + (use_entries sh' - use_entries sh)) →
  m_arenas (memory s1) = u64 (m_arenas (memory s) + (use_arena sh' - use_arena sh + n)) →
  m_arenaPayload (memory s1) = u64 (m_arenaPayload (memory s) + (use_payload sh' - use_payload sh)) →
  m_arenaLiveBlocks (memory s1) = u64 (m_arenaLiveBlocks (memory s) + (use_blocks sh' - use_blocks sh)) →
  m_metas (memory s1) = u64 (m_metas (memory s) + (use_metas sh' - use_metas sh)) →
  (shapeCatalog s1 = shapeCatalog s ∧ m_schemas (memory s1) = m_schemas (memory s) ∧ m_hotHashes (memory s1) = 0 ∧ m_streams (memory s1) = 0) →
  m_used (memory s1) = u64 (m_used (memory s) + (use_index sh' - use_index sh) + (use_entries sh' - use_entries sh) +
    (use_arena sh' - use_arena sh + n) + (use_metas sh' - use_metas sh)) →
  accounted (set_shard (arenaReleased s1 n) i sh').
Proof.
  intros [A1 A2 A3 A4 A5 A6 (A7 & _) A8] Hi Hs E1 E2 E3 E4 E5 E6 (C1 & C2 & C3 & C4) E8.
  assert (Hcat : ∀ s2, shapeCatalog s2 = shapeCatalog (arenaReleased s1 n) → catalog_bytes s2 = catalog_bytes s)
    by (intros s2 Ec; unfold catalog_bytes; by rewrite Ec, released_catalog, C1).
  destruct (released_rest s1 n) as (Ho & Hsr & _). injection Ho as O1 O2 O3 O4 O5 O6 O7 O8 O9.
  destruct (released_memory s1 n) as (U1 & U2 & U3 & U4).
  split; cbn [memory shards set_shard with_shards]; rewrite ?Hsr, ?Hs, ?zlen_insert, ?(lsum_update _ _ i sh sh' Hi), ?O1, ?O2, ?O3, ?O4, ?O5, ?O6, ?O7, ?O8.
  - rewrite E1. change (m_index (memory s) + (use_index sh' - use_index sh) ≅ structuralMemoryBytes (zlen (shards s)) + (lsum use_index (shards s) - use_index sh + use_index sh')).
    rewrite A1, cong_u64. apply cong_eq. lia.
  - rewrite E2. change (m_entries (memory s) + (use_entries sh' - use_entries sh) ≅ lsum use_entries (shards s) - use_entries sh + use_entries sh').
    rewrite A2, cong_u64. apply cong_eq. lia.
  - apply counter_eq; [apply U4; rewrite E3; symmetry; apply cong_u64|]. rewrite U2, E3, A3, !cong_u64. apply cong_eq. lia.
  - rewrite E4. change (m_arenaPayload (memory s) + (use_payload sh' - use_payload sh) ≅ lsum use_payload (shards s) - use_payload sh + use_payload sh').
    rewrite A4, cong_u64. apply cong_eq. lia.
  - rewrite E5. change (m_arenaLiveBlocks (memory s) + (use_blocks sh' - use_blocks sh) ≅ lsum use_blocks (shards s) - use_blocks sh + use_blocks sh').
    rewrite A5, cong_u64. apply cong_eq. lia.
  - rewrite E6. change (m_metas (memory s) + (use_metas sh' - use_metas sh) ≅ lsum use_metas (shards s) - use_metas sh + use_metas sh').
    rewrite A6, cong_u64. apply cong_eq. lia.
  - rewrite C2, A7. split; [symmetry; by apply Hcat|done].
  - rewrite (Hcat (set_shard _ _ _)) by done. apply counter_eq; [apply U3; rewrite E8; symmetry; apply cong_u64|]. rewrite U1, E8, A8, !cong_u64. apply cong_eq. lia.
Qed.

Lemma accounted_write s i sh sh' m k e pe g n :
  accounted s → znth (shards s) i = Some sh → shard_ok maphash sh m → shard_ok maphash sh' (<[k := e]> m) →
  grown sh sh' k (bool_decide (entryMeta_ (pe_entry pe) ≠ None)) (bool_decide (m !! k = None)) →
  TotalMemoryBytes (arena sh') = TotalMemoryBytes (arena sh) + g + free_growth sh (m !! k) - n →
  value_bytes e = new_payload pe → metadataCharge e = metadataCharge (pe_entry pe) →
  accounted (set_shard (arenaReleased (with_memory s (charge (memory s) (charges_of sh k pe (m !! k) g (block_bytes e))
    (from_option value_bytes 0 (m !! k)) (new_payload pe))) n) i sh').
Proof.
  intros Hacc Hi H H' Hg Ht Hv Hm. destruct (use_write sh sh' m k e pe H H' Hg Hv Hm) as (U1 & U2 & U3 & U4 & U5).
  assert (Ua : use_arena sh' - use_arena sh + n = g + free_growth sh (m !! k)) by (unfold use_arena; lia).
  assert (Hx : extraArena (charges_of sh k pe (m !! k) g (block_bytes e)) ≅ g + free_growth sh (m !! k)).
  { unfold charges_of. cbn [extraArena]. destruct (m !! k); [rewrite bool_decide_false by done; apply cong_u64|rewrite bool_decide_true by done].
    cbn [free_growth]. apply cong_eq. lia. }
  pose proof (ac_rest _ Hacc) as (R1 & R2 & R3).
  apply (accounted_change s _ i sh sh' n Hacc Hi); [done|..]; cbn [memory with_memory charge m_index m_entries m_arenas m_arenaPayload m_arenaLiveBlocks m_metas
    m_schemas m_hotHashes m_streams m_used]; unfold next_used; rewrite ?Ua, ?U3, ?U4, ?U5; cbn [charges_of extraIndex oldCost newCost extraEntries extraMetaSlots
    oldBlockBytes newBlockBytes oldMetaCost newMetaCost oldHotBytes]; try match goal with |- u64 ?a = u64 ?b => change (a ≅ b) end.
  - rewrite U1. apply cong_eq. lia.
  - rewrite U2. apply cong_eq. lia.
  - by rewrite Hx.
  - apply cong_eq. lia.
  - apply cong_eq. lia.
  - apply cong_eq. lia.
  - by rewrite R1, R2, R3.
  - rewrite U1, U2, Hx. apply cong_eq. lia.
Qed.

(** ** Publishing and removing *)

Record good (s : Store) (A : gmap (list byte) item) (n b : Z) : Prop := {
  go_store : store_ok s A;
  go_accounted : accounted s;
  go_within : within s n b;
}.

Lemma good_search s A n b k : good s A n b → good (searchRemoveKey s k) A n b.
Proof. intros [[] [] Hw]. unfold searchRemoveKey. destruct (search s); (split; [by split|by split|exact Hw]). Qed.

Lemma search_config s k : same_config s (searchRemoveKey s k).
Proof. unfold searchRemoveKey. by destruct (search s). Qed.

(** What a publish does: the item is stored, or the memory limit refuses it and
    nothing changes. *)
Definition publishes (s : Store) (A : gmap (list byte) item) (n b : Z) (k : list byte) (v : value) (at' : Z) (r : reply unit * Store) : Prop :=
  r.1 = Ok tt ∧ good r.2 (<[k := (v, at')]> A) (n + 1) (b + KeyPack.KeyRecordSize k) ∧ same_config s r.2 ∨
  r = (Fail ErrOOM, s) ∧ 0 < m_max (memory s).

Lemma no_schema s sh (e : entry) : (∀ meta, entryMeta_ e = Some meta → schemaID meta = 0) →
  new_schema s sh e = Some None ∧ release_stored s sh e = Ret (true, s).
Proof.
  intros H. unfold new_schema, release_stored. destruct (entryMeta_ e) as [meta|]; [|done]. by rewrite (H meta eq_refl).
Qed.

Lemma publish_ok known s A n b k pe v adm now o :
  good s A n b → n ≤ refSegmentMask → b + KeyPack.KeyRecordSize k ≤ maxLogBytes → prepared_ok (codecs_ s) pe v →
  (sh ← shard_at s (shardFor maphash s k); shard_get maphash sh k) = Ret o →
  ∃ r, publishRecordKnownWithHash maphash growslice s (shardFor maphash s k) k (if (known : bool) then Hash maphash k else 0) known pe adm
      (found_entry o) (bool_decide (is_Some o)) now = Ret r ∧ publishes s A n b k v (expiresAt pe) r ∧ (adm = allowOverMemoryLimit → r.1 = Ok tt).
Proof.
  intros [Hs Hacc Hw] Hn Hb Hpe Ho. destruct (home_shard s A k Hs) as (sh & m & live & Hat & Hi & H & Hmine). set (i := shardFor maphash s k) in *.
  rewrite Hat, res_bind_ret, (held_get maphash H k) in Ho. injection Ho as <-. destruct (Hw _ _ Hi) as (Hw1 & Hw2 & Hw3).
  assert (Hfit : fits sh k) by (change refSegmentMask with 33554431 in *; split; [split; [change MaxValue with 134217727; lia|lia]|change refSegmentMask with 33554431; lia]).
  set (new := fun c => with_memory s (charge (memory s) c (from_option value_bytes 0 (m !! k)) (new_payload pe))).
  destruct (commit_ok known s i k pe v now sh m live _ Hat H Hpe Hfit) as (sh' & rel & g & e & _ & (live' & Hh) & Hg & Eg & Ht & Hv & Hbl & Hmc).
  set (c := charges_of sh k pe (m !! k) g (block_bytes e)). unfold publishRecordKnownWithHash. rewrite Hat, res_bind_ret.
  rewrite (write_charges_ok _ sh m live _ k pe g (block_bytes e) H Eg Hbl), res_bind_ret. fold c.
  rewrite (proj1 (no_schema s sh (pe_entry pe) (pr_meta _ _ _ Hpe))). cbn [retain_new]. rewrite res_bind_ret. cbn [negb].
  destruct (exceedsMemoryLimitLocked s (next_used (memory s) c) adm) eqn:Hmax.
  { cbn [release_new]. rewrite res_bind_ret. eexists. split; [done|]. unfold exceedsMemoryLimitLocked in Hmax.
    destruct adm; [|done]. apply andb_true_iff in Hmax as [?%Z.ltb_lt _]. split; [by right|done]. }
  assert (Hold : (if bool_decide (is_Some (m !! k)) && negb (bool_decide (is_Some (m !! k)) && isHotHash (entryData (found_entry (m !! k))))
      then release_stored s sh (found_entry (m !! k)) else Ret (true, s)) = Ret (true, s) ∧
    (if bool_decide (is_Some (m !! k)) then payload_bytes sh (found_entry (m !! k)) else Ret 0) = Ret (from_option value_bytes 0 (m !! k))).
  { destruct (m !! k) as [e0|] eqn:Hk; [|done]. destruct (held_item maphash H k e0 Hk) as (x & _ & He). rewrite bool_decide_true by eauto.
    change (found_entry (Some e0)) with e0. rewrite (payload_ok maphash H e0 x He), (proj2 (no_schema s sh e0 (eh_meta _ _ _ _ He))). by destruct (_ && _). }
  destruct Hold as [-> ->]. rewrite !res_bind_ret. cbn [negb]. fold (new_payload pe). fold (new c).
  destruct (commit_ok known (new c) i k pe v now sh m live _ Hat H Hpe Hfit) as (sh1 & rel1 & g1 & e1 & -> & (live1 & Hh1) & Hg1 & Eg1 & Ht1 & Hv1 & Hbl1 & Hmc1).
  rewrite res_bind_ret. eexists. split; [done|]. split; [|done]. left. split; [done|]. cbn [snd]. rewrite Eg in Eg1. injection Eg1 as <-.
  assert (Hbe : block_bytes e = block_bytes e1) by congruence. pose proof (released_config (new c) rel1 i sh1 ltac:(cbn; by rewrite Hi)) as Hconf.
  split; [|eapply same_config_trans; [|apply search_config]; eapply same_config_trans; [|exact Hconf]; done].
  apply good_search. destruct (released_rest (new c) rel1) as (_ & Hsr & _).
  assert (Hshards : shards (set_shard (arenaReleased (new c) rel1) i sh1) = <[Z.to_nat i := sh1]> (shards s)) by (cbn; by rewrite Hsr).
  split.
  - eapply (store_update s _ A _ i sh sh1); [done|done|by destruct Hconf|exact Hshards| |].
    + assert (Hmi : mine (zlen (shards s)) i (<[k := (v, expiresAt pe)]> A) = <[k := (v, expiresAt pe)]> (mine (zlen (shards s)) i A)) by apply mine_insert.
      rewrite Hmi. exact Hh1.
    + intros j Hj. apply mine_insert_ne. by apply not_eq_sym.
  - unfold new, c. rewrite Hbe. by apply (accounted_write s i sh sh1 m k e1 pe g rel1 Hacc Hi (ho_shard _ _ _ _ _ _ H) (ho_shard _ _ _ _ _ _ Hh1)).
  - destruct Hg1 as [G1 G2 G3 _ _ _]. pose proof (KeyPackFacts.KeyRecordSize_bounds k).
    eapply (within_update s _ i sh sh1 n b); [done|done|exact Hshards|lia|lia|..]; destruct (bool_decide (m !! k = None)); cbn [Z.b2z] in *; lia.
Qed.

(** The counters of a shard when the entry of [k] is removed. *)
Lemma accounted_remove s s0 i sh sh' m k e n : accounted s → znth (shards s) i = Some sh → shards s0 = shards s → memory s0 = memory s → shapeCatalog s0 = shapeCatalog s →
  shard_ok maphash sh m → shard_ok maphash sh' (delete k m) → m !! k = Some e → shrunk sh sh' →
  TotalMemoryBytes (arena sh') = TotalMemoryBytes (arena sh) + FreeGrowth (arena sh) (ref (entryData e)) - n →
  let mm := memory s in
  accounted (set_shard (arenaReleased (with_memory s0
    (mkAccounting (u64 (m_used mm - (entryCharge k + metadataCharge e + 0 + 0) + FreeGrowth (arena sh) (ref (entryData e)))) (m_index mm)
       (u64 (m_entries mm - entryCharge k)) (u64 (m_arenas mm + FreeGrowth (arena sh) (ref (entryData e)))) (u64 (m_arenaPayload mm - value_bytes e))
       (u64 (m_arenaLiveBlocks mm - block_bytes e)) (m_schemas mm) (u64 (m_metas mm - metadataCharge e))
       (u64 (m_hotHashes mm - 0)) (u64 (m_streams mm - 0)) (m_max mm))) n) i sh').
Proof.
  intros Hacc Hi Hs Hmem Hcat H H' Hk Hsk Ht. cbv zeta. pose proof (ac_rest _ Hacc) as (R1 & R2 & R3).
  assert (Ua : use_arena sh' - use_arena sh + n = FreeGrowth (arena sh) (ref (entryData e))) by (unfold use_arena; lia).
  assert (Ui : use_index sh' - use_index sh = 0) by (unfold use_index; rewrite (sk_capacity _ _ Hsk); lia).
  pose proof (fun f => sum_delete maphash f sh sh' m k e H H' Hk) as Hsum.
  assert (Ue : use_entries sh' - use_entries sh = - KeyPack.KeyRecordSize k).
  { unfold use_entries. rewrite Hsum, (sk_entry_bytes _ _ Hsk), (sk_side_bytes _ _ Hsk). lia. }
  assert (Up : use_payload sh' - use_payload sh = - value_bytes e) by (unfold use_payload; rewrite Hsum; lia).
  assert (Ub : use_blocks sh' - use_blocks sh = - block_bytes e) by (unfold use_blocks; rewrite Hsum; lia).
  assert (Um : use_metas sh' - use_metas sh = - metadataCharge e) by (unfold use_metas; rewrite Hsum; lia).
  apply (accounted_change s _ i sh sh' n Hacc Hi); [done|..]; cbn [memory with_memory m_index m_entries m_arenas m_arenaPayload m_arenaLiveBlocks m_metas
    m_schemas m_hotHashes m_streams m_used]; rewrite ?Ua, ?Ui, ?Ue, ?Up, ?Ub, ?Um; unfold entryCharge; try (f_equal; lia).
  - rewrite Z.add_0_r, (ac_index _ Hacc). symmetry. apply cong_u64.
  - by rewrite R1, R2, R3.
Qed.

(** The entries of the other keys stay. *)
Definition keeps (s s' : Store) (k : list byte) : Prop := ∀ k', k' ≠ k →
  (sh ← shard_at s' (shardFor maphash s' k'); shard_get maphash sh k') = (sh ← shard_at s (shardFor maphash s k'); shard_get maphash sh k').

Lemma keeps_update s s' k sh sh' m m' : same_config s s' → shards s' = <[Z.to_nat (shardFor maphash s k) := sh']> (shards s) →
  znth (shards s) (shardFor maphash s k) = Some sh → shard_ok maphash sh m → shard_ok maphash sh' m' → (∀ k', k' ≠ k → m' !! k' = m !! k') → keeps s s' k.
Proof.
  intros Hc Hs Hi H H' Hm k' Hne. assert (E : shardFor maphash s' k' = shardFor maphash s k') by (unfold shardFor, shardForHash; by rewrite (sc_shards _ _ Hc)).
  rewrite E. unfold shard_at. rewrite Hs. pose proof (znth_Some _ _ _ Hi) as Hb. destruct (decide (shardFor maphash s k' = shardFor maphash s k)) as [Ei|Hn].
  - rewrite Ei, znth_insert_eq, Hi by lia. cbn [or_panic]. rewrite !res_bind_ret, (get_ok maphash sh' m'), (get_ok maphash sh m) by done. by rewrite Hm.
  - by rewrite znth_insert_ne by (lia || by apply not_eq_sym).
Qed.

Lemma remove_keeps s A n b k now : good s A n b →
  ∃ s', remove maphash growslice s (shardFor maphash s k) k now = Ret s' ∧ (good s' (delete k A) n b ∧ same_config s s') ∧ keeps s s' k.
Proof.
  intros Hgood. pose proof Hgood as [Hs Hacc Hw]. destruct (home_shard s A k Hs) as (sh & m & live & Hat & Hi & H & Hmine). set (i := shardFor maphash s k) in *.
  unfold remove. rewrite Hat, res_bind_ret, (held_get maphash H k), res_bind_ret. destruct (m !! k) as [e|] eqn:Hk.
  2: { exists s. assert (A !! k = None) by (rewrite <- Hmine; by apply (co_dom _ _ _ _ (ho_content _ _ _ _ _ _ H))). by rewrite delete_id. }
  destruct (held_item maphash H k e Hk) as ([v d] & Hx & He). destruct (vtype_simple _ _ (eh_type _ _ _ _ He)) as (_ & _ & Hst & _).
  rewrite Hst, (vtype_not_hot _ _ (eh_type _ _ _ _ He)), (expired_ok maphash H k e v d now Hk Hx), res_bind_ret.
  set (s0 := if dead now d then with_counters s (u64 (expiredCount s + 1)) (evictedCount s) else s).
  assert (Hs0 : shards s0 = shards s ∧ memory s0 = memory s ∧ shapeCatalog s0 = shapeCatalog s ∧ same_config s s0) by (unfold s0; by destruct (dead now d)).
  destruct Hs0 as (Hsh0 & Hm0 & Hcat0 & Hc0). rewrite (proj2 (no_schema s0 sh e (eh_meta _ _ _ _ He))), res_bind_ret. cbn [negb guard_panic].
  rewrite (hot_bytes_ok maphash H k), res_bind_ret, (payload_ok maphash H e _ He), res_bind_ret, (block_ok maphash H e _ He), res_bind_ret.
  destruct (delete_step maphash growslice _ sh m live _ k e H Hk) as (sh1 & rel & a & sh2 & -> & Ef & Es & (live' & Hh) & Hsk & Ht).
  rewrite res_bind_ret, Ef, res_bind_ret, Es, res_bind_ret, Hm0. set (s1 := with_memory s0 _). eexists. split; [done|].
  pose proof (released_config s1 rel i sh2 ltac:(cbn; by rewrite Hsh0, Hi)) as Hconf.
  assert (Hc1 : same_config s s1) by (destruct Hc0 as [C1 C2 C3 C4]; split; try done).
  destruct (released_rest s1 rel) as (_ & Hsr & _).
  assert (Hshards : shards (set_shard (arenaReleased s1 rel) i sh2) = <[Z.to_nat i := sh2]> (shards s)) by (cbn; rewrite Hsr; cbn; by rewrite Hsh0).
  assert (Hc2 : same_config s (searchRemoveKey (set_shard (arenaReleased s1 rel) i sh2) k))
    by (eapply same_config_trans; [|apply search_config]; eapply same_config_trans; [exact Hc1|exact Hconf]).
  split; [split; [|done]|].
  2: { eapply (keeps_update s _ k sh sh2 m (delete k m)); [done| |done|apply H|apply Hh|intros k' Hne; by apply lookup_delete_ne, not_eq_sym].
       unfold searchRemoveKey. by destruct (search _). }
  apply good_search. split.
  - eapply (store_update s _ A _ i sh sh2); [done|done|exact (same_config_trans _ _ _ Hc1 Hconf)|exact Hshards| |].
    + rewrite mine_delete. exact Hh.
    + intros j Hj. apply mine_delete_ne. by apply not_eq_sym.
  - by apply (accounted_remove s s0 i sh sh2 m k e rel Hacc Hi Hsh0 Hm0 Hcat0 (ho_shard _ _ _ _ _ _ H) (ho_shard _ _ _ _ _ _ Hh)).
  - destruct (Hw _ _ Hi) as (W1 & W2 & W3). destruct Hsk as [K1 K2 K3 _ _ _].
    eapply (within_update s _ i sh sh2 n b); [done|done|exact Hshards|lia|lia|lia..].
Qed.

(** ** Updating an entry in place *)

Lemma inplace_content reg m live A k e v d e' d' : content reg m live A → m !! k = Some e → A !! k = Some (v, d) →
  entryData e' = with_hasExpiry (entryData e) (negb (d' =? 0)) → (∀ meta, entryMeta_ e' = Some meta → schemaID meta = 0) →
  content reg (<[k := e']> m) live (<[k := (v, d')]> A).
Proof.
  intros Hc Hk HA Ed Hmeta. assert (Er : ref (entryData e') = ref (entryData e)) by (by rewrite Ed). split.
  - intros k'. rewrite !lookup_insert_None, (co_dom _ _ _ _ Hc). done.
  - intros k' e1 x1. destruct (decide (k = k')) as [<-|Hne]; [|rewrite !lookup_insert_ne by done; by eapply co_items].
    rewrite !lookup_insert_eq. intros [= <-] [= <-].
    destruct (co_items _ _ _ _ Hc _ _ _ Hk HA) as [Hp Ht _ _ (dd & bb & Hs & Hd) Hraw]. split; rewrite ?Ed; cbn [with_hasExpiry ref rawLength codecID valueType hasExpiry]; try done.
    by exists dd, bb.
  - intros k1 k2 e1 e2. destruct (decide (k = k1)) as [<-|H1], (decide (k = k2)) as [<-|H2]; rewrite ?lookup_insert_eq, ?lookup_insert_ne by done; [done| | |by eapply co_own].
    + intros [= <-]. rewrite Er. by apply (co_own _ _ _ _ Hc k k2 e e2).
    + intros E1 [= <-]. rewrite Er. by apply (co_own _ _ _ _ Hc k1 k e1 e).
Qed.

Lemma accounted_same s i sh sh' : accounted s → znth (shards s) i = Some sh → use_index sh' ≅ use_index sh → use_entries sh' ≅ use_entries sh →
  use_arena sh' = use_arena sh → use_payload sh' = use_payload sh → use_blocks sh' = use_blocks sh → use_metas sh' = use_metas sh →
  accounted (set_shard s i sh').
Proof.
  intros Hacc Hi U1 U2 U3 U4 U5 U6. change s with (arenaReleased s 0) at 1. pose proof (ac_rest _ Hacc) as (R1 & R2 & R3).
  assert (C : ∀ c x y, c = u64 x → y ≅ 0 → c = u64 (c + y)).
  { intros c x y -> Hy. change (u64 x = u64 (u64 x + y)). symmetry. change (u64 x + y ≅ x). rewrite cong_u64, Hy. apply cong_eq. lia. }
  assert (D1 : use_index sh' - use_index sh ≅ 0) by (rewrite U1; apply cong_eq; lia).
  assert (D2 : use_entries sh' - use_entries sh ≅ 0) by (rewrite U2; apply cong_eq; lia).
  destruct Hacc as [A1 A2 A3 A4 A5 A6 A7 A8] eqn:EH. clear EH.
  apply (accounted_change s s i sh sh' 0 Hacc Hi eq_refl); rewrite ?U3, ?U4, ?U5, ?U6; try (eapply C; [done|]; done || (apply cong_eq; lia)); [done|].
  rewrite <- !Z.add_assoc. eapply C; [done|]. rewrite D1, D2. apply cong_eq. lia.
Qed.

(** What an update in place leaves alone. *)
Lemma inplace_use sh sh1 q m k e e' : shard_ok maphash sh m → shard_ok maphash (with_expiration sh1 q) (<[k := e']> m) → write_frame sh sh1 k e' false →
  m !! k = Some e → ref (entryData e') = ref (entryData e) → (entryMeta_ e' = None ↔ entryMeta_ e = None) →
  let sh' := with_expiration sh1 q in
  use_index sh' ≅ use_index sh ∧ use_entries sh' ≅ use_entries sh ∧ use_arena sh' = use_arena sh ∧ use_payload sh' = use_payload sh ∧
  use_blocks sh' = use_blocks sh ∧ use_metas sh' = use_metas sh.
Proof.
  intros H H' Hf Hk Er Hnone. cbv zeta.
  assert (Hsum : ∀ f, f k e' = f k e → entry_sum f (with_expiration sh1 q) = entry_sum f sh).
  { intros f Hfe. rewrite (sum_write maphash f sh _ m k e' H H'), Hk. cbn. lia. }
  assert (Hmc : metadataCharge e' = metadataCharge e).
  { unfold metadataCharge. destruct (entryMeta_ e'), (entryMeta_ e); try done; [discriminate (proj2 Hnone eq_refl)|discriminate (proj1 Hnone eq_refl)]. }
  assert (Hgrow : metaSlotGrowthBytes sh 0 (bool_decide (entryMeta_ e' ≠ None)) = 0).
  { unfold metaSlotGrowthBytes, entryCapacityFor. change (0 <=? 0) with true. destruct (metas sh) as [sc|] eqn:Em.
    - pose proof H as (ids & Hinv & _). pose proof (si_storage _ _ _ Hinv) as [_ Hms]. unfold metas_ok in Hms. rewrite Em in Hms.
      destruct (Z.leb_spec (entries_cap sh) (mslots_cap sc)); [done|lia].
    - rewrite bool_decide_false; [done|]. intros Hn. apply (meta_sidecar maphash sh m k e H Hk); [|done]. intros E0. by apply Hn, Hnone. }
  destruct Hf as [F1 F2 F3 F4 F5 F6 F7 F8]. cbn [Z.b2z] in *. rewrite Hgrow in F7. rewrite Z.add_0_r in F6, F7, F8. split_and!.
  - exact F8.
  - unfold use_entries. rewrite Hsum by done. change (entry_bytes (with_expiration sh1 q)) with (entry_bytes sh1).
    change (side_bytes (with_expiration sh1 q)) with (side_bytes sh1). by rewrite F6, F7.
  - unfold use_arena. cbn. by rewrite F1.
  - apply Hsum. unfold value_bytes. by rewrite Er.
  - apply Hsum. unfold block_bytes. by rewrite Er.
  - by apply Hsum.
Qed.

Lemma with_expiration_id sh : with_expiration sh (expiration_ sh) = sh.
Proof. by destruct sh. Qed.

Lemma inplace_good s A n b k sh m live e v d e' d' sh1 q :
  good s A n b → znth (shards s) (shardFor maphash s k) = Some sh → holds maphash (codecs_ s) sh m live (mine (zlen (shards s)) (shardFor maphash s k) A) →
  m !! k = Some e → A !! k = Some (v, d) → shard_ok maphash sh1 (<[k := e']> m) → write_frame sh sh1 k e' false →
  entryData e' = with_hasExpiry (entryData e) (negb (d' =? 0)) → (∀ meta, entryMeta_ e' = Some meta → schemaID meta = 0) →
  (entryMeta_ e' = None ↔ entryMeta_ e = None) →
  queue_ok q (deadlines (<[k := (v, d')]> (mine (zlen (shards s)) (shardFor maphash s k) A))) →
  let s' := set_shard s (shardFor maphash s k) (with_expiration sh1 q) in good s' (<[k := (v, d')]> A) n b ∧ same_config s s'.
Proof.
  intros [Hs Hacc Hw] Hi H Hk HA Hok Hf Ed Hmeta Hnone Hq. set (i := shardFor maphash s k) in *. cbv zeta.
  assert (Hconf : same_config s (set_shard s i (with_expiration sh1 q))) by (split; try done; cbn; by rewrite zlen_insert).
  assert (Hok' : shard_ok maphash (with_expiration sh1 q) (<[k := e']> m)).
  { destruct sh1 as [ar dt en ec mt fr ex sp]. by apply (shard_ok_parts maphash (mkShard ar dt en ec mt fr ex sp) ar q). }
  assert (Hmk : mine (zlen (shards s)) i A !! k = Some (v, d)) by (rewrite <- HA; apply mine_home).
  assert (Hmi : mine (zlen (shards s)) i (<[k := (v, d')]> A) = <[k := (v, d')]> (mine (zlen (shards s)) i A)) by apply mine_insert.
  split; [|done]. split.
  - eapply (store_update s _ A _ i sh (with_expiration sh1 q)); [done|done|done|done| |intros j Hj; apply mine_insert_ne; by apply not_eq_sym].
    rewrite Hmi. split; [done| | |exact Hq|by eapply inplace_content; [apply H|..]].
    + change (hot_slots sh1 = None). rewrite (wf_hot _ _ _ _ _ Hf). apply H.
    + cbn. rewrite (wf_arena _ _ _ _ _ Hf). apply H.
  - destruct (inplace_use sh sh1 q m k e e' (ho_shard _ _ _ _ _ _ H) Hok' Hf Hk) as (U1 & U2 & U3 & U4 & U5 & U6); [by rewrite Ed|done|].
    by apply (accounted_same s i sh).
  - destruct (Hw _ _ Hi) as (W1 & W2 & W3). destruct Hf as [F1 _ _ F4 F5 _ _ _]. cbn [Z.b2z] in *.
    eapply (within_update s _ i sh (with_expiration sh1 q) n b); [done|done|done|lia|lia|cbn; lia|cbn; lia|cbn; rewrite F1; lia].
Qed.

End Stores.
