(* ===== verification/Commands.v ===== *)
(** * String and key commands

    Model of the commands of the store on strings and keys (internal/engine:
    engine.go, commands.go, string_compat.go, inspection.go, expiration.go). A
    command takes the store and the time and returns its reply and the new store.
    Metadata is shared by pointer between an entry and its shard, so a command
    that updates it in place stores it back. *)
From S2P Require Import Prelude Numerals Arena KeyPack Table Codec Dictionary Shape Registry Entry HotHash Expiry Shard Engine.
Set Default Proof Using "Type".

Section Commands.
Context (maphash : list byte → Z) (growslice : Z → Z → Z) (lib : Library) `{P : Peers}.
Implicit Types (s : Store) (key value : list byte) (now : Z).

Local Abbreviation shardFor := (shardFor maphash).
Local Abbreviation remove := (remove maphash growslice).
Local Abbreviation publish := (publish maphash growslice).
Local Abbreviation makeEntry := (makeEntry lib).

Definition maxValueBytes : Z := Z.shiftl 32 20.
Definition errTooLarge : string := "ERR value exceeds 32 MiB limit".
Definition errInteger : string := "ERR value is not an integer or out of range".
Definition errOverflow : string := "ERR increment or decrement would overflow".

(** [e, ok := sh.get(key)] on the shard of [key]. *)
Definition lookup_key s key : res (option entry) :=
  sh ← shard_at s (shardFor s key); shard_get maphash sh key.

(** [sh.expired(key, e, now)] for an entry that was found. *)
Definition found_expired s key (e : option entry) now : res bool :=
  match e with
  | None => Ret false
  | Some e => sh ← shard_at s (shardFor s key); expired sh key e now
  end.

(** The idiom of the mutating commands: an entry that was found expired is
    removed, and the command goes on as if it was missing. *)
Definition drop_expired s key (e : option entry) now : res (option entry * Store) :=
  gone ← found_expired s key e now;
  if (gone : bool) then s ← remove s (shardFor s key) key now; Ret (None, s) else Ret (e, s).

(** The entry of a key that is present and not expired. *)
Definition live_entry s key now : res (option entry) :=
  e ← lookup_key s key;
  gone ← found_expired s key e now;
  Ret (if (gone : bool) then None else e).

Definition decode_key s key (e : entry) : res (list byte) :=
  sh ← shard_at s (shardFor s key); decode s sh e.
Definition key_expiration s key (e : entry) : res Z :=
  sh ← shard_at s (shardFor s key); expirationAt sh key e.

(** [updated.expiresAt = at] *)
Definition expiring (e : preparedEntry) (at' : Z) : preparedEntry :=
  mkPrepared (pe_entry e) at' (pe_data e) (keepStream e).

(** [if err := s.publish(...); err != nil { return err }; return a]. *)
Definition published {A} (r : reply unit * Store) (a : A) : reply A * Store :=
  match r with (Ok _, s) => (Ok a, s) | (Fail e, s) => (Fail e, s) end.

(** ** SET *)

Definition SetPlain s key value now : res (reply unit * Store) :=
  if maxValueBytes <? zlen value then Ret (Fail errTooLarge, s) else
  let hash := Hash maphash key in
  let i := shardForHash s hash in
  sh ← shard_at s i;
  old ← getHashed sh key hash;
  '(old, s) ← drop_expired s key old now;
  e ← makeEntry s value;
  publishRecordKnownHashed maphash growslice s i key hash e enforceMemoryLimit (found_entry old) (bool_decide (is_Some old)) now.

(** [result] is what the commit callback returns. *)
Definition SetPlainCommitted s key value (result : reply unit) now : res (reply unit * Store) :=
  if maxValueBytes <? zlen value then Ret (Fail errTooLarge, s) else
  let hash := Hash maphash key in
  let i := shardForHash s hash in
  sh ← shard_at s i;
  old ← getHashed sh key hash;
  '(old, s) ← drop_expired s key old now;
  e ← makeEntry s value;
  match result with
  | Fail err => Ret (Fail err, s)
  | Ok _ => publishRecordKnownHashed maphash growslice s i key hash e enforceMemoryLimit (found_entry old) (bool_decide (is_Some old)) now
  end.

(** [ExpireAt] is set when [HasExpireAt] is. *)
Record SetOptions := mkSetOptions {
  oNX : bool; oXX : bool; oGet : bool; oKeepTTL : bool; oTTL : Z; oExpireAt : option Z;
}.

Definition invalid_options (o : SetOptions) : bool :=
  let hasExpireAt := bool_decide (is_Some (oExpireAt o)) in
  (oTTL o <? 0) || (oNX o && oXX o) || (oKeepTTL o && (0 <? oTTL o)) || (oKeepTTL o && hasExpireAt) ||
  ((0 <? oTTL o) && hasExpireAt).

(** Whether the value was stored, and the previous value if asked for. *)
Definition SetWithOptions s key value (o : SetOptions) now : res (reply (bool * option (list byte)) * Store) :=
  if maxValueBytes <? zlen value then Ret (Fail errTooLarge, s)
  else if invalid_options o then Ret (Fail "ERR invalid SET options", s)
  else
    old ← lookup_key s key;
    '(old, s) ← drop_expired s key old now;
    previous ← match old with
               | Some e => if oGet o then v ← decode_key s key e; Ret (Some v) else Ret None
               | None => Ret None
               end;
    let exists_ := bool_decide (is_Some old) in
    if (oNX o && exists_) || (oXX o && negb exists_) then Ret (Ok (false, previous), s) else
    e ← makeEntry s value;
    at' ← match old with
          | Some e' => if oKeepTTL o then key_expiration s key e'
                       else Ret (if 0 <? oTTL o then stampOf (now + oTTL o) else default 0 (stampOf <$> oExpireAt o))
          | None => Ret (if 0 <? oTTL o then stampOf (now + oTTL o) else default 0 (stampOf <$> oExpireAt o))
          end;
    '(r, s) ← publish s (shardFor s key) key (expiring e at') now;
    match r with
    | Fail err => Ret (Fail err, s)
    | Ok _ =>
        s ← match oExpireAt o with
            | Some t => if t <=? now then remove s (shardFor s key) key now else Ret s
            | None => Ret s
            end;
        Ret (Ok (true, previous), s)
    end.

Definition SetConditional s key value (o : SetOptions) now : res (reply bool * Store) :=
  '(r, s) ← SetWithOptions s key value o now;
  Ret (match r with Ok (applied, _) => Ok applied | Fail e => Fail e end, s).

Definition SetWithTTL s key value (ttl now : Z) : res (reply unit * Store) :=
  '(r, s) ← SetConditional s key value (mkSetOptions false false false false ttl None) now;
  Ret (match r with Ok _ => Ok tt | Fail e => Fail e end, s).

Definition Set_ms s key value (ttlMilliseconds now : Z) : res (reply unit * Store) :=
  if (ttlMilliseconds <? 0) || (MaxInt64 / Millisecond <? ttlMilliseconds) then Ret (Fail "ttl out of range", s)
  else SetWithTTL s key value (ttlMilliseconds * Millisecond) now.

Definition GetSet s key value now : res (reply (option (list byte)) * Store) :=
  if maxValueBytes <? zlen value then Ret (Fail errTooLarge, s) else
  old ← live_entry s key now;
  previous ← match old with Some e => v ← decode_key s key e; Ret (Some v) | None => Ret None end;
  e ← makeEntry s value;
  r ← publish s (shardFor s key) key e now;
  Ret (published r previous).

(** ** GET *)

(** The activity update of a read; [stale] when the last one is over a minute old. *)
Definition note_read (stale : bool) (meta : entryMeta) now : entryMeta :=
  let r := if stale then 0 else reads meta in
  mkMeta (lastRewrite meta) (lastOptimize meta) (activityStampOf now) (lastWrite meta) (schemaID meta)
         (if r <? 255 then r + 1 else r) (writes meta).

Definition stale_access (meta : entryMeta) now : bool := Minute <? time_Sub now (activity_Time (lastAccess meta)).

(** [sh.set(key, e)] with updated metadata. *)
Definition set_meta_entry s key (e : entry) (meta : entryMeta) : res Store :=
  let i := shardFor s key in
  sh ← shard_at s i;
  sh ← shard_set maphash growslice sh key (mkEntry (entryData e) (Some meta));
  Ret (set_shard s i sh).

(** The metadata of a stored entry updated through its pointer. *)
Definition update_meta s key (meta : entryMeta) : res Store :=
  let i := shardFor s key in
  sh ← shard_at s i;
  found ← Table.Get maphash (data sh) key;
  match found with
  | Some id => sh ← setMeta sh id (Some meta); Ret (set_shard s i sh)
  | None => Ret s
  end.

Definition Get s key now : res (option (list byte) * Store) :=
  found ← live_entry s key now;
  match found with
  | None => Ret (None, s)
  | Some e =>
      s ← match entryMeta_ e with
          | Some meta => if shouldTrackActivity s e then set_meta_entry s key e (note_read (stale_access meta now) meta now) else Ret s
          | None => Ret s
          end;
      v ← decode_key s key e;
      Ret (Some v, s)
  end.

(** Replies of the typed string reads. *)
Inductive string_reply := Missing | WrongType | Value (v : list byte).

Definition read_string s key now (dec : Store → entry → res (list byte)) : res (string_reply * Store) :=
  found ← live_entry s key now;
  match found with
  | None => Ret (Missing, s)
  | Some e =>
      if isNativeContainerType (valueType (entryData e)) then Ret (WrongType, s) else
      s ← match entryMeta_ e with
          | Some meta => if shouldTrackActivity s e then update_meta s key (note_read (IsOlderThan (lastAccess meta) now Minute) meta now) else Ret s
          | None => Ret s
          end;
      v ← dec s e;
      Ret (Value v, s)
  end.

Definition GetString s key now : res (string_reply * Store) := read_string s key now (fun s e => decode_key s key e).

Definition decode_key_into s key (e : entry) (dst_cap : Z) : res (list byte) :=
  sh ← shard_at s (shardFor s key); decodeInto lib s sh e dst_cap.

Definition GetStringInto s key (dst_cap now : Z) : res (string_reply * Store) :=
  read_string s key now (fun s e => decode_key_into s key e dst_cap).
Definition GetStringBytesIntoAt s key (dst_cap now : Z) : res (string_reply * Store) := GetStringInto s key dst_cap now.

(** The bytes the visitor is called with, when the value is stored raw. *)
Definition VisitRawStringBytes s key now : res (option (list byte)) :=
  let hash := HashBytes maphash key in
  sh ← shard_at s (shardForHash s hash);
  found ← getHashedBytes sh key hash;
  match found with
  | None => Ret None
  | Some e =>
      gone ← expired sh key e now;
      let v := entryData e in
      if (gone : bool) || isNativeContainerType (valueType v) || negb (isRaw v) ||
         (encoding s && negb (rawStable v) && bool_decide (entryMeta_ e ≠ None)) || IsInline (ref v)
      then Ret None
      else b ← must (ViewKnownLive (arena sh) (ref v)); Ret (Some b)
  end.

(** ** Deletion and inspection *)

Definition Delete s key now : res (bool * Store) :=
  e ← lookup_key s key;
  gone ← found_expired s key e now;
  s ← remove s (shardFor s key) key now;
  Ret (bool_decide (is_Some e) && negb gone, s).

Definition Evict s key now : res (bool * Store) :=
  '(ok, s) ← Delete s key now;
  Ret (ok, if (ok : bool) then with_counters s (expiredCount s) (u64 (evictedCount s + 1)) else s).

Fixpoint Exists s (keys : list (list byte)) now : res Z :=
  match keys with
  | [] => Ret 0
  | key :: keys =>
      e ← live_entry s key now;
      n ← Exists s keys now;
      Ret (if bool_decide (is_Some e) then n + 1 else n)
  end.

Fixpoint DeleteMany s (keys : list (list byte)) now : res (Z * Store) :=
  match keys with
  | [] => Ret (0, s)
  | key :: keys =>
      e ← lookup_key s key;
      gone ← found_expired s key e now;
      s ← (if bool_decide (is_Some e) then remove s (shardFor s key) key now else Ret s);
      '(n, s) ← DeleteMany s keys now;
      Ret (if bool_decide (is_Some e) && negb gone then n + 1 else n, s)
  end.

Fixpoint Touch s (keys : list (list byte)) now : res (Z * Store) :=
  match keys with
  | [] => Ret (0, s)
  | key :: keys =>
      e ← lookup_key s key;
      '(e, s) ← drop_expired s key e now;
      '(n, s) ← Touch s keys now;
      Ret (if bool_decide (is_Some e) then n + 1 else n, s)
  end.

Definition type_name (t : Z) : string :=
  if t =? TypeHash then "hash" else if t =? TypeSet then "set" else if t =? TypeList then "list"
  else if t =? TypeZSet then "zset" else if t =? TypeStream then "stream" else "string".

Definition Type_ s key now : res (string * Store) :=
  e ← lookup_key s key;
  '(e, s) ← drop_expired s key e now;
  Ret (match e with None => "none"%string | Some e => type_name (valueType (entryData e)) end, s).

Definition ValueTypeOf s key now : res (option Z) :=
  e ← live_entry s key now; Ret (option_map (fun e => valueType (entryData e)) e).

Definition GetDel s key now : res (option (list byte) * Store) :=
  e ← lookup_key s key;
  '(e, s) ← drop_expired s key e now;
  match e with
  | None => Ret (None, s)
  | Some e => v ← decode_key s key e; s ← remove s (shardFor s key) key now; Ret (Some v, s)
  end.

Definition GetDelString s key now : res (option (list byte) * Store) :=
  e ← lookup_key s key;
  '(e, s) ← drop_expired s key e now;
  match e with
  | None => Ret (None, s)
  | Some e =>
      if isNativeContainerType (valueType (entryData e)) then Ret (None, s)
      else v ← decode_key s key e; s ← remove s (shardFor s key) key now; Ret (Some v, s)
  end.

(** ** Counters *)

(** The integer a value spells canonically. *)
Definition parse_canonical (text : list byte) : option Z :=
  match ParseInt text with
  | Some n => if bool_decide (FormatInt n = text) then Some n else None
  | None => None
  end.

Definition Add s key (delta now : Z) : res (reply Z * Store) :=
  e ← lookup_key s key;
  '(e, s) ← drop_expired s key e now;
  n ← match e with Some e => text ← decode_key s key e; Ret (parse_canonical text) | None => Ret (Some 0) end;
  match n with
  | None => Ret (Fail errInteger, s)
  | Some n =>
      if ((0 <? delta) && (MaxInt64 - delta <? n)) || ((delta <? 0) && (n <? MinInt64 - delta)) then Ret (Fail errOverflow, s)
      else
        updated ← makeEntry s (FormatInt (n + delta));
        at' ← match e with Some e => key_expiration s key e | None => Ret 0 end;
        r ← publish s (shardFor s key) key (expiring updated at') now;
        Ret (published r (n + delta))
  end.

Definition Incr s key now := Add s key 1 now.
Definition Decr s key now := Add s key (-1) now.

Definition Sub s key (decrement now : Z) : res (reply Z * Store) :=
  if negb (decrement =? MinInt64) then Add s key (- decrement) now else
  e ← live_entry s key now;
  match e with
  | None => Ret (Fail errOverflow, s)
  | Some e =>
      text ← decode_key s key e;
      match parse_canonical text with
      | None => Ret (Fail errInteger, s)
      | Some n =>
          if 0 <=? n then Ret (Fail errOverflow, s) else
          let n := i64 (n - decrement) in
          updated ← makeEntry s (FormatInt n);
          at' ← key_expiration s key e;
          r ← publish s (shardFor s key) key (expiring updated at') now;
          Ret (published r n)
      end
  end.

(** ** Substrings *)

(** The value and deadline of a key, empty and persistent when it is missing. *)
Definition current_value s key (e : option entry) : res (list byte * Z) :=
  match e with
  | Some e => v ← decode_key s key e; at' ← key_expiration s key e; Ret (v, at')
  | None => Ret ([], 0)
  end.

Definition Append s key (suffix : list byte) now : res (reply Z * Store) :=
  e ← lookup_key s key;
  '(e, s) ← drop_expired s key e now;
  '(current, at') ← current_value s key e;
  if maxValueBytes <? zlen current + zlen suffix then Ret (Fail errTooLarge, s) else
  updated ← makeEntry s (current ++ suffix);
  r ← publish s (shardFor s key) key (expiring updated at') now;
  Ret (published r (zlen (current ++ suffix))).

(** Bytes of an inclusive range; negative bounds count from the end. *)
Definition range_of (value : list byte) (start end_ : Z) : res (list byte) :=
  let n := zlen value in
  if n =? 0 then Ret [] else
  let start := if start <? 0 then i64 (n + start) else start in
  let end_ := if end_ <? 0 then i64 (n + end_) else end_ in
  let start := if start <? 0 then 0 else start in
  if (end_ <? 0) || (n <=? start) || (end_ <? start) then Ret [] else
  let end_ := if n <=? end_ then n - 1 else end_ in
  or_panic (zslice value start (end_ + 1)) oob.

Definition GetRange s key (start end_ now : Z) : res (list byte * Store) :=
  e ← lookup_key s key;
  '(e, s) ← drop_expired s key e now;
  match e with
  | None => Ret ([], s)
  | Some e => v ← decode_key s key e; out ← range_of v start end_; Ret (out, s)
  end.

Definition errStringSize : string := "ERR string exceeds maximum allowed size".

(** [current] padded with zeros to hold [replacement] at [offset]. *)
Definition overlay (current : list byte) (offset : Z) (replacement : list byte) : list byte :=
  let size := Z.max (zlen current) (offset + zlen replacement) in
  copy_at (copy_at (replicate (Z.to_nat size) x00) 0 current) offset replacement.

Definition SetRange s key (offset : Z) (replacement : list byte) now : res (reply Z * Store) :=
  if offset <? 0 then Ret (Fail "ERR offset is out of range", s)
  else if maxValueBytes <? offset then Ret (Fail errStringSize, s)
  else
    e ← lookup_key s key;
    '(e, s) ← drop_expired s key e now;
    '(current, at') ← current_value s key e;
    if maxValueBytes <? offset + zlen replacement then Ret (Fail errStringSize, s)
    else if zlen replacement =? 0 then Ret (Ok (zlen current), s)
    else
      let value := overlay current offset replacement in
      updated ← makeEntry s value;
      r ← publish s (shardFor s key) key (expiring updated at') now;
      Ret (published r (zlen value)).

(** ** Expiration *)

(** Whether a condition of EXPIRE lets the deadline [when_] replace the current one. *)
Definition condition_holds (condition : string) (hasExpiry : bool) (currentExpiry when_ : Z) : bool :=
  if bool_decide (condition = "") then true
  else if bool_decide (condition = "NX") then negb hasExpiry
  else if bool_decide (condition = "XX") then hasExpiry
  else if bool_decide (condition = "GT") then hasExpiry && (stamp_Time currentExpiry <? when_)
  else if bool_decide (condition = "LT") then negb (hasExpiry && negb (when_ <? stamp_Time currentExpiry))
  else false.

(** [e.hasExpiry = b; sh.set(key, e); sh.schedule(key, at)] *)
Definition set_expiry s key (e : entry) (at' : Z) (b : bool) : res Store :=
  let i := shardFor s key in
  sh ← shard_at s i;
  sh ← shard_set maphash growslice sh key (with_value e (with_hasExpiry (entryData e) b));
  sh ← shard_schedule sh key at';
  Ret (set_shard s i sh).

Definition expireAtConditional s key (when_ : Z) (condition : string) now : res (bool * Store) :=
  e ← lookup_key s key;
  '(e, s) ← drop_expired s key e now;
  match e with
  | None => Ret (false, s)
  | Some e =>
      currentExpiry ← key_expiration s key e;
      if negb (condition_holds condition (hasExpiry (entryData e)) currentExpiry when_) then Ret (false, s)
      else if when_ <=? now then s ← remove s (shardFor s key) key now; Ret (true, s)
      else s ← set_expiry s key e (stampOf when_) true; Ret (true, s)
  end.

Definition ExpireConditional s key (ttl : Z) (condition : string) now := expireAtConditional s key (now + ttl) condition now.
Definition Expire s key (ttl now : Z) := ExpireConditional s key ttl "" now.
Definition ExpireAtConditional s key (when_ : Z) (condition : string) now := expireAtConditional s key when_ condition now.
Definition ExpireAt s key (when_ now : Z) := ExpireAtConditional s key when_ "" now.

Definition Persist s key now : res (bool * Store) :=
  e ← live_entry s key now;
  match e with
  | None => s ← remove s (shardFor s key) key now; Ret (false, s)
  | Some e =>
      if negb (hasExpiry (entryData e)) then Ret (false, s)
      else s ← set_expiry s key e 0 false; Ret (true, s)
  end.

Definition GetEx s key (expireAt : option Z) (persist : bool) now : res (option (list byte) * Store) :=
  e ← lookup_key s key;
  '(e, s) ← drop_expired s key e now;
  match e with
  | None => Ret (None, s)
  | Some e =>
      v ← decode_key s key e;
      if persist then s ← set_expiry s key e 0 false; Ret (Some v, s)
      else match expireAt with
           | None => Ret (Some v, s)
           | Some t =>
               if t <=? now then s ← remove s (shardFor s key) key now; Ret (Some v, s)
               else s ← set_expiry s key e (stampOf t) true; Ret (Some v, s)
           end
  end.

Definition TTL s key (milliseconds : bool) now : res Z :=
  e ← live_entry s key now;
  match e with
  | None => Ret (-2)
  | Some e =>
      if negb (hasExpiry (entryData e)) then Ret (-1) else
      at' ← key_expiration s key e;
      let ms := stamp_Sub at' now ÷ Millisecond in
      Ret (if milliseconds then ms else ms ÷ 1000 + (Z.rem ms 1000 + 500) ÷ 1000)
  end.

Definition ExpireTime s key (milliseconds : bool) now : res Z :=
  e ← live_entry s key now;
  match e with
  | None => Ret (-2)
  | Some e =>
      if negb (hasExpiry (entryData e)) then Ret (-1) else
      at' ← key_expiration s key e;
      Ret (if milliseconds then stamp_Time at' / Millisecond else stamp_Time at' / Second)
  end.

(** Remove the keys of a shard whose deadline has passed, earliest first. *)
Fixpoint cleanup_shard (fuel : nat) s (i removed limit now : Z) : res (Z * Store) :=
  match fuel with
  | O => Ret (removed, s)
  | S f =>
      sh ← shard_at s i;
      if (0 <? Len (expiration_ sh)) && (removed <? limit) then
        next ← or_panic (znth (items (expiration_ sh)) 0) oob;
        if stampOf now <? at_ next then Ret (removed, s)
        else s ← remove s i (ekey next) now; cleanup_shard f s i (removed + 1) limit now
      else Ret (removed, s)
  end.

(** The shards from [i] on. *)
Fixpoint cleanup_loop (fuel : nat) s (i removed limit now : Z) : res (Z * Store) :=
  match fuel with
  | O => Ret (removed, s)
  | S f =>
      sh ← shard_at s i;
      '(removed, s) ← cleanup_shard (length (items (expiration_ sh))) s i removed limit now;
      if limit <=? removed then Ret (removed, s) else cleanup_loop f s (i + 1) removed limit now
  end.

Definition CleanupExpiredLimit s (limit now : Z) : res (Z * Store) :=
  if limit <=? 0 then Ret (0, s) else cleanup_loop (length (shards s)) s 0 0 limit now.
Definition CleanupExpired s now : res (Z * Store) := CleanupExpiredLimit s MaxInt64 now.

(** ** Multi-key reads *)

(** The zero metadata of [ensureMeta]. *)
Definition zeroMeta : entryMeta := mkMeta 0 0 0 0 0 0 0.

Fixpoint MGet s (keys : list (list byte)) now : res (list (option (list byte)) * Store) :=
  match keys with
  | [] => Ret ([], s)
  | key :: keys =>
      e ← live_entry s key now;
      '(v, s) ← match e with
                | None => Ret (None, s)
                | Some e =>
                    v ← decode_key s key e;
                    s ← (if shouldTrackActivity s e then
                           let meta := default zeroMeta (entryMeta_ e) in
                           set_meta_entry s key e (note_read (stale_access meta now) meta now)
                         else Ret s);
                    Ret (Some v, s)
                end;
      '(vs, s) ← MGet s keys now;
      Ret (v :: vs, s)
  end.

Fixpoint MGetStrings s (keys : list (list byte)) now : res (list (option (list byte)) * Store) :=
  match keys with
  | [] => Ret ([], s)
  | key :: keys =>
      e ← live_entry s key now;
      '(v, s) ← match e with
                | None => Ret (None, s)
                | Some e =>
                    if isNativeContainerType (valueType (entryData e)) then Ret (None, s) else
                    v ← decode_key s key e;
                    s ← match entryMeta_ e with
                        | Some meta => if shouldTrackActivity s e then set_meta_entry s key e (note_read (stale_access meta now) meta now)
                                       else Ret s
                        | None => Ret s
                        end;
                    Ret (Some v, s)
                end;
      '(vs, s) ← MGetStrings s keys now;
      Ret (v :: vs, s)
  end.

(** ** Counters of the store *)

Fixpoint stats_loop (sh : shard) (refs : list (Z * Z)) now : res (Z * Z * Z) :=
  match refs with
  | [] => Ret (0, 0, 0)
  | (r, id) :: refs =>
      e ← entryView sh id;
      gone ← (if hasExpiry (entryData e) then k ← Key (data sh) r; expired sh k e now else Ret false);
      if (gone : bool) then stats_loop sh refs now else
      n ← KeyLen (data sh) r;
      '(keys, kb, vb) ← stats_loop sh refs now;
      Ret (keys + 1, kb + n, vb + rawLength (entryData e))
  end.

Fixpoint Stats (l : list shard) now : res (Z * Z * Z) :=
  match l with
  | [] => Ret (0, 0, 0)
  | sh :: l =>
      '(k1, b1, v1) ← stats_loop sh (AllRefs (data sh)) now;
      '(k2, b2, v2) ← Stats l now;
      Ret (k1 + k2, b1 + b2, v1 + v2)
  end.

Definition PhysicalKeyCount s : Z := foldr (fun sh n => Table.Len (data sh) + n) 0 (shards s).
End Commands.
