(* ===== verification/Guard.v ===== *)
(** * The type guard of the server

    Model of internal/server/scalar_type_guard.go: before a command that treats
    a value as a string runs, the keys it reads are checked not to hold a
    container. [args] are the arguments of the request, the name first. *)
From S2P Require Import Prelude Numerals Codec Entry Shard Engine Commands.
Set Default Proof Using "Type".

Definition errWrongType : string := "WRONGTYPE Operation against a key holding the wrong kind of value".

Definition isNativeContainerValueType (t : Z) : bool := (t =? TypeHash) || (t =? TypeSet) || (t =? TypeList) || (t =? TypeZSet).

(** [strings.ToUpper], as far as a comparison with an ASCII name can tell: the
    runes with an ASCII upper case are the ASCII letters, U+0131 and U+017F. *)
Definition upper (b : byte) : byte := if (97 <=? bz b) && (bz b <=? 122) then zb (bz b - 32) else b.
Fixpoint ToUpper (s : list byte) : list byte :=
  match s with
  | xc4 :: xb1 :: s => x49 :: ToUpper s
  | xc5 :: xbf :: s => x53 :: ToUpper s
  | b :: s => upper b :: ToUpper s
  | [] => []
  end.

(** [strings.EqualFold] with a name without letters K and S. *)
Definition EqualFold (s t : list byte) : bool := bool_decide (upper <$> s = upper <$> t).

Definition legacy_names : list (list byte) :=
  text <$> ["GET"; "GETSET"; "GETEX"; "APPEND"; "GETRANGE"; "SETRANGE"; "GETBIT"; "SETBIT"; "BITCOUNT"; "BITPOS"; "INCR"; "DECR";
            "INCRBY"; "DECRBY"; "INCRBYFLOAT"; "STRLEN"]%string.

(** The keys whose types are checked. *)
Definition guarded_keys (args : list (list byte)) : res (list (list byte)) :=
  match args with
  | [] => Ret []
  | name :: rest =>
      let cmd := ToUpper name in
      if bool_decide (cmd ∈ legacy_names) then Ret (take 1 rest)
      else if bool_decide (cmd = text "SET") then
        options ← or_panic (zslice args 3 (zlen args)) oob;
        Ret (if existsb (fun arg => EqualFold arg (text "GET")) options then take 1 rest else [])
      else if bool_decide (cmd = text "BITOP") then Ret (drop 2 rest)
      else Ret []
  end.

Section Guard.
Context (maphash : list byte → Z) `{P : Peers}.

Definition nativeContainerKey (s : Store) (key : list byte) (now : Z) : res bool :=
  t ← ValueTypeOf maphash s key now;
  Ret (match t with Some t => isNativeContainerValueType t | None => false end).

Fixpoint any_container (s : Store) (keys : list (list byte)) (now : Z) : res bool :=
  match keys with
  | [] => Ret false
  | key :: keys => c ← nativeContainerKey s key now; if (c : bool) then Ret true else any_container s keys now
  end.

Definition validateLegacyScalarTypes (s : Store) (args : list (list byte)) (now : Z) : res (reply unit) :=
  keys ← guarded_keys args;
  c ← any_container s keys now;
  Ret (if (c : bool) then Fail errWrongType else Ok tt).

(** C37: A SET request without a value crashes. The guard runs before the number of
    arguments is checked and slices the arguments from the fourth on, so a request
    whose name is SET in any case with fewer than three arguments in all panics
    instead of being answered with an error. *)
Theorem guard_set_panics s name rest now : ToUpper name = text "SET" → zlen (name :: rest) < 3 →
  validateLegacyScalarTypes s (name :: rest) now = Panic oob.
Proof.
  intros Hn Hl. unfold validateLegacyScalarTypes, guarded_keys. cbv zeta. rewrite Hn.
  change (bool_decide (text "SET" ∈ legacy_names)) with false. change (bool_decide (text "SET" = text "SET")) with true. cbn match.
  unfold zslice. rewrite (proj2 (Z.leb_gt 3 _)) by done. by rewrite andb_false_r.
Qed.
End Guard.
