(* ===== verification/ListCommands.v ===== *)
(** * List commands

    Model of the list commands of the store (internal/engine: list.go,
    list_extra.go, list_replace.go, list_rename.go). A list lies in one block of
    the arena in one of its layouts; RPUSH and the pops write into that block when
    there is room. *)
From S2P Require Import Prelude Numerals Slices Arena ArenaWrite KeyPack Table Codec Registry Entry Expiry Shard ListPack Engine Commands.
Set Default Proof Using "Type".

(** ** Elements *)

Definition listWrongType : string := "WRONGTYPE Operation against a key holding the wrong kind of value".
Definition errListCount : string := "ERR invalid list element count".

(** The elements of a list in any layout. *)
Definition list_elements (data : list byte) : res (list (list byte)) :=
  if isIndexedList data then decodeIndexedList data
  else if isColdList data then decodeColdList data
  else decodePackedList data.

(** A prepared entry of the list type with the data [d]. *)
Definition listPreparedEntry (d : list byte) : preparedEntry :=
  mkPrepared (mkEntry (mkValue emptyRef (u32 (zlen d)) codec_Raw TypeList false false) None) 0 d false.

(** [values] pushed on one end; the last one ends up outermost. *)
Definition pushed (left : bool) (values current : list (list byte)) : list (list byte) :=
  if left then rev values ++ current else current ++ values.

(** [count] elements of one end in the order they are popped, and the others. *)
Definition popped (left : bool) (count : Z) (elements : list (list byte)) : list (list byte) * list (list byte) :=
  let n := zlen elements in
  let count := if n <? count then n else count in
  if left then (take (Z.to_nat count) elements, drop (Z.to_nat count) elements)
  else (rev (drop (Z.to_nat (n - count)) elements), take (Z.to_nat (n - count)) elements).

(** LREM from the head: the elements that stay, and how many were removed. *)
Fixpoint remove_front (count limit : Z) (value : list byte) (elements : list (list byte)) (removed : Z) : list (list byte) * Z :=
  match elements with
  | [] => ([], removed)
  | x :: rest =>
      if bool_decide (x = value) && ((count =? 0) || (removed <? limit)) then
        if (0 <? count) && (removed + 1 =? limit) then (rest, removed + 1) else remove_front count limit value rest (removed + 1)
      else let '(kept, removed) := remove_front count limit value rest removed in (x :: kept, removed)
  end.

(** LREM from the tail, on the elements in reverse. *)
Fixpoint remove_back (limit : Z) (value : list byte) (elements : list (list byte)) (removed : Z) : list (list byte) * Z :=
  match elements with
  | [] => ([], removed)
  | x :: rest =>
      if limit <=? removed then (x :: rest, removed)
      else if bool_decide (x = value) then remove_back limit value rest (removed + 1)
      else let '(kept, removed) := remove_back limit value rest removed in (x :: kept, removed)
  end.

Definition remove_matches (count : Z) (value : list byte) (elements : list (list byte)) : list (list byte) * Z :=
  let n := zlen elements in
  if 0 <=? count then remove_front count (if (0 <? count) && (count <? n) then count else n) value elements 0
  else
    let limit := if count =? MinInt64 then n else if - count <? n then - count else n in
    let '(kept, removed) := remove_back limit value (rev elements) 0 in (rev kept, removed).

(** The first position of [pivot]. *)
Fixpoint pivot_index (i : Z) (pivot : list byte) (elements : list (list byte)) : option Z :=
  match elements with
  | [] => None
  | x :: rest => if bool_decide (x = pivot) then Some i else pivot_index (i + 1) pivot rest
  end.

(** LPOS: a scan of the elements from position [i] on, [step] further each time.
    [wanted] is the rank of the first match to report. *)
Fixpoint pos_scan (elements : list (list byte)) (i step : Z) (value : list byte) (wanted count maxLen : Z) (withCount : bool)
    (seen scanned found : Z) : list Z :=
  match elements with
  | [] => []
  | x :: rest =>
      if (0 <? maxLen) && (maxLen <=? scanned) then [] else
      if negb (bool_decide (x = value)) then pos_scan rest (i + step) step value wanted count maxLen withCount seen (scanned + 1) found else
      if seen + 1 <? wanted then pos_scan rest (i + step) step value wanted count maxLen withCount (seen + 1) (scanned + 1) found else
      i :: (if negb withCount || ((0 <? count) && (count <=? found + 1)) then []
            else pos_scan rest (i + step) step value wanted count maxLen withCount (seen + 1) (scanned + 1) (found + 1))
  end.

Definition list_positions (elements : list (list byte)) (value : list byte) (rank count maxLen : Z) (withCount : bool) : list Z :=
  if 0 <? rank then pos_scan elements 0 1 value rank count maxLen withCount 0 0 0
  else pos_scan (rev elements) (zlen elements - 1) (-1) value (u64 (u64 (- (rank + 1)) + 1)) count maxLen withCount 0 0 0.

Section ListCommands.
Context (maphash : list byte → Z) (growslice : Z → Z → Z) (lib : Library) `{P : Peers}.
Implicit Types (s : Store) (key value : list byte) (now : Z).

Local Abbreviation shardFor := (shardFor maphash).
Local Abbreviation remove := (remove maphash growslice).
Local Abbreviation publish := (publish maphash growslice).
Local Abbreviation lookup_key := (lookup_key maphash).
Local Abbreviation drop_expired := (drop_expired maphash growslice).
Local Abbreviation key_expiration := (key_expiration maphash).

(** [x, err := r; if err != nil { return err }] *)
Definition attempt {A B} s (r : res A) (k : A → res (reply B * Store)) : res (reply B * Store) :=
  match r with Ret x => k x | Err e => Ret (Fail e, s) | Panic p => Panic p end.

Definition is_list_entry (e : entry) : bool := valueType (entryData e) =? TypeList.

(** [physical := sh.encoded(e)], and storing through that slice. *)
Definition list_data s key (e : entry) : res (list byte) := sh ← shard_at s (shardFor s key); encoded sh e.
Definition write_list s key (e : entry) (d : list byte) : res Store :=
  let i := shardFor s key in
  sh ← shard_at s i;
  a ← write_view (arena sh) (ref (entryData e)) d;
  Ret (set_shard s i (with_arena sh a)).

Definition listElementsFromEntry s key (e : entry) : res (list (list byte)) := d ← list_data s key e; list_elements d.

(** [updated := listPreparedEntry(d); updated.expiresAt = at; s.publish(...)] *)
Definition publish_list {A} s key (d : list byte) (at' now : Z) (a : A) : res (reply A * Store) :=
  r ← publish s (shardFor s key) key (expiring (listPreparedEntry d) at') now;
  Ret (published r a).

(** The elements are stored packed. *)
Definition store_packed {A} s key (elements : list (list byte)) (at' now : Z) (a : A) : res (reply A * Store) :=
  attempt s (encodePackedList elements) (fun d => publish_list s key d at' now a).

(** [updated.expiresAt = sh.expirationAt(key, e)] before the elements are stored. *)
Definition replace_list {A} s key (e : entry) (elements : list (list byte)) now (a : A) : res (reply A * Store) :=
  attempt s (encodePackedList elements) (fun d => at' ← key_expiration s key e; publish_list s key d at' now a).

(** ** Push and pop *)

(** The end of [listPush]: a long list is stored with an index. *)
Definition store_pushed s key (result : list (list byte)) (at' now : Z) : res (reply Z * Store) :=
  attempt s (if indexedListPromoteElements <=? zlen result then encodeIndexedList result else encodePackedList result)
    (fun d => publish_list s key d at' now (zlen result)).

Definition listPush s key (values : list (list byte)) (left : bool) now : res (reply Z * Store) :=
  if zlen values =? 0 then Ret (Fail errListCount, s) else
  old ← lookup_key s key;
  '(old, s) ← drop_expired s key old now;
  match old with
  | None => store_pushed s key (pushed left values []) 0 now
  | Some e =>
      if negb (is_list_entry e) then Ret (Fail listWrongType, s) else
      at' ← key_expiration s key e;
      physical ← list_data s key e;
      if negb left && isIndexedList physical then
        attempt s (indexedListAppend physical values) (fun '(length, rebuilt, data) =>
          match rebuilt with
          | None => s ← write_list s key e data; Ret (Ok length, s)
          | Some out => publish_list s key out at' now length
          end)
      else if isColdList physical then
        attempt s (decodeColdList physical) (fun current => store_pushed s key (pushed left values current) at' now)
      else if negb left then
        attempt s (appendPackedListRight physical values) (fun '(length, packed) =>
          if length <? indexedListPromoteElements then publish_list s key packed at' now length
          else attempt s (decodePackedList packed) (fun current => store_pushed s key current at' now))
      else attempt s (list_elements physical) (fun current => store_pushed s key (pushed left values current) at' now)
  end.

Definition ListPushLeft s key values now := listPush s key values true now.
Definition ListPushRight s key values now := listPush s key values false now.

Definition pop_elements s key (e : entry) (count : Z) (left : bool) now : res (reply (list (list byte)) * Store) :=
  d ← list_data s key e;
  attempt s (list_elements d) (fun elements =>
    if count =? 0 then Ret (Ok [], s) else
    let '(out, kept) := popped left count elements in
    if zlen kept =? 0 then s ← remove s (shardFor s key) key now; Ret (Ok out, s)
    else replace_list s key e kept now out).

Definition listPop s key (count : Z) (left : bool) now : res (reply (list (list byte)) * Store) :=
  if count <? 0 then Ret (Fail "ERR count must be non-negative", s) else
  e ← lookup_key s key;
  '(e, s) ← drop_expired s key e now;
  match e with
  | None => Ret (Ok [], s)
  | Some e =>
      if negb (is_list_entry e) then Ret (Fail listWrongType, s) else
      fast ← (if 0 <? count then
                physical ← list_data s key e;
                if isIndexedList physical then indexedListPop physical count left else Ret None
              else Ret None);
      match fast with
      | Some (out, data) => s ← write_list s key e data; Ret (Ok out, s)
      | None => pop_elements s key e count left now
      end
  end.

Definition ListPopLeft s key count now := listPop s key count true now.
Definition ListPopRight s key count now := listPop s key count false now.

(** ** Reads *)

(** A read of the data of a list; [missing] for a key that is not there. *)
Definition read_list {A} s key now (missing : A) (f : list byte → res A) : res (reply A) :=
  found ← live_entry maphash s key now;
  match found with
  | None => Ret (Ok missing)
  | Some e =>
      if negb (is_list_entry e) then Ret (Fail listWrongType) else
      physical ← list_data s key e;
      match f physical with Ret a => Ret (Ok a) | Err err => Ret (Fail err) | Panic p => Panic p end
  end.

Definition list_length (physical : list byte) : res Z :=
  if isIndexedList physical then m ← indexedListMeta physical; Ret (lm_count m)
  else if isColdList physical then m ← coldListMeta physical; Ret (cm_count m)
  else '(count, _) ← packedListMeta physical; Ret count.

Definition ListLen s key now : res (reply Z) := read_list s key now 0 list_length.

Definition list_element (physical : list byte) (index : Z) : res (option (list byte)) :=
  if isIndexedList physical then indexedListElement physical index
  else if isColdList physical then coldListElement physical index
  else packedListElement physical index.

Definition ListIndex s key (index now : Z) : res (reply (option (list byte))) :=
  read_list s key now None (fun physical => list_element physical index).

Definition list_slice (physical : list byte) (start stop : Z) : res (list (list byte)) :=
  if isIndexedList physical then indexedListRange physical start stop
  else if isColdList physical then coldListRange physical start stop
  else
    elements ← list_elements physical;
    match normalizeListRange (zlen elements) start stop with
    | None => Ret []
    | Some (start, stop) => or_panic (zslice elements start (stop + 1)) oob
    end.

Definition ListRange s key (start stop now : Z) : res (reply (list (list byte))) :=
  read_list s key now [] (fun physical => list_slice physical start stop).

Definition ListPos s key value (rank count maxLen : Z) (withCount : bool) now : res (reply (list Z)) :=
  read_list s key now [] (fun physical => elements ← list_elements physical; Ret (list_positions elements value rank count maxLen withCount)).

(** ** Updates of the elements *)

(** The common part: [missing] answers a key that is not there, [f] gets the
    entry and the elements. *)
Definition update_list {A} s key now (missing : reply A) (f : Store → entry → list (list byte) → res (reply A * Store)) : res (reply A * Store) :=
  e ← lookup_key s key;
  '(e, s) ← drop_expired s key e now;
  match e with
  | None => Ret (missing, s)
  | Some e =>
      if negb (is_list_entry e) then Ret (Fail listWrongType, s) else
      d ← list_data s key e;
      attempt s (list_elements d) (f s e)
  end.

Definition listPushX s key (values : list (list byte)) (left : bool) now : res (reply Z * Store) :=
  if zlen values =? 0 then Ret (Fail errListCount, s) else
  update_list s key now (Ok 0) (fun s e current =>
    let result := pushed left values current in replace_list s key e result now (zlen result)).

Definition ListPushLeftX s key values now := listPushX s key values true now.
Definition ListPushRightX s key values now := listPushX s key values false now.

Definition ListSet s key (index : Z) value now : res (reply unit * Store) :=
  update_list s key now (Fail "ERR no such key") (fun s e elements =>
    let n := zlen elements in
    let index := if index <? 0 then index + n else index in
    if (index <? 0) || (n <=? index) then Ret (Fail "ERR index out of range", s) else
    elements ← or_panic (zupd elements index value) oob;
    replace_list s key e elements now tt).

Definition ListTrim s key (start stop now : Z) : res (reply unit * Store) :=
  update_list s key now (Ok tt) (fun s e elements =>
    match normalizeListRange (zlen elements) start stop with
    | None => s ← remove s (shardFor s key) key now; Ret (Ok tt, s)
    | Some (from, to) => kept ← or_panic (zslice elements from (to + 1)) oob; replace_list s key e kept now tt
    end).

Definition ListRemove s key (count : Z) value now : res (reply Z * Store) :=
  update_list s key now (Ok 0) (fun s e elements =>
    let '(kept, removed) := remove_matches count value elements in
    if removed =? 0 then Ret (Ok 0, s)
    else if removed =? zlen elements then s ← remove s (shardFor s key) key now; Ret (Ok removed, s)
    else replace_list s key e kept now removed).

Definition ListInsert s key (before : bool) (pivot value : list byte) now : res (reply Z * Store) :=
  update_list s key now (Ok 0) (fun s e elements =>
    match pivot_index 0 pivot elements with
    | None => Ret (Ok (-1), s)
    | Some i =>
        let insertAt := if before then i else i + 1 in
        head ← or_panic (zslice elements 0 insertAt) oob;
        tail ← or_panic (zslice elements insertAt (zlen elements)) oob;
        let result := head ++ [value] ++ tail in
        replace_list s key e result now (zlen result)
    end).

(** ** Whole lists *)

Definition ListReplace s key (elements : list (list byte)) now : res (reply unit * Store) :=
  if zlen elements =? 0 then s ← remove s (shardFor s key) key now; Ret (Ok tt, s)
  else store_packed s key elements 0 now tt.

Definition listLogicalValue s key (e : entry) : res (list byte) := elements ← listElementsFromEntry s key e; encodePackedList elements.

(** Whether the source was a list, and whether it was renamed. *)
Definition RenameList s (source destination : list byte) (nx : bool) now : res (reply (bool * bool) * Store) :=
  if bool_decide (source = destination) then
    found ← live_entry maphash s source now;
    Ret (match found with
         | Some e => if is_list_entry e then Fail "ERR source and destination objects are the same" else Ok (false, false)
         | None => Ok (false, false)
         end, s)
  else
    e ← lookup_key s source;
    '(e, s) ← drop_expired s source e now;
    match e with
    | None => Ret (Ok (false, false), s)
    | Some e =>
        if negb (is_list_entry e) then Ret (Ok (false, false), s) else
        d ← lookup_key s destination;
        '(d, s) ← drop_expired s destination d now;
        if nx && bool_decide (is_Some d) then Ret (Ok (true, false), s) else
        attempt s (listLogicalValue s source e) (fun packed =>
          at' ← key_expiration s source e;
          '(r, s) ← publish s (shardFor s destination) destination (expiring (listPreparedEntry packed) at') now;
          match r with
          | Fail err => Ret (Fail err, s)
          | Ok _ => s ← remove s (shardFor s source) source now; Ret (Ok (true, true), s)
          end)
    end.
End ListCommands.
