(* ===== verification/ListSpec.v ===== *)
(** * Lists: reference functions

    What the list commands mean on a plain list of elements, and that the loops
    of the code compute it. *)
From S2P Require Import Prelude Numerals Slices Expiry ListPack ListFacts Engine Commands ListCommands.
Set Default Proof Using "Type".

Abbreviation elements := (list (list byte)).
Implicit Types (L : elements) (v : list byte).

(** Positions [start] to [end_], both inclusive, negative ones from the end. *)
Definition spec_range {A} (l : list A) (start end_ : Z) : list A :=
  let n := zlen l in
  let at_ i := if i <? 0 then n + i else i in
  let lo := Z.max 0 (at_ start) in
  let hi := Z.min (n - 1) (at_ end_) in
  take (Z.to_nat (hi - lo + 1)) (drop (Z.to_nat lo) l).

(** The values are pushed one after the other. *)
Definition spec_push (left : bool) (values L : elements) : elements :=
  foldl (fun L v => if left then v :: L else L ++ [v]) L values.

(** [count] elements, at most all, popped one after the other, and the rest. *)
Definition spec_pop (left : bool) (count : Z) (L : elements) : elements * elements :=
  let n := Z.to_nat count in
  if left then (take n L, drop n L) else (take n (rev L), rev (drop n (rev L))).

(** [L] without its first [n] occurrences of [v]. *)
Fixpoint without (n : nat) v L : elements :=
  match n, L with
  | O, _ | _, [] => L
  | S m, x :: L => if bool_decide (x = v) then without m v L else x :: without n v L
  end.

Definition spec_rem (count : Z) v L : elements :=
  if count =? 0 then filter (fun x => x ≠ v) L
  else if 0 <? count then without (Z.to_nat count) v L
  else rev (without (Z.to_nat (- count)) v (rev L)).

Fixpoint spec_insert (before : bool) (pivot : list byte) v L : elements :=
  match L with
  | [] => []
  | x :: L => if bool_decide (x = pivot) then if before then v :: x :: L else x :: v :: L else x :: spec_insert before pivot v L
  end.

(** The elements with their positions, from the side the rank asks for. *)
Definition numbered (i : Z) L : list (Z * list byte) := zip_with (fun j x => (i + Z.of_nat j, x)) (seq 0 (length L)) L.

Definition spec_pos L v (rank count maxLen : Z) (withCount : bool) : list Z :=
  let scan := if 0 <? rank then numbered 0 L else rev (numbered 0 L) in
  let scan := if 0 <? maxLen then take (Z.to_nat maxLen) scan else scan in
  let hits := drop (Z.to_nat (Z.abs rank - 1)) (fst <$> filter (fun p => p.2 = v) scan) in
  if withCount then if 0 <? count then take (Z.to_nat count) hits else hits else take 1 hits.

(** A list with this much room is stored by every layout. *)
Definition roomy L : bool := 4096 + 64 * zlen L + 4 * zlen (records L) <=? maxPackedListBytes.

(** ** The code computes them *)

Lemma list_range_spec L a b : list_range L a b = spec_range L a b.
Proof.
  unfold list_range, normalizeListRange, spec_range. cbv zeta. pose proof (zlen_nonneg L).
  rewrite !(Z.add_comm _ (zlen L)). set (x := if a <? 0 then _ else _). set (y := if b <? 0 then _ else _).
  replace (if x <? 0 then 0 else x) with (Z.max 0 x) by (destruct (Z.ltb_spec x 0); lia).
  destruct (_ || _) eqn:E.
  - rewrite !orb_true_iff, !Z.ltb_lt, Z.leb_le in E. destruct (decide (zlen L ≤ Z.max 0 x)).
    + rewrite drop_ge by (unfold zlen in *; lia). by rewrite take_nil.
    + rewrite (Z2Nat.nonpos (_ - _ + 1)); [done|lia].
  - rewrite !orb_false_iff, !Z.ltb_ge, Z.leb_gt in E. do 2 f_equal. destruct (Z.leb_spec (zlen L) y); lia.
Qed.

Lemma pushed_spec left values L : pushed left values L = spec_push left values L.
Proof.
  unfold pushed, spec_push. revert L. induction values as [|v vs IH]; intros L; [by destruct left; rewrite ?app_nil_r|].
  cbn [foldl]. rewrite <- IH. destruct left; cbn [rev]; by rewrite <- app_assoc.
Qed.

Lemma popped_spec left count L : 0 ≤ count → popped left count L = spec_pop left count L.
Proof.
  intros Hc. unfold popped, spec_pop. cbv zeta. set (c := if _ <? _ then _ else _).
  assert (Hm : c = Z.min count (zlen L)) by (unfold c; destruct (Z.ltb_spec (zlen L) count); lia). clearbody c. unfold zlen in *. destruct left.
  - f_equal; [|]; destruct (decide (count ≤ Z.of_nat (length L))); [by replace c with count by lia|rewrite !take_ge by lia; done|by replace c with count by lia|rewrite !drop_ge by lia; done].
  - assert (E : Z.to_nat (Z.of_nat (length L) - c) = (length L - Z.to_nat count)%nat) by lia. rewrite E. by rewrite firstn_rev, skipn_rev, rev_involutive.
Qed.

(** LREM. *)
Lemma remove_front_spec count limit v L : ∀ removed, 0 ≤ removed → 0 < count → removed < limit →
  remove_front count limit v L removed =
    (without (Z.to_nat (limit - removed)) v L, removed + (zlen L - zlen (without (Z.to_nat (limit - removed)) v L))).
Proof.
  induction L as [|x L IH]; intros removed H0 Hc Hl; cbn [remove_front].
  { assert (without (Z.to_nat (limit - removed)) v [] = []) as -> by (by destruct (Z.to_nat _)). f_equal. lia. }
  destruct (Z.to_nat (limit - removed)) as [|m] eqn:Em; [lia|]. cbn [without]. rewrite (proj2 (Z.ltb_lt removed limit)), orb_true_r by done.
  destruct (bool_decide (x = v)); cbn [andb].
  - rewrite (proj2 (Z.ltb_lt 0 count)) by done. cbn [andb]. destruct (Z.eqb_spec (removed + 1) limit) as [E|E].
    + assert (m = 0%nat) as -> by lia. assert (without 0 v L = L) as -> by (by destruct L). rewrite zlen_cons. f_equal. lia.
    + rewrite IH by lia. replace (Z.to_nat (limit - (removed + 1))) with m by lia. rewrite zlen_cons. f_equal. lia.
  - rewrite IH, Em by lia. rewrite !zlen_cons. f_equal. lia.
Qed.

Lemma remove_all_spec limit v L : ∀ removed, remove_front 0 limit v L removed = (filter (fun x => x ≠ v) L, removed + (zlen L - zlen (filter (fun x => x ≠ v) L))).
Proof.
  induction L as [|x L IH]; intros removed; cbn [remove_front]; [f_equal; cbn; lia|]. rewrite filter_cons. cbn [Z.eqb orb]. rewrite andb_true_r.
  destruct (bool_decide_reflect (x = v)) as [->|Hne].
  - rewrite decide_False by (intros H; by apply H). change (0 <? 0) with false. cbn [andb]. rewrite IH, zlen_cons. f_equal. lia.
  - rewrite decide_True by done. rewrite IH, !zlen_cons. f_equal. lia.
Qed.

Lemma remove_back_spec limit v L : ∀ removed, 0 ≤ removed ≤ limit →
  remove_back limit v L removed = (without (Z.to_nat (limit - removed)) v L, removed + (zlen L - zlen (without (Z.to_nat (limit - removed)) v L))).
Proof.
  induction L as [|x L IH]; intros removed Hl; cbn [remove_back].
  { assert (without (Z.to_nat (limit - removed)) v [] = []) as -> by (by destruct (Z.to_nat _)). f_equal. lia. }
  destruct (Z.leb_spec limit removed) as [Hle|Hlt].
  { replace (Z.to_nat (limit - removed)) with 0%nat by lia. cbn [without]. f_equal. lia. }
  destruct (Z.to_nat (limit - removed)) as [|m] eqn:Em; [lia|]. cbn [without]. destruct (bool_decide (x = v)).
  - rewrite IH by lia. replace (Z.to_nat (limit - (removed + 1))) with m by lia. rewrite zlen_cons. f_equal. lia.
  - rewrite IH, Em by lia. rewrite !zlen_cons. f_equal. lia.
Qed.

(** More occurrences than there are elements are all of them. *)
Lemma without_ge n m v L : (length L ≤ n)%nat → (length L ≤ m)%nat → without n v L = without m v L.
Proof.
  revert n m. induction L as [|x L IH]; intros [|n] [|m] Hn Hm; cbn [length] in *; try lia; [done..|]. cbn [without].
  destruct (bool_decide (x = v)); [apply IH; lia|]. f_equal. apply IH; lia.
Qed.

Lemma remove_matches_spec count v L : zlen L < 2 ^ 63 → remove_matches count v L = (spec_rem count v L, zlen L - zlen (spec_rem count v L)).
Proof.
  intros Hmax. unfold remove_matches, spec_rem. cbv zeta. pose proof (zlen_nonneg L). destruct (Z.eqb_spec count 0) as [->|Hne].
  { change (0 <=? 0) with true. cbn. by rewrite remove_all_spec. }
  destruct (Z.leb_spec 0 count) as [Hc|Hc].
  - rewrite !(proj2 (Z.ltb_lt 0 count)) by lia. cbn [andb]. destruct L as [|x L'] eqn:EL.
    { cbn [remove_front]. assert (without (Z.to_nat count) v [] = []) as -> by (by destruct (Z.to_nat _)). done. }
    rewrite <- EL in *. assert (0 < zlen L) by (rewrite EL, zlen_cons; pose proof (zlen_nonneg L'); lia).
    rewrite remove_front_spec by (destruct (Z.ltb_spec count (zlen L)); lia). rewrite Z.sub_0_r.
    assert (E : without (Z.to_nat (if count <? zlen L then count else zlen L)) v L = without (Z.to_nat count) v L).
    { destruct (Z.ltb_spec count (zlen L)); [done|]. apply without_ge; unfold zlen in *; lia. }
    rewrite E. f_equal.
  - rewrite (proj2 (Z.ltb_ge 0 count)) by lia. set (limit := if count =? MinInt64 then _ else _).
    assert (E : without (Z.to_nat (limit - 0)) v (rev L) = without (Z.to_nat (- count)) v (rev L) ∧ 0 ≤ limit).
    { unfold limit. rewrite Z.sub_0_r. assert (Hr : zlen (rev L) = zlen L) by (unfold zlen; by rewrite length_rev).
      destruct (Z.eqb_spec count MinInt64) as [->|]; [|destruct (Z.ltb_spec (- count) (zlen L)); [split; [done|lia]|]];
        (split; [apply without_ge; unfold MinInt64, zlen in *; lia|lia]). }
    rewrite remove_back_spec by lia. rewrite (proj1 E). f_equal. unfold zlen. rewrite !length_rev. lia.
Qed.

Lemma without_len n v L : (length (without n v L) ≤ length L)%nat ∧ (length (without n v L) = length L → without n v L = L).
Proof.
  revert n. induction L as [|x L IH]; intros [|n]; cbn [without]; [done..|]. destruct (bool_decide (x = v)); cbn [length].
  - destruct (IH n). split; [lia|]. lia.
  - destruct (IH (S n)) as [? IH2]. split; [lia|]. intros [= E]. by rewrite (IH2 E).
Qed.

(** What loses no element is unchanged. *)
Lemma spec_rem_all count v L : zlen L = zlen (spec_rem count v L) → spec_rem count v L = L.
Proof.
  unfold spec_rem, zlen. intros H. destruct (count =? 0).
  - clear count. assert (Hle : ∀ l : elements, (length (filter (fun x => x ≠ v) l) ≤ length l)%nat) by (intros; apply length_filter).
    induction L as [|x L IH]; [done|]. rewrite filter_cons in *. specialize (Hle L). destruct (decide (x ≠ v)); cbn [length] in *; [|lia]. f_equal. apply IH. lia.
  - destruct (0 <? count); [by apply without_len, Nat2Z.inj|]. rewrite length_rev in H. rewrite (proj2 (without_len _ _ _)), rev_involutive; [done|].
    rewrite length_rev. by apply Nat2Z.inj.
Qed.

(** LINSERT. *)
Lemma pivot_index_spec pivot L : ∀ i,
  match pivot_index i pivot L with
  | None => pivot ∉ L
  | Some j => pivot ∈ L ∧ i ≤ j < i + zlen L ∧ ∀ (before : bool) v,
      let n := Z.to_nat (if before then j - i else j - i + 1) in spec_insert before pivot v L = take n L ++ [v] ++ drop n L
  end.
Proof.
  induction L as [|x L IH]; intros i; cbn [pivot_index]; [apply not_elem_of_nil|]. pose proof (zlen_nonneg L). rewrite zlen_cons.
  cbn [spec_insert]. destruct (bool_decide_reflect (x = pivot)) as [->|Hne].
  - split; [by left|]. split; [lia|]. intros before v. rewrite Z.sub_diag. by destruct before.
  - specialize (IH (i + 1)). destruct (pivot_index (i + 1) pivot L) as [j|]; [|by apply not_elem_of_cons].
    destruct IH as (Hin & Hj & Hs). split; [by right|]. split; [lia|]. intros before v. rewrite Hs. cbv zeta.
    replace (Z.to_nat (if before then j - i else j - i + 1)) with (S (Z.to_nat (if before then j - (i + 1) else j - (i + 1) + 1))) by (destruct before; lia). done.
Qed.

Lemma spec_insert_len before pivot v L : pivot ∈ L → zlen (spec_insert before pivot v L) = zlen L + 1.
Proof.
  intros Hin. pose proof (pivot_index_spec pivot L 0) as H. destruct (pivot_index 0 pivot L) as [j|]; [|done]. destruct H as (_ & Hj & Hs).
  rewrite Hs. cbv zeta. rewrite zlen_app, zlen_app. change (zlen [v]) with 1. unfold zlen in *. rewrite length_take, length_drop. destruct before; lia.
Qed.

(** LPOS. *)
Definition count_hits (v : list byte) (l : list (Z * list byte)) : list Z := fst <$> filter (fun p => p.2 = v) l.
Definition clip (maxLen scanned : Z) {A} (l : list A) : list A := if 0 <? maxLen then take (Z.to_nat (maxLen - scanned)) l else l.
Definition report (withCount : bool) (count found : Z) (l : list Z) : list Z :=
  if withCount then if 0 <? count then take (Z.to_nat (count - found)) l else l else take 1 l.

Lemma pos_scan_spec (l : list (Z * list byte)) step v wanted count maxLen withCount : ∀ i seen scanned found,
  (∀ j p, l !! j = Some p → p.1 = i + step * Z.of_nat j) → 0 ≤ seen → 0 ≤ scanned → 0 ≤ found → (withCount = true → 0 < count → found < count) →
  pos_scan l.*2 i step v wanted count maxLen withCount seen scanned found =
    report withCount count found (drop (Z.to_nat (wanted - 1 - seen)) (count_hits v (clip maxLen scanned l))).
Proof.
  induction l as [|[j x] l IH]; intros i seen scanned found Hi Hs Hc Hf Hw; cbn [pos_scan fmap list_fmap snd].
  { unfold clip, count_hits. assert ((if 0 <? maxLen then take (Z.to_nat (maxLen - scanned)) [] else []) = @nil (Z * list byte)) as -> by (by destruct (0 <? maxLen); rewrite ?take_nil).
    cbn. rewrite drop_nil. unfold report. destruct withCount; [destruct (0 <? count); by rewrite ?take_nil|done]. }
  assert (Hj : j = i) by (specialize (Hi 0%nat (j, x) eq_refl); cbn in Hi; lia). subst j.
  assert (Hi' : ∀ j p, l !! j = Some p → p.1 = i + step + step * Z.of_nat j) by (intros j p Hp; specialize (Hi (S j) p Hp); lia).
  assert (Hclip : (0 <? maxLen) && (maxLen <=? scanned) = true ∧ clip maxLen scanned ((i, x) :: l) = [] ∨
    (0 <? maxLen) && (maxLen <=? scanned) = false ∧ clip maxLen scanned ((i, x) :: l) = (i, x) :: clip maxLen (scanned + 1) l).
  { unfold clip. destruct (Z.ltb_spec 0 maxLen); [|by right]. destruct (Z.leb_spec maxLen scanned); cbn [andb].
    - left. by replace (Z.to_nat (maxLen - scanned)) with 0%nat by lia.
    - right. by replace (Z.to_nat (maxLen - scanned)) with (S (Z.to_nat (maxLen - (scanned + 1)))) by lia. }
  destruct Hclip as [[-> ->]|[-> ->]].
  { cbn. rewrite drop_nil. unfold report. destruct withCount; [destruct (0 <? count); by rewrite ?take_nil|done]. }
  unfold count_hits. rewrite filter_cons. cbn [snd]. destruct (bool_decide_reflect (x = v)) as [->|Hne]; cbn [negb].
  2: { rewrite decide_False by done. by apply IH; try lia. }
  rewrite decide_True by done. rewrite fmap_cons. cbn [fst]. fold (count_hits v (clip maxLen (scanned + 1) l)). destruct (Z.ltb_spec (seen + 1) wanted) as [Hlt|Hge].
  { rewrite IH by (done || lia). by replace (Z.to_nat (wanted - 1 - seen)) with (S (Z.to_nat (wanted - 1 - (seen + 1)))) by lia. }
  replace (Z.to_nat (wanted - 1 - seen)) with 0%nat by lia. cbn [drop]. unfold report at 1. destruct withCount; cbn [negb orb]; [|done].
  destruct (Z.ltb_spec 0 count) as [Hcount|Hcount]; cbn [andb].
  - specialize (Hw eq_refl Hcount). replace (Z.to_nat (count - found)) with (S (Z.to_nat (count - (found + 1)))) by lia. cbn [take]. f_equal.
    destruct (Z.leb_spec count (found + 1)); [by replace (Z.to_nat (count - (found + 1))) with 0%nat by lia|].
    rewrite IH by (done || lia). replace (Z.to_nat (wanted - 1 - (seen + 1))) with 0%nat by lia. cbn [drop]. unfold report. by rewrite (proj2 (Z.ltb_lt 0 count)).
  - f_equal. rewrite IH by (done || lia). replace (Z.to_nat (wanted - 1 - (seen + 1))) with 0%nat by lia. cbn [drop]. unfold report. by rewrite (proj2 (Z.ltb_ge 0 count)).
Qed.

Lemma rev_reverse {A} (l : list A) : rev l = reverse l.
Proof. apply rev_alt. Qed.

Lemma numbered_values L : (numbered 0 L).*2 = L.
Proof.
  unfold numbered. rewrite fmap_zip_with_r with (f := fun j x => (0 + Z.of_nat j, x)); [done..|]. by rewrite length_seq.
Qed.

Lemma numbered_lookup L j p : numbered 0 L !! j = Some p → p.1 = Z.of_nat j.
Proof.
  unfold numbered. intros (a & x & -> & Ha & _)%lookup_zip_with_Some. apply lookup_seq in Ha as [-> _]. cbn. lia.
Qed.

Lemma length_numbered L : length (numbered 0 L) = length L.
Proof. unfold numbered. rewrite length_zip_with, length_seq. lia. Qed.

Lemma list_positions_spec L v rank count maxLen withCount : - 2 ^ 63 ≤ rank < 2 ^ 63 → rank ≠ 0 →
  list_positions L v rank count maxLen withCount = spec_pos L v rank count maxLen withCount.
Proof.
  intros Hr Hn. unfold list_positions, spec_pos. cbv zeta. destruct (Z.ltb_spec 0 rank) as [Hp|Hp].
  - rewrite <- (numbered_values L) at 1. rewrite pos_scan_spec; try done; [|intros j p Hj%numbered_lookup; lia].
    unfold report, count_hits, clip. rewrite !Z.sub_0_r. by replace (Z.abs rank) with rank by lia.
  - assert (E : rev L = (rev (numbered 0 L)).*2) by (by rewrite !rev_reverse, fmap_reverse, numbered_values).
    rewrite E, pos_scan_spec; try done.
    + unfold report, count_hits, clip. rewrite !Z.sub_0_r. replace (u64 (u64 (- (rank + 1)) + 1)) with (Z.abs rank); [done|].
      rewrite (u64_id (- (rank + 1))) by lia. rewrite u64_id by lia. lia.
    + intros j p Hj. assert (Hl : (j < length (numbered 0 L))%nat) by (rewrite <- length_rev; by apply lookup_lt_Some in Hj).
      rewrite rev_reverse, reverse_lookup in Hj by done. apply numbered_lookup in Hj. rewrite Hj. rewrite length_numbered in *. unfold zlen. lia.
Qed.
