(* ===== verification/ListBytes.v ===== *)
(** * Lists: any layout

    The readers of the commands give the list that the bytes hold, whichever of
    the three layouts they are in. *)
From S2P Require Import Prelude Numerals Slices ListPack ListFacts ListIndexed ListOps ListCold Values Engine Commands ListCommands ListSpec.
Set Default Proof Using "Type".

Lemma packed_is L : isIndexedList (packed L) = false ∧ isColdList (packed L) = false.
Proof. unfold packed. split; [unfold isIndexedList|unfold isColdList]; cbn; by rewrite ?andb_false_r. Qed.

Lemma indexed_is d L : indexed d L → isIndexedList d = true ∧ isColdList d = false.
Proof.
  intros (w & cap & ss & gap & rest & tail & H & -> & _). split; [apply (ix_is H)|]. unfold isColdList, indexed_data, fixed_part, list_header.
  destruct (w =? 2); cbn; by rewrite andb_false_r.
Qed.

Lemma bytes_elements d L : list_bytes d L → list_elements d = Ret L.
Proof.
  unfold list_elements. intros [[-> H]|[H|[-> H]]].
  - destruct (packed_is L) as [-> ->]. by apply decodePackedList_ok.
  - rewrite (proj1 (indexed_is d L H)). destruct H as (w & cap & ss & gap & rest & tail & H & -> & ->). apply (ix_decode H).
  - destruct (cold_is H) as [-> ->]. by apply decodeColdList_ok.
Qed.

Lemma bytes_length d L : list_bytes d L → list_length d = Ret (zlen L).
Proof.
  unfold list_length. intros [[-> H]|[H|[-> H]]].
  - destruct (packed_is L) as [-> ->]. by rewrite packedListMeta_ok.
  - rewrite (proj1 (indexed_is d L H)). destruct H as (w & cap & ss & gap & rest & tail & H & -> & ->). rewrite (ix_meta H). cbn. by rewrite zlen_values.
  - destruct (cold_is H) as [-> ->]. by rewrite coldListMeta_ok.
Qed.

Lemma bytes_element d L i : list_bytes d L → list_element d i = Ret (element_at L i).
Proof.
  unfold list_element. intros [[-> H]|[H|[-> H]]].
  - destruct (packed_is L) as [-> ->]. by apply packedListElement_ok.
  - rewrite (proj1 (indexed_is d L H)). destruct H as (w & cap & ss & gap & rest & tail & H & -> & ->). apply (ix_element H).
  - destruct (cold_is H) as [-> ->]. by apply coldListElement_ok.
Qed.

Lemma bytes_slice d L a b : list_bytes d L → list_slice d a b = Ret (spec_range L a b).
Proof.
  intros Hb. rewrite <- list_range_spec. unfold list_slice. pose proof (bytes_elements d L Hb) as He. destruct Hb as [[-> H]|[H|[-> H]]].
  - rewrite He. destruct (packed_is L) as [-> ->]. rewrite res_bind_ret. unfold list_range. destruct (normalizeListRange (zlen L) a b) as [[x y]|] eqn:E; [|done].
    pose proof (normalize_bounds _ _ _ _ _ E). rewrite zslice_Some by lia. cbn. do 3 f_equal. lia.
  - rewrite (proj1 (indexed_is d L H)). destruct H as (w & cap & ss & gap & rest & tail & H & -> & ->). apply (ix_range H).
  - destruct (cold_is H) as [-> ->]. by apply coldListRange_ok.
Qed.

Lemma bytes_bounds d L : list_bytes d L → 1 ≤ zlen d ≤ maxPackedListBytes ∧ zlen L ≤ maxPackedListBytes.
Proof.
  intros [[-> H]|[H|[-> H]]].
  - pose proof (packed_bounds L H) as (? & ? & _). pose proof (zlen_nonneg (records L)). split; [|lia]. split; [|apply H]. unfold packed.
    rewrite !zlen_app. change (zlen packedListHeader) with 3. pose proof (put_uvarint_len_bound (zlen L)). lia.
  - destruct H as (w & cap & ss & gap & rest & tail & H & -> & ->). pose proof (ix_parts H) as (Hl & Hmax & Hu & Ht & Hw). pose proof (ix_cap _ _ _ _ _ _ H). pose proof (ix_count _ _ _ _ _ _ H).
    rewrite zlen_values. change maxPackedListBytes with (2 ^ 25). assert (cap * 1 ≤ cap * w) by (apply Z.mul_le_mono_nonneg_l; lia). lia.
  - pose proof (cold_bounds L H) as (Hc & Hm & _). rewrite zlen_cold in *. pose proof (records_count L). pose proof (zlen_nonneg (records L)). change maxPackedListBytes with (2 ^ 25). lia.
Qed.

Lemma packed_bytes L : packs L = true → list_bytes (packed L) L.
Proof. intros H. left. split; [done|by apply packs_ok]. Qed.

Lemma bytes_records d L : list_bytes d L → zlen (records L) ≤ maxPackedListBytes.
Proof.
  intros [[-> H]|[H|[-> H]]].
  - by apply packed_bounds.
  - destruct H as (w & cap & ss & gap & rest & tail & H & -> & ->). pose proof (live_le H). pose proof (ix_parts H) as (_ & Hmax & Hu & Ht & Hw).
    pose proof (ix_cap _ _ _ _ _ _ H). change maxPackedListBytes with (2 ^ 25). assert (0 ≤ cap * w) by (apply Z.mul_nonneg_nonneg; lia). lia.
  - pose proof (cold_bounds L H) as (Hc & Hm & _). rewrite zlen_cold in Hm. change maxPackedListBytes with (2 ^ 25). lia.
Qed.

(** ** Lists with room *)

Lemma list_bound_records L : list_bound L ≤ 10 * zlen L + zlen (records L).
Proof.
  induction L as [|v L IH]; [done|]. unfold list_bound, MaxVarintLen64 in *. rewrite lsum_cons, zlen_cons, records_cons, zlen_app, zlen_record.
  pose proof (put_uvarint_len_bound (zlen v)). lia.
Qed.

Lemma roomy_packs L : roomy L = true → packs L = true.
Proof. unfold roomy, packs. rewrite !Z.leb_le. pose proof (list_bound_records L). pose proof (zlen_nonneg L). pose proof (zlen_nonneg (records L)). lia. Qed.

Lemma pow2_loop_le f : ∀ p n, 0 < p → list_pow2_loop f p n ≤ Z.max p (2 * n).
Proof.
  induction f as [|f IH]; intros p n Hp; cbn [list_pow2_loop]; [lia|]. destruct (Z.ltb_spec p n); [|lia]. specialize (IH (p * 2) n). lia.
Qed.

Lemma encodeIndexedList_total L : L ≠ [] → zlen (records L) < 2 ^ 40 →
  (∃ d, encodeIndexedList L = Ret d ∧ list_bytes d L) ∨ encodeIndexedList L = Err errListLimit ∧ roomy L = false.
Proof.
  intros HL Hm. pose proof (encodeIndexedList_ok L HL Hm) as H. destruct (encodeIndexedList L) as [d|e|]; [left; exists d; split; [done|right; by left]| |done].
  right. destruct H as [-> Hgt]. split; [done|]. unfold roomy. apply Z.leb_gt. pose proof (pow2_loop_le 64 indexedListPromoteElements (zlen L * 2) ltac:(done)) as Hp.
  fold (nextListPow2 (zlen L * 2)) in Hp. change indexedListPromoteElements with 32 in Hp. pose proof (zlen_nonneg L). pose proof (zlen_nonneg (records L)).
  pose proof (Z.div_le_upper_bound (zlen (records L)) 4 (zlen (records L)) ltac:(lia) ltac:(lia)). lia.
Qed.
