(* ===== verification/ListTheorems.v ===== *)
(** * Theorems about list layouts

    A list is stored packed, with an index, or cold. What the store relies on: the
    readers give the same answers whatever the layout, the encoders lose nothing,
    and the updates of an indexed block give the list they should. *)
From S2P Require Import Prelude Numerals Slices Codec ListPack ListFacts ListIndexed ListOps ListCold Values Engine Commands ListCommands ListSpec ListBytes.
Set Default Proof Using "Type".

(** C26: The layout of a list does not show. Whichever layout the bytes of a list
    are in, with whatever gaps and spare room pushes and pops have left in an index,
    decoding, length, element and range reads succeed and give what the plain list of
    elements says, for every index and range, negative ones and those out of range
    included. *)
Theorem list_layout_hidden data L : list_bytes data L →
  list_elements data = Ret L ∧ list_length data = Ret (zlen L) ∧
  (∀ i, list_element data i = Ret (element_at L i)) ∧ ∀ a b, list_slice data a b = Ret (spec_range L a b).
Proof.
  intros H. split_and!; [by apply bytes_elements|by apply bytes_length|intros i; by apply bytes_element|intros a b; by apply bytes_slice].
Qed.

(** The bytes of [L], or the refusal of a list that is near the size limit. *)
Definition encodes (L : elements) (r : res (list byte)) : Prop :=
  (∃ data, r = Ret data ∧ list_bytes data L ∧ zlen data ≤ maxPackedListBytes) ∨ r = Err errListLimit ∧ roomy L = false.

Lemma encoded_bytes L r : (∃ data, r = Ret data ∧ list_bytes data L) ∨ r = Err errListLimit ∧ roomy L = false → encodes L r.
Proof. intros [(data & -> & H)|H]; [left; exists data; split_and!; [done..|apply (bytes_bounds data L H)]|by right]. Qed.

Lemma roomy_cold L : roomy L = true → zlen (cold L) ≤ maxPackedListBytes.
Proof.
  unfold roomy. rewrite Z.leb_le, zlen_cold. intros H. pose proof (zlen_nonneg L). pose proof (zlen_nonneg (records L)).
  assert (coldListTableEntries (zlen L) * cold_width L ≤ (zlen L + 8) * 4); [|lia]. destruct (cold_width_ok L) as [Hw _].
  assert (0 ≤ coldListTableEntries (zlen L) ≤ zlen L + 8) by (unfold coldListTableEntries; change coldListStride with 8; dlia).
  apply Z.mul_le_mono_nonneg; destruct Hw; lia.
Qed.

(** Encoding a list loses nothing. Each of the three encoders gives bytes that
    hold exactly the list and stay within the size limit, or refuses with the limit
    error; a list that leaves 4 KiB, 64 bytes per element and four times its records
    free is never refused. *)
Theorem list_encoders_exact L : L ≠ [] → zlen (records L) < 2 ^ 40 →
  encodes L (encodePackedList L) ∧ encodes L (encodeIndexedList L) ∧ encodes L (encodeColdList L).
Proof.
  intros HL Hm. split_and!; apply encoded_bytes.
  - rewrite encodePackedList_eq. destruct (packs L) eqn:E; [left; exists (packed L); split; [done|by apply packed_bytes]|right; split; [done|]].
    destruct (roomy L) eqn:Er; [|done]. by rewrite (roomy_packs _ Er) in E.
  - by apply encodeIndexedList_total.
  - rewrite encodeColdList_eq by (apply (records_small L (2 ^ 40)); lia). destruct (Z.leb_spec (zlen (cold L)) maxPackedListBytes) as [Hle|Hgt].
    + left. exists (cold L). split; [done|]. right. by right.
    + right. split; [done|]. destruct (roomy L) eqn:Er; [|done]. pose proof (roomy_cold L Er). lia.
Qed.

(** C16: An index is updated without losing an element. On the bytes of an indexed
    list, an append gives the longer list, in the same block when there is room and
    in a rebuilt one otherwise, or is refused with the limit error; a pop from either
    side, when it works in place, gives the popped elements in order and leaves the
    others in a block of the same size; and trimming, when it does something, gives
    the same list in fewer bytes. None of them panics. *)
Theorem indexed_updates_exact data L values count lft : indexed data L → values ≠ [] → zlen (records values) < 2 ^ 40 →
  match indexedListAppend data values with
  | Ret (n, None, data') => n = zlen (L ++ values) ∧ indexed data' (L ++ values) ∧ zlen data' = zlen data
  | Ret (n, Some out, data') => n = zlen (L ++ values) ∧ indexed out (L ++ values) ∧ data' = data
  | Err e => e = errListLimit
  | Panic _ => False
  end ∧
  match indexedListPop data count lft with
  | Ret (Some (out, data')) => ∃ rest, spec_pop lft count L = (out, rest) ∧ indexed data' rest ∧ zlen data' = zlen data
  | Ret None => True
  | Err _ | Panic _ => False
  end ∧
  match trimIndexedList data with
  | Ret (Some out) => indexed out L ∧ zlen out < zlen data
  | Ret None => True
  | Err _ | Panic _ => False
  end.
Proof.
  intros (w & cap & ss & gap & rest & tail & H & -> & ->) Hne Hm. split_and!.
  - apply (indexedListAppend_ok H); [apply (records_small _ (2 ^ 40)); lia|done|done].
  - destruct (indexedListPop_ok H count lft) as [->|(H16 & H0 & data' & Hl & Hp)]; [done|].
    assert (Hs : popped lft count ss.*2 = spec_pop lft count ss.*2) by (apply popped_spec; lia).
    unfold popped in Hs. cbv zeta in Hs. rewrite zlen_values, (proj2 (Z.ltb_ge (zlen ss) count)) in Hs by lia.
    destruct lft; destruct Hp as [-> Hp]; rewrite <- Hs; by eexists.
  - apply (trimIndexedList_ok H).
Qed.

(** ** Witnesses *)

Definition demo_list : elements := [text "a"; text "bc"; []].
Definition demo_long : elements := replicate 40 (text "v").

Lemma list_layout_hidden_witness : list_elements (packed demo_list) = Ret demo_list ∧ list_length (packed demo_list) = Ret (zlen demo_list) ∧
  (∀ i, list_element (packed demo_list) i = Ret (element_at demo_list i)) ∧ ∀ a b, list_slice (packed demo_list) a b = Ret (spec_range demo_list a b).
Proof. apply (list_layout_hidden (packed demo_list) demo_list). left. split; [reflexivity|]. vm_compute. discriminate. Defined.


(** A list of forty elements with its index. *)
Definition demo_index : list byte := match encodeIndexedList demo_long with Ret d => d | _ => [] end.

Lemma demo_index_ok : indexed demo_index demo_long.
Proof.
  assert (Hne : demo_long ≠ []) by discriminate. pose proof (encodeIndexedList_ok demo_long Hne ltac:(vm_compute; reflexivity)) as H.
  unfold demo_index. destruct (encodeIndexedList demo_long) as [d| |] eqn:E; [exact H|exfalso; vm_compute in E; discriminate..].
Qed.

Lemma indexed_updates_exact_witness :
  match indexedListAppend demo_index demo_list with
  | Ret (n, None, data') => n = zlen (demo_long ++ demo_list) ∧ indexed data' (demo_long ++ demo_list) ∧ zlen data' = zlen demo_index
  | Ret (n, Some out, data') => n = zlen (demo_long ++ demo_list) ∧ indexed out (demo_long ++ demo_list) ∧ data' = demo_index
  | Err e => e = errListLimit
  | Panic _ => False
  end ∧
  match indexedListPop demo_index 3 true with
  | Ret (Some (out, data')) => ∃ rest, spec_pop true 3 demo_long = (out, rest) ∧ indexed data' rest ∧ zlen data' = zlen demo_index
  | Ret None => True
  | Err _ | Panic _ => False
  end ∧
  match trimIndexedList demo_index with
  | Ret (Some out) => indexed out demo_long ∧ zlen out < zlen demo_index
  | Ret None => True
  | Err _ | Panic _ => False
  end.
Proof. apply (indexed_updates_exact demo_index demo_long demo_list 3 true demo_index_ok); [discriminate|vm_compute; reflexivity]. Defined.
