(* ===== verification/CommandFacts.v ===== *)
(** * Steps of the commands

    What the steps the commands share do to the items of the store: looking a key
    up, dropping it when its deadline has passed, storing a value, moving a
    deadline, and recording a read. *)
From S2P Require Import Prelude Numerals Arena ArenaFacts ArenaSpec ArenaHeap KeyPack KeyPackFacts Table TableSpec CodecFacts.
From S2P Require Import Codec Dictionary Shape Registry RegistrySpec Entry HotHash Expiry Shard ShardFacts Values Engine EngineFacts StoreFacts Commands.
Set Default Proof Using "Type".

(** The items whose deadline has not passed. *)
Definition view (now : Z) (A : gmap (list byte) item) : gmap (list byte) item := filter (fun p => dead now p.2.2 = false) A.

Lemma view_lookup now A k : view now A !! k = A !! k ≫= fun x => if dead now x.2 then None else Some x.
Proof.
  unfold view. destruct (A !! k) as [y|] eqn:E; cbn; [|apply map_lookup_filter_None; by left].
  destruct (dead now y.2) eqn:D; [|by apply map_lookup_filter_Some].
  apply map_lookup_filter_None. right. intros x Hx. cbn. rewrite Hx in E. injection E as ->. by rewrite D.
Qed.

Lemma view_some now A k v d : view now A !! k = Some (v, d) ↔ A !! k = Some (v, d) ∧ dead now d = false.
Proof. apply map_lookup_filter_Some. Qed.

Lemma view_delete now A k : view now (delete k A) = delete k (view now A).
Proof. apply map_filter_delete. Qed.

Lemma stampOf_mono t u : Millisecond ≤ t → t ≤ u → stampOf t ≤ stampOf u.
Proof.
  unfold stampOf, zeroTime, Second, Millisecond. intros H1 H2. rewrite !(proj2 (Z.eqb_neq _ _)) by lia. apply Z.div_le_mono; lia.
Qed.

Lemma dead_mono t u d : Millisecond ≤ t → t ≤ u → dead t d = true → dead u d = true.
Proof.
  unfold dead. intros H1 H2. pose proof (stampOf_mono t u H1 H2). rewrite !andb_true_iff, !Z.leb_le. intros [-> ?]. split; [done|lia].
Qed.

Lemma view_later t u A : Millisecond ≤ t → t ≤ u → view u (view t A) = view u A.
Proof.
  intros H1 H2. apply map_eq. intros k. rewrite !view_lookup. destruct (A !! k) as [x|]; [|done]. cbn.
  destruct (dead t x.2) eqn:E; [|done]. by rewrite (dead_mono t u _ H1 H2 E).
Qed.

Lemma view_idem now A : view now (view now A) = view now A.
Proof. apply map_eq. intros k. rewrite !view_lookup. destruct (A !! k) as [x|]; [|done]. cbn. destruct (dead now x.2) eqn:E; [done|]. cbn. by rewrite E. Qed.

Lemma view_insert now A B k x : view now A = view now B → view now (<[k := x]> A) = view now (<[k := x]> B).
Proof.
  intros E. apply map_eq. intros k'. destruct (decide (k' = k)) as [->|Hne]; rewrite !view_lookup; [by rewrite !lookup_insert_eq|].
  rewrite !lookup_insert_ne by done. by rewrite <- !view_lookup, E.
Qed.

Section Steps.
Context (maphash : list byte → Z) (growslice : Z → Z → Z) (lib : Library) `{P : Peers}.
Context (Hcap : cap_bounds (DecodeAll lib)).
Implicit Types (A : gmap (list byte) item).

(** ** Reading an entry *)

Record reads_as (s : Store) (k : list byte) (e : entry) (v : value) (d : Z) : Prop := {
  ra_decode : ∃ bytes, decode_key maphash s k e = Ret bytes ∧ vbytes v bytes;
  ra_into : ∀ cap, ∃ bytes, decode_key_into maphash lib s k e cap = Ret bytes ∧ vbytes v bytes;
  ra_at : key_expiration maphash s k e = Ret d;
  ra_expiry : hasExpiry (entryData e) = negb (d =? 0);
  ra_data : container v = true → ∃ bytes, (sh ← shard_at s (shardFor maphash s k); encoded sh e) = Ret bytes ∧ vbytes v bytes;
  ra_type : vtype v (valueType (entryData e));
  ra_expired : ∀ now, found_expired maphash s k (Some e) now = Ret (dead now d);
}.

(** The entry found for [k] is that of its item. *)
Definition finds (s : Store) A (k : list byte) (e : option entry) : Prop :=
  match A !! k with
  | None => e = None
  | Some (v, d) => ∃ e0, e = Some e0 ∧ reads_as s k e0 v d
  end.

(** Strings are as large as a command may store, and lists are not empty. *)
Definition small (v : value) : Prop := match v with VStr b => zlen b ≤ maxValueBytes | VList L => L ≠ [] end.
Definition sized A : Prop := ∀ k v d, A !! k = Some (v, d) → small v.

Record fine (s : Store) A (n b : Z) : Prop := {
  fi_good : good maphash lib s A n b;
  fi_sized : sized A;
}.

Lemma lookup_ok s A n b k : fine s A n b → ∃ e, lookup_key maphash s k = Ret e ∧ finds s A k e.
Proof using Hcap.
  intros [[Hs _ _] _]. destruct (home_shard maphash lib s A k Hs) as (sh & m & live & Hat & _ & H & Hmine).
  exists (m !! k). unfold lookup_key. rewrite Hat, res_bind_ret. split; [apply (held_get maphash H)|]. unfold finds.
  destruct (A !! k) as [[v d]|] eqn:HA; [|apply (co_dom _ _ _ _ (ho_content _ _ _ _ _ _ H)); by rewrite Hmine].
  destruct (held_some maphash H k (v, d)) as (e & He & Hx); [by rewrite Hmine|]. exists e. split; [done|].
  split; unfold decode_key, decode_key_into, key_expiration, found_expired; rewrite ?Hat, ?res_bind_ret; try apply Hx.
  - apply (decode_ok maphash s sh m live _ e (v, d) H Hx).
  - intros cap. rewrite res_bind_ret. apply (decodeInto_ok maphash lib s sh m live _ e (v, d) cap (so_registry _ _ _ _ Hs) Hcap H Hx).
  - by apply (expirationAt_ok maphash H k e v d); rewrite ?Hmine.
  - intros Hv. destruct (NewRegistry_only _ _ (so_registry _ _ _ _ Hs)) as [Hreg _].
    destruct (encoded_ok maphash H e (v, d) Hx) as (dd & bb & E & _ & _ & _ & Hd & Hb). exists dd. split; [done|].
    rewrite (proj1 (eh_raw _ _ _ _ Hx Hv)) in Hd. by apply (raw_record lib _ _ _ _ Hreg) in Hd as [-> _].
  - intros now. rewrite res_bind_ret. by apply (expired_ok maphash H k e v d); rewrite ?Hmine.
Qed.

Lemma live_entry_ok s A n b k now : fine s A n b → ∃ e, live_entry maphash s k now = Ret e ∧ finds s (view now A) k e.
Proof using Hcap.
  intros Hf. destruct (lookup_ok s A n b k Hf) as (e & E & He). unfold live_entry. rewrite E, res_bind_ret. unfold finds in *.
  rewrite view_lookup. destruct (A !! k) as [[v d]|]; [|subst e; by exists None]. destruct He as (e0 & -> & Hr). cbn [mbind option_bind snd].
  rewrite (ra_expired _ _ _ _ _ Hr), res_bind_ret. destruct (dead now d); [by exists None|]. eauto.
Qed.

(** ** Weakening *)

Lemma fine_mono s A n b n' b' : n ≤ n' → b ≤ b' → fine s A n b → fine s A n' b'.
Proof. intros Hn Hb [[Hs Ha Hw] Hz]. split; [|done]. split; [done|done|]. intros i sh Hi. destruct (Hw i sh Hi) as (? & ? & ?). split_and!; lia. Qed.

(** A store with empty shards holds nothing. *)
Lemma empty_fine s N : NewRegistry lib = Ret (codecs_ s) → shards s = replicate (Z.to_nat N) emptyShard → (∃ c, 0 ≤ c ∧ N = 2 ^ c) →
  memory s = mkAccounting (structuralMemoryBytes N) (structuralMemoryBytes N) 0 0 0 0 0 0 0 0 (m_max (memory s)) → shapeCatalog s = None → fine s ∅ 0 0.
Proof.
  intros Hreg Hs (c & Hc & HN) Hm Hcat. assert (HN0 : 0 ≤ N) by (subst N; lia). assert (Hz : zlen (shards s) = N) by (rewrite Hs; by apply zlen_replicate).
  assert (Hall : ∀ i sh, znth (shards s) i = Some sh → sh = emptyShard).
  { intros i sh Hi. pose proof (znth_Some _ _ _ Hi). rewrite Hs, znth_lookup in Hi by lia. by apply lookup_replicate_1 in Hi as [-> _]. }
  split; [|by intros k v d]. split.
  - split; rewrite ?Hz; [done|eauto|]. intros i sh ->%Hall. exists ∅, ∅. unfold mine. rewrite map_filter_empty. apply holds_empty.
  - split; rewrite Hm, ?Hz, ?Hs, ?lsum_replicate by done; unfold catalog_bytes; rewrite ?Hcat, ?Z.add_0_r; try done; cbn [m_index m_used];
      unfold structuralMemoryBytes; symmetry; apply cong_u64.
  - intros i sh ->%Hall. split_and!; done.
Qed.

Lemma shardFor_config s s' k : same_config s s' → shardFor maphash s' k = shardFor maphash s k.
Proof. intros [_ _ _ H]. unfold shardFor, shardForHash. by rewrite H. Qed.

(** ** Removing *)

(** The lookups of the other keys are the same. *)
Local Abbreviation keeps := (keeps maphash).

Lemma remove_same s A n b k now : fine s A n b →
  ∃ s', remove maphash growslice s (shardFor maphash s k) k now = Ret s' ∧ (fine s' (delete k A) n b ∧ same_config s s') ∧ keeps s s' k.
Proof.
  intros [Hg Hz]. destruct (remove_keeps maphash growslice lib s A n b k now Hg) as (s' & E & [Hg' Hc] & Hk). exists s'. split_and!; try done.
  split; [done|]. intros k' v d [_ Hd]%lookup_delete_Some. by eapply Hz.
Qed.

Lemma remove_fine s A n b k now : fine s A n b →
  ∃ s', remove maphash growslice s (shardFor maphash s k) k now = Ret s' ∧ fine s' (delete k A) n b ∧ same_config s s'.
Proof. intros Hf. destruct (remove_same s A n b k now Hf) as (s' & E & H & _). by exists s'. Qed.

(** A key is looked up, and removed when its deadline has passed. *)
Definition drops (s : Store) A (n b : Z) (k : list byte) (now : Z) (e e' : option entry) (s' : Store) A' : Prop :=
  lookup_key maphash s k = Ret e ∧ drop_expired maphash growslice s k e now = Ret (e', s') ∧ fine s' A' n b ∧
    same_config s s' ∧ view now A' = view now A ∧ finds s' (view now A) k e' ∧ lookup_key maphash s' k = Ret e'.

Lemma drop_same s A n b k now : fine s A n b → ∃ e e' s' A', drops s A n b k now e e' s' A' ∧ keeps s s' k.
Proof using Hcap.
  intros Hf. destruct (lookup_ok s A n b k Hf) as (e & E & He). exists e. unfold drops, drop_expired. unfold finds in *. rewrite view_lookup.
  destruct (A !! k) as [[v d]|] eqn:HA; [|subst e; by exists None, s, A]. destruct He as (e0 & -> & Hr). cbn [mbind option_bind snd].
  rewrite (ra_expired _ _ _ _ _ Hr), res_bind_ret. destruct (dead now d) eqn:Hd; [|exists (Some e0), s, A; split_and!; try done; eauto].
  destruct (remove_same s A n b k now Hf) as (s' & -> & [Hf' Hc] & Hk). rewrite res_bind_ret. exists None, s', (delete k A). split_and!; try done.
  - rewrite view_delete. apply delete_id. by rewrite view_lookup, HA; cbn; rewrite Hd.
  - destruct (lookup_ok s' _ n b k Hf') as (e' & E' & He'). unfold finds in He'. rewrite lookup_delete_eq in He'. by subst e'.
Qed.

Lemma drop_ok s A n b k now : fine s A n b →
  ∃ e e' s' A', lookup_key maphash s k = Ret e ∧ drop_expired maphash growslice s k e now = Ret (e', s') ∧ fine s' A' n b ∧
    same_config s s' ∧ view now A' = view now A ∧ finds s' (view now A) k e' ∧ lookup_key maphash s' k = Ret e'.
Proof using Hcap. intros Hf. destruct (drop_same s A n b k now Hf) as (e & e' & s' & A' & H & _). by exists e, e', s', A'. Qed.

(** ** Storing *)

(** The item is stored, or the memory limit refuses it and nothing changes. *)
Definition puts (s : Store) A (n b : Z) (k : list byte) (x : item) (r : reply unit) (s' : Store) : Prop :=
  r = Ok tt ∧ fine s' (<[k := x]> A) (n + 1) (b + KeyPack.KeyRecordSize k) ∧ same_config s s' ∨
  r = Fail ErrOOM ∧ s' = s ∧ 0 < m_max (memory s).

Lemma expiring_ok reg pe v d : prepared_ok reg pe v → prepared_ok reg (expiring pe d) v.
Proof. intros []. by split. Qed.

Lemma sized_insert A k v d : sized A → small v → sized (<[k := (v, d)]> A).
Proof. intros HA Hv k' v' d'. rewrite lookup_insert_Some. intros [[_ [= <- <-]]|[_ ?]]; [done|by eapply HA]. Qed.

Lemma known_puts known s A n b k pe v now o : fine s A n b → n ≤ refSegmentMask → b + KeyPack.KeyRecordSize k ≤ maxLogBytes →
  prepared_ok (codecs_ s) pe v → small v → lookup_key maphash s k = Ret o →
  ∃ r s', publishRecordKnownWithHash maphash growslice s (shardFor maphash s k) k (if (known : bool) then Hash maphash k else 0) known pe
    enforceMemoryLimit (found_entry o) (bool_decide (is_Some o)) now = Ret (r, s') ∧ puts s A n b k (v, expiresAt pe) r s'.
Proof.
  intros [Hg Hz] Hn Hb Hpe Hv Ho.
  destruct (publish_ok maphash growslice lib known s A n b k pe v enforceMemoryLimit now o Hg Hn Hb Hpe Ho) as ([r s'] & E & Hp & _).
  exists r, s'. split; [exact E|]. destruct Hp as [(Hr & Hg' & Hc)|[[= -> ->] Hm]]; [|by right].
  cbn [fst snd] in *. left. split_and!; try done. split; [done|by apply sized_insert].
Qed.

(** A prepared entry is published with any deadline. *)
Lemma publish_puts s A n b k pe v now d : fine s A n b → n ≤ refSegmentMask → b + KeyPack.KeyRecordSize k ≤ maxLogBytes →
  prepared_ok (codecs_ s) pe v → small v →
  ∃ r s', publish maphash growslice s (shardFor maphash s k) k (expiring pe d) now = Ret (r, s') ∧ puts s A n b k (v, d) r s'.
Proof using Hcap.
  intros Hf Hn Hb Hpe Hv. destruct (lookup_ok s A n b k Hf) as (o & Eo & _).
  destruct (known_puts false s A n b k (expiring pe d) v now o Hf Hn Hb (expiring_ok _ _ _ d Hpe) Hv Eo) as (r & s' & E' & Hp).
  exists r, s'. split; [|done]. unfold publish, publishRecord, publishRecordKnown. unfold lookup_key in Eo.
  destruct (home_shard maphash lib s A k (go_store _ _ _ _ _ _ (fi_good _ _ _ _ Hf))) as (sh & _ & _ & Hat & _).
  rewrite Hat, res_bind_ret in Eo. by rewrite Hat, res_bind_ret, Eo, res_bind_ret.
Qed.

(** A string is encoded, then published with any deadline. *)
Lemma store_value s A n b k str now : fine s A n b → n ≤ refSegmentMask → b + KeyPack.KeyRecordSize k ≤ maxLogBytes →
  zlen str ≤ maxValueBytes →
  ∃ pe, makeEntry lib s str = Ret pe ∧ expiring pe 0 = pe ∧ prepared_ok (codecs_ s) pe (VStr str) ∧
    ∀ d, ∃ r s', publish maphash growslice s (shardFor maphash s k) k (expiring pe d) now = Ret (r, s') ∧ puts s A n b k (VStr str, d) r s'.
Proof using Hcap.
  intros Hf Hn Hb Hv. destruct (NewRegistry_only _ _ (so_registry _ _ _ _ (go_store _ _ _ _ _ _ (fi_good _ _ _ _ Hf)))) as [Hr _].
  destruct (makeEntry_ok lib s str Hr Hv) as (pe & E & Hpe & H0 & _). exists pe. split_and!; [done| |done|].
  - unfold expiring. rewrite <- H0. by destruct pe.
  - intros d. by apply publish_puts.
Qed.

(** ** Updating in place *)

(** The shard, entry and item of a key that was found. *)
Lemma found_shard s A n b k e v d : fine s A n b → A !! k = Some (v, d) → lookup_key maphash s k = Ret (Some e) →
  ∃ sh m live, shard_at s (shardFor maphash s k) = Ret sh ∧ znth (shards s) (shardFor maphash s k) = Some sh ∧
    holds maphash (codecs_ s) sh m live (mine maphash (zlen (shards s)) (shardFor maphash s k) A) ∧
    m !! k = Some e ∧ entry_holds (codecs_ s) live e (v, d).
Proof.
  intros [[Hs _ _] _] HA Hl. destruct (home_shard maphash lib s A k Hs) as (sh & m & live & Hat & Hi & H & Hmine).
  exists sh, m, live. unfold lookup_key in Hl. rewrite Hat, res_bind_ret, (held_get maphash H k) in Hl. injection Hl as Hm.
  split_and!; try done. by eapply co_items; [apply H|..|rewrite Hmine].
Qed.

Lemma deadlines_mine (s : Store) (B : gmap (list byte) item) (k : list byte) v d : B !! k = Some (v, d) →
  deadlines (<[k := (v, d)]> (mine maphash (zlen (shards s)) (shardFor maphash s k) B)) = deadlines (mine maphash (zlen (shards s)) (shardFor maphash s k) B).
Proof. intros HA. rewrite insert_id; [done|]. rewrite <- HA. apply mine_home. Qed.

Lemma set_expiry_ok s A n b k e v d d' : fine s A n b → A !! k = Some (v, d) → lookup_key maphash s k = Ret (Some e) →
  ∃ s', set_expiry maphash growslice s k e d' (negb (d' =? 0)) = Ret s' ∧ fine s' (<[k := (v, d')]> A) n b ∧ same_config s s'.
Proof.
  intros Hf HA Hl. destruct (found_shard s A n b k e v d Hf HA Hl) as (sh & m & live & Hat & Hi & H & Hm & He). unfold set_expiry. cbv zeta.
  rewrite Hat, res_bind_ret. set (e' := with_value e (with_hasExpiry (entryData e) (negb (d' =? 0)))).
  destruct (set_ok maphash growslice sh m k e' (ho_shard _ _ _ _ _ _ H)) as (sh1 & -> & Hok & Hfr); [apply He|congruence|].
  rewrite bool_decide_false in Hfr by congruence. rewrite res_bind_ret. unfold shard_schedule.
  pose proof (ho_queue _ _ _ _ _ _ H) as Hq. rewrite <- (wf_expiration _ _ _ _ _ Hfr) in Hq.
  destruct (schedule_ok _ _ k d' Hq) as (q & -> & Hq'). rewrite !res_bind_ret. eexists. split; [done|].
  destruct (inplace_good maphash lib s A n b k sh m live e v d e' d' sh1 q (fi_good _ _ _ _ Hf) Hi H Hm HA Hok Hfr) as [Hg Hc]; try done.
  - apply He.
  - by rewrite deadlines_insert.
  - split; [|done]. split; [done|]. apply sized_insert; [apply Hf|]. by eapply (fi_sized _ _ _ _ Hf).
Qed.

(** An entry reads the same in two stores. *)
Definition same_reads (s s' : Store) (k : list byte) (e : entry) : Prop :=
  decode_key maphash s' k e = decode_key maphash s k e ∧ ∀ cap, decode_key_into maphash lib s' k e cap = decode_key_into maphash lib s k e cap.

Lemma reads_set_shard s k e sh sh1 : znth (shards s) (shardFor maphash s k) = Some sh → arena sh1 = arena sh →
  same_reads s (set_shard s (shardFor maphash s k) sh1) k e.
Proof.
  intros Hi Ha. set (i := shardFor maphash s k) in *. pose proof (znth_Some _ _ _ Hi) as Hr.
  assert (Hk : shardFor maphash (set_shard s i sh1) k = i) by (apply shardFor_config; split; try done; cbn; by rewrite zlen_insert).
  assert (Hat : shard_at (set_shard s i sh1) i = Ret sh1) by (unfold shard_at; cbn; by rewrite znth_insert_eq).
  assert (Hat' : shard_at s i = Ret sh) by (unfold shard_at; by rewrite Hi).
  split; [|intros cap]; unfold decode_key, decode_key_into; rewrite Hk, Hat, !res_bind_ret; fold i; rewrite Hat', !res_bind_ret;
    unfold decodeInto, decode, encodedInto, encoded; by rewrite Ha.
Qed.

(** Metadata of a read entry is replaced. *)
Lemma touched s A n b k e v d meta meta' sh sh1 m live : fine s A n b → A !! k = Some (v, d) →
  znth (shards s) (shardFor maphash s k) = Some sh → holds maphash (codecs_ s) sh m live (mine maphash (zlen (shards s)) (shardFor maphash s k) A) →
  m !! k = Some e → entry_holds (codecs_ s) live e (v, d) → entryMeta_ e = Some meta → schemaID meta' = schemaID meta →
  shard_ok maphash sh1 (<[k := mkEntry (entryData e) (Some meta')]> m) → write_frame sh sh1 k (mkEntry (entryData e) (Some meta')) false →
  fine (set_shard s (shardFor maphash s k) sh1) A n b ∧ same_config s (set_shard s (shardFor maphash s k) sh1) ∧
  same_reads s (set_shard s (shardFor maphash s k) sh1) k e.
Proof.
  intros Hf HA Hi H Hm He Hmeta Hsch Hok Hfr. pose proof (reads_set_shard s k e sh sh1 Hi (wf_arena _ _ _ _ _ Hfr)) as Hrd. revert Hrd. rewrite <- (with_expiration_id sh1), (wf_expiration _ _ _ _ _ Hfr). intros Hrd.
  destruct (inplace_good maphash lib s A n b k sh m live e v d (mkEntry (entryData e) (Some meta')) d sh1 (expiration_ sh) (fi_good _ _ _ _ Hf) Hi H Hm HA Hok Hfr) as [Hg Hc].
  - cbn. pose proof (eh_expiry _ _ _ _ He) as E. cbn in E. rewrite <- E. by destruct (entryData e).
  - cbn. intros ? [= <-]. rewrite Hsch. by eapply eh_meta.
  - cbn. by rewrite Hmeta.
  - rewrite deadlines_mine by done. apply H.
  - split; [|by split]. rewrite (insert_id A) in Hg by done. split; [done|apply Hf].
Qed.

Lemma set_meta_ok s A n b k e v d meta meta' : fine s A n b → A !! k = Some (v, d) → lookup_key maphash s k = Ret (Some e) →
  entryMeta_ e = Some meta → schemaID meta' = schemaID meta →
  (∃ s', set_meta_entry maphash growslice s k e meta' = Ret s' ∧ fine s' A n b ∧ same_config s s' ∧ same_reads s s' k e) ∧
  (∃ s', update_meta maphash s k meta' = Ret s' ∧ fine s' A n b ∧ same_config s s' ∧ same_reads s s' k e).
Proof.
  intros Hf HA Hl Hmeta Hsch. destruct (found_shard s A n b k e v d Hf HA Hl) as (sh & m & live & Hat & Hi & H & Hm & He).
  split; [unfold set_meta_entry|unfold update_meta]; cbv zeta; rewrite Hat, res_bind_ret.
  - destruct (set_ok maphash growslice sh m k (mkEntry (entryData e) (Some meta')) (ho_shard _ _ _ _ _ _ H)) as (sh1 & -> & Hok & Hfr); [apply He|congruence|].
    rewrite bool_decide_false in Hfr by congruence. rewrite res_bind_ret. eexists. split; [done|]. by eapply (touched s A n b k e v d meta meta' sh sh1 m live).
  - destruct (setMeta_shard maphash sh m k e meta meta' (ho_shard _ _ _ _ _ _ H) Hm Hmeta) as (id & sh1 & -> & E & Hok & Hfr).
    rewrite res_bind_ret, E, res_bind_ret. eexists. split; [done|]. by eapply (touched s A n b k e v d meta meta' sh sh1 m live).
Qed.

End Steps.
