(* ===== verification/ListStore.v ===== *)
(** * Lists in the store

    The steps the list commands share: reading the block of a list, storing a list
    in a new block, and writing into the block in place. *)
From S2P Require Import Prelude Numerals Slices Arena ArenaFacts ArenaSpec ArenaHeap ArenaWrite KeyPack KeyPackFacts Table TableSpec CodecFacts.
From S2P Require Import Codec Dictionary Shape Registry RegistrySpec Entry HotHash Expiry Shard ShardFacts.
From S2P Require Import ListPack ListFacts ListIndexed ListOps ListCold Values Engine EngineFacts StoreFacts Commands ListCommands ListSpec ListBytes CommandFacts.
Set Default Proof Using "Type".

(** Raw data decodes to itself. *)
Lemma raw_decodes lib reg d n : registered lib reg → zlen d = n → Decode reg (plain codec_Raw n d) n = Ret d.
Proof. intros Hreg <-. destruct (faithful_raw lib reg d Hreg) as (_ & _ & _ & _ & H). apply H. lia. Qed.

(** A list is stored raw. *)
Lemma list_prepared lib reg d L : registered lib reg → list_bytes d L → prepared_ok reg (listPreparedEntry d) (VList L).
Proof.
  intros Hreg Hb. pose proof (bytes_bounds d L Hb) as [[H1 H2] _]. change maxPackedListBytes with (2 ^ 25) in H2.
  unfold listPreparedEntry. split; cbn [pe_entry pe_data entryData valueType codecID rawLength entryMeta_]; try done.
  - rewrite u32_id by lia. lia.
  - change maxArenaBlock with 34611200. lia.
  - exists d. split; [|done]. rewrite u32_id by lia. by apply (raw_decodes lib).
Qed.

Section ListStore.
Context (maphash : list byte → Z) (growslice : Z → Z → Z) (lib : Library) `{P : Peers}.
Context (Hcap : cap_bounds (DecodeAll lib)).
Local Abbreviation fine := (fine maphash lib).
Local Abbreviation reads_as := (reads_as maphash lib).

Lemma list_entry s k e v d : reads_as s k e v d → is_list_entry e = container v.
Proof.
  intros H. unfold is_list_entry. pose proof (ra_type _ _ _ _ _ _ _ H) as Ht. destruct v as [b|L]; cbn [vtype container] in *; [|by rewrite Ht].
  apply Z.eqb_neq. unfold TypeBytes, TypeList in *. lia.
Qed.

Lemma list_data_ok s k e L d : reads_as s k e (VList L) d → ∃ data, list_data maphash s k e = Ret data ∧ list_bytes data L.
Proof. intros H. by apply (ra_data _ _ _ _ _ _ _ H). Qed.

(** ** Writing in place *)

(** The block of the entry of [k] is overwritten. *)
Lemma content_overwrite reg m live a A k e L d data data' L' :
  arena_ok a live → registered lib reg → content reg m live A → m !! k = Some e → A !! k = Some (VList L, d) → ref_live live (ref (entryData e)) data →
  zlen data' = zlen data → list_bytes data' L' →
  content reg m (<[pos (ref (entryData e)) := (generation (ref (entryData e)), data')]> live) (<[k := (VList L', d)]> A).
Proof.
  intros Ha Hreg Hc Hk HA Hr Hlen Hb. pose proof (live_owns _ _ _ _ Ha Hr) as Ho. split.
  - intros k'. rewrite lookup_insert_None, (co_dom _ _ _ _ Hc). split; [intros H; split; [done|]|by intros []]. intros ->. congruence.
  - intros k' e' x Hk'. destruct (decide (k = k')) as [<-|Hne].
    + rewrite lookup_insert_eq. intros [= <-]. rewrite Hk in Hk'. injection Hk' as <-.
      destruct (co_items _ _ _ _ Hc _ _ _ Hk HA) as [Hp Ht Hx Hm (dd & bb & Hs & Hd & Hv) Hraw]. split; try done.
      destruct (Hraw eq_refl) as [Ec _]. rewrite Ec in *. assert (dd = data).
      { pose proof (stored_owned _ _ _ _ Ha Hs Ho) as Hr'. destruct Hr as [E1 _], Hr' as [E2 _]. rewrite E1 in E2. by injection E2. }
      subst dd. apply (raw_record lib _ _ _ _ Hreg) in Hd as [_ Hl]. exists data', data'. split_and!; [|apply (raw_decodes lib); [done|by rewrite Hlen]|done].
      apply stored_block. destruct Hr as [_ El]. split; [by rewrite lookup_insert_eq|by rewrite El].
    + rewrite lookup_insert_ne by done. intros HA'. eapply entry_holds_mono; [done|by eapply co_items|]. intros Ho'.
      rewrite lookup_insert_ne; [done|]. intros E. apply Hne. by eapply (co_own _ _ _ _ Hc).
  - apply Hc.
Qed.

(** A block of a list is overwritten by a list of the same size. *)
Lemma write_list_ok s A n b k e L d data data' L' : fine s A n b → A !! k = Some (VList L, d) → lookup_key maphash s k = Ret (Some e) →
  list_data maphash s k e = Ret data → zlen data' = zlen data → list_bytes data' L' → L' ≠ [] →
  ∃ s', write_list maphash s k e data' = Ret s' ∧ fine s' (<[k := (VList L', d)]> A) n b ∧ same_config s s'.
Proof.
  intros Hf HA Hl Hdata Hlen Hb Hne. pose proof Hf as [[Hs Hacc Hw] Hz]. destruct (found_shard maphash lib s A n b k e _ d Hf HA Hl) as (sh & m & live & Hat & Hi & H & Hm & He).
  destruct (NewRegistry_only _ _ (so_registry _ _ _ _ Hs)) as [Hreg _]. destruct (eh_raw _ _ _ _ He eq_refl) as [_ Hin].
  destruct (encoded_ok maphash H e _ He) as (d0 & b0 & E0 & _ & _ & Hst & _ & _). unfold list_data in Hdata. rewrite Hat, res_bind_ret, E0 in Hdata. injection Hdata as ->.
  assert (Hr : ref_live live (ref (entryData e)) data).
  { destruct Hst as [Hi'|Er ->|Hr]; [congruence| |done]. exfalso. pose proof (bytes_bounds _ _ Hb) as [[H1 _] _]. rewrite Hlen in H1. cbn in H1. done. }
  destruct (write_view_ok _ _ _ _ data' (ho_arena _ _ _ _ _ _ H) Hr Hlen) as (a' & Ea & Ha' & Htot & Hseg & Hfree).
  unfold write_list. cbv zeta. rewrite Hat, res_bind_ret, Ea, res_bind_ret. eexists. split; [done|]. set (i := shardFor maphash s k) in *. set (sh' := with_arena sh a').
  assert (Hok : shard_ok maphash sh' m) by (unfold sh'; rewrite <- (with_expiration_id (with_arena sh a')); by apply shard_ok_parts, H).
  assert (Hc : same_config s (set_shard s i sh')) by (split; try done; cbn; apply zlen_insert). split; [|done].
  assert (Hsum : ∀ f, entry_sum f sh' = entry_sum f sh) by (intros f; rewrite (entry_sum_ok maphash f sh' m Hok); symmetry; apply (entry_sum_ok maphash f sh m (ho_shard _ _ _ _ _ _ H))).
  split; [split|].
  - eapply (store_update maphash lib s _ A _ i sh sh'); [done|done|done|done| |intros j Hj; apply mine_insert_ne; by apply not_eq_sym].
    assert (Em : mine maphash (zlen (shards s)) i (<[k := (VList L', d)]> A) = <[k := (VList L', d)]> (mine maphash (zlen (shards s)) i A)) by apply mine_insert.
    rewrite Em. split; [done|apply H|done| |].
    + rewrite deadlines_insert. pose proof (ho_queue _ _ _ _ _ _ H) as Hq. pose proof (deadlines_mine maphash s A k _ d HA) as Ed. rewrite deadlines_insert in Ed. fold i in Ed. by rewrite Ed.
    + eapply content_overwrite; [apply H|done|apply H|done| |done|done|done]. by rewrite <- HA; apply mine_home.
  - apply (accounted_same s i sh sh' Hacc Hi); unfold use_index, use_entries, use_arena, use_payload, use_blocks, use_metas; rewrite ?Hsum; done.
  - destruct (Hw _ _ Hi) as (W1 & W2 & W3). eapply (within_update s _ i sh sh' n b); [done|done|done|lia|lia|done|done|]. cbn. lia.
  - by apply sized_insert.
Qed.

(** ** Storing *)

Lemma list_puts s A n b k data L at' now : fine s A n b → n ≤ refSegmentMask → b + KeyPack.KeyRecordSize k ≤ maxLogBytes → list_bytes data L → L ≠ [] →
  ∃ r s', publish maphash growslice s (shardFor maphash s k) k (expiring (listPreparedEntry data) at') now = Ret (r, s') ∧ puts maphash lib s A n b k (VList L, at') r s'.
Proof using Hcap.
  intros Hf Hn Hb Hl Hne. destruct (NewRegistry_only _ _ (so_registry _ _ _ _ (go_store _ _ _ _ _ _ (fi_good _ _ _ _ _ _ Hf)))) as [Hreg _].
  apply (publish_puts maphash growslice lib Hcap s A n b k _ _ now at' Hf Hn Hb (list_prepared lib _ _ _ Hreg Hl) Hne).
Qed.

Lemma publish_list_ok {X} s A n b k data L at' now (x : X) : fine s A n b → n ≤ refSegmentMask → b + KeyPack.KeyRecordSize k ≤ maxLogBytes → list_bytes data L → L ≠ [] →
  ∃ r s', publish_list maphash growslice s k data at' now x = Ret (published (r, s') x) ∧ puts maphash lib s A n b k (VList L, at') r s'.
Proof using Hcap.
  intros Hf Hn Hb Hl Hne. destruct (list_puts s A n b k data L at' now Hf Hn Hb Hl Hne) as (r & s' & E & Hp).
  exists r, s'. split; [|done]. unfold publish_list. by rewrite E, res_bind_ret.
Qed.
End ListStore.
