(* ===== verification/StoreSpec.v ===== *)
(** * What the commands promise

    A command is a pure function of the items whose deadline has not passed
    ([spec]): the answer it gives and the items it leaves. The commands of the
    store implement it, whatever the shards, codecs, inline values, heaps and
    physical leftovers of expired keys underneath. The memory limit may refuse a
    write, which then changes nothing. *)
From S2P Require Import Prelude Numerals KeyPack Codec Registry Entry Shard ListPack ListFacts Values Engine EngineFacts Commands Guard ListCommands ListSpec CommandFacts.
Set Default Proof Using "Type".

Inductive command :=
| CSet (k v : list byte)
| CSetCommitted (k v : list byte) (result : reply unit)
| CSetOptions (k v : list byte) (o : SetOptions)
| CSetMs (k v : list byte) (ttlMilliseconds : Z)
| CGetSet (k v : list byte)
| CGet (k : list byte)
| CGetString (k : list byte)
| CGetStringInto (k : list byte) (dst_cap : Z)
| CVisitRaw (k : list byte)
| CDelete (k : list byte)
| CEvict (k : list byte)
| CExists (ks : list (list byte))
| CDeleteMany (ks : list (list byte))
| CTouch (ks : list (list byte))
| CType (k : list byte)
| CValueType (k : list byte)
| CGetDel (k : list byte)
| CGetDelString (k : list byte)
| CAdd (k : list byte) (delta : Z)
| CSub (k : list byte) (decrement : Z)
| CAppend (k suffix : list byte)
| CGetRange (k : list byte) (start end_ : Z)
| CSetRange (k : list byte) (offset : Z) (replacement : list byte)
| CExpireAt (k : list byte) (when_ : Z) (condition : string)
| CPersist (k : list byte)
| CGetEx (k : list byte) (expireAt : option Z) (persist : bool)
| CTTL (k : list byte) (milliseconds : bool)
| CExpireTime (k : list byte) (milliseconds : bool)
| CMGetStrings (ks : list (list byte))
| CCleanup (limit : Z)
| CPush (k : list byte) (vs : elements) (left : bool)
| CPushX (k : list byte) (vs : elements) (left : bool)
| CPop (k : list byte) (count : Z) (left : bool)
| CListLen (k : list byte)
| CListIndex (k : list byte) (index : Z)
| CListRange (k : list byte) (start stop : Z)
| CListSet (k : list byte) (index : Z) (v : list byte)
| CListTrim (k : list byte) (start stop : Z)
| CListRem (k : list byte) (count : Z) (v : list byte)
| CListInsert (k : list byte) (before : bool) (pivot v : list byte)
| CListPos (k v : list byte) (rank count maxLen : Z) (withCount : bool)
| CListReplace (k : list byte) (vs : elements)
| CListRename (source destination : list byte) (nx : bool).

Inductive answer :=
| ADone
| AError (e : string)
| AValue (v : option (list byte))
| AValues (l : list (option (list byte)))
| AInt (n : Z)
| ABool (b : bool)
| AText (t : string)
| AType (t : option Z)
| ASet (applied : bool) (previous : option (list byte))
| AList (l : elements)
| AInts (l : list Z)
| ARenamed (handled renamed : bool).

(** ** Running a command *)

Definition on {S A B} (f : A → B) (r : res (A * S)) : res (B * S) := '(a, s) ← r; Ret (f a, s).
(** A read that leaves the store alone. *)
Definition pure {S A B} (f : A → B) (s : S) (r : res A) : res (B * S) := a ← r; Ret (f a, s).
Definition reply_answer {A} (f : A → answer) (r : reply A) : answer := match r with Ok a => f a | Fail e => AError e end.
Definition string_answer (r : string_reply) : answer :=
  match r with
  | Missing => AValue None
  | WrongType => AError errWrongType
  | Value v => AValue (Some v)
  end.

(** The request of a command the server guards, up to the arguments the guard
    does not look at. *)
Definition request (c : command) : list (list byte) :=
  match c with
  | CSetOptions k v o => [text "SET"; k; v] ++ (if oGet o then [text "GET"] else [])
  | CGetSet k v => [text "GETSET"; k; v]
  | CGet k => [text "GET"; k]
  | CAdd k delta => [text "INCRBY"; k; FormatInt delta]
  | CSub k decrement => [text "DECRBY"; k; FormatInt decrement]
  | CAppend k suffix => [text "APPEND"; k; suffix]
  | CGetRange k a b => [text "GETRANGE"; k; FormatInt a; FormatInt b]
  | CSetRange k offset r => [text "SETRANGE"; k; FormatInt offset; r]
  | CGetEx k _ _ => [text "GETEX"; k]
  | _ => []
  end.

Section Exec.
Context (maphash : list byte → Z) (growslice : Z → Z → Z) (lib : Library) `{P : Peers}.

(** A command behind the type guard. *)
Definition guarded (s : Store) (now : Z) (args : list (list byte)) (r : res (answer * Store)) : res (answer * Store) :=
  g ← validateLegacyScalarTypes maphash s args now;
  match g with Fail e => Ret (AError e, s) | Ok _ => r end.

Definition exec_store (s : Store) (now : Z) (c : command) : res (answer * Store) :=
  let unit_ := reply_answer (fun _ => ADone) in
  match c with
  | CSet k v => on unit_ (SetPlain maphash growslice lib s k v now)
  | CSetCommitted k v result => on unit_ (SetPlainCommitted maphash growslice lib s k v result now)
  | CSetOptions k v o => on (reply_answer (fun r => ASet r.1 r.2)) (SetWithOptions maphash growslice lib s k v o now)
  | CSetMs k v ttl => on unit_ (Set_ms maphash growslice lib s k v ttl now)
  | CGetSet k v => on (reply_answer AValue) (GetSet maphash growslice lib s k v now)
  | CGet k => on AValue (Get maphash growslice s k now)
  | CGetString k => on string_answer (GetString maphash s k now)
  | CGetStringInto k cap => on string_answer (GetStringInto maphash lib s k cap now)
  | CVisitRaw k => pure AValue s (VisitRawStringBytes maphash s k now)
  | CDelete k => on ABool (Delete maphash growslice s k now)
  | CEvict k => on ABool (Evict maphash growslice s k now)
  | CExists ks => pure AInt s (Exists maphash s ks now)
  | CDeleteMany ks => on AInt (DeleteMany maphash growslice s ks now)
  | CTouch ks => on AInt (Touch maphash growslice s ks now)
  | CType k => on AText (Type_ maphash growslice s k now)
  | CValueType k => pure AType s (ValueTypeOf maphash s k now)
  | CGetDel k => on AValue (GetDel maphash growslice s k now)
  | CGetDelString k => on AValue (GetDelString maphash growslice s k now)
  | CAdd k delta => on (reply_answer AInt) (Add maphash growslice lib s k delta now)
  | CSub k decrement => on (reply_answer AInt) (Sub maphash growslice lib s k decrement now)
  | CAppend k suffix => on (reply_answer AInt) (Append maphash growslice lib s k suffix now)
  | CGetRange k a b => on (fun v => AValue (Some v)) (GetRange maphash growslice s k a b now)
  | CSetRange k offset r => on (reply_answer AInt) (SetRange maphash growslice lib s k offset r now)
  | CExpireAt k w condition => on ABool (expireAtConditional maphash growslice s k w condition now)
  | CPersist k => on ABool (Persist maphash growslice s k now)
  | CGetEx k at' persist => on AValue (GetEx maphash growslice s k at' persist now)
  | CTTL k ms => pure AInt s (TTL maphash s k ms now)
  | CExpireTime k ms => pure AInt s (ExpireTime maphash s k ms now)
  | CMGetStrings ks => on AValues (MGetStrings maphash growslice s ks now)
  | CCleanup limit => on AInt (CleanupExpiredLimit maphash growslice s limit now)
  | CPush k vs lft => on (reply_answer AInt) (listPush maphash growslice s k vs lft now)
  | CPushX k vs lft => on (reply_answer AInt) (listPushX maphash growslice s k vs lft now)
  | CPop k count lft => on (reply_answer AList) (listPop maphash growslice s k count lft now)
  | CListLen k => pure (reply_answer AInt) s (ListLen maphash s k now)
  | CListIndex k index => pure (reply_answer AValue) s (ListIndex maphash s k index now)
  | CListRange k start stop => pure (reply_answer AList) s (ListRange maphash s k start stop now)
  | CListSet k index v => on unit_ (ListSet maphash growslice s k index v now)
  | CListTrim k start stop => on unit_ (ListTrim maphash growslice s k start stop now)
  | CListRem k count v => on (reply_answer AInt) (ListRemove maphash growslice s k count v now)
  | CListInsert k before pivot v => on (reply_answer AInt) (ListInsert maphash growslice s k before pivot v now)
  | CListPos k v rank count maxLen withCount => pure (reply_answer AInts) s (ListPos maphash s k v rank count maxLen withCount now)
  | CListReplace k vs => on unit_ (ListReplace maphash growslice s k vs now)
  | CListRename source destination nx => on (reply_answer (fun r => ARenamed r.1 r.2)) (RenameList maphash growslice s source destination nx now)
  end.

Definition exec (s : Store) (now : Z) (c : command) : res (answer * Store) := guarded s now (request c) (exec_store s now c).

(** Commands at their times. *)
Fixpoint run (s : Store) (trace : list (Z * command)) : res (list answer * Store) :=
  match trace with
  | [] => Ret ([], s)
  | (now, c) :: trace =>
      '(a, s) ← exec s now c;
      '(l, s) ← run s trace;
      Ret (a :: l, s)
  end.
End Exec.

(** ** The specification *)

Abbreviation items := (gmap (list byte) item).

Definition too_large (v : list byte) : bool := maxValueBytes <? zlen v.
(** Deadlines are in milliseconds. *)
Definition ms (t : Z) : Z := t / Millisecond.
Definition is_list (V : items) (k : list byte) : bool := match V !! k with Some (VList _, _) => true | _ => false end.
(** The string of a key, and its string and deadline, empty and without deadline
    when there is none. *)
Definition value_of (V : items) (k : list byte) : option (list byte) := match V !! k with Some (VStr v, _) => Some v | _ => None end.
Definition current (V : items) (k : list byte) : list byte * Z := match V !! k with Some (VStr v, d) => (v, d) | _ => ([], 0) end.
Definition deadline (V : items) (k : list byte) : Z := from_option snd 0 (V !! k).
Definition present (V : items) (k : list byte) : bool := bool_decide (is_Some (V !! k)).
Definition count (V : items) (ks : list (list byte)) : Z := lsum (fun k => Z.b2z (present V k)) ks.
(** A command on strings is refused when the key holds a list. *)
Definition on_string (V : items) (k : list byte) (r : answer * items) : answer * items := if is_list V k then (AError errWrongType, V) else r.

Definition spec_set (V : items) (now : Z) (k v : list byte) (o : SetOptions) : answer * items :=
  if too_large v then (AError errTooLarge, V)
  else if invalid_options o then (AError "ERR invalid SET options", V)
  else
    let previous := if oGet o then value_of V k else None in
    if (oNX o && present V k) || (oXX o && negb (present V k)) then (ASet false previous, V)
    else
      let d := if oKeepTTL o && present V k then deadline V k
               else if 0 <? oTTL o then ms (now + oTTL o) else from_option ms 0 (oExpireAt o) in
      (ASet true previous,
       match oExpireAt o with
       | Some t => if t <=? now then delete k V else <[k := (VStr v, d)]> V
       | None => <[k := (VStr v, d)]> V
       end).

(** Counter arithmetic is exact or refused. *)
Definition spec_add (V : items) (k : list byte) (delta : Z) : answer * items :=
  match from_option parse_canonical (Some 0) (value_of V k) with
  | None => (AError errInteger, V)
  | Some n =>
      if (MinInt64 <=? n + delta) && (n + delta <=? MaxInt64)
      then (AInt (n + delta), <[k := (VStr (FormatInt (n + delta)), (current V k).2)]> V)
      else (AError errOverflow, V)
  end.

(** [r] over [v] from [offset] on, after zeros when [v] is shorter. *)
Definition spec_overlay (v : list byte) (offset : Z) (r : list byte) : list byte :=
  take (Z.to_nat offset) (v ++ replicate (Z.to_nat offset) x00) ++ r ++ drop (Z.to_nat (offset + zlen r)) v.

Definition spec_setrange (V : items) (k : list byte) (offset : Z) (r : list byte) : answer * items :=
  if offset <? 0 then (AError "ERR offset is out of range", V)
  else if maxValueBytes <? offset + zlen r then (AError errStringSize, V)
  else
    let '(v, d) := current V k in
    if zlen r =? 0 then (AInt (zlen v), V)
    else let v' := spec_overlay v offset r in (AInt (zlen v'), <[k := (VStr v', d)]> V).

(** Whether the current deadline [d] may be replaced by the time [w]. *)
Definition allowed (condition : string) (d w : Z) : Prop :=
  condition = "" ∨ condition = "NX" ∧ d = 0 ∨ condition = "XX" ∧ d ≠ 0 ∨
  condition = "GT" ∧ d ≠ 0 ∧ d * Millisecond < w ∨ condition = "LT" ∧ (d = 0 ∨ w < d * Millisecond).
#[export] Instance allowed_dec condition d w : Decision (allowed condition d w).
Proof. unfold allowed. apply _. Defined.

(** An item whose deadline is moved to the time [w]; the past removes it. *)
Definition move_deadline (V : items) (now : Z) (k : list byte) (v : value) (w : Z) : items :=
  if w <=? now then delete k V else <[k := (v, ms w)]> V.

(** Time left, to the nearest second when asked in seconds. *)
Definition time_left (d now : Z) (milliseconds : bool) : Z :=
  let left := Z.min MaxInt64 (d * Millisecond - now) / Millisecond in
  if milliseconds then left else (left + 500) / 1000.

Definition deadline_answer (V : items) (k : list byte) (f : Z → Z) : answer :=
  match V !! k with
  | None => AInt (-2)
  | Some (_, d) => AInt (if d =? 0 then -1 else f d)
  end.

Definition type_of (V : items) (k : list byte) : string :=
  match V !! k with None => "none" | Some (VStr _, _) => "string" | Some (VList _, _) => "list" end.

(** A command on the list of [k]: [missing] answers when there is none. *)
Definition on_list (V : items) (k : list byte) (missing : answer) (f : elements → Z → answer * items) : answer * items :=
  match V !! k with
  | None => (missing, V)
  | Some (VStr _, _) => (AError errWrongType, V)
  | Some (VList L, d) => f L d
  end.

(** The list of [k] becomes [L]; an empty list is no list. *)
Definition put_list (V : items) (k : list byte) (L : elements) (d : Z) : items :=
  match L with [] => delete k V | _ => <[k := (VList L, d)]> V end.

Definition spec_pushed (V : items) (k : list byte) (vs : elements) (left : bool) (L : elements) (d : Z) : answer * items :=
  let L' := spec_push left vs L in (AInt (zlen L'), put_list V k L' d).

Definition spec_lset (V : items) (k : list byte) (index : Z) (v : list byte) (L : elements) (d : Z) : answer * items :=
  let i := if index <? 0 then index + zlen L else index in
  if (0 <=? i) && (i <? zlen L) then (ADone, put_list V k (<[Z.to_nat i := v]> L) d) else (AError "ERR index out of range", V).

Definition spec_rename (V : items) (source destination : list byte) (nx : bool) : answer * items :=
  match V !! source with
  | Some (VList L, d) =>
      if bool_decide (source = destination) then (AError "ERR source and destination objects are the same", V)
      else if nx && present V destination then (ARenamed true false, V)
      else (ARenamed true true, delete source (<[destination := (VList L, d)]> V))
  | _ => (ARenamed false false, V)
  end.

Definition spec (V : items) (now : Z) (c : command) : answer * items :=
  match c with
  | CSet k v => if too_large v then (AError errTooLarge, V) else (ADone, <[k := (VStr v, 0)]> V)
  | CSetCommitted k v result =>
      if too_large v then (AError errTooLarge, V)
      else match result with Ok _ => (ADone, <[k := (VStr v, 0)]> V) | Fail e => (AError e, V) end
  | CSetOptions k v o => if oGet o then on_string V k (spec_set V now k v o) else spec_set V now k v o
  | CSetMs k v ttl =>
      if (ttl <? 0) || (MaxInt64 / Millisecond <? ttl) then (AError "ttl out of range", V)
      else if too_large v then (AError errTooLarge, V)
      else (ADone, <[k := (VStr v, if ttl =? 0 then 0 else ms now + ttl)]> V)
  | CGetSet k v =>
      on_string V k (if too_large v then (AError errTooLarge, V) else (AValue (value_of V k), <[k := (VStr v, 0)]> V))
  | CGet k | CGetString k | CGetStringInto k _ | CVisitRaw k => on_string V k (AValue (value_of V k), V)
  | CDelete k | CEvict k => (ABool (present V k), delete k V)
  | CExists ks | CTouch ks => (AInt (count V ks), V)
  | CDeleteMany ks => (AInt (count V (remove_dups ks)), filter (fun p => p.1 ∉ ks) V)
  | CType k => (AText (type_of V k), V)
  | CValueType k => (AType None, V)
  | CGetDel k => (AValue (value_of V k), delete k V)
  | CGetDelString k => (AValue (value_of V k), if is_list V k then V else delete k V)
  | CAdd k delta => on_string V k (spec_add V k delta)
  | CSub k decrement => on_string V k (spec_add V k (- decrement))
  | CAppend k suffix =>
      on_string V k (let '(v, d) := current V k in
        if too_large (v ++ suffix) then (AError errTooLarge, V) else (AInt (zlen (v ++ suffix)), <[k := (VStr (v ++ suffix), d)]> V))
  | CGetRange k a b => on_string V k (AValue (Some (spec_range (current V k).1 a b)), V)
  | CSetRange k offset r => on_string V k (spec_setrange V k offset r)
  | CExpireAt k w condition =>
      match V !! k with
      | None => (ABool false, V)
      | Some (v, d) => if decide (allowed condition d w) then (ABool true, move_deadline V now k v w) else (ABool false, V)
      end
  | CPersist k =>
      match V !! k with
      | Some (v, d) => if d =? 0 then (ABool false, V) else (ABool true, <[k := (v, 0)]> V)
      | None => (ABool false, V)
      end
  | CGetEx k at' persist =>
      on_string V k (match V !! k with
      | Some (v, d) =>
          (AValue (value_of V k),
           if persist then <[k := (v, 0)]> V else match at' with Some w => move_deadline V now k v w | None => V end)
      | None => (AValue None, V)
      end)
  | CTTL k milliseconds => (deadline_answer V k (fun d => time_left d now milliseconds), V)
  | CExpireTime k milliseconds => (deadline_answer V k (fun d => if milliseconds then d else d / 1000), V)
  | CMGetStrings ks => (AValues (value_of V <$> ks), V)
  | CCleanup _ => (AInt 0, V)
  | CPush k vs lft =>
      if zlen vs =? 0 then (AError errListCount, V)
      else match V !! k with
           | None => spec_pushed V k vs lft [] 0
           | Some (VList L, d) => spec_pushed V k vs lft L d
           | _ => (AError errWrongType, V)
           end
  | CPushX k vs lft => if zlen vs =? 0 then (AError errListCount, V) else on_list V k (AInt 0) (spec_pushed V k vs lft)
  | CPop k count lft =>
      if count <? 0 then (AError "ERR count must be non-negative", V)
      else on_list V k (AList []) (fun L d => let '(out, rest) := spec_pop lft count L in (AList out, put_list V k rest d))
  | CListLen k => on_list V k (AInt 0) (fun L _ => (AInt (zlen L), V))
  | CListIndex k index => on_list V k (AValue None) (fun L _ => (AValue (element_at L index), V))
  | CListRange k start stop => on_list V k (AList []) (fun L _ => (AList (spec_range L start stop), V))
  | CListSet k index v => on_list V k (AError "ERR no such key") (spec_lset V k index v)
  | CListTrim k start stop => on_list V k ADone (fun L d => (ADone, put_list V k (spec_range L start stop) d))
  | CListRem k count v =>
      on_list V k (AInt 0) (fun L d => let kept := spec_rem count v L in (AInt (zlen L - zlen kept), put_list V k kept d))
  | CListInsert k before pivot v =>
      on_list V k (AInt 0) (fun L d =>
        if bool_decide (pivot ∈ L) then (AInt (zlen L + 1), put_list V k (spec_insert before pivot v L) d) else (AInt (-1), V))
  | CListPos k v rank count maxLen withCount => on_list V k (AInts []) (fun L _ => (AInts (spec_pos L v rank count maxLen withCount), V))
  | CListReplace k vs => (ADone, put_list V k vs 0)
  | CListRename source destination nx => spec_rename V source destination nx
  end.

(** Commands that may store a value, with its key. *)
Definition stores (c : command) : option (list byte) :=
  match c with
  | CSet k _ | CSetCommitted k _ _ | CSetOptions k _ _ | CSetMs k _ _ | CGetSet k _ | CAdd k _ | CSub k _ | CAppend k _
  | CSetRange k _ _ | CPush k _ _ | CPushX k _ _ | CPop k _ _ | CListSet k _ _ | CListTrim k _ _ | CListRem k _ _ | CListInsert k _ _ _
  | CListReplace k _ | CListRename _ k _ => Some k
  | _ => None
  end.
Definition cost (c : command) : Z := from_option KeyPack.KeyRecordSize 0 (stores c).

(** Machine integers among the arguments are 64-bit, and so is a SET option. *)
Definition int64 (z : Z) : Prop := MinInt64 ≤ z ≤ MaxInt64.
Definition command_ok (c : command) : Prop :=
  match c with
  | CAdd _ d | CSub _ d => int64 d
  | CGetRange _ a b => int64 a ∧ int64 b
  | CListPos _ _ rank _ _ _ => int64 rank ∧ rank ≠ 0
  | CPush _ vs _ | CPushX _ vs _ => zlen (records vs) < 2 ^ 39
  | _ => True
  end.

(** A command may refuse to store a list near the size limit. An append to an
    indexed list may be refused for the room its index takes. *)
Definition oversized (V : items) (now : Z) (c : command) : Prop :=
  (∃ k L d, stores c = Some k ∧ (spec V now c).2 !! k = Some (VList L, d) ∧ roomy L = false) ∨
  (∃ k vs, c = CPush k vs false ∧ is_list V k = true).

(** What a store with memory limit [mx] may answer, and the items it may leave. *)
Definition permits (mx : Z) (V : items) (now : Z) (c : command) (a : answer) (V' : items) : Prop :=
  match c with
  | CCleanup limit => V' = V ∧ ∃ n, a = AInt n ∧ 0 ≤ n ≤ Z.max 0 limit
  | CVisitRaw k => V' = V ∧ (a = AValue None ∨ a = AValue (value_of V k))
  | CValueType k =>
      V' = V ∧ match V !! k with
               | None => a = AType None
               | Some (v, _) => ∃ t, a = AType (Some t) ∧ vtype v t
               end
  | CGetDel k =>
      V' = delete k V ∧ match V !! k with
                        | None => a = AValue None
                        | Some (v, _) => ∃ b, a = AValue (Some b) ∧ vbytes v b
                        end
  | _ =>
      a = (spec V now c).1 ∧ V' = view now (spec V now c).2 ∨
      a = AError ErrOOM ∧ V' = V ∧ stores c ≠ None ∧ 0 < mx ∨
      a = AError errListLimit ∧ V' = V ∧ oversized V now c
  end.
