(* ===== verification/StoreRefines.v ===== *)
(** * The commands implement their specification

    One lemma per command: it does not panic, keeps the invariant of the store,
    and its answer and the items it leaves are permitted. *)
From S2P Require Import Prelude Numerals Arena KeyPack KeyPackFacts Table CodecFacts Codec Registry RegistrySpec Entry Expiry Shard ShardFacts.
From S2P Require Import ListPack ListFacts Values Engine EngineFacts StoreFacts Commands Guard ListCommands ListSpec CommandFacts StoreSpec.
Set Default Proof Using "Type".

(** ** Reference functions *)

Lemma parse_canonical_iff v n : parse_canonical v = Some n ↔ v = FormatInt n ∧ int64 n.
Proof.
  unfold parse_canonical, int64, MinInt64, MaxInt64. split.
  - destruct (ParseInt v) as [m|] eqn:E; [|done]. destruct (bool_decide_reflect (FormatInt m = v)) as [<-|]; [|done].
    intros [= <-]. pose proof (ParseInt_range _ _ E). split; [done|lia].
  - intros [-> H]. rewrite ParseInt_Format by lia. by rewrite bool_decide_true.
Qed.

Lemma zlen_decimal fuel n : zlen (decimal fuel n) ≤ Z.of_nat fuel.
Proof.
  revert n. induction fuel as [|f IH]; intros n; [done|]. cbn [decimal]. destruct (n <? 10); [rewrite zlen_cons, zlen_nil; lia|].
  rewrite zlen_snoc. specialize (IH (n / 10)). lia.
Qed.

Lemma FormatInt_size n : zlen (FormatInt n) ≤ maxValueBytes.
Proof.
  change maxValueBytes with 33554432. unfold FormatInt. pose proof (zlen_decimal 20 n). pose proof (zlen_decimal 20 (- n)).
  destruct (n <? 0); rewrite ?zlen_cons; lia.
Qed.

Lemma range_of_spec v a b : int64 a → int64 b → zlen v ≤ maxValueBytes → range_of v a b = Ret (spec_range v a b).
Proof.
  unfold int64, MinInt64, MaxInt64. intros Ha Hb Hv. change maxValueBytes with 33554432 in Hv. pose proof (zlen_nonneg v). unfold range_of, spec_range. cbv zeta.
  destruct (Z.eqb_spec (zlen v) 0) as [E|Hn].
  { assert (v = []) as -> by (destruct v; [done|rewrite zlen_cons in E; pose proof (zlen_nonneg v); lia]). by rewrite drop_nil, take_nil. }
  assert (Hi : ∀ x, -2^63 ≤ x ≤ 2^63 - 1 → (if x <? 0 then i64 (zlen v + x) else x) = (if x <? 0 then zlen v + x else x)).
  { intros x Hx. destruct (Z.ltb_spec x 0); [|done]. apply i64_id. lia. }
  rewrite !Hi by done. set (x := if a <? 0 then zlen v + a else a). set (y := if b <? 0 then zlen v + b else b).
  replace (if x <? 0 then 0 else x) with (Z.max 0 x) by (destruct (Z.ltb_spec x 0); lia).
  destruct ((y <? 0) || (zlen v <=? Z.max 0 x) || (y <? Z.max 0 x)) eqn:E.
  - rewrite !orb_true_iff, !Z.ltb_lt, Z.leb_le in E. rewrite (Z2Nat.nonpos (_ - _ + 1)); [done|lia].
  - rewrite !orb_false_iff, !Z.ltb_ge, Z.leb_gt in E. destruct E as [[E1 E2] E3].
    replace (if zlen v <=? y then zlen v - 1 else y) with (Z.min (zlen v - 1) y) by (destruct (Z.leb_spec (zlen v) y); lia).
    rewrite zslice_Some by lia. cbn. do 3 f_equal. lia.
Qed.

Lemma overlay_spec v offset r : 0 ≤ offset → overlay v offset r = spec_overlay v offset r ∧
  zlen (overlay v offset r) = Z.max (zlen v) (offset + zlen r).
Proof.
  intros Ho. pose proof (zlen_nonneg v). pose proof (zlen_nonneg r). unfold overlay, spec_overlay. cbv zeta. set (n := Z.max (zlen v) (offset + zlen r)).
  assert (Hz : zlen (replicate (Z.to_nat n) x00) = n) by (apply zlen_replicate; lia).
  assert (E1 : copy_at (replicate (Z.to_nat n) x00) 0 v = v ++ replicate (Z.to_nat (n - zlen v)) x00).
  { rewrite copy_at_split by lia. change (Z.to_nat 0) with 0%nat. rewrite take_0, app_nil_l. f_equal. rewrite drop_replicate. f_equal. lia. }
  assert (E2 : zlen (copy_at (replicate (Z.to_nat n) x00) 0 v) = n) by (rewrite copy_at_length; lia).
  split; [|rewrite copy_at_length; lia]. rewrite copy_at_split by lia. rewrite E1. unfold zlen in *. f_equal; [|f_equal].
  - destruct (decide (offset ≤ Z.of_nat (length v))).
    + rewrite !take_app_le by lia. done.
    + rewrite !take_app_ge by lia. f_equal. rewrite !take_replicate. f_equal. lia.
  - destruct (decide (offset + Z.of_nat (length r) ≤ Z.of_nat (length v))).
    + rewrite drop_app_le by lia. assert (n = Z.of_nat (length v)) as -> by lia. rewrite Z.sub_diag. cbn. by rewrite app_nil_r.
    + rewrite (drop_ge v) by lia. apply drop_ge. rewrite length_app, length_replicate. lia.
Qed.

Lemma condition_allowed condition d w : condition_holds condition (negb (d =? 0)) d w = bool_decide (allowed condition d w).
Proof.
  unfold condition_holds, allowed. assert (Ht : d ≠ 0 → stamp_Time d = d * Millisecond) by (unfold stamp_Time; by destruct (Z.eqb_spec d 0)).
  repeat match goal with |- context [if bool_decide (condition = ?c) then _ else _] => destruct (bool_decide_reflect (condition = c)) as [->|?] end;
    symmetry; destruct (Z.eqb_spec d 0) as [->|Hd]; cbn [negb andb]; rewrite ?Ht by done;
    try match goal with |- context [?a <? ?b] => destruct (Z.ltb_spec a b) end; cbn [negb];
    first [apply bool_decide_true; naive_solver lia|apply bool_decide_false; naive_solver lia].
Qed.

Lemma alive_later now d : Millisecond ≤ now → d ≠ 0 → dead now d = false → now < d * Millisecond.
Proof.
  unfold dead, stampOf, zeroTime, Second, Millisecond. intros Hn Hd. rewrite (proj2 (Z.eqb_neq d 0)) by done. rewrite (proj2 (Z.eqb_neq now (-62135596800 * 1000000000))) by lia.
  cbn [negb andb]. rewrite Z.leb_gt. intros H. pose proof (Z.div_mod now 1000000 ltac:(done)). pose proof (Z.mod_pos_bound now 1000000 ltac:(done)). lia.
Qed.

Lemma time_left_ok now d mil : Millisecond ≤ now → d ≠ 0 → dead now d = false →
  (let m := stamp_Sub d now ÷ Millisecond in if (mil : bool) then m else m ÷ 1000 + (Z.rem m 1000 + 500) ÷ 1000) = time_left d now mil.
Proof.
  intros Hn Hd Hdead. pose proof (alive_later now d Hn Hd Hdead) as Hlt. cbv zeta. unfold time_left, stamp_Sub, time_Sub, stamp_Time.
  rewrite (proj2 (Z.eqb_neq d 0)) by done.
  assert (Hpos : 0 ≤ Z.min MaxInt64 (d * Millisecond - now)) by (unfold MaxInt64; lia).
  rewrite (Z.max_r MinInt64) by (unfold MinInt64; lia). rewrite Z.quot_div_nonneg by first [exact Hpos|done].
  pose proof (Z.div_pos _ Millisecond Hpos ltac:(done)) as Hq. set (m := Z.min _ _ / Millisecond) in *. destruct mil; [done|].
  rewrite Z.rem_mod_nonneg by lia. pose proof (Z.mod_pos_bound m 1000 ltac:(done)). rewrite !Z.quot_div_nonneg by lia. pose proof (Z.div_mod m 1000 ltac:(done)).
  replace (m + 500) with (m / 1000 * 1000 + (m mod 1000 + 500)) by lia. by rewrite Z.div_add_l by lia.
Qed.

Section Refines.
Context (maphash : list byte → Z) (growslice : Z → Z → Z) (lib : Library) `{P : Peers}.
Context (Hcap : cap_bounds (DecodeAll lib)).

Local Abbreviation fine := (fine maphash lib).
Local Abbreviation exec := (exec_store maphash growslice lib).
Local Abbreviation finds := (finds maphash lib).
Local Abbreviation reads_as := (reads_as maphash lib).

(** Strings decode to themselves. *)
Lemma str_decode {s k e v d} : reads_as s k e (VStr v) d → decode_key maphash s k e = Ret v.
Proof. intros H. destruct (ra_decode _ _ _ _ _ _ _ H) as (? & -> & ->). done. Qed.
Lemma str_into {s k e v d} cap : reads_as s k e (VStr v) d → decode_key_into maphash lib s k e cap = Ret v.
Proof. intros H. destruct (ra_into _ _ _ _ _ _ _ H cap) as (? & -> & ->). done. Qed.
Lemma type_container {s k e v d} : reads_as s k e v d → isNativeContainerType (valueType (entryData e)) = container v.
Proof. intros H. apply (vtype_simple _ _ (ra_type _ _ _ _ _ _ _ H)). Qed.

(** A command ends with a permitted answer and store. *)
Definition outcome (s : Store) (A : items) (n b now : Z) (c : command) (r : res (answer * Store)) : Prop :=
  ∃ a s' A', r = Ret (a, s') ∧ fine s' A' (n + 1) (b + cost c) ∧ same_config s s' ∧
    permits (m_max (memory s)) (view now A) now c a (view now A').

Section Step.
Context {s : Store} {A : items} {n b now : Z} (Hf : fine s A n b) (Hn : n ≤ refSegmentMask) (Hnow : Millisecond ≤ now).
Let V := view now A.

Lemma cost_nonneg c : 0 ≤ cost c.
Proof. unfold cost. destruct (stores c) as [k|]; cbn; [pose proof (KeyRecordSize_bounds k); lia|lia]. Qed.

(** Commands whose answer [spec] determines. *)
Definition determined (c : command) : bool := match c with CCleanup _ | CVisitRaw _ | CValueType _ | CGetDel _ => false | _ => true end.

Lemma permits_spec mx c a V' : determined c = true → a = (spec V now c).1 → V' = view now (spec V now c).2 → permits mx V now c a V'.
Proof. intros Hd -> ->. destruct c; try discriminate Hd; by left. Qed.

Lemma permits_oom mx c V' : determined c = true → V' = V → stores c ≠ None → 0 < mx → permits mx V now c (AError ErrOOM) V'.
Proof. intros Hd -> H1 H2. destruct c; try discriminate Hd; right; by left. Qed.

Lemma permits_limit mx c V' : determined c = true → V' = V → oversized V now c → permits mx V now c (AError errListLimit) V'.
Proof. intros Hd -> H. destruct c; try discriminate Hd; right; by right. Qed.

(** Nothing but expired items went away. *)
Lemma unchanged c a s' A' : determined c = true → fine s' A' n b → same_config s s' → view now A' = V → spec V now c = (a, V) →
  outcome s A n b now c (Ret (a, s')).
Proof.
  intros Hd Hf' Hc HV Hsp. exists a, s', A'. pose proof (cost_nonneg c). split_and!; [done|eapply fine_mono; [..|done]; lia|done|].
  rewrite HV. apply permits_spec; [done|by rewrite Hsp|]. rewrite Hsp. unfold V. cbn [snd]. by rewrite view_idem.
Qed.

(** An item was moved, changed or removed in place. *)
Lemma changed c a s' A' V' : determined c = true → fine s' A' n b → same_config s s' → spec V now c = (a, V') → view now A' = view now V' →
  outcome s A n b now c (Ret (a, s')).
Proof.
  intros Hd Hf' Hc Hsp HV. exists a, s', A'. pose proof (cost_nonneg c). split_and!; [done|eapply fine_mono; [..|done]; lia|done|].
  rewrite HV. apply permits_spec; [done|by rewrite Hsp..].
Qed.

(** A value was stored, or refused. *)
Lemma put_outcome c k x a s1 A1 r s' : determined c = true → stores c = Some k → same_config s s1 → fine s1 A1 n b → view now A1 = V →
  puts maphash lib s1 A1 n b k x r s' → spec V now c = (a, <[k := x]> V) →
  outcome s A n b now c (Ret (reply_answer (fun _ => a) r, s')).
Proof.
  intros Hd Hst Hc Hf1 HV [(-> & Hf' & Hc')|(-> & -> & Hm)] Hsp.
  - exists a, s', (<[k := x]> A1). split_and!; [done|unfold cost; rewrite Hst; exact Hf'|by eapply same_config_trans|].
    apply permits_spec; [done|by rewrite Hsp|]. rewrite Hsp. cbn [snd]. apply view_insert. unfold V in *. by rewrite HV, view_idem.
  - exists (AError ErrOOM), s1, A1. pose proof (cost_nonneg c). split_and!; [done|eapply fine_mono; [..|done]; lia|done|].
    rewrite HV. apply permits_oom; [done|done|by rewrite Hst|]. by rewrite <- (sc_max _ _ Hc).
Qed.

(** ** Reads *)

Lemma live_lookup k e : live_entry maphash s k now = Ret (Some e) → lookup_key maphash s k = Ret (Some e).
Proof.
  unfold live_entry. destruct (lookup_key maphash s k) as [o| |]; rewrite ?res_bind_ret; [|done..].
  destruct (found_expired maphash s k o now) as [g| |]; [|done..]. rewrite res_bind_ret. by destruct g.
Qed.

(** A key without a list holds a string or nothing. *)
Lemma no_list k v d : is_list V k = false → V !! k = Some (v, d) → ∃ b, v = VStr b.
Proof. unfold is_list. intros H HV. rewrite HV in H. destruct v as [b'|]; [by exists b'|done]. Qed.

Lemma on_string_spec k r : is_list V k = false → on_string V k r = r.
Proof. unfold on_string. by intros ->. Qed.

Lemma spec_value k v d : V !! k = Some (v, d) → A !! k = Some (v, d).
Proof. intros H. by apply view_some in H as [? _]. Qed.

(** The activity update of a read. *)
Lemma note_ok (upd : entryMeta → res Store) (stale : entryMeta → bool) k e :
  (∀ meta meta', entryMeta_ e = Some meta → schemaID meta' = schemaID meta →
    ∃ s', upd meta' = Ret s' ∧ fine s' A n b ∧ same_config s s' ∧ same_reads maphash lib s s' k e) →
  ∃ s', match entryMeta_ e with
        | Some meta => if shouldTrackActivity s e then upd (note_read (stale meta) meta now) else Ret s
        | None => Ret s
        end = Ret s' ∧ fine s' A n b ∧ same_config s s' ∧ same_reads maphash lib s s' k e.
Proof using Hf.
  intros H. destruct (entryMeta_ e) as [meta|]; [|by exists s]. destruct (shouldTrackActivity s e); [by eapply H|by exists s].
Qed.

Lemma Get_ok k : is_list V k = false → outcome s A n b now (CGet k) (exec s now (CGet k)).
Proof using Hf Hcap.
  intros Hk. assert (Hsp : spec V now (CGet k) = (AValue (value_of V k), V)) by (by apply on_string_spec). unfold value_of in Hsp.
  unfold exec, on, Get. destruct (live_entry_ok maphash lib Hcap s A n b k now Hf) as (o & E & Ho). rewrite E, res_bind_ret. unfold finds in Ho.
  fold V in Ho. destruct (V !! k) as [[v d]|] eqn:HV.
  2: { subst o. rewrite res_bind_ret. by apply (unchanged _ _ _ A). }
  destruct (no_list k v d Hk HV) as [str ->]. destruct Ho as (e & -> & Hr). pose proof (live_lookup k e E) as Hl.
  destruct (note_ok (set_meta_entry maphash growslice s k e) (fun meta => stale_access meta now) k e) as (s' & -> & Hf' & Hc & [Hd _]).
  { intros meta meta' Hm Hs. by eapply (set_meta_ok maphash growslice lib s A n b k e _ d meta meta' Hf (spec_value k _ d HV) Hl Hm Hs). }
  rewrite res_bind_ret, Hd, (str_decode Hr), !res_bind_ret. by apply (unchanged _ _ _ A).
Qed.

Lemma read_string_ok c k dec : determined c = true → spec V now c = on_string V k (AValue (value_of V k), V) →
  (∀ e v d s', reads_as s k e (VStr v) d → same_reads maphash lib s s' k e → dec s' e = Ret v) →
  outcome s A n b now c (on string_answer (read_string maphash s k now dec)).
Proof using Hf Hcap growslice.
  intros Hd Hsp Hdec. unfold on, read_string. destruct (live_entry_ok maphash lib Hcap s A n b k now Hf) as (o & E & Ho). rewrite E, res_bind_ret.
  unfold finds in Ho. fold V in Ho. unfold on_string, is_list, value_of in Hsp. destruct (V !! k) as [[v d]|] eqn:HV.
  2: { subst o. rewrite res_bind_ret. by apply (unchanged _ _ _ A). }
  destruct Ho as (e & -> & Hr). rewrite (type_container Hr). destruct v as [v|L]; cbn [container]; [|rewrite res_bind_ret; by apply (unchanged _ _ _ A)]. pose proof (live_lookup k e E) as Hl.
  destruct (note_ok (update_meta maphash s k) (fun meta => IsOlderThan (lastAccess meta) now Minute) k e) as (s' & -> & Hf' & Hc & Hrd).
  { intros meta meta' Hm Hs. by eapply (set_meta_ok maphash growslice lib s A n b k e _ d meta meta' Hf (spec_value k _ d HV) Hl Hm Hs). }
  rewrite res_bind_ret, (Hdec e v d s' Hr Hrd), !res_bind_ret. by apply (unchanged _ _ _ A).
Qed.

Lemma GetString_ok k : outcome s A n b now (CGetString k) (exec s now (CGetString k)).
Proof using Hf Hcap. apply (read_string_ok _ k); [done|done|]. intros e v d s' Hr [-> _]. apply (str_decode Hr). Qed.

Lemma GetStringInto_ok k cap : outcome s A n b now (CGetStringInto k cap) (exec s now (CGetStringInto k cap)).
Proof using Hf Hcap. apply (read_string_ok _ k); [done|done|]. intros e v d s' Hr [_ ->]. apply (str_into _ Hr). Qed.

Lemma permitted c a : permits (m_max (memory s)) V now c a V → outcome s A n b now c (Ret (a, s)).
Proof using Hf.
  intros Hp. exists a, s, A. pose proof (cost_nonneg c). split_and!; try done. eapply fine_mono; [..|done]; lia.
Qed.

Lemma VisitRaw_ok k : outcome s A n b now (CVisitRaw k) (exec s now (CVisitRaw k)).
Proof using Hf.
  pose proof (fi_good _ _ _ _ _ _ Hf) as [Hs _ _]. destruct (home_shard maphash lib s A k Hs) as (sh & m & live & Hat & _ & H & Hmine).
  destruct (NewRegistry_only _ _ (so_registry _ _ _ _ Hs)) as [Hreg _].
  unfold exec, pure, VisitRawStringBytes. cbv zeta. change (shardForHash s (HashBytes maphash k)) with (shardFor maphash s k). rewrite Hat, res_bind_ret.
  change (getHashedBytes sh k (HashBytes maphash k)) with (shard_get maphash sh k). rewrite (held_get maphash H k), res_bind_ret.
  destruct (m !! k) as [e|] eqn:Hm; [|rewrite res_bind_ret; apply permitted; split; [done|by left]].
  destruct (held_item maphash H k e Hm) as ([x d] & Hx & He). rewrite (expired_ok maphash H k e x d now Hm Hx), res_bind_ret.
  destruct (vtype_simple _ _ (eh_type _ _ _ _ He)) as (_ & _ & _ & _ & Hty). rewrite Hty.
  destruct x as [v|L]; cbn [container]; [|rewrite orb_true_r; cbn [orb]; rewrite res_bind_ret; apply permitted; split; [done|by left]].
  destruct (_ || _) eqn:Eb; [rewrite res_bind_ret; apply permitted; split; [done|by left]|]. rewrite !orb_false_iff in Eb. destruct Eb as ((((Eg & _) & Er) & _) & _).
  destruct (encoded_ok maphash H e (VStr v, d) He) as (bytes & dec & _ & _ & -> & _ & Hd & Hv). cbn in Hv. subst dec. rewrite !res_bind_ret. apply permitted. split; [done|]. right.
  unfold value_of, V. rewrite view_lookup, <- Hmine, Hx. cbn. rewrite Eg. cbn. do 2 f_equal.
  assert (Ec : codecID (entryData e) = codec_Raw) by (unfold isRaw in Er; by apply negb_false_iff, Z.eqb_eq in Er).
  rewrite Ec in Hd. by apply (raw_record lib _ _ _ _ Hreg) in Hd as [-> _].
Qed.

Lemma TTL_ok k mil : outcome s A n b now (CTTL k mil) (exec s now (CTTL k mil)).
Proof using Hf Hcap Hnow.
  unfold exec, pure, TTL. destruct (live_entry_ok maphash lib Hcap s A n b k now Hf) as (o & -> & Ho). rewrite res_bind_ret. unfold finds in Ho.
  assert (Hz : (match o with None => Ret (-2) | Some e => if negb (hasExpiry (entryData e)) then Ret (-1) else
      at' ← key_expiration maphash s k e; Ret (let m := stamp_Sub at' now ÷ Millisecond in if mil then m else m ÷ 1000 + (Z.rem m 1000 + 500) ÷ 1000) end)
    = Ret (match V !! k with None => -2 | Some (_, d) => if d =? 0 then -1 else time_left d now mil end)).
  { fold V in Ho. destruct (V !! k) as [[v d]|] eqn:HV; [|by subst o]. destruct Ho as (e & -> & Hr).
    rewrite (ra_expiry _ _ _ _ _ _ _ Hr), negb_involutive. destruct (Z.eqb_spec d 0) as [|Hd]; [done|].
    rewrite (ra_at _ _ _ _ _ _ _ Hr), res_bind_ret. f_equal. apply time_left_ok; [done|done|]. by apply view_some in HV as [_ ?]. }
  cbv zeta in Hz |- *. rewrite Hz, res_bind_ret. apply (unchanged _ _ _ A); try done. cbn. unfold deadline_answer. by destruct (V !! k) as [[v d]|].
Qed.

Lemma ExpireTime_ok k mil : outcome s A n b now (CExpireTime k mil) (exec s now (CExpireTime k mil)).
Proof using Hf Hcap.
  unfold exec, pure, ExpireTime. destruct (live_entry_ok maphash lib Hcap s A n b k now Hf) as (o & -> & Ho). rewrite res_bind_ret. unfold finds in Ho.
  fold V in Ho. destruct (V !! k) as [[v d]|] eqn:HV.
  2: { subst o. rewrite res_bind_ret. apply (unchanged _ _ _ A); try done. cbn. unfold deadline_answer. by rewrite HV. }
  destruct Ho as (e & -> & Hr). rewrite (ra_expiry _ _ _ _ _ _ _ Hr), negb_involutive.
  assert (Hsp : ∀ z, (if d =? 0 then -1 else if mil then d else d / 1000) = z → spec V now (CExpireTime k mil) = (AInt z, V))
    by (intros z <-; cbn; unfold deadline_answer; by rewrite HV).
  destruct (Z.eqb_spec d 0) as [->|Hd]; [rewrite res_bind_ret; by apply (unchanged _ _ _ A); try apply Hsp|].
  rewrite (ra_at _ _ _ _ _ _ _ Hr), !res_bind_ret. apply (unchanged _ _ _ A); try done. apply Hsp. unfold stamp_Time, Millisecond, Second.
  rewrite (proj2 (Z.eqb_neq d 0)) by done. destruct mil; [by rewrite Z.div_mul|]. change 1000000000 with (1000 * 1000000). by rewrite Z.div_mul_cancel_r.
Qed.

Lemma ValueType_ok k : outcome s A n b now (CValueType k) (exec s now (CValueType k)).
Proof using Hf Hcap.
  unfold exec, pure, ValueTypeOf. destruct (live_entry_ok maphash lib Hcap s A n b k now Hf) as (o & -> & Ho). rewrite !res_bind_ret. unfold finds in Ho.
  apply permitted. cbn [permits]. split; [done|]. fold V in Ho. destruct (V !! k) as [[v d]|]; [|by subst o]. destruct Ho as (e & -> & Hr).
  eexists. split; [done|apply Hr].
Qed.

Lemma count_cons k ks : count V (k :: ks) = Z.b2z (present V k) + count V ks.
Proof. done. Qed.

Lemma finds_present k o : finds s V k o → bool_decide (is_Some o) = present V k.
Proof.
  unfold finds, present. destruct (V !! k) as [[v d]|]; [intros (e & -> & _)|intros ->]; [|done]. by rewrite !bool_decide_true by eauto.
Qed.

Lemma Exists_ok ks : outcome s A n b now (CExists ks) (exec s now (CExists ks)).
Proof using Hf Hcap.
  assert (E : Exists maphash s ks now = Ret (count V ks)).
  { induction ks as [|k ks IH]; [done|]. cbn [Exists]. destruct (live_entry_ok maphash lib Hcap s A n b k now Hf) as (o & -> & Ho).
    rewrite res_bind_ret, IH, res_bind_ret, count_cons, (finds_present k o Ho). f_equal. destruct (present V k); cbn; lia. }
  unfold exec, pure. rewrite E, res_bind_ret. by apply (unchanged _ _ _ A).
Qed.

(** ** Deletions *)

Lemma Delete_run k : ∃ s', Delete maphash growslice s k now = Ret (present V k, s') ∧ fine s' (delete k A) n b ∧ same_config s s'.
Proof using Hf Hcap.
  unfold Delete. destruct (lookup_ok maphash lib Hcap s A n b k Hf) as (o & -> & Ho). rewrite res_bind_ret.
  assert (Hg : ∃ g, found_expired maphash s k o now = Ret g ∧ bool_decide (is_Some o) && negb g = present V k).
  { unfold present, V. rewrite view_lookup. unfold finds in Ho. destruct (A !! k) as [[v d]|]; [|subst o; by exists false].
    destruct Ho as (e & -> & Hr). exists (dead now d). rewrite (ra_expired _ _ _ _ _ _ _ Hr). split; [done|]. cbn. by destruct (dead now d). }
  destruct Hg as (g & -> & Hg). rewrite res_bind_ret. destruct (remove_fine maphash growslice lib s A n b k now Hf) as (s' & -> & Hf' & Hc).
  rewrite res_bind_ret, Hg. by exists s'.
Qed.

Lemma Delete_ok k : outcome s A n b now (CDelete k) (exec s now (CDelete k)).
Proof using Hf Hcap.
  unfold exec, on. destruct (Delete_run k) as (s' & -> & Hf' & Hc). rewrite res_bind_ret. apply (changed _ _ _ (delete k A) (delete k V)); try done.
  unfold V. by rewrite !view_delete, view_idem.
Qed.

Lemma with_counters_fine s1 A1 n1 b1 x y : fine s1 A1 n1 b1 → fine (with_counters s1 x y) A1 n1 b1.
Proof. intros [[[] [] Hw] Hz]. split; [|done]. split; [by split|by split|exact Hw]. Qed.

Lemma Evict_ok k : outcome s A n b now (CEvict k) (exec s now (CEvict k)).
Proof using Hf Hcap.
  unfold exec, on, Evict. destruct (Delete_run k) as (s' & -> & Hf' & Hc). rewrite !res_bind_ret. cbv zeta.
  apply (changed _ _ _ (delete k A) (delete k V)); try done; [by destruct (present V k); [apply with_counters_fine|]|destruct (present V k); [by destruct Hc|done]|].
  unfold V. by rewrite !view_delete, view_idem.
Qed.

(** A key is opened: looked up, and dropped when it has expired. *)
Ltac open_key k e s1 A1 v d HV :=
  let E1 := fresh in let E2 := fresh in let Hfd := fresh "Hfd" in
  destruct (drop_ok maphash growslice lib Hcap s A n b k now Hf) as (? & e & s1 & A1 & E1 & E2 & Hf1 & Hc1 & HV1 & Hfd & Hl1);
  rewrite E1, res_bind_ret, E2, res_bind_ret; clear E1 E2; unfold finds in Hfd; fold V in HV1, Hfd;
  destruct (V !! k) as [[v d]|] eqn:HV; [destruct Hfd as (e0 & -> & Hr)|subst e].

Lemma Type_ok k : outcome s A n b now (CType k) (exec s now (CType k)).
Proof using Hf Hcap.
  assert (Hsp : spec V now (CType k) = (AText (type_of V k), V)) by done. unfold type_of in Hsp.
  unfold exec, on, Type_. open_key k e s1 A1 v d HV; rewrite res_bind_ret; [|by apply (unchanged _ _ _ A1)].
  assert (Ht : type_name (valueType (entryData e0)) = match v with VStr _ => "string"%string | VList _ => "list"%string end).
  { pose proof (ra_type _ _ _ _ _ _ _ Hr) as Ht. destruct v as [v|L]; cbn [vtype] in Ht; [|by rewrite Ht]. unfold type_name.
    unfold TypeBytes, TypeHash, TypeSet, TypeList, TypeZSet, TypeStream in *.
    repeat match goal with |- context [valueType (entryData e0) =? ?x] => rewrite (proj2 (Z.eqb_neq (valueType (entryData e0)) x)) by lia end. done. }
  apply (unchanged _ _ _ A1); try done. rewrite Hsp, Ht. by destruct v.
Qed.

Lemma removed k s1 A1 c a : fine s1 A1 n b → same_config s s1 → view now A1 = V → determined c = true → spec V now c = (a, delete k V) →
  ∃ s', remove maphash growslice s1 (shardFor maphash s1 k) k now = Ret s' ∧ outcome s A n b now c (Ret (a, s')).
Proof.
  intros Hf1 Hc1 HV1 Hd Hsp. destruct (remove_fine maphash growslice lib s1 A1 n b k now Hf1) as (s' & E & Hf' & Hc'). exists s'. split; [done|].
  apply (changed _ _ _ (delete k A1) (delete k V)); try done; [by eapply same_config_trans|]. rewrite !view_delete, HV1. unfold V. by rewrite view_idem.
Qed.

Lemma GetDel_ok k : outcome s A n b now (CGetDel k) (exec s now (CGetDel k)).
Proof using Hf Hcap.
  unfold exec, on, GetDel. pose proof (cost_nonneg (CGetDel k)). open_key k e s1 A1 v d HV.
  - destruct (ra_decode _ _ _ _ _ _ _ Hr) as (bytes & -> & Hb). rewrite res_bind_ret.
    destruct (remove_fine maphash growslice lib s1 A1 n b k now Hf1) as (s' & -> & Hf' & Hc'). rewrite !res_bind_ret.
    exists (AValue (Some bytes)), s', (delete k A1). split_and!; [done|eapply fine_mono; [..|done]; lia|by eapply same_config_trans|].
    cbn [permits]. fold V. rewrite HV, view_delete, HV1. eauto.
  - rewrite res_bind_ret. exists (AValue None), s1, A1. split_and!; [done|eapply fine_mono; [..|done]; lia|done|].
    cbn [permits]. fold V. rewrite HV, HV1. split; [symmetry; by apply delete_id|done].
Qed.

Lemma GetDelString_ok k : outcome s A n b now (CGetDelString k) (exec s now (CGetDelString k)).
Proof using Hf Hcap.
  assert (Hsp : spec V now (CGetDelString k) = (AValue (value_of V k), if is_list V k then V else delete k V)) by done. unfold value_of, is_list in Hsp.
  unfold exec, on, GetDelString. open_key k e s1 A1 v d HV.
  - rewrite (type_container Hr). destruct v as [v|L]; cbn [container]; [|rewrite res_bind_ret; by apply (unchanged _ _ _ A1)]. rewrite (str_decode Hr), res_bind_ret.
    destruct (removed k s1 A1 (CGetDelString k) (AValue (Some v)) Hf1 Hc1 HV1) as (s' & -> & Ho); [done|done|by rewrite !res_bind_ret].
  - rewrite delete_id in Hsp by done. rewrite res_bind_ret. by apply (unchanged _ _ _ A1).
Qed.

(** ** Writes *)

Lemma hashed_lookup k o : lookup_key maphash s k = Ret o → ∃ sh, shard_at s (shardFor maphash s k) = Ret sh ∧ getHashed sh k (Hash maphash k) = Ret o.
Proof using Hf.
  destruct (home_shard maphash lib s A k (go_store _ _ _ _ _ _ (fi_good _ _ _ _ _ _ Hf))) as (sh & _ & _ & Hat & _).
  unfold lookup_key. rewrite Hat, res_bind_ret. by exists sh.
Qed.

(** The common part of the plain SETs: the value is encoded and published. *)
Lemma plain_put k v : zlen v ≤ maxValueBytes → b + KeyPack.KeyRecordSize k ≤ maxLogBytes →
  ∃ sh o o' s1 A1 pe, shard_at s (shardFor maphash s k) = Ret sh ∧ getHashed sh k (Hash maphash k) = Ret o ∧
    drop_expired maphash growslice s k o now = Ret (o', s1) ∧ fine s1 A1 n b ∧ same_config s s1 ∧ view now A1 = V ∧
    makeEntry lib s1 v = Ret pe ∧
    ∃ r s', publishRecordKnownHashed maphash growslice s1 (shardFor maphash s k) k (Hash maphash k) pe enforceMemoryLimit
      (found_entry o') (bool_decide (is_Some o')) now = Ret (r, s') ∧ puts maphash lib s1 A1 n b k (VStr v, 0) r s'.
Proof using Hf Hcap Hn.
  intros Hv Hb. destruct (drop_ok maphash growslice lib Hcap s A n b k now Hf) as (o & o' & s1 & A1 & E1 & E2 & Hf1 & Hc1 & HV1 & _ & Hl1).
  destruct (hashed_lookup k o E1) as (sh & Hat & Hg). destruct (store_value maphash growslice lib Hcap s1 A1 n b k v now Hf1 Hn Hb Hv) as (pe & Epe & E0 & Hpe & _).
  exists sh, o, o', s1, A1, pe. split_and!; try done. rewrite <- (shardFor_config maphash s s1 k Hc1). unfold publishRecordKnownHashed.
  assert (Hd : expiresAt pe = 0) by (rewrite <- E0; done). rewrite <- Hd.
  by apply (known_puts maphash growslice lib true s1 A1 n b k pe (VStr v) now o' Hf1 Hn Hb Hpe Hv Hl1).
Qed.

Lemma Set_ok k v : b + cost (CSet k v) ≤ maxLogBytes → outcome s A n b now (CSet k v) (exec s now (CSet k v)).
Proof using Hf Hcap Hn.
  intros Hb. unfold exec, on, SetPlain. cbv zeta. change (shardForHash s (Hash maphash k)) with (shardFor maphash s k).
  destruct (Z.ltb_spec maxValueBytes (zlen v)) as [Hv|Hv].
  - rewrite res_bind_ret. apply (unchanged _ _ _ A); try done. cbn. unfold too_large. by rewrite (proj2 (Z.ltb_lt _ _) Hv).
  - destruct (plain_put k v Hv Hb) as (sh & o & o' & s1 & A1 & pe & Hat & Hg & E & Hf1 & Hc1 & HV1 & Epe & r & s' & Ep & Hp).
    rewrite Hat, res_bind_ret, Hg, res_bind_ret, E, res_bind_ret, Epe, res_bind_ret, Ep, res_bind_ret.
    apply (put_outcome _ k (VStr v, 0) ADone s1 A1); try done. cbn. unfold too_large. by rewrite (proj2 (Z.ltb_ge _ _) Hv).
Qed.

Lemma SetCommitted_ok k v result : b + cost (CSetCommitted k v result) ≤ maxLogBytes →
  outcome s A n b now (CSetCommitted k v result) (exec s now (CSetCommitted k v result)).
Proof using Hf Hcap Hn.
  intros Hb. unfold exec, on, SetPlainCommitted. cbv zeta. change (shardForHash s (Hash maphash k)) with (shardFor maphash s k).
  destruct (Z.ltb_spec maxValueBytes (zlen v)) as [Hv|Hv].
  - rewrite res_bind_ret. apply (unchanged _ _ _ A); try done. cbn. unfold too_large. by rewrite (proj2 (Z.ltb_lt _ _) Hv).
  - destruct (plain_put k v Hv Hb) as (sh & o & o' & s1 & A1 & pe & Hat & Hg & E & Hf1 & Hc1 & HV1 & Epe & r & s' & Ep & Hp).
    rewrite Hat, res_bind_ret, Hg, res_bind_ret, E, res_bind_ret, Epe, res_bind_ret.
    assert (Hsp : spec V now (CSetCommitted k v result) = match result with Ok _ => (ADone, <[k := (VStr v, 0)]> V) | Fail e => (AError e, V) end)
      by (cbn; unfold too_large; by rewrite (proj2 (Z.ltb_ge _ _) Hv)).
    destruct result as [u|err]; [|rewrite res_bind_ret; by apply (unchanged _ _ _ A1)].
    rewrite Ep, res_bind_ret. by apply (put_outcome _ k (VStr v, 0) ADone s1 A1).
Qed.

(** A publish whose error is returned, and [y] otherwise. *)
Lemma published_outcome {X} (f : X → answer) (y : X) c k x s1 A1 r s' : determined c = true → stores c = Some k → same_config s s1 → fine s1 A1 n b →
  view now A1 = V → puts maphash lib s1 A1 n b k x r s' → spec V now c = (f y, <[k := x]> V) →
  outcome s A n b now c (on (reply_answer f) (Ret (published (r, s') y))).
Proof.
  intros Hd Hst Hc Hf1 HV Hp Hsp. assert (E : on (reply_answer f) (Ret (published (r, s') y)) = Ret (reply_answer (fun _ => f y) r, s')) by (by destruct r).
  rewrite E. by apply (put_outcome c k x (f y) s1 A1).
Qed.

Lemma GetSet_ok k v : is_list V k = false → b + cost (CGetSet k v) ≤ maxLogBytes → outcome s A n b now (CGetSet k v) (exec s now (CGetSet k v)).
Proof using Hf Hcap Hn.
  intros Hk Hb. assert (Hsp := on_string_spec k (if too_large v then (AError errTooLarge, V) else (AValue (value_of V k), <[k := (VStr v, 0)]> V)) Hk).
  change (on_string _ _ _) with (spec V now (CGetSet k v)) in Hsp. unfold too_large in Hsp. unfold exec, GetSet. destruct (Z.ltb_spec maxValueBytes (zlen v)) as [Hv|Hv].
  { unfold on. rewrite res_bind_ret. by apply (unchanged _ _ _ A). }
  destruct (live_entry_ok maphash lib Hcap s A n b k now Hf) as (o & -> & Ho). rewrite res_bind_ret.
  assert (Hprev : match o with Some e => v ← decode_key maphash s k e; Ret (Some v) | None => Ret None end = Ret (value_of V k)).
  { unfold finds in Ho. unfold value_of. fold V in Ho. destruct (V !! k) as [[v0 d]|] eqn:HV; [|by subst o]. destruct (no_list k v0 d Hk HV) as [str ->].
    destruct Ho as (e & -> & Hr). by rewrite (str_decode Hr), res_bind_ret. }
  rewrite Hprev, res_bind_ret. destruct (store_value maphash growslice lib Hcap s A n b k v now Hf Hn Hb Hv) as (pe & -> & E0 & _ & Hput).
  destruct (Hput 0) as (r & s' & Ep & Hp). rewrite E0 in Ep. rewrite res_bind_ret, Ep, res_bind_ret.
  by apply (published_outcome AValue (value_of V k) _ k (VStr v, 0) s A).
Qed.

Lemma current_ok s1 k o : is_list V k = false → finds s1 V k o → current_value maphash s1 k o = Ret (current V k).
Proof.
  intros Hk. unfold finds, current. destruct (V !! k) as [[v d]|] eqn:HV; [|by intros ->]. destruct (no_list k v d Hk HV) as [str ->]. intros (e & -> & Hr). cbn [current_value].
  by rewrite (str_decode Hr), res_bind_ret, (ra_at _ _ _ _ _ _ _ Hr), res_bind_ret.
Qed.

Lemma opened k : ∃ o o' s1 A1, lookup_key maphash s k = Ret o ∧ drop_expired maphash growslice s k o now = Ret (o', s1) ∧ fine s1 A1 n b ∧
  same_config s s1 ∧ view now A1 = V ∧ finds s1 V k o' ∧ lookup_key maphash s1 k = Ret o'.
Proof using Hf Hcap. apply (drop_ok maphash growslice lib Hcap s A n b k now Hf). Qed.

Lemma refused c e s1 A1 {X} (f : X → answer) : determined c = true → fine s1 A1 n b → same_config s s1 → view now A1 = V → spec V now c = (AError e, V) →
  outcome s A n b now c (on (reply_answer f) (Ret (Fail e, s1))).
Proof. intros. unfold on. rewrite res_bind_ret. by apply (unchanged _ _ _ A1). Qed.

Lemma Append_ok k suffix : is_list V k = false → b + cost (CAppend k suffix) ≤ maxLogBytes → outcome s A n b now (CAppend k suffix) (exec s now (CAppend k suffix)).
Proof using Hf Hcap Hn.
  intros Hk Hb. unfold exec, Append. destruct (opened k) as (o & o' & s1 & A1 & -> & E & Hf1 & Hc1 & HV1 & Hfd & _).
  rewrite res_bind_ret, E, res_bind_ret, (current_ok s1 k o' Hk Hfd), res_bind_ret. destruct (current V k) as [v d] eqn:Hcur. rewrite <- zlen_app.
  assert (Hsp : spec V now (CAppend k suffix) = if too_large (v ++ suffix) then (AError errTooLarge, V) else (AInt (zlen (v ++ suffix)), <[k := (VStr (v ++ suffix), d)]> V))
    by (cbn [spec]; by rewrite (on_string_spec k _ Hk), Hcur).
  unfold too_large in Hsp. destruct (Z.ltb_spec maxValueBytes (zlen (v ++ suffix))) as [Hv|Hv]; [by apply (refused _ _ s1 A1)|].
  destruct (store_value maphash growslice lib Hcap s1 A1 n b k _ now Hf1 Hn Hb Hv) as (pe & -> & _ & _ & Hput). destruct (Hput d) as (r & s' & Ep & Hp).
  rewrite res_bind_ret, Ep, res_bind_ret. by apply (published_outcome AInt _ _ k (VStr (v ++ suffix), d) s1 A1).
Qed.

Lemma sized_current k : zlen (current V k).1 ≤ maxValueBytes.
Proof using Hf.
  unfold current. destruct (V !! k) as [[[v|L] d]|] eqn:HV; [|done..]. cbn. apply (fi_sized _ _ _ _ _ _ Hf k (VStr v) d), spec_value, HV.
Qed.

Lemma SetRange_ok k offset r : is_list V k = false → b + cost (CSetRange k offset r) ≤ maxLogBytes → outcome s A n b now (CSetRange k offset r) (exec s now (CSetRange k offset r)).
Proof using Hf Hcap Hn.
  intros Hk Hb. unfold exec, SetRange. assert (Hsp : spec V now (CSetRange k offset r) = spec_setrange V k offset r) by (by apply on_string_spec).
  unfold spec_setrange in Hsp. pose proof (zlen_nonneg r). destruct (Z.ltb_spec offset 0) as [Ho|Ho]; [by apply (refused _ _ s A)|].
  destruct (Z.ltb_spec maxValueBytes offset) as [Hmo|Hmo].
  { rewrite (proj2 (Z.ltb_lt maxValueBytes (offset + zlen r))) in Hsp by lia. by apply (refused _ _ s A). }
  destruct (opened k) as (o & o' & s1 & A1 & -> & E & Hf1 & Hc1 & HV1 & Hfd & _). rewrite res_bind_ret, E, res_bind_ret, (current_ok s1 k o' Hk Hfd), res_bind_ret.
  pose proof (sized_current k) as Hsz. destruct (current V k) as [v d]. cbn [fst] in Hsz.
  destruct (Z.ltb_spec maxValueBytes (offset + zlen r)) as [Hmr|Hmr]; [by apply (refused _ _ s1 A1)|].
  destruct (zlen r =? 0); [unfold on; rewrite res_bind_ret; by apply (unchanged _ _ _ A1)|]. cbv zeta. destruct (overlay_spec v offset r Ho) as [Eo El].
  destruct (store_value maphash growslice lib Hcap s1 A1 n b k (overlay v offset r) now Hf1 Hn Hb) as (pe & -> & _ & _ & Hput); [lia|].
  destruct (Hput d) as (rr & s' & Ep & Hp). rewrite res_bind_ret, Ep, res_bind_ret.
  apply (published_outcome AInt _ _ k (VStr (overlay v offset r), d) s1 A1); try done. by rewrite Hsp, Eo.
Qed.

Lemma GetRange_ok k x y : is_list V k = false → command_ok (CGetRange k x y) → outcome s A n b now (CGetRange k x y) (exec s now (CGetRange k x y)).
Proof using Hf Hcap.
  intros Hk [Hx Hy]. pose proof (on_string_spec k (AValue (Some (spec_range (current V k).1 x y)), V) Hk) as Hsp.
  change (on_string _ _ _) with (spec V now (CGetRange k x y)) in Hsp. unfold exec, on, GetRange. destruct (opened k) as (o & o' & s1 & A1 & -> & E & Hf1 & Hc1 & HV1 & Hfd & _).
  rewrite res_bind_ret, E, res_bind_ret. pose proof (sized_current k) as Hsz. unfold finds in Hfd. unfold current in Hsz, Hsp. destruct (V !! k) as [[v d]|] eqn:HV.
  - destruct (no_list k v d Hk HV) as [str ->]. destruct Hfd as (e & -> & Hr). rewrite (str_decode Hr), res_bind_ret, (range_of_spec str x y Hx Hy Hsz), !res_bind_ret.
    by apply (unchanged _ _ _ A1).
  - subst o'. rewrite res_bind_ret. apply (unchanged _ _ _ A1); try done. rewrite Hsp. cbn. unfold spec_range. by rewrite drop_nil, take_nil.
Qed.

(** ** Counters *)

(** The integer a key holds. *)
Definition number (k : list byte) : option Z := from_option parse_canonical (Some 0) (value_of V k).

Lemma number_int64 k m : number k = Some m → int64 m.
Proof. unfold number. destruct (value_of V k) as [x|]; [by intros [_ ?]%parse_canonical_iff|intros [= <-]; unfold int64, MinInt64, MaxInt64; lia]. Qed.

Lemma number_ok s1 k o : is_list V k = false → finds s1 V k o →
  match o with Some e => text ← decode_key maphash s1 k e; Ret (parse_canonical text) | None => Ret (Some 0) end = Ret (number k) ∧
  match o with Some e => key_expiration maphash s1 k e | None => Ret 0 end = Ret (current V k).2.
Proof.
  intros Hk. unfold finds, number, current, value_of. destruct (V !! k) as [[v d]|] eqn:HV; [|by intros ->]. destruct (no_list k v d Hk HV) as [str ->].
  intros (e & -> & Hr). rewrite (str_decode Hr), res_bind_ret. split; [done|apply Hr].
Qed.

Lemma Add_run c k delta : is_list V k = false → int64 delta → determined c = true → stores c = Some k → spec V now c = spec_add V k delta → b + cost c ≤ maxLogBytes →
  outcome s A n b now c (on (reply_answer AInt) (Add maphash growslice lib s k delta now)).
Proof using Hf Hcap Hn.
  intros Hk Hd Hdet Hst Hsp Hb. unfold cost in Hb. rewrite Hst in Hb. unfold Add. destruct (opened k) as (o & o' & s1 & A1 & -> & E & Hf1 & Hc1 & HV1 & Hfd & _).
  destruct (number_ok s1 k o' Hk Hfd) as [En Eat]. rewrite res_bind_ret, E, res_bind_ret, En, res_bind_ret. unfold spec_add in Hsp. fold (number k) in Hsp.
  destruct (number k) as [m|] eqn:Hm; [|by apply (refused _ _ s1 A1)]. apply number_int64 in Hm. unfold int64 in *.
  destruct (_ || _) eqn:Eo; rewrite ?orb_true_iff, ?orb_false_iff, ?andb_true_iff, ?andb_false_iff, ?Z.ltb_lt, ?Z.ltb_ge in Eo.
  - assert (Hov : (MinInt64 <=? m + delta) && (m + delta <=? MaxInt64) = false) by (rewrite andb_false_iff, !Z.leb_gt; lia).
    rewrite Hov in Hsp. by apply (refused _ _ s1 A1).
  - assert (Hov : (MinInt64 <=? m + delta) && (m + delta <=? MaxInt64) = true) by (rewrite andb_true_iff, !Z.leb_le; lia). rewrite Hov in Hsp.
    destruct (store_value maphash growslice lib Hcap s1 A1 n b k (FormatInt (m + delta)) now Hf1 Hn Hb (FormatInt_size _)) as (pe & -> & _ & _ & Hput).
    destruct (Hput (current V k).2) as (r & s' & Ep & Hp). rewrite res_bind_ret, Eat, res_bind_ret, Ep, res_bind_ret.
    by apply (published_outcome AInt _ _ k (VStr (FormatInt (m + delta)), (current V k).2) s1 A1).
Qed.

Lemma Add_ok k delta : is_list V k = false → command_ok (CAdd k delta) → b + cost (CAdd k delta) ≤ maxLogBytes → outcome s A n b now (CAdd k delta) (exec s now (CAdd k delta)).
Proof using Hf Hcap Hn. intros Hk Hd Hb. apply (Add_run _ k delta); try done. by apply on_string_spec. Qed.

Lemma Sub_ok k dec : is_list V k = false → command_ok (CSub k dec) → b + cost (CSub k dec) ≤ maxLogBytes → outcome s A n b now (CSub k dec) (exec s now (CSub k dec)).
Proof using Hf Hcap Hn.
  intros Hk Hd Hb. cbn in Hd. unfold exec, Sub. destruct (Z.eqb_spec dec MinInt64) as [->|Hne]; cbn [negb].
  2: { apply (Add_run _ k (- dec)); try done; [|by apply on_string_spec]. unfold int64, MinInt64, MaxInt64 in *. lia. }
  assert (Hsp : spec V now (CSub k MinInt64) = spec_add V k (- MinInt64)) by (by apply on_string_spec). unfold spec_add in Hsp.
  destruct (live_entry_ok maphash lib Hcap s A n b k now Hf) as (o & -> & Ho). fold V in Ho. rewrite res_bind_ret.
  destruct (number_ok s k o Hk Ho) as [_ Eat]. unfold finds in Ho. unfold value_of in Hsp. destruct (V !! k) as [[v d]|] eqn:HV.
  2: { subst o. by apply (refused _ _ s A). }
  destruct (no_list k v d Hk HV) as [str ->]. destruct Ho as (e & -> & Hr). rewrite (str_decode Hr), res_bind_ret. cbn [from_option] in Hsp.
  destruct (parse_canonical str) as [m|] eqn:Hm; [|by apply (refused _ _ s A)]. apply parse_canonical_iff in Hm as [_ Hm]. unfold int64, MinInt64, MaxInt64 in *.
  destruct (Z.leb_spec 0 m) as [H0|H0].
  - assert (Hov : (- 2 ^ 63 <=? m + - - 2 ^ 63) && (m + - - 2 ^ 63 <=? 2 ^ 63 - 1) = false) by (rewrite andb_false_iff, !Z.leb_gt; lia).
    rewrite Hov in Hsp. by apply (refused _ _ s A).
  - assert (Hov : (- 2 ^ 63 <=? m + - - 2 ^ 63) && (m + - - 2 ^ 63 <=? 2 ^ 63 - 1) = true) by (rewrite andb_true_iff, !Z.leb_le; lia). rewrite Hov in Hsp. cbv zeta.
    rewrite i64_id by lia. rewrite <- Z.add_opp_r.
    destruct (store_value maphash growslice lib Hcap s A n b k (FormatInt (m + - - 2 ^ 63)) now Hf Hn Hb (FormatInt_size _)) as (pe & -> & _ & _ & Hput).
    destruct (Hput (current V k).2) as (r & s' & Ep & Hp). rewrite res_bind_ret, Eat, res_bind_ret, Ep, res_bind_ret.
    by apply (published_outcome AInt _ _ k (VStr (FormatInt (m + - - 2 ^ 63)), (current V k).2) s A).
Qed.

(** ** Deadlines *)

Lemma stampOf_ms t : Millisecond ≤ t → stampOf t = ms t ∧ ms t ≠ 0.
Proof.
  unfold stampOf, ms, zeroTime, Second, Millisecond. intros Ht. rewrite (proj2 (Z.eqb_neq t (-62135596800 * 1000000000))) by lia. split; [done|].
  pose proof (Z.div_le_mono 1000000 t 1000000 ltac:(done) Ht). change (1000000 / 1000000) with 1 in *. lia.
Qed.

(** The deadline of an opened key is moved. *)
Lemma moved k v d e s1 A1 w c a : V !! k = Some (v, d) → fine s1 A1 n b → same_config s s1 → view now A1 = V → lookup_key maphash s1 k = Ret (Some e) →
  determined c = true → spec V now c = (a, <[k := (v, w)]> V) →
  ∃ s', set_expiry maphash growslice s1 k e w (negb (w =? 0)) = Ret s' ∧ outcome s A n b now c (Ret (a, s')).
Proof.
  intros HV Hf1 Hc1 HV1 Hl Hd Hsp. assert (HA1 : A1 !! k = Some (v, d)) by (rewrite <- HV1 in HV; by apply view_some in HV as [? _]).
  destruct (set_expiry_ok maphash growslice lib s1 A1 n b k e v d w Hf1 HA1 Hl) as (s' & E & Hf' & Hc'). exists s'. split; [done|].
  apply (changed _ _ _ (<[k := (v, w)]> A1) (<[k := (v, w)]> V)); try done; [by eapply same_config_trans|]. apply view_insert. rewrite HV1. unfold V. by rewrite view_idem.
Qed.

Lemma ExpireAt_ok k w condition : outcome s A n b now (CExpireAt k w condition) (exec s now (CExpireAt k w condition)).
Proof using Hf Hcap Hnow.
  unfold exec, on, expireAtConditional. destruct (opened k) as (o & o' & s1 & A1 & -> & E & Hf1 & Hc1 & HV1 & Hfd & Hl1). rewrite res_bind_ret, E, res_bind_ret.
  unfold finds in Hfd. destruct (V !! k) as [[v d]|] eqn:HV; [|subst o'; rewrite res_bind_ret; apply (unchanged _ _ _ A1); try done; cbn; by rewrite HV].
  destruct Hfd as (e & -> & Hr). rewrite (ra_at _ _ _ _ _ _ _ Hr), res_bind_ret, (ra_expiry _ _ _ _ _ _ _ Hr), condition_allowed.
  assert (Hsp : spec V now (CExpireAt k w condition) = if decide (allowed condition d w) then (ABool true, move_deadline V now k v w) else (ABool false, V))
    by (cbn; by rewrite HV).
  destruct (decide (allowed condition d w)) as [Ha|Ha];
    [rewrite (bool_decide_true _ Ha)|rewrite (bool_decide_false _ Ha); cbn [negb]; rewrite res_bind_ret; by apply (unchanged _ _ _ A1)]. cbn [negb].
  unfold move_deadline in Hsp. destruct (Z.leb_spec w now) as [Hw|Hw].
  - destruct (removed k s1 A1 (CExpireAt k w condition) (ABool true) Hf1 Hc1 HV1) as (s' & -> & Ho); [done|done|by rewrite !res_bind_ret].
  - destruct (stampOf_ms w) as [E1 E2]; [lia|]. destruct (moved k v d e s1 A1 (ms w) (CExpireAt k w condition) (ABool true) HV Hf1 Hc1 HV1 Hl1) as (s' & Es & Ho); [done|done|].
    rewrite (proj2 (Z.eqb_neq _ _) E2) in Es. cbn [negb] in Es. by rewrite E1, Es, !res_bind_ret.
Qed.

Lemma Persist_ok k : outcome s A n b now (CPersist k) (exec s now (CPersist k)).
Proof using Hf Hcap.
  unfold exec, on, Persist. destruct (live_entry_ok maphash lib Hcap s A n b k now Hf) as (o & El & Ho). rewrite El, res_bind_ret.
  unfold finds in Ho. fold V in Ho. destruct (V !! k) as [[v d]|] eqn:HV.
  - destruct Ho as (e & -> & Hr). rewrite (ra_expiry _ _ _ _ _ _ _ Hr), negb_involutive.
    assert (Hsp : spec V now (CPersist k) = if d =? 0 then (ABool false, V) else (ABool true, <[k := (v, 0)]> V)) by (cbn; by rewrite HV).
    destruct (d =? 0); [rewrite res_bind_ret; by apply (unchanged _ _ _ A)|].
    destruct (moved k v d e s A 0 (CPersist k) (ABool true) HV Hf (same_config_refl s) eq_refl (live_lookup k e El)) as (s' & Es & Hout); [done|done|].
    change (negb (0 =? 0)) with false in Es. by rewrite Es, !res_bind_ret.
  - subst o. destruct (removed k s A (CPersist k) (ABool false) Hf (same_config_refl s) eq_refl) as (s' & -> & Hout); [done| |by rewrite !res_bind_ret].
    cbn. rewrite HV. by rewrite delete_id.
Qed.

Lemma GetEx_ok k at' persist : is_list V k = false → outcome s A n b now (CGetEx k at' persist) (exec s now (CGetEx k at' persist)).
Proof using Hf Hcap Hnow.
  intros Hk. unfold exec, on, GetEx. destruct (opened k) as (o & o' & s1 & A1 & -> & E & Hf1 & Hc1 & HV1 & Hfd & Hl1). rewrite res_bind_ret, E, res_bind_ret.
  unfold finds in Hfd. destruct (V !! k) as [[x d]|] eqn:HV; [|subst o'; rewrite res_bind_ret; apply (unchanged _ _ _ A1); try done; cbn; by rewrite (on_string_spec k _ Hk), HV].
  destruct (no_list k x d Hk HV) as [v ->]. destruct Hfd as (e & -> & Hr). rewrite (str_decode Hr), res_bind_ret.
  assert (Hsp : spec V now (CGetEx k at' persist) =
    (AValue (Some v), if persist then <[k := (VStr v, 0)]> V else match at' with Some w => move_deadline V now k (VStr v) w | None => V end))
    by (cbn; rewrite (on_string_spec k _ Hk); unfold value_of; by rewrite HV).
  destruct persist.
  - destruct (moved k (VStr v) d e s1 A1 0 (CGetEx k at' true) (AValue (Some v)) HV Hf1 Hc1 HV1 Hl1) as (s' & Es & Ho); [done|done|].
    change (negb (0 =? 0)) with false in Es. by rewrite Es, !res_bind_ret.
  - destruct at' as [w|]; [|rewrite res_bind_ret; by apply (unchanged _ _ _ A1)]. unfold move_deadline in Hsp. destruct (Z.leb_spec w now) as [Hw|Hw].
    + destruct (removed k s1 A1 (CGetEx k (Some w) false) (AValue (Some v)) Hf1 Hc1 HV1) as (s' & -> & Ho); [done|done|by rewrite !res_bind_ret].
    + destruct (stampOf_ms w) as [E1 E2]; [lia|]. destruct (moved k (VStr v) d e s1 A1 (ms w) (CGetEx k (Some w) false) (AValue (Some v)) HV Hf1 Hc1 HV1 Hl1) as (s' & Es & Ho); [done|done|].
      rewrite (proj2 (Z.eqb_neq _ _) E2) in Es. cbn [negb] in Es. by rewrite E1, Es, !res_bind_ret.
Qed.

(** ** SET with options *)

(** The deadline a SET computes. *)
Definition set_deadline (k : list byte) (o : SetOptions) : Z :=
  if oKeepTTL o && present V k then deadline V k
  else if 0 <? oTTL o then stampOf (now + oTTL o) else default 0 (stampOf <$> oExpireAt o).

Lemma set_deadline_spec k o : (∀ t, oExpireAt o = Some t → now < t) →
  set_deadline k o = if oKeepTTL o && present V k then deadline V k else if 0 <? oTTL o then ms (now + oTTL o) else from_option ms 0 (oExpireAt o).
Proof using Hnow.
  intros Ht. unfold set_deadline. destruct (_ && _); [done|]. destruct (Z.ltb_spec 0 (oTTL o)).
  - by destruct (stampOf_ms (now + oTTL o)) as [-> _]; [lia|].
  - destruct (oExpireAt o) as [t|]; [|done]. cbn. specialize (Ht t eq_refl). by destruct (stampOf_ms t) as [-> _]; [lia|].
Qed.

(** What a SET reads of the entry it replaces. *)
Lemma set_reads s1 k o e : (oGet o = true → is_list V k = false) → finds s1 V k e →
  match e with Some e => if oGet o then v ← decode_key maphash s1 k e; Ret (Some v) else Ret None | None => Ret None end
    = Ret (if oGet o then value_of V k else None) ∧
  match e with
  | Some e' => if oKeepTTL o then key_expiration maphash s1 k e' else Ret (if 0 <? oTTL o then stampOf (now + oTTL o) else default 0 (stampOf <$> oExpireAt o))
  | None => Ret (if 0 <? oTTL o then stampOf (now + oTTL o) else default 0 (stampOf <$> oExpireAt o))
  end = Ret (set_deadline k o) ∧ bool_decide (is_Some e) = present V k.
Proof.
  intros Hk Hfd. unfold finds in *. unfold set_deadline, value_of, present, deadline in *.
  destruct (V !! k) as [[v d]|] eqn:HV; [destruct Hfd as (e0 & -> & Hr)|subst e].
  - rewrite (ra_at _ _ _ _ _ _ _ Hr). rewrite !bool_decide_true by eauto. rewrite andb_true_r. cbn [from_option].
    destruct (oGet o); [|by destruct (oKeepTTL o)]. destruct (no_list k v d (Hk eq_refl) HV) as [str ->]. rewrite (str_decode Hr), res_bind_ret. by destruct (oKeepTTL o).
  - rewrite bool_decide_false by (by intros []). rewrite andb_false_r. by destruct (oGet o).
Qed.

(** A SET with options does what [spec_set] says, or is refused for memory. *)
Lemma SetWithOptions_run k v o : (oGet o = true → is_list V k = false) → b + KeyPack.KeyRecordSize k ≤ maxLogBytes →
  ∃ r s' A', SetWithOptions maphash growslice lib s k v o now = Ret (r, s') ∧ fine s' A' (n + 1) (b + KeyPack.KeyRecordSize k) ∧ same_config s s' ∧
    (reply_answer (fun r => ASet r.1 r.2) r = (spec_set V now k v o).1 ∧ view now A' = view now (spec_set V now k v o).2 ∨
     r = Fail ErrOOM ∧ view now A' = V ∧ 0 < m_max (memory s)).
Proof using Hf Hcap Hn Hnow.
  intros Hg Hb. pose proof (KeyRecordSize_bounds k) as Hk. unfold SetWithOptions, spec_set, too_large.
  assert (Hweak : ∀ s1 A1, fine s1 A1 n b → fine s1 A1 (n + 1) (b + KeyPack.KeyRecordSize k)) by (intros s1 A1; apply fine_mono; lia).
  assert (HVV : V = view now V) by (unfold V; by rewrite view_idem).
  destruct (Z.ltb_spec maxValueBytes (zlen v)) as [|Hv]; [exists (Fail errTooLarge), s, A; split_and!; try done; [by apply Hweak|by left]|].
  destruct (invalid_options o); [eexists _, s, A; split_and!; try done; [by apply Hweak|by left]|].
  destruct (opened k) as (e & e' & s1 & A1 & -> & E & Hf1 & Hc1 & HV1 & Hfd & Hl1). rewrite res_bind_ret, E, res_bind_ret.
  destruct (set_reads s1 k o e' Hg Hfd) as (-> & Hat & ->). rewrite res_bind_ret. cbv zeta. set (prev := if oGet o then value_of V k else None).
  destruct (_ || _); [eexists _, s1, A1; split_and!; try done; [by apply Hweak|left; split; [done|by rewrite HV1]]|].
  destruct (store_value maphash growslice lib Hcap s1 A1 n b k v now Hf1 Hn Hb Hv) as (pe & -> & _ & _ & Hput). rewrite res_bind_ret, Hat, res_bind_ret.
  destruct (Hput (set_deadline k o)) as (r & s' & -> & Hp). rewrite res_bind_ret. destruct Hp as [(-> & Hf' & Hc')|(-> & -> & Hm)].
  2: { eexists _, s1, A1. split_and!; try done; [by apply Hweak|right]. split_and!; try done. by rewrite <- (sc_max _ _ Hc1). }
  assert (Hc2 : same_config s s') by (by eapply same_config_trans). pose proof (set_deadline_spec k o) as Hds.
  assert (Hins : ∀ d, view now (<[k := (VStr v, d)]> A1) = view now (<[k := (VStr v, d)]> V)) by (intros d; apply view_insert; by rewrite HV1).
  destruct (oExpireAt o) as [t|] eqn:Et; [destruct (Z.leb_spec t now) as [Ht|Ht]|].
  - destruct (remove_fine maphash growslice lib s' _ _ _ k now Hf') as (s2 & -> & Hf2 & Hc3). rewrite res_bind_ret.
    eexists _, s2, _. split_and!; [done|exact Hf2|by eapply same_config_trans|]. left. split; [done|]. cbn [snd].
    rewrite delete_insert_eq, !view_delete, HV1. unfold V. by rewrite view_idem.
  - rewrite res_bind_ret. eexists _, s', _. split_and!; [done|exact Hf'|done|]. left. split; [done|]. cbn [snd].
    rewrite Hds by (intros ? [= <-]; lia). apply Hins.
  - rewrite res_bind_ret. eexists _, s', _. split_and!; [done|exact Hf'|done|]. left. split; [done|]. cbn [snd]. rewrite Hds by done. apply Hins.
Qed.

Lemma SetOptions_ok k v o : (oGet o = true → is_list V k = false) → b + cost (CSetOptions k v o) ≤ maxLogBytes → outcome s A n b now (CSetOptions k v o) (exec s now (CSetOptions k v o)).
Proof using Hf Hcap Hn Hnow.
  intros Hg Hb. assert (Hsp : spec V now (CSetOptions k v o) = spec_set V now k v o) by (cbn; destruct (oGet o); [by apply on_string_spec, Hg|done]).
  unfold exec, on. destruct (SetWithOptions_run k v o Hg Hb) as (r & s' & A' & -> & Hf' & Hc & Hr). rewrite res_bind_ret.
  eexists _, s', A'. split_and!; try done. destruct Hr as [[-> HV']|(-> & HV' & Hm)]; [by apply permits_spec; rewrite ?Hsp|]. fold V. by apply permits_oom.
Qed.

Lemma SetMs_ok k v ttl : b + cost (CSetMs k v ttl) ≤ maxLogBytes → outcome s A n b now (CSetMs k v ttl) (exec s now (CSetMs k v ttl)).
Proof using Hf Hcap Hn Hnow.
  intros Hb. unfold exec, on, Set_ms. assert (Hsp : spec V now (CSetMs k v ttl) = if (ttl <? 0) || (MaxInt64 / Millisecond <? ttl) then (AError "ttl out of range", V)
      else if too_large v then (AError errTooLarge, V) else (ADone, <[k := (VStr v, if ttl =? 0 then 0 else ms now + ttl)]> V)) by done.
  destruct (_ || _) eqn:Ettl; [rewrite res_bind_ret; by apply (unchanged _ _ _ A)|]. rewrite orb_false_iff, !Z.ltb_ge in Ettl. destruct Ettl as [H0 _].
  unfold SetWithTTL, SetConditional. set (o := mkSetOptions false false false false (ttl * Millisecond) None).
  destruct (SetWithOptions_run k v o ltac:(done) Hb) as (r & s' & A' & -> & Hf' & Hc & Hr). rewrite !res_bind_ret. eexists _, s', A'. split_and!; try done. fold V.
  destruct Hr as [[Ha HV']|(-> & HV' & Hm)]; [|by apply permits_oom].
  assert (Hset : spec_set V now k v o = if too_large v then (AError errTooLarge, V) else (ASet true None, <[k := (VStr v, if ttl =? 0 then 0 else ms now + ttl)]> V)).
  { unfold spec_set, invalid_options. cbn. rewrite (proj2 (Z.ltb_ge (ttl * Millisecond) 0)) by (unfold Millisecond; lia). rewrite andb_false_r. cbn.
    destruct (too_large v); [done|]. do 3 f_equal. unfold ms. destruct (Z.eqb_spec ttl 0) as [->|]; [done|].
    rewrite (proj2 (Z.ltb_lt 0 (ttl * Millisecond))) by (unfold Millisecond; lia). by rewrite Z.div_add by done. }
  rewrite Hset in Ha, HV'. apply permits_spec; [done| |]; rewrite Hsp; destruct (too_large v); try done; destruct r as [[? ?]|e]; cbn in Ha |- *; congruence.
Qed.
(** ** The guard *)

(** The key a guarded command reads a string of. *)
Definition reads_string (c : command) : option (list byte) :=
  match c with
  | CSetOptions k _ o => if oGet o then Some k else None
  | CGetSet k _ | CGet k | CAdd k _ | CSub k _ | CAppend k _ | CGetRange k _ _ | CSetRange k _ _ | CGetEx k _ _ => Some k
  | _ => None
  end.

Lemma request_keys c : guarded_keys (request c) = Ret (option_list (reads_string c)).
Proof. destruct c; try reflexivity. cbn [request reads_string]. by destruct (oGet o). Qed.

Lemma container_key k : nativeContainerKey maphash s k now = Ret (is_list V k).
Proof using Hf Hcap.
  unfold nativeContainerKey, ValueTypeOf. destruct (live_entry_ok maphash lib Hcap s A n b k now Hf) as (o & -> & Ho). rewrite !res_bind_ret. f_equal.
  unfold finds, is_list in *. fold V in Ho. destruct (V !! k) as [[v d]|]; [destruct Ho as (e & -> & Hr)|by subst o]. cbn [option_map].
  pose proof (ra_type _ _ _ _ _ _ _ Hr) as Ht. destruct v as [v|L]; cbn [vtype] in Ht; [|by rewrite Ht].
  unfold isNativeContainerValueType, TypeBytes, TypeHash, TypeSet, TypeList, TypeZSet in *.
  repeat match goal with |- context [?t =? ?x] => rewrite (proj2 (Z.eqb_neq t x)) by lia end. done.
Qed.

Lemma guard_ok c r : guarded maphash s now (request c) r =
  if from_option (is_list V) false (reads_string c) then Ret (AError errWrongType, s) else r.
Proof using Hf Hcap.
  unfold guarded, validateLegacyScalarTypes. rewrite request_keys, res_bind_ret. destruct (reads_string c) as [k|]; [|done]. change (option_list (Some k)) with [k]. cbn [any_container].
  rewrite container_key, !res_bind_ret. cbn [from_option]. by destruct (is_list V k).
Qed.

(** A refused command answers an error, as it should. *)
Lemma refused_spec c : from_option (is_list V) false (reads_string c) = true → determined c = true ∧ spec V now c = (AError errWrongType, V).
Proof.
  destruct c; cbn [reads_string from_option]; intros H; try discriminate H; (split; [done|]); cbn [spec]; [destruct (oGet o); [|discriminate H]|..];
    cbn [from_option] in H; unfold on_string; by rewrite H.
Qed.
End Step.
End Refines.
