(* ===== verification/ListRefines.v ===== *)
(** * The list commands implement their specification

    One lemma per command, as for the strings: no panic, the invariant is kept,
    and the answer and the items are permitted. *)
From S2P Require Import Prelude Numerals Slices Arena KeyPack KeyPackFacts Table CodecFacts Codec Registry RegistrySpec Entry Expiry Shard ShardFacts.
From S2P Require Import ListPack ListFacts ListIndexed ListOps ListCold Values Engine EngineFacts StoreFacts Commands Guard ListCommands ListSpec ListBytes.
From S2P Require Import CommandFacts ListStore StoreSpec StoreRefines.
Set Default Proof Using "Type".

Section ListRefines.
Context (maphash : list byte → Z) (growslice : Z → Z → Z) (lib : Library) `{P : Peers}.
Context (Hcap : cap_bounds (DecodeAll lib)).

Local Abbreviation fine := (fine maphash lib).
Local Abbreviation exec := (exec_store maphash growslice lib).
Local Abbreviation reads_as := (reads_as maphash lib).
Local Abbreviation outcome := (outcome maphash lib).

Section Step.
Context {s : Store} {A : items} {n b now : Z} (Hf : fine s A n b) (Hn : n ≤ refSegmentMask) (Hnow : Millisecond ≤ now).
Let V := view now A.

(** ** Reads *)

(** What a read of a list gives, when [f] reads [g] off the bytes. *)
Lemma read_list_ok {X} k (missing : X) f (g : elements → X) : (∀ data L, list_bytes data L → f data = Ret (g L)) →
  read_list maphash s k now missing f = Ret match V !! k with
                                            | None => Ok missing
                                            | Some (VStr _, _) => Fail listWrongType
                                            | Some (VList L, _) => Ok (g L)
                                            end.
Proof using Hf Hcap.
  intros Hg. unfold read_list. destruct (live_entry_ok maphash lib Hcap s A n b k now Hf) as (o & -> & Ho). rewrite res_bind_ret. unfold finds in Ho. fold V in Ho.
  destruct (V !! k) as [[v d]|]; [destruct Ho as (e & -> & Hr)|by subst o]. rewrite (list_entry maphash lib s k e v d Hr).
  destruct v as [v|L]; cbn [container negb]; [done|]. destruct (list_data_ok maphash lib s k e L d Hr) as (data & -> & Hb). by rewrite res_bind_ret, (Hg data L Hb).
Qed.

Lemma read_outcome {X} c k (missing : X) f (g : elements → X) (h : X → answer) : determined c = true →
  spec V now c = on_list V k (h missing) (fun L _ => (h (g L), V)) → (∀ data L, list_bytes data L → f data = Ret (g L)) →
  outcome s A n b now c (pure (reply_answer h) s (read_list maphash s k now missing f)).
Proof using Hf Hcap.
  intros Hd Hsp Hg. unfold pure. rewrite (read_list_ok k missing f g Hg), res_bind_ret. unfold on_list in Hsp.
  destruct (V !! k) as [[[v|L] d]|]; by apply (unchanged _ _ (A := A) (now := now) _ _ _ A).
Qed.

Lemma ListLen_ok k : outcome s A n b now (CListLen k) (exec s now (CListLen k)).
Proof using Hf Hcap. apply (read_outcome _ k _ _ zlen); [done|done|apply bytes_length]. Qed.

Lemma ListIndex_ok k i : outcome s A n b now (CListIndex k i) (exec s now (CListIndex k i)).
Proof using Hf Hcap. apply (read_outcome _ k _ _ (fun L => element_at L i)); [done|done|]. intros data L. apply bytes_element. Qed.

Lemma ListRange_ok k x y : outcome s A n b now (CListRange k x y) (exec s now (CListRange k x y)).
Proof using Hf Hcap. apply (read_outcome _ k _ _ (fun L => spec_range L x y)); [done|done|]. intros data L. apply bytes_slice. Qed.

Lemma ListPos_ok k v rank count maxLen withCount : command_ok (CListPos k v rank count maxLen withCount) →
  outcome s A n b now (CListPos k v rank count maxLen withCount) (exec s now (CListPos k v rank count maxLen withCount)).
Proof using Hf Hcap.
  intros [Hr H0]. apply (read_outcome _ k _ _ (fun L => spec_pos L v rank count maxLen withCount)); [done|done|].
  intros data L Hb. rewrite (bytes_elements data L Hb), res_bind_ret, list_positions_spec; [done| |done]. unfold int64, MinInt64, MaxInt64 in Hr. lia.
Qed.
(** ** Updates *)

(** The list [L] of [k] with its entry [e], in the store [s1] left by opening [k]. *)
Record at_list (s1 : Store) (A1 : items) (k : list byte) (e : entry) (L : elements) (d : Z) : Prop := {
  al_fine : fine s1 A1 n b;
  al_config : same_config s s1;
  al_view : view now A1 = V;
  al_item : V !! k = Some (VList L, d);
  al_reads : reads_as s1 k e (VList L) d;
  al_lookup : lookup_key maphash s1 k = Ret (Some e);
  al_some : L ≠ [];
}.

Lemma al_here {s1 A1 k e L d} : at_list s1 A1 k e L d → A1 !! k = Some (VList L, d).
Proof. intros H. pose proof (al_item _ _ _ _ _ _ H) as Hi. rewrite <- (al_view _ _ _ _ _ _ H) in Hi. by apply view_some in Hi as [? _]. Qed.

(** A command on the list of [k] is judged on the list it finds. *)
Lemma opened_list {X} c k (h : X → answer) (g : Store → option entry → res (reply X * Store)) : determined c = true →
  (∀ v d, V !! k = Some (VStr v, d) → spec V now c = (AError errWrongType, V)) →
  (∀ s1 A1, fine s1 A1 n b → same_config s s1 → view now A1 = V → V !! k = None → outcome s A n b now c (on (reply_answer h) (g s1 None))) →
  (∀ s1 e, is_list_entry e = false → g s1 (Some e) = Ret (Fail listWrongType, s1)) →
  (∀ s1 A1 e L d, at_list s1 A1 k e L d → outcome s A n b now c (on (reply_answer h) (g s1 (Some e)))) →
  outcome s A n b now c (on (reply_answer h) (o ← lookup_key maphash s k; '(o, s) ← drop_expired maphash growslice s k o now; g s o)).
Proof using Hf Hcap.
  intros Hd Hsp H1 H2 H3. destruct (opened maphash growslice lib Hcap (now := now) Hf k) as (o & o' & s1 & A1 & -> & E & Hf1 & Hc1 & HV1 & Hfd & Hl1).
  rewrite res_bind_ret, E, res_bind_ret. unfold CommandFacts.finds in Hfd. fold V in Hfd, HV1. destruct (V !! k) as [[v d]|] eqn:HV; [|subst o'; by apply (H1 _ A1)].
  destruct Hfd as (e & -> & Hr). destruct v as [v|L].
  - rewrite H2 by apply (list_entry maphash lib _ _ _ _ _ Hr). apply (refused maphash lib _ _ s1 A1); try done. by eapply Hsp.
  - apply (H3 _ A1 _ L d). split; try done. apply (fi_sized _ _ _ _ _ _ Hf k (VList L) d). by apply view_some in HV as [? _].
Qed.

Lemma updated {X} c k (h : X → answer) (missing : reply X) sp g : determined c = true → spec V now c = on_list V k (reply_answer h missing) sp →
  (∀ s1 A1 e L d, at_list s1 A1 k e L d → spec V now c = sp L d → outcome s A n b now c (on (reply_answer h) (g s1 e L))) →
  outcome s A n b now c (on (reply_answer h) (update_list maphash growslice s k now missing g)).
Proof using Hf Hcap.
  intros Hd Hsp Hg. unfold update_list. apply (opened_list c k h); [done|intros v d HV; rewrite Hsp; unfold on_list; by rewrite HV| | |].
  - intros s1 A1 Hf1 Hc1 HV1 HV. apply (unchanged _ _ _ _ _ A1); try done. etrans; [exact Hsp|]. unfold on_list. by rewrite HV.
  - by intros s1 e ->.
  - intros s1 A1 e L d H. pose proof (al_reads _ _ _ _ _ _ H) as Hr. rewrite (list_entry maphash lib _ _ _ _ _ Hr). cbn [container negb].
    destruct (list_data_ok maphash lib _ _ _ _ _ Hr) as (data & -> & Hb). rewrite res_bind_ret, (bytes_elements _ _ Hb). cbn [attempt].
    apply (Hg _ A1 _ _ d H). rewrite Hsp. unfold on_list. by rewrite (al_item _ _ _ _ _ _ H).
Qed.

(** ** Storing a list *)

Lemma limited {X} c s1 A1 (h : X → answer) : determined c = true → fine s1 A1 n b → same_config s s1 → view now A1 = V → oversized V now c →
  outcome s A n b now c (on (reply_answer h) (Ret (Fail errListLimit, s1))).
Proof.
  intros Hd Hf1 Hc HV Ho. exists (AError errListLimit), s1, A1. pose proof (cost_nonneg c). split_and!; [done|eapply fine_mono; [..|done]; lia|done|].
  apply permits_limit; [done|by rewrite HV|done].
Qed.

Lemma stored {X} c k data L d x s1 A1 (h : X → answer) : determined c = true → stores c = Some k → b + cost c ≤ maxLogBytes →
  fine s1 A1 n b → same_config s s1 → view now A1 = V → list_bytes data L → L ≠ [] → spec V now c = (h x, put_list V k L d) →
  outcome s A n b now c (on (reply_answer h) (publish_list maphash growslice s1 k data d now x)).
Proof using Hcap Hn.
  intros Hd Hst Hb Hf1 Hc HV Hl Hne Hsp. unfold cost in Hb. rewrite Hst in Hb.
  destruct (publish_list_ok maphash growslice lib Hcap s1 A1 n b k data L d now x Hf1 Hn Hb Hl Hne) as (r & s' & -> & Hp).
  apply (published_outcome maphash lib h x c k (VList L, d) s1 A1); try done. etrans; [exact Hsp|]. by destruct L.
Qed.

Lemma oversized_list c k L d a : stores c = Some k → spec V now c = (a, put_list V k L d) → L ≠ [] → roomy L = false → oversized V now c.
Proof.
  intros Hst Hsp Hne Hr. left. exists k, L, d. split_and!; [done| |done]. rewrite Hsp. destruct L; [done|]. apply lookup_insert_eq.
Qed.

Lemma not_roomy L : packs L = false → roomy L = false.
Proof. intros H. destruct (roomy L) eqn:E; [|done]. by rewrite (roomy_packs _ E) in H. Qed.

Lemma packed_outcome {X} c k L d x s1 A1 (h : X → answer) : determined c = true → stores c = Some k → b + cost c ≤ maxLogBytes →
  fine s1 A1 n b → same_config s s1 → view now A1 = V → L ≠ [] → spec V now c = (h x, put_list V k L d) →
  outcome s A n b now c (on (reply_answer h) (store_packed maphash growslice s1 k L d now x)).
Proof using Hcap Hn.
  intros Hd Hst Hb Hf1 Hc HV Hne Hsp. unfold store_packed. rewrite encodePackedList_eq. destruct (packs L) eqn:E; cbn [attempt].
  - apply (stored _ _ _ L _ _ _ A1); try done. by apply packed_bytes.
  - apply (limited _ _ A1); try done. eapply oversized_list; try done. by apply not_roomy.
Qed.

(** The list found becomes [L']. *)
Lemma replaced {X} c k e L d L' x s1 A1 (h : X → answer) : determined c = true → stores c = Some k → b + cost c ≤ maxLogBytes →
  at_list s1 A1 k e L d → L' ≠ [] → spec V now c = (h x, put_list V k L' d) →
  outcome s A n b now c (on (reply_answer h) (replace_list maphash growslice s1 k e L' now x)).
Proof using Hcap Hn.
  intros Hd Hst Hb H Hne Hsp.
  assert (E : replace_list maphash growslice s1 k e L' now x = store_packed maphash growslice s1 k L' d now x).
  { unfold replace_list, store_packed. rewrite (ra_at _ _ _ _ _ _ _ (al_reads _ _ _ _ _ _ H)). done. }
  rewrite E. apply (packed_outcome _ _ _ _ _ _ A1); try done; apply H.
Qed.

(** The list found is removed. *)
Lemma emptied {X} c k e L d x s1 A1 (h : X → answer) : determined c = true → at_list s1 A1 k e L d → spec V now c = (h x, delete k V) →
  outcome s A n b now c (on (reply_answer h) (s2 ← remove maphash growslice s1 (shardFor maphash s1 k) k now; Ret (Ok x, s2))).
Proof.
  intros Hd H Hsp. destruct (removed maphash growslice lib (A := A) k s1 A1 c (h x) (al_fine _ _ _ _ _ _ H) (al_config _ _ _ _ _ _ H) (al_view _ _ _ _ _ _ H) Hd Hsp) as (s' & -> & Ho).
  rewrite res_bind_ret. exact Ho.
Qed.

(** The list found is kept. *)
Lemma kept {X} c k e L d r s1 A1 (h : X → answer) : determined c = true → at_list s1 A1 k e L d → spec V now c = (reply_answer h r, V) →
  outcome s A n b now c (on (reply_answer h) (Ret (r, s1))).
Proof. intros Hd H Hsp. apply (unchanged _ _ _ _ _ A1); try done; apply H. Qed.

Lemma put_same k L d : V !! k = Some (VList L, d) → L ≠ [] → put_list V k L d = V.
Proof. intros HV Hne. destruct L; [done|]. by apply insert_id. Qed.
(** ** Commands that rewrite the list *)

Lemma spec_push_some lft vs L : L ≠ [] → spec_push lft vs L ≠ [].
Proof. rewrite <- pushed_spec. unfold pushed. intros H E. destruct lft; apply app_eq_nil in E as [? ?]; done. Qed.

Lemma PushX_ok k vs lft : b + cost (CPushX k vs lft) ≤ maxLogBytes → outcome s A n b now (CPushX k vs lft) (exec s now (CPushX k vs lft)).
Proof using Hf Hcap Hn.
  intros Hb. unfold exec, listPushX. assert (Hsp : spec V now (CPushX k vs lft) = if zlen vs =? 0 then (AError errListCount, V) else on_list V k (AInt 0) (spec_pushed V k vs lft)) by done.
  destruct (zlen vs =? 0); [by apply (refused maphash lib _ _ s A)|]. apply (updated _ _ _ _ (spec_pushed V k vs lft)); [done|done|].
  intros s1 A1 e L d H Hs. cbv zeta. rewrite pushed_spec. apply (replaced _ _ _ L d _ _ _ A1); try done. by apply spec_push_some, H.
Qed.

Lemma ListSet_ok k i v : b + cost (CListSet k i v) ≤ maxLogBytes → outcome s A n b now (CListSet k i v) (exec s now (CListSet k i v)).
Proof using Hf Hcap Hn.
  intros Hb. unfold exec, ListSet. apply (updated _ _ _ _ (spec_lset V k i v)); [done|done|]. intros s1 A1 e L d H. unfold spec_lset. cbv zeta.
  set (j := if i <? 0 then _ else _). destruct (Z.ltb_spec j 0) as [Hj|Hj]; cbn [orb].
  { rewrite (proj2 (Z.leb_gt 0 j)) by done. intros Hs. by apply (kept _ k e L d _ _ A1). }
  rewrite (proj2 (Z.leb_le 0 j)) by done. cbn [andb]. destruct (Z.leb_spec (zlen L) j) as [Hl|Hl]; [rewrite (proj2 (Z.ltb_ge _ _)) by done|rewrite (proj2 (Z.ltb_lt _ _)) by done]; intros Hs.
  { by apply (kept _ k e L d _ _ A1). }
  rewrite zupd_Some by lia. cbn [or_panic]. rewrite res_bind_ret. apply (replaced _ _ _ L d _ _ _ A1); try done.
  intros E. apply (al_some _ _ _ _ _ _ H). apply length_zero_iff_nil. by rewrite <- (length_insert L (Z.to_nat j) v), E.
Qed.

Lemma ListTrim_ok k x y : b + cost (CListTrim k x y) ≤ maxLogBytes → outcome s A n b now (CListTrim k x y) (exec s now (CListTrim k x y)).
Proof using Hf Hcap Hn.
  intros Hb. unfold exec, ListTrim. apply (updated _ _ _ _ (fun L d => (ADone, put_list V k (spec_range L x y) d))); [done|done|]. intros s1 A1 e L d H Hs.
  rewrite <- list_range_spec in Hs. unfold list_range in Hs. destruct (normalizeListRange (zlen L) x y) as [[lo hi]|] eqn:E; [|by apply (emptied _ k e L d _ _ A1)].
  pose proof (normalize_bounds _ _ _ _ _ E). rewrite zslice_Some by lia. cbn [or_panic]. rewrite res_bind_ret. replace (hi + 1 - lo) with (hi - lo + 1) by lia.
  apply (replaced _ _ _ L d _ _ _ A1); try done. intros En. apply (f_equal length) in En. rewrite length_take, length_drop in En. unfold zlen in *. cbn in En. lia.
Qed.

Lemma ListRem_ok k count v : b + cost (CListRem k count v) ≤ maxLogBytes → outcome s A n b now (CListRem k count v) (exec s now (CListRem k count v)).
Proof using Hf Hcap Hn.
  intros Hb. unfold exec, ListRemove.
  apply (updated _ _ _ _ (fun L d => let kept := spec_rem count v L in (AInt (zlen L - zlen kept), put_list V k kept d))); [done|done|].
  intros s1 A1 e L d H Hs. cbv zeta in Hs. destruct (list_data_ok maphash lib _ _ _ _ _ (al_reads _ _ _ _ _ _ H)) as (data & _ & Hd). pose proof (bytes_bounds _ _ Hd) as [_ Hmax].
  change maxPackedListBytes with (2 ^ 25) in Hmax. rewrite remove_matches_spec by lia. set (L' := spec_rem count v L) in *.
  destruct (Z.eqb_spec (zlen L - zlen L') 0) as [E0|E0].
  { apply (kept _ k e L d _ _ A1); try done. rewrite Hs. assert (L' = L) as -> by (by apply spec_rem_all, Z.sub_move_0_r).
    rewrite put_same by (by apply H). cbn. do 2 f_equal. lia. }
  destruct (Z.eqb_spec (zlen L - zlen L') (zlen L)) as [E1|E1].
  { apply (emptied _ k e L d _ _ A1); try done. rewrite Hs. assert (L' = []) as -> by (apply length_zero_iff_nil; unfold zlen in *; lia). done. }
  apply (replaced _ _ _ L d _ _ _ A1); try done. intros En. rewrite En in E1. change (zlen (@nil (list byte))) with 0 in E1. lia.
Qed.

Lemma ListInsert_ok k before pivot v : b + cost (CListInsert k before pivot v) ≤ maxLogBytes →
  outcome s A n b now (CListInsert k before pivot v) (exec s now (CListInsert k before pivot v)).
Proof using Hf Hcap Hn.
  intros Hb. unfold exec, ListInsert.
  apply (updated _ _ _ _ (fun L d => if bool_decide (pivot ∈ L) then (AInt (zlen L + 1), put_list V k (spec_insert before pivot v L) d) else (AInt (-1), V))); [done|done|].
  intros s1 A1 e L d H Hs. pose proof (pivot_index_spec pivot L 0) as Hp. destruct (pivot_index 0 pivot L) as [i|].
  2: { rewrite bool_decide_false in Hs by done. by apply (kept _ k e L d _ _ A1). }
  destruct Hp as (Hin & Hi & Hins). specialize (Hins before v). rewrite !Z.sub_0_r in Hins. cbv zeta in Hins |- *.
  rewrite bool_decide_true, <- (spec_insert_len before pivot v L) in Hs by done. set (at' := if before then i else i + 1) in *.
  assert (0 ≤ at' ≤ zlen L) by (unfold at'; destruct before; lia). rewrite !zslice_Some by lia. cbn [or_panic]. rewrite !res_bind_ret, Z.sub_0_r.
  change (drop (Z.to_nat 0) L) with L. rewrite (take_ge (drop _ _)) by (rewrite length_drop; unfold zlen in *; lia). rewrite <- Hins.
  apply (replaced _ _ _ L d _ _ _ A1); try done. rewrite Hins. intros E. apply app_eq_nil in E as [_ E]. done.
Qed.

Lemma ListReplace_ok k vs : b + cost (CListReplace k vs) ≤ maxLogBytes → outcome s A n b now (CListReplace k vs) (exec s now (CListReplace k vs)).
Proof using Hf Hcap Hn.
  intros Hb. unfold exec, ListReplace. assert (Hsp : spec V now (CListReplace k vs) = (ADone, put_list V k vs 0)) by done. destruct vs as [|v vs].
  - destruct (removed maphash growslice lib (A := A) k s A (CListReplace k []) ADone Hf (same_config_refl s) eq_refl eq_refl Hsp) as (s' & E & Ho).
    change (zlen (@nil (list byte)) =? 0) with true. cbn match. rewrite E, res_bind_ret. exact Ho.
  - rewrite (proj2 (Z.eqb_neq _ _)) by (rewrite zlen_cons; pose proof (zlen_nonneg vs); lia). by apply (packed_outcome _ _ _ _ _ _ A).
Qed.
(** ** Pushes and pops *)

(** The block of the list is overwritten. *)
Lemma written {X} c k e L d data data' L' x s1 A1 (h : X → answer) : determined c = true → at_list s1 A1 k e L d → list_data maphash s1 k e = Ret data →
  zlen data' = zlen data → list_bytes data' L' → L' ≠ [] → spec V now c = (h x, put_list V k L' d) →
  outcome s A n b now c (on (reply_answer h) (s2 ← write_list maphash s1 k e data'; Ret (Ok x, s2))).
Proof.
  intros Hd H Hdata Hlen Hb Hne Hsp.
  destruct (write_list_ok maphash lib s1 A1 n b k e L d data data' L' (al_fine _ _ _ _ _ _ H) (al_here H) (al_lookup _ _ _ _ _ _ H) Hdata Hlen Hb Hne) as (s' & -> & Hf' & Hc').
  rewrite res_bind_ret. apply (changed maphash lib _ _ _ (<[k := (VList L', d)]> A1) (<[k := (VList L', d)]> V)); try done.
  - eapply same_config_trans; [apply H|done].
  - etrans; [exact Hsp|]. by destruct L'.
  - apply view_insert. rewrite (al_view _ _ _ _ _ _ H). unfold V. by rewrite view_idem.
Qed.

Lemma pop_elements_ok k count lft s1 A1 e L d : b + cost (CPop k count lft) ≤ maxLogBytes → 0 ≤ count → at_list s1 A1 k e L d →
  outcome s A n b now (CPop k count lft) (on (reply_answer AList) (pop_elements maphash growslice s1 k e count lft now)).
Proof using Hf Hcap Hn.
  intros Hb Hc H. assert (Hs : spec V now (CPop k count lft) = let '(out, rest) := popped lft count L in (AList out, put_list V k rest d)).
  { cbn [spec]. rewrite (proj2 (Z.ltb_ge _ _)) by done. unfold on_list. by rewrite (al_item _ _ _ _ _ _ H), popped_spec. }
  unfold pop_elements. destruct (list_data_ok maphash lib _ _ _ _ _ (al_reads _ _ _ _ _ _ H)) as (data & -> & Hd). rewrite res_bind_ret, (bytes_elements _ _ Hd). cbn [attempt].
  destruct (Z.eqb_spec count 0) as [->|Hc0].
  { apply (kept _ k e L d _ _ A1); try done. rewrite Hs, popped_spec by done. unfold spec_pop. destruct lft; cbn; rewrite ?drop_0, ?rev_involutive, put_same; done || apply H. }
  destruct (popped lft count L) as [out rest]. destruct (Z.eqb_spec (zlen rest) 0) as [E|E].
  - apply (emptied _ k e L d _ _ A1); try done. rewrite Hs. assert (rest = []) as -> by (apply length_zero_iff_nil; unfold zlen in *; lia). done.
  - apply (replaced _ _ _ L d _ _ _ A1); try done. by intros ->.
Qed.

Lemma ListPop_ok k count lft : b + cost (CPop k count lft) ≤ maxLogBytes → outcome s A n b now (CPop k count lft) (exec s now (CPop k count lft)).
Proof using Hf Hcap Hn.
  intros Hb. assert (Hsp : spec V now (CPop k count lft) = if count <? 0 then (AError "ERR count must be non-negative", V)
    else on_list V k (AList []) (fun L d => let '(out, rest) := spec_pop lft count L in (AList out, put_list V k rest d))) by done.
  unfold exec, listPop. destruct (Z.ltb_spec count 0) as [|Hc]; [by apply (refused maphash lib _ _ s A)|]. apply (opened_list _ k AList); [done| | | |].
  - intros v d HV. rewrite Hsp. unfold on_list. by rewrite HV.
  - intros s1 A1 Hf1 Hc1 HV1 HV. apply (unchanged _ _ _ _ _ A1); try done. etrans; [exact Hsp|]. unfold on_list. by rewrite HV.
  - by intros s1 e ->.
  - intros s1 A1 e L d H. unfold on_list in Hsp. rewrite (al_item _ _ _ _ _ _ H) in Hsp. pose proof (al_reads _ _ _ _ _ _ H) as Hr.
    rewrite (list_entry maphash lib _ _ _ _ _ Hr). cbn [container negb]. pose proof (pop_elements_ok k count lft s1 A1 e L d Hb Hc H) as Hslow.
    destruct (list_data_ok maphash lib _ _ _ _ _ Hr) as (data & Ed & Hd). rewrite Ed. destruct (0 <? count); [|exact Hslow]. rewrite res_bind_ret.
    destruct (isIndexedList data) eqn:Ei; [|exact Hslow]. destruct Hd as [[-> _]|[Hi|[-> Hk]]]; [by rewrite (proj1 (packed_is L)) in Ei| |by rewrite (proj2 (cold_is Hk)) in Ei].
    destruct Hi as (w & cap & ss & gap & rest & tail & Hi & -> & ->). destruct (indexedListPop_ok Hi count lft) as [->|(H16 & H0 & data' & Hl & Hp)]; [exact Hslow|].
    rewrite <- popped_spec in Hsp by done. unfold popped in Hsp. cbv zeta in Hsp. rewrite zlen_values, (proj2 (Z.ltb_ge (zlen ss) count)) in Hsp by lia.
    destruct lft; destruct Hp as [-> Hp]; rewrite res_bind_ret; (eapply (written _ k e _ d _ data'); [done|exact H|exact Ed|exact Hl|right; left; exact Hp| |exact Hsp]);
      intros E; apply (f_equal length) in E; rewrite ?length_drop, ?length_take, length_fmap in E; unfold zlen in *; cbn in E; lia.
Qed.
Lemma store_pushed_ok c k L d s1 A1 : determined c = true → stores c = Some k → b + cost c ≤ maxLogBytes →
  fine s1 A1 n b → same_config s s1 → view now A1 = V → L ≠ [] → zlen (records L) < 2 ^ 40 → spec V now c = (AInt (zlen L), put_list V k L d) →
  outcome s A n b now c (on (reply_answer AInt) (store_pushed maphash growslice s1 k L d now)).
Proof using Hcap Hn.
  intros Hd Hst Hb Hf1 Hc HV Hne Hm Hsp. unfold store_pushed.
  destruct (indexedListPromoteElements <=? zlen L); [|by apply (packed_outcome _ _ _ _ _ _ A1)].
  destruct (encodeIndexedList_total L Hne Hm) as [(data & -> & Hl)|[-> Hr]]; cbn [attempt].
  - by apply (stored _ _ _ L _ _ _ A1).
  - apply (limited _ _ A1); try done. by eapply oversized_list.
Qed.
Lemma records_rev (l : elements) : zlen (records (rev l)) = zlen (records l).
Proof. induction l as [|v l IH]; [done|]. cbn [rev]. rewrite records_app, zlen_app, IH, (records_cons v l), zlen_app, records_cons, app_nil_r. lia. Qed.

Lemma pushed_size lft vs L : zlen (records vs) < 2 ^ 39 → zlen (records L) ≤ maxPackedListBytes → zlen (records (pushed lft vs L)) < 2 ^ 40.
Proof.
  change maxPackedListBytes with (2 ^ 25). unfold pushed. intros Hv HL. destruct lft; rewrite records_app, zlen_app, ?records_rev; lia.
Qed.

Lemma pushed_some lft vs L : vs ≠ [] → pushed lft vs L ≠ [].
Proof. unfold pushed. intros Hv E. destruct lft; apply app_eq_nil in E as [E1 E2]; [|done]. apply Hv, length_zero_iff_nil. rewrite <- length_rev, E1. done. Qed.

Section Push.
Context {k : list byte} {vs : elements} {lft : bool} (Hvs : vs ≠ []) (Hsz : zlen (records vs) < 2 ^ 39) (Hb : b + cost (CPush k vs lft) ≤ maxLogBytes).

(** The elements with the new ones are stored. *)
Lemma push_rebuilt s1 A1 e L d data : at_list s1 A1 k e L d → list_bytes data L → spec V now (CPush k vs lft) = spec_pushed V k vs lft L d →
  outcome s A n b now (CPush k vs lft) (on (reply_answer AInt) (store_pushed maphash growslice s1 k (pushed lft vs L) d now)).
Proof using Hvs Hsz Hb Hcap Hn.
  intros H Hd Hsp. unfold spec_pushed in Hsp. rewrite <- pushed_spec in Hsp.
  apply (store_pushed_ok _ _ _ _ _ A1); try done; [apply H..|by apply pushed_some|by apply pushed_size, (bytes_records data)].
Qed.

(** RPUSH on an indexed list. *)
Lemma push_indexed s1 A1 e L d data : lft = false → at_list s1 A1 k e L d → indexed data L → list_data maphash s1 k e = Ret data →
  spec V now (CPush k vs lft) = (AInt (zlen (L ++ vs)), put_list V k (L ++ vs) d) →
  outcome s A n b now (CPush k vs lft) (on (reply_answer AInt) (attempt s1 (indexedListAppend data vs) (fun '(length, rebuilt, data) =>
    match rebuilt with
    | None => s2 ← write_list maphash s1 k e data; Ret (Ok length, s2)
    | Some out => publish_list maphash growslice s1 k out d now length
    end))).
Proof using Hvs Hsz Hb Hcap Hn.
  intros -> H (w & cap & ss & gap & rest & tail & Hi & -> & ->) Ed Hsp. assert (Hne : ss.*2 ++ vs ≠ []) by (intros E; by apply app_eq_nil in E as [_ ?]).
  pose proof (indexedListAppend_ok Hi (records_small vs (2 ^ 39) ltac:(lia) ltac:(done)) Hvs ltac:(lia)) as Ha.
  destruct (indexedListAppend _ vs) as [[[m [out|]] data']|err|]; cbn [attempt]; [destruct Ha as (-> & Ho & _)|destruct Ha as (-> & Ho & Hl)|subst err|done].
  - apply (stored _ _ _ (ss.*2 ++ vs) _ _ _ A1); try done; [apply H..|right; by left].
  - eapply (written _ k e _ d _ data'); [done|exact H|exact Ed|exact Hl|right; left; exact Ho|done|exact Hsp].
  - apply (limited _ _ A1); try done; [apply H..|]. right. exists k, vs. split; [done|]. unfold is_list. by rewrite (al_item _ _ _ _ _ _ H).
Qed.

(** RPUSH on a packed list. *)
Lemma push_packed s1 A1 e L d : lft = false → at_list s1 A1 k e L d → packed_ok L →
  spec V now (CPush k vs lft) = spec_pushed V k vs lft L d →
  outcome s A n b now (CPush k vs lft) (on (reply_answer AInt) (attempt s1 (appendPackedListRight (packed L) vs) (fun '(length, packed) =>
    if length <? indexedListPromoteElements then publish_list maphash growslice s1 k packed d now length
    else attempt s1 (decodePackedList packed) (fun current => store_pushed maphash growslice s1 k current d now)))).
Proof using Hvs Hsz Hb Hcap Hn.
  intros El H Hp Hsp. rewrite appendPackedListRight_eq by done. destruct (Z.leb_spec (13 + zlen (records L) + list_bound vs) maxPackedListBytes) as [Hle|Hgt]; cbn [attempt].
  2: { apply (limited _ _ A1); try done; [apply H..|]. right. exists k, vs. split; [by rewrite El|]. unfold is_list. by rewrite (al_item _ _ _ _ _ _ H). }
  assert (Hok : packed_ok (L ++ vs)).
  { unfold packed_ok, packed. rewrite !zlen_app, records_app, zlen_app. change (zlen packedListHeader) with 3.
    pose proof (records_bound vs). pose proof (put_uvarint_len_bound (zlen L + zlen vs)). lia. }
  assert (Ep : pushed lft vs L = L ++ vs) by (by rewrite El). destruct (zlen (L ++ vs) <? indexedListPromoteElements).
  - unfold spec_pushed in Hsp. rewrite <- pushed_spec, Ep in Hsp.
    apply (stored _ _ _ (L ++ vs) _ _ _ A1); try done; [apply H..|by left|]. intros E. by apply app_eq_nil in E as [_ ?].
  - rewrite decodePackedList_ok by done. cbn [attempt]. rewrite <- Ep. apply (push_rebuilt _ A1 e L d (packed L)); try done. by left.
Qed.

Lemma push_some_ok : outcome s A n b now (CPush k vs lft) (exec s now (CPush k vs lft)).
Proof using Hvs Hsz Hb Hf Hcap Hn.
  assert (Hz : zlen vs =? 0 = false) by (apply Z.eqb_neq; intros E; apply Hvs, length_zero_iff_nil; unfold zlen in E; lia).
  assert (Hsp : spec V now (CPush k vs lft) = match V !! k with
    | None => spec_pushed V k vs lft [] 0 | Some (VList L, d) => spec_pushed V k vs lft L d | _ => (AError errWrongType, V) end) by (cbn [spec]; by rewrite Hz).
  unfold exec, listPush. rewrite Hz. apply (opened_list _ k AInt); [done| | | |].
  - intros v d HV. rewrite Hsp. by rewrite HV.
  - intros s1 A1 Hf1 Hc1 HV1 HV. rewrite HV in Hsp. unfold spec_pushed in Hsp. rewrite <- pushed_spec in Hsp.
    apply (store_pushed_ok _ _ _ _ _ A1); try done; [by apply pushed_some|by apply pushed_size].
  - by intros s1 e ->.
  - intros s1 A1 e L d H. rewrite (al_item _ _ _ _ _ _ H) in Hsp. pose proof (al_reads _ _ _ _ _ _ H) as Hr.
    rewrite (list_entry maphash lib _ _ _ _ _ Hr). cbn [container negb]. rewrite (ra_at _ _ _ _ _ _ _ Hr), res_bind_ret.
    destruct (list_data_ok maphash lib _ _ _ _ _ Hr) as (data & Ed & Hd). rewrite Ed, res_bind_ret. pose proof (push_rebuilt s1 A1 e L d data H Hd Hsp) as Hre.
    pose proof (bytes_elements _ _ Hd) as Hel. assert (Hl : negb lft = false ∧ lft = true ∨ negb lft = true ∧ lft = false) by (destruct lft; auto).
    destruct Hl as [[-> El]|[-> El]]; cbn [andb].
    + destruct (isColdList data) eqn:Ec; [|by rewrite Hel]. unfold list_elements in Hel. rewrite Ec in Hel. destruct (isIndexedList data) eqn:Ei; [|by rewrite Hel].
      destruct Hd as [[-> _]|[Hi|[-> Hk]]]; [by rewrite (proj1 (packed_is L)) in Ei|by rewrite (proj2 (indexed_is _ _ Hi)) in Ec|by rewrite (proj2 (cold_is Hk)) in Ei].
    + destruct Hd as [[-> Hp]|[Hi|[-> Hk]]].
      * rewrite (proj1 (packed_is L)), (proj2 (packed_is L)). by apply (push_packed s1 A1 e L d).
      * rewrite (proj1 (indexed_is _ _ Hi)). apply (push_indexed s1 A1 e L d _ El H Hi Ed). rewrite Hsp. unfold spec_pushed. by rewrite <- pushed_spec, El.
      * rewrite (proj2 (cold_is Hk)), (proj1 (cold_is Hk)), (decodeColdList_ok Hk). exact Hre.
Qed.
End Push.

Lemma Push_ok k vs lft : command_ok (CPush k vs lft) → b + cost (CPush k vs lft) ≤ maxLogBytes → outcome s A n b now (CPush k vs lft) (exec s now (CPush k vs lft)).
Proof using Hf Hcap Hn.
  intros Hsz Hb. destruct vs as [|v vs]; [by apply (refused maphash lib _ _ s A)|]. by apply push_some_ok.
Qed.

(** ** RENAME *)

(** The list of the source is stored under the destination, and removed. *)
Lemma rename_list src dst nx s2 A2 e L d : b + cost (CListRename src dst nx) ≤ maxLogBytes → src ≠ dst → at_list s2 A2 src e L d → nx && present V dst = false →
  outcome s A n b now (CListRename src dst nx) (on (reply_answer (fun r => ARenamed r.1 r.2)) (attempt s2 (listLogicalValue maphash s2 src e) (fun packed =>
    at' ← key_expiration maphash s2 src e;
    '(r, s3) ← publish maphash growslice s2 (shardFor maphash s2 dst) dst (expiring (listPreparedEntry packed) at') now;
    match r with
    | Fail err => Ret (Fail err, s3)
    | Ok _ => s4 ← remove maphash growslice s3 (shardFor maphash s3 src) src now; Ret (Ok (true, true), s4)
    end))).
Proof using Hcap Hn.
  intros Hb Hne H Hnx. pose proof (al_reads _ _ _ _ _ _ H) as Hr. pose proof (al_some _ _ _ _ _ _ H) as HL.
  assert (Hsp : spec V now (CListRename src dst nx) = (ARenamed true true, delete src (<[dst := (VList L, d)]> V)))
    by (cbn [spec]; unfold spec_rename; by rewrite (al_item _ _ _ _ _ _ H), bool_decide_false, Hnx by done).
  unfold listLogicalValue, listElementsFromEntry. destruct (list_data_ok maphash lib _ _ _ _ _ Hr) as (data & -> & Hd). rewrite !res_bind_ret, (bytes_elements _ _ Hd), res_bind_ret, encodePackedList_eq.
  destruct (packs L) eqn:Ep; cbn [attempt].
  2: { apply (limited _ _ A2); try done; [apply H..|]. left. exists dst, L, d. split_and!; [done| |by apply not_roomy]. by rewrite Hsp; cbn [snd]; rewrite lookup_delete_ne, lookup_insert_eq. }
  rewrite (ra_at _ _ _ _ _ _ _ Hr), res_bind_ret. destruct (list_puts maphash growslice lib Hcap s2 A2 n b dst (packed L) L d now (al_fine _ _ _ _ _ _ H) Hn Hb (packed_bytes _ Ep) HL)
    as (r & s3 & -> & [(-> & Hf3 & Hc3)|(-> & -> & Hm)]); rewrite res_bind_ret.
  - destruct (remove_fine maphash growslice lib s3 _ _ _ src now Hf3) as (s4 & -> & Hf4 & Hc4). rewrite res_bind_ret. exists (ARenamed true true), s4, (delete src (<[dst := (VList L, d)]> A2)).
    split_and!; [done|done|eapply same_config_trans; [apply H|by eapply same_config_trans]|]. fold V. apply permits_spec; [done|fold V; by rewrite Hsp|]. fold V. rewrite Hsp. cbn [snd].
    rewrite !view_delete. f_equal. apply view_insert. rewrite (al_view _ _ _ _ _ _ H). unfold V. by rewrite view_idem.
  - exists (AError ErrOOM), s2, A2. pose proof (cost_nonneg (CListRename src dst nx)). split_and!; [done|eapply fine_mono; [..|apply H]; lia|apply H|].
    apply permits_oom; [done|apply H|done|]. by rewrite <- (sc_max _ _ (al_config _ _ _ _ _ _ H)).
Qed.

Lemma Rename_ok src dst nx : b + cost (CListRename src dst nx) ≤ maxLogBytes → outcome s A n b now (CListRename src dst nx) (exec s now (CListRename src dst nx)).
Proof using Hf Hcap Hn.
  intros Hb. assert (Hsp : spec V now (CListRename src dst nx) = spec_rename V src dst nx) by done. unfold spec_rename in Hsp. unfold exec, RenameList.
  destruct (bool_decide_reflect (src = dst)) as [->|Hne].
  { destruct (live_entry_ok maphash lib Hcap s A n b dst now Hf) as (o & -> & Ho). rewrite res_bind_ret. unfold on. rewrite res_bind_ret. unfold CommandFacts.finds in Ho. fold V in Ho.
    apply (unchanged _ _ _ _ _ A); try done. etrans; [exact Hsp|]. destruct (V !! dst) as [[v d]|]; [destruct Ho as (e & -> & Hr)|by subst o].
    rewrite (list_entry maphash lib _ _ _ _ _ Hr). by destruct v. }
  destruct (opened maphash growslice lib Hcap (now := now) Hf src) as (o & o' & s1 & A1 & -> & E & Hf1 & Hc1 & HV1 & Hfd & Hl1).
  rewrite res_bind_ret, E, res_bind_ret. unfold CommandFacts.finds in Hfd. fold V in Hfd, HV1. destruct (V !! src) as [[v d]|] eqn:HV; [|subst o'; by apply (unchanged _ _ _ _ _ A1)].
  destruct Hfd as (e & -> & Hr). rewrite (list_entry maphash lib _ _ _ _ _ Hr). destruct v as [v|L]; cbn [container negb]; [by apply (unchanged _ _ _ _ _ A1)|].
  destruct (drop_same maphash growslice lib Hcap s1 A1 n b dst now Hf1) as (o2 & o2' & s2 & A2 & (-> & E2 & Hf2 & Hc2 & HV2 & Hfd2 & _) & Hk). rewrite res_bind_ret, E2, res_bind_ret.
  rewrite HV1 in HV2, Hfd2. rewrite (finds_present _ _ (now := now) (A := A) _ _ Hfd2). fold V. assert (Hc : same_config s s2) by (by eapply same_config_trans).
  destruct (nx && present V dst) eqn:Hnx; [by apply (unchanged _ _ _ _ _ A2)|].
  assert (H : at_list s2 A2 src e L d).
  { assert (Hl2 : lookup_key maphash s2 src = Ret (Some e)) by (rewrite <- Hl1; by apply Hk).
    destruct (lookup_ok maphash lib Hcap s2 A2 n b src Hf2) as (x & Ex & Hx). rewrite Hl2 in Ex. injection Ex as <-.
    assert (HA2 : A2 !! src = Some (VList L, d)) by (pose proof HV as HV'; rewrite <- HV2 in HV'; by apply view_some in HV' as [? _]).
    unfold CommandFacts.finds in Hx. rewrite HA2 in Hx. destruct Hx as (e0 & [= <-] & Hx). split; try done. apply (fi_sized _ _ _ _ _ _ Hf2 src (VList L) d HA2). }
  by apply (rename_list _ _ _ _ A2 _ L d).
Qed.
End Step.
End ListRefines.
