(* ===== verification/StoreTheorems.v ===== *)
(** * Theorems about the store

    Commands over several keys, the removal of expired keys, and the theorems
    about sequences of commands: the store refines its specification, its memory
    counters are exact, and a sweep removes every expired key. *)
From S2P Require Import Prelude Numerals Arena KeyPack KeyPackFacts Table TableSpec CodecFacts Codec Registry RegistrySpec Entry Expiry Shard ShardFacts.
From S2P Require Import ListPack ListFacts Values Engine EngineFacts StoreFacts Commands Guard ListCommands ListSpec CommandFacts StoreSpec StoreRefines ListRefines.
Set Default Proof Using "Type".

(** ** Counting keys *)

Lemma count_delete (V : items) k l : NoDup l → count (delete k V) l = count V l - (if decide (k ∈ l) then Z.b2z (present V k) else 0).
Proof.
  unfold count. induction 1 as [|x l Hx Hnd IH]; [done|]. rewrite !lsum_cons, IH. destruct (decide (x = k)) as [->|Hne].
  - rewrite (decide_False (P := k ∈ l)) by done. rewrite decide_True by (by left).
    assert (present (delete k V) k = false) as -> by (unfold present; rewrite lookup_delete_eq; by apply bool_decide_false; intros []). cbn. lia.
  - assert (present (delete k V) x = present V x) as -> by (unfold present; by rewrite lookup_delete_ne).
    destruct (decide (k ∈ l)); [rewrite decide_True by (by right)|rewrite decide_False by (by intros [->|?]%elem_of_cons)]; lia.
Qed.

Lemma count_dups (V : items) k ks : Z.b2z (present V k) + count (delete k V) (remove_dups ks) = count V (remove_dups (k :: ks)).
Proof.
  rewrite count_delete by apply NoDup_remove_dups. cbn [remove_dups]. destruct (decide_rel (∈) k ks) as [Hin|Hni].
  - rewrite decide_True by (by apply elem_of_remove_dups). lia.
  - rewrite decide_False by (by rewrite elem_of_remove_dups). unfold count. rewrite lsum_cons. lia.
Qed.

Lemma filter_delete (V : items) k ks : filter (fun p => p.1 ∉ ks) (delete k V) = filter (fun p => p.1 ∉ k :: ks) V.
Proof.
  apply map_eq. intros k'. apply option_eq. intros x. rewrite !map_lookup_filter_Some, lookup_delete_Some. cbn. rewrite not_elem_of_cons. naive_solver.
Qed.

Lemma power_of_two n : 0 < n → Z.land n (n - 1) = 0 → ∃ b, 0 ≤ b ∧ n = 2 ^ b.
Proof.
  intros Hn Hl. exists (Z.log2 n). split; [apply Z.log2_nonneg|]. pose proof (Z.log2_spec n Hn) as [H1 H2].
  destruct (decide (n = 2 ^ Z.log2 n)) as [|Hne]; [done|]. exfalso.
  assert (Hb : Z.testbit (Z.land n (n - 1)) (Z.log2 n) = true); [|by rewrite Hl, Z.bits_0 in Hb].
  rewrite Z.land_spec, Z.bit_log2 by done. cbn [andb].
  assert (E : Z.log2 (n - 1) = Z.log2 n) by (apply Z.log2_unique; [apply Z.log2_nonneg|lia]). rewrite <- E. apply Z.bit_log2. pose proof (Z.log2_nonneg n). lia.
Qed.

(** The answers a store with memory limit [mx] may give to a sequence of
    commands at their times, starting from the items [V]. *)
Inductive admits (mx : Z) : items → list (Z * command) → list answer → items → Prop :=
| admits_nil V : admits mx V [] [] V
| admits_cons V now c a V1 trace l V2 :
    permits mx (view now V) now c a V1 → admits mx V1 trace l V2 → admits mx V ((now, c) :: trace) (a :: l) V2.

Section Theorems.
Context (maphash : list byte → Z) (growslice : Z → Z → Z) (lib : Library) `{P : Peers}.
Context (Hcap : cap_bounds (DecodeAll lib)).

Local Abbreviation fine := (fine maphash lib).
Local Abbreviation exec := (exec maphash growslice lib).
Local Abbreviation exec_store := (exec_store maphash growslice lib).
Local Abbreviation outcome := (outcome maphash lib).
Implicit Types (s : Store) (A : items).

(** ** Several keys *)

Lemma Touch_run ks : ∀ s A n b now, fine s A n b → ∃ s' A', Touch maphash growslice s ks now = Ret (count (view now A) ks, s') ∧
  fine s' A' n b ∧ same_config s s' ∧ view now A' = view now A.
Proof using Hcap.
  induction ks as [|k ks IH]; intros s A n b now Hf; [by exists s, A|]. cbn [Touch].
  destruct (opened maphash growslice lib Hcap Hf (now := now) k) as (o & o' & s1 & A1 & -> & E & Hf1 & Hc1 & HV1 & Hfd & _). rewrite res_bind_ret, E, res_bind_ret.
  destruct (IH s1 A1 n b now Hf1) as (s' & A' & -> & Hf' & Hc' & HV'). rewrite res_bind_ret, HV1. rewrite HV1 in HV'. exists s', A'.
  split_and!; [|done|by eapply same_config_trans|done]. do 2 f_equal. rewrite (finds_present maphash lib (A := A) (now := now) k o' Hfd).
  unfold count. rewrite lsum_cons. destruct (present _ k); cbn; lia.
Qed.

Lemma DeleteMany_run ks : ∀ s A n b now, fine s A n b → ∃ s' A', DeleteMany maphash growslice s ks now = Ret (count (view now A) (remove_dups ks), s') ∧
  fine s' A' n b ∧ same_config s s' ∧ view now A' = filter (fun p => p.1 ∉ ks) (view now A).
Proof using Hcap.
  induction ks as [|k ks IH]; intros s A n b now Hf.
  { exists s, A. split_and!; try done. symmetry. apply map_filter_id. intros k x _. by apply not_elem_of_nil. }
  cbn [DeleteMany]. destruct (lookup_ok maphash lib Hcap s A n b k Hf) as (o & -> & Ho). rewrite res_bind_ret.
  assert (Hg : ∃ g, found_expired maphash s k o now = Ret g ∧ bool_decide (is_Some o) && negb g = present (view now A) k ∧ (o = None → A !! k = None)).
  { unfold present. rewrite view_lookup. unfold finds in Ho. destruct (A !! k) as [[v d]|]; [|subst o; by exists false].
    destruct Ho as (e & -> & Hr). exists (dead now d). rewrite (ra_expired _ _ _ _ _ _ _ Hr). split_and!; [done| |done]. cbn. by destruct (dead now d). }
  destruct Hg as (g & -> & Hg & Hnone). rewrite res_bind_ret.
  assert (Hrm : ∃ s1, (if bool_decide (is_Some o) then remove maphash growslice s (shardFor maphash s k) k now else Ret s) = Ret s1 ∧ fine s1 (delete k A) n b ∧ same_config s s1).
  { destruct o as [e|]; [rewrite bool_decide_true by eauto; by apply remove_fine|]. exists s. by rewrite delete_id by (by apply Hnone). }
  destruct Hrm as (s1 & -> & Hf1 & Hc1). rewrite res_bind_ret. destruct (IH s1 _ n b now Hf1) as (s' & A' & -> & Hf' & Hc' & HV'). rewrite res_bind_ret, Hg.
  exists s', A'. split_and!; [|done|by eapply same_config_trans|by rewrite HV', view_delete, filter_delete].
  do 2 f_equal. rewrite <- count_dups, view_delete. destruct (present _ k); cbn; lia.
Qed.

Lemma MGetStrings_run ks : ∀ s A n b now, fine s A n b → ∃ s', MGetStrings maphash growslice s ks now = Ret (value_of (view now A) <$> ks, s') ∧
  fine s' A n b ∧ same_config s s'.
Proof using Hcap.
  induction ks as [|k ks IH]; intros s A n b now Hf; [by exists s|]. cbn [MGetStrings].
  destruct (live_entry_ok maphash lib Hcap s A n b k now Hf) as (o & E & Ho). rewrite E, res_bind_ret. unfold finds in Ho. cbn [fmap list_fmap].
  unfold value_of at 1. destruct (view now A !! k) as [[v d]|] eqn:HV.
  - destruct Ho as (e & -> & Hr). rewrite (type_container maphash lib Hr). destruct v as [v|L]; cbn [container].
    2: { rewrite res_bind_ret. destruct (IH s A n b now Hf) as (s' & -> & Hf' & Hc'). rewrite res_bind_ret. by exists s'. }
    rewrite (str_decode maphash lib Hr), res_bind_ret.
    destruct (note_ok maphash lib Hf (now := now) (set_meta_entry maphash growslice s k e) (fun meta => stale_access meta now) k e) as (s1 & -> & Hf1 & Hc1 & _).
    { intros meta meta' Hm Hs. apply view_some in HV as [HA _].
      by eapply (set_meta_ok maphash growslice lib s A n b k e (VStr v) d meta meta' Hf HA (live_lookup maphash (now := now) k e E) Hm Hs). }
    rewrite !res_bind_ret. destruct (IH s1 A n b now Hf1) as (s' & -> & Hf' & Hc'). rewrite res_bind_ret. exists s'. split_and!; try done. by eapply same_config_trans.
  - subst o. rewrite res_bind_ret. destruct (IH s A n b now Hf) as (s' & -> & Hf' & Hc'). rewrite res_bind_ret. by exists s'.
Qed.

(** ** The sweep of expired keys *)

(** [k] expired items went away, and nothing else. *)
Record swept (now : Z) (A A' : items) (k : Z) : Prop := {
  sw_sub : A' ⊆ A;
  sw_view : view now A' = view now A;
  sw_size : Z.of_nat (size A) = Z.of_nat (size A') + k;
}.

Lemma swept_trans now A1 A2 A3 j k : swept now A1 A2 j → swept now A2 A3 k → swept now A1 A3 (j + k).
Proof. intros [] []. split; [by etransitivity|congruence|lia]. Qed.

(** No key of shard [i] has expired. *)
Definition clean (now N i : Z) (A : items) : Prop := ∀ k x, A !! k = Some x → home maphash N k = i → dead now x.2 = false.

Lemma swept_clean now A A' j N i : swept now A A' j → clean now N i A → clean now N i A'.
Proof. intros [Hs _ _] Hc k x Hk. apply Hc. by eapply lookup_weaken. Qed.

Lemma dead_removed now A k v d : A !! k = Some (v, d) → dead now d = true → swept now A (delete k A) 1.
Proof.
  intros Hk Hd. split; [apply delete_subseteq|rewrite view_delete; apply delete_id; by rewrite view_lookup, Hk; cbn; rewrite Hd|].
  rewrite map_size_delete, Hk. assert (size A ≠ 0%nat) by (intros E%map_size_empty_inv; by rewrite E in Hk). lia.
Qed.

(** The queue of a shard, read as its items. *)
Lemma shard_queue s A n b i : fine s A n b → 0 ≤ i < zlen (shards s) →
  ∃ sh, shard_at s i = Ret sh ∧ queue_ok (expiration_ sh) (deadlines (mine maphash (zlen (shards s)) i A)).
Proof.
  intros [[Hs _ _] _] Hi. destruct (znth_is_Some _ _ Hi) as [sh Hsh]. destruct (so_shards _ _ _ _ Hs i sh Hsh) as (m & live & H).
  exists sh. split; [unfold shard_at; by rewrite Hsh|apply H].
Qed.

Lemma deadlines_some A k d : deadlines A !! k = Some d ↔ ∃ v, A !! k = Some (v, d) ∧ d ≠ 0.
Proof.
  unfold deadlines. rewrite lookup_omap. destruct (A !! k) as [[v d']|]; cbn; [|by split; [|intros (? & ? & _)]].
  destruct (Z.eqb_spec d' 0) as [->|Hne]; split; [done|intros (? & [= _ <-] & ?); done|intros [= <-]; eauto|by intros (? & [= _ <-] & ?)].
Qed.

Lemma mine_some N i A k x : mine maphash N i A !! k = Some x ↔ A !! k = Some x ∧ home maphash N k = i.
Proof. apply map_lookup_filter_Some. Qed.

(** When no deadline of a shard has passed, the shard is clean. *)
Lemma clean_queue now N i A : (∀ k d, deadlines (mine maphash N i A) !! k = Some d → stampOf now < d) → clean now N i A.
Proof.
  intros H k [v d] Hk Hi. unfold dead. cbn. destruct (Z.eqb_spec d 0) as [|Hd]; [done|]. cbn. apply Z.leb_gt, (H k).
  apply deadlines_some. exists v. split; [by apply mine_some|done].
Qed.

Lemma clean_empty now N i A : size (deadlines (mine maphash N i A)) = 0%nat → clean now N i A.
Proof. intros E%map_size_empty_inv. apply clean_queue. intros k d. by rewrite E. Qed.

Lemma cleanup_shard_ok now limit i n b : ∀ fuel s A removed, fine s A n b → 0 ≤ i < zlen (shards s) →
  (size (deadlines (mine maphash (zlen (shards s)) i A)) ≤ fuel)%nat → removed ≤ limit →
  ∃ r s' A', cleanup_shard maphash growslice fuel s i removed limit now = Ret (r, s') ∧ fine s' A' n b ∧ same_config s s' ∧
    swept now A A' (r - removed) ∧ removed ≤ r ≤ limit ∧ (r < limit → clean now (zlen (shards s)) i A').
Proof.
  induction fuel as [|f IH]; intros s A removed Hf Hi Hfuel Hr.
  { exists removed, s, A. split_and!; try done; [split; [done|done|lia]|]. intros _. apply clean_empty. lia. }
  cbn [cleanup_shard]. destruct (shard_queue s A n b i Hf Hi) as (sh & -> & Hq). rewrite res_bind_ret, (queue_len _ _ Hq).
  assert (Hstop : (removed < limit → clean now (zlen (shards s)) i A) → ∃ r s' A', Ret (removed, s) = Ret (r, s') ∧ fine s' A' n b ∧ same_config s s' ∧
    swept now A A' (r - removed) ∧ removed ≤ r ≤ limit ∧ (r < limit → clean now (zlen (shards s)) i A')).
  { intros Hc. exists removed, s, A. split_and!; try done. split; [done|done|lia]. }
  destruct (Z.ltb_spec 0 (Z.of_nat (size (deadlines (mine maphash (zlen (shards s)) i A))))) as [Hlen|Hlen]; cbn [andb]; [|apply Hstop; intros _; apply clean_empty; lia].
  destruct (Z.ltb_spec removed limit) as [Hl|Hl]; [|apply Hstop; lia].
  destruct (znth_is_Some (Expiry.items (expiration_ sh)) 0) as [nx Hnx]; [pose proof (queue_len _ _ Hq); unfold Len in *; lia|].
  rewrite Hnx. cbn [or_panic]. rewrite res_bind_ret. destruct (root_ok _ _ _ Hq Hnx) as [Hk Hmin].
  destruct (Z.ltb_spec (stampOf now) (at_ nx)) as [Hlt|Hge].
  { apply Hstop. intros _. apply clean_queue. intros k d Hd. specialize (Hmin k d Hd). lia. }
  apply deadlines_some in Hk as (v & [HA Hhome]%mine_some & Hd0).
  assert (Hdead : dead now (at_ nx) = true) by (unfold dead; rewrite (proj2 (Z.eqb_neq _ _) Hd0); by apply Z.leb_le).
  destruct (remove_fine maphash growslice lib s A n b (ekey nx) now Hf) as (s1 & E & Hf1 & Hc1).
  change (shardFor maphash s (ekey nx)) with (home maphash (zlen (shards s)) (ekey nx)) in E. rewrite Hhome in E. rewrite E, res_bind_ret.
  destruct (IH s1 (delete (ekey nx) A) (removed + 1) Hf1) as (r & s' & A' & -> & Hf' & Hc' & Hsw & Hrr & Hcl).
  - by rewrite (sc_shards _ _ Hc1).
  - rewrite (sc_shards _ _ Hc1), mine_delete, deadlines_delete, map_size_delete.
    assert (deadlines (mine maphash (zlen (shards s)) i A) !! ekey nx = Some (at_ nx)) as -> by (apply deadlines_some; exists v; split; [by apply mine_some|done]). lia.
  - lia.
  - exists r, s', A'. rewrite (sc_shards _ _ Hc1) in Hcl. split_and!; try done; [by eapply same_config_trans| |lia|lia].
    replace (r - removed) with (1 + (r - (removed + 1))) by lia. eapply swept_trans; [by eapply dead_removed|done].
Qed.

Lemma cleanup_loop_ok now limit n b : ∀ fuel s A i removed, fine s A n b → 0 ≤ i → zlen (shards s) = i + Z.of_nat fuel → removed < limit →
  (∀ j, 0 ≤ j < i → clean now (zlen (shards s)) j A) →
  ∃ r s' A', cleanup_loop maphash growslice fuel s i removed limit now = Ret (r, s') ∧ fine s' A' n b ∧ same_config s s' ∧
    swept now A A' (r - removed) ∧ removed ≤ r ≤ limit ∧ (r < limit → ∀ j, 0 ≤ j < zlen (shards s) → clean now (zlen (shards s)) j A').
Proof.
  induction fuel as [|f IH]; intros s A i removed Hf Hi Hlen Hr Hcl.
  { exists removed, s, A. split_and!; try done; [split; [done|done|lia]|lia|]. intros _ j Hj. apply Hcl. lia. }
  cbn [cleanup_loop]. destruct (shard_queue s A n b i Hf ltac:(lia)) as (sh & -> & Hq). rewrite res_bind_ret.
  destruct (cleanup_shard_ok now limit i n b (length (Expiry.items (expiration_ sh))) s A removed Hf ltac:(lia)) as (r & s1 & A1 & -> & Hf1 & Hc1 & Hsw & Hrr & Hcl1).
  { pose proof (queue_len _ _ Hq). unfold Len, zlen in *. lia. }
  { lia. }
  rewrite res_bind_ret. destruct (Z.leb_spec limit r) as [Hle|Hlt]; [exists r, s1, A1; split_and!; try done; lia|].
  destruct (IH s1 A1 (i + 1) r Hf1) as (r' & s' & A' & -> & Hf' & Hc' & Hsw' & Hrr' & Hcl'); [lia|rewrite (sc_shards _ _ Hc1); lia|lia| |].
  - rewrite (sc_shards _ _ Hc1). intros j Hj. destruct (decide (j = i)) as [->|]; [by apply Hcl1|]. eapply swept_clean; [done|]. apply Hcl. lia.
  - exists r', s', A'. rewrite (sc_shards _ _ Hc1) in Hcl'. split_and!; try done; [by eapply same_config_trans| |lia|lia].
    replace (r' - removed) with (r - removed + (r' - r)) by lia. by eapply swept_trans.
Qed.

(** Items whose deadline has passed. *)
Definition expired_items (now : Z) (A : items) : items := filter (fun p => dead now p.2.2 = true) A.

Lemma clean_all now N A : (∃ x, 0 ≤ x ∧ N = 2 ^ x) → (∀ j, 0 ≤ j < N → clean now N j A) → view now A = A ∧ expired_items now A = ∅.
Proof.
  intros (x & Hx & ->) Hc. assert (H : ∀ k y, A !! k = Some y → dead now y.2 = false).
  { intros k y Hk. by apply (Hc (home maphash (2 ^ x) k) (home_range maphash x k Hx) k y Hk). }
  split; [apply map_filter_id; intros k y Hk; by apply (H k)|]. apply map_empty. intros k. apply map_lookup_filter_None. right.
  intros y Hy. cbn. by rewrite (H k y Hy).
Qed.

Lemma sizes_split now A : size A = (size (view now A) + size (expired_items now A))%nat.
Proof.
  rewrite <- (map_filter_union_complement (fun p => dead now p.2.2 = false) A) at 1. rewrite map_size_disj_union by apply map_disjoint_filter_complement.
  unfold view, expired_items. do 2 f_equal. apply map_filter_ext. intros k y _. cbn. by destruct (dead now y.2).
Qed.

(** A sweep removes as many expired keys as it may, and only those. *)
Lemma cleanup_ok s A n b limit now : fine s A n b →
  ∃ r s' A', CleanupExpiredLimit maphash growslice s limit now = Ret (r, s') ∧ fine s' A' n b ∧ same_config s s' ∧
    swept now A A' r ∧ r = Z.max 0 (Z.min limit (Z.of_nat (size (expired_items now A)))).
Proof.
  intros Hf. unfold CleanupExpiredLimit. destruct (Z.leb_spec limit 0) as [Hl|Hl].
  { exists 0, s, A. split_and!; try done; [split; [done|done|lia]|lia]. }
  destruct (cleanup_loop_ok now limit n b (length (shards s)) s A 0 0 Hf) as (r & s' & A' & -> & Hf' & Hc & Hsw & Hr & Hcl); [lia|done|lia|lia|].
  exists r, s', A'. rewrite Z.sub_0_r in Hsw. split_and!; try done. pose proof (sizes_split now A) as S1. pose proof (sizes_split now A') as S2.
  rewrite (sw_view _ _ _ _ Hsw) in S2. pose proof (sw_size _ _ _ _ Hsw) as S3. destruct (decide (r = limit)) as [->|Hne]; [lia|].
  assert (E : expired_items now A' = ∅).
  { apply (clean_all now (zlen (shards s)) A'); [apply (so_count _ _ _ _ (go_store _ _ _ _ _ _ (fi_good _ _ _ _ _ _ Hf)))|apply Hcl; lia]. }
  rewrite E, map_size_empty in S2. lia.
Qed.

(** ** One command *)

Lemma exec_store_ok s A n b now c : fine s A n b → n ≤ refSegmentMask → b + cost c ≤ maxLogBytes → command_ok c → Millisecond ≤ now →
  from_option (is_list (view now A)) false (reads_string c) = false → outcome s A n b now c (exec_store s now c).
Proof using Hcap.
  intros Hf Hn Hb Hok Hnow Hg. destruct c.
  - by apply Set_ok.
  - by apply SetCommitted_ok.
  - apply SetOptions_ok; try done. cbn [reads_string] in Hg. by destruct (oGet o).
  - by apply SetMs_ok.
  - by apply GetSet_ok.
  - by apply Get_ok.
  - by apply GetString_ok.
  - by apply GetStringInto_ok.
  - by apply VisitRaw_ok.
  - by apply Delete_ok.
  - by apply Evict_ok.
  - by apply Exists_ok.
  - unfold exec_store, on. destruct (DeleteMany_run ks s A n b now Hf) as (s' & A' & -> & Hf' & Hc & HV). rewrite res_bind_ret.
    eapply changed; [done|exact Hf'|done|done|]. rewrite <- (view_idem now A'). by f_equal.
  - unfold exec_store, on. destruct (Touch_run ks s A n b now Hf) as (s' & A' & -> & Hf' & Hc & HV). rewrite res_bind_ret. by eapply unchanged.
  - by apply Type_ok.
  - by apply ValueType_ok.
  - by apply GetDel_ok.
  - by apply GetDelString_ok.
  - by apply Add_ok.
  - by apply Sub_ok.
  - by apply Append_ok.
  - by apply GetRange_ok.
  - by apply SetRange_ok.
  - by apply ExpireAt_ok.
  - by apply Persist_ok.
  - by apply GetEx_ok.
  - by apply TTL_ok.
  - by apply ExpireTime_ok.
  - unfold exec_store, on. destruct (MGetStrings_run ks s A n b now Hf) as (s' & -> & Hf' & Hc). rewrite res_bind_ret. by eapply unchanged.
  - unfold exec_store, on. destruct (cleanup_ok s A n b limit now Hf) as (r & s' & A' & -> & Hf' & Hc & Hsw & Hr). rewrite res_bind_ret.
    exists (AInt r), s', A'. split_and!; [done|eapply fine_mono; [..|done]; cbn; lia|done|]. split; [apply Hsw|]. exists r. split; [done|lia].
  - by apply Push_ok.
  - by apply PushX_ok.
  - by apply ListPop_ok.
  - by apply ListLen_ok.
  - by apply ListIndex_ok.
  - by apply ListRange_ok.
  - by apply ListSet_ok.
  - by apply ListTrim_ok.
  - by apply ListRem_ok.
  - by apply ListInsert_ok.
  - by apply ListPos_ok.
  - by apply ListReplace_ok.
  - by apply Rename_ok.
Qed.

Lemma exec_ok s A n b now c : fine s A n b → n ≤ refSegmentMask → b + cost c ≤ maxLogBytes → command_ok c → Millisecond ≤ now →
  outcome s A n b now c (exec s now c).
Proof using Hcap.
  intros Hf Hn Hb Hok Hnow. unfold exec. rewrite (guard_ok maphash lib Hcap Hf). destruct (from_option _ _ _) eqn:Hg; [|by apply exec_store_ok].
  destruct (refused_spec c Hg) as [Hd Hsp]. by eapply unchanged.
Qed.

(** ** Sequences of commands *)

(** Times do not go back. *)
Fixpoint timed (t : Z) (trace : list (Z * command)) : Prop :=
  match trace with
  | [] => True
  | (now, _) :: trace => t ≤ now ∧ timed now trace
  end.

Definition trace_cost (trace : list (Z * command)) : Z := lsum (fun p => cost p.2) trace.
Definition last_time (t : Z) (trace : list (Z * command)) : Z := foldl (fun _ p => p.1) t trace.

Lemma run_ok trace : ∀ s A V n b t, fine s A n b → Millisecond ≤ t → (∀ u, t ≤ u → view u V = view u A) → timed t trace →
  Forall (fun p => command_ok p.2) trace → n + zlen trace ≤ refSegmentMask + 1 → b + trace_cost trace ≤ maxLogBytes →
  ∃ answers s' A' V', run maphash growslice lib s trace = Ret (answers, s') ∧ admits (m_max (memory s)) V trace answers V' ∧
    fine s' A' (n + zlen trace) (b + trace_cost trace) ∧ same_config s s' ∧ ∀ u, last_time t trace ≤ u → view u V' = view u A'.
Proof using Hcap.
  induction trace as [|[now c] trace IH]; intros s A V n b t Hf Ht HV Htm Hok Hn Hb.
  { exists [], s, A, V. split_and!; try done; [constructor|]. unfold trace_cost. cbn. by rewrite !Z.add_0_r. }
  destruct Htm as [Hnow Htm]. apply Forall_cons in Hok as [Hc Hok]. cbn [snd] in Hc. unfold trace_cost in *. rewrite zlen_cons in *. rewrite lsum_cons in *. cbn [snd] in *.
  pose proof (zlen_nonneg trace). assert (Hcn : 0 ≤ lsum (fun p => cost p.2) trace).
  { clear. induction trace as [|p l IH]; [done|]. rewrite lsum_cons. pose proof (cost_nonneg p.2). lia. }
  destruct (exec_ok s A n b now c Hf ltac:(lia) ltac:(lia) Hc ltac:(lia)) as (a & s1 & A1 & E & Hf1 & Hc1 & Hp). cbn [run]. rewrite E, res_bind_ret.
  destruct (IH s1 A1 (view now A1) (n + 1) (b + cost c) now Hf1) as (l & s' & A' & V' & -> & Had & Hf' & Hc' & HV'); [lia|intros u Hu; apply view_later; lia|done|done|lia|lia|].
  rewrite res_bind_ret. exists (a :: l), s', A', V'. split_and!; try done; [|eapply fine_mono; [..|done]; lia|by eapply same_config_trans].
  rewrite (sc_max _ _ Hc1) in Had. eapply admits_cons; [|exact Had]. rewrite HV by done. exact Hp.
Qed.

(** A new store holds nothing. *)
Lemma new_ok options logs hs s : NewWithOptions lib options logs hs = Ret (Ok s) → fine s ∅ 0 0 ∧ m_max (memory s) = oMaxMemory options.
Proof.
  unfold NewWithOptions. destruct (_ || _) eqn:Eb; [done|]. destruct (_ && _); [done|].
  destruct (NewRegistry lib) as [r| |] eqn:Er; [|done..]. rewrite res_bind_ret. intros [= <-]. split; [|done].
  rewrite !orb_false_iff, Z.leb_gt, negb_false_iff, Z.eqb_eq, Z.ltb_ge in Eb. destruct Eb as [[E0 Ep] _].
  apply (empty_fine maphash lib _ (oShards options)); [done|done|by apply power_of_two|done|done].
Qed.

(** A session: commands at times that do not go back, from one millisecond after
    the epoch on, few enough that entry ids, arena segments and the key log of one
    shard cannot run out. *)
Record session (trace : list (Z * command)) : Prop := {
  se_timed : timed Millisecond trace;
  se_commands : Forall (fun p => command_ok p.2) trace;
  se_length : zlen trace ≤ 2 ^ 25;
  se_cost : trace_cost trace ≤ maxLogBytes;
}.

Lemma session_ok options logs hs s0 trace : NewWithOptions lib options logs hs = Ret (Ok s0) → session trace →
  ∃ answers s' A' V', run maphash growslice lib s0 trace = Ret (answers, s') ∧ admits (oMaxMemory options) ∅ trace answers V' ∧
    fine s' A' (zlen trace) (trace_cost trace) ∧ same_config s0 s' ∧ ∀ u, last_time Millisecond trace ≤ u → view u V' = view u A'.
Proof using Hcap.
  intros Hnew [Ht Hok Hl Hb]. destruct (new_ok options logs hs s0 Hnew) as [Hf Hm].
  destruct (run_ok trace s0 ∅ ∅ 0 0 Millisecond Hf) as (answers & s' & A' & V' & E & Had & Hf' & Hc & HV); try done.
  exists answers, s', A', V'. rewrite Hm in Had. by split_and!.
Qed.


(** C2: Memory accounting is exact. After any session on a new store, each
    counter the store keeps incrementally, through inserts, overwrites, removals
    and expirations, is what a walk over its shards finds: capacity of the
    indexes, entry and key bytes, arena bytes, live payload and block bytes and
    metadata, and [used] is their sum, all modulo 2^64. *)
Theorem accounting_exact options logs hs s0 trace :
  NewWithOptions lib options logs hs = Ret (Ok s0) → session trace →
  ∃ answers s', run maphash growslice lib s0 trace = Ret (answers, s') ∧ accounted s'.
Proof using Hcap.
  intros Hnew Hs. destruct (session_ok options logs hs s0 trace Hnew Hs) as (answers & s' & A' & V' & E & _ & Hf & _).
  exists answers, s'. split; [done|apply Hf].
Qed.

(** C28: Expired keys are reclaimed. After any session, a sweep with any limit
    at any time ends, removes exactly the smaller of the limit and the number of
    expired keys, removes nothing else, and leaves a store that is consistent; a
    sweep whose limit is not reached leaves no expired key. *)
Theorem cleanup_complete options logs hs s0 trace limit now :
  NewWithOptions lib options logs hs = Ret (Ok s0) → session trace →
  ∃ answers s1 A1, run maphash growslice lib s0 trace = Ret (answers, s1) ∧ store_ok maphash lib s1 A1 ∧
    ∃ n s2 A2, CleanupExpiredLimit maphash growslice s1 limit now = Ret (n, s2) ∧ store_ok maphash lib s2 A2 ∧ accounted s2 ∧
      n = Z.max 0 (Z.min limit (Z.of_nat (size (expired_items now A1)))) ∧
      A2 ⊆ A1 ∧ view now A2 = view now A1 ∧ Z.of_nat (size A1) = Z.of_nat (size A2) + n ∧ (n < limit → A2 = view now A1).
Proof using Hcap.
  intros Hnew Hs. destruct (session_ok options logs hs s0 trace Hnew Hs) as (answers & s1 & A1 & V' & E & _ & Hf & _).
  exists answers, s1, A1. split_and!; [done|apply Hf|]. destruct (cleanup_ok s1 A1 _ _ limit now Hf) as (n & s2 & A2 & E2 & Hf2 & _ & [H1 H2 H3] & Hn).
  exists n, s2, A2. split_and!; try done; [apply Hf2..|]. intros Hlt. rewrite <- H2. symmetry. apply map_filter_id. intros k x Hk.
  pose proof (sizes_split now A1) as S1. pose proof (sizes_split now A2) as S2. rewrite H2 in S2.
  assert (E0 : expired_items now A2 = ∅) by (apply map_size_empty_inv; lia). destruct (dead now x.2) eqn:Hd; [|done].
  assert (Hin : expired_items now A2 !! k = Some x) by (by apply map_lookup_filter_Some). by rewrite E0 in Hin.
Qed.

(** ** Reply types *)








(** ** A read that is not charged *)

(** C39: MGET of a key without activity metadata attaches some and charges
    nothing for it: the counters stay as they were while the metadata the shards
    hold grows by one record. Removing the key then takes the record off counters
    it was never added to. *)
Theorem MGet_uncharged s A n b k v d e now :
  fine s A n b → accounted s → view now A !! k = Some (VStr v, d) → lookup_key maphash s k = Ret (Some e) →
  entryMeta_ e = None → encoding s = true → rawStable (entryData e) = false →
  ∃ s', MGet maphash growslice s [k] now = Ret ([Some v], s') ∧ memory s' = memory s ∧
    lsum use_metas (shards s') = lsum use_metas (shards s) + entryMetaBytes ∧ ¬ accounted s'.
Proof using Hcap.
  intros Hf Hacc HV Hl Hmeta Henc Hraw. cbn [MGet]. destruct (live_entry_ok maphash lib Hcap s A n b k now Hf) as (o & E & Ho).
  unfold finds in Ho. rewrite HV in Ho. destruct Ho as (e' & -> & Hr). rewrite (live_lookup maphash (now := now) k e' E) in Hl. injection Hl as ->.
  rewrite E, res_bind_ret, (str_decode maphash lib Hr), res_bind_ret. unfold shouldTrackActivity.
  rewrite Henc, Hraw, (type_container maphash lib Hr). cbn [negb andb].
  rewrite Hmeta. change (default zeroMeta None) with zeroMeta. set (e' := note_read _ _ _).
  apply view_some in HV as [HA _]. destruct (found_shard maphash lib s A n b k e (VStr v) d Hf HA (live_lookup maphash (now := now) k e E)) as (sh & m & live & Hat & Hi & H & Hm & He).
  unfold set_meta_entry. cbv zeta. rewrite Hat, res_bind_ret.
  destruct (set_ok maphash growslice sh m k (mkEntry (entryData e) (Some e')) (ho_shard _ _ _ _ _ _ H)) as (sh1 & -> & Hok & Hfr); [apply He|congruence|].
  rewrite !res_bind_ret. eexists. split; [done|]. split; [done|]. cut (lsum use_metas (shards (set_shard s (shardFor maphash s k) sh1)) = lsum use_metas (shards s) + entryMetaBytes).
  { intros Hsum. split; [done|]. intros Hacc'. pose proof (ac_metas _ Hacc) as M1. pose proof (ac_metas _ Hacc') as M2. rewrite Hsum in M2.
    change (memory (set_shard s (shardFor maphash s k) sh1)) with (memory s) in M2. rewrite M1 in M2. unfold u64, entryMetaBytes in M2. dlia. }
  cbn [shards set_shard with_shards]. rewrite (lsum_update _ _ _ _ sh1 Hi). unfold use_metas. rewrite (sum_write maphash _ sh sh1 m k _ (ho_shard _ _ _ _ _ _ H) Hok), Hm. cbn [from_option]. unfold metadataCharge. rewrite Hmeta. cbn [entryMeta_]. lia.
Qed.
End Theorems.

(** ** Witnesses *)

(** Streams, search and shaped hashes that hold nothing. *)
#[local] Instance demo_peers : Peers := {|
  StreamLogs := unit; body_memory := fun _ _ => None; body_drop := fun l _ => l; noteStreamRemoved := fun l _ => l;
  SearchManager := unit; replaceJSON := fun m _ _ => Ret m; removeKey := fun m _ => m;
  HashShapes := unit; decodeShapedHash := fun _ _ _ => Err "unknown shape"; memoryBytes := fun _ => 0 |}.

Definition demo_logs : @StreamLogs demo_peers := tt.
Definition demo_shapes : @HashShapes demo_peers := tt.
Definition demo_growslice (cap need : Z) : Z := Z.max need (2 * cap).
Definition demo_options : Options := mkOptions 2 0 true true true.
Definition demo_store : Store :=
  mkStore 0 0 (replicate 2 emptyShard) demo_registry true true true
    (mkAccounting (2 * shardStructBytes) (2 * shardStructBytes) 0 0 0 0 0 0 0 0 0) demo_logs None demo_shapes None.

Lemma demo_new : NewWithOptions demo_library demo_options demo_logs demo_shapes = Ret (Ok demo_store).
Proof. reflexivity. Qed.

Lemma demo_cap : cap_bounds (DecodeAll demo_library).
Proof.
  intros s c out. cbn. destruct (Z.leb_spec (zlen s) c); [|done]. intros [= <-] c' Hc'. by destruct (Z.leb_spec (zlen s) c'); [|lia].
Qed.

Definition demo_commands : list (Z * command) :=
  [(Second, CSet (text "user:1") (text "hello")); (Second, CSetMs (text "n") (text "41") 5); (Second, CAdd (text "n") 1);
   (Second + 3 * Millisecond, CGetString (text "n")); (Second + 10 * Millisecond, CGetString (text "n")); (Second + 10 * Millisecond, CAppend (text "user:1") (text " world"));
   (Second + 20 * Millisecond, CPush (text "l") [text "b"; text "c"] false); (Second + 20 * Millisecond, CPush (text "l") [text "a"] true);
   (Second + 20 * Millisecond, CAppend (text "l") (text "x")); (Second + 20 * Millisecond, CListInsert (text "l") true (text "c") (text "d"));
   (Second + 20 * Millisecond, CPop (text "l") 1 false); (Second + 20 * Millisecond, CListRange (text "l") 0 (-1))].

(** The answers to the demo commands. *)
Example demo_answers : (p ← run demo_hash demo_growslice demo_library demo_store demo_commands; Ret p.1) =
  Ret [ADone; ADone; AInt 42; AValue (Some (text "42")); AValue None; AInt 11; AInt 2; AInt 3; AError errWrongType; AInt 4;
       AList [text "c"]; AList [text "a"; text "b"; text "d"]].
Proof. vm_compute. reflexivity. Qed.

Lemma demo_session : session demo_commands.
Proof. split; [vm_compute; repeat split; discriminate|repeat constructor; vm_compute; discriminate|vm_compute; discriminate|vm_compute; discriminate]. Qed.


Lemma accounting_exact_witness : ∃ answers s',
  run demo_hash demo_growslice demo_library demo_store demo_commands = Ret (answers, s') ∧ accounted s'.
Proof. apply (accounting_exact demo_hash demo_growslice demo_library demo_cap demo_options demo_logs demo_shapes demo_store demo_commands demo_new demo_session). Defined.


Lemma cleanup_complete_witness : ∃ answers s1 A1, run demo_hash demo_growslice demo_library demo_store demo_commands = Ret (answers, s1) ∧ store_ok demo_hash demo_library s1 A1 ∧
  ∃ n s2 A2, CleanupExpiredLimit demo_hash demo_growslice s1 10 (2 * Second) = Ret (n, s2) ∧ store_ok demo_hash demo_library s2 A2 ∧ accounted s2 ∧
    n = Z.max 0 (Z.min 10 (Z.of_nat (size (expired_items (2 * Second) A1)))) ∧
    A2 ⊆ A1 ∧ view (2 * Second) A2 = view (2 * Second) A1 ∧ Z.of_nat (size A1) = Z.of_nat (size A2) + n ∧ (n < 10 → A2 = view (2 * Second) A1).
Proof.
  apply (cleanup_complete demo_hash demo_growslice demo_library demo_cap demo_options demo_logs demo_shapes demo_store demo_commands 10 (2 * Second) demo_new demo_session).
Defined.

(** One key, and the store that holds it. *)
Definition demo_key : list byte := text "user:1".
Definition demo_set : list (Z * command) := [(Second, CSet demo_key (text "hello"))].
Definition demo_one : Store := match run demo_hash demo_growslice demo_library demo_store demo_set with Ret (_, s) => s | _ => demo_store end.
Definition demo_found : entry := match lookup_key demo_hash demo_one demo_key with Ret (Some e) => e | _ => zeroEntry end.

Lemma demo_one_fine : ∃ A n b, fine demo_hash demo_library demo_one A n b ∧ view Second A !! demo_key = Some (VStr (text "hello"), 0).
Proof.
  assert (Hs : session demo_set) by (split; [vm_compute; repeat split; discriminate|repeat constructor|vm_compute; discriminate|vm_compute; discriminate]).
  destruct (session_ok demo_hash demo_growslice demo_library demo_cap demo_options demo_logs demo_shapes demo_store demo_set demo_new Hs) as
    (answers & s' & A & V & E & Had & Hf & _ & HV).
  assert (Es : demo_one = s') by (unfold demo_one; by rewrite E). rewrite <- Es in Hf. exists A, (zlen demo_set), (trace_cost demo_set). split; [done|].
  rewrite <- (HV Second) by (vm_compute; discriminate). inversion Had as [|? ? ? ? V1 ? ? ? Hp Hn]; subst. inversion Hn; subst.
  destruct Hp as [[_ ->]|[(_ & _ & _ & H)|(_ & _ & [(k & L & d & [= <-] & H & _)|(k & vs & H & _)])]]; [|by vm_compute in H..|done].
  vm_compute. reflexivity.
Qed.

Lemma MGet_uncharged_witness : ∃ s', MGet demo_hash demo_growslice demo_one [demo_key] Second = Ret ([Some (text "hello")], s') ∧ memory s' = memory demo_one ∧
  lsum use_metas (shards s') = lsum use_metas (shards demo_one) + entryMetaBytes ∧ ¬ accounted s'.
Proof.
  destruct demo_one_fine as (A & n & b & Hf & HV).
  apply (MGet_uncharged demo_hash demo_growslice demo_library demo_cap demo_one A n b demo_key (text "hello") 0 demo_found Second Hf (go_accounted _ _ _ _ _ _ (fi_good _ _ _ _ _ _ Hf)) HV).
  - vm_compute. reflexivity.
  - vm_compute. reflexivity.
  - vm_compute. reflexivity.
  - vm_compute. reflexivity.
Defined.

Lemma guard_set_panics_witness : validateLegacyScalarTypes demo_hash demo_one [text "set"; demo_key] Second = Panic oob.
Proof. apply (guard_set_panics demo_hash demo_one (text "set") [demo_key] Second); vm_compute; reflexivity. Defined.
