(* ===== verification/Json.v ===== *)
(** * JSON

    The parts of encoding/json and encoding/base64 that the journal uses: JSON
    values with their numbers as literals, the compact text [json.Marshal] writes,
    the value [Decoder.Decode] reads from the start of a text, and the standard
    base64 alphabet of byte slices. *)
From S2P Require Import Prelude Numerals Utf8.

Notation "b =b c" := (Byte.eqb b c) (at level 70, no associativity).

(** ** Base64 *)

Definition b64_char (d : Z) : byte :=
  if d <? 26 then zb (65 + d) else if d <? 52 then zb (71 + d) else if d <? 62 then zb (d - 4)
  else if d =? 62 then x2b else x2f.

Definition b64_digit (b : byte) : option Z :=
  let c := bz b in
  if (65 <=? c) && (c <=? 90) then Some (c - 65)
  else if (97 <=? c) && (c <=? 122) then Some (c - 71)
  else if (48 <=? c) && (c <=? 57) then Some (c + 4)
  else if c =? 43 then Some 62 else if c =? 47 then Some 63 else None.

Fixpoint b64_encode (l : list byte) : list byte :=
  match l with
  | a :: b :: c :: l =>
      b64_char (bz a / 4) :: b64_char (bz a mod 4 * 16 + bz b / 16)
        :: b64_char (bz b mod 16 * 4 + bz c / 64) :: b64_char (bz c mod 64) :: b64_encode l
  | [a; b] => [b64_char (bz a / 4); b64_char (bz a mod 4 * 16 + bz b / 16); b64_char (bz b mod 16 * 4); x3d]
  | [a] => [b64_char (bz a / 4); b64_char (bz a mod 4 * 16); x3d; x3d]
  | [] => []
  end.

(** The text without the line ends the decoder skips. *)
Fixpoint b64_groups (l : list byte) : option (list byte) :=
  match l with
  | [] => Some []
  | a :: b :: c :: d :: l =>
      match b64_digit a, b64_digit b with
      | Some x, Some y =>
          match b64_digit c, b64_digit d with
          | Some z, Some w =>
              rest ← b64_groups l;
              Some (zb (x * 4 + y / 16) :: zb (y mod 16 * 16 + z / 4) :: zb (z mod 4 * 64 + w) :: rest)
          | Some z, None =>
              if (d =b x3d) && bool_decide (l = []) then Some [zb (x * 4 + y / 16); zb (y mod 16 * 16 + z / 4)] else None
          | None, _ =>
              if (c =b x3d) && (d =b x3d) && bool_decide (l = []) then Some [zb (x * 4 + y / 16)] else None
          end
      | _, _ => None
      end
  | _ => None
  end.

Definition b64_decode (l : list byte) : option (list byte) :=
  b64_groups (filter (fun b => b ≠ x0a ∧ b ≠ x0d) l).

(** ** Values *)

Inductive jv : Type :=
| JNull
| JBool (b : bool)
| JNum (lit : list byte)
| JStr (s : list byte)
| JArr (l : list jv)
| JObj (l : list (list byte * jv)).

(** ** Text *)

Definition hex_digit (d : Z) : byte := if d <? 10 then zb (48 + d) else zb (87 + d).

(** [\u00XX] *)
Definition esc_u00 (b : byte) : list byte := [x5c; x75; x30; x30; hex_digit (bz b / 16); hex_digit (bz b mod 16)].

(** [appendString] on one rune. *)
Definition esc_rune (r : option (list byte)) : list byte :=
  match r with
  | None => [x5c; x75; x66; x66; x66; x64]
  | Some [b] =>
      if (b =b x5c) || (b =b x22) then [x5c; b]
      else if b =b x08 then [x5c; x62]
      else if b =b x0c then [x5c; x66]
      else if b =b x0a then [x5c; x6e]
      else if b =b x0d then [x5c; x72]
      else if b =b x09 then [x5c; x74]
      else if (bz b <? 32) || (b =b x3c) || (b =b x3e) || (b =b x26) then esc_u00 b
      else [b]
  | Some c =>
      if bool_decide (c = [xe2; x80; xa8]) then [x5c; x75; x32; x30; x32; x38]
      else if bool_decide (c = [xe2; x80; xa9]) then [x5c; x75; x32; x30; x32; x39]
      else c
  end.

Definition print_string (s : list byte) : list byte := x22 :: concat (esc_rune <$> runes s) ++ [x22].

Fixpoint commas (l : list (list byte)) : list byte :=
  match l with
  | [] => []
  | [x] => x
  | x :: l => x ++ x2c :: commas l
  end.

Definition json_null : list byte := [x6e; x75; x6c; x6c].
Definition json_true : list byte := [x74; x72; x75; x65].
Definition json_false : list byte := [x66; x61; x6c; x73; x65].

Fixpoint print (v : jv) : list byte :=
  match v with
  | JNull => json_null
  | JBool b => if b then json_true else json_false
  | JNum lit => lit
  | JStr s => print_string s
  | JArr l => x5b :: commas (map print l) ++ [x5d]
  | JObj l => x7b :: commas (map (fun p => match p with (k, v) => print_string k ++ x3a :: print v end) l) ++ [x7d]
  end.

(** ** Reading *)

Definition is_space (b : byte) : bool := (b =b x20) || (b =b x09) || (b =b x0a) || (b =b x0d).

Fixpoint skip (l : list byte) : list byte :=
  match l with
  | b :: r => if is_space b then skip r else l
  | [] => []
  end.

Definition hex_value (b : byte) : option Z :=
  let c := bz b in
  if (48 <=? c) && (c <=? 57) then Some (c - 48)
  else if (97 <=? c) && (c <=? 102) then Some (c - 87)
  else if (65 <=? c) && (c <=? 70) then Some (c - 55)
  else None.

Definition hex4 (a b c d : byte) : option Z :=
  match hex_value a, hex_value b, hex_value c, hex_value d with
  | Some a, Some b, Some c, Some d => Some (a * 4096 + b * 256 + c * 16 + d)
  | _, _, _, _ => None
  end.

(** The character a one-letter escape stands for. *)
Definition unescape (b : byte) : option byte :=
  if (b =b x22) || (b =b x5c) || (b =b x2f) then Some b
  else if b =b x62 then Some x08
  else if b =b x66 then Some x0c
  else if b =b x6e then Some x0a
  else if b =b x72 then Some x0d
  else if b =b x74 then Some x09
  else None.

Definition high_surrogate (r : Z) : bool := (0xD800 <=? r) && (r <? 0xDC00).
Definition low_surrogate (r : Z) : bool := (0xDC00 <=? r) && (r <? 0xE000).

Definition cons_str (c : list byte) (r : option (list byte * list byte)) : option (list byte * list byte) :=
  match r with Some (s, t) => Some (c ++ s, t) | None => None end.

(** The rest of a string literal after its opening quote: its value, and what
    follows the closing quote. *)
Fixpoint scan_string (l : list byte) : option (list byte * list byte) :=
  match l with
  | [] => None
  | b :: l =>
      if b =b x22 then Some ([], l)
      else if b =b x5c then
        match l with
        | u :: l =>
            if u =b x75 then
              match l with
              | h1 :: h2 :: h3 :: h4 :: l =>
                  match hex4 h1 h2 h3 h4 with
                  | None => None
                  | Some r =>
                      if high_surrogate r || low_surrogate r then
                        match l with
                        | e :: v :: i1 :: i2 :: i3 :: i4 :: l' =>
                            match hex4 i1 i2 i3 i4 with
                            | Some r' =>
                                if (e =b x5c) && (v =b x75) && high_surrogate r && low_surrogate r'
                                then cons_str (rune_bytes (65536 + (r - 0xD800) * 1024 + (r' - 0xDC00))) (scan_string l')
                                else cons_str RuneError (scan_string l)
                            | None => cons_str RuneError (scan_string l)
                            end
                        | _ => cons_str RuneError (scan_string l)
                        end
                      else cons_str (rune_bytes r) (scan_string l)
                  end
              | _ => None
              end
            else match unescape u with
                 | Some c => cons_str [c] (scan_string l)
                 | None => None
                 end
        | [] => None
        end
      else if bz b <? 32 then None
      else match rune_tail b l, l with
           | Some O, _ => cons_str [b] (scan_string l)
           | Some 1%nat, x :: l => cons_str [b; x] (scan_string l)
           | Some 2%nat, x :: y :: l => cons_str [b; x; y] (scan_string l)
           | Some _, x :: y :: z :: l => cons_str [b; x; y; z] (scan_string l)
           | _, _ => cons_str RuneError (scan_string l)
           end
  end.

Fixpoint span_digits (l : list byte) : list byte * list byte :=
  match l with
  | b :: r => if digit_char b then let '(d, r) := span_digits r in (b :: d, r) else ([], l)
  | [] => ([], [])
  end.

Definition scan_int (l : list byte) : option (list byte * list byte) :=
  match l with
  | b :: r =>
      if b =b x30 then Some ([b], r)
      else if digit_char b then Some (span_digits l) else None
  | [] => None
  end.

Definition scan_frac (l : list byte) : option (list byte * list byte) :=
  match l with
  | b :: r =>
      if b =b x2e then match span_digits r with ([], _) => None | (d, r) => Some (b :: d, r) end
      else Some ([], l)
  | [] => Some ([], [])
  end.

Definition scan_sign (l : list byte) : list byte * list byte :=
  match l with b :: r => if (b =b x2b) || (b =b x2d) then ([b], r) else ([], l) | [] => ([], []) end.

Definition scan_exp (l : list byte) : option (list byte * list byte) :=
  match l with
  | b :: r =>
      if (b =b x65) || (b =b x45) then
        let '(sign, r) := scan_sign r in
        match span_digits r with ([], _) => None | (d, r) => Some (b :: sign ++ d, r) end
      else Some ([], l)
  | [] => Some ([], [])
  end.

Definition scan_number (l : list byte) : option (list byte * list byte) :=
  let '(neg, l) := match l with b :: r => if b =b x2d then ([b], r) else ([], l) | [] => ([], []) end in
  match scan_int l with
  | None => None
  | Some (i, l) =>
      match scan_frac l with
      | None => None
      | Some (f, l) =>
          match scan_exp l with
          | None => None
          | Some (e, l) => Some (neg ++ i ++ f ++ e, l)
          end
      end
  end.

Definition scan_word (w l : list byte) (v : jv) : option (jv * list byte) :=
  if bool_decide (take (length w) l = w) then Some (v, drop (length w) l) else None.

(** The value at the start of [l], after white space, and what follows it. The
    fuel counts calls; twice the length of the text is enough. *)
Fixpoint parse_value (fuel : nat) (l : list byte) : option (jv * list byte) :=
  match fuel with
  | O => None
  | S f =>
      match skip l with
      | [] => None
      | b :: r =>
          if b =b x22 then match scan_string r with Some (s, r) => Some (JStr s, r) | None => None end
          else if b =b x5b then
            match skip r with
            | c :: r' => if c =b x5d then Some (JArr [], r')
                         else match parse_elems f r with Some (vs, r) => Some (JArr vs, r) | None => None end
            | [] => None
            end
          else if b =b x7b then
            match skip r with
            | c :: r' => if c =b x7d then Some (JObj [], r')
                         else match parse_members f r with Some (ms, r) => Some (JObj ms, r) | None => None end
            | [] => None
            end
          else if b =b x6e then scan_word json_null (b :: r) JNull
          else if b =b x74 then scan_word json_true (b :: r) (JBool true)
          else if b =b x66 then scan_word json_false (b :: r) (JBool false)
          else match scan_number (b :: r) with Some (lit, r) => Some (JNum lit, r) | None => None end
      end
  end
with parse_elems (fuel : nat) (l : list byte) : option (list jv * list byte) :=
  match fuel with
  | O => None
  | S f =>
      match parse_value f l with
      | None => None
      | Some (v, r) =>
          match skip r with
          | c :: r =>
              if c =b x2c then match parse_elems f r with Some (vs, r) => Some (v :: vs, r) | None => None end
              else if c =b x5d then Some ([v], r) else None
          | [] => None
          end
      end
  end
with parse_members (fuel : nat) (l : list byte) : option (list (list byte * jv) * list byte) :=
  match fuel with
  | O => None
  | S f =>
      match skip l with
      | q :: r =>
          if negb (q =b x22) then None else
          match scan_string r with
          | None => None
          | Some (k, r) =>
              match skip r with
              | c :: r =>
                  if negb (c =b x3a) then None else
                  match parse_value f r with
                  | None => None
                  | Some (v, r) =>
                      match skip r with
                      | c :: r =>
                          if c =b x2c then match parse_members f r with Some (ms, r) => Some ((k, v) :: ms, r) | None => None end
                          else if c =b x7d then Some ([(k, v)], r) else None
                      | [] => None
                      end
                  end
              | [] => None
              end
          end
      | [] => None
      end
  end.

Definition parse (l : list byte) : option (jv * list byte) := parse_value (S (2 * length l)) l.
