(* ===== verification/JsonFacts.v ===== *)
(** * Facts of JSON texts

    What [print] writes, [parse] reads back, up to the bytes of a string that are
    not UTF-8; and base64 is exact on every byte string. *)
From S2P Require Import Prelude Numerals Utf8 Json.

(** ** Base64 *)

Lemma b64_digit_char d : 0 ≤ d < 64 → b64_digit (b64_char d) = Some d.
Proof.
  intros H. unfold b64_char.
  repeat case_match; repeat match goal with H : (_ <? _) = _ |- _ => rewrite ?Z.ltb_lt, ?Z.ltb_ge in H | H : (_ =? _) = _ |- _ => rewrite ?Z.eqb_eq, ?Z.eqb_neq in H end.
  1-3: unfold b64_digit; rewrite bz_zb, Z.mod_small by lia; repeat case_match; f_equal; lia.
  - by subst.
  - by replace d with 63 by lia.
Qed.

Lemma b64_char_not_pad d : 0 ≤ d < 64 → b64_char d ≠ x0a ∧ b64_char d ≠ x0d.
Proof. intros H. pose proof (b64_digit_char d H) as Hd. split; intros E; rewrite E in Hd; discriminate. Qed.

(** The four digits of three bytes, and of the two and one at the end. *)
Lemma b64_ranges a b c :
  0 ≤ bz a / 4 < 64 ∧ 0 ≤ bz a mod 4 * 16 + bz b / 16 < 64 ∧ 0 ≤ bz b mod 16 * 4 + bz c / 64 < 64
  ∧ 0 ≤ bz c mod 64 < 64 ∧ 0 ≤ bz b mod 16 * 4 < 64 ∧ 0 ≤ bz a mod 4 * 16 < 64
  ∧ 0 ≤ bz b / 16 < 16 ∧ 0 ≤ bz c / 64 < 4.
Proof. pose proof (bz_range a). pose proof (bz_range b). pose proof (bz_range c). lia. Qed.

Lemma triple_ind (P : list byte → Prop) :
  P [] → (∀ a, P [a]) → (∀ a b, P [a; b]) → (∀ a b c l, P l → P (a :: b :: c :: l)) → ∀ l, P l.
Proof.
  intros H0 H1 H2 H3. fix IH 1. intros [|a [|b [|c l]]]; [exact H0|apply H1|apply H2|apply H3, IH].
Qed.

Lemma zb_of z b : z = bz b → zb z = b.
Proof. intros ->. apply zb_bz. Qed.

Lemma b64_pad : b64_digit x3d = None.
Proof. reflexivity. Qed.

Lemma digits_split q r k : 0 ≤ r < k → (q * k + r) / k = q ∧ (q * k + r) mod k = r.
Proof. intros H. split; [rewrite Z.div_add_l by lia; rewrite Z.div_small by lia; lia|]. rewrite Z.add_comm, Z.mod_add, Z.mod_small; lia. Qed.

Lemma zb_join b k : 0 < k → zb (bz b / k * k + bz b mod k) = b.
Proof. intros H. apply zb_of. rewrite Z.mul_comm. symmetry. by apply Z.div_mod; lia. Qed.

Lemma b64_groups_encode l : b64_groups (b64_encode l) = Some l.
Proof.
  induction l as [|a|a b|a b c l IH] using triple_ind; [done| | |]; cbn [b64_encode b64_groups].
  - destruct (b64_ranges a a a) as (?&?&?&?&?&?&?&?). rewrite !b64_digit_char, b64_pad by done. cbn match.
    rewrite Z.div_mul, zb_join by done. reflexivity.
  - destruct (b64_ranges a b b) as (?&?&?&?&?&?&?&?). rewrite !b64_digit_char, b64_pad by done. cbn match.
    destruct (digits_split (bz a mod 4) (bz b / 16) 16) as [-> ->]; [done|].
    rewrite Z.div_mul, !zb_join by done. reflexivity.
  - destruct (b64_ranges a b c) as (?&?&?&?&?&?&?&?).
    rewrite !b64_digit_char by done. rewrite IH. cbn match.
    destruct (digits_split (bz a mod 4) (bz b / 16) 16) as [-> ->]; [done|].
    destruct (digits_split (bz b mod 16) (bz c / 64) 4) as [-> ->]; [done|].
    rewrite !zb_join by done. reflexivity.
Qed.

Lemma b64_encode_plain l : Forall (fun b => b ≠ x0a ∧ b ≠ x0d) (b64_encode l).
Proof.
  induction l as [|a|a b|a b c l IH] using triple_ind; cbn [b64_encode]; [done| | |].
  - destruct (b64_ranges a a a) as (?&?&?&?&?&?&?&?).
    apply Forall_cons; split; [by apply b64_char_not_pad|]. apply Forall_cons; split; [by apply b64_char_not_pad|].
    repeat (constructor; [done|]). constructor.
  - destruct (b64_ranges a b b) as (?&?&?&?&?&?&?&?).
    do 3 (apply Forall_cons; split; [by apply b64_char_not_pad|]). repeat (constructor; [done|]). constructor.
  - destruct (b64_ranges a b c) as (?&?&?&?&?&?&?&?).
    do 4 (apply Forall_cons; split; [by apply b64_char_not_pad|]). done.
Qed.

Lemma filter_Forall_id {A} (P : A → Prop) `{!∀ x, Decision (P x)} l : Forall P l → filter P l = l.
Proof. induction 1; [done|]. rewrite filter_cons_True by done. by f_equal. Qed.

Lemma b64_roundtrip l : b64_decode (b64_encode l) = Some l.
Proof. unfold b64_decode. rewrite filter_Forall_id by apply b64_encode_plain. apply b64_groups_encode. Qed.

(** ** Strings *)

Lemma beqb_false b c : b ≠ c → (b =b c) = false.
Proof. intros H. destruct (Byte.eqb b c) eqn:E; [|done]. by apply Byte.byte_dec_bl in E. Qed.

Lemma scan_step b l :
  (b =b x22) = false → (b =b x5c) = false → bz b <? 32 = false →
  scan_string (b :: l) = match rune_tail b l with
                         | Some n => cons_str (b :: take n l) (scan_string (drop n l))
                         | None => cons_str RuneError (scan_string l)
                         end.
Proof.
  intros H1 H2 H3. cbn [scan_string]. rewrite H1, H2, H3.
  destruct (rune_tail b l) as [n|] eqn:E; [|by destruct l].
  apply rune_tail_le in E as (Hl&Hn&_).
  destruct n as [|[|[|[|n]]]]; try lia; destruct l as [|x [|y [|z l]]]; cbn [length] in *; try lia; by rewrite ?drop_0.
Qed.

Lemma scan_ascii b t : is_rune [b] → scan_string (esc_rune (Some [b]) ++ t) = cons_str [b] (scan_string t).
Proof. destruct b; intros H; first [discriminate H | reflexivity]. Qed.

Lemma scan_wide b x c t :
  is_rune (b :: x :: c) → scan_string ((b :: x :: c) ++ t) = cons_str (b :: x :: c) (scan_string t).
Proof.
  intros H. assert (Hb : 194 ≤ bz b).
  { unfold is_rune, rune_tail, utf8_lead in H. repeat case_match; simplify_eq; lia. }
  cbn [app]. rewrite scan_step.
  - change (x :: c ++ t) with ((x :: c) ++ t). rewrite (rune_tail_app _ _ _ H), take_app_length, drop_app_length. done.
  - apply beqb_false. intros ->. vm_compute in Hb. done.
  - apply beqb_false. intros ->. vm_compute in Hb. done.
  - lia.
Qed.

Lemma scan_rune c t : is_rune c → scan_string (esc_rune (Some c) ++ t) = cons_str c (scan_string t).
Proof.
  destruct c as [|b [|x c]]; [done|apply scan_ascii|]. intros H. unfold esc_rune.
  case_bool_decide as E1; [rewrite E1; reflexivity|].
  case_bool_decide as E2; [rewrite E2; reflexivity|]. by apply scan_wide.
Qed.

Lemma cons_str_app c s t r : r = Some (s, t) → cons_str c r = Some (c ++ s, t).
Proof. by intros ->. Qed.

(** A string literal reads as its text with U+FFFD for every invalid byte. *)
Lemma scan_print s t : scan_string (concat (esc_rune <$> runes s) ++ x22 :: t) = Some (sanitize s, t).
Proof.
  induction s as [|b l H IH|b c l H IH] using runes_ind; [done| |].
  - rewrite runes_bad, sanitize_bad by done. rewrite fmap_cons. cbn [concat]. rewrite <- app_assoc.
    transitivity (cons_str RuneError (scan_string (concat (esc_rune <$> runes l) ++ x22 :: t))); [reflexivity|].
    by apply cons_str_app.
  - rewrite runes_good, sanitize_good by done. rewrite fmap_cons. cbn [concat]. rewrite <- app_assoc.
    rewrite scan_rune by done. by apply cons_str_app.
Qed.

(** ** Numbers *)

(** The literals of integers, and what may follow a literal. *)
Definition digits_text (d : list byte) : Prop := Forall (fun b => digit_char b = true) d ∧ no_leading_zero d.
Definition number_text (lit : list byte) : Prop := ∃ d, digits_text d ∧ (lit = d ∨ lit = x2d :: d).
Definition stops (t : list byte) : Prop :=
  match t with b :: _ => digit_char b = false ∧ b ≠ x2e ∧ b ≠ x65 ∧ b ≠ x45 | [] => True end.

Lemma decimal_chars f n : 0 ≤ n → Forall (fun b => digit_char b = true) (decimal f n).
Proof.
  revert n. induction f as [|f IH]; intros n Hn; [done|]. cbn [decimal]. destruct (Z.ltb_spec n 10).
  - constructor; [|done]. by apply digit_char_zb.
  - apply Forall_app. split; [apply IH; dlia|]. constructor; [|done]. apply digit_char_zb. dlia.
Qed.

Lemma digits_text_decimal n : 0 ≤ n < 10 ^ 20 → digits_text (decimal 20 n).
Proof. intros H. split; [apply decimal_chars; lia|apply decimal_canonical; cbn; lia]. Qed.

Lemma number_FormatInt n : - 10 ^ 20 < n < 10 ^ 20 → number_text (FormatInt n).
Proof.
  intros H. unfold FormatInt. destruct (Z.ltb_spec n 0).
  - exists (decimal 20 (- n)). split; [apply digits_text_decimal; lia|by right].
  - exists (decimal 20 n). split; [apply digits_text_decimal; lia|by left].
Qed.

Lemma number_FormatUint n : 0 ≤ n < 10 ^ 20 → number_text (FormatUint n).
Proof. intros H. exists (decimal 20 n). split; [by apply digits_text_decimal|by left]. Qed.

Lemma span_digits_app d t :
  Forall (fun b => digit_char b = true) d → stops t → span_digits (d ++ t) = (d, t).
Proof.
  induction 1 as [|b d Hb _ IH]; intros Ht; cbn [app span_digits].
  - destruct t as [|b t]; [done|]. destruct Ht as [Ht _]. cbn [span_digits]. by rewrite Ht.
  - by rewrite Hb, IH.
Qed.

Lemma scan_int_app d t : digits_text d → stops t → scan_int (d ++ t) = Some (d, t).
Proof.
  intros [Hd Hz] Ht. destruct d as [|b d]; [done|]. cbn [app scan_int].
  destruct (Byte.eqb b x30) eqn:E.
  - apply Byte.byte_dec_bl in E. subst. destruct d; done.
  - pose proof (span_digits_app _ _ Hd Ht) as Hs. inversion_clear Hd as [|? ? Hb]. cbn [app] in Hs. by rewrite Hb, Hs.
Qed.

Lemma scan_frac_stop t : stops t → scan_frac t = Some ([], t).
Proof. destruct t as [|b t]; [done|]. intros (_&H&_). cbn [scan_frac]. by rewrite beqb_false. Qed.

Lemma scan_exp_stop t : stops t → scan_exp t = Some ([], t).
Proof. destruct t as [|b t]; [done|]. intros (_&_&H&H'). cbn [scan_exp]. by rewrite !beqb_false. Qed.

Lemma scan_number_app lit t : number_text lit → stops t → scan_number (lit ++ t) = Some (lit, t).
Proof.
  intros (d&Hd&Hlit) Ht. unfold scan_number.
  assert (Hn : match d ++ t with b :: r => if b =b x2d then ([b], r) else ([], d ++ t) | [] => ([], []) end = ([], d ++ t)).
  { destruct Hd as [Hd Hz]. destruct d as [|b d]; [done|]. cbn [app]. rewrite beqb_false; [done|].
    intros ->. by inversion Hd. }
  destruct Hlit as [->| ->]; [rewrite Hn|cbn [app]; change (x2d =b x2d) with true; cbn match];
    rewrite scan_int_app, scan_frac_stop, scan_exp_stop by done; by rewrite !app_nil_r.
Qed.

(** ** Values *)

Inductive json_wf : jv → Prop :=
| wf_null : json_wf JNull
| wf_bool b : json_wf (JBool b)
| wf_num lit : number_text lit → json_wf (JNum lit)
| wf_str s : json_wf (JStr s)
| wf_arr l : Forall json_wf l → json_wf (JArr l)
| wf_obj l : Forall (fun p => json_wf p.2) l → json_wf (JObj l).

(** The value with every string sanitized. *)
Fixpoint clean (v : jv) : jv :=
  match v with
  | JStr s => JStr (sanitize s)
  | JArr l => JArr (map clean l)
  | JObj l => JObj (map (fun p => match p with (k, v) => (sanitize k, clean v) end) l)
  | _ => v
  end.

Section jv_ind.
Context (P : jv → Prop) (Hnull : P JNull) (Hbool : ∀ b, P (JBool b)) (Hnum : ∀ l, P (JNum l)) (Hstr : ∀ s, P (JStr s))
  (Harr : ∀ l, Forall P l → P (JArr l)) (Hobj : ∀ l, Forall (fun p => P p.2) l → P (JObj l)).

Fixpoint jv_ind' (v : jv) : P v :=
  match v with
  | JNull => Hnull
  | JBool b => Hbool b
  | JNum l => Hnum l
  | JStr s => Hstr s
  | JArr l => Harr l ((fix go l := match l return Forall P l with
                       | [] => List.Forall_nil _ | v :: l => List.Forall_cons _ v l (jv_ind' v) (go l) end) l)
  | JObj l => Hobj l ((fix go l := match l return Forall (fun p => P p.2) l with
                       | [] => List.Forall_nil _
                       | (k, v) :: l => List.Forall_cons _ (k, v) l (jv_ind' v) (go l) end) l)
  end.
End jv_ind.

(** The first byte of a printed value. *)
Definition starts_value (b : byte) : Prop :=
  is_space b = false ∧ b ≠ x5d ∧ b ≠ x7d ∧ b ≠ x00 ∧ b ≠ x01.

Lemma print_head v : json_wf v → ∃ b r, print v = b :: r ∧ starts_value b.
Proof.
  destruct 1 as [|[]|lit (d&[Hd Hz]&Hlit)| | | ]; try (eexists _, _; split; [reflexivity|by vm_compute]).
  destruct Hlit as [->| ->]; [|eexists _, _; split; [reflexivity|by vm_compute]].
  destruct d as [|b d]; [done|]. exists b, d. split; [done|]. inversion_clear Hd as [|? ? Hb].
  unfold starts_value. destruct b; done.
Qed.

Lemma skip_head b r : is_space b = false → skip (b :: r) = b :: r.
Proof. intros H. cbn [skip]. by rewrite H. Qed.

(** What may follow a value inside a frame. *)
Definition closes (t : list byte) : Prop := match t with b :: _ => b = x2c ∨ b = x5d ∨ b = x7d | [] => True end.

Lemma closes_stops t : closes t → stops t.
Proof. destruct t as [|b t]; [done|]. intros [->|[->| ->]]; by vm_compute. Qed.

Lemma closes_skip b t : closes (b :: t) → skip (b :: t) = b :: t.
Proof. intros [->|[->| ->]]; done. Qed.

Definition reads_back (v : jv) : Prop :=
  ∀ fuel t, json_wf v → closes t → (2 * length (print v) ≤ fuel)%nat → parse_value fuel (print v ++ t) = Some (clean v, t).

Lemma commas_cons x l : l ≠ [] → commas (x :: l) = x ++ x2c :: commas l.
Proof. by destruct l. Qed.

Lemma parse_elems_print l fuel t :
  Forall reads_back l → Forall json_wf l → l ≠ [] → (2 * length (commas (map print l)) < fuel)%nat →
  parse_elems fuel (commas (map print l) ++ x5d :: t) = Some (map clean l, t).
Proof.
  intros Hl. revert fuel. induction Hl as [|v l Hv _ IH]; intros fuel Hwf Hne Hf; [done|].
  inversion_clear Hwf as [|? ? Hw Hws]. destruct fuel as [|fuel]; [lia|]. destruct l as [|w l].
  - cbn [map commas] in *. cbn [parse_elems]. rewrite Hv; [reflexivity|done|right; by left|lia].
  - cbn [map] in *. rewrite commas_cons in * by done. rewrite length_app in Hf. cbn [length] in Hf.
    rewrite <- app_assoc. cbn [app parse_elems]. rewrite Hv; [|done|by left|lia].
    cbn [skip]. change (is_space x2c) with false. cbn match. change (x2c =b x2c) with true. cbn match.
    rewrite IH; [done|done|done|lia].
Qed.

Definition print_member (p : list byte * jv) : list byte := match p with (k, v) => print_string k ++ x3a :: print v end.
Definition clean_member (p : list byte * jv) : list byte * jv := match p with (k, v) => (sanitize k, clean v) end.

(** A member is its quote, its key, a colon and its value. *)
Lemma parse_member k v f rest :
  parse_members (S f) (print_member (k, v) ++ rest) =
  match parse_value f (print v ++ rest) with
  | None => None
  | Some (v, r) =>
      match skip r with
      | c :: r =>
          if c =b x2c then match parse_members f r with Some (ms, r) => Some ((sanitize k, v) :: ms, r) | None => None end
          else if c =b x7d then Some ([(sanitize k, v)], r) else None
      | [] => None
      end
  end.
Proof.
  unfold print_member, print_string. cbn [app parse_members skip].
  change (is_space x22) with false. cbn match. change (negb (x22 =b x22)) with false. cbn match.
  rewrite <- !app_assoc. cbn [app]. rewrite scan_print.
  cbn [skip]. change (is_space x3a) with false. cbn match. change (negb (x3a =b x3a)) with false. cbn match. done.
Qed.

Lemma print_member_length k v : (2 + length (print v) ≤ length (print_member (k, v)))%nat.
Proof. unfold print_member, print_string. rewrite !length_app. cbn [length]. lia. Qed.

Lemma parse_members_print l fuel t :
  Forall (fun p => reads_back p.2) l → Forall (fun p => json_wf p.2) l → l ≠ [] →
  (2 * length (commas (map print_member l)) < fuel)%nat →
  parse_members fuel (commas (map print_member l) ++ x7d :: t) = Some (map clean_member l, t).
Proof.
  intros Hl. revert fuel. induction Hl as [|[k v] l Hv _ IH]; intros fuel Hwf Hne Hf; [done|].
  inversion_clear Hwf as [|? ? Hw Hws]. destruct fuel as [|fuel]; [lia|]. pose proof (print_member_length k v).
  cbn [snd] in Hv, Hw. destruct l as [|w l].
  - cbn [map commas] in *. rewrite parse_member, Hv; [reflexivity|done|right; by right|lia].
  - cbn [map] in *. rewrite commas_cons in * by done. rewrite length_app in Hf. cbn [length] in Hf.
    rewrite <- app_assoc. cbn [app]. rewrite parse_member, Hv; [|done|by left|lia].
    cbn [skip]. change (is_space x2c) with false. cbn match. change (x2c =b x2c) with true. cbn match.
    rewrite IH; [done|done|done|lia].
Qed.

Lemma commas_head l b r : hd [] l = b :: r → ∃ r', commas l = b :: r'.
Proof. destruct l as [|x [|y l]]; [done| |]; cbn [hd]; intros ->; cbn [commas app]; eauto. Qed.

Lemma parse_print_num lit : reads_back (JNum lit).
Proof.
  intros fuel t Hw Ht Hf. inversion_clear Hw as [| |? Hlit| | |]. pose proof Hlit as (d&[Hd Hz]&Hl).
  cbn [print clean] in *. pose proof (scan_number_app _ _ Hlit (closes_stops _ Ht)) as Hs.
  destruct lit as [|b lit]; [destruct Hl as [<-|?]; done|]. destruct fuel as [|fuel]; [cbn [length] in Hf; lia|].
  assert (Hb : digit_char b = true ∨ b = x2d).
  { destruct Hl as [<-|?]; [left; by inversion Hd|right; congruence]. }
  cbn [parse_value app] in *. rewrite skip_head by (destruct b, Hb; done). cbn match.
  rewrite (beqb_false b x22), (beqb_false b x5b), (beqb_false b x7b), (beqb_false b x6e), (beqb_false b x74), (beqb_false b x66)
    by (intros ->; by destruct Hb).
  by rewrite Hs.
Qed.

Lemma parse_print_arr l : Forall reads_back l → reads_back (JArr l).
Proof.
  intros Hl fuel t Hw Ht Hf. inversion_clear Hw as [| | | |? Hwl|].
  cbn [print clean] in *. cbn [length] in Hf. rewrite length_app in Hf. cbn [length] in Hf.
  destruct fuel as [|fuel]; [lia|]. cbn [app parse_value skip]. change (is_space x5b) with false. cbn match.
  change (x5b =b x22) with false. change (x5b =b x5b) with true. cbn match. rewrite <- app_assoc. cbn [app].
  destruct l as [|v l]; [reflexivity|]. inversion_clear Hwl as [|? ? Hv Hvs].
  destruct (print_head v Hv) as (b&r&Hp&Hsp&Hb&_).
  destruct (commas_head (map print (v :: l)) b r Hp) as [r' Hc].
  pose proof (parse_elems_print (v :: l) fuel t Hl ltac:(by constructor) ltac:(done) ltac:(lia)) as He.
  rewrite Hc in *. cbn [app] in *. rewrite skip_head by done. rewrite (beqb_false b x5d) by done. by rewrite He.
Qed.

Lemma parse_print_obj l : Forall (fun p => reads_back p.2) l → reads_back (JObj l).
Proof.
  intros Hl fuel t Hw Ht Hf. inversion_clear Hw as [| | | | |? Hwl].
  change (print (JObj l)) with (x7b :: commas (map print_member l) ++ [x7d]) in *.
  change (clean (JObj l)) with (JObj (map clean_member l)). cbn [length] in Hf. rewrite length_app in Hf. cbn [length] in Hf.
  destruct fuel as [|fuel]; [lia|]. cbn [app parse_value skip]. change (is_space x7b) with false. cbn match.
  change (x7b =b x22) with false. change (x7b =b x5b) with false. change (x7b =b x7b) with true. cbn match.
  rewrite <- app_assoc. cbn [app]. destruct l as [|[k v] l]; [reflexivity|].
  destruct (commas_head (map print_member ((k, v) :: l)) x22 (concat (esc_rune <$> runes k) ++ [x22] ++ x3a :: print v)) as [r' Hc].
  { cbn [map hd]. unfold print_member, print_string. cbn [app]. by rewrite <- !app_assoc. }
  pose proof (parse_members_print ((k, v) :: l) fuel t Hl Hwl ltac:(done) ltac:(lia)) as He.
  rewrite Hc in *. cbn [app] in *. rewrite skip_head by done. rewrite (beqb_false x22 x7d) by done. by rewrite He.
Qed.

Lemma parse_print_value v : reads_back v.
Proof.
  induction v as [| [] |lit|s|l IH|l IH] using jv_ind'.
  - intros [|f] t _ _ Hf; [cbn in Hf; lia|reflexivity].
  - intros [|f] t _ _ Hf; [cbn in Hf; lia|reflexivity].
  - intros [|f] t _ _ Hf; [cbn in Hf; lia|reflexivity].
  - apply parse_print_num.
  - intros [|f] t _ _ Hf; [cbn in Hf; lia|]. cbn [print clean]. unfold print_string.
    cbn [app parse_value skip]. change (is_space x22) with false. cbn match. change (x22 =b x22) with true. cbn match.
    rewrite <- app_assoc. cbn [app]. by rewrite scan_print.
  - by apply parse_print_arr.
  - by apply parse_print_obj.
Qed.

(** The printed value reads back, sanitized. *)
Lemma parse_print v : json_wf v → parse (print v) = Some (clean v, []).
Proof.
  intros H. unfold parse. rewrite <- (app_nil_r (print v)) at 2. apply parse_print_value; [done|done|lia].
Qed.
