(* ===== verification/Records.v ===== *)
(** * Persistence records

    The records of internal/persistence/log.go and their JSON, as the struct tags
    give it: field names, omitted empty fields, base64 byte slices. A byte slice
    whose text shows whether it is nil is an option; the slices that are omitted
    when empty are lists. Decoding follows encoding/json with unknown fields
    disallowed: names match up to case, [null] leaves a value as it is, and any
    mismatch of types is an error. Reading a record back gives the same record
    with its strings sanitized: the byte slices are exact, the strings only when
    they are UTF-8. *)
From S2P Require Import Prelude Numerals Utf8 Json JsonFacts.
Set Default Proof Using "Type".

(** ** Data *)

Record ReplicationCheckpoint := mkCheckpoint {
  MasterHost : list byte; MasterPort : Z; MasterRunID : list byte; Offset : Z; RedisStream : bool; Clear : bool;
}.

Record PublishEvent := mkPublish { Channel : option (list byte); Message : option (list byte); Shard_ : bool }.

Record ConsumerState := mkConsumer { cName : list byte; SeenAt : Z; ActiveAt : Z }.

Record PendingState := mkPending { pID : Z * Z; Consumer : list byte; DeliveredAt : Z; Deliveries : Z }.

Record GroupDelta := mkGroupDelta {
  gName : list byte; gRemove : bool; gSet : bool; LastDelivered : Z * Z; EntriesRead : Z;
  Consumers : list ConsumerState; DelConsumers : list (list byte);
  Pending : list PendingState; DelPending : list (Z * Z);
}.

Record StreamDelta := mkStreamDelta {
  Create_ : bool; Append_ : list byte; AppendCount : Z;
  RemoveThrough : Z * Z; HasRemoveThrough : bool; Delete_ : list byte;
  LastID : Z * Z; MaxDeletedID : Z * Z; EntriesAdded : Z;
  Groups : list byte; GroupsSet : bool; GroupOps : list GroupDelta;
}.

Record Record_ := mkRecord {
  Reset : bool; Key : option (list byte); Value : list byte; ExpiresAtMS : Z; Deleted : bool; ValueType : Z;
  Replication : option ReplicationCheckpoint; Stream : option StreamDelta; Publish : option PublishEvent;
}.

(** [Record{Key: k, Value: v}], [Record{Reset: true}] and the zero values. *)
Definition setRecord (k : option (list byte)) (v : list byte) : Record_ := mkRecord false k v 0 false 0 None None None.
Definition zeroRecord : Record_ := setRecord None [].
Definition resetRecord : Record_ := mkRecord true None [] 0 false 0 None None None.
Definition zeroCheckpoint : ReplicationCheckpoint := mkCheckpoint [] 0 [] 0 false false.
Definition zeroPublish : PublishEvent := mkPublish None None false.
Definition zeroConsumer : ConsumerState := mkConsumer [] 0 0.
Definition zeroPending : PendingState := mkPending (0, 0) [] 0 0.
Definition zeroGroupDelta : GroupDelta := mkGroupDelta [] false false (0, 0) 0 [] [] [] [].
Definition zeroStreamDelta : StreamDelta := mkStreamDelta false [] 0 (0, 0) false [] (0, 0) (0, 0) 0 [] false [].

Fixpoint RecoverReplicationCheckpoint (current : option ReplicationCheckpoint) (records : list Record_)
    : option ReplicationCheckpoint :=
  match records with
  | [] => current
  | r :: records =>
      match Replication r with
      | None => RecoverReplicationCheckpoint current records
      | Some c =>
          if Clear c then RecoverReplicationCheckpoint (Some (mkCheckpoint [] 0 [] 0 false true)) records
          else RecoverReplicationCheckpoint (Some c) records
      end
  end.

(** ** To JSON *)

Definition name (s : string) : list byte := String.list_byte_of_string s.

(** Fields in order; the flag says whether the field is written. *)
Definition obj_members (fs : list (bool * string * jv)) : list (list byte * jv) :=
  omap (fun f : bool * string * jv => let '(p, k, v) := f in if p then Some (name k, v) else None) fs.
Definition obj (fs : list (bool * string * jv)) : jv := JObj (obj_members fs).

Definition jint (n : Z) : jv := JNum (FormatInt n).
Definition juint (n : Z) : jv := JNum (FormatUint n).
Definition jbytes (o : option (list byte)) : jv := match o with None => JNull | Some b => JStr (b64_encode b) end.
Definition jpair (p : Z * Z) : jv := JArr [juint p.1; juint p.2].
Definition jptr {A} (f : A → jv) (o : option A) : jv := match o with None => JNull | Some a => f a end.

(** Not empty, as [omitempty] has it. *)
Definition nonzero (n : Z) : bool := negb (n =? 0).
Definition nonempty {A} (l : list A) : bool := match l with [] => false | _ => true end.
Definition present {A} (o : option A) : bool := match o with None => false | Some _ => true end.

Definition json_checkpoint (c : ReplicationCheckpoint) : jv := obj [
  (nonempty (MasterHost c), "master_host", JStr (MasterHost c));
  (nonzero (MasterPort c), "master_port", jint (MasterPort c));
  (nonempty (MasterRunID c), "master_run_id", JStr (MasterRunID c));
  (nonzero (Offset c), "offset", jint (Offset c));
  (RedisStream c, "redis_stream", JBool (RedisStream c));
  (Clear c, "clear", JBool (Clear c))].

Definition json_publish (p : PublishEvent) : jv := obj [
  (true, "channel", jbytes (Channel p));
  (true, "message", jbytes (Message p));
  (Shard_ p, "shard", JBool (Shard_ p))].

Definition json_consumer (c : ConsumerState) : jv := obj [
  (true, "name", JStr (cName c)); (true, "seen_at", jint (SeenAt c)); (true, "active_at", jint (ActiveAt c))].

Definition json_pending (p : PendingState) : jv := obj [
  (true, "id", jpair (pID p)); (true, "consumer", JStr (Consumer p));
  (true, "delivered_at", jint (DeliveredAt p)); (true, "deliveries", juint (Deliveries p))].

(** An array is never empty, so [omitempty] writes every ID pair. *)
Definition json_group (g : GroupDelta) : jv := obj [
  (true, "name", JStr (gName g));
  (gRemove g, "remove", JBool (gRemove g));
  (gSet g, "set", JBool (gSet g));
  (true, "last_delivered", jpair (LastDelivered g));
  (nonzero (EntriesRead g), "entries_read", jint (EntriesRead g));
  (nonempty (Consumers g), "consumers", JArr (json_consumer <$> Consumers g));
  (nonempty (DelConsumers g), "del_consumers", JArr (JStr <$> DelConsumers g));
  (nonempty (Pending g), "pending", JArr (json_pending <$> Pending g));
  (nonempty (DelPending g), "del_pending", JArr (jpair <$> DelPending g))].

Definition json_stream (d : StreamDelta) : jv := obj [
  (Create_ d, "create", JBool (Create_ d));
  (nonempty (Append_ d), "append", jbytes (Some (Append_ d)));
  (nonzero (AppendCount d), "append_count", jint (AppendCount d));
  (true, "remove_through", jpair (RemoveThrough d));
  (HasRemoveThrough d, "has_remove_through", JBool (HasRemoveThrough d));
  (nonempty (Delete_ d), "delete", jbytes (Some (Delete_ d)));
  (true, "last_id", jpair (LastID d));
  (true, "max_deleted_id", jpair (MaxDeletedID d));
  (true, "entries_added", juint (EntriesAdded d));
  (nonempty (Groups d), "groups", jbytes (Some (Groups d)));
  (GroupsSet d, "groups_set", JBool (GroupsSet d));
  (nonempty (GroupOps d), "group_ops", JArr (json_group <$> GroupOps d))].

Definition json_record (r : Record_) : jv := obj [
  (Reset r, "reset", JBool (Reset r));
  (true, "key", jbytes (Key r));
  (nonempty (Value r), "value", jbytes (Some (Value r)));
  (nonzero (ExpiresAtMS r), "expires_at_ms", jint (ExpiresAtMS r));
  (Deleted r, "deleted", JBool (Deleted r));
  (nonzero (ValueType r), "value_type", juint (ValueType r));
  (present (Replication r), "replication", jptr json_checkpoint (Replication r));
  (present (Stream r), "stream", jptr json_stream (Stream r));
  (present (Publish r), "publish", jptr json_publish (Publish r))].

(** [json.Marshal] of a slice of records that is not nil. *)
Definition Marshal (records : list Record_) : list byte := print (JArr (json_record <$> records)).

(** ** From JSON *)

(** Names compare up to case; two letters outside ASCII fold into it. *)
Fixpoint fold_name (l : list byte) : list byte :=
  match l with
  | [] => []
  | b :: r =>
      match r with
      | c :: r' =>
          if (b =b xc5) && (c =b xbf) then x53 :: fold_name r'
          else match r' with
               | d :: r'' =>
                   if (b =b xe2) && (c =b x84) && (d =b xaa) then x4b :: fold_name r''
                   else (if byte_in 97 122 b then zb (bz b - 32) else b) :: fold_name r
               | [] => (if byte_in 97 122 b then zb (bz b - 32) else b) :: fold_name r
               end
      | [] => [if byte_in 97 122 b then zb (bz b - 32) else b]
      end
  end.
Definition same_name (k k' : list byte) : bool := bool_decide (fold_name k = fold_name k').

(** A decoder turns the current value into the one the text gives. *)
Abbreviation decoder A := (A → jv → option A).

Definition dec_bool : decoder bool := fun cur v => match v with JNull => Some cur | JBool b => Some b | _ => None end.
Definition dec_str : decoder (list byte) := fun cur v => match v with JNull => Some cur | JStr s => Some s | _ => None end.
Definition dec_int : decoder Z := fun cur v => match v with JNull => Some cur | JNum lit => ParseInt lit | _ => None end.
Definition dec_uint (max : Z) : decoder Z := fun cur v =>
  match v with
  | JNull => Some cur
  | JNum lit => match ParseUint lit with Some n => if n <=? max then Some n else None | None => None end
  | _ => None
  end.
Definition dec_u64 : decoder Z := dec_uint (2 ^ 64 - 1).

Fixpoint dec_all {A} (d : jv → option A) (l : list jv) : option (list A) :=
  match l with
  | [] => Some []
  | v :: l => a ← d v; rest ← dec_all d l; Some (a :: rest)
  end.

(** A byte slice: base64, or an array of numbers; [null] is the nil slice. *)
Definition dec_slice : decoder (option (list byte)) := fun _ v =>
  match v with
  | JNull => Some None
  | JStr s => option_map Some (b64_decode s)
  | JArr l => option_map (fun ns => Some (map zb ns)) (dec_all (dec_uint 255 0) l)
  | _ => None
  end.
Definition dec_bytes : decoder (list byte) := fun _ v => option_map (default []) (dec_slice None v).

Definition dec_list {A} (zero : A) (d : decoder A) : decoder (list A) := fun _ v =>
  match v with JNull => Some [] | JArr l => dec_all (d zero) l | _ => None end.

(** An array of two: missing elements become zero, further ones are ignored. *)
Definition dec_pair : decoder (Z * Z) := fun cur v =>
  match v with
  | JNull => Some cur
  | JArr [] => Some (0, 0)
  | JArr [a] => x ← dec_u64 cur.1 a; Some (x, 0)
  | JArr (a :: b :: _) => x ← dec_u64 cur.1 a; y ← dec_u64 cur.2 b; Some (x, y)
  | _ => None
  end.

Definition dec_ptr {A} (zero : A) (d : decoder A) : decoder (option A) := fun cur v =>
  match v with JNull => Some None | _ => a ← d (default zero cur) v; Some (Some a) end.

(** One field of an object: every member of its name, in order. *)
Fixpoint dec_field {A} (n : list byte) (d : decoder A) (cur : A) (ms : list (list byte * jv)) : option A :=
  match ms with
  | [] => Some cur
  | (k, v) :: ms => if same_name n k then cur ← d cur v; dec_field n d cur ms else dec_field n d cur ms
  end.

Definition known (names : list string) (ms : list (list byte * jv)) : bool :=
  forallb (fun m => existsb (fun n => same_name (name n) m.1) names) ms.

(** A struct: an object without unknown members. *)
Definition dec_struct {A} (names : list string) (build : A → list (list byte * jv) → option A) : decoder A := fun cur v =>
  match v with
  | JNull => Some cur
  | JObj ms => if known names ms then build cur ms else None
  | _ => None
  end.

Definition dec_checkpoint : decoder ReplicationCheckpoint :=
  dec_struct ["master_host"; "master_port"; "master_run_id"; "offset"; "redis_stream"; "clear"] (fun c ms =>
    host ← dec_field (name "master_host") dec_str (MasterHost c) ms;
    port ← dec_field (name "master_port") dec_int (MasterPort c) ms;
    run ← dec_field (name "master_run_id") dec_str (MasterRunID c) ms;
    offset ← dec_field (name "offset") dec_int (Offset c) ms;
    stream ← dec_field (name "redis_stream") dec_bool (RedisStream c) ms;
    clear ← dec_field (name "clear") dec_bool (Clear c) ms;
    Some (mkCheckpoint host port run offset stream clear)).

Definition dec_publish : decoder PublishEvent :=
  dec_struct ["channel"; "message"; "shard"] (fun p ms =>
    channel ← dec_field (name "channel") dec_slice (Channel p) ms;
    message ← dec_field (name "message") dec_slice (Message p) ms;
    shard ← dec_field (name "shard") dec_bool (Shard_ p) ms;
    Some (mkPublish channel message shard)).

Definition dec_consumer : decoder ConsumerState :=
  dec_struct ["name"; "seen_at"; "active_at"] (fun c ms =>
    n ← dec_field (name "name") dec_str (cName c) ms;
    seen ← dec_field (name "seen_at") dec_int (SeenAt c) ms;
    active ← dec_field (name "active_at") dec_int (ActiveAt c) ms;
    Some (mkConsumer n seen active)).

Definition dec_pending : decoder PendingState :=
  dec_struct ["id"; "consumer"; "delivered_at"; "deliveries"] (fun p ms =>
    id ← dec_field (name "id") dec_pair (pID p) ms;
    consumer ← dec_field (name "consumer") dec_str (Consumer p) ms;
    at' ← dec_field (name "delivered_at") dec_int (DeliveredAt p) ms;
    n ← dec_field (name "deliveries") dec_u64 (Deliveries p) ms;
    Some (mkPending id consumer at' n)).

Definition dec_group : decoder GroupDelta :=
  dec_struct ["name"; "remove"; "set"; "last_delivered"; "entries_read"; "consumers"; "del_consumers"; "pending"; "del_pending"]
    (fun g ms =>
    n ← dec_field (name "name") dec_str (gName g) ms;
    remove ← dec_field (name "remove") dec_bool (gRemove g) ms;
    set ← dec_field (name "set") dec_bool (gSet g) ms;
    last ← dec_field (name "last_delivered") dec_pair (LastDelivered g) ms;
    read ← dec_field (name "entries_read") dec_int (EntriesRead g) ms;
    consumers ← dec_field (name "consumers") (dec_list zeroConsumer dec_consumer) (Consumers g) ms;
    delConsumers ← dec_field (name "del_consumers") (dec_list [] dec_str) (DelConsumers g) ms;
    pending ← dec_field (name "pending") (dec_list zeroPending dec_pending) (Pending g) ms;
    delPending ← dec_field (name "del_pending") (dec_list (0, 0) dec_pair) (DelPending g) ms;
    Some (mkGroupDelta n remove set last read consumers delConsumers pending delPending)).

Definition dec_stream : decoder StreamDelta :=
  dec_struct ["create"; "append"; "append_count"; "remove_through"; "has_remove_through"; "delete"; "last_id";
              "max_deleted_id"; "entries_added"; "groups"; "groups_set"; "group_ops"] (fun d ms =>
    create ← dec_field (name "create") dec_bool (Create_ d) ms;
    append ← dec_field (name "append") dec_bytes (Append_ d) ms;
    count ← dec_field (name "append_count") dec_int (AppendCount d) ms;
    through ← dec_field (name "remove_through") dec_pair (RemoveThrough d) ms;
    has ← dec_field (name "has_remove_through") dec_bool (HasRemoveThrough d) ms;
    delete ← dec_field (name "delete") dec_bytes (Delete_ d) ms;
    last ← dec_field (name "last_id") dec_pair (LastID d) ms;
    maxDeleted ← dec_field (name "max_deleted_id") dec_pair (MaxDeletedID d) ms;
    added ← dec_field (name "entries_added") dec_u64 (EntriesAdded d) ms;
    groups ← dec_field (name "groups") dec_bytes (Groups d) ms;
    groupsSet ← dec_field (name "groups_set") dec_bool (GroupsSet d) ms;
    ops ← dec_field (name "group_ops") (dec_list zeroGroupDelta dec_group) (GroupOps d) ms;
    Some (mkStreamDelta create append count through has delete last maxDeleted added groups groupsSet ops)).

Definition dec_record : decoder Record_ :=
  dec_struct ["reset"; "key"; "value"; "expires_at_ms"; "deleted"; "value_type"; "replication"; "stream"; "publish"]
    (fun r ms =>
    reset ← dec_field (name "reset") dec_bool (Reset r) ms;
    key ← dec_field (name "key") dec_slice (Key r) ms;
    value ← dec_field (name "value") dec_bytes (Value r) ms;
    expires ← dec_field (name "expires_at_ms") dec_int (ExpiresAtMS r) ms;
    deleted ← dec_field (name "deleted") dec_bool (Deleted r) ms;
    type ← dec_field (name "value_type") (dec_uint 255) (ValueType r) ms;
    replication ← dec_field (name "replication") (dec_ptr zeroCheckpoint dec_checkpoint) (Replication r) ms;
    stream ← dec_field (name "stream") (dec_ptr zeroStreamDelta dec_stream) (Stream r) ms;
    publish ← dec_field (name "publish") (dec_ptr zeroPublish dec_publish) (Publish r) ms;
    Some (mkRecord reset key value expires deleted type replication stream publish)).

Definition errJSON : string := "invalid JSON".

(** [Decoder.Decode] of a record slice: the records and the text after them. *)
Definition Decode (l : list byte) : res (list Record_ * list byte) :=
  match parse l with
  | None => Err errJSON
  | Some (v, rest) =>
      match dec_list zeroRecord dec_record [] v with
      | Some records => Ret (records, rest)
      | None => Err errJSON
      end
  end.
