(* ===== verification/RecordsFacts.v ===== *)
(** * Facts of persistence records

    A marshalled list of records decodes to the records with their strings
    sanitized, provided the integers are in the ranges of their Go types; so
    exactly the records whose strings are UTF-8 come back as they were. *)
From S2P Require Import Prelude Numerals Utf8 Json JsonFacts Records.
Set Default Proof Using "Type".

(** ** Objects *)

(** [dec_field] on the fields an object was printed from. *)
Fixpoint dec_fields {A} (n : list byte) (d : decoder A) (cur : A) (fs : list (bool * string * jv)) : option A :=
  match fs with
  | [] => Some cur
  | (p, k, v) :: fs =>
      if same_name n (sanitize (name k))
      then (if p : bool then cur ← d cur (clean v); dec_fields n d cur fs else dec_fields n d cur fs)
      else dec_fields n d cur fs
  end.

Lemma dec_field_obj {A} n (d : decoder A) cur fs :
  dec_field n d cur (map clean_member (obj_members fs)) = dec_fields n d cur fs.
Proof.
  revert cur. induction fs as [|[[p k] v] fs IH]; intros cur; [done|].
  unfold obj_members in *. cbn [omap list_omap dec_fields]. destruct p; cbn [map clean_member dec_field].
  - destruct (same_name n (sanitize (name k))); [|apply IH]. destruct (d cur (clean v)); [apply IH|done].
  - rewrite IH. by destruct (same_name _ _).
Qed.

Lemma clean_obj fs : clean (obj fs) = JObj (map clean_member (obj_members fs)).
Proof. done. Qed.

Lemma known_obj names fs :
  forallb (fun f : bool * string * jv => existsb (fun n => same_name (name n) (sanitize (name f.1.2))) names) fs = true →
  known names (map clean_member (obj_members fs)) = true.
Proof.
  unfold known, obj_members. induction fs as [|[[p k] v] fs IH]; [done|]. cbn [forallb omap list_omap fst snd].
  intros [H1 H2]%andb_true_iff. destruct p; cbn [map clean_member forallb fst]; [|by apply IH]. by rewrite H1, IH.
Qed.

Lemma obj_wf fs : Forall (fun f : bool * string * jv => f.1.1 = true → json_wf f.2) fs → json_wf (obj fs).
Proof.
  intros H. constructor. unfold obj_members. induction H as [|[[p k] v] fs Hv _ IH]; [constructor|].
  cbn [omap list_omap]. destruct p; [constructor; [by apply Hv|done]|done].
Qed.

Lemma dec_fields_other {A} n (d : decoder A) cur f fs r :
  same_name n (sanitize (name f.1.2)) = false → dec_fields n d cur fs = r → dec_fields n d cur (f :: fs) = r.
Proof. destruct f as [[p k] v]. cbn [dec_fields fst snd]. by intros ->. Qed.

Lemma dec_fields_none {A} n (d : decoder A) cur fs :
  forallb (fun f : bool * string * jv => negb (same_name n (sanitize (name f.1.2)))) fs = true →
  dec_fields n d cur fs = Some cur.
Proof.
  induction fs as [|f fs IH]; [done|]. cbn [forallb]. intros [H1 H2]%andb_true_iff.
  apply dec_fields_other; [by apply negb_true_iff|by apply IH].
Qed.

Lemma dec_fields_here {A} n (d : decoder A) cur p k v fs x :
  same_name n (sanitize (name k)) = true →
  forallb (fun f : bool * string * jv => negb (same_name n (sanitize (name f.1.2)))) fs = true →
  (p = true → d cur (clean v) = Some x) → (p = false → cur = x) → dec_fields n d cur ((p, k, v) :: fs) = Some x.
Proof.
  intros Hn Hfs Ht Hf. cbn [dec_fields]. rewrite Hn. destruct p.
  - rewrite Ht by done. by apply dec_fields_none.
  - rewrite Hf by done. by apply dec_fields_none.
Qed.

Lemma bind_back {A B} (o : option A) (x : A) (k : A → option B) r : o = Some x → k x = r → o ≫= k = r.
Proof. by intros -> <-. Qed.

Lemma dec_struct_obj {A} names (build : A → list (list byte * jv) → option A) cur fs r :
  forallb (fun f : bool * string * jv => existsb (fun n => same_name (name n) (sanitize (name f.1.2))) names) fs = true →
  build cur (map clean_member (obj_members fs)) = r → dec_struct names build cur (clean (obj fs)) = r.
Proof. intros Hk <-. rewrite clean_obj. cbn [dec_struct]. by rewrite known_obj. Qed.

(** Decode the next field of a struct; the two goals left are its value when it
    was written and the zero value when it was not. *)
Ltac field :=
  eapply bind_back;
  [ rewrite dec_field_obj; repeat (eapply dec_fields_other; [vm_compute; reflexivity|]);
    eapply dec_fields_here; [vm_compute; reflexivity|vm_compute; reflexivity|intros ?|intros ?] | ].

(** ** Ranges *)

Definition int64 (n : Z) : Prop := - 2 ^ 63 ≤ n < 2 ^ 63.
Definition uint64 (n : Z) : Prop := 0 ≤ n < 2 ^ 64.
Definition id_ok (p : Z * Z) : Prop := uint64 p.1 ∧ uint64 p.2.
Definition checkpoint_ok (c : ReplicationCheckpoint) : Prop := int64 (MasterPort c) ∧ int64 (Offset c).
Definition consumer_ok (c : ConsumerState) : Prop := int64 (SeenAt c) ∧ int64 (ActiveAt c).
Definition pending_ok (p : PendingState) : Prop := id_ok (pID p) ∧ int64 (DeliveredAt p) ∧ uint64 (Deliveries p).
Definition group_ok (g : GroupDelta) : Prop :=
  id_ok (LastDelivered g) ∧ int64 (EntriesRead g) ∧ Forall consumer_ok (Consumers g) ∧ Forall pending_ok (Pending g)
  ∧ Forall id_ok (DelPending g).
Definition stream_ok (d : StreamDelta) : Prop :=
  int64 (AppendCount d) ∧ id_ok (RemoveThrough d) ∧ id_ok (LastID d) ∧ id_ok (MaxDeletedID d) ∧ uint64 (EntriesAdded d)
  ∧ Forall group_ok (GroupOps d).
Definition opt_ok {A} (P : A → Prop) (o : option A) : Prop := match o with Some a => P a | None => True end.
Definition record_ok (r : Record_) : Prop :=
  int64 (ExpiresAtMS r) ∧ 0 ≤ ValueType r < 256 ∧ opt_ok checkpoint_ok (Replication r) ∧ opt_ok stream_ok (Stream r).

(** ** Sanitized records *)

Definition sane_checkpoint (c : ReplicationCheckpoint) : ReplicationCheckpoint :=
  mkCheckpoint (sanitize (MasterHost c)) (MasterPort c) (sanitize (MasterRunID c)) (Offset c) (RedisStream c) (Clear c).
Definition sane_consumer (c : ConsumerState) : ConsumerState := mkConsumer (sanitize (cName c)) (SeenAt c) (ActiveAt c).
Definition sane_pending (p : PendingState) : PendingState :=
  mkPending (pID p) (sanitize (Consumer p)) (DeliveredAt p) (Deliveries p).
Definition sane_group (g : GroupDelta) : GroupDelta :=
  mkGroupDelta (sanitize (gName g)) (gRemove g) (gSet g) (LastDelivered g) (EntriesRead g)
    (sane_consumer <$> Consumers g) (sanitize <$> DelConsumers g) (sane_pending <$> Pending g) (DelPending g).
Definition sane_stream (d : StreamDelta) : StreamDelta :=
  mkStreamDelta (Create_ d) (Append_ d) (AppendCount d) (RemoveThrough d) (HasRemoveThrough d) (Delete_ d) (LastID d)
    (MaxDeletedID d) (EntriesAdded d) (Groups d) (GroupsSet d) (sane_group <$> GroupOps d).
Definition sane_record (r : Record_) : Record_ :=
  mkRecord (Reset r) (Key r) (Value r) (ExpiresAtMS r) (Deleted r) (ValueType r)
    (sane_checkpoint <$> Replication r) (sane_stream <$> Stream r) (Publish r).

(** ** Scalars *)

Lemma jint_wf n : int64 n → json_wf (jint n).
Proof. unfold int64. intros H. constructor. apply number_FormatInt. lia. Qed.

Lemma juint_wf n : uint64 n → json_wf (juint n).
Proof. unfold uint64. intros H. constructor. apply number_FormatUint. lia. Qed.

Lemma dec_int_back cur n : int64 n → dec_int cur (clean (jint n)) = Some n.
Proof. intros H. by apply ParseInt_Format. Qed.

Lemma dec_uint_back max cur n : uint64 n → n ≤ max → dec_uint max cur (clean (juint n)) = Some n.
Proof. intros H Hm. cbn [clean dec_uint juint]. rewrite ParseUint_Format by done. by destruct (Z.leb_spec n max); [|lia]. Qed.

Lemma dec_u64_back cur n : uint64 n → dec_u64 cur (clean (juint n)) = Some n.
Proof. intros H. apply dec_uint_back; [done|]. unfold uint64 in H. lia. Qed.

Lemma jpair_wf p : id_ok p → json_wf (jpair p).
Proof. intros [H1 H2]. constructor. repeat constructor; by apply number_FormatUint; unfold uint64 in *; lia. Qed.

Lemma dec_pair_back cur p : id_ok p → dec_pair cur (clean (jpair p)) = Some p.
Proof. intros [H1 H2]. destruct p as [x y]. change (clean (jpair (x, y))) with (JArr [clean (juint x); clean (juint y)]).
  cbn [dec_pair]. by rewrite !dec_u64_back. Qed.

(** Base64 text is ASCII, which sanitizing keeps. *)
Lemma ascii_valid l : Forall (fun b => bz b < 128) l → utf8_Valid l = true.
Proof.
  induction 1 as [|b l Hb _ IH]; [done|]. cbn [utf8_Valid]. unfold utf8_lead.
  destruct (Z.ltb_spec (bz b) 128); [done|lia].
Qed.

Lemma b64_char_ascii d : 0 ≤ d < 64 → bz (b64_char d) < 128.
Proof.
  intros H. pose proof (b64_digit_char d H) as E. unfold b64_digit in E. repeat case_match; simplify_eq; lia.
Qed.

Lemma b64_ascii l : Forall (fun b => bz b < 128) (b64_encode l).
Proof.
  induction l as [|a|a b|a b c l IH] using triple_ind; cbn [b64_encode]; [done| | |].
  - destruct (b64_ranges a a a) as (?&?&?&?&?&?&?&?).
    do 2 (apply Forall_cons; split; [by apply b64_char_ascii|]). by repeat constructor.
  - destruct (b64_ranges a b b) as (?&?&?&?&?&?&?&?).
    do 3 (apply Forall_cons; split; [by apply b64_char_ascii|]). by repeat constructor.
  - destruct (b64_ranges a b c) as (?&?&?&?&?&?&?&?).
    do 4 (apply Forall_cons; split; [by apply b64_char_ascii|]). done.
Qed.

Lemma clean_jbytes o : clean (jbytes o) = jbytes o.
Proof. destruct o as [b|]; [|done]. cbn [jbytes clean]. by rewrite sanitize_valid by apply ascii_valid, b64_ascii. Qed.

Lemma dec_slice_back cur o : dec_slice cur (clean (jbytes o)) = Some o.
Proof. rewrite clean_jbytes. destruct o as [b|]; [|done]. cbn [jbytes dec_slice]. by rewrite b64_roundtrip. Qed.

Lemma dec_bytes_back cur b : dec_bytes cur (clean (jbytes (Some b))) = Some b.
Proof. unfold dec_bytes. by rewrite dec_slice_back. Qed.

Lemma dec_all_back {A B} (d : jv → option B) (f : A → jv) (g : A → B) (P : A → Prop) l :
  (∀ a, P a → d (clean (f a)) = Some (g a)) → Forall P l → dec_all d (map clean (f <$> l)) = Some (g <$> l).
Proof. intros H. induction 1 as [|a l Ha _ IH]; [done|]. cbn [fmap list_fmap map dec_all]. rewrite H by done. cbn. by rewrite IH. Qed.

Lemma nonzero_false n : nonzero n = false → n = 0.
Proof. unfold nonzero. intros H. lia. Qed.
Lemma nonempty_false {A} (l : list A) : nonempty l = false → l = [].
Proof. by destruct l. Qed.

(** ** Structs *)

Create HintDb back.
#[export] Hint Resolve dec_int_back dec_u64_back dec_pair_back dec_slice_back dec_bytes_back : back.

Lemma dec_bool_back cur b : dec_bool cur (clean (JBool b)) = Some b.
Proof. done. Qed.
Lemma dec_str_back cur s : dec_str cur (clean (JStr s)) = Some (sanitize s).
Proof. done. Qed.
#[export] Hint Resolve dec_bool_back dec_str_back : back.

Lemma dec_list_back {A} (zero : A) (d : decoder A) (f : A → jv) (g : A → A) (P : A → Prop) cur l :
  (∀ a, P a → d zero (clean (f a)) = Some (g a)) → Forall P l → dec_list zero d cur (clean (JArr (f <$> l))) = Some (g <$> l).
Proof. intros H Hl. cbn [clean dec_list]. by apply (dec_all_back _ _ _ P). Qed.

(** The empty value of a field that was left out. *)
Ltac absent := match goal with
  | H : nonzero _ = false |- _ => apply nonzero_false in H; cbn; congruence
  | H : nonempty _ = false |- _ => apply nonempty_false in H; cbn; by rewrite H
  | H : ?b = false |- _ => cbn; congruence
  end.
Ltac fields := repeat (field; [solve [eauto with back]|absent|]).

Lemma checkpoint_back c : checkpoint_ok c → dec_checkpoint zeroCheckpoint (clean (json_checkpoint c)) = Some (sane_checkpoint c).
Proof. intros [H1 H2]. apply dec_struct_obj; [vm_compute; reflexivity|]. fields. done. Qed.

Lemma publish_back p : dec_publish zeroPublish (clean (json_publish p)) = Some p.
Proof. apply dec_struct_obj; [vm_compute; reflexivity|]. fields. by destruct p. Qed.

Lemma consumer_back c : consumer_ok c → dec_consumer zeroConsumer (clean (json_consumer c)) = Some (sane_consumer c).
Proof. intros [H1 H2]. apply dec_struct_obj; [vm_compute; reflexivity|]. fields. done. Qed.

Lemma pending_back p : pending_ok p → dec_pending zeroPending (clean (json_pending p)) = Some (sane_pending p).
Proof. intros (H1&H2&H3). apply dec_struct_obj; [vm_compute; reflexivity|]. fields. done. Qed.

Lemma consumers_back cur l :
  Forall consumer_ok l →
  dec_list zeroConsumer dec_consumer cur (clean (JArr (json_consumer <$> l))) = Some (sane_consumer <$> l).
Proof. apply dec_list_back, consumer_back. Qed.

Lemma names_back cur l : dec_list [] dec_str cur (clean (JArr (JStr <$> l))) = Some (sanitize <$> l).
Proof. apply (dec_list_back _ _ _ _ (fun _ => True)); [done|]. by apply Forall_true. Qed.

Lemma pendings_back cur l :
  Forall pending_ok l → dec_list zeroPending dec_pending cur (clean (JArr (json_pending <$> l))) = Some (sane_pending <$> l).
Proof. apply dec_list_back, pending_back. Qed.

Lemma ids_back cur l : Forall id_ok l → dec_list (0, 0) dec_pair cur (clean (JArr (jpair <$> l))) = Some l.
Proof.
  intros H. rewrite <- (list_fmap_id l) at 2. apply (dec_list_back _ _ _ id id_ok); [|done].
  intros a Ha. by apply dec_pair_back.
Qed.
#[export] Hint Resolve consumers_back names_back pendings_back ids_back : back.

Lemma group_back g : group_ok g → dec_group zeroGroupDelta (clean (json_group g)) = Some (sane_group g).
Proof. intros (H1&H2&H3&H4&H5). apply dec_struct_obj; [vm_compute; reflexivity|]. fields. done. Qed.

Lemma groups_back cur l :
  Forall group_ok l → dec_list zeroGroupDelta dec_group cur (clean (JArr (json_group <$> l))) = Some (sane_group <$> l).
Proof. apply dec_list_back, group_back. Qed.
#[export] Hint Resolve groups_back : back.

Lemma stream_back d : stream_ok d → dec_stream zeroStreamDelta (clean (json_stream d)) = Some (sane_stream d).
Proof. intros (H1&H2&H3&H4&H5&H6). apply dec_struct_obj; [vm_compute; reflexivity|]. fields. done. Qed.

(** A pointer is left out when nil, and points to an object otherwise. *)
Lemma ptr_back {A} (zero : A) (d : decoder A) (f : A → list (bool * string * jv)) (g : A → A) (P : A → Prop) o :
  (∀ a, P a → d zero (clean (obj (f a))) = Some (g a)) → opt_ok P o → present o = true →
  dec_ptr zero d None (clean (jptr (fun a => obj (f a)) o)) = Some (g <$> o).
Proof.
  intros H Ho Hp. destruct o as [a|]; [|done]. cbn [jptr]. specialize (H a Ho). rewrite clean_obj in *.
  cbn [dec_ptr default]. by rewrite H.
Qed.

Lemma type_back cur n : 0 ≤ n < 256 → dec_uint 255 cur (clean (juint n)) = Some n.
Proof. intros H. apply dec_uint_back; [unfold uint64|]; lia. Qed.

Lemma absent_none {A} (g : A → A) (o : option A) : present o = false → None = g <$> o.
Proof. by destruct o. Qed.

Lemma record_back r : record_ok r → dec_record zeroRecord (clean (json_record r)) = Some (sane_record r).
Proof.
  intros (H1&H2&H3&H4). apply dec_struct_obj; [vm_compute; reflexivity|].
  do 5 (field; [solve [eauto with back]|absent|]).
  field; [by apply type_back|absent|].
  field; [apply (ptr_back _ _ _ sane_checkpoint checkpoint_ok); [apply checkpoint_back|done|done]|by apply absent_none|].
  field; [apply (ptr_back _ _ _ sane_stream stream_ok); [apply stream_back|done|done]|by apply absent_none|].
  field; [apply (ptr_back _ _ _ id (fun _ => True)); [intros; apply publish_back|by destruct (Publish r)|done]|by apply absent_none|].
  unfold sane_record. by destruct (Publish r).
Qed.

(** ** Texts *)

Create HintDb jsonwf.
#[export] Hint Constructors json_wf : jsonwf.
#[export] Hint Resolve jint_wf juint_wf jpair_wf : jsonwf.

Lemma jbytes_wf o : json_wf (jbytes o).
Proof. destruct o; constructor. Qed.

Lemma jlist_wf {A} (f : A → jv) (P : A → Prop) l : (∀ a, P a → json_wf (f a)) → Forall P l → json_wf (JArr (f <$> l)).
Proof. intros H Hl. constructor. by apply Forall_fmap, (Forall_impl P). Qed.
#[export] Hint Resolve jbytes_wf : jsonwf.

Ltac wf := apply obj_wf; repeat (apply Forall_cons; split; [cbn [fst snd]; intros ?; eauto with jsonwf|]); try apply Forall_nil.

Lemma checkpoint_wf c : checkpoint_ok c → json_wf (json_checkpoint c).
Proof. intros [H1 H2]. by wf. Qed.
Lemma publish_wf p : json_wf (json_publish p).
Proof. by wf. Qed.
Lemma consumer_wf c : consumer_ok c → json_wf (json_consumer c).
Proof. intros [H1 H2]. by wf. Qed.
Lemma pending_wf p : pending_ok p → json_wf (json_pending p).
Proof. intros (H1&H2&H3). by wf. Qed.

Lemma group_wf g : group_ok g → json_wf (json_group g).
Proof.
  intros (H1&H2&H3&H4&H5). wf; try done.
  - by apply (jlist_wf _ consumer_ok), H3; apply consumer_wf.
  - apply (jlist_wf _ (fun _ => True)); [constructor|by apply Forall_true].
  - by apply (jlist_wf _ pending_ok), H4; apply pending_wf.
  - by apply (jlist_wf _ id_ok), H5; apply jpair_wf.
Qed.

Lemma stream_wf d : stream_ok d → json_wf (json_stream d).
Proof. intros (H1&H2&H3&H4&H5&H6). wf; try done. by apply (jlist_wf _ group_ok), H6; apply group_wf. Qed.

Lemma jptr_wf {A} (f : A → jv) (P : A → Prop) o : (∀ a, P a → json_wf (f a)) → opt_ok P o → json_wf (jptr f o).
Proof. intros H Ho. destruct o; [by apply H|constructor]. Qed.

Lemma record_wf r : record_ok r → json_wf (json_record r).
Proof.
  intros (H1&H2&H3&H4). wf; try done.
  - apply juint_wf. unfold uint64. lia.
  - by apply (jptr_wf _ checkpoint_ok); [apply checkpoint_wf|].
  - by apply (jptr_wf _ stream_ok); [apply stream_wf|].
  - apply (jptr_wf _ (fun _ => True)); [intros; apply publish_wf|by destruct (Publish r)].
Qed.

Lemma Marshal_wf rs : Forall record_ok rs → json_wf (JArr (json_record <$> rs)).
Proof. apply jlist_wf, record_wf. Qed.

(** The text starts with the bracket, so it cannot be taken for a binary frame. *)
Lemma Marshal_head rs : ∃ r, Marshal rs = x5b :: r.
Proof. by eexists. Qed.

Lemma Decode_Marshal rs : Forall record_ok rs → Decode (Marshal rs) = Ret (sane_record <$> rs, []).
Proof.
  intros H. unfold Decode, Marshal. rewrite parse_print by by apply Marshal_wf.
  rewrite (dec_list_back _ _ _ sane_record record_ok); [done|apply record_back|done].
Qed.

(** ** Records that come back as they are *)

Definition text_checkpoint (c : ReplicationCheckpoint) : bool := utf8_Valid (MasterHost c) && utf8_Valid (MasterRunID c).
Definition text_group (g : GroupDelta) : bool :=
  utf8_Valid (gName g) && forallb (fun c => utf8_Valid (cName c)) (Consumers g) && forallb utf8_Valid (DelConsumers g)
  && forallb (fun p => utf8_Valid (Consumer p)) (Pending g).
Definition text_record (r : Record_) : bool :=
  match Replication r with Some c => text_checkpoint c | None => true end
  && match Stream r with Some d => forallb text_group (GroupOps d) | None => true end.

Lemma fmap_fixed {A} (f : A → A) l : f <$> l = l ↔ Forall (fun a => f a = a) l.
Proof.
  induction l as [|a l IH]; [done|]. rewrite Forall_cons, <- IH. cbn [fmap list_fmap]. split; [intros [= ? ?]; done|intros [-> ->]; done].
Qed.

Lemma forallb_Forall {A} (f : A → bool) (P : A → Prop) l : (∀ a, f a = true ↔ P a) → forallb f l = true ↔ Forall P l.
Proof. intros H. rewrite List.forallb_forall, List.Forall_forall. split; intros Ha a Hin; apply H, Ha, Hin. Qed.

Lemma sane_group_fixed g : sane_group g = g ↔ text_group g = true.
Proof.
  unfold text_group. rewrite !andb_true_iff, <- sanitize_fixed.
  rewrite (forallb_Forall _ (fun c => sane_consumer c = c)), (forallb_Forall _ (fun s => sanitize s = s)),
    (forallb_Forall _ (fun c => sane_pending c = c)), <- !fmap_fixed.
  - destruct g. unfold sane_group. cbn. split; [by intros [=]|]. intros [[[-> ->] ->] ->]. done.
  - intros p. rewrite <- sanitize_fixed. destruct p. unfold sane_pending. cbn. split; [by intros ->|by intros [=]].
  - intros s. by rewrite sanitize_fixed.
  - intros c. rewrite <- sanitize_fixed. destruct c. unfold sane_consumer. cbn. split; [by intros ->|by intros [=]].
Qed.

Lemma sane_checkpoint_fixed c : sane_checkpoint c = c ↔ text_checkpoint c = true.
Proof.
  unfold text_checkpoint. rewrite andb_true_iff, <- !sanitize_fixed. destruct c. unfold sane_checkpoint. cbn.
  split; [by intros [=]|by intros [-> ->]].
Qed.

Lemma sane_stream_fixed d : sane_stream d = d ↔ forallb text_group (GroupOps d) = true.
Proof.
  rewrite (forallb_Forall _ (fun g => sane_group g = g)), <- fmap_fixed by (intros; by rewrite sane_group_fixed).
  destruct d. unfold sane_stream. cbn. split; [by intros [=]|by intros ->].
Qed.

Lemma sane_record_fixed r : sane_record r = r ↔ text_record r = true.
Proof.
  unfold text_record. rewrite andb_true_iff. destruct r as [? ? ? ? ? ? rep str ?]. unfold sane_record. cbn.
  destruct rep as [c|], str as [d|]; cbn; rewrite <- ?sane_checkpoint_fixed, <- ?sane_stream_fixed; split;
    try (intros [=]; done); try done; intros [H1 H2]; congruence.
Qed.
