(* ===== verification/Persist.v ===== *)
(** * Persistence frames

    Model of the logical mutation frames of internal/persistence/log.go: the
    records of the append-only file, their binary and JSON frames with length and
    checksum, the reader that recovers them, and snapshots with a footer. A file
    is its bytes. *)
From S2P Require Import Prelude Slices Utf8 Json Records.
Set Default Proof Using "Type".

(** ** CRC-32 (IEEE, reflected) *)

Definition crc_poly : Z := 0xEDB88320.
Definition crc_half (x : Z) : Z := if Z.odd x then Z.lxor (Z.shiftr x 1) crc_poly else Z.shiftr x 1.
Definition crc_byte (crc : Z) (b : byte) : Z := Nat.iter 8 crc_half (Z.lxor crc (bz b)).
Definition crc_mask : Z := 0xFFFFFFFF.
Definition crc32 (l : list byte) : Z := Z.lxor (foldl crc_byte crc_mask l) crc_mask.

(** ** Writing *)

Definition magic : list byte := [x4d; x43; x4c; x4f; x47; x30; x30; x31].
Definition MaxFrameBytes : Z := Z.shiftl 128 20.
Definition plainSetFrameTag : byte := x00.
Definition plainSetBatchFrameTag : byte := x01.

Definition errFrameLimit : string := "persistence frame exceeds limit".

(** The eight bytes before a payload. *)
Definition header (payload : list byte) : list byte := le_put 4 (zlen payload) ++ le_put 4 (crc32 payload).

Definition EncodePlainSetFrame (key value : list byte) : res (list byte) :=
  let payloadLen := 5 + zlen key + zlen value in
  if MaxFrameBytes <? payloadLen then Err errFrameLimit else
  let payload := plainSetFrameTag :: replicate (Z.to_nat (payloadLen - 1)) x00 in
  payload ← put_u32 payload 1 (u32 (zlen key));
  payload ← copy_into payload 5 key;
  payload ← copy_into payload (5 + zlen key) value;
  Ret (header payload ++ payload).

Fixpoint put_items (payload : list byte) (pos : Z) (items : list (list byte * list byte)) : res (list byte) :=
  match items with
  | [] => Ret payload
  | (k, v) :: items =>
      payload ← put_u32 payload pos (u32 (zlen k));
      payload ← put_u32 payload (pos + 4) (u32 (zlen v));
      payload ← copy_into payload (pos + 8) k;
      payload ← copy_into payload (pos + 8 + zlen k) v;
      put_items payload (pos + 8 + zlen k + zlen v) items
  end.

(** [keys] and [values] have the same length in every call that gets past the
    first test; the pairs stand for the loops over their indices. *)
Definition EncodePlainSetBatchFrame (keys values : list (list byte)) : res (list byte) :=
  if (zlen keys =? 0) || negb (zlen keys =? zlen values) then Err "invalid plain SET batch" else
  let items := zip keys values in
  let payloadLen := 5 + lsum (fun p => 8 + zlen p.1 + zlen p.2) items in
  if MaxFrameBytes <? payloadLen then Err errFrameLimit else
  let payload := plainSetBatchFrameTag :: replicate (Z.to_nat (payloadLen - 1)) x00 in
  payload ← put_u32 payload 1 (u32 (zlen keys));
  payload ← put_items payload 5 items;
  Ret (header payload ++ payload).

Definition WriteFrame (records : list Record_) : res (list byte) :=
  let payload := Marshal records in
  if MaxFrameBytes <? zlen payload then Err errFrameLimit else Ret (header payload ++ payload).

(** [w.Write(data)] accepts a number of bytes or fails. *)
Section Writer.
Context {W : Type} (Write : W → list byte → Z * option string * W).

Fixpoint writeAll (fuel : nat) (w : W) (data : list byte) : option string * W :=
  match fuel with
  | O => (None, w)
  | S f =>
      if zlen data =? 0 then (None, w) else
      let '(n, err, w) := Write w data in
      match err with
      | Some e => (Some e, w)
      | None => if (n <=? 0) || (zlen data <? n) then (Some "short write", w) else writeAll f w (drop (Z.to_nat n) data)
      end
  end.
End Writer.

(** ** Reading *)

(** [append([]byte(nil), l...)] *)
Definition clone (l : list byte) : option (list byte) := match l with [] => None | _ => Some l end.

Definition errPlainSet : string := "invalid plain SET persistence frame".
Definition errBatch : string := "invalid plain SET batch persistence frame".

Definition read_plain (p : list byte) : res (list Record_) :=
  if zlen p <? 5 then Err errPlainSet else
  let keyLen := le_get (take 4 (drop 1 p)) in
  if zlen p - 5 <? keyLen then Err errPlainSet else
  k ← or_panic (zslice p 5 (5 + keyLen)) oob;
  v ← or_panic (zslice p (5 + keyLen) (zlen p)) oob;
  Ret [setRecord (clone k) v].

(** The records from position [pos] on; [left] are still to come. *)
Fixpoint read_items (fuel : nat) (p : list byte) (pos left : Z) : res (list Record_) :=
  match fuel with
  | O => Err errBatch
  | S f =>
      if left =? 0 then (if negb (pos =? zlen p) then Err "trailing plain SET batch persistence data" else Ret [])
      else if zlen p <? pos + 8 then Err errBatch else
      kl ← or_panic (zslice p pos (pos + 4)) oob;
      vl ← or_panic (zslice p (pos + 4) (pos + 8)) oob;
      let keyLen := le_get kl in
      let valueLen := le_get vl in
      let pos := pos + 8 in
      if zlen p <? pos + keyLen + valueLen then Err errBatch else
      k ← or_panic (zslice p pos (pos + keyLen)) oob;
      v ← or_panic (zslice p (pos + keyLen) (pos + keyLen + valueLen)) oob;
      rest ← read_items f p (pos + keyLen + valueLen) (left - 1);
      Ret (setRecord (clone k) v :: rest)
  end.

Definition read_batch (p : list byte) : res (list Record_) :=
  if zlen p <? 5 then Err errBatch else read_items (S (length p)) p 5 (le_get (take 4 (drop 1 p))).

Definition read_json (p : list byte) : res (list Record_) :=
  '(records, rest) ← Decode p;
  if forallb is_space rest then Ret records else Err "trailing frame data".

Definition read_payload (p : list byte) : res (list Record_) :=
  if bool_decide (head p = Some plainSetFrameTag) then read_plain p
  else if bool_decide (head p = Some plainSetBatchFrameTag) then read_batch p
  else read_json p.

(** Where reading stopped, with which error, and what [apply] made of the state. *)
Record read_end (S : Type) := mkEnd { e_offset : Z; e_error : option string; e_state : S }.
Arguments mkEnd {S} _ _ _.
Arguments e_offset {S} _.
Arguments e_error {S} _.
Arguments e_state {S} _.

Section Apply.
Context {S : Type} (apply : S → list Record_ → option string * S).

Fixpoint read_loop (fuel : nat) (s : S) (offset : Z) (input : list byte) : read_end S :=
  match fuel with
  | O => mkEnd offset None s
  | Datatypes.S f =>
      if zlen input <? 8 then mkEnd offset None s else
      let length := le_get (take 4 input) in
      let sum := le_get (take 4 (drop 4 input)) in
      if MaxFrameBytes <? length then mkEnd offset (Some errFrameLimit) s else
      let input := drop 8 input in
      if zlen input <? length then mkEnd offset None s else
      let payload := take (Z.to_nat length) input in
      if negb (crc32 payload =? sum) then mkEnd offset (Some "persistence checksum mismatch") s else
      match read_payload payload with
      | Ret records =>
          match apply s records with
          | (Some e, s) => mkEnd offset (Some e) s
          | (None, s) => read_loop f s (offset + 8 + length) (drop (Z.to_nat length) input)
          end
      | Err e | Panic e => mkEnd offset (Some e) s
      end
  end.

Definition Read (s : S) (file : list byte) : read_end S :=
  if zlen file <? zlen magic then mkEnd 0 (Some (if zlen file =? 0 then "EOF" else "unexpected EOF")) s
  else if negb (bool_decide (take 8 file = magic)) then mkEnd 0 (Some "unknown persistence format") s
  else read_loop (Datatypes.S (length file)) s (zlen magic) (drop 8 file).

(** A file that does not exist replays as nothing. *)
Definition Replay (file : option (list byte)) (s : S) : option string * S :=
  match file with
  | None => (None, s)
  | Some file => let e := Read s file in (e_error e, e_state e)
  end.
End Apply.

(** ** Snapshots *)

Fixpoint write_frames (batches : list (list Record_)) : res (list byte) :=
  match batches with
  | [] => Ret []
  | b :: batches => f ← WriteFrame b; rest ← write_frames batches; Ret (f ++ rest)
  end.

(** The bytes of the temporary file before it is synced and renamed. *)
Definition snapshot_bytes (records : list Record_) : res (list byte) :=
  frames ← write_frames ((fun r => [r]) <$> records);
  footer ← WriteFrame [];
  Ret (magic ++ frames ++ footer).

(** [apply] of the snapshot reader: the footer is the empty frame, and the last. *)
Definition until_footer {S} (apply : S → list Record_ → option string * S) (st : S * bool) (records : list Record_)
    : option string * (S * bool) :=
  let '(s, complete) := st in
  if complete : bool then (Some "data follows snapshot footer", (s, complete))
  else match records with
       | [] => (None, (s, true))
       | _ => let '(err, s) := apply s records in (err, (s, complete))
       end.

Definition ReplaySnapshot {S} (apply : S → list Record_ → option string * S) (file : option (list byte)) (s : S)
    : option string * S :=
  match file with
  | None => (None, s)
  | Some file =>
      let e := Read (until_footer apply) (s, false) file in
      let '(s, complete) := e_state e in
      match e_error e with
      | Some err => (Some err, s)
      | None => if negb complete || negb (e_offset e =? zlen file) then (Some "truncated snapshot", s) else (None, s)
      end
  end.
