(* ===== verification/PersistFacts.v ===== *)
(** * Facts of persistence frames

    The payloads the encoders build, what the reader makes of them, and the
    reading of a sequence of frames and of any prefix of it. *)
From S2P Require Import Prelude Numerals Slices Utf8 Json JsonFacts Records RecordsFacts Persist.
Set Default Proof Using "Type".

(** ** Filling a buffer from the left *)

Lemma copy_fill pre n (src : list byte) :
  (length src ≤ n)%nat →
  copy_at (pre ++ replicate n x00) (zlen pre) src = pre ++ src ++ replicate (n - length src) x00.
Proof.
  intros H. unfold copy_at. rewrite to_nat_zlen, take_app_length, length_app, length_replicate.
  rewrite (take_ge src) by lia. rewrite <- drop_drop, drop_app_length, drop_replicate. done.
Qed.

Lemma put_u32_fill pre n off v :
  off = zlen pre → (4 ≤ n)%nat →
  put_u32 (pre ++ replicate n x00) off v = Ret ((pre ++ le_put 4 v) ++ replicate (n - 4) x00).
Proof.
  intros -> Hn. unfold put_u32. pose proof (zlen_nonneg pre).
  rewrite zslice_Some by (rewrite ?zlen_app; unfold zlen in *; rewrite ?length_replicate; lia). cbn [or_panic mbind res_bind].
  rewrite copy_fill by (rewrite length_le_put; lia). by rewrite length_le_put, app_assoc.
Qed.

Lemma copy_into_fill pre n off src :
  off = zlen pre → (length src ≤ n)%nat →
  copy_into (pre ++ replicate n x00) off src = Ret ((pre ++ src) ++ replicate (n - length src) x00).
Proof.
  intros -> Hn. unfold copy_into. pose proof (zlen_nonneg pre).
  rewrite zslice_Some by (rewrite ?zlen_app; pose proof (zlen_nonneg (replicate n x00)); lia). cbn [or_panic mbind res_bind].
  by rewrite copy_fill, app_assoc.
Qed.

(** ** Payloads *)

Definition plain_payload (k v : list byte) : list byte := plainSetFrameTag :: le_put 4 (zlen k) ++ k ++ v.
Definition item_bytes (p : list byte * list byte) : list byte := le_put 4 (zlen p.1) ++ le_put 4 (zlen p.2) ++ p.1 ++ p.2.
Definition batch_payload (items : list (list byte * list byte)) : list byte :=
  plainSetBatchFrameTag :: le_put 4 (zlen items) ++ concat (item_bytes <$> items).
Definition frame (payload : list byte) : list byte := header payload ++ payload.

Lemma le_put_u32 n : le_put 4 (u32 n) = le_put 4 n.
Proof.
  rewrite <- (le_put_get (le_put 4 n)) at 1. rewrite length_le_put, le_get_put. f_equal.
Qed.

Lemma zlen_item p : zlen (item_bytes p) = 8 + zlen p.1 + zlen p.2.
Proof. unfold item_bytes. rewrite !zlen_app, !zlen_le_put. lia. Qed.

Lemma zlen_items items : zlen (concat (item_bytes <$> items)) = lsum (fun p => 8 + zlen p.1 + zlen p.2) items.
Proof.
  induction items as [|p items IH]; [done|]. rewrite fmap_cons. cbn [concat]. rewrite zlen_app, IH, zlen_item, lsum_cons. done.
Qed.

Lemma zlen_plain k v : zlen (plain_payload k v) = 5 + zlen k + zlen v.
Proof. unfold plain_payload. rewrite zlen_cons, !zlen_app, zlen_le_put. lia. Qed.

Lemma zlen_batch items : zlen (batch_payload items) = 5 + lsum (fun p => 8 + zlen p.1 + zlen p.2) items.
Proof. unfold batch_payload. rewrite zlen_cons, !zlen_app, zlen_le_put, zlen_items. lia. Qed.

Lemma EncodePlainSetFrame_eq k v :
  EncodePlainSetFrame k v = if MaxFrameBytes <? 5 + zlen k + zlen v then Err errFrameLimit else Ret (frame (plain_payload k v)).
Proof.
  unfold EncodePlainSetFrame. destruct (MaxFrameBytes <? _); [done|]. pose proof (zlen_nonneg k). pose proof (zlen_nonneg v).
  change (plainSetFrameTag :: replicate ?n x00) with ([plainSetFrameTag] ++ replicate n x00).
  rewrite put_u32_fill by (done || lia). cbn [mbind res_bind].
  rewrite copy_into_fill by (unfold zlen in *; rewrite ?length_app, ?length_le_put; cbn; lia). cbn [mbind res_bind].
  rewrite copy_into_fill by (unfold zlen in *; rewrite ?length_app, ?length_le_put; cbn; lia). cbn [mbind res_bind].
  rewrite le_put_u32. replace (_ - length v)%nat with O by (unfold zlen in *; lia).
  cbn [replicate]. unfold plain_payload, frame. rewrite app_nil_r, <- !app_assoc. done.
Qed.

Lemma put_items_fill items pre n pos :
  pos = zlen pre → Z.of_nat n = zlen (concat (item_bytes <$> items)) →
  put_items (pre ++ replicate n x00) pos items = Ret (pre ++ concat (item_bytes <$> items)).
Proof.
  revert pre n pos. induction items as [|[k v] items IH]; intros pre n pos -> Hn.
  - change (Z.of_nat n = 0) in Hn. replace n with O by lia. done.
  - rewrite fmap_cons in *. cbn [concat] in *. rewrite zlen_app, zlen_item in Hn. cbn [fst snd] in Hn.
    pose proof (zlen_nonneg (concat (item_bytes <$> items))). unfold zlen in Hn, H. cbn [put_items].
    rewrite put_u32_fill by (done || lia). cbn [mbind res_bind].
    rewrite put_u32_fill by (rewrite ?zlen_app, ?zlen_le_put; lia). cbn [mbind res_bind].
    rewrite copy_into_fill by (rewrite ?zlen_app, ?zlen_le_put; lia). cbn [mbind res_bind].
    rewrite copy_into_fill by (rewrite ?zlen_app, ?zlen_le_put; lia). cbn [mbind res_bind].
    rewrite !le_put_u32, IH; [|rewrite ?zlen_app, ?zlen_le_put; lia|unfold zlen; lia].
    unfold item_bytes at 2. cbn [fst snd]. by rewrite <- !app_assoc.
Qed.

Lemma EncodePlainSetBatchFrame_eq keys values :
  EncodePlainSetBatchFrame keys values =
    if (zlen keys =? 0) || negb (zlen keys =? zlen values) then Err "invalid plain SET batch"
    else if MaxFrameBytes <? 5 + lsum (fun p => 8 + zlen p.1 + zlen p.2) (zip keys values) then Err errFrameLimit
    else Ret (frame (batch_payload (zip keys values))).
Proof.
  unfold EncodePlainSetBatchFrame. destruct (Z.eqb_spec (zlen keys) 0); [done|].
  destruct (Z.eqb_spec (zlen keys) (zlen values)) as [E|]; [|done]. cbn [orb negb].
  destruct (MaxFrameBytes <? _); [done|]. pose proof (zlen_items (zip keys values)) as Hz.
  pose proof (zlen_nonneg (concat (item_bytes <$> zip keys values))).
  change (plainSetBatchFrameTag :: replicate ?n x00) with ([plainSetBatchFrameTag] ++ replicate n x00).
  rewrite put_u32_fill by (done || lia). cbn [mbind res_bind].
  rewrite put_items_fill by (rewrite ?zlen_app, ?zlen_le_put, ?zlen_cons, ?zlen_nil; lia). cbn [mbind res_bind].
  rewrite le_put_u32. assert (Hl : zlen keys = zlen (zip keys values)).
  { unfold zlen in *. rewrite length_zip_with. lia. }
  rewrite Hl. unfold batch_payload, frame. by rewrite <- !app_assoc.
Qed.

(** ** Reading payloads *)

Lemma zslice_suffix {A} (pre post : list A) i j : i = zlen pre → j = zlen pre + zlen post → zslice (pre ++ post) i j = Some post.
Proof. intros. rewrite <- (app_nil_r post) at 1. by apply zslice_app. Qed.

Lemma le_get_len {A} (l : list A) : zlen l ≤ MaxFrameBytes → le_get (le_put 4 (zlen l)) = zlen l.
Proof.
  intros H. pose proof (zlen_nonneg l). rewrite le_get_put, Z.mod_small; [done|].
  change MaxFrameBytes with 134217728 in H. cbn. lia.
Qed.

Lemma read_plain_payload k v :
  zlen (plain_payload k v) ≤ MaxFrameBytes → read_payload (plain_payload k v) = Ret [setRecord (clone k) v].
Proof.
  intros H. rewrite zlen_plain in H. pose proof (zlen_nonneg k). pose proof (zlen_nonneg v).
  unfold read_payload. rewrite bool_decide_true by done. unfold read_plain. rewrite zlen_plain.
  destruct (Z.ltb_spec (5 + zlen k + zlen v) 5); [lia|].
  assert (Hk : le_get (take 4 (drop 1 (plain_payload k v))) = zlen k).
  { unfold plain_payload. rewrite skipn_cons, drop_0, take_app_le by (rewrite length_le_put; lia).
    rewrite take_ge by (rewrite length_le_put; lia). apply le_get_len. lia. }
  rewrite Hk. destruct (Z.ltb_spec (5 + zlen k + zlen v - 5) (zlen k)); [lia|].
  assert (Hp : plain_payload k v = (plainSetFrameTag :: le_put 4 (zlen k)) ++ k ++ v) by done.
  rewrite Hp, (zslice_app _ k v 5 (5 + zlen k)) by (rewrite zlen_cons, zlen_le_put; lia). cbn [or_panic mbind res_bind].
  rewrite app_assoc, zslice_suffix; [done| |]; rewrite zlen_app, zlen_cons, zlen_le_put; lia.
Qed.

Lemma read_items_payload items pre fuel pos left :
  pos = zlen pre → left = zlen items → zlen (pre ++ concat (item_bytes <$> items)) ≤ MaxFrameBytes →
  (length items < fuel)%nat →
  read_items fuel (pre ++ concat (item_bytes <$> items)) pos left = Ret ((fun p => setRecord (clone p.1) p.2) <$> items).
Proof.
  revert pre fuel pos left. induction items as [|[k v] items IH]; intros pre fuel pos left -> -> Hmax Hf;
    (destruct fuel as [|fuel]; [cbn in Hf; lia|]); cbn [read_items].
  - change (zlen (@nil (list byte * list byte)) =? 0) with true. cbn [fmap list_fmap concat]. rewrite app_nil_r, Z.eqb_refl. done.
  - rewrite zlen_cons. pose proof (zlen_nonneg items). destruct (Z.eqb_spec (1 + zlen items) 0); [lia|].
    rewrite fmap_cons in *. cbn [concat] in *. pose proof (zlen_item (k, v)) as Hi. cbn [fst snd] in Hi.
    set (rest := concat (item_bytes <$> items)) in *.
    pose proof (zlen_nonneg rest). pose proof (zlen_nonneg pre). pose proof (zlen_nonneg k). pose proof (zlen_nonneg v).
    rewrite !zlen_app in *. rewrite Hi in *.
    assert (Hp : pre ++ item_bytes (k, v) ++ rest = pre ++ le_put 4 (zlen k) ++ (le_put 4 (zlen v) ++ k ++ v ++ rest)).
    { unfold item_bytes. cbn [fst snd]. by rewrite <- !app_assoc. }
    rewrite Hp. destruct (Z.ltb_spec (zlen pre + (8 + zlen k + zlen v + zlen rest)) (zlen pre + 8)); [lia|].
    rewrite (zslice_app pre (le_put 4 (zlen k)) _ (zlen pre) (zlen pre + 4)) by (rewrite ?zlen_le_put; lia). cbn [or_panic mbind res_bind].
    rewrite (app_assoc pre), (zslice_app (pre ++ _) (le_put 4 (zlen v)) _ (zlen pre + 4) (zlen pre + 8)) by (rewrite ?zlen_app, ?zlen_le_put; lia).
    cbn [or_panic mbind res_bind]. rewrite !le_get_len by lia.
    destruct (Z.ltb_spec (zlen pre + (8 + zlen k + zlen v + zlen rest)) (zlen pre + 8 + zlen k + zlen v)); [lia|].
    rewrite (app_assoc (pre ++ _)), (zslice_app ((pre ++ _) ++ _) k _ (zlen pre + 8) (zlen pre + 8 + zlen k)) by (rewrite ?zlen_app, ?zlen_le_put; lia).
    cbn [or_panic mbind res_bind].
    rewrite (app_assoc ((pre ++ _) ++ _)), (zslice_app (((pre ++ _) ++ _) ++ _) v _ (zlen pre + 8 + zlen k) (zlen pre + 8 + zlen k + zlen v)) by (rewrite ?zlen_app, ?zlen_le_put; lia).
    cbn [or_panic mbind res_bind]. rewrite (app_assoc (((pre ++ _) ++ _) ++ _)). unfold rest.
    rewrite IH; [done| |lia| |cbn [length] in Hf; lia].
    + rewrite !zlen_app, !zlen_le_put. lia.
    + rewrite !zlen_app, !zlen_le_put. fold rest. lia.
Qed.

Lemma items_length items : zlen items ≤ lsum (fun p : list byte * list byte => 8 + zlen p.1 + zlen p.2) items.
Proof.
  induction items as [|[k v] items IH]; [done|]. rewrite zlen_cons, lsum_cons. cbn [fst snd].
  pose proof (zlen_nonneg k). pose proof (zlen_nonneg v). lia.
Qed.

Lemma read_batch_payload items :
  zlen (batch_payload items) ≤ MaxFrameBytes →
  read_payload (batch_payload items) = Ret ((fun p => setRecord (clone p.1) p.2) <$> items).
Proof.
  intros H. unfold read_payload. rewrite bool_decide_false by done. rewrite bool_decide_true by done.
  pose proof (items_length items). pose proof (zlen_nonneg items). pose proof (zlen_batch items) as Hz.
  unfold read_batch. destruct (Z.ltb_spec (zlen (batch_payload items)) 5); [lia|].
  assert (Hk : le_get (take 4 (drop 1 (batch_payload items))) = zlen items).
  { unfold batch_payload. rewrite skipn_cons, drop_0, take_app_le by (rewrite length_le_put; lia).
    rewrite take_ge by (rewrite length_le_put; lia). apply le_get_len. lia. }
  rewrite Hk.
  assert (Hp : batch_payload items = (plainSetBatchFrameTag :: le_put 4 (zlen items)) ++ concat (item_bytes <$> items)) by done.
  rewrite Hp in *. apply read_items_payload; [by rewrite zlen_cons, zlen_le_put|done|done|unfold zlen in *; lia].
Qed.

Lemma read_json_payload rs : Forall record_ok rs → read_payload (Marshal rs) = Ret (sane_record <$> rs).
Proof.
  intros H. unfold read_payload. destruct (Marshal_head rs) as [t Ht].
  rewrite !bool_decide_false by (rewrite Ht; done). unfold read_json. by rewrite Decode_Marshal.
Qed.

(** ** The checksum *)

Definition word32 (x : Z) : Prop := 0 ≤ x < 2 ^ 32.

Lemma word32_bits x : word32 x ↔ 0 ≤ x ∧ ∀ i, 32 ≤ i → Z.testbit x i = false.
Proof.
  unfold word32. split.
  - intros [H1 H2]. split; [done|]. intros i Hi. destruct (Z.eq_dec x 0) as [->|]; [apply Z.testbit_0_l|].
    apply Z.bits_above_log2; [done|]. assert (Z.log2 x < 32) by (apply Z.log2_lt_pow2; lia). lia.
  - intros [H1 H2]. split; [done|]. destruct (Z_lt_le_dec x (2 ^ 32)) as [|Hge]; [done|].
    assert (Hl : 32 ≤ Z.log2 x) by (apply Z.log2_le_pow2; lia). specialize (H2 _ Hl). rewrite Z.bit_log2 in H2; [done|lia].
Qed.

Lemma word32_lxor x y : word32 x → word32 y → word32 (Z.lxor x y).
Proof.
  rewrite !word32_bits. intros [Hx Hx'] [Hy Hy']. split; [apply Z.lxor_nonneg; tauto|].
  intros i Hi. by rewrite Z.lxor_spec, Hx', Hy'.
Qed.

Lemma word32_byte b : word32 (bz b).
Proof. pose proof (bz_range b). unfold word32. lia. Qed.

Lemma crc_half_word x : word32 x → word32 (crc_half x).
Proof.
  intros H. assert (word32 (Z.shiftr x 1)) by (unfold word32 in *; rewrite Z.shiftr_div_pow2 by lia; dlia).
  unfold crc_half. destruct (Z.odd x); [|done]. apply word32_lxor; [done|]. by vm_compute.
Qed.

(** The top bit of the result is the bit that was shifted out. *)
Lemma crc_half_top x : word32 x → Z.testbit (crc_half x) 31 = Z.odd x.
Proof.
  intros [_ H]%word32_bits. unfold crc_half. destruct (Z.odd x).
  - rewrite Z.lxor_spec, Z.shiftr_spec by lia. change (31 + 1) with 32. by rewrite H.
  - rewrite Z.shiftr_spec by lia. by rewrite H.
Qed.

Lemma crc_half_inj x y : word32 x → word32 y → crc_half x = crc_half y → x = y.
Proof.
  intros Hx Hy E. assert (Hodd : Z.odd x = Z.odd y) by (rewrite <- !crc_half_top by done; by rewrite E).
  assert (Hs : Z.shiftr x 1 = Z.shiftr y 1).
  { unfold crc_half in E. rewrite Hodd in E. destruct (Z.odd y); [|done].
    apply (f_equal (fun z => Z.lxor z crc_poly)) in E. by rewrite !Z.lxor_assoc, Z.lxor_nilpotent, !Z.lxor_0_r in E. }
  rewrite !Z.shiftr_div_pow2 in Hs by lia. rewrite (Z.div_mod x 2), (Z.div_mod y 2), !Zmod_odd, Hodd by lia.
  change (2 ^ 1) with 2 in Hs. by rewrite Hs.
Qed.

Lemma crc_iter_word n x : word32 x → word32 (Nat.iter n crc_half x).
Proof. intros H. induction n as [|n IH]; [done|]. by apply crc_half_word. Qed.

Lemma crc_iter_inj n x y : word32 x → word32 y → Nat.iter n crc_half x = Nat.iter n crc_half y → x = y.
Proof.
  intros Hx Hy. induction n as [|n IH]; [done|]. intros E%crc_half_inj; [by apply IH|by apply crc_iter_word..].
Qed.

Lemma crc_byte_word c b : word32 c → word32 (crc_byte c b).
Proof. intros H. apply (crc_iter_word 8), word32_lxor; [done|apply word32_byte]. Qed.

Lemma crc_fold_word l c : word32 c → word32 (foldl crc_byte c l).
Proof. revert c. induction l as [|b l IH]; intros c H; [done|]. cbn [foldl]. by apply IH, crc_byte_word. Qed.

Lemma lxor_cancel_r a b c : Z.lxor a c = Z.lxor b c → a = b.
Proof. intros E. apply (f_equal (fun z => Z.lxor z c)) in E. by rewrite !Z.lxor_assoc, Z.lxor_nilpotent, !Z.lxor_0_r in E. Qed.

(** Equal bytes keep different states apart. *)
Lemma crc_fold_inj l c d : word32 c → word32 d → foldl crc_byte c l = foldl crc_byte d l → c = d.
Proof.
  revert c d. induction l as [|b l IH]; intros c d Hc Hd E; [done|]. cbn [foldl] in E.
  apply IH in E; [|by apply crc_byte_word..]. unfold crc_byte in E.
  apply crc_iter_inj in E; [by apply lxor_cancel_r in E|apply word32_lxor; [done|apply word32_byte]..].
Qed.

Lemma crc32_word l : word32 (crc32 l).
Proof. apply word32_lxor; [apply crc_fold_word|]; by vm_compute. Qed.

Lemma crc32_put l : le_get (le_put 4 (crc32 l)) = crc32 l.
Proof. rewrite le_get_put. apply Z.mod_small. apply crc32_word. Qed.

(** *** Four bytes at a time *)

Lemma crc_half_lxor x y : Z.odd y = false → 0 ≤ y → crc_half (Z.lxor x y) = Z.lxor (crc_half x) (Z.shiftr y 1).
Proof.
  intros Hy Hy0. unfold crc_half. rewrite <- !Z.bit0_odd in *. rewrite Z.lxor_spec, Hy, xorb_false_r, Z.shiftr_lxor.
  destruct (Z.testbit x 0); [|done]. by rewrite !Z.lxor_assoc, (Z.lxor_comm (Z.shiftr y 1)).
Qed.

Lemma crc_iter_lxor n x y :
  0 ≤ y → y mod 2 ^ Z.of_nat n = 0 → Nat.iter n crc_half (Z.lxor x y) = Z.lxor (Nat.iter n crc_half x) (Z.shiftr y (Z.of_nat n)).
Proof.
  intros Hy. revert x y Hy. induction n as [|n IH]; intros x y Hy Hm; [by rewrite Z.shiftr_0_r|].
  rewrite !Nat.iter_succ_r, Nat2Z.inj_succ in *. rewrite Z.pow_succ_r in Hm by lia.
  assert (Hdiv : (2 * 2 ^ Z.of_nat n | y)) by (apply Z.mod_divide; lia).
  destruct Hdiv as [q ->]. rewrite crc_half_lxor.
  - rewrite IH.
    + rewrite Z.shiftr_shiftr by lia. do 2 f_equal. lia.
    + apply Z.shiftr_nonneg. lia.
    + rewrite Z.shiftr_div_pow2 by lia. replace (q * (2 * 2 ^ Z.of_nat n)) with (q * 2 ^ Z.of_nat n * 2 ^ 1) by lia.
      rewrite Z.div_mul by lia. apply Z.mod_mul. lia.
  - rewrite <- Z.negb_even, Z.even_mul, Z.even_mul. cbn. by rewrite orb_true_r.
  - lia.
Qed.

Lemma crc_bytes_word l c :
  (length l ≤ 4)%nat → word32 c →
  foldl crc_byte c l = Nat.iter (8 * length l) crc_half (Z.lxor c (le_get l)).
Proof.
  revert c. induction l as [|b l IH]; intros c Hl Hc; [by rewrite Z.lxor_0_r|]. cbn [length foldl] in *.
  rewrite IH by (lia || by apply crc_byte_word). pose proof (le_get_range l) as Hr.
  replace (8 * S (length l))%nat with (8 * length l + 8)%nat by lia. rewrite Nat.iter_add. f_equal.
  cbn [le_get]. unfold crc_byte.
  rewrite <- (Z.lxor_lor _ (bz b)).
  - rewrite (Z.lxor_comm (Z.shiftl _ 8)), <- Z.lxor_assoc, (crc_iter_lxor 8 (Z.lxor c (bz b)) (Z.shiftl (le_get l) 8)).
    + f_equal. change (Z.of_nat 8) with 8. by rewrite Z.shiftr_shiftl_l, Z.sub_diag, Z.shiftl_0_r by lia.
    + apply Z.shiftl_nonneg. lia.
    + rewrite Z.shiftl_mul_pow2 by lia. apply Z.mod_mul. done.
  - apply Z.bits_inj'. intros i Hi. rewrite Z.land_spec, Z.shiftl_spec, Z.bits_0 by lia.
    destruct (Z_lt_le_dec i 8); [by rewrite Z.testbit_neg_r by lia|].
    rewrite (Z.bits_above_log2 (bz b)); [apply andb_false_r|apply bz_range|].
    pose proof (bz_range b). destruct (Z.eq_dec (bz b) 0) as [->|]; [cbn; lia|].
    assert (Z.log2 (bz b) < 8) by (apply Z.log2_lt_pow2; lia). lia.
Qed.

(** A change confined to four consecutive bytes changes the checksum. *)
Lemma crc32_burst pre mid mid' post :
  length mid = length mid' → (length mid ≤ 4)%nat →
  crc32 (pre ++ mid ++ post) = crc32 (pre ++ mid' ++ post) → mid = mid'.
Proof.
  intros Hlen Hle E%lxor_cancel_r. rewrite !foldl_app in E. set (c := foldl crc_byte crc_mask pre) in E.
  assert (Hc : word32 c) by (apply crc_fold_word; by vm_compute).
  apply crc_fold_inj in E; [|by apply crc_fold_word..]. rewrite !crc_bytes_word, Hlen in E by (done || lia).
  assert (Hw : ∀ l, (length l ≤ 4)%nat → word32 (le_get l)).
  { intros l Hl. pose proof (le_get_range l) as [H1 H2]. split; [done|]. eapply Z.lt_le_trans; [done|].
    apply Z.pow_le_mono_r; unfold zlen; lia. }
  apply crc_iter_inj in E; [|apply word32_lxor; [done|apply Hw; lia]..].
  rewrite !(Z.lxor_comm c) in E. apply lxor_cancel_r in E.
  rewrite <- (le_put_get mid), <- (le_put_get mid'). by rewrite Hlen, E.
Qed.
