(* ===== verification/PersistSpec.v ===== *)
(** * Recovery from a log file

    A log is the magic followed by the frames of the entries appended to it. What
    the reader makes of any prefix of a log, of a log with a damaged frame, and of
    snapshots; and that its loops end on every input. *)
From S2P Require Import Prelude Numerals Slices Utf8 Json JsonFacts Records RecordsFacts Persist PersistFacts.
Set Default Proof Using "Type".

(** ** Journal entries *)

(** What one call to [AppendPlainSet], [AppendPlainSetBatch] or [Append] records. *)
Inductive journal_entry :=
| PlainSet (key value : list byte)
| PlainSetBatch (keys values : list (list byte))
| Records (records : list Record_).

Definition encode_entry (e : journal_entry) : res (list byte) :=
  match e with
  | PlainSet k v => EncodePlainSetFrame k v
  | PlainSetBatch ks vs => EncodePlainSetBatchFrame ks vs
  | Records rs => WriteFrame rs
  end.

(** The records an entry stands for. *)
Definition entry_records (e : journal_entry) : list Record_ :=
  match e with
  | PlainSet k v => [setRecord (clone k) v]
  | PlainSetBatch ks vs => (fun p => setRecord (clone p.1) p.2) <$> zip ks vs
  | Records rs => sane_record <$> rs
  end.

Definition entry_ok (e : journal_entry) : Prop := match e with Records rs => Forall record_ok rs | _ => True end.

Lemma encode_entry_frame e f :
  entry_ok e → encode_entry e = Ret f →
  ∃ p, f = frame p ∧ zlen p ≤ MaxFrameBytes ∧ read_payload p = Ret (entry_records e).
Proof.
  destruct e as [k v|ks vs|rs]; cbn [encode_entry entry_ok entry_records]; intros Hok.
  - rewrite EncodePlainSetFrame_eq. destruct (Z.ltb_spec MaxFrameBytes (5 + zlen k + zlen v)); [done|]. intros [= <-].
    exists (plain_payload k v). rewrite zlen_plain. split_and!; [done|lia|apply read_plain_payload; rewrite zlen_plain; lia].
  - rewrite EncodePlainSetBatchFrame_eq. destruct (_ || _); [done|].
    match goal with |- context [MaxFrameBytes <? ?x] => destruct (Z.ltb_spec MaxFrameBytes x) end; [done|]. intros [= <-].
    exists (batch_payload (zip ks vs)). rewrite zlen_batch.
    split_and!; [done|lia|apply read_batch_payload; rewrite zlen_batch; lia].
  - unfold WriteFrame. destruct (Z.ltb_spec MaxFrameBytes (zlen (Marshal rs))); [done|]. intros [= <-].
    exists (Marshal rs). split_and!; [done|lia|by apply read_json_payload].
Qed.

(** ** One frame *)

Lemma zlen_frame_header p : zlen (header p) = 8.
Proof. unfold header. rewrite zlen_app, !zlen_le_put. done. Qed.

Lemma zlen_frame p : zlen (frame p) = 8 + zlen p.
Proof. unfold frame. by rewrite zlen_app, zlen_frame_header. Qed.

Lemma header_split p rest :
  take 4 (header p ++ rest) = le_put 4 (zlen p) ∧ take 4 (drop 4 (header p ++ rest)) = le_put 4 (crc32 p)
  ∧ drop 8 (header p ++ rest) = rest.
Proof. unfold header. split_and!; reflexivity. Qed.

Section Apply.
Context {S : Type} (apply : S → list Record_ → option string * S).

(** Applying entries of the given frame sizes from an offset on. *)
Fixpoint apply_all (s : S) (offset : Z) (l : list (Z * list Record_)) : read_end S :=
  match l with
  | [] => mkEnd offset None s
  | (size, rs) :: l =>
      match apply s rs with
      | (Some e, s) => mkEnd offset (Some e) s
      | (None, s) => apply_all s (offset + size) l
      end
  end.

Notation loop := (read_loop apply).

Lemma read_loop_frame f s off p q rest :
  zlen p ≤ MaxFrameBytes → zlen q = zlen p →
  loop (Datatypes.S f) s off (header p ++ q ++ rest) =
    if negb (crc32 q =? crc32 p) then mkEnd off (Some "persistence checksum mismatch") s else
    match read_payload q with
    | Ret records =>
        match apply s records with
        | (Some e, s) => mkEnd off (Some e) s
        | (None, s) => loop f s (off + 8 + zlen p) rest
        end
    | Err e | Panic e => mkEnd off (Some e) s
    end.
Proof.
  intros Hp Hq. pose proof (zlen_nonneg p). pose proof (zlen_nonneg rest). cbn [read_loop].
  destruct (header_split p (q ++ rest)) as (->&->&->). rewrite le_get_len, crc32_put by done.
  rewrite !zlen_app, zlen_frame_header, Hq. destruct (Z.ltb_spec (8 + (zlen p + zlen rest)) 8); [lia|].
  destruct (Z.ltb_spec MaxFrameBytes (zlen p)); [lia|]. destruct (Z.ltb_spec (zlen p + zlen rest) (zlen p)); [lia|].
  rewrite <- Hq, to_nat_zlen, take_app_length, drop_app_length. done.
Qed.

(** A frame cut short ends the log. *)
Lemma read_loop_torn f s off p rest n :
  zlen p ≤ MaxFrameBytes → (n < length (frame p))%nat →
  loop f s off (take n (frame p ++ rest)) = mkEnd off None s.
Proof.
  intros Hp Hn. destruct f as [|f]; [done|]. cbn [read_loop].
  destruct (Z.ltb_spec (zlen (take n (frame p ++ rest))) 8) as [|Hge]; [done|].
  assert (Hn8 : (8 ≤ n)%nat) by (unfold zlen in Hge; rewrite length_take in Hge; lia).
  destruct (header_split p (take (n - 8) (p ++ rest))) as (H1&H2&H3).
  assert (Ht : take n (frame p ++ rest) = header p ++ take (n - 8) (p ++ rest)).
  { unfold frame. rewrite <- app_assoc, take_app_ge by (unfold header; rewrite length_app, !length_le_put; lia).
    f_equal. }
  rewrite Ht, H1, H2, H3, le_get_len by done. destruct (Z.ltb_spec MaxFrameBytes (zlen p)); [lia|].
  destruct (Z.ltb_spec (zlen (take (n - 8) (p ++ rest))) (zlen p)) as [|Hge2]; [done|]. exfalso.
  unfold frame, zlen in *. rewrite !length_app in Hn. rewrite length_take in Hge2.
  unfold header in Hn. rewrite length_app, !length_le_put in Hn. lia.
Qed.

(** ** Many frames *)

(** The entries whose frames lie in the first [n] bytes. *)
Fixpoint complete (n : nat) (fs : list (list byte * list Record_)) : list (Z * list Record_) :=
  match fs with
  | [] => []
  | (f, rs) :: fs => if (n <? length f)%nat then [] else (zlen f, rs) :: complete (n - length f) fs
  end.

Definition frame_of (f : list byte) (rs : list Record_) : Prop :=
  ∃ p, f = frame p ∧ zlen p ≤ MaxFrameBytes ∧ read_payload p = Ret rs.

Lemma read_frames fs s off n fuel :
  Forall (fun p => frame_of p.1 p.2) fs → (length (take n (concat (fst <$> fs))) < fuel)%nat →
  loop fuel s off (take n (concat (fst <$> fs))) = apply_all s off (complete n fs).
Proof.
  intros Hfs. revert s off n fuel. induction Hfs as [|[f rs] fs (p&Hf&Hp&Hr) _ IH]; intros s off n fuel Hfuel.
  - cbn [fmap list_fmap concat] in *. rewrite take_nil in *. by destruct fuel.
  - rewrite fmap_cons in *. cbn [concat fst] in *. cbn [fst snd] in Hf, Hr. subst f. cbn [complete].
    destruct (Nat.ltb_spec n (length (frame p))) as [Hlt|Hge]; [by apply read_loop_torn|].
    pose proof (zlen_frame p) as Hz. pose proof (zlen_nonneg p).
    rewrite take_app_ge in * by done. rewrite length_app in Hfuel. destruct fuel as [|fuel]; [lia|].
    unfold frame at 1. rewrite <- app_assoc, read_loop_frame by done. rewrite Z.eqb_refl, Hr. cbn [negb apply_all].
    destruct (apply s rs) as [[e|] s']; [done|]. rewrite IH by (unfold zlen in Hz; lia). f_equal. lia.
Qed.

(** A damaged payload after whole frames: they are applied, it is not. *)
Lemma read_frames_damaged fs s off fuel p q rest :
  Forall (fun p => frame_of p.1 p.2) fs → zlen p ≤ MaxFrameBytes → zlen q = zlen p → crc32 q ≠ crc32 p →
  (length (concat (fst <$> fs) ++ header p ++ q ++ rest) < fuel)%nat →
  loop fuel s off (concat (fst <$> fs) ++ header p ++ q ++ rest) =
    let e := apply_all s off ((fun p => (zlen p.1, p.2)) <$> fs) in
    match e_error e with
    | Some _ => e
    | None => mkEnd (e_offset e) (Some "persistence checksum mismatch") (e_state e)
    end.
Proof.
  intros Hfs Hp Hq Hc. revert s off fuel. induction Hfs as [|[f rs] fs (p'&Hf&Hp'&Hr) _ IH]; intros s off fuel Hfuel.
  - cbn [fmap list_fmap concat app] in *. destruct fuel as [|fuel]; [lia|]. rewrite read_loop_frame by done.
    by destruct (Z.eqb_spec (crc32 q) (crc32 p)).
  - rewrite !fmap_cons in *. cbn [concat fst snd] in *. subst f. pose proof (zlen_frame p') as Hz. pose proof (zlen_nonneg p').
    rewrite <- app_assoc in *. rewrite length_app in Hfuel. destruct fuel as [|fuel]; [lia|].
    unfold frame at 1. rewrite <- app_assoc, read_loop_frame by done. rewrite Z.eqb_refl, Hr. cbn [negb apply_all].
    destruct (apply s rs) as [[e|] s']; [done|]. rewrite IH by (unfold zlen in Hz; lia).
    by replace (off + zlen (frame p')) with (off + 8 + zlen p') by lia.
Qed.

Lemma Read_magic s rest : Read apply s (magic ++ rest) = loop (Datatypes.S (length (magic ++ rest))) s 8 rest.
Proof.
  unfold Read. pose proof (zlen_nonneg rest). rewrite zlen_app. change (zlen magic) with 8.
  destruct (Z.ltb_spec (8 + zlen rest) 8); [lia|]. change (take 8 (magic ++ rest)) with magic. by rewrite bool_decide_true.
Qed.

(** *** Termination *)

Lemma read_loop_fuel f1 f2 s off input :
  (length input < f1)%nat → (length input < f2)%nat → loop f1 s off input = loop f2 s off input.
Proof.
  revert f2 s off input. induction f1 as [|f1 IH]; intros f2 s off input H1 H2; [lia|]. destruct f2 as [|f2]; [lia|].
  cbn [read_loop]. destruct (Z.ltb_spec (zlen input) 8) as [|Hge]; [done|]. destruct (_ <? _); [done|].
  destruct (_ <? _); [done|]. destruct (negb _); [done|]. destruct (read_payload _) as [rs|e|e]; [|done|done].
  destruct (apply s rs) as [[e|] s']; [done|]. unfold zlen in Hge. apply IH; rewrite !length_drop; lia.
Qed.

Lemma read_loop_offset fuel s off input : off ≤ e_offset (loop fuel s off input) ≤ off + zlen input.
Proof.
  revert s off input. induction fuel as [|fuel IH]; intros s off input; pose proof (zlen_nonneg input); cbn [read_loop]; [cbn; lia|].
  destruct (Z.ltb_spec (zlen input) 8) as [|Hge]; [cbn; lia|]. destruct (_ <? _); [cbn; lia|].
  pose proof (le_get_range (take 4 input)) as Hr. set (len := le_get (take 4 input)) in *.
  destruct (Z.ltb_spec (zlen (drop 8 input)) len); [cbn; lia|]. destruct (negb _); [cbn; lia|].
  destruct (read_payload _) as [rs|e|e]; [|cbn; lia|cbn; lia].
  destruct (apply s rs) as [[e|] s']; [cbn; lia|]. specialize (IH s' (off + 8 + len) (drop (Z.to_nat len) (drop 8 input))).
  unfold zlen in *. rewrite !length_drop in *. lia.
Qed.
End Apply.

(** ** No payload makes the reader panic *)

Definition no_panic {A} (r : res A) : Prop := match r with Panic _ => False | _ => True end.

Lemma no_panic_bind {A B} (m : res A) (k : A → res B) : no_panic m → (∀ a, no_panic (k a)) → no_panic (x ← m; k x).
Proof. destruct m; cbn; auto. Qed.

Lemma read_plain_no_panic p : no_panic (read_plain p).
Proof.
  unfold read_plain. destruct (Z.ltb_spec (zlen p) 5); [done|].
  pose proof (le_get_range (take 4 (drop 1 p))). set (n := le_get _) in *. destruct (Z.ltb_spec (zlen p - 5) n); [done|].
  rewrite (zslice_Some p 5), (zslice_Some p (5 + n)) by lia. done.
Qed.

Lemma read_items_no_panic fuel p pos left : 0 ≤ pos → no_panic (read_items fuel p pos left).
Proof.
  revert pos left. induction fuel as [|fuel IH]; intros pos left Hpos; [done|]. cbn [read_items].
  destruct (left =? 0); [by destruct (negb _)|]. destruct (Z.ltb_spec (zlen p) (pos + 8)); [done|].
  rewrite (zslice_Some p pos), (zslice_Some p (pos + 4)) by lia. cbn [or_panic mbind res_bind].
  match goal with |- context [le_get ?a] => pose proof (le_get_range a); set (n := le_get a) in * end.
  match goal with |- context [le_get ?a] => pose proof (le_get_range a); set (m := le_get a) in * end.
  destruct (Z.ltb_spec (zlen p) (pos + 8 + n + m)); [done|].
  rewrite (zslice_Some p (pos + 8)), (zslice_Some p (pos + 8 + n)) by lia. cbn [or_panic mbind res_bind].
  apply no_panic_bind; [apply IH; lia|done].
Qed.

Lemma read_payload_no_panic p : no_panic (read_payload p).
Proof.
  unfold read_payload. case_bool_decide; [apply read_plain_no_panic|]. case_bool_decide.
  - unfold read_batch. destruct (_ <? _); [done|]. by apply read_items_no_panic.
  - unfold read_json, Decode. destruct (parse p) as [[v rest]|]; [|done].
    destruct (dec_list _ _ _ _); cbn; [by destruct (forallb _ _)|done].
Qed.

(** ** Snapshots *)

Fixpoint apply_each {S} (apply : S → list Record_ → option string * S) (s : S) (rs : list Record_) : option string * S :=
  match rs with
  | [] => (None, s)
  | r :: rs => match apply s [r] with (Some e, s) => (Some e, s) | (None, s) => apply_each apply s rs end
  end.

(** The frames of a snapshot. *)
Definition snapshot_frames (rs : list Record_) : list (list byte * list Record_) :=
  ((fun r => (frame (Marshal [r]), [sane_record r])) <$> rs) ++ [(frame (Marshal []), [])].

Lemma WriteFrame_inv rs f : WriteFrame rs = Ret f → f = frame (Marshal rs) ∧ zlen (Marshal rs) ≤ MaxFrameBytes.
Proof. unfold WriteFrame. destruct (Z.ltb_spec MaxFrameBytes (zlen (Marshal rs))); [done|]. by intros [= <-]. Qed.

Lemma write_frames_inv rs fs :
  write_frames ((fun r => [r]) <$> rs) = Ret fs → Forall record_ok rs →
  fs = concat (fst <$> ((fun r => (frame (Marshal [r]), [sane_record r])) <$> rs))
  ∧ Forall (fun p => frame_of p.1 p.2) ((fun r => (frame (Marshal [r]), [sane_record r])) <$> rs).
Proof.
  revert fs. induction rs as [|r rs IH]; intros fs; cbn [fmap list_fmap write_frames]; [intros [= <-]; done|].
  intros H Hok. inversion_clear Hok as [|? ? Hr Hrs].
  destruct (WriteFrame [r]) as [f| |] eqn:Ef; try done. cbn [mbind res_bind] in H.
  destruct (write_frames _) as [rest| |] eqn:Er; try done. cbn [mbind res_bind] in H. injection H as <-.
  destruct (WriteFrame_inv _ _ Ef) as [-> Hm]. destruct (IH _ eq_refl Hrs) as [-> Hfs]. split; [done|].
  constructor; [|done]. exists (Marshal [r]). split_and!; [done|done|]. apply (read_json_payload [r]). by constructor.
Qed.

Lemma snapshot_bytes_inv rs bytes :
  snapshot_bytes rs = Ret bytes → Forall record_ok rs →
  bytes = magic ++ concat (fst <$> snapshot_frames rs) ∧ Forall (fun p => frame_of p.1 p.2) (snapshot_frames rs).
Proof.
  unfold snapshot_bytes. intros H Hok. destruct (write_frames _) as [fs| |] eqn:Ef; try done. cbn [mbind res_bind] in H.
  destruct (WriteFrame []) as [g| |] eqn:Eg; try done. cbn [mbind res_bind] in H. injection H as <-.
  destruct (WriteFrame_inv _ _ Eg) as [-> Hm]. destruct (write_frames_inv _ _ Ef Hok) as [-> Hfs].
  unfold snapshot_frames. split.
  - rewrite fmap_app, concat_app. cbn [fmap list_fmap concat fst]. by rewrite app_nil_r.
  - apply Forall_app. split; [done|]. constructor; [|done]. exists (Marshal []). split_and!; [done|done|].
    apply (read_json_payload []). done.
Qed.

Lemma complete_all fs : complete (length (concat (fst <$> fs))) fs = (fun p => (zlen p.1, p.2)) <$> fs.
Proof.
  induction fs as [|[f rs] fs IH]; [done|]. rewrite !fmap_cons. cbn [concat fst snd complete]. rewrite length_app.
  destruct (Nat.ltb_spec (length f + length (concat (fst <$> fs))) (length f)); [lia|].
  replace (length f + _ - length f)%nat with (length (concat (fst <$> fs))) by lia. by rewrite IH.
Qed.

Lemma Read_whole {S} (apply : S → list Record_ → option string * S) s fs :
  Forall (fun p => frame_of p.1 p.2) fs →
  Read apply s (magic ++ concat (fst <$> fs)) = apply_all apply s 8 ((fun p => (zlen p.1, p.2)) <$> fs).
Proof.
  intros Hfs. rewrite Read_magic, <- complete_all, <- (read_frames _ _ _ _ _ (Datatypes.S (length (magic ++ concat (fst <$> fs)))));
    [|done|]; rewrite take_ge by done; [done|]. rewrite length_app. lia.
Qed.

Section Snapshots.
Context {S : Type} (apply : S → list Record_ → option string * S).

Lemma until_footer_all rs s off :
  ∃ off', apply_all (until_footer apply) (s, false) off ((fun p => (zlen p.1, p.2)) <$> snapshot_frames rs) =
    match apply_each apply s (sane_record <$> rs) with
    | (Some e, s') => mkEnd off' (Some e) (s', false)
    | (None, s') => mkEnd (off + zlen (concat (fst <$> snapshot_frames rs))) None (s', true)
    end.
Proof.
  unfold snapshot_frames. revert s off. induction rs as [|r rs IH]; intros s off.
  - exists 0. cbn [fmap list_fmap app apply_all until_footer apply_each concat fst snd]. by rewrite app_nil_r.
  - rewrite !fmap_cons. cbn [app]. rewrite !fmap_cons. cbn [apply_all until_footer apply_each concat fst snd].
    destruct (apply s [sane_record r]) as [[e|] s']; [by exists off|].
    destruct (IH s' (off + zlen (frame (Marshal [r])))) as [off' ->]. exists off'.
    destruct (apply_each apply s' (sane_record <$> rs)) as [[e|] s'']; [done|]. f_equal.
    rewrite (zlen_app (frame (Marshal [r]))). lia.
Qed.

Lemma until_footer_torn rs s off n :
  (n < length (concat (fst <$> snapshot_frames rs)))%nat →
  let e := apply_all (until_footer apply) (s, false) off (complete n (snapshot_frames rs)) in
  e_error e = None → (e_state e).2 = false.
Proof.
  unfold snapshot_frames. revert s off n. induction rs as [|r rs IH]; intros s off n Hn.
  - cbn [fmap list_fmap app concat fst] in Hn. rewrite app_nil_r in Hn. cbn [fmap list_fmap app complete].
    destruct (Nat.ltb_spec n (length (frame (Marshal [])))); [reflexivity|lia].
  - rewrite fmap_cons in *. cbn [app] in *. rewrite fmap_cons in Hn. cbn [concat fst] in Hn. rewrite length_app in Hn.
    cbn [complete]. destruct (Nat.ltb_spec n (length (frame (Marshal [r])))); [done|].
    cbn [apply_all until_footer]. destruct (apply s [sane_record r]) as [[e|] s']; [done|]. apply IH. lia.
Qed.

Lemma ReplaySnapshot_whole s rs bytes :
  Forall record_ok rs → snapshot_bytes rs = Ret bytes →
  ReplaySnapshot apply (Some bytes) s = apply_each apply s (sane_record <$> rs).
Proof.
  intros Hok H. destruct (snapshot_bytes_inv _ _ H Hok) as [-> Hfs]. unfold ReplaySnapshot.
  rewrite (Read_whole _ _ _ Hfs). destruct (until_footer_all rs s 8) as [off' ->].
  destruct (apply_each apply s (sane_record <$> rs)) as [[e|] s']; cbn [e_state e_error e_offset]; [done|].
  rewrite zlen_app. change (zlen magic) with 8. by rewrite Z.eqb_refl.
Qed.

Lemma ReplaySnapshot_torn s rs bytes n :
  Forall record_ok rs → snapshot_bytes rs = Ret bytes → (n < length bytes)%nat →
  ∃ e s', ReplaySnapshot apply (Some (take n bytes)) s = (Some e, s').
Proof.
  intros Hok H Hn. destruct (snapshot_bytes_inv _ _ H Hok) as [-> Hfs]. rewrite length_app in Hn. cbn [length magic] in Hn.
  unfold ReplaySnapshot. destruct (Nat.ltb_spec n 8) as [Hlt|Hge].
  - unfold Read. rewrite (proj2 (Z.ltb_lt _ _)); [by eauto|]. unfold zlen. rewrite length_take. cbn [length magic]. lia.
  - rewrite take_app_ge by (cbn; lia). rewrite Read_magic, read_frames by (done || (rewrite length_app; lia)).
    change (length magic) with 8%nat.
    pose proof (until_footer_torn rs s 8 (n - 8)%nat ltac:(lia)) as Hc.
    destruct (apply_all _ _ _ _) as [off [e|] [s' c]]; cbn [e_error e_state e_offset] in *; [by eauto|].
    cbn [snd] in Hc. rewrite Hc by done. cbn. by eauto.
Qed.
End Snapshots.

(** ** Theorems *)

Lemma entries_frames es frames :
  Forall entry_ok es → Forall2 (fun e f => encode_entry e = Ret f) es frames →
  Forall (fun p => frame_of p.1 p.2) (zip frames (entry_records <$> es)) ∧ fst <$> zip frames (entry_records <$> es) = frames.
Proof.
  intros Hok H. split.
  - induction H as [|e f es frames He _ IH]; [constructor|]. inversion_clear Hok. rewrite fmap_cons. cbn [zip zip_with].
    constructor; [by apply encode_entry_frame|by apply IH].
  - apply fst_zip. rewrite length_fmap. by rewrite (Forall2_length _ _ _ H).
Qed.

(** The reader on a prefix of a log. *)
Lemma Read_prefix {S} (apply : S → list Record_ → option string * S) s es frames n :
  Forall entry_ok es → Forall2 (fun e f => encode_entry e = Ret f) es frames → (8 ≤ n)%nat →
  Read apply s (take n (magic ++ concat frames)) =
    apply_all apply s 8 (complete (n - 8) (zip frames (entry_records <$> es))).
Proof.
  intros Hok H Hn. destruct (entries_frames _ _ Hok H) as [Hf Hz]. rewrite take_app_ge by (cbn; lia).
  rewrite Read_magic. pose proof (read_frames apply _ s 8 (n - 8) (Datatypes.S (length (magic ++ take (n - 8) (concat frames)))) Hf) as Hr.
  rewrite Hz in Hr. apply Hr. rewrite length_app. lia.
Qed.

(** C9: recovery from any prefix of a log. When the frames of the entries were
    appended after the magic and the file survived up to an arbitrary byte past
    the magic, [Read] applies the records of exactly the entries whose frames
    are whole, in order, reports no error of its own and stops at the end of
    the last whole frame (or at the frame whose records [apply] refused). *)
Theorem log_recovery {S} (apply : S → list Record_ → option string * S) s es frames n :
  Forall entry_ok es → Forall2 (fun e f => encode_entry e = Ret f) es frames → (8 ≤ n)%nat →
  Read apply s (take n (magic ++ concat frames)) =
    apply_all apply s 8 (complete (n - 8) (zip frames (entry_records <$> es))).
Proof. apply Read_prefix. Qed.

(** C31: damage is detected. If up to four consecutive bytes of one payload in a
    log are changed, [Read] applies exactly the entries before it and fails with
    a checksum mismatch at the offset of the damaged frame; nothing of the
    damaged frame or of what follows is applied. *)
Theorem damage_detected {S} (apply : S → list Record_ → option string * S) s es frames e a mid mid' b f rest :
  Forall entry_ok es → Forall2 (fun e f => encode_entry e = Ret f) es frames →
  entry_ok e → encode_entry e = Ret f → drop 8 f = a ++ mid ++ b →
  length mid' = length mid → (length mid ≤ 4)%nat → mid' ≠ mid →
  Read apply s (magic ++ concat frames ++ take 8 f ++ (a ++ mid' ++ b) ++ rest) =
    let before := apply_all apply s 8 (zip (zlen <$> frames) (entry_records <$> es)) in
    match e_error before with
    | Some _ => before
    | None => mkEnd (e_offset before) (Some "persistence checksum mismatch") (e_state before)
    end.
Proof.
  intros Hok H Hoke He Hd Hlen Hle Hne. destruct (entries_frames _ _ Hok H) as [Hf Hz].
  destruct (encode_entry_frame _ _ Hoke He) as (p&->&Hp&_).
  assert (Ht : take 8 (frame p) = header p ∧ drop 8 (frame p) = p) by (unfold frame, header; split; reflexivity).
  destruct Ht as [Ht Hp']. rewrite Hp' in Hd. rewrite Ht. subst p.
  assert (Hsz : (fun p : list byte * list Record_ => (zlen p.1, p.2)) <$> zip frames (entry_records <$> es)
                = zip (zlen <$> frames) (entry_records <$> es)).
  { clear. generalize (entry_records <$> es). induction frames as [|f frames IH]; intros [|r rs]; [done..|].
    cbn [zip zip_with fmap list_fmap fst snd]. f_equal. apply IH. }
  rewrite <- Hsz, Read_magic.
  pose proof (read_frames_damaged apply _ s 8 (Datatypes.S (length (magic ++ concat frames ++ header (a ++ mid ++ b) ++ (a ++ mid' ++ b) ++ rest)))
    (a ++ mid ++ b) (a ++ mid' ++ b) rest Hf Hp) as Hr.
  rewrite Hz in Hr. apply Hr.
  - unfold zlen. rewrite !length_app. lia.
  - intros E. by apply crc32_burst in E; [|lia..].
  - rewrite (length_app magic). cbn. lia.
Qed.

(** C32: snapshots are all or nothing. Replaying the whole bytes of a snapshot
    applies its records one by one, in order, and succeeds when each of them
    does; replaying any strict prefix fails. *)
Theorem snapshot_atomic {S} (apply : S → list Record_ → option string * S) s rs bytes n :
  Forall record_ok rs → snapshot_bytes rs = Ret bytes →
  ReplaySnapshot apply (Some bytes) s = apply_each apply s (sane_record <$> rs)
  ∧ ((n < length bytes)%nat → ∃ e s', ReplaySnapshot apply (Some (take n bytes)) s = (Some e, s')).
Proof. intros Hok H. split; [by apply ReplaySnapshot_whole|intros; by eapply ReplaySnapshot_torn]. Qed.

(** [Read] ends on every file. The loop needs no more rounds than the file
    has bytes, it stops at an offset inside the file, and no payload makes its
    slicing panic. *)
Theorem Read_total {S} (apply : S → list Record_ → option string * S) s file :
  (∀ fuel, (length file < fuel)%nat → read_loop apply fuel s 8 (drop 8 file) = read_loop apply (Datatypes.S (length file)) s 8 (drop 8 file))
  ∧ 0 ≤ e_offset (Read apply s file) ≤ zlen file ∧ no_panic (read_payload file).
Proof.
  split_and!.
  - intros fuel H. apply read_loop_fuel; rewrite length_drop; lia.
  - unfold Read. destruct (Z.ltb_spec (zlen file) (zlen magic)) as [|Hge]; [done|]. change (zlen magic) with 8 in Hge.
    destruct (negb _); [done|]. pose proof (read_loop_offset apply (Datatypes.S (length file)) s (zlen magic) (drop 8 file)) as [Hlo _].
    change (zlen magic) with 8 in *. lia.
  - pose proof (zlen_nonneg file). unfold Read. destruct (Z.ltb_spec (zlen file) (zlen magic)) as [|Hge]; [done|].
    destruct (negb _); [done|]. pose proof (read_loop_offset apply (Datatypes.S (length file)) s (zlen magic) (drop 8 file)) as [_ Hhi].
    change (zlen magic) with 8 in *. unfold zlen in *. rewrite length_drop in Hhi. lia.
  - apply read_payload_no_panic.
Qed.

(** C33: what JSON frames preserve. A list of records reads back from its frame
    as it was exactly when the replication, consumer-group and consumer names in
    it are UTF-8: keys and values are base64, the names are JSON strings, in
    which other bytes become U+FFFD. *)
Theorem records_exact rs :
  Forall record_ok rs → read_payload (Marshal rs) = Ret rs ↔ forallb text_record rs = true.
Proof.
  intros Hok. rewrite read_json_payload by done.
  rewrite (forallb_Forall _ (fun r => sane_record r = r)), <- fmap_fixed by (intros; by rewrite sane_record_fixed).
  split; [by intros [=]|by intros ->].
Qed.

(** ** Concrete logs *)

(** [apply] that collects what it is given. *)
Definition collect (s : list (list Record_)) (rs : list Record_) : option string * list (list Record_) := (None, s ++ [rs]).

Definition demo_record : Record_ :=
  mkRecord false (Some [x6b; xff]) [x76; x00] 1700000000000 false 3 None
    (Some (mkStreamDelta true [x01] 1 (0, 0) false [] (5, 1) (0, 0) 1 [] false
       [mkGroupDelta [x67; xff] false true (5, 1) (-1) [mkConsumer [x63] 7 8] [] [mkPending (5, 1) [x63] 9 1] []])) None.

Definition demo_entries : list journal_entry :=
  [PlainSet [x61] [x62; x63]; PlainSetBatch [[]; [x6b]] [[x31]; []]; Records [demo_record]].
Definition demo_frames : list (list byte) :=
  Eval vm_compute in (fun e => match encode_entry e with Ret f => f | _ => [] end) <$> demo_entries.

Lemma demo_record_ok : record_ok demo_record.
Proof. unfold record_ok, stream_ok, group_ok, consumer_ok, pending_ok, id_ok, int64, uint64. cbn. repeat constructor; cbn; lia. Qed.

Lemma demo_entries_ok : Forall entry_ok demo_entries.
Proof. constructor; [done|]. constructor; [done|]. constructor; [|done]. constructor; [apply demo_record_ok|done]. Qed.

Lemma demo_frames_ok : Forall2 (fun e f => encode_entry e = Ret f) demo_entries demo_frames.
Proof. repeat (constructor; [vm_compute; reflexivity|]). constructor. Qed.

(** A log cut inside its third frame. *)
Lemma log_recovery_witness :
  Read collect [] (take 70 (magic ++ concat demo_frames)) =
    mkEnd 55 None [[setRecord (Some [x61]) [x62; x63]]; [setRecord None [x31]; setRecord (Some [x6b]) []]].
Proof.
  rewrite (log_recovery collect [] demo_entries demo_frames 70); [vm_compute; reflexivity|..].
  - apply demo_entries_ok.
  - apply demo_frames_ok.
  - lia.
Defined.

(** A log whose second frame has one flipped byte. *)
Lemma damage_detected_witness :
  Read collect [] (magic ++ concat (take 1 demo_frames) ++
    take 8 (default [] (demo_frames !! 1%nat)) ++ ([x01; x02; x00; x00; x00] ++ [x01] ++ drop 14 (default [] (demo_frames !! 1%nat))) ++ []) =
    mkEnd 24 (Some "persistence checksum mismatch") [[setRecord (Some [x61]) [x62; x63]]].
Proof.
  rewrite (damage_detected collect [] (take 1 demo_entries) (take 1 demo_frames) (PlainSetBatch [[]; [x6b]] [[x31]; []])
    [x01; x02; x00; x00; x00] [x00] [x01] (drop 14 (default [] (demo_frames !! 1%nat))));
    [vm_compute; reflexivity|..].
  - by repeat constructor.
  - repeat (constructor; [vm_compute; reflexivity|]). constructor.
  - done.
  - vm_compute. reflexivity.
  - vm_compute. reflexivity.
  - reflexivity.
  - cbn. lia.
  - done.
Defined.

Definition demo_snapshot : list byte := Eval vm_compute in match snapshot_bytes [demo_record] with Ret b => b | _ => [] end.

(** A snapshot of one record, whole and without its last byte. *)
Lemma snapshot_atomic_witness :
  ReplaySnapshot collect (Some demo_snapshot) [] = (None, [[sane_record demo_record]])
  ∧ ∃ e s', ReplaySnapshot collect (Some (take (length demo_snapshot - 1) demo_snapshot)) [] = (Some e, s').
Proof.
  destruct (snapshot_atomic collect [] [demo_record] demo_snapshot (length demo_snapshot - 1)) as [H1 H2].
  - constructor; [apply demo_record_ok|done].
  - vm_compute. reflexivity.
  - split; [exact H1|]. apply H2. vm_compute. lia.
Defined.

(** The group name of the record is not UTF-8, so it changes. *)
Lemma records_exact_witness : read_payload (Marshal [demo_record]) ≠ Ret [demo_record].
Proof.
  intros H. apply (records_exact [demo_record]) in H; [by vm_compute in H|]. constructor; [apply demo_record_ok|done].
Defined.
