(* ===== verification/AofLog.v ===== *)
(** * The append-only file

    Model of [Log] of internal/persistence/log.go over a small file system. A file
    system has files with their current bytes and the bytes that have crossed an
    fsync, and the directories it may show after a crash: all versions since the
    directory was last synced. Every system call takes the next fault of the
    world: it succeeds, or it fails after some bytes. A file descriptor is the
    inode; the name [os.File.Name] returns is the one it was opened with.

    [enqueueMu] and [mu] make the critical sections atomic, so the state machine
    has one event per section: an append is admitted, the background loop writes
    a batch, a tick syncs, a rewrite begins, prepares its image, writes its delta,
    renames and installs. *)
From S2P Require Import Prelude Utf8 Json Records Persist.
Set Default Proof Using "Type".

(** ** Files *)

Record world := mkWorld {
  w_data : gmap nat (list byte);           (* bytes of each inode *)
  w_sync : gmap nat (list byte);           (* bytes of each inode at its last fsync *)
  w_dir : gmap string nat;                 (* the directory *)
  w_hist : list (gmap string nat);         (* its versions since it was last synced *)
  w_next : nat;                            (* a fresh inode *)
  w_faults : list (option nat);            (* the outcome of the next calls *)
}.

Definition content (w : world) (fd : nat) : list byte := default [] (w_data w !! fd).
Definition synced (w : world) (fd : nat) : list byte := default [] (w_sync w !! fd).

Definition set_data (fd : nat) (d : list byte) (w : world) : world :=
  mkWorld (<[fd := d]> (w_data w)) (w_sync w) (w_dir w) (w_hist w) (w_next w) (w_faults w).
Definition set_sync (fd : nat) (d : list byte) (w : world) : world :=
  mkWorld (w_data w) (<[fd := d]> (w_sync w)) (w_dir w) (w_hist w) (w_next w) (w_faults w).
Definition set_dir (d : gmap string nat) (w : world) : world :=
  mkWorld (w_data w) (w_sync w) d (d :: w_hist w) (w_next w) (w_faults w).

(** The outcome of a system call: [None] for success, [Some n] for an error
    after [n] bytes. No fault left means success. *)
Definition fault (w : world) : option nat * world :=
  match w_faults w with
  | [] => (None, w)
  | f :: fs => (f, mkWorld (w_data w) (w_sync w) (w_dir w) (w_hist w) (w_next w) fs)
  end.

Definition errIO : string := "input/output error".

Definition sys_write (fd : nat) (data : list byte) (w : world) : Z * option string * world :=
  let '(f, w) := fault w in
  match f with
  | None => (zlen data, None, set_data fd (content w fd ++ data) w)
  | Some n => (zlen (take n data), Some errIO, set_data fd (content w fd ++ take n data) w)
  end.

Definition sys_sync (fd : nat) (w : world) : option string * world :=
  let '(f, w) := fault w in
  match f with
  | None => (None, set_sync fd (content w fd) w)
  | Some _ => (Some errIO, w)
  end.

(** Calls that only fail or not: stat, seek, close. *)
Definition sys_other (w : world) : option string * world :=
  let '(f, w) := fault w in (match f with None => None | Some _ => Some errIO end, w).

Definition sys_open (name : string) (w : world) : option nat * world :=
  let '(f, w) := fault w in
  match f with None => (w_dir w !! name, w) | Some _ => (None, w) end.

(** A new empty file; [None] when the name is taken. *)
Definition sys_create (name : string) (w : world) : option nat * world :=
  let '(f, w) := fault w in
  match f, w_dir w !! name with
  | None, None =>
      let fd := w_next w in
      (Some fd, mkWorld (<[fd := []]> (w_data w)) (<[fd := []]> (w_sync w)) (<[name := fd]> (w_dir w))
                  (<[name := fd]> (w_dir w) :: w_hist w) (S fd) (w_faults w))
  | _, _ => (None, w)
  end.

Definition sys_remove (name : string) (w : world) : option string * world :=
  let '(f, w) := fault w in
  match f with None => (None, set_dir (delete name (w_dir w)) w) | Some _ => (Some errIO, w) end.

Definition sys_rename (a b : string) (w : world) : option string * world :=
  let '(f, w) := fault w in
  match f, w_dir w !! a with
  | None, Some fd => (None, set_dir (<[b := fd]> (delete a (w_dir w))) w)
  | _, _ => (Some errIO, w)
  end.

(** fsync of the directory: from now on it is the only version. *)
Definition sys_syncdir (w : world) : option string * world :=
  let '(f, w) := fault w in
  match f with
  | None => (None, mkWorld (w_data w) (w_sync w) (w_dir w) [w_dir w] (w_next w) (w_faults w))
  | Some _ => (Some errIO, w)
  end.

(** *** Crashes *)

(** A file may come back with any bytes between the synced and the written ones,
    under any version of the directory since its last sync. *)
Definition survives (w : world) (name : string) (c : list byte) : Prop :=
  ∃ dir fd, dir ∈ w_hist w ∧ dir !! name = Some fd ∧ synced w fd `prefix_of` c ∧ c `prefix_of` content w fd.

(** ** The log *)

Record queuedFrame := mkQueued { q_data : list byte; q_count : Z; q_seq : Z; q_sync : bool; q_done : bool }.

Record Log := mkLog {
  file : nat;
  fname : string;                          (* file.Name() *)
  buffered : list byte;                    (* bytes in the bufio.Writer *)
  werr : option string;                    (* its sticky error *)
  policy : string;
  failed : option string;
  appendedSeq : Z;                         (* uint64 *)
  writtenSeq : Z;
  syncedSeq : Z;
  queue : list queuedFrame;
  rewriteActive : bool;
  rewriteBuffer : list (list byte);
}.

Definition set_writer (b : list byte) (e : option string) (l : Log) : Log :=
  mkLog (file l) (fname l) b e (policy l) (failed l) (appendedSeq l) (writtenSeq l) (syncedSeq l) (queue l)
    (rewriteActive l) (rewriteBuffer l).
Definition set_policy (p : string) (l : Log) : Log :=
  mkLog (file l) (fname l) (buffered l) (werr l) p (failed l) (appendedSeq l) (writtenSeq l) (syncedSeq l) (queue l)
    (rewriteActive l) (rewriteBuffer l).
Definition set_failed (e : option string) (l : Log) : Log :=
  mkLog (file l) (fname l) (buffered l) (werr l) (policy l) e (appendedSeq l) (writtenSeq l) (syncedSeq l) (queue l)
    (rewriteActive l) (rewriteBuffer l).
Definition set_appended (n : Z) (l : Log) : Log :=
  mkLog (file l) (fname l) (buffered l) (werr l) (policy l) (failed l) n (writtenSeq l) (syncedSeq l) (queue l)
    (rewriteActive l) (rewriteBuffer l).
Definition set_written (n : Z) (l : Log) : Log :=
  mkLog (file l) (fname l) (buffered l) (werr l) (policy l) (failed l) (appendedSeq l) n (syncedSeq l) (queue l)
    (rewriteActive l) (rewriteBuffer l).
Definition set_synced (n : Z) (l : Log) : Log :=
  mkLog (file l) (fname l) (buffered l) (werr l) (policy l) (failed l) (appendedSeq l) (writtenSeq l) n (queue l)
    (rewriteActive l) (rewriteBuffer l).
Definition set_queue (q : list queuedFrame) (l : Log) : Log :=
  mkLog (file l) (fname l) (buffered l) (werr l) (policy l) (failed l) (appendedSeq l) (writtenSeq l) (syncedSeq l) q
    (rewriteActive l) (rewriteBuffer l).
Definition set_rewrite (a : bool) (b : list (list byte)) (l : Log) : Log :=
  mkLog (file l) (fname l) (buffered l) (werr l) (policy l) (failed l) (appendedSeq l) (writtenSeq l) (syncedSeq l) (queue l)
    a b.
Definition set_file (fd : nat) (name : string) (l : Log) : Log :=
  mkLog fd name [] None (policy l) (failed l) (appendedSeq l) (writtenSeq l) (syncedSeq l) (queue l)
    (rewriteActive l) (rewriteBuffer l).

Definition is_nil {A} (o : option A) : bool := match o with None => true | Some _ => false end.

(** *** The buffered writer *)

Definition bufferSize : Z := Z.shiftl 256 10.

Definition Flush (w : world) (l : Log) : option string * (world * Log) :=
  match werr l with
  | Some e => (Some e, (w, l))
  | None =>
      if zlen (buffered l) =? 0 then (None, (w, l)) else
      let '(n, err, w) := sys_write (file l) (buffered l) w in
      match err with
      | Some e => (Some e, (w, set_writer (drop (Z.to_nat n) (buffered l)) (Some e) l))
      | None => (None, (w, set_writer [] None l))
      end
  end.

(** [bufio.Writer.Write]: the bytes taken, the error and the writer. Three rounds
    are enough: fill and flush, then write what is larger than the buffer. *)
Fixpoint buf_write (fuel : nat) (w : world) (l : Log) (p : list byte) (nn : Z) : Z * option string * (world * Log) :=
  match fuel with
  | O => (nn, werr l, (w, l))
  | S f =>
      if (bufferSize - zlen (buffered l) <? zlen p) && is_nil (werr l) then
        if zlen (buffered l) =? 0 then
          let '(n, err, w) := sys_write (file l) p w in
          buf_write f w (set_writer [] err l) (drop (Z.to_nat n) p) (nn + n)
        else
          let n := Z.min (bufferSize - zlen (buffered l)) (zlen p) in
          let l := set_writer (buffered l ++ take (Z.to_nat n) p) (werr l) l in
          let '(_, (w, l)) := Flush w l in
          buf_write f w l (drop (Z.to_nat n) p) (nn + n)
      else
        match werr l with
        | Some e => (nn, Some e, (w, l))
        | None => (nn + zlen p, None, (w, set_writer (buffered l ++ p) None l))
        end
  end.

Definition writer_Write (st : world * Log) (p : list byte) : Z * option string * (world * Log) :=
  buf_write 4 st.1 st.2 p 0.

Definition write_log (w : world) (l : Log) (data : list byte) : option string * (world * Log) :=
  writeAll writer_Write (S (length data)) (w, l) data.

(** ** Opening *)

Definition validFsyncPolicy (p : string) : bool :=
  bool_decide (p = "always") || bool_decide (p = "everysec") || bool_decide (p = "no").

Definition newLog (fd : nat) (name p : string) : Log := mkLog fd name [] None p None 0 0 0 [] false [].

Definition file_writer (fd : nat) (w : world) (p : list byte) : Z * option string * world := sys_write fd p w.

(** [f.Truncate]; the cut is taken to be durable. *)
Definition sys_truncate (fd : nat) (n : Z) (w : world) : option string * world :=
  let '(f, w) := fault w in
  match f with
  | None => (None, set_sync fd (take (Z.to_nat n) (synced w fd)) (set_data fd (take (Z.to_nat n) (content w fd)) w))
  | Some _ => (Some errIO, w)
  end.

Definition ignore (u : unit) (_ : list Record_) : option string * unit := (None, u).

(** [Open] after the lock of the file was taken. *)
Definition Open (path p : string) (w : world) : res Log * world :=
  if negb (validFsyncPolicy p) then (Err "invalid fsync policy", w) else
  let '(fd, w) := match w_dir w !! path with Some _ => sys_open path w | None => sys_create path w end in
  match fd with
  | None => (Err errIO, w)
  | Some fd =>
      let '(err, w) := sys_other w in
      match err with
      | Some e => (Err e, w)
      | None =>
          let '(err, w) :=
            if zlen (content w fd) =? 0 then writeAll (file_writer fd) (S (length magic)) w magic
            else
              let r := Read ignore tt (content w fd) in
              match e_error r with
              | Some e => (Some e, w)
              | None => sys_truncate fd (e_offset r) w
              end in
          match err with
          | Some e => (Err e, w)
          | None =>
              let '(err, w) := sys_other w in
              match err with
              | Some e => (Err e, w)
              | None => (Ret (newLog fd path p), w)
              end
          end
      end
  end.

(** ** The background loop *)

(** Frames after the first one, while the batch has less than 64 frames and less
    than 256 KiB; [n] are in the batch already. *)
Fixpoint take_batch (n bytes : Z) (q : list queuedFrame) : list queuedFrame * list queuedFrame :=
  match q with
  | [] => ([], [])
  | f :: q' =>
      if (n <? 64) && (bytes <? Z.shiftl 256 10)
      then let '(b, r) := take_batch (n + 1) (bytes + zlen (q_data f)) q' in (f :: b, r)
      else ([], q)
  end.

Fixpoint write_batch (w : world) (l : Log) (batch : list queuedFrame) : world * Log :=
  match batch with
  | [] => (w, l)
  | f :: batch =>
      let '(err, (w, l)) := write_log w l (q_data f) in
      match err with
      | Some e => (w, set_failed (Some e) l)
      | None => write_batch w (if writtenSeq l <? q_seq f then set_written (q_seq f) l else l) batch
      end
  end.

(** [Flush], [Sync], and the progress of [syncedSeq]. *)
Definition flush_sync (w : world) (l : Log) : world * Log :=
  let '(err, (w, l)) := Flush w l in
  let '(w, l) :=
    match err with
    | Some e => (w, set_failed (Some e) l)
    | None => let '(err, w) := sys_sync (file l) w in (w, set_failed err l)
    end in
  (w, if is_nil (failed l) && (syncedSeq l <? writtenSeq l) then set_synced (writtenSeq l) l else l).

(** One round of [drain] on a queue that is not empty: the frames of the batch
    that wait for an answer get [failed]. *)
Definition drain_batch (w : world) (l : Log) : world * Log * list (queuedFrame * option string) :=
  match queue l with
  | [] => (w, l, [])
  | first :: q =>
      let '(more, rest) := take_batch 1 (zlen (q_data first)) q in
      let batch := first :: more in
      let l := set_queue rest l in
      let '(w, l) := if is_nil (failed l) then write_batch w l batch else (w, l) in
      let '(w, l) := if is_nil (failed l) && existsb q_sync batch then flush_sync w l else (w, l) in
      (w, l, (fun f => (f, failed l)) <$> filter (fun f => q_done f = true) batch)
  end.

Fixpoint drain (fuel : nat) (w : world) (l : Log) : world * Log * list (queuedFrame * option string) :=
  match fuel with
  | O => (w, l, [])
  | S f =>
      match queue l with
      | [] => (w, l, [])
      | _ =>
          let '(w, l, acks) := drain_batch w l in
          let '(w, l, acks') := drain f w l in
          (w, l, acks ++ acks')
      end
  end.

(** The ticker: everything queued is written, and synced under "everysec". *)
Definition tick (w : world) (l : Log) : world * Log * list (queuedFrame * option string) :=
  let '(w, l, acks) := drain (S (length (queue l))) w l in
  let '(w, l) := if is_nil (failed l) && bool_decide (policy l = "everysec") then flush_sync w l else (w, l) in
  (w, l, acks).

(** [drainEverysec] waits until this holds. *)
Definition drained (l : Log) : bool := negb (is_nil (failed l)) || (appendedSeq l <=? writtenSeq l).

Definition markSyncedLocked (l : Log) : Log := if appendedSeq l <=? syncedSeq l then l else set_synced (appendedSeq l) l.

Definition SetPolicy (p : string) (w : world) (l : Log) : option string * (world * Log) :=
  if negb (validFsyncPolicy p) then (Some "invalid fsync policy", (w, l)) else
  match failed l with
  | Some e => (Some e, (w, l))
  | None =>
      if bool_decide (p = policy l) then (None, (w, l))
      else if bool_decide (p = "always") then
        let '(err, (w, l)) := Flush w l in
        match err with
        | Some e => (Some e, (w, set_failed (Some e) l))
        | None =>
            let '(err, w) := sys_sync (file l) w in
            match err with
            | Some e => (Some e, (w, set_failed (Some e) l))
            | None => (None, (w, set_policy p (markSyncedLocked l)))
            end
        end
      else (None, (w, set_policy p l))
  end.

(** ** Appending *)

Definition bufferRewriteFrameLocked (frame : list byte) (l : Log) : Log :=
  if rewriteActive l then set_rewrite true (rewriteBuffer l ++ [frame]) l else l.

(** What [appendEncoded] did in the section that holds [enqueueMu]. *)
Inductive admission :=
| Returned (err : option string)           (* the call is over *)
| Waiting (f : queuedFrame).               (* it waits for the frame's answer *)

Definition appendEncoded (frame : list byte) (count : Z) (w : world) (l : Log) : admission * (world * Log) :=
  match failed l with
  | Some e => (Returned (Some e), (w, l))
  | None =>
      let always := bool_decide (policy l = "always") in
      if bool_decide (policy l = "everysec") || always then
        let seq := u64 (appendedSeq l + count) in
        let f := mkQueued frame count seq always always in
        let l := set_queue (queue l ++ [f]) (set_appended seq l) in
        if always then (Waiting f, (w, l)) else (Returned None, (w, bufferRewriteFrameLocked frame l))
      else
        let '(err, (w, l)) := write_log w l frame in
        match err with
        | Some e => (Returned (Some e), (w, set_failed (Some e) l))
        | None =>
            let seq := u64 (appendedSeq l + count) in
            let l := set_written seq (set_appended seq l) in
            let '(err, (w, l)) := Flush w l in
            match err with
            | Some e => (Returned (Some e), (w, set_failed (Some e) l))
            | None => (Returned None, (w, bufferRewriteFrameLocked frame l))
            end
        end
  end.

Definition with_frame (frame : res (list byte)) (count : Z) (w : world) (l : Log) : admission * (world * Log) :=
  match frame with
  | Ret f => appendEncoded f count w l
  | Err e | Panic e => (Returned (Some e), (w, l))
  end.

Definition Append (records : list Record_) : world → Log → admission * (world * Log) := with_frame (WriteFrame records) 1.
Definition AppendPlainSet (key value : list byte) : world → Log → admission * (world * Log) :=
  with_frame (EncodePlainSetFrame key value) 1.
Definition AppendPlainSetBatch (keys values : list (list byte)) : world → Log → admission * (world * Log) :=
  with_frame (EncodePlainSetBatchFrame keys values) (zlen keys).

(** [Close] once [drainEverysec] is through: the loop drains, the file is synced
    and closed. *)
Definition Close (w : world) (l : Log) : option string * (world * Log) :=
  let '(w, l, _) := drain (S (length (queue l))) w l in
  let '(w, l) :=
    if is_nil (failed l) then
      let '(err, (w, l)) := Flush w l in
      match err with
      | Some e => (w, set_failed (Some e) l)
      | None => let '(err, w) := sys_sync (file l) w in (w, if is_nil err then markSyncedLocked l else set_failed err l)
      end
    else (w, l) in
  let '(err, w) := sys_other w in
  let l := if is_nil (failed l) then set_failed err l else l in
  (failed l, (w, l)).

(** ** Snapshots *)

Definition write_file (fd : nat) (data : list byte) (w : world) : option string * world :=
  writeAll (file_writer fd) (S (length data)) w data.

(** Run the next step unless there is an error. *)
Definition andThen (r : option string * world) (k : world → option string * world) : option string * world :=
  match r with (Some e, w) => (Some e, w) | (None, w) => k w end.

Definition WriteFrame_to (fd : nat) (records : list Record_) (w : world) : option string * world :=
  let payload := Marshal records in
  if MaxFrameBytes <? zlen payload then (Some errFrameLimit, w)
  else andThen (write_file fd (header payload) w) (write_file fd payload).

Fixpoint write_records (fd : nat) (rs : list Record_) (w : world) : option string * world :=
  match rs with
  | [] => (None, w)
  | r :: rs => andThen (WriteFrame_to fd [r] w) (write_records fd rs)
  end.

(** The deferred [os.Remove] of a temporary file, which may be gone. *)
Definition dropTemp (tmp : string) (w : world) : world :=
  match w_dir w !! tmp with Some _ => (sys_remove tmp w).2 | None => w end.

(** The name of the temporary file is the one [os.CreateTemp] picks. *)
Definition Snapshot (path tmp : string) (records : list Record_) (w : world) : option string * world :=
  let '(fd, w) := sys_create tmp w in
  match fd with
  | None => (Some errIO, w)
  | Some fd =>
      let '(err, w) :=
        andThen (write_file fd magic w) (fun w =>
        andThen (write_records fd records w) (fun w =>
        andThen (WriteFrame_to fd [] w) (sys_sync fd))) in
      let '(closeErr, w) := sys_other w in
      let err := match err with Some e => Some e | None => closeErr end in
      let '(err, w) :=
        match err with
        | Some e => (Some e, w)
        | None =>
            andThen (sys_rename tmp path w) (fun w =>
            andThen (sys_other w) (fun w =>
            sys_syncdir w))
        end in
      (err, dropTemp tmp w)
  end.

(** ** Rewriting *)

Definition errActive : string := "AOF rewrite already in progress".
Definition errInactive : string := "AOF rewrite is not in progress".

Definition BeginRewrite (w : world) (l : Log) : option string * (world * Log) :=
  if rewriteActive l then (Some errActive, (w, l)) else
  match failed l with
  | Some e => (Some e, (w, l))
  | None => (None, (w, set_rewrite true [] l))
  end.

Definition abortRewrite (l : Log) : Log := set_rewrite false [] l.

(** The first part of [FinishRewrite], up to the image in the temporary file. *)
Definition prepareRewrite (records : list Record_) (tmp snap : string) (w : world) (l : Log)
    : option string * (world * Log) :=
  if negb (rewriteActive l) then (Some errInactive, (w, l)) else
  match failed l with
  | Some e => (Some e, (w, abortRewrite l))
  | None =>
      let '(fd, w) := sys_create tmp w in
      match fd with
      | None => (Some errIO, (w, abortRewrite l))
      | Some _ =>
          let '(closeErr, w) := sys_other w in
          match closeErr with
          | Some e => (Some e, ((sys_remove tmp w).2, abortRewrite l))
          | None =>
              let '(err, w) := sys_remove tmp w in
              match err with
              | Some e => (Some e, (w, abortRewrite l))
              | None =>
                  let '(err, w) := Snapshot tmp snap (resetRecord :: records) w in
                  match err with
                  | Some e => (Some e, (dropTemp tmp w, abortRewrite l))
                  | None => (None, (w, l))
                  end
              end
          end
      end
  end.

Fixpoint write_all_frames (w : world) (l : Log) (frames : list (list byte)) : option string * (world * Log) :=
  match frames with
  | [] => (None, (w, l))
  | f :: frames =>
      match write_log w l f with
      | (Some e, st) => (Some e, st)
      | (None, (w, l)) => write_all_frames w l frames
      end
  end.

(** The second part: open the temporary file, append the delta and sync it. The
    writer of the new file is a log of its own. *)
Definition writeDelta (tmp : string) (w : world) (l : Log) : res nat * (world * Log) :=
  if negb (rewriteActive l) then (Err errInactive, (w, l)) else
  match failed l with
  | Some e => (Err e, (w, abortRewrite l))
  | None =>
      let '(fd, w) := sys_open tmp w in
      match fd with
      | None => (Err errIO, (w, abortRewrite l))
      | Some fd =>
          let '(err, (w, rw)) := write_all_frames w (newLog fd tmp "") (rewriteBuffer l) in
          match err with
          | Some e => (Err e, (w, abortRewrite l))
          | None =>
              let '(err, (w, _)) := Flush w rw in
              match err with
              | Some e => (Err e, (w, abortRewrite l))
              | None =>
                  let '(err, w) := sys_sync fd w in
                  match err with
                  | Some e => (Err e, (w, abortRewrite l))
                  | None => (Ret fd, (w, l))
                  end
              end
          end
      end
  end.

Definition renameRewrite (tmp path : string) (w : world) (l : Log) : option string * (world * Log) :=
  let '(err, w) := sys_rename tmp path w in
  match err with
  | Some e => (Some e, (dropTemp tmp w, abortRewrite l))
  | None => (None, (w, l))
  end.

(** The last part: sync the directory and switch to the new file, which keeps
    the name it was opened with. *)
Definition installRewrite (fd : nat) (tmp : string) (w : world) (l : Log) : option string * (world * Log) :=
  let '(err, w) := sys_other w in
  match err with
  | Some e => (Some e, (w, abortRewrite l))
  | None =>
      let '(syncErr, w) := sys_syncdir w in
      let '(closeErr, w) := sys_other w in
      match syncErr, closeErr with
      | Some e, _ | None, Some e => (Some e, (w, abortRewrite l))
      | None, None =>
          let l := set_rewrite false [] (set_file fd tmp l) in
          let l := markSyncedLocked (set_written (appendedSeq l) l) in
          let '(err, w) := sys_other w in
          match err with
          | Some e => (Some e, (w, set_failed (Some e) l))
          | None => (None, (w, l))
          end
      end
  end.

(** ** The running log *)

Inductive phase :=
| Idle
| Prepared (path tmp : string)             (* the image is in [tmp]; no lock held *)
| Written (path tmp : string) (fd : nat)   (* with its delta, synced; both locks held *)
| Renamed (path tmp : string) (fd : nat).

Record sys := mkSys {
  s_w : world;
  s_l : Log;
  s_held : option queuedFrame;             (* whose append keeps [enqueueMu] until its answer *)
  s_phase : phase;
}.

Inductive event :=
| EAppend (frame : list byte) (count : Z)
| EDrain
| ETick
| EPolicy (p : string)
| EBegin
| EPrepare (records : list Record_) (tmp snap : string)
| EDelta
| ERename
| EInstall.

(** What callers learn: the answers to the appends that waited, and the result of
    the call. *)
Record output := mkOut { o_acks : list (list byte * option string); o_result : option string }.
Definition quiet : output := mkOut [] None.

Definition unlocked (s : sys) : bool := match s_phase s with Idle | Prepared _ _ => true | _ => false end.
Definition admits (s : sys) : bool := unlocked s && is_nil (s_held s).

(** The answers of a batch; the append that holds the lock is over with its own. *)
Definition answered (w : world) (l : Log) (acks : list (queuedFrame * option string)) (s : sys) : sys * output :=
  let out := mkOut ((fun a : queuedFrame * option string => (q_data a.1, a.2)) <$> acks) None in
  match s_held s with
  | None => (mkSys w l None (s_phase s), out)
  | Some f =>
      match List.find (fun a : queuedFrame * option string => q_seq a.1 =? q_seq f) acks with
      | Some (_, err) => (mkSys w (if is_nil err then bufferRewriteFrameLocked (q_data f) l else l) None (s_phase s), out)
      | None => (mkSys w l (Some f) (s_phase s), out)
      end
  end.

Definition plain (r : option string * (world * Log)) (ph : phase) (s : sys) : option (sys * output) :=
  let '(err, (w, l)) := r in Some (mkSys w l (s_held s) ph, mkOut [] err).

(** [None] when the event has to wait. *)
Definition exec (s : sys) (e : event) : option (sys * output) :=
  let w := s_w s in
  let l := s_l s in
  match e with
  | EAppend frame count =>
      if negb (admits s) then None
      else if negb (zlen (queue l) <? 4096) then None
      else if bool_decide (policy l = "no") && negb (drained l) then None
      else match appendEncoded frame count w l with
           | (Returned err, (w, l)) => Some (mkSys w l None (s_phase s), mkOut [] err)
           | (Waiting f, (w, l)) => Some (mkSys w l (if rewriteActive l then Some f else None) (s_phase s), quiet)
           end
  | EDrain => if negb (unlocked s) then None else let '(w, l, acks) := drain_batch w l in Some (answered w l acks s)
  | ETick => if negb (unlocked s) then None else let '(w, l, acks) := tick w l in Some (answered w l acks s)
  | EPolicy p => if negb (admits s && drained l) then None else plain (SetPolicy p w l) (s_phase s) s
  | EBegin => if negb (admits s && drained l) then None else plain (BeginRewrite w l) (s_phase s) s
  | EPrepare records tmp snap =>
      match s_phase s with
      | Idle =>
          if negb (is_nil (s_held s)) then None else
          let r := prepareRewrite records tmp snap w l in
          plain r (match r.1 with None => Prepared (fname l) tmp | Some _ => Idle end) s
      | _ => None
      end
  | EDelta =>
      match s_phase s with
      | Prepared path tmp =>
          if negb (admits s && drained l) then None else
          let '(r, st) := writeDelta tmp w l in
          match r with
          | Ret fd => plain (None, st) (Written path tmp fd) s
          | Err e | Panic e => plain (Some e, (dropTemp tmp st.1, st.2)) Idle s
          end
      | _ => None
      end
  | ERename =>
      match s_phase s with
      | Written path tmp fd =>
          let r := renameRewrite tmp path w l in
          plain r (match r.1 with None => Renamed path tmp fd | Some _ => Idle end) s
      | _ => None
      end
  | EInstall =>
      match s_phase s with
      | Renamed path tmp fd => plain (installRewrite fd tmp w l) Idle s
      | _ => None
      end
  end.

Fixpoint run (s : sys) (es : list event) : option (sys * list output) :=
  match es with
  | [] => Some (s, [])
  | e :: es =>
      match exec s e with
      | None => None
      | Some (s, o) => match run s es with Some (s, os) => Some (s, o :: os) | None => None end
      end
  end.
