(* ===== verification/AofFacts.v ===== *)
(** * Facts of the append-only file

    What the writer, the background loop and appends do to the bytes of the file:
    the bytes written and buffered are always the bytes appended, in order. *)
From S2P Require Import Prelude Utf8 Json Records Persist AofLog.
Set Default Proof Using "Type".

(** ** Writing to one file *)

(** [w'] is [w] after the bytes [out] were added to the file [fd]. *)
Record emits (fd : nat) (out : list byte) (w w' : world) : Prop := mkEmits {
  em_fd : content w' fd = content w fd ++ out;
  em_other : ∀ fd', fd' ≠ fd → content w' fd' = content w fd';
  em_sync : w_sync w' = w_sync w;
  em_dir : w_dir w' = w_dir w;
  em_hist : w_hist w' = w_hist w;
  em_next : w_next w' = w_next w;
}.

Definition untouched (fd : nat) (w w' : world) : Prop := content w' fd = content w fd ∧ synced w' fd = synced w fd.

Lemma untouched_refl fd w : untouched fd w w.
Proof. done. Qed.
Lemma untouched_trans fd w1 w2 w3 : untouched fd w1 w2 → untouched fd w2 w3 → untouched fd w1 w3.
Proof. intros [] []. split; congruence. Qed.

Lemma content_set fd d w : content (set_data fd d w) fd = d.
Proof. unfold content. cbn. by rewrite lookup_insert_eq. Qed.

Lemma content_set_other fd fd' d w : fd' ≠ fd → content (set_data fd d w) fd' = content w fd'.
Proof. intros H. unfold content. cbn. by rewrite lookup_insert_ne. Qed.

(** Taking a fault changes nothing else. *)
Lemma fault_same w f w' :
  fault w = (f, w') →
  w_data w' = w_data w ∧ w_sync w' = w_sync w ∧ w_dir w' = w_dir w ∧ w_hist w' = w_hist w ∧ w_next w' = w_next w.
Proof. unfold fault. destruct (w_faults w); by intros [= <- <-]. Qed.

Lemma emits_refl fd w w' :
  w_data w' = w_data w → w_sync w' = w_sync w → w_dir w' = w_dir w → w_hist w' = w_hist w → w_next w' = w_next w →
  emits fd [] w w'.
Proof. intros H ? ? ? ?. split; unfold content; rewrite ?H, ?app_nil_r; done. Qed.

Lemma emits_id fd w : emits fd [] w w.
Proof. by apply emits_refl. Qed.

Lemma emits_trans fd a b w1 w2 w3 : emits fd a w1 w2 → emits fd b w2 w3 → emits fd (a ++ b) w1 w3.
Proof.
  intros [] []. split; [by rewrite em_fd1, em_fd0, app_assoc| |congruence..]. intros. rewrite em_other1, em_other0; done.
Qed.

Lemma emits_set fd out w w0 :
  w_data w0 = w_data w → w_sync w0 = w_sync w → w_dir w0 = w_dir w → w_hist w0 = w_hist w → w_next w0 = w_next w →
  emits fd out w (set_data fd (content w0 fd ++ out) w0).
Proof.
  intros H ? ? ? ?. split; try done.
  - rewrite content_set. unfold content. by rewrite H.
  - intros. rewrite content_set_other by done. unfold content. by rewrite H.
Qed.

Lemma sys_write_spec fd data w n err w' :
  sys_write fd data w = (n, err, w') →
  match err with
  | None => n = zlen data ∧ emits fd data w w'
  | Some _ => ∃ out, out `prefix_of` data ∧ n = zlen out ∧ emits fd out w w'
  end.
Proof.
  unfold sys_write. destruct (fault w) as [f w0] eqn:E. apply fault_same in E as (?&?&?&?&?).
  destruct f as [k|]; intros [= <- <- <-]; [|split; [done|by apply emits_set]].
  exists (take k data). split_and!; [apply prefix_take|done|by apply emits_set].
Qed.

Lemma drop_zlen {A} (a : list A) : drop (Z.to_nat (zlen a)) a = [].
Proof. rewrite to_nat_zlen. by apply drop_ge. Qed.

(** ** The buffered writer *)

(** Only the writer of the log changed. *)
Definition same_log (l l' : Log) : Prop := l' = set_writer (buffered l') (werr l') l.

Lemma same_log_set b e l : same_log l (set_writer b e l).
Proof. by destruct l. Qed.
Lemma same_log_inv l l' : same_log l l' → ∃ b e, l' = set_writer b e l.
Proof. unfold same_log. eauto. Qed.
Lemma same_log_refl l : same_log l l.
Proof. by destruct l. Qed.
Lemma same_log_trans l1 l2 l3 : same_log l1 l2 → same_log l2 l3 → same_log l1 l3.
Proof. unfold same_log. intros -> ->. by destruct l1. Qed.

(** After the bytes [data] were given to the writer of [l]. *)
Definition written (data : list byte) (err : option string) (w : world) (l : Log) (w' : world) (l' : Log) : Prop :=
  same_log l l' ∧ (zlen (buffered l) ≤ bufferSize → zlen (buffered l') ≤ bufferSize) ∧
  match err with
  | None => werr l' = None ∧ ∃ out, emits (file l) out w w' ∧ out ++ buffered l' = buffered l ++ data
  | Some e => werr l' = Some e ∧ ∃ out, emits (file l) out w w' ∧ out `prefix_of` buffered l ++ data
  end.

Lemma Flush_spec w l err w' l' :
  werr l = None → Flush w l = (err, (w', l')) → written [] err w l w' l' ∧ (err = None → buffered l' = []).
Proof.
  intros Hw. unfold Flush. rewrite Hw. destruct (Z.eqb_spec (zlen (buffered l)) 0) as [E|_].
  - assert (Hb : buffered l = []) by (unfold zlen in E; destruct (buffered l); [done|cbn in E; lia]).
    intros [= <- <- <-]. split; [|done]. split_and!; [apply same_log_refl|done|done|]. exists []. split; [apply emits_id|].
    by rewrite app_nil_r.
  - destruct (sys_write (file l) (buffered l) w) as [[n e] w1] eqn:E. apply sys_write_spec in E. destruct e as [e|].
    + destruct E as (out&Hpre&->&Hem). intros [= <- <- <-]. split; [|done]. split_and!; [apply same_log_set| |done|].
      * unfold zlen. cbn [buffered set_writer]. rewrite length_drop. lia.
      * exists out. split; [done|by rewrite app_nil_r].
    + destruct E as [_ Hem]. intros [= <- <- <-]. split; [|done]. split_and!; [apply same_log_set|done|done|]. by exists (buffered l).
Qed.

Lemma buf_write_error fuel w l p nn e : werr l = Some e → buf_write fuel w l p nn = (nn, Some e, (w, l)).
Proof. intros H. destruct fuel; cbn [buf_write]; rewrite H; [done|]. by rewrite andb_false_r. Qed.

Lemma buf_write_fits f w l p nn :
  werr l = None → bufferSize - zlen (buffered l) <? zlen p = false →
  buf_write (S f) w l p nn = (nn + zlen p, None, (w, set_writer (buffered l ++ p) None l))
  ∧ written p None w l w (set_writer (buffered l ++ p) None l).
Proof.
  intros Hw Hp. split; [cbn [buf_write]; by rewrite Hw, Hp|].
  split_and!; [apply same_log_set|intros _; cbn [buffered set_writer]; rewrite zlen_app; lia|done|]. exists []. split; [apply emits_id|done].
Qed.

(** A writer with an empty buffer: two rounds. *)
Lemma buf_write_empty f w l p nn n err w' l' :
  werr l = None → buffered l = [] → buf_write (S (S f)) w l p nn = (n, err, (w', l')) →
  written p err w l w' l' ∧ (err = None → n = nn + zlen p).
Proof.
  intros Hw Hb. destruct (bufferSize - zlen (buffered l) <? zlen p) eqn:Hp.
  - cbn [buf_write]. rewrite Hp, Hw, Hb. change (zlen [] =? 0) with true. cbn match.
    destruct (sys_write (file l) p w) as [[n1 e] w1] eqn:E. apply sys_write_spec in E. destruct e as [e|].
    + destruct E as (out&Hpre&->&Hem). change (is_nil (Some e)) with false. rewrite andb_false_r.
      intros [= <- <- <- <-]. split; [|done]. split_and!; [apply same_log_set|done|done|]. exists out. rewrite Hb. done.
    + destruct E as [-> Hem]. rewrite drop_zlen. change (zlen []) with 0. cbn match.
      intros [= <- <- <- <-]. split; [|lia]. split_and!; [eapply same_log_trans; apply same_log_set|done|done|]. exists p. by rewrite Hb, app_nil_r.
  - destruct (buf_write_fits (S f) w l p nn Hw Hp) as [-> H]. by intros [= <- <- <- <-].
Qed.

Lemma written_trans p q err w l w1 l1 w2 l2 :
  written p None w l w1 l1 → written q err w1 l1 w2 l2 → written (p ++ q) err w l w2 l2.
Proof.
  intros (Hs1&Hz1&He1&o1&Hem1&Ho1) (Hs2&Hz2&H2). split_and!; [by eapply same_log_trans|auto|].
  assert (Hf : file l1 = file l) by (rewrite Hs1; done). rewrite Hf in H2.
  destruct err as [e|]; destruct H2 as (He2&o2&Hem2&Ho2); (split; [done|]); exists (o1 ++ o2);
    (split; [by eapply emits_trans|]).
  - rewrite app_assoc, <- Ho1, <- app_assoc. by apply prefix_app.
  - rewrite <- app_assoc, Ho2, app_assoc, Ho1, <- app_assoc. done.
Qed.

(** Fill the buffer and flush it. *)
Lemma fill_flush w l k p err w' l' :
  werr l = None → 0 ≤ k ≤ bufferSize - zlen (buffered l) →
  Flush w (set_writer (buffered l ++ take (Z.to_nat k) p) None l) = (err, (w', l')) →
  written (take (Z.to_nat k) p) err w l w' l' ∧ (err = None → buffered l' = []).
Proof.
  intros Hw Hk H. apply Flush_spec in H; [|done]. destruct H as [(Hs&Hz&H) Hbuf]. split; [|done].
  split_and!; [eapply same_log_trans; [apply same_log_set|exact Hs]| |].
  - intros _. apply Hz. cbn [buffered set_writer]. unfold zlen in *. rewrite length_app, length_take. lia.
  - destruct err as [e|]; destruct H as (He&o&Hem&Ho); (split; [done|]); exists o; (split; [done|]); by rewrite app_nil_r in Ho.
Qed.

Lemma buf_write_spec w l p n err w' l' :
  werr l = None → zlen (buffered l) ≤ bufferSize → buf_write 4 w l p 0 = (n, err, (w', l')) →
  written p err w l w' l' ∧ (err = None → n = zlen p).
Proof.
  intros Hw Hle. destruct (buffered l) as [|b0 bs] eqn:Hb; [intros H; by eapply buf_write_empty in H|].
  rewrite <- Hb in *. change (buf_write 4 w l p 0) with (buf_write (S 3) w l p 0). remember 3%nat as f3 eqn:Hf3.
  destruct (bufferSize - zlen (buffered l) <? zlen p) eqn:Hp.
  - cbn [buf_write]. rewrite Hp, Hw. cbn [is_nil andb].
    assert (Hz : zlen (buffered l) =? 0 = false) by (rewrite Hb, zlen_cons; pose proof (zlen_nonneg bs); lia). rewrite Hz.
    set (k := Z.min (bufferSize - zlen (buffered l)) (zlen p)). pose proof (zlen_nonneg p).
    destruct (Flush w _) as [err1 [w1 l2]] eqn:E. apply fill_flush in E as [Hwr Hbuf]; [|done|lia]. destruct err1 as [e1|].
    + destruct Hwr as (Hs&Hz1&He&o&Hem&Ho). rewrite (buf_write_error _ _ _ _ _ e1) by done. intros [= <- <- <- <-].
      split; [|done]. split_and!; [done|done|done|]. exists o. split; [done|].
      etransitivity; [exact Ho|]. apply prefix_app, prefix_take.
    + subst f3. intros H1. eapply buf_write_empty in H1; [|apply Hwr|by apply Hbuf]. destruct H1 as [H1 Hn].
      split; [rewrite <- (take_drop (Z.to_nat k) p); by eapply written_trans|].
      intros He. rewrite (Hn He). unfold zlen in *. rewrite length_drop. lia.
  - destruct (buf_write_fits f3 w l p 0 Hw Hp) as [-> H]. by intros [= <- <- <- <-].
Qed.

Lemma written_nil w l : werr l = None → written [] None w l w l.
Proof. intros H. split_and!; [apply same_log_refl|done|done|]. exists []. split; [apply emits_id|by rewrite app_nil_r]. Qed.

(** A frame given to the log's writer. *)
Lemma write_log_spec w l data err w' l' :
  werr l = None → zlen (buffered l) ≤ bufferSize → write_log w l data = (err, (w', l')) → written data err w l w' l'.
Proof.
  intros Hw Hle. unfold write_log. destruct data as [|b data].
  - cbn. intros [= <- <- <-]. by apply written_nil.
  - set (d := b :: data). assert (Hd : 0 < zlen d) by (unfold d; rewrite zlen_cons; pose proof (zlen_nonneg data); lia).
    change (length d) with (S (length data)). cbn [writeAll]. destruct (Z.eqb_spec (zlen d) 0); [lia|].
    unfold writer_Write at 1. cbn [fst snd]. destruct (buf_write 4 w l d 0) as [[k e] [w1 l1]] eqn:E.
    apply buf_write_spec in E as [Hwr Hk]; [|done|done]. destruct e as [e|]; [by intros [= <- <- <-]|].
    rewrite (Hk eq_refl). destruct (Z.leb_spec (zlen d) 0); [lia|]. rewrite Z.ltb_irrefl. cbn [orb].
    rewrite drop_zlen. cbn [writeAll]. change (zlen [] =? 0) with true. cbn match.
    by intros [= <- <- <-].
Qed.

Lemma written_emits data e w l w' l' : written data e w l w' l' → ∃ out, emits (file l) out w w'.
Proof. intros (_&_&H). destruct e; destruct H as (_&out&Hem&_); by exists out. Qed.
