(* ===== verification/AofInv.v ===== *)
(** * The invariant of the append-only file

    [T] lists the frames appended since the file had the bytes [B], with their
    sequence numbers. As long as nothing failed, the file and the buffer hold
    [B], the frames written so far and nothing else; the rest of [T] is in the
    queue. The frames up to [syncedSeq] have crossed an fsync. *)
From stdpp Require Import sorting.
From S2P Require Import Prelude Utf8 Json Records Persist AofLog AofFacts.
Set Default Proof Using "Type".

(** Evaluate the fields of an updated log. *)
Ltac logs := cbn [file fname buffered werr policy failed appendedSeq writtenSeq syncedSeq queue rewriteActive rewriteBuffer
  set_writer set_policy set_failed set_appended set_written set_synced set_queue set_rewrite set_file] in *.

Definition frames := list (Z * list byte).
Definition pairs (q : list queuedFrame) : frames := (fun f => (q_seq f, q_data f)) <$> q.
Definition bytes (T : frames) : list byte := concat (snd <$> T).

Lemma bytes_app T T' : bytes (T ++ T') = bytes T ++ bytes T'.
Proof. unfold bytes. by rewrite fmap_app, concat_app. Qed.

(** [pend] are the frames that were taken from the callers and not yet written. *)
Record winv (B : list byte) (T : frames) (pend : list queuedFrame) (w : world) (l : Log) : Prop := mkInv {
  iv_seq : 0 ≤ syncedSeq l ≤ writtenSeq l ∧ writtenSeq l ≤ appendedSeq l;
  iv_buf : zlen (buffered l) ≤ bufferSize;
  iv_sorted : StronglySorted Z.lt (q_seq <$> pend);
  iv_pend : Forall (fun f => writtenSeq l < q_seq f ≤ appendedSeq l ∧ q_sync f = q_done f) pend;
  iv_sync : synced w (file l) `prefix_of` content w (file l);
  iv_stream : match failed l with
              | None => werr l = None ∧ ∃ T1, T = T1 ++ pairs pend ∧ Forall (fun p => p.1 ≤ writtenSeq l) T1
                        ∧ content w (file l) ++ buffered l = B ++ bytes T1
              | Some _ => content w (file l) `prefix_of` B ++ bytes T
              end;
  iv_cov : ∃ T0 T', T = T0 ++ T' ∧ Forall (fun p => p.1 ≤ syncedSeq l) T0 ∧ Forall (fun p => syncedSeq l < p.1) T'
             ∧ (0 < syncedSeq l → B ++ bytes T0 `prefix_of` synced w (file l));
}.

Notation inv B T w l := (winv B T (queue l) w l).

Lemma emits_synced fd out w w' : emits fd out w w' → ∀ fd', synced w' fd' = synced w fd'.
Proof. intros [_ _ H _ _ _] fd'. unfold synced. by rewrite H. Qed.

(** What is durable of a reachable state: a crash leaves a prefix of the appended
    bytes that contains every frame up to [syncedSeq]. *)
Lemma inv_content B T pend w l : winv B T pend w l → content w (file l) `prefix_of` B ++ bytes T.
Proof.
  intros []. destruct (failed l); [done|]. destruct iv_stream0 as (_&T1&->&_&H). rewrite bytes_app, app_assoc, <- H, <- app_assoc.
  by apply prefix_app_r.
Qed.

(** *** Failing *)

Lemma winv_failed B T pend pend' w l w' l' out e :
  winv B T pend w l → failed l = None → emits (file l) out w w' → out `prefix_of` buffered l ++ bytes (pairs pend) →
  file l' = file l → failed l' = Some e → zlen (buffered l') ≤ bufferSize →
  syncedSeq l' = syncedSeq l → writtenSeq l ≤ writtenSeq l' → writtenSeq l' ≤ appendedSeq l' →
  StronglySorted Z.lt (q_seq <$> pend') →
  Forall (fun f => writtenSeq l' < q_seq f ≤ appendedSeq l' ∧ q_sync f = q_done f) pend' →
  winv B T pend' w' l'.
Proof.
  intros [Hseq Hbuf Hsort Hpend Hsy Hst Hcov] Hf Hem Hout Hfile Hf' Hbuf' Hs' Hw1 Hw2 Hsort' Hpend'. split; try done.
  - rewrite Hs'. lia.
  - rewrite Hfile, (emits_synced _ _ _ _ Hem), (em_fd _ _ _ _ Hem). by apply prefix_app_r.
  - rewrite Hf', Hfile, (em_fd _ _ _ _ Hem). rewrite Hf in Hst. destruct Hst as (_&T1&->&_&Hc).
    rewrite bytes_app, app_assoc, <- Hc, <- app_assoc. by apply prefix_app.
  - destruct Hcov as (T0&T'&HT&H1&H2&H3). exists T0, T'. rewrite Hs', Hfile, (emits_synced _ _ _ _ Hem). done.
Qed.

(** *** Flushing *)

Lemma winv_flush B T pend w l w' l' :
  winv B T pend w l → failed l = None → written [] None w l w' l' → winv B T pend w' l'.
Proof.
  intros [Hseq Hbuf Hsort Hpend Hsy Hst Hcov] Hf ((b&e&->)%same_log_inv&Hz&He&out&Hem&Ho). split; logs; try done.
  - auto.
  - rewrite (emits_synced _ _ _ _ Hem), (em_fd _ _ _ _ Hem). by apply prefix_app_r.
  - rewrite Hf in *. destruct Hst as (_&T1&->&HT1&Hc). split; [done|]. exists T1. split_and!; [done|done|].
    rewrite (em_fd _ _ _ _ Hem), <- app_assoc, Ho, app_nil_r. done.
  - destruct Hcov as (T0&T'&HT&H1&H2&H3). exists T0, T'. rewrite (emits_synced _ _ _ _ Hem). done.
Qed.

(** *** Writing a frame *)

Lemma winv_write B T f pend w l w' l' :
  winv B T (f :: pend) w l → failed l = None → written (q_data f) None w l w' l' →
  winv B T pend w' (set_written (q_seq f) l').
Proof.
  intros [Hseq Hbuf Hsort Hpend Hsy Hst Hcov] Hf ((b&e&->)%same_log_inv&Hz&He&out&Hem&Ho).
  rewrite fmap_cons in Hsort. apply StronglySorted_inv in Hsort as [Hsort Hlt]. inversion_clear Hpend as [|? ? Hpf Hps].
  rewrite Hf in Hst. destruct Hst as (Hwe&T1&HT&HT1&Hc).
  split; logs.
  - lia.
  - auto.
  - done.
  - rewrite Forall_fmap in Hlt. rewrite Forall_forall in *. intros g Hg. specialize (Hlt g Hg). specialize (Hps g Hg).
    cbn in Hlt. split; [lia|apply Hps].
  - rewrite (emits_synced _ _ _ _ Hem), (em_fd _ _ _ _ Hem). by apply prefix_app_r.
  - rewrite Hf. split; [done|]. exists (T1 ++ [(q_seq f, q_data f)]). split_and!.
    + by rewrite <- app_assoc.
    + apply Forall_app. split; [|by repeat constructor]. eapply Forall_impl; [exact HT1|]. cbn. lia.
    + rewrite (em_fd _ _ _ _ Hem), <- app_assoc, Ho, app_assoc, Hc, bytes_app, <- !app_assoc. unfold bytes at 2. cbn. by rewrite app_nil_r.
  - destruct Hcov as (T0&T'&HT'&H1&H2&H3). exists T0, T'. rewrite (emits_synced _ _ _ _ Hem). done.
Qed.

Lemma write_batch_inv B T batch rest w l w' l' :
  winv B T (batch ++ rest) w l → failed l = None → write_batch w l batch = (w', l') →
  winv B T rest w' l' ∧ file l' = file l ∧ syncedSeq l' = syncedSeq l ∧ writtenSeq l ≤ writtenSeq l' ∧ (failed l' = None → Forall (fun f => q_seq f ≤ writtenSeq l') batch).
Proof.
  revert w l. induction batch as [|f batch IH]; intros w l Hinv Hf; cbn [write_batch app] in *.
  - intros [= <- <-]. done.
  - destruct (write_log w l (q_data f)) as [err [w1 l1]] eqn:E.
    assert (Hwe : werr l = None) by (destruct Hinv as [_ _ _ _ _ Hst _]; rewrite Hf in Hst; apply Hst).
    apply write_log_spec in E; [|done|apply Hinv]. destruct err as [e|].
    + intros [= <- <-]. destruct E as ((b&e'&->)%same_log_inv&Hz&He&out&Hem&Ho).
      split_and!; [|done|done|logs; lia|done].
      pose proof (iv_seq _ _ _ _ _ Hinv) as Hseq. pose proof (iv_buf _ _ _ _ _ Hinv) as Hb.
      pose proof (iv_sorted _ _ _ _ _ Hinv) as Hsort. pose proof (iv_pend _ _ _ _ _ Hinv) as Hpend.
      eapply (winv_failed _ _ _ rest _ _ _ (set_failed (Some e) (set_writer b e' l)) out e); try exact Hinv; try done; logs; try done; try lia.
      * etransitivity; [exact Ho|]. apply prefix_app. unfold pairs, bytes. rewrite fmap_cons. cbn [fmap list_fmap concat snd].
        by apply prefix_app_r.
      * rewrite fmap_cons, fmap_app in Hsort. apply StronglySorted_inv in Hsort as [Hsort _].
        by apply StronglySorted_app_1_r in Hsort.
      * inversion_clear Hpend as [|? ? _ Hp]. by apply Forall_app in Hp as [_ Hp].
    + pose proof (winv_write _ _ _ _ _ _ _ _ Hinv Hf E) as Hinv1. destruct E as ((b&e'&->)%same_log_inv&_).
      pose proof (iv_pend _ _ _ _ _ Hinv) as Hpend. inversion_clear Hpend as [|? ? Hpf _].
      assert (Hlt : writtenSeq (set_writer b e' l) <? q_seq f = true) by (logs; lia). rewrite Hlt.
      intros H. eapply IH in H as (H1&H2&H3&H4&H5); [|exact Hinv1|done].
      logs. split_and!; [done|done|done|lia|].
      intros Hf'. constructor; [done|by apply H5].
Qed.

(** *** Syncing *)

(** [w'] is [w] after an fsync of [fd]. *)
Record syncs (fd : nat) (w w' : world) : Prop := mkSyncs {
  sy_data : w_data w' = w_data w;
  sy_sync : w_sync w' = <[fd := content w fd]> (w_sync w);
  sy_dir : w_dir w' = w_dir w;
  sy_hist : w_hist w' = w_hist w;
  sy_next : w_next w' = w_next w;
}.

Lemma sys_sync_spec fd w err w' :
  sys_sync fd w = (err, w') → match err with None => syncs fd w w' | Some _ => emits fd [] w w' end.
Proof.
  unfold sys_sync. destruct (fault w) as [f w0] eqn:E. apply fault_same in E as (H1&H2&?&?&?).
  destruct f; intros [= <- <-]; [by apply emits_refl|]. split; cbn; try done. unfold content. by rewrite H1, H2.
Qed.

Lemma syncs_content fd w w' : syncs fd w w' → ∀ fd', content w' fd' = content w fd'.
Proof. intros [H _ _ _ _] fd'. unfold content. by rewrite H. Qed.

Lemma syncs_synced fd w w' : syncs fd w w' → synced w' fd = content w fd.
Proof. intros [_ H _ _ _]. unfold synced. by rewrite H, lookup_insert_eq. Qed.

Lemma syncs_other fd w w' fd' : syncs fd w w' → fd' ≠ fd → synced w' fd' = synced w fd'.
Proof. intros [_ H _ _ _] Hne. unfold synced. by rewrite H, lookup_insert_ne. Qed.

(** Calls that only touch the file [fd]. *)
Definition only_file (fd : nat) (w w' : world) : Prop :=
  w_dir w' = w_dir w ∧ w_hist w' = w_hist w ∧ w_next w' = w_next w ∧ ∀ x, x ≠ fd → untouched x w w'.

Lemma only_file_refl fd w : only_file fd w w.
Proof. done. Qed.
Lemma only_file_trans fd w1 w2 w3 : only_file fd w1 w2 → only_file fd w2 w3 → only_file fd w1 w3.
Proof.
  intros (A1&A2&A3&A4) (B1&B2&B3&B4). split_and!; [congruence..|]. intros x Hx. eapply untouched_trans; [by apply A4|by apply B4].
Qed.

Lemma emits_only fd out w w' : emits fd out w w' → only_file fd w w'.
Proof. intros M. split_and!; [apply M..|]. intros x Hx. split; [by apply M|by eapply emits_synced]. Qed.

Lemma syncs_only fd w w' : syncs fd w w' → only_file fd w w'.
Proof. intros M. split_and!; [apply M..|]. intros x Hx. split; [by eapply syncs_content|by eapply syncs_other]. Qed.

Lemma sys_sync_only fd w e w' : sys_sync fd w = (e, w') → only_file fd w w'.
Proof. intros H%sys_sync_spec. destruct e; [by eapply emits_only|by apply syncs_only]. Qed.

Lemma written_only data e w l w' l' : written data e w l w' l' → only_file (file l) w w'.
Proof. intros [out M]%written_emits. by eapply emits_only. Qed.

(** Everything written is durable. *)
Definition all_synced (w : world) (l : Log) : Prop :=
  syncedSeq l = writtenSeq l ∧ synced w (file l) = content w (file l) ∧ buffered l = [].

(** A flush followed by an fsync, with [syncedSeq] moved to [n]. *)
Lemma winv_synced B T pend w l w1 l1 w2 n :
  winv B T pend w l → failed l = None → written [] None w l w1 l1 → buffered l1 = [] → syncs (file l1) w1 w2 →
  syncedSeq l ≤ n → n = writtenSeq l → winv B T pend w2 (set_synced n l1).
Proof.
  intros [Hseq Hbuf Hsort Hpend Hsy Hst Hcov] Hf ((b&e&->)%same_log_inv&Hz&He&out&Hem&Ho) Hb Hsync Hle ->. logs. subst b.
  rewrite Hf in Hst. destruct Hst as (Hwe&T1&HT&HT1&Hc). rewrite !app_nil_r in Ho. subst out.
  assert (Hcont : content w2 (file l) = B ++ bytes T1) by (rewrite (syncs_content _ _ _ Hsync), (em_fd _ _ _ _ Hem); done).
  assert (Hsyn : synced w2 (file l) = B ++ bytes T1).
  { rewrite (syncs_synced _ _ _ Hsync), (em_fd _ _ _ _ Hem). done. }
  split; logs; try done; try lia.
  - by rewrite Hcont, Hsyn.
  - rewrite Hf. split; [done|]. exists T1. split_and!; [done|done|by rewrite app_nil_r].
  - exists T1, (pairs pend). split_and!; [done|done| |by rewrite Hsyn].
    unfold pairs. rewrite Forall_fmap. eapply Forall_impl; [exact Hpend|]. cbn. lia.
Qed.

Lemma set_synced_same n l : syncedSeq l = n → set_synced n l = l.
Proof. destruct l. cbn. by intros <-. Qed.
Lemma set_failed_same e l : failed l = e → set_failed e l = l.
Proof. destruct l. cbn. by intros <-. Qed.

(** [Flush] and [Sync]: either everything written is durable, or the log failed. *)
Lemma flush_then_sync B T pend w l w1 l1 w2 err1 err2 :
  winv B T pend w l → failed l = None → Flush w l = (err1, (w1, l1)) → sys_sync (file l1) w1 = (err2, w2) →
  match err1, err2 with
  | Some e, _ => winv B T pend w1 (set_failed (Some e) l1)
  | None, Some e => winv B T pend w2 (set_failed (Some e) l1)
  | None, None => winv B T pend w2 (set_synced (writtenSeq l1) l1) ∧ synced w2 (file l1) = content w2 (file l1) ∧ buffered l1 = []
  end ∧ file l1 = file l ∧ same_log l l1.
Proof.
  intros Hinv Hf HF HS. assert (Hwe : werr l = None) by (destruct Hinv as [_ _ _ _ _ Hst _]; rewrite Hf in Hst; apply Hst).
  apply Flush_spec in HF as [Hwr Hb]; [|done]. pose proof Hwr as ((b&e&->)%same_log_inv&Hz&H).
  split; [|split; [done|apply same_log_set]]. pose proof Hinv as [Hseq Hbuf Hsort Hpend _ _ _]. apply sys_sync_spec in HS. logs.
  destruct err1 as [e1|]; [|destruct err2 as [e2|]].
  - destruct H as (He&out&Hem&Ho). rewrite app_nil_r in Ho.
    eapply (winv_failed _ _ _ pend _ _ _ _ out e1); try exact Hinv; try done; logs; try done; try lia. by apply prefix_app_r.
  - destruct H as (He&out&Hem&Ho). rewrite app_nil_r in Ho.
    eapply (winv_failed _ _ _ pend _ _ _ _ (out ++ []) e2); try exact Hinv; try done; logs; try done; try lia; [by eapply emits_trans|].
    rewrite app_nil_r, <- Ho, <- app_assoc. by apply prefix_app_r.
  - split_and!; [|by rewrite (syncs_synced _ _ _ HS), (syncs_content _ _ _ HS)|by apply Hb].
    eapply winv_synced; try exact Hwr; try done; logs; [by apply Hb|lia].
Qed.

Lemma flush_sync_inv B T pend w l w' l' :
  winv B T pend w l → failed l = None → flush_sync w l = (w', l') →
  winv B T pend w' l' ∧ file l' = file l ∧ writtenSeq l' = writtenSeq l ∧ syncedSeq l ≤ syncedSeq l'
  ∧ queue l' = queue l ∧ (failed l' = None → all_synced w' l').
Proof.
  intros Hinv Hf. unfold flush_sync. destruct (Flush w l) as [err1 [w1 l1]] eqn:E1.
  destruct (sys_sync (file l1) w1) as [err2 w2] eqn:E2.
  pose proof (iv_seq _ _ _ _ _ Hinv) as Hseq.
  destruct (flush_then_sync _ _ _ _ _ _ _ _ _ _ Hinv Hf E1 E2) as (H&_&(b&e&->)%same_log_inv). logs.
  destruct err1 as [e1|]; [intros [= <- <-]; by split_and!|].
  destruct err2 as [e2|]; [intros [= <- <-]; by split_and!|]. destruct H as (H&Hsy&Hb). logs. cbn [is_nil andb].
  destruct (Z.ltb_spec (syncedSeq l) (writtenSeq l)) as [Hlt|Hge]; intros [= <- <-].
  - split_and!; logs; try done; try lia.
    eapply (eq_ind _ (winv B T pend w2) H). by destruct l; cbn in *; subst.
  - assert (E : syncedSeq l = writtenSeq l) by lia. split_and!; logs; try done; try lia.
    eapply (eq_ind _ (winv B T pend w2) H). by destruct l; cbn in *; subst.
Qed.

(** ** What the loop leaves alone *)

Record keeps (l l' : Log) : Prop := mkKeeps {
  k_file : file l' = file l;
  k_fname : fname l' = fname l;
  k_policy : policy l' = policy l;
  k_appended : appendedSeq l' = appendedSeq l;
  k_active : rewriteActive l' = rewriteActive l;
  k_buffer : rewriteBuffer l' = rewriteBuffer l;
}.

Lemma keeps_refl l : keeps l l.
Proof. by split. Qed.
Lemma keeps_trans l1 l2 l3 : keeps l1 l2 → keeps l2 l3 → keeps l1 l3.
Proof. intros [] []. split; congruence. Qed.
Lemma same_keeps l l' : same_log l l' → keeps l l' ∧ queue l' = queue l.
Proof. intros (b&e&->)%same_log_inv. by destruct l. Qed.

Lemma Flush_same w l err w' l' : Flush w l = (err, (w', l')) → same_log l l'.
Proof.
  unfold Flush. destruct (werr l); [intros [= <- <- <-]; apply same_log_refl|].
  destruct (_ =? 0); [intros [= <- <- <-]; apply same_log_refl|].
  destruct (sys_write _ _ _) as [[n [e|]] w1]; intros [= <- <- <-]; apply same_log_set.
Qed.

Lemma buf_write_same f w l p nn n err w' l' : buf_write f w l p nn = (n, err, (w', l')) → same_log l l'.
Proof.
  revert w l p nn. induction f as [|f IH]; intros w l p nn; cbn [buf_write]; [intros [= <- <- <- <-]; apply same_log_refl|].
  destruct (_ && _).
  - destruct (_ =? 0).
    + destruct (sys_write _ _ _) as [[k e] w1]. intros H%IH. eapply same_log_trans; [apply same_log_set|exact H].
    + destruct (Flush _ _) as [e [w1 l1]] eqn:E. apply Flush_same in E. intros H%IH.
      eapply same_log_trans; [eapply same_log_trans; [apply same_log_set|exact E]|exact H].
  - destruct (werr l); intros [= <- <- <- <-]; [apply same_log_refl|apply same_log_set].
Qed.

Lemma write_log_same w l data err w' l' : write_log w l data = (err, (w', l')) → same_log l l'.
Proof.
  unfold write_log. generalize (S (length data)). intros f. revert w l data. induction f as [|f IH]; intros w l data; cbn [writeAll].
  - intros [= <- <- <-]. apply same_log_refl.
  - destruct (_ =? 0); [intros [= <- <- <-]; apply same_log_refl|]. unfold writer_Write at 1. cbn [fst snd].
    destruct (buf_write 4 w l data 0) as [[k e] [w1 l1]] eqn:E. apply buf_write_same in E.
    destruct e; [by intros [= <- <- <-]|]. destruct (_ || _); [by intros [= <- <- <-]|].
    intros H%IH. by eapply same_log_trans.
Qed.

Lemma write_batch_keeps batch w l w' l' : write_batch w l batch = (w', l') → keeps l l' ∧ queue l' = queue l.
Proof.
  revert w l. induction batch as [|f batch IH]; intros w l; cbn [write_batch]; [by intros [= <- <-]|].
  destruct (write_log w l (q_data f)) as [err [w1 l1]] eqn:E. apply write_log_same, same_keeps in E as [K Q].
  destruct err as [e|]; [intros [= <- <-]; by destruct l1, K|]. intros [K' Q']%IH.
  destruct (_ <? _); [|split; [by eapply keeps_trans|congruence]].
  split; [|by rewrite Q'; destruct l1]. eapply keeps_trans; [exact K|]. destruct K'. by destruct l1.
Qed.

Lemma flush_sync_keeps w l w' l' : flush_sync w l = (w', l') → keeps l l' ∧ queue l' = queue l.
Proof.
  unfold flush_sync. destruct (Flush w l) as [err1 [w1 l1]] eqn:E. apply Flush_same, same_keeps in E as [K Q].
  destruct err1 as [e1|].
  - intros [= <- <-]. cbn [is_nil andb set_failed failed]. by destruct l1, K.
  - destruct (sys_sync _ _) as [err2 w2]. intros [= <- <-]. destruct (_ && _); by destruct l1, K.
Qed.

Lemma take_batch_app n b q : let '(x, y) := take_batch n b q in q = x ++ y.
Proof.
  revert n b. induction q as [|f q IH]; intros n b; [done|]. cbn [take_batch]. destruct (_ && _); [|done].
  specialize (IH (n + 1) (b + zlen (q_data f))). destruct (take_batch _ _ _) as [x y]. by rewrite IH.
Qed.

(** ** The loop *)

Lemma winv_queue B T pend w l q : winv B T pend w l → winv B T pend w (set_queue q l).
Proof. intros []. by split. Qed.

Lemma winv_drop B T batch rest w l e : winv B T (batch ++ rest) w l → failed l = Some e → winv B T rest w l.
Proof.
  intros [Hseq Hbuf Hsort Hpend Hsy Hst Hcov] Hf. split; try done.
  - rewrite fmap_app in Hsort. by apply StronglySorted_app_1_r in Hsort.
  - by apply Forall_app in Hpend as [_ Hpend].
  - by rewrite Hf in *.
Qed.

(** The frames with an answer: all of one batch, and durable when the answer is
    that nothing failed. *)
Definition answers_ok (T : frames) (l l' : Log) (acks : list (queuedFrame * option string)) : Prop :=
  ∀ f e, (f, e) ∈ acks → f ∈ queue l ∧ (∀ x, e = Some x → failed l' = Some x) ∧ (e = None → 0 < q_seq f ≤ syncedSeq l' ∧ (q_seq f, q_data f) ∈ T).

Lemma drain_batch_inv B T w l w' l' acks :
  inv B T w l → drain_batch w l = (w', l', acks) →
  inv B T w' l' ∧ keeps l l' ∧ syncedSeq l ≤ syncedSeq l' ∧ (∀ e, failed l = Some e → failed l' = Some e)
  ∧ (∃ batch, queue l = batch ++ queue l' ∧ (queue l ≠ [] → batch ≠ [])) ∧ answers_ok T l l' acks.
Proof.
  intros Hinv. unfold drain_batch. destruct (queue l) as [|first q] eqn:Hq.
  - intros [= <- <- <-]. rewrite Hq. split_and!; try done; [by exists []|]. intros f e H. by apply elem_of_nil in H.
  - pose proof (take_batch_app 1 (zlen (q_data first)) q) as Hb. destruct (take_batch _ _ _) as [more rest]. subst q.
    set (batch := first :: more). set (l0 := set_queue rest l).
    assert (Hinv0 : winv B T (batch ++ rest) w l0) by (by apply winv_queue).
    assert (Hpend0 := iv_pend _ _ _ _ _ Hinv0). rewrite Forall_app in Hpend0. destruct Hpend0 as [Hpend0 _].
    change (failed l0) with (failed l). assert (Hq' : first :: more ++ rest = batch ++ rest) by done.
    destruct (failed l) as [e0|] eqn:Hf; cbn [is_nil].
    + assert (Hf0 : failed l0 = Some e0) by done. rewrite Hf0. cbn [is_nil andb]. intros [= <- <- <-].
      split_and!; try done; [by eapply winv_drop|by intros e [= <-]|by exists batch|].
      intros f e Hin. apply list_elem_of_fmap in Hin as (g&[= -> ->]&Hin). apply list_elem_of_filter in Hin as [_ Hin].
      rewrite Hq, Hq'. split_and!; [apply elem_of_app; by left|congruence|congruence].
    + destruct (write_batch w l0 batch) as [w1 l1] eqn:E1. pose proof (write_batch_keeps _ _ _ _ _ E1) as [K1 Q1].
      assert (K : keeps l l1) by (eapply keeps_trans; [|exact K1]; by split).
      eapply write_batch_inv in E1 as (Hinv1&Hfile1&Hsy1&_&Hw1); [|exact Hinv0|done].
      assert (HT : failed l1 = None → Forall (fun f => (q_seq f, q_data f) ∈ T) batch).
      { intros _. pose proof (iv_stream _ _ _ _ _ Hinv0) as Hst. change (failed l0) with (failed l) in Hst. rewrite Hf in Hst.
        destruct Hst as (_&T1&->&_&_). apply Forall_forall. intros f Hin. apply elem_of_app. right. apply list_elem_of_fmap.
        exists f. split; [done|]. apply elem_of_app. by left. }
      destruct (is_nil (failed l1) && existsb q_sync batch) eqn:E2.
      * apply andb_true_iff in E2 as [E2 _]. assert (Hf1 : failed l1 = None) by (by destruct (failed l1)).
        destruct (flush_sync w1 l1) as [w2 l2] eqn:E3. pose proof (flush_sync_keeps _ _ _ _ E3) as [K2 Q2].
        eapply flush_sync_inv in E3 as (Hinv2&Hfile2&Hwr2&Hsy2&_&Hall); [|exact Hinv1|done].
        intros [= <- <- <-]. assert (Hq2 : queue l2 = rest) by (rewrite Q2, Q1; done).
        split_and!; [by rewrite Hq2|by eapply keeps_trans|change (syncedSeq l0) with (syncedSeq l) in *; lia|done|rewrite Hq2; by exists batch|].
        intros f e Hin. apply list_elem_of_fmap in Hin as (g&[= -> ->]&Hin). apply list_elem_of_filter in Hin as [_ Hin].
        rewrite Hq, Hq'. split_and!; [apply elem_of_app; by left|done|]. intros Hf2. destruct (Hall Hf2) as [Hs _].
        specialize (Hw1 Hf1). rewrite Forall_forall in Hw1. rewrite Forall_forall in Hpend0.
        specialize (Hw1 g Hin). specialize (Hpend0 g Hin). specialize (HT Hf1). rewrite Forall_forall in HT.
        pose proof (iv_seq _ _ _ _ _ Hinv0) as Hseq0. split; [lia|by apply HT].
      * intros [= <- <- <-]. assert (Hq1 : queue l1 = rest) by (rewrite Q1; done).
        split_and!; [by rewrite Hq1|done|change (syncedSeq l0) with (syncedSeq l) in *; lia|done|rewrite Hq1; by exists batch|].
        intros f e Hin. apply list_elem_of_fmap in Hin as (g&[= -> ->]&Hin). apply list_elem_of_filter in Hin as [Hdone Hin].
        rewrite Hq, Hq'. split_and!; [apply elem_of_app; by left|done|]. intros Hf1. exfalso. rewrite Hf1 in E2. cbn [is_nil andb] in E2.
        rewrite Forall_forall in Hpend0. specialize (Hpend0 g Hin). assert (Hs : q_sync g = true) by (rewrite (proj2 Hpend0); done).
        assert (existsb q_sync batch = true); [|congruence]. apply existsb_exists. exists g. split; [by apply list_elem_of_In|done].
Qed.

(** A step of the loop: what it keeps, what it promises to those who wait. *)
Record loop_step (B : list byte) (T : frames) (l : Log) (w' : world) (l' : Log) (acks : list (queuedFrame * option string)) : Prop :=
  mkLoop {
    lp_inv : inv B T w' l';
    lp_keeps : keeps l l';
    lp_synced : syncedSeq l ≤ syncedSeq l';
    lp_failed : ∀ e, failed l = Some e → failed l' = Some e;
    lp_queue : ∃ batch, queue l = batch ++ queue l';
    lp_acks : answers_ok T l l' acks;
  }.

Lemma drain_batch_step B T w l w' l' acks :
  inv B T w l → drain_batch w l = (w', l', acks) →
  loop_step B T l w' l' acks ∧ (queue l ≠ [] → (length (queue l') < length (queue l))%nat).
Proof.
  intros Hinv H. eapply drain_batch_inv in H as (H1&H2&H3&H4&(batch&Hq&Hne)&H6); [|done].
  split; [by split; [..|by exists batch|]|]. intros Hq0. specialize (Hne Hq0). rewrite Hq, length_app.
  destruct batch; [done|]. cbn. lia.
Qed.

Lemma loop_step_trans B T l w1 l1 a1 w2 l2 a2 :
  loop_step B T l w1 l1 a1 → loop_step B T l1 w2 l2 a2 → loop_step B T l w2 l2 (a1 ++ a2).
Proof.
  intros [I1 K1 S1 F1 [b1 Q1] A1] [I2 K2 S2 F2 [b2 Q2] A2]. split; [done|by eapply keeps_trans|lia|auto|exists (b1 ++ b2); by rewrite Q1, Q2, app_assoc|].
  intros f e [H|H]%elem_of_app.
  - destruct (A1 f e H) as (Hq&Hx&Hn). split_and!; [done|auto|]. intros He. destruct (Hn He). split; [lia|done].
  - destruct (A2 f e H) as (Hq&Hx&Hn). split_and!; [|done|done]. rewrite Q1. apply elem_of_app. by right.
Qed.

Lemma loop_step_refl B T w l : inv B T w l → loop_step B T l w l [].
Proof. intros H. split; try done; [by exists []|]. intros f e Hin. by apply elem_of_nil in Hin. Qed.

Lemma drain_step B T fuel w l w' l' acks :
  inv B T w l → drain fuel w l = (w', l', acks) →
  loop_step B T l w' l' acks ∧ ((length (queue l) ≤ fuel)%nat → queue l' = []).
Proof.
  revert w l w' l' acks. induction fuel as [|fuel IH]; intros w l w' l' acks Hinv; cbn [drain].
  - intros [= <- <- <-]. split; [by apply loop_step_refl|]. by destruct (queue l); [|cbn; lia].
  - destruct (queue l) as [|f q] eqn:Hq.
    + intros [= <- <- <-]. rewrite <- Hq in Hinv. split; [by apply loop_step_refl|done].
    + rewrite <- Hq in *. destruct (drain_batch w l) as [[w1 l1] a1] eqn:E1.
      eapply drain_batch_step in E1 as [S1 L1]; [|done]. destruct (drain fuel w1 l1) as [[w2 l2] a2] eqn:E2.
      eapply IH in E2 as [S2 L2]; [|apply S1]. intros [= <- <- <-]. split; [by eapply loop_step_trans|].
      intros Hle. apply L2. assert (queue l ≠ []) by (by rewrite Hq). specialize (L1 H). lia.
Qed.

Lemma flush_sync_step B T w l w' l' :
  inv B T w l → failed l = None → flush_sync w l = (w', l') → loop_step B T l w' l' [] ∧ queue l' = queue l.
Proof.
  intros Hinv Hf H. pose proof (flush_sync_keeps _ _ _ _ H) as [K Q].
  eapply flush_sync_inv in H as (H1&H2&H3&H4&H5&H6); [|done|done]. split; [|done].
  split; [by rewrite Q|done|done|intros e; by rewrite Hf|exists []; by rewrite Q|]. intros f e Hin. by apply elem_of_nil in Hin.
Qed.

Lemma tick_step B T w l w' l' acks :
  inv B T w l → tick w l = (w', l', acks) → loop_step B T l w' l' acks ∧ queue l' = [].
Proof.
  intros Hinv. unfold tick. destruct (drain (S (length (queue l))) w l) as [[w1 l1] a1] eqn:E.
  eapply drain_step in E as [S1 L1]; [|done]. specialize (L1 ltac:(lia)).
  destruct (is_nil (failed l1) && bool_decide (policy l1 = "everysec")) eqn:Hc.
  - apply andb_true_iff in Hc as [Hc _]. assert (Hf : failed l1 = None) by (by destruct (failed l1)).
    destruct (flush_sync w1 l1) as [w2 l2] eqn:E2. eapply flush_sync_step in E2 as [S2 Q2]; [|apply S1|done].
    intros [= <- <- <-]. split; [|congruence]. rewrite <- (app_nil_r a1). by eapply loop_step_trans.
  - by intros [= <- <- <-].
Qed.

(** A queue that was worked off without failure: everything appended is written. *)
Lemma inv_drained B T w l :
  inv B T w l → failed l = None → queue l = [] → content w (file l) ++ buffered l = B ++ bytes T.
Proof.
  intros H Hf Hq. destruct H as [_ _ _ _ _ Hst _]. rewrite Hf, Hq in Hst. destruct Hst as (_&T1&->&_&Hc).
  cbn [pairs fmap list_fmap]. by rewrite app_nil_r.
Qed.

(** ** Appending *)

Lemma inv_no_pending B T w l : inv B T w l → failed l = None → drained l = true → queue l = [].
Proof.
  intros H Hf Hd. unfold drained in Hd. rewrite Hf in Hd. cbn in Hd. pose proof (iv_pend _ _ _ _ _ H) as Hp.
  destruct (queue l) as [|f q]; [done|]. inversion_clear Hp. lia.
Qed.

(** A new frame joins the pending ones. *)
Lemma winv_admit B T pend w l f :
  winv B T pend w l → failed l = None → appendedSeq l < q_seq f → q_sync f = q_done f →
  winv B (T ++ [(q_seq f, q_data f)]) (pend ++ [f]) w (set_appended (q_seq f) l).
Proof.
  intros [Hseq Hbuf Hsort Hpend Hsy Hst Hcov] Hf Hlt Hsd. split; logs; try done; try lia.
  - rewrite fmap_app. apply StronglySorted_app. split_and!.
    + intros a b Ha Hb. apply list_elem_of_singleton in Hb as ->. apply list_elem_of_fmap in Ha as (g&->&Hg).
      rewrite Forall_forall in Hpend. specialize (Hpend g Hg). lia.
    + done.
    + by repeat constructor.
  - apply Forall_app. split; [|repeat constructor; lia || done]. eapply Forall_impl; [exact Hpend|].
    intros g Hg. cbn in *. split; [lia|apply Hg].
  - rewrite Hf in *. destruct Hst as (Hwe&T1&->&HT1&Hc). split; [done|]. exists T1. split_and!; [|done|done].
    unfold pairs. by rewrite fmap_app, <- app_assoc.
  - destruct Hcov as (T0&T'&->&H1&H2&H3). exists T0, (T' ++ [(q_seq f, q_data f)]). split_and!; [by rewrite app_assoc|done| |done].
    apply Forall_app. split; [done|]. repeat constructor. cbn. lia.
Qed.

Lemma winv_rewrite B T pend w l a b : winv B T pend w l → winv B T pend w (set_rewrite a b l).
Proof. intros []. by split. Qed.

Lemma buffer_rewrite_inv B T w l frame : inv B T w l → inv B T w (bufferRewriteFrameLocked frame l).
Proof. intros H. unfold bufferRewriteFrameLocked. destruct (rewriteActive l); [|done]. by apply winv_rewrite. Qed.

(** The frames after an append: one more when the log had not failed. *)
Definition appended (T : frames) (l : Log) (frame : list byte) (count : Z) : frames :=
  match failed l with None => T ++ [(appendedSeq l + count, frame)] | Some _ => T end.

Lemma u64_small n : 0 ≤ n < 2 ^ 64 → u64 n = n.
Proof. apply Z.mod_small. Qed.

(** The direct path of policy "no", with the frame pending. *)
Lemma append_direct B T w l f w1 l1 err1 :
  inv B T w l → failed l = None → queue l = [] → appendedSeq l < q_seq f → q_sync f = q_done f →
  write_log w l (q_data f) = (err1, (w1, l1)) →
  match err1 with
  | Some e => inv B (T ++ [(q_seq f, q_data f)]) w1 (set_failed (Some e) l1)
  | None => inv B (T ++ [(q_seq f, q_data f)]) w1 (set_written (q_seq f) (set_appended (q_seq f) l1)) ∧ werr l1 = None
  end ∧ keeps l l1 ∧ syncedSeq l1 = syncedSeq l.
Proof.
  intros Hinv Hf Hq Hlt Hsd HW. pose proof (winv_admit _ _ _ _ _ _ Hinv Hf Hlt Hsd) as Hadm. rewrite Hq in Hadm. cbn [app] in Hadm.
  assert (Hwe : werr l = None) by (destruct Hinv as [_ _ _ _ _ Hst _]; rewrite Hf in Hst; apply Hst).
  apply write_log_spec in HW; [|done|apply Hinv].
  assert (HW' : written (q_data f) err1 w (set_appended (q_seq f) l) w1 (set_appended (q_seq f) l1)).
  { destruct HW as ((b&e&->)%same_log_inv&Hz&H). split_and!; [by destruct l|done|done]. }
  pose proof HW as ((b&e&->)%same_log_inv&Hz&H). split; [|by split]. destruct err1 as [e1|].
  - destruct H as (He&out&Hem&Ho). pose proof (iv_seq _ _ _ _ _ Hinv). pose proof (iv_buf _ _ _ _ _ Hinv).
    eapply (winv_failed _ _ [f] _ _ _ _ (set_failed (Some e1) (set_writer b e l)) out e1); try exact Hadm; try done; logs; try done; try lia.
    + etransitivity; [exact Ho|]. unfold bytes, pairs. cbn. by rewrite app_nil_r.
    + rewrite Hq. constructor.
    + rewrite Hq. constructor.
  - split; [|apply H]. eapply winv_write in HW'; [|exact Hadm|done]. logs. by rewrite Hq.
Qed.

(** [appendEncoded] on a log that has not failed: the frame is added, also to the
    rewrite buffer unless its answer is still to come. *)
Record append_ok (B : list byte) (T : frames) (frame : list byte) (count : Z) (w : world) (l : Log) (r : admission) (w' : world) (l' : Log)
    : Prop := mkAppend {
  ap_inv : inv B (T ++ [(appendedSeq l + count, frame)]) w' l';
  ap_file : file l' = file l;
  ap_fname : fname l' = fname l;
  ap_policy : policy l' = policy l;
  ap_active : rewriteActive l' = rewriteActive l;
  ap_synced : syncedSeq l' = syncedSeq l;
  ap_seq : appendedSeq l' ≤ appendedSeq l + count;
  ap_world : only_file (file l) w w';
  ap_buffer : failed l' = None →
    rewriteBuffer l' = rewriteBuffer l ++ (if rewriteActive l then match r with Returned _ => [frame] | Waiting _ => [] end else []);
  ap_wait : ∀ f, r = Waiting f → q_data f = frame ∧ q_done f = true ∧ f ∈ queue l' ∧ failed l' = None;
}.

Lemma append_queued B T w l frame count (always : bool) :
  inv B T w l → failed l = None → 0 < count →
  let f := mkQueued frame count (appendedSeq l + count) always always in
  let l1 := set_queue (queue l ++ [f]) (set_appended (appendedSeq l + count) l) in
  append_ok B T frame count w l (if always then Waiting f else Returned None) w (if always then l1 else bufferRewriteFrameLocked frame l1).
Proof.
  intros Hinv Hf Hc f l1.
  assert (Hadm : winv B (T ++ [(appendedSeq l + count, frame)]) (queue l1) w l1).
  { apply winv_queue, (winv_admit _ _ _ _ _ f); [done|done|cbn; lia|done]. }
  destruct always.
  - split; try done; [by destruct (rewriteActive l); rewrite app_nil_r|]. intros g [= <-]. split_and!; [done|done| |done].
    apply elem_of_app. right. by left.
  - unfold bufferRewriteFrameLocked. change (rewriteActive l1) with (rewriteActive l). destruct (rewriteActive l) eqn:Hact.
    + split; try done; [by apply winv_rewrite|by rewrite Hact].
    + split; try done. rewrite Hact. by rewrite app_nil_r.
Qed.

Lemma append_direct_ok B T w l frame count w1 l1 err1 w2 l2 err2 :
  inv B T w l → failed l = None → queue l = [] → 0 < count → write_log w l frame = (err1, (w1, l1)) →
  Flush w1 (set_written (appendedSeq l + count) (set_appended (appendedSeq l + count) l1)) = (err2, (w2, l2)) →
  match err1, err2 with
  | Some e, _ => append_ok B T frame count w l (Returned (Some e)) w1 (set_failed (Some e) l1)
  | None, Some e => append_ok B T frame count w l (Returned (Some e)) w2 (set_failed (Some e) l2)
  | None, None => append_ok B T frame count w l (Returned None) w2 (bufferRewriteFrameLocked frame l2)
  end.
Proof.
  intros Hinv Hf Hq Hc E1 E2. set (f := mkQueued frame count (appendedSeq l + count) false false).
  pose proof (append_direct _ _ _ _ f _ _ _ Hinv Hf Hq ltac:(cbn; lia) eq_refl E1) as (H&_&Hsy).
  assert (Hwe : werr l = None) by (destruct Hinv as [_ _ _ _ _ Hst _]; rewrite Hf in Hst; apply Hst).
  pose proof (write_log_spec _ _ _ _ _ _ Hwe (iv_buf _ _ _ _ _ Hinv) E1) as Hwr1.
  pose proof (written_only _ _ _ _ _ _ Hwr1) as U1.
  pose proof Hwr1 as ((b&e&->)%same_log_inv&_&_). destruct err1 as [e1|].
  - split; try done. logs. lia.
  - destruct H as [H He]. apply Flush_spec in E2 as [Hwr2 Hb2]; [|done]. pose proof (written_only _ _ _ _ _ _ Hwr2) as U2.
    assert (HW : only_file (file l) w w2) by (by eapply only_file_trans).
    pose proof Hwr2 as ((b2&e2&->)%same_log_inv&Hz2&Hr2). destruct err2 as [e2'|].
    + split; try done. pose proof (iv_seq _ _ _ _ _ H). pose proof (iv_buf _ _ _ _ _ H).
      destruct Hr2 as (_&o&M2'&Ho). rewrite app_nil_r in Ho.
      eapply (winv_failed _ _ _ _ _ _ _ _ o e2'); try exact H; try done; logs; try done; try lia; [by apply prefix_app_r| |];
        rewrite Hq; constructor.
    + assert (Hi : inv B (T ++ [(appendedSeq l + count, frame)]) w2
                     (set_writer b2 e2 (set_written (appendedSeq l + count) (set_appended (appendedSeq l + count) (set_writer b e l)))))
        by (by eapply winv_flush in Hwr2).
      unfold bufferRewriteFrameLocked. logs. destruct (rewriteActive l) eqn:Hact.
      * split; try done; [by apply winv_rewrite|by rewrite Hact].
      * split; try done; by rewrite Hact, app_nil_r.
Qed.

Lemma appendEncoded_ok B T w l frame count r w' l' :
  inv B T w l → failed l = None → 0 < count → appendedSeq l + count < 2 ^ 64 →
  validFsyncPolicy (policy l) = true → (policy l = "no" → drained l = true) →
  appendEncoded frame count w l = (r, (w', l')) → append_ok B T frame count w l r w' l'.
Proof.
  intros Hinv Hf Hc Hmax Hpol Hno. pose proof (iv_seq _ _ _ _ _ Hinv) as Hseq.
  unfold appendEncoded. rewrite Hf, (u64_small (appendedSeq l + count)) by lia.
  destruct (bool_decide (policy l = "everysec") || bool_decide (policy l = "always")) eqn:Hq.
  - pose proof (append_queued B T w l frame count (bool_decide (policy l = "always")) Hinv Hf Hc) as H.
    destruct (bool_decide (policy l = "always")); by intros [= <- <- <-].
  - rewrite orb_false_iff, !bool_decide_eq_false in Hq. destruct Hq as [Hq1 Hq2].
    assert (Hp : policy l = "no").
    { unfold validFsyncPolicy in Hpol. rewrite !orb_true_iff, !bool_decide_eq_true in Hpol. naive_solver. }
    pose proof (inv_no_pending _ _ _ _ Hinv Hf (Hno Hp)) as Hempty.
    destruct (write_log w l frame) as [e1 [w1 l1]] eqn:E1.
    assert (Ha : appendedSeq l1 = appendedSeq l) by (apply write_log_same, same_keeps in E1 as [K _]; apply K).
    rewrite Ha, (u64_small (appendedSeq l + count)) by lia.
    destruct (Flush w1 _) as [e2 [w2 l2]] eqn:E2.
    pose proof (append_direct_ok _ _ _ _ _ _ _ _ _ _ _ _ Hinv Hf Hempty Hc E1 E2) as H.
    destruct e1 as [e1|]; [by intros [= <- <- <-]|]. destruct e2 as [e2|]; by intros [= <- <- <-].
Qed.

(** ** Policies *)

Lemma SetPolicy_inv B T p w l e w' l' :
  inv B T w l → drained l = true → validFsyncPolicy (policy l) = true → SetPolicy p w l = (e, (w', l')) →
  inv B T w' l' ∧ file l' = file l ∧ fname l' = fname l ∧ appendedSeq l' = appendedSeq l ∧ syncedSeq l ≤ syncedSeq l'
  ∧ rewriteActive l' = rewriteActive l ∧ rewriteBuffer l' = rewriteBuffer l ∧ (failed l' = None → failed l = None)
  ∧ validFsyncPolicy (policy l') = true ∧ queue l' = queue l
  ∧ only_file (file l) w w'.
Proof.
  intros Hinv Hd Hv. pose proof (iv_seq _ _ _ _ _ Hinv) as Hseq. unfold SetPolicy. destruct (validFsyncPolicy p) eqn:Hp; cbn [negb]; [|by intros [= <- <- <-]].
  destruct (failed l) as [e0|] eqn:Hf; [intros [= <- <- <-]; by rewrite Hf|].
  case_bool_decide; [by intros [= <- <- <-]|]. case_bool_decide.
  - destruct (Flush w l) as [err1 [w1 l1]] eqn:E1. destruct (sys_sync (file l1) w1) as [err2 w2] eqn:E2.
    destruct (flush_then_sync _ _ _ _ _ _ _ _ _ _ Hinv Hf E1 E2) as (H1&Hfile&Hs).
    assert (Hwe : werr l = None) by (destruct Hinv as [_ _ _ _ _ Hst _]; rewrite Hf in Hst; apply Hst).
    pose proof (Flush_spec _ _ _ _ _ Hwe E1) as [Hwr _]. pose proof (written_only _ _ _ _ _ _ Hwr) as U1.
    apply same_log_inv in Hs as (b&e'&->). logs. pose proof (only_file_trans _ _ _ _ U1 (sys_sync_only _ _ _ _ E2)) as U2.
    destruct err1 as [e1|]; [intros [= <- <- <-]; split_and!; done|].
    destruct err2 as [e2|]; [intros [= <- <- <-]; split_and!; done|]. destruct H1 as (H1&Hsy&Hb).
    intros [= <- <- <-]. unfold drained in Hd. rewrite Hf in Hd. cbn in Hd. assert (Hwa : writtenSeq l = appendedSeq l) by lia.
    unfold markSyncedLocked. logs. rewrite Hwa in H1. destruct (Z.leb_spec (appendedSeq l) (syncedSeq l)); logs; split_and!; try done; try lia.
    + assert (E : syncedSeq l = appendedSeq l) by lia. destruct H1. rewrite <- E in *. split; logs; try done; lia.
    + destruct H1. split; logs; try done; lia.
  - intros [= <- <- <-]. split_and!; logs; try done. destruct Hinv. by split.
Qed.

(** ** The loop touches one file *)

Lemma sys_write_only fd data w n e w' : sys_write fd data w = (n, e, w') → only_file fd w w'.
Proof. intros H%sys_write_spec. destruct e; [destruct H as (out&_&_&M)|destruct H as [_ M]]; by eapply emits_only. Qed.

Lemma Flush_only w l err w' l' : Flush w l = (err, (w', l')) → only_file (file l) w w'.
Proof.
  unfold Flush. destruct (werr l); [by intros [= <- <- <-]|]. destruct (_ =? 0); [by intros [= <- <- <-]|].
  destruct (sys_write _ _ _) as [[n e] w1] eqn:E. apply sys_write_only in E. destruct e; by intros [= <- <- <-].
Qed.

Lemma buf_write_only f w l p nn n err w' l' : buf_write f w l p nn = (n, err, (w', l')) → only_file (file l) w w'.
Proof.
  revert w l p nn. induction f as [|f IH]; intros w l p nn; cbn [buf_write]; [by intros [= <- <- <- <-]|].
  destruct (_ && _).
  - destruct (_ =? 0).
    + destruct (sys_write _ _ _) as [[k e] w1] eqn:E. apply sys_write_only in E. intros H%IH. by eapply only_file_trans.
    + destruct (Flush _ _) as [e [w1 l1]] eqn:E. pose proof (Flush_same _ _ _ _ _ E) as (b&e'&->)%same_log_inv.
      apply Flush_only in E. intros H%IH. by eapply only_file_trans.
  - destruct (werr l); by intros [= <- <- <- <-].
Qed.

Lemma write_log_only w l data err w' l' : write_log w l data = (err, (w', l')) → only_file (file l) w w'.
Proof.
  unfold write_log. generalize (S (length data)). intros f. revert w l data. induction f as [|f IH]; intros w l data; cbn [writeAll];
    [by intros [= <- <- <-]|].
  destruct (_ =? 0); [by intros [= <- <- <-]|]. unfold writer_Write at 1. cbn [fst snd].
  destruct (buf_write 4 w l data 0) as [[k e] [w1 l1]] eqn:E. pose proof (buf_write_same _ _ _ _ _ _ _ _ _ E) as (b&e'&->)%same_log_inv.
  apply buf_write_only in E. destruct e; [by intros [= <- <- <-]|]. destruct (_ || _); [by intros [= <- <- <-]|].
  intros H%IH. by eapply only_file_trans.
Qed.

Lemma write_batch_only batch w l w' l' : write_batch w l batch = (w', l') → only_file (file l) w w'.
Proof.
  revert w l. induction batch as [|f batch IH]; intros w l; cbn [write_batch]; [by intros [= <- <-]|].
  destruct (write_log w l (q_data f)) as [err [w1 l1]] eqn:E. pose proof (write_log_same _ _ _ _ _ _ E) as (b&e'&->)%same_log_inv.
  apply write_log_only in E. destruct err as [e|]; [by intros [= <- <-]|]. intros H%IH. eapply only_file_trans; [exact E|].
  by destruct (_ <? _).
Qed.

Lemma flush_sync_only w l w' l' : flush_sync w l = (w', l') → only_file (file l) w w'.
Proof.
  unfold flush_sync. destruct (Flush w l) as [err1 [w1 l1]] eqn:E. pose proof (Flush_same _ _ _ _ _ E) as (b&e'&->)%same_log_inv.
  apply Flush_only in E. destruct err1 as [e1|]; [by intros [= <- <-]|].
  destruct (sys_sync _ _) as [err2 w2] eqn:E2. apply sys_sync_only in E2. intros [= <- <-]. by eapply only_file_trans.
Qed.

Lemma drain_batch_only w l w' l' acks : drain_batch w l = (w', l', acks) → only_file (file l) w w'.
Proof.
  unfold drain_batch. destruct (queue l) as [|first q]; [by intros [= <- <- <-]|].
  destruct (take_batch _ _ _) as [more rest]. change (failed (set_queue rest l)) with (failed l).
  destruct (is_nil (failed l)) eqn:Hn.
  - destruct (write_batch w _ _) as [w1 l1] eqn:E1. pose proof (write_batch_keeps _ _ _ _ _ E1) as [K _].
    apply write_batch_only in E1. destruct (_ && _); [|by intros [= <- <- <-]].
    destruct (flush_sync w1 l1) as [w2 l2] eqn:E2. apply flush_sync_only in E2. rewrite (k_file _ _ K) in E2.
    intros [= <- <- <-]. by eapply only_file_trans.
  - change (failed (set_queue rest l)) with (failed l). rewrite Hn. cbn [andb]. by intros [= <- <- <-].
Qed.

Lemma drain_batch_keeps w l w' l' acks : drain_batch w l = (w', l', acks) → keeps l l'.
Proof.
  unfold drain_batch. destruct (queue l) as [|first q]; [by intros [= <- <- <-]|].
  destruct (take_batch _ _ _) as [more rest]. change (failed (set_queue rest l)) with (failed l).
  destruct (is_nil (failed l)) eqn:Hn.
  - destruct (write_batch w _ _) as [w1 l1] eqn:E1. apply write_batch_keeps in E1 as [K _].
    assert (K' : keeps l l1) by (destruct K; by split). destruct (_ && _); [|by intros [= <- <- <-]].
    destruct (flush_sync w1 l1) as [w2 l2] eqn:E2. apply flush_sync_keeps in E2 as [K2 _]. intros [= <- <- <-]. by eapply keeps_trans.
  - change (failed (set_queue rest l)) with (failed l). rewrite Hn. cbn [andb]. by intros [= <- <- <-].
Qed.

Lemma drain_only fuel w l w' l' acks : drain fuel w l = (w', l', acks) → only_file (file l) w w' ∧ keeps l l'.
Proof.
  revert w l w' l' acks. induction fuel as [|fuel IH]; intros w l w' l' acks; cbn [drain]; [by intros [= <- <- <-]|].
  destruct (queue l) eqn:Hq; [by intros [= <- <- <-]|]. destruct (drain_batch w l) as [[w1 l1] a1] eqn:E1.
  destruct (drain fuel w1 l1) as [[w2 l2] a2] eqn:E2. apply IH in E2 as [O2 K2]. pose proof (drain_batch_keeps _ _ _ _ _ E1) as K1.
  apply drain_batch_only in E1. rewrite (k_file _ _ K1) in O2. intros [= <- <- <-]. split; [by eapply only_file_trans|by eapply keeps_trans].
Qed.

Lemma tick_only w l w' l' acks : tick w l = (w', l', acks) → only_file (file l) w w'.
Proof.
  unfold tick. destruct (drain _ w l) as [[w1 l1] a1] eqn:E1. apply drain_only in E1 as [O1 K1].
  destruct (_ && _); [|by intros [= <- <- <-]]. destruct (flush_sync w1 l1) as [w2 l2] eqn:E2. apply flush_sync_only in E2.
  rewrite (k_file _ _ K1) in E2. intros [= <- <- <-]. by eapply only_file_trans.
Qed.
