(* ===== verification/AofWorld.v ===== *)
(** * The name of the append-only file

    While a rewrite prepares its image beside the log, the name of the log keeps
    leading to the log's file, and that file is untouched. *)
From S2P Require Import Prelude Utf8 Json Records Persist PersistSpec AofLog AofFacts AofInv.
Set Default Proof Using "Type".

(** In every version of the directory the name [P], and in the current one only
    it, leads to [fd]. *)
Record attached (P : string) (fd : nat) (w : world) : Prop := mkAttached {
  at_hist : ∀ dir, dir ∈ w_hist w → dir !! P = Some fd;
  at_cur : w_dir w ∈ w_hist w;
  at_only : ∀ name, w_dir w !! name = Some fd → name = P;
  at_fd : (fd < w_next w)%nat;
  at_fresh : ∀ name x, w_dir w !! name = Some x → (x < w_next w)%nat;
}.

(** A step beside the file [fd] known as [P]. *)
Definition beside (P : string) (fd : nat) (w w' : world) : Prop := attached P fd w' ∧ untouched fd w w'.

Lemma beside_refl P fd w : attached P fd w → beside P fd w w.
Proof. by split. Qed.
Lemma beside_trans P fd w1 w2 w3 : beside P fd w1 w2 → beside P fd w2 w3 → beside P fd w1 w3.
Proof. intros [] []. split; [done|by eapply untouched_trans]. Qed.

Lemma attached_cur P fd w : attached P fd w → w_dir w !! P = Some fd.
Proof. intros []. auto. Qed.

Lemma attached_same P fd w w' :
  attached P fd w → w_dir w' = w_dir w → w_hist w' = w_hist w → w_next w' = w_next w → attached P fd w'.
Proof. intros [] H1 H2 H3. split; rewrite ?H1, ?H2, ?H3; done. Qed.

Lemma emits_attached P fd x out w w' : attached P fd w → emits x out w w' → attached P fd w'.
Proof. intros Ha He. eapply attached_same; [done|apply He..]. Qed.

Lemma emits_beside P fd x out w w' : attached P fd w → emits x out w w' → x ≠ fd → beside P fd w w'.
Proof.
  intros Ha He Hx. split; [by eapply emits_attached|]. split; [by apply He|by eapply emits_synced].
Qed.

Lemma syncs_attached P fd x w w' : attached P fd w → syncs x w w' → attached P fd w'.
Proof. intros Ha He. eapply attached_same; [done|apply He..]. Qed.

Lemma syncs_beside P fd x w w' : attached P fd w → syncs x w w' → x ≠ fd → beside P fd w w'.
Proof.
  intros Ha He Hx. split; [by eapply syncs_attached|]. split; [by eapply syncs_content|by eapply syncs_other].
Qed.

Lemma fault_beside P fd w f w' : attached P fd w → fault w = (f, w') → beside P fd w w'.
Proof.
  intros Ha (H1&H2&H3&H4&H5)%fault_same. split; [by eapply attached_same|]. unfold untouched, content, synced. by rewrite H1, H2.
Qed.

Lemma sys_other_beside P fd w e w' : attached P fd w → sys_other w = (e, w') → beside P fd w w'.
Proof. intros Ha. unfold sys_other. destruct (fault w) as [f w0] eqn:E. intros [= <- <-]. by eapply fault_beside. Qed.

Lemma sys_open_beside P fd w name o w' :
  attached P fd w → sys_open name w = (o, w') → beside P fd w w' ∧ (∀ x, o = Some x → w_dir w' !! name = Some x ∧ w_dir w' = w_dir w).
Proof.
  intros Ha. unfold sys_open. destruct (fault w) as [f w0] eqn:E. pose proof (fault_same _ _ _ E) as (_&_&Hd&_).
  eapply fault_beside in E; [|done]. destruct f; intros [= <- <-]; (split; [done|]); [done|]. by intros x ->.
Qed.

Lemma set_dir_attached P fd w d :
  attached P fd w → d !! P = Some fd → (∀ name, d !! name = Some fd → name = P) →
  (∀ name x, d !! name = Some x → (x < w_next w)%nat) → attached P fd (set_dir d w).
Proof.
  intros [] H1 H2 H3. split; cbn; try done; [|by left]. intros dir [->|H]%elem_of_cons; auto.
Qed.

Lemma sys_create_beside P fd w name o w' :
  attached P fd w → sys_create name w = (o, w') →
  beside P fd w w' ∧ (∀ x, o = Some x → name ≠ P ∧ x ≠ fd ∧ w_dir w' !! name = Some x ∧ content w' x = [] ∧ synced w' x = []).
Proof.
  intros Ha. unfold sys_create. destruct (fault w) as [f w0] eqn:E. eapply fault_beside in E as [Ha0 Hu]; [|done].
  pose proof (attached_cur _ _ _ Ha0) as HP. destruct f; [by intros [= <- <-]|].
  destruct (w_dir w0 !! name) eqn:En; [by intros [= <- <-]|]. intros [= <- <-].
  assert (Hne : name ≠ P) by congruence. destruct Ha0 as [Hh Hc Ho Hf Hfr].
  split; [split|].
  - split; cbn; [|by left| |lia|].
    + intros dir [->|H]%elem_of_cons; [by rewrite lookup_insert_ne by done|auto].
    + intros m. destruct (decide (m = name)) as [->|]; [rewrite lookup_insert_eq; intros [= <-]; lia|rewrite lookup_insert_ne by done; auto].
    + intros m x. destruct (decide (m = name)) as [->|]; [rewrite lookup_insert_eq; intros [= <-]; lia|rewrite lookup_insert_ne by done; intros H%Hfr; lia].
  - eapply untouched_trans; [exact Hu|]. unfold untouched, content, synced. cbn. by rewrite !lookup_insert_ne by lia.
  - intros x [= <-]. split_and!; [done|lia|cbn; by rewrite lookup_insert_eq|unfold content; cbn; by rewrite lookup_insert_eq|unfold synced; cbn; by rewrite lookup_insert_eq].
Qed.

Lemma sys_remove_beside P fd w name e w' :
  attached P fd w → name ≠ P → sys_remove name w = (e, w') → beside P fd w w'.
Proof.
  intros Ha Hne. unfold sys_remove. destruct (fault w) as [f w0] eqn:E. eapply fault_beside in E as [Ha0 Hu]; [|done].
  destruct f; intros [= <- <-]; [done|]. split; [|done]. apply set_dir_attached; [done| | |].
  - rewrite lookup_delete_ne by done. by apply attached_cur.
  - intros m. rewrite lookup_delete_Some. intros [_ H]. by eapply at_only.
  - intros m x. rewrite lookup_delete_Some. intros [_ H]. by eapply at_fresh.
Qed.

Lemma dropTemp_beside P fd w name : attached P fd w → name ≠ P → beside P fd w (dropTemp name w).
Proof.
  intros Ha Hne. unfold dropTemp. destruct (w_dir w !! name); [|by apply beside_refl].
  destruct (sys_remove name w) as [e w'] eqn:E. by eapply sys_remove_beside in E.
Qed.

Lemma sys_rename_beside P fd w a b x e w' :
  attached P fd w → a ≠ P → b ≠ P → w_dir w !! a = Some x → sys_rename a b w = (e, w') →
  beside P fd w w' ∧ (e = None → w_dir w' !! b = Some x ∧ w_data w' = w_data w ∧ w_sync w' = w_sync w
                       ∧ (a ≠ b → w_dir w' !! a = None)).
Proof.
  intros Ha Hna Hnb Hx. unfold sys_rename. destruct (fault w) as [f w0] eqn:E. pose proof (fault_same _ _ _ E) as (H1&H2&H3&_).
  eapply fault_beside in E as [Ha0 Hu]; [|done]. rewrite <- H3 in Hx. rewrite Hx. destruct f; intros [= <- <-]; [done|].
  assert (Hxf : x ≠ fd) by (intros ->; by eapply at_only in Hx). split; [split; [|done]|].
  - apply set_dir_attached; [done| | |].
    + rewrite lookup_insert_ne, lookup_delete_ne by done. by apply attached_cur.
    + intros m. destruct (decide (m = b)) as [->|]; [rewrite lookup_insert_eq; congruence|].
      rewrite lookup_insert_ne, lookup_delete_Some by done. intros [_ H]. by eapply at_only.
    + intros m y. destruct (decide (m = b)) as [->|]; [rewrite lookup_insert_eq; intros [= <-]; by eapply at_fresh|].
      rewrite lookup_insert_ne, lookup_delete_Some by done. intros [_ H]. by eapply at_fresh.
  - intros _. cbn. rewrite lookup_insert_eq. split_and!; try done. intros Hab. by rewrite lookup_insert_ne, lookup_delete_eq.
Qed.

Lemma sys_syncdir_beside P fd w e w' :
  attached P fd w → sys_syncdir w = (e, w') →
  beside P fd w w' ∧ w_dir w' = w_dir w ∧ w_data w' = w_data w ∧ w_sync w' = w_sync w ∧ w_next w' = w_next w
  ∧ (e = None → w_hist w' = [w_dir w']).
Proof.
  intros Ha. unfold sys_syncdir. destruct (fault w) as [f w0] eqn:E. pose proof (fault_same _ _ _ E) as (H1&H2&H3&_&H5).
  eapply fault_beside in E as [Ha0 Hu]; [|done]. destruct f; intros [= <- <-]; [by split_and!|]. split_and!; try done. split; [|done].
  destruct Ha0. split; cbn; try done; [|by left]. intros dir [->|H]%elem_of_cons; [auto|by apply elem_of_nil in H].
Qed.

(** ** Writing a whole file *)

Lemma write_file_spec x data w e w' :
  write_file x data w = (e, w') →
  match e with None => emits x data w w' | Some _ => ∃ out, emits x out w w' end.
Proof.
  unfold write_file. destruct data as [|b data].
  - cbn. intros [= <- <-]. apply emits_id.
  - set (d := b :: data). assert (Hd : 0 < zlen d) by (unfold d; rewrite zlen_cons; pose proof (zlen_nonneg data); lia).
    change (length d) with (S (length data)). cbn [writeAll]. destruct (Z.eqb_spec (zlen d) 0); [lia|].
    unfold file_writer at 1. destruct (sys_write x d w) as [[k err] w1] eqn:E. apply sys_write_spec in E. destruct err as [err|].
    + destruct E as (out&_&_&Hem). intros [= <- <-]. by exists out.
    + destruct E as [-> Hem]. destruct (Z.leb_spec (zlen d) 0); [lia|]. rewrite Z.ltb_irrefl. cbn [orb].
      rewrite drop_zlen. cbn [writeAll]. change (zlen [] =? 0) with true. cbn match. by intros [= <- <-].
Qed.

(** After the bytes [r] were written to [x], if they can be built at all. *)
Definition wrote (x : nat) (r : res (list byte)) (e : option string) (w w' : world) : Prop :=
  match e with None => ∃ out, r = Ret out ∧ emits x out w w' | Some _ => ∃ out, emits x out w w' end.

Lemma wrote_andThen x r1 e1 w w1 (k : world → option string * world) (r2 : list byte → res (list byte)) e2 w2 :
  wrote x r1 e1 w w1 → andThen (e1, w1) k = (e2, w2) →
  (∀ out, r1 = Ret out → ∀ e w2, k w1 = (e, w2) → wrote x (r2 out) e w1 w2) →
  wrote x (out ← r1; rest ← r2 out; Ret (out ++ rest)) e2 w w2.
Proof.
  destruct e1 as [e1|]; cbn [andThen]; intros H1.
  - intros [= <- <-] _. done.
  - destruct H1 as (out&->&Hem). intros Hk Hr. specialize (Hr out eq_refl _ _ Hk). destruct e2 as [e2|].
    + destruct Hr as (o2&Hem2). exists (out ++ o2). by eapply emits_trans.
    + destruct Hr as (o2&Hr2&Hem2). exists (out ++ o2). cbn [mbind res_bind]. rewrite Hr2. cbn [mbind res_bind].
      split; [done|by eapply emits_trans].
Qed.

Lemma write_file_wrote x data w e w' : write_file x data w = (e, w') → wrote x (Ret data) e w w'.
Proof. intros H%write_file_spec. destruct e; [done|]. by exists data. Qed.

Lemma WriteFrame_to_wrote x rs w e w' : WriteFrame_to x rs w = (e, w') → wrote x (WriteFrame rs) e w w'.
Proof.
  unfold WriteFrame_to, WriteFrame. destruct (_ <? _); [intros [= <- <-]; exists []; apply emits_id|].
  destruct (write_file x (header (Marshal rs)) w) as [e1 w1] eqn:E1. apply write_file_wrote in E1. intros H.
  apply (wrote_andThen x (Ret (header (Marshal rs))) e1 w w1 _ (fun _ => Ret (Marshal rs)) e w' E1 H).
  intros out _ e2 w2 H2. by apply write_file_wrote.
Qed.

Lemma write_records_wrote x rs w e w' : write_records x rs w = (e, w') → wrote x (write_frames ((fun r => [r]) <$> rs)) e w w'.
Proof.
  revert w e w'. induction rs as [|r rs IH]; intros w e w'; cbn [write_records fmap list_fmap write_frames].
  - intros [= <- <-]. exists []. split; [done|apply emits_id].
  - destruct (WriteFrame_to x [r] w) as [e1 w1] eqn:E1. apply WriteFrame_to_wrote in E1. intros H.
    apply (wrote_andThen x _ e1 w w1 _ (fun _ => write_frames ((fun r => [r]) <$> rs)) e w' E1 H).
    intros out _ e2 w2 H2. by apply IH.
Qed.

(** The body of a snapshot: its bytes, then an fsync. *)
Lemma snapshot_body x rs w e w' :
  andThen (write_file x magic w) (fun w => andThen (write_records x rs w) (fun w => andThen (WriteFrame_to x [] w) (sys_sync x))) = (e, w') →
  match e with
  | None => ∃ out w1, snapshot_bytes rs = Ret out ∧ emits x out w w1 ∧ syncs x w1 w'
  | Some _ => ∃ out, emits x out w w'
  end.
Proof.
  destruct (write_file x magic w) as [e1 w1] eqn:E1. apply write_file_wrote in E1. cbn [andThen].
  destruct e1 as [e1|]; [intros [= <- <-]; done|]. destruct E1 as (o1&[= <-]&M1).
  destruct (write_records x rs w1) as [e2 w2] eqn:E2. apply write_records_wrote in E2. cbn [andThen].
  destruct e2 as [e2|]; [intros [= <- <-]; destruct E2 as [o2 M2]; exists (magic ++ o2); by eapply emits_trans|]. destruct E2 as (o2&R2&M2).
  pose proof (emits_trans _ _ _ _ _ _ M1 M2) as M12.
  destruct (WriteFrame_to x [] w2) as [e3 w3] eqn:E3. apply WriteFrame_to_wrote in E3. cbn [andThen].
  destruct e3 as [e3|]; [intros [= <- <-]; destruct E3 as [o3 M3]; eexists; by eapply emits_trans|]. destruct E3 as (o3&R3&M3).
  pose proof (emits_trans _ _ _ _ _ _ M12 M3) as M. intros H%sys_sync_spec. destruct e as [e|].
  - eexists. eapply emits_trans; [exact M|exact H].
  - exists (magic ++ o2 ++ o3), w3. split_and!; [|by rewrite app_assoc|done].
    unfold snapshot_bytes. rewrite R2. cbn [mbind res_bind]. rewrite R3. done.
Qed.

(** [tmp] holds exactly the bytes [out], durably. *)
Definition image (tmp : string) (out : list byte) (fd : nat) (w : world) : Prop :=
  ∃ x, w_dir w !! tmp = Some x ∧ x ≠ fd ∧ content w x = out ∧ synced w x = out.

Lemma dropTemp_gone tmp w : w_dir w !! tmp = None → dropTemp tmp w = w.
Proof. unfold dropTemp. by intros ->. Qed.

Lemma sys_other_same w e w' : sys_other w = (e, w') →
  w_data w' = w_data w ∧ w_sync w' = w_sync w ∧ w_dir w' = w_dir w ∧ w_hist w' = w_hist w ∧ w_next w' = w_next w.
Proof. unfold sys_other. destruct (fault w) as [f w0] eqn:E. intros [= <- <-]. by eapply fault_same. Qed.

Lemma Snapshot_spec P fd path tmp rs w e w' :
  attached P fd w → path ≠ P → path ≠ tmp → Snapshot path tmp rs w = (e, w') →
  beside P fd w w' ∧ (e = None → ∃ out, snapshot_bytes rs = Ret out ∧ image path out fd w').
Proof.
  intros Ha Hp Hpt. unfold Snapshot. destruct (sys_create tmp w) as [o w1] eqn:E1.
  eapply sys_create_beside in E1 as [B1 C1]; [|done]. destruct o as [x|]; [|by intros [= <- <-]].
  destruct (C1 x eq_refl) as (Htmp&Hx&Hd1&Hc1&Hs1). pose proof B1 as [A1 _].
  destruct (andThen _ _) as [e2 w2] eqn:E2. apply snapshot_body in E2.
  assert (S2 : beside P fd w1 w2 ∧ w_dir w2 = w_dir w1 ∧
            (e2 = None → ∃ out, snapshot_bytes rs = Ret out ∧ content w2 x = out ∧ synced w2 x = out)).
  { destruct e2 as [e2|].
    - destruct E2 as [out M]. split_and!; [by eapply emits_beside|apply M|done].
    - destruct E2 as (out&w1'&R&M&Sy). split_and!.
      + eapply beside_trans; [by eapply emits_beside|]. eapply syncs_beside; [by eapply emits_attached|done|done].
      + rewrite (sy_dir _ _ _ Sy). apply M.
      + intros _. exists out. rewrite (syncs_content _ _ _ Sy), (syncs_synced _ _ _ Sy), (em_fd _ _ _ _ M), Hc1. done. }
  clear E2. destruct S2 as (B2&D2&R2). pose proof B2 as [A2 _].
  destruct (sys_other w2) as [e3 w3] eqn:E3. pose proof (sys_other_same _ _ _ E3) as (F1&F2&F3&_).
  eapply sys_other_beside in E3 as B3; [|done]. pose proof B3 as [A3 _].
  pose proof (beside_trans _ _ _ _ _ (beside_trans _ _ _ _ _ B1 B2) B3) as B123.
  assert (Hdrop : ∀ w4, beside P fd w w4 → beside P fd w (dropTemp tmp w4)).
  { intros w4 B4. eapply beside_trans; [exact B4|]. apply dropTemp_beside; [apply B4|done]. }
  destruct e2 as [e2|]; [intros [= <- <-]; split; [by apply Hdrop|done]|].
  destruct e3 as [e3|]; [intros [= <- <-]; split; [by apply Hdrop|done]|].
  destruct (sys_rename tmp path w3) as [e4 w4] eqn:E4.
  eapply (sys_rename_beside P fd w3 tmp path x) in E4 as [B4 C4]; [|done|done|done|congruence]. pose proof B4 as [A4 _].
  pose proof (beside_trans _ _ _ _ _ B123 B4) as B4'. cbn [andThen].
  destruct e4 as [e4|]; [intros [= <- <-]; split; [by apply Hdrop|done]|]. destruct (C4 eq_refl) as (D4&G1&G2&G3).
  destruct (sys_other w4) as [e5 w5] eqn:E5. pose proof (sys_other_same _ _ _ E5) as (H1&H2&H3&_).
  eapply sys_other_beside in E5 as B5; [|done]. pose proof B5 as [A5 _]. pose proof (beside_trans _ _ _ _ _ B4' B5) as B5'. cbn [andThen].
  destruct e5 as [e5|]; [intros [= <- <-]; split; [by apply Hdrop|done]|].
  destruct (sys_syncdir w5) as [e6 w6] eqn:E6. eapply sys_syncdir_beside in E6 as (B6&I1&I2&I3&_&_); [|done].
  pose proof (beside_trans _ _ _ _ _ B5' B6) as B6'. intros [= <- <-]. split; [by apply Hdrop|]. intros ->.
  rewrite dropTemp_gone by (rewrite I1, H3; apply G3; done).
  destruct (R2 eq_refl) as (out&R&Hcx&Hsx). exists out. split; [done|]. exists x.
  unfold content, synced in *. rewrite I1, I2, I3, H1, H2, H3, G1, G2, F1, F2. done.
Qed.

(** ** The parts of a rewrite *)

Definition same_or_aborted (l l' : Log) : Prop := l' = l ∨ l' = abortRewrite l.

Lemma prepareRewrite_spec P rs tmp snap w l e w' l' :
  attached P (file l) w → tmp ≠ snap → prepareRewrite rs tmp snap w l = (e, (w', l')) →
  beside P (file l) w w' ∧ same_or_aborted l l' ∧
  (e = None → l' = l ∧ tmp ≠ P ∧ rewriteActive l = true ∧ failed l = None ∧
     ∃ out, snapshot_bytes (resetRecord :: rs) = Ret out ∧ image tmp out (file l) w').
Proof.
  intros Ha Hts. unfold prepareRewrite, same_or_aborted.
  destruct (rewriteActive l) eqn:Hact; cbn [negb]; [|intros [= <- <- <-]; split_and!; [by apply beside_refl|by left|done]].
  destruct (failed l); [intros [= <- <- <-]; split_and!; [by apply beside_refl|by right|done]|].
  destruct (sys_create tmp w) as [o w1] eqn:E1. eapply sys_create_beside in E1 as [B1 C1]; [|done].
  destruct o as [x|]; [|intros [= <- <- <-]; split_and!; [done|by right|done]].
  destruct (C1 x eq_refl) as (Htmp&_). destruct (sys_other w1) as [e2 w2] eqn:E2. eapply sys_other_beside in E2 as B2; [|apply B1].
  pose proof (beside_trans _ _ _ _ _ B1 B2) as B12.
  destruct (sys_remove tmp w2) as [e3 w3] eqn:E3. eapply sys_remove_beside in E3 as B3; [|apply B2|done].
  pose proof (beside_trans _ _ _ _ _ B12 B3) as B123.
  destruct e2 as [e2|]; [intros [= <- <- <-]; split_and!; [done|by right|done]|].
  destruct e3 as [e3|]; [intros [= <- <- <-]; split_and!; [done|by right|done]|].
  destruct (Snapshot tmp snap _ w3) as [e4 w4] eqn:E4. eapply Snapshot_spec in E4 as [B4 I4]; [|apply B3|done|done].
  pose proof (beside_trans _ _ _ _ _ B123 B4) as B1234.
  destruct e4 as [e4|]; intros [= <- <- <-]; (split_and!; [|by eauto|]); try done.
  - eapply beside_trans; [exact B1234|]. apply dropTemp_beside; [apply B4|done].
  - intros _. split_and!; try done. by apply I4.
Qed.

Lemma write_all_frames_spec fs w l e w' l' :
  werr l = None → zlen (buffered l) ≤ bufferSize → write_all_frames w l fs = (e, (w', l')) → written (concat fs) e w l w' l'.
Proof.
  revert w l e w' l'. induction fs as [|f fs IH]; intros w l e w' l' Hw Hb; cbn [write_all_frames concat].
  - intros [= <- <- <-]. by apply written_nil.
  - destruct (write_log w l f) as [e1 [w1 l1]] eqn:E1. apply write_log_spec in E1; [|done|done]. destruct e1 as [e1|].
    + intros [= <- <- <-]. destruct E1 as (Hs&Hz&He&out&Hem&Ho). split_and!; [done|done|done|]. exists out. split; [done|].
      etransitivity; [exact Ho|]. rewrite app_assoc. by apply prefix_app_r.
    + intros H. eapply written_trans; [exact E1|]. destruct E1 as (_&Hz&He&_). by apply IH in H; auto.
Qed.

Lemma writeDelta_spec P tmp w l r w' l' :
  attached P (file l) w → tmp ≠ P → writeDelta tmp w l = (r, (w', l')) →
  beside P (file l) w w' ∧ same_or_aborted l l' ∧ no_panic r ∧
  (∀ x, r = Ret x → l' = l ∧ rewriteActive l = true ∧ failed l = None ∧ w_dir w' !! tmp = Some x ∧ x ≠ file l ∧
     ∀ out, image tmp out (file l) w → content w' x = out ++ concat (rewriteBuffer l) ∧ synced w' x = out ++ concat (rewriteBuffer l)).
Proof.
  intros Ha Htmp. unfold writeDelta, same_or_aborted.
  destruct (rewriteActive l) eqn:Hact; cbn [negb]; [|intros [= <- <- <-]; split_and!; [by apply beside_refl|by left|done|done]].
  destruct (failed l); [intros [= <- <- <-]; split_and!; [by apply beside_refl|by right|done|done]|].
  destruct (sys_open tmp w) as [o w1] eqn:E1. pose proof E1 as E1'. unfold sys_open in E1'.
  eapply sys_open_beside in E1 as [B1 C1]; [|done]. pose proof B1 as [A1 _].
  assert (Hsame1 : w_data w1 = w_data w ∧ w_sync w1 = w_sync w).
  { destruct (fault w) as [f w0] eqn:Ef. apply fault_same in Ef as (?&?&_). destruct f; injection E1' as <- <-; done. }
  clear E1'. destruct o as [x|]; [|intros [= <- <- <-]; split_and!; [done|by right|done|done]].
  destruct (C1 x eq_refl) as [Hx1 Hd1]. assert (Hx : x ≠ file l) by (intros ->; by eapply at_only in Hx1).
  destruct (write_all_frames w1 (newLog x tmp "") (rewriteBuffer l)) as [e2 [w2 l2]] eqn:E2.
  apply write_all_frames_spec in E2; [|done|by vm_compute]. pose proof (written_emits _ _ _ _ _ _ E2) as (o2&M2).
  change (file (newLog x tmp "")) with x in M2. pose proof (emits_beside _ _ _ _ _ _ A1 M2 Hx) as B2.
  pose proof (beside_trans _ _ _ _ _ B1 B2) as B12.
  destruct e2 as [e2|]; [intros [= <- <- <-]; split_and!; [done|by right|done|done]|].
  destruct (Flush w2 l2) as [e3 [w3 l3]] eqn:E3. destruct E2 as (Hs2&_&He2&o2'&M2'&Ho2).
  apply Flush_spec in E3 as [E3 Hb3]; [|done]. pose proof (written_emits _ _ _ _ _ _ E3) as (o3&M3).
  assert (Hf2 : file l2 = x) by (rewrite Hs2; done). rewrite Hf2 in M3. pose proof (emits_beside _ _ _ _ _ _ (proj1 B2) M3 Hx) as B3.
  pose proof (beside_trans _ _ _ _ _ B12 B3) as B123.
  destruct e3 as [e3|]; [intros [= <- <- <-]; split_and!; [done|by right|done|done]|].
  destruct (sys_sync x w3) as [e4 w4] eqn:E4. apply sys_sync_spec in E4. destruct e4 as [e4|].
  { intros [= <- <- <-]. split_and!; [|by right|done|done]. eapply beside_trans; [exact B123|]. eapply emits_beside; [apply B3|done|done]. }
  intros [= <- <- <-]. split_and!; [|by left|done|].
  { eapply beside_trans; [exact B123|]. eapply syncs_beside; [apply B3|done|done]. }
  intros y [= <-]. destruct E3 as (_&_&He3&o3'&M3'&Ho3). rewrite Hf2 in M3'.
  change (file (newLog x tmp "")) with x in M2'. change (buffered (newLog x tmp "")) with (@nil byte) in Ho2.
  split_and!; try done; [rewrite (sy_dir _ _ _ E4), (em_dir _ _ _ _ M3'), (em_dir _ _ _ _ M2'); done|].
  intros out (x'&Hdx&_&Hcx&Hsx). assert (x' = x) by (rewrite <- Hd1, Hx1 in Hdx; congruence). subst x'.
  rewrite (syncs_content _ _ _ E4), (syncs_synced _ _ _ E4), (em_fd _ _ _ _ M3'), (em_fd _ _ _ _ M2').
  rewrite (Hb3 eq_refl), !app_nil_r in Ho3. subst o3'. rewrite <- app_assoc, Ho2. cbn [app].
  assert (Hc1 : content w1 x = out) by (unfold content in *; by rewrite (proj1 Hsame1)). by rewrite Hc1.
Qed.
