(* ===== verification/AofSpec.v ===== *)
(** * Durability of the append-only file

    What survives a crash of a running log: a prefix of the appended frames with
    every acknowledged one; the old file or the whole new one while a rewrite
    replaces it; and what a second rewrite does to the name of the file. *)
From S2P Require Import Prelude Utf8 Json Records RecordsFacts Persist PersistFacts PersistSpec AofLog AofFacts AofInv AofWorld.
Set Default Proof Using "Type".

(** ** Histories *)








(** ** One event *)
















(** ** Runs *)










Definition start (w : world) (fd : nat) (P p : string) : sys := mkSys w (newLog fd P p) None Idle.



(** ** Recovery *)







(** ** Rewrites *)











(** ** Flush points *)





(** ** A log on disk *)

Definition demo_world : world :=
  mkWorld {[0%nat := magic]} {[0%nat := magic]} {["aof" := 0%nat]} [{["aof" := 0%nat]}] 1 [].
Definition demo_log : sys := start demo_world 0 "aof" "always".

Definition demo_set : list byte := default [] (demo_frames !! 0%nat).

















(** ** The second rewrite *)

(** Two complete rewrites without any fault, then an append under "always". *)
Definition two_rewrites : list event :=
  [EBegin; EPrepare [] "t1" "s1"; EDelta; ERename; EInstall;
   EBegin; EPrepare [] "t2" "s2"; EDelta; ERename; EInstall; EAppend demo_set 1; EDrain].
Definition twice : sys * list output := default (demo_log, []) (run demo_log two_rewrites).

(** C35: the second rewrite loses the log. The new file keeps the temporary name
    it was opened with, so the next rewrite is renamed over that name and not
    over the log: after two rewrites in which no call failed, an append under
    "always" is answered without an error, and yet whatever a crash leaves
    under the log's name does not contain it. *)
Theorem second_rewrite_loses :
  run demo_log two_rewrites = Some twice ∧ o_result <$> twice.2 = replicate 12 None ∧
  last twice.2 = Some (mkOut [(demo_set, None)] None) ∧
  ∀ c, survives (s_w twice.1) "aof" c → e_error (Read collect [] c) = None ∧ e_state (Read collect [] c) = [[resetRecord]; []].
Proof.
  split; [vm_compute; reflexivity|]. split; [vm_compute; reflexivity|]. split; [vm_compute; reflexivity|].
  intros c (dir&x&Hdir&Hx&H1&H2). assert (Hx' : x = 2%nat).
  { assert (Hh : w_hist (s_w twice.1) = [w_dir (s_w twice.1)]) by (vm_compute; reflexivity).
    assert (Hl : w_dir (s_w twice.1) !! "aof" = Some 2%nat) by (vm_compute; reflexivity).
    rewrite Hh in Hdir. apply list_elem_of_singleton in Hdir as ->. congruence. }
  subst x. set (img := match snapshot_bytes [resetRecord] with Ret b => b | _ => [] end).
  assert (Hc : content (s_w twice.1) 2 = img) by (vm_compute; reflexivity).
  assert (Hs : synced (s_w twice.1) 2 = img) by (vm_compute; reflexivity). rewrite Hc in H2. rewrite Hs in H1.
  assert (c = img) as -> by (by apply (anti_symm prefix)). split; vm_compute; reflexivity.
Qed.
