(* ===== verification/ShapeFacts.v ===== *)
(** * Splitting JSON

    Cutting a JSON text into its template and its values never indexes out of
    range when the text is a sequence of tokens, as a valid one is: a string
    literal is closed, and a number or name ends where a delimiter starts. *)
From S2P Require Import Prelude Numerals Codec Dictionary Shape.
Set Default Proof Using "Type".
Import Shape.

(** The inside of a string literal. *)
Inductive string_body : list byte → Prop :=
| body_end : string_body []
| body_char c l : c ≠ quote → c ≠ backslash → string_body l → string_body (c :: l)
| body_escape c l : string_body l → string_body (backslash :: c :: l).

(** A sequence of tokens. *)
Inductive lexed : list byte → Prop :=
| lexed_end : lexed []
| lexed_mark b r : b ≠ quote → starts_scalar b = false → lexed r → lexed (b :: r)
| lexed_string l r : string_body l → lexed r → lexed (quote :: l ++ quote :: r)
| lexed_scalar b l r : b ≠ quote → starts_scalar b = true → Forall (fun c => ends_scalar c = false) (b :: l) →
    match r with [] => True | c :: _ => ends_scalar c = true end → lexed r → lexed (b :: l ++ r).

Lemma znth_mid {A} (pre : list A) x r : znth (pre ++ x :: r) (zlen pre) = Some x.
Proof. rewrite znth_app_r, Z.sub_diag by lia. done. Qed.

Lemma zlen_mid {A} (pre : list A) x r : zlen pre < zlen (pre ++ x :: r).
Proof. rewrite zlen_app, zlen_cons. pose proof (zlen_nonneg r). lia. Qed.

Lemma string_end_ok l : string_body l → ∀ pre r fuel, (length l < fuel)%nat →
  string_end fuel (pre ++ l ++ quote :: r) (zlen pre) = Ret (zlen pre + zlen l + 1).
Proof.
  induction 1 as [|c l H1 H2 _ IH|c l _ IH]; intros pre r fuel Hf; (destruct fuel as [|f]; [cbn in Hf; lia|]); cbn [string_end];
    cbn [app]; rewrite (proj2 (Z.ltb_lt _ _)) by apply zlen_mid;
    rewrite znth_mid; cbn [or_panic]; rewrite res_bind_ret.
  - rewrite bool_decide_false, bool_decide_true by done. do 2 f_equal. rewrite zlen_nil. lia.
  - rewrite !bool_decide_false by done. cbn [length] in Hf. pose proof (IH (pre ++ [c]) r f ltac:(lia)) as E. rewrite <- app_assoc, zlen_app in E. cbn in E.
    change (zlen [c]) with 1 in E. rewrite E, zlen_cons. f_equal. lia.
  - rewrite bool_decide_true by done. cbn [length] in Hf. pose proof (IH (pre ++ [backslash; c]) r f ltac:(lia)) as E. rewrite <- app_assoc, zlen_app in E. cbn in E.
    change (zlen [backslash; c]) with 2 in E. rewrite E, !zlen_cons. f_equal. lia.
Qed.

Lemma scalar_end_ok l : Forall (fun c => ends_scalar c = false) l → ∀ pre r fuel, (length l ≤ fuel)%nat → match r with [] => True | c :: _ => ends_scalar c = true end →
  scalar_end fuel (pre ++ l ++ r) (zlen pre) = zlen pre + zlen l.
Proof.
  induction 1 as [|c l H _ IH]; intros pre r fuel Hf Hr; (destruct fuel as [|f]; [try (cbn in Hf; lia)|]); cbn [scalar_end].
  - rewrite zlen_nil. lia.
  - cbn [app]. destruct r as [|c r]; [|by rewrite znth_mid, Hr; rewrite zlen_nil; lia].
    rewrite app_nil_r. destruct (znth pre (zlen pre)) eqn:E; [apply znth_Some in E; lia|]. rewrite zlen_nil. lia.
  - cbn [app]. rewrite znth_mid, H. cbn [length] in Hf. pose proof (IH (pre ++ [c]) r f ltac:(lia) Hr) as E. rewrite <- app_assoc, zlen_app in E. cbn in E.
    change (zlen [c]) with 1 in E. rewrite E, zlen_cons. lia.
Qed.

Lemma scalar_plain b : starts_scalar b = true → opens b = false ∧ closes b = false.
Proof. by destruct b. Qed.

Lemma split_total rest : lexed rest → ∀ pre last depth lits slots fuel, (length rest < fuel)%nat → 0 ≤ last ≤ zlen pre →
  ∃ r, split_loop fuel (pre ++ rest) last depth (zlen pre) lits slots = Ret r.
Proof.
  induction 1 as [|b r Hq Hs _ IH|l r Hl _ IH|b l r Hq Hs Hl Hr _ IH]; intros pre last depth lits slots fuel Hf Hlast; (destruct fuel as [|f]; [cbn in Hf; lia|]); cbn [split_loop].
  - rewrite app_nil_r, (proj2 (Z.ltb_ge _ _)), zslice_Some by lia. cbn. eauto.
  - cbn [length] in Hf. rewrite (proj2 (Z.ltb_lt _ _)) by (rewrite zlen_app, zlen_cons; pose proof (zlen_nonneg r); lia). rewrite znth_mid. cbn [or_panic]. rewrite res_bind_ret.
    assert (Hnext : ∀ d, ∃ x, split_loop f (pre ++ b :: r) last d (zlen pre + 1) lits slots = Ret x).
    { intros d. destruct (IH (pre ++ [b]) last d lits slots f ltac:(lia)) as [x E]; [rewrite zlen_app; change (zlen [b]) with 1; lia|].
      rewrite <- app_assoc, zlen_app in E. exists x. exact E. }
    destruct (opens b); [destruct (64 <? depth + 1); [eauto|apply Hnext]|]. destruct (closes b); [apply Hnext|].
    rewrite bool_decide_false, Hs by done. rewrite res_bind_ret. apply Hnext.
  - set (src := pre ++ quote :: l ++ quote :: r). assert (Hlen : zlen src = zlen pre + zlen l + 2 + zlen r) by (unfold src; rewrite zlen_app, zlen_cons, zlen_app, zlen_cons; lia).
    pose proof (zlen_nonneg l). pose proof (zlen_nonneg r). rewrite (proj2 (Z.ltb_lt _ _)) by lia. replace (znth src (zlen pre)) with (Some quote) by (symmetry; apply znth_mid). cbn [or_panic]. rewrite res_bind_ret.
    change (opens quote) with false. change (closes quote) with false. rewrite bool_decide_true by done.
    assert (E : string_end (length src) src (zlen pre + 1) = Ret (zlen pre + zlen l + 2)).
    { pose proof (string_end_ok l Hl (pre ++ [quote]) r (length src)) as E. rewrite <- app_assoc, zlen_app in E. change (zlen [quote]) with 1 in E.
      cbn [app] in E. fold src in E. rewrite E; [f_equal; lia|]. unfold zlen in Hlen. lia. }
    rewrite E, !res_bind_ret. cbn [length] in Hf. rewrite length_app in Hf. cbn [length] in Hf.
    assert (Hnext : ∀ la lits slots, 0 ≤ la ≤ zlen pre + zlen l + 2 → ∃ x, split_loop f src la depth (zlen pre + zlen l + 2) lits slots = Ret x).
    { intros la li sl Hla. destruct (IH (pre ++ quote :: l ++ [quote]) la depth li sl f ltac:(lia)) as [x Ex];
        [rewrite zlen_app, zlen_cons, zlen_app; change (zlen [quote]) with 1; lia|].
      exists x. rewrite <- Ex. unfold src. f_equal; [rewrite <- !app_assoc; cbn; by rewrite <- app_assoc|rewrite zlen_app, zlen_cons, zlen_app; change (zlen [quote]) with 1; lia]. }
    destruct (bool_decide _); [apply Hnext; lia|]. destruct (MaxSlots <=? zlen slots); [eauto|].
    unfold cut. rewrite !zslice_Some by lia. cbn [or_panic]. rewrite !res_bind_ret. apply Hnext. lia.
  - set (src := pre ++ b :: l ++ r). assert (Hlen : zlen src = zlen pre + 1 + zlen l + zlen r) by (unfold src; rewrite zlen_app, zlen_cons, zlen_app; lia).
    pose proof (zlen_nonneg l). pose proof (zlen_nonneg r). rewrite (proj2 (Z.ltb_lt _ _)) by lia. replace (znth src (zlen pre)) with (Some b) by (symmetry; apply znth_mid). cbn [or_panic]. rewrite res_bind_ret.
    destruct (scalar_plain b Hs) as [-> ->]. rewrite bool_decide_false, Hs by done. rewrite res_bind_ret.
    assert (E : scalar_end (length src) src (zlen pre) = zlen pre + (1 + zlen l)).
    { pose proof (scalar_end_ok (b :: l) Hl pre r (length src)) as E. cbn [app] in E. fold src in E. rewrite E; [by rewrite zlen_cons|change (length (b :: l)) with (S (length l)); unfold zlen in Hlen; lia|done]. }
    rewrite E. destruct (MaxSlots <=? zlen slots); [eauto|]. unfold cut. rewrite !zslice_Some by lia. cbn [or_panic]. rewrite !res_bind_ret.
    cbn [length] in Hf. rewrite length_app in Hf. match goal with |- ∃ r0, split_loop f src ?la depth ?p ?li ?sl = _ => destruct (IH (pre ++ b :: l) la depth li sl f ltac:(lia)) as [x Ex] end;
      [rewrite zlen_app, zlen_cons; lia|].
    exists x. rewrite <- Ex. unfold src. f_equal; [by rewrite <- app_assoc|rewrite zlen_app, zlen_cons; lia].
Qed.

(** A text made of tokens is split. *)
Lemma Split_total Valid src : (Valid src = true → lexed src) → ∃ r, Split Valid src = Ret r.
Proof.
  intros Hv. unfold Split. destruct (MaxInput <? zlen src); [eauto|]. destruct (Valid src); [|eauto]. cbn [orb negb].
  apply (split_total src (Hv eq_refl) [] 0 0 [] []); [lia|done].
Qed.

Lemma Candidate_total Valid o1 o2 s src : (Valid src = true → lexed src) → ∃ r, Candidate Valid o1 o2 s src = Ret r.
Proof.
  intros Hv. unfold Candidate. destruct (Split_total Valid src Hv) as [p ->]. rewrite res_bind_ret. destruct p as [[lits [|x sl]]|]; [eauto| |eauto]. cbv zeta.
  repeat case_match; eauto.
Qed.
