(* ===== verification/Recovery.v ===== *)
(** * Export and recovery

    Model of internal/engine/persistence.go: the records of the live items, and
    applying records to a store one by one or in a batch, which is checked
    against the memory limit first; with the learning of JSON shapes that
    recovery triggers (rewrite.go, global_shapes.go). Strings and lists are
    handled here; what the other types do is the class [OtherValues]. Where the
    code ranges over a map, the order is a parameter ([Orders]). *)
From stdpp Require Import sorting.
From S2P Require Import Prelude Numerals Arena KeyPack Table Codec Shape Registry Entry Expiry Shard ListPack Engine Commands ListCommands Records.
Set Default Proof Using "Type".

(** What the recovery of a value that is neither a string nor a list does. *)
Class OtherValues `{P : Peers} := {
  logicalValue : Store → list byte → entry → res (list byte);            (* hash, set, sorted set *)
  streamPieces : Store → list byte → entry → Z → res (list Record_ + list byte);  (* [streamExportRecords] or one value *)
  restoreWithStreamDeltas : Store → list Record_ → bool → Z → res (reply unit * Store);
  recoveredEntry : Z → list byte → Store → res (reply preparedEntry);    (* hash to time series *)
  installStream : Store → list byte → list byte → Z → memoryAdmission → Z → res (reply unit * Store);
  streamBody : Type;
  recoveredStream : list byte → option (preparedEntry * streamBody);
  stream_memory : streamBody → Z;
  attachStreamBody : Store → list byte → streamBody → res Store;
  resetDocuments : SearchManager → SearchManager;
  clear_streams : StreamLogs → StreamLogs;
  drop_hash_shapes : HashShapes → HashShapes;
}.

(** What the runtime and encoding/json decide: the validity of a JSON text, and
    the orders in which maps are ranged over. *)
Record Orders := mkOrders {
  json_Valid : list byte → bool;
  order_observed : Shape.Store → list byte → list (list byte);
  order_schemas : Shape.Store → list byte → list (list byte);
  order_keys : gset (list byte) → list (list byte);
}.

(** ** Sorting keys *)

(** [a <= b] as strings compare. *)
Fixpoint string_le (a b : list byte) : bool :=
  match a, b with
  | [], _ => true
  | _, [] => false
  | x :: a, y :: b => if bz x =? bz y then string_le a b else bz x <? bz y
  end.

Definition strings_le (a b : list byte) : Prop := string_le a b = true.
#[export] Instance strings_le_dec : RelDecision strings_le.
Proof. intros a b. unfold strings_le. apply _. Defined.

Definition sort_Strings (l : list (list byte)) : list (list byte) := merge_sort strings_le l.

(** ** JSON shapes *)

Fixpoint structuredJSONCandidate (src : list byte) : bool :=
  match src with
  | [] => false
  | b :: src => if Shape.is_ws b then structuredJSONCandidate src else Shape.opens b
  end.

Definition globalShapeBudget : Z := Z.shiftl 32 20.

Definition with_shapes (sh : shard) (b : bool) : shard :=
  mkShard (arena sh) (data sh) (entries sh) (entries_cap sh) (metas sh) (freeIDs sh) (expiration_ sh) b.

Section Recovery.
Context (maphash : list byte → Z) (growslice : Z → Z → Z) (lib : Library) `{OV : OtherValues} (o : Orders).
Implicit Types (s : Store) (key : list byte) (now : Z) (force : bool).

Local Abbreviation shardFor := (shardFor maphash).
Local Abbreviation remove := (remove maphash growslice).
Local Abbreviation lookup_key := (lookup_key maphash).

(** Whether there is a catalog, after creating it if the memory limit admits it. *)
Definition ensureGlobalShapeStore s : bool * Store :=
  if negb (shapeEncoding s) then (false, s) else
  match shapeCatalog s with
  | Some _ => (true, s)
  | None =>
      let m := memory s in
      let next := u64 (m_used m + shapeStoreBaseBytes) in
      if (0 <? m_max m) && (m_max m <? next) then (false, s) else
      (true, with_catalog (with_memory s
         (mkAccounting next (m_index m) (m_entries m) (m_arenas m) (m_arenaPayload m) (m_arenaLiveBlocks m)
            (u64 (m_schemas m + shapeStoreBaseBytes)) (m_metas m) (m_hotHashes m) (m_streams m) (m_max m)))
         (Some (Shape.New globalShapeBudget 4)))
  end.

Definition ensureShapeStoreLocked s (i : Z) : res (bool * Store) :=
  if negb (shapeEncoding s) then Ret (false, s) else
  sh ← shard_at s i;
  if shapes sh then Ret (true, s) else
  let '(ok, s) := ensureGlobalShapeStore s in
  Ret (ok, if (ok : bool) then set_shard s i (with_shapes sh true) else s).

Definition observeJSONShapeLocked s (i : Z) (value : list byte) : res Store :=
  if negb (shapeEncoding s) || negb (structuredJSONCandidate value) then Ret s else
  '(ok, s) ← ensureShapeStoreLocked s i;
  match (if (ok : bool) then shapeCatalog s else None) with
  | None => Ret s
  | Some c =>
      '(c, _) ← Shape.Candidate (json_Valid o) (order_observed o c value) (order_schemas o c value) c value;
      Ret (with_catalog s (Some c))
  end.

(** ** Export *)

(** The value of a record; a failure to decode is a panic. *)
Definition export_value s key (e : entry) : res (list byte) :=
  let t := valueType (entryData e) in
  if (t =? TypeHash) || (t =? TypeSet) || (t =? TypeZSet) then must (logicalValue s key e)
  else if t =? TypeList then must (listLogicalValue maphash s key e)
  else decode_key maphash s key e.

Definition export_expiry s key (e : entry) : res Z := if hasExpiry (entryData e) then key_expiration maphash s key e else Ret 0.

Definition export_item s key (e : entry) : res (list Record_) :=
  let t := valueType (entryData e) in
  if t =? TypeStream then
    at' ← export_expiry s key e;
    pieces ← must (streamPieces s key e at');
    Ret (match pieces with inl records => records | inr value => [mkRecord false (Some key) value at' false t None None None] end)
  else
    value ← export_value s key e;
    at' ← export_expiry s key e;
    Ret [mkRecord false (Some key) value at' false t None None None].

Definition export_key s key (all : bool) now : res (list Record_) :=
  e ← lookup_key s key;
  gone ← found_expired maphash s key e now;
  match (if (gone : bool) then None else e) with
  | None => Ret (if all then [] else [mkRecord false (Some key) [] 0 true 0 None None None])
  | Some e => export_item s key e
  end.

Fixpoint export_loop s (seen : gset (list byte)) (keys : list (list byte)) (all : bool) now : res (list Record_) :=
  match keys with
  | [] => Ret []
  | key :: keys =>
      if bool_decide (key ∈ seen) then export_loop s seen keys all now else
      r ← export_key s key all now;
      rest ← export_loop s ({[key]} ∪ seen) keys all now;
      Ret (r ++ rest)
  end.

Fixpoint all_keys (l : list shard) : res (list (list byte)) :=
  match l with
  | [] => Ret []
  | sh :: l => pairs ← shard_all sh; rest ← all_keys l; Ret (pairs.*1 ++ rest)
  end.

(** [None] is the whole key space. *)
Definition Export s (keys : option (list (list byte))) now : res (list Record_) :=
  match keys with
  | Some keys => export_loop s ∅ keys false now
  | None => keys ← all_keys (shards s); export_loop s ∅ (sort_Strings keys) true now
  end.

(** ** Recovered entries *)

Definition record_key (r : Record_) : list byte := default [] (Key r).
Definition errRecoveredSize : string := "ERR recovered value exceeds 32 MiB limit".
Definition errRecoveredType : string := "ERR recovered value has unknown type".
Definition errRecoveredList : string := "ERR recovered LIST value is invalid".
Definition errRecoveredStream : string := "ERR recovered STREAM value is invalid".

(** The checks both forms of recovery make first. *)
Definition record_refused (r : Record_) : option string :=
  if 33554432 <? zlen (Value r) then Some errRecoveredSize
  else if TypeTimeSeries <? ValueType r then Some errRecoveredType
  else None.

(** Deleted, or past its deadline. *)
Definition record_gone (r : Record_) now : bool := Deleted r || (negb (ExpiresAtMS r =? 0) && (ExpiresAtMS r <=? now / Millisecond)).

Definition with_type (pe : preparedEntry) (t : Z) : preparedEntry :=
  let v := entryData (pe_entry pe) in
  mkPrepared (mkEntry (mkValue (ref v) (rawLength v) (codecID v) t (hasExpiry v) (rawStable v)) (entryMeta_ (pe_entry pe)))
             (expiresAt pe) (pe_data pe) (keepStream pe).

(** The entry of a record that is no stream, without its deadline. *)
Definition record_entry s (r : Record_) : res (reply preparedEntry) :=
  let t := ValueType r in
  if t =? TypeList then
    match decodePackedList (Value r) with
    | Ret _ => Ret (Ok (listPreparedEntry (Value r)))
    | Err _ => Ret (Fail errRecoveredList)
    | Panic p => Panic p
    end
  else if (t =? TypeHash) || (t =? TypeSet) || (t =? TypeZSet) || (t =? TypeBloom) || (t =? TypeCuckoo) || (t =? TypeCMS) ||
          (t =? TypeTopK) || (t =? TypeTDigest) || (t =? TypeTimeSeries) then recoveredEntry t (Value r) s
  else
    pe ← makeEntry lib s (Value r);
    Ret (Ok (if negb (t =? 0) then with_type pe t else pe)).

Definition deadline_entry (r : Record_) (pe : preparedEntry) : preparedEntry :=
  if negb (ExpiresAtMS r =? 0) then expiring pe (ExpiresAtMS r) else pe.

(** The shape of a value that was just written is observed. *)
Definition observe_written s key (pe : preparedEntry) : res Store :=
  if isNativeContainerType (valueType (entryData (pe_entry pe))) then Ret s else
  e ← lookup_key s key;
  match e with
  | None => Ret s
  | Some e => v ← decode_key maphash s key e; observeJSONShapeLocked s (shardFor s key) v
  end.

(** ** One record *)

Definition restoreSingleRecord s (r : Record_) force now : res (reply unit * Store) :=
  if bool_decide (Replication r ≠ None) then Ret (Ok tt, s) else
  match record_refused r with
  | Some e => Ret (Fail e, s)
  | None =>
      let key := record_key r in
      let admission := if force then allowOverMemoryLimit else enforceMemoryLimit in
      if record_gone r now then s ← remove s (shardFor s key) key now; Ret (Ok tt, s)
      else if ValueType r =? TypeStream then installStream s key (Value r) (ExpiresAtMS r) admission now
      else
        pe ← record_entry s r;
        match pe with
        | Fail e => Ret (Fail e, s)
        | Ok pe =>
            let pe := deadline_entry r pe in
            '(err, s) ← publishRecord maphash growslice s (shardFor s key) key pe admission now;
            match err with
            | Fail e => Ret (Fail e, s)
            | Ok _ => s ← observe_written s key pe; Ret (Ok tt, s)
            end
        end
  end.
(** ** Reset *)

(** The pointers of the shards are cleared, and the base charge is given back. *)
Definition dropGlobalShapeStoreLocked s : Store :=
  let bare := with_shards s ((fun sh => with_shapes sh false) <$> shards s) in
  match shapeCatalog s with
  | None => bare
  | Some _ =>
      let m := memory s in
      let back n := if shapeStoreBaseBytes <=? n then n - shapeStoreBaseBytes else 0 in
      with_catalog (with_memory bare
        (mkAccounting (back (m_used m)) (m_index m) (m_entries m) (m_arenas m) (m_arenaPayload m) (m_arenaLiveBlocks m)
           (back (m_schemas m)) (m_metas m) (m_hotHashes m) (m_streams m) (m_max m))) None
  end.

(** Dropping the hash shapes also changes counters, which are then set. *)
Definition resetForRecovery s : Store :=
  let s := with_shards s ((fun _ => emptyShard) <$> shards s) in
  let s := with_search s (resetDocuments <$> search s) in
  let s := dropGlobalShapeStoreLocked s in
  let base := structuralMemoryBytes (zlen (shards s)) in
  mkStore (expiredCount s) (evictedCount s) (shards s) (codecs_ s) (encoding s) (shapeEncoding s) (compression s)
    (mkAccounting base base 0 0 0 0 0 0 0 0 (m_max (memory s)))
    (clear_streams (streamLogs s)) (shapeCatalog s) (drop_hash_shapes (hashShapes s)) (search s).

Definition FlushDB s : Store := resetForRecovery s.

(** ** A batch *)

Record batch := mkBatch {
  updates : gmap (list byte) preparedEntry;
  deletions : gset (list byte);
  bodies : gmap (list byte) streamBody;
}.

Definition batch_step s (b : batch) (r : Record_) now : res (reply batch) :=
  let key := record_key r in
  if bool_decide (Replication r ≠ None) then Ret (Ok b)
  else if record_gone r now then Ret (Ok (mkBatch (delete key (updates b)) ({[key]} ∪ deletions b) (delete key (bodies b))))
  else if ValueType r =? TypeStream then
    Ret (match recoveredStream (Value r) with
         | None => Fail errRecoveredStream
         | Some (pe, body) =>
             Ok (mkBatch (<[key := deadline_entry r pe]> (updates b)) (deletions b ∖ {[key]}) (<[key := body]> (bodies b)))
         end)
  else
    pe ← record_entry s r;
    Ret (match pe with
         | Fail e => Fail e
         | Ok pe => Ok (mkBatch (<[key := deadline_entry r pe]> (updates b)) (deletions b ∖ {[key]}) (delete key (bodies b)))
         end).

Fixpoint batch_loop s (b : batch) (records : list Record_) now : res (reply batch) :=
  match records with
  | [] => Ret (Ok b)
  | r :: records =>
      next ← batch_step s b r now;
      match next with Fail e => Ret (Fail e) | Ok b => batch_loop s b records now end
  end.

(** What the batch frees and takes: bytes of entries and metadata, and per shard
    the keys it gains, whether it needs metadata and the values it allocates. *)
Record forecast := mkForecast {
  freed : Z; taken : Z;
  growth : gmap Z Z;
  metaNeeds : gset Z;
  allocations : gmap Z (list Z);
}.

Definition grow (f : forecast) (i n : Z) : forecast :=
  mkForecast (freed f) (taken f) (<[i := default 0 (growth f !! i) + n]> (growth f)) (metaNeeds f) (allocations f).
Definition free_entry (f : forecast) key (e : entry) : forecast :=
  mkForecast (u64 (freed f + entryCharge key + metadataCharge e)) (taken f) (growth f) (metaNeeds f) (allocations f).

Fixpoint forecast_deletions s (f : forecast) (keys : list (list byte)) : res forecast :=
  match keys with
  | [] => Ret f
  | key :: keys =>
      old ← lookup_key s key;
      forecast_deletions s (match old with Some e => grow (free_entry f key e) (shardFor s key) (-1) | None => f end) keys
  end.

Definition forecast_update s (f : forecast) key (pe : preparedEntry) : res forecast :=
  let i := shardFor s key in
  old ← lookup_key s key;
  let f := match old with Some e => free_entry f key e | None => grow f i 1 end in
  let tracked := shouldTrackActivity s (pe_entry pe) in
  let cost := entryCharge key + (if tracked then entryMetaBytes else metadataCharge (pe_entry pe)) in
  Ret (mkForecast (freed f) (u64 (taken f + cost)) (growth f)
         (if tracked || bool_decide (entryMeta_ (pe_entry pe) ≠ None) then {[i]} ∪ metaNeeds f else metaNeeds f)
         (<[i := default [] (allocations f !! i) ++ [zlen (pe_data pe)]]> (allocations f))).

Fixpoint forecast_updates s (f : forecast) (l : list (list byte * preparedEntry)) : res forecast :=
  match l with
  | [] => Ret f
  | (key, pe) :: l => f ← forecast_update s f key pe; forecast_updates s f l
  end.

(** A sum over the shards of a map, in any order. *)
Fixpoint sum_shards {A} s (g : shard → Z → A → res Z) (l : list (Z * A)) : res Z :=
  match l with
  | [] => Ret 0
  | (i, a) :: l => sh ← shard_at s i; n ← g sh i a; rest ← sum_shards s g l; Ret (u64 (n + rest))
  end.

Definition stream_growth s (b : batch) : Z :=
  lsum (fun p => stream_memory p.2 - default 0 (body_memory (streamLogs s) p.1)) (map_to_list (bodies b)).

Definition batch_next s (b : batch) (f : forecast) : res Z :=
  index ← sum_shards s (fun sh _ n => Ret (GrowthBytes (data sh) n)) (map_to_list (growth f));
  entries ← sum_shards s (fun sh _ n => Ret (entryGrowthBytes sh n)) (map_to_list (growth f));
  metas ← sum_shards s (fun sh i _ => Ret (metaSlotGrowthBytes sh (default 0 (growth f !! i)) (bool_decide (i ∈ metaNeeds f))))
            (map_to_list (allocations f));
  arenas ← sum_shards s (fun sh _ lengths => GrowthFor (arena sh) lengths) (map_to_list (allocations f));
  Ret (u64 (m_used (memory s) - freed f + taken f + index + entries + metas + arenas + stream_growth s b)).

Fixpoint remove_all s (keys : list (list byte)) now : res Store :=
  match keys with
  | [] => Ret s
  | key :: keys => s ← remove s (shardFor s key) key now; remove_all s keys now
  end.

Fixpoint publish_all s (b : batch) (l : list (list byte * preparedEntry)) now : res (reply unit * Store) :=
  match l with
  | [] => Ret (Ok tt, s)
  | (key, pe) :: l =>
      '(err, s) ← publishRecord maphash growslice s (shardFor s key) key pe allowOverMemoryLimit now;
      match err with
      | Fail e => Ret (Fail e, s)
      | Ok _ =>
          s ← (match bodies b !! key with Some body => attachStreamBody s key body | None => Ret s end);
          s ← observe_written s key pe;
          publish_all s b l now
      end
  end.

(** The entries of the batch in the order of their keys. *)
Definition ordered (b : batch) : list (list byte * preparedEntry) :=
  omap (fun key => pe ← updates b !! key; Some (key, pe)) (sort_Strings (elements (dom (updates b)))).

Definition apply_batch s (b : batch) force now : res (reply unit * Store) :=
  let gone := order_keys o (deletions b) in
  f ← forecast_deletions s (mkForecast 0 0 ∅ ∅ ∅) gone;
  f ← forecast_updates s f (ordered b);
  next ← batch_next s b f;
  if negb force && (0 <? m_max (memory s)) && (m_max (memory s) <? next) then Ret (Fail ErrOOM, s) else
  s ← remove_all s gone now;
  publish_all s b (ordered b) now.

(** The records after the last reset, if there is one. *)
Fixpoint after_reset (records : list Record_) : option (list Record_) :=
  match records with
  | [] => None
  | r :: records =>
      match after_reset records with
      | Some l => Some l
      | None => if Reset r then Some records else None
      end
  end.

Definition batch_refused (records : list Record_) : option string :=
  head (omap (fun r => if bool_decide (Replication r ≠ None) then None else record_refused r) records).

Definition Restore s (records : list Record_) force now : res (reply unit * Store) :=
  if existsb (fun r => bool_decide (Stream r ≠ None)) records then restoreWithStreamDeltas s records force now else
  match (match records with [r] => if Reset r then None else Some r | _ => None end) with
  | Some r => restoreSingleRecord s r force now
  | None =>
      let '(s, records) := match after_reset records with Some l => (resetForRecovery s, l) | None => (s, records) end in
      match batch_refused records with
      | Some e => Ret (Fail e, s)
      | None =>
          b ← batch_loop s (mkBatch ∅ ∅ ∅) records now;
          match b with
          | Fail e => Ret (Fail e, s)
          | Ok b => apply_batch s b force now
          end
      end
  end.
End Recovery.
