(* ===== verification/RecoveryFacts.v ===== *)
(** * Recovery of strings and lists

    What export and recovery do to the items of a store: the records of an
    export carry the live items, applying a record stores or removes its item,
    and a batch does so for all of its keys. *)
From stdpp Require Import sorting.
From S2P Require Import Prelude Numerals Arena ArenaFacts ArenaSpec ArenaHeap KeyPack KeyPackFacts Table TableSpec CodecFacts.
From S2P Require Import Codec Dictionary Shape ShapeFacts Registry RegistrySpec Entry HotHash Expiry Shard ShardFacts ListPack ListFacts Values Engine EngineFacts.
From S2P Require Import StoreFacts Commands ListCommands ListBytes CommandFacts ListStore Records Recovery.
Set Default Proof Using "Type".

(** ** Changes to the items *)

Abbreviation items := (gmap (list byte) item).

(** The keys of [M] take the items it gives, and the other keys keep theirs. *)
Definition patch (M : gmap (list byte) (option item)) (A : items) : items :=
  merge (fun m a => match m with Some x => x | None => a end) M A.

Lemma lookup_patch M A k : patch M A !! k = match M !! k with Some x => x | None => A !! k end.
Proof. unfold patch. rewrite lookup_merge. by destruct (M !! k), (A !! k). Qed.

Lemma patch_empty A : patch ∅ A = A.
Proof. apply map_eq. intros k. by rewrite lookup_patch, lookup_empty. Qed.

(** An item past its deadline is gone. *)
Definition alive (now : Z) (x : option item) : option item := y ← x; if dead now y.2 then None else Some y.

Lemma view_alive now A k : view now A !! k = alive now (A !! k).
Proof. apply view_lookup. Qed.

(** [r] carries the state [x] of the key [k]; a missing key is the empty one. *)
Definition carries (r : Record_) (k : list byte) (x : option item) : Prop := ∃ key, default [] key = k ∧
  match x with
  | None => r = mkRecord false key [] 0 true 0 None None None
  | Some (VStr v, d) => ∃ t, 0 ≤ t ≤ TypeBytes ∧ zlen v ≤ maxValueBytes ∧ r = mkRecord false key v d false t None None None
  | Some (VList L, d) => packs L = true ∧ L ≠ [] ∧ r = mkRecord false key (packed L) d false TypeList None None None
  end.

Section Facts.
Context (maphash : list byte → Z) (growslice : Z → Z → Z) (lib : Library) `{OV : OtherValues} (o : Orders).
Context (Hcap : cap_bounds (DecodeAll lib)).
Context (Hlex : ∀ src, json_Valid o src = true → lexed src).
Implicit Types (A : items) (s : Store).

Local Abbreviation shardFor := (shardFor maphash).
Local Abbreviation lookup_key := (lookup_key maphash).
Local Abbreviation good := (good maphash lib).
Local Abbreviation fine := (fine maphash lib).

(** ** Learning shapes *)

Lemma good_shapes s A n b i sh f : good s A n b → znth (shards s) i = Some sh →
  good (set_shard s i (with_shapes sh f)) A n b ∧ same_config s (set_shard s i (with_shapes sh f)).
Proof.
  intros [Hs Ha Hw] Hi. assert (Hc : same_config s (set_shard s i (with_shapes sh f))) by (split; try done; cbn; by rewrite zlen_insert).
  split; [|done]. destruct (so_shards _ _ _ _ Hs _ _ Hi) as (m & live & [H1 H2 H3 H4 H5]). destruct (Hw _ _ Hi) as (W1 & W2 & W3).
  assert (H1' : shard_ok maphash (with_shapes sh f) m) by (destruct H1 as (ids & [] & Hm); exists ids; by split; [split|]).
  pose proof (fun g => eq_trans (entry_sum_ok maphash g _ m H1') (eq_sym (entry_sum_ok maphash g sh m H1))) as Hsum.
  split.
  - eapply (store_update maphash lib s _ A A i sh (with_shapes sh f)); [done|done|done|done| |done].
    by split.
  - apply (accounted_same s i sh); try done; unfold use_entries, use_payload, use_blocks, use_metas; by rewrite Hsum.
  - by eapply (within_update s _ i sh (with_shapes sh f) n b).
Qed.

Lemma good_catalog s A n b c : good s A n b → shapeCatalog s ≠ None → good (with_catalog s (Some c)) A n b.
Proof.
  intros [[] Ha Hw] Hc. assert (E : catalog_bytes (with_catalog s (Some c)) = catalog_bytes s) by (unfold catalog_bytes; cbn; by destruct (shapeCatalog s)).
  split; [by split| |done]. destruct Ha as [A1 A2 A3 A4 A5 A6 (A7 & A8) A9]. split; try done; rewrite E; done.
Qed.

Lemma good_ensure s A n b : good s A n b → ∃ ok s', ensureGlobalShapeStore s = (ok, s') ∧ good s' A n b ∧ same_config s s' ∧ shards s' = shards s ∧
  (ok = true → shapeCatalog s' ≠ None).
Proof.
  intros Hg. unfold ensureGlobalShapeStore. destruct (shapeEncoding s); cbn [negb]; [|by exists false, s]. destruct (shapeCatalog s) as [c|] eqn:E.
  { exists true, s. split_and!; try done. by rewrite E. }
  destruct (_ && _); [by exists false, s|]. eexists true, _. split; [done|]. split_and!; try done.
  destruct Hg as [[] [A1 A2 A3 A4 A5 A6 (A7 & A8) A9] Hw]. unfold catalog_bytes in A7, A9. rewrite E in A7, A9. split; [by split| |done].
  split; try done; unfold catalog_bytes; cbn [memory shards shapeCatalog with_catalog with_memory m_used m_schemas m_hotHashes m_streams];
    [by rewrite A7|]. rewrite A9. match goal with |- u64 ?a = u64 ?b => change (a ≅ b) end. rewrite cong_u64. apply cong_eq. lia.
Qed.

Lemma observe_ok s A n b k v : fine s A n b →
  ∃ s', observeJSONShapeLocked o s (shardFor s k) v = Ret s' ∧ fine s' A n b ∧ same_config s s'.
Proof using Hlex.
  intros [Hg Hz]. unfold observeJSONShapeLocked. destruct (_ || _) eqn:E0; [by exists s|].
  assert (He : ∃ ok s1, ensureShapeStoreLocked s (shardFor s k) = Ret (ok, s1) ∧ good s1 A n b ∧ same_config s s1).
  { unfold ensureShapeStoreLocked. destruct (shapeEncoding s); cbn [negb]; [|by exists false, s].
    destruct (home_shard maphash lib s A k (go_store _ _ _ _ _ _ Hg)) as (sh & _ & _ & Hat & Hi & _). rewrite Hat, res_bind_ret.
    destruct (shapes sh); [by exists true, s|]. destruct (good_ensure s A n b Hg) as (ok & s1 & -> & Hg1 & Hc1 & Hs1 & _).
    destruct ok; [|by exists false, s1]. rewrite <- Hs1 in Hi. destruct (good_shapes s1 A n b _ sh true Hg1 Hi) as [Hg2 Hc2].
    eexists true, _. split; [done|]. split; [done|by eapply same_config_trans]. }
  destruct He as (ok & s1 & -> & Hg1 & Hc1). rewrite res_bind_ret. destruct ok; [|by exists s1]. destruct (shapeCatalog s1) as [c|] eqn:Ec; [|by exists s1].
  destruct (Candidate_total (json_Valid o) (order_observed o c v) (order_schemas o c v) c v (Hlex v)) as [[c' u] ->]. rewrite res_bind_ret.
  eexists. split; [done|]. split; [split; [apply good_catalog; [done|by rewrite Ec]|done]|]. by destruct Hc1.
Qed.

Lemma observe_written_ok s A n b k pe : fine s A n b →
  ∃ s', observe_written maphash o s k pe = Ret s' ∧ fine s' A n b ∧ same_config s s'.
Proof using Hcap Hlex.
  intros Hf. unfold observe_written. destruct (isNativeContainerType _); [by exists s|]. destruct (lookup_ok maphash lib Hcap s A n b k Hf) as (e & E & He).
  rewrite E, res_bind_ret. destruct e as [e|]; [|by exists s]. unfold finds in He. destruct (A !! k) as [[v d]|]; [|done]. destruct He as (e0 & [= <-] & Hr).
  destruct (ra_decode _ _ _ _ _ _ _ Hr) as (bytes & -> & _). rewrite res_bind_ret. by apply observe_ok.
Qed.
(** ** Export *)

(** A list has a packed form, which export needs. *)
Definition packable_list (x : option item) : Prop := match x with Some (VList L, _) => packs L = true | _ => True end.

Lemma plain_type v t : vtype v t → (t =? TypeStream) = false ∧ ((t =? TypeHash) || (t =? TypeSet) || (t =? TypeZSet)) = false ∧ (t =? TypeList) = container v.
Proof.
  destruct v as [v|L]; cbn [vtype container]; [|by intros ->]. unfold TypeBytes, TypeHash, TypeSet, TypeZSet, TypeList, TypeStream. intros H.
  rewrite !(proj2 (Z.eqb_neq t _)) by lia. done.
Qed.

Lemma export_item_ok s A n b k e v d now : fine s A n b → view now A !! k = Some (v, d) → reads_as maphash lib s k e v d → packable_list (view now A !! k) →
  ∃ r, export_item maphash s k e = Ret [r] ∧ carries r k (Some (v, d)).
Proof.
  intros Hf HV Hr Hp. rewrite HV in Hp. pose proof (ra_type _ _ _ _ _ _ _ Hr) as Ht. destruct (plain_type _ _ Ht) as (E1 & E2 & E3).
  assert (Hsm : small v) by (eapply (fi_sized _ _ _ _ _ _ Hf); by apply view_some in HV as [? _]).
  assert (Ex : export_expiry maphash s k e = Ret d).
  { unfold export_expiry. rewrite (ra_expiry _ _ _ _ _ _ _ Hr), (ra_at _ _ _ _ _ _ _ Hr). by destruct (Z.eqb_spec d 0) as [->|]. }
  unfold export_item, export_value. rewrite E1, E2, E3, Ex. destruct v as [v|L]; cbn [container].
  - destruct (ra_decode _ _ _ _ _ _ _ Hr) as (bytes & -> & ->). rewrite !res_bind_ret. eexists. split; [done|]. exists (Some k). split; [done|]. by exists (valueType (entryData e)).
  - unfold listLogicalValue, listElementsFromEntry. destruct (list_data_ok maphash lib _ _ _ _ _ Hr) as (data & -> & Hd).
    rewrite !res_bind_ret, (bytes_elements _ _ Hd), res_bind_ret, encodePackedList_eq, Hp. cbn [must]. rewrite !res_bind_ret.
    eexists. split; [done|]. cbn in Ht. rewrite Ht. by exists (Some k).
Qed.

Lemma export_key_ok s A n b k now all : fine s A n b → packable_list (view now A !! k) →
  ∃ rs, export_key maphash s k all now = Ret rs ∧
    match view now A !! k, all with None, true => rs = [] | x, _ => ∃ r, rs = [r] ∧ carries r k x end.
Proof using Hcap.
  intros Hf Hp. destruct (live_entry_ok maphash lib Hcap s A n b k now Hf) as (e & E & He). unfold live_entry in E. unfold export_key.
  apply res_bind_inv in E as (e0 & -> & E). rewrite res_bind_ret. apply res_bind_inv in E as (gone & -> & E). rewrite res_bind_ret.
  injection E as ->. unfold finds in He. destruct (view now A !! k) as [[v d]|] eqn:HV.
  - destruct He as (e1 & -> & Hr). destruct (export_item_ok s A n b k e1 v d now Hf HV Hr) as (r & Er & Hc); [by rewrite HV|]. exists [r]. split; [done|]. by destruct all; eauto.
  - subst e. destruct all; [by exists []|]. eexists. split; [done|]. eexists. split; [done|]. by exists (Some k).
Qed.

(** The records of an export: one for each key, once. *)
Definition records_of (V : items) (ks : list (list byte)) (rs : list Record_) : Prop := NoDup ks ∧ Forall2 (fun k r => carries r k (V !! k)) ks rs.

Lemma export_loop_ok s A n b now all keys : fine s A n b → (∀ k, k ∈ keys → packable_list (view now A !! k)) → ∀ seen,
  ∃ ks rs, export_loop maphash s seen keys all now = Ret rs ∧ records_of (view now A) ks rs ∧
    ∀ k, k ∈ ks ↔ k ∈ keys ∧ k ∉ seen ∧ (all = true → is_Some (view now A !! k)).
Proof using Hcap.
  clear Hlex o growslice. intros Hf. induction keys as [|k keys IH]; intros Hp seen; cbn [export_loop].
  { exists [], []. split_and!; [done|by split; [constructor|]|]. intros k. by rewrite !elem_of_nil; naive_solver. }
  assert (Hp' : ∀ k, k ∈ keys → packable_list (view now A !! k)) by (intros; apply Hp; by right).
  case_bool_decide as Hk.
  { destruct (IH Hp' seen) as (ks & rs & E & Hr & Hm). exists ks, rs. split_and!; [done|done|]. intros k'. rewrite Hm, elem_of_cons. naive_solver. }
  destruct (IH Hp' ({[k]} ∪ seen)) as (ks & rs & E & [Hnd Hr] & Hm). destruct (export_key_ok s A n b k now all Hf (Hp k ltac:(by left))) as (r & -> & Hc). rewrite res_bind_ret, E, res_bind_ret.
  assert (Hfresh : k ∉ ks) by (rewrite Hm; set_solver). destruct (view now A !! k) as [x|] eqn:HV; [|destruct all].
  3: destruct Hc as (r0 & -> & Hc); exists (k :: ks), (r0 :: rs).
  1: destruct Hc as (r0 & -> & Hc); exists (k :: ks), (r0 :: rs).
  2: subst r; exists ks, rs.
  all: split_and!; [done|split; try done; constructor; by rewrite ?HV|].
  all: intros k'; rewrite ?elem_of_cons, Hm, ?elem_of_cons, not_elem_of_union, not_elem_of_singleton; destruct (decide (k' = k)) as [->|]; rewrite ?HV; naive_solver.
Qed.

Lemma all_keys_ok s A n b : fine s A n b → ∃ ks, all_keys (shards s) = Ret ks ∧ ∀ k, k ∈ ks ↔ is_Some (A !! k).
Proof.
  intros [[[_ (c & Hc & Hn) Hs] _ _] _].
  assert (Hl : ∀ l, (∀ sh, sh ∈ l → ∃ m, shard_ok maphash sh m) →
    ∃ ks, all_keys l = Ret ks ∧ ∀ k, k ∈ ks ↔ ∃ sh m, sh ∈ l ∧ shard_ok maphash sh m ∧ is_Some (m !! k)).
  { induction l as [|sh l IH]; intros Hl; cbn [all_keys].
    { exists []. split; [done|]. intros k. rewrite elem_of_nil. split; [done|]. intros (sh & m & []%elem_of_nil & _). }
    destruct (Hl sh) as [m Hm]; [by left|]. destruct (all_ok maphash sh m Hm) as (ps & -> & Hps). rewrite res_bind_ret.
    destruct IH as (ks & -> & Hks); [intros sh' ?; apply Hl; by right|]. rewrite res_bind_ret. eexists. split; [done|]. intros k.
    rewrite elem_of_app, Hks, list_elem_of_fmap. setoid_rewrite elem_of_cons. setoid_rewrite Hps. split.
    - intros [([k' e] & -> & He%elem_of_map_to_list)|(sh' & m' & ? & ? & ?)]; [exists sh, m; split_and!; eauto|exists sh', m'; eauto].
    - intros (sh' & m' & [->|?] & Hm' & [e He]); [left|right; exists sh', m'; split_and!; eauto]. exists (k, e). split; [done|]. apply elem_of_map_to_list.
      pose proof (get_ok maphash sh m k Hm) as E1. rewrite (get_ok maphash sh m' k Hm') in E1. congruence. }
  destruct (Hl (shards s)) as (ks & E & Hks).
  { intros sh (i & Hi)%elem_of_znth. destruct (Hs i sh Hi) as (m & live & H). exists m. apply H. }
  exists ks. split; [done|]. intros k. rewrite Hks. split.
  - intros (sh & m & (i & Hi)%elem_of_znth & Hm & He). destruct (Hs i sh Hi) as (m' & live & H). pose proof (get_ok maphash sh m k Hm) as E1.
    rewrite (held_get maphash H k) in E1. injection E1 as E1. rewrite <- E1 in He. destruct He as [e He]. destruct (held_item maphash H k e He) as (x & Hx & _).
    apply map_lookup_filter_Some in Hx as [Hx _]. by exists x.
  - intros [x Hx]. assert (Hr : 0 ≤ home maphash (zlen (shards s)) k < zlen (shards s)) by (rewrite Hn; by apply home_range).
    destruct (znth_is_Some _ _ Hr) as [sh Hi]. destruct (Hs _ _ Hi) as (m & live & H). exists sh, m. split_and!; [apply elem_of_znth; eauto|apply H|].
    destruct (held_some maphash H k x) as (e & He & _); [by rewrite mine_home|by exists e].
Qed.

(** What an export gives: a record for each key asked for, or for each live key. *)
Lemma Export_ok s A n b now keys : fine s A n b → (∀ k, match keys with Some l => k ∈ l | None => True end → packable_list (view now A !! k)) →
  ∃ ks rs, Export maphash s keys now = Ret rs ∧ records_of (view now A) ks rs ∧
    ∀ k, k ∈ ks ↔ match keys with Some l => k ∈ l | None => is_Some (view now A !! k) end.
Proof using Hcap.
  intros Hf Hp. unfold Export. destruct keys as [l|].
  - destruct (export_loop_ok s A n b now false l Hf Hp ∅) as (ks & rs & E & Hr & Hm). exists ks, rs. split_and!; [done|done|]. intros k.
    rewrite Hm. split; [by intros [? _]|]. intros Hk. split_and!; [done|apply not_elem_of_empty|done].
  - destruct (all_keys_ok s A n b Hf) as (l & -> & Hl). rewrite res_bind_ret.
    destruct (export_loop_ok s A n b now true (sort_Strings l) Hf ltac:(auto) ∅) as (ks & rs & E & Hr & Hm). exists ks, rs. split_and!; [done|done|]. intros k.
    rewrite Hm. unfold sort_Strings. rewrite merge_sort_Permutation, Hl. split; [intros (_ & _ & Hx); by apply Hx|].
    intros Hx. split_and!; [|apply not_elem_of_empty|done]. rewrite view_alive in Hx. destruct (A !! k); [done|by destruct Hx].
Qed.
End Facts.
