(* ===== verification/RestoreFacts.v ===== *)
(** * Applying records

    A record stores the item it carries, or removes its key; a batch of records
    is applied as a whole or refused by the memory limit before anything has
    changed; a reset empties the store. *)
From stdpp Require Import sorting.
From S2P Require Import Prelude Numerals Arena ArenaFacts ArenaSpec ArenaHeap KeyPack KeyPackFacts Table TableSpec CodecFacts.
From S2P Require Import Codec Dictionary Shape ShapeFacts Registry RegistrySpec Entry HotHash Expiry Shard ShardFacts ListPack ListFacts Values Engine EngineFacts.
From S2P Require Import StoreFacts Commands ListCommands ListBytes CommandFacts ListStore Records Recovery RecoveryFacts.
Set Default Proof Using "Type".

(** What the records of [l] leave, in order. *)
Fixpoint changes (now : Z) (l : list (list byte * option item)) (M : gmap (list byte) (option item)) : gmap (list byte) (option item) :=
  match l with
  | [] => M
  | (k, x) :: l => changes now l (<[k := alive now x]> M)
  end.

(** The same before deadlines are looked at. *)
Fixpoint writes (l : list (list byte * option item)) (M : gmap (list byte) (option item)) : gmap (list byte) (option item) :=
  match l with
  | [] => M
  | (k, x) :: l => writes l (<[k := x]> M)
  end.

Lemma changes_alive now l : ∀ M, changes now l (alive now <$> M) = alive now <$> writes l M.
Proof. induction l as [|[k x] l IH]; intros M; cbn [changes writes]; [done|]. by rewrite <- IH, fmap_insert. Qed.

Definition key_sizes (ks : list (list byte)) : Z := lsum KeyPack.KeyRecordSize ks.

(** The records carry these states of these keys. *)
Definition carried (l : list (list byte * option item)) (rs : list Record_) : Prop := Forall2 (fun kx r => carries r kx.1 kx.2) l rs.

Lemma carried_plain r k x : carries r k x → Replication r = None ∧ Stream r = None ∧ Reset r = false ∧ record_key r = k ∧ record_refused r = None.
Proof.
  intros (key & <- & H). destruct x as [[[v|L] d]|]; revert H.
  - intros (t & Ht & Hv & ->). split_and!; try done. unfold record_refused. cbn [Value ValueType]. change maxValueBytes with 33554432 in Hv.
    rewrite (proj2 (Z.ltb_ge _ _)) by lia. rewrite (proj2 (Z.ltb_ge _ _)); [done|]. unfold TypeBytes, TypeTimeSeries in *. lia.
  - intros (Hp & Hn & ->). split_and!; try done. unfold record_refused. cbn [Value ValueType]. pose proof (packs_ok L Hp) as Hl.
    pose proof (bytes_bounds _ _ (packed_bytes L Hp)) as [[_ Hl'] _]. change maxPackedListBytes with 33554432 in Hl'. by rewrite (proj2 (Z.ltb_ge _ _)) by lia.
  - by intros ->.
Qed.

Lemma carried_gone r k x now : Millisecond ≤ now → carries r k x → record_gone r now = bool_decide (alive now x = None).
Proof.
  intros Hnow Hc. assert (Hd : ∀ v d, dead now d = negb (d =? 0) && (d <=? now / Millisecond) → bool_decide (alive now (Some (v, d)) = None) = dead now d).
  { intros v d _. cbn. destruct (dead now d); [by rewrite bool_decide_true|by rewrite bool_decide_false]. }
  assert (Hs : ∀ d, dead now d = negb (d =? 0) && (d <=? now / Millisecond)).
  { intros d. unfold dead, stampOf. rewrite (proj2 (Z.eqb_neq now _)); [done|]. unfold zeroTime, Second, Millisecond in *. lia. }
  destruct Hc as (key & _ & Hc). destruct x as [[v d]|]; [rewrite Hd by done|by rewrite Hc]. rewrite Hs.
  destruct v as [v|L]; [destruct Hc as (t & _ & _ & ->)|destruct Hc as (_ & _ & ->)]; done.
Qed.

Section Restores.
Context (maphash : list byte → Z) (growslice : Z → Z → Z) (lib : Library) `{OV : OtherValues} (o : Orders).
Context (Hcap : cap_bounds (DecodeAll lib)).
Context (Hlex : ∀ src, json_Valid o src = true → lexed src) (Hord : ∀ X, order_keys o X ≡ₚ elements X).
Implicit Types (A : items) (s : Store).

Local Abbreviation shardFor := (shardFor maphash).
Local Abbreviation lookup_key := (lookup_key maphash).
Local Abbreviation good := (good maphash lib).
Local Abbreviation fine := (fine maphash lib).

(** ** One record *)

(** The entry made for a live record. *)
Definition ready (reg : Registry) (pe : preparedEntry) (v : value) (d : Z) : Prop := prepared_ok reg pe v ∧ small v ∧ expiresAt pe = d.

Lemma with_type_ok reg pe v t : prepared_ok reg pe (VStr v) → 0 ≤ t ≤ TypeBytes → prepared_ok reg (with_type pe t) (VStr v).
Proof. intros [] Ht. by split. Qed.

Lemma record_entry_ok s r k v d : registered lib (codecs_ s) → carries r k (Some (v, d)) →
  ∃ pe, record_entry lib s r = Ret (Ok pe) ∧ ready (codecs_ s) (deadline_entry r pe) v d ∧ ValueType r ≠ TypeStream.
Proof.
  intros Hreg Hc.
  assert (Hdl : ∀ pe, ExpiresAtMS r = d → expiresAt pe = 0 → prepared_ok (codecs_ s) pe v → small v → ready (codecs_ s) (deadline_entry r pe) v d).
  { intros pe <- H0 Hpe Hv. unfold deadline_entry. destruct (Z.eqb_spec (ExpiresAtMS r) 0) as [E|]; cbn [negb]; [by rewrite E|]. split_and!; [by apply expiring_ok|done|done]. }
  destruct Hc as (key & _ & Hc). destruct v as [v|L].
  - destruct Hc as (t & Ht & Hv & ->). destruct (makeEntry_ok lib s v Hreg Hv) as (pe & E & Hpe & H0 & _). unfold record_entry. cbn [ValueType Value].
    exists (if negb (t =? 0) then with_type pe t else pe). split_and!.
    + unfold TypeBytes, TypeHash, TypeSet, TypeZSet, TypeList, TypeBloom, TypeCuckoo, TypeCMS, TypeTopK, TypeTDigest, TypeTimeSeries in *.
      rewrite !(proj2 (Z.eqb_neq t _)) by lia. cbn [orb]. by rewrite E.
    + apply Hdl; [done|by destruct (negb _)| |done]. destruct (negb _); [by apply with_type_ok|done].
    + cbn. unfold TypeBytes, TypeStream in *. lia.
  - destruct Hc as (Hp & Hn & ->). exists (listPreparedEntry (packed L)). split_and!; [|apply Hdl; [done|done|by apply (list_prepared lib), packed_bytes|done]|done].
    unfold record_entry. cbn [ValueType Value]. change (TypeList =? TypeList) with true. by rewrite decodePackedList_ok by by apply packs_ok.
Qed.

(** The records took effect, or the memory limit refused them and nothing changed. *)
Definition restored s A (n b : Z) (M : gmap (list byte) (option item)) (c d : Z) (force : bool) (r : reply unit) s' : Prop :=
  r = Ok tt ∧ fine s' (patch M A) (n + c) (b + d) ∧ same_config s s' ∨
  r = Fail ErrOOM ∧ s' = s ∧ force = false ∧ 0 < m_max (memory s).

Lemma record_puts s A n b k pe v d adm now : fine s A n b → n ≤ refSegmentMask → b + KeyPack.KeyRecordSize k ≤ maxLogBytes → ready (codecs_ s) pe v d →
  ∃ r s', publishRecord maphash growslice s (shardFor s k) k pe adm now = Ret (r, s') ∧ puts maphash lib s A n b k (v, d) r s' ∧
    (adm = allowOverMemoryLimit → r = Ok tt).
Proof using Hcap.
  intros [Hg Hz] Hn Hb (Hpe & Hv & <-). destruct (lookup_ok maphash lib Hcap s A n b k ltac:(by split)) as (e & E & _). pose proof E as E'. unfold Commands.lookup_key in E.
  destruct (publish_ok maphash growslice lib false s A n b k pe v adm now e Hg Hn Hb Hpe E) as ([r s'] & Ep & Hp & Ha). exists r, s'. split_and!; [|..|exact Ha].
  - unfold publishRecord, publishRecordKnown. apply res_bind_inv in E as (sh & -> & E). by rewrite res_bind_ret, E, res_bind_ret.
  - destruct Hp as [(Hr & Hg' & Hc)|[[= -> ->] Hm]]; [|by right]. cbn [fst snd] in *. left. split_and!; try done. split; [done|by apply sized_insert].
Qed.

Lemma patch_one A k x : patch {[k := Some x]} A = <[k := x]> A.
Proof.
  apply map_eq. intros k'. rewrite lookup_patch. destruct (decide (k = k')) as [<-|]; [by rewrite lookup_singleton_eq, lookup_insert_eq|by rewrite lookup_singleton_ne, lookup_insert_ne].
Qed.

Lemma patch_gone A k : patch {[k := None]} A = delete k A.
Proof.
  apply map_eq. intros k'. rewrite lookup_patch. destruct (decide (k = k')) as [<-|]; [by rewrite lookup_singleton_eq, lookup_delete_eq|by rewrite lookup_singleton_ne, lookup_delete_ne].
Qed.

Lemma restore_single_ok s A n b r k x force now : fine s A n b → n ≤ refSegmentMask → b + KeyPack.KeyRecordSize k ≤ maxLogBytes → Millisecond ≤ now → carries r k x →
  ∃ e s', restoreSingleRecord maphash growslice lib o s r force now = Ret (e, s') ∧ restored s A n b {[k := alive now x]} 1 (KeyPack.KeyRecordSize k) force e s'.
Proof using Hcap Hlex.
  intros Hf Hn Hb Hnow Hc. destruct (carried_plain r k x Hc) as (Hrep & _ & _ & Hk & Href). unfold restoreSingleRecord.
  rewrite bool_decide_false, Href, Hk, (carried_gone r k x now Hnow Hc) by (by intros []). destruct (alive now x) as [[v d]|] eqn:Ea.
  - rewrite bool_decide_false by done. assert (x = Some (v, d)) as ->. { destruct x as [[v' d']|]; [|done]. cbn in Ea. destruct (dead now d'); [done|congruence]. }
    destruct (NewRegistry_only _ _ (so_registry _ _ _ _ (go_store _ _ _ _ _ _ (fi_good _ _ _ _ _ _ Hf)))) as [Hreg _].
    destruct (record_entry_ok s r k v d Hreg Hc) as (pe & E & Hpe & Hst). rewrite (proj2 (Z.eqb_neq _ _) Hst), E, res_bind_ret.
    destruct (record_puts s A n b k _ v d (if force then allowOverMemoryLimit else enforceMemoryLimit) now Hf Hn Hb Hpe) as (e & s1 & -> & [(-> & Hf1 & Hc1)|(-> & -> & Hm)] & Hadm);
      rewrite res_bind_ret.
    + destruct (observe_written_ok maphash lib o Hcap Hlex s1 _ _ _ k (deadline_entry r pe) Hf1) as (s2 & -> & Hf2 & Hc2). rewrite res_bind_ret.
      eexists _, _. split; [done|]. left. rewrite patch_one. split_and!; [done|done|by eapply same_config_trans].
    + eexists _, _. split; [done|]. right. destruct force; [by discriminate Hadm|done].
  - rewrite bool_decide_true by done. destruct (remove_fine maphash growslice lib s A n b k now Hf) as (s1 & -> & Hf1 & Hc1). rewrite res_bind_ret.
    eexists _, _. split; [done|]. left. rewrite patch_gone. pose proof (KeyRecordSize_bounds k). split_and!; [done|eapply fine_mono; [..|done]; lia|done].
Qed.

(** ** Collecting a batch *)

(** The batch holds the changes [M]. *)
Record collects (reg : Registry) (M : gmap (list byte) (option item)) (bt : batch) : Prop := {
  cl_gone : ∀ k, k ∈ deletions bt ↔ M !! k = Some None;
  cl_none : ∀ k pe, updates bt !! k = Some pe → ∃ v d, M !! k = Some (Some (v, d)) ∧ ready reg pe v d;
  cl_some : ∀ k x, M !! k = Some (Some x) → is_Some (updates bt !! k);
  cl_bodies : bodies bt = ∅;
}.

Lemma collects_empty reg : collects reg ∅ (mkBatch ∅ ∅ ∅).
Proof. split; cbn; try done; set_solver. Qed.

Lemma batch_step_ok s M bt r k x now : registered lib (codecs_ s) → Millisecond ≤ now → carries r k x → collects (codecs_ s) M bt →
  ∃ bt', batch_step lib s bt r now = Ret (Ok bt') ∧ collects (codecs_ s) (<[k := alive now x]> M) bt'.
Proof.
  clear Hlex Hord Hcap o maphash growslice. intros Hreg Hnow Hc [C1 C2 C3 C4]. destruct (carried_plain r k x Hc) as (Hrep & _ & _ & Hk & _). unfold batch_step.
  rewrite bool_decide_false, Hk, (carried_gone r k x now Hnow Hc) by (by intros []). destruct (alive now x) as [[v d]|] eqn:Ea.
  - rewrite bool_decide_false by done. assert (x = Some (v, d)) as ->. { destruct x as [[v' d']|]; [|done]. cbn in Ea. destruct (dead now d'); [done|congruence]. }
    destruct (record_entry_ok s r k v d Hreg Hc) as (pe & E & Hpe & Hst). rewrite (proj2 (Z.eqb_neq _ _) Hst), E, res_bind_ret. eexists. split; [done|].
    split; cbn [updates deletions bodies]; [| | |by rewrite C4, delete_empty].
    + intros k'. rewrite elem_of_difference, elem_of_singleton, C1, lookup_insert_Some. naive_solver.
    + intros k' pe' [[<- <-]|[Hne Hu]]%lookup_insert_Some; [exists v, d; by rewrite lookup_insert_eq|rewrite lookup_insert_ne by done; by apply C2].
    + intros k' x' [[<- [= <-]]|[Hne Hu]]%lookup_insert_Some; [by rewrite lookup_insert_eq|rewrite lookup_insert_ne by done; by eapply C3].
  - rewrite bool_decide_true by done. eexists. split; [done|]. split; cbn [updates deletions bodies]; [| | |by rewrite C4, delete_empty].
    + intros k'. rewrite elem_of_union, elem_of_singleton, C1, lookup_insert_Some. destruct (decide (k = k')); naive_solver.
    + intros k' pe' [Hne Hu]%lookup_delete_Some. rewrite lookup_insert_ne by done. by apply C2.
    + intros k' x' [[_ [=]]|[Hne Hu]]%lookup_insert_Some. rewrite lookup_delete_ne by done. by eapply C3.
Qed.

Lemma batch_loop_ok s now l rs : registered lib (codecs_ s) → Millisecond ≤ now → carried l rs → ∀ M bt, collects (codecs_ s) M bt →
  ∃ bt', batch_loop lib s bt rs now = Ret (Ok bt') ∧ collects (codecs_ s) (changes now l M) bt'.
Proof.
  intros Hreg Hnow. induction 1 as [|[k x] r l rs Hc _ IH]; intros M bt Hb; cbn [batch_loop changes]; [by exists bt|].
  destruct (batch_step_ok s M bt r k x now Hreg Hnow Hc Hb) as (bt1 & -> & Hb1). rewrite res_bind_ret. by apply IH.
Qed.

(** The keys changed are those of the records. *)
Lemma changes_keys now l : ∀ M k x, changes now l M !! k = Some x → k ∈ l.*1 ∨ M !! k = Some x.
Proof.
  clear. induction l as [|[k x] l IH]; intros M k' x' H; cbn [changes fmap list_fmap fst] in *; [by right|]. rewrite elem_of_cons.
  destruct (IH _ _ _ H) as [?|[[<- _]|[_ ?]]%lookup_insert_Some]; auto.
Qed.

Lemma ordered_keys bt : (ordered bt).*1 ≡ₚ elements (dom (updates bt)).
Proof.
  clear. unfold ordered, sort_Strings. etrans; [|apply (merge_sort_Permutation strings_le)].
  assert (H : ∀ k, k ∈ merge_sort strings_le (elements (dom (updates bt))) → is_Some (updates bt !! k)).
  { intros k. rewrite merge_sort_Permutation, elem_of_elements, elem_of_dom. done. }
  revert H. generalize (merge_sort strings_le (elements (dom (updates bt)))) as l. induction l as [|k l IH]; intros H; [done|]. cbn [omap list_omap].
  destruct (H k) as [pe E]; [by left|]. rewrite E. cbn. f_equiv. apply IH. intros k' ?. apply H. by right.
Qed.

Lemma ordered_entry bt k pe : (k, pe) ∈ ordered bt ↔ updates bt !! k = Some pe.
Proof.
  clear. unfold ordered. rewrite list_elem_of_omap. unfold sort_Strings. setoid_rewrite merge_sort_Permutation. split.
  - intros (k' & _ & E). destruct (updates bt !! k') as [pe'|] eqn:Eu; [|done]. cbn in E. by injection E as <- <-.
  - intros E. exists k. rewrite elem_of_elements, elem_of_dom, E. done.
Qed.

(** ** Forecasting a batch *)

Definition in_range s (i : Z) : Prop := 0 ≤ i < zlen (shards s).

(** The shards of the forecast exist, and its values fit their arenas. *)
Record predicts s (c : Z) (f : forecast) : Prop := {
  pd_growth : ∀ i x, growth f !! i = Some x → in_range s i;
  pd_values : ∀ i l, allocations f !! i = Some l → in_range s i ∧
    ∃ vs : list (list byte), l = map zlen vs ∧ zlen vs ≤ c ∧ Forall (fun v => zlen v + 8 ≤ maxArenaBlock) vs;
}.

Lemma shardFor_range s A n b k : fine s A n b → in_range s (shardFor s k).
Proof. intros [[Hs _ _] _]. destruct (home_shard maphash lib s A k Hs) as (sh & _ & _ & _ & Hi & _). by apply znth_Some in Hi. Qed.

Lemma predicts_start s : predicts s 0 (mkForecast 0 0 ∅ ∅ ∅).
Proof. by split. Qed.

Lemma predicts_grow s c f i x : in_range s i → predicts s c f → predicts s c (grow f i x).
Proof. intros Hi [H1 H2]. split; [|done]. cbn [grow growth]. intros j y [[<- _]|[_ ?]]%lookup_insert_Some; [done|by eapply H1]. Qed.

Lemma predicts_free s c f k e : predicts s c f → predicts s c (free_entry f k e).
Proof. by intros []. Qed.

Lemma forecast_deletions_ok s A n b keys : fine s A n b → ∀ f, predicts s 0 f → ∃ f', forecast_deletions maphash s f keys = Ret f' ∧ predicts s 0 f'.
Proof using Hcap.
  intros Hf. induction keys as [|k keys IH]; intros f Hp; cbn [forecast_deletions]; [by exists f|].
  destruct (lookup_ok maphash lib Hcap s A n b k Hf) as (e & -> & _). rewrite res_bind_ret. apply IH. destruct e; [|done].
  apply predicts_grow; [by eapply shardFor_range|by apply predicts_free].
Qed.

Lemma forecast_update_ok s A n b c f k pe v d : fine s A n b → 0 ≤ c → ready (codecs_ s) pe v d → predicts s c f →
  ∃ f', forecast_update maphash s f k pe = Ret f' ∧ predicts s (c + 1) f'.
Proof using Hcap.
  intros Hf Hc0 (Hpe & _) Hp. pose proof (shardFor_range s A n b k Hf) as Hi. destruct (lookup_ok maphash lib Hcap s A n b k Hf) as (e & E & _).
  unfold forecast_update. rewrite E, res_bind_ret. eexists. split; [done|].
  assert (H : predicts s c (match e with Some e => free_entry f k e | None => grow f (shardFor s k) 1 end)) by (destruct e; [by apply predicts_free|by apply predicts_grow]).
  destruct H as [H1 H2]. split; [exact H1|]. cbn [allocations]. intros i l [[<- <-]|[_ Hl]]%lookup_insert_Some.
  - split; [done|]. destruct (allocations _ !! _) as [l|] eqn:El; cbn [default from_option].
    + destruct (H2 _ _ El) as (_ & vs & -> & Hn & Hv). exists (vs ++ [pe_data pe]). rewrite map_app, zlen_snoc. split_and!; [done|lia|].
      apply Forall_app. split; [done|]. by constructor; [apply Hpe|].
    + exists [pe_data pe]. change (zlen [pe_data pe]) with 1. split_and!; [done|lia|]. by constructor; [apply Hpe|].
  - destruct (H2 _ _ Hl) as (? & vs & ? & ? & ?). split; [done|]. exists vs. split_and!; [done|lia|done].
Qed.

(** The entries of a list are ready to be stored as the items [M] gives. *)
Definition all_ready (reg : Registry) (M : gmap (list byte) (option item)) (l : list (list byte * preparedEntry)) : Prop :=
  Forall (fun p => ∃ v d, M !! p.1 = Some (Some (v, d)) ∧ ready reg p.2 v d) l.

Lemma forecast_updates_ok s A n b M l : fine s A n b → all_ready (codecs_ s) M l → ∀ c f, 0 ≤ c → predicts s c f →
  ∃ f', forecast_updates maphash s f l = Ret f' ∧ predicts s (c + zlen l) f'.
Proof using Hcap.
  intros Hf. induction 1 as [|[k pe] l (v & d & _ & Hr) _ IH]; intros c f Hc Hp; cbn [forecast_updates].
  { exists f. split; [done|]. by rewrite zlen_nil, Z.add_0_r. }
  destruct (forecast_update_ok s A n b c f k pe v d Hf Hc Hr Hp) as (f1 & -> & Hp1). rewrite res_bind_ret.
  destruct (IH (c + 1) f1 ltac:(lia) Hp1) as (f2 & -> & Hp2). exists f2. split; [done|]. rewrite zlen_cons. by replace (c + (1 + zlen l)) with (c + 1 + zlen l) by lia.
Qed.

Lemma sum_shards_ok {X} s (g : shard → Z → X → res Z) (l : list (Z * X)) :
  (∀ i a, (i, a) ∈ l → ∃ sh x, znth (shards s) i = Some sh ∧ g sh i a = Ret x) → ∃ x, sum_shards s g l = Ret x.
Proof.
  clear. induction l as [|[i a] l IH]; intros H; cbn [sum_shards]; [by eexists|]. destruct (H i a) as (sh & x & Hi & Hx); [by left|].
  unfold shard_at. rewrite Hi. cbn [or_panic]. rewrite res_bind_ret, Hx, res_bind_ret. destruct IH as [y ->]; [intros; apply H; by right|]. rewrite res_bind_ret. by eexists.
Qed.

Lemma batch_next_ok s A n b bt c f : fine s A n b → n + c ≤ refSegmentMask + 1 → predicts s c f → ∃ x, batch_next s bt f = Ret x.
Proof.
  intros [[Hs _ Hw] _] Hn [H1 H2]. unfold batch_next.
  assert (Hg : ∀ g : shard → Z → Z → Z, ∃ x, sum_shards s (fun sh i a => Ret (g sh i a)) (map_to_list (growth f)) = Ret x).
  { intros g. apply sum_shards_ok. intros i a Hi%elem_of_map_to_list%H1. destruct (znth_is_Some _ _ Hi) as [sh Hsh]. by eexists _, _. }
  destruct (Hg (fun sh _ n => GrowthBytes (data sh) n)) as [x1 ->]. rewrite res_bind_ret. destruct (Hg (fun sh _ n => entryGrowthBytes sh n)) as [x2 ->]. rewrite res_bind_ret.
  destruct (sum_shards_ok s (fun sh i (_ : list Z) => Ret (metaSlotGrowthBytes sh (default 0 (growth f !! i)) (bool_decide (i ∈ metaNeeds f)))) (map_to_list (allocations f))) as [x3 ->].
  { intros i a [Hi _]%elem_of_map_to_list%H2. destruct (znth_is_Some _ _ Hi) as [sh Hsh]. by eexists _, _. }
  rewrite res_bind_ret. destruct (sum_shards_ok s (fun sh _ lengths => GrowthFor (arena sh) lengths) (map_to_list (allocations f))) as [x4 ->]; [|rewrite res_bind_ret; by eexists].
  intros i a [Hi (vs & -> & Hc & Hv)]%elem_of_map_to_list%H2. destruct (znth_is_Some _ _ Hi) as [sh Hsh]. destruct (so_shards _ _ _ _ Hs _ _ Hsh) as (m & live & H).
  destruct (ho_arena _ _ _ _ _ _ H) as [fl HI]. destruct (Hw _ _ Hsh) as (_ & _ & Hseg).
  destruct (plan_loop_sim (segments (arena sh)) (MemoryBytes (arena sh)) vs (plan_start (arena sh)) (arena sh) live fl HI (plan_sim_start _ live fl HI) Hv ltac:(lia)) as (p & _ & _ & Ep & _).
  eexists _, _. split; [done|]. unfold GrowthFor. by rewrite Ep, res_bind_ret.
Qed.

(** ** Applying a batch *)

Lemma remove_all_ok now keys : ∀ s A n b, fine s A n b →
  ∃ s' A', remove_all maphash growslice s keys now = Ret s' ∧ fine s' A' n b ∧ same_config s s' ∧
    ∀ k, A' !! k = if bool_decide (k ∈ keys) then None else A !! k.
Proof.
  induction keys as [|k keys IH]; intros s A n b Hf; cbn [remove_all]; [exists s, A; split_and!; try done|].
  destruct (remove_fine maphash growslice lib s A n b k now Hf) as (s1 & -> & Hf1 & Hc1). rewrite res_bind_ret.
  destruct (IH s1 _ n b Hf1) as (s' & A' & -> & Hf' & Hc' & HA). exists s', A'. split_and!; [done|done|by eapply same_config_trans|].
  intros k'. rewrite HA. destruct (decide (k' = k)) as [->|Hne].
  - rewrite lookup_delete_eq, (bool_decide_true (k ∈ k :: keys)) by by left. by destruct (bool_decide _).
  - rewrite lookup_delete_ne by done. by rewrite (bool_decide_ext (k' ∈ k :: keys) (k' ∈ keys)) by (rewrite elem_of_cons; naive_solver).
Qed.

Lemma publish_all_ok bt M now l : bodies bt = ∅ → ∀ s A n b, fine s A n b → all_ready (codecs_ s) M l → n + zlen l ≤ refSegmentMask + 1 → b + key_sizes l.*1 ≤ maxLogBytes →
  ∃ s' A', publish_all maphash growslice o s bt l now = Ret (Ok tt, s') ∧ fine s' A' (n + zlen l) (b + key_sizes l.*1) ∧ same_config s s' ∧
    ∀ k, A' !! k = if bool_decide (k ∈ l.*1) then default None (M !! k) else A !! k.
Proof using Hcap Hlex.
  intros Hb0. induction l as [|[k pe] l IH]; intros s A n b Hf Hr Hn Hb; cbn [publish_all].
  { exists s, A. split_and!; try done. cbn. by rewrite zlen_nil, !Z.add_0_r. }
  rewrite zlen_cons in *. cbn [fmap list_fmap fst] in *. fold (l.*1) in *. unfold key_sizes in *. rewrite lsum_cons in *. pose proof (zlen_nonneg l). pose proof (KeyRecordSize_bounds k).
  assert (Hs0 : 0 ≤ key_sizes l.*1) by (unfold key_sizes; clear; induction l as [|[k ?] l IH]; cbn [fmap list_fmap fst]; [done|]; rewrite lsum_cons; pose proof (KeyRecordSize_bounds k); lia).
  unfold key_sizes in Hs0. apply Forall_cons in Hr as [(v & d & HM & Hpe) Hr]. cbn [fst snd] in *.
  destruct (record_puts s A n b k pe v d allowOverMemoryLimit now Hf ltac:(lia) ltac:(lia) Hpe) as (e & s1 & -> & Hp & Ha). rewrite res_bind_ret.
  rewrite (Ha eq_refl) in *. destruct Hp as [(_ & Hf1 & Hc1)|(? & _)]; [|done]. rewrite Hb0, lookup_empty, res_bind_ret.
  destruct (observe_written_ok maphash lib o Hcap Hlex s1 _ _ _ k pe Hf1) as (s2 & -> & Hf2 & Hc2). rewrite res_bind_ret.
  pose proof (same_config_trans _ _ _ Hc1 Hc2) as Hc.
  destruct (IH s2 _ _ _ Hf2) as (s' & A' & -> & Hf' & Hc' & HA); [by rewrite (sc_codecs _ _ Hc)|lia|lia|].
  exists s', A'. split_and!; [done|eapply fine_mono; [..|exact Hf']; lia|by eapply same_config_trans|].
  intros k'. rewrite HA. destruct (decide (k' = k)) as [->|Hne].
  - rewrite lookup_insert_eq, (bool_decide_true (k ∈ k :: _)), HM by by left. by destruct (bool_decide _).
  - rewrite lookup_insert_ne by done. by rewrite (bool_decide_ext (k' ∈ k :: _) (k' ∈ l.*1)) by (rewrite elem_of_cons; naive_solver).
Qed.

Lemma apply_batch_ok s A n b M bt force now : fine s A n b → collects (codecs_ s) M bt →
  n + zlen (ordered bt) ≤ refSegmentMask + 1 → b + key_sizes (ordered bt).*1 ≤ maxLogBytes →
  ∃ e s', apply_batch maphash growslice o s bt force now = Ret (e, s') ∧ restored s A n b M (zlen (ordered bt)) (key_sizes (ordered bt).*1) force e s'.
Proof using Hcap Hlex Hord.
  intros Hf [C1 C2 C3 C4] Hn Hb. assert (Hr : all_ready (codecs_ s) M (ordered bt)).
  { apply Forall_forall. intros [k pe] Hk%ordered_entry. by apply C2. }
  unfold apply_batch. destruct (forecast_deletions_ok s A n b (order_keys o (deletions bt)) Hf _ (predicts_start s)) as (f1 & -> & Hp1). rewrite res_bind_ret.
  destruct (forecast_updates_ok s A n b M (ordered bt) Hf Hr 0 f1 ltac:(lia) Hp1) as (f2 & -> & Hp2). rewrite res_bind_ret.
  destruct (batch_next_ok s A n b bt (0 + zlen (ordered bt)) f2 Hf ltac:(lia) Hp2) as [next ->]. rewrite res_bind_ret.
  destruct (negb force && _ && _) eqn:Hm.
  { eexists _, _. split; [done|]. right. rewrite !andb_true_iff, negb_true_iff, Z.ltb_lt in Hm. split_and!; try done; apply Hm. }
  destruct (remove_all_ok now (order_keys o (deletions bt)) s A n b Hf) as (s1 & A1 & -> & Hf1 & Hc1 & HA1). rewrite res_bind_ret.
  destruct (publish_all_ok bt M now (ordered bt) C4 s1 A1 n b Hf1) as (s2 & A2 & -> & Hf2 & Hc2 & HA2); [by rewrite (sc_codecs _ _ Hc1)|done|done|].
  eexists _, _. split; [done|]. left. split_and!; [done| |by eapply same_config_trans]. replace (patch M A) with A2; [done|]. apply map_eq. intros k.
  rewrite HA2, HA1, lookup_patch. rewrite (bool_decide_ext (k ∈ (ordered bt).*1) (is_Some (updates bt !! k))) by (by rewrite ordered_keys, elem_of_elements, elem_of_dom).
  rewrite (bool_decide_ext (k ∈ order_keys o (deletions bt)) (k ∈ deletions bt)) by (by rewrite Hord, elem_of_elements).
  destruct (M !! k) as [[x|]|] eqn:EM.
  - by rewrite bool_decide_true by eauto.
  - rewrite bool_decide_false, bool_decide_true; [done|by apply C1|]. intros [pe Hk]. destruct (C2 _ _ Hk) as (? & ? & ? & _). congruence.
  - rewrite !bool_decide_false; [done|rewrite C1; congruence|]. intros [pe Hk]. destruct (C2 _ _ Hk) as (? & ? & ? & _). congruence.
Qed.

(** ** Reset *)

Lemma reset_ok s A n b : fine s A n b → fine (resetForRecovery s) ∅ 0 0 ∧ same_config s (resetForRecovery s).
Proof.
  intros [[[Hreg Hcount _] _ _] _].
  assert (Hsh : shards (resetForRecovery s) = replicate (length (shards s)) emptyShard).
  { assert (E : ∀ l : list shard, (fun sh => with_shapes sh false) <$> ((fun _ => emptyShard) <$> l) = replicate (length l) emptyShard).
    { clear. induction l as [|sh l IH]; [done|]. cbn. by rewrite <- IH. }
    unfold resetForRecovery, dropGlobalShapeStoreLocked. cbn. destruct (shapeCatalog s); cbn; apply E. }
  assert (Hz : zlen (shards (resetForRecovery s)) = zlen (shards s)) by (unfold zlen; by rewrite Hsh, length_replicate).
  assert (Hcat : shapeCatalog (resetForRecovery s) = None)
    by (unfold resetForRecovery, dropGlobalShapeStoreLocked; cbn; destruct (shapeCatalog s) eqn:E; cbn; by rewrite ?E).
  assert (Hrest : codecs_ (resetForRecovery s) = codecs_ s ∧ encoding (resetForRecovery s) = encoding s ∧ m_max (memory (resetForRecovery s)) = m_max (memory s))
    by (unfold resetForRecovery, dropGlobalShapeStoreLocked; cbn; by destruct (shapeCatalog s)).
  destruct Hrest as (R1 & R2 & R3). split; [|by split]. apply (empty_fine maphash lib _ (zlen (shards s))); [by rewrite R1|by rewrite to_nat_zlen|done| |done].
  unfold resetForRecovery, dropGlobalShapeStoreLocked. cbn. destruct (shapeCatalog s); cbn; unfold zlen; by rewrite !length_fmap.
Qed.

(** ** Restoring *)

Lemma key_sizes_cons k ks : key_sizes (k :: ks) = KeyPack.KeyRecordSize k + key_sizes ks.
Proof. apply lsum_cons. Qed.

Lemma key_sizes_app ks ks' : key_sizes (ks ++ ks') = key_sizes ks + key_sizes ks'.
Proof. clear. induction ks as [|k ks IH]; [done|]. cbn [app]. rewrite !key_sizes_cons, IH. lia. Qed.

Lemma lsum_submseteq {X} (f : X → Z) (l l' : list X) : (∀ x, 0 ≤ f x) → l ⊆+ l' → lsum f l ≤ lsum f l'.
Proof.
  clear. intros Hf. induction 1 as [|x l1 l2 _ IH|x y l|x l1 l2 _ IH|l1 l2 l3 _ IH1 _ IH2]; rewrite ?lsum_cons; try pose proof (Hf x); lia.
Qed.

Lemma key_sizes_submseteq ks ks' : ks ⊆+ ks' → key_sizes ks ≤ key_sizes ks'.
Proof. apply lsum_submseteq. intros k. pose proof (KeyRecordSize_bounds k). lia. Qed.

(** A batch updates no more than the keys of its records. *)
Lemma ordered_bound now l bt reg : collects reg (changes now l ∅) bt → zlen (ordered bt) ≤ zlen l ∧ key_sizes (ordered bt).*1 ≤ key_sizes l.*1.
Proof.
  clear Hlex Hord Hcap. intros [_ C2 _ _]. assert (H : (ordered bt).*1 ⊆+ l.*1).
  { apply NoDup_submseteq; [rewrite ordered_keys; apply NoDup_elements|]. intros k. rewrite ordered_keys, elem_of_elements, elem_of_dom. intros [pe Hk].
    destruct (C2 _ _ Hk) as (v & d & Hm & _). by destruct (changes_keys _ _ _ _ _ Hm) as [?|[=]]. }
  split; [|by apply key_sizes_submseteq]. apply submseteq_length in H. rewrite !length_fmap in H. unfold zlen. lia.
Qed.

Lemma carried_all l rs : carried l rs → existsb (fun r => bool_decide (Stream r ≠ None)) rs = false ∧ after_reset rs = None ∧ batch_refused rs = None.
Proof.
  clear. induction 1 as [|[k x] r l rs Hc _ (IH1 & IH2 & IH3)]; [done|]. destruct (carried_plain r k x Hc) as (H1 & H2 & H3 & _ & H5).
  cbn [existsb after_reset]. rewrite IH1, IH2, H2, H3, bool_decide_false by (by intros []). split_and!; try done.
  unfold batch_refused in *. cbn [omap list_omap]. by rewrite H1, bool_decide_false, H5 by (by intros []).
Qed.

Lemma batch_ok s A n b l rs force now : fine s A n b → carried l rs → Millisecond ≤ now →
  n + zlen l ≤ refSegmentMask + 1 → b + key_sizes l.*1 ≤ maxLogBytes →
  ∃ e s', (bt ← batch_loop lib s (mkBatch ∅ ∅ ∅) rs now; match bt with Fail e => Ret (Fail e, s) | Ok bt => apply_batch maphash growslice o s bt force now end) = Ret (e, s') ∧
    restored s A n b (alive now <$> writes l ∅) (zlen l) (key_sizes l.*1) force e s'.
Proof using Hcap Hlex Hord.
  intros Hf Hc Hnow Hn Hb. destruct (NewRegistry_only _ _ (so_registry _ _ _ _ (go_store _ _ _ _ _ _ (fi_good _ _ _ _ _ _ Hf)))) as [Hreg _].
  destruct (batch_loop_ok s now l rs Hreg Hnow Hc ∅ _ (collects_empty _)) as (bt & -> & Hbt). rewrite res_bind_ret.
  destruct (ordered_bound now l bt _ Hbt) as [B1 B2]. destruct (apply_batch_ok s A n b _ bt force now Hf Hbt ltac:(lia) ltac:(lia)) as (e & s' & E & Hr).
  exists e, s'. split; [done|]. rewrite <- changes_alive, fmap_empty. destruct Hr as [(-> & Hf' & Hc')|?]; [left|by right].
  split_and!; [done|eapply fine_mono; [..|exact Hf']; lia|done].
Qed.

Lemma Restore_ok s A n b l rs force now : fine s A n b → carried l rs → Millisecond ≤ now →
  n + zlen l ≤ refSegmentMask + 1 → b + key_sizes l.*1 ≤ maxLogBytes →
  ∃ e s', Restore maphash growslice lib o s rs force now = Ret (e, s') ∧ restored s A n b (alive now <$> writes l ∅) (zlen l) (key_sizes l.*1) force e s'.
Proof using Hcap Hlex Hord.
  intros Hf Hc Hnow Hn Hb. destruct (carried_all l rs Hc) as (E1 & E2 & E3). unfold Restore. rewrite E1.
  destruct (match rs with [r] => if Reset r then None else Some r | _ => None end) as [r|] eqn:Er.
  - destruct Hc as [|[k x] r0 l rs Hr Hc]; [done|]. destruct Hc; [|done]. destruct (carried_plain r0 k x Hr) as (_ & _ & Ere & _). rewrite Ere in Er. injection Er as ->.
    destruct (restore_single_ok s A n b r k x force now Hf) as (e & s' & E & H); [change (zlen [(k, x)]) with 1 in Hn; lia| |done|done|].
    { cbn [fmap list_fmap fst] in Hb. rewrite key_sizes_cons in Hb. unfold key_sizes in Hb. cbn in Hb. lia. }
    exists e, s'. split; [done|]. cbn [writes fmap list_fmap fst]. rewrite key_sizes_cons. change (key_sizes []) with 0. rewrite Z.add_0_r.
    replace (alive now <$> <[k := x]> ∅) with ({[k := alive now x]} : gmap (list byte) (option item)); [done|]. by rewrite insert_empty, map_fmap_singleton.
  - rewrite E2, E3. by apply batch_ok.
Qed.

(** Records after a reset. *)
Lemma Restore_reset_ok s A n b l rs force now r : fine s A n b → Reset r = true → Stream r = None → carried l rs → Millisecond ≤ now →
  zlen l ≤ refSegmentMask + 1 → key_sizes l.*1 ≤ maxLogBytes →
  ∃ e s', Restore maphash growslice lib o s (r :: rs) force now = Ret (e, s') ∧
    restored (resetForRecovery s) ∅ 0 0 (alive now <$> writes l ∅) (zlen l) (key_sizes l.*1) force e s'.
Proof using Hcap Hlex Hord.
  intros Hf Hr Hst Hc Hnow Hn Hb. destruct (carried_all l rs Hc) as (E1 & E2 & E3). unfold Restore. cbn [existsb]. rewrite Hst, bool_decide_false, E1 by (by intros []).
  assert (E : (match r :: rs with [r] => if Reset r then None else Some r | _ => None end) = None) by (destruct rs; [by rewrite Hr|done]). cbn [orb].
  rewrite E. cbn [after_reset]. rewrite E2, Hr, E3. apply batch_ok; try done. by eapply reset_ok.
Qed.
End Restores.
