(* ===== verification/Durable.v ===== *)
(** * Durable writes

    Model of executeDurableLocked (internal/server/durability.go) for the commands
    modelled here, with what it uses of the command table (server.go,
    list_commands.go) and of executePressureMode (pressure.go) under the policies
    that do not evict; and of the recovery at startup (cmd/snugkv/main.go). The
    journal is the list of entries whose append succeeded; whether an append
    succeeds is up to it. *)
From S2P Require Import Prelude Numerals KeyPack Codec Registry Entry Shard Engine Commands Guard ListCommands StoreSpec Records Persist PersistSpec Recovery.
Set Default Proof Using "Type".

(** ** The command table *)

Record commandInfo := mkInfo { i_min : Z; i_max : Z; i_first : Z; i_last : Z; i_step : Z; i_write : bool }.

(** The table as it is written, and the list commands added to it; the commands
    other files add to it are none of those modelled here. *)
Definition commandTable : list (string * commandInfo) := [
  ("MONITOR", mkInfo 1 1 0 0 0 false); ("RESET", mkInfo 1 1 0 0 0 false); ("SNUG.AOFREWRITE", mkInfo 1 1 0 0 0 false);
  ("SNUG.COMPACT", mkInfo 1 2 0 0 0 false); ("SNUG.ENCODING", mkInfo 2 2 1 1 1 false); ("SNUG.CANDIDATES", mkInfo 2 2 1 1 1 false);
  ("SNUG.TYPE", mkInfo 2 2 1 1 1 false); ("SNUG.MEMORY", mkInfo 2 2 1 1 1 false); ("SNUG.SHAPES", mkInfo 1 2 0 0 0 false);
  ("SNUG.STATS", mkInfo 1 1 0 0 0 false); ("SNUG.FAILOVER", mkInfo 2 7 0 0 0 false); ("SNUG.POLICY", mkInfo 2 2 1 1 1 false);
  ("AUTH", mkInfo 1 3 0 0 0 false); ("ACL", mkInfo 1 0 0 0 0 false); ("PING", mkInfo 1 2 0 0 0 false); ("ECHO", mkInfo 2 2 0 0 0 false);
  ("QUIT", mkInfo 1 1 0 0 0 false); ("SELECT", mkInfo 2 2 0 0 0 false); ("HELLO", mkInfo 1 0 0 0 0 false); ("INFO", mkInfo 1 2 0 0 0 false);
  ("DBSIZE", mkInfo 1 1 0 0 0 false); ("COMMAND", mkInfo 1 0 0 0 0 false); ("TIME", mkInfo 1 1 0 0 0 false);
  ("LASTSAVE", mkInfo 1 1 0 0 0 false); ("OBJECT", mkInfo 2 3 0 0 0 false); ("SLOWLOG", mkInfo 2 0 0 0 0 false);
  ("SAVE", mkInfo 1 1 0 0 0 false); ("BGSAVE", mkInfo 1 0 0 0 0 false); ("BGREWRITEAOF", mkInfo 1 1 0 0 0 false);
  ("ROLE", mkInfo 1 1 0 0 0 false); ("REPLICAOF", mkInfo 3 3 0 0 0 false); ("PSYNC", mkInfo 3 3 0 0 0 false);
  ("WAIT", mkInfo 3 3 0 0 0 false); ("WAITAOF", mkInfo 4 4 0 0 0 false); ("CONFIG", mkInfo 2 0 0 0 0 false);
  ("CLIENT", mkInfo 2 0 0 0 0 false); ("CLUSTER", mkInfo 2 0 0 0 0 false); ("ASKING", mkInfo 1 1 0 0 0 false);
  ("SCAN", mkInfo 2 0 0 0 0 false); ("KEYS", mkInfo 2 2 0 0 0 false); ("RANDOMKEY", mkInfo 1 1 0 0 0 false);
  ("RENAME", mkInfo 3 3 1 2 1 true); ("RENAMENX", mkInfo 3 3 1 2 1 true); ("TOUCH", mkInfo 2 0 1 (-1) 1 false);
  ("EXPIREAT", mkInfo 3 4 1 1 1 true); ("PEXPIREAT", mkInfo 3 4 1 1 1 true); ("EXPIRETIME", mkInfo 2 2 1 1 1 false);
  ("PEXPIRETIME", mkInfo 2 2 1 1 1 false); ("SET", mkInfo 3 0 1 1 1 true); ("GET", mkInfo 2 2 1 1 1 false);
  ("MGET", mkInfo 2 0 1 (-1) 1 false); ("DEL", mkInfo 2 0 1 (-1) 1 true); ("EXISTS", mkInfo 2 0 1 (-1) 1 false);
  ("GETSET", mkInfo 3 3 1 1 1 true); ("GETDEL", mkInfo 2 2 1 1 1 true); ("GETEX", mkInfo 2 4 1 1 1 true); ("SETNX", mkInfo 3 3 1 1 1 true);
  ("SETEX", mkInfo 4 4 1 1 1 true); ("PSETEX", mkInfo 4 4 1 1 1 true); ("MSET", mkInfo 3 0 1 (-1) 2 true);
  ("MSETNX", mkInfo 3 0 1 (-1) 2 true); ("INCR", mkInfo 2 2 1 1 1 true); ("DECR", mkInfo 2 2 1 1 1 true); ("INCRBY", mkInfo 3 3 1 1 1 true);
  ("DECRBY", mkInfo 3 3 1 1 1 true); ("INCRBYFLOAT", mkInfo 3 3 1 1 1 true); ("STRLEN", mkInfo 2 2 1 1 1 false);
  ("LCS", mkInfo 3 0 1 2 1 false); ("EXPIRE", mkInfo 3 4 1 1 1 true); ("PEXPIRE", mkInfo 3 4 1 1 1 true); ("TTL", mkInfo 2 2 1 1 1 false);
  ("PTTL", mkInfo 2 2 1 1 1 false); ("PERSIST", mkInfo 2 2 1 1 1 true); ("TYPE", mkInfo 2 2 1 1 1 false);
  ("FLUSHDB", mkInfo 1 2 0 0 0 true); ("FLUSHALL", mkInfo 1 2 0 0 0 true); ("UNLINK", mkInfo 2 0 1 (-1) 1 true);
  ("APPEND", mkInfo 3 3 1 1 1 true); ("GETRANGE", mkInfo 4 4 1 1 1 false); ("SETRANGE", mkInfo 4 4 1 1 1 true);
  ("GETBIT", mkInfo 3 3 1 1 1 false); ("BITFIELD", mkInfo 2 0 1 1 1 true); ("BITFIELD_RO", mkInfo 2 0 1 1 1 false);
  ("SETBIT", mkInfo 4 4 1 1 1 true); ("BITCOUNT", mkInfo 2 5 1 1 1 false); ("BITPOS", mkInfo 3 6 1 1 1 false);
  ("BITOP", mkInfo 4 0 2 (-1) 1 true); ("JSON.SET", mkInfo 4 5 1 1 1 true); ("JSON.GET", mkInfo 2 0 1 1 1 false);
  ("JSON.RESP", mkInfo 2 3 1 1 1 false); ("JSON.DEBUG", mkInfo 2 4 0 0 0 false); ("JSON.TYPE", mkInfo 2 3 1 1 1 false);
  ("JSON.DEL", mkInfo 2 3 1 1 1 true); ("JSON.NUMINCRBY", mkInfo 4 4 1 1 1 true); ("JSON.NUMMULTBY", mkInfo 4 4 1 1 1 true);
  ("JSON.STRLEN", mkInfo 2 3 1 1 1 false); ("JSON.ARRLEN", mkInfo 2 3 1 1 1 false); ("JSON.OBJLEN", mkInfo 2 3 1 1 1 false);
  ("JSON.ARRAPPEND", mkInfo 4 0 1 1 1 true); ("JSON.STRAPPEND", mkInfo 3 4 1 1 1 true); ("JSON.OBJKEYS", mkInfo 2 3 1 1 1 false);
  ("JSON.TOGGLE", mkInfo 3 3 1 1 1 true); ("JSON.ARRPOP", mkInfo 2 4 1 1 1 true); ("JSON.ARRINSERT", mkInfo 5 0 1 1 1 true);
  ("JSON.ARRINDEX", mkInfo 4 6 1 1 1 false); ("JSON.CLEAR", mkInfo 2 3 1 1 1 true); ("JSON.ARRTRIM", mkInfo 5 5 1 1 1 true);
  ("JSON.MGET", mkInfo 3 0 1 1 1 false); ("JSON.MERGE", mkInfo 4 4 1 1 1 true); ("JSON.MSET", mkInfo 4 0 1 (-3) 3 true);
  ("JSON.FORGET", mkInfo 2 3 1 1 1 true); ("MEMORY", mkInfo 2 5 0 0 0 false)].

Definition listCommands : list (string * commandInfo) := [
  ("LPUSH", mkInfo 3 0 1 1 1 true); ("RPUSH", mkInfo 3 0 1 1 1 true); ("LPUSHX", mkInfo 3 0 1 1 1 true); ("RPUSHX", mkInfo 3 0 1 1 1 true);
  ("LPOP", mkInfo 2 3 1 1 1 true); ("RPOP", mkInfo 2 3 1 1 1 true); ("LLEN", mkInfo 2 2 1 1 1 false); ("LINDEX", mkInfo 3 3 1 1 1 false);
  ("LRANGE", mkInfo 4 4 1 1 1 false); ("LSET", mkInfo 4 4 1 1 1 true); ("LTRIM", mkInfo 4 4 1 1 1 true); ("LREM", mkInfo 4 4 1 1 1 true);
  ("LINSERT", mkInfo 5 5 1 1 1 true); ("LPOS", mkInfo 3 0 1 1 1 false); ("LMOVE", mkInfo 5 5 1 2 1 true);
  ("RPOPLPUSH", mkInfo 3 3 1 2 1 true); ("LMPOP", mkInfo 4 0 0 0 0 true); ("BLMPOP", mkInfo 5 0 0 0 0 true)].

Definition command_info (name : string) : option commandInfo := snd <$> find (fun p => String.eqb p.1 name) (listCommands ++ commandTable).

Definition commandDenyOOM (name : string) : bool :=
  existsb (String.eqb name)
    ["SET"; "SETNX"; "SETEX"; "PSETEX"; "HSETEX"; "GETSET"; "APPEND"; "INCR"; "INCRBY"; "DECR"; "DECRBY"; "INCRBYFLOAT"; "MSET"; "MSETNX";
    "HSET"; "SADD"; "LPUSH"; "RPUSH"; "ZADD"; "XADD"; "PFADD"; "BF.RESERVE"; "BF.ADD"; "BF.MADD"; "BF.INSERT"; "CF.RESERVE"; "CF.ADD";
    "CF.ADDNX"; "CF.DEL"; "CF.INSERT"; "CF.INSERTNX"; "CMS.INITBYDIM"; "CMS.INITBYPROB"; "CMS.INCRBY"; "CMS.MERGE"; "TOPK.RESERVE";
    "TOPK.ADD"; "TOPK.INCRBY"; "TDIGEST.CREATE"; "TDIGEST.ADD"; "TDIGEST.RESET"; "TDIGEST.MERGE"; "TS.CREATE"; "TS.ADD"; "TS.INCRBY";
    "TS.DECRBY"; "VADD"; "GEOADD"; "BITOP"; "COPY"; "SORT"; "ZUNIONSTORE"; "ZINTERSTORE"; "ZDIFFSTORE"].

(** ** Requests *)

Definition set_words (o : SetOptions) : list (list byte) :=
  (if oNX o then [text "NX"] else []) ++ (if oXX o then [text "XX"] else []) ++ (if oGet o then [text "GET"] else []) ++
  (if oKeepTTL o then [text "KEEPTTL"] else []) ++ (if 0 <? oTTL o then [text "PX"; FormatInt (oTTL o / Millisecond)] else []) ++
  match oExpireAt o with Some w => [text "PXAT"; FormatInt (w / Millisecond)] | None => [] end.

(** The name and the arguments with which a client asks for a command, if it can. *)
Definition argv (c : command) : option (string * list (list byte)) :=
  match c with
  | CSetOptions k v o => Some ("SET", [k; v] ++ set_words o)
  | CGetSet k v => Some ("GETSET", [k; v])
  | CGetString k => Some ("GET", [k])
  | CExists ks => Some ("EXISTS", ks)
  | CDeleteMany ks => Some ("DEL", ks)
  | CTouch ks => Some ("TOUCH", ks)
  | CType k => Some ("TYPE", [k])
  | CGetDelString k => Some ("GETDEL", [k])
  | CAdd k delta => Some ("INCRBY", [k; FormatInt delta])
  | CSub k decrement => Some ("DECRBY", [k; FormatInt decrement])
  | CAppend k suffix => Some ("APPEND", [k; suffix])
  | CGetRange k a b => Some ("GETRANGE", [k; FormatInt a; FormatInt b])
  | CSetRange k offset r => Some ("SETRANGE", [k; FormatInt offset; r])
  | CExpireAt k w condition => Some ("PEXPIREAT", [k; FormatInt (w / Millisecond)] ++ (if String.eqb condition "" then [] else [text condition]))
  | CPersist k => Some ("PERSIST", [k])
  | CGetEx k at' persist =>
      Some ("GETEX", [k] ++ (if persist then [text "PERSIST"] else match at' with Some w => [text "PXAT"; FormatInt (w / Millisecond)] | None => [] end))
  | CTTL k milliseconds => Some (if milliseconds then "PTTL" else "TTL", [k])
  | CExpireTime k milliseconds => Some (if milliseconds then "PEXPIRETIME" else "EXPIRETIME", [k])
  | CMGetStrings ks => Some ("MGET", ks)
  | CPush k vs lft => Some (if lft then "LPUSH" else "RPUSH", k :: vs)
  | CPushX k vs lft => Some (if lft then "LPUSHX" else "RPUSHX", k :: vs)
  | CPop k count lft => Some (if lft then "LPOP" else "RPOP", [k; FormatInt count])
  | CListLen k => Some ("LLEN", [k])
  | CListIndex k index => Some ("LINDEX", [k; FormatInt index])
  | CListRange k start stop => Some ("LRANGE", [k; FormatInt start; FormatInt stop])
  | CListSet k index v => Some ("LSET", [k; FormatInt index; v])
  | CListTrim k start stop => Some ("LTRIM", [k; FormatInt start; FormatInt stop])
  | CListRem k count v => Some ("LREM", [k; FormatInt count; v])
  | CListInsert k before pivot v => Some ("LINSERT", [k; if before then text "BEFORE" else text "AFTER"; pivot; v])
  | CListPos k v rank count maxLen withCount =>
      Some ("LPOS", [k; v; text "RANK"; FormatInt rank; text "MAXLEN"; FormatInt maxLen] ++ (if withCount then [text "COUNT"; FormatInt count] else []))
  | _ => None
  end.

(** The keys a request names, at the positions of the table. *)
Fixpoint affected_loop (fuel : nat) (i last step : Z) (args : list (list byte)) : list (list byte) :=
  match fuel with
  | O => []
  | S f =>
      if (0 <? i) && (i <=? last) && (i <? zlen args)
      then match znth args i with Some a => a :: affected_loop f (i + step) last step args | None => [] end
      else []
  end.

Definition affected (info : commandInfo) (args : list (list byte)) : list (list byte) :=
  let last := if i_last info <? 0 then zlen args + i_last info else i_last info in
  affected_loop (length args) (i_first info) last (i_step info) args.

(** ** Commands under a memory limit *)

(** The times at which the clock is read: by the export before, the command, the
    export after, and the rollback. *)
Record clock := mkClock { t_before : Z; t_exec : Z; t_after : Z; t_rollback : Z }.

Record Server `{P : Peers} := mkServer {
  sv_store : Store;
  sv_journal : list journal_entry;
  durabilityFailed : bool;
}.

Arguments mkServer {P} _ _ _.

(** A command, or FLUSHDB. *)
Inductive request := Command (c : command) | Flush.

Section Durable.
Context (maphash : list byte → Z) (growslice : Z → Z → Z) (lib : Library) `{OV : OtherValues} (o : Orders).
(** The memory of the search indexes, whether the policy is [noeviction], and
    whether the journal takes an entry. *)
Context (SearchMemoryBytes : Store → Z) (noeviction : bool) (accepts : list journal_entry → journal_entry → bool).

Local Abbreviation exec := (exec maphash growslice lib).
Local Abbreviation exec_store := (exec_store maphash growslice lib).
Local Abbreviation Export := (Export maphash).
Local Abbreviation Restore := (Restore maphash growslice lib o).

Definition SetMaxMemory (s : Store) (max : Z) : Store :=
  let m := memory s in
  with_memory s (mkAccounting (m_used m) (m_index m) (m_entries m) (m_arenas m) (m_arenaPayload m) (m_arenaLiveBlocks m)
                   (m_schemas m) (m_metas m) (m_hotHashes m) (m_streams m) max).

Definition over_limit (s : Store) : bool := (0 <? m_max (memory s)) && (m_max (memory s) <? u64 (m_used (memory s) + SearchMemoryBytes s)).

Definition rejectDenyOOMCommand (s : Store) (name : string) : bool := noeviction && commandDenyOOM name && over_limit s.

Definition withNonDenyOOMBypass (s : Store) (name : string) (run : Store → res (answer * Store)) : res (answer * Store) :=
  if noeviction && from_option i_write false (command_info name) && negb (commandDenyOOM name) && over_limit s
  then '(a, s') ← run (SetMaxMemory s 0); Ret (a, SetMaxMemory s' (m_max (memory s)))
  else run s.

Definition executePressure (s : Store) (now : Z) (name : string) (args : list (list byte)) (c : command) : res (answer * Store) :=
  if String.eqb name "GET" && (zlen args =? 1) then exec_store s now c
  else if String.eqb name "SET" && (zlen args =? 2) && (m_max (memory s) =? 0) then exec_store s now c
  else if rejectDenyOOMCommand s name then Ret (AError ErrOOM, s)
  else withNonDenyOOMBypass s name (fun s => exec s now c).

(** ** Journaled execution *)

Definition errUnavailable : string := "ERR persistence is unavailable; restart after repairing storage".
Definition errAppend : string := "ERR persistence append failed".
Definition errRollback : string := "ERR persistence and rollback failed".
Definition errApplied : string := "ERR persisted SET could not be applied in memory".

(** The append failed: what was exported before is put back. *)
Definition roll_back (sv : Server) (s : Store) (records : list Record_) (now : Z) : res (answer * Server) :=
  '(r, s) ← Restore s records true now;
  Ret (AError (match r with Ok _ => errAppend | Fail _ => errRollback end), mkServer s (sv_journal sv) true).

(** A plain SET without a memory limit is journaled, then applied. *)
Definition executePlainSet (sv : Server) (t : clock) (k v : list byte) : res (answer * Server) :=
  if Z.shiftl 32 20 <? zlen v then Ret (AError errTooLarge, sv) else
  if accepts (sv_journal sv) (PlainSet k v) then
    '(r, s) ← SetPlain maphash growslice lib (sv_store sv) k v (t_exec t);
    let journal := sv_journal sv ++ [PlainSet k v] in
    Ret (match r with Ok _ => (ADone, mkServer s journal false) | Fail _ => (AError errApplied, mkServer s journal true) end)
  else Ret (AError errAppend, mkServer (sv_store sv) (sv_journal sv) true).

(** Any other write: the keys it names are exported before and after it. *)
Definition executeJournaled (sv : Server) (t : clock) (name : string) (info : commandInfo) (args : list (list byte)) (c : command)
    : res (answer * Server) :=
  let keys := affected info (text name :: args) in
  before ← Export (sv_store sv) (Some keys) (t_before t);
  '(a, s) ← executePressure (sv_store sv) (t_exec t) name args c;
  match a with
  | AError _ => Ret (a, mkServer s (sv_journal sv) false)
  | _ =>
      after ← Export s (Some keys) (t_after t);
      if accepts (sv_journal sv) (Records after) then Ret (a, mkServer s (sv_journal sv ++ [Records after]) false)
      else roll_back sv s before (t_rollback t)
  end.

Definition executeDurable (sv : Server) (t : clock) (c : command) : res (answer * Server) :=
  match argv c with
  | None => Ret (AError "ERR unknown command", sv)
  | Some (name, args) =>
      let unjournaled := '(a, s) ← executePressure (sv_store sv) (t_exec t) name args c; Ret (a, mkServer s (sv_journal sv) (durabilityFailed sv)) in
      match command_info name with
      | None => unjournaled
      | Some info =>
          if negb (i_write info) then unjournaled
          else if durabilityFailed sv then Ret (AError errUnavailable, sv)
          else match (if String.eqb name "SET" && (m_max (memory (sv_store sv)) =? 0) then args else []) with
          | [k; v] => executePlainSet sv t k v
          | _ =>
              if (zlen args + 1 <? i_min info) || ((0 <? i_max info) && (i_max info <? zlen args + 1)) then unjournaled
              else executeJournaled sv t name info args c
          end
      end
  end.

(** FLUSHDB and FLUSHALL. *)
Definition executeFlush (sv : Server) (t : clock) : res (answer * Server) :=
  if durabilityFailed sv then Ret (AError errUnavailable, sv) else
  before ← Export (sv_store sv) None (t_before t);
  let s := FlushDB (sv_store sv) in
  if accepts (sv_journal sv) (Records [resetRecord]) then Ret (ADone, mkServer s (sv_journal sv ++ [Records [resetRecord]]) false)
  else roll_back sv s (resetRecord :: before) (t_rollback t).

Definition serve (sv : Server) (t : clock) (r : request) : res (answer * Server) :=
  match r with Command c => executeDurable sv t c | Flush => executeFlush sv t end.

Fixpoint serve_all (sv : Server) (trace : list (clock * request)) : res (list answer * Server) :=
  match trace with
  | [] => Ret ([], sv)
  | (t, r) :: trace =>
      '(a, sv) ← serve sv t r;
      '(l, sv) ← serve_all sv trace;
      Ret (a :: l, sv)
  end.

(** ** Recovery *)

(** The function replay is given: every frame is restored, within the memory
    limit, at the next time of the clock. *)
Definition recover (times : nat → Z) (st : nat * res Store) (records : list Record_) : option string * (nat * res Store) :=
  let '(i, s) := st in
  match (s ← s; Restore s records false (times i)) with
  | Ret (Ok _, s) => (None, (S i, Ret s))
  | Ret (Fail e, s) => (Some e, (S i, Ret s))
  | Err e => (Some e, (S i, Err e))
  | Panic e => (Some e, (S i, Panic e))
  end.
End Durable.
