(* ===== verification/DurableFacts.v ===== *)
(** * What a request may change

    A request changes the items of the keys the command table names and of no
    other key, an error changes nothing, and lists grow by no more than what the
    requests carry; so the records journaled for a request hold all that it
    changed, and every list can be exported. *)
From S2P Require Import Prelude Numerals Arena ArenaFacts KeyPack KeyPackFacts Table Codec CodecFacts Registry RegistrySpec Entry Shard ListPack ListFacts Values Engine EngineFacts.
From S2P Require Import StoreFacts Commands Guard ListCommands ListSpec CommandFacts StoreSpec StoreRefines StoreTheorems Records Persist PersistSpec Recovery RecoveryFacts RestoreFacts Durable.
Set Default Proof Using "Type".

(** ** Keys *)

Definition served (c : command) : bool := match argv c with Some _ => true | None => false end.

(** The keys whose items a request may change. *)
Definition touches (c : command) : list (list byte) :=
  match c with
  | CSetOptions k _ _ | CGetSet k _ | CGetDelString k | CAdd k _ | CSub k _ | CAppend k _ | CSetRange k _ _ | CExpireAt k _ _ | CPersist k
  | CGetEx k _ _ | CPush k _ _ | CPushX k _ _ | CPop k _ _ | CListSet k _ _ | CListTrim k _ _ | CListRem k _ _ | CListInsert k _ _ _ => [k]
  | CDeleteMany ks => ks
  | _ => []
  end.

Lemma affected_one lo hi w name k args : affected (mkInfo lo hi 1 1 1 w) (name :: k :: args) = [k].
Proof.
  unfold affected. cbn [i_last i_first i_step length affected_loop]. change (1 <? 0) with false. cbn match.
  rewrite (proj2 (Z.ltb_lt 1 (zlen _))) by (rewrite !zlen_cons; pose proof (zlen_nonneg args); lia). done.
Qed.

Lemma affected_rest args : ∀ fuel i, 1 ≤ i → (length args ≤ Z.to_nat i + fuel)%nat → affected_loop fuel i (zlen args - 1) 1 args = drop (Z.to_nat i) args.
Proof.
  induction fuel as [|f IH]; intros i Hi Hf; cbn [affected_loop]; [by rewrite drop_ge by lia|].
  rewrite (proj2 (Z.ltb_lt 0 i)) by lia. cbn [andb]. destruct (Z.leb_spec i (zlen args - 1)) as [H|H]; cbn [andb].
  - rewrite (proj2 (Z.ltb_lt i _)) by lia. destruct (znth_is_Some args i) as [a Ha]; [lia|]. rewrite Ha, IH by lia.
    rewrite znth_lookup in Ha by lia. rewrite (drop_S _ a (Z.to_nat i)) by done. do 2 f_equal. lia.
  - unfold zlen in H. by rewrite drop_ge by lia.
Qed.

Lemma affected_all lo hi w name ks : affected (mkInfo lo hi 1 (-1) 1 w) (name :: ks) = ks.
Proof.
  unfold affected. cbn [i_last i_first i_step]. change (-1 <? 0) with true. cbn match.
  replace (zlen (name :: ks) + -1) with (zlen (name :: ks) - 1) by lia. rewrite affected_rest by (cbn; lia). done.
Qed.

(** A request that writes is journaled with the keys it touches. *)
Lemma touches_affected c name args info : argv c = Some (name, args) → command_info name = Some info → i_write info = true →
  affected info (text name :: args) = touches c.
Proof.
  destruct c; intros [= <- <-]; repeat match goal with b : bool |- _ => destruct b end; intros [= <-] Hw; try discriminate Hw;
    rewrite ?affected_all; try apply affected_one; done.
Qed.

Lemma info_of c name args : argv c = Some (name, args) → ∃ info, command_info name = Some info ∧
  (i_write info = false → touches c = []) ∧ (commandDenyOOM name = true → stores c ≠ None).
Proof.
  destruct c; intros [= <- <-]; repeat match goal with b : bool |- _ => destruct b end; eexists; (split; [reflexivity|]); by split.
Qed.

Lemma set_request c args : argv c = Some ("SET", args) → ∃ k v o, c = CSetOptions k v o ∧ args = [k; v] ++ set_words o.
Proof. destruct c; intros [= ? <-] || intros [= <-] || done; repeat match goal with b : bool |- _ => destruct b end; done || by eexists _, _, _. Qed.

Lemma put_list_ne V k L d k' : k' ≠ k → put_list V k L d !! k' = V !! k'.
Proof. intros Hne. unfold put_list. destruct L; [by rewrite lookup_delete_ne|by rewrite lookup_insert_ne]. Qed.

Lemma move_deadline_ne V now k v w k' : k' ≠ k → move_deadline V now k v w !! k' = V !! k'.
Proof. intros Hne. unfold move_deadline. destruct (w <=? now); [by rewrite lookup_delete_ne|by rewrite lookup_insert_ne]. Qed.

(** A request leaves the other keys alone. *)
Lemma spec_frame V now c k : served c = true → k ∉ touches c → (spec V now c).2 !! k = V !! k.
Proof.
  intros Hs Hk. destruct c; try discriminate Hs; clear Hs; cbn [touches] in Hk; try apply not_elem_of_cons in Hk as [Hk _];
    cbn [spec]; unfold on_string, on_list, spec_set, spec_add, spec_setrange, spec_pushed, spec_lset; cbv zeta;
    repeat (case_match; subst; cbn [snd]; try done); cbn [snd];
    rewrite ?put_list_ne, ?move_deadline_ne, ?lookup_insert_ne, ?lookup_delete_ne by done; try done.
  rewrite map_lookup_filter. destruct (V !! k); [|done]. cbn. by rewrite option_guard_True.
Qed.

(** A request that is answered with an error changes nothing. *)
Lemma spec_error V now c e : served c = true → (spec V now c).1 = AError e → (spec V now c).2 = V.
Proof.
  intros Hs. destruct c; try discriminate Hs; clear Hs; cbn [spec]; unfold on_string, on_list, spec_set, spec_add, spec_setrange, spec_pushed, spec_lset, deadline_answer;
    cbv zeta; repeat (case_match; subst; cbn [fst snd]; try done); done.
Qed.

Lemma permits_frame mx V now c a V' k : view now V = V → served c = true → permits mx V now c a V' → k ∉ touches c → V' !! k = V !! k.
Proof.
  intros HV Hs Hp Hk. assert (Hsp : view now (spec V now c).2 !! k = V !! k).
  { rewrite view_alive, spec_frame by done. rewrite <- HV at 2. by rewrite view_alive. }
  destruct c; try discriminate Hs; destruct Hp as [[_ ->]|[(_ & -> & _)|(_ & -> & _)]]; done.
Qed.

Lemma permits_error mx V now c e V' : view now V = V → served c = true → permits mx V now c (AError e) V' → V' = V.
Proof.
  intros HV Hs Hp. destruct c; try discriminate Hs; destruct Hp as [[E ->]|[(_ & -> & _)|(_ & -> & _)]]; try done;
    symmetry in E; by rewrite (spec_error _ _ _ _ Hs E).
Qed.

(** A request with too few or too many arguments has no effect. *)
Lemma spec_arity V now c name args info : argv c = Some (name, args) → command_info name = Some info → i_write info = true →
  (zlen args + 1 <? i_min info) || ((0 <? i_max info) && (i_max info <? zlen args + 1)) = true → (spec V now c).2 = V.
Proof.
  intros Ha Hi Hw Hn. assert (Hvs : ∀ k (vs : elements), (zlen (k :: vs) + 1 <? 3) || false = true → zlen vs = 0).
  { intros k vs. rewrite orb_false_r, Z.ltb_lt, zlen_cons. pose proof (zlen_nonneg vs). lia. }
  destruct c; try discriminate Ha; injection Ha as <- <-; repeat match goal with b : bool |- _ => destruct b end;
    injection Hi as <-; try discriminate Hw; try discriminate Hn; clear Hw; cbn [spec]; cbn [i_min i_max] in Hn; try (by rewrite (Hvs _ _ Hn)).
  - rewrite orb_false_r, Z.ltb_lt in Hn. cbn [app] in Hn. rewrite !zlen_cons in Hn. pose proof (zlen_nonneg (set_words o)). lia.
  - rewrite orb_false_r, Z.ltb_lt in Hn. destruct ks as [|k ks]; [|rewrite zlen_cons in Hn; pose proof (zlen_nonneg ks); lia].
    apply map_filter_id. intros k x _. apply not_elem_of_nil.
  - by destruct (String.eqb condition "").
  - by destruct expireAt.
Qed.

Lemma permits_kept mx V now c a V' : view now V = V → served c = true → permits mx V now c a V' → (spec V now c).2 = V → V' = V.
Proof.
  intros HV Hs Hp Hsp. destruct c; try discriminate Hs; destruct Hp as [[_ ->]|[(_ & -> & _)|(_ & -> & _)]]; try done; by rewrite Hsp.
Qed.

(** ** Sizes of lists *)

Definition bounded (V : items) (B : Z) : Prop := ∀ k L d, V !! k = Some (VList L, d) → list_bound L ≤ B.

(** What a request may add to a list. *)
Definition list_growth (c : command) : Z :=
  match c with
  | CPush _ vs _ | CPushX _ vs _ => list_bound vs
  | CListSet _ _ v | CListInsert _ _ _ v => list_bound [v]
  | _ => 0
  end.

Lemma list_growth_nonneg c : 0 ≤ list_growth c.
Proof. destruct c; try done; apply list_bound_nonneg. Qed.

Lemma list_bound_cons v L : list_bound (v :: L) = MaxVarintLen64 + zlen v + list_bound L.
Proof. unfold list_bound. by rewrite lsum_cons. Qed.

Lemma list_bound_part L L' : L ⊆+ L' → list_bound L ≤ list_bound L'.
Proof. unfold list_bound. apply lsum_submseteq. intros v. pose proof (zlen_nonneg v). unfold MaxVarintLen64. lia. Qed.

Lemma list_bound_app L L' : list_bound (L ++ L') = list_bound L + list_bound L'.
Proof. induction L as [|v L IH]; [done|]. cbn [app]. rewrite !list_bound_cons, IH. lia. Qed.

Lemma push_perm lft vs : ∀ L, spec_push lft vs L ≡ₚ vs ++ L.
Proof.
  induction vs as [|v vs IH]; intros L; [done|]. change (spec_push lft (v :: vs) L) with (spec_push lft vs (if lft then v :: L else L ++ [v])). rewrite IH.
  destruct lft; [by rewrite <- Permutation_middle|]. rewrite app_assoc, Permutation_app_comm. done.
Qed.

Lemma push_bound lft vs L : list_bound (spec_push lft vs L) = list_bound vs + list_bound L.
Proof. rewrite <- list_bound_app. unfold list_bound. by rewrite push_perm. Qed.

Lemma without_part n v L : without n v L ⊆+ L.
Proof.
  revert n. induction L as [|x L IH]; intros [|n]; cbn [without]; try done. destruct (bool_decide _); [by apply submseteq_cons|by apply submseteq_skip].
Qed.

Lemma rem_part count v L : spec_rem count v L ⊆+ L.
Proof.
  unfold spec_rem. destruct (count =? 0); [apply sublist_submseteq, sublist_filter|]. destruct (0 <? count); [apply without_part|].
  rewrite <- (Permutation_rev (without _ _ _)). etrans; [apply without_part|by rewrite <- Permutation_rev].
Qed.

Lemma insert_part before pivot v L : spec_insert before pivot v L ⊆+ v :: L.
Proof.
  induction L as [|x L IH]; cbn [spec_insert]; [by apply submseteq_nil_l|]. destruct (bool_decide _); [destruct before; [done|by rewrite Permutation_swap]|].
  rewrite Permutation_swap. by apply submseteq_skip.
Qed.

Lemma range_part (L : elements) a b : spec_range L a b ⊆+ L.
Proof. unfold spec_range. cbv zeta. apply sublist_submseteq. etrans; [apply sublist_take|apply sublist_drop]. Qed.

Lemma pop_part lft count L : (spec_pop lft count L).2 ⊆+ L.
Proof.
  unfold spec_pop. destruct lft; cbn [snd]; [apply sublist_submseteq, sublist_drop|]. rewrite <- (Permutation_rev (drop _ _)).
  etrans; [apply sublist_submseteq, sublist_drop|by rewrite <- Permutation_rev].
Qed.

Lemma lset_bound L i v : list_bound (<[i := v]> L) ≤ list_bound L + list_bound [v].
Proof.
  rewrite list_bound_cons. change (list_bound []) with 0. destruct (L !! i) as [w|] eqn:E.
  - unfold list_bound. rewrite (lsum_insert _ _ _ _ _ E). pose proof (zlen_nonneg w). unfold MaxVarintLen64. lia.
  - apply lookup_ge_None in E. rewrite list_insert_ge by done. pose proof (zlen_nonneg v). unfold MaxVarintLen64. lia.
Qed.

Lemma bounded_put V k L d B B' : bounded V B → B ≤ B' → list_bound L ≤ B' → bounded (put_list V k L d) B'.
Proof.
  intros HV HB HL k' L' d'. unfold put_list. destruct L as [|v L]; [intros [_ H]%lookup_delete_Some|intros [[_ [= <- _]]|[_ H]]%lookup_insert_Some]; [|done|];
    pose proof (HV _ _ _ H); lia.
Qed.

Lemma bounded_str V k v d B : bounded V B → bounded (<[k := (VStr v, d)]> V) B.
Proof. intros HV k' L' d' [[_ [=]]|[_ H]]%lookup_insert_Some. by eapply HV. Qed.

Lemma bounded_delete V k B : bounded V B → bounded (delete k V) B.
Proof. intros HV k' L' d' [_ H]%lookup_delete_Some. by eapply HV. Qed.

Lemma bounded_same V k v d d' B : bounded V B → V !! k = Some (v, d) → bounded (<[k := (v, d')]> V) B.
Proof. intros HV Hk k' L' e' [[_ [= -> _]]|[_ H]]%lookup_insert_Some; by eapply HV. Qed.

Lemma bounded_moved V now k v d w B : bounded V B → V !! k = Some (v, d) → bounded (move_deadline V now k v w) B.
Proof. intros HV Hk. unfold move_deadline. destruct (w <=? now); [by apply bounded_delete|by eapply bounded_same]. Qed.

Lemma bounded_view V now B : bounded V B → bounded (view now V) B.
Proof. intros HV k L d [H _]%view_some. by eapply HV. Qed.

Lemma bounded_mono V B B' : bounded V B → B ≤ B' → bounded V B'.
Proof. intros HV HB k L d H. pose proof (HV _ _ _ H). lia. Qed.

Create HintDb bounds.
#[export] Hint Resolve bounded_put bounded_str bounded_delete bounded_same bounded_moved : bounds.

(** A request grows a list by no more than what it carries. *)
Lemma spec_bounded V now c B : bounded V B → 0 ≤ B → served c = true → bounded (spec V now c).2 (B + list_growth c).
Proof.
  intros HV HB Hs. assert (Hm : bounded V (B + list_growth c)) by (eapply bounded_mono; [done|]; pose proof (list_growth_nonneg c); lia).
  destruct c; try discriminate Hs; clear Hs; cbn [list_growth] in Hm |- *;
    cbn [spec]; unfold on_string, on_list, spec_set, spec_add, spec_setrange, spec_pushed, spec_lset; cbv zeta;
    repeat (case_match; subst; cbn [snd]; try done); cbn [snd]; try done; eauto with bounds.
  { intros k L d [H _]%map_lookup_filter_Some. by eapply Hm. }
  all: clear Hm; eapply bounded_put; [exact HV|pose proof list_bound_nonneg as Hnn; first [lia|specialize (Hnn vs); lia|specialize (Hnn [v]); lia]|].
  all: try match goal with HW : bounded ?W ?B, H : ?W !! _ = Some (VList _, _) |- _ => pose proof (HW _ _ _ H) end; rewrite ?push_bound; try (change (list_bound []) with 0); try lia.
  - match goal with H : spec_pop _ _ _ = _ |- _ => pose proof (list_bound_part _ _ (pop_part left count L)) as E; rewrite H in E end. cbn [snd] in E. lia.
  - pose proof (lset_bound L (Z.to_nat (index + zlen L)) v). lia.
  - pose proof (lset_bound L (Z.to_nat index) v). lia.
  - pose proof (list_bound_part _ _ (range_part L start stop)). lia.
  - pose proof (list_bound_part _ _ (rem_part count v L)). lia.
  - pose proof (list_bound_part _ _ (insert_part before pivot v L)) as E. rewrite list_bound_cons in *. change (list_bound []) with 0. lia.
Qed.

(** ** Running a request *)

Lemma fast_path c name args : argv c = Some (name, args) → (name = "GET" ∨ name = "SET" ∧ zlen args = 2) → reads_string c = None.
Proof.
  destruct c; intros [= <- <-]; repeat match goal with b : bool |- _ => destruct b end; intros [|[? ?]]; try done.
  destruct o as [nx xx g kt ttl at']; cbn [reads_string oGet]. destruct g; [|done]. exfalso. destruct nx, xx; cbn in *; unfold zlen in *; cbn in *; lia.
Qed.

Section Requests.
Context (maphash : list byte → Z) (growslice : Z → Z → Z) (lib : Library) `{P : Peers} (Hcap : cap_bounds (DecodeAll lib)).
Context (SearchMemoryBytes : Store → Z) (noeviction : bool).
Implicit Types (s : Store) (A : items) (n b now : Z).

Local Abbreviation fine := (fine maphash lib).
Local Abbreviation outcome := (outcome maphash lib).
Local Abbreviation executePressure := (executePressure maphash growslice lib SearchMemoryBytes noeviction).

Lemma fine_max s A n b x : fine s A n b → fine (SetMaxMemory s x) A n b.
Proof. intros [[[] [] Hw] Hz]. split; [|done]. split; [by split|by split|done]. Qed.

Lemma permits_unlimited mx V now c a V' : permits 0 V now c a V' → permits mx V now c a V'.
Proof. destruct c; cbn [permits]; try done; intros [?|[(_ & _ & _ & ?)|?]]; try lia; auto. Qed.

Lemma permits_full mx V now c : stores c ≠ None → 0 < mx → permits mx V now c (AError ErrOOM) V.
Proof. intros Hs Hm. destruct c; try done; right; left; by split_and!. Qed.

Lemma pressure_ok s A n b now c name args : fine s A n b → n ≤ refSegmentMask → b + cost c ≤ maxLogBytes → command_ok c → Millisecond ≤ now →
  argv c = Some (name, args) → outcome s A n b now c (executePressure s now name args c).
Proof using Hcap.
  intros Hf Hn Hb Hok Hnow Hargs. unfold executePressure. pose proof (cost_nonneg c). destruct (info_of c name args Hargs) as (info & Hinfo & _ & Hdeny).
  destruct (String.eqb name "GET" && (zlen args =? 1)) eqn:E1.
  { apply andb_true_iff in E1 as [E1%String.eqb_eq _]. apply exec_store_ok; try done. rewrite (fast_path c name args); auto. }
  destruct (String.eqb name "SET" && (zlen args =? 2) && (m_max (memory s) =? 0)) eqn:E2.
  { rewrite !andb_true_iff, String.eqb_eq, Z.eqb_eq in E2. destruct E2 as [[? ?] _]. apply exec_store_ok; try done. rewrite (fast_path c name args); auto. }
  destruct (rejectDenyOOMCommand _ _ _ _) eqn:Er.
  { unfold rejectDenyOOMCommand, over_limit in Er. rewrite !andb_true_iff, Z.ltb_lt in Er. destruct Er as [[_ Hd] [Hm _]].
    exists (AError ErrOOM), s, A. split_and!; [done|eapply fine_mono; [..|done]; lia|done|]. apply permits_full; [by apply Hdeny|done]. }
  unfold withNonDenyOOMBypass. destruct (_ && _ && _ && _); [|by apply exec_ok].
  destruct (exec_ok maphash growslice lib Hcap (SetMaxMemory s 0) A n b now c (fine_max s A n b 0 Hf) Hn Hb Hok Hnow) as (a & s' & A' & -> & Hf' & Hc' & Hp).
  rewrite res_bind_ret. exists a, (SetMaxMemory s' (m_max (memory s))), A'. split_and!; [done|by apply fine_max|by destruct Hc'|by apply permits_unlimited].
Qed.
End Requests.
