(* ===== verification/DurableSpec.v ===== *)
(** * The journal means what the server holds

    The entries of the journal, applied in order, leave the items the server
    holds: every write is journaled with all that it changed, and a write whose
    append fails is undone. So a server is recovered from any prefix of its log
    to a state it went through. *)
From S2P Require Import Prelude Numerals Arena ArenaFacts KeyPack KeyPackFacts Table Codec CodecFacts Registry RegistrySpec Entry Shard Shape ShapeFacts ListPack ListFacts Values Engine EngineFacts.
From S2P Require Import StoreFacts Commands Guard ListCommands ListSpec CommandFacts StoreSpec StoreRefines StoreTheorems Records RecordsFacts Persist PersistFacts PersistSpec.
From S2P Require Import Recovery RecoveryFacts RestoreFacts Durable DurableFacts.
Set Default Proof Using "Type".

(** ** What a journal means *)

(** The items the entries leave, with the keys they write. *)
Inductive log_items : list journal_entry → items → list (list byte) → Prop :=
| log_nil : log_items [] ∅ []
| log_writes log V ks e l : log_items log V ks → carried l (entry_records e) → log_items (log ++ [e]) (patch (writes l ∅) V) (ks ++ l.*1)
| log_reset log V ks : log_items log V ks → log_items (log ++ [Records [resetRecord]]) ∅ ks.

(** The records of an export. *)
Definition states (V : items) (ks : list (list byte)) : list (list byte * option item) := (fun k => (k, V !! k)) <$> ks.

Lemma states_keys V ks : (states V ks).*1 = ks.
Proof. unfold states. rewrite <- list_fmap_compose. apply list_fmap_id. Qed.

Lemma records_carried V ks rs : records_of V ks rs → carried (states V ks) rs.
Proof. intros [_ H]. unfold carried, states. by apply Forall2_fmap_l. Qed.

Lemma lookup_writes V ks : ∀ M k, writes (states V ks) M !! k = if bool_decide (k ∈ ks) then Some (V !! k) else M !! k.
Proof.
  unfold states. induction ks as [|k ks IH]; intros M k'; cbn [fmap list_fmap writes]; [done|]. rewrite IH.
  destruct (decide (k' = k)) as [->|Hne].
  - rewrite (bool_decide_true (k ∈ k :: ks)) by by left. rewrite lookup_insert_eq. by destruct (bool_decide _).
  - rewrite lookup_insert_ne by done. by rewrite (bool_decide_ext (k' ∈ k :: ks) (k' ∈ ks)) by (rewrite elem_of_cons; naive_solver).
Qed.

Lemma carried_sane l rs : carried l rs → sane_record <$> rs = rs.
Proof.
  induction 1 as [|[k x] r l rs Hc _ IH]; [done|]. rewrite fmap_cons, IH. f_equal. destruct Hc as (key & _ & Hc).
  cbn [snd] in Hc. destruct x as [[[v|L] d]|]; [destruct Hc as (t & _ & _ & ->)|destruct Hc as (_ & _ & ->)|rewrite Hc]; done.
Qed.

(** Looking again later makes no difference. *)
Lemma alive_alive t u x : Millisecond ≤ t → t ≤ u → alive u (alive t x) = alive u x.
Proof. intros Ht Hu. destruct x as [[v d]|]; [|done]. cbn. destruct (dead t d) eqn:E; [|done]. cbn. by rewrite (dead_mono t u d Ht Hu E). Qed.

Lemma lookup_view_patch u M V k : view u (patch M V) !! k = match M !! k with Some x => alive u x | None => view u V !! k end.
Proof. rewrite !view_alive, lookup_patch. by destruct (M !! k). Qed.

(** The states of some keys at [t], put over items that agree on the others. *)
Lemma view_states t u A V ks : Millisecond ≤ t → t ≤ u → (∀ k, k ∉ ks → view u V !! k = view u A !! k) →
  view u (patch (writes (states (view t A) ks) ∅) V) = view u A.
Proof.
  intros Ht Hu H. apply map_eq. intros k. rewrite lookup_view_patch, lookup_writes. case_bool_decide as Hk; [|by rewrite lookup_empty, H].
  by rewrite !view_alive, alive_alive.
Qed.

(** The same when what was dead at [t'] is dropped. *)
Lemma view_states_alive t t' u A V ks : Millisecond ≤ t → t ≤ t' → t' ≤ u → (∀ k, k ∉ ks → view u V !! k = view u A !! k) →
  view u (patch (alive t' <$> writes (states (view t A) ks) ∅) V) = view u A.
Proof.
  intros Ht Ht' Hu H. apply map_eq. intros k. rewrite lookup_view_patch, lookup_fmap, lookup_writes. case_bool_decide as Hk; [|by rewrite lookup_empty; cbn; rewrite H].
  cbn. rewrite alive_alive, !view_alive, alive_alive by lia. done.
Qed.

Lemma view_agree t u A A' k : Millisecond ≤ t → t ≤ u → view t A !! k = view t A' !! k → view u A !! k = view u A' !! k.
Proof. intros Ht Hu H. rewrite !view_alive in *. by rewrite <- (alive_alive t u (A !! k)), <- (alive_alive t u (A' !! k)), H by lia. Qed.

(** The keys of the items were written. *)
Lemma log_keys log V ks k : log_items log V ks → is_Some (V !! k) → k ∈ ks.
Proof.
  induction 1 as [|log V ks e l _ IH Hc|log V ks _ IH]; intros [x Hx]; [done| |done]. rewrite lookup_patch in Hx. apply elem_of_app.
  destruct (writes l ∅ !! k) as [y|] eqn:E; [right|left; apply IH; eauto]. clear -E.
  assert (H : ∀ M, writes l M !! k = Some y → k ∈ l.*1 ∨ M !! k = Some y).
  { clear E. induction l as [|[k' x] l IH]; intros M E; [by right|]. cbn [writes fmap list_fmap fst] in *. rewrite elem_of_cons.
    destruct (IH _ E) as [?|[[-> _]|[_ ?]]%lookup_insert_Some]; auto. }
  by destruct (H _ E) as [?|[=]].
Qed.

Lemma lookup_writes_over l : ∀ M k, writes l M !! k = match writes l ∅ !! k with Some x => Some x | None => M !! k end.
Proof.
  induction l as [|[k x] l IH]; intros M k'; cbn [writes]; [by rewrite lookup_empty|]. rewrite (IH (<[k := x]> M)), (IH (<[k := x]> ∅)).
  destruct (writes l ∅ !! k'); [done|]. destruct (decide (k = k')) as [<-|]; [by rewrite !lookup_insert_eq|by rewrite !lookup_insert_ne, lookup_empty].
Qed.

(** Records journaled one by one. *)
Lemma log_singles l rs : carried l rs → ∀ log V ks, log_items log V ks →
  log_items (log ++ ((fun r => Records [r]) <$> rs)) (patch (writes l ∅) V) (ks ++ l.*1).
Proof.
  induction 1 as [|[k x] r l rs Hc Hl IH]; intros log V ks Hlog.
  { cbn [fmap list_fmap writes]. by rewrite patch_empty, !app_nil_r. }
  assert (H1 : log_items (log ++ [Records [r]]) (patch (writes [(k, x)] ∅) V) (ks ++ [(k, x)].*1)).
  { constructor; [done|]. cbn [entry_records]. assert (Hone : carried [(k, x)] [r]) by (by constructor). by rewrite (carried_sane _ _ Hone). }
  apply IH in H1. cbn [fmap list_fmap fst writes] in *. rewrite <- !app_assoc in H1. cbn [app] in H1.
  replace (patch (writes l (<[k := x]> ∅)) V) with (patch (writes l ∅) (patch (<[k := x]> ∅) V)); [exact H1|].
  apply map_eq. intros k'. rewrite !lookup_patch, (lookup_writes_over l (<[k := x]> ∅)). by destruct (writes l ∅ !! k').
Qed.

(** ** Requests *)

Definition request_ok (r : request) : Prop := match r with Command c => served c = true ∧ command_ok c | Flush => True end.
Definition request_keys (r : request) : list (list byte) := match r with Command c => touches c | Flush => [] end.
(** What a request may use up of the entry ids and segments of a shard, of its
    key log, and of the size of a list. *)
Definition weight (r : request) : Z := 1 + zlen (request_keys r).
Definition volume (r : request) : Z := 2 * key_sizes (request_keys r).
Definition growth (r : request) : Z := match r with Command c => list_growth c | Flush => 0 end.

Definition ticks (T : Z) (t : clock) : Prop := Millisecond ≤ T ∧ T ≤ t_before t ∧ t_before t ≤ t_exec t ∧ t_exec t ≤ t_after t ∧ t_after t ≤ t_rollback t.

Lemma key_sizes_nonneg ks : 0 ≤ key_sizes ks.
Proof. change 0 with (key_sizes []). apply key_sizes_submseteq, submseteq_nil_l. Qed.

Lemma cost_touches c : served c = true → cost c ≤ key_sizes (touches c).
Proof.
  intros Hs. pose proof (key_sizes_nonneg []) as H0. destruct c; try discriminate Hs; unfold cost; cbn [stores touches from_option]; rewrite ?key_sizes_cons; change (key_sizes []) with 0; try lia.
  all: first [apply key_sizes_nonneg|pose proof (KeyRecordSize_bounds k); lia].
Qed.

Lemma weights r : 1 ≤ weight r ∧ 0 ≤ volume r ∧ 0 ≤ growth r ∧ zlen (request_keys r) = weight r - 1 ∧ 2 * key_sizes (request_keys r) = volume r.
Proof.
  unfold weight, volume. pose proof (zlen_nonneg (request_keys r)). pose proof (key_sizes_nonneg (request_keys r)).
  assert (0 ≤ growth r) by (destruct r as [c|]; [apply list_growth_nonneg|done]). split_and!; lia.
Qed.

Lemma permits_bounded mx V now c a V' B : permits mx V now c a V' → served c = true → bounded V B → 0 ≤ B → bounded V' (B + list_growth c).
Proof.
  intros Hp Hs HV HB. assert (Hm : bounded V (B + list_growth c)) by (eapply bounded_mono; [done|]; pose proof (list_growth_nonneg c); lia).
  pose proof (bounded_view _ now _ (spec_bounded V now c B HV HB Hs)) as Hsp.
  destruct c; try discriminate Hs; destruct Hp as [[_ ->]|[(_ & -> & _)|(_ & -> & _)]]; done.
Qed.

Lemma bounded_packable V B k : bounded V B → 13 + B ≤ maxPackedListBytes → packable_list (V !! k).
Proof.
  intros HV HB. destruct (V !! k) as [[[v|L] d]|] eqn:E; cbn; try done. apply Z.leb_le. pose proof (HV _ _ _ E). lia.
Qed.

Section Journal.
Context (maphash : list byte → Z) (growslice : Z → Z → Z) (lib : Library) `{OV : OtherValues} (o : Orders).
Context (SearchMemoryBytes : Store → Z) (noeviction : bool) (accepts : list journal_entry → journal_entry → bool).
Context (Hcap : cap_bounds (DecodeAll lib)).
Context (Hlex : ∀ src, json_Valid o src = true → lexed src) (Hord : ∀ X, order_keys o X ≡ₚ base.elements X).
Implicit Types (sv : Server) (A V : items) (ks : list (list byte)) (W D B T : Z).

Local Abbreviation fine := (fine maphash lib).
Local Abbreviation serve := (serve maphash growslice lib o SearchMemoryBytes noeviction accepts).

(** The server holds [A], and its journal means the same from [T] on. *)
Record consistent sv A V ks W D B T : Prop := {
  co_fine : fine (sv_store sv) A W D;
  co_log : log_items (sv_journal sv) V ks;
  co_count : zlen ks ≤ W ∧ key_sizes ks ≤ D;
  co_same : ∀ u, T ≤ u → view u V = view u A;
  co_lists : bounded (view T A) B ∧ 0 ≤ B;
  co_failed : durabilityFailed sv = false;
}.

(** The append of a request failed: its effect is undone. *)
Record undone sv A W D (t : clock) (a : answer) sv' : Prop := {
  un_answer : a = AError errAppend;
  un_journal : sv_journal sv' = sv_journal sv;
  un_failed : durabilityFailed sv' = true;
  un_items : ∃ A', fine (sv_store sv') A' W D ∧ ∀ u, t_rollback t ≤ u → view u A' = view u A;
}.

(** What one request does. *)
Definition serves sv A V ks W D B (t : clock) (r : request) (x : res (answer * Server)) : Prop :=
  ∃ a sv', x = Ret (a, sv') ∧
    ((∃ A' V' ks', consistent sv' A' V' ks' (W + weight r) (D + volume r) (B + growth r) (t_rollback t) ∧
        (sv_journal sv' = sv_journal sv ∨ ∃ e, sv_journal sv' = sv_journal sv ++ [e])) ∨
     undone sv A (W + weight r) (D + volume r) t a sv').

Section Step.
Context {sv : Server} {A V : items} {ks : list (list byte)} {W D B T : Z} {t : clock} {r : request}.
Context (Hsv : consistent sv A V ks W D B T) (Ht : ticks T t).
Context (HW : W + weight r ≤ refSegmentMask + 1) (HD : D + volume r ≤ maxLogBytes) (HB : 13 + B + growth r ≤ maxPackedListBytes).

(** The items seen are the same as before: nothing is journaled. *)
Lemma unjournaled s' A' n b : fine s' A' n b → n ≤ W + weight r → b ≤ D + volume r → view (t_exec t) A' = view (t_exec t) A →
  consistent (mkServer s' (sv_journal sv) false) A' V ks (W + weight r) (D + volume r) (B + growth r) (t_rollback t).
Proof using Hsv Ht.
  intros Hf Hn Hb HA. destruct Hsv as [_ C2 [C3 C4] C5 [C6 C7] _]. destruct Ht as (T0 & T1 & T2 & T3 & T4). destruct (weights r) as (W1 & W2 & W3 & _).
  assert (Hv : ∀ u, t_rollback t ≤ u → view u A' = view u A).
  { intros u Hu. rewrite <- (view_later (t_exec t) u A), <- (view_later (t_exec t) u A') by lia. by rewrite HA. }
  split; cbn [sv_store sv_journal durabilityFailed]; try done.
  - eapply fine_mono; [..|done]; lia.
  - lia.
  - intros u Hu. rewrite Hv by done. apply C5. lia.
  - rewrite Hv by done. split; [|lia]. rewrite <- (view_later T (t_rollback t) A) by lia. eapply bounded_mono; [by apply bounded_view|lia].
Qed.

(** An entry with the states of the keys that changed is journaled. *)
Lemma journaled s' A' n b e t' keys : fine s' A' n b → n ≤ W + weight r → b ≤ D + volume r → zlen keys ≤ weight r → key_sizes keys ≤ volume r →
  t_exec t ≤ t' → t' ≤ t_rollback t → carried (states (view t' A') keys) (entry_records e) →
  (∀ k, k ∉ keys → view (t_exec t) A' !! k = view (t_exec t) A !! k) → bounded (view (t_exec t) A') (B + growth r) →
  consistent (mkServer s' (sv_journal sv ++ [e]) false) A' (patch (writes (states (view t' A') keys) ∅) V) (ks ++ keys)
    (W + weight r) (D + volume r) (B + growth r) (t_rollback t).
Proof using Hsv Ht.
  intros Hf Hn Hb Hk1 Hk2 Ht1 Ht2 Hc HA HL. destruct Hsv as [_ C2 [C3 C4] C5 [C6 C7] _]. destruct Ht as (T0 & T1 & T2 & T3 & T4). destruct (weights r) as (W1 & W2 & W3 & _).
  split; cbn [sv_store sv_journal durabilityFailed]; try done.
  - eapply fine_mono; [..|done]; lia.
  - rewrite <- (states_keys (view t' A') keys) at 2. by constructor.
  - rewrite zlen_app, key_sizes_app. lia.
  - intros u Hu. apply view_states; [lia|lia|]. intros k Hk. rewrite C5 by lia. symmetry. apply (view_agree (t_exec t)); [lia|lia|]. by apply HA.
  - split; [|lia]. rewrite <- (view_later (t_exec t) (t_rollback t) A') by lia. by apply bounded_view.
Qed.

(** What was exported before is put back. *)
Lemma rolled_back s' A' n b keys before : fine s' A' n b → n + zlen keys ≤ W + weight r → b + key_sizes keys ≤ D + volume r →
  carried (states (view (t_before t) A) keys) before →
  (∀ k, k ∉ keys → view (t_exec t) A' !! k = view (t_exec t) A !! k) →
  ∃ a sv', roll_back maphash growslice lib o sv s' before (t_rollback t) = Ret (a, sv') ∧ undone sv A (W + weight r) (D + volume r) t a sv'.
Proof using Hcap Hlex Hord Ht HW HD.
  intros Hf Hn Hb Hc HA. destruct Ht as (T0 & T1 & T2 & T3 & T4). unfold roll_back.
  destruct (Restore_ok maphash growslice lib o Hcap Hlex Hord s' A' n b _ before true (t_rollback t) Hf Hc) as (e & s2 & -> & [(-> & Hf2 & _)|(_ & _ & [=] & _)]);
    [lia|unfold states, zlen in *; rewrite length_fmap; lia|rewrite states_keys; lia|].
  rewrite res_bind_ret. eexists _, _. split; [done|]. split; try done. eexists. split; [eapply fine_mono; [..|exact Hf2]; unfold states, zlen in *; rewrite ?length_fmap, ?states_keys; try lia|].
  { fold (states (view (t_before t) A) keys). rewrite states_keys. lia. }
  intros u Hu.
  apply view_states_alive; [lia|lia|done|]. intros k Hk. apply (view_agree (t_exec t)); [lia|lia|]. by apply HA.
Qed.
End Step.

Local Abbreviation executePressure := (executePressure maphash growslice lib SearchMemoryBytes noeviction).

(** A request whose items are not journaled: it reads, or it failed. *)
Lemma kept_serves sv A V ks W D B T t c s' A' (a : answer) : consistent sv A V ks W D B T → ticks T t →
  served c = true → fine s' A' (W + 1) (D + cost c) → view (t_exec t) A' = view (t_exec t) A →
  serves sv A V ks W D B t (Command c) (Ret (a, mkServer s' (sv_journal sv) false)).
Proof.
  intros Hsv Ht Hs Hf HA. eexists _, _. split; [done|]. left. exists A', V, ks. split; [|by left]. destruct (weights (Command c)) as (W1 & W2 & _ & _ & W4).
  pose proof (cost_touches c Hs). cbn [request_keys] in W4. pose proof (key_sizes_nonneg (touches c)). by eapply (unjournaled Hsv Ht s'); [exact Hf|lia|lia|].
Qed.

Lemma same_server sv A V ks W D B T : consistent sv A V ks W D B T → mkServer (sv_store sv) (sv_journal sv) false = sv.
Proof. intros Hsv. pose proof (co_failed _ _ _ _ _ _ _ _ Hsv) as E. destruct sv. cbn in *. by subst. Qed.

Lemma once_bound (ks ks' : list (list byte)) : NoDup ks → (∀ k, k ∈ ks ↔ k ∈ ks') → zlen ks ≤ zlen ks' ∧ key_sizes ks ≤ key_sizes ks'.
Proof.
  clear. intros Hnd H. assert (Hs : ks ⊆+ ks') by (apply NoDup_submseteq; [done|]; intros k; apply H). split; [|by apply key_sizes_submseteq].
  apply submseteq_length in Hs. unfold zlen. lia.
Qed.

(** A request took effect: the keys it named are exported and journaled. *)
Lemma append_serves sv A V ks W D B T t c (a : answer) s1 A1 keys before : consistent sv A V ks W D B T → ticks T t → served c = true →
  W + weight (Command c) ≤ refSegmentMask + 1 → D + volume (Command c) ≤ maxLogBytes → 13 + B + growth (Command c) ≤ maxPackedListBytes →
  records_of (view (t_before t) A) keys before → (∀ k, k ∈ keys ↔ k ∈ touches c) → fine s1 A1 (W + 1) (D + cost c) →
  (∀ k, k ∉ touches c → view (t_exec t) A1 !! k = view (t_exec t) A !! k) → bounded (view (t_exec t) A1) (B + growth (Command c)) →
  serves sv A V ks W D B t (Command c) (after ← Export maphash s1 (Some (touches c)) (t_after t);
    if accepts (sv_journal sv) (Records after) then Ret (a, mkServer s1 (sv_journal sv ++ [Records after]) false)
    else roll_back maphash growslice lib o sv s1 before (t_rollback t)).
Proof using Hcap Hlex Hord.
  intros Hsv Ht Hs HW HD HB Hr0 Hm0 Hf1 Hfr Hb1. pose proof Ht as (T0 & T1 & T2 & T3 & T4). pose proof (cost_touches c Hs) as Hcost.
  destruct (weights (Command c)) as (W1 & W2 & W3 & W4 & W5). cbn [request_keys] in W4, W5. pose proof (key_sizes_nonneg (touches c)) as Hk0. pose proof (zlen_nonneg (touches c)) as Hz0.
  destruct (Export_ok maphash lib Hcap s1 A1 _ _ (t_after t) (Some (touches c)) Hf1) as (ks1 & after & -> & Hr1 & Hm1).
  { intros k _. eapply (bounded_packable _ (B + growth (Command c))); [|lia]. rewrite <- (view_later (t_exec t) (t_after t) A1) by lia. by apply bounded_view. }
  rewrite res_bind_ret. destruct (once_bound _ _ (proj1 Hr0) Hm0). destruct (once_bound _ _ (proj1 Hr1) Hm1). destruct (accepts _ _).
  - eexists _, _. split; [done|]. left. eexists _, _, _. split; [|right; by eexists].
    eapply (journaled Hsv Ht s1 A1 _ _ _ (t_after t) ks1 Hf1); try lia; [|intros k Hk; apply Hfr; by rewrite <- Hm1|done].
    apply records_carried in Hr1. cbn [entry_records]. by rewrite (carried_sane _ _ Hr1).
  - destruct (rolled_back (sv := sv) (A := A) Ht HW HD s1 A1 _ _ keys before Hf1) as (a' & sv' & -> & Hu); [lia|lia|by apply records_carried|intros k Hk; apply Hfr; by rewrite <- Hm0|].
    eexists _, _. split; [done|]. by right.
Qed.

Lemma journaled_serves sv A V ks W D B T t c name args info : consistent sv A V ks W D B T → ticks T t →
  W + weight (Command c) ≤ refSegmentMask + 1 → D + volume (Command c) ≤ maxLogBytes → 13 + B + growth (Command c) ≤ maxPackedListBytes →
  command_ok c → argv c = Some (name, args) → command_info name = Some info → i_write info = true →
  serves sv A V ks W D B t (Command c) (executeJournaled maphash growslice lib o SearchMemoryBytes noeviction accepts sv t name info args c).
Proof using Hcap Hlex Hord.
  intros Hsv Ht HW HD HB Hok Hargs Hinfo Hwr. pose proof Ht as (T0 & T1 & T2 & T3 & T4). pose proof (co_lists _ _ _ _ _ _ _ _ Hsv) as [Hl HB0].
  assert (Hs : served c = true) by (unfold served; by rewrite Hargs). pose proof (cost_touches c Hs) as Hcost.
  destruct (weights (Command c)) as (W1 & W2 & W3 & W4 & W5). cbn [request_keys] in W4, W5. pose proof (key_sizes_nonneg (touches c)) as Hk0. pose proof (zlen_nonneg (touches c)) as Hz0.
  unfold executeJournaled. rewrite (touches_affected c name args info Hargs Hinfo Hwr).
  destruct (Export_ok maphash lib Hcap (sv_store sv) A W D (t_before t) (Some (touches c)) (co_fine _ _ _ _ _ _ _ _ Hsv)) as (ks0 & before & -> & Hr0 & Hm0).
  { intros k _. eapply (bounded_packable _ B); [|lia]. rewrite <- (view_later T (t_before t) A) by lia. by apply bounded_view. }
  rewrite res_bind_ret.
  destruct (pressure_ok maphash growslice lib Hcap SearchMemoryBytes noeviction (sv_store sv) A W D (t_exec t) c name args (co_fine _ _ _ _ _ _ _ _ Hsv) ltac:(lia) ltac:(lia) Hok ltac:(lia) Hargs)
    as (a & s1 & A1 & -> & Hf1 & _ & Hp). rewrite res_bind_ret.
  destruct a; try (apply (append_serves sv A V ks W D B T t c _ s1 A1 ks0); try done;
    [intros k Hk; eapply permits_frame; [apply view_idem|done|exact Hp|done]
    |eapply permits_bounded; [exact Hp|done| |done]; rewrite <- (view_later T (t_exec t) A) by lia; by apply bounded_view]).
  apply (kept_serves sv A V ks W D B T t c s1 A1); try done. eapply permits_error; [apply view_idem|done|exact Hp].
Qed.

(** A plain SET is journaled first. *)
Lemma plain_serves sv A V ks W D B T t k v so : consistent sv A V ks W D B T → ticks T t → let c := CSetOptions k v so in
  W + weight (Command c) ≤ refSegmentMask + 1 → D + volume (Command c) ≤ maxLogBytes → m_max (memory (sv_store sv)) = 0 →
  serves sv A V ks W D B t (Command c) (executePlainSet maphash growslice lib accepts sv t k v).
Proof using Hcap.
  intros Hsv Ht c HW HD Hmax. pose proof Ht as (T0 & T1 & T2 & T3 & T4). destruct (weights (Command c)) as (W1 & W2 & W3 & W4 & W5). cbn [request_keys touches c] in W4, W5.
  rewrite key_sizes_cons in W5. change (key_sizes []) with 0 in W5. pose proof (KeyRecordSize_bounds k). pose proof (co_fine _ _ _ _ _ _ _ _ Hsv) as Hf.
  unfold executePlainSet. destruct (Z.ltb_spec (Z.shiftl 32 20) (zlen v)) as [Hv|Hv].
  { assert (Hf1 : fine (sv_store sv) A (W + 1) (D + cost c)) by (eapply fine_mono; [..|exact Hf]; unfold cost; cbn; lia).
    pose proof (kept_serves sv A V ks W D B T t c _ A (AError errTooLarge) Hsv Ht eq_refl Hf1 eq_refl) as K. by rewrite (same_server sv _ _ _ _ _ _ _ Hsv) in K. }
  destruct (accepts _ _); [|eexists _, _; split; [done|]; right; split; try done; eexists; split; [eapply fine_mono; [..|exact Hf]; lia|done]].
  destruct (Set_ok maphash growslice lib Hcap (now := t_exec t) Hf ltac:(lia) k v) as (a & s1 & A1 & E & Hf1 & _ & Hp); [unfold cost; cbn; lia|].
  cbn [exec_store] in E. unfold on in E. apply res_bind_inv in E as ([r s2] & -> & E). injection E as Ea <-. rewrite res_bind_ret.
  assert (Hsp : spec (view (t_exec t) A) (t_exec t) (CSet k v) = (ADone, <[k := (VStr v, 0)]> (view (t_exec t) A))).
  { cbn [spec]. unfold too_large. change maxValueBytes with (Z.shiftl 32 20). by rewrite (proj2 (Z.ltb_ge _ _)). }
  cbn [permits] in Hp. rewrite Hsp in Hp. cbn [fst snd] in Hp. destruct Hp as [[Ha HV]|[(_ & _ & _ & ?)|(_ & _ & [(k' & L & d & [= <-] & HL & _)|(k' & vs & [=] & _)])]];
    [|lia|rewrite Hsp in HL; cbn [snd] in HL; by rewrite lookup_insert_eq in HL].
  rewrite Ha in Ea. destruct r as [[]|]; [|done]. eexists _, _. split; [done|]. left. eexists _, _, _. split; [|right; by eexists].
  eapply (journaled Hsv Ht _ A1 _ _ _ (t_exec t) [k] Hf1); rewrite ?key_sizes_cons; change (zlen [k]) with 1; change (key_sizes []) with 0; try lia.
  - unfold cost. cbn. lia.
  - cbn [entry_records]. unfold states. cbn [fmap list_fmap]. constructor; [|constructor]. exists (clone k). split; [by destruct k|]. cbn [snd].
    rewrite HV, view_alive, lookup_insert_eq. by exists 0.
  - intros k' Hk. rewrite HV, view_alive, lookup_insert_ne, <- view_alive, view_idem by (intros ->; apply Hk; by left). done.
  - rewrite HV. apply bounded_view, bounded_str. rewrite <- (view_later T (t_exec t) A) by lia. destruct (co_lists _ _ _ _ _ _ _ _ Hsv). eapply bounded_mono; [by apply bounded_view|]. cbn. lia.
Qed.

Lemma live_once sv A V ks W D B T u keys : consistent sv A V ks W D B T → T ≤ u → NoDup keys → (∀ k, k ∈ keys ↔ is_Some (view u A !! k)) →
  zlen keys ≤ W ∧ key_sizes keys ≤ D.
Proof.
  clear. intros [_ C2 [C3 C4] C5 _ _] Hu Hnd Hk. assert (Hs : keys ⊆+ ks).
  { apply NoDup_submseteq; [done|]. intros k Hx. apply (log_keys _ _ _ _ C2). apply Hk in Hx. rewrite <- C5 in Hx by done. rewrite view_alive in Hx.
    destruct (V !! k); [done|by destruct Hx]. }
  pose proof (key_sizes_submseteq _ _ Hs). apply submseteq_length in Hs. unfold zlen in *. lia.
Qed.

Lemma flush_serves sv A V ks W D B T t : consistent sv A V ks W D B T → ticks T t → W + 1 ≤ refSegmentMask + 1 → D ≤ maxLogBytes → 13 + B ≤ maxPackedListBytes →
  serves sv A V ks W D B t Flush (executeFlush maphash growslice lib o accepts sv t).
Proof using Hcap Hlex Hord.
  intros Hsv Ht HW HD HB. pose proof Ht as (T0 & T1 & T2 & T3 & T4). pose proof (co_lists _ _ _ _ _ _ _ _ Hsv) as [Hl HB0]. pose proof (co_fine _ _ _ _ _ _ _ _ Hsv) as Hf.
  unfold executeFlush. rewrite (co_failed _ _ _ _ _ _ _ _ Hsv).
  destruct (Export_ok maphash lib Hcap (sv_store sv) A W D (t_before t) None Hf) as (keys & before & -> & Hr & Hm).
  { intros k _. eapply (bounded_packable _ B); [|lia]. rewrite <- (view_later T (t_before t) A) by lia. by apply bounded_view. }
  rewrite res_bind_ret. destruct (reset_ok maphash lib (sv_store sv) A W D Hf) as [Hf1 _]. destruct (live_once _ _ _ _ _ _ _ _ (t_before t) keys Hsv T1 (proj1 Hr) Hm) as [K1 K2].
  pose proof (zlen_nonneg keys). pose proof (key_sizes_nonneg keys). change (weight Flush) with 1 in *. unfold FlushDB. destruct (accepts _ _).
  - eexists _, _. split; [done|]. left. exists ∅, ∅, ks. split; [|right; by eexists]. destruct Hsv as [_ C2 C3 _ _ _].
    split; cbn [sv_store sv_journal durabilityFailed]; try done; [eapply fine_mono; [..|exact Hf1]|by econstructor| |];
      [change (weight Flush) with 1; lia|change (volume Flush) with 0; lia|change (weight Flush) with 1; change (volume Flush) with 0; lia|].
    change (growth Flush) with 0. split; [|lia]. intros k L d. rewrite view_alive, lookup_empty. done.
  - apply records_carried in Hr as Hc. unfold roll_back.
    destruct (Restore_reset_ok maphash growslice lib o Hcap Hlex Hord _ ∅ 0 0 _ before true (t_rollback t) resetRecord Hf1 eq_refl eq_refl Hc) as (e & s2 & -> & [(-> & Hf2 & _)|(_ & _ & [=] & _)]);
      [lia|unfold states, zlen in *; rewrite length_fmap; lia|rewrite states_keys; lia|].
    rewrite res_bind_ret. eexists _, _. split; [done|]. right. split; try done. eexists.
    split; [eapply fine_mono; [..|exact Hf2]; [unfold states, zlen in *; rewrite length_fmap; change (weight Flush) with 1; lia|rewrite states_keys; change (volume Flush) with 0; lia]|].
    intros u Hu. apply view_states_alive; [lia|lia|done|]. intros k Hk. apply (view_agree (t_before t)); [lia|lia|]. rewrite view_alive, lookup_empty. symmetry. apply eq_None_not_Some. by rewrite <- Hm.
Qed.

(** One request to a server that can write. *)
Lemma serve_ok sv A V ks W D B T t r : consistent sv A V ks W D B T → ticks T t → request_ok r →
  W + weight r ≤ refSegmentMask + 1 → D + volume r ≤ maxLogBytes → 13 + B + growth r ≤ maxPackedListBytes → serves sv A V ks W D B t r (serve sv t r).
Proof using Hcap Hlex Hord.
  intros Hsv Ht Hok HW HD HB. destruct r as [c|]; [|change (volume Flush) with 0 in HD; change (growth Flush) with 0 in HB; apply (flush_serves sv A V ks W D B T t); [done|done|done|lia|lia]].
  destruct Hok as [Hs Hok]. pose proof Ht as (T0 & T1 & T2 & T3 & T4). cbn [Durable.serve]. unfold executeDurable. unfold served in Hs.
  destruct (argv c) as [[name args]|] eqn:Ha; [|done]. clear Hs. assert (Hs : served c = true) by (unfold served; by rewrite Ha).
  destruct (info_of c name args Ha) as (info & Hi & Hread & _). rewrite Hi, (co_failed _ _ _ _ _ _ _ _ Hsv).
  assert (Hun : (spec (view (t_exec t) A) (t_exec t) c).2 = view (t_exec t) A →
    serves sv A V ks W D B t (Command c) ('(a, s) ← executePressure (sv_store sv) (t_exec t) name args c; Ret (a, mkServer s (sv_journal sv) false))).
  { intros Hsp. pose proof (cost_touches c Hs). destruct (weights (Command c)) as (W1 & W2 & _ & _ & W5). cbn [request_keys] in W5. pose proof (key_sizes_nonneg (touches c)).
    destruct (pressure_ok maphash growslice lib Hcap SearchMemoryBytes noeviction (sv_store sv) A W D (t_exec t) c name args (co_fine _ _ _ _ _ _ _ _ Hsv) ltac:(lia) ltac:(lia) Hok ltac:(lia) Ha)
      as (a & s1 & A1 & -> & Hf1 & _ & Hp). rewrite res_bind_ret. apply (kept_serves sv A V ks W D B T t c s1 A1); try done. eapply permits_kept; [apply view_idem|done|exact Hp|done]. }
  destruct (i_write info) eqn:Hw; cbn [negb].
  2: { apply Hun. apply map_eq. intros k. apply spec_frame; [done|]. rewrite (Hread eq_refl). apply not_elem_of_nil. }
  assert (Hj : serves sv A V ks W D B t (Command c)
    (if (zlen args + 1 <? i_min info) || ((0 <? i_max info) && (i_max info <? zlen args + 1))
     then '(a, s) ← executePressure (sv_store sv) (t_exec t) name args c; Ret (a, mkServer s (sv_journal sv) false)
     else executeJournaled maphash growslice lib o SearchMemoryBytes noeviction accepts sv t name info args c)).
  { destruct (_ || _) eqn:E; [apply Hun; by eapply spec_arity|]. by apply (journaled_serves sv A V ks W D B T). }
  destruct (String.eqb_spec name "SET") as [->|]; cbn [andb]; [|done]. destruct (Z.eqb_spec (m_max (memory (sv_store sv))) 0) as [Hm|]; [|done].
  destruct args as [|k [|v [|]]]; try done. destruct (set_request c _ Ha) as (k' & v' & so & -> & [= <- <- _]). by apply (plain_serves sv A V ks W D B T).
Qed.

(** ** A server that can no longer write *)

Record halted sv A W D : Prop := {
  ha_fine : fine (sv_store sv) A W D;
  ha_failed : durabilityFailed sv = true;
}.

Lemma halted_serve sv A W D T t r : halted sv A W D → ticks T t → request_ok r → W + weight r ≤ refSegmentMask + 1 → D + volume r ≤ maxLogBytes →
  ∃ a sv' A', serve sv t r = Ret (a, sv') ∧ halted sv' A' (W + weight r) (D + volume r) ∧ sv_journal sv' = sv_journal sv ∧
    ∀ u, t_rollback t ≤ u → view u A' = view u A.
Proof using Hcap.
  intros [Hf Hd] (T0 & T1 & T2 & T3 & T4) Hok HW HD. destruct (weights r) as (W1 & W2 & _ & _ & W5).
  assert (Hsame : halted sv A (W + weight r) (D + volume r)) by (split; [eapply fine_mono; [..|exact Hf]; lia|done]).
  destruct r as [c|]; [|cbn [Durable.serve]; unfold executeFlush; rewrite Hd; by eexists _, sv, A]. destruct Hok as [Hs Hok]. cbn [Durable.serve]. unfold executeDurable. unfold served in Hs.
  destruct (argv c) as [[name args]|] eqn:Ha; [|done]. clear Hs. assert (Hs : served c = true) by (unfold served; by rewrite Ha).
  destruct (info_of c name args Ha) as (info & Hi & Hread & _). rewrite Hi, Hd. destruct (i_write info) eqn:Hw; cbn [negb]; [by eexists _, sv, A|].
  pose proof (cost_touches c Hs). pose proof (key_sizes_nonneg (touches c)). cbn [request_keys] in W5.
  destruct (pressure_ok maphash growslice lib Hcap SearchMemoryBytes noeviction (sv_store sv) A W D (t_exec t) c name args Hf ltac:(lia) ltac:(lia) Hok ltac:(lia) Ha)
    as (a & s1 & A1 & -> & Hf1 & _ & Hp). rewrite res_bind_ret. eexists _, _, A1. split; [done|]. cbn [sv_journal]. split_and!; [|done|].
  - split; [|done]. eapply fine_mono; [..|exact Hf1]; lia.
  - intros u Hu. rewrite <- (view_later (t_exec t) u A), <- (view_later (t_exec t) u A1) by lia. f_equal. apply map_eq. intros k.
    eapply permits_frame; [apply view_idem|done|exact Hp|]. rewrite (Hread eq_refl). apply not_elem_of_nil.
Qed.

(** ** Sequences of requests *)

Local Abbreviation serve_all := (serve_all maphash growslice lib o SearchMemoryBytes noeviction accepts).

Fixpoint clocked T (trace : list (clock * request)) : Prop :=
  match trace with
  | [] => True
  | (t, _) :: trace => ticks T t ∧ clocked (t_rollback t) trace
  end.

Definition total (f : request → Z) (trace : list (clock * request)) : Z := lsum (fun p => f p.2) trace.
Definition end_time T (trace : list (clock * request)) : Z := foldl (fun _ p => t_rollback p.1) T trace.

(** Requests from some server on, few enough that nothing runs out. *)
Record requests W D B T (trace : list (clock * request)) : Prop := {
  rq_clock : clocked T trace;
  rq_ok : Forall (fun p => request_ok p.2) trace;
  rq_weight : W + total weight trace ≤ refSegmentMask + 1;
  rq_volume : D + total volume trace ≤ maxLogBytes;
  rq_growth : 13 + B + total growth trace ≤ maxPackedListBytes;
}.

Lemma total_nonneg trace : 0 ≤ total weight trace ∧ 0 ≤ total volume trace ∧ 0 ≤ total growth trace.
Proof.
  clear. unfold total. induction trace as [|p trace IH]; [done|]. rewrite !lsum_cons. destruct (weights p.2) as (? & ? & ? & _). lia.
Qed.

Lemma requests_cons W D B T t r trace : requests W D B T ((t, r) :: trace) →
  ticks T t ∧ request_ok r ∧ W + weight r ≤ refSegmentMask + 1 ∧ D + volume r ≤ maxLogBytes ∧ 13 + B + growth r ≤ maxPackedListBytes ∧
  requests (W + weight r) (D + volume r) (B + growth r) (t_rollback t) trace.
Proof.
  clear. intros [[R1 R2] [R3 R4]%Forall_cons R5 R6 R7]. unfold total in *. rewrite lsum_cons in *. cbn [snd] in *. pose proof (total_nonneg trace) as (? & ? & ?). unfold total in *.
  split_and!; try done; try lia. split; try done; unfold total; lia.
Qed.

Lemma end_time_cons T t r trace : end_time T ((t, r) :: trace) = end_time (t_rollback t) trace.
Proof. done. Qed.

Lemma total_cons f (t : clock) r trace : total f ((t, r) :: trace) = f r + total f trace.
Proof. unfold total. by rewrite lsum_cons. Qed.

Lemma clocked_end T trace : clocked T trace → T ≤ end_time T trace.
Proof.
  clear. revert T. induction trace as [|[t r] trace IH]; intros T H; [done|]. destruct H as [(_ & ? & ? & ? & ?) H]. apply IH in H. rewrite end_time_cons. lia.
Qed.

Lemma clocked_app trace1 trace2 : ∀ T, clocked T (trace1 ++ trace2) ↔ clocked T trace1 ∧ clocked (end_time T trace1) trace2.
Proof.
  clear. induction trace1 as [|[t r] trace1 IH]; intros T; cbn [app clocked]; [cbn; naive_solver|]. rewrite IH, end_time_cons. naive_solver.
Qed.

Lemma total_app f trace1 trace2 : total f (trace1 ++ trace2) = total f trace1 + total f trace2.
Proof. induction trace1 as [|[t r] trace1 IH]; [done|]. cbn [app]. rewrite !total_cons, IH. lia. Qed.

Lemma end_time_app T trace1 trace2 : end_time T (trace1 ++ trace2) = end_time (end_time T trace1) trace2.
Proof. apply foldl_app. Qed.

Lemma requests_app W D B T trace1 trace2 : requests W D B T (trace1 ++ trace2) → requests W D B T trace1 ∧
  requests (W + total weight trace1) (D + total volume trace1) (B + total growth trace1) (end_time T trace1) trace2.
Proof.
  clear. intros [[R1 R2]%clocked_app [R3 R4]%Forall_app R5 R6 R7]. rewrite total_app in *. pose proof (total_nonneg trace2) as (? & ? & ?). split; split; try done; lia.
Qed.

Lemma halted_all trace : ∀ sv A W D B T, halted sv A W D → requests W D B T trace →
  ∃ l sv' A', serve_all sv trace = Ret (l, sv') ∧ halted sv' A' (W + total weight trace) (D + total volume trace) ∧ sv_journal sv' = sv_journal sv ∧
    ∀ u, end_time T trace ≤ u → view u A' = view u A.
Proof using Hcap.
  induction trace as [|[t r] trace IH]; intros sv A W D B T Hh Hr.
  { exists [], sv, A. unfold total. cbn. rewrite !Z.add_0_r. done. }
  apply requests_cons in Hr as (Ht & Hok & HW & HD & _ & Hr). destruct (halted_serve sv A W D T t r Hh Ht Hok HW HD) as (a & sv1 & A1 & E & Hh1 & Hj1 & Hv1).
  cbn [Durable.serve_all]. rewrite E, res_bind_ret. destruct (IH sv1 A1 _ _ _ _ Hh1 Hr) as (l & sv' & A' & -> & Hh' & Hj' & Hv'). rewrite res_bind_ret.
  exists (a :: l), sv', A'. rewrite !total_cons, !Z.add_assoc, Hj', Hj1, end_time_cons. split_and!; try done. intros u Hu. rewrite Hv' by done. apply Hv1.
  pose proof (clocked_end _ _ (rq_clock _ _ _ _ _ Hr)). lia.
Qed.

Lemma serve_all_ok trace : ∀ sv A V ks W D B T, consistent sv A V ks W D B T → requests W D B T trace →
  ∃ l sv', serve_all sv trace = Ret (l, sv') ∧
    (durabilityFailed sv' = false → sv_journal sv `prefix_of` sv_journal sv' ∧
      ∃ A' V' ks', consistent sv' A' V' ks' (W + total weight trace) (D + total volume trace) (B + total growth trace) (end_time T trace)).
Proof using Hcap Hlex Hord.
  induction trace as [|[t r] trace IH]; intros sv A V ks W D B T Hsv Hr.
  { exists [], sv. split; [done|]. intros _. split; [done|]. exists A, V, ks. unfold total. cbn. by rewrite !Z.add_0_r. }
  apply requests_cons in Hr as (Ht & Hok & HW & HD & HB & Hr). destruct (serve_ok sv A V ks W D B T t r Hsv Ht Hok HW HD HB) as (a & sv1 & E & Hc).
  cbn [Durable.serve_all]. rewrite E, res_bind_ret. rewrite !total_cons, !Z.add_assoc, end_time_cons. destruct Hc as [(A1 & V1 & ks1 & Hsv1 & Hj)|[_ _ Hfail (A1 & Hf1 & _)]].
  - destruct (IH sv1 A1 V1 ks1 _ _ _ _ Hsv1 Hr) as (l & sv' & -> & Hc). rewrite res_bind_ret. exists (a :: l), sv'. split; [done|]. intros Hn. destruct (Hc Hn) as [Hp ?]. split; [|done].
    etrans; [|exact Hp]. destruct Hj as [->|[e ->]]; [done|by eexists].
  - assert (Hh : halted sv1 A1 (W + weight r) (D + volume r)) by by split.
    destruct (halted_all trace sv1 A1 _ _ _ _ Hh Hr) as (l & sv' & A' & -> & [_ Hh'] & _). rewrite res_bind_ret. exists (a :: l), sv'. split; [done|]. by rewrite Hh'.
Qed.
End Journal.
