(* ===== verification/DurableTheorems.v ===== *)
(** * Recovering a server

    From the log and from a snapshot: what startup makes of the bytes a server
    has written, and what becomes of a write that could not be journaled. *)
From S2P Require Import Prelude Numerals Arena ArenaFacts KeyPack KeyPackFacts Table TableSpec Codec CodecFacts Registry RegistrySpec Entry Shard Shape ShapeFacts ListPack ListFacts Values Engine EngineFacts.
From S2P Require Import StoreFacts Commands Guard ListCommands ListSpec CommandFacts StoreSpec StoreRefines StoreTheorems Records RecordsFacts Persist PersistFacts PersistSpec.
From S2P Require Import Recovery RecoveryFacts RestoreFacts Durable DurableFacts DurableSpec.
Set Default Proof Using "Type".

(** ** Lists of batches *)

Fixpoint apply_list {S} (apply : S → list Record_ → option string * S) (s : S) (l : list (list Record_)) : option string * S :=
  match l with
  | [] => (None, s)
  | rs :: l => match apply s rs with (Some e, s) => (Some e, s) | (None, s) => apply_list apply s l end
  end.

Lemma apply_all_list {S} (apply : S → list Record_ → option string * S) l : ∀ s off,
  (e_error (apply_all apply s off l), e_state (apply_all apply s off l)) = apply_list apply s l.*2.
Proof. induction l as [|[size rs] l IH]; intros s off; [done|]. cbn [apply_all fmap list_fmap snd apply_list]. destruct (apply s rs) as [[e|] s']; [done|apply IH]. Qed.

Lemma apply_each_list {S} (apply : S → list Record_ → option string * S) rs : ∀ s, apply_each apply s rs = apply_list apply s ((fun r => [r]) <$> rs).
Proof. induction rs as [|r rs IH]; intros s; [done|]. cbn [apply_each fmap list_fmap apply_list]. destruct (apply s [r]) as [[e|] s']; [done|apply IH]. Qed.

Lemma apply_list_app {S} (apply : S → list Record_ → option string * S) l l' s s1 : apply_list apply s l = (None, s1) → apply_list apply s (l ++ l') = apply_list apply s1 l'.
Proof. revert s. induction l as [|rs l IH]; intros s; cbn [apply_list app]; [by intros [= ->]|]. destruct (apply s rs) as [[e|] s']; [done|apply IH]. Qed.

(** The whole frames of a prefix are the first ones. *)
Lemma complete_take n fs : ∃ j, (complete n fs).*2 = take j fs.*2 ∧ (j ≤ length fs)%nat ∧
  ∀ m, (m ≤ length fs)%nat → (length (concat (take m fs.*1)) ≤ n)%nat → (m ≤ j)%nat.
Proof.
  revert n. induction fs as [|[f rs] fs IH]; intros n; [exists 0%nat; split_and!; [done|done|by intros]|]. cbn [complete]. rewrite !fmap_cons. cbn [fst snd].
  destruct (Nat.ltb_spec n (length f)) as [H|H].
  { exists 0%nat. split_and!; [done|lia|]. intros [|m] _; [done|]. cbn [take concat]. rewrite length_app. lia. }
  destruct (IH (n - length f)%nat) as (j & E & Hj & Hall). exists (S j). cbn [fmap list_fmap take length snd]. fold ((complete (n - length f) fs).*2).
  split_and!; [by rewrite <- E|lia|]. intros [|m] Hm; [lia|]. cbn [take concat]. rewrite length_app. intros Hn. apply le_n_S, Hall; lia.
Qed.

Section Recovers.
Context (maphash : list byte → Z) (growslice : Z → Z → Z) (lib : Library) `{OV : OtherValues} (o : Orders).
Context (SearchMemoryBytes : Store → Z) (noeviction : bool) (accepts : list journal_entry → journal_entry → bool).
Context (Hcap : cap_bounds (DecodeAll lib)).
Context (Hlex : ∀ src, json_Valid o src = true → lexed src) (Hord : ∀ X, order_keys o X ≡ₚ base.elements X).
Implicit Types (sv : Server) (A V : items) (ks : list (list byte)) (W D B T : Z).

Local Abbreviation fine := (fine maphash lib).
Local Abbreviation consistent := (consistent maphash lib).
Local Abbreviation serve := (serve maphash growslice lib o SearchMemoryBytes noeviction accepts).
Local Abbreviation serve_all := (serve_all maphash growslice lib o SearchMemoryBytes noeviction accepts).
Local Abbreviation recover := (recover maphash growslice lib o).

(** ** Applying a journal *)

(** A clock that does not go back, from one millisecond after the epoch on. *)
Definition ticking (times : nat → Z) : Prop := Millisecond ≤ times 0%nat ∧ ∀ i j, (i ≤ j)%nat → times i ≤ times j.

Lemma recover_writes times i s A n b l rs : ticking times → fine s A n b → m_max (memory s) = 0 → carried l rs →
  n + zlen l ≤ refSegmentMask + 1 → b + key_sizes l.*1 ≤ maxLogBytes →
  ∃ s', recover times (i, Ret s) rs = (None, (S i, Ret s')) ∧ fine s' (patch (alive (times i) <$> writes l ∅) A) (n + zlen l) (b + key_sizes l.*1) ∧ m_max (memory s') = 0.
Proof using Hcap Hlex Hord.
  intros [Ht0 Ht] Hf Hm Hc Hn Hb. pose proof (Ht 0%nat i ltac:(lia)). unfold recover. rewrite res_bind_ret.
  destruct (Restore_ok maphash growslice lib o Hcap Hlex Hord s A n b l rs false (times i) Hf Hc ltac:(lia) Hn Hb) as (e & s' & -> & [(-> & Hf' & Hc')|(_ & _ & _ & ?)]); [|lia].
  exists s'. split_and!; [done|done|]. by rewrite (sc_max _ _ Hc').
Qed.

Lemma log_recovered times s log V ks : ticking times → fine s ∅ 0 0 → m_max (memory s) = 0 → log_items log V ks →
  zlen ks ≤ refSegmentMask + 1 → key_sizes ks ≤ maxLogBytes →
  ∃ s' A', apply_list (recover times) (0%nat, Ret s) (entry_records <$> log) = (None, (length log, Ret s')) ∧ fine s' A' (zlen ks) (key_sizes ks) ∧ m_max (memory s') = 0 ∧
    ∀ u, times (length log) ≤ u → view u A' = view u V.
Proof using Hcap Hlex Hord.
  intros Ht Hf Hm Hlog. pose proof Ht as [Ht0 Htm]. induction Hlog as [|log V ks e l _ IH Hc|log V ks _ IH]; intros Hn Hb.
  - by exists s, ∅.
  - rewrite zlen_app, key_sizes_app in *. pose proof (key_sizes_nonneg l.*1). pose proof (zlen_nonneg l.*1). destruct IH as (s1 & A1 & E & Hf1 & Hm1 & Hv1); [lia|lia|].
    assert (El : zlen l.*1 = zlen l) by (unfold zlen; by rewrite length_fmap).
    destruct (recover_writes times (length log) s1 A1 _ _ l (entry_records e) Ht Hf1 Hm1 Hc ltac:(lia) ltac:(lia)) as (s2 & E2 & Hf2 & Hm2).
    exists s2. eexists. rewrite fmap_app, (apply_list_app _ _ _ _ _ E), length_app, El. cbn [length fmap list_fmap apply_list]. rewrite E2, Nat.add_1_r. split_and!; [done|exact Hf2|done|].
    intros u Hu. pose proof (Htm (length log) (S (length log)) ltac:(lia)). pose proof (Htm 0%nat (length log) ltac:(lia)). apply map_eq. intros k. rewrite !lookup_view_patch, lookup_fmap.
    destruct (writes l ∅ !! k); cbn; [apply alive_alive; lia|]. by rewrite Hv1 by lia.
  - destruct IH as (s1 & A1 & E & Hf1 & Hm1 & Hv1); [done|done|]. pose proof (Htm 0%nat (length log) ltac:(lia)).
    destruct (Restore_reset_ok maphash growslice lib o Hcap Hlex Hord s1 A1 _ _ [] [] false (times (length log)) resetRecord Hf1 eq_refl eq_refl (Forall2_nil_2 _ _ _) ltac:(lia)) as (e & s2 & E2 & Hr); [done|done|].
    destruct (reset_ok maphash lib s1 A1 _ _ Hf1) as [_ Hcr]. pose proof (sc_max _ _ Hcr) as Hmr. destruct Hr as [(-> & Hf2 & Hc2)|(_ & _ & _ & ?)]; [|lia].
    exists s2, ∅. rewrite fmap_app, (apply_list_app _ _ _ _ _ E), length_app. cbn [length fmap list_fmap apply_list entry_records].
    change (sane_record resetRecord) with resetRecord. unfold recover at 1. rewrite res_bind_ret, E2, Nat.add_1_r. pose proof (zlen_nonneg ks). pose proof (key_sizes_nonneg ks).
    split_and!; [done| |by rewrite (sc_max _ _ Hc2), Hmr|done]. cbn [writes] in Hf2. rewrite fmap_empty, patch_empty in Hf2. assert (Hf3 : fine s2 ∅ 0 0) by exact Hf2. by eapply fine_mono; [..|exact Hf3].
Qed.

(** ** The states a server goes through *)

Lemma new_consistent options logs hs s0 : NewWithOptions lib options logs hs = Ret (Ok s0) → consistent (mkServer s0 [] false) ∅ ∅ [] 0 0 0 Millisecond.
Proof.
  intros H. destruct (new_ok maphash lib options logs hs s0 H) as [Hf _]. split; try done. constructor.
Qed.

(** Every length of the journal is that of an earlier moment. *)
Lemma reached trace : ∀ sv A V ks W D B T l sv' j, consistent sv A V ks W D B T → requests W D B T trace → serve_all sv trace = Ret (l, sv') → durabilityFailed sv' = false →
  (length (sv_journal sv) ≤ j ≤ length (sv_journal sv'))%nat →
  ∃ trace1 trace2 l1 sv1 A1 V1 ks1 W1 D1 B1, trace = trace1 ++ trace2 ∧ serve_all sv trace1 = Ret (l1, sv1) ∧ consistent sv1 A1 V1 ks1 W1 D1 B1 (end_time T trace1) ∧
    W1 ≤ W + total weight trace ∧ D1 ≤ D + total volume trace ∧ end_time T trace1 ≤ end_time T trace ∧ sv_journal sv1 = take j (sv_journal sv').
Proof using Hcap Hlex Hord.
  induction trace as [|[t r] trace IH]; intros sv A V ks W D B T l sv' j Hsv Hr E Hn Hj.
  { injection E as <- <-. exists [], [], [], sv, A, V, ks, W, D, B. unfold total. cbn. rewrite take_ge by lia. split_and!; try done; lia. }
  destruct (decide (j = length (sv_journal sv))) as [->|Hne].
  { destruct (serve_all_ok maphash growslice lib o SearchMemoryBytes noeviction accepts Hcap Hlex Hord _ sv A V ks W D B T Hsv Hr) as (l2 & sv2 & E2 & Hc). rewrite E in E2. injection E2 as <- <-.
    destruct (Hc Hn) as [[rest Hp] _]. exists [], ((t, r) :: trace), [], sv, A, V, ks, W, D, B. pose proof (total_nonneg ((t, r) :: trace)) as (? & ? & _). pose proof (clocked_end _ _ (rq_clock _ _ _ _ _ Hr)).
    rewrite Hp, take_app_length. split_and!; try done; lia. }
  apply requests_cons in Hr as (Ht & Hok & HW & HD & HB & Hr). destruct (serve_ok maphash growslice lib o SearchMemoryBytes noeviction accepts Hcap Hlex Hord sv A V ks W D B T t r Hsv Ht Hok HW HD HB) as (a & sv1 & E1 & Hc).
  cbn [Durable.serve_all] in E. rewrite E1, res_bind_ret in E. apply res_bind_inv in E as ([l2 sv2] & E & E'). injection E' as <- <-.
  destruct Hc as [(A1 & V1 & ks1 & Hsv1 & Hjr)|[_ _ Hfail (A1 & Hf1 & _)]].
  - destruct (IH sv1 A1 V1 ks1 _ _ _ _ l2 sv2 j Hsv1 Hr E Hn) as (trace1 & trace2 & l1 & sv3 & A3 & V3 & ks3 & W3 & D3 & B3 & -> & E3 & Hsv3 & HW3 & HD3 & HT3 & HJ3).
    { destruct Hjr as [->|[e ->]]; [lia|]. rewrite length_app. cbn. lia. }
    exists ((t, r) :: trace1), trace2, (a :: l1), sv3, A3, V3, ks3, W3, D3, B3. cbn [Durable.serve_all]. rewrite E1, res_bind_ret, E3, res_bind_ret, !total_cons, !end_time_cons.
    split_and!; try done; lia.
  - assert (Hh : halted maphash lib sv1 A1 (W + weight r) (D + volume r)) by by split.
    destruct (halted_all maphash growslice lib o SearchMemoryBytes noeviction accepts Hcap trace sv1 A1 _ _ _ _ Hh Hr) as (l3 & sv3 & A3 & E3 & [_ Hh3] & _). rewrite E in E3. injection E3 as _ <-. congruence.
Qed.

(** ** Theorems *)

(** A server from its start on. *)
Definition session := requests 0 0 0 Millisecond.

(** What a log holds of a server, cut after [size] bytes: the items after some
    first requests, among them those that journaled the entries still whole. *)
Definition recovered s0 s1 trace sv frames size times (bytes : list byte) : Prop :=
  ∃ i s2 trace1 trace2 answers1 sv1 A1 A2,
    Replay (recover times) (Some bytes) (0%nat, Ret s1) = (None, (i, Ret s2)) ∧
    trace = trace1 ++ trace2 ∧ serve_all (mkServer s0 [] false) trace1 = Ret (answers1, sv1) ∧ sv_journal sv1 = take i (sv_journal sv) ∧
    (∀ m, (m ≤ length frames)%nat → (length (magic ++ concat (take m frames)) ≤ size)%nat → (m ≤ i)%nat) ∧ (i = length frames → trace2 = []) ∧
    store_ok maphash lib (sv_store sv1) A1 ∧ store_ok maphash lib s2 A2 ∧ ∀ u, end_time Millisecond trace ≤ u → times i ≤ u → view u A2 = view u A1.

Lemma moment s0 options logs hs trace answers sv j : NewWithOptions lib options logs hs = Ret (Ok s0) → session trace →
  serve_all (mkServer s0 [] false) trace = Ret (answers, sv) → durabilityFailed sv = false → (j ≤ length (sv_journal sv))%nat →
  ∃ trace1 trace2 l1 sv1 A1 V1 ks1 W1 D1 B1, trace = trace1 ++ trace2 ∧ (j = length (sv_journal sv) → trace2 = []) ∧
    serve_all (mkServer s0 [] false) trace1 = Ret (l1, sv1) ∧ consistent sv1 A1 V1 ks1 W1 D1 B1 (end_time Millisecond trace1) ∧
    W1 ≤ refSegmentMask + 1 ∧ D1 ≤ maxLogBytes ∧ end_time Millisecond trace1 ≤ end_time Millisecond trace ∧ sv_journal sv1 = take j (sv_journal sv).
Proof using Hcap Hlex Hord.
  intros H0 Hs E Hn Hj. pose proof (new_consistent _ _ _ _ H0) as Hsv0. pose proof Hs as [_ _ Hs3 Hs4 _]. destruct (decide (j = length (sv_journal sv))) as [->|Hne].
  - destruct (serve_all_ok maphash growslice lib o SearchMemoryBytes noeviction accepts Hcap Hlex Hord trace _ _ _ _ _ _ _ _ Hsv0 Hs) as (l & sv' & E' & Hall).
    rewrite E in E'. injection E' as <- <-. destruct (Hall Hn) as [_ (A1 & V1 & ks1 & Hsv1)].
    eexists trace, [], answers, sv, A1, V1, ks1, _, _, _. rewrite app_nil_r, take_ge by done. by split_and!.
  - destruct (reached trace _ _ _ _ _ _ _ _ _ _ j Hsv0 Hs E Hn) as (trace1 & trace2 & l1 & sv1 & A1 & V1 & ks1 & W1 & D1 & B1 & Htr & E1 & Hsv1 & HW1 & HD1 & HT1 & HJ1); [cbn; lia|].
    exists trace1, trace2, l1, sv1, A1, V1, ks1, W1, D1, B1. split_and!; try done; lia.
Qed.

Lemma cut_recovered options logs hs s0 options' logs' hs' s1 trace answers sv frames size times :
  NewWithOptions lib options logs hs = Ret (Ok s0) → session trace → NewWithOptions lib options' logs' hs' = Ret (Ok s1) → oMaxMemory options' = 0 →
  serve_all (mkServer s0 [] false) trace = Ret (answers, sv) → durabilityFailed sv = false →
  Forall entry_ok (sv_journal sv) → Forall2 (fun e f => encode_entry e = Ret f) (sv_journal sv) frames → (8 ≤ size)%nat → ticking times →
  recovered s0 s1 trace sv frames size times (take size (magic ++ concat frames)).
Proof using Hcap Hlex Hord.
  intros H0 Hs H1 Hm1 E Hn Hok Henc Hsize Ht. destruct (new_ok maphash lib _ _ _ _ H1) as [Hf1 Hmax1]. rewrite Hm1 in Hmax1.
  destruct (complete_take (size - 8) (zip frames (entry_records <$> sv_journal sv))) as (j & Hj & Hjl & Hjm).
  assert (Hlen : length frames = length (sv_journal sv)) by (symmetry; by eapply Forall2_length). rewrite snd_zip in Hj by (rewrite length_fmap; lia).
  rewrite length_zip_with, length_fmap, Hlen, Nat.min_id in Hjl, Hjm. rewrite fst_zip in Hjm by (rewrite length_fmap; lia).
  destruct (moment s0 options logs hs trace answers sv j H0 Hs E Hn Hjl) as (trace1 & trace2 & l1 & sv1 & A1 & V1 & ks1 & W1 & D1 & B1 & Htr & Hw & E1 & [C1 C2 [C3 C4] C5 _ _] & HW1 & HD1 & HT1 & HJ1).
  rewrite HJ1 in C2. destruct (log_recovered times s1 _ V1 ks1 Ht Hf1 Hmax1 C2 ltac:(lia) ltac:(lia)) as (s2 & A2 & E2 & Hf2 & _ & Hv2).
  rewrite length_take, Nat.min_l in E2, Hv2 by done. exists j, s2, trace1, trace2, l1, sv1, A1, A2. split_and!; [|done|done|done| | |apply C1|apply Hf2|].
  - unfold Replay. rewrite (Read_prefix _ _ _ _ _ Hok Henc Hsize). rewrite apply_all_list, Hj, <- fmap_take. exact E2.
  - intros m Hm. rewrite length_app. cbn [length magic]. intros Hl. apply Hjm; lia.
  - intros Hl. apply Hw. lia.
  - intros u Hu Hi. rewrite Hv2 by done. apply C5. lia.
Qed.

(** C4: a server is recovered from its log. A server on a new store answers any
    session of requests. If every append succeeded, and the file survived up to
    an arbitrary byte past the magic, then replaying it into a new store without
    a memory limit reports no error, and the store holds, at any later time, the
    items the server held after some first requests of the session: those that
    made the journal entries which are whole in the file, and all of the session
    when every entry is. *)
Theorem log_recovers options logs hs s0 options' logs' hs' s1 trace :
  NewWithOptions lib options logs hs = Ret (Ok s0) → session trace → NewWithOptions lib options' logs' hs' = Ret (Ok s1) → oMaxMemory options' = 0 →
  ∃ answers sv, serve_all (mkServer s0 [] false) trace = Ret (answers, sv) ∧
    (durabilityFailed sv = false → ∀ frames size times,
      Forall entry_ok (sv_journal sv) → Forall2 (fun e f => encode_entry e = Ret f) (sv_journal sv) frames → (8 ≤ size)%nat → ticking times →
      recovered s0 s1 trace sv frames size times (take size (magic ++ concat frames))).
Proof using Hcap Hlex Hord.
  intros H0 Hs H1 Hm1. destruct (serve_all_ok maphash growslice lib o SearchMemoryBytes noeviction accepts Hcap Hlex Hord trace _ _ _ _ _ _ _ _ (new_consistent _ _ _ _ H0) Hs) as (answers & sv & E & _).
  exists answers, sv. split; [done|]. intros Hn frames size times. by apply (cut_recovered options logs hs s0 options' logs' hs' s1 trace answers).
Qed.

(** C5: a write that is not journaled is undone. When the append of a request
    fails in a session, its answer says so; the rest of the session is served
    without a change to the items or to the journal, and the items are, at any
    later time, those before the request. *)
Theorem failed_append_undone options logs hs s0 trace1 t r trace2 answers1 sv1 :
  NewWithOptions lib options logs hs = Ret (Ok s0) → session (trace1 ++ (t, r) :: trace2) →
  serve_all (mkServer s0 [] false) trace1 = Ret (answers1, sv1) → durabilityFailed sv1 = false →
  ∃ a sv2 answers3 sv3, serve sv1 t r = Ret (a, sv2) ∧ serve_all sv2 trace2 = Ret (answers3, sv3) ∧
    (durabilityFailed sv2 = true → a = AError errAppend ∧ sv_journal sv3 = sv_journal sv1 ∧
      ∃ A1 A3, store_ok maphash lib (sv_store sv1) A1 ∧ store_ok maphash lib (sv_store sv3) A3 ∧
        ∀ u, end_time Millisecond (trace1 ++ (t, r) :: trace2) ≤ u → view u A3 = view u A1).
Proof using Hcap Hlex Hord.
  intros H0 [Hs1 Hs2]%requests_app E1 Hn. pose proof (new_consistent _ _ _ _ H0) as Hsv0.
  destruct (serve_all_ok maphash growslice lib o SearchMemoryBytes noeviction accepts Hcap Hlex Hord trace1 _ _ _ _ _ _ _ _ Hsv0 Hs1) as (l & sv & E & Hall).
  rewrite E1 in E. injection E as <- <-. destruct (Hall Hn) as [_ (A1 & V1 & ks1 & Hsv1)]. apply requests_cons in Hs2 as (Ht & Hok & HW & HD & HB & Hr).
  destruct (serve_ok maphash growslice lib o SearchMemoryBytes noeviction accepts Hcap Hlex Hord sv1 A1 V1 ks1 _ _ _ _ t r Hsv1 Ht Hok HW HD HB) as (a & sv2 & E2 & Hc). exists a, sv2.
  destruct Hc as [(A2 & V2 & ks2 & Hsv2 & _)|[Ha Hj Hfail (A2 & Hf2 & Hv2)]].
  - destruct (serve_all_ok maphash growslice lib o SearchMemoryBytes noeviction accepts Hcap Hlex Hord trace2 _ _ _ _ _ _ _ _ Hsv2 Hr) as (l3 & sv3 & E3 & _).
    exists l3, sv3. split_and!; [done|done|]. by rewrite (co_failed _ _ _ _ _ _ _ _ _ _ Hsv2).
  - assert (Hh : halted maphash lib sv2 A2 (0 + total weight trace1 + weight r) (0 + total volume trace1 + volume r)) by by split.
    destruct (halted_all maphash growslice lib o SearchMemoryBytes noeviction accepts Hcap trace2 sv2 A2 _ _ _ _ Hh Hr) as (l3 & sv3 & A3 & E3 & [Hf3 _] & Hj3 & Hv3).
    exists l3, sv3. split_and!; [done|done|]. intros _. split_and!; [done|congruence|]. exists A1, A3. split_and!; [apply Hsv1|apply Hf3|]. intros u Hu.
    rewrite end_time_app, end_time_cons in Hu. pose proof (clocked_end _ _ (rq_clock _ _ _ _ _ Hr)). rewrite Hv3 by done. apply Hv2. lia.
Qed.

(** C19: a server is recovered from a snapshot. After any session in which every
    append succeeded the whole key space can be exported, one record for each
    live key; replaying the bytes of a snapshot of these records into a new store
    without a memory limit succeeds, and the store holds, at any later time, the
    items of the server. *)
Theorem snapshot_recovers options logs hs s0 options' logs' hs' s1 trace answers sv u :
  NewWithOptions lib options logs hs = Ret (Ok s0) → session trace → NewWithOptions lib options' logs' hs' = Ret (Ok s1) → oMaxMemory options' = 0 →
  serve_all (mkServer s0 [] false) trace = Ret (answers, sv) → durabilityFailed sv = false → end_time Millisecond trace ≤ u →
  ∃ rs A, Export maphash (sv_store sv) None u = Ret rs ∧ store_ok maphash lib (sv_store sv) A ∧ length rs = size (view u A) ∧
    (∀ bytes times, Forall record_ok rs → snapshot_bytes rs = Ret bytes → ticking times → u ≤ times 0%nat →
      ∃ s2 A2, ReplaySnapshot (recover times) (Some bytes) (0%nat, Ret s1) = (None, (length rs, Ret s2)) ∧ store_ok maphash lib s2 A2 ∧
        ∀ v, times (length rs) ≤ v → view v A2 = view v A).
Proof using Hcap Hlex Hord.
  intros H0 Hs H1 Hm1 E Hn Hu. pose proof (new_consistent _ _ _ _ H0) as Hsv0. destruct (new_ok maphash lib _ _ _ _ H1) as [Hf1 Hmax1]. rewrite Hm1 in Hmax1.
  destruct (serve_all_ok maphash growslice lib o SearchMemoryBytes noeviction accepts Hcap Hlex Hord trace _ _ _ _ _ _ _ _ Hsv0 Hs) as (l & sv' & E' & Hall).
  rewrite E in E'. injection E' as <- <-. destruct (Hall Hn) as [_ (A & V & ks & Hsv)]. pose proof (rq_clock _ _ _ _ _ Hs) as Hck. pose proof (clocked_end _ _ Hck).
  pose proof (co_lists _ _ _ _ _ _ _ _ _ _ Hsv) as [Hl HB0]. pose proof (rq_growth _ _ _ _ _ Hs) as HB.
  destruct (Export_ok maphash lib Hcap (sv_store sv) A _ _ u None (co_fine _ _ _ _ _ _ _ _ _ _ Hsv)) as (keys & rs & Ex & Hr & Hk).
  { intros k _. apply (bounded_packable _ (0 + total growth trace)); [|lia]. rewrite <- (view_later (end_time Millisecond trace) u A) by lia. by apply bounded_view. }
  exists rs, A. pose proof (records_carried _ _ _ Hr) as Hc. assert (Hlen : length rs = length keys) by (symmetry; eapply Forall2_length, Hr).
  split_and!; [done|apply Hsv| |].
  { rewrite Hlen, <- size_dom, <- (size_list_to_set (C := gset (list byte)) keys) by apply Hr. f_equal. apply set_eq. intros k. by rewrite elem_of_list_to_set, Hk, elem_of_dom. }
  intros bytes times Hok Hbytes Ht Hut. destruct (live_once maphash lib _ _ _ _ _ _ _ _ u keys Hsv Hu (proj1 Hr) Hk) as [K1 K2]. destruct Hs as [_ _ Hs3 Hs4 _].
  pose proof (log_singles _ _ Hc [] ∅ [] log_nil) as Hlog. rewrite states_keys in Hlog. cbn [app] in Hlog.
  destruct (log_recovered times s1 _ _ _ Ht Hf1 Hmax1 Hlog ltac:(lia) ltac:(lia)) as (s2 & A2 & E2 & Hf2 & _ & Hv2). rewrite length_fmap in E2, Hv2.
  exists s2, A2. split_and!; [|apply Hf2|].
  - rewrite (ReplaySnapshot_whole _ _ _ _ Hok Hbytes), (carried_sane _ _ Hc), apply_each_list, <- E2. f_equal. rewrite <- list_fmap_compose.
    apply list_fmap_ext. intros i r Hi. cbn. destruct (Forall2_lookup_r _ _ _ _ _ Hc Hi) as (x & _ & Hx). assert (Hone : carried [x] [r]) by (by constructor).
    exact (eq_sym (carried_sane _ _ Hone)).
  - intros v Hv. destruct Ht as [Ht0 Htm]. pose proof (Htm 0%nat (length rs) ltac:(lia)). rewrite Hv2 by done. apply view_states; [lia|lia|]. intros k Hx.
    apply (view_agree u); [lia|lia|]. rewrite view_alive, lookup_empty. symmetry. apply eq_None_not_Some. by rewrite <- Hk.
Qed.

(** C23: records are applied as a whole. Records of strings, lists and deleted keys
    restored after any session on a new store either all take effect, the last
    one of a key winning and those past their deadline removing their key, while
    every other key keeps its item; or the memory limit refuses them and nothing
    has changed, which it does not when they are forced. Memory accounting stays
    exact, the catalog of JSON shapes included. *)
Theorem restore_atomic options logs hs s0 trace l rs force now :
  NewWithOptions lib options logs hs = Ret (Ok s0) → StoreTheorems.session trace → carried l rs → Millisecond ≤ now →
  zlen trace + zlen l ≤ 2 ^ 25 → trace_cost trace + key_sizes l.*1 ≤ maxLogBytes →
  ∃ answers s A e s' A', run maphash growslice lib s0 trace = Ret (answers, s) ∧ store_ok maphash lib s A ∧
    Restore maphash growslice lib o s rs force now = Ret (e, s') ∧ store_ok maphash lib s' A' ∧ accounted s' ∧
    (e = Ok tt ∧ (∀ u k, now ≤ u → view u A' !! k = match writes l ∅ !! k with Some x => alive u x | None => view u A !! k end) ∨
     e = Fail ErrOOM ∧ s' = s ∧ force = false ∧ 0 < oMaxMemory options).
Proof using Hcap Hlex Hord.
  intros H0 Hs Hc Hnow Hn Hb. destruct (session_ok maphash growslice lib Hcap options logs hs s0 trace H0 Hs) as (answers & s & A & _ & E & _ & Hf & Hcf & _).
  change (2 ^ 25) with (refSegmentMask + 1) in Hn.
  destruct (Restore_ok maphash growslice lib o Hcap Hlex Hord s A _ _ l rs force now Hf Hc Hnow Hn Hb) as (e & s' & E' & Hr).
  destruct Hr as [(-> & Hf' & _)|(-> & -> & -> & Hm)].
  - eexists answers, s, A, _, s', _. split_and!; [done|apply Hf|done|apply Hf'|apply Hf'|]. left. split; [done|]. intros u k Hu. rewrite lookup_view_patch, lookup_fmap.
    destruct (writes l ∅ !! k); cbn; [by apply alive_alive|done].
  - eexists answers, s, A, _, s, A. split_and!; [done|apply Hf|done|apply Hf|apply Hf|]. right. split_and!; try done.
    destruct (new_ok maphash lib options logs hs s0 H0) as [_ <-]. by rewrite <- (sc_max _ _ Hcf).
Qed.

(** C36: vector sets are exported but cannot be recovered. The record exported for
    the entry of a vector set is refused by recovery as one of unknown type: the
    largest type recovery knows is that of time series, one less. *)
Theorem vector_sets_refused (s s' : Store) key e value at' force now :
  valueType (entryData e) = TypeVectorSet → decode_key maphash s key e = Ret value → zlen value ≤ Z.shiftl 32 20 → export_expiry maphash s key e = Ret at' →
  ∃ r, export_item maphash s key e = Ret [r] ∧ Restore maphash growslice lib o s' [r] force now = Ret (Fail errRecoveredType, s').
Proof.
  intros Ht Hd Hz Hx. eexists. split; [unfold export_item, export_value; rewrite Ht, Hd, Hx; reflexivity|].
  unfold Restore. cbn [existsb Stream Reset]. rewrite bool_decide_false by (by intros []). cbn [orb]. unfold restoreSingleRecord. cbn [Replication].
  rewrite bool_decide_false by (by intros []). unfold record_refused. cbn [Value ValueType]. change (Z.shiftl 32 20) with 33554432 in Hz. by rewrite (proj2 (Z.ltb_ge _ _)) by lia.
Qed.
End Recovers.

(** ** A concrete server *)

#[local] Existing Instance demo_peers.

(** No streams, hashes, sets or filters. *)
#[local] Instance demo_values : OtherValues := {|
  logicalValue := fun _ _ _ => Err errWrongType; streamPieces := fun _ _ _ _ => Err errWrongType;
  restoreWithStreamDeltas := fun s _ _ _ => Ret (Fail errWrongType, s); recoveredEntry := fun _ _ _ => Ret (Fail errWrongType);
  installStream := fun s _ _ _ _ _ => Ret (Fail errWrongType, s); streamBody := unit; recoveredStream := fun _ => None; stream_memory := fun _ => 0;
  attachStreamBody := fun s _ _ => Ret s; resetDocuments := fun m => m; clear_streams := fun l => l; drop_hash_shapes := fun h => h |}.

Definition demo_json : list byte := text "[1,2]".
Definition demo_orders : Orders := mkOrders (fun src => bool_decide (src = demo_json)) (fun _ _ => []) (fun _ _ => []) base.elements.

Lemma demo_lexed src : json_Valid demo_orders src = true → lexed src.
Proof.
  intros ->%bool_decide_eq_true. change demo_json with [x5b; x31; x2c; x32; x5d]. apply lexed_mark; [done|done|].
  apply (lexed_scalar x31 [] [x2c; x32; x5d]); [done|done|by repeat constructor|done|]. apply lexed_mark; [done|done|].
  apply (lexed_scalar x32 [] [x5d]); [done|done|by repeat constructor|done|]. apply lexed_mark; [done|done|constructor].
Qed.

Lemma demo_ordered X : order_keys demo_orders X ≡ₚ base.elements X.
Proof. done. Qed.

Definition demo_time (n : Z) : clock := mkClock (Second + n * Millisecond) (Second + n * Millisecond) (Second + n * Millisecond + 1) (Second + n * Millisecond + 2).
Definition demo_plain : SetOptions := mkSetOptions false false false false 0 None.
Definition demo_requests : list (clock * request) :=
  [(demo_time 1, Command (CSetOptions (text "old") (text "x") demo_plain)); (demo_time 2, Flush);
   (demo_time 3, Command (CSetOptions (text "user:1") demo_json demo_plain)); (demo_time 4, Command (CPush (text "l") [text "a"; text "b"; text "c"] false));
   (demo_time 5, Command (CAdd (text "n") 41)); (demo_time 6, Command (CAdd (text "n") 1)); (demo_time 7, Command (CPop (text "l") 1 true));
   (demo_time 8, Command (CAppend (text "l") (text "x"))); (demo_time 9, Command (CExpireAt (text "n") (60 * Second) ""));
   (demo_time 10, Command (CDeleteMany [text "user:1"; text "none"])); (demo_time 11, Command (CSetOptions (text "user:2") demo_json demo_plain));
   (demo_time 12, Command (CGetString (text "n")))].

Lemma demo_served : session demo_requests.
Proof. split; [vm_compute; repeat split; discriminate|repeat constructor; vm_compute; done|vm_compute; discriminate|vm_compute; discriminate|vm_compute; discriminate]. Qed.

Definition always (_ : list journal_entry) (_ : journal_entry) : bool := true.
(** The journal that fails from its [n]th entry on. *)
Definition until (n : nat) (log : list journal_entry) (_ : journal_entry) : bool := (length log <? n)%nat.

Local Abbreviation demo_serve accepts := (serve_all demo_hash demo_growslice demo_library demo_orders (fun _ => 0) true accepts (mkServer demo_store [] false)).
Local Abbreviation demo_recover times := (recover demo_hash demo_growslice demo_library demo_orders times).
Definition demo_ticks (i : nat) : Z := 2 * Second + Z.of_nat i.

Lemma demo_ticking : ticking demo_ticks.
Proof. unfold ticking, demo_ticks, Second, Millisecond. split; [lia|]. intros. lia. Qed.

(** The state a run leaves, when its answers are known. *)
Lemma left_state {X Y} (x : res (X * Y)) a d : (p ← x; Ret p.1) = Ret a → x = Ret (a, match x with Ret (_, y) => y | _ => d end).
Proof. destruct x as [[a' y]| |]; cbn; [by intros [= ->]|done|done]. Qed.

(** What the server answers, and what a replay of its whole log finds. *)
Example demo_served_answers : (p ← demo_serve always demo_requests; Ret p.1) =
  Ret [ADone; ADone; ADone; AInt 3; AInt 41; AInt 42; AList [text "a"]; AError errWrongType; ABool true; AInt 1; ADone; AValue (Some (text "42"))].
Proof. vm_compute. reflexivity. Qed.

Definition demo_server : Server := match demo_serve always demo_requests with Ret (_, sv) => sv | _ => mkServer demo_store [] false end.
Definition demo_frames : list (list byte) := (fun e => match encode_entry e with Ret f => f | _ => [] end) <$> sv_journal demo_server.
Definition demo_recovered : option string * (nat * res Store) :=
  Replay (demo_recover demo_ticks) (Some (magic ++ concat demo_frames)) (0%nat, Ret demo_store).

Example demo_replayed : demo_recovered.1 = None ∧ demo_recovered.2.1 = 10%nat ∧
  (s ← demo_recovered.2.2; Export demo_hash s None (3 * Second)) = Export demo_hash (sv_store demo_server) None (3 * Second).
Proof. vm_compute. done. Qed.

Lemma demo_server_ok : demo_serve always demo_requests =
  Ret ([ADone; ADone; ADone; AInt 3; AInt 41; AInt 42; AList [text "a"]; AError errWrongType; ABool true; AInt 1; ADone; AValue (Some (text "42"))], demo_server).
Proof. apply left_state. vm_compute. reflexivity. Qed.

Definition demo_journal : list journal_entry := Eval vm_compute in sv_journal demo_server.

Lemma demo_journal_eq : sv_journal demo_server = demo_journal.
Proof. vm_compute. reflexivity. Qed.

Lemma demo_journal_ok : Forall entry_ok (sv_journal demo_server).
Proof. rewrite demo_journal_eq. repeat constructor; vm_compute; discriminate. Qed.

Lemma demo_journal_encoded : Forall2 (fun e f => encode_entry e = Ret f) (sv_journal demo_server) demo_frames.
Proof. unfold demo_frames. rewrite demo_journal_eq. repeat (constructor; [vm_compute; reflexivity|]). constructor. Qed.

Lemma same_state {X Y} (x : res (X * Y)) a a' b b' : x = Ret (a, b) → x = Ret (a', b') → b' = b.
Proof. by intros -> [= _ ->]. Qed.

(** The file is cut within its third frame. *)
Lemma log_recovers_witness :
  recovered demo_hash demo_growslice demo_library demo_orders (fun _ => 0) true always demo_store demo_store demo_requests demo_server demo_frames 70 demo_ticks
    (take 70 (magic ++ concat demo_frames)).
Proof.
  destruct (log_recovers demo_hash demo_growslice demo_library demo_orders (fun _ => 0) true always demo_cap demo_lexed demo_ordered
    demo_options demo_logs demo_shapes demo_store demo_options demo_logs demo_shapes demo_store demo_requests demo_new demo_served demo_new eq_refl) as (answers & sv & E & H).
  apply (same_state _ _ _ _ _ demo_server_ok) in E as ->. apply H; [vm_compute; reflexivity|exact demo_journal_ok|exact demo_journal_encoded|lia|exact demo_ticking].
Defined.

(** The journal is full after three requests: the append of the fourth fails. *)
Local Abbreviation full_serve := (serve demo_hash demo_growslice demo_library demo_orders (fun _ => 0) true (until 3)).
Local Abbreviation full_serve_all := (serve_all demo_hash demo_growslice demo_library demo_orders (fun _ => 0) true (until 3)).
Definition demo_first : Server := match demo_serve (until 3) (take 3 demo_requests) with Ret (_, sv) => sv | _ => mkServer demo_store [] false end.
Definition demo_push : request := Command (CPush (text "l") [text "a"; text "b"; text "c"] false).

Lemma demo_first_ok : demo_serve (until 3) (take 3 demo_requests) = Ret ([ADone; ADone; ADone], demo_first).
Proof. apply left_state. vm_compute. reflexivity. Qed.

Example demo_refused : (p ← full_serve demo_first (demo_time 4) demo_push; Ret (p.1, durabilityFailed p.2)) = Ret (AError errAppend, true).
Proof. vm_compute. reflexivity. Qed.

Lemma failed_append_undone_witness : ∃ a sv2 answers3 sv3, full_serve demo_first (demo_time 4) demo_push = Ret (a, sv2) ∧ full_serve_all sv2 (drop 4 demo_requests) = Ret (answers3, sv3) ∧
  (durabilityFailed sv2 = true → a = AError errAppend ∧ sv_journal sv3 = sv_journal demo_first ∧
    ∃ A1 A3, store_ok demo_hash demo_library (sv_store demo_first) A1 ∧ store_ok demo_hash demo_library (sv_store sv3) A3 ∧
      ∀ u, end_time Millisecond demo_requests ≤ u → view u A3 = view u A1).
Proof.
  apply (failed_append_undone demo_hash demo_growslice demo_library demo_orders (fun _ => 0) true (until 3) demo_cap demo_lexed demo_ordered
    demo_options demo_logs demo_shapes demo_store (take 3 demo_requests) (demo_time 4) demo_push (drop 4 demo_requests) _ demo_first demo_new demo_served demo_first_ok).
  vm_compute. reflexivity.
Defined.

Lemma snapshot_recovers_witness : ∃ rs A, Export demo_hash (sv_store demo_server) None (2 * Second) = Ret rs ∧ store_ok demo_hash demo_library (sv_store demo_server) A ∧
  length rs = size (view (2 * Second) A) ∧
  (∀ bytes times, Forall record_ok rs → snapshot_bytes rs = Ret bytes → ticking times → 2 * Second ≤ times 0%nat →
    ∃ s2 A2, ReplaySnapshot (demo_recover times) (Some bytes) (0%nat, Ret demo_store) = (None, (length rs, Ret s2)) ∧ store_ok demo_hash demo_library s2 A2 ∧
      ∀ v, times (length rs) ≤ v → view v A2 = view v A).
Proof.
  apply (snapshot_recovers demo_hash demo_growslice demo_library demo_orders (fun _ => 0) true always demo_cap demo_lexed demo_ordered demo_options demo_logs demo_shapes demo_store
    demo_options demo_logs demo_shapes demo_store demo_requests _ demo_server (2 * Second) demo_new demo_served demo_new eq_refl demo_server_ok); vm_compute; [reflexivity|discriminate].
Defined.

(** Two keys are written and one is deleted. *)
Definition demo_states : list (list byte * option item) := [(text "a", Some (VStr demo_json, 0)); (text "user:1", None); (text "l", Some (VList [text "x"], 5000))].
Definition demo_records : list Record_ :=
  [mkRecord false (Some (text "a")) demo_json 0 false 0 None None None; mkRecord false (Some (text "user:1")) [] 0 true 0 None None None;
   mkRecord false (Some (text "l")) (packed [text "x"]) 5000 false TypeList None None None].

Lemma demo_carried : carried demo_states demo_records.
Proof.
  constructor; [exists (Some (text "a")); split; [done|]; exists 0; by vm_compute|]. constructor; [by exists (Some (text "user:1"))|].
  constructor; [exists (Some (text "l")); by vm_compute|constructor].
Qed.

Lemma restore_atomic_witness : ∃ answers s A e s' A', run demo_hash demo_growslice demo_library demo_store demo_commands = Ret (answers, s) ∧ store_ok demo_hash demo_library s A ∧
  Restore demo_hash demo_growslice demo_library demo_orders s demo_records false (2 * Second) = Ret (e, s') ∧ store_ok demo_hash demo_library s' A' ∧ accounted s' ∧
  (e = Ok tt ∧ (∀ u k, 2 * Second ≤ u → view u A' !! k = match writes demo_states ∅ !! k with Some x => alive u x | None => view u A !! k end) ∨
   e = Fail ErrOOM ∧ s' = s ∧ false = false ∧ 0 < oMaxMemory demo_options).
Proof.
  apply (restore_atomic demo_hash demo_growslice demo_library demo_orders demo_cap demo_lexed demo_ordered demo_options demo_logs demo_shapes demo_store demo_commands demo_states demo_records
    false (2 * Second) demo_new demo_session demo_carried); vm_compute; discriminate.
Defined.

(** The entry of the key of [demo_one], with the type of a vector set. *)
Definition demo_vector : entry :=
  let v := entryData demo_found in mkEntry (mkValue (ref v) (rawLength v) (codecID v) TypeVectorSet (hasExpiry v) (rawStable v)) None.

Lemma vector_sets_refused_witness : ∃ r, export_item demo_hash demo_one demo_key demo_vector = Ret [r] ∧
  Restore demo_hash demo_growslice demo_library demo_orders demo_store [r] true Second = Ret (Fail errRecoveredType, demo_store).
Proof.
  apply (vector_sets_refused demo_hash demo_growslice demo_library demo_orders demo_one demo_store demo_key demo_vector (text "hello") 0 true Second); vm_compute; done || discriminate.
Defined.
